(* ===== verification/_CoqProject ===== *)
-Q . S2P
Prelude.v
HashTable.v
Filter.v
FilterMerge.v
FilterLists.v
FilterMergeCorrect.v
CFloat.v
Text.v
BytesFilter.v
BytesFilterCorrect.v
BytesMerge.v
FloatFilter.v
FloatFilterCorrect.v
Bits.v
Base64.v
Varint.v
Digits.v
HugeInt.v
Timestamp.v
Calendar.v
CalendarCorrect.v
CalendarTheorems.v
TimestampText.v
TimestampRoundtrip.v
TypedFilter.v
OutputBuffer.v
OutputBufferCorrect.v
OutputBufferState.v
OutputBufferLoops.v
OutputBufferReach.v
OutputBufferTheorems.v
Exchange.v
ExchangeCorrect.v
MemoryPool.v
MemoryPoolState.v
MemoryPoolReach.v
MemoryPoolTheorems.v
MemoryPoolCalls.v
Catalog.v
Plan.v
CostModel.v
PlanState.v
Blocks.v
Conv.v
ConvCorrect.v
ConvTheorems.v
DecisionTree.v
TreeDump.v
MLVector.v
MLFunctions.v
MLCorrect.v
MLTheorems.v
MLConvolve.v
Encoder.v
LoserTree.v
LoserTreeCorrect.v
LoserTreeTheorems.v
MergeStreams.v
MergeTheorems.v
MmapArena.v
MmapArenaState.v
MmapArenaCorrect.v
MmapArenaReach.v
MmapArenaTheorems.v
MmapManaged.v
Arbitrator.v
ArbitratorState.v
ArbitratorCorrect.v
ArbitratorTheorems.v
ArbitratorIdle.v
ArbitratorQueue.v
BitUtil.v
BitUtilWords.v
BitUtilTheorems.v
BitUtilUpdates.v
BloomFilter.v
