(* ===== verification/Prelude.v ===== *)
(** * CactusDB verification library

    CactusDB is a database for queries that call machine-learning functions.
    It extends the Velox execution engine with an optimizer that rewrites the
    plan of such a query ([src/velox/optimizer]), a cost model that ranks the
    rewritten plans ([src/velox/cost_model]), and the functions themselves
    ([src/velox/ml_functions]).  Scans evaluate simple predicates as pushdown
    filters ([src/velox/type/Filter.h], [Filter.cpp]); what a task produces
    reaches its consumers through output buffers
    ([src/velox/exec/OutputBuffer.h], [OutputBuffer.cpp]), and values travel in
    the encodings of [src/velox/common/encode].  This library models these
    parts and proves what makes them correct.

    ** How the parts interact

    The search keeps a [PlanState]: it asks every rewrite rule which targets
    of the plan it applies to, offers the pairs (target, rule) that have not
    been applied before, and applies the chosen ones.  Rules recognise their
    targets in the printed form of expressions and edit plan trees and
    serialized plans; data they cut into blocks is recorded in the [CataLog].
    The cost estimator walks the resulting plan, takes the sizes of the leaves
    from the catalog and the cost of functions from their registry.  When a
    plan runs, scans test values against the filters, which are combined with
    [mergeWith] and used on column statistics to skip whole row groups.  The
    drivers of a task put the pages they produce into an [OutputBuffer], one
    queue per consumer, and are blocked while it is full; the consumer's
    [ExchangeClient] asks several such buffers for pages and collects them in
    an [ExchangeQueue].  Sorted streams of an operator are merged by a
    [TreeOfLosers].  Every operator takes its memory from a leaf of a tree
    of [MemoryPool]s, whose root stands for the query; when a root is full the
    [SharedArbitrator] moves capacity to it from the roots of other queries.
    Large blocks are cut out of [MmapArena]s.

    ** Files

    - [Prelude]: outcomes of C++ code ([Ok], [Throw], [Undefined]) and their
      monad, machine integers, record update, list lemmas, sums over maps, the
      hint database [cactus] and the tactics.
    - [HashTable]: [BigintValuesUsingHashTable] (constructor, [testInt64],
      [testInt64Range], [testValues]).
    - [Filter]: the other integral filter classes and the dispatch of the
      virtual methods; [accepts] is the set a filter stands for.
    - [FilterMerge]: the factories [createBigintValues] and
      [createNegatedBigintValues] and every [mergeWith].
    - [FilterLists], [FilterMergeCorrect]: their correctness.
    - [CFloat]: [float] and [double] as IEEE 754 binary32 and binary64.
    - [Text]: the string functions of [optimizer/Helper.h].
    - [BytesFilter]: the filter classes on strings, their tests and every
      [mergeWith]; [BytesFilterCorrect], [BytesMerge]: their correctness.
    - [FloatFilter]: [FloatingPointRange] and [MultiRange] over such ranges,
      their tests and every [mergeWith]; [FloatFilterCorrect]: their
      correctness.
    - [Bits]: bytes, bit fields, bounded writes and [nextPowerOfTwo]; [Base64]: encoding and
      decoding of [common/encode/Base64]; [Varint]: [Varint], [ZigZag] and
      [UInt128] of [common/encode].
    - [Digits]: decimal digits; [HugeInt]: [type/HugeInt].
    - [Timestamp]: [struct Timestamp] of [type/Timestamp.h]; [Calendar]:
      [epochToUtc] and the dates of [type/TimestampConversion.cpp];
      [CalendarCorrect], [CalendarTheorems]: a reference calendar and that
      both are inverse to each other; [TimestampText]: writing and reading of
      timestamps; [TimestampRoundtrip]: that they survive it.
    - [TypedFilter]: the filters on timestamps and 128-bit integers, their
      tests, [mergeWith] and serialized forms, and their correctness.
    - [OutputBuffer]: [ArbitraryBuffer], [DestinationBuffer] and
      [OutputBuffer], with shared pages and their reference counts.
      [OutputBufferCorrect]: one destination between a producer and a consumer
      (the step relation [linkStep]); [OutputBufferState]: accounting of shared
      pages and the invariant of a destination; [OutputBufferLoops]: the loops
      over all destinations; [OutputBufferReach]: the critical sections of the
      public functions, and the releases of pages that threads make outside of
      the mutex, as a transition system, its invariant and that every step
      keeps it; [OutputBufferTheorems]: what follows for producers and
      consumers.
    - [Exchange]: [ExchangeQueue] and [ExchangeClient], the reading end, with
      the sources behind the interface [ExchangeSource]; [ExchangeCorrect]: the
      client, its queue and the sources as one transition system of critical
      sections.
    - [MemoryPool]: the pools of [common/memory]: the sections of one pool, the
      tree, operations in progress ([op], [opStep]) and whole calls.
      [MemoryPoolState]: sums, sections and paths; [MemoryPoolReach]: all
      threads as one transition system ([sysStep]) and its invariant [inv];
      [MemoryPoolTheorems]: what follows in every interleaving;
      [MemoryPoolCalls]: calls that run alone, with the interface
      [GrowsCapacity] of the callback that grows a root.
    - [LoserTree]: [TreeOfLosers] and [MergeArray] of [exec/TreeOfLosers.h];
      [LoserTreeCorrect], [LoserTreeTheorems]: the invariant of the tree and
      its flags; [MergeStreams]: the interface [Merger] and what a merger has to
      deliver; [MergeTheorems]: that both classes implement it.
    - [MmapArena]: [MmapArena] and [ManagedMmapArenas] of [common/memory];
      [MmapArenaState]: free and used blocks as tiles of the region;
      [MmapArenaCorrect], [MmapArenaReach]: every call keeps them so;
      [MmapArenaTheorems], [MmapManaged]: what follows for one arena and for
      several.
    - [Arbitrator]: [exec/SharedArbitrator], with a monad for functions that
      throw and keep their state; [ArbitratorState]: its program logic ([wp]),
      the invariant [conserved] and what other threads may do ([rely]);
      [ArbitratorCorrect]: every function; [ArbitratorTheorems],
      [ArbitratorIdle], [ArbitratorQueue]: requests, idle capacity, and turns.
    - [BitUtil]: the bitmaps of [common/base/BitUtil.h]; [BitUtilWords]: masks,
      and that every loop over a range visits its words in order;
      [BitUtilTheorems], [BitUtilUpdates]: what the functions do, bit by bit.
    - [BloomFilter]: [common/base/BloomFilter.h] over these bitmaps.
    - [Catalog]: the class [CataLog], its operations as state transformers and
      as the step relation [cat_step], histograms of categorical columns.
    - [Plan]: plan trees and serialized plans, the searches and edits of
      [optimizer/Helper.h].
    - [CostModel]: [SimpleCostModel] and [SimpleCostEstimator].
    - [PlanState]: [RuleManager] and [PlanState], with the rules behind the
      interface [RewriteAction].
    - [Blocks]: the functions of [optimizer/Helper.h] that cut matrices and
      tables into blocks.
    - [Conv]: [optimizer/ConvHelper.h], convolution as a product of matrices;
      [ConvCorrect]: what becomes of a row of values on its way through
      chunks, blocks and matrices; [ConvTheorems]: whole batches of images.
    - [DecisionTree]: [Tree] and [Forest] of [ml_functions]: the parser of
      XGBoost dumps and the prediction loops.
    - [TreeDump]: the dump format itself and what the parser makes of it.
    - [MLVector]: selected rows, arrays and decoded inputs of [velox/vector],
      and the steps the functions on batches share; [MLFunctions]: the layers
      of [ml_functions], each as the whole of its [apply]; [MLCorrect]: the
      shared steps; [MLTheorems]: the interface [RowFunction], its instances
      and what a sequence of layers computes; [MLConvolve]: [conv2d],
      [vec_scal_add] and [max_pool]; [Encoder]: [ml_functions/Encoder.h].

    Definitions keep the names of the source; where a class is flattened into
    functions the prefix tells the class ([br_] BigintRange, [nbr_] its
    negation, [ht_] and [nht_] the hash tables, [bm_] and [nbm_] the bitmasks,
    [mr_] the multi-range).

    ** What the theorems show

    - Filters: the hash table answers membership for every pattern of
      collisions, its vectorised test agrees with the scalar one, every
      [testInt64] refines the set the filter stands for, [testInt64Range]
      never skips a passing row, the factories mean the list they are given,
      and [mergeWith] is conjunction and terminates, for the pairs the theorem
      lists; the string filters test
      the set they stand for, never skip a passing row group, and merge to
      their conjunction; so do the floating-point filters, outside the inputs
      the theorems name, and their vectorised test agrees with the scalar one.
    - Encodings: Base64 and variable-length integers round trip in every
      variant; decoding any text returns or throws the documented error;
      [canDecode] says exactly when decoding stays in bounds; decoding from a
      source cut into chunks is decoding from memory.
    - Timestamps: conversions to other units and texts round trip, every
      timestamp that is built is in its range, the civil date of every
      timestamp is found within five rounds and is the one of the Gregorian
      calendar, every valid date is recovered from its days; filters on
      timestamps merge to their conjunction, and filters survive serialization.
    - Output buffers: a consumer receives what is produced, in order and
      exactly once, and everything in the end; in every reachable state the
      byte and page counts cover the pages held, and are exact unless a
      broadcast was disturbed by racing releases or by a page sent after the
      end; no internal check fails; producers are blocked only while the
      counts say that the buffer is full; no wakeup is lost.
    - Exchange: pages are taken in the order of their arrival and exactly once,
      a batch is as large as its limit allows, a source has at most one request
      outstanding, and a waiting consumer always waits for such a request,
      unless more sources may come, the client was closed or has no room.
    - Memory pools: in every interleaving an aggregate has reserved what the
      leaves below it have and what is on its way, no critical section fails,
      a root stays within its capacity, and memory that is given back is gone
      from every pool; a call that runs alone returns with the use it was asked
      for, whatever the callback that grows the root answers, and freeing
      undoes allocating.
    - Merging: the tree of losers delivers the values of its streams in order
      and each once, its flag tells exactly the equal neighbours, and
      [MergeArray] delivers what the tree does, for up to 32768 streams.
    - Arenas: the blocks handed out are disjoint and lie in the region, calls
      fail exactly when no free block has the requested bytes rounded up to a
      power of two, free neighbours are always merged, and several arenas keep
      all this while they come and go.
    - Arbitration: whichever way a request ends, and whatever other threads and
      the reclaimers of the queries do within their contract, the capacity of
      the node is the free capacity and that of the pools; a request that
      succeeds has what it asked for; idle capacity is used before a query is
      touched; the query that is aborted is the largest; requests run one at a
      time and each once; the other two requests keep the contract.
    - Bitmaps: the loops over words, with their masks and shortcuts, are walks
      over the rows of the range; filling, combining, counting, searching and
      testing do what they say, bit by bit.  Bloom filters have no false
      negatives, and merging a serialized filter is union; ranges end below row
      2^31 - 64 and merged filters have fewer than 2^25 - 1 words.
    - Optimizer: the offered actions are exactly the applicable ones not taken
      before, a taken action is not offered again until the record is cleared,
      whatever happens in between, an action that is not offered is refused, the dense-to-sparse action is the sparsest one; the
      catalog keeps its maps consistent in every reachable state and keeps
      temporary files alive; searches and edits of plans find and change
      exactly the nodes they name; expression texts are taken apart correctly;
      cut matrices can be put together again, and multiplying block by block
      is multiplying; the matrices made of images and kernels multiply to
      their convolution, for values of any type and any way of adding up.
    - Costs: an estimate exists only when every leaf has statistics and every
      node is supported; chains of functions are costed from the inside out.
    - Trees: parsing a dump in XGBoost's format puts every node in its place;
      the prediction loops terminate, stay in bounds and compute the decision
      tree the array lays out: every row reaches the leaf of the tree the dump
      describes, whose value is read without its last three characters; a
      forest averages its trees.
    - Layers: on flat, constant and repetition-free inputs every selected row
      gets its own result, and layers in sequence compose; of the product of
      matrices only the shape is assumed; embeddings are the
      rows of the weights; [conv2d] is the sum over its windows; one-hot codes
      are exact.
    - A group of theorems states where the code leaves its contract (padding
      cells counted by a merge, inner null flags, the reserved marker in a
      vectorised test, narrowed bounds, floating-point ranges that meet in
      one value, values stored for unbounded ends, NaN lost by a merge,
      overused pools that shrink, rows of a batch that
      share their place, inputs changed in place, windows beyond the first block, a
      histogram write past the end, cut
      leaf values, joins without coefficients, a zero batch size, sibling
      calls in an expression, Base64 texts over 4 GiB, pages counted that
      nobody holds, producers left blocked, errors
      without a message, promises of consumers that do not wait, numbers and
      offsets that are read wrongly, conversions that overflow, week dates of
      far years, tests that are not supported, more streams than the tree has
      numbers for, mapped regions that are never used, an arbitrator that is
      never free again, statistics of overused candidates, Bloom filters of
      different or very large sizes, the last rows an [int32_t] numbers).

    ** Modelling choices

    Integers are [Z] with their width written out: signed overflow of [int]
    and [int64_t] is [Undefined] ([checked64], [checked32]), conversions to a
    narrower type wrap ([swrap]).  Reads and writes out of range, failed
    asserts and division by zero are [Undefined]; [VELOX_CHECK],
    [VELOX_UNREACHABLE], exceptions and [LOG(FATAL)] are [Throw].  Ordered
    maps are [gmap]s read in key order, unordered ones are read in any order.
    Floating point is [SpecFloat] at the width of the source; values that are
    only copied ([Conv]) have any type, and sums that a library forms in an
    order of its own are parameters.  Where a definition has a check of a
    debug build ([VELOX_DCHECK]) it throws as in such a build; in particular a
    memory pool is destroyed only when it is empty.

    Fuel: [mergeWith] uses 3 nested calls, proved enough for every pair of
    filters; the scalar probe makes at most as many steps as the table has
    cells, as in the code; the vectorised probe gets twice the table size,
    proved enough; the tree walk gets one step per array cell, proved enough
    for arrays whose children come after their parents;
    [parseDLExpressions] recurses at most once per character; a batch loop
    gets one iteration per row and one more; [mergeWith] of strings uses 6
    nested calls and of floating-point filters 3, proved enough; the variable-length encoders get the 10 or 19
    steps of the longest code, proved enough for every value; a reservation
    that runs alone gets twice the depth of its pool and eight steps, proved
    enough also when the capacity is grown on the way; the search for a year gets five
    rounds, proved enough for the seconds of every timestamp, and the walk
    over intervals of 400 years as many as lie between the year and 1970; the
    digits of a number get as many steps as its widest value has, proved
    enough; a path in the tree of losers gets 17 levels, proved enough for
    32768 streams, and a merge is drained with one call per value.
    The loops over the bits and groups of a word get 64 rounds, those over the
    words of a range one per row, proved enough.
    Memory reserved below one root is
    assumed to stay under 2^61 bytes.  In the arbitration every access to
    shared state is preceded by a step of the other threads, any function of
    the state that satisfies [rely]; the pools of queries are assumed to have a
    reclaimer and not to be overused ([wfPool]).

    ** Not modelled

    Named time zones (a parameter), multi-ranges over
    timestamps, the rewrite rules themselves (regular expressions
    and [PlanBuilder]), the prototype [optimizer/mcts.cpp],
    which is not built,
    the random images of [ConvHelper.h], the LibTorch models and service calls of [ml_functions],
    reading and writing files, logging, and the Velox engine underneath
    (operators, readers, memory allocators, the allocation of
    runs of pages from a pool; of the arbitrator its metrics and texts; of the output buffers the destruction
    of pages, the threads that call the notifications, and the text of
    [toString]).  Code outside the repository and the
    run-time registries are parameters.

    ** Roadmap

    In this order: the copies of bits between arrays, numeric
    histograms and the loading of coefficients and sparsities, the checks of
    the rewrite rules on plans, the cost functions
    of the layers, and the other variants of the product. *)

From stdpp Require Export base tactics option list sorting numbers strings gmap.
From Stdlib Require Export ZArith Lia.

(** ** Outcomes of C++ code

    A call either returns a value, throws, or reaches behaviour the C++
    standard leaves undefined (signed overflow, out-of-range indexing, a null
    dereference, a failed [assert]).  Undefined behaviour is a value of its own so that "the
    code is free of undefined behaviour" is a provable statement. *)
Inductive exn :=
| VeloxCheckFailed
| VeloxFail
| VeloxUserError
| VeloxUnreachable
| VeloxUnsupported
| RuntimeError (what : string)
| Base64Exception (what : string)
| LengthError
| FatalLog (what : string)
| MemoryCapExceeded
| MemoryAllocError
| OutOfFuel.

Inductive outcome (A : Type) :=
| Ok (a : A)
| Throw (e : exn)
| Undefined.
Arguments Ok {_} _.
Arguments Throw {_} _.
Arguments Undefined {_}.

#[global] Instance exn_eq_dec : EqDecision exn.
Proof. solve_decision. Defined.
#[global] Instance outcome_eq_dec {A} `{EqDecision A} : EqDecision (outcome A).
Proof. solve_decision. Defined.

#[global] Instance outcome_ret : MRet outcome := λ A a, Ok a.
#[global] Instance outcome_bind : MBind outcome := λ A B f m,
  match m with Ok a => f a | Throw e => Throw e | Undefined => Undefined end.
#[global] Instance outcome_fmap : FMap outcome := λ A B f m,
  match m with Ok a => Ok (f a) | Throw e => Throw e | Undefined => Undefined end.

(** [VELOX_CHECK(b)]. *)
Definition velox_check (b : bool) : outcome unit :=
  if b then Ok tt else Throw VeloxCheckFailed.

(** A read of [v[i]] that the code does not check. *)
Definition index {A} (l : list A) (i : Z) : outcome A :=
  if (i <? 0)%Z then Undefined
  else match l !! Z.to_nat i with Some x => Ok x | None => Undefined end.

Lemma bind_Ok_inv {A B} (m : outcome A) (f : A → outcome B) b :
  m ≫= f = Ok b → ∃ a, m = Ok a ∧ f a = Ok b.
Proof. destruct m; simpl; naive_solver. Qed.

Lemma velox_check_Ok b u : velox_check b = Ok u ↔ b = true.
Proof. destruct b, u; naive_solver. Qed.

Section Outcome.
Context {A B : Type}.

(** [mapM_o f l] runs [f] over [l] from the left, stopping at the first
    element that throws. *)
Fixpoint mapM_o (f : A → outcome B) (l : list A) : outcome (list B) :=
  match l with
  | [] => Ok []
  | x :: l => y ← f x; ys ← mapM_o f l; Ok (y :: ys)
  end.

Lemma mapM_o_Ok (f : A → outcome B) l k :
  mapM_o f l = Ok k ↔ Forall2 (λ x y, f x = Ok y) l k.
Proof.
  revert k; induction l as [|x l IH]; intros k; simpl.
  - split; [intros [= <-]; constructor | inversion 1; done].
  - split.
    + intros (y & Hy & (ys & Hys & [= <-])%bind_Ok_inv)%bind_Ok_inv.
      constructor; [done | by apply IH].
    + inversion_clear 1 as [|? y ? ys Hy Hys]. rewrite Hy; simpl.
      apply IH in Hys. by rewrite Hys.
Qed.

Lemma mapM_o_ext (f g : A → outcome B) l : (∀ x, f x = g x) → mapM_o f l = mapM_o g l.
Proof. intros H. induction l as [|x l IH]; [done|]. simpl. by rewrite H, IH. Qed.
End Outcome.

(** [foldM_o f l s] threads the state [s] through [f] over [l]. *)
Fixpoint foldM_o {A S} (f : S → A → outcome S) (l : list A) (s : S) : outcome S :=
  match l with
  | [] => Ok s
  | x :: l => s' ← f s x; foldM_o f l s'
  end.

Lemma foldM_o_app {A S} (f : S → A → outcome S) l1 l2 s :
  foldM_o f (l1 ++ l2) s = (s' ← foldM_o f l1 s; foldM_o f l2 s').
Proof.
  revert s; induction l1 as [|x l1 IH]; intros s; [done|]. simpl.
  destruct (f s x); [apply IH | done..].
Qed.

(** Splits a bind chain that is known to return. *)
Ltac inv_bind :=
  repeat match goal with
  | H : mbind _ _ = Ok _ |- _ =>
      let a := fresh "a" in let Ha := fresh "Ha" in
      apply bind_Ok_inv in H as (a & Ha & H)
  | H : Ok _ = Ok _ |- _ => injection H as H
  | H : Throw _ = Ok _ |- _ => discriminate H
  | H : Undefined = Ok _ |- _ => discriminate H
  | H : velox_check _ = Ok _ |- _ => apply velox_check_Ok in H
  end.

(** ** Machine integers *)
Definition int64_min : Z := -9223372036854775808.
Definition int64_max : Z := 9223372036854775807.
Definition int32_min : Z := -2147483648.
Definition int32_max : Z := 2147483647.
Definition int16_min : Z := -32768.
Definition int16_max : Z := 32767.

Definition is_int64 (z : Z) : Prop := (int64_min ≤ z ≤ int64_max)%Z.
Definition is_int32 (z : Z) : Prop := (int32_min ≤ z ≤ int32_max)%Z.
Definition is_int16 (z : Z) : Prop := (int16_min ≤ z ≤ int16_max)%Z.
Definition int64b (z : Z) : bool := ((int64_min <=? z) && (z <=? int64_max))%Z.
Definition int32b (z : Z) : bool := ((int32_min <=? z) && (z <=? int32_max))%Z.

(** Conversion to an unsigned or a signed type of [w] bits: the value modulo
    [2 ^ w]. *)
Definition uwrap (w z : Z) : Z := (z mod 2 ^ w)%Z.
Definition swrap (w z : Z) : Z := ((z + 2 ^ (w - 1)) mod 2 ^ w - 2 ^ (w - 1))%Z.

(** Signed 64-bit arithmetic: overflow is undefined. *)
Definition checked64 (z : Z) : outcome Z := if int64b z then Ok z else Undefined.
Definition add64 (a b : Z) : outcome Z := checked64 (a + b).
Definition sub64 (a b : Z) : outcome Z := checked64 (a - b).

(** The same for [int]. *)
Definition checked32 (z : Z) : outcome Z := if int32b z then Ok z else Undefined.
Definition add32 (a b : Z) : outcome Z := checked32 (a + b).
Definition mul32 (a b : Z) : outcome Z := checked32 (a * b).

Ltac unfold_ints :=
  unfold is_int64, is_int32, is_int16, int64b, int32b, int64_min, int64_max,
    int32_min, int32_max, int16_min, int16_max in *.

(** Turns every boolean comparison of integers in the context into its
    proposition and closes the goal by linear arithmetic. *)
Ltac blia :=
  unfold_ints;
  repeat match goal with
  | H : context [(_ && _)%bool = true] |- _ => rewrite andb_true_iff in H
  | H : context [(_ && _)%bool = false] |- _ => rewrite andb_false_iff in H
  | H : context [(_ || _)%bool = true] |- _ => rewrite orb_true_iff in H
  | H : context [(_ || _)%bool = false] |- _ => rewrite orb_false_iff in H
  end; lia.

Section Integers.
Local Open Scope Z_scope.

Lemma int64b_spec z : int64b z = true ↔ is_int64 z.
Proof. unfold_ints. lia. Qed.

Lemma checked64_Ok z : is_int64 z → checked64 z = Ok z.
Proof. intros H. unfold checked64. by rewrite (proj2 (int64b_spec z) H). Qed.

Lemma int32b_spec z : int32b z = true ↔ is_int32 z.
Proof. unfold_ints. lia. Qed.

Lemma checked32_Ok z : is_int32 z → checked32 z = Ok z.
Proof. intros H. unfold checked32. by rewrite (proj2 (int32b_spec z) H). Qed.

Lemma checked64_inv z y : checked64 z = Ok y → y = z ∧ is_int64 z.
Proof.
  unfold checked64. destruct (int64b z) eqn:E; [|done].
  intros [= <-]. split; [done | by apply int64b_spec].
Qed.

Lemma swrap_small w z :
  0 < w → - 2 ^ (w - 1) ≤ z < 2 ^ (w - 1) → swrap w z = z.
Proof.
  intros Hw Hz. unfold swrap.
  assert (2 ^ w = 2 * 2 ^ (w - 1)) as ->.
  { rewrite <- Z.pow_succ_r by lia. f_equal. lia. }
  rewrite Z.mod_small; lia.
Qed.

Lemma uwrap_range w z : 0 ≤ w → 0 ≤ uwrap w z < 2 ^ w.
Proof. intros. apply Z.mod_pos_bound. by apply Z.pow_pos_nonneg. Qed.

(** The least witness of a decidable property below a known one. *)
Lemma least_below (P : Z → Prop) `{∀ d, Decision (P d)} n :
  0 ≤ n → P n → ∃ d, 0 ≤ d ≤ n ∧ P d ∧ ∀ e, 0 ≤ e < d → ¬ P e.
Proof.
  intros Hn. pattern n. revert n Hn. apply Zlt_0_ind.
  intros n IH Hn HP. destruct (decide (Exists P (seqZ 0 n))) as [He|Hne].
  - apply Exists_exists in He as (m & Hm%elem_of_seqZ & HPm).
    destruct (IH m) as (d & ? & ? & ?); [lia | done |].
    exists d. split; [lia | done].
  - exists n. split; [lia|]. split; [done|]. intros e He HPe.
    apply Hne, Exists_exists. exists e. rewrite elem_of_seqZ. split; [lia | done].
Qed.
End Integers.

(** ** Lists *)
Lemma filter_all {A} (P : A → Prop) `{∀ x, Decision (P x)} l :
  Forall P l → filter P l = l.
Proof.
  induction 1 as [|x l Hx _ IH]; [done|].
  by rewrite filter_cons, decide_True, IH.
Qed.

Lemma filter_none {A} (P : A → Prop) `{∀ x, Decision (P x)} l :
  Forall (λ x, ¬ P x) l → filter P l = [].
Proof.
  induction 1 as [|x l Hx _ IH]; [done|].
  by rewrite filter_cons, decide_False, IH.
Qed.

Lemma elem_of_concat_map {A B} (f : A → list B) l x :
  x ∈ concat (map f l) ↔ ∃ y, y ∈ l ∧ x ∈ f y.
Proof.
  induction l as [|y l IH]; simpl; [set_solver|]. rewrite elem_of_app, IH. set_solver.
Qed.

Create HintDb cactus discriminated.
Create Rewrite HintDb cactus.
#[export] Hint Resolve uwrap_range : cactus.
#[export] Hint Rewrite checked64_Ok using (unfold_ints; lia) : cactus.

(** ** Assignment to a member

    [r <| proj := v |>] is the record [r] with the member [proj] replaced by
    [v].  A record type takes part by declaring its copy constructor as an
    instance of [Copyable]. *)
Class Copyable (R : Type) := copy_of : R → R.
Class Assign {R T : Type} (proj : R → T) := mkAssign { assign : T → R → R }.
Arguments assign {_ _} proj {Assign} _ _ : rename.
Arguments mkAssign {_ _ _} _.

Ltac build_assign proj :=
  let x := fresh "x" in let r := fresh "r" in
  refine (mkAssign _); intros x r;
  let body := eval hnf in (copy_of r) in
  let abs := eval pattern (proj r) in body in
  match abs with ?F _ => let res := eval cbv beta in (F x) in exact res end.

#[export] Hint Extern 0 (@Assign _ _ ?proj) => build_assign proj : typeclass_instances.

Notation "r <| proj := v |>" := (assign proj v r)
  (at level 1, left associativity, format "r  <| proj  :=  v |>").

(** ** Sums over a map *)
Section Total.
Context {K A : Type} `{!EqDecision K, !Countable K}.
Local Open Scope Z_scope.
Implicit Types (f g : K → A → Z) (m : gmap K A).

Definition total f m : Z := map_fold (λ i x acc, f i x + acc) 0 m.

Lemma total_empty f : total f ∅ = 0.
Proof. apply map_fold_empty. Qed.

Lemma total_insert f m i x : m !! i = None → total f (<[i := x]> m) = f i x + total f m.
Proof. intros H. unfold total. rewrite map_fold_insert_L; [done | intros; lia | done]. Qed.

Lemma total_delete f m i x : m !! i = Some x → total f m = f i x + total f (delete i m).
Proof. intros H. rewrite <- (insert_delete_id m i x H) at 1. apply total_insert, lookup_delete_eq. Qed.

Lemma total_update f m i x y : m !! i = Some x → total f (<[i := y]> m) = total f m - f i x + f i y.
Proof.
  intros H. rewrite (total_delete f m i x H), <- (insert_delete_eq m i y), total_insert by apply lookup_delete_eq. lia.
Qed.

Lemma total_ext f g m : (∀ i x, m !! i = Some x → f i x = g i x) → total f m = total g m.
Proof.
  induction m as [|i x m Hi IH] using map_ind; intros H; [done|]. rewrite !total_insert by done.
  rewrite (H i x) by apply lookup_insert_eq. f_equal. apply IH. intros j y Hj. apply H. rewrite lookup_insert_ne; congruence.
Qed.

Lemma total_nonneg f m : (∀ i x, m !! i = Some x → 0 ≤ f i x) → 0 ≤ total f m.
Proof.
  induction m as [|i x m Hi IH] using map_ind; intros H; [by rewrite total_empty|]. rewrite total_insert by done.
  pose proof (H i x (lookup_insert_eq m i x)). assert (0 ≤ total f m); [|lia].
  apply IH. intros j y Hj. apply H. rewrite lookup_insert_ne; congruence.
Qed.

(** A summand is at most the sum. *)
Lemma total_ge f m i x : (∀ i x, m !! i = Some x → 0 ≤ f i x) → m !! i = Some x → f i x ≤ total f m.
Proof.
  intros H Hi. rewrite (total_delete f m i x Hi). assert (0 ≤ total f (delete i m)); [|lia].
  apply total_nonneg. intros j y [_ Hj]%lookup_delete_Some. by apply (H j y).
Qed.

Lemma total_zero f m : (∀ i x, m !! i = Some x → f i x = 0) → total f m = 0.
Proof.
  intros H. rewrite (total_ext f (λ _ _, 0)) by done. clear H. induction m as [|i x m Hi IH] using map_ind; [done|].
  by rewrite total_insert, IH.
Qed.

Lemma total_replace f m i x : total f (<[i := x]> m) = f i x + total f (delete i m).
Proof. rewrite <- insert_delete_eq. apply total_insert, lookup_delete_eq. Qed.

(** Summands that are zero may be missing. *)
Lemma total_pointwise f g m m' :
  (∀ i, default 0 (f i <$> (m !! i)) = default 0 (g i <$> (m' !! i))) → total f m = total g m'.
Proof.
  revert m'. induction m as [|i x m Hi IH] using map_ind; intros m' H.
  - symmetry. apply total_zero. intros i y Hy. specialize (H i). rewrite lookup_empty, Hy in H. by simpl in H.
  - rewrite total_insert by done. pose proof (H i) as Hx. rewrite lookup_insert_eq in Hx. simpl in Hx.
    assert (total f m = total g (delete i m')) as ->.
    { apply IH. intros j. destruct (decide (j = i)) as [->|]; [by rewrite Hi, lookup_delete_eq|].
      specialize (H j). by rewrite lookup_insert_ne in H; [rewrite lookup_delete_ne|]. }
    rewrite Hx. destruct (m' !! i) as [y|] eqn:Ey; simpl; [by rewrite (total_delete g m' i y) | by rewrite delete_id].
Qed.
End Total.
