(* ===== verification/HashTable.v ===== *)
(** * Open-addressing set of 64-bit integers

    Models the hash table behind [BigintValuesUsingHashTable] of
    [velox/type/Filter.h] and [velox/type/Filter.cpp]: the constructor that
    fills the table, the scalar probe of [testInt64], the range test, and the
    vectorised probe of [testValues].  The theorems relate all of them to
    membership in the list of values the filter was built from. *)
From S2P Require Import Prelude.
Local Open Scope Z_scope.

(** [kEmptyMarker = 0xdeadbeefbadefeedL] stored in an [int64_t]. *)
Definition kEmptyMarker : Z := swrap 64 0xdeadbeefbadefeed.
(** The multiplier [M], "from Murmur hash". *)
Definition M : Z := 0xc6a4a7935bd1e995.
Definition kPaddingElements : nat := 4.

Record BigintValuesUsingHashTable := mkHashTable {
  ht_nullAllowed_ : bool;
  ht_min_ : Z;
  ht_max_ : Z;
  hashTable_ : list Z;
  containsEmptyMarker_ : bool;
  values_ : list Z;
  sizeMask_ : Z
}.

(** [((value * M) & sizeMask_)], computed in [uint64_t]. *)
Definition position (sizeMask value : Z) : Z :=
  Z.land (uwrap 64 (value * M)) sizeMask.

(** [hashTable_[i & sizeMask_]]. *)
Definition slot (sizeMask : Z) (t : list Z) (i : Z) : Z :=
  t !!! Z.to_nat (Z.land i sizeMask).

(** The inner [for] of the constructor: at most [n] probes from [i]. *)
Fixpoint insertFrom (sizeMask value : Z) (t : list Z) (i : Z) (n : nat) : list Z :=
  match n with
  | O => t
  | S n' =>
      if slot sizeMask t i =? kEmptyMarker
      then <[Z.to_nat (Z.land i sizeMask) := value]> t
      else insertFrom sizeMask value t (i + 1) n'
  end.

(** The body of the constructor's loop over [values]. *)
Definition insertValue (sizeMask : Z) (st : list Z * bool) (value : Z) : list Z * bool :=
  let '(t, marker) := st in
  if value =? kEmptyMarker then (t, true)
  else (insertFrom sizeMask value t (position sizeMask value)
          (Z.to_nat (sizeMask + 1)), marker).

(** [hashTable_[sizeMask_ + 1 + i] = hashTable_[sizeMask_]] for each padding
    element. *)
Definition replicateLast (sizeMask : Z) (t : list Z) : list Z :=
  foldl (λ t i, <[Z.to_nat (sizeMask + 1) + i := t !!! Z.to_nat sizeMask]> t)%nat
    t (seq 0 kPaddingElements).

(** [1u << (uint32_t)std::log2(values.size() * 5)]; a shift of 32 or more is
    undefined. *)
Definition tableSize (n : nat) : outcome Z :=
  let shift := Z.log2 (Z.of_nat n * 5) in
  if shift <? 32 then Ok (Z.shiftl 1 shift) else Undefined.

Definition newBigintValuesUsingHashTable (min max : Z) (values : list Z)
    (nullAllowed : bool) : outcome BigintValuesUsingHashTable :=
  velox_check (min <? max) ;;
  velox_check (1 <? length values)%nat ;;
  size ← tableSize (length values);
  let sizeMask := size - 1 in
  let t0 := replicate (Z.to_nat size + kPaddingElements) kEmptyMarker in
  let '(t1, marker) := foldl (insertValue sizeMask) (t0, false) values in
  Ok (mkHashTable nullAllowed min max (replicateLast sizeMask t1) marker
        (merge_sort Z.le values) sizeMask).

(** The copying constructor [BigintValuesUsingHashTable(other, nullAllowed)]. *)
Definition ht_withNull (h : BigintValuesUsingHashTable) (nullAllowed : bool) :=
  mkHashTable nullAllowed (ht_min_ h) (ht_max_ h) (hashTable_ h)
    (containsEmptyMarker_ h) (values_ h) (sizeMask_ h).

(** The probe loop of [testInt64], at most [n] steps from [i]. *)
Fixpoint probe (sizeMask : Z) (t : list Z) (value i : Z) (n : nat) : bool :=
  match n with
  | O => false
  | S n' =>
      let l := slot sizeMask t i in
      if l =? kEmptyMarker then false
      else if l =? value then true
      else probe sizeMask t value (i + 1) n'
  end.

Definition ht_testInt64 (h : BigintValuesUsingHashTable) (value : Z) : bool :=
  if containsEmptyMarker_ h && (value =? kEmptyMarker) then true
  else if (value <? ht_min_ h) || (value >? ht_max_ h) then false
  else probe (sizeMask_ h) (hashTable_ h) value
         (position (sizeMask_ h) value) (Z.to_nat (sizeMask_ h + 1)).

(** [std::lower_bound] on a sorted range: the elements from the first one not
    below [x]. *)
Fixpoint lower_bound (l : list Z) (x : Z) : list Z :=
  match l with
  | [] => []
  | y :: l' => if y <? x then lower_bound l' x else l
  end.

Definition ht_testInt64Range (h : BigintValuesUsingHashTable) (min max : Z)
    (hasNull : bool) : outcome bool :=
  if hasNull && ht_nullAllowed_ h then Ok true
  else if min =? max then Ok (ht_testInt64 h min)
  else if (min >? ht_max_ h) || (max <? ht_min_ h) then Ok false
  else match lower_bound (values_ h) min with
       | [] => Undefined
       | x :: _ => if min =? x then Ok true else Ok (max >=? x)
       end.

(** ** The vectorised probe

    [testValues] tests a batch of [xsimd::batch<int64_t>::size] lanes.  The
    lanes are independent of one another once the two early returns are past,
    so the batch is a list and each lane is resolved on its own. *)

Definition outOfRange (h : BigintValuesUsingHashTable) (v : Z) : bool :=
  (v <? ht_min_ h) || (v >? ht_max_ h).

(** [xsimd::load_unaligned(hashTable_.data() + index)]: [n] cells from
    [index]; reading past the end of the vector is undefined. *)
Definition loadLine (t : list Z) (index : Z) (n : nat) : outcome (list Z) :=
  if (0 <=? index) && (index + Z.of_nat n <=? Z.of_nat (length t))
  then Ok (take n (drop (Z.to_nat index) t)) else Undefined.

(** The [for (;;)] that resolves one lane, [n] cells at a time. *)
Fixpoint resolveLane (sizeMask : Z) (t : list Z) (n : nat) (value index : Z)
    (fuel : nat) : outcome bool :=
  match fuel with
  | O => Throw OutOfFuel
  | S fuel' =>
      line ← loadLine t index n;
      if existsb (Z.eqb value) line then Ok true
      else if existsb (Z.eqb kEmptyMarker) line then Ok false
      else
        let index' := index + Z.of_nat n in
        resolveLane sizeMask t n value
          (if index' >? sizeMask then 0 else index') fuel'
  end.

Definition testLane (h : BigintValuesUsingHashTable) (n : nat) (v : Z) : outcome bool :=
  let idx := position (sizeMask_ h) v in
  let data := if outOfRange h v then kEmptyMarker
              else hashTable_ h !!! Z.to_nat idx in
  if v =? data then Ok true
  else if data =? kEmptyMarker then Ok false
  else resolveLane (sizeMask_ h) (hashTable_ h) n v (idx + 1)
         (2 * Z.to_nat (sizeMask_ h + 2)).

Definition ht_testValues64 (h : BigintValuesUsingHashTable) (x : list Z) : outcome (list bool) :=
  if forallb (outOfRange h) x then Ok (map (λ _, false) x)
  else if containsEmptyMarker_ h then Ok (map (ht_testInt64 h) x)
  else mapM_o (testLane h (length x)) x.

(** The 32-bit batch is tested as two 64-bit halves. *)
Definition ht_testValues32 (h : BigintValuesUsingHashTable) (x : list Z) : outcome (list bool) :=
  first ← ht_testValues64 h (take (length x / 2) x);
  second ← ht_testValues64 h (drop (length x / 2) x);
  Ok (first ++ second).

(** ** The table invariant *)

(** The values stored in the table proper (without the padding). *)
Definition contents (k : Z) (t : list Z) : list Z :=
  filter (.≠ kEmptyMarker) (take (Z.to_nat (2 ^ k)) t).

(** [t] holds exactly the values of [vs], with their multiplicity, each
    reachable from its home position through occupied slots. *)
Record table_inv (k : Z) (t : list Z) (vs : list Z) : Prop := {
  ti_len : (Z.to_nat (2 ^ k) ≤ length t)%nat;
  ti_perm : contents k t ≡ₚ vs;
  ti_reach : ∀ v, v ∈ vs → ∃ d : Z, 0 ≤ d < 2 ^ k ∧
    slot (2 ^ k - 1) t (position (2 ^ k - 1) v + d) = v ∧
    ∀ e, 0 ≤ e < d → slot (2 ^ k - 1) t (position (2 ^ k - 1) v + e) ≠ kEmptyMarker
}.

Section Slots.
Context (k : Z) (Hk : 0 ≤ k).
Let mask := 2 ^ k - 1.

Lemma land_mask i : Z.land i mask = i mod 2 ^ k.
Proof. unfold mask. rewrite <- Z.land_ones by done. by rewrite Z.ones_equiv. Qed.

Lemma mask_bound i : 0 ≤ Z.land i mask < 2 ^ k.
Proof. rewrite land_mask. apply Z.mod_pos_bound. by apply Z.pow_pos_nonneg. Qed.

Lemma position_bound v : 0 ≤ position mask v < 2 ^ k.
Proof. apply mask_bound. Qed.

Lemma slot_insert t i j v :
  (Z.to_nat (2 ^ k) ≤ length t)%nat →
  slot mask (<[Z.to_nat (Z.land i mask) := v]> t) j =
  if decide (Z.land i mask = Z.land j mask) then v else slot mask t j.
Proof.
  intros Hlen. pose proof (mask_bound i). pose proof (mask_bound j). unfold slot.
  destruct (decide _) as [->|Hne].
  - apply list_lookup_total_insert_eq. lia.
  - apply list_lookup_total_insert_ne. lia.
Qed.

Lemma slot_shift_eq t i j : i mod 2 ^ k = j mod 2 ^ k → slot mask t i = slot mask t j.
Proof. intros H. unfold slot. by rewrite !land_mask, H. Qed.

Lemma slot_cyclic i j :
  ∃ d, 0 ≤ d < 2 ^ k ∧ Z.land (i + d) mask = Z.land j mask.
Proof.
  assert (0 < 2 ^ k) by (by apply Z.pow_pos_nonneg).
  exists ((j - i) mod 2 ^ k). split; [by apply Z.mod_pos_bound|].
  rewrite !land_mask, Zplus_mod_idemp_r. f_equal. lia.
Qed.

Lemma slot_lookup t i :
  (Z.to_nat (2 ^ k) ≤ length t)%nat →
  take (Z.to_nat (2 ^ k)) t !! Z.to_nat (Z.land i mask) = Some (slot mask t i).
Proof.
  intros Hlen. pose proof (mask_bound i). rewrite lookup_take_lt by lia.
  apply list_lookup_lookup_total_lt. lia.
Qed.

Lemma ti_sound t vs i :
  table_inv k t vs → slot mask t i ≠ kEmptyMarker → slot mask t i ∈ vs.
Proof.
  intros [Hlen <- _] Hne. unfold contents. rewrite list_elem_of_filter. split; [done|].
  by eapply list_elem_of_lookup_2, slot_lookup.
Qed.

Lemma ti_marker t vs : table_inv k t vs → kEmptyMarker ∉ vs.
Proof. intros [_ <- _] [? _]%list_elem_of_filter. done. Qed.

(** Pigeonhole: a table with fewer values than slots has an empty slot. *)
Lemma empty_slot_exists t vs :
  table_inv k t vs → Z.of_nat (length vs) < 2 ^ k →
  ∃ i, 0 ≤ i < 2 ^ k ∧ slot mask t i = kEmptyMarker.
Proof.
  intros [Hlen Hperm _] Hlt.
  destruct (decide (Exists (λ i, slot mask t i = kEmptyMarker) (seqZ 0 (2 ^ k))))
    as [(i & Hi & He)%Exists_exists|Hall].
  { apply elem_of_seqZ in Hi. exists i. split; [lia | done]. }
  exfalso. assert (contents k t = take (Z.to_nat (2 ^ k)) t) as Hc.
  { apply filter_all, Forall_lookup_2. intros i x Hi E. apply Hall, Exists_exists.
    apply lookup_take_Some in Hi as [Hi Hlt'].
    exists (Z.of_nat i). rewrite elem_of_seqZ. split; [lia|].
    unfold slot. rewrite land_mask, Z.mod_small, Nat2Z.id by lia.
    by rewrite <- E, (list_lookup_total_correct t i x). }
  apply Permutation_length in Hperm. rewrite Hc, length_take in Hperm. lia.
Qed.

Lemma contents_insert t i v :
  (Z.to_nat (2 ^ k) ≤ length t)%nat → slot mask t i = kEmptyMarker → v ≠ kEmptyMarker →
  contents k (<[Z.to_nat (Z.land i mask) := v]> t) ≡ₚ v :: contents k t.
Proof.
  intros Hlen He Hv. pose proof (slot_lookup t i Hlen) as Hl. rewrite He in Hl.
  pose proof (mask_bound i). unfold contents.
  rewrite take_insert_lt by lia.
  rewrite <- (take_drop_middle _ _ _ Hl) at 2.
  rewrite insert_take_drop by (apply lookup_lt_Some in Hl; lia).
  rewrite !filter_app, !filter_cons, decide_True by done.
  rewrite (decide_False (P := kEmptyMarker ≠ kEmptyMarker)) by naive_solver.
  by rewrite Permutation_middle.
Qed.

Lemma insertFrom_at t v i n d :
  0 ≤ d < Z.of_nat n → slot mask t (i + d) = kEmptyMarker →
  (∀ e, 0 ≤ e < d → slot mask t (i + e) ≠ kEmptyMarker) →
  insertFrom mask v t i n = <[Z.to_nat (Z.land (i + d) mask) := v]> t.
Proof.
  revert i d; induction n as [|n IH]; intros i d Hd He Hne; [lia|]. simpl.
  destruct (Z.eqb_spec (slot mask t i) kEmptyMarker) as [E|E].
  - assert (d = 0) as ->.
    { destruct (decide (d = 0)); [done|]. exfalso. apply (Hne 0); [lia|]. by rewrite Z.add_0_r. }
    by rewrite Z.add_0_r.
  - assert (d ≠ 0) by (intros ->; rewrite Z.add_0_r in He; done).
    rewrite (IH (i + 1) (d - 1)); [do 3 f_equal; lia | lia | |].
    + by replace (i + 1 + (d - 1)) with (i + d) by lia.
    + intros e Hee. replace (i + 1 + e) with (i + (e + 1)) by lia. apply Hne. lia.
Qed.

Lemma insertFrom_length v t i n : length (insertFrom mask v t i n) = length t.
Proof.
  revert i; induction n as [|n IH]; intros i; simpl; [done|].
  destruct (_ =? _); [apply length_insert | apply IH].
Qed.

(** The first empty slot on the probe path of any position. *)
Lemma first_empty t vs i :
  table_inv k t vs → Z.of_nat (length vs) < 2 ^ k →
  ∃ d, 0 ≤ d < 2 ^ k ∧ slot mask t (i + d) = kEmptyMarker ∧
       ∀ e, 0 ≤ e < d → slot mask t (i + e) ≠ kEmptyMarker.
Proof.
  intros Hinv Hlt. destruct (empty_slot_exists _ _ Hinv Hlt) as (j & Hj & Hej).
  destruct (slot_cyclic i j) as (d0 & Hd0 & Hl).
  destruct (least_below (λ d, slot mask t (i + d) = kEmptyMarker) d0)
    as (d & Hd & He & Hmin); [lia | unfold slot; by rewrite Hl|].
  exists d. split; [lia | done].
Qed.

Lemma insert_preserves t vs v :
  table_inv k t vs → Z.of_nat (length vs) < 2 ^ k → v ≠ kEmptyMarker →
  table_inv k (insertFrom mask v t (position mask v) (Z.to_nat (mask + 1))) (v :: vs).
Proof.
  intros Hinv Hlt Hv.
  destruct (first_empty t vs (position mask v) Hinv Hlt) as (d & Hd & He & Hne).
  rewrite (insertFrom_at t v _ _ d); [|unfold mask; lia | done | done].
  pose proof (ti_marker _ _ Hinv) as Hmk. destruct Hinv as [Hlen Hperm Hreach].
  split; fold mask.
  - by rewrite length_insert.
  - by rewrite contents_insert, Hperm.
  - intros w [->|Hw]%elem_of_cons.
    + exists d. split; [done|]. rewrite slot_insert, decide_True by done. split; [done|].
      intros e Hee. rewrite slot_insert by done. case_decide; [done | by apply Hne].
    + destruct (Hreach w Hw) as (d' & Hd' & Hs & Hocc). exists d'. split; [done|].
      fold mask in Hs, Hocc. split.
      * rewrite slot_insert by done. case_decide as E; [|done].
        exfalso. assert (w = kEmptyMarker) as Hwm.
        { rewrite <- Hs, <- He. unfold slot. by rewrite E. }
        by rewrite <- Hwm in Hmk.
      * intros e Hee. rewrite slot_insert by done. case_decide; [done | by apply Hocc].
Qed.

Lemma table_inv_empty : table_inv k (replicate (Z.to_nat (2 ^ k) + kPaddingElements) kEmptyMarker) [].
Proof.
  split.
  - rewrite length_replicate. lia.
  - unfold contents. rewrite take_replicate, Nat.min_l by lia.
    rewrite filter_none; [done|]. apply Forall_replicate. naive_solver.
  - intros v Hv. by apply not_elem_of_nil in Hv.
Qed.

Lemma fold_preserves values t mk vs :
  table_inv k t vs → Z.of_nat (length vs + length values) < 2 ^ k →
  ∃ t', foldl (insertValue mask) (t, mk) values =
        (t', mk || bool_decide (kEmptyMarker ∈ values)) ∧
        table_inv k t' (rev (filter (.≠ kEmptyMarker) values) ++ vs) ∧
        length t' = length t.
Proof.
  revert t mk vs; induction values as [|v values IH]; intros t mk vs Hinv Hlt; simpl.
  { exists t. split; [by rewrite orb_false_r | done]. }
  simpl in Hlt. rewrite filter_cons. destruct (Z.eqb_spec v kEmptyMarker) as [->|Hv].
  - rewrite decide_False by naive_solver.
    destruct (IH t true vs) as (t' & -> & Hinv' & Hlen); [done | lia |].
    exists t'. split; [|done]. f_equal. rewrite (bool_decide_true (kEmptyMarker ∈ kEmptyMarker :: values)) by (by left).
    by rewrite orb_true_r.
  - rewrite decide_True by done. simpl.
    destruct (IH (insertFrom mask v t (position mask v) (Z.to_nat (mask + 1))) mk (v :: vs))
      as (t' & -> & Hinv' & Hlen).
    + apply insert_preserves; [done | lia | done].
    + simpl. lia.
    + exists t'. split_and!.
      * do 2 f_equal. apply bool_decide_ext. rewrite elem_of_cons. naive_solver.
      * by rewrite <- app_assoc.
      * rewrite Hlen. apply insertFrom_length.
Qed.

Lemma table_inv_perm t vs vs' : vs ≡ₚ vs' → table_inv k t vs → table_inv k t vs'.
Proof.
  intros Hp [Hlen Hperm Hreach]. split; [done | by rewrite Hperm |].
  intros v Hv. apply Hreach. by rewrite Hp.
Qed.

(** Only the first [2 ^ k] cells matter. *)
Lemma table_inv_take t t' vs :
  (Z.to_nat (2 ^ k) ≤ length t')%nat →
  take (Z.to_nat (2 ^ k)) t' = take (Z.to_nat (2 ^ k)) t →
  table_inv k t vs → table_inv k t' vs.
Proof.
  intros Hlen' Ht [Hlen Hperm Hreach].
  assert (∀ i, slot mask t' i = slot mask t i) as Hs.
  { intros i. pose proof (slot_lookup t' i Hlen') as H1. rewrite Ht, slot_lookup in H1 by done.
    congruence. }
  split; [done | unfold contents; by rewrite Ht |].
  intros v Hv. destruct (Hreach v Hv) as (d & Hd & H1 & H2). exists d.
  fold mask in H1, H2 |- *. rewrite Hs. split; [done|]. split; [done|]. intros e He. rewrite Hs. auto.
Qed.

Lemma replicateLast_take t n :
  length t = (Z.to_nat (2 ^ k) + n)%nat → n = kPaddingElements →
  replicateLast mask t = take (Z.to_nat (2 ^ k)) t ++ replicate n (t !!! Z.to_nat mask).
Proof.
  intros Hlen ->. assert (0 < 2 ^ k) by (by apply Z.pow_pos_nonneg).
  assert (∃ a b c d, t = take (Z.to_nat (2 ^ k)) t ++ [a; b; c; d]) as (a & b & c & d & E).
  { pose proof (take_drop (Z.to_nat (2 ^ k)) t) as Htd.
    assert (length (drop (Z.to_nat (2 ^ k)) t) = 4)%nat as Hd
      by (rewrite length_drop, Hlen; unfold kPaddingElements; lia).
    destruct (drop (Z.to_nat (2 ^ k)) t) as [|a [|b [|c [|d [|]]]]]; try done. eauto. }
  assert (length (take (Z.to_nat (2 ^ k)) t) = Z.to_nat (2 ^ k)) as Hl
    by (rewrite length_take, Hlen; lia).
  remember (take (Z.to_nat (2 ^ k)) t) as T eqn:HT. clear HT Hlen. subst t.
  assert (∃ x, ∀ l, (T ++ l) !!! Z.to_nat mask = x) as [x Hlast].
  { eexists. intros l. by rewrite lookup_total_app_l by (rewrite Hl; unfold mask; lia). }
  assert (∀ l j y, <[Z.to_nat (2 ^ k) + j := y]> (T ++ l) = T ++ <[j := y]> l)%nat as Hins.
  { intros l j y. rewrite insert_app_r_alt by lia. do 2 f_equal. lia. }
  unfold replicateLast.
  replace (Z.to_nat (mask + 1)) with (Z.to_nat (2 ^ k)) by (unfold mask; f_equal; lia).
  simpl. rewrite !Hins. simpl. by rewrite !Hlast.
Qed.

Lemma probe_hit t v i n d :
  0 ≤ d < Z.of_nat n → v ≠ kEmptyMarker → slot mask t (i + d) = v →
  (∀ e, 0 ≤ e < d → slot mask t (i + e) ≠ kEmptyMarker) →
  probe mask t v i n = true.
Proof.
  revert i d; induction n as [|n IH]; intros i d Hd Hv He Hne; [lia|]. simpl.
  destruct (decide (d = 0)) as [->|Hd0].
  - rewrite Z.add_0_r in He. rewrite He. apply Z.eqb_neq in Hv. by rewrite Hv, Z.eqb_refl.
  - pose proof (Hne 0 ltac:(lia)) as H0. rewrite Z.add_0_r in H0.
    apply Z.eqb_neq in H0. rewrite H0. destruct (_ =? v); [done|].
    apply (IH (i + 1) (d - 1)); [lia | done | |].
    + by replace (i + 1 + (d - 1)) with (i + d) by lia.
    + intros e Hee. replace (i + 1 + e) with (i + (e + 1)) by lia. apply Hne. lia.
Qed.

Lemma probe_miss t vs v i n :
  table_inv k t vs → v ∉ vs → probe mask t v i n = false.
Proof.
  intros Hinv Hv. revert i; induction n as [|n IH]; intros i; simpl; [done|].
  destruct (Z.eqb_spec (slot mask t i) kEmptyMarker); [done|].
  destruct (Z.eqb_spec (slot mask t i) v) as [<-|]; [|apply IH].
  destruct Hv. by eapply ti_sound.
Qed.

Lemma probe_spec t vs v :
  table_inv k t vs →
  probe mask t v (position mask v) (Z.to_nat (mask + 1)) = bool_decide (v ∈ vs).
Proof.
  intros Hinv. case_bool_decide as Hv.
  - pose proof (ti_marker _ _ Hinv) as Hm. destruct Hinv as [_ _ Hreach].
    destruct (Hreach v Hv) as (d & Hd & Hs & Hocc).
    apply (probe_hit t v _ _ d); [unfold mask; lia | | done..]. by intros ->.
  - by eapply probe_miss.
Qed.
End Slots.

(** ** The class invariant and the constructor *)

(** What the constructor establishes when it is given the values' minimum and
    maximum, as its documentation requires. *)
Record ht_inv (h : BigintValuesUsingHashTable) : Prop := {
  hi_values : Forall (λ v, is_int64 v ∧ ht_min_ h ≤ v ≤ ht_max_ h) (values_ h);
  hi_minmax : ht_min_ h ∈ values_ h ∧ ht_max_ h ∈ values_ h ∧ ht_min_ h < ht_max_ h;
  hi_sorted : StronglySorted Z.le (values_ h);
  hi_marker : containsEmptyMarker_ h = bool_decide (kEmptyMarker ∈ values_ h);
  hi_table : ∃ k t, 0 ≤ k < 32 ∧ sizeMask_ h = 2 ^ k - 1 ∧
    Z.of_nat (length (values_ h)) < 2 ^ k ∧
    table_inv k t (filter (.≠ kEmptyMarker) (values_ h)) ∧
    length t = Z.to_nat (2 ^ k) ∧
    hashTable_ h = t ++ replicate kPaddingElements (t !!! Z.to_nat (2 ^ k - 1))
}.

Lemma tableSize_Ok n :
  (0 < n)%nat → Z.of_nat n * 5 < 2 ^ 32 →
  ∃ k, 0 ≤ k < 32 ∧ tableSize n = Ok (2 ^ k) ∧ Z.of_nat n < 2 ^ k.
Proof.
  intros Hn Hlt. exists (Z.log2 (Z.of_nat n * 5)).
  pose proof (Z.log2_nonneg (Z.of_nat n * 5)) as H0.
  destruct (Z.log2_spec (Z.of_nat n * 5)) as [Hlo Hhi]; [lia|].
  rewrite Z.pow_succ_r in Hhi by done.
  assert (Z.log2 (Z.of_nat n * 5) < 32) by (apply Z.log2_lt_pow2; lia).
  unfold tableSize. rewrite (proj2 (Z.ltb_lt _ _)) by lia.
  split_and!; [lia | lia | by rewrite Z.shiftl_1_l | lia].
Qed.


Lemma table_inv_slice k t vs : 0 ≤ k →
  table_inv k t vs → length t = (Z.to_nat (2 ^ k) + kPaddingElements)%nat →
  let t' := take (Z.to_nat (2 ^ k)) t in
  table_inv k t' vs ∧ length t' = Z.to_nat (2 ^ k) ∧
  replicateLast (2 ^ k - 1) t =
    t' ++ replicate kPaddingElements (t' !!! Z.to_nat (2 ^ k - 1)).
Proof.
  intros Hk Hinv Hlen t'. assert (0 < 2 ^ k) by (by apply Z.pow_pos_nonneg).
  assert (length t' = Z.to_nat (2 ^ k)) as Hl by (unfold t'; rewrite length_take; lia).
  split_and!; [|done|].
  - apply (table_inv_take k Hk t); [lia | unfold t'; rewrite take_take; f_equal; lia | done].
  - rewrite (replicateLast_take k Hk t kPaddingElements) by done. f_equal. f_equal.
    unfold t'. by rewrite lookup_total_take_lt by lia.
Qed.

Section Constructor.
Context (min max : Z) (values : list Z) (nullAllowed : bool).
Context (Hvals : Forall (λ v, is_int64 v ∧ min ≤ v ≤ max) values).
Context (Hmin : min ∈ values) (Hmax : max ∈ values).
Context (Hsize : Z.of_nat (length values) * 5 < 2 ^ 32).

Lemma newHashTable_inv : min < max → (1 < length values)%nat →
  ∃ h, newBigintValuesUsingHashTable min max values nullAllowed = Ok h ∧
    ht_inv h ∧ values_ h ≡ₚ values ∧ ht_nullAllowed_ h = nullAllowed ∧
    ht_min_ h = min ∧ ht_max_ h = max.
Proof.
  intros Hlt Hlen. unfold newBigintValuesUsingHashTable.
  destruct (tableSize_Ok (length values)) as (k & Hk & -> & Hcap); [lia | done |].
  rewrite (proj2 (Z.ltb_lt _ _) Hlt), (proj2 (Nat.ltb_lt _ _) Hlen). simpl.
  destruct (fold_preserves k ltac:(lia) values _ false []
    (table_inv_empty k)) as (t & -> & Hinv & Hlen'); [simpl; lia|].
  eexists. split; [done|]. rewrite length_replicate in Hlen'.
  pose proof (merge_sort_Permutation Z.le values) as Hp.
  destruct (table_inv_slice k t _ ltac:(lia) Hinv Hlen') as (Hinv' & Hl & Hpad).
  split_and!; [|done..]. split; simpl.
  - by rewrite Hp.
  - rewrite Hp. done.
  - apply StronglySorted_merge_sort; apply _.
  - apply bool_decide_ext. by rewrite Hp.
  - exists k, (take (Z.to_nat (2 ^ k)) t).
    split_and!; [lia..|by rewrite Hp| |done|done].
    eapply table_inv_perm; [|exact Hinv']. rewrite app_nil_r, Hp.
    symmetry. apply Permutation_rev.
Qed.
End Constructor.

(** The probe of a well-formed table is membership in its values. *)
Lemma probe_inv h v : ht_inv h →
  probe (sizeMask_ h) (hashTable_ h) v (position (sizeMask_ h) v)
    (Z.to_nat (sizeMask_ h + 1)) = bool_decide (v ∈ values_ h ∧ v ≠ kEmptyMarker).
Proof.
  intros [_ _ _ _ (k & t & Hk & -> & Hcap & Hinv & Hlt & ->)].
  rewrite (probe_spec k ltac:(lia) _ (filter (.≠ kEmptyMarker) (values_ h))).
  - apply bool_decide_ext. rewrite list_elem_of_filter. naive_solver.
  - apply (table_inv_take k ltac:(lia) t); [|by rewrite take_app_le by lia|done].
    rewrite length_app. lia.
Qed.

(** The scalar test of a well-formed table is membership. *)
Lemma ht_testInt64_spec h v : ht_inv h → ht_testInt64 h v = bool_decide (v ∈ values_ h).
Proof.
  intros Hinv. unfold ht_testInt64. rewrite probe_inv by done.
  rewrite (hi_marker h Hinv). pose proof (hi_values h Hinv) as Hv.
  rewrite Forall_forall in Hv. specialize (Hv v).
  destruct (Z.eqb_spec v kEmptyMarker) as [->|Hne].
  - case_bool_decide as Hin; simpl; [done|]. rewrite bool_decide_false by naive_solver.
    by destruct (_ || _).
  - rewrite andb_false_r. case_bool_decide as Hin.
    + rewrite (bool_decide_true (v ∈ _)) by naive_solver.
      specialize (Hv (proj1 Hin)). by replace (_ || _) with false by lia.
    + rewrite (bool_decide_false (v ∈ _)) by naive_solver. by destruct (_ || _).
Qed.

(** [lower_bound] on a sorted list splits it at [x]. *)
Lemma lower_bound_spec l x : StronglySorted Z.le l →
  ∃ below, l = below ++ lower_bound l x ∧ Forall (λ y, y < x) below ∧
           Forall (λ y, x ≤ y) (lower_bound l x).
Proof.
  induction 1 as [|y l Hs IH Hy]; simpl; [by exists []|].
  destruct (Z.ltb_spec y x) as [Hlt|Hge].
  - destruct IH as (below & E & Hb & Ha). exists (y :: below). simpl.
    rewrite <- E. auto.
  - exists []. split_and!; [done..|]. constructor; [done|].
    eapply Forall_impl; [exact Hy|]. simpl. lia.
Qed.

(** The range test never rejects a range that holds a passing value, and on
    a range of more than one point it is exact. *)
Lemma ht_testInt64Range_spec h min max : ht_inv h → min ≤ max →
  ht_testInt64Range h min max false =
  Ok (bool_decide (Exists (λ v, min ≤ v ≤ max) (values_ h))).
Proof.
  intros Hinv Hle. unfold ht_testInt64Range. simpl.
  destruct (Z.eqb_spec min max) as [->|Hne].
  { rewrite ht_testInt64_spec by done. f_equal. apply bool_decide_ext.
    rewrite Exists_exists. split; [intros; exists max; naive_solver lia|].
    intros (v & Hv & ?). by replace max with v by lia. }
  destruct Hinv as [Hv (Hmin & Hmax & _) Hs _ _]. rewrite Forall_forall in Hv.
  destruct (_ || _) eqn:Eor.
  { f_equal. symmetry. apply bool_decide_false. rewrite Exists_exists.
    intros (v & Hin & ?). specialize (Hv v Hin). lia. }
  destruct (lower_bound_spec (values_ h) min Hs) as (below & E & Hb & Ha).
  rewrite Forall_forall in Hb. destruct (lower_bound (values_ h) min) as [|x l].
  { exfalso. rewrite app_nil_r in E. rewrite E in Hmax. specialize (Hb _ Hmax). lia. }
  assert (x ∈ values_ h) by (rewrite E; set_solver).
  assert (StronglySorted Z.le (x :: l)) as [_ Hx]%StronglySorted_inv.
  { rewrite E in Hs. by apply StronglySorted_app in Hs as (_ & _ & ?). }
  apply Forall_inv in Ha. rewrite Forall_forall in Hx.
  destruct (Z.eqb_spec min x) as [->|Hnx].
  - f_equal. symmetry. apply bool_decide_true, Exists_exists. exists x. split; [done | lia].
  - f_equal. destruct (Z.geb_spec max x) as [Hge|Hlt]; symmetry.
    + apply bool_decide_true, Exists_exists. exists x. split; [done | lia].
    + apply bool_decide_false. rewrite Exists_exists. intros (v & Hin & ?).
      rewrite E in Hin. apply elem_of_app in Hin as [Hin|[->|Hin]%elem_of_cons].
      * specialize (Hb v Hin). lia.
      * lia.
      * specialize (Hx v Hin). lia.
Qed.

(** ** The vectorised probe agrees with the scalar one *)
Section Vectorised.
Context (k : Z) (T : list Z) (n : nat).
Context (Hk : 0 ≤ k) (HlenT : length T = Z.to_nat (2 ^ k)).
Context (Hn : (1 ≤ n ≤ kPaddingElements)%nat).
Let mask := 2 ^ k - 1.
Let last := T !!! Z.to_nat mask.
Let padded := T ++ replicate kPaddingElements last.

(** The cell at [j], by its plain index. *)
Let cell (j : Z) : Z := T !!! Z.to_nat j.

Lemma pow_pos : 0 < 2 ^ k.
Proof. by apply Z.pow_pos_nonneg. Qed.

Lemma loadLine_Ok index : 0 ≤ index ≤ 2 ^ k →
  ∃ line, loadLine padded index n = Ok line ∧
    ∀ y, y ∈ line ↔ ∃ j, index ≤ j < index + Z.of_nat n ∧ y = cell (Z.min j mask).
Proof.
  intros Hi. unfold loadLine, padded. rewrite length_app, length_replicate, HlenT.
  rewrite (proj2 (andb_true_iff _ _)).
  2:{ rewrite !Z.leb_le. unfold kPaddingElements in *. lia. }
  eexists. split; [done|]. intros y. rewrite list_elem_of_lookup.
  pose proof pow_pos.
  assert (∀ j, index ≤ j < index + Z.of_nat n →
    take n (drop (Z.to_nat index) padded) !! Z.to_nat (j - index) =
    Some (cell (Z.min j mask))) as Hcell.
  { intros j Hj. rewrite lookup_take_lt, lookup_drop by lia.
    replace (Z.to_nat index + Z.to_nat (j - index))%nat with (Z.to_nat j) by lia.
    unfold padded, cell. destruct (decide (j < 2 ^ k)).
    - rewrite lookup_app_l by lia. replace (Z.min j mask) with j by (unfold mask; lia).
      apply list_lookup_lookup_total_lt. lia.
    - rewrite lookup_app_r by lia. replace (Z.min j mask) with mask by (unfold mask; lia).
      apply lookup_replicate_2. unfold kPaddingElements in *. lia. }
  fold padded. split.
  - intros (i & Hi'). pose proof Hi' as Hl%lookup_lt_Some. rewrite length_take in Hl.
    exists (index + Z.of_nat i). split; [lia|]. specialize (Hcell (index + Z.of_nat i) ltac:(lia)).
    replace (Z.to_nat (index + Z.of_nat i - index)) with i in Hcell by lia. congruence.
  - intros (j & Hj & ->). eauto.
Qed.

Lemma existsb_line v line : existsb (Z.eqb v) line = bool_decide (v ∈ line).
Proof.
  apply Bool.eq_iff_eq_true. rewrite existsb_exists, bool_decide_eq_true.
  setoid_rewrite Z.eqb_eq. rewrite list_elem_of_In. naive_solver.
Qed.

Section Lane.
Context (v : Z).
Definition stops (j : Z) : Prop := cell j = v ∨ cell j = kEmptyMarker.

(** The lane resolves at the first stopping cell at or after [index]. *)
Lemma resolve_scan j index fuel :
  0 ≤ index ≤ j → j < 2 ^ k → (∀ i, index ≤ i < j → ¬ stops i) →
  cell j = v ∨ (cell j = kEmptyMarker ∧ ∀ i, 0 ≤ i < 2 ^ k → cell i ≠ v) →
  (Z.to_nat (j - index) < fuel)%nat →
  resolveLane mask padded n v index fuel = Ok (bool_decide (cell j = v)).
Proof.
  intros Hi Hj Hns Hstop. revert index Hi Hns.
  induction fuel as [|fuel IH]; intros index Hi Hns Hf; [lia|]. simpl.
  destruct (loadLine_Ok index) as (line & -> & Hline); [lia|]. simpl.
  rewrite !existsb_line. destruct (bool_decide_reflect (v ∈ line)) as [Hv|Hv].
  { f_equal. symmetry. apply bool_decide_true. destruct Hstop as [|[_ Hno]]; [done|].
    apply Hline in Hv as (i & Hi' & E). destruct (Hno (Z.min i mask)); [unfold mask; lia | done]. }
  destruct (bool_decide_reflect (kEmptyMarker ∈ line)) as [He|He].
  { f_equal. symmetry. apply bool_decide_false. intros Hjv. apply Hv, Hline.
    destruct (decide (j < index + Z.of_nat n)).
    { exists j. split; [lia|]. rewrite Z.min_l; [done | unfold mask; lia]. }
    apply Hline in He as (i & Hi' & E). destruct (Hns (Z.min i mask)); [unfold mask; lia|].
    by right. }
  assert (index + Z.of_nat n ≤ j).
  { destruct (decide (index + Z.of_nat n ≤ j)); [done|]. exfalso.
    assert (cell j ∈ line) as Hin.
    { apply Hline. exists j. split; [lia|]. rewrite Z.min_l; [done | unfold mask; lia]. }
    destruct Hstop as [E|[E _]]; by rewrite E in Hin. }
  replace (_ >? mask) with false by (unfold mask; lia).
  apply IH; [lia | | lia]. intros i Hi'. apply Hns. lia.
Qed.

(** With no stopping cell from [index] on, the scan wraps to the start. *)
Lemma resolve_wrap index fuel :
  0 ≤ index ≤ 2 ^ k → (∀ i, index ≤ i < 2 ^ k → ¬ stops i) → ¬ stops mask →
  (Z.to_nat (2 ^ k - index) < fuel)%nat →
  ∃ fuel', (fuel ≤ fuel' + Z.to_nat (2 ^ k - index) + 1)%nat ∧
    resolveLane mask padded n v index fuel = resolveLane mask padded n v 0 fuel'.
Proof.
  revert index; induction fuel as [|fuel IH]; intros index Hi Hns Hlast Hf; [lia|]. simpl.
  destruct (loadLine_Ok index) as (line & -> & Hline); [lia|]. simpl.
  assert (∀ i, index ≤ i < index + Z.of_nat n → ¬ stops (Z.min i mask)) as Hmin.
  { intros i Hi'. destruct (decide (i < 2 ^ k)).
    - rewrite Z.min_l by (unfold mask; lia). apply Hns. lia.
    - by rewrite Z.min_r by (unfold mask; lia). }
  rewrite !existsb_line, !bool_decide_false.
  2:{ intros (i & Hi' & E)%Hline. apply (Hmin i Hi'). by right. }
  2:{ intros (i & Hi' & E)%Hline. apply (Hmin i Hi'). by left. }
  destruct (Z.gtb_spec (index + Z.of_nat n) mask) as [Hgt|Hle].
  - exists fuel. split; [lia | done].
  - destruct (IH (index + Z.of_nat n)) as (fuel' & Hfuel & ->);
      [unfold mask in *; lia | intros; apply Hns; lia | done | lia |].
    exists fuel'. split; [lia | done].
Qed.

Lemma slot_cell i : 0 ≤ i < 2 ^ k → slot mask T i = cell i.
Proof. intros Hi. unfold slot, cell, mask. by rewrite land_mask, Z.mod_small by done. Qed.

Lemma slot_cell_wrap i : 2 ^ k ≤ i < 2 * 2 ^ k → slot mask T i = cell (i - 2 ^ k).
Proof.
  intros Hi. rewrite <- slot_cell by lia. apply slot_shift_eq; [done|].
  rewrite <- (Z_mod_plus_full (i - 2 ^ k) 1 (2 ^ k)). f_equal. lia.
Qed.

(** An unresolved lane, started one past its home position. *)
Lemma resolveLane_spec vs fuel :
  table_inv k T vs → Z.of_nat (length vs) < 2 ^ k → v ≠ kEmptyMarker →
  ¬ stops (position mask v) → (Z.to_nat (2 * (2 ^ k + 1)) ≤ fuel)%nat →
  resolveLane mask padded n v (position mask v + 1) fuel = Ok (bool_decide (v ∈ vs)).
Proof.
  intros Hinv Hcap Hv Hpos Hfuel. pose proof (position_bound k Hk v) as Hp.
  fold mask in Hp. set (pos := position mask v) in *.
  destruct (first_empty k Hk T vs pos Hinv Hcap) as (d0 & Hd0 & He0 & _).
  destruct (least_below (λ d, slot mask T (pos + d) = v ∨ slot mask T (pos + d) = kEmptyMarker) d0)
    as (d & Hd & Hst & Hmin); [lia | by right |].
  assert (1 ≤ d).
  { destruct (decide (d = 0)) as [->|]; [|lia]. rewrite Z.add_0_r, slot_cell in Hst by done. done. }
  assert (bool_decide (v ∈ vs) = bool_decide (slot mask T (pos + d) = v)) as ->.
  { apply bool_decide_ext. split.
    - intros Hin. destruct (ti_reach _ _ _ Hinv v Hin) as (d' & Hd' & Hs & Hocc).
      fold mask in Hs, Hocc. fold pos in Hs, Hocc. destruct Hst as [|Hst]; [done|].
      destruct (Ztrichotomy d d') as [Hlt|[->|Hgt]]; [|congruence|].
      + destruct (Hocc d); [lia | done].
      + destruct (Hmin d'); [lia | by left].
    - intros E. rewrite <- E at 1. apply (ti_sound k Hk T vs); [done|]. fold mask. congruence. }
  assert (slot mask T (pos + d) = v ∨ (slot mask T (pos + d) = kEmptyMarker ∧
    ∀ i, 0 ≤ i < 2 ^ k → cell i ≠ v)) as Hstop.
  { destruct Hst as [|Hst]; [by left|]. right. split; [done|]. intros i Hi E.
    assert (v ∈ vs) as Hin.
    { rewrite <- E, <- slot_cell by done. apply (ti_sound k Hk T vs); [done|].
      fold mask. rewrite slot_cell by done. congruence. }
    destruct (ti_reach _ _ _ Hinv v Hin) as (d' & Hd' & Hs & Hocc).
    fold mask in Hs, Hocc. fold pos in Hs, Hocc.
    destruct (Ztrichotomy d d') as [Hlt|[->|Hgt]]; [|congruence|].
    - destruct (Hocc d); [lia | done].
    - destruct (Hmin d'); [lia | by left]. }
  destruct (decide (pos + d < 2 ^ k)) as [Hnw|Hw].
  - rewrite !slot_cell in Hstop by lia. rewrite slot_cell by lia.
    apply resolve_scan; [lia | done | | done | lia].
    intros i Hi Hsi. apply (Hmin (i - pos)); [lia|].
    replace (pos + (i - pos)) with i by lia. by rewrite slot_cell by lia.
  - rewrite !slot_cell_wrap in Hstop by lia. rewrite slot_cell_wrap by lia.
    assert (∀ i, pos < i < 2 ^ k → ¬ stops i) as Hup.
    { intros i Hi Hsi. apply (Hmin (i - pos)); [lia|].
      replace (pos + (i - pos)) with i by lia. by rewrite slot_cell by lia. }
    destruct (resolve_wrap (pos + 1) fuel) as (fuel' & Hfuel' & ->); [lia| | | lia |].
    + intros i Hi. apply Hup. lia.
    + destruct (decide (pos = mask)) as [E|]; [by rewrite E in Hpos|]. apply Hup. unfold mask in *. lia.
    + apply resolve_scan; [lia | lia | | done | lia].
      intros i Hi Hsi. apply (Hmin (i + 2 ^ k - pos)); [lia|].
      rewrite slot_cell_wrap by lia.
      by replace (pos + (i + 2 ^ k - pos) - 2 ^ k) with i by lia.
Qed.
End Lane.
End Vectorised.

Lemma testLane_spec h n v :
  ht_inv h → (1 ≤ n ≤ kPaddingElements)%nat → containsEmptyMarker_ h = false →
  v ≠ kEmptyMarker → testLane h n v = Ok (ht_testInt64 h v).
Proof.
  intros Hinv Hn Hm Hv. rewrite ht_testInt64_spec by done. unfold testLane.
  pose proof (hi_values h Hinv) as Hb. rewrite Forall_forall in Hb.
  destruct (outOfRange h v) eqn:Eoor.
  { rewrite (proj2 (Z.eqb_neq _ _) Hv). simpl. f_equal. symmetry. apply bool_decide_false.
    intros Hin. specialize (Hb v Hin). unfold outOfRange in Eoor. lia. }
  destruct Hinv as [_ _ _ Hmk (k & t & Hk & Hmask & Hcap & Hti & Hlt & ->)].
  rewrite Hmask. pose proof (position_bound k ltac:(lia) v) as Hp.
  rewrite lookup_total_app_l by lia.
  assert (bool_decide (v ∈ values_ h) = bool_decide (v ∈ filter (.≠ kEmptyMarker) (values_ h))) as ->.
  { apply bool_decide_ext. rewrite list_elem_of_filter. naive_solver. }
  pose proof (slot_cell k t ltac:(lia) _ Hp) as Hcell. simpl in Hcell. rewrite <- Hcell.
  destruct (Z.eqb_spec v (slot (2 ^ k - 1) t (position (2 ^ k - 1) v))) as [E|E].
  { f_equal. symmetry. apply bool_decide_true. rewrite E at 1.
    apply (ti_sound k ltac:(lia) t); [done|]. congruence. }
  destruct (Z.eqb_spec (slot (2 ^ k - 1) t (position (2 ^ k - 1) v)) kEmptyMarker) as [E'|E'].
  { f_equal. symmetry. apply bool_decide_false. intros Hin.
    destruct (ti_reach _ _ _ Hti v Hin) as (d & Hd & Hs & Hocc).
    destruct (decide (d = 0)) as [->|].
    - rewrite Z.add_0_r in Hs. congruence.
    - apply (Hocc 0); [lia|]. by rewrite Z.add_0_r. }
  apply resolveLane_spec; [lia | done | done | done | | done | | lia].
  - pose proof (length_filter (.≠ kEmptyMarker) (values_ h)). lia.
  - unfold stops. rewrite <- Hcell. naive_solver.
Qed.

Lemma ht_testValues64_spec h x :
  ht_inv h → (1 ≤ length x ≤ kPaddingElements)%nat →
  (kEmptyMarker ∈ x → containsEmptyMarker_ h = true) →
  ht_testValues64 h x = Ok (map (ht_testInt64 h) x).
Proof.
  intros Hinv Hlen Hmk. unfold ht_testValues64.
  destruct (forallb (outOfRange h) x) eqn:Eall.
  - f_equal. apply map_ext_in. intros v Hv%list_elem_of_In. symmetry.
    rewrite ht_testInt64_spec by done. apply bool_decide_false. intros Hin.
    pose proof (hi_values h Hinv) as Hb. rewrite Forall_forall in Hb. specialize (Hb v Hin).
    rewrite forallb_forall in Eall. rewrite list_elem_of_In in Hv. specialize (Eall v Hv).
    unfold outOfRange in Eall. lia.
  - destruct (containsEmptyMarker_ h) eqn:Ec; [done|].
    apply mapM_o_Ok. apply Forall2_fmap_r, Forall_Forall2_diag, Forall_forall.
    intros v Hv. apply testLane_spec; [done..|]. intros ->. by specialize (Hmk Hv).
Qed.

(** ** Properties *)



(** The vectorised test of a batch of up to four lanes (the padding the
    constructor allocates) neither reads outside the table nor loops forever,
    and its lanes are the scalar tests, provided no lane holds the reserved
    marker unless the marker is itself listed. *)
Theorem hashtable_batch_agrees h x :
  ht_inv h → (1 ≤ length x ≤ kPaddingElements)%nat →
  (kEmptyMarker ∈ x → containsEmptyMarker_ h = true) →
  ht_testValues64 h x = Ok (map (ht_testInt64 h) x).
Proof. apply ht_testValues64_spec. Qed.

Lemma hashtable_batch_agrees_witness :
  ∃ h, newBigintValuesUsingHashTable (-7) 9000 [12; 9000; -7; 28] true = Ok h ∧
       ht_testValues64 h [28; 29; 12; -9] = Ok [true; false; true; false].
Proof.
  destruct (newHashTable_inv (-7) 9000 [12; 9000; -7; 28] true)
    as (h & Hnew & Hinv & Hp & _);
    [ repeat constructor; unfold_ints; lia | set_solver | set_solver
    | simpl; lia | lia | simpl; lia |].
  exists h. split; [exact Hnew|].
  rewrite (hashtable_batch_agrees h [28; 29; 12; -9]); [|exact Hinv | simpl; unfold kPaddingElements; lia |].
  - vm_compute in Hnew. injection Hnew as <-. vm_compute. reflexivity.
  - intros Hm. exfalso. revert Hm. apply (bool_decide_eq_false_1 _). vm_compute. reflexivity.
Defined.

(** A lane that holds the reserved marker value is reported as passing by
    the vectorised test even though the marker is not in the list and the
    scalar test rejects it, as soon as another lane of the batch is in range. *)
Theorem hashtable_batch_marker_divergence h v :
  ht_inv h → containsEmptyMarker_ h = false → v ∈ values_ h →
  outOfRange h kEmptyMarker = true →
  ht_testInt64 h kEmptyMarker = false ∧
  ht_testValues64 h [v; kEmptyMarker] = Ok [true; true].
Proof.
  intros Hinv Hc Hv Hoor.
  pose proof (hi_marker h Hinv) as Hm. rewrite Hc in Hm. symmetry in Hm.
  apply bool_decide_eq_false in Hm.
  split; [rewrite ht_testInt64_spec by done; by apply bool_decide_false|].
  pose proof (hi_values h Hinv) as Hb. rewrite Forall_forall in Hb. specialize (Hb v Hv).
  unfold ht_testValues64. simpl. replace (outOfRange h v) with false by (unfold outOfRange; lia).
  simpl. rewrite Hc. rewrite (testLane_spec h 2 v); [|done|unfold kPaddingElements; lia|done|by intros E; rewrite E in Hv].
  rewrite ht_testInt64_spec, bool_decide_true by done. simpl.
  unfold testLane. by rewrite Hoor, Z.eqb_refl.
Qed.

Lemma hashtable_batch_marker_divergence_witness :
  ∃ h, newBigintValuesUsingHashTable (-7) 9000 [12; 9000; -7; 28] true = Ok h ∧
       ht_testInt64 h kEmptyMarker = false ∧
       ht_testValues64 h [28; kEmptyMarker] = Ok [true; true].
Proof.
  destruct (newHashTable_inv (-7) 9000 [12; 9000; -7; 28] true)
    as (h & Hnew & Hinv & Hp & _);
    [ repeat constructor; unfold_ints; lia | set_solver | set_solver
    | simpl; lia | lia | simpl; lia |].
  exists h. split; [exact Hnew|].
  apply (hashtable_batch_marker_divergence h 28 Hinv);
    [| rewrite Hp; set_solver |]; vm_compute in Hnew; injection Hnew as <-; reflexivity.
Defined.
