(* ===== verification/Filter.v ===== *)
(** * Pushdown filters on integral columns

    Models the integral part of [velox/type/Filter.h] and
    [velox/type/Filter.cpp]: the classes, their constructors with the checks
    they throw on, [clone], [testNull], [testInt64], the batch tests
    [testValues], [testInt64Range] and [testingEquals].  The class hierarchy is one inductive type
    [Filter]; a virtual method is a function by cases on it. *)
From S2P Require Import Prelude HashTable.
Local Open Scope Z_scope.

(** [enum class FilterKind], restricted to the kinds of this file. *)
Inductive FilterKind :=
| kAlwaysFalse | kAlwaysTrue | kIsNull | kIsNotNull | kBoolValue
| kBigintRange | kBigintValuesUsingHashTable | kBigintValuesUsingBitmask
| kNegatedBigintRange | kNegatedBigintValuesUsingHashTable
| kNegatedBigintValuesUsingBitmask | kBigintMultiRange.

#[global] Instance FilterKind_eq_dec : EqDecision FilterKind.
Proof. solve_decision. Defined.

(** ** [BigintRange] *)
Record BigintRange := mkBigintRange {
  br_nullAllowed_ : bool;
  lower_ : Z;
  upper_ : Z;
  lower32_ : Z;
  upper32_ : Z;
  lower16_ : Z;
  upper16_ : Z;
  isSingleValue_ : bool
}.

(** The narrow bounds are clamped on one side and then stored in the narrow
    type, which keeps the low bits. *)
Definition newBigintRange (lower upper : Z) (nullAllowed : bool) : BigintRange := {|
  br_nullAllowed_ := nullAllowed;
  lower_ := lower;
  upper_ := upper;
  lower32_ := swrap 32 (Z.max lower int32_min);
  upper32_ := swrap 32 (Z.min upper int32_max);
  lower16_ := swrap 16 (Z.max lower int16_min);
  upper16_ := swrap 16 (Z.min upper int16_max);
  isSingleValue_ := upper =? lower
|}.

Definition br_clone (r : BigintRange) (nullAllowed : option bool) : BigintRange :=
  match nullAllowed with
  | Some b => newBigintRange (lower_ r) (upper_ r) b
  | None => r
  end.

Definition br_testInt64 (r : BigintRange) (value : Z) : bool :=
  (value >=? lower_ r) && (value <=? upper_ r).

Definition br_testValues64 (r : BigintRange) (x : list Z) : list bool :=
  if isSingleValue_ r then map (λ v, v =? lower_ r) x
  else map (λ v, (lower_ r <=? v) && (v <=? upper_ r)) x.

Definition br_testValues32 (r : BigintRange) (x : list Z) : list bool :=
  if isSingleValue_ r then
    if negb (lower32_ r =? lower_ r) then map (λ _, false) x
    else map (λ v, v =? swrap 32 (lower_ r)) x
  else map (λ v, (lower32_ r <=? v) && (v <=? upper32_ r)) x.

Definition br_testValues16 (r : BigintRange) (x : list Z) : list bool :=
  if isSingleValue_ r then
    if negb (lower16_ r =? lower_ r) then map (λ _, false) x
    else map (λ v, v =? swrap 16 (lower_ r)) x
  else map (λ v, (lower16_ r <=? v) && (v <=? upper16_ r)) x.

Definition br_testInt64Range (r : BigintRange) (min max : Z) (hasNull : bool) : bool :=
  if hasNull && br_nullAllowed_ r then true
  else negb ((min >? upper_ r) || (max <? lower_ r)).

Definition br_testingEquals (a b : BigintRange) : bool :=
  Bool.eqb (br_nullAllowed_ a) (br_nullAllowed_ b) &&
  (lower_ a =? lower_ b) && (upper_ a =? upper_ b).

(** ** [NegatedBigintRange] *)
Record NegatedBigintRange := mkNegatedBigintRange {
  nbr_nullAllowed_ : bool;
  nbr_nonNegated_ : BigintRange
}.

Definition newNegatedBigintRange (lower upper : Z) (nullAllowed : bool) : NegatedBigintRange :=
  mkNegatedBigintRange nullAllowed (newBigintRange lower upper (negb nullAllowed)).

Definition nbr_lower (r : NegatedBigintRange) : Z := lower_ (nbr_nonNegated_ r).
Definition nbr_upper (r : NegatedBigintRange) : Z := upper_ (nbr_nonNegated_ r).

Definition nbr_clone (r : NegatedBigintRange) (nullAllowed : option bool) : NegatedBigintRange :=
  newNegatedBigintRange (nbr_lower r) (nbr_upper r)
    (default (nbr_nullAllowed_ r) nullAllowed).

Definition nbr_testInt64 (r : NegatedBigintRange) (value : Z) : bool :=
  negb (br_testInt64 (nbr_nonNegated_ r) value).

Definition nbr_testValues64 (r : NegatedBigintRange) (x : list Z) : list bool :=
  map negb (br_testValues64 (nbr_nonNegated_ r) x).
Definition nbr_testValues32 (r : NegatedBigintRange) (x : list Z) : list bool :=
  map negb (br_testValues32 (nbr_nonNegated_ r) x).
Definition nbr_testValues16 (r : NegatedBigintRange) (x : list Z) : list bool :=
  map negb (br_testValues16 (nbr_nonNegated_ r) x).

Definition nbr_testInt64Range (r : NegatedBigintRange) (min max : Z) (hasNull : bool) : bool :=
  if hasNull && nbr_nullAllowed_ r then true
  else negb ((nbr_lower r <=? min) && (max <=? nbr_upper r)).

Definition nbr_testingEquals (a b : NegatedBigintRange) : bool :=
  Bool.eqb (nbr_nullAllowed_ a) (nbr_nullAllowed_ b) &&
  br_testingEquals (nbr_nonNegated_ a) (nbr_nonNegated_ b).

(** ** [BigintValuesUsingBitmask] *)
Record BigintValuesUsingBitmask := mkBitmask {
  bm_nullAllowed_ : bool;
  bitmask_ : list bool;
  bm_min_ : Z;
  bm_max_ : Z
}.

(** [bitmask_[value - min] = true]; outside the mask the write is undefined. *)
Definition setBit (min : Z) (mask : list bool) (value : Z) : outcome (list bool) :=
  if (0 <=? value - min) && (value - min <? Z.of_nat (length mask))
  then Ok (<[Z.to_nat (value - min) := true]> mask) else Undefined.

Definition newBigintValuesUsingBitmask (min max : Z) (values : list Z)
    (nullAllowed : bool) : outcome BigintValuesUsingBitmask :=
  velox_check (min <? max) ;;
  velox_check (1 <? length values)%nat ;;
  range ← sub64 max min;
  size ← add64 range 1;
  mask ← foldM_o (setBit min) values (replicate (Z.to_nat size) false);
  Ok (mkBitmask nullAllowed mask min max).

Definition bm_withNull (b : BigintValuesUsingBitmask) (nullAllowed : bool) :=
  mkBitmask nullAllowed (bitmask_ b) (bm_min_ b) (bm_max_ b).

(** [bitmask_[i - min_]]; outside the mask the read is undefined. *)
Definition bm_bit (b : BigintValuesUsingBitmask) (i : Z) : outcome bool :=
  index (bitmask_ b) (i - bm_min_ b).

Definition bm_testInt64 (b : BigintValuesUsingBitmask) (value : Z) : outcome bool :=
  if (value <? bm_min_ b) || (value >? bm_max_ b) then Ok false else bm_bit b value.

(** The values whose bit is set, from [base] on. *)
Fixpoint setPositions (base : Z) (mask : list bool) : list Z :=
  match mask with
  | [] => []
  | bit :: mask' =>
      if bit then base :: setPositions (base + 1) mask'
      else setPositions (base + 1) mask'
  end.

Definition bm_members (b : BigintValuesUsingBitmask) : list Z :=
  setPositions (bm_min_ b) (bitmask_ b).

(** A loop [for (int i = ...; i < size; i++)] over a container of [size]
    elements: the index overflows when there are more than the largest [int]. *)
Definition intLoop (size : nat) : outcome unit :=
  if Z.of_nat size <=? int32_max then Ok tt else Undefined.

(** [values()]. *)
Definition bm_values (b : BigintValuesUsingBitmask) : outcome (list Z) :=
  intLoop (length (bitmask_ b)) ;; Ok (bm_members b).

Definition bm_testInt64Range (b : BigintValuesUsingBitmask) (min max : Z)
    (hasNull : bool) : outcome bool :=
  if hasNull && bm_nullAllowed_ b then Ok true
  else if min =? max then bm_testInt64 b min
  else Ok (negb ((min >? bm_max_ b) || (max <? bm_min_ b))).

Definition bm_testingEquals (a b : BigintValuesUsingBitmask) : bool :=
  Bool.eqb (bm_nullAllowed_ a) (bm_nullAllowed_ b) &&
  (bm_min_ a =? bm_min_ b) && (bm_max_ a =? bm_max_ b) &&
  bool_decide (bitmask_ a = bitmask_ b).

(** ** The negated IN-lists *)
Record NegatedBigintValuesUsingHashTable := mkNegatedHashTable {
  nht_nullAllowed_ : bool;
  nht_nonNegated_ : BigintValuesUsingHashTable
}.

Definition newNegatedBigintValuesUsingHashTable (min max : Z) (values : list Z)
    (nullAllowed : bool) : outcome NegatedBigintValuesUsingHashTable :=
  h ← newBigintValuesUsingHashTable min max values (negb nullAllowed);
  Ok (mkNegatedHashTable nullAllowed h).

Definition nht_values (n : NegatedBigintValuesUsingHashTable) : list Z :=
  values_ (nht_nonNegated_ n).

Definition nht_testInt64 (n : NegatedBigintValuesUsingHashTable) (value : Z) : bool :=
  negb (ht_testInt64 (nht_nonNegated_ n) value).

(** [std::distance(lo, hi) != max - min] compares positions of the sorted
    values with a signed difference. *)
Definition nht_testInt64Range (n : NegatedBigintValuesUsingHashTable) (min max : Z)
    (hasNull : bool) : outcome bool :=
  let h := nht_nonNegated_ n in
  if hasNull && nht_nullAllowed_ n then Ok true
  else if min =? max then Ok (nht_testInt64 n min)
  else if (max >? ht_max_ h) || (min <? ht_min_ h) then Ok true
  else match lower_bound (values_ h) min, lower_bound (values_ h) max with
       | lo :: los, hi :: his =>
           if negb (min =? lo) || negb (max =? hi) then Ok true
           else
             width ← sub64 max min;
             Ok (negb (Z.of_nat (length (lo :: los)) - Z.of_nat (length (hi :: his)) =? width))
       | _, _ => Undefined
       end.

(** [min_] and [max_] are of type [int]. *)
Record NegatedBigintValuesUsingBitmask := mkNegatedBitmask {
  nbm_nullAllowed_ : bool;
  nbm_min_ : Z;
  nbm_max_ : Z;
  nbm_nonNegated_ : BigintValuesUsingBitmask
}.

Definition newNegatedBigintValuesUsingBitmask (min max : Z) (values : list Z)
    (nullAllowed : bool) : outcome NegatedBigintValuesUsingBitmask :=
  velox_check (min <=? max) ;;
  b ← newBigintValuesUsingBitmask min max values (negb nullAllowed);
  Ok (mkNegatedBitmask nullAllowed (swrap 32 min) (swrap 32 max) b).

Definition nbm_members (n : NegatedBigintValuesUsingBitmask) : list Z :=
  bm_members (nbm_nonNegated_ n).

Definition nbm_values (n : NegatedBigintValuesUsingBitmask) : outcome (list Z) :=
  bm_values (nbm_nonNegated_ n).

Definition nbm_testInt64 (n : NegatedBigintValuesUsingBitmask) (value : Z) : outcome bool :=
  b ← bm_testInt64 (nbm_nonNegated_ n) value; Ok (negb b).

Definition nbm_testInt64Range (n : NegatedBigintValuesUsingBitmask) (min max : Z)
    (hasNull : bool) : outcome bool :=
  if hasNull && nbm_nullAllowed_ n then Ok true
  else if min =? max then nbm_testInt64 n min
  else Ok true.

(** ** [BigintMultiRange] *)
Record BigintMultiRange := mkMultiRange {
  mr_nullAllowed_ : bool;
  ranges_ : list BigintRange;
  lowerBounds_ : list Z
}.

(** The constructor's ordering check: each lower bound is at least the upper
    bound before it. *)
Fixpoint rangesOrdered (ranges : list BigintRange) : bool :=
  match ranges with
  | a :: (b :: _) as rest => (lower_ b >=? upper_ a) && rangesOrdered rest
  | _ => true
  end.

Definition newBigintMultiRange (ranges : list BigintRange) (nullAllowed : bool)
    : outcome BigintMultiRange :=
  velox_check (negb (length ranges =? 0)%nat) ;;
  velox_check (1 <? length ranges)%nat ;;
  velox_check (rangesOrdered ranges) ;;
  Ok (mkMultiRange nullAllowed ranges (map lower_ ranges)).

Definition mr_clone (m : BigintMultiRange) (nullAllowed : option bool) : outcome BigintMultiRange :=
  newBigintMultiRange (ranges_ m) (default (mr_nullAllowed_ m) nullAllowed).

(** [-distance - 1] for a miss, the position for a hit. *)
Definition binarySearch (values : list Z) (value : Z) : Z :=
  let it := lower_bound values value in
  let distance := Z.of_nat (length values) - Z.of_nat (length it) in
  match it with
  | x :: _ => if x =? value then distance else - distance - 1
  | [] => - distance - 1
  end.

Definition mr_testInt64 (m : BigintMultiRange) (value : Z) : outcome bool :=
  let i := binarySearch (lowerBounds_ m) value in
  if i >=? 0 then Ok true
  else
    let place := - i - 1 in
    if place =? 0 then Ok false
    else r ← index (ranges_ m) (place - 1); Ok (br_testInt64 r value).

Definition mr_testInt64Range (m : BigintMultiRange) (min max : Z) (hasNull : bool) : bool :=
  if hasNull && mr_nullAllowed_ m then true
  else existsb (λ r, br_testInt64Range r min max hasNull) (ranges_ m).

Definition mr_testingEquals (a b : BigintMultiRange) : bool :=
  Bool.eqb (mr_nullAllowed_ a) (mr_nullAllowed_ b) &&
  (length (ranges_ a) =? length (ranges_ b))%nat &&
  forallb (λ p, br_testingEquals p.1 p.2) (combine (ranges_ a) (ranges_ b)).

(** ** The class hierarchy *)
Inductive Filter :=
| AlwaysFalse
| AlwaysTrue
| IsNull
| IsNotNull
| BoolValue (value_ nullAllowed_ : bool)
| FBigintRange (r : BigintRange)
| FNegatedBigintRange (r : NegatedBigintRange)
| FBigintValuesUsingHashTable (h : BigintValuesUsingHashTable)
| FBigintValuesUsingBitmask (b : BigintValuesUsingBitmask)
| FNegatedBigintValuesUsingHashTable (h : NegatedBigintValuesUsingHashTable)
| FNegatedBigintValuesUsingBitmask (b : NegatedBigintValuesUsingBitmask)
| FBigintMultiRange (m : BigintMultiRange).

Definition kind (f : Filter) : FilterKind :=
  match f with
  | AlwaysFalse => kAlwaysFalse
  | AlwaysTrue => kAlwaysTrue
  | IsNull => kIsNull
  | IsNotNull => kIsNotNull
  | BoolValue _ _ => kBoolValue
  | FBigintRange _ => kBigintRange
  | FNegatedBigintRange _ => kNegatedBigintRange
  | FBigintValuesUsingHashTable _ => kBigintValuesUsingHashTable
  | FBigintValuesUsingBitmask _ => kBigintValuesUsingBitmask
  | FNegatedBigintValuesUsingHashTable _ => kNegatedBigintValuesUsingHashTable
  | FNegatedBigintValuesUsingBitmask _ => kNegatedBigintValuesUsingBitmask
  | FBigintMultiRange _ => kBigintMultiRange
  end.

(** [nullAllowed_] of the base class, as each constructor passes it. *)
Definition testNull (f : Filter) : bool :=
  match f with
  | AlwaysFalse | IsNotNull => false
  | AlwaysTrue | IsNull => true
  | BoolValue _ b => b
  | FBigintRange r => br_nullAllowed_ r
  | FNegatedBigintRange r => nbr_nullAllowed_ r
  | FBigintValuesUsingHashTable h => ht_nullAllowed_ h
  | FBigintValuesUsingBitmask b => bm_nullAllowed_ b
  | FNegatedBigintValuesUsingHashTable h => nht_nullAllowed_ h
  | FNegatedBigintValuesUsingBitmask b => nbm_nullAllowed_ b
  | FBigintMultiRange m => mr_nullAllowed_ m
  end.

Definition clone (f : Filter) (nullAllowed : option bool) : outcome Filter :=
  match f with
  | AlwaysFalse | AlwaysTrue | IsNull | IsNotNull => Ok f
  | BoolValue v b => Ok (BoolValue v (default b nullAllowed))
  | FBigintRange r => Ok (FBigintRange (br_clone r nullAllowed))
  | FNegatedBigintRange r => Ok (FNegatedBigintRange (nbr_clone r nullAllowed))
  | FBigintValuesUsingHashTable h =>
      Ok (FBigintValuesUsingHashTable (ht_withNull h (default (ht_nullAllowed_ h) nullAllowed)))
  | FBigintValuesUsingBitmask b =>
      Ok (FBigintValuesUsingBitmask (bm_withNull b (default (bm_nullAllowed_ b) nullAllowed)))
  | FNegatedBigintValuesUsingHashTable h =>
      Ok (FNegatedBigintValuesUsingHashTable
            (mkNegatedHashTable (default (nht_nullAllowed_ h) nullAllowed) (nht_nonNegated_ h)))
  | FNegatedBigintValuesUsingBitmask b =>
      Ok (FNegatedBigintValuesUsingBitmask
            (mkNegatedBitmask (default (nbm_nullAllowed_ b) nullAllowed)
               (nbm_min_ b) (nbm_max_ b) (nbm_nonNegated_ b)))
  | FBigintMultiRange m => m' ← mr_clone m nullAllowed; Ok (FBigintMultiRange m')
  end.

Definition testBool (f : Filter) (value : bool) : outcome bool :=
  match f with
  | AlwaysFalse | IsNull => Ok false
  | AlwaysTrue | IsNotNull => Ok true
  | BoolValue v _ => Ok (Bool.eqb v value)
  | _ => Throw VeloxUnsupported
  end.

Definition testInt64 (f : Filter) (value : Z) : outcome bool :=
  match f with
  | AlwaysFalse | IsNull => Ok false
  | AlwaysTrue | IsNotNull => Ok true
  | BoolValue v _ => Ok (Bool.eqb v (negb (value =? 0)))
  | FBigintRange r => Ok (br_testInt64 r value)
  | FNegatedBigintRange r => Ok (nbr_testInt64 r value)
  | FBigintValuesUsingHashTable h => Ok (ht_testInt64 h value)
  | FBigintValuesUsingBitmask b => bm_testInt64 b value
  | FNegatedBigintValuesUsingHashTable h => Ok (nht_testInt64 h value)
  | FNegatedBigintValuesUsingBitmask b => nbm_testInt64 b value
  | FBigintMultiRange m => mr_testInt64 m value
  end.

Definition boolValue_testInt64Range (v nullAllowed : bool) (min max : Z) (hasNull : bool) : bool :=
  if hasNull && nullAllowed then true
  else if v then negb (min =? 0) || negb (max =? 0)
  else (min <=? 0) && (max >=? 0).

Definition testInt64Range (f : Filter) (min max : Z) (hasNull : bool) : outcome bool :=
  match f with
  | AlwaysFalse => Ok false
  | AlwaysTrue | IsNotNull => Ok true
  | IsNull => Ok hasNull
  | BoolValue v b => Ok (boolValue_testInt64Range v b min max hasNull)
  | FBigintRange r => Ok (br_testInt64Range r min max hasNull)
  | FNegatedBigintRange r => Ok (nbr_testInt64Range r min max hasNull)
  | FBigintValuesUsingHashTable h => ht_testInt64Range h min max hasNull
  | FBigintValuesUsingBitmask b => bm_testInt64Range b min max hasNull
  | FNegatedBigintValuesUsingHashTable h => nht_testInt64Range h min max hasNull
  | FNegatedBigintValuesUsingBitmask b => nbm_testInt64Range b min max hasNull
  | FBigintMultiRange m => Ok (mr_testInt64Range m min max hasNull)
  end.

(** ** Specification: the set of values a filter stands for *)
Definition br_accepts (r : BigintRange) (v : Z) : bool := (lower_ r <=? v) && (v <=? upper_ r).

Definition bm_accepts (b : BigintValuesUsingBitmask) (v : Z) : bool := bool_decide (v ∈ bm_members b).

Definition accepts (f : Filter) (v : Z) : bool :=
  match f with
  | AlwaysFalse | IsNull => false
  | AlwaysTrue | IsNotNull => true
  | BoolValue b _ => Bool.eqb b (negb (v =? 0))
  | FBigintRange r => br_accepts r v
  | FNegatedBigintRange r => negb (br_accepts (nbr_nonNegated_ r) v)
  | FBigintValuesUsingHashTable h => bool_decide (v ∈ values_ h)
  | FBigintValuesUsingBitmask b => bm_accepts b v
  | FNegatedBigintValuesUsingHashTable h => negb (bool_decide (v ∈ nht_values h))
  | FNegatedBigintValuesUsingBitmask b => negb (bm_accepts (nbm_nonNegated_ b) v)
  | FBigintMultiRange m => existsb (λ r, br_accepts r v) (ranges_ m)
  end.

(** ** Well-formed filters: what the constructors establish, plus
    [lower <= upper] for ranges and the uniqueness of the listed values that
    the constructors' documentation asks for *)
Record br_wf (r : BigintRange) : Prop := {
  bw_new : r = newBigintRange (lower_ r) (upper_ r) (br_nullAllowed_ r);
  bw_le : lower_ r ≤ upper_ r;
  bw_lo : is_int64 (lower_ r);
  bw_hi : is_int64 (upper_ r)
}.

Record bm_wf (b : BigintValuesUsingBitmask) : Prop := {
  mw_lt : bm_min_ b < bm_max_ b;
  mw_lo : is_int64 (bm_min_ b);
  mw_hi : is_int64 (bm_max_ b);
  mw_len : Z.of_nat (length (bitmask_ b)) = bm_max_ b - bm_min_ b + 1;
  mw_some : bm_members b ≠ []
}.

Record mr_wf (m : BigintMultiRange) : Prop := {
  rw_len : (1 < length (ranges_ m))%nat;
  rw_ranges : Forall br_wf (ranges_ m);
  rw_ordered : rangesOrdered (ranges_ m) = true;
  rw_bounds : lowerBounds_ m = map lower_ (ranges_ m)
}.

Definition wf (f : Filter) : Prop :=
  match f with
  | AlwaysFalse | AlwaysTrue | IsNull | IsNotNull | BoolValue _ _ => True
  | FBigintRange r => br_wf r
  | FNegatedBigintRange r =>
      br_wf (nbr_nonNegated_ r) ∧ br_nullAllowed_ (nbr_nonNegated_ r) = negb (nbr_nullAllowed_ r)
  | FBigintValuesUsingHashTable h => ht_inv h ∧ NoDup (values_ h)
  | FBigintValuesUsingBitmask b => bm_wf b
  | FNegatedBigintValuesUsingHashTable h =>
      ht_inv (nht_nonNegated_ h) ∧ NoDup (nht_values h)
  | FNegatedBigintValuesUsingBitmask b => bm_wf (nbm_nonNegated_ b)
  | FBigintMultiRange m => mr_wf m
  end.

(** ** Ranges *)
Lemma newBigintRange_wf lower upper b :
  lower ≤ upper → is_int64 lower → is_int64 upper → br_wf (newBigintRange lower upper b).
Proof. intros. by split. Qed.
#[export] Hint Resolve newBigintRange_wf : cactus.

Lemma br_testInt64_spec r v : br_testInt64 r v = br_accepts r v.
Proof. unfold br_testInt64, br_accepts. lia. Qed.

Lemma br_testInt64Range_spec r min max hasNull v :
  min ≤ v ≤ max → br_accepts r v = true → br_testInt64Range r min max hasNull = true.
Proof.
  unfold br_accepts, br_testInt64Range. intros. destruct (hasNull && br_nullAllowed_ r); [done|]. lia.
Qed.

(** ** Bitmasks *)
Lemma elem_of_setPositions mask base v :
  v ∈ setPositions base mask ↔ ∃ i, mask !! i = Some true ∧ v = base + Z.of_nat i.
Proof.
  revert base; induction mask as [|b mask IH]; intros base; simpl.
  { split; [by intros ?%not_elem_of_nil | by intros (? & ? & ?)]. }
  transitivity ((b = true ∧ v = base) ∨ ∃ i, mask !! i = Some true ∧ v = base + 1 + Z.of_nat i).
  { rewrite <- IH. destruct b; [rewrite elem_of_cons|]; naive_solver. }
  split.
  - intros [[-> ->]|(i & Hi & ->)]; [exists 0%nat; simpl; split; [done|lia]|].
    exists (S i). simpl. split; [done|lia].
  - intros ([|i] & Hi & ->); simpl in Hi; [left; naive_solver lia|].
    right. exists i. split; [done|lia].
Qed.

Lemma setPositions_sorted mask base :
  StronglySorted Z.lt (setPositions base mask) ∧ Forall (λ v, base ≤ v) (setPositions base mask).
Proof.
  revert base; induction mask as [|b mask IH]; intros base; simpl; [by split; constructor|].
  destruct (IH (base + 1)) as [Hs Hf]. destruct b; [split|split; [done|]].
  - constructor; [done|]. eapply Forall_impl; [exact Hf|]. simpl. lia.
  - constructor; [lia|]. eapply Forall_impl; [exact Hf|]. simpl. lia.
  - eapply Forall_impl; [exact Hf|]. simpl. lia.
Qed.

Lemma index_Ok {A} (l : list A) i x : 0 ≤ i → l !! Z.to_nat i = Some x → index l i = Ok x.
Proof. intros Hi Hl. unfold index. destruct (Z.ltb_spec i 0); [lia|]. by rewrite Hl. Qed.

Lemma bm_bit_spec b v :
  bm_wf b → bm_min_ b ≤ v ≤ bm_max_ b → bm_bit b v = Ok (bm_accepts b v).
Proof.
  intros [Hlt Hlo Hhi Hlen _] Hv. unfold bm_bit, bm_accepts, bm_members.
  destruct (lookup_lt_is_Some_2 (bitmask_ b) (Z.to_nat (v - bm_min_ b))) as [x Hx]; [lia|].
  rewrite (index_Ok _ _ x) by (done || lia). f_equal. symmetry.
  destruct x; [apply bool_decide_true | apply bool_decide_false]; rewrite elem_of_setPositions.
  - eexists. split; [exact Hx|]. lia.
  - intros (i & Hi & ->). replace (Z.to_nat (bm_min_ b + Z.of_nat i - bm_min_ b)) with i in Hx by lia.
    congruence.
Qed.

Lemma bm_accepts_range b v : bm_wf b → bm_accepts b v = true → bm_min_ b ≤ v ≤ bm_max_ b.
Proof.
  intros [Hlt Hlo Hhi Hlen _] (i & Hi & ->)%bool_decide_eq_true%elem_of_setPositions.
  apply lookup_lt_Some in Hi. lia.
Qed.

Lemma bm_testInt64_spec b v : bm_wf b → bm_testInt64 b v = Ok (bm_accepts b v).
Proof.
  intros Hwf. unfold bm_testInt64. destruct (_ || _) eqn:E.
  - f_equal. symmetry. apply not_true_is_false. intros ?%bm_accepts_range; [lia | done].
  - apply bm_bit_spec; [done | lia].
Qed.

(** ** Multi-ranges *)
Lemma rangesOrdered_cons a l : rangesOrdered (a :: l) = true → Forall br_wf (a :: l) →
  rangesOrdered l = true ∧ Forall (λ b, upper_ a ≤ lower_ b) l.
Proof.
  revert a; induction l as [|b l IH]; intros a Ho Hwf; [by split; constructor|].
  change (((lower_ b >=? upper_ a) && rangesOrdered (b :: l)) = true) in Ho.
  apply andb_true_iff in Ho as [Hab Ho]. split; [done|].
  apply Forall_cons in Hwf as [_ Hwf]. destruct (IH b Ho Hwf) as [_ Hb].
  constructor; [lia|]. apply Forall_cons in Hwf as [[_ Hle _ _] _].
  eapply Forall_impl; [exact Hb|]. simpl. lia.
Qed.

Lemma rangesOrdered_sorted l : rangesOrdered l = true → Forall br_wf l →
  StronglySorted (λ a b, upper_ a ≤ lower_ b) l.
Proof.
  induction l as [|a l IH]; intros Ho Hwf; constructor.
  - apply IH; [by eapply rangesOrdered_cons | by inversion Hwf].
  - by eapply rangesOrdered_cons.
Qed.

Lemma sorted_lowers l : StronglySorted (λ a b, upper_ a ≤ lower_ b) l → Forall br_wf l →
  StronglySorted Z.le (map lower_ l).
Proof.
  induction 1 as [|a l _ IH Ha]; intros Hwf; simpl; constructor.
  - apply IH. by inversion Hwf.
  - apply Forall_cons in Hwf as [[_ Hle _ _] _]. apply Forall_map.
    eapply Forall_impl; [exact Ha|]. simpl. lia.
Qed.

(** The split of the ranges at the first lower bound not below [v]. *)
Lemma lower_bound_map l v : ∃ a b, l = a ++ b ∧
  lower_bound (map lower_ l) v = map lower_ b ∧ Forall (λ r, lower_ r < v) a ∧
  match b with [] => True | r :: _ => v ≤ lower_ r end.
Proof.
  induction l as [|r l IH]; simpl; [by exists [], []|].
  destruct (Z.ltb_spec (lower_ r) v).
  - destruct IH as (a & b & -> & E & Ha & Hb). exists (r :: a), b. auto.
  - exists [], (r :: l). auto.
Qed.

Lemma binarySearch_split l v : ∃ a b, l = a ++ b ∧ Forall (λ r, lower_ r < v) a ∧
  match b with
  | r :: _ => v ≤ lower_ r ∧
      binarySearch (map lower_ l) v =
        if lower_ r =? v then Z.of_nat (length a) else - Z.of_nat (length a) - 1
  | [] => binarySearch (map lower_ l) v = - Z.of_nat (length a) - 1
  end.
Proof.
  destruct (lower_bound_map l v) as (a & b & E & Hlb & Ha & Hb). exists a, b.
  split_and!; [done..|]. unfold binarySearch. rewrite Hlb, E, !length_map, length_app.
  replace (Z.of_nat (length a + length b) - Z.of_nat (length b)) with (Z.of_nat (length a)) by lia.
  destruct b; simpl; done.
Qed.

(** The ranges from the first lower bound at or above [v] on accept [v]
    exactly when that bound is [v]. *)
Lemma accepts_above r b v :
  v ≤ lower_ r → StronglySorted (λ a b, upper_ a ≤ lower_ b) (r :: b) → Forall br_wf (r :: b) →
  existsb (λ r, br_accepts r v) (r :: b) = (lower_ r =? v).
Proof.
  intros Hv [_ Hr]%StronglySorted_inv [[_ Hrle _ _] _]%Forall_cons. simpl.
  destruct (Z.eqb_spec (lower_ r) v) as [Ev|Ev].
  { apply orb_true_iff. left. unfold br_accepts. lia. }
  apply orb_false_iff. split; [unfold br_accepts; lia|].
  apply not_true_is_false. intros (r' & Hin%list_elem_of_In & Hacc)%existsb_exists.
  rewrite Forall_forall in Hr. specialize (Hr r' Hin). unfold br_accepts in Hacc. lia.
Qed.

(** Among the ranges below [v], only the last one can accept it. *)
Lemma accepts_below a r v :
  Forall (λ r, lower_ r < v) (a ++ [r]) → StronglySorted (λ a b, upper_ a ≤ lower_ b) (a ++ [r]) →
  existsb (λ r, br_accepts r v) (a ++ [r]) = br_accepts r v.
Proof.
  intros [_ [Hr _]%Forall_cons]%Forall_app Hs. rewrite existsb_app. simpl. rewrite orb_false_r.
  replace (existsb _ a) with false; [done|]. symmetry. apply not_true_is_false.
  intros (r' & Hin%list_elem_of_In & Hacc)%existsb_exists.
  apply StronglySorted_app in Hs as (Hs & _ & _).
  specialize (Hs r' r Hin ltac:(set_solver)). unfold br_accepts in Hacc. lia.
Qed.

Lemma mr_testInt64_spec m v :
  mr_wf m → mr_testInt64 m v = Ok (existsb (λ r, br_accepts r v) (ranges_ m)).
Proof.
  intros [Hlen Hwf Ho Hlb]. unfold mr_testInt64. rewrite Hlb.
  pose proof (rangesOrdered_sorted _ Ho Hwf) as Hs.
  destruct (binarySearch_split (ranges_ m) v) as (a & b & E & Ha & Hb).
  rewrite E in *. clear E. rewrite existsb_app.
  apply Forall_app in Hwf as [_ Hwf]. pose proof Hs as (_ & Hsa & Hsb)%StronglySorted_app.
  assert (binarySearch (map lower_ (a ++ b)) v = Z.of_nat (length a) ∧
            existsb (λ r, br_accepts r v) b = true ∨
          binarySearch (map lower_ (a ++ b)) v = - Z.of_nat (length a) - 1 ∧
            existsb (λ r, br_accepts r v) b = false) as [[-> ->]|[-> ->]].
  { destruct b as [|r b]; [by right|]. destruct Hb as [Hv ->].
    rewrite accepts_above by done. destruct (_ =? _); auto. }
  { destruct (Z.geb_spec (Z.of_nat (length a)) 0); [by rewrite orb_true_r | lia]. }
  rewrite orb_false_r. destruct (Z.geb_spec (- Z.of_nat (length a) - 1) 0); [lia|].
  replace (- (- Z.of_nat (length a) - 1) - 1) with (Z.of_nat (length a)) by lia.
  destruct (decide (a = [])) as [->|(a' & r & ->)%exists_last]; [done|].
  rewrite accepts_below by done. rewrite length_app. simpl.
  destruct (Z.eqb_spec (Z.of_nat (length a' + 1)) 0); [lia|].
  rewrite (index_Ok _ _ r); [by simpl; rewrite br_testInt64_spec | lia |].
  rewrite <- app_assoc, lookup_app_r by lia.
  by match goal with |- _ !! ?i = _ => replace i with 0%nat by lia end.
Qed.

Lemma testInt64_spec f v : wf f → testInt64 f v = Ok (accepts f v).
Proof.
  intros Hwf. destruct f; simpl in *; try done.
  - by rewrite br_testInt64_spec.
  - unfold nbr_testInt64. by rewrite br_testInt64_spec.
  - by rewrite ht_testInt64_spec by apply Hwf.
  - by apply bm_testInt64_spec.
  - unfold nht_testInt64. by rewrite ht_testInt64_spec by apply Hwf.
  - unfold nbm_testInt64. by rewrite bm_testInt64_spec.
  - by apply mr_testInt64_spec.
Qed.

(** ** Range tests *)
Lemma length_lower_bound l x : StronglySorted Z.le l →
  length (lower_bound l x) = length (filter (λ y, x ≤ y) l).
Proof.
  intros (below & E & Hb & Ha)%(fun H => lower_bound_spec l x H).
  rewrite E at 2. rewrite filter_app, (filter_none _ below), (filter_all _ (lower_bound l x));
    [done | done | eapply Forall_impl; [exact Hb | simpl; lia]].
Qed.

(** The values of a sorted list between two bounds, by positions. *)
Lemma lower_bound_count l min max : StronglySorted Z.le l → min ≤ max →
  Z.of_nat (length (lower_bound l min)) - Z.of_nat (length (lower_bound l max)) =
  Z.of_nat (length (filter (λ y, min ≤ y < max) l)).
Proof.
  intros Hs Hle. rewrite !length_lower_bound by done. clear Hs.
  induction l as [|y l IH]; [done|]. rewrite !filter_cons.
  repeat case_decide; simpl; lia.
Qed.

(** The signed difference of the endpoints is taken only when both are
    rejected values of a negated hash table. *)
Definition range_fits (f : Filter) (min max : Z) : Prop :=
  match f with
  | FNegatedBigintValuesUsingHashTable h =>
      min ∈ nht_values h → max ∈ nht_values h → max - min ≤ int64_max
  | _ => True
  end.

Lemma lower_bound_head l x y l' : StronglySorted Z.le l → lower_bound l x = y :: l' → y ∈ l.
Proof.
  intros Hs E. destruct (lower_bound_spec l x Hs) as (bl & E' & _).
  rewrite E', E. set_solver.
Qed.

Lemma nht_testInt64Range_spec n min max :
  wf (FNegatedBigintValuesUsingHashTable n) → min ≤ max →
  range_fits (FNegatedBigintValuesUsingHashTable n) min max →
  ∃ b, nht_testInt64Range n min max false = Ok b ∧
       ∀ v, min ≤ v ≤ max → v ∉ nht_values n → b = true.
Proof.
  intros [Hinv Hnd] Hle Hfit. simpl in Hfit. unfold nht_testInt64Range, nht_testInt64, nht_values in *.
  set (h := nht_nonNegated_ n) in *. simpl.
  destruct (Z.eqb_spec min max) as [->|Hne].
  { eexists. split; [done|]. intros v Hv Hnin.
    rewrite ht_testInt64_spec, bool_decide_false; [done | by replace max with v by lia | done]. }
  destruct (_ || _) eqn:Eor; [by eexists|].
  pose proof (hi_sorted h Hinv) as Hs. pose proof (hi_minmax h Hinv) as (_ & Hmax & _).
  assert (∀ x, x ≤ ht_max_ h → lower_bound (values_ h) x ≠ []) as Hnil.
  { intros x Hx E. destruct (lower_bound_spec (values_ h) x Hs) as (bl & E' & Hb & _).
    rewrite E, app_nil_r in E'. rewrite E' in Hmax. rewrite Forall_forall in Hb.
    specialize (Hb _ Hmax). lia. }
  pose proof (lower_bound_count (values_ h) min max Hs ltac:(lia)) as Hcount.
  destruct (lower_bound (values_ h) min) as [|lo los] eqn:Elo; [by destruct (Hnil min); [lia|]|].
  destruct (lower_bound (values_ h) max) as [|hi his] eqn:Ehi; [by destruct (Hnil max); [lia|]|].
  pose proof (lower_bound_head _ _ _ _ Hs Elo) as Hlo.
  pose proof (lower_bound_head _ _ _ _ Hs Ehi) as Hhi.
  destruct (negb _ || negb _) eqn:Eend; [by eexists|].
  assert (min = lo ∧ max = hi) as [<- <-] by lia. specialize (Hfit Hlo Hhi).
  unfold sub64. rewrite checked64_Ok by (unfold_ints; lia). cbn [mbind outcome_bind].
  eexists. split; [done|]. intros v Hv Hnin. apply negb_true_iff, Z.eqb_neq.
  assert (v ≠ max) by naive_solver.
  assert (v :: filter (λ y, min ≤ y < max) (values_ h) ⊆+ seqZ min (max - min)) as Hsub%submseteq_length.
  { apply NoDup_submseteq.
    - constructor; [by intros [? ?]%list_elem_of_filter | by apply NoDup_filter].
    - intros y [->|[? ?]%list_elem_of_filter]%elem_of_cons; apply elem_of_seqZ; lia. }
  rewrite length_seqZ in Hsub. cbn [length] in Hsub, Hcount |- *. lia.
Qed.

(** The range test returns, and a value that passes makes it pass. *)
Lemma testInt64Range_total f min max :
  wf f → min ≤ max → range_fits f min max →
  ∃ b, testInt64Range f min max false = Ok b ∧
       ∀ v, min ≤ v ≤ max → accepts f v = true → b = true.
Proof.
  intros Hwf Hle Hfit. destruct f as [| | | |bv na|r|r|h|b|h|b|m]; simpl in Hwf |- *.
  all: try (eexists; split; [done|]; by intros).
  - eexists. split; [done|]. intros v Hv Hacc%Bool.eqb_prop.
    unfold boolValue_testInt64Range. simpl. destruct bv; lia.
  - eexists. split; [done|]. intros. by eapply br_testInt64Range_spec.
  - eexists. split; [done|]. intros v Hv Hacc.
    unfold nbr_testInt64Range, nbr_lower, nbr_upper, br_accepts in *. simpl. lia.
  - rewrite ht_testInt64Range_spec by (apply Hwf || lia). eexists. split; [done|].
    intros v Hv Hacc%bool_decide_eq_true. apply bool_decide_true, Exists_exists. eauto.
  - unfold bm_testInt64Range. simpl. destruct (Z.eqb_spec min max) as [->|].
    + rewrite bm_testInt64_spec by done. eexists. split; [done|].
      intros v Hv Hacc. by replace max with v by lia.
    + eexists. split; [done|]. intros v Hv Hacc%bm_accepts_range; [lia | done].
  - destruct (nht_testInt64Range_spec h min max Hwf Hle Hfit) as (b & -> & Hb).
    eexists. split; [done|]. intros v Hv Hacc%negb_true_iff%bool_decide_eq_false. eauto.
  - unfold nbm_testInt64Range, nbm_testInt64. simpl. destruct (Z.eqb_spec min max) as [->|].
    + rewrite bm_testInt64_spec by done. eexists. split; [done|].
      intros v Hv Hacc. by replace max with v by lia.
    + by eexists.
  - eexists. split; [done|]. intros v Hv (r & Hin & Hr)%existsb_exists.
    unfold mr_testInt64Range. simpl. apply existsb_exists. exists r.
    split; [done|]. by eapply br_testInt64Range_spec.
Qed.

Lemma testInt64Range_null f min max :
  testNull f = true → testInt64Range f min max true = Ok true.
Proof.
  destruct f; simpl; try done; intros H;
    unfold boolValue_testInt64Range, br_testInt64Range, nbr_testInt64Range, ht_testInt64Range,
      bm_testInt64Range, nht_testInt64Range, nbm_testInt64Range, mr_testInt64Range;
    by rewrite H.
Qed.

(** Allowing nulls in the range can only turn the answer to true. *)
Lemma testInt64Range_mono f min max :
  testInt64Range f min max false = Ok true → testInt64Range f min max true = Ok true.
Proof.
  destruct f as [| | | |b na|r|r|h|b|h|b|m]; simpl; try done; intros H;
    unfold boolValue_testInt64Range, br_testInt64Range, nbr_testInt64Range, ht_testInt64Range,
      bm_testInt64Range, nht_testInt64Range, nbm_testInt64Range, mr_testInt64Range in *; simpl in *;
    try (match goal with |- (if ?b then _ else _) = _ => by destruct b end);
    try (injection H as H; f_equal;
         match goal with |- (if ?b then _ else _) = _ => by destruct b end).
  injection H as H. f_equal. destruct (mr_nullAllowed_ m); [done|].
  apply existsb_exists in H as (r & Hin & Hr). apply existsb_exists. exists r. split; [done|].
  unfold br_testInt64Range in *. simpl in *. by destruct (br_nullAllowed_ r).
Qed.

(** Null decides, or is as good as absent; the ranges inside a multi-range
    have null flags of their own. *)
Lemma testInt64Range_nonnull f min max :
  testNull f = false →
  testInt64Range f min max true = testInt64Range f min max false ∨ ∃ b, testInt64Range f min max true = Ok b.
Proof.
  destruct f as [| | | |b na|r|r|h|b|h|b|m]; simpl; intros H; try done; try (by left); try (by right; eexists); left;
    unfold ht_testInt64Range, bm_testInt64Range, nht_testInt64Range, nbm_testInt64Range; by rewrite H.
Qed.

(** The ends of the range are rejected values of a negated hash table, and
    their signed difference overflows. *)
Definition rangeOverflows (f : Filter) (min max : Z) (hasNull : bool) : bool :=
  match f with
  | FNegatedBigintValuesUsingHashTable h =>
      negb (hasNull && nht_nullAllowed_ h) && bool_decide (min ∈ nht_values h) && bool_decide (max ∈ nht_values h) &&
      (max - min >? int64_max)
  | _ => false
  end.

Lemma rangeOverflows_fits f min max hasNull :
  hasNull && testNull f = false → rangeOverflows f min max hasNull = false → range_fits f min max.
Proof.
  destruct f; try done. simpl. intros -> H Hmin Hmax. rewrite !bool_decide_true in H by done. lia.
Qed.

Lemma lower_bound_member l x : StronglySorted Z.le l → x ∈ l → ∃ l', lower_bound l x = x :: l'.
Proof.
  intros Hs Hx. destruct (lower_bound_spec l x Hs) as (bl & E & Hb & Ha).
  rewrite E in Hx. apply elem_of_app in Hx as [Hx|Hx]; [rewrite Forall_forall in Hb; specialize (Hb x Hx); lia|].
  destruct (lower_bound l x) as [|y l'] eqn:El; [by apply elem_of_nil in Hx|]. exists l'. f_equal.
  apply elem_of_cons in Hx as [?|Hx]; [done|]. rewrite E in Hs. apply StronglySorted_app in Hs as (_ & _ & Hs).
  apply StronglySorted_inv in Hs as [_ Hy]. rewrite Forall_forall in Hy, Ha. specialize (Hy x Hx).
  specialize (Ha y ltac:(by left)). lia.
Qed.

Lemma testInt64Range_overflows f min max hasNull :
  wf f → rangeOverflows f min max hasNull = true → testInt64Range f min max hasNull = Undefined.
Proof.
  destruct f as [| | | |b na|r|r|h|b|h|b|m]; try done. intros [Hinv Hnd] H. simpl in *. unfold nht_testInt64Range, nht_values in *.
  rewrite !andb_true_iff, !bool_decide_eq_true in H. destruct H as [[[H1 Hmin] Hmax] H4].
  apply negb_true_iff in H1. rewrite H1. pose proof (hi_values _ Hinv) as Hv. rewrite Forall_forall in Hv.
  destruct (Hv _ Hmin) as [? ?], (Hv _ Hmax) as [? ?].
  destruct (Z.eqb_spec min max); [unfold_ints; lia|].
  destruct (lower_bound_member _ min (hi_sorted _ Hinv) Hmin) as [los ->].
  destruct (lower_bound_member _ max (hi_sorted _ Hinv) Hmax) as [his ->].
  assert ((max >? ht_max_ (nht_nonNegated_ h)) || (min <? ht_min_ (nht_nonNegated_ h)) = false) as -> by lia.
  rewrite !Z.eqb_refl. cbn [negb orb]. unfold sub64, checked64.
  destruct (int64b (max - min)) eqn:E; [|done]. unfold int64b in E. unfold_ints. lia.
Qed.

(** ** Properties *)

(** C19: Every test of a well-formed filter refines its meaning as a set: it
    returns, without undefined behaviour, true exactly on the values the
    filter stands for (for multi-ranges through the binary search of the
    lower bounds, for bitmasks through an in-bounds read of the mask, for
    IN-lists through the hash table). *)
Theorem testInt64_refines f v : wf f → testInt64 f v = Ok (accepts f v).
Proof. apply testInt64_spec. Qed.

Definition sample_multi : BigintMultiRange :=
  mkMultiRange false [newBigintRange 1 5 false; newBigintRange 9 20 false; newBigintRange 20 31 false]
    [1; 9; 20].

Lemma sample_multi_wf : mr_wf sample_multi.
Proof.
  split; simpl; [lia | | done | done].
  repeat constructor; simpl; unfold_ints; lia.
Qed.

Lemma testInt64_refines_witness :
  newBigintMultiRange (ranges_ sample_multi) false = Ok sample_multi ∧
  testInt64 (FBigintMultiRange sample_multi) 25 = Ok true ∧
  testInt64 (FBigintMultiRange sample_multi) 7 = Ok false.
Proof.
  rewrite !(testInt64_refines (FBigintMultiRange sample_multi) _ sample_multi_wf).
  vm_compute. auto.
Defined.

(** C38: Row groups are skipped safely: for every kind of filter, if the
    statistics range [min..max] (plus null when [hasNull]) contains a value, or
    a null, that passes the filter, [testInt64Range] returns true; in any case it
    returns.  The one exception is stated as well: a negated hash table that
    rejects both ends of a range wider than the largest 64-bit integer, without
    null deciding, computes [max - min] with a signed overflow. *)
Theorem testInt64Range_sound f min max hasNull :
  wf f → min ≤ max →
  if rangeOverflows f min max hasNull then testInt64Range f min max hasNull = Undefined
  else ∃ b, testInt64Range f min max hasNull = Ok b ∧
    ((∃ v, min ≤ v ≤ max ∧ testInt64 f v = Ok true) ∨ (hasNull = true ∧ testNull f = true) → b = true).
Proof.
  intros Hwf Hle. destruct (rangeOverflows f min max hasNull) eqn:Eo; [by apply testInt64Range_overflows|].
  destruct (hasNull && testNull f) eqn:En.
  { apply andb_true_iff in En as [-> Hn]. exists true. by rewrite testInt64Range_null. }
  destruct (testInt64Range_total f min max Hwf Hle (rangeOverflows_fits f min max hasNull En Eo)) as (b & Hr & Hb).
  assert (∃ b', testInt64Range f min max hasNull = Ok b' ∧ (b = true → b' = true)) as (b' & -> & Hbb).
  { destruct hasNull; [|by eexists]. destruct (testInt64Range_nonnull f min max) as [->|(b' & Hb')]; [done | by eexists|].
    exists b'. split; [done|]. intros ->. rewrite (testInt64Range_mono f min max Hr) in Hb'. by injection Hb'. }
  exists b'. split; [done|]. intros [(v & Hv & Ht)|[Hh Hn]].
  - rewrite testInt64_spec in Ht by done. injection Ht as Ht. by apply Hbb, (Hb v).
  - by rewrite Hh, Hn in En.
Qed.

Definition sample_rejects : outcome NegatedBigintValuesUsingHashTable :=
  newNegatedBigintValuesUsingHashTable int64_min int64_max [int64_min; 7; int64_max] false.

Lemma testInt64Range_sound_witness :
  testInt64Range (FBigintMultiRange sample_multi) 6 10 false = Ok true ∧
  match sample_rejects with
  | Ok h => testInt64Range (FNegatedBigintValuesUsingHashTable h) int64_min int64_max false = Undefined
  | _ => False
  end.
Proof.
  split; [|vm_compute; reflexivity].
  destruct (testInt64Range_sound (FBigintMultiRange sample_multi) 6 10 false sample_multi_wf ltac:(lia)) as (b & Hr & Hb).
  rewrite Hr, Hb; [reflexivity|]. left. exists 10. split; [lia | reflexivity].
Defined.

(** The 32-bit and 16-bit batch tests of a range agree lane by lane with
    the scalar test whenever the range meets the narrow type. *)
Theorem narrow_batches_agree lower upper nullAllowed x :
  lower ≤ upper →
  (Forall is_int32 x → lower ≤ int32_max → int32_min ≤ upper →
     br_testValues32 (newBigintRange lower upper nullAllowed) x =
     map (br_testInt64 (newBigintRange lower upper nullAllowed)) x) ∧
  (Forall is_int16 x → lower ≤ int16_max → int16_min ≤ upper →
     br_testValues16 (newBigintRange lower upper nullAllowed) x =
     map (br_testInt64 (newBigintRange lower upper nullAllowed)) x).
Proof.
  intros Hle. split; intros Hx Hlo Hhi.
  - unfold br_testValues32. simpl.
    rewrite (swrap_small 32 (Z.max lower _)), (swrap_small 32 (Z.min upper _)) by (unfold_ints; lia).
    destruct (Z.eqb_spec upper lower) as [->|Hne];
      [destruct (Z.eqb_spec (Z.max lower int32_min) lower); simpl|];
      apply map_ext_in; intros v Hv%list_elem_of_In; rewrite Forall_forall in Hx;
      specialize (Hx v Hv); unfold br_testInt64; simpl.
    + rewrite (swrap_small 32) by (unfold_ints; lia). lia.
    + unfold_ints. lia.
    + unfold_ints. lia.
  - unfold br_testValues16. simpl.
    rewrite (swrap_small 16 (Z.max lower _)), (swrap_small 16 (Z.min upper _)) by (unfold_ints; lia).
    destruct (Z.eqb_spec upper lower) as [->|Hne];
      [destruct (Z.eqb_spec (Z.max lower int16_min) lower); simpl|];
      apply map_ext_in; intros v Hv%list_elem_of_In; rewrite Forall_forall in Hx;
      specialize (Hx v Hv); unfold br_testInt64; simpl.
    + rewrite (swrap_small 16) by (unfold_ints; lia). lia.
    + unfold_ints. lia.
    + unfold_ints. lia.
Qed.

Lemma narrow_batches_agree_witness :
  br_testValues32 (newBigintRange (-3000000000) 7 false) [7; -2147483648; 8] = [true; true; false] ∧
  br_testValues16 (newBigintRange (-3000000000) 7 false) [7; -32768; 8] = [true; true; false].
Proof.
  destruct (narrow_batches_agree (-3000000000) 7 false [7; -2147483648; 8] ltac:(lia)) as [H32 _].
  destruct (narrow_batches_agree (-3000000000) 7 false [7; -32768; 8] ltac:(lia)) as [_ H16].
  rewrite H32, H16; [split; reflexivity | ..]; repeat constructor; unfold_ints; lia.
Defined.

(** When the lower bound lies above the 32-bit range the stored 32-bit
    bound keeps only the low bits: the 32-bit batch test of the range
    [2^32 .. upper] accepts every non-negative lane, although the scalar test
    accepts no 32-bit value. *)
Theorem narrow_batch_truncates upper nullAllowed v :
  2 ^ 32 < upper → 0 ≤ v ≤ int32_max →
  br_testValues32 (newBigintRange (2 ^ 32) upper nullAllowed) [v] = [true] ∧
  br_testInt64 (newBigintRange (2 ^ 32) upper nullAllowed) v = false.
Proof.
  intros Hup Hv. unfold br_testValues32, br_testInt64. cbn [lower_ upper_ isSingleValue_ lower32_ upper32_ newBigintRange map].
  rewrite (proj2 (Z.eqb_neq upper (2 ^ 32))) by lia.
  change (swrap 32 (Z.max (2 ^ 32) int32_min)) with 0.
  rewrite Z.min_r by (unfold_ints; lia).
  change (swrap 32 int32_max) with int32_max. unfold_ints. split; [f_equal|]; lia.
Qed.

Lemma narrow_batch_truncates_witness :
  br_testValues32 (newBigintRange (2 ^ 32) (2 ^ 33) false) [5] = [true] ∧
  br_testInt64 (newBigintRange (2 ^ 32) (2 ^ 33) false) 5 = false.
Proof. apply (narrow_batch_truncates (2 ^ 33) false 5); [lia | unfold_ints; lia]. Defined.
