(* ===== verification/FilterMerge.v ===== *)
(** * Conjunction of filters

    Models the factories [createBigintValues] and [createNegatedBigintValues]
    and the [mergeWith] methods of the integral filters of
    [velox/type/Filter.cpp].  [mergeWith] dispatches on both filters and
    often calls itself with the arguments swapped, so each class's method
    takes the dispatcher as a parameter and [mergeWith] ties the knot. *)
From S2P Require Import Prelude HashTable Filter.
Local Open Scope Z_scope.

(** ** Factories *)
Definition nullOrFalse (nullAllowed : bool) : Filter :=
  if nullAllowed then IsNull else AlwaysFalse.

Definition notNullOrTrue (nullAllowed : bool) : Filter :=
  if nullAllowed then AlwaysTrue else IsNotNull.

(** The loop that finds [min] and [max]; the second test is skipped when the
    first succeeds. *)
Definition minMaxStep (mm : Z * Z) (v : Z) : Z * Z :=
  let '(min, max) := mm in
  if v >? max then (min, v) else if v <? min then (v, max) else (min, max).

(** The choice of representation once [min] and [max] are known: a contiguous
    list is a range, a dense one a bitmask, any other a hash table. *)
Definition filterForBounds (min max : Z) (values : list Z) (nullAllowed negated : bool)
    : outcome Filter :=
  let range := max - min in
  let n := Z.of_nat (length values) in
  if int64b range && (uwrap 64 (range + 1) =? n) then
    Ok (if negated then FNegatedBigintRange (newNegatedBigintRange min max nullAllowed)
        else FBigintRange (newBigintRange min max nullAllowed))
  else if int64b range && ((range <? 32 * 64) || (range <? uwrap 64 (n * 4 * 64))) then
    if negated then
      b ← newNegatedBigintValuesUsingBitmask min max values nullAllowed;
      Ok (FNegatedBigintValuesUsingBitmask b)
    else
      b ← newBigintValuesUsingBitmask min max values nullAllowed;
      Ok (FBigintValuesUsingBitmask b)
  else if negated then
    h ← newNegatedBigintValuesUsingHashTable min max values nullAllowed;
    Ok (FNegatedBigintValuesUsingHashTable h)
  else
    h ← newBigintValuesUsingHashTable min max values nullAllowed;
    Ok (FBigintValuesUsingHashTable h).

Definition createBigintValuesFilter (values : list Z) (nullAllowed negated : bool)
    : outcome Filter :=
  match values with
  | [] => Ok (if negated then notNullOrTrue nullAllowed else nullOrFalse nullAllowed)
  | [v] =>
      Ok (if negated then FNegatedBigintRange (newNegatedBigintRange v v nullAllowed)
          else FBigintRange (newBigintRange v v nullAllowed))
  | v0 :: rest =>
      intLoop (length values) ;;
      let '(min, max) := foldl minMaxStep (v0, v0) rest in
      filterForBounds min max values nullAllowed negated
  end.

Definition createBigintValues (values : list Z) (nullAllowed : bool) : outcome Filter :=
  createBigintValuesFilter values nullAllowed false.

Definition createNegatedBigintValues (values : list Z) (nullAllowed : bool) : outcome Filter :=
  createBigintValuesFilter values nullAllowed true.

(** ** Helpers on lists of ranges *)
Definition combineBigintRanges (ranges : list BigintRange) (nullAllowed : bool) : outcome Filter :=
  match ranges with
  | [] => Ok (nullOrFalse nullAllowed)
  | [r] => Ok (FBigintRange (newBigintRange (lower_ r) (upper_ r) nullAllowed))
  | _ => m ← newBigintMultiRange ranges nullAllowed; Ok (FBigintMultiRange m)
  end.

(** The [while] of [combineRangesAndNegatedValues]: the ranges emitted and the
    final [start]. *)
Fixpoint splitLoop (lower upper start : Z) (it : list Z) : outcome (list BigintRange * Z) :=
  match it with
  | [] => Ok ([], start)
  | x :: it' =>
      e ← sub64 x 1;
      if (start >=? lower) && (e <? upper) then
        s ← add64 x 1;
        '(out, final) ← splitLoop lower upper s it';
        Ok ((if start <=? e then [newBigintRange start e false] else []) ++ out, final)
      else Ok ([], start)
  end.

Definition splitRange (rejects : list Z) (r : BigintRange) : outcome (list BigintRange) :=
  '(out, start) ← splitLoop (lower_ r) (upper_ r) (lower_ r) (lower_bound rejects (lower_ r));
  Ok (out ++ if (start <=? upper_ r) && (start >=? lower_ r) && (upper_ r <=? upper_ r)
             then [newBigintRange start (upper_ r) false] else []).

Definition combineRangesAndNegatedValues (ranges : list BigintRange) (rejects : list Z)
    (nullAllowed : bool) : outcome Filter :=
  outRanges ← mapM_o (splitRange rejects) ranges;
  combineBigintRanges (concat outRanges) nullAllowed.

(** The three [while] loops of [combineNegatedBigintLists]. *)
Fixpoint mergeLists (first : list Z) : list Z → list Z :=
  fix aux (second : list Z) : list Z :=
    match first, second with
    | x :: first', y :: second' =>
        let lo := Z.min x y in
        if lo =? x then
          if lo =? y then lo :: mergeLists first' second'
          else lo :: mergeLists first' second
        else lo :: aux second'
    | _, [] => first
    | [], _ => second
    end.

Definition combineNegatedBigintLists (first second : list Z) (nullAllowed : bool) : outcome Filter :=
  createNegatedBigintValues (mergeLists first second) nullAllowed.

Definition cutRange (negatedLower negatedUpper : Z) (r : BigintRange) : outcome (list BigintRange) :=
  if (negatedUpper <? lower_ r) || (upper_ r <? negatedLower) then
    Ok [newBigintRange (lower_ r) (upper_ r) false]
  else
    left ← (if lower_ r <? negatedLower then
              hi ← sub64 negatedLower 1; Ok [newBigintRange (lower_ r) hi false]
            else Ok []);
    right ← (if negatedUpper <? upper_ r then
               lo ← add64 negatedUpper 1; Ok [newBigintRange lo (upper_ r) false]
             else Ok []);
    Ok (left ++ right).

Definition combineNegatedRangeOnIntRanges (negatedLower negatedUpper : Z)
    (ranges : list BigintRange) (nullAllowed : bool) : outcome Filter :=
  outRanges ← mapM_o (cutRange negatedLower negatedUpper) ranges;
  combineBigintRanges (concat outRanges) nullAllowed.

(** The gaps after [back], up to the largest integer. *)
Fixpoint gapsFrom (back : Z) (rest : list Z) : outcome (list BigintRange) :=
  match rest with
  | [] =>
      if back <? int64_max then
        lo ← add64 back 1; Ok [newBigintRange lo int64_max false]
      else Ok []
  | front :: rest' =>
      lo ← add64 back 1;
      hi ← sub64 front 1;
      out ← gapsFrom front rest';
      Ok ((if lo <=? hi then [newBigintRange lo hi false] else []) ++ out)
  end.

Definition negatedValuesToRanges (values : list Z) : outcome (list BigintRange) :=
  match values with
  | [] => Undefined
  | back :: rest =>
      first ← (if back >? int64_min then
                 hi ← sub64 back 1; Ok [newBigintRange int64_min hi false]
               else Ok []);
      out ← gapsFrom back rest;
      Ok (first ++ out)
  end.

(** ** The methods *)
Fixpoint filterM_o (p : Z → outcome bool) (l : list Z) : outcome (list Z) :=
  match l with
  | [] => Ok []
  | x :: l' => b ← p x; out ← filterM_o p l'; Ok (if b : bool then x :: out else out)
  end.

(** [for (auto i = min; i <= max; ++i)]: the increment past the largest
    integer is undefined. *)
Definition loopRange (min max : Z) : outcome (list Z) :=
  if (min <=? max) && (max =? int64_max) then Undefined else Ok (seqZ min (max - min + 1)).

Section Methods.
(** [a->mergeWith(b)]. *)
Context (rec : Filter → Filter → outcome Filter).

Definition isNull_mergeWith (other : Filter) : outcome Filter :=
  if testNull other then clone IsNull None else Ok AlwaysFalse.

Definition isNotNull_mergeWith (other : Filter) : outcome Filter :=
  match other with
  | AlwaysTrue | IsNotNull => clone IsNotNull None
  | AlwaysFalse | IsNull => Ok AlwaysFalse
  | _ => rec other IsNotNull
  end.

Definition boolValue_mergeWith (value nullAllowed : bool) (other : Filter) : outcome Filter :=
  match other with
  | AlwaysTrue | AlwaysFalse | IsNull => rec other (BoolValue value nullAllowed)
  | IsNotNull => Ok (BoolValue value false)
  | BoolValue _ _ =>
      let bothNullAllowed := nullAllowed && testNull other in
      b ← testBool other value;
      Ok (if b : bool then BoolValue value bothNullAllowed else nullOrFalse bothNullAllowed)
  | _ => Throw VeloxUnreachable
  end.

(** The loop over the ranges of a multi-range: a merged range is kept, an
    [AlwaysFalse] dropped, anything else fails the check. *)
Definition keepRange (merged : Filter) : outcome (list BigintRange) :=
  match merged with
  | FBigintRange r => Ok [r]
  | AlwaysFalse => Ok []
  | _ => Throw VeloxCheckFailed
  end.

Definition br_mergeWith (this : BigintRange) (other : Filter) : outcome Filter :=
  let bothNullAllowed := br_nullAllowed_ this && testNull other in
  match other with
  | AlwaysTrue | AlwaysFalse | IsNull => rec other (FBigintRange this)
  | IsNotNull => Ok (FBigintRange (newBigintRange (lower_ this) (upper_ this) false))
  | FBigintRange o =>
      let lower := Z.max (lower_ this) (lower_ o) in
      let upper := Z.min (upper_ this) (upper_ o) in
      Ok (if lower <=? upper then FBigintRange (newBigintRange lower upper bothNullAllowed)
          else nullOrFalse bothNullAllowed)
  | FNegatedBigintRange _ | FBigintValuesUsingBitmask _ | FBigintValuesUsingHashTable _ =>
      rec other (FBigintRange this)
  | FBigintMultiRange m =>
      newRanges ← mapM_o (λ r, merged ← rec (FBigintRange this) (FBigintRange r); keepRange merged)
                    (ranges_ m);
      combineBigintRanges (concat newRanges) bothNullAllowed
  | FNegatedBigintValuesUsingBitmask b =>
      some ← testInt64Range other (lower_ this) (upper_ this) false;
      if negb some then Ok (nullOrFalse bothNullAllowed)
      else
        rejects ← nbm_values b;
        combineRangesAndNegatedValues [newBigintRange (lower_ this) (upper_ this) false] rejects bothNullAllowed
  | FNegatedBigintValuesUsingHashTable h =>
      some ← testInt64Range other (lower_ this) (upper_ this) false;
      if negb some then Ok (nullOrFalse bothNullAllowed)
      else combineRangesAndNegatedValues [newBigintRange (lower_ this) (upper_ this) false]
             (nht_values h) bothNullAllowed
  | BoolValue _ _ => Throw VeloxUnreachable
  end.

(** The case of two negated ranges, [this] starting first. *)
Definition negatedRanges_mergeWith (this other : NegatedBigintRange) (bothNullAllowed : bool)
    : outcome Filter :=
  next ← add64 (nbr_upper this) 1;
  if next <? nbr_lower other then
    let smallLower := nbr_lower this in
    let smallUpper := nbr_upper this in
    let bigLower := nbr_lower other in
    let bigUpper := nbr_upper other in
    below ← (if smallLower >? int64_min then
               hi ← sub64 smallLower 1; Ok [newBigintRange int64_min hi false]
             else Ok []);
    between ← (if (smallUpper <? int64_max) && (bigLower >? int64_min) then
                 lo ← add64 smallUpper 1; hi ← sub64 bigLower 1;
                 Ok [newBigintRange lo hi false]
               else Ok []);
    above ← (if bigUpper <? int64_max then
               lo ← add64 bigUpper 1; Ok [newBigintRange lo int64_max false]
             else Ok []);
    combineBigintRanges (below ++ between ++ above) bothNullAllowed
  else
    Ok (FNegatedBigintRange
          (newNegatedBigintRange (nbr_lower this) (Z.max (nbr_upper this) (nbr_upper other))
             bothNullAllowed)).

(** The case of a negated range and a negated list. *)
Definition nbr_mergeValues (this : NegatedBigintRange) (other : Filter) (rejectedValues : list Z)
    (bothNullAllowed : bool) : outcome Filter :=
  if isSingleValue_ (nbr_nonNegated_ this) then
    passes ← testInt64 other (nbr_lower this);
    createNegatedBigintValues
      (if passes : bool then rejectedValues ++ [nbr_lower this] else rejectedValues) bothNullAllowed
  else
    ranges ← negatedValuesToRanges rejectedValues;
    combineNegatedRangeOnIntRanges (nbr_lower this) (nbr_upper this) ranges bothNullAllowed.

Definition nbr_mergeWith (this : NegatedBigintRange) (other : Filter) : outcome Filter :=
  let bothNullAllowed := nbr_nullAllowed_ this && testNull other in
  match other with
  | AlwaysTrue | AlwaysFalse | IsNull => rec other (FNegatedBigintRange this)
  | IsNotNull => clone (FNegatedBigintRange this) (Some false)
  | FBigintRange o =>
      combineNegatedRangeOnIntRanges (nbr_lower this) (nbr_upper this)
        [newBigintRange (lower_ o) (upper_ o) false] bothNullAllowed
  | FNegatedBigintRange o =>
      if nbr_lower this >? nbr_lower o then rec other (FNegatedBigintRange this)
      else negatedRanges_mergeWith this o bothNullAllowed
  | FBigintMultiRange m =>
      combineNegatedRangeOnIntRanges (nbr_lower this) (nbr_upper this) (ranges_ m) bothNullAllowed
  | FBigintValuesUsingHashTable _ | FBigintValuesUsingBitmask _ =>
      rec other (FNegatedBigintRange this)
  | FNegatedBigintValuesUsingHashTable h =>
      nbr_mergeValues this other (nht_values h) bothNullAllowed
  | FNegatedBigintValuesUsingBitmask b =>
      rejects ← nbm_values b;
      nbr_mergeValues this other rejects bothNullAllowed
  | BoolValue _ _ => Throw VeloxUnreachable
  end.

(** [BigintValuesUsingHashTable::mergeWith(min, max, other)]. *)
Definition ht_mergeRange (this : BigintValuesUsingHashTable) (min max : Z) (other : Filter)
    : outcome Filter :=
  let bothNullAllowed := ht_nullAllowed_ this && testNull other in
  if max <? min then Ok (nullOrFalse bothNullAllowed)
  else if max =? min then
    b ← (if ht_testInt64 this min then testInt64 other min else Ok false);
    Ok (if b : bool then FBigintRange (newBigintRange min min bothNullAllowed)
        else nullOrFalse bothNullAllowed)
  else
    marker ← (if containsEmptyMarker_ this then testInt64 other kEmptyMarker else Ok false);
    kept ← filterM_o (λ v, if negb (v =? kEmptyMarker) then testInt64 other v else Ok false)
             (hashTable_ this);
    createBigintValues ((if marker : bool then [kEmptyMarker] else []) ++ kept) bothNullAllowed.

Definition ht_mergeWith (this : BigintValuesUsingHashTable) (other : Filter) : outcome Filter :=
  match other with
  | AlwaysTrue | AlwaysFalse | IsNull => rec other (FBigintValuesUsingHashTable this)
  | IsNotNull => Ok (FBigintValuesUsingHashTable (ht_withNull this false))
  | FBigintRange o =>
      ht_mergeRange this (Z.max (ht_min_ this) (lower_ o)) (Z.min (ht_max_ this) (upper_ o)) other
  | FBigintValuesUsingHashTable o =>
      ht_mergeRange this (Z.max (ht_min_ this) (ht_min_ o)) (Z.min (ht_max_ this) (ht_max_ o)) other
  | FBigintValuesUsingBitmask _ => rec other (FBigintValuesUsingHashTable this)
  | FBigintMultiRange m =>
      marker ← (if containsEmptyMarker_ this then testInt64 other kEmptyMarker else Ok false);
      let kept := concat (map (λ r,
        if Z.max (ht_min_ this) (lower_ r) <=? Z.min (ht_max_ this) (upper_ r)
        then filter (λ v, br_testInt64 r v = true) (values_ this) else []) (ranges_ m)) in
      createBigintValues ((if marker : bool then [kEmptyMarker] else []) ++ kept)
        (ht_nullAllowed_ this && testNull other)
  | FNegatedBigintRange _ | FNegatedBigintValuesUsingBitmask _
  | FNegatedBigintValuesUsingHashTable _ =>
      ht_mergeRange this (ht_min_ this) (ht_max_ this) other
  | BoolValue _ _ => Throw VeloxUnreachable
  end.

(** [BigintValuesUsingBitmask::mergeWith(min, max, other)]. *)
Definition bm_mergeRange (this : BigintValuesUsingBitmask) (min max : Z) (other : Filter)
    : outcome Filter :=
  idx ← loopRange min max;
  kept ← filterM_o (λ i, bit ← bm_bit this i; if bit : bool then testInt64 other i else Ok false) idx;
  createBigintValues kept (bm_nullAllowed_ this && testNull other).

Definition bm_mergeWith (this : BigintValuesUsingBitmask) (other : Filter) : outcome Filter :=
  match other with
  | AlwaysTrue | AlwaysFalse | IsNull => rec other (FBigintValuesUsingBitmask this)
  | IsNotNull => Ok (FBigintValuesUsingBitmask (bm_withNull this false))
  | FBigintRange o =>
      bm_mergeRange this (Z.max (bm_min_ this) (lower_ o)) (Z.min (bm_max_ this) (upper_ o)) other
  | FBigintValuesUsingHashTable o =>
      bm_mergeRange this (Z.max (bm_min_ this) (ht_min_ o)) (Z.min (bm_max_ this) (ht_max_ o)) other
  | FBigintValuesUsingBitmask o =>
      bm_mergeRange this (Z.max (bm_min_ this) (bm_min_ o)) (Z.min (bm_max_ this) (bm_max_ o)) other
  | FBigintMultiRange m =>
      kept ← mapM_o (λ r,
        idx ← loopRange (Z.max (bm_min_ this) (lower_ r)) (Z.min (bm_max_ this) (upper_ r));
        filterM_o (λ i, bit ← bm_bit this i; Ok (bit && br_testInt64 r i)) idx) (ranges_ m);
      createBigintValues (concat kept) (bm_nullAllowed_ this && testNull other)
  | FNegatedBigintRange _ | FNegatedBigintValuesUsingBitmask _
  | FNegatedBigintValuesUsingHashTable _ =>
      bm_mergeRange this (bm_min_ this) (bm_max_ this) other
  | BoolValue _ _ => Throw VeloxUnreachable
  end.

Definition nht_mergeWith (this : NegatedBigintValuesUsingHashTable) (other : Filter) : outcome Filter :=
  match other with
  | IsNotNull => Ok (FNegatedBigintValuesUsingHashTable (mkNegatedHashTable false (nht_nonNegated_ this)))
  | FNegatedBigintValuesUsingHashTable o =>
      combineNegatedBigintLists (nht_values this) (nht_values o)
        (nht_nullAllowed_ this && testNull other)
  | BoolValue _ _ => Throw VeloxUnreachable
  | _ => rec other (FNegatedBigintValuesUsingHashTable this)
  end.

Definition nbm_mergeWith (this : NegatedBigintValuesUsingBitmask) (other : Filter) : outcome Filter :=
  match other with
  | IsNotNull =>
      Ok (FNegatedBigintValuesUsingBitmask
            (mkNegatedBitmask false (nbm_min_ this) (nbm_max_ this) (nbm_nonNegated_ this)))
  | FNegatedBigintValuesUsingHashTable o =>
      rejects ← nbm_values this;
      combineNegatedBigintLists rejects (nht_values o) (nbm_nullAllowed_ this && testNull other)
  | FNegatedBigintValuesUsingBitmask o =>
      rejects ← nbm_values this;
      otherRejects ← nbm_values o;
      combineNegatedBigintLists rejects otherRejects (nbm_nullAllowed_ this && testNull other)
  | BoolValue _ _ => Throw VeloxUnreachable
  | _ => rec other (FNegatedBigintValuesUsingBitmask this)
  end.

(** In the multi-range case a merged multi-range contributes its ranges. *)
Definition keepRanges (merged : Filter) : outcome (list BigintRange) :=
  match merged with
  | FBigintRange r => Ok [r]
  | FBigintMultiRange m => Ok (map (λ r, br_clone r None) (ranges_ m))
  | AlwaysFalse => Ok []
  | _ => Throw VeloxCheckFailed
  end.

Definition mr_mergeWith (this : BigintMultiRange) (other : Filter) : outcome Filter :=
  let bothNullAllowed := mr_nullAllowed_ this && testNull other in
  match other with
  | AlwaysTrue | AlwaysFalse | IsNull => rec other (FBigintMultiRange this)
  | IsNotNull => m ← newBigintMultiRange (ranges_ this) false; Ok (FBigintMultiRange m)
  | FBigintRange _ | FNegatedBigintRange _ | FBigintValuesUsingBitmask _
  | FBigintValuesUsingHashTable _ => rec other (FBigintMultiRange this)
  | FBigintMultiRange _ =>
      newRanges ← mapM_o (λ r, merged ← rec (FBigintRange r) other; keepRanges merged) (ranges_ this);
      combineBigintRanges (concat newRanges) bothNullAllowed
  | FNegatedBigintValuesUsingHashTable h =>
      combineRangesAndNegatedValues (ranges_ this) (nht_values h) bothNullAllowed
  | FNegatedBigintValuesUsingBitmask b =>
      rejects ← nbm_values b;
      combineRangesAndNegatedValues (ranges_ this) rejects bothNullAllowed
  | BoolValue _ _ => Throw VeloxUnreachable
  end.

Definition mergeStep (this other : Filter) : outcome Filter :=
  match this with
  | AlwaysFalse => clone AlwaysFalse None
  | AlwaysTrue => clone other None
  | IsNull => isNull_mergeWith other
  | IsNotNull => isNotNull_mergeWith other
  | BoolValue v b => boolValue_mergeWith v b other
  | FBigintRange r => br_mergeWith r other
  | FNegatedBigintRange r => nbr_mergeWith r other
  | FBigintValuesUsingHashTable h => ht_mergeWith h other
  | FBigintValuesUsingBitmask b => bm_mergeWith b other
  | FNegatedBigintValuesUsingHashTable h => nht_mergeWith h other
  | FNegatedBigintValuesUsingBitmask b => nbm_mergeWith b other
  | FBigintMultiRange m => mr_mergeWith m other
  end.
End Methods.

Fixpoint mergeWithFuel (fuel : nat) (this other : Filter) : outcome Filter :=
  match fuel with
  | O => Throw OutOfFuel
  | S fuel' => mergeStep (mergeWithFuel fuel') this other
  end.

(** Three nested dispatches are the most any pair of filters needs
    ([mergeWith_fuel_enough] below). *)
Definition mergeWith (this other : Filter) : outcome Filter := mergeWithFuel 3 this other.
