(* ===== verification/FilterLists.v ===== *)
(** * Correctness of the factories and of the helpers on lists of ranges

    What the helper functions of [velox/type/Filter.cpp] compute, stated with
    [means]: the filter they return is well formed, has the expected null flag
    and accepts the expected set of values.  A list of ranges that is cut,
    intersected or complemented is described by [piece]. *)
From S2P Require Import Prelude HashTable Filter FilterMerge.
Local Open Scope Z_scope.

(** A multi-range whose inner ranges are strictly apart and carry no null
    flag of their own. *)
Definition ranges_ok (l : list BigintRange) : Prop :=
  Forall br_wf l ∧ Forall (λ r, br_nullAllowed_ r = false) l ∧
  StronglySorted (λ a b, upper_ a < lower_ b) l.

Definition sane (f : Filter) : Prop :=
  match f with FBigintMultiRange m => ranges_ok (ranges_ m) | _ => True end.

(** [r] is a well-formed filter with the given null flag and set of values. *)
Record means (r : Filter) (nullAllowed : bool) (P : Z → bool) : Prop := {
  m_wf : wf r;
  m_sane : sane r;
  m_null : testNull r = nullAllowed;
  m_accepts : ∀ v, is_int64 v → accepts r v = P v
}.

Lemma means_ext r na P Q :
  (∀ v, is_int64 v → P v = Q v) → means r na P → means r na Q.
Proof. intros H [? ? ? Ha]. split; [done..|]. intros. by rewrite Ha, H. Qed.

Lemma nullOrFalse_means na P : (∀ v, is_int64 v → P v = false) → means (nullOrFalse na) na P.
Proof. intros H. by destruct na; split; simpl; intros; rewrite ?H. Qed.

Lemma notNullOrTrue_means na P : (∀ v, is_int64 v → P v = true) → means (notNullOrTrue na) na P.
Proof. intros H. by destruct na; split; simpl; intros; rewrite ?H. Qed.

Lemma range_means lower upper na :
  lower ≤ upper → is_int64 lower → is_int64 upper →
  means (FBigintRange (newBigintRange lower upper na)) na (λ v, (lower <=? v) && (v <=? upper)).
Proof. intros. split; simpl; auto with cactus. Qed.

Lemma negatedRange_means lower upper na :
  lower ≤ upper → is_int64 lower → is_int64 upper →
  means (FNegatedBigintRange (newNegatedBigintRange lower upper na)) na
    (λ v, negb ((lower <=? v) && (v <=? upper))).
Proof. intros. split; simpl; auto with cactus. Qed.

(** ** The factories *)
Lemma minMax_spec l min max : min ≤ max →
  let '(a, b) := foldl minMaxStep (min, max) l in
  a ≤ min ∧ max ≤ b ∧ Forall (λ v, a ≤ v ≤ b) l ∧ (a = min ∨ a ∈ l) ∧ (b = max ∨ b ∈ l).
Proof.
  revert min max; induction l as [|v l IH]; intros min max Hle; simpl.
  { repeat split; auto; try lia. }
  assert (∀ min' max', min' ≤ max' → min' ≤ min → max ≤ max' → min' ≤ v ≤ max' →
    (min' = min ∨ min' = v) → (max' = max ∨ max' = v) →
    let '(a, b) := foldl minMaxStep (min', max') l in
    a ≤ min ∧ max ≤ b ∧ Forall (λ v, a ≤ v ≤ b) (v :: l) ∧
    (a = min ∨ a ∈ v :: l) ∧ (b = max ∨ b ∈ v :: l)) as Hstep.
  { intros min' max' Hle' H1 H2 Hv Hm HM. specialize (IH min' max' Hle').
    destruct (foldl minMaxStep (min', max') l) as [a b].
    destruct IH as (? & ? & ? & Ha & Hb). split_and!; [lia | lia | by constructor; [lia|] | |].
    - rewrite elem_of_cons. destruct Ha as [->|]; destruct Hm; auto.
    - rewrite elem_of_cons. destruct Hb as [->|]; destruct HM; auto. }
  destruct (Z.gtb_spec v max); [|destruct (Z.ltb_spec v min)]; apply Hstep; auto; lia.
Qed.

(** Distinct values that fill [min..max] are all of it. *)
Lemma contiguous_all values min max v :
  NoDup values → Forall (λ v, min ≤ v ≤ max) values →
  max - min + 1 = Z.of_nat (length values) → min ≤ v ≤ max → v ∈ values.
Proof.
  intros Hnd Hb Hlen Hv. rewrite Forall_forall in Hb.
  assert (values ⊆+ seqZ min (max - min + 1)) as Hsub.
  { apply NoDup_submseteq; [done|]. intros x Hx. apply elem_of_seqZ. specialize (Hb x Hx). lia. }
  assert (values ≡ₚ seqZ min (max - min + 1)) as ->.
  { apply submseteq_length_Permutation; [done|]. rewrite length_seqZ. lia. }
  apply elem_of_seqZ. lia.
Qed.

Lemma setBits_spec min values mask :
  Forall (λ v, min ≤ v < min + Z.of_nat (length mask)) values →
  ∃ mask', foldM_o (setBit min) values mask = Ok mask' ∧ length mask' = length mask ∧
    ∀ i, mask' !! i = Some true ↔ mask !! i = Some true ∨ min + Z.of_nat i ∈ values.
Proof.
  revert mask; induction values as [|v values IH]; intros mask Hv; simpl.
  { exists mask. split_and!; [done..|]. intros i. split; [auto|].
    by intros [?|?%not_elem_of_nil]. }
  apply Forall_cons in Hv as [Hv Hvs].
  assert (setBit min mask v = Ok (<[Z.to_nat (v - min) := true]> mask)) as ->.
  { unfold setBit. destruct (_ && _) eqn:E; [done | lia]. }
  cbn [mbind outcome_bind].
  destruct (IH (<[Z.to_nat (v - min):=true]> mask)) as (mask' & -> & Hlen & Hspec);
    [by rewrite length_insert|]. rewrite length_insert in Hlen.
  exists mask'. split_and!; [done..|]. intros i. rewrite Hspec, elem_of_cons.
  destruct (decide (i = Z.to_nat (v - min))) as [->|Hne].
  - rewrite list_lookup_insert_eq by lia. split; [|auto]. intros _. right. left. lia.
  - rewrite list_lookup_insert_ne by done. split; [naive_solver|].
    intros [?|[?|?]]; [auto | lia | auto].
Qed.

Lemma newBitmask_spec min max values na :
  Forall (λ v, min ≤ v ≤ max) values → min < max → (1 < length values)%nat →
  is_int64 min → is_int64 max → max - min < int64_max →
  ∃ b, newBigintValuesUsingBitmask min max values na = Ok b ∧ bm_wf b ∧
    bm_nullAllowed_ b = na ∧ ∀ v, bm_accepts b v = bool_decide (v ∈ values).
Proof.
  intros Hv Hlt Hlen Hmin Hmax Hfit. unfold newBigintValuesUsingBitmask.
  rewrite (proj2 (Z.ltb_lt _ _) Hlt), (proj2 (Nat.ltb_lt _ _) Hlen).
  unfold sub64, add64. cbn [mbind outcome_bind velox_check].
  do 2 (rewrite checked64_Ok by (unfold_ints; lia); cbn [mbind outcome_bind]).
  destruct (setBits_spec min values (replicate (Z.to_nat (max - min + 1)) false))
    as (mask & -> & Hl & Hspec).
  { rewrite length_replicate. eapply Forall_impl; [exact Hv|]. simpl. lia. }
  rewrite length_replicate in Hl. eexists. split; [done|].
  assert (∀ v, v ∈ setPositions min mask ↔ v ∈ values) as Hmem.
  { intros v. rewrite elem_of_setPositions. setoid_rewrite Hspec. split.
    + intros (i & [Hi|Hi] & ->); [|done]. by apply lookup_replicate in Hi as [? _].
    + intros Hin. rewrite Forall_forall in Hv. specialize (Hv v Hin).
      exists (Z.to_nat (v - min)). split; [|lia]. right. by replace (min + _) with v by lia. }
  split_and!; [|done|].
  - split; simpl; [done.. | lia |]. unfold bm_members. simpl. destruct values as [|v values]; [simpl in Hlen; lia|].
    intros E. apply (not_elem_of_nil v). rewrite <- E. apply Hmem. set_solver.
  - intros v. unfold bm_accepts, bm_members. simpl. apply bool_decide_ext, Hmem.
Qed.

Lemma newHashTable_means min max values na negated :
  Forall (λ v, is_int64 v ∧ min ≤ v ≤ max) values → min ∈ values → max ∈ values →
  min < max → (1 < length values)%nat → NoDup values → Z.of_nat (length values) * 5 < 2 ^ 32 →
  ∃ r, (if negated : bool
        then h ← newNegatedBigintValuesUsingHashTable min max values na;
             Ok (FNegatedBigintValuesUsingHashTable h)
        else h ← newBigintValuesUsingHashTable min max values na;
             Ok (FBigintValuesUsingHashTable h)) = Ok r ∧
       means r na (λ v, xorb negated (bool_decide (v ∈ values))).
Proof.
  intros Hv Hmin Hmax Hlt Hlen Hnd Hsz. unfold newNegatedBigintValuesUsingHashTable.
  destruct negated.
  - destruct (newHashTable_inv min max values (negb na) Hv Hmin Hmax Hsz Hlt Hlen)
      as (h & -> & Hinv & Hp & _). eexists. split; [done|].
    split; simpl; [split; [done | unfold nht_values; simpl; by rewrite Hp] | done..|].
    intros v _. unfold nht_values. simpl. destruct (bool_decide_reflect (v ∈ values)) as [Hin|Hin];
      [rewrite bool_decide_true by (by rewrite Hp) | rewrite bool_decide_false by (by rewrite Hp)]; done.
  - destruct (newHashTable_inv min max values na Hv Hmin Hmax Hsz Hlt Hlen)
      as (h & -> & Hinv & Hp & Hna & _). eexists. split; [done|].
    split; simpl; [split; [done | by rewrite Hp] | done..|].
    intros v _. apply bool_decide_ext. by rewrite Hp.
Qed.

Lemma newBitmask_means min max values na negated :
  Forall (λ v, min ≤ v ≤ max) values → min < max → (1 < length values)%nat →
  is_int64 min → is_int64 max → max - min < int64_max →
  ∃ r, (if negated : bool
        then b ← newNegatedBigintValuesUsingBitmask min max values na;
             Ok (FNegatedBigintValuesUsingBitmask b)
        else b ← newBigintValuesUsingBitmask min max values na;
             Ok (FBigintValuesUsingBitmask b)) = Ok r ∧
       means r na (λ v, xorb negated (bool_decide (v ∈ values))).
Proof.
  intros Hv Hlt Hlen Hmin Hmax Hfit. unfold newNegatedBigintValuesUsingBitmask.
  destruct negated.
  - destruct (newBitmask_spec min max values (negb na)) as (b & -> & Hwf & _ & Hacc); [done..|].
    rewrite (proj2 (Z.leb_le min max)) by lia. eexists. split; [done|].
    split; simpl; [done..|]. intros v _. by rewrite Hacc.
  - destruct (newBitmask_spec min max values na) as (b & -> & Hwf & Hna & Hacc); [done..|].
    eexists. split; [done|]. split; simpl; [done..|]. intros v _. by rewrite Hacc.
Qed.

Lemma filterForBounds_means min max values na negated :
  Forall is_int64 values → Forall (λ v, min ≤ v ≤ max) values → min ∈ values → max ∈ values →
  min < max → (1 < length values)%nat → NoDup values → Z.of_nat (length values) * 5 < 2 ^ 32 →
  ∃ r, filterForBounds min max values na negated = Ok r ∧
       means r na (λ v, xorb negated (bool_decide (v ∈ values))).
Proof.
  intros Hint Hbound Hmin Hmax Hlt Hlen Hnd Hsz. unfold filterForBounds.
  pose proof Hint as Hint'. rewrite Forall_forall in Hint'.
  pose proof (Hint' _ Hmin) as Himin. pose proof (Hint' _ Hmax) as Himax.
  destruct (int64b (max - min) && (uwrap 64 (max - min + 1) =? Z.of_nat (length values))) eqn:Ec.
  - apply andb_true_iff in Ec as [Er Ec]. apply int64b_spec in Er.
    unfold uwrap in Ec. rewrite Z.mod_small in Ec by (unfold_ints; lia).
    assert (∀ v, bool_decide (v ∈ values) = (min <=? v) && (v <=? max)) as Hiff.
    { intros v. apply Bool.eq_iff_eq_true. rewrite bool_decide_eq_true. split.
      - intros Hin. rewrite Forall_forall in Hbound. specialize (Hbound v Hin). lia.
      - intros Hv. apply (contiguous_all values min max); [done | done | lia | lia]. }
    eexists. split; [done|].
    destruct negated; [eapply means_ext, negatedRange_means | eapply means_ext, range_means];
      try done; try lia; intros v _; by rewrite Hiff.
  - destruct (int64b (max - min) && ((_ <? _) || _)) eqn:Eb.
    + apply newBitmask_means; try done. apply andb_true_iff in Eb as [_ Eb].
      unfold uwrap in Eb. rewrite Z.mod_small in Eb by lia. unfold_ints. lia.
    + apply newHashTable_means; try done. rewrite Forall_forall in Hbound |- *. auto.
Qed.

Lemma createBigintValuesFilter_means values na negated :
  Forall is_int64 values → NoDup values → Z.of_nat (length values) * 5 < 2 ^ 32 →
  ∃ r, createBigintValuesFilter values na negated = Ok r ∧
       means r na (λ v, xorb negated (bool_decide (v ∈ values))).
Proof.
  intros Hint Hnd Hsz. destruct values as [|v0 [|v1 rest]].
  - simpl. eexists. split; [done|]. destruct negated;
      [apply notNullOrTrue_means | apply nullOrFalse_means]; done.
  - simpl. eexists. split; [done|]. apply Forall_cons in Hint as [Hv _].
    destruct negated; [eapply means_ext, negatedRange_means | eapply means_ext, range_means]; try done;
      intros v _; case_bool_decide as Hin; simpl; apply list_elem_of_singleton in Hin || rewrite list_elem_of_singleton in Hin; lia.
  - set (values := v0 :: v1 :: rest) in *.
    change (createBigintValuesFilter values na negated) with
      (intLoop (length values) ;;
       let '(min, max) := foldl minMaxStep (v0, v0) (v1 :: rest) in
       filterForBounds min max values na negated).
    assert (intLoop (length values) = Ok tt) as ->
      by (unfold intLoop; rewrite (proj2 (Z.leb_le _ _)); [done | unfold int32_max; lia]).
    cbn [mbind outcome_bind].
    pose proof (minMax_spec (v1 :: rest) v0 v0 ltac:(lia)) as Hmm.
    destruct (foldl minMaxStep (v0, v0) (v1 :: rest)) as [min max].
    destruct Hmm as (Ha & Hb & Hall & Hmin & Hmax).
    assert (Forall (λ v, min ≤ v ≤ max) values) as Hbound by (constructor; [lia | done]).
    apply filterForBounds_means; try done.
    + destruct Hmin as [->|]; set_solver.
    + destruct Hmax as [->|]; set_solver.
    + rewrite Forall_forall in Hbound. pose proof (Hbound v0 ltac:(set_solver)).
      pose proof (Hbound v1 ltac:(set_solver)).
      assert (v0 ≠ v1) by (apply NoDup_cons in Hnd as [? _]; set_solver). lia.
    + simpl. lia.
Qed.

(** ** Lists of ranges *)
Definition anyAccepts (l : list BigintRange) (v : Z) : bool := existsb (λ r, br_accepts r v) l.

(** [out] lists, in order and strictly apart, the values of [lo..hi] that
    satisfy [Q]. *)
Record piece (lo hi : Z) (Q : Z → bool) (out : list BigintRange) : Prop := {
  pc_ok : ranges_ok out;
  pc_within : Forall (λ r, lo ≤ lower_ r ∧ upper_ r ≤ hi) out;
  pc_accepts : ∀ v, is_int64 v → anyAccepts out v = (lo <=? v) && (v <=? hi) && Q v
}.

Lemma anyAccepts_app a b v : anyAccepts (a ++ b) v = anyAccepts a v || anyAccepts b v.
Proof. apply existsb_app. Qed.

Lemma ranges_ok_app a b :
  ranges_ok a → ranges_ok b → (∀ x y, x ∈ a → y ∈ b → upper_ x < lower_ y) →
  ranges_ok (a ++ b).
Proof.
  intros (Hwa & Hna & Hsa) (Hwb & Hnb & Hsb) H. split_and!; [by apply Forall_app..|].
  apply StronglySorted_app. auto.
Qed.

Lemma piece_ext lo hi Q Q' out :
  (∀ v, lo ≤ v ≤ hi → Q v = Q' v) → piece lo hi Q out → piece lo hi Q' out.
Proof.
  intros H [? ? Ha]. split; [done..|]. intros v Hv. rewrite Ha by done.
  destruct ((lo <=? v) && (v <=? hi)) eqn:E; [|done]. simpl. apply H. lia.
Qed.

Lemma piece_nil lo hi Q : (∀ v, lo ≤ v ≤ hi → Q v = false) → piece lo hi Q [].
Proof.
  intros H. split; [by repeat constructor | constructor |]. intros v _. simpl.
  destruct ((lo <=? v) && (v <=? hi)) eqn:E; [|done]. simpl. symmetry. apply H. lia.
Qed.

Lemma piece_one lo hi Q :
  lo ≤ hi → is_int64 lo → is_int64 hi → (∀ v, lo ≤ v ≤ hi → Q v = true) →
  piece lo hi Q [newBigintRange lo hi false].
Proof.
  intros Hle Hlo Hhi H. split.
  - split_and!; [constructor; [by apply newBigintRange_wf|done] | by repeat constructor..].
  - constructor; [simpl; lia | done].
  - intros v _. unfold anyAccepts. simpl. unfold br_accepts. simpl. rewrite orb_false_r.
    destruct ((lo <=? v) && (v <=? hi)) eqn:E; [|done]. rewrite H by lia. done.
Qed.

(** Two pieces with nothing of [Q] between them. *)
Lemma piece_app lo mid next hi Q a b :
  piece lo mid Q a → piece next hi Q b → mid < next → lo ≤ next → mid ≤ hi →
  (∀ v, mid < v < next → lo ≤ v ≤ hi → Q v = false) →
  piece lo hi Q (a ++ b).
Proof.
  intros [Hoa Hwa Ha] [Hob Hwb Hb] Hlt Hlo Hhi Hgap. rewrite Forall_forall in Hwa, Hwb. split.
  - apply ranges_ok_app; [done..|]. intros x y Hx Hy. specialize (Hwa x Hx). specialize (Hwb y Hy). lia.
  - apply Forall_app. split; apply Forall_forall; intros x Hx;
      [specialize (Hwa x Hx) | specialize (Hwb x Hx)]; lia.
  - intros v Hv. rewrite anyAccepts_app, Ha, Hb by done. specialize (Hgap v).
    destruct (Q v); [rewrite !andb_true_r | by rewrite !andb_false_r].
    destruct (Z.leb_spec v mid), (Z.leb_spec next v); lia.
Qed.

Lemma anyAccepts_range l v : ranges_ok l → anyAccepts l v = true → is_int64 v.
Proof.
  intros (Hwf & _) (r & Hin%list_elem_of_In & Hr)%existsb_exists.
  rewrite Forall_forall in Hwf. destruct (Hwf r Hin). unfold br_accepts in Hr. unfold_ints. lia.
Qed.

(** Cutting every range of a list into pieces keeps the list in order. *)
Lemma pieces_concat l outs Q :
  ranges_ok l → Forall2 (λ r out, piece (lower_ r) (upper_ r) Q out) l outs →
  ranges_ok (concat outs) ∧
  Forall (λ p, Exists (λ r, lower_ r ≤ lower_ p ∧ upper_ p ≤ upper_ r) l) (concat outs) ∧
  ∀ v, is_int64 v → anyAccepts (concat outs) v = anyAccepts l v && Q v.
Proof.
  intros Hok H. induction H as [|r out l outs [Ho Hw Ha] HF IH]; simpl; [by repeat constructor|].
  destruct Hok as ([Hwr Hwl]%Forall_cons & [Hnr Hnl]%Forall_cons & [Hs Hr]%StronglySorted_inv).
  destruct IH as (IHo & IHw & IHa); [done|]. rewrite Forall_forall in Hw, IHw, Hr.
  split_and!.
  - apply ranges_ok_app; [done..|]. intros x y Hx Hy. specialize (Hw x Hx).
    specialize (IHw y Hy). apply Exists_exists in IHw as (z & Hz & ?). specialize (Hr z Hz). lia.
  - apply Forall_app. split; apply Forall_forall; intros x Hx;
      [apply Exists_cons_hd; auto | apply Exists_cons_tl; auto].
  - intros v Hv. rewrite anyAccepts_app, Ha, IHa by done. unfold anyAccepts. simpl.
    unfold br_accepts at 3. by rewrite andb_orb_distrib_l.
Qed.

Lemma rangesOrdered_complete l :
  StronglySorted (λ a b, upper_ a < lower_ b) l → rangesOrdered l = true.
Proof.
  induction 1 as [|a [|b l] Hs IH Ha]; [done..|]. apply Forall_cons in Ha as [Hab _].
  change (rangesOrdered (a :: b :: l)) with ((lower_ b >=? upper_ a) && rangesOrdered (b :: l)).
  rewrite IH. lia.
Qed.

Lemma newMultiRange_means l na :
  (1 < length l)%nat → ranges_ok l →
  newBigintMultiRange l na = Ok (mkMultiRange na l (map lower_ l)) ∧
  means (FBigintMultiRange (mkMultiRange na l (map lower_ l))) na (anyAccepts l).
Proof.
  intros Hlen Hok. pose proof Hok as (Hwf & _ & Hs%rangesOrdered_complete). split.
  - unfold newBigintMultiRange. rewrite Hs, (proj2 (Nat.ltb_lt _ _) Hlen).
    by destruct l; [simpl in Hlen; lia|].
  - split; simpl; [by split | done..].
Qed.

(** The list of ranges a merged filter stands for is kept unchanged when it
    is taken apart again. *)
Lemma combineBigintRanges_means l na :
  ranges_ok l → ∃ r, combineBigintRanges l na = Ok r ∧ means r na (anyAccepts l) ∧
    (na = false → keepRanges r = Ok l).
Proof.
  intros Hok. destruct l as [|r [|r' l]]; cbn [combineBigintRanges].
  - eexists. split; [done|]. split; [by apply nullOrFalse_means|]. by intros ->.
  - destruct Hok as ([[Hnew Hle ? ?] _]%Forall_cons & [Hn _]%Forall_cons & _).
    eexists. split; [done|]. split.
    + eapply means_ext, range_means; [|done..]. intros v _. unfold anyAccepts. simpl.
      by rewrite orb_false_r.
    + intros ->. simpl. rewrite Hnew, Hn. done.
  - destruct (newMultiRange_means (r :: r' :: l) na) as [-> Hm]; [simpl; lia | done |].
    eexists. split; [done|]. split; [done|]. intros _. simpl. by rewrite map_id.
Qed.

(** What the loops over a list of ranges have in common. *)
Lemma pieces_means f Q l na :
  ranges_ok l →
  Forall (λ r, ∃ out, f r = Ok out ∧ piece (lower_ r) (upper_ r) Q out) l →
  ∃ r, (outs ← mapM_o f l; combineBigintRanges (concat outs) na) = Ok r ∧
       means r na (λ v, anyAccepts l v && Q v) ∧
       (na = false → ∃ out, keepRanges r = Ok out ∧ ranges_ok out ∧
          ∀ v, is_int64 v → anyAccepts out v = anyAccepts l v && Q v).
Proof.
  intros Hok Hf.
  assert (∃ outs, mapM_o f l = Ok outs ∧
    Forall2 (λ r out, piece (lower_ r) (upper_ r) Q out) l outs) as (outs & -> & Hp).
  { clear Hok. induction Hf as [|r l (out & Ho & Hp) _ (outs & IH & IHp)]; simpl.
    - exists []. auto.
    - exists (out :: outs). rewrite Ho. simpl. rewrite IH. auto. }
  cbn [mbind outcome_bind].
  destruct (pieces_concat l outs Q Hok Hp) as (Hok' & _ & Hacc).
  destruct (combineBigintRanges_means (concat outs) na Hok') as (r & -> & Hm & Hkeep).
  eexists. split; [done|]. split; [by eapply means_ext|]. intros Hna. eauto.
Qed.

Lemma piece_of_accepts lo hi Q out :
  ranges_ok out → (∀ v, is_int64 v → anyAccepts out v = (lo <=? v) && (v <=? hi) && Q v) →
  piece lo hi Q out.
Proof.
  intros Hok Ha. split; [done | | done]. apply Forall_forall. intros r Hin.
  pose proof Hok as (Hwf & _). rewrite Forall_forall in Hwf. destruct (Hwf r Hin) as [_ Hle Hlo Hhi].
  assert (∀ v, lower_ r ≤ v ≤ upper_ r → anyAccepts out v = true) as Hr.
  { intros v Hv. apply existsb_exists. exists r. split; [by apply list_elem_of_In|].
    unfold br_accepts. lia. }
  pose proof (Hr (lower_ r)) as H1. pose proof (Hr (upper_ r)) as H2.
  rewrite Ha in H1, H2 by done. lia.
Qed.

(** ** Subtracting listed values from a range *)
Definition notIn (l : list Z) (v : Z) : bool := negb (bool_decide (v ∈ l)).

Lemma notIn_cons x l v : notIn (x :: l) v = negb (v =? x) && notIn l v.
Proof.
  unfold notIn. destruct (Z.eqb_spec v x) as [->|Hne]; simpl.
  - by rewrite bool_decide_true by set_solver.
  - f_equal. apply bool_decide_ext. set_solver.
Qed.

Lemma notIn_below l v : Forall (λ x, v < x) l → notIn l v = true.
Proof.
  intros H. unfold notIn. rewrite bool_decide_false; [done|]. intros Hin.
  rewrite Forall_forall in H. specialize (H v Hin). lia.
Qed.

Lemma splitLoop_spec lower upper start it :
  lower ≤ start → is_int64 upper → is_int64 start → StronglySorted Z.lt it →
  Forall (λ x, start ≤ x ∧ int64_min < x < int64_max) it →
  ∃ out final, splitLoop lower upper start it = Ok (out, final) ∧ lower ≤ final ∧
    piece start upper (notIn it)
      (out ++ if (final <=? upper) then [newBigintRange final upper false] else []).
Proof.
  intros Hlo Hup Hstart Hs. revert start Hlo Hstart.
  induction Hs as [|x it Hs IH Hx]; intros start Hlo Hstart Hf; simpl.
  { eexists _, _. split; [done|]. split; [done|]. simpl. destruct (Z.leb_spec start upper).
    - by apply piece_one.
    - apply piece_nil. lia. }
  apply Forall_cons in Hf as [[Hsx Hxi] Hf]. unfold sub64, add64.
  rewrite (checked64_Ok (x - 1)) by (unfold_ints; lia). cbn [mbind outcome_bind].
  destruct ((start >=? lower) && (x - 1 <? upper)) eqn:Eg.
  - rewrite checked64_Ok by (unfold_ints; lia). cbn [mbind outcome_bind].
    destruct (IH (x + 1)) as (out & final & -> & Hfin & Hp); [lia | unfold_ints; lia | |].
    { rewrite Forall_forall in Hf, Hx |- *. intros y Hy. specialize (Hf y Hy). specialize (Hx y Hy). lia. }
    cbn [mbind outcome_bind]. eexists _, _. split; [reflexivity|]. split; [lia|].
    rewrite <- app_assoc. apply (piece_app _ (x - 1) (x + 1)); try lia.
    + destruct (Z.leb_spec start (x - 1)).
      * apply piece_one; [lia | done | unfold_ints; lia |]. intros v Hv. apply notIn_below.
        constructor; [lia|]. eapply Forall_impl; [exact Hx | simpl; lia].
      * apply piece_nil. lia.
    + eapply piece_ext, Hp. intros v Hv. rewrite notIn_cons.
      by replace (v =? x) with false by lia.
    + intros v Hv _. assert (v = x) as -> by lia. rewrite notIn_cons. by rewrite Z.eqb_refl.
  - eexists _, _. split; [done|]. split; [done|]. simpl.
    assert (∀ v, start ≤ v ≤ upper → notIn (x :: it) v = true) as Hall.
    { intros v Hv. apply notIn_below. constructor; [lia|].
      eapply Forall_impl; [exact Hx | simpl; lia]. }
    destruct (Z.leb_spec start upper); [by apply piece_one | apply piece_nil; lia].
Qed.

(** The rejected values of the negated lists, as the merges need them. *)
Record rejects_ok (rejects : list Z) : Prop := {
  rj_sorted : StronglySorted Z.lt rejects;
  rj_inner : Forall (λ x, int64_min < x < int64_max) rejects
}.

Lemma StronglySorted_lt_le l : StronglySorted Z.lt l → StronglySorted Z.le l.
Proof. induction 1; constructor; [done|]. eapply Forall_impl; [done|]. simpl. lia. Qed.

Lemma splitRange_piece rejects r :
  rejects_ok rejects → br_wf r →
  ∃ out, splitRange rejects r = Ok out ∧ piece (lower_ r) (upper_ r) (notIn rejects) out.
Proof.
  intros [Hs Hin] [_ Hle Hlo Hhi]. unfold splitRange.
  destruct (lower_bound_spec rejects (lower_ r)) as (below & E & Hb & Ha); [by apply StronglySorted_lt_le|].
  pose proof Hs as Hs'. rewrite E in Hs', Hin.
  apply StronglySorted_app in Hs' as (_ & _ & Hs'). apply Forall_app in Hin as [_ Hin].
  destruct (splitLoop_spec (lower_ r) (upper_ r) (lower_ r) (lower_bound rejects (lower_ r)))
    as (out & final & -> & Hfin & Hp); [lia | done | done | done | by apply Forall_and |].
  cbn [mbind outcome_bind]. eexists. split; [done|].
  replace ((final >=? lower_ r)) with true by lia. rewrite Z.leb_refl, !andb_true_r.
  eapply piece_ext, Hp. intros v Hv. unfold notIn. f_equal. apply bool_decide_ext.
  rewrite E at 2. rewrite elem_of_app. split; [auto|]. intros [Hv'|]; [|done].
  rewrite Forall_forall in Hb. specialize (Hb v Hv'). lia.
Qed.

Lemma combineRangesAndNegatedValues_means l rejects na :
  ranges_ok l → rejects_ok rejects →
  ∃ r, combineRangesAndNegatedValues l rejects na = Ok r ∧
       means r na (λ v, anyAccepts l v && notIn rejects v).
Proof.
  intros Hok Hr. pose proof Hok as (Hwf & _).
  destruct (pieces_means (splitRange rejects) (notIn rejects) l na Hok) as (r & Hm & ? & _).
  - eapply Forall_impl; [exact Hwf|]. intros r Hwr. by apply splitRange_piece.
  - eauto.
Qed.

(** ** Subtracting a range from ranges *)
Lemma cutRange_piece lo hi r :
  br_wf r → lo ≤ hi → is_int64 lo → is_int64 hi →
  ∃ out, cutRange lo hi r = Ok out ∧
    piece (lower_ r) (upper_ r) (λ v, negb ((lo <=? v) && (v <=? hi))) out.
Proof.
  intros [_ Hle Hlr Hur] Hlh Hlo Hhi. unfold cutRange, sub64, add64.
  destruct ((hi <? lower_ r) || (upper_ r <? lo)) eqn:Eo.
  { eexists. split; [done|]. apply piece_one; [done.. | lia]. }
  assert (∃ left, (if lower_ r <? lo then hi ← checked64 (lo - 1); Ok [newBigintRange (lower_ r) hi false]
                   else Ok []) = Ok left ∧
            piece (lower_ r) (lo - 1) (λ v, negb ((lo <=? v) && (v <=? hi))) left)
    as (left & -> & Hl).
  { destruct (Z.ltb_spec (lower_ r) lo).
    - rewrite checked64_Ok by (unfold_ints; lia). eexists. split; [done|].
      apply piece_one; [lia | done | unfold_ints; lia | lia].
    - eexists. split; [done|]. apply piece_nil. lia. }
  assert (∃ right, (if hi <? upper_ r then lo ← checked64 (hi + 1); Ok [newBigintRange lo (upper_ r) false]
                    else Ok []) = Ok right ∧
            piece (hi + 1) (upper_ r) (λ v, negb ((lo <=? v) && (v <=? hi))) right)
    as (right & -> & Hr).
  { destruct (Z.ltb_spec hi (upper_ r)).
    - rewrite checked64_Ok by (unfold_ints; lia). eexists. split; [done|].
      apply piece_one; [lia | unfold_ints; lia | done | lia].
    - eexists. split; [done|]. apply piece_nil. lia. }
  cbn [mbind outcome_bind]. eexists. split; [done|].
  apply (piece_app _ (lo - 1) (hi + 1)); try done; lia.
Qed.

Lemma combineNegatedRangeOnIntRanges_means lo hi l na :
  ranges_ok l → lo ≤ hi → is_int64 lo → is_int64 hi →
  ∃ r, combineNegatedRangeOnIntRanges lo hi l na = Ok r ∧
       means r na (λ v, anyAccepts l v && negb ((lo <=? v) && (v <=? hi))).
Proof.
  intros Hok Hlh Hlo Hhi. pose proof Hok as (Hwf & _).
  destruct (pieces_means (cutRange lo hi) (λ v, negb ((lo <=? v) && (v <=? hi))) l na Hok)
    as (r & Hm & ? & _).
  - eapply Forall_impl; [exact Hwf|]. intros r Hwr. by apply cutRange_piece.
  - eauto.
Qed.

(** ** Complement of a list of values *)
Lemma gapsFrom_piece back rest :
  is_int64 back → Forall is_int64 rest → StronglySorted Z.lt (back :: rest) →
  ∃ out, gapsFrom back rest = Ok out ∧ piece (back + 1) int64_max (notIn rest) out.
Proof.
  revert back; induction rest as [|front rest IH]; intros back Hb Hr Hs; simpl; unfold add64, sub64.
  - destruct (Z.ltb_spec back int64_max).
    + rewrite checked64_Ok by (unfold_ints; lia). eexists. split; [done|].
      apply piece_one; [unfold_ints; lia.. | done].
    + eexists. split; [done|]. apply piece_nil. lia.
  - apply StronglySorted_inv in Hs as [Hs [Hbf Hbr]%Forall_cons].
    apply Forall_cons in Hr as [Hf Hr].
    pose proof Hs as [_ Hfr]%StronglySorted_inv.
    rewrite (checked64_Ok (back + 1)) by (unfold_ints; lia). cbn [mbind outcome_bind].
    rewrite checked64_Ok by (unfold_ints; lia). cbn [mbind outcome_bind].
    destruct (IH front Hf Hr Hs) as (out & -> & Hp). cbn [mbind outcome_bind].
    eexists. split; [done|].
    apply (piece_app _ (front - 1) (front + 1)); try (unfold_ints; lia).
    + destruct (Z.leb_spec (back + 1) (front - 1)).
      * apply piece_one; [lia | unfold_ints; lia.. |]. intros v Hv. apply notIn_below.
        constructor; [lia|]. eapply Forall_impl; [exact Hfr | simpl; lia].
      * apply piece_nil. lia.
    + eapply piece_ext, Hp. intros v Hv. rewrite notIn_cons.
      by replace (v =? front) with false by lia.
    + intros v Hv _. assert (v = front) as -> by lia. rewrite notIn_cons. by rewrite Z.eqb_refl.
Qed.

Lemma negatedValuesToRanges_piece values :
  values ≠ [] → Forall is_int64 values → StronglySorted Z.lt values →
  ∃ out, negatedValuesToRanges values = Ok out ∧ piece int64_min int64_max (notIn values) out.
Proof.
  intros Hne Hv Hs. destruct values as [|back rest]; [done|]. simpl.
  apply Forall_cons in Hv as [Hb Hv]. pose proof Hs as [_ Hbr]%StronglySorted_inv.
  destruct (gapsFrom_piece back rest Hb Hv Hs) as (out & -> & Hp).
  assert (∃ first, (if back >? int64_min then hi ← sub64 back 1; Ok [newBigintRange int64_min hi false]
                    else Ok []) = Ok first ∧
            piece int64_min (back - 1) (notIn (back :: rest)) first) as (first & -> & Hf).
  { unfold sub64. destruct (Z.gtb_spec back int64_min).
    - rewrite checked64_Ok by (unfold_ints; lia). eexists. split; [done|].
      apply piece_one; [unfold_ints; lia.. |]. intros v Hv'. apply notIn_below.
      constructor; [lia|]. eapply Forall_impl; [exact Hbr | simpl; lia].
    - eexists. split; [done|]. apply piece_nil. lia. }
  cbn [mbind outcome_bind]. eexists. split; [done|].
  apply (piece_app _ (back - 1) (back + 1)); try (unfold_ints; lia); [done | |].
  - eapply piece_ext, Hp. intros v Hv'. rewrite notIn_cons.
    by replace (v =? back) with false by lia.
  - intros v Hv' _. assert (v = back) as -> by lia. rewrite notIn_cons. by rewrite Z.eqb_refl.
Qed.

(** ** Union of sorted lists *)
Lemma mergeLists_spec first second :
  StronglySorted Z.lt first → StronglySorted Z.lt second →
  StronglySorted Z.lt (mergeLists first second) ∧
  (∀ v, v ∈ mergeLists first second ↔ v ∈ first ∨ v ∈ second) ∧
  (length (mergeLists first second) ≤ length first + length second)%nat.
Proof.
  revert second; induction first as [|x first IHf]; intros second Hf Hs.
  { destruct second; simpl; (split; [done|]; split; [set_solver | lia]). }
  induction second as [|y second IHs]; [simpl; split; [done|]; split; [set_solver | lia]|].
  pose proof Hf as [Hf' Hx]%StronglySorted_inv. pose proof Hs as [Hs' Hy]%StronglySorted_inv.
  cbn [mergeLists]. destruct (Z.eqb_spec (Z.min x y) x) as [Ex|Ex];
    [destruct (Z.eqb_spec (Z.min x y) y) as [Ey|Ey]|].
  - destruct (IHf second Hf' Hs') as (H1 & H2 & H3). assert (x = y) as <- by lia.
    rewrite Ex. split_and!; [|set_solver | simpl; lia].
    constructor; [done|]. rewrite Forall_forall in Hx, Hy |- *.
    intros v [?|?]%H2; auto.
  - destruct (IHf (y :: second) Hf' Hs) as (H1 & H2 & H3).
    rewrite Ex. split_and!; [|set_solver | simpl in *; lia].
    constructor; [done|]. rewrite Forall_forall in Hx, Hy |- *.
    intros v [?|[->|?]%elem_of_cons]%H2; [auto | lia |]. specialize (Hy v ltac:(done)). lia.
  - change ((fix aux (second : list Z) := _) second) with (mergeLists (x :: first) second).
    destruct (IHs Hs') as (H1 & H2 & H3). replace (Z.min x y) with y by lia.
    split_and!; [|set_solver | simpl in *; lia].
    constructor; [done|]. rewrite Forall_forall in Hx, Hy |- *.
    intros v [[->|?]%elem_of_cons|?]%H2; [lia | | auto]. specialize (Hx v ltac:(done)). lia.
Qed.

Lemma StronglySorted_lt_NoDup l : StronglySorted Z.lt l → NoDup l.
Proof.
  induction 1 as [|x l Hs IH Hx]; constructor; [|done]. intros Hin.
  rewrite Forall_forall in Hx. specialize (Hx x Hin). lia.
Qed.

Lemma StronglySorted_le_lt l : StronglySorted Z.le l → NoDup l → StronglySorted Z.lt l.
Proof.
  induction 1 as [|x l Hs IH Hx]; [constructor|]. intros [Hnin Hnd]%NoDup_cons.
  constructor; [auto|]. rewrite Forall_forall in Hx |- *. intros y Hy. specialize (Hx y Hy).
  assert (x ≠ y) by (intros ->; done). lia.
Qed.

Lemma combineNegatedBigintLists_means first second na :
  StronglySorted Z.lt first → StronglySorted Z.lt second →
  Forall is_int64 first → Forall is_int64 second →
  Z.of_nat (length first + length second) * 5 < 2 ^ 32 →
  ∃ r, combineNegatedBigintLists first second na = Ok r ∧
       means r na (λ v, notIn first v && notIn second v).
Proof.
  intros Hf Hs Hif His Hlen. destruct (mergeLists_spec first second Hf Hs) as (H1 & H2 & H3).
  destruct (createBigintValuesFilter_means (mergeLists first second) na true) as (r & Hr & Hm).
  - rewrite Forall_forall in Hif, His |- *. intros v [?|?]%H2; auto.
  - by apply StronglySorted_lt_NoDup.
  - lia.
  - exists r. split; [done|]. eapply means_ext, Hm. intros v _. unfold notIn.
    rewrite <- negb_orb, xorb_true_l. f_equal. rewrite <- bool_decide_or.
    apply bool_decide_ext, H2.
Qed.

(** ** Values kept from a list *)
Lemma filterM_o_Ok p b l :
  Forall (λ x, p x = Ok (b x)) l → filterM_o p l = Ok (filter (λ x, b x = true) l).
Proof.
  induction 1 as [|x l Hx _ IH]; [done|]. simpl. rewrite Hx. simpl. rewrite IH. simpl.
  rewrite filter_cons. destruct (b x); [by rewrite decide_True | by rewrite decide_False].
Qed.

Lemma kept_means values b kept na :
  NoDup values → Forall is_int64 values → Z.of_nat (length values) * 5 < 2 ^ 32 →
  kept ≡ₚ filter (λ v, b v = true) values →
  ∃ r, createBigintValues kept na = Ok r ∧
       means r na (λ v, bool_decide (v ∈ values) && b v).
Proof.
  intros Hnd Hi Hlen Hp. unfold createBigintValues.
  destruct (createBigintValuesFilter_means kept na false) as (r & Hr & Hm).
  - rewrite Hp. rewrite Forall_forall in Hi |- *. intros v [_ ?]%list_elem_of_filter. auto.
  - rewrite Hp. by apply NoDup_filter.
  - rewrite Hp. pose proof (length_filter (λ v, b v = true) values). lia.
  - exists r. split; [done|]. eapply means_ext, Hm. intros v _. simpl.
    apply Bool.eq_iff_eq_true. rewrite bool_decide_eq_true, Hp, list_elem_of_filter, andb_true_iff,
      bool_decide_eq_true. naive_solver.
Qed.

Lemma filter_orb (b c : Z → bool) l :
  Forall (λ v, b v && c v = false) l →
  filter (λ v, b v || c v = true) l ≡ₚ filter (λ v, b v = true) l ++ filter (λ v, c v = true) l.
Proof.
  induction 1 as [|v l Hv _ IH]; [done|]. rewrite !filter_cons.
  destruct (b v), (c v); try done; simpl;
    repeat (rewrite decide_True by done || rewrite decide_False by done); rewrite IH; [done|].
  by rewrite Permutation_middle.
Qed.

Lemma kept_ranges l values :
  ranges_ok l →
  concat (map (λ r, filter (λ v, br_accepts r v = true) values) l) ≡ₚ
  filter (λ v, anyAccepts l v = true) values.
Proof.
  intros (Hwf & _ & Hs). induction Hs as [|r l Hs IH Hr]; simpl.
  - rewrite filter_none; [done|]. by apply Forall_true.
  - apply Forall_cons in Hwf as [[_ Hle _ _] Hwf]. rewrite IH by done.
    change (anyAccepts (r :: l)) with (λ v, br_accepts r v || anyAccepts l v).
    rewrite <- filter_orb; [done|]. apply Forall_true. intros v.
    destruct (br_accepts r v) eqn:Er; [|done]. simpl. apply not_true_is_false.
    intros (r' & Hin%list_elem_of_In & Hr')%existsb_exists.
    rewrite Forall_forall in Hr. specialize (Hr r' Hin). unfold br_accepts in Er, Hr'. lia.
Qed.
