(* ===== verification/FilterMergeCorrect.v ===== *)
(** * [mergeWith] is conjunction

    For the integral filters the merged filter is well formed, accepts exactly
    the values both arguments accept and allows null exactly when both do; the
    dispatch between the classes terminates.  The last part shows what goes
    wrong outside the hypotheses. *)
From S2P Require Import Prelude HashTable Filter FilterMerge FilterLists.
Local Open Scope Z_scope.

(** ** When a merge is defined *)

(** The last cell of the table proper is free, so that the padding repeats no
    value. *)
Definition clean (h : BigintValuesUsingHashTable) : Prop :=
  hashTable_ h !!! Z.to_nat (sizeMask_ h) = kEmptyMarker.

(** What the loops over a multi-range, a hash table and a bitmask need of one
    filter. *)
Definition ready (f : Filter) : Prop :=
  match f with
  | FBigintMultiRange m => ranges_ok (ranges_ m)
  | FBigintValuesUsingHashTable h => clean h
  | FBigintValuesUsingBitmask b => bm_max_ b < int64_max
  | FNegatedBigintValuesUsingBitmask b => Z.of_nat (length (bitmask_ (nbm_nonNegated_ b))) ≤ int32_max
  | _ => True
  end.

Definition innerValues (l : list Z) : Prop := Forall (λ x, int64_min < x < int64_max) l.

(** The pairs the code refuses, or on which its arithmetic overflows, or which
    count a value twice. *)
Definition compatible1 (f g : Filter) : Prop :=
  match f, g with
  | BoolValue _ _, (BoolValue _ _ | AlwaysTrue | AlwaysFalse | IsNull | IsNotNull) => True
  | BoolValue _ _, _ => False
  | FBigintRange r, FNegatedBigintValuesUsingHashTable h =>
      innerValues (nht_values h) ∧ range_fits g (lower_ r) (upper_ r)
  | FBigintRange r, FNegatedBigintValuesUsingBitmask b => innerValues (nbm_members b)
  | FBigintMultiRange _, FNegatedBigintValuesUsingHashTable h => innerValues (nht_values h)
  | FBigintMultiRange _, FNegatedBigintValuesUsingBitmask b => innerValues (nbm_members b)
  | FBigintValuesUsingHashTable h, FBigintMultiRange m =>
      containsEmptyMarker_ h && anyAccepts (ranges_ m) kEmptyMarker = false
  | FNegatedBigintRange r, FNegatedBigintRange _ => nbr_upper r < int64_max
  | _, _ => True
  end.

(** The values an IN-list or NOT-IN-list spells out. *)
Definition listed (f : Filter) : list Z :=
  match f with
  | FBigintValuesUsingHashTable h => values_ h
  | FBigintValuesUsingBitmask b => bm_members b
  | FNegatedBigintValuesUsingHashTable h => nht_values h
  | FNegatedBigintValuesUsingBitmask b => nbm_members b
  | _ => []
  end.

Record mergeable (f g : Filter) : Prop := {
  mg_wf1 : wf f;
  mg_wf2 : wf g;
  mg_ready1 : ready f;
  mg_ready2 : ready g;
  mg_compat1 : compatible1 f g;
  mg_compat2 : compatible1 g f;
  mg_size : Z.of_nat (length (listed f) + length (listed g) + 1) * 5 < 2 ^ 32
}.

Lemma mergeable_sym f g : mergeable f g → mergeable g f.
Proof. intros [? ? ? ? ? ? ?]. split; try done. lia. Qed.

(** ** Dispatch depth *)
Definition rank (f g : Filter) : nat :=
  match f, g with
  | (AlwaysFalse | AlwaysTrue | IsNull), _ => 1
  | _, (AlwaysFalse | AlwaysTrue | IsNull) => 2
  | _, IsNotNull => 1
  | IsNotNull, _ => 2
  | FBigintMultiRange _, (FBigintRange _ | FBigintMultiRange _) => 3
  | FNegatedBigintRange a, FNegatedBigintRange b => if nbr_lower a >? nbr_lower b then 2 else 1
  | FBigintRange _, (FNegatedBigintRange _ | FBigintValuesUsingBitmask _
                     | FBigintValuesUsingHashTable _ | FBigintMultiRange _) => 2
  | FNegatedBigintRange _, (FBigintValuesUsingBitmask _ | FBigintValuesUsingHashTable _) => 2
  | FBigintValuesUsingHashTable _, FBigintValuesUsingBitmask _ => 2
  | FNegatedBigintValuesUsingHashTable _, FNegatedBigintValuesUsingHashTable _ => 1
  | FNegatedBigintValuesUsingHashTable _, _ => 2
  | FNegatedBigintValuesUsingBitmask _, (FNegatedBigintValuesUsingHashTable _
                                         | FNegatedBigintValuesUsingBitmask _) => 1
  | FNegatedBigintValuesUsingBitmask _, _ => 2
  | FBigintMultiRange _, (FNegatedBigintRange _ | FBigintValuesUsingBitmask _
                          | FBigintValuesUsingHashTable _) => 2
  | _, _ => 1
  end%nat.

Lemma rank_le_3 f g : (1 ≤ rank f g ≤ 3)%nat.
Proof. destruct f, g; simpl; try lia. destruct (_ >? _); lia. Qed.

(** A step of the dispatch depends on the recursive calls of lower rank
    only. *)
Lemma mergeStep_ext rec rec' f g :
  (∀ f' g', (rank f' g' < rank f g)%nat → rec f' g' = rec' f' g') →
  mergeStep rec f g = mergeStep rec' f g.
Proof.
  intros H.
  destruct f as [| | | |? ?|a|a|a|a|a|a|a], g as [| | | |? ?|b|b|b|b|b|b|b]; try reflexivity;
    try (apply H; simpl; lia).
  - simpl. erewrite mapM_o_ext; [reflexivity|]. intros r. simpl. rewrite H by (simpl; lia). done.
  - simpl in *. destruct (nbr_lower a >? nbr_lower b) eqn:E; [|done]. apply H. simpl.
    destruct (Z.gtb_spec (nbr_lower b) (nbr_lower a)); lia.
  - simpl. erewrite mapM_o_ext; [reflexivity|]. intros r. simpl. rewrite H by (simpl; lia). done.
Qed.

Lemma mergeWithFuel_stable f g n m :
  (rank f g ≤ n)%nat → (rank f g ≤ m)%nat → mergeWithFuel n f g = mergeWithFuel m f g.
Proof.
  revert f g m; induction n as [|n IH]; intros f g m Hn Hm.
  { pose proof (rank_le_3 f g). lia. }
  destruct m as [|m]; [pose proof (rank_le_3 f g); lia|]. simpl.
  apply mergeStep_ext. intros f' g' Hr. apply IH; lia.
Qed.

(** ** The methods, one by one *)
Definition isRanges (f : Filter) : bool :=
  match f with FBigintRange _ | FBigintMultiRange _ => true | _ => false end.

(** [r] is the conjunction of [f] and [g]; when both are ranges, [r] can be
    taken apart into ranges again, into at most one if both are plain. *)
Definition conjunction (f g r : Filter) : Prop :=
  means r (testNull f && testNull g) (λ v, accepts f v && accepts g v) ∧
  (isRanges f = true → isRanges g = true → testNull f && testNull g = false →
   ∃ out, keepRanges r = Ok out ∧ ranges_ok out ∧
     ∀ v, is_int64 v → anyAccepts out v = accepts f v && accepts g v) ∧
  (∀ a b, f = FBigintRange a → g = FBigintRange b → keepRange r = keepRanges r).

Definition merges (rec : Filter → Filter → outcome Filter) (f g : Filter) : Prop :=
  ∃ r, rec f g = Ok r ∧ conjunction f g r.

Lemma merges_sym rec f g :
  merges rec g f → ∃ r, rec g f = Ok r ∧ conjunction f g r.
Proof.
  intros (r & Hr & Hm & Hk & Hone). exists r. split; [done|]. split_and!; [| |by eauto].
  - rewrite andb_comm. eapply means_ext, Hm. intros v _. apply andb_comm.
  - rewrite andb_comm. intros H1 H2 H3. destruct (Hk H2 H1 H3) as (out & ? & ? & Ho).
    exists out. split_and!; [done..|]. intros v Hv. rewrite Ho by done. apply andb_comm.
Qed.

(** When one of the two is not a range, only the meaning is to be shown. *)
Lemma merges_intro (m : outcome Filter) f g :
  isRanges f && isRanges g = false →
  (∃ r, m = Ok r ∧ means r (testNull f && testNull g) (λ v, accepts f v && accepts g v)) →
  ∃ r, m = Ok r ∧ conjunction f g r.
Proof.
  intros Hn (r & Hr & Hm). exists r. split; [done|]. split_and!; [done | |].
  - intros H1 H2. by rewrite H1, H2 in Hn.
  - by intros ? ? -> ->.
Qed.

Lemma hashTable_values h : ht_inv h → clean h →
  filter (.≠ kEmptyMarker) (hashTable_ h) ≡ₚ filter (.≠ kEmptyMarker) (values_ h).
Proof.
  intros [_ _ _ _ (k & t & Hk & Hmask & _ & [_ Hp _] & Hlen & E)] Hc.
  assert (0 < 2 ^ k) by (apply Z.pow_pos_nonneg; lia).
  unfold clean in Hc. rewrite Hmask, E, lookup_total_app_l in Hc by lia.
  unfold contents in Hp. rewrite take_ge in Hp by lia.
  rewrite E, filter_app, Hp, (filter_none _ (replicate _ _)); [by rewrite app_nil_r|].
  apply Forall_replicate. auto.
Qed.

Lemma values_marker l : NoDup l →
  l ≡ₚ (if bool_decide (kEmptyMarker ∈ l) then [kEmptyMarker] else []) ++ filter (.≠ kEmptyMarker) l.
Proof.
  intros Hnd. apply NoDup_Permutation; [done | |].
  - apply NoDup_app. split_and!; [case_bool_decide; [apply NoDup_singleton | constructor] | |by apply NoDup_filter].
    intros x Hx. rewrite list_elem_of_filter. case_bool_decide; set_solver.
  - intros x. rewrite elem_of_app, list_elem_of_filter.
    destruct (decide (x = kEmptyMarker)) as [->|]; case_bool_decide; set_solver.
Qed.

Lemma ht_mergeRange_means h min max g :
  ht_inv h → NoDup (values_ h) → clean h → Z.of_nat (length (values_ h)) * 5 < 2 ^ 32 → wf g →
  (∀ v, v ∈ values_ h → accepts g v = true → min ≤ v ≤ max) → is_int64 min →
  ∃ r, ht_mergeRange h min max g = Ok r ∧
    means r (ht_nullAllowed_ h && testNull g) (λ v, bool_decide (v ∈ values_ h) && accepts g v).
Proof.
  intros Hinv Hnd Hc Hlen Hg Hcut Hmin. unfold ht_mergeRange.
  assert (∀ v, v < min ∨ max < v → bool_decide (v ∈ values_ h) && accepts g v = false) as Hout.
  { intros v Hv. apply not_true_is_false. intros [Hin%bool_decide_eq_true Hg']%andb_true_iff.
    specialize (Hcut v Hin Hg'). lia. }
  destruct (Z.ltb_spec max min); [|destruct (Z.eqb_spec max min) as [->|]].
  - eexists. split; [done|]. apply nullOrFalse_means. intros v _. apply Hout. lia.
  - rewrite ht_testInt64_spec, testInt64_spec by done.
    assert ((if bool_decide (min ∈ values_ h) then Ok (accepts g min) else Ok false) =
            Ok (bool_decide (min ∈ values_ h) && accepts g min)) as -> by (by case_bool_decide).
    cbn [mbind outcome_bind]. eexists. split; [done|].
    destruct (bool_decide (min ∈ values_ h) && accepts g min) eqn:Em.
    + eapply means_ext, range_means; [|done..]. intros v _.
      destruct (decide (v = min)) as [->|]; [rewrite Em; lia|]. rewrite Hout by lia. lia.
    + apply nullOrFalse_means. intros v _. destruct (decide (v = min)) as [->|]; [done|]. apply Hout. lia.
  - rewrite testInt64_spec, (hi_marker h Hinv) by done.
    assert ((if bool_decide (kEmptyMarker ∈ values_ h) then Ok (accepts g kEmptyMarker) else Ok false) =
            Ok (bool_decide (kEmptyMarker ∈ values_ h) && accepts g kEmptyMarker)) as ->
      by (by case_bool_decide).
    cbn [mbind outcome_bind].
    rewrite (filterM_o_Ok _ (λ v, negb (v =? kEmptyMarker) && accepts g v)).
    2: { apply Forall_true. intros v. destruct (_ =? _); [done|]. by apply testInt64_spec. }
    cbn [mbind outcome_bind]. apply kept_means; [done | | done |].
    { eapply Forall_impl; [apply (hi_values h Hinv) | naive_solver]. }
    transitivity (filter (λ v, accepts g v = true)
      ((if bool_decide (kEmptyMarker ∈ values_ h) then [kEmptyMarker] else []) ++
       filter (.≠ kEmptyMarker) (values_ h))); [|by rewrite <- values_marker].
    rewrite filter_app, <- hashTable_values by done. f_equiv.
    + case_bool_decide; simpl; [|done]. rewrite filter_cons.
      by destruct (accepts g kEmptyMarker).
    + rewrite list_filter_filter. apply reflexive_eq, list_filter_iff. intros v.
      destruct (Z.eqb_spec v kEmptyMarker); simpl; naive_solver.
Qed.

Lemma ht_multi_means rec h m :
  ht_inv h → NoDup (values_ h) → Z.of_nat (length (values_ h)) * 5 < 2 ^ 32 → mr_wf m →
  ranges_ok (ranges_ m) → containsEmptyMarker_ h && anyAccepts (ranges_ m) kEmptyMarker = false →
  ∃ r, ht_mergeWith rec h (FBigintMultiRange m) = Ok r ∧
    means r (ht_nullAllowed_ h && mr_nullAllowed_ m)
      (λ v, bool_decide (v ∈ values_ h) && anyAccepts (ranges_ m) v).
Proof.
  intros Hinv Hnd Hlen Hm Hok Hmk. unfold ht_mergeWith. rewrite testInt64_spec by done.
  assert ((if containsEmptyMarker_ h then Ok (accepts (FBigintMultiRange m) kEmptyMarker) else Ok false)
          = Ok false) as ->.
  { simpl. unfold anyAccepts in Hmk. destruct (containsEmptyMarker_ h); [|done].
    f_equal. exact Hmk. }
  cbn [mbind outcome_bind]. apply kept_means; [done | | done |].
  { eapply Forall_impl; [apply (hi_values h Hinv) | naive_solver]. }
  rewrite <- kept_ranges by done. simpl. apply reflexive_eq. f_equal. apply map_ext. intros r.
  destruct (Z.leb_spec (Z.max (ht_min_ h) (lower_ r)) (Z.min (ht_max_ h) (upper_ r))).
  - apply list_filter_iff. intros v. by rewrite br_testInt64_spec.
  - symmetry. apply filter_none. eapply Forall_impl; [apply (hi_values h Hinv)|].
    intros v [_ Hv]. unfold br_accepts. simpl in Hv. lia.
Qed.

(** The positions of a bitmask between two bounds are its values there. *)
Lemma bm_window b lo hi (c : Z → bool) :
  bm_wf b → bm_min_ b ≤ lo → hi ≤ bm_max_ b →
  (∀ v, bm_accepts b v = true → c v = true → lo ≤ v ≤ hi) →
  filter (λ i, bm_accepts b i && c i = true) (seqZ lo (hi - lo + 1)) ≡ₚ
  filter (λ v, c v = true) (bm_members b).
Proof.
  intros Hwf Hlo Hhi Hc. apply NoDup_Permutation.
  - apply NoDup_filter, NoDup_seqZ.
  - apply NoDup_filter, StronglySorted_lt_NoDup, setPositions_sorted.
  - intros v. rewrite !list_elem_of_filter, elem_of_seqZ, andb_true_iff. unfold bm_accepts in *.
    specialize (Hc v). rewrite bool_decide_eq_true in *. split; [naive_solver|].
    intros [Hcv Hin]. specialize (Hc Hin Hcv). split; [done | lia].
Qed.

Lemma bm_members_int64 b : bm_wf b → Forall is_int64 (bm_members b).
Proof.
  intros Hwf. apply Forall_forall. intros v Hv. pose proof Hwf as [_ ? ? _].
  assert (bm_accepts b v = true) as Ha by (by apply bool_decide_eq_true).
  apply bm_accepts_range in Ha; [|done]. unfold_ints. lia.
Qed.

Lemma loopRange_Ok lo hi : hi < int64_max → loopRange lo hi = Ok (seqZ lo (hi - lo + 1)).
Proof. intros H. unfold loopRange. by replace (hi =? int64_max) with false by lia; rewrite andb_false_r. Qed.

Lemma bm_mergeRange_means b min max g :
  bm_wf b → bm_max_ b < int64_max → Z.of_nat (length (bm_members b)) * 5 < 2 ^ 32 → wf g →
  bm_min_ b ≤ min → max ≤ bm_max_ b →
  (∀ v, bm_accepts b v = true → accepts g v = true → min ≤ v ≤ max) →
  ∃ r, bm_mergeRange b min max g = Ok r ∧
    means r (bm_nullAllowed_ b && testNull g) (λ v, bm_accepts b v && accepts g v).
Proof.
  intros Hwf Hmax Hlen Hg Hlo Hhi Hcut. unfold bm_mergeRange.
  rewrite loopRange_Ok by lia. cbn [mbind outcome_bind].
  rewrite (filterM_o_Ok _ (λ v, bm_accepts b v && accepts g v)).
  - cbn [mbind outcome_bind]. apply kept_means; [|by apply bm_members_int64 | done |].
    + apply StronglySorted_lt_NoDup, setPositions_sorted.
    + by apply bm_window.
  - apply Forall_forall. intros v Hv%elem_of_seqZ. rewrite bm_bit_spec by (done || lia).
    cbn [mbind outcome_bind]. rewrite testInt64_spec by done. by destruct (bm_accepts b v).
Qed.

Lemma bm_multi_means rec b m :
  bm_wf b → bm_max_ b < int64_max → Z.of_nat (length (bm_members b)) * 5 < 2 ^ 32 →
  ranges_ok (ranges_ m) →
  ∃ r, bm_mergeWith rec b (FBigintMultiRange m) = Ok r ∧
    means r (bm_nullAllowed_ b && mr_nullAllowed_ m)
      (λ v, bm_accepts b v && anyAccepts (ranges_ m) v).
Proof.
  intros Hwf Hmax Hlen Hok. unfold bm_mergeWith.
  set (F := λ r, idx ← loopRange (Z.max (bm_min_ b) (lower_ r)) (Z.min (bm_max_ b) (upper_ r));
                 filterM_o (λ i, bit ← bm_bit b i; Ok (bit && br_testInt64 r i)) idx).
  assert (∃ kept, mapM_o F (ranges_ m) = Ok kept ∧
    concat kept ≡ₚ concat (map (λ r, filter (λ v, br_accepts r v = true) (bm_members b)) (ranges_ m)))
    as (kept & -> & Hk).
  { clear Hok. induction (ranges_ m) as [|r l (kept & IH & IHk)]; [by exists []|].
    set (out := filter (λ i, bm_accepts b i && br_accepts r i = true)
      (seqZ (Z.max (bm_min_ b) (lower_ r))
         (Z.min (bm_max_ b) (upper_ r) - Z.max (bm_min_ b) (lower_ r) + 1))).
    exists (out :: kept). split.
    - assert (F r = Ok out) as Hr.
      { unfold F. rewrite loopRange_Ok by lia. cbn [mbind outcome_bind]. apply filterM_o_Ok.
        apply Forall_forall. intros v Hv%elem_of_seqZ. rewrite bm_bit_spec by (done || lia).
        simpl. by rewrite br_testInt64_spec. }
      cbn [mapM_o]. rewrite Hr. cbn [mbind outcome_bind]. by rewrite IH.
    - simpl. rewrite IHk. f_equiv. apply bm_window; [done | lia | lia |].
      intros v Hb%bm_accepts_range Hr; [|done]. unfold br_accepts in Hr. lia. }
  cbn [mbind outcome_bind]. apply kept_means; [|by apply bm_members_int64 | done |].
  - apply StronglySorted_lt_NoDup, setPositions_sorted.
  - by rewrite Hk, kept_ranges.
Qed.

Lemma negatedRanges_means a b na :
  br_wf (nbr_nonNegated_ a) → br_wf (nbr_nonNegated_ b) → nbr_upper a < int64_max →
  nbr_lower a ≤ nbr_lower b →
  ∃ r, negatedRanges_mergeWith a b na = Ok r ∧
    means r na (λ v, negb (br_accepts (nbr_nonNegated_ a) v) && negb (br_accepts (nbr_nonNegated_ b) v)).
Proof.
  intros [_ Hla Hloa Hhia] [_ Hlb Hlob Hhib] Hmax Hle. unfold negatedRanges_mergeWith, br_accepts.
  unfold nbr_lower, nbr_upper in *.
  set (al := lower_ (nbr_nonNegated_ a)) in *. set (au := upper_ (nbr_nonNegated_ a)) in *.
  set (bl := lower_ (nbr_nonNegated_ b)) in *. set (bu := upper_ (nbr_nonNegated_ b)) in *.
  set (Q := λ v, negb ((al <=? v) && (v <=? au)) && negb ((bl <=? v) && (v <=? bu))).
  unfold add64, sub64. rewrite (checked64_Ok (au + 1)) by (unfold_ints; lia).
  cbn [mbind outcome_bind]. destruct (Z.ltb_spec (au + 1) bl).
  2: { eexists. split; [done|]. eapply means_ext, negatedRange_means; [|unfold_ints; lia..].
       intros v _. unfold Q. lia. }
  assert (∃ out, (if al >? int64_min then hi ← checked64 (al - 1); Ok [newBigintRange int64_min hi false]
                  else Ok []) = Ok out ∧ piece int64_min (al - 1) Q out) as (below & -> & H1).
  { destruct (Z.gtb_spec al int64_min).
    - rewrite checked64_Ok by (unfold_ints; lia). eexists. split; [done|].
      apply piece_one; [unfold_ints; lia.. | unfold Q; lia].
    - eexists. split; [done|]. apply piece_nil. lia. }
  cbn [mbind outcome_bind]. replace ((au <? int64_max) && (bl >? int64_min)) with true by (unfold_ints; lia).
  rewrite (checked64_Ok (bl - 1)) by (unfold_ints; lia). cbn [mbind outcome_bind].
  assert (∃ out, (if bu <? int64_max then lo ← checked64 (bu + 1); Ok [newBigintRange lo int64_max false]
                  else Ok []) = Ok out ∧ piece (bu + 1) int64_max Q out) as (above & -> & H3).
  { destruct (Z.ltb_spec bu int64_max).
    - rewrite checked64_Ok by (unfold_ints; lia). eexists. split; [done|].
      apply piece_one; [unfold_ints; lia.. | unfold Q; lia].
    - eexists. split; [done|]. apply piece_nil. lia. }
  cbn [mbind outcome_bind].
  assert (piece int64_min int64_max Q (below ++ [newBigintRange (au + 1) (bl - 1) false] ++ above))
    as [Hok _ Hacc].
  { apply (piece_app _ (al - 1) (au + 1)); [done | | unfold Q; unfold_ints; lia..].
    apply (piece_app _ (bl - 1) (bu + 1)); [| done | unfold Q; unfold_ints; lia..].
    apply piece_one; [unfold_ints; lia.. | unfold Q; lia]. }
  destruct (combineBigintRanges_means _ na Hok) as (r & -> & Hm & _).
  eexists. split; [done|]. eapply means_ext, Hm. intros v Hv. rewrite Hacc by done.
  unfold_ints. destruct (Q v); lia.
Qed.

Lemma rejected_single r : br_wf r → isSingleValue_ r = (lower_ r =? upper_ r).
Proof. intros [-> _ _ _]. simpl. lia. Qed.

(** A negated range against the values another filter rejects. *)
Lemma nbr_mergeValues_means a g rejects na :
  br_wf (nbr_nonNegated_ a) → wf g → (∀ v, accepts g v = notIn rejects v) →
  rejects ≠ [] → StronglySorted Z.lt rejects → Forall is_int64 rejects →
  Z.of_nat (length rejects + 1) * 5 < 2 ^ 32 →
  ∃ r, nbr_mergeValues a g rejects na = Ok r ∧
    means r na (λ v, negb (br_accepts (nbr_nonNegated_ a) v) && accepts g v).
Proof.
  intros Ha Hg Hacc Hne Hs Hi Hlen. unfold nbr_mergeValues. rewrite rejected_single by done.
  pose proof Ha as [_ Hle Hlo Hhi].
  destruct (Z.eqb_spec (lower_ (nbr_nonNegated_ a)) (upper_ (nbr_nonNegated_ a))) as [E|E].
  - rewrite testInt64_spec by done. cbn [mbind outcome_bind]. rewrite Hacc.
    set (x := nbr_lower a). set (l := if notIn rejects x then rejects ++ [x] else rejects).
    assert (∀ v, bool_decide (v ∈ l) = bool_decide (v ∈ rejects) || (v =? x)) as Hl.
    { intros v. subst l. unfold notIn. destruct (bool_decide_reflect (x ∈ rejects)) as [Hin|Hin]; simpl.
      - destruct (Z.eqb_spec v x) as [->|]; [|by rewrite orb_false_r]. by rewrite !bool_decide_true.
      - destruct (Z.eqb_spec v x) as [->|].
        + by rewrite orb_true_r, bool_decide_true by set_solver.
        + rewrite orb_false_r. apply bool_decide_ext. set_solver. }
    destruct (createBigintValuesFilter_means l na true) as (r & Hr & Hm).
    + subst l. destruct (notIn rejects x); [|done]. apply Forall_app. split; [done|].
      by constructor; [exact Hlo|].
    + subst l. unfold notIn. destruct (bool_decide_reflect (x ∈ rejects)); simpl;
        [by apply StronglySorted_lt_NoDup|]. apply NoDup_app. split_and!; [by apply StronglySorted_lt_NoDup | |apply NoDup_singleton].
      set_solver.
    + subst l. destruct (notIn rejects x); rewrite ?length_app; simpl; lia.
    + exists r. split; [done|]. eapply means_ext, Hm. intros v _. cbv beta. rewrite xorb_true_l, Hl, Hacc.
      unfold notIn, br_accepts. rewrite <- E. fold (nbr_lower a). fold x.
      destruct (bool_decide _); simpl; [by rewrite andb_false_r|]. rewrite andb_true_r. f_equal. lia.
  - destruct (negatedValuesToRanges_piece rejects Hne Hi Hs) as (out & -> & [Hok _ Hp]).
    cbn [mbind outcome_bind]. unfold nbr_lower, nbr_upper.
    destruct (combineNegatedRangeOnIntRanges_means (lower_ (nbr_nonNegated_ a))
      (upper_ (nbr_nonNegated_ a)) out na Hok Hle Hlo Hhi) as (r & -> & Hm).
    eexists. split; [done|]. eapply means_ext, Hm. intros v Hv. cbv beta.
    rewrite (Hp v Hv), (Hacc v).
    unfold br_accepts. rewrite andb_comm. f_equal. unfold is_int64 in Hv. destruct (notIn rejects v); lia.
Qed.

Lemma nht_rejects h : ht_inv (nht_nonNegated_ h) → NoDup (nht_values h) →
  StronglySorted Z.lt (nht_values h) ∧ Forall is_int64 (nht_values h) ∧ nht_values h ≠ [].
Proof.
  intros Hinv Hnd. split_and!.
  - apply StronglySorted_le_lt; [apply (hi_sorted _ Hinv) | done].
  - eapply Forall_impl; [apply (hi_values _ Hinv)|]. naive_solver.
  - pose proof (hi_minmax _ Hinv) as (Hin & _). unfold nht_values. by intros E; rewrite E in Hin; apply not_elem_of_nil in Hin.
Qed.

Lemma nbm_rejects b : bm_wf (nbm_nonNegated_ b) →
  StronglySorted Z.lt (nbm_members b) ∧ Forall is_int64 (nbm_members b) ∧ nbm_members b ≠ [].
Proof.
  intros Hwf. split_and!; [apply setPositions_sorted | by apply bm_members_int64 | apply (mw_some _ Hwf)].
Qed.

Lemma nbm_values_Ok b : ready (FNegatedBigintValuesUsingBitmask b) → nbm_values b = Ok (nbm_members b).
Proof. intros H. unfold nbm_values, bm_values, intLoop. simpl in H. by rewrite (proj2 (Z.leb_le _ _) H). Qed.

Lemma ready_sane f : ready f → sane f.
Proof. by destruct f. Qed.

Lemma clone_same f : wf f → clone f None = Ok f.
Proof.
  destruct f as [| | | |? ?|r|[na r]|h|b|[na h]|[na ? ? b]|[na l lb]]; simpl; try done.
  - intros [[Hr _ _ _] Hn]. simpl in *. unfold nbr_clone, newNegatedBigintRange, nbr_lower, nbr_upper.
    simpl. rewrite Hr at 3. by rewrite Hn.
  - by destruct h.
  - by destruct b.
  - intros [Hlen _ Ho Hb]. simpl in *. unfold mr_clone, newBigintMultiRange. simpl.
    rewrite Ho, (proj2 (Nat.ltb_lt _ _) Hlen), Hb. by destruct l; [simpl in Hlen; lia|].
Qed.

Lemma means_self f : wf f → ready f → means f (testNull f) (accepts f).
Proof. intros. split; [done | by apply ready_sane | done..]. Qed.

Ltac inv_mergeable H :=
  let Hf := fresh "Hwf" in let Hg := fresh "Hwg" in
  let Rf := fresh "Hrf" in let Rg := fresh "Hrg" in
  let C1 := fresh "Hc1" in let C2 := fresh "Hc2" in let Sz := fresh "Hsz" in
  destruct H as [Hf Hg Rf Rg C1 C2 Sz]; simpl in Hf, Hg, Rf, Rg, C1, C2, Sz.

Section Steps.
Context (rec : Filter → Filter → outcome Filter).

Lemma alwaysTrue_merges g : wf g → ready g → merges (mergeStep rec) AlwaysTrue g.
Proof.
  intros Hw Hr. apply merges_intro; [done|]. exists g. split; [by apply clone_same|].
  by apply means_self.
Qed.

Lemma alwaysFalse_merges g : merges (mergeStep rec) AlwaysFalse g.
Proof. apply merges_intro; [done|]. eexists. split; [done|]. by apply (nullOrFalse_means false). Qed.

Lemma isNull_merges g : merges (mergeStep rec) IsNull g.
Proof.
  apply merges_intro; [done|]. simpl. unfold isNull_mergeWith.
  destruct (testNull g); eexists; (split; [done|]);
    [by apply (nullOrFalse_means true) | by apply (nullOrFalse_means false)].
Qed.

(** Merging with [IsNotNull] only clears the null flag. *)
Lemma isNotNull_merges g : wf g → ready g →
  match g with
  | AlwaysFalse | AlwaysTrue | IsNull => True
  | _ => merges (mergeStep rec) g IsNotNull
  end.
Proof.
  intros Hw Hr. destruct g as [| | | |? ?|r|r|h|b|h|b|m]; simpl; try done; apply merges_intro; try done;
    simpl in *; rewrite ?andb_false_r.
  - eexists. split; [done|]. by split.
  - eexists. split; [done|]. split; simpl; try done. intros. by rewrite andb_true_r.
  - eexists. split; [done|]. destruct Hw as [? ? ? ?]. eapply means_ext, range_means; [|done..].
    intros v _. unfold br_accepts. by rewrite andb_true_r.
  - eexists. split; [done|]. destruct Hw as [[? ? ? ?] _]. eapply means_ext, negatedRange_means; [|done..].
    intros v _. unfold br_accepts. by rewrite andb_true_r.
  - eexists. split; [done|]. destruct Hw as [[? ? ? ? ?] Hnd].
    split; simpl; [by split; [split|] | done | done | by intros; rewrite andb_true_r].
  - eexists. split; [done|]. destruct Hw as [? ? ? ? ?].
    split; simpl; [by split | done | done | by intros; rewrite andb_true_r].
  - eexists. split; [done|].
    split; simpl; [done | done | done | by intros; rewrite andb_true_r].
  - eexists. split; [done|].
    split; simpl; [done | done | done | by intros; rewrite andb_true_r].
  - pose proof Hw as [? ? ? ?]. destruct (newMultiRange_means (ranges_ m) false) as [-> Hm]; [done..|].
    eexists. split; [done|]. eapply means_ext, Hm. intros v _. by rewrite andb_true_r.
Qed.

Lemma boolValue_merges a na b nb :
  merges (mergeStep rec) (BoolValue a na) (BoolValue b nb).
Proof.
  apply merges_intro; [done|]. simpl. eexists. split; [done|].
  destruct (Bool.eqb_spec b a) as [->|Hne].
  - split; simpl; try done. intros v _. by rewrite andb_diag.
  - apply nullOrFalse_means. intros v _. destruct a, b; try done; by destruct (v =? 0).
Qed.

Section Smaller.
Context (f g : Filter).
Hypothesis Hrec : ∀ f' g', (rank f' g' < rank f g)%nat → mergeable f' g' → merges rec f' g'.
Hypothesis Hmg : mergeable f g.

(** The branches that swap the two filters. *)
Lemma swap_merges : (rank g f < rank f g)%nat → mergeStep rec f g = rec g f →
  merges (mergeStep rec) f g.
Proof.
  intros Hr E. unfold merges. rewrite E. apply merges_sym, Hrec; [done|]. by apply mergeable_sym.
Qed.
End Smaller.

Lemma range_range_merges r o : br_wf r → br_wf o →
  merges (mergeStep rec) (FBigintRange r) (FBigintRange o).
Proof.
  intros [Hr ? ? ?] [Ho ? ? ?]. simpl.
  set (lo := Z.max (lower_ r) (lower_ o)). set (hi := Z.min (upper_ r) (upper_ o)).
  assert (is_int64 lo ∧ is_int64 hi) as [Hlo Hhi] by (unfold_ints; lia).
  assert (piece lo hi (λ _, true) (if lo <=? hi then [newBigintRange lo hi false] else [])) as [Hok _ Hp].
  { destruct (Z.leb_spec lo hi); [by apply piece_one | apply piece_nil; lia]. }
  eexists. split; [done|]. split_and!.
  - simpl. fold lo hi. destruct (Z.leb_spec lo hi).
    + eapply means_ext, range_means; [|done..]. intros v _. unfold br_accepts. lia.
    + apply nullOrFalse_means. intros v _. unfold br_accepts. lia.
  - simpl. intros _ _ ->. fold lo hi. eexists. split; [|split; [exact Hok|]].
    + by destruct (lo <=? hi).
    + intros v Hv. rewrite Hp by done. unfold br_accepts. lia.
  - intros _ _ _ _. simpl. destruct (_ <=? _); [done|]. by destruct (_ && _).
Qed.

Lemma range_multi_merges r m :
  br_wf r → mr_wf m → ranges_ok (ranges_ m) →
  (∀ o, br_wf o → merges rec (FBigintRange r) (FBigintRange o)) →
  merges (mergeStep rec) (FBigintRange r) (FBigintMultiRange m).
Proof.
  intros Hwr Hwm Hok Hrec. pose proof Hok as (Hwo & Hno & _). simpl.
  destruct (pieces_means (λ o, merged ← rec (FBigintRange r) (FBigintRange o); keepRange merged)
    (br_accepts r) (ranges_ m) (br_nullAllowed_ r && mr_nullAllowed_ m) Hok) as (res & Hres & Hm & Hk).
  - rewrite Forall_forall in Hwo, Hno |- *. intros o Ho.
    destruct (Hrec o (Hwo o Ho)) as (x & Hx & _ & Hkeep & Hone). rewrite Hx. cbn [mbind outcome_bind].
    destruct Hkeep as (out & Hout & Hoo & Hacc); [done | done | simpl; rewrite (Hno o Ho); apply andb_false_r|].
    exists out. rewrite (Hone r o) by done. split; [done|]. apply piece_of_accepts; [done|].
    intros v Hv. rewrite Hacc by done. apply andb_comm.
  - exists res. split; [done|]. split_and!; [| |done].
    + eapply means_ext, Hm. intros v _. apply andb_comm.
    + intros _ _ Hn. destruct (Hk Hn) as (out & ? & ? & Ha). exists out. split_and!; [done..|].
      intros v Hv. rewrite Ha by done. apply andb_comm.
Qed.

Lemma multi_multi_merges m o :
  mr_wf m → ranges_ok (ranges_ m) →
  (∀ r, br_wf r → merges rec (FBigintRange r) (FBigintMultiRange o)) →
  merges (mergeStep rec) (FBigintMultiRange m) (FBigintMultiRange o).
Proof.
  intros Hwm Hok Hrec. pose proof Hok as (Hwr & Hnr & _). simpl.
  destruct (pieces_means (λ r, merged ← rec (FBigintRange r) (FBigintMultiRange o); keepRanges merged)
    (anyAccepts (ranges_ o)) (ranges_ m) (mr_nullAllowed_ m && mr_nullAllowed_ o) Hok)
    as (res & Hres & Hm & Hk).
  - rewrite Forall_forall in Hwr, Hnr |- *. intros r Hr.
    destruct (Hrec r (Hwr r Hr)) as (x & Hx & _ & Hkeep & _). rewrite Hx. cbn [mbind outcome_bind].
    destruct Hkeep as (out & Hout & Hoo & Hacc); [done | done | simpl; by rewrite (Hnr r Hr)|].
    exists out. split; [done|]. by apply piece_of_accepts.
  - exists res. split; [done|]. split_and!; [done | | done].
    intros _ _ Hn. destruct (Hk Hn) as (out & ? & ? & Ha). eauto.
Qed.

(** A range or a list of ranges against rejected values. *)
Lemma rejects_merges (m : outcome Filter) l rejects f g :
  isRanges f && isRanges g = false → ranges_ok l → rejects_ok rejects →
  m = combineRangesAndNegatedValues l rejects (testNull f && testNull g) →
  (∀ v, accepts f v = anyAccepts l v) → (∀ v, accepts g v = notIn rejects v) →
  ∃ r, m = Ok r ∧ conjunction f g r.
Proof.
  intros Hir Hok Hr -> Hf Hg. apply merges_intro; [done|].
  destruct (combineRangesAndNegatedValues_means l rejects (testNull f && testNull g) Hok Hr) as (r & -> & Hm).
  exists r. split; [done|]. eapply means_ext, Hm. intros v _. by rewrite Hf, Hg.
Qed.

Lemma single_ok r : br_wf r → ranges_ok [newBigintRange (lower_ r) (upper_ r) false].
Proof. intros [_ ? ? ?]. by apply (piece_one _ _ (λ _, true)). Qed.

Lemma single_accepts r v :
  br_accepts r v = anyAccepts [newBigintRange (lower_ r) (upper_ r) false] v.
Proof. unfold anyAccepts. simpl. by rewrite orb_false_r. Qed.

Lemma range_rejects_merges r g rejects :
  br_wf r → wf g → range_fits g (lower_ r) (upper_ r) →
  rejects_ok rejects → (∀ v, accepts g v = notIn rejects v) → isRanges g = false →
  mergeStep rec (FBigintRange r) g =
    (some ← testInt64Range g (lower_ r) (upper_ r) false;
     if negb some then Ok (nullOrFalse (br_nullAllowed_ r && testNull g))
     else combineRangesAndNegatedValues [newBigintRange (lower_ r) (upper_ r) false]
            rejects (br_nullAllowed_ r && testNull g)) →
  merges (mergeStep rec) (FBigintRange r) g.
Proof.
  intros Hr Hg Hfit Hrej Hacc Hng E. unfold merges. rewrite E.
  destruct (testInt64Range_total g (lower_ r) (upper_ r) Hg (bw_le r Hr) Hfit) as (b & -> & Hb).
  cbn [mbind outcome_bind]. destruct b; cbn [negb].
  - apply (rejects_merges _ [newBigintRange (lower_ r) (upper_ r) false] rejects); try done.
    + by apply single_ok.
    + intros v. apply single_accepts.
  - apply merges_intro; [done|]. eexists. split; [done|]. apply nullOrFalse_means. intros v _.
    simpl. destruct (br_accepts r v) eqn:Ev; [|done]. simpl. apply not_true_is_false. intros Ha.
    unfold br_accepts in Ev. discriminate (Hb v ltac:(lia) Ha).
Qed.

Lemma ht_range_merges h min max g :
  mergeable (FBigintValuesUsingHashTable h) g →
  ht_mergeWith rec h g = ht_mergeRange h min max g →
  (∀ v, ht_min_ h ≤ v ≤ ht_max_ h → accepts g v = true → min ≤ v ≤ max) → is_int64 min →
  merges (mergeStep rec) (FBigintValuesUsingHashTable h) g.
Proof.
  intros Hmg E Hcut Hmin. inv_mergeable Hmg. destruct Hwf as [Hinv Hnd].
  apply merges_intro; [done|]. simpl. rewrite E.
  apply ht_mergeRange_means; try done; [lia|]. intros v Hv Ha. apply Hcut; [|done].
  pose proof (hi_values h Hinv) as Hb. rewrite Forall_forall in Hb. by apply (Hb v Hv).
Qed.

Lemma bm_range_merges b min max g :
  mergeable (FBigintValuesUsingBitmask b) g →
  bm_mergeWith rec b g = bm_mergeRange b min max g → bm_min_ b ≤ min → max ≤ bm_max_ b →
  (∀ v, bm_min_ b ≤ v ≤ bm_max_ b → accepts g v = true → min ≤ v ≤ max) →
  merges (mergeStep rec) (FBigintValuesUsingBitmask b) g.
Proof.
  intros Hmg E Hlo Hhi Hcut. inv_mergeable Hmg.
  apply merges_intro; [done|]. simpl. rewrite E.
  apply bm_mergeRange_means; try done; [lia|]. intros v Hv Ha. apply Hcut; [|done].
  by apply bm_accepts_range.
Qed.

Lemma lists_merge (m : outcome Filter) f g first second :
  isRanges f && isRanges g = false →
  m = combineNegatedBigintLists first second (testNull f && testNull g) →
  (∀ v, accepts f v = notIn first v) → (∀ v, accepts g v = notIn second v) →
  StronglySorted Z.lt first → StronglySorted Z.lt second →
  Forall is_int64 first → Forall is_int64 second →
  Z.of_nat (length first + length second + 1) * 5 < 2 ^ 32 →
  ∃ r, m = Ok r ∧ conjunction f g r.
Proof.
  intros Hn -> Hf Hg ? ? ? ? ?. apply merges_intro; [done|].
  destruct (combineNegatedBigintLists_means first second (testNull f && testNull g))
    as (r & -> & Hm); [done.. | lia |].
  exists r. split; [done|]. eapply means_ext, Hm. intros v _. by rewrite Hf, Hg.
Qed.

Lemma negatedRange_ranges_merges (m : outcome Filter) n g l :
  wf (FNegatedBigintRange n) → ranges_ok l →
  m = combineNegatedRangeOnIntRanges (nbr_lower n) (nbr_upper n) l (nbr_nullAllowed_ n && testNull g) →
  (∀ v, accepts g v = anyAccepts l v) →
  ∃ r, m = Ok r ∧ conjunction (FNegatedBigintRange n) g r.
Proof.
  intros [[_ Hle Hlo Hhi] _] Hok -> Hg. apply merges_intro; [done|].
  destruct (combineNegatedRangeOnIntRanges_means (nbr_lower n) (nbr_upper n) l
    (nbr_nullAllowed_ n && testNull g) Hok Hle Hlo Hhi) as (r & -> & Hm).
  exists r. split; [done|]. eapply means_ext, Hm. intros v _. simpl. rewrite Hg. apply andb_comm.
Qed.
End Steps.

(** ** One step is right if the steps below are *)
Section Step.
Context (rec : Filter → Filter → outcome Filter).
Context (f g : Filter).
Hypothesis Hrec : ∀ f' g', (rank f' g' < rank f g)%nat → mergeable f' g' → merges rec f' g'.
Hypothesis Hmg : mergeable f g.

Ltac swap_args := apply swap_merges; [exact Hrec | exact Hmg | simpl; lia | reflexivity].

Lemma br_merges r : f = FBigintRange r → merges (mergeStep rec) f g.
Proof.
  intros ->. destruct g as [| | | |? ?|o|o|o|o|o|o|o]; try swap_args.
  - by apply (isNotNull_merges rec (FBigintRange r)); apply Hmg.
  - destruct (mg_compat2 _ _ Hmg).
  - by apply range_range_merges; apply Hmg.
  - pose proof Hmg as Hmg'. inv_mergeable Hmg'. destruct Hwg as [Hinv Hnd], Hc1 as [Hin Hfit].
    apply (range_rejects_merges _ _ _ (nht_values o)); try done.
    split; [by apply nht_rejects | done].
  - pose proof Hmg as Hmg'. inv_mergeable Hmg'.
    apply (range_rejects_merges _ _ _ (nbm_members o)); try done; [by split; [apply nbm_rejects|]|].
    simpl. by rewrite (nbm_values_Ok o).
  - pose proof Hmg as Hmg'. inv_mergeable Hmg'. apply range_multi_merges; try done.
    intros x Hx. apply Hrec; [simpl; lia|]. by split.
Qed.

Lemma nbr_merges r : f = FNegatedBigintRange r → merges (mergeStep rec) f g.
Proof.
  intros ->. destruct g as [| | | |? ?|o|o|o|o|o|o|o]; try swap_args.
  - by apply (isNotNull_merges rec (FNegatedBigintRange r)); apply Hmg.
  - destruct (mg_compat2 _ _ Hmg).
  - pose proof Hmg as Hmg'. inv_mergeable Hmg'.
    apply (negatedRange_ranges_merges _ _ _ [newBigintRange (lower_ o) (upper_ o) false]); try done.
    + by apply single_ok.
    + intros v. apply single_accepts.
  - pose proof Hmg as Hmg'. inv_mergeable Hmg'. destruct Hwf as [? _], Hwg as [? _].
    destruct (Z.gtb_spec (nbr_lower r) (nbr_lower o)) as [Hgt|Hle].
    + apply swap_merges; [exact Hrec | exact Hmg | |].
      * simpl. destruct (Z.gtb_spec (nbr_lower o) (nbr_lower r)), (Z.gtb_spec (nbr_lower r) (nbr_lower o)); lia.
      * simpl. by destruct (Z.gtb_spec (nbr_lower r) (nbr_lower o)); [|lia].
    + apply merges_intro; [done|]. simpl. destruct (Z.gtb_spec (nbr_lower r) (nbr_lower o)); [lia|].
      by apply negatedRanges_means.
  - pose proof Hmg as Hmg'. inv_mergeable Hmg'. destruct Hwf as [? _], Hwg as [Hinv Hnd].
    apply merges_intro; [done|]. destruct (nht_rejects o Hinv Hnd) as (? & ? & ?).
    apply nbr_mergeValues_means; done.
  - pose proof Hmg as Hmg'. inv_mergeable Hmg'. destruct Hwf as [? _].
    apply merges_intro; [done|]. destruct (nbm_rejects o Hwg) as (? & ? & ?).
    simpl. rewrite (nbm_values_Ok o) by done. cbn [mbind outcome_bind]. apply nbr_mergeValues_means; done.
  - pose proof Hmg as Hmg'. inv_mergeable Hmg'.
    by apply (negatedRange_ranges_merges _ _ _ (ranges_ o)).
Qed.

Lemma ht_merges h : f = FBigintValuesUsingHashTable h → merges (mergeStep rec) f g.
Proof.
  intros ->. pose proof Hmg as Hmg'. inv_mergeable Hmg'. destruct Hwf as [Hinv Hnd].
  pose proof (hi_values h Hinv) as Hv. pose proof (hi_minmax h Hinv) as (Hmin & Hmax & _).
  rewrite Forall_forall in Hv. destruct (Hv _ Hmin) as [Hmin' _].
  destruct g as [| | | |? ?|o|o|o|o|o|o|o]; try swap_args;
    try (by eapply ht_range_merges; [exact Hmg | reflexivity | auto | done]).
  - by apply (isNotNull_merges rec (FBigintValuesUsingHashTable h)); apply Hmg.
  - destruct Hc2.
  - eapply ht_range_merges; [exact Hmg | reflexivity | |].
    + intros v Hb Ha. simpl in Ha. unfold br_accepts in Ha. lia.
    + destruct Hwg. unfold_ints. lia.
  - destruct Hwg as [Hinv' _]. pose proof (hi_values o Hinv') as Hv'. rewrite Forall_forall in Hv'.
    pose proof (hi_minmax o Hinv') as (Hmin'' & _). destruct (Hv' _ Hmin'') as [? _].
    eapply ht_range_merges; [exact Hmg | reflexivity | |].
    + intros v Hb Ha%bool_decide_eq_true. specialize (Hv' v Ha). lia.
    + unfold_ints. lia.
  - apply merges_intro; [done|]. apply ht_multi_means; try done. lia.
Qed.

Lemma bm_merges b : f = FBigintValuesUsingBitmask b → merges (mergeStep rec) f g.
Proof.
  intros ->. pose proof Hmg as Hmg'. inv_mergeable Hmg'.
  destruct g as [| | | |? ?|o|o|o|o|o|o|o]; try swap_args;
    try (by eapply bm_range_merges; [exact Hmg | reflexivity | lia | lia | auto]).
  - by apply (isNotNull_merges rec (FBigintValuesUsingBitmask b)); apply Hmg.
  - destruct Hc2.
  - eapply bm_range_merges; [exact Hmg | reflexivity | lia | lia |].
    intros v Hb Ha. simpl in Ha. unfold br_accepts in Ha. lia.
  - destruct Hwg as [Hinv' _]. pose proof (hi_values o Hinv') as Hv'. rewrite Forall_forall in Hv'.
    eapply bm_range_merges; [exact Hmg | reflexivity | lia | lia |].
    intros v Hb Ha%bool_decide_eq_true. specialize (Hv' v Ha). lia.
  - eapply bm_range_merges; [exact Hmg | reflexivity | lia | lia |].
    intros v Hb Ha%bm_accepts_range; [lia | done].
  - apply merges_intro; [done|]. apply bm_multi_means; try done. lia.
Qed.

Lemma negatedLists_merges :
  match f with
  | FNegatedBigintValuesUsingHashTable _ | FNegatedBigintValuesUsingBitmask _ => True
  | _ => False
  end → merges (mergeStep rec) f g.
Proof.
  pose proof Hmg as Hmg'. inv_mergeable Hmg'.
  destruct f as [| | | |? ?|a|a|a|a|a|a|a]; try done; intros _;
    destruct g as [| | | |? ?|o|o|o|o|o|o|o]; try swap_args; try (by destruct Hc2).
  - by apply (isNotNull_merges rec (FNegatedBigintValuesUsingHashTable a)); apply Hmg.
  - destruct Hwf as [? ?], Hwg as [? ?].
    destruct (nht_rejects a) as (? & ? & _); [done..|]. destruct (nht_rejects o) as (? & ? & _); [done..|].
    by apply (lists_merge _ _ _ (nht_values a) (nht_values o)).
  - by apply (isNotNull_merges rec (FNegatedBigintValuesUsingBitmask a)); apply Hmg.
  - destruct Hwg as [? ?].
    destruct (nbm_rejects a) as (? & ? & _); [done..|]. destruct (nht_rejects o) as (? & ? & _); [done..|].
    apply (lists_merge _ _ _ (nbm_members a) (nht_values o)); try done. simpl. by rewrite (nbm_values_Ok a).
  - destruct (nbm_rejects a) as (? & ? & _); [done..|]. destruct (nbm_rejects o) as (? & ? & _); [done..|].
    apply (lists_merge _ _ _ (nbm_members a) (nbm_members o)); try done. simpl. by rewrite (nbm_values_Ok a), (nbm_values_Ok o).
Qed.

Lemma mr_merges m : f = FBigintMultiRange m → merges (mergeStep rec) f g.
Proof.
  intros ->. pose proof Hmg as Hmg'. inv_mergeable Hmg'.
  destruct g as [| | | |? ?|o|o|o|o|o|o|o]; try swap_args.
  - by apply (isNotNull_merges rec (FBigintMultiRange m)); apply Hmg.
  - destruct Hc2.
  - destruct Hwg as [? ?]. apply (rejects_merges _ (ranges_ m) (nht_values o)); try done.
    split; [by apply nht_rejects | done].
  - apply (rejects_merges _ (ranges_ m) (nbm_members o)); try done; [by split; [apply nbm_rejects|]|].
    simpl. by rewrite (nbm_values_Ok o).
  - apply multi_multi_merges; try done. intros r Hr. apply Hrec; [simpl; lia|]. by split.
Qed.

End Step.

Lemma mergeStep_merges rec f g :
  (∀ f' g', (rank f' g' < rank f g)%nat → mergeable f' g' → merges rec f' g') →
  mergeable f g → merges (mergeStep rec) f g.
Proof.
  intros Hrec Hmg. pose proof Hmg as Hmg'. inv_mergeable Hmg'.
  destruct f as [| | | |? ?|a|a|a|a|a|a|a].
  - apply alwaysFalse_merges.
  - by apply alwaysTrue_merges.
  - apply isNull_merges.
  - destruct g as [| | | |? ?|o|o|o|o|o|o|o];
      try (apply swap_merges; [exact Hrec | exact Hmg | simpl; lia | reflexivity]);
      apply merges_intro; try done; eexists; (split; [done|]); try (by split); by apply (nullOrFalse_means false).
  - destruct g as [| | | |? ?|o|o|o|o|o|o|o];
      try (apply swap_merges; [exact Hrec | exact Hmg | simpl; lia | reflexivity]);
      try (by destruct Hc1).
    + by apply (isNotNull_merges rec (BoolValue _ _)).
    + apply boolValue_merges.
  - by eapply br_merges.
  - by eapply nbr_merges.
  - by eapply ht_merges.
  - by eapply bm_merges.
  - by apply negatedLists_merges.
  - by apply negatedLists_merges.
  - by eapply mr_merges.
Qed.

Lemma mergeWithFuel_merges n f g :
  (rank f g ≤ n)%nat → mergeable f g → merges (mergeWithFuel n) f g.
Proof.
  revert f g; induction n as [|n IH]; intros f g Hn Hmg; [pose proof (rank_le_3 f g); lia|].
  apply mergeStep_merges; [|done]. intros f' g' Hr Hm'. apply IH; [lia | done].
Qed.

(** ** Properties *)


Definition sample_range : Filter := FBigintRange (newBigintRange 4 10 true).
Definition sample_negated : Filter := FNegatedBigintRange (newNegatedBigintRange 9 12 true).


(** The mutual dispatch of [mergeWith] between the filter classes
    terminates for every pair of filters: the function with three nested
    calls allowed satisfies the recursive equation of the code, and allowing
    more calls changes nothing. *)
Theorem mergeWith_fuel_enough f g :
  mergeWith f g = mergeStep mergeWith f g ∧
  ∀ n, (3 ≤ n)%nat → mergeWithFuel n f g = mergeWith f g.
Proof.
  pose proof (rank_le_3 f g). split.
  - unfold mergeWith. rewrite (mergeWithFuel_stable f g 3 4) by lia. done.
  - intros n Hn. apply mergeWithFuel_stable; lia.
Qed.

(** The factories choose a representation that means the list: on
    distinct values [createBigintValues] returns a well-formed filter that
    passes exactly the listed values, [createNegatedBigintValues] one that
    passes exactly the others, whichever of the range, bitmask and hash-table
    representations is chosen. *)
Theorem createBigintValues_correct values nullAllowed :
  Forall is_int64 values → NoDup values → Z.of_nat (length values) * 5 < 2 ^ 32 →
  ∃ p n, createBigintValues values nullAllowed = Ok p ∧
    createNegatedBigintValues values nullAllowed = Ok n ∧
    wf p ∧ wf n ∧ testNull p = nullAllowed ∧ testNull n = nullAllowed ∧
    ∀ v, is_int64 v → testInt64 p v = Ok (bool_decide (v ∈ values)) ∧
      testInt64 n v = Ok (negb (bool_decide (v ∈ values))).
Proof.
  intros Hi Hnd Hlen.
  destruct (createBigintValuesFilter_means values nullAllowed false Hi Hnd Hlen) as (p & Hp & [Hwp _ Hnp Hap]).
  destruct (createBigintValuesFilter_means values nullAllowed true Hi Hnd Hlen) as (n & Hn & [Hwn _ Hnn Han]).
  exists p, n. split_and!; [done..|]. intros v Hv. rewrite !testInt64_spec by done.
  by rewrite Hap, Han.
Qed.

Lemma createBigintValues_correct_witness :
  ∃ p n, createBigintValues [3; 8; 100003] false = Ok p ∧
    createNegatedBigintValues [3; 8; 100003] false = Ok n ∧
    testInt64 p 8 = Ok true ∧ testInt64 p 4 = Ok false ∧ testInt64 n 4 = Ok true.
Proof.
  destruct (createBigintValues_correct [3; 8; 100003] false) as (p & n & Hp & Hn & _ & _ & _ & _ & Ha).
  - repeat constructor; unfold_ints; lia.
  - apply (bool_decide_unpack _). vm_compute. exact I.
  - simpl. lia.
  - exists p, n. split; [exact Hp|]. split; [exact Hn|].
    destruct (Ha 8) as [H8 _]; [unfold_ints; lia|]. destruct (Ha 4) as [H4 H4n]; [unfold_ints; lia|].
    rewrite H8, H4, H4n. split_and!; vm_compute; reflexivity.
Defined.

(** Merging an IN-list with a range can let values through that neither
    lists: the copies of the last hash-table cell in the padding are counted
    as further values, so the count looks contiguous and a range is built.
    Here the list 3, 8, 100003 merged with the range [3..8] passes 4. *)
Theorem merge_counts_padding :
  ∃ f r, createBigintValues [3; 8; 100003] false = Ok f ∧
    mergeWith f (FBigintRange (newBigintRange 3 8 false)) = Ok r ∧
    testInt64 f 4 = Ok false ∧ testInt64 r 4 = Ok true.
Proof.
  set (get := λ o : outcome Filter, match o with Ok f => f | _ => AlwaysTrue end).
  exists (get (createBigintValues [3; 8; 100003] false)).
  exists (get (mergeWith (get (createBigintValues [3; 8; 100003] false))
                 (FBigintRange (newBigintRange 3 8 false)))).
  split_and!; vm_compute; reflexivity.
Qed.

(** A negated list kept as a bitmask of 2^31 bits or more cannot be merged with
    another one: the index that walks over the bits is an [int]. *)
Theorem large_mask_overflows b o :
  int32_max < Z.of_nat (length (bitmask_ (nbm_nonNegated_ b))) →
  mergeWith (FNegatedBigintValuesUsingBitmask b) (FNegatedBigintValuesUsingBitmask o) = Undefined.
Proof.
  intros H. assert (nbm_values b = Undefined) as E.
  { unfold nbm_values, bm_values, intLoop. by rewrite (proj2 (Z.leb_gt _ _) H). }
  unfold mergeWith. cbn [mergeWithFuel mergeStep nbm_mergeWith]. by rewrite E.
Qed.

Lemma mapM_o_throws {A B} (h : A → outcome B) e l x :
  (∀ y, (∃ b, h y = Ok b) ∨ h y = Throw e) → x ∈ l → h x = Throw e → mapM_o h l = Throw e.
Proof.
  intros H Hin Hx. induction l as [|y l IH]; [by apply not_elem_of_nil in Hin|].
  simpl. apply elem_of_cons in Hin as [->|Hin]; [by rewrite Hx|].
  destruct (H y) as [(b & ->)| ->]; [|done]. simpl. by rewrite IH.
Qed.

(** The null flags of the ranges inside a multi-range are not ignored: a
    range that allows null and misses one inner range that allows null makes
    the merge fail its check, whatever the flag of the multi-range itself. *)
Theorem inner_null_flag_fails r m o :
  br_nullAllowed_ r = true → o ∈ ranges_ m → br_nullAllowed_ o = true →
  upper_ r < lower_ o →
  mergeWith (FBigintRange r) (FBigintMultiRange m) = Throw VeloxCheckFailed.
Proof.
  intros Hr Hin Ho Hlt. unfold mergeWith. simpl.
  rewrite (mapM_o_throws _ VeloxCheckFailed _ o); [done | | done |].
  - intros x. destruct (_ <=? _); [by left; eexists|].
    destruct (_ && _); [by right | by left; eexists].
  - rewrite Hr, Ho. destruct (Z.leb_spec (Z.max (lower_ r) (lower_ o)) (Z.min (upper_ r) (upper_ o)));
      [lia | done].
Qed.

Lemma inner_null_flag_fails_witness :
  mergeWith (FBigintRange (newBigintRange 0 5 true))
    (FBigintMultiRange (mkMultiRange false [newBigintRange 1 2 true; newBigintRange 8 9 true] [1; 8])) =
  Throw VeloxCheckFailed.
Proof.
  apply (inner_null_flag_fails _ _ (newBigintRange 8 9 true)); simpl; [reflexivity | | reflexivity | lia].
  apply list_elem_of_further, list_elem_of_here.
Defined.
