(* ===== verification/CFloat.v ===== *)
(** * C++ floating point

    [float] and [double] are the IEEE 754 formats binary32 and binary64 with
    round-to-nearest-even, as computed by the Standard Library's executable
    [SpecFloat].  The conversions are the C++ ones: to an integer by
    truncation, undefined when the value does not fit. *)
From Stdlib Require Import SpecFloat.
From S2P Require Import Prelude.
Local Open Scope Z_scope.




Definition f32_zero : spec_float := S754_zero false.

(** Nearest binary32 or binary64 value of an integer. *)
Definition f32_of_Z (z : Z) : spec_float := binary_normalize 24 128 z 0 false.
Definition f64_of_Z (z : Z) : spec_float := binary_normalize 53 1024 z 0 false.

Definition f32_add : spec_float → spec_float → spec_float := SFadd 24 128.
Definition f32_mul : spec_float → spec_float → spec_float := SFmul 24 128.
Definition f64_add : spec_float → spec_float → spec_float := SFadd 53 1024.
Definition f64_mul : spec_float → spec_float → spec_float := SFmul 53 1024.
Definition f64_div : spec_float → spec_float → spec_float := SFdiv 53 1024.

(** Conversions between the two formats. *)
Definition f64_to_f32 (x : spec_float) : spec_float :=
  match x with S754_finite s m e => binary_round 24 128 s m e | _ => x end.
Definition f32_to_f64 (x : spec_float) : spec_float :=
  match x with S754_finite s m e => binary_round 53 1024 s m e | _ => x end.

(** Truncation toward zero; no integer for an infinity or a NaN. *)
Definition float_trunc (x : spec_float) : option Z :=
  match x with
  | S754_zero _ => Some 0
  | S754_finite s m e =>
      let a := Z.shiftl (Z.pos m) e in Some (if s then - a else a)
  | _ => None
  end.

Definition float_to_int32 (x : spec_float) : outcome Z :=
  match float_trunc x with
  | Some z => if int32b z then Ok z else Undefined
  | None => Undefined
  end.

Definition float_lt (x y : spec_float) : bool := SFltb x y.

#[global] Instance spec_float_eq_dec : EqDecision spec_float.
Proof. solve_decision. Defined.

(** The order of the floats is transitive, NaN being below and above
    nothing. *)
Lemma float_lt_trans x y z : float_lt x y = true → float_lt y z = true → float_lt x z = true.
Proof.
  unfold float_lt, SFltb, SFcompare.
  destruct x as [[]|[]| |[] mx ex], y as [[]|[]| |[] my ey], z as [[]|[]| |[] mz ez]; try done;
    destruct (Z.compare_spec ex ey), (Z.compare_spec ey ez), (Z.compare_spec ex ez); try done; try lia;
    rewrite ?Pos.compare_cont_spec; cbn [Pos.switch_Eq CompOpp];
    destruct (Pos.compare_spec mx my), (Pos.compare_spec my mz), (Pos.compare_spec mx mz);
    try done; lia.
Qed.

Lemma float_lt_irrefl x : float_lt x x = false.
Proof.
  unfold float_lt, SFltb, SFcompare. destruct x as [[]|[]| |[] m e]; try done;
    rewrite Z.compare_refl, Pos.compare_cont_spec, Pos.compare_refl; done.
Qed.
