(* ===== verification/Text.v ===== *)
(** * Text of expressions

    Models the string functions of [velox/optimizer/Helper.h] and
    [velox/optimizer/CataLog.h] with which the optimizer takes printed
    expressions apart: [splitString], [extractExprWithinTarget],
    [escapeRegex], [replaceDoubleQuotes], [trim], [parseDLExpressions],
    [parseInnerExpressions] and [containsStrButNotEqual].  A [std::string] is
    the list of its characters; a position is a [nat], with [npos] written
    out where the code computes with it. *)
From Stdlib Require Import Ascii String.
From S2P Require Import Prelude.
Local Open Scope nat_scope.
Local Open Scope list_scope.

Abbreviation text := (list ascii).
Definition txt (s : string) : text := list_ascii_of_string s.

Definition open_paren : ascii := "("%char.
Definition close_paren : ascii := ")"%char.

(** ** The members of [std::string] the code uses *)

(** Position of the first, or of the last, character with a property. *)
Fixpoint find_first (p : ascii → bool) (s : text) : option nat :=
  match s with
  | [] => None
  | c :: s' => if p c then Some 0 else S <$> find_first p s'
  end.

Fixpoint find_last (p : ascii → bool) (s : text) : option nat :=
  match s with
  | [] => None
  | c :: s' => match find_last p s' with
               | Some i => Some (S i)
               | None => if p c then Some 0 else None
               end
  end.

Definition is_char (c d : ascii) : bool := bool_decide (c = d).

Fixpoint prefixb (p s : text) : bool :=
  match p, s with
  | [], _ => true
  | c :: p', d :: s' => is_char c d && prefixb p' s'
  | _ :: _, [] => false
  end.

(** [source.find(target)]. *)
Fixpoint find_sub (target source : text) : option nat :=
  if prefixb target source then Some 0
  else match source with
       | [] => None
       | _ :: source' => S <$> find_sub target source'
       end.

(** [s.substr(pos, n)] for [pos] within the string. *)
Definition substr (s : text) (pos n : nat) : text := take n (drop pos s).

(** ** [splitString]: [std::getline] with a delimiter *)
Fixpoint getlines (delimiter : ascii) (acc : text) (s : text) : list text :=
  match s with
  | [] => match acc with [] => [] | _ => [acc] end
  | c :: s' =>
      if is_char c delimiter then acc :: getlines delimiter [] s'
      else getlines delimiter (acc ++ [c]) s'
  end.

Definition splitString (str : text) (delimiter : ascii) : list text :=
  getlines delimiter [] str.

(** ** [extractExprWithinTarget] *)

(** The [for] from [i]: the position of the parenthesis that closes the one
    before. *)
Fixpoint closingFrom (s : text) (i count : nat) : option nat :=
  match s with
  | [] => None
  | c :: s' =>
      if is_char c open_paren then closingFrom s' (S i) (S count)
      else if is_char c close_paren then
        match count with
        | 0 => Some i
        | S count' => closingFrom s' (S i) count'
        end
      else closingFrom s' (S i) count
  end.

(** When there is no parenthesis after the target, [start_pos] is [npos] and
    [start_pos + 1] wraps to 0: the scan starts at the beginning. *)
Definition extractExprWithinTarget (source target : text) : text :=
  match find_sub target source with
  | None => []
  | Some pos =>
      let first := match find_first (λ c, is_char c open_paren) (drop pos source) with
                   | Some d => S (pos + d)
                   | None => 0
                   end in
      match closingFrom (drop first source) first 0 with
      | Some i => substr source first (i - first)
      | None => []
      end
  end.

(** ** [escapeRegex] and [replaceDoubleQuotes] *)
Definition special : text := txt "\[](){}+*?.^$|".

Definition escapeRegex (str : text) : text :=
  concat (map (λ c, if bool_decide (c ∈ special) then ["\"%char; c] else [c]) str).

Definition double_quote : ascii := Ascii.ascii_of_nat 34.

Definition replaceDoubleQuotes (str : text) : text :=
  map (λ ch, if is_char ch double_quote then "'"%char else ch) str.

(** ** [trim] *)
Definition whitespace : text := [" "%char; Ascii.ascii_of_nat 9; Ascii.ascii_of_nat 10; Ascii.ascii_of_nat 13].
Definition not_space (c : ascii) : bool := negb (bool_decide (c ∈ whitespace)).

Definition trim (str : text) : text :=
  match find_first not_space str, find_last not_space str with
  | Some first, Some last => substr str first (last - first + 1)
  | _, _ => []
  end.

(** ** [parseDLExpressions] *)

(** One call: the two strings it appends and the inner expression.  When the
    last [)] comes before the first [(] the length argument of [substr] wraps
    around and the rest of the string is taken. *)
Definition parseDLStep (input : text) : option (text * text * text) :=
  match find_first (λ c, is_char c open_paren) input,
        find_last (λ c, is_char c close_paren) input with
  | Some openParen, Some closeParen =>
      let funcName := trim (substr input 0 openParen) in
      let inner := if openParen <? closeParen
                   then substr input (S openParen) (closeParen - openParen - 1)
                   else drop (S openParen) input in
      Some (funcName, trim input, trim inner)
  | _, _ => None
  end.

Fixpoint parseDLExpressions (fuel : nat) (input : text) : outcome (list text * list text) :=
  match fuel with
  | O => Throw OutOfFuel
  | S fuel' =>
      match parseDLStep input with
      | None => Ok ([], [])
      | Some (funcName, whole, inner) =>
          '(parsedSingleExpr, matchedExpr) ← parseDLExpressions fuel' inner;
          Ok (funcName :: parsedSingleExpr, whole :: matchedExpr)
      end
  end.

(** ** [parseInnerExpressions] *)
Record parens := mkParens { parenStack : list Z; maxDepthCloseIdx : Z; depth : Z }.

Definition parenStep (st : parens) (i : Z) (c : ascii) : parens :=
  if is_char c open_paren then
    mkParens (parenStack st ++ [i]) (maxDepthCloseIdx st) (depth st + 1)%Z
  else if is_char c close_paren then
    mkParens (parenStack st) (if (maxDepthCloseIdx st <? 0)%Z then i else maxDepthCloseIdx st)
      (depth st - 1)%Z
  else st.

(** The [for] over the positions of the input, from [i]. *)
Fixpoint scanFrom (i : Z) (s : text) (st : parens) : parens :=
  match s with
  | [] => st
  | c :: s' => scanFrom (i + 1) s' (parenStep st i c)
  end.

Definition scanParens (input : text) : parens :=
  scanFrom 0 input (mkParens [-1]%Z (-1)%Z 0%Z).

(** [input.substr(pos, n)] with [int] arguments: a negative length converts to
    a huge one and takes the rest. *)
Definition substrZ (s : text) (pos n : Z) : text :=
  if (n <? 0)%Z then drop (Z.to_nat pos) s else substr s (Z.to_nat pos) (Z.to_nat n).

(** The result: [None] for [false], else [funcName] and
    [innermostExpression]. *)
Definition parseInnerExpressions (input : text) : option (text * text) :=
  let st := scanParens input in
  if (depth st =? 0)%Z then
    let len := length (parenStack st) in
    if (1 <? len) && (0 <? maxDepthCloseIdx st)%Z then
      let before := parenStack st !!! (len - 2) in
      let last := parenStack st !!! (len - 1) in
      Some (trim (substrZ input (before + 1) (last - before - 1)),
            trim (substrZ input (before + 1) (maxDepthCloseIdx st - before)))
    else None
  else None.

Definition containsStrButNotEqual (str subStr : text) : bool :=
  match find_sub subStr str with
  | Some _ => negb (bool_decide (str = subStr))
  | None => false
  end.

(** ** Splitting *)
Fixpoint joinWith (delimiter : ascii) (tokens : list text) : text :=
  match tokens with
  | [] => []
  | [t] => t
  | t :: ts => t ++ delimiter :: joinWith delimiter ts
  end.

Lemma is_char_true c d : is_char c d = true ↔ c = d.
Proof. apply bool_decide_eq_true. Qed.

Lemma is_char_refl c : is_char c c = true.
Proof. by apply is_char_true. Qed.

Lemma is_char_false c d : c ≠ d → is_char c d = false.
Proof. intros. by apply bool_decide_eq_false. Qed.

Lemma getlines_token d acc t s : d ∉ t → getlines d acc (t ++ s) = getlines d (acc ++ t) s.
Proof.
  revert acc; induction t as [|c t IH]; intros acc Hd; simpl; [by rewrite app_nil_r|].
  apply not_elem_of_cons in Hd as [Hne Hd]. rewrite is_char_false by done.
  rewrite IH by done. by rewrite <- app_assoc.
Qed.

Lemma splitString_join_gen d tokens :
  Forall (λ t, d ∉ t) tokens → last tokens ≠ Some [] →
  splitString (joinWith d tokens) d = tokens.
Proof.
  unfold splitString. induction 1 as [|t ts Hd Hts IH]; intros Hlast; [done|].
  destruct ts as [|t' ts].
  - simpl. rewrite <- (app_nil_r t) at 1. rewrite getlines_token by done. simpl.
    destruct t; [by destruct Hlast | done].
  - change (joinWith d (t :: t' :: ts)) with (t ++ d :: joinWith d (t' :: ts)).
    rewrite getlines_token by done. simpl getlines at 1. rewrite is_char_refl.
    f_equal. apply IH. done.
Qed.

(** ** Balanced parentheses *)
Inductive balanced : text → Prop :=
| balanced_nil : balanced []
| balanced_char c b : c ≠ open_paren → c ≠ close_paren → balanced b → balanced (c :: b)
| balanced_paren b1 b2 :
    balanced b1 → balanced b2 → balanced (open_paren :: b1 ++ close_paren :: b2).

Lemma closingFrom_balanced b : balanced b → ∀ s i n,
  closingFrom (b ++ s) i n = closingFrom s (i + length b) n.
Proof.
  induction 1 as [|c b Ho Hc Hb IH|b1 b2 Hb1 IH1 Hb2 IH2]; intros s i n.
  - simpl. f_equal. lia.
  - simpl. rewrite !is_char_false by done. rewrite IH. f_equal. lia.
  - simpl. rewrite <- app_assoc, IH1. simpl. rewrite IH2, length_app. simpl. f_equal. lia.
Qed.

Lemma find_first_app p a s : Forall (λ c, p c = false) a →
  find_first p (a ++ s) = (λ i, length a + i) <$> find_first p s.
Proof.
  induction 1 as [|c a Hc _ IH]; simpl; [by destruct (find_first p s)|].
  rewrite Hc, IH. by destruct (find_first p s).
Qed.

Lemma no_open_false a : open_paren ∉ a → Forall (λ c, is_char c open_paren = false) a.
Proof.
  intros H. apply Forall_forall. intros c Hc. apply is_char_false. by intros ->.
Qed.

Lemma drop_length_app (a b : text) n : n = length a → drop n (a ++ b) = b.
Proof. intros ->. by rewrite drop_app_length. Qed.

Lemma take_length_app (a b : text) n : n = length a → take n (a ++ b) = a.
Proof. intros ->. by rewrite take_app_length. Qed.

Lemma extract_gen pre head body post target :
  open_paren ∉ head → balanced body →
  find_sub target (pre ++ head ++ open_paren :: body ++ close_paren :: post) = Some (length pre) →
  extractExprWithinTarget (pre ++ head ++ open_paren :: body ++ close_paren :: post) target = body.
Proof.
  intros Hh Hb Hf. unfold extractExprWithinTarget. rewrite Hf, (drop_length_app pre _ (length pre)) by done.
  rewrite find_first_app by (by apply no_open_false). simpl. rewrite Nat.add_0_r.
  set (first := S (length pre + length head)).
  assert (drop first (pre ++ head ++ open_paren :: body ++ close_paren :: post) =
          body ++ close_paren :: post) as Hd.
  { replace (pre ++ head ++ open_paren :: body ++ close_paren :: post)
      with ((pre ++ head ++ [open_paren]) ++ body ++ close_paren :: post)
      by (simplify_list_eq; done).
    apply drop_length_app. rewrite !length_app. simpl. unfold first. lia. }
  rewrite Hd, closingFrom_balanced by done. simpl. unfold substr. rewrite Hd.
  apply take_length_app. lia.
Qed.

(** ** Trimming *)
Lemma find_last_snoc p s c : p c = true → find_last p (s ++ [c]) = Some (length s).
Proof. intros Hc. induction s as [|d s IH]; simpl; [by rewrite Hc | by rewrite IH]. Qed.

Lemma length_trim s : length (trim s) ≤ length s.
Proof.
  unfold trim, substr. destruct (find_first not_space s), (find_last not_space s); simpl; try lia.
  rewrite length_take, length_drop. lia.
Qed.

(** Text that neither starts nor ends with white space. *)
Definition trimmed (s : text) : Prop :=
  s = [] ∨ (∃ c t, s = c :: t ∧ not_space c = true) ∧ (∃ t c, s = t ++ [c] ∧ not_space c = true).

Lemma trim_trimmed s : trimmed s → trim s = s.
Proof.
  intros [->|[(c & t & E & Hc) (t' & c' & E' & Hc')]]; [done|]. unfold trim.
  assert (find_first not_space s = Some 0) as -> by (rewrite E; simpl; by rewrite Hc).
  assert (find_last not_space s = Some (length t')) as -> by (rewrite E'; by apply find_last_snoc).
  unfold substr. rewrite drop_0, E', take_ge; [done|]. rewrite length_app. simpl. lia.
Qed.

(** ** Nested calls *)
Fixpoint render (names : list text) (arg : text) : text :=
  match names with
  | [] => arg
  | f :: fs => f ++ open_paren :: render fs arg ++ [close_paren]
  end.

(** The calls from each name inwards. *)
Fixpoint calls (names : list text) (arg : text) : list text :=
  match names with
  | [] => []
  | _ :: fs => render names arg :: calls fs arg
  end.

Definition plain (s : text) : Prop := open_paren ∉ s ∧ close_paren ∉ s ∧ trimmed s.

Lemma trimmed_call f s : trimmed f → trimmed (f ++ open_paren :: s ++ [close_paren]).
Proof.
  intros Hf. right. split.
  - destruct Hf as [->|[(c & t & -> & Hc) _]]; [by eexists _, _|]. by eexists _, _.
  - exists (f ++ open_paren :: s), close_paren. split; [by rewrite <- app_assoc | done].
Qed.

Lemma trimmed_render names arg : Forall plain names → plain arg → trimmed (render names arg).
Proof.
  intros Hn (_ & _ & Ha). destruct Hn as [|f fs (_ & _ & Hf) Hfs]; [done|].
  by apply trimmed_call.
Qed.

Lemma parseDLStep_call f s :
  plain f → trimmed s →
  parseDLStep (f ++ open_paren :: s ++ [close_paren]) =
    Some (f, f ++ open_paren :: s ++ [close_paren], s).
Proof.
  intros (Hfo & _ & Hft) Hs. unfold parseDLStep.
  rewrite find_first_app by (by apply no_open_false). simpl. rewrite Nat.add_0_r.
  replace (f ++ open_paren :: s ++ [close_paren]) with ((f ++ open_paren :: s) ++ [close_paren])
    by (by rewrite <- app_assoc).
  rewrite find_last_snoc by apply is_char_refl. rewrite length_app. simpl length.
  destruct (Nat.ltb_spec (length f) (length f + S (length s))); [|lia].
  rewrite (trim_trimmed (_ ++ _)).
  2: { rewrite <- app_assoc. by apply trimmed_call. }
  unfold substr. rewrite drop_0, <- app_assoc, take_app_length, (trim_trimmed f) by done. simpl.
  replace (f ++ open_paren :: s ++ [close_paren]) with ((f ++ [open_paren]) ++ s ++ [close_paren])
    by (by rewrite <- app_assoc).
  rewrite (drop_length_app (f ++ [open_paren])) by (rewrite length_app; simpl; lia).
  rewrite take_length_app by lia. by rewrite trim_trimmed.
Qed.

Lemma parseDLStep_plain s : open_paren ∉ s → parseDLStep s = None.
Proof.
  intros H. unfold parseDLStep. rewrite <- (app_nil_r s) at 1.
  by rewrite find_first_app by (by apply no_open_false).
Qed.

Lemma parseDL_nested names arg fuel :
  Forall plain names → plain arg → length names < fuel →
  parseDLExpressions fuel (render names arg) = Ok (names, calls names arg).
Proof.
  intros Hn Ha. revert fuel; induction Hn as [|f fs Hf Hfs IH]; intros [|fuel] Hlt; simpl in Hlt; try lia.
  - simpl. by rewrite parseDLStep_plain by apply Ha.
  - cbn [parseDLExpressions]. cbn [render].
    rewrite parseDLStep_call; [|done | by apply trimmed_render].
    rewrite IH by lia. done.
Qed.

Lemma parseDLStep_shorter input f w inner :
  parseDLStep input = Some (f, w, inner) → length inner < length input.
Proof.
  unfold parseDLStep. destruct (find_first _ input) as [o|] eqn:Eo; [|done].
  destruct (find_last _ input) as [c|]; [|done]. intros [= _ _ <-].
  assert (o < length input) as Ho.
  { clear -Eo. revert o Eo. induction input as [|d s IH]; intros o; simpl; [done|].
    destruct (is_char d open_paren); [intros [= <-]; lia|].
    destruct (find_first _ s) as [o'|]; simpl; [|done]. intros [= <-]. specialize (IH o' eq_refl). lia. }
  eapply Nat.le_lt_trans; [apply length_trim|].
  unfold substr. destruct (o <? c); rewrite ?length_take, length_drop; lia.
Qed.

Lemma parseDL_total input fuel : length input < fuel → ∃ r, parseDLExpressions fuel input = Ok r.
Proof.
  revert input; induction fuel as [|fuel IH]; intros input Hlt; [lia|]. simpl.
  destruct (parseDLStep input) as [[[f w] inner]|] eqn:E; [|by eexists].
  apply parseDLStep_shorter in E. destruct (IH inner) as ([a b] & ->); [lia|]. by eexists.
Qed.

(** ** Escaping *)

(** What a regular expression without operators matches: a backslash stands
    for the character after it. *)
Fixpoint unescape (s : text) : text :=
  match s with
  | [] => []
  | c :: s' =>
      if is_char c "\"%char then match s' with d :: s'' => d :: unescape s'' | [] => [] end
      else c :: unescape s'
  end.

Lemma unescape_escape str : unescape (escapeRegex str) = str.
Proof.
  induction str as [|c str IH]; [done|]. unfold escapeRegex in *. simpl.
  destruct (bool_decide_reflect (c ∈ special)) as [|Hn]; simpl; [by rewrite IH|].
  rewrite is_char_false; [by rewrite IH|]. intros ->. apply Hn.
  apply (bool_decide_unpack _). by vm_compute.
Qed.

(** ** The innermost call *)
Lemma scanFrom_app i a b st : scanFrom i (a ++ b) st = scanFrom (i + Z.of_nat (length a)) b (scanFrom i a st).
Proof.
  revert i st; induction a as [|c a IH]; intros i st; simpl; [by rewrite Z.add_0_r|].
  rewrite IH. f_equal. lia.
Qed.

Lemma scanFrom_plain i s st : open_paren ∉ s → close_paren ∉ s → scanFrom i s st = st.
Proof.
  revert i; induction s as [|c s IH]; intros i Ho Hc; [done|].
  apply not_elem_of_cons in Ho as [Ho Ho']. apply not_elem_of_cons in Hc as [Hc Hc'].
  simpl. assert (parenStep st i c = st) as -> by (unfold parenStep; by rewrite !is_char_false).
  by apply IH.
Qed.

Definition opened (names : list text) : text := concat (map (λ f, f ++ [open_paren]) names).

Lemma render_snoc names f arg :
  render (names ++ [f]) arg =
  opened names ++ f ++ open_paren :: arg ++ close_paren :: replicate (length names) close_paren.
Proof.
  induction names as [|g names IH]; [done|].
  change (length (g :: names)) with (S (length names)). rewrite replicate_S_end.
  change (opened (g :: names)) with ((g ++ [open_paren]) ++ opened names).
  cbn [render app]. rewrite IH. repeat (rewrite <- app_assoc; cbn [app]). done.
Qed.

Lemma scan_opened names i stk d :
  Forall plain names →
  ∃ stk', scanFrom i (opened names) (mkParens (stk ++ [i - 1]%Z) (-1) d) =
    mkParens (stk' ++ [i + Z.of_nat (length (opened names)) - 1]%Z) (-1)
      (d + Z.of_nat (length names)).
Proof.
  intros Hn. revert i stk d; induction Hn as [|f fs (Ho & Hc & _) _ IH]; intros i stk d.
  { exists stk. unfold opened. simpl. f_equal; [|lia]. do 2 f_equal. lia. }
  unfold opened. simpl. fold (opened fs). rewrite <- app_assoc, scanFrom_app, (scanFrom_plain _ f) by done. simpl.
  destruct (IH (i + Z.of_nat (length f) + 1)%Z (stk ++ [i - 1]%Z) (d + 1)%Z) as (stk' & Hs).
  exists stk'. unfold parenStep. rewrite is_char_refl. simpl.
  replace (i + Z.of_nat (length f) + 1 - 1)%Z with (i + Z.of_nat (length f))%Z in Hs by lia.
  rewrite Hs. rewrite !length_app. simpl. f_equal; [|lia]. do 2 f_equal. lia.
Qed.

Lemma scan_closers n i stk c d : (0 ≤ c)%Z →
  scanFrom i (replicate n close_paren) (mkParens stk c d) = mkParens stk c (d - Z.of_nat n).
Proof.
  intros Hc. revert i d; induction n as [|n IH]; intros i d; simpl; [f_equal; lia|].
  unfold parenStep at 1. simpl. destruct (Z.ltb_spec c 0); [lia|]. rewrite IH. f_equal. lia.
Qed.

Lemma parseInner_nested names f arg :
  Forall plain names → plain f → plain arg →
  parseInnerExpressions (render (names ++ [f]) arg) = Some (f, render [f] arg).
Proof.
  intros Hn (Hfo & Hfc & Hft) (Hao & Hac & Hat). rewrite render_snoc. unfold parseInnerExpressions, scanParens.
  destruct (scan_opened names 0 [] 0 Hn) as (stk & Hs). cbn [app] in Hs.
  change (0 - 1)%Z with (-1)%Z in Hs.
  set (P := opened names) in *. set (n := Z.of_nat (length P)) in *.
  set (input := P ++ f ++ open_paren :: arg ++ close_paren :: replicate (length names) close_paren).
  assert (scanFrom 0 input (mkParens [-1]%Z (-1) 0) =
          mkParens ((stk ++ [n - 1]%Z) ++ [n + Z.of_nat (length f)]%Z)
            (n + Z.of_nat (length f) + 1 + Z.of_nat (length arg)) 0) as ->.
  { unfold input. rewrite scanFrom_app, Hs. fold n. rewrite !Z.add_0_l.
    rewrite scanFrom_app, (scanFrom_plain _ f) by done. simpl. unfold parenStep at 1. rewrite is_char_refl. simpl.
    rewrite scanFrom_app, (scanFrom_plain _ arg) by done. simpl. unfold parenStep at 1. simpl.
    rewrite scan_closers by lia. f_equal. lia. }
  simpl. rewrite !length_app. simpl.
  destruct ((1 <? length stk + 1 + 1) && (0 <? _)%Z) eqn:Eg.
  2: { apply andb_false_iff in Eg as [?%Nat.ltb_ge | ?%Z.ltb_ge]; lia. }
  assert (∀ x : Z, ((stk ++ [n - 1]%Z) ++ [x]) !!! (length stk + 1 + 1 - 2) = (n - 1)%Z) as ->.
  { intros x. rewrite <- app_assoc. apply list_lookup_total_middle. lia. }
  assert (∀ x : Z, ((stk ++ [n - 1]%Z) ++ [x]) !!! (length stk + 1 + 1 - 1) = x) as ->.
  { intros x. apply list_lookup_total_middle. rewrite length_app. simpl. lia. }
  unfold substrZ. destruct (Z.ltb_spec (n + Z.of_nat (length f) - (n - 1) - 1) 0); [lia|].
  destruct (Z.ltb_spec (n + Z.of_nat (length f) + 1 + Z.of_nat (length arg) - (n - 1)) 0); [lia|].
  unfold substr, input. rewrite (drop_length_app P) by (unfold n; lia).
  rewrite take_length_app by lia. rewrite (trim_trimmed f) by done. do 2 f_equal.
  replace (f ++ open_paren :: arg ++ close_paren :: replicate (length names) close_paren)
    with (render [f] arg ++ replicate (length names) close_paren)
    by (simpl; rewrite <- app_assoc; simpl; by rewrite <- app_assoc).
  rewrite take_length_app by (simpl; rewrite length_app; simpl; rewrite length_app; simpl; lia).
  by apply trim_trimmed, trimmed_call.
Qed.

(** ** Properties *)

(** Splitting is the inverse of joining: tokens without the delimiter,
    the last one not empty, are found again by [splitString] in the text that
    joins them. *)
Theorem splitString_join delimiter tokens :
  Forall (λ t, delimiter ∉ t) tokens → last tokens ≠ Some [] →
  splitString (joinWith delimiter tokens) delimiter = tokens.
Proof. apply splitString_join_gen. Qed.

Lemma splitString_join_witness :
  splitString (txt "Action||Science Fiction") "|"%char = [txt "Action"; []; txt "Science Fiction"].
Proof.
  apply (splitString_join "|"%char [txt "Action"; []; txt "Science Fiction"]);
    [|vm_compute; discriminate].
  repeat constructor; apply (bool_decide_unpack _); vm_compute; exact I.
Defined.

(** [extractExprWithinTarget] returns the argument text of the first
    occurrence of the target: everything up to the parenthesis that closes
    the one after the target, for arguments with nested calls of any depth. *)
Theorem extractExprWithinTarget_correct pre head body post target :
  open_paren ∉ head → balanced body →
  find_sub target (pre ++ head ++ open_paren :: body ++ close_paren :: post) = Some (length pre) →
  extractExprWithinTarget (pre ++ head ++ open_paren :: body ++ close_paren :: post) target = body.
Proof. apply extract_gen. Qed.

Lemma extractExprWithinTarget_correct_witness :
  extractExprWithinTarget (txt "softmax(relu(add(x)), z)") (txt "relu") = txt "add(x)".
Proof.
  apply (extractExprWithinTarget_correct (txt "softmax(") (txt "relu") (txt "add(x)") (txt ", z)")).
  - apply (bool_decide_unpack _). vm_compute. exact I.
  - do 3 (apply balanced_char; [discriminate | discriminate |]).
    apply (balanced_paren [Ascii.ascii_of_nat 120] []); repeat constructor; discriminate.
  - reflexivity.
Defined.

(** On a chain of calls f1(f2(...fn(arg)...)) the recursive parser returns
    the function names from the outermost inwards and, for each, the text of
    its call; on every input it terminates within as many calls as the input
    has characters, plus one. *)
Theorem parseDLExpressions_nested names arg :
  (Forall plain names → plain arg →
   parseDLExpressions (S (length names)) (render names arg) = Ok (names, calls names arg)) ∧
  ∀ input, ∃ r, parseDLExpressions (S (length input)) input = Ok r.
Proof.
  split; [intros Hn Ha; apply parseDL_nested; (done || lia)|].
  intros input. apply parseDL_total. lia.
Qed.

Lemma plain_char c : c ≠ open_paren → c ≠ close_paren → not_space c = true → plain [c].
Proof.
  intros Ho Hc Hs. split_and!; [set_solver.. |]. right. split; [by exists c, [] | by exists [], c].
Qed.

Lemma parseDLExpressions_nested_witness :
  parseDLExpressions 3 (txt "f(g(x))") = Ok ([txt "f"; txt "g"], [txt "f(g(x))"; txt "g(x)"]).
Proof.
  apply (parseDLExpressions_nested [txt "f"; txt "g"] (txt "x"));
    [apply Forall_cons_2; [|apply Forall_cons_2; [|exact (Forall_nil_2 _)]]|];
    apply plain_char; (discriminate || reflexivity).
Defined.

(** [parseInnerExpressions] finds the innermost call of such a chain and
    its function name, whatever the depth. *)
Theorem parseInnerExpressions_nested names f arg :
  Forall plain names → plain f → plain arg →
  parseInnerExpressions (render (names ++ [f]) arg) = Some (f, render [f] arg).
Proof. apply parseInner_nested. Qed.

Lemma parseInnerExpressions_nested_witness :
  parseInnerExpressions (txt "f(g(x))") = Some (txt "g", txt "g(x)").
Proof.
  apply (parseInnerExpressions_nested [txt "f"] (txt "g") (txt "x"));
    [apply Forall_cons_2; [|exact (Forall_nil_2 _)]| |];
    apply plain_char; (discriminate || reflexivity).
Defined.

(** When a call has several calls among its arguments, the position of the
    last opening and of the first closing parenthesis belong to different
    calls and the result is no subexpression at all: for f(g(x),h(y)) the
    parser reports success with the function name x),h and the expression
    x). *)
Theorem parseInnerExpressions_siblings :
  parseInnerExpressions (txt "f(g(x),h(y))") = Some (txt "x),h", txt "x)").
Proof. reflexivity. Qed.

(** [escapeRegex] loses nothing: reading a backslash as "the next
    character literally" gives the original text back, for every text. *)
Theorem escapeRegex_roundtrip str : unescape (escapeRegex str) = str.
Proof. apply unescape_escape. Qed.
