(* ===== verification/BytesFilter.v ===== *)
(** * Pushdown filters on strings

    Models the part of [velox/type/Filter.h] and [velox/type/Filter.cpp] that
    filters string columns: [BytesRange], [NegatedBytesRange], [BytesValues],
    [NegatedBytesValues] and [MultiRange] next to the filters on nulls, with
    [clone], [testBytes], [testLength], [testBytesRange] and [mergeWith].  A
    string is the list of its bytes, compared as unsigned characters; the
    sizes are below 2^31, as the [int32_t] length of [testBytes] asks for. *)
From Stdlib Require Import Ascii String.
From S2P Require Import Prelude Text.
Local Open Scope Z_scope.

(** ** Comparing strings *)

(** [memcmp] on the common length; only the sign of the result is specified. *)
Fixpoint memcmp (lhs rhs : text) : Z :=
  match lhs, rhs with
  | c :: lhs', d :: rhs' =>
      if (nat_of_ascii c <? nat_of_ascii d)%nat then -1
      else if (nat_of_ascii d <? nat_of_ascii c)%nat then 1
      else memcmp lhs' rhs'
  | _, _ => 0
  end.

Definition compareRanges (lhs rhs : text) : Z :=
  let compare := memcmp lhs rhs in
  if negb (compare =? 0) then compare
  else Z.of_nat (length lhs) - Z.of_nat (length rhs).

Definition is_empty (s : text) : bool := match s with [] => true | _ => false end.

(** ** [BytesRange] *)
Record BytesRange := mkBytesRange {
  br_nullAllowed_ : bool;
  lowerUnbounded_ : bool;
  lowerExclusive_ : bool;
  upperUnbounded_ : bool;
  upperExclusive_ : bool;
  lower_ : text;
  upper_ : text;
  singleValue_ : bool
}.

Definition newBytesRange (lower : text) (lowerUnbounded lowerExclusive : bool)
    (upper : text) (upperUnbounded upperExclusive nullAllowed : bool) : outcome BytesRange :=
  velox_check (negb lowerUnbounded || negb upperUnbounded) ;;
  Ok (mkBytesRange nullAllowed lowerUnbounded lowerExclusive upperUnbounded upperExclusive lower upper
        (negb lowerExclusive && negb upperExclusive && negb lowerUnbounded && negb upperUnbounded &&
         bool_decide (lower = upper))).

(** The copying constructor [BytesRange(other, nullAllowed)]. *)
Definition br_withNull (r : BytesRange) (nullAllowed : bool) : BytesRange :=
  mkBytesRange nullAllowed (lowerUnbounded_ r) (lowerExclusive_ r) (upperUnbounded_ r)
    (upperExclusive_ r) (lower_ r) (upper_ r) (singleValue_ r).

Definition br_testBytes (r : BytesRange) (value : text) : bool :=
  if is_empty value then
    if lowerUnbounded_ r then negb (is_empty (upper_ r)) || negb (upperExclusive_ r)
    else is_empty (lower_ r) && negb (lowerExclusive_ r)
  else if singleValue_ r then
    if negb (length value =? length (lower_ r))%nat then false else memcmp value (lower_ r) =? 0
  else if
    negb (lowerUnbounded_ r) &&
    ((compareRanges value (lower_ r) <? 0) ||
     (lowerExclusive_ r && (compareRanges value (lower_ r) =? 0)))
  then false
  else if negb (upperUnbounded_ r) then
    (compareRanges value (upper_ r) <? 0) ||
    (negb (upperExclusive_ r) && (compareRanges value (upper_ r) =? 0))
  else true.

Definition bool_to_Z (b : bool) : Z := if b then 1 else 0.

Definition br_testBytesRange (r : BytesRange) (min max : option text) (hasNull : bool) : bool :=
  if hasNull && br_nullAllowed_ r then true
  else
    (lowerUnbounded_ r ||
     match max with None => true | Some m => compareRanges m (lower_ r) >=? bool_to_Z (lowerExclusive_ r) end) &&
    (upperUnbounded_ r ||
     match min with None => true | Some m => compareRanges m (upper_ r) <=? - bool_to_Z (upperExclusive_ r) end).

Definition br_testLength (r : BytesRange) (len : nat) : bool :=
  negb (singleValue_ r) || (length (lower_ r) =? len)%nat.

(** ** [BytesValues] *)
Record BytesValues := mkBytesValues {
  bv_nullAllowed_ : bool;
  bv_lower_ : text;
  bv_upper_ : text;
  values_ : gset text;
  lengths_ : gset nat
}.

(** [std::min_element] and [std::max_element]. *)
Definition minText (a b : text) : text := if compareRanges b a <? 0 then b else a.
Definition maxText (a b : text) : text := if compareRanges a b <? 0 then b else a.

Definition newBytesValues (values : list text) (nullAllowed : bool) : outcome BytesValues :=
  match values with
  | [] => Throw VeloxCheckFailed
  | _ =>
      let set := list_to_set values : gset text in
      match elements set with
      | [] => Undefined
      | v :: vs =>
          Ok (mkBytesValues nullAllowed (foldl minText v vs) (foldl maxText v vs) set
                (list_to_set (map length values)))
      end
  end.

Definition bv_withNull (b : BytesValues) (nullAllowed : bool) : BytesValues :=
  mkBytesValues nullAllowed (bv_lower_ b) (bv_upper_ b) (values_ b) (lengths_ b).

Definition bv_testLength (b : BytesValues) (len : nat) : bool := bool_decide (len ∈ lengths_ b).

Definition bv_testBytes (b : BytesValues) (value : text) : bool :=
  bool_decide (length value ∈ lengths_ b) && bool_decide (value ∈ values_ b).

Definition sameBounds (min max : option text) : option text :=
  match min, max with
  | Some a, Some b => if bool_decide (a = b) then Some a else None
  | _, _ => None
  end.

Definition bv_testBytesRange (b : BytesValues) (min max : option text) (hasNull : bool) : bool :=
  if hasNull && bv_nullAllowed_ b then true
  else match sameBounds min max with
       | Some v => bv_testBytes b v
       | None =>
           if match min with Some m => compareRanges m (bv_upper_ b) >? 0 | None => false end then false
           else if match max with Some m => compareRanges m (bv_lower_ b) <? 0 | None => false end then false
           else true
       end.

(** ** The class hierarchy *)
Inductive Filter :=
| AlwaysFalse
| AlwaysTrue
| IsNull
| IsNotNull
| FBytesRange (r : BytesRange)
| FNegatedBytesRange (nullAllowed_ : bool) (nonNegated_ : BytesRange)
| FBytesValues (b : BytesValues)
| FNegatedBytesValues (nullAllowed_ : bool) (nonNegated_ : BytesValues)
| MultiRange (filters_ : list Filter) (nullAllowed_ nanAllowed_ : bool).

Definition testNull (f : Filter) : bool :=
  match f with
  | AlwaysFalse | IsNotNull => false
  | AlwaysTrue | IsNull => true
  | FBytesRange r => br_nullAllowed_ r
  | FBytesValues b => bv_nullAllowed_ b
  | FNegatedBytesRange b _ | FNegatedBytesValues b _ | MultiRange _ b _ => b
  end.

Definition newNegatedBytesRange (lower : text) (lowerUnbounded lowerExclusive : bool)
    (upper : text) (upperUnbounded upperExclusive nullAllowed : bool) : outcome Filter :=
  r ← newBytesRange lower lowerUnbounded lowerExclusive upper upperUnbounded upperExclusive nullAllowed;
  Ok (FNegatedBytesRange nullAllowed r).

Definition newNegatedBytesValues (values : list text) (nullAllowed : bool) : outcome Filter :=
  b ← newBytesValues values (negb nullAllowed);
  Ok (FNegatedBytesValues nullAllowed b).

Fixpoint clone (f : Filter) (nullAllowed : option bool) : Filter :=
  match f with
  | AlwaysFalse | AlwaysTrue | IsNull | IsNotNull => f
  | FBytesRange r => match nullAllowed with Some b => FBytesRange (br_withNull r b) | None => f end
  | FNegatedBytesRange b r => FNegatedBytesRange (default b nullAllowed) r
  | FBytesValues v => match nullAllowed with Some b => FBytesValues (bv_withNull v b) | None => f end
  | FNegatedBytesValues b v => FNegatedBytesValues (default b nullAllowed) v
  | MultiRange filters b nan =>
      MultiRange (map (λ g, clone g None) filters) (default b nullAllowed) nan
  end.

Fixpoint testBytes (f : Filter) (value : text) : bool :=
  match f with
  | AlwaysFalse | IsNull => false
  | AlwaysTrue | IsNotNull => true
  | FBytesRange r => br_testBytes r value
  | FNegatedBytesRange _ r => negb (br_testBytes r value)
  | FBytesValues b => bv_testBytes b value
  | FNegatedBytesValues _ b => negb (bv_testBytes b value)
  | MultiRange filters _ _ => existsb (λ g, testBytes g value) filters
  end.

Fixpoint testLength (f : Filter) (len : nat) : bool :=
  match f with
  | AlwaysFalse | IsNull => false
  | AlwaysTrue | IsNotNull | FNegatedBytesRange _ _ | FNegatedBytesValues _ _ => true
  | FBytesRange r => br_testLength r len
  | FBytesValues b => bv_testLength b len
  | MultiRange filters _ _ => existsb (λ g, testLength g len) filters
  end.

(** [min->data()] of an empty optional is undefined; the second test is only
    made when the first value is rejected. *)
Definition nbr_testBytesRange (nullAllowed : bool) (r : BytesRange) (min max : option text)
    (hasNull : bool) : outcome bool :=
  if hasNull && nullAllowed then Ok true
  else if (negb (bool_decide (is_Some min)) && negb (lowerUnbounded_ r)) ||
          (negb (bool_decide (is_Some max)) && negb (upperUnbounded_ r)) then Ok true
  else match sameBounds min max with
       | Some v => Ok (negb (br_testBytes r v))
       | None =>
           match min with
           | None => Undefined
           | Some lo =>
               if negb (br_testBytes r lo) then Ok true
               else match max with
                    | None => Undefined
                    | Some hi => Ok (negb (br_testBytes r hi))
                    end
           end
       end.

Definition nbv_testBytesRange (nullAllowed : bool) (b : BytesValues) (min max : option text)
    (hasNull : bool) : bool :=
  if hasNull && nullAllowed then true
  else match sameBounds min max with Some v => negb (bv_testBytes b v) | None => true end.

(** The loop of [MultiRange] stops at the first filter that passes. *)
Fixpoint testBytesRange (f : Filter) (min max : option text) (hasNull : bool) : outcome bool :=
  match f with
  | AlwaysFalse => Ok false
  | AlwaysTrue | IsNotNull => Ok true
  | IsNull => Ok hasNull
  | FBytesRange r => Ok (br_testBytesRange r min max hasNull)
  | FNegatedBytesRange b r => nbr_testBytesRange b r min max hasNull
  | FBytesValues b => Ok (bv_testBytesRange b min max hasNull)
  | FNegatedBytesValues b v => Ok (nbv_testBytesRange b v min max hasNull)
  | MultiRange filters b _ =>
      if hasNull && b then Ok true
      else foldr (λ g rest, p ← testBytesRange g min max hasNull; if p : bool then Ok true else rest)
             (Ok false) filters
  end.

(** ** Merging *)
Definition nullOrFalse (nullAllowed : bool) : Filter := if nullAllowed then IsNull else AlwaysFalse.

Definition toMultiRange (nullAllowed : bool) (r : BytesRange) : outcome Filter :=
  below ← (if lowerUnbounded_ r then Ok []
           else b ← newBytesRange [] true false (lower_ r) false (br_testBytes r (lower_ r)) false; Ok [b]);
  above ← (if upperUnbounded_ r then Ok []
           else a ← newBytesRange (upper_ r) false (br_testBytes r (upper_ r)) [] true false false; Ok [a]);
  match map FBytesRange (below ++ above) with
  | [] => Ok (nullOrFalse nullAllowed)
  | [f] => Ok (clone f (Some nullAllowed))
  | accepted => Ok (MultiRange accepted nullAllowed false)
  end.

Definition mergeExclusive (compareResult : Z) (left right : bool) : bool :=
  if compareResult =? 0 then left || right else if compareResult <? 0 then left else right.

(** The lower bound of the intersection: whether it is unbounded, whether it
    is exclusive, and its value. *)
Definition mergeLower (this other : BytesRange) : bool * bool * text :=
  if lowerUnbounded_ this then (lowerUnbounded_ other, lowerExclusive_ other, lower_ other)
  else if lowerUnbounded_ other then (lowerUnbounded_ this, lowerExclusive_ this, lower_ this)
  else
    let compare := compareRanges (lower_ this) (lower_ other) in
    (false, mergeExclusive (- compare) (lowerExclusive_ this) (lowerExclusive_ other),
     if compare <? 0 then lower_ other else lower_ this).

Definition mergeUpper (this other : BytesRange) : bool * bool * text :=
  if upperUnbounded_ this then (upperUnbounded_ other, upperExclusive_ other, upper_ other)
  else if upperUnbounded_ other then (upperUnbounded_ this, upperExclusive_ this, upper_ this)
  else
    let compare := compareRanges (upper_ this) (upper_ other) in
    (false, mergeExclusive compare (upperExclusive_ this) (upperExclusive_ other),
     if compare <? 0 then upper_ this else upper_ other).

Definition rangesMerge (this other : BytesRange) (bothNullAllowed : bool) : outcome Filter :=
  let '(lowerUnbounded, lowerExclusive, lower) := mergeLower this other in
  let '(upperUnbounded, upperExclusive, upper) := mergeUpper this other in
  if negb lowerUnbounded && negb upperUnbounded &&
     ((compareRanges lower upper >? 0) ||
      (bool_decide (lower = upper) && (lowerExclusive || upperExclusive)))
  then Ok (nullOrFalse bothNullAllowed)
  else r ← newBytesRange lower lowerUnbounded lowerExclusive upper upperUnbounded upperExclusive bothNullAllowed;
       Ok (FBytesRange r).

(** The values of a list that survive, as a filter. *)
Definition valuesFilter (newValues : list text) (bothNullAllowed : bool) : outcome Filter :=
  match newValues with
  | [] => Ok (nullOrFalse bothNullAllowed)
  | _ => b ← newBytesValues newValues bothNullAllowed; Ok (FBytesValues b)
  end.

Definition valuesMerge (this other : BytesValues) (bothNullAllowed : bool) : outcome Filter :=
  if (compareRanges (bv_upper_ this) (bv_lower_ other) <? 0) ||
     (compareRanges (bv_upper_ other) (bv_lower_ this) <? 0)
  then Ok (nullOrFalse bothNullAllowed)
  else
    let '(smaller, larger) :=
      if (size (values_ other) <? size (values_ this))%nat then (other, this) else (this, other) in
    valuesFilter (filter (λ v, v ∈ values_ larger) (elements (values_ smaller))) bothNullAllowed.

(** The values that pass another filter. *)
Definition keepValues (this : BytesValues) (passes : text → bool) (bothNullAllowed : bool) : outcome Filter :=
  valuesFilter (filter (λ v, passes v = true) (elements (values_ this))) bothNullAllowed.

Definition rangeBound (unbounded : bool) (bound : text) : option text :=
  if unbounded then None else Some bound.

(** [std::set] in its order. *)
Definition text_le (a b : text) : Prop := compareRanges a b ≤ 0.
#[global] Instance text_le_dec : RelDecision text_le := λ a b, decide (compareRanges a b ≤ 0).

(** The ranges between the rejected values, from [back] on. *)
Fixpoint gapsFrom (back : text) (front : list text) (upper : text) (upperUnbounded hiExclusive : bool)
    : outcome (list BytesRange) :=
  match front with
  | [] => r ← newBytesRange back false true upper upperUnbounded hiExclusive false; Ok [r]
  | f :: front' =>
      r ← newBytesRange back false true f false true false;
      rs ← gapsFrom f front' upper upperUnbounded hiExclusive;
      Ok (r :: rs)
  end.

Definition negatedValuesRange (values : BytesValues) (range : BytesRange) (bothNullAllowed : bool)
    : outcome Filter :=
  let rejectedValues := merge_sort text_le (filter (λ v, br_testBytes range v = true) (elements (values_ values))) in
  let loExclusive := negb (lowerUnbounded_ range) &&
    (lowerExclusive_ range || bool_decide (lower_ range ∈ rejectedValues)) in
  let rejectedValues :=
    if lowerUnbounded_ range then rejectedValues else filter (.≠ lower_ range) rejectedValues in
  let hiExclusive := negb (upperUnbounded_ range) &&
    (upperExclusive_ range || bool_decide (upper_ range ∈ rejectedValues)) in
  let rejectedValues :=
    if upperUnbounded_ range then rejectedValues else filter (.≠ upper_ range) rejectedValues in
  match rejectedValues with
  | [] =>
      r ← newBytesRange (lower_ range) (lowerUnbounded_ range) loExclusive
            (upper_ range) (upperUnbounded_ range) hiExclusive bothNullAllowed;
      Ok (FBytesRange r)
  | back :: front =>
      first ← newBytesRange (lower_ range) (lowerUnbounded_ range) loExclusive back false true false;
      rest ← gapsFrom back front (upper_ range) (upperUnbounded_ range) hiExclusive;
      Ok (MultiRange (map FBytesRange (first :: rest)) bothNullAllowed false)
  end.

Section Dispatch.
Variable rec : Filter → Filter → outcome Filter.

Definition isNotNull_mergeWith (other : Filter) : outcome Filter :=
  match other with
  | AlwaysTrue | IsNotNull => Ok IsNotNull
  | AlwaysFalse | IsNull => Ok AlwaysFalse
  | _ => rec other IsNotNull
  end.

Definition br_mergeWith (this : BytesRange) (other : Filter) : outcome Filter :=
  match other with
  | AlwaysTrue | AlwaysFalse | IsNull => rec other (FBytesRange this)
  | IsNotNull => Ok (clone (FBytesRange this) (Some false))
  | FBytesValues _ | FNegatedBytesValues _ _ | FNegatedBytesRange _ _ | MultiRange _ _ _ =>
      rec other (FBytesRange this)
  | FBytesRange o => rangesMerge this o (br_nullAllowed_ this && testNull other)
  end.

Definition nbr_mergeWith (nullAllowed : bool) (this : BytesRange) (other : Filter) : outcome Filter :=
  match other with
  | AlwaysTrue | AlwaysFalse | IsNull | FBytesValues _ => rec other (FNegatedBytesRange nullAllowed this)
  | IsNotNull => Ok (clone (FNegatedBytesRange nullAllowed this) (Some false))
  | FNegatedBytesValues _ _ | FBytesRange _ | FNegatedBytesRange _ _ | MultiRange _ _ _ =>
      multi ← toMultiRange nullAllowed this; rec other multi
  end.

Definition bv_mergeWith (this : BytesValues) (other : Filter) : outcome Filter :=
  let bothNullAllowed := bv_nullAllowed_ this && testNull other in
  match other with
  | AlwaysTrue | AlwaysFalse | IsNull | MultiRange _ _ _ => rec other (FBytesValues this)
  | IsNotNull => Ok (clone (FBytesValues this) (Some false))
  | FBytesValues o => valuesMerge this o bothNullAllowed
  | FNegatedBytesValues _ _ | FNegatedBytesRange _ _ => keepValues this (testBytes other) bothNullAllowed
  | FBytesRange r =>
      if negb (bv_testBytesRange this (rangeBound (lowerUnbounded_ r) (lower_ r))
                 (rangeBound (upperUnbounded_ r) (upper_ r)) bothNullAllowed)
      then Ok (nullOrFalse bothNullAllowed)
      else keepValues this (testBytes other) bothNullAllowed
  end.

Definition nbv_mergeWith (nullAllowed : bool) (this : BytesValues) (other : Filter) : outcome Filter :=
  let self := FNegatedBytesValues nullAllowed this in
  let bothNullAllowed := nullAllowed && testNull other in
  match other with
  | AlwaysTrue | AlwaysFalse | IsNull | FBytesValues _ | FNegatedBytesRange _ _ | MultiRange _ _ _ =>
      rec other self
  | IsNotNull => Ok (clone self (Some false))
  | FNegatedBytesValues _ o =>
      if (size (values_ this) <? size (values_ o))%nat then rec other self
      else
        newNegatedBytesValues
          (elements (values_ this) ++ filter (λ v, testBytes self v = true) (elements (values_ o)))
          bothNullAllowed
  | FBytesRange r => negatedValuesRange this r bothNullAllowed
  end.

(** What one inner merge adds to [byteValues] and [merged]. *)
Definition collect (acc : list text * list Filter) (innerMerged : Filter) : list text * list Filter :=
  let '(byteValues, merged) := acc in
  match innerMerged with
  | AlwaysFalse | IsNull => acc
  | FBytesValues b => (byteValues ++ elements (values_ b), merged)
  | MultiRange filters _ _ => (byteValues, merged ++ map (λ g, clone g None) filters)
  | _ => (byteValues, merged ++ [innerMerged])
  end.

Definition otherFilters (other : Filter) : list Filter :=
  match other with MultiRange filters _ _ => filters | _ => [other] end.

Definition finishMerge (acc : list text * list Filter) (bothNullAllowed bothNanAllowed : bool)
    : outcome Filter :=
  let '(byteValues, merged) := acc in
  merged ← match byteValues with
           | [] => Ok merged
           | _ => b ← newBytesValues byteValues bothNullAllowed; Ok (merged ++ [FBytesValues b])
           end;
  match merged with
  | [] => Ok (nullOrFalse bothNullAllowed)
  | [f] => Ok (clone f (Some bothNullAllowed))
  | _ => Ok (MultiRange merged bothNullAllowed bothNanAllowed)
  end.

Definition mr_mergeWith (filters : list Filter) (nullAllowed nanAllowed : bool) (other : Filter)
    : outcome Filter :=
  let self := MultiRange filters nullAllowed nanAllowed in
  match other with
  | AlwaysTrue | AlwaysFalse | IsNull | FNegatedBytesRange _ _ => rec other self
  | IsNotNull => Ok (clone self (Some false))
  | FBytesValues _ | FNegatedBytesValues _ _ | FBytesRange _ | MultiRange _ _ _ =>
      let bothNanAllowed :=
        match other with MultiRange _ _ nan => nanAllowed && nan | _ => nanAllowed end in
      acc ← foldM_o
              (λ acc filter, foldM_o (λ acc filterOther, inner ← rec filter filterOther; Ok (collect acc inner))
                 (otherFilters other) acc)
              filters ([], []);
      finishMerge acc (nullAllowed && testNull other) bothNanAllowed
  end.

Definition mergeStep (this other : Filter) : outcome Filter :=
  match this with
  | AlwaysFalse => Ok AlwaysFalse
  | AlwaysTrue => Ok (clone other None)
  | IsNull => Ok (if testNull other then IsNull else AlwaysFalse)
  | IsNotNull => isNotNull_mergeWith other
  | FBytesRange r => br_mergeWith r other
  | FNegatedBytesRange b r => nbr_mergeWith b r other
  | FBytesValues b => bv_mergeWith b other
  | FNegatedBytesValues b v => nbv_mergeWith b v other
  | MultiRange filters b nan => mr_mergeWith filters b nan other
  end.
End Dispatch.

(** Nested calls are bounded; the bound is shown to be enough. *)
Fixpoint mergeWithFuel (fuel : nat) (this other : Filter) : outcome Filter :=
  match fuel with
  | O => Throw OutOfFuel
  | S fuel' => mergeStep (mergeWithFuel fuel') this other
  end.

Definition mergeWith (this other : Filter) : outcome Filter := mergeWithFuel 6 this other.
