(* ===== verification/BytesFilterCorrect.v ===== *)
(** * Correctness of the filters on strings

    The tests refine the set of strings a filter stands for, range statistics
    are used safely, and [mergeWith] is conjunction. *)
From Stdlib Require Import Ascii String.
From S2P Require Import Prelude Text BytesFilter.
Local Open Scope Z_scope.

(** ** The order of strings *)
Lemma nat_of_ascii_inj c d : nat_of_ascii c = nat_of_ascii d → c = d.
Proof. intros H. rewrite <- (ascii_nat_embedding c), <- (ascii_nat_embedding d). by f_equal. Qed.

Lemma compareRanges_cons c a d b :
  compareRanges (c :: a) (d :: b) =
  if (nat_of_ascii c <? nat_of_ascii d)%nat then -1
  else if (nat_of_ascii d <? nat_of_ascii c)%nat then 1 else compareRanges a b.
Proof.
  unfold compareRanges. simpl.
  destruct (nat_of_ascii c <? nat_of_ascii d)%nat, (nat_of_ascii d <? nat_of_ascii c)%nat; simpl; try done.
  destruct (negb (memcmp a b =? 0)); [done | lia].
Qed.

Lemma compareRanges_eq a b : compareRanges a b = 0 ↔ a = b.
Proof.
  revert b; induction a as [|c a IH]; intros [|d b]; [done|unfold compareRanges; simpl; split; [lia|done]..|].
  rewrite compareRanges_cons.
  destruct (Nat.ltb_spec (nat_of_ascii c) (nat_of_ascii d)) as [H|H];
    [split; [lia | intros [= -> ->]; lia]|].
  destruct (Nat.ltb_spec (nat_of_ascii d) (nat_of_ascii c)) as [H'|H'];
    [split; [lia | intros [= -> ->]; lia]|].
  rewrite IH. split; [intros ->; f_equal; apply nat_of_ascii_inj; lia | by intros [= -> ->]].
Qed.

Lemma compareRanges_refl a : compareRanges a a = 0.
Proof. by apply compareRanges_eq. Qed.

Lemma compareRanges_flip a b :
  (compareRanges a b < 0 ↔ 0 < compareRanges b a) ∧ (compareRanges a b = 0 ↔ compareRanges b a = 0).
Proof.
  revert b; induction a as [|c a IH]; intros [|d b]; [by split|unfold compareRanges; simpl; lia..|].
  rewrite !compareRanges_cons. specialize (IH b).
  destruct (Nat.ltb_spec (nat_of_ascii c) (nat_of_ascii d)), (Nat.ltb_spec (nat_of_ascii d) (nat_of_ascii c)); lia.
Qed.

Lemma compareRanges_nil b : compareRanges [] b ≤ 0.
Proof. destruct b; unfold compareRanges; simpl; lia. Qed.

Lemma compareRanges_nil_cons d b : compareRanges [] (d :: b) < 0.
Proof. unfold compareRanges; simpl; lia. Qed.

Lemma compareRanges_cons_nil c a : 0 < compareRanges (c :: a) [].
Proof. unfold compareRanges; simpl; lia. Qed.

Lemma compareRanges_trans a b c :
  (compareRanges a b ≤ 0 → compareRanges b c ≤ 0 → compareRanges a c ≤ 0) ∧
  (compareRanges a b < 0 → compareRanges b c ≤ 0 → compareRanges a c < 0) ∧
  (compareRanges a b ≤ 0 → compareRanges b c < 0 → compareRanges a c < 0).
Proof.
  revert b c; induction a as [|x a IH]; intros b c.
  { pose proof (compareRanges_nil c). destruct c as [|z c]; [|pose proof (compareRanges_nil_cons z c); lia].
    destruct b as [|y b]; [lia|]. pose proof (compareRanges_cons_nil y b). lia. }
  destruct b as [|y b]; [pose proof (compareRanges_cons_nil x a); lia|].
  destruct c as [|z c]; [pose proof (compareRanges_cons_nil y b); lia|].
  rewrite !compareRanges_cons. specialize (IH b c).
  destruct (Nat.ltb_spec (nat_of_ascii x) (nat_of_ascii y)), (Nat.ltb_spec (nat_of_ascii y) (nat_of_ascii x)),
      (Nat.ltb_spec (nat_of_ascii y) (nat_of_ascii z)), (Nat.ltb_spec (nat_of_ascii z) (nat_of_ascii y)),
      (Nat.ltb_spec (nat_of_ascii x) (nat_of_ascii z)), (Nat.ltb_spec (nat_of_ascii z) (nat_of_ascii x)); lia.
Qed.

#[local] Arguments compareRanges : simpl never.

(** The facts about the comparisons of three strings, for [lia]. *)
Ltac order2 a b :=
  pose proof (compareRanges_flip a b); pose proof (compareRanges_eq a b).
Ltac order3 a b c :=
  order2 a b; order2 b c; order2 a c;
  pose proof (compareRanges_trans a b c); pose proof (compareRanges_trans a c b);
  pose proof (compareRanges_trans b a c); pose proof (compareRanges_trans b c a);
  pose proof (compareRanges_trans c a b); pose proof (compareRanges_trans c b a).

(** Case analysis on the booleans of a goal. *)
Ltac by_bools :=
  repeat match goal with
  | |- context [if ?b then _ else _] => destruct b eqn:?
  | |- context [bool_decide ?P] => destruct (bool_decide_reflect P)
  end.

(** ** Ranges *)
Definition lowOk (unbounded exclusive : bool) (lower s : text) : bool :=
  unbounded || (if exclusive then 0 <? compareRanges s lower else 0 <=? compareRanges s lower).
Definition highOk (unbounded exclusive : bool) (upper s : text) : bool :=
  unbounded || (if exclusive then compareRanges s upper <? 0 else compareRanges s upper <=? 0).
Definition inRange (r : BytesRange) (s : text) : bool :=
  lowOk (lowerUnbounded_ r) (lowerExclusive_ r) (lower_ r) s &&
  highOk (upperUnbounded_ r) (upperExclusive_ r) (upper_ r) s.

(** What the constructor establishes; and not the empty range from the empty
    string to the empty string, excluded above only. *)
Record br_wf (r : BytesRange) : Prop := {
  bw_new : newBytesRange (lower_ r) (lowerUnbounded_ r) (lowerExclusive_ r) (upper_ r) (upperUnbounded_ r)
             (upperExclusive_ r) (br_nullAllowed_ r) = Ok r;
  bw_sane : lowerUnbounded_ r = false → upperUnbounded_ r = false → lower_ r = [] → upper_ r = [] →
    upperExclusive_ r = true → lowerExclusive_ r = true
}.

Lemma memcmp_eq a b : length a = length b → (memcmp a b = 0 ↔ a = b).
Proof.
  intros Hl. rewrite <- compareRanges_eq. unfold compareRanges.
  destruct (Z.eqb_spec (memcmp a b) 0); simpl; lia.
Qed.

Lemma newBytesRange_inv lower lu le upper uu ue na r :
  newBytesRange lower lu le upper uu ue na = Ok r →
  lu && uu = false ∧
  r = mkBytesRange na lu le uu ue lower upper
        (negb le && negb ue && negb lu && negb uu && bool_decide (lower = upper)).
Proof. unfold newBytesRange. intros H. destruct lu, uu; simpl in *; simplify_eq; done. Qed.

Lemma bounded_side r : br_wf r → lowerUnbounded_ r && upperUnbounded_ r = false.
Proof. intros [H _]. apply newBytesRange_inv in H. apply H. Qed.

Lemma singleValue_spec r : br_wf r →
  singleValue_ r = negb (lowerExclusive_ r) && negb (upperExclusive_ r) && negb (lowerUnbounded_ r) &&
    negb (upperUnbounded_ r) && bool_decide (lower_ r = upper_ r).
Proof. intros [H _]. apply newBytesRange_inv in H as [_ H]. by rewrite H. Qed.

Lemma br_testBytes_spec r s : br_wf r → br_testBytes r s = inRange r s.
Proof.
  intros Hw. pose proof (bounded_side r Hw) as Hb. pose proof (singleValue_spec r Hw) as Hs.
  destruct Hw as [_ Hsane]. unfold br_testBytes, inRange, lowOk, highOk.
  destruct s as [|c s]; cbn [is_empty].
  - pose proof (compareRanges_nil (lower_ r)). pose proof (compareRanges_nil (upper_ r)).
    order2 ([] : text) (lower_ r). order2 ([] : text) (upper_ r).
    destruct (lowerUnbounded_ r), (upperUnbounded_ r), (lowerExclusive_ r), (upperExclusive_ r),
      (lower_ r) as [|a l], (upper_ r) as [|b u]; simpl in *; try done;
      rewrite ?compareRanges_nil; try lia; naive_solver lia.
  - generalize (c :: s)%list. intros v.
    destruct (singleValue_ r) eqn:Es.
    + symmetry in Hs. rewrite !andb_true_iff, !negb_true_iff in Hs. destruct Hs as [[[[-> ->] ->] ->] He].
      apply bool_decide_eq_true in He. simpl. rewrite <- He.
      destruct (Nat.eqb_spec (length v) (length (lower_ r))) as [El|El]; simpl.
      * pose proof (memcmp_eq v (lower_ r) El) as Hm. rewrite <- compareRanges_eq in Hm. lia.
      * assert (v ≠ lower_ r) as Hne by congruence. rewrite <- compareRanges_eq in Hne. lia.
    + destruct (lowerUnbounded_ r), (upperUnbounded_ r), (lowerExclusive_ r), (upperExclusive_ r); simpl;
        by_bools; lia.
Qed.

(** ** Lists of values *)
Record bv_wf (b : BytesValues) : Prop := {
  vw_some : values_ b ≠ ∅;
  vw_lengths : ∀ n, n ∈ lengths_ b ↔ ∃ v, v ∈ values_ b ∧ length v = n;
  vw_lower : ∀ v, v ∈ values_ b → compareRanges (bv_lower_ b) v ≤ 0;
  vw_upper : ∀ v, v ∈ values_ b → compareRanges v (bv_upper_ b) ≤ 0
}.

Lemma minText_le vs x v : v ∈ x :: vs → compareRanges (foldl minText x vs) v ≤ 0.
Proof.
  revert x v; induction vs as [|y vs IH]; intros x v Hv; simpl.
  - apply list_elem_of_singleton in Hv as ->. pose proof (compareRanges_refl x). lia.
  - assert (compareRanges (minText x y) x ≤ 0 ∧ compareRanges (minText x y) y ≤ 0) as [Hx Hy].
    { unfold minText. pose proof (compareRanges_flip x y). pose proof (compareRanges_refl x).
      pose proof (compareRanges_refl y). destruct (Z.ltb_spec (compareRanges y x) 0); lia. }
    pose proof (IH _ _ (list_elem_of_here (minText x y) vs)) as Hm.
    rewrite !elem_of_cons in Hv. destruct Hv as [->|[->|Hv]].
    + by apply (compareRanges_trans _ (minText x y)).
    + by apply (compareRanges_trans _ (minText x y)).
    + apply IH. by right.
Qed.

Lemma maxText_ge vs x v : v ∈ x :: vs → compareRanges v (foldl maxText x vs) ≤ 0.
Proof.
  revert x v; induction vs as [|y vs IH]; intros x v Hv; simpl.
  - apply list_elem_of_singleton in Hv as ->. pose proof (compareRanges_refl x). lia.
  - assert (compareRanges x (maxText x y) ≤ 0 ∧ compareRanges y (maxText x y) ≤ 0) as [Hx Hy].
    { unfold maxText. pose proof (compareRanges_flip x y). pose proof (compareRanges_refl x).
      pose proof (compareRanges_refl y). destruct (Z.ltb_spec (compareRanges x y) 0); lia. }
    pose proof (IH _ _ (list_elem_of_here (maxText x y) vs)) as Hm.
    rewrite !elem_of_cons in Hv. destruct Hv as [->|[->|Hv]].
    + by apply (compareRanges_trans _ (maxText x y)).
    + by apply (compareRanges_trans _ (maxText x y)).
    + apply IH. by right.
Qed.

Lemma newBytesValues_ok l na :
  l ≠ [] → ∃ b, newBytesValues l na = Ok b ∧ bv_wf b ∧ bv_nullAllowed_ b = na ∧
    ∀ s, s ∈ values_ b ↔ s ∈ l.
Proof.
  intros Hl. unfold newBytesValues. destruct l as [|x l]; [done|]. set (xs := (x :: l)%list).
  destruct (elements (list_to_set xs : gset text)) as [|v vs] eqn:E.
  { exfalso. assert (x ∈ elements (list_to_set xs : gset text)) as H by (unfold xs; set_solver).
    rewrite E in H. set_solver. }
  assert (∀ s, s ∈ (list_to_set xs : gset text) ↔ s ∈ v :: vs) as He.
  { intros s. by rewrite <- E, elem_of_elements. }
  eexists. split; [done|]. split; [|split; [done | intros s; cbn [values_]; by rewrite elem_of_list_to_set]].
  split; cbn [values_ lengths_ bv_lower_ bv_upper_].
  - unfold xs. set_solver.
  - intros n. rewrite elem_of_list_to_set, list_elem_of_fmap. setoid_rewrite elem_of_list_to_set. naive_solver.
  - intros s Hs. apply minText_le. by apply He.
  - intros s Hs. apply maxText_ge. by apply He.
Qed.

Lemma bv_testBytes_spec b s : bv_wf b → bv_testBytes b s = bool_decide (s ∈ values_ b).
Proof.
  intros Hw. unfold bv_testBytes. destruct (bool_decide_reflect (s ∈ values_ b)) as [Hs|]; [|by rewrite andb_false_r].
  rewrite bool_decide_true; [done|]. apply (vw_lengths _ Hw). by exists s.
Qed.

(** ** Well-formed filters and the strings they stand for *)
Definition simple (f : Filter) : Prop :=
  match f with FBytesRange r => br_wf r | FBytesValues b => bv_wf b | _ => False end.

Definition wf (f : Filter) : Prop :=
  match f with
  | AlwaysFalse | AlwaysTrue | IsNull | IsNotNull => True
  | FBytesRange r | FNegatedBytesRange _ r => br_wf r
  | FBytesValues b | FNegatedBytesValues _ b => bv_wf b
  | MultiRange filters _ _ => Forall simple filters
  end.

Fixpoint accepts (f : Filter) (s : text) : bool :=
  match f with
  | AlwaysFalse | IsNull => false
  | AlwaysTrue | IsNotNull => true
  | FBytesRange r => inRange r s
  | FNegatedBytesRange _ r => negb (inRange r s)
  | FBytesValues b => bool_decide (s ∈ values_ b)
  | FNegatedBytesValues _ b => negb (bool_decide (s ∈ values_ b))
  | MultiRange filters _ _ => existsb (λ g, accepts g s) filters
  end.

(** The tests of the string filters refine the sets they stand for: for a
    filter that its constructor produces, [testBytes] accepts exactly the
    strings of the range, of the list, of their complement, or of the union;
    the shortcuts for the empty string, a single value and the stored lengths
    change nothing. *)
Theorem testBytes_accepts f s : wf f → testBytes f s = accepts f s.
Proof.
  destruct f as [| | | |r|na r|b|na b|fs na nan]; intros Hw; simpl;
    rewrite ?br_testBytes_spec, ?bv_testBytes_spec by done; try done.
  simpl in Hw. induction Hw as [|g fs Hg _ IH]; [done|]. simpl. rewrite IH. f_equal.
  destruct g; try done; simpl; [by apply br_testBytes_spec | by apply bv_testBytes_spec].
Qed.

(** ** Range statistics *)

(** A string between the known bounds of a block of rows. *)
Definition between (min max : option text) (s : text) : Prop :=
  (∀ m, min = Some m → compareRanges m s ≤ 0) ∧ (∀ m, max = Some m → compareRanges s m ≤ 0).

Lemma sameBounds_between min max v s : sameBounds min max = Some v → between min max s → s = v.
Proof.
  unfold sameBounds. destruct min as [a|], max as [b|]; try done.
  case_bool_decide as E; [|done]. intros [= ->] [Ha Hb]. subst b.
  specialize (Ha v eq_refl). specialize (Hb v eq_refl). apply compareRanges_eq.
  pose proof (compareRanges_flip s v). lia.
Qed.

Lemma br_testBytesRange_sound r min max hasNull s :
  br_wf r → between min max s → br_testBytes r s = true → br_testBytesRange r min max hasNull = true.
Proof.
  intros Hw [Hmin Hmax]. rewrite br_testBytes_spec by done. unfold inRange. intros [HL HH]%andb_true_iff.
  unfold br_testBytesRange. destruct (hasNull && _); [done|]. apply andb_true_iff. unfold lowOk, highOk in *.
  split; apply orb_true_iff; apply orb_true_iff in HL, HH.
  - destruct HL as [HL|HL]; [by left | right]. destruct max as [m|]; [|done]. specialize (Hmax m eq_refl).
    pose proof (compareRanges_trans (lower_ r) s m). pose proof (compareRanges_flip m (lower_ r)).
    pose proof (compareRanges_flip s (lower_ r)). destruct (lowerExclusive_ r); simpl; lia.
  - destruct HH as [HH|HH]; [by left | right]. destruct min as [m|]; [|done]. specialize (Hmin m eq_refl).
    pose proof (compareRanges_trans m s (upper_ r)). destruct (upperExclusive_ r); simpl; lia.
Qed.

Lemma bv_testBytesRange_sound b min max hasNull s :
  bv_wf b → between min max s → s ∈ values_ b → bv_testBytesRange b min max hasNull = true.
Proof.
  intros Hw Hs Hv. unfold bv_testBytesRange. destruct (hasNull && _); [done|].
  destruct (sameBounds min max) as [v|] eqn:E.
  { apply sameBounds_between with (s := s) in E as <-; [|done]. rewrite bv_testBytes_spec by done.
    by apply bool_decide_eq_true. }
  destruct Hs as [Hmin Hmax]. pose proof (vw_lower _ Hw s Hv) as Hl. pose proof (vw_upper _ Hw s Hv) as Hu.
  destruct (match min with Some m => _ | None => _ end) eqn:E1.
  { destruct min as [m|]; [|done]. specialize (Hmin m eq_refl).
    pose proof (compareRanges_trans m s (bv_upper_ b)). lia. }
  destruct (match max with Some m => _ | None => _ end) eqn:E2; [|done].
  destruct max as [m|]; [|done]. specialize (Hmax m eq_refl).
  pose proof (compareRanges_trans (bv_lower_ b) s m). pose proof (compareRanges_flip m (bv_lower_ b)). lia.
Qed.

Lemma inRange_convex r a s c :
  inRange r a = true → inRange r c = true → compareRanges a s ≤ 0 → compareRanges s c ≤ 0 → inRange r s = true.
Proof.
  unfold inRange. rewrite !andb_true_iff. intros [La _] [_ Hc] Has Hsc. unfold lowOk, highOk in *. split.
  - apply orb_true_iff in La as [->|La]; [done|]. apply orb_true_iff; right.
    pose proof (compareRanges_trans (lower_ r) a s). pose proof (compareRanges_flip a (lower_ r)).
    pose proof (compareRanges_flip s (lower_ r)). destruct (lowerExclusive_ r); lia.
  - apply orb_true_iff in Hc as [->|Hc]; [done|]. apply orb_true_iff; right.
    pose proof (compareRanges_trans s c (upper_ r)). destruct (upperExclusive_ r); lia.
Qed.

(** The only case in which the test is not defined. *)
Definition missingBound (f : Filter) (min max : option text) : Prop :=
  match f with FNegatedBytesRange _ _ => min = None ∨ max = None | _ => False end.

Lemma nbr_testBytesRange_sound na r min max hasNull s :
  br_wf r → between min max s → br_testBytes r s = false →
  nbr_testBytesRange na r min max hasNull = Ok true ∨
  nbr_testBytesRange na r min max hasNull = Undefined ∧ (min = None ∨ max = None).
Proof.
  intros Hw Hs Ht. unfold nbr_testBytesRange. destruct (hasNull && _); [by left|].
  destruct (_ || _); [by left|].
  destruct (sameBounds min max) as [v|] eqn:E.
  { apply sameBounds_between with (s := s) in E as <-; [|done]. left. by rewrite Ht. }
  destruct min as [a|]; [|by right; auto]. rewrite !br_testBytes_spec in * by done.
  destruct (inRange r a) eqn:Ea; simpl; [|by left].
  destruct max as [c|]; [|by right; auto]. left. rewrite br_testBytes_spec by done.
  destruct (inRange r c) eqn:Ec; [|done]. destruct Hs as [Hmin Hmax].
  rewrite (inRange_convex r a s c Ea Ec (Hmin a eq_refl) (Hmax c eq_refl)) in Ht. done.
Qed.

(** A test of a block is decided by its first passing member. *)
Lemma multi_passes {A} (test : A → outcome bool) l :
  (∀ g, g ∈ l → ∃ b, test g = Ok b) → (∃ g, g ∈ l ∧ test g = Ok true) →
  foldr (λ g rest, p ← test g; if p : bool then Ok true else rest) (Ok false) l = Ok true.
Proof.
  induction l as [|g l IH]; intros Hall (x & Hx & Ht); [set_solver|]. simpl.
  destruct (Hall g) as [b Hb]; [set_solver|]. rewrite Hb. simpl. destruct b; [done|].
  apply IH; [set_solver|]. exists x. split; [|done]. apply elem_of_cons in Hx as [->|Hx]; [congruence | done].
Qed.

Lemma simple_testBytesRange g min max hasNull :
  simple g → ∃ b, testBytesRange g min max hasNull = Ok b.
Proof. destruct g; try done; intros _; simpl; eauto. Qed.

Lemma simple_testBytesRange_sound g min max hasNull s :
  simple g → between min max s → testBytes g s = true → testBytesRange g min max hasNull = Ok true.
Proof.
  destruct g; try done; simpl; intros Hw Hs Ht; f_equal.
  - by eapply br_testBytesRange_sound.
  - rewrite bv_testBytes_spec in Ht by done. apply bool_decide_eq_true in Ht.
    by eapply bv_testBytesRange_sound.
Qed.

(** A block of rows is never skipped wrongly: when a block has a null the
    filter accepts, or may hold a string the filter accepts between the known
    bounds of the block, [testBytesRange] keeps it; the one exception is a
    negated range asked about a block with a missing bound, where the code
    may dereference an empty optional. *)
Theorem testBytesRange_sound f min max hasNull :
  wf f →
  (hasNull = true ∧ testNull f = true) ∨ (∃ s, between min max s ∧ testBytes f s = true) →
  testBytesRange f min max hasNull = Ok true ∨
  testBytesRange f min max hasNull = Undefined ∧ missingBound f min max.
Proof.
  intros Hw H. destruct f as [| | | |r|na r|b|na b|fs na nan]; try (left; naive_solver).
  - left. simpl. f_equal. destruct H as [[-> Hn]|(s & Hs & Ht)].
    + unfold br_testBytesRange. simpl in Hn. by rewrite Hn.
    + by eapply br_testBytesRange_sound.
  - simpl. destruct H as [[-> Hn]|(s & Hs & Ht)].
    + left. unfold nbr_testBytesRange. simpl in Hn. by rewrite Hn.
    + apply nbr_testBytesRange_sound with (s := s); [done | done|]. simpl in Ht. by apply negb_true_iff.
  - left. destruct H as [[-> Hn]|(s & Hs & Ht)]; [|by eapply (simple_testBytesRange_sound (FBytesValues b))].
    simpl. unfold bv_testBytesRange. simpl in Hn. by rewrite Hn.
  - left. simpl. f_equal. unfold nbv_testBytesRange. destruct H as [[-> Hn]|(s & Hs & Ht)].
    + simpl in Hn. by rewrite Hn.
    + destruct (hasNull && na); [done|]. destruct (sameBounds min max) as [v|] eqn:E; [|done].
      by apply sameBounds_between with (s := s) in E as <-.
  - left. simpl in *. destruct (hasNull && na) eqn:En; [done|].
    destruct H as [[-> Hn]|(s & Hs & Ht)]; [by rewrite Hn in En|].
    apply existsb_exists in Ht as (g & Hg%list_elem_of_In & Ht). rewrite Forall_forall in Hw.
    apply multi_passes; [intros x Hx; apply simple_testBytesRange; auto|].
    exists g. split; [done|]. eapply simple_testBytesRange_sound; eauto.
Qed.

(** A string whose length a filter rejects is rejected: testing the length
    first never drops a row. *)
Theorem testLength_sound f s : wf f → testBytes f s = true → testLength f (length s) = true.
Proof.
  assert (∀ g, simple g → testBytes g s = true → testLength g (length s) = true) as Hsimple.
  { intros [| | | |r|na r|b|na b|fs na nan] Hw; try done; simpl.
    - rewrite br_testBytes_spec by done. unfold br_testLength.
      intros [HL HH]%andb_true_iff. destruct (singleValue_ r) eqn:E; [|done]. simpl.
      rewrite (singleValue_spec r Hw) in E.
      rewrite !andb_true_iff, !negb_true_iff, bool_decide_eq_true in E.
      destruct E as [[[[E1 E2] E3] E4] E5]. unfold lowOk, highOk in HL, HH.
      rewrite E1, E2, E3, E4 in *. simpl in *. rewrite <- E5 in HH. apply Nat.eqb_eq. f_equal.
      symmetry. apply compareRanges_eq. lia.
    - unfold bv_testBytes, bv_testLength. by intros [? _]%andb_true_iff. }
  destruct f as [| | | |r|na r|b|na b|fs na nan]; intros Hw; try done; [by apply (Hsimple (FBytesRange r)) | by apply (Hsimple (FBytesValues b))|].
  simpl in *. intros (g & Hg & Ht)%existsb_exists. apply existsb_exists. exists g. split; [done|].
  rewrite Forall_forall in Hw. apply Hsimple; [|done]. by apply Hw, list_elem_of_In.
Qed.

(** ** Results of a merge *)

(** What merges of simple filters return. *)
Definition isResult (r : Filter) : Prop :=
  match r with
  | AlwaysFalse | IsNull => True
  | FBytesRange _ | FBytesValues _ => simple r
  | MultiRange filters _ _ => Forall simple filters
  | _ => False
  end.

Record means (r : Filter) (nullAllowed : bool) (P : text → bool) : Prop := {
  ms_result : isResult r;
  ms_null : testNull r = nullAllowed;
  ms_test : ∀ s, testBytes r s = P s
}.

Lemma bytes_nullOrFalse_means b P : (∀ s, P s = false) → means (nullOrFalse b) b P.
Proof. intros HP. by destruct b; split; try done; intros s; rewrite HP. Qed.

Lemma newBytesRange_ok lower lu le upper uu ue na :
  lu && uu = false →
  (lu = false → uu = false → lower = [] → upper = [] → ue = true → le = true) →
  ∃ r, newBytesRange lower lu le upper uu ue na = Ok r ∧ br_wf r ∧ br_nullAllowed_ r = na ∧
    ∀ s, br_testBytes r s = lowOk lu le lower s && highOk uu ue upper s.
Proof.
  intros Hb Hs. set (r := mkBytesRange na lu le uu ue lower upper
    (negb le && negb ue && negb lu && negb uu && bool_decide (lower = upper))).
  assert (newBytesRange lower lu le upper uu ue na = Ok r) as Hr.
  { unfold newBytesRange. by destruct lu, uu. }
  assert (br_wf r) as Hw by (split; [exact Hr | exact Hs]).
  exists r. split; [done|]. split; [done|]. split; [done|]. intros s. by rewrite br_testBytes_spec.
Qed.

Lemma mergeLower_ok r1 r2 s :
  let '(lu, le, lower) := mergeLower r1 r2 in
  lu = lowerUnbounded_ r1 && lowerUnbounded_ r2 ∧
  lowOk lu le lower s = lowOk (lowerUnbounded_ r1) (lowerExclusive_ r1) (lower_ r1) s &&
    lowOk (lowerUnbounded_ r2) (lowerExclusive_ r2) (lower_ r2) s.
Proof.
  unfold mergeLower. destruct (lowerUnbounded_ r1) eqn:E1, (lowerUnbounded_ r2) eqn:E2;
    try (split; [done|]; unfold lowOk; simpl; by rewrite ?andb_true_r).
  split; [done|]. unfold lowOk, mergeExclusive. simpl.
  pose proof (compareRanges_trans s (lower_ r1) (lower_ r2)).
  pose proof (compareRanges_trans s (lower_ r2) (lower_ r1)).
  pose proof (compareRanges_trans (lower_ r1) (lower_ r2) s).
  pose proof (compareRanges_trans (lower_ r2) (lower_ r1) s).
  pose proof (compareRanges_flip (lower_ r1) (lower_ r2)).
  pose proof (compareRanges_flip s (lower_ r1)). pose proof (compareRanges_flip s (lower_ r2)).
  destruct (Z.eqb_spec (- compareRanges (lower_ r1) (lower_ r2)) 0),
    (Z.ltb_spec (- compareRanges (lower_ r1) (lower_ r2)) 0), (Z.ltb_spec (compareRanges (lower_ r1) (lower_ r2)) 0),
    (lowerExclusive_ r1), (lowerExclusive_ r2); simpl; lia.
Qed.

Lemma mergeUpper_ok r1 r2 s :
  let '(uu, ue, upper) := mergeUpper r1 r2 in
  uu = upperUnbounded_ r1 && upperUnbounded_ r2 ∧
  highOk uu ue upper s = highOk (upperUnbounded_ r1) (upperExclusive_ r1) (upper_ r1) s &&
    highOk (upperUnbounded_ r2) (upperExclusive_ r2) (upper_ r2) s.
Proof.
  unfold mergeUpper. destruct (upperUnbounded_ r1) eqn:E1, (upperUnbounded_ r2) eqn:E2;
    try (split; [done|]; unfold highOk; simpl; by rewrite ?andb_true_r).
  split; [done|]. unfold highOk, mergeExclusive. simpl.
  pose proof (compareRanges_trans s (upper_ r1) (upper_ r2)).
  pose proof (compareRanges_trans s (upper_ r2) (upper_ r1)).
  pose proof (compareRanges_flip (upper_ r1) (upper_ r2)).
  destruct (Z.eqb_spec (compareRanges (upper_ r1) (upper_ r2)) 0),
    (Z.ltb_spec (compareRanges (upper_ r1) (upper_ r2)) 0), (upperExclusive_ r1), (upperExclusive_ r2); simpl; lia.
Qed.

Lemma bytes_range_means r na :
  br_wf r → br_nullAllowed_ r = na → means (FBytesRange r) na (inRange r).
Proof. intros Hw Hn. split; [done | done | intros s; by apply br_testBytes_spec]. Qed.

(** No string lies in a range whose ends are the wrong way round. *)
Lemma empty_range le ue lower upper s :
  0 < compareRanges lower upper ∨ (lower = upper ∧ (le || ue = true)) →
  lowOk false le lower s && highOk false ue upper s = false.
Proof.
  intros H. unfold lowOk, highOk. simpl. destruct H as [H|[-> H]].
  - pose proof (compareRanges_trans lower s upper). pose proof (compareRanges_flip s lower).
    destruct le, ue; lia.
  - destruct le, ue; simpl in *; lia.
Qed.

Lemma rangesMerge_means r1 r2 b :
  br_wf r1 → br_wf r2 →
  ∃ r, rangesMerge r1 r2 b = Ok r ∧ means r b (λ s, inRange r1 s && inRange r2 s).
Proof.
  intros H1 H2. unfold rangesMerge.
  pose proof (mergeLower_ok r1 r2) as Hl. pose proof (mergeUpper_ok r1 r2) as Hu.
  destruct (mergeLower r1 r2) as [[lu le] lower], (mergeUpper r1 r2) as [[uu ue] upper].
  assert (∀ s, inRange r1 s && inRange r2 s = lowOk lu le lower s && highOk uu ue upper s) as Hin.
  { intros s. destruct (Hl s) as [_ ->], (Hu s) as [_ ->]. unfold inRange.
    by destruct (lowOk _ _ (lower_ r1) s), (lowOk _ _ (lower_ r2) s), (highOk _ _ (upper_ r1) s). }
  pose proof (bounded_side r1 H1) as Hb1. destruct (Hl []) as [-> _], (Hu []) as [-> _].
  destruct (_ && _ && (_ || _)) eqn:E.
  - exists (nullOrFalse b). split; [done|]. apply bytes_nullOrFalse_means. intros s. rewrite Hin.
    rewrite !andb_true_iff, orb_true_iff, !negb_true_iff in E. destruct E as [[-> ->] E].
    apply empty_range. rewrite Z.gtb_lt, andb_true_iff, bool_decide_eq_true in E. done.
  - destruct (newBytesRange_ok lower (lowerUnbounded_ r1 && lowerUnbounded_ r2) le upper
      (upperUnbounded_ r1 && upperUnbounded_ r2) ue b) as (r & Hr & Hw & Hn & Ht).
    + destruct (lowerUnbounded_ r1), (lowerUnbounded_ r2), (upperUnbounded_ r1), (upperUnbounded_ r2); done.
    + intros Hlu Huu -> -> ->. rewrite Hlu, Huu, orb_true_r, bool_decide_true, orb_true_r in E by done. done.
    + rewrite Hr. exists (FBytesRange r). split; [done|]. split; [done | done | intros s; simpl].
      by rewrite Ht, Hin.
Qed.

(** ** Values *)
Lemma valuesFilter_means l b :
  ∃ r, valuesFilter l b = Ok r ∧ means r b (λ s, bool_decide (s ∈ l)).
Proof.
  unfold valuesFilter. destruct l as [|x l].
  { exists (nullOrFalse b). split; [done|]. apply bytes_nullOrFalse_means. intros s. by rewrite bool_decide_false by set_solver. }
  destruct (newBytesValues_ok (x :: l) b) as (v & -> & Hw & Hn & Hv); [done|].
  exists (FBytesValues v). split; [done|]. split; [done | done | intros s; simpl].
  rewrite bv_testBytes_spec by done. by apply bool_decide_ext.
Qed.

Lemma keepValues_means v passes b :
  ∃ r, keepValues v passes b = Ok r ∧ means r b (λ s, bool_decide (s ∈ values_ v) && passes s).
Proof.
  unfold keepValues. destruct (valuesFilter_means (filter (λ x, passes x = true) (elements (values_ v))) b)
    as (r & Hr & [H1 H2 H3]).
  exists r. split; [done|]. split; [done|done|]. intros s. rewrite H3.
  rewrite (bool_decide_ext _ (s ∈ values_ v ∧ passes s = true)).
  - rewrite bool_decide_and. f_equal. by destruct (passes s).
  - rewrite list_elem_of_filter, elem_of_elements. naive_solver.
Qed.

Lemma valuesMerge_means v1 v2 b :
  bv_wf v1 → bv_wf v2 →
  ∃ r, valuesMerge v1 v2 b = Ok r ∧
    means r b (λ s, bool_decide (s ∈ values_ v1) && bool_decide (s ∈ values_ v2)).
Proof.
  intros [_ _ L1 U1] [_ _ L2 U2]. unfold valuesMerge.
  destruct ((_ <? 0) || (_ <? 0)) eqn:E.
  - exists (nullOrFalse b). split; [done|]. apply bytes_nullOrFalse_means. intros s.
    rewrite <- bool_decide_and. apply bool_decide_false. intros [Hs1 Hs2].
    specialize (L1 s Hs1). specialize (U1 s Hs1). specialize (L2 s Hs2). specialize (U2 s Hs2).
    apply orb_true_iff in E. rewrite !Z.ltb_lt in E. destruct E as [E|E].
    + pose proof (compareRanges_trans s (bv_upper_ v1) (bv_lower_ v2)).
      pose proof (compareRanges_flip s (bv_lower_ v2)). lia.
    + pose proof (compareRanges_trans s (bv_upper_ v2) (bv_lower_ v1)).
      pose proof (compareRanges_flip s (bv_lower_ v1)). lia.
  - assert (∀ w1 w2 : BytesValues, ∃ r,
      valuesFilter (filter (λ v, v ∈ values_ w2) (elements (values_ w1))) b = Ok r ∧
      means r b (λ s, bool_decide (s ∈ values_ w1) && bool_decide (s ∈ values_ w2))) as H.
    { intros w1 w2. destruct (valuesFilter_means (filter (λ v, v ∈ values_ w2) (elements (values_ w1))) b)
        as (r & Hr & [H1 H2 H3]).
      exists r. split; [done|]. split; [done|done|]. intros s. rewrite H3, <- bool_decide_and.
      apply bool_decide_ext. rewrite list_elem_of_filter, elem_of_elements. naive_solver. }
    destruct (_ <? _)%nat; [|apply H]. destruct (H v2 v1) as (r & Hr & [H1 H2 H3]).
    exists r. split; [done|]. split; [done|done|]. intros s. by rewrite H3, andb_comm.
Qed.

(** ** Concrete filters *)

(** The range from ["b"] to ["d"], without its end, and the values ["a"] and ["c"]. *)
Definition sampleRange : BytesRange :=
  mkBytesRange true false false false true (list_ascii_of_string "b") (list_ascii_of_string "d") false.
Definition sampleValues : list text := [list_ascii_of_string "a"; list_ascii_of_string "c"].

Lemma sampleRange_wf : br_wf sampleRange.
Proof. split; [reflexivity | discriminate]. Qed.

Lemma testBytes_accepts_witness :
  testBytes (FNegatedBytesRange true sampleRange) (list_ascii_of_string "c") = false ∧
  accepts (FNegatedBytesRange true sampleRange) (list_ascii_of_string "c") = false.
Proof.
  split; [|reflexivity].
  rewrite (testBytes_accepts (FNegatedBytesRange true sampleRange)); [reflexivity | exact sampleRange_wf].
Defined.

Lemma testBytesRange_sound_witness :
  testBytesRange (FBytesRange sampleRange) (Some (list_ascii_of_string "a")) (Some (list_ascii_of_string "c")) false
    = Ok true.
Proof.
  destruct (testBytesRange_sound (FBytesRange sampleRange) (Some (list_ascii_of_string "a"))
    (Some (list_ascii_of_string "c")) false) as [H|[_ []]]; [exact sampleRange_wf| |exact H].
  right. exists (list_ascii_of_string "c"). split; [|reflexivity].
  split; intros m [= <-]; vm_compute; discriminate.
Defined.

Lemma testLength_sound_witness :
  testBytes (FBytesRange sampleRange) (list_ascii_of_string "bc") = true ∧
  testLength (FBytesRange sampleRange) 2 = true.
Proof.
  split; [reflexivity|].
  apply (testLength_sound (FBytesRange sampleRange) (list_ascii_of_string "bc")); [exact sampleRange_wf | reflexivity].
Defined.

(** A block of which only the largest string is known, asked whether it has
    strings outside a range without a lower end: the smallest is dereferenced
    although it is absent. *)
Theorem negated_range_missing_min na r m :
  br_wf r → lowerUnbounded_ r = true →
  testBytesRange (FNegatedBytesRange na r) None (Some m) false = Undefined.
Proof.
  intros Hw Hl. pose proof (bounded_side r Hw) as Hb. rewrite Hl in Hb. simpl in Hb.
  simpl. unfold nbr_testBytesRange. simpl. by rewrite Hl.
Qed.

(** The empty string passes the range from the empty string to the empty
    string even when the upper end is excluded. *)
Theorem empty_string_ignores_upper r na :
  newBytesRange [] false false [] false true na = Ok r → br_testBytes r [] = true ∧ inRange r [] = false.
Proof. intros [_ ->]%newBytesRange_inv. by split. Qed.
