(* ===== verification/BytesMerge.v ===== *)
(** * Merging filters on strings

    [mergeWith] of [velox/type/Filter.cpp] on the string filters returns a
    well-formed filter that accepts what both filters accept, for every pair
    of kinds, and its nested calls are at most six deep. *)
From Stdlib Require Import Ascii String Sorted.
From S2P Require Import Prelude Text BytesFilter BytesFilterCorrect.
Local Open Scope Z_scope.

#[local] Arguments compareRanges : simpl never.

(** ** The complement of a range *)
Lemma br_withNull_wf r b : br_wf r → br_wf (br_withNull r b).
Proof.
  intros Hw. pose proof (bounded_side r Hw) as Hb. split; [|apply Hw]. unfold br_withNull; cbn.
  rewrite (singleValue_spec r Hw). unfold newBytesRange.
  by destruct (lowerUnbounded_ r), (upperUnbounded_ r).
Qed.

Lemma toMultiRange_means na r :
  br_wf r → ∃ m, toMultiRange na r = Ok m ∧ means m na (λ s, negb (inRange r s)) ∧
    match m with FBytesRange _ | MultiRange _ _ _ => True | _ => False end.
Proof.
  intros Hw. pose proof (bounded_side r Hw) as Hb. unfold toMultiRange.
  rewrite !br_testBytes_spec by done.
  destruct (newBytesRange_ok [] true false (lower_ r) false (inRange r (lower_ r)) false)
    as (lo & Elo & Wlo & Nlo & Tlo); [done | done|].
  destruct (newBytesRange_ok (upper_ r) false (inRange r (upper_ r)) [] true false false)
    as (hi & Ehi & Whi & Nhi & Thi); [done | done|].
  rewrite Elo, Ehi.
  assert (∀ s, negb (inRange r s) =
      (negb (lowerUnbounded_ r) && br_testBytes lo s) || (negb (upperUnbounded_ r) && br_testBytes hi s)) as Hs.
  { intros s. rewrite Tlo, Thi. clear - Hb. unfold inRange, lowOk, highOk. rewrite !compareRanges_refl.
    order3 s (lower_ r) (upper_ r).
    destruct (lowerUnbounded_ r), (upperUnbounded_ r), (lowerExclusive_ r), (upperExclusive_ r);
      simpl in *; try done; by_bools; lia. }
  destruct (lowerUnbounded_ r), (upperUnbounded_ r); simpl in Hb; try done; simpl.
  - exists (FBytesRange (br_withNull hi na)). split; [done|]. split; [|done].
    split; [by apply br_withNull_wf | done|]. intros s. by rewrite Hs.
  - exists (FBytesRange (br_withNull lo na)). split; [done|]. split; [|done].
    split; [by apply br_withNull_wf | done|]. intros s. rewrite Hs. simpl. by rewrite orb_false_r.
  - eexists. split; [done|]. split; [|done]. split; [by apply Forall_cons_2, Forall_singleton | done|].
    intros s. rewrite Hs. simpl. by rewrite orb_false_r.
Qed.

(** ** The gaps between rejected values *)
Definition increasing (l : list text) : Prop := StronglySorted (λ a b, compareRanges a b < 0) l.

#[local] Instance text_le_trans : Transitive text_le.
Proof. intros a b c. apply compareRanges_trans. Qed.

#[local] Instance text_le_total : Total text_le.
Proof. intros a b. unfold text_le. pose proof (compareRanges_flip a b). lia. Qed.

Lemma increasing_sorted l : StronglySorted text_le l → NoDup l → increasing l.
Proof.
  induction 1 as [|a l Hs IH Ha]; intros Hn; [constructor|]. apply NoDup_cons in Hn as [Hnin Hn].
  constructor; [by apply IH|]. rewrite Forall_forall in Ha |- *. intros b Hb.
  assert (a ≠ b) as Hne by congruence. specialize (Ha b Hb). rewrite <- compareRanges_eq in Hne.
  unfold text_le in Ha. lia.
Qed.

Lemma increasing_filter (P : text → Prop) `{!∀ x, Decision (P x)} l : increasing l → increasing (filter P l).
Proof.
  induction 1 as [|a l Hs IH Ha]; [constructor|]. rewrite filter_cons. destruct (decide (P a)); [|done].
  constructor; [done|]. rewrite Forall_forall in Ha |- *. intros b [_ Hb]%list_elem_of_filter. by apply Ha.
Qed.

Lemma increasing_merge_sort l : NoDup l → increasing (merge_sort text_le l).
Proof.
  intros Hn. apply increasing_sorted; [apply StronglySorted_merge_sort; apply _|]. by rewrite merge_sort_Permutation.
Qed.

(** Splitting at the first of some increasing values. *)
Lemma gap_step (above : bool) f front upper uu ue s :
  increasing (f :: front) → highOk uu ue upper f = true → (0 < compareRanges s f → above = true) →
  above && highOk false true f s || (0 <? compareRanges s f) && highOk uu ue upper s && bool_decide (s ∉ front) =
  above && highOk uu ue upper s && bool_decide (s ∉ f :: front).
Proof.
  intros [_ Hf]%StronglySorted_inv Hhf Hab.
  rewrite (bool_decide_ext (s ∉ f :: front) (s ≠ f ∧ s ∉ front)) by set_solver.
  rewrite bool_decide_and. unfold highOk at 1. simpl.
  destruct (Z.lt_trichotomy (compareRanges s f) 0) as [Hs|[Hs|Hs]].
  - assert (s ≠ f) by (intros ->; rewrite compareRanges_refl in Hs; lia).
    assert (s ∉ front).
    { intros Hin. rewrite Forall_forall in Hf. specialize (Hf s Hin). pose proof (compareRanges_flip s f). lia. }
    assert (highOk uu ue upper s = true) as ->.
    { unfold highOk in *. pose proof (compareRanges_trans s f upper). destruct uu, ue; simpl in *; lia. }
    rewrite !bool_decide_true by done. simpl. destruct above; lia.
  - apply compareRanges_eq in Hs as ->. rewrite compareRanges_refl, (bool_decide_false (f ≠ f)) by auto.
    simpl. by rewrite !andb_false_r.
  - assert (s ≠ f) by (intros ->; rewrite compareRanges_refl in Hs; lia).
    rewrite (Hab Hs), (bool_decide_true (s ≠ f)) by done. simpl.
    destruct (Z.ltb_spec (compareRanges s f) 0); [lia|]. destruct (Z.ltb_spec 0 (compareRanges s f)); [done | lia].
Qed.

(** The ranges from [back] on accept what lies above [back], below the upper
    end, and is none of the values in between. *)
Lemma gapsFrom_ok back front upper uu ue :
  increasing (back :: front) → (∀ v, v ∈ front → highOk uu ue upper v = true) →
  ∃ rs, gapsFrom back front upper uu ue = Ok rs ∧ Forall br_wf rs ∧
    ∀ s, existsb (λ r, br_testBytes r s) rs =
      (0 <? compareRanges s back) && highOk uu ue upper s && bool_decide (s ∉ front).
Proof.
  revert back. induction front as [|f front IH]; intros back Hi Hh; cbn [gapsFrom].
  - destruct (newBytesRange_ok back false true upper uu ue false) as (r & -> & Hw & _ & Ht); [done | done|].
    exists [r]. split; [done|]. split; [by apply Forall_singleton|]. intros s. simpl.
    by rewrite Ht, orb_false_r, andb_true_r.
  - apply StronglySorted_inv in Hi as [Hi Hback].
    destruct (newBytesRange_ok back false true f false true false) as (r & -> & Hw & _ & Ht); [done | done|].
    destruct (IH f Hi) as (rs & -> & Hws & Hrs); [set_solver|].
    exists (r :: rs). split; [done|]. split; [by constructor|]. intros s. cbn [existsb]. rewrite Ht, Hrs.
    apply gap_step; [done | set_solver|]. intros Hs. apply Z.ltb_lt.
    assert (compareRanges back f < 0) by (rewrite Forall_forall in Hback; set_solver).
    pose proof (compareRanges_trans back f s). pose proof (compareRanges_flip s f).
    pose proof (compareRanges_flip back s). lia.
Qed.

Lemma existsb_ranges rs s :
  existsb (λ g, testBytes g s) (map FBytesRange rs) = existsb (λ r, br_testBytes r s) rs.
Proof. induction rs as [|r rs IH]; simpl; [done | by rewrite IH]. Qed.

Lemma simple_ranges rs : Forall br_wf rs → Forall simple (map FBytesRange rs).
Proof. induction 1; constructor; done. Qed.

Lemma lowOk_true u e l s : lowOk u e l s = true ↔ u = true ∨ 0 < compareRanges s l ∨ (e = false ∧ s = l).
Proof. rewrite <- (compareRanges_eq s l). unfold lowOk. destruct u, e; simpl; lia. Qed.

Lemma highOk_true u e l s : highOk u e l s = true ↔ u = true ∨ compareRanges s l < 0 ∨ (e = false ∧ s = l).
Proof. rewrite <- (compareRanges_eq s l). unfold highOk. destruct u, e; simpl; lia. Qed.

(** The range with its ends made exclusive where they are rejected, in terms
    of the values [inner] left after the ends are erased. *)
Lemma tightened_range v r (inner : list text) s :
  let lu := lowerUnbounded_ r in
  let uu := upperUnbounded_ r in
  let rejected x := x ∈ values_ v ∧ inRange r x = true in
  (∀ x, x ∈ inner ↔ rejected x ∧ (lu = false → x ≠ lower_ r) ∧ (uu = false → x ≠ upper_ r)) →
  lowOk lu (negb lu && (lowerExclusive_ r || bool_decide (rejected (lower_ r)))) (lower_ r) s &&
  highOk uu (negb uu && (upperExclusive_ r ||
    bool_decide (rejected (upper_ r) ∧ (lu = false → upper_ r ≠ lower_ r)))) (upper_ r) s &&
  bool_decide (s ∉ inner) =
  inRange r s && bool_decide (s ∉ values_ v).
Proof.
  intros lu uu rejected Hin. apply eq_true_iff_eq. specialize (Hin s).
  assert (inRange r s = true ↔ lowOk lu (lowerExclusive_ r) (lower_ r) s = true ∧
    highOk uu (upperExclusive_ r) (upper_ r) s = true) as Hr by apply andb_true_iff.
  rewrite !andb_true_iff, !bool_decide_eq_true, Hr, !lowOk_true, !highOk_true.
  rewrite lowOk_true, highOk_true in Hr.
  rewrite !andb_false_iff, !orb_false_iff, !bool_decide_eq_false, !negb_false_iff.
  split.
  - intros [[HL HH] Hni].
    assert (lu = true ∨ 0 < compareRanges s (lower_ r) ∨ lowerExclusive_ r = false ∧ s = lower_ r) as HL'.
    { destruct HL as [?|[?|[[?|[? _]] ?]]]; auto. }
    assert (uu = true ∨ compareRanges s (upper_ r) < 0 ∨ upperExclusive_ r = false ∧ s = upper_ r) as HH'.
    { destruct HH as [?|[?|[[?|[? _]] ?]]]; auto. }
    split; [done|]. intros Hs. apply Hni, Hin.
    assert (rejected s) as Hrej by (split; [done | by apply Hr]). split; [done|]. clear Hr Hin Hni.
    assert (lu = false → s ≠ lower_ r) as Hnl.
    { intros El Es. destruct HL as [?|[?|[[?|[_ HL]] _]]]; [congruence | | congruence |].
      - rewrite Es, compareRanges_refl in *. lia.
      - apply HL. by rewrite <- Es. }
    split; [done|]. intros Eu Es. destruct HH as [?|[?|[[?|[_ HH]] _]]]; [congruence | | congruence |].
    + rewrite Es, compareRanges_refl in *. lia.
    + apply HH. by rewrite <- Es.
  - intros [[HL HH] Hs]. assert (¬ rejected s) as Hrej by (by intros [? _]).
    split; [split|]; [| |by intros [??]%Hin].
    + destruct HL as [?|[?|[? Es]]]; [by left | by right; left|]. right; right. split; [|done].
      right. split; [done|]. by rewrite <- Es.
    + destruct HH as [?|[?|[? Es]]]; [by left | by right; left|]. right; right. split; [|done].
      right. split; [done|]. rewrite <- Es. by intros [??].
Qed.

(** What is left of the rejected values, in order. *)
Lemma rejected_inner v r :
  br_wf r →
  let rejected := merge_sort text_le (filter (λ x, br_testBytes r x = true) (elements (values_ v))) in
  let noLower := if lowerUnbounded_ r then rejected else filter (.≠ lower_ r) rejected in
  let inner := if upperUnbounded_ r then noLower else filter (.≠ upper_ r) noLower in
  (∀ x, x ∈ rejected ↔ x ∈ values_ v ∧ inRange r x = true) ∧
  (∀ x, x ∈ noLower ↔ (x ∈ values_ v ∧ inRange r x = true) ∧ (lowerUnbounded_ r = false → x ≠ lower_ r)) ∧
  (∀ x, x ∈ inner ↔ (x ∈ values_ v ∧ inRange r x = true) ∧ (lowerUnbounded_ r = false → x ≠ lower_ r) ∧
     (upperUnbounded_ r = false → x ≠ upper_ r)) ∧
  increasing inner.
Proof.
  intros Hw rejected noLower inner.
  assert (∀ x, x ∈ rejected ↔ x ∈ values_ v ∧ inRange r x = true) as Hr.
  { intros x. unfold rejected. rewrite merge_sort_Permutation, list_elem_of_filter, elem_of_elements.
    rewrite br_testBytes_spec by done. naive_solver. }
  assert (∀ x, x ∈ noLower ↔ (x ∈ values_ v ∧ inRange r x = true) ∧ (lowerUnbounded_ r = false → x ≠ lower_ r)) as Hn.
  { intros x. unfold noLower. destruct (lowerUnbounded_ r); rewrite ?list_elem_of_filter, Hr; naive_solver. }
  split; [done|]. split; [done|]. split.
  { intros x. unfold inner. destruct (upperUnbounded_ r); rewrite ?list_elem_of_filter, Hn; naive_solver. }
  assert (increasing rejected) as Hi by apply increasing_merge_sort, NoDup_filter, NoDup_elements.
  unfold inner, noLower. destruct (lowerUnbounded_ r), (upperUnbounded_ r); auto using increasing_filter.
Qed.

Lemma negatedValuesRange_means v r b :
  br_wf r →
  ∃ f, negatedValuesRange v r b = Ok f ∧ means f b (λ s, inRange r s && bool_decide (s ∉ values_ v)).
Proof.
  intros Hw. destruct (rejected_inner v r Hw) as (Hr & Hn & Hin & Hi). unfold negatedValuesRange.
  rewrite (bool_decide_ext _ _ (Hr (lower_ r))), (bool_decide_ext _ _ (Hn (upper_ r))).
  pose proof (λ s, tightened_range v r _ s Hin) as Ht. cbv zeta in Ht.
  set (lo := negb (lowerUnbounded_ r) && _) in *. set (hi := negb (upperUnbounded_ r) && _) in *.
  clear Hr Hn. revert Hin Hi Ht. match goal with |- context [increasing ?l] => generalize l end.
  intros inner Hin Hi Ht. pose proof (bounded_side r Hw) as Hb. destruct inner as [|back front].
  - destruct (newBytesRange_ok (lower_ r) (lowerUnbounded_ r) lo (upper_ r) (upperUnbounded_ r) hi b)
      as (f & -> & Wf & Nf & Tf); [done| |].
    + intros El Eu E1 E2. unfold lo, hi. rewrite El, Eu. simpl. intros [E|E]%orb_true_iff.
      * by rewrite (bw_sane _ Hw El Eu E1 E2 E).
      * apply bool_decide_eq_true in E as [_ E]. exfalso. apply E; congruence.
    + exists (FBytesRange f). split; [done|]. split; [done | done|]. intros s. simpl.
      rewrite Tf, <- Ht, bool_decide_true, andb_true_r by set_solver. done.
  - assert (∀ x, x ∈ back :: front → lowOk (lowerUnbounded_ r) lo (lower_ r) x = true ∧
        highOk (upperUnbounded_ r) hi (upper_ r) x = true) as Hx.
    { intros x [[Hx1 Hx2] [Hx3 Hx4]]%Hin. unfold inRange in Hx2. apply andb_true_iff in Hx2 as [HL HH].
      rewrite lowOk_true, highOk_true in *. split.
      - destruct HL as [?|[?|[??]]]; auto. destruct (lowerUnbounded_ r); naive_solver.
      - destruct HH as [?|[?|[??]]]; auto. destruct (upperUnbounded_ r); naive_solver. }
    destruct (newBytesRange_ok (lower_ r) (lowerUnbounded_ r) lo back false true false)
      as (f & -> & Wf & Nf & Tf); [by rewrite andb_false_r| |].
    { intros El _ E1 E2 _. destruct (proj1 (Hin back)) as (_ & Hne & _); [set_solver|]. naive_solver. }
    destruct (gapsFrom_ok back front (upper_ r) (upperUnbounded_ r) hi) as (rs & -> & Wrs & Trs); [done | set_solver|].
    eexists. split; [done|]. split; [by apply (simple_ranges (f :: rs)); constructor | done|].
    intros s. cbn [testBytes]. rewrite existsb_ranges. cbn [existsb]. rewrite Tf, Trs, <- Ht.
    apply gap_step; [done | apply Hx; set_solver|]. intros Hs.
    destruct (Hx back) as [HL _]; [set_solver|]. rewrite lowOk_true in *.
    destruct HL as [?|[?|[_ <-]]]; auto. right; left.
    pose proof (compareRanges_trans (lower_ r) back s). pose proof (compareRanges_flip s back).
    pose proof (compareRanges_flip back (lower_ r)). pose proof (compareRanges_flip s (lower_ r)). 
    pose proof (compareRanges_flip (lower_ r) s). pose proof (compareRanges_flip (lower_ r) back). lia.
Qed.

(** ** Copies *)
Lemma map_clone fs : Forall simple fs → map (λ g, clone g None) fs = fs.
Proof. induction 1 as [|g fs Hg _ IH]; [done|]. simpl. rewrite IH. by destruct g. Qed.

Lemma clone_None f : wf f → clone f None = f.
Proof. destruct f; try done. intros Hw. simpl in *. by rewrite map_clone. Qed.

(** A filter that has a null flag of its own. *)
Definition flagged (f : Filter) : Prop :=
  match f with AlwaysFalse | AlwaysTrue | IsNull | IsNotNull => False | _ => True end.

Lemma flagged_dec f : flagged f ∨ ¬ flagged f.
Proof. destruct f; simpl; tauto. Qed.

Lemma clone_Some f b :
  wf f → flagged f →
  wf (clone f (Some b)) ∧ testNull (clone f (Some b)) = b ∧ ∀ s, testBytes (clone f (Some b)) s = testBytes f s.
Proof.
  destruct f as [| | | |r|na r|v|na v|fs na nan]; try done; intros Hw _; simpl in *; rewrite ?map_clone by done;
    (split; [|done]); [by apply br_withNull_wf | by destruct Hw; split | exact Hw].
Qed.

(** ** Pairs of filters *)

(** With [k] nested calls the merge returns a simple filter, or a union of
    such, for the conjunction. *)
Definition meets (k : nat) (f g : Filter) : Prop :=
  ∃ r, (∀ n, mergeWithFuel (k + n) f g = Ok r) ∧
    means r (testNull f && testNull g) (λ s, testBytes f s && testBytes g s).

Lemma bytes_means_ext r b P Q : (∀ s, P s = Q s) → means r b P → means r b Q.
Proof. intros HPQ [H1 H2 H3]. split; [done | done|]. intros s. by rewrite H3. Qed.

Lemma meets_here f g (step : outcome Filter) :
  (∀ rec, mergeStep rec f g = step) →
  (∃ r, step = Ok r ∧ means r (testNull f && testNull g) (λ s, testBytes f s && testBytes g s)) →
  meets 1 f g.
Proof. intros Hs (r & -> & Hr). exists r. split; [intros n; apply Hs | done]. Qed.

Lemma meets_mono j k f g : (j ≤ k)%nat → meets j f g → meets k f g.
Proof.
  intros Hjk (r & Hr & Hm). exists r. split; [|done]. intros n.
  replace (k + n)%nat with (j + (k - j + n))%nat by lia. apply Hr.
Qed.

Lemma meets_swap k f g : (∀ rec, mergeStep rec f g = rec g f) → meets k g f → meets (S k) f g.
Proof.
  intros Hs (r & Hr & Hm). exists r. split.
  - intros n. change (mergeStep (mergeWithFuel (k + n)) f g = Ok r). by rewrite Hs.
  - rewrite andb_comm. eapply bytes_means_ext; [|exact Hm]. intros s. apply andb_comm.
Qed.

Ltac step_here := intros ?; cbn [mergeStep br_mergeWith bv_mergeWith nbv_mergeWith testNull]; reflexivity.

Lemma meets_range_range r1 r2 : br_wf r1 → br_wf r2 → meets 1 (FBytesRange r1) (FBytesRange r2).
Proof.
  intros H1 H2. eapply meets_here; [by step_here|].
  destruct (rangesMerge_means r1 r2 (br_nullAllowed_ r1 && br_nullAllowed_ r2) H1 H2) as (r & Hr & Hm).
  exists r. split; [done|]. eapply bytes_means_ext; [|exact Hm]. intros s. simpl. by rewrite !br_testBytes_spec.
Qed.

(** Values against anything that is not a union. *)
Definition probed (f : Filter) : Prop :=
  match f with
  | FBytesRange r | FNegatedBytesRange _ r => br_wf r
  | FBytesValues b | FNegatedBytesValues _ b => bv_wf b
  | _ => False
  end.

Lemma range_bounds_between r s :
  br_wf r → br_testBytes r s = true →
  between (rangeBound (lowerUnbounded_ r) (lower_ r)) (rangeBound (upperUnbounded_ r) (upper_ r)) s.
Proof.
  intros Hw. rewrite br_testBytes_spec by done. unfold inRange, lowOk, highOk, rangeBound.
  intros [HL HH]%andb_true_iff. split; intros m Hm.
  - destruct (lowerUnbounded_ r); simplify_eq. pose proof (compareRanges_flip (lower_ r) s).
    pose proof (compareRanges_flip s (lower_ r)). destruct (lowerExclusive_ r); simpl in HL; lia.
  - destruct (upperUnbounded_ r); simplify_eq. destruct (upperExclusive_ r); simpl in HH; lia.
Qed.

Lemma meets_values b g : bv_wf b → probed g → meets 1 (FBytesValues b) g.
Proof.
  intros Hb Hg.
  assert (∃ f, keepValues b (testBytes g) (bv_nullAllowed_ b && testNull g) = Ok f ∧
    means f (testNull (FBytesValues b) && testNull g) (λ s, testBytes (FBytesValues b) s && testBytes g s)) as Hk.
  { destruct (keepValues_means b (testBytes g) (bv_nullAllowed_ b && testNull g)) as (f & Hf & Hm).
    exists f. split; [done|]. eapply bytes_means_ext; [|exact Hm]. intros s. simpl. by rewrite bv_testBytes_spec. }
  destruct g as [| | | |r|na r|v|na v|fs na nan]; try done; eapply meets_here; [by step_here| |by step_here| |by step_here| |by step_here|]; try exact Hk.
  - destruct (bv_testBytesRange b _ _ _) eqn:E; [exact Hk|]. simpl. eexists. split; [done|].
    apply bytes_nullOrFalse_means. intros s. apply andb_false_iff.
    destruct (br_testBytes r s) eqn:Et; [left | by right]. rewrite bv_testBytes_spec by done.
    apply bool_decide_eq_false. intros Hs. rewrite (bv_testBytesRange_sound b _ _ _ s) in E; [done | done| |done].
    by apply range_bounds_between.
  - destruct (valuesMerge_means b v (bv_nullAllowed_ b && bv_nullAllowed_ v) Hb Hg) as (f & Hf & Hm).
    exists f. split; [done|]. eapply bytes_means_ext; [|exact Hm]. intros s. simpl. by rewrite !bv_testBytes_spec.
Qed.

Lemma meets_negated_range na b r : bv_wf b → br_wf r → meets 1 (FNegatedBytesValues na b) (FBytesRange r).
Proof.
  intros Hb Hr. eapply meets_here; [by step_here|].
  destruct (negatedValuesRange_means b r (na && br_nullAllowed_ r) Hr) as (f & Hf & Hm).
  exists f. split; [done|]. eapply bytes_means_ext; [|exact Hm]. intros s. simpl.
  rewrite br_testBytes_spec, bv_testBytes_spec, bool_decide_not by done. apply andb_comm.
Qed.

(** ** Unions *)
Definition collected (acc : list text * list Filter) (s : text) : bool :=
  bool_decide (s ∈ acc.1) || existsb (λ g, testBytes g s) acc.2.

Lemma collect_ok acc r b P :
  Forall simple acc.2 → means r b P →
  Forall simple (collect acc r).2 ∧ ∀ s, collected (collect acc r) s = collected acc s || P s.
Proof.
  destruct acc as [vs fs]. intros Hfs [Hr _ HP].
  assert (∀ gs, Forall simple gs → (∀ s, existsb (λ g, testBytes g s) gs = P s) →
    Forall simple (fs ++ gs) ∧ ∀ s, collected (vs, fs ++ gs) s = collected (vs, fs) s || P s) as Hadd.
  { intros gs Hgs HP'. split; [by apply Forall_app|]. intros s. unfold collected. simpl.
    by rewrite existsb_app, HP', orb_assoc. }
  destruct r as [| | | |r|na r|v|na v|gs na nan]; try done; simpl.
  - split; [done|]. intros s. rewrite <- HP. simpl. by rewrite orb_false_r.
  - split; [done|]. intros s. rewrite <- HP. simpl. by rewrite orb_false_r.
  - apply Hadd; [by constructor|]. intros s. rewrite <- HP. simpl. by rewrite orb_false_r.
  - split; [done|]. intros s. rewrite <- HP. unfold collected. simpl.
    rewrite bv_testBytes_spec by done.
    rewrite (bool_decide_ext (s ∈ vs ++ elements (values_ v)) (s ∈ vs ∨ s ∈ values_ v)) by set_solver.
    rewrite bool_decide_or. destruct (bool_decide (s ∈ vs)), (bool_decide (s ∈ values_ v)), (existsb _ fs); done.
  - rewrite map_clone by done. apply Hadd; [done|]. intros s. by rewrite <- HP.
Qed.

Lemma finishMerge_means acc b nan :
  Forall simple acc.2 → ∃ r, finishMerge acc b nan = Ok r ∧ means r b (collected acc).
Proof.
  destruct acc as [vs fs]. simpl. intros Hfs.
  assert (∃ gs, match vs with
      | [] => Ok fs
      | _ => v ← newBytesValues vs b; Ok (fs ++ [FBytesValues v])
      end = Ok gs ∧ Forall simple gs ∧ ∀ s, existsb (λ g, testBytes g s) gs = collected (vs, fs) s) as (gs & -> & Hgs & Ht).
  { destruct vs as [|x vs]; [by exists fs|].
    destruct (newBytesValues_ok (x :: vs) b) as (v & -> & Hw & _ & Hv); [done|].
    eexists. split; [done|]. split; [apply Forall_app; split; [done | by constructor]|]. intros s.
    rewrite existsb_app. unfold collected. simpl. rewrite bv_testBytes_spec, orb_false_r, orb_comm by done.
    f_equal. apply bool_decide_ext, Hv. }
  simpl. destruct gs as [|g [|g' gs]].
  - eexists. split; [done|]. apply bytes_nullOrFalse_means. intros s. by rewrite <- Ht.
  - eexists. split; [done|]. pose proof (Forall_inv Hgs) as Hg. destruct (clone_Some g b) as (H1 & H2 & H3).
    + by destruct g; simpl in *.
    + by destruct g; simpl in *.
    + split; [by destruct g; simpl in * | done|]. intros s. rewrite H3, <- Ht. simpl. by rewrite orb_false_r.
  - eexists. split; [done|]. by split.
Qed.

(** Folding merges over lists of filters, given a bound for each pair. *)
Definition addPair (n : nat) (f : Filter) (acc : list text * list Filter) (g : Filter) :=
  inner ← mergeWithFuel (2 + n) f g; Ok (collect acc inner).

Lemma addPairs_ok f gs acc :
  (∀ g, g ∈ gs → meets 2 f g) → Forall simple acc.2 →
  ∃ acc', (∀ n, foldM_o (addPair n f) gs acc = Ok acc') ∧ Forall simple acc'.2 ∧
    ∀ s, collected acc' s = collected acc s || (testBytes f s && existsb (λ g, testBytes g s) gs).
Proof.
  revert acc. induction gs as [|g gs IH]; intros acc Hg Hacc.
  { exists acc. split; [done|]. split; [done|]. intros s. simpl. by rewrite andb_false_r, orb_false_r. }
  destruct (Hg g) as (r & Hr & Hm); [set_solver|].
  destruct (collect_ok acc r _ _ Hacc Hm) as [Hs Hc].
  destruct (IH (collect acc r)) as (acc' & Hf & Hs' & Hc'); [set_solver | done|].
  exists acc'. split; [|split; [done|]].
  - intros n. cbn [foldM_o]. assert (addPair n f acc g = Ok (collect acc r)) as -> by (unfold addPair; by rewrite Hr).
    apply Hf.
  - intros s. rewrite Hc', Hc. simpl. by destruct (collected acc s), (testBytes f s), (testBytes g s).
Qed.

Lemma addAllPairs_ok fs gs acc :
  (∀ f g, f ∈ fs → g ∈ gs → meets 2 f g) → Forall simple acc.2 →
  ∃ acc', (∀ n, foldM_o (λ acc f, foldM_o (addPair n f) gs acc) fs acc = Ok acc') ∧ Forall simple acc'.2 ∧
    ∀ s, collected acc' s = collected acc s || (existsb (λ f, testBytes f s) fs && existsb (λ g, testBytes g s) gs).
Proof.
  revert acc. induction fs as [|f fs IH]; intros acc Hfg Hacc.
  { exists acc. split; [done|]. split; [done|]. intros s. simpl. by rewrite orb_false_r. }
  destruct (addPairs_ok f gs acc) as (acc1 & Hf1 & Hs1 & Hc1); [set_solver | done|].
  destruct (IH acc1) as (acc2 & Hf2 & Hs2 & Hc2); [set_solver | done|].
  exists acc2. split; [intros n; cbn [foldM_o]; rewrite Hf1; apply Hf2 | split; [done|]].
  intros s. rewrite Hc2, Hc1. simpl. by destruct (collected acc s), (testBytes f s), (existsb _ gs), (existsb _ fs).
Qed.

(** What a union is merged with pairwise. *)
Definition paired (f : Filter) : Prop :=
  match f with FBytesRange _ | FBytesValues _ | FNegatedBytesValues _ _ | MultiRange _ _ _ => True | _ => False end.

Lemma otherFilters_test f s : existsb (λ g, testBytes g s) (otherFilters f) = testBytes f s.
Proof. destruct f; simpl; by rewrite ?orb_false_r. Qed.

Lemma meets_multi fs na nan other :
  (∀ f g, f ∈ fs → g ∈ otherFilters other → meets 2 f g) → paired other →
  meets 3 (MultiRange fs na nan) other.
Proof.
  intros Hfg Hk. destruct (addAllPairs_ok fs (otherFilters other) ([], [])) as (acc & Hf & Hs & Hc); [done|constructor|].
  destruct (finishMerge_means acc (na && testNull other)
    (match other with MultiRange _ _ nan' => nan && nan' | _ => nan end) Hs) as (r & Hr & Hm).
  exists r. split.
  - intros n. specialize (Hf n). transitivity (acc' ← Ok acc; finishMerge acc' (na && testNull other)
      (match other with MultiRange _ _ nan' => nan && nan' | _ => nan end)); [|exact Hr].
    rewrite <- Hf. by destruct other.
  - eapply bytes_means_ext; [|exact Hm]. intros s. rewrite Hc, otherFilters_test. done.
Qed.

(** ** The remaining pairs *)
Lemma meets_simple f g : simple f → (simple g ∨ ∃ na b, g = FNegatedBytesValues na b ∧ bv_wf b) → meets 2 f g.
Proof.
  intros Hf Hg. destruct f as [| | | |r|na r|v|na v|fs na nan]; try done; simpl in Hf.
  - destruct Hg as [Hg|(na & b & -> & Hb)]; [|by apply meets_swap, meets_negated_range].
    destruct g as [| | | |r'|na r'|b|na b|gs na nan]; try done.
    + by apply (meets_mono 1), meets_range_range; [lia|..].
    + by apply meets_swap, meets_values.
  - apply (meets_mono 1); [lia|]. apply meets_values; [done|]. destruct Hg as [Hg|(na & b & -> & Hb)]; [|done].
    by destruct g.
Qed.

Lemma meets_multi_wf fs na nan other :
  Forall simple fs → wf other → paired other → meets 3 (MultiRange fs na nan) other.
Proof.
  intros Hfs Hw Hp. apply meets_multi; [|done]. rewrite Forall_forall in Hfs. intros f g Hf Hg.
  apply meets_simple; [by apply Hfs|].
  destruct other as [| | | |r|b r|v|b v|gs b nan']; try done; simpl in *;
    try (apply list_elem_of_singleton in Hg as ->); [by left | by left | right; eauto |].
  left. rewrite Forall_forall in Hw. by apply Hw.
Qed.

(** A filter against a union or a range, as [toMultiRange] produces. *)
Lemma meets_with_complement g m :
  wf g → wf m → match m with FBytesRange _ | MultiRange _ _ _ => True | _ => False end → paired g → meets 4 g m.
Proof.
  intros Hg Hm Hk Hp. destruct m as [| | | |r|b r|v|b v|gs b nan]; try done.
  - destruct g as [| | | |r'|b' r'|v'|b' v'|gs' b' nan']; try done.
    + by apply (meets_mono 1), meets_range_range; [lia|..].
    + by apply (meets_mono 1), meets_values; [lia|..].
    + by apply (meets_mono 1), meets_negated_range; [lia|..].
    + by apply (meets_mono 3), meets_multi_wf; [lia|..].
  - destruct g as [| | | |r'|b' r'|v'|b' v'|gs' b' nan']; try done;
      [by apply meets_swap, meets_multi_wf.. | by apply (meets_mono 3), meets_multi_wf; [lia|..]].
Qed.

Definition complementShape (m : Filter) : Prop :=
  match m with FBytesRange _ | MultiRange _ _ _ => True | _ => False end.

Lemma isResult_wf r : isResult r → wf r.
Proof. by destruct r. Qed.

Lemma meets_complement k na r g :
  br_wf r → (∀ m, wf m → complementShape m → meets k g m) →
  (∀ rec, mergeStep rec (FNegatedBytesRange na r) g = m ← toMultiRange na r; rec g m) →
  meets (S k) (FNegatedBytesRange na r) g.
Proof.
  intros Hr Hm Hs. destruct (toMultiRange_means na r Hr) as (m & Em & [H1 H2 H3] & Hk).
  destruct (Hm m) as (f & Hf & Hmf); [by apply isResult_wf | done|]. exists f. split.
  - intros n. change (mergeStep (mergeWithFuel (k + n)) (FNegatedBytesRange na r) g = Ok f). rewrite Hs, Em. apply Hf.
  - rewrite H2, andb_comm in Hmf. eapply bytes_means_ext; [|exact Hmf]. intros s. simpl.
    rewrite H3, br_testBytes_spec by done. apply andb_comm.
Qed.

Lemma meets_negR_paired na r g : br_wf r → wf g → paired g → meets 5 (FNegatedBytesRange na r) g.
Proof.
  intros Hr Hg Hp. destruct g as [| | | |r'|b' r'|v'|b' v'|gs' b' nan']; try done.
  - apply meets_complement; [done | | done]. intros m Hm Hk. by apply meets_with_complement.
  - by apply (meets_mono 2), meets_swap, meets_values; [lia|..].
  - apply meets_complement; [done | | done]. intros m Hm Hk. by apply meets_with_complement.
  - apply meets_complement; [done | | done]. intros m Hm Hk. by apply meets_with_complement.
Qed.

Lemma meets_negR na r g : br_wf r → wf g → flagged g → meets 6 (FNegatedBytesRange na r) g.
Proof.
  intros Hr Hg Hf. destruct g as [| | | |r'|b' r'|v'|b' v'|gs' b' nan']; try done;
    try by apply (meets_mono 5), meets_negR_paired; [lia|..].
  apply meets_complement; [done | | done]. intros m Hm Hk. by apply meets_negR_paired; [..|destruct m].
Qed.

(** ** Every pair *)
Record conjunction (f g r : Filter) : Prop := {
  cj_wf : wf r;
  cj_null : testNull r = testNull f && testNull g;
  cj_bytes : ∀ s, testBytes r s = testBytes f s && testBytes g s
}.

Definition merges (k : nat) (f g : Filter) : Prop :=
  ∃ r, (∀ n, mergeWithFuel (k + n) f g = Ok r) ∧ conjunction f g r.

Lemma meets_merges j k f g : (j ≤ k)%nat → meets j f g → merges k f g.
Proof.
  intros Hjk (r & Hr & [H1 H2 H3])%(meets_mono j k); [|done]. exists r. split; [done|].
  split; [by apply isResult_wf | done | done].
Qed.

Lemma conjunction_swap f g r : conjunction g f r → conjunction f g r.
Proof. intros [H1 H2 H3]. split; [done | by rewrite andb_comm | intros s; by rewrite andb_comm]. Qed.

Lemma merges_swap k f g : (∀ rec, mergeStep rec f g = rec g f) → merges k g f → merges (S k) f g.
Proof.
  intros Hs (r & Hr & Hc). exists r. split; [|by apply conjunction_swap]. intros n.
  change (mergeStep (mergeWithFuel (k + n)) f g = Ok r). by rewrite Hs.
Qed.

Lemma merges_mono j k f g : (j ≤ k)%nat → merges j f g → merges k f g.
Proof.
  intros Hjk (r & Hr & Hm). exists r. split; [|done]. intros n.
  replace (k + n)%nat with (j + (k - j + n))%nat by lia. apply Hr.
Qed.

Lemma newNegatedBytesValues_ok l na :
  l ≠ [] → ∃ b, newNegatedBytesValues l na = Ok (FNegatedBytesValues na b) ∧ bv_wf b ∧ ∀ s, s ∈ values_ b ↔ s ∈ l.
Proof.
  intros Hl. destruct (newBytesValues_ok l (negb na) Hl) as (b & Hb & Hw & _ & Hv).
  exists b. unfold newNegatedBytesValues. by rewrite Hb.
Qed.

Lemma merges_negV na v nb w :
  bv_wf v → bv_wf w → merges 2 (FNegatedBytesValues na v) (FNegatedBytesValues nb w).
Proof.
  assert (∀ na v nb w, bv_wf v → bv_wf w → (size (values_ v) <? size (values_ w))%nat = false →
    merges 1 (FNegatedBytesValues na v) (FNegatedBytesValues nb w)) as Hmain.
  { clear. intros na v nb w Hv Hw Hsz.
    destruct (newNegatedBytesValues_ok (elements (values_ v) ++
      filter (λ s, testBytes (FNegatedBytesValues na v) s = true) (elements (values_ w))) (na && nb)) as (b & Hb & Wb & Vb).
    { pose proof (vw_some _ Hv) as Hne. intros [He _]%app_eq_nil. apply Hne. apply elements_empty_iff in He. set_solver. }
    eexists. split; [intros n; simpl; rewrite Hsz; exact Hb|]. split; [done | done|]. intros s. simpl.
    rewrite !bv_testBytes_spec, <- negb_orb by done. f_equal. rewrite <- bool_decide_or. apply bool_decide_ext.
    rewrite Vb, elem_of_app, list_elem_of_filter, !elem_of_elements. cbn [testBytes].
    rewrite bv_testBytes_spec, negb_true_iff, bool_decide_eq_false by done. destruct (decide (s ∈ values_ v)); naive_solver. }
  intros Hv Hw. destruct (size (values_ v) <? size (values_ w))%nat eqn:E.
  - destruct (Hmain nb w na v) as (r & Hr & Hc); [done | done | apply Nat.ltb_lt in E; apply Nat.ltb_ge; lia|].
    exists r. split; [|by apply conjunction_swap]. intros n.
    change (mergeStep (mergeWithFuel (1 + n)) (FNegatedBytesValues na v) (FNegatedBytesValues nb w) = Ok r).
    cbn [mergeStep nbv_mergeWith]. rewrite E. apply Hr.
  - apply (merges_mono 1); [lia|]. by apply Hmain.
Qed.

Lemma merges_flagged f g : wf f → wf g → flagged f → flagged g → merges 6 f g.
Proof.
  intros Hf Hg Ff Fg. destruct f as [| | | |r|na r|v|na v|fs na nan]; try done.
  - destruct g as [| | | |r'|na' r'|v'|na' v'|gs na' nan']; try done.
    + by apply (meets_merges 1), meets_range_range; [lia|..].
    + by apply (meets_merges 6), meets_swap, meets_negR_paired; [lia|..].
    + by apply (meets_merges 2), meets_swap, meets_values; [lia|..].
    + by apply (meets_merges 2), meets_swap, meets_negated_range; [lia|..].
    + by apply (meets_merges 4), meets_swap, meets_multi_wf; [lia|..].
  - by apply (meets_merges 6), meets_negR; [lia|..].
  - destruct g as [| | | |r'|na' r'|v'|na' v'|gs na' nan']; try done;
      try by apply (meets_merges 1), meets_values; [lia|..].
    by apply (meets_merges 4), meets_swap, meets_multi_wf; [lia|..].
  - destruct g as [| | | |r'|na' r'|v'|na' v'|gs na' nan']; try done.
    + by apply (meets_merges 1), meets_negated_range; [lia|..].
    + by apply (meets_merges 6), meets_swap, meets_negR_paired; [lia|..].
    + by apply (meets_merges 2), meets_swap, meets_values; [lia|..].
    + by apply (merges_mono 2), merges_negV; [lia|..].
    + by apply (meets_merges 4), meets_swap, meets_multi_wf; [lia|..].
  - destruct g as [| | | |r'|na' r'|v'|na' v'|gs na' nan']; try done;
      try by apply (meets_merges 3), meets_multi_wf; [lia|..].
    by apply (meets_merges 6), meets_swap, meets_negR_paired; [lia|..].
Qed.

(** The filters on nulls alone, on the left and on the right. *)
Lemma merges_null f g : wf f → wf g → ¬ flagged f → merges 2 f g.
Proof.
  intros Hf Hg Ff. destruct f as [| | | |r|na r|v|na v|fs na nan]; try (by destruct Ff).
  - exists AlwaysFalse. by split.
  - exists g. split; [intros n; simpl; by rewrite clone_None | by split].
  - exists (if testNull g then IsNull else AlwaysFalse). split; [done|].
    destruct (testNull g) eqn:E; split; try done; by rewrite E.
  - destruct g as [| | | |r|na r|v|na v|fs na nan];
      [by exists AlwaysFalse | by exists IsNotNull | by exists AlwaysFalse | by exists IsNotNull|..];
    match goal with |- merges _ _ ?g =>
      destruct (clone_Some g false Hg I) as (H1 & H2 & H3); exists (clone g (Some false)) end;
      (split; [done|]); by split.
Qed.

Lemma merges_all f g : wf f → wf g → merges 6 f g.
Proof.
  intros Hf Hg. destruct (flagged_dec f) as [Ff|Ff]; [|by apply (merges_mono 2), merges_null; [lia|..]].
  destruct (flagged_dec g) as [Fg|Fg]; [by apply merges_flagged|].
  destruct g as [| | | |r|na r|v|na v|fs na nan]; try (by destruct Fg).
  - apply (merges_mono 3); [lia|]. apply merges_swap; [by destruct f|]. by apply merges_null.
  - apply (merges_mono 3); [lia|]. apply merges_swap; [by destruct f|]. by apply merges_null.
  - apply (merges_mono 3); [lia|]. apply merges_swap; [by destruct f|]. by apply merges_null.
  - destruct (clone_Some f false Hf Ff) as (H1 & H2 & H3). exists (clone f (Some false)).
    split; [intros n; by destruct f|]. split; [done | by rewrite H2, andb_false_r | intros s; by rewrite H3, andb_true_r].
Qed.

(** C5: [mergeWith] is conjunction on string filters: for well-formed filters
    of every kind it returns, within six nested calls, the result of the
    dispatch in the code; the result is well formed, accepts null exactly if
    both filters do, and accepts exactly the strings both accept. *)
Theorem bytes_mergeWith_conjunction f g :
  wf f → wf g →
  ∃ r, mergeWith f g = Ok r ∧ mergeStep mergeWith f g = Ok r ∧ wf r ∧
    testNull r = testNull f && testNull g ∧
    ∀ s, testBytes r s = testBytes f s && testBytes g s.
Proof.
  intros Hf Hg. destruct (merges_all f g Hf Hg) as (r & Hr & [H1 H2 H3]).
  exists r. split; [exact (Hr 0%nat)|]. split; [exact (Hr 1%nat)|]. done.
Qed.

Lemma bytes_mergeWith_conjunction_witness :
  ∃ v r, newBytesValues sampleValues true = Ok v ∧
    mergeWith (FNegatedBytesRange true sampleRange) (FNegatedBytesValues true v) = Ok r ∧ wf r.
Proof.
  destruct (newBytesValues_ok sampleValues true) as (v & Hv & Hw & _); [discriminate|].
  destruct (bytes_mergeWith_conjunction (FNegatedBytesRange true sampleRange) (FNegatedBytesValues true v))
    as (r & Hr & _ & Hwr & _); [exact sampleRange_wf | exact Hw|].
  exists v, r. exact (conj Hv (conj Hr Hwr)).
Defined.
