(* ===== verification/FloatFilter.v ===== *)
(** * Pushdown filters on floating-point numbers

    Models the part of [velox/type/Filter.h] and [velox/type/Filter.cpp] that
    filters [float] and [double] columns: [FloatingPointRange] and
    [MultiRange] over such ranges next to the filters on nulls, with [clone],
    [testDouble], [testFloat], the batch test, [testDoubleRange] and
    [mergeWith].  Comparisons are the IEEE ones: every comparison with a NaN is
    false, and the two zeros are equal. *)
From Stdlib Require Import SpecFloat.
From S2P Require Import Prelude CFloat.
Local Open Scope Z_scope.

Definition isnan (x : spec_float) : bool := match x with S754_nan => true | _ => false end.
Definition fle (x y : spec_float) : bool := SFleb x y.
Definition feq (x y : spec_float) : bool := SFeqb x y.

(** [std::max] and [std::min]. *)
Definition fmax (a b : spec_float) : spec_float := if float_lt a b then b else a.
Definition fmin (a b : spec_float) : spec_float := if float_lt b a then b else a.

(** ** [FloatingPointRange] *)
Inductive FloatKind := kDoubleRange | kFloatRange.
#[global] Instance floatkind_eq_dec : EqDecision FloatKind.
Proof. solve_decision. Defined.

Record FloatingPointRange := mkFloatingPointRange {
  fp_kind : FloatKind;
  fp_nullAllowed_ : bool;
  lowerUnbounded_ : bool;
  lowerExclusive_ : bool;
  upperUnbounded_ : bool;
  upperExclusive_ : bool;
  lower_ : spec_float;
  upper_ : spec_float
}.

Definition newFloatingPointRange (kind : FloatKind) (lower : spec_float) (lowerUnbounded lowerExclusive : bool)
    (upper : spec_float) (upperUnbounded upperExclusive nullAllowed : bool) : outcome FloatingPointRange :=
  velox_check (negb lowerUnbounded || negb upperUnbounded) ;;
  velox_check (lowerUnbounded || negb (isnan lower)) ;;
  velox_check (upperUnbounded || negb (isnan upper)) ;;
  Ok (mkFloatingPointRange kind nullAllowed lowerUnbounded lowerExclusive upperUnbounded upperExclusive lower upper).

(** The copying constructor; its checks were made before. *)
Definition fp_withNull (r : FloatingPointRange) (nullAllowed : bool) : FloatingPointRange :=
  mkFloatingPointRange (fp_kind r) nullAllowed (lowerUnbounded_ r) (lowerExclusive_ r) (upperUnbounded_ r)
    (upperExclusive_ r) (lower_ r) (upper_ r).

Definition testFloatingPoint (r : FloatingPointRange) (value : spec_float) : bool :=
  if isnan value then false
  else if negb (lowerUnbounded_ r) && float_lt value (lower_ r) then false
  else if negb (lowerUnbounded_ r) && (lowerExclusive_ r && feq (lower_ r) value) then false
  else if negb (upperUnbounded_ r) && float_lt (upper_ r) value then false
  else if negb (upperUnbounded_ r) && (upperExclusive_ r && feq value (upper_ r)) then false
  else true.

(** One lane of [testFloatingPoints]. *)
Definition testFloatingPoints (r : FloatingPointRange) (value : spec_float) : bool :=
  if negb (lowerUnbounded_ r) then
    let result := if lowerExclusive_ r then float_lt (lower_ r) value else fle (lower_ r) value in
    if negb (upperUnbounded_ r)
    then result && (if upperExclusive_ r then float_lt value (upper_ r) else fle value (upper_ r))
    else result
  else if upperExclusive_ r then float_lt value (upper_ r) else fle value (upper_ r).

(** The argument is converted to the type of the range. *)
Definition fp_testDouble (r : FloatingPointRange) (value : spec_float) : bool :=
  testFloatingPoint r (match fp_kind r with kDoubleRange => value | kFloatRange => f64_to_f32 value end).
Definition fp_testFloat (r : FloatingPointRange) (value : spec_float) : bool :=
  testFloatingPoint r (match fp_kind r with kDoubleRange => f32_to_f64 value | kFloatRange => value end).

(** The batch tests exist for the range's own type only. *)
Definition fp_testValuesDouble (r : FloatingPointRange) (values : list spec_float) : outcome (list bool) :=
  match fp_kind r with kDoubleRange => Ok (map (testFloatingPoints r) values) | kFloatRange => Throw (RuntimeError "Not defined for float filter") end.
Definition fp_testValuesFloat (r : FloatingPointRange) (values : list spec_float) : outcome (list bool) :=
  match fp_kind r with kFloatRange => Ok (map (testFloatingPoints r) values) | kDoubleRange => Throw (RuntimeError "Not defined for double filter") end.

(** A bound compared with a [double]. *)
Definition widened (r : FloatingPointRange) (x : spec_float) : spec_float :=
  match fp_kind r with kDoubleRange => x | kFloatRange => f32_to_f64 x end.

Definition fp_testDoubleRange (r : FloatingPointRange) (min max : spec_float) (hasNull : bool) : bool :=
  if hasNull && fp_nullAllowed_ r then true
  else negb (float_lt (widened r (upper_ r)) min || float_lt max (widened r (lower_ r))).

(** ** Filters on floating-point columns *)
Inductive Filter :=
| AlwaysFalse
| AlwaysTrue
| IsNull
| IsNotNull
| FRange (r : FloatingPointRange)
| MultiRange (filters : list Filter) (nullAllowed nanAllowed : bool).

Definition testNull (f : Filter) : bool :=
  match f with
  | AlwaysFalse | IsNotNull => false
  | AlwaysTrue | IsNull => true
  | FRange r => fp_nullAllowed_ r
  | MultiRange _ b _ => b
  end.

Fixpoint clone (f : Filter) (nullAllowed : option bool) : Filter :=
  match f with
  | FRange r => match nullAllowed with Some b => FRange (fp_withNull r b) | None => FRange r end
  | MultiRange filters b nan =>
      MultiRange (map (λ g, clone g None) filters) (default b nullAllowed) nan
  | _ => f
  end.

Fixpoint testDouble (f : Filter) (value : spec_float) : bool :=
  match f with
  | AlwaysFalse | IsNull => false
  | AlwaysTrue | IsNotNull => true
  | FRange r => fp_testDouble r value
  | MultiRange filters _ nan => if isnan value then nan else existsb (λ g, testDouble g value) filters
  end.

Fixpoint testFloat (f : Filter) (value : spec_float) : bool :=
  match f with
  | AlwaysFalse | IsNull => false
  | AlwaysTrue | IsNotNull => true
  | FRange r => fp_testFloat r value
  | MultiRange filters _ nan => if isnan value then nan else existsb (λ g, testFloat g value) filters
  end.

(** [AlwaysFalse] does not override the unsupported default. *)
Fixpoint testDoubleRange (f : Filter) (min max : spec_float) (hasNull : bool) : outcome bool :=
  match f with
  | AlwaysFalse => Throw VeloxUnsupported
  | AlwaysTrue | IsNotNull => Ok true
  | IsNull => Ok hasNull
  | FRange r => Ok (fp_testDoubleRange r min max hasNull)
  | MultiRange filters b _ =>
      if hasNull && b then Ok true
      else foldr (λ g rest, p ← testDoubleRange g min max hasNull; if p : bool then Ok true else rest) (Ok false) filters
  end.

(** ** Merging *)
Definition nullOrFalse (nullAllowed : bool) : Filter := if nullAllowed then IsNull else AlwaysFalse.

(** The cast of [other] to a range of another type is undefined.  A bound that
    is tested with [testDouble] is converted to [double] and back, which keeps
    it. *)
Definition rangesMerge (this other : FloatingPointRange) : outcome Filter :=
  if negb (bool_decide (fp_kind this = fp_kind other)) then Undefined
  else
    let bothNullAllowed := fp_nullAllowed_ this && fp_nullAllowed_ other in
    let lower := fmax (lower_ this) (lower_ other) in
    let upper := fmin (upper_ this) (upper_ other) in
    let bothLowerUnbounded := lowerUnbounded_ this && lowerUnbounded_ other in
    let bothUpperUnbounded := upperUnbounded_ this && upperUnbounded_ other in
    let lowerExclusive :=
      negb bothLowerUnbounded && (negb (testFloatingPoint this lower) || negb (testFloatingPoint other lower)) in
    let upperExclusive :=
      negb bothUpperUnbounded && (negb (testFloatingPoint this upper) || negb (testFloatingPoint other upper)) in
    if float_lt upper lower || (feq lower upper && lowerExclusive_ this) then Ok (nullOrFalse bothNullAllowed)
    else
      r ← newFloatingPointRange (fp_kind this) lower bothLowerUnbounded lowerExclusive upper bothUpperUnbounded upperExclusive
            bothNullAllowed;
      Ok (FRange r).

Section Dispatch.
Variable mergeWith : Filter → Filter → outcome Filter.

Definition isNotNull_mergeWith (other : Filter) : outcome Filter :=
  match other with
  | AlwaysTrue | IsNotNull => Ok IsNotNull
  | AlwaysFalse | IsNull => Ok AlwaysFalse
  | _ => mergeWith other IsNotNull
  end.

Definition fp_mergeWith (this : FloatingPointRange) (other : Filter) : outcome Filter :=
  match other with
  | AlwaysTrue | AlwaysFalse | IsNull => mergeWith other (FRange this)
  | IsNotNull =>
      r ← newFloatingPointRange (fp_kind this) (lower_ this) (lowerUnbounded_ this) (lowerExclusive_ this) (upper_ this)
            (upperUnbounded_ this) (upperExclusive_ this) false;
      Ok (FRange r)
  | FRange r => rangesMerge this r
  | MultiRange _ _ _ => Throw VeloxUnreachable
  end.

(** The filters that one pair of inner filters adds. *)
Definition mergedPair (this other : Filter) : outcome (list Filter) :=
  m ← mergeWith this other;
  match m with
  | AlwaysFalse | IsNull => Ok []
  | MultiRange inner _ _ => Ok (map (λ g, clone g None) inner)
  | _ => Ok [m]
  end.

Definition mr_mergeWith (filters : list Filter) (nullAllowed nanAllowed : bool) (other : Filter) : outcome Filter :=
  match other with
  | AlwaysTrue | AlwaysFalse | IsNull => mergeWith other (MultiRange filters nullAllowed nanAllowed)
  | IsNotNull => Ok (clone (MultiRange filters nullAllowed nanAllowed) (Some false))
  | FRange _ => Throw VeloxUnreachable
  | MultiRange otherFilters otherNull otherNan =>
      let bothNullAllowed := nullAllowed && otherNull in
      let bothNanAllowed := nanAllowed && otherNan in
      merged ← foldM_o (λ acc f, foldM_o (λ acc g, l ← mergedPair f g; Ok (acc ++ l)) otherFilters acc) filters [];
      match merged with
      | [] => Ok (nullOrFalse bothNullAllowed)
      | [f] => Ok (clone f (Some bothNullAllowed))
      | _ => Ok (MultiRange merged bothNullAllowed bothNanAllowed)
      end
  end.

Definition mergeStep (this other : Filter) : outcome Filter :=
  match this with
  | AlwaysFalse => Ok AlwaysFalse
  | AlwaysTrue => Ok (clone other None)
  | IsNull => Ok (if testNull other then IsNull else AlwaysFalse)
  | IsNotNull => isNotNull_mergeWith other
  | FRange r => fp_mergeWith r other
  | MultiRange filters b nan => mr_mergeWith filters b nan other
  end.
End Dispatch.

(** Nested calls are bounded; three are enough when the filters of a multi-range
    are ranges. *)
Fixpoint mergeWithFuel (fuel : nat) (this other : Filter) : outcome Filter :=
  match fuel with
  | O => Throw OutOfFuel
  | S fuel' => mergeStep (mergeWithFuel fuel') this other
  end.

Definition mergeWith (this other : Filter) : outcome Filter := mergeWithFuel 3 this other.
