(* ===== verification/FloatFilterCorrect.v ===== *)
(** * Correctness of the floating-point filters

    The batch test agrees with the scalar one, a row group with a passing value
    is not skipped, and merging is conjunction; then the inputs for which the
    code of [FloatingPointRange] and [MultiRange] does otherwise. *)
From Stdlib Require Import SpecFloat.
From S2P Require Import Prelude CFloat FloatFilter.
Local Open Scope Z_scope.

(** ** The order of the floats *)
Lemma SFcompare_total x y : isnan x = false → isnan y = false → ∃ c, SFcompare x y = Some c.
Proof. destruct x as [[]|[]| |[] ? ?], y as [[]|[]| |[] ? ?]; simpl; try done; intros; eauto; destruct (_ ?= _); eauto. Qed.

Lemma SFcompare_nan x y c : SFcompare x y = Some c → isnan x = false ∧ isnan y = false.
Proof. destruct x, y; by simpl. Qed.

Lemma SFcompare_antisym x y : SFcompare y x = option_map CompOpp (SFcompare x y).
Proof.
  destruct x as [[]|[]| |[] mx ex], y as [[]|[]| |[] my ey]; try done; simpl; rewrite (Z.compare_antisym ex ey);
    destruct (ex ?= ey); simpl; try done; by rewrite !Pos.compare_cont_spec, (Pos.compare_antisym mx my); destruct (mx ?= my)%positive.
Qed.

(** Equal floats cannot be told apart by comparisons. *)
Lemma SFcompare_eq x y z : SFcompare x y = Some Eq → SFcompare x z = SFcompare y z.
Proof.
  intros H. assert (x = y ∨ ∃ s t, x = S754_zero s ∧ y = S754_zero t) as [->|(s & t & -> & ->)]; [|done|by destruct z].
  revert H. destruct x as [[]|[]| |[] mx ex], y as [[]|[]| |[] my ey]; simpl; try done; try (intros _; left; reflexivity);
    try (intros _; right; by eauto); destruct (Z.compare_spec ex ey); try done; rewrite Pos.compare_cont_spec;
    destruct (Pos.compare_spec mx my); try done; subst; by left.
Qed.

Lemma feq_spec x y : feq x y = true ↔ SFcompare x y = Some Eq.
Proof. unfold feq, SFeqb. by destruct (SFcompare x y) as [[]|]. Qed.

Lemma feq_sym x y : feq x y = feq y x.
Proof. unfold feq, SFeqb. rewrite (SFcompare_antisym x y). by destruct (SFcompare x y) as [[]|]. Qed.

Lemma feq_congr x y z :
  feq x y = true → float_lt x z = float_lt y z ∧ float_lt z x = float_lt z y ∧ feq x z = feq y z ∧ feq z x = feq z y.
Proof.
  rewrite feq_spec. intros H. assert (SFcompare x z = SFcompare y z) as E by (by apply SFcompare_eq).
  unfold float_lt, SFltb, feq, SFeqb. rewrite E, (SFcompare_antisym x z), (SFcompare_antisym y z), E. done.
Qed.

(** Exactly one of below, equal and above holds. *)
Inductive ordered (x y : spec_float) : bool → bool → bool → Prop :=
| ordered_lt : ordered x y true false false
| ordered_eq : ordered x y false true false
| ordered_gt : ordered x y false false true.

Lemma float_order x y : isnan x = false → isnan y = false → ordered x y (float_lt x y) (feq x y) (float_lt y x).
Proof.
  intros Hx Hy. destruct (SFcompare_total x y Hx Hy) as [c E]. unfold float_lt, SFltb, feq, SFeqb.
  rewrite (SFcompare_antisym x y), E. destruct c; constructor.
Qed.

Lemma fle_spec x y : isnan x = false → isnan y = false → fle x y = negb (float_lt y x).
Proof.
  intros Hx Hy. destruct (SFcompare_total x y Hx Hy) as [c E]. unfold fle, SFleb, float_lt, SFltb.
  rewrite (SFcompare_antisym x y), E. by destruct c.
Qed.

Lemma float_lt_nan x y : float_lt x y = true → isnan x = false ∧ isnan y = false.
Proof. unfold float_lt, SFltb. destruct (SFcompare x y) eqn:E; [|done]. intros _. by eapply SFcompare_nan. Qed.

(** [x < y] and [y <= z]; [x <= y] and [y < z]; [x <= y] and [y <= z]. *)
Lemma lt_le_trans x y z : isnan z = false → float_lt x y = true → float_lt z y = false → float_lt x z = true.
Proof.
  intros Hz Hxy Hzy. destruct (float_lt_nan x y Hxy) as [_ Hy].
  destruct (feq y z) eqn:E; [by destruct (feq_congr y z x E) as (_ & <- & _)|].
  apply (float_lt_trans x y z Hxy). destruct (float_order y z Hy Hz); congruence.
Qed.

Lemma le_lt_trans x y z : isnan x = false → float_lt y x = false → float_lt y z = true → float_lt x z = true.
Proof.
  intros Hx Hyx Hyz. destruct (float_lt_nan y z Hyz) as [Hy _].
  destruct (feq x y) eqn:E; [by destruct (feq_congr x y z E) as (-> & _)|].
  apply (float_lt_trans x y z); [|done]. destruct (float_order x y Hx Hy); congruence.
Qed.

Lemma le_le_trans x y z :
  isnan x = false → isnan y = false → float_lt y x = false → float_lt z y = false → float_lt z x = false.
Proof.
  intros Hx Hy Hyx Hzy. apply not_true_iff_false. intros Hzx. by rewrite (lt_le_trans z x y Hy Hzx Hyx) in Hzy.
Qed.

(** ** Bounds of an intersection *)
Lemma fmax_lt a b v : isnan a = false → isnan b = false → float_lt (fmax a b) v = float_lt a v && float_lt b v.
Proof.
  intros Ha Hb. unfold fmax. destruct (float_lt a b) eqn:E.
  - destruct (float_lt b v) eqn:Ev; [by rewrite (float_lt_trans a b v E Ev) | by rewrite andb_false_r].
  - destruct (float_lt a v) eqn:Ev; [|done]. symmetry. by apply (le_lt_trans b a v).
Qed.

Lemma lt_fmax a b v :
  isnan a = false → isnan b = false → isnan v = false → float_lt v (fmax a b) = float_lt v a || float_lt v b.
Proof.
  intros Ha Hb Hv. unfold fmax. destruct (float_lt a b) eqn:E.
  - destruct (float_lt v a) eqn:Ev; [by rewrite (float_lt_trans v a b Ev E) | done].
  - destruct (float_lt v b) eqn:Ev; [by rewrite (lt_le_trans v b a Ha Ev E) | by rewrite orb_false_r].
Qed.

Lemma lt_fmin a b v : isnan a = false → isnan b = false → float_lt v (fmin a b) = float_lt v a && float_lt v b.
Proof.
  intros Ha Hb. unfold fmin. destruct (float_lt b a) eqn:E.
  - destruct (float_lt v b) eqn:Ev; [by rewrite (float_lt_trans v b a Ev E) | by rewrite andb_false_r].
  - destruct (float_lt v a) eqn:Ev; [|done]. symmetry. by apply (lt_le_trans v a b).
Qed.

Lemma fmin_lt a b v :
  isnan a = false → isnan b = false → isnan v = false → float_lt (fmin a b) v = float_lt a v || float_lt b v.
Proof.
  intros Ha Hb Hv. unfold fmin. destruct (float_lt b a) eqn:E.
  - destruct (float_lt a v) eqn:Ev; [by rewrite (float_lt_trans b a v E Ev) | done].
  - destruct (float_lt b v) eqn:Ev; [by rewrite (le_lt_trans a b v Ha E Ev) | by rewrite orb_false_r].
Qed.

Lemma fmax_num a b : isnan a = false → isnan b = false → isnan (fmax a b) = false.
Proof. unfold fmax. by destruct (float_lt a b). Qed.
Lemma fmin_num a b : isnan a = false → isnan b = false → isnan (fmin a b) = false.
Proof. unfold fmin. by destruct (float_lt b a). Qed.

(** ** The test of a range *)
Definition lowerOk (r : FloatingPointRange) (v : spec_float) : bool :=
  lowerUnbounded_ r || negb (float_lt v (lower_ r)) && negb (lowerExclusive_ r && feq (lower_ r) v).
Definition upperOk (r : FloatingPointRange) (v : spec_float) : bool :=
  upperUnbounded_ r || negb (float_lt (upper_ r) v) && negb (upperExclusive_ r && feq v (upper_ r)).

Lemma testFloatingPoint_spec r v : testFloatingPoint r v = negb (isnan v) && (lowerOk r v && upperOk r v).
Proof.
  unfold testFloatingPoint, lowerOk, upperOk.
  destruct (isnan v), (lowerUnbounded_ r), (upperUnbounded_ r), (float_lt v _), (float_lt _ v), (lowerExclusive_ r),
    (upperExclusive_ r), (feq (lower_ r) v), (feq v _); done.
Qed.

Lemma test_congr r x y : feq x y = true → testFloatingPoint r x = testFloatingPoint r y.
Proof.
  intros E. pose proof E as Hc. apply feq_spec, SFcompare_nan in Hc as [Hx Hy].
  rewrite !testFloatingPoint_spec, Hx, Hy. unfold lowerOk, upperOk.
  destruct (feq_congr x y (lower_ r) E) as (-> & _ & _ & ->). destruct (feq_congr x y (upper_ r) E) as (_ & -> & -> & _). done.
Qed.

(** The constructor's checks. *)
Definition fp_wf (r : FloatingPointRange) : Prop :=
  negb (lowerUnbounded_ r) || negb (upperUnbounded_ r) = true ∧
  lowerUnbounded_ r || negb (isnan (lower_ r)) = true ∧ upperUnbounded_ r || negb (isnan (upper_ r)) = true.

(** The vectorised test of a floating-point range agrees with the scalar
    test on every value, the infinities, the two zeros and NaN included, for
    every range the constructor accepts. *)
Theorem float_batch_agrees r v : fp_wf r → testFloatingPoints r v = testFloatingPoint r v.
Proof.
  intros (Hb & Hl & Hu). rewrite testFloatingPoint_spec. unfold testFloatingPoints, lowerOk, upperOk. destruct (isnan v) eqn:Ev.
  - assert (∀ x, float_lt x v = false ∧ float_lt v x = false ∧ fle x v = false ∧ fle v x = false) as Hnan.
    { destruct v; try done. intros x. unfold float_lt, SFltb, fle, SFleb. by destruct x. }
    destruct (Hnan (lower_ r)) as (-> & -> & -> & _). destruct (Hnan (upper_ r)) as (_ & -> & _ & ->).
    by destruct (lowerUnbounded_ r), (upperUnbounded_ r), (lowerExclusive_ r), (upperExclusive_ r).
  - destruct (lowerUnbounded_ r); cbn [negb orb andb] in *.
    + destruct (upperUnbounded_ r); [done|]. cbn [orb] in *. apply negb_true_iff in Hu. rewrite fle_spec by done.
      destruct (float_order v (upper_ r) Ev Hu), (upperExclusive_ r); done.
    + apply negb_true_iff in Hl. rewrite (fle_spec (lower_ r)) by done. destruct (upperUnbounded_ r); cbn [negb orb] in *.
      * destruct (float_order (lower_ r) v Hl Ev), (lowerExclusive_ r); done.
      * apply negb_true_iff in Hu. rewrite (fle_spec v) by done.
        destruct (float_order v (upper_ r) Ev Hu), (float_order (lower_ r) v Hl Ev), (lowerExclusive_ r), (upperExclusive_ r); done.
Qed.

Definition one : spec_float := f64_of_Z 1.
Definition three : spec_float := f64_of_Z 3.

(** [c > 1] and [c = 3]. *)
Definition aboveOne : FloatingPointRange := mkFloatingPointRange kDoubleRange false false true true false one (S754_infinity false).
Definition equalsThree : FloatingPointRange := mkFloatingPointRange kDoubleRange false false false false false three three.

Lemma float_batch_agrees_witness : testFloatingPoints aboveOne three = true.
Proof. rewrite (float_batch_agrees aboveOne three); by vm_compute. Defined.

(** ** Skipping row groups *)

(** An end declared unbounded does not bound the value [v] either: the code
    compares with it nevertheless. *)
Definition covered (r : FloatingPointRange) (v : spec_float) : Prop :=
  (lowerUnbounded_ r = true → isnan (lower_ r) = false ∧ float_lt v (lower_ r) = false) ∧
  (upperUnbounded_ r = true → isnan (upper_ r) = false ∧ float_lt (upper_ r) v = false).

Lemma covered_num r v : fp_wf r → covered r v → isnan (lower_ r) = false ∧ isnan (upper_ r) = false.
Proof.
  intros (_ & Hl & Hu) [Cl Cu]. split.
  - destruct (lowerUnbounded_ r); [by apply Cl | by apply negb_true_iff].
  - destruct (upperUnbounded_ r); [by apply Cu | by apply negb_true_iff].
Qed.

(** What passes lies between the two stored ends. *)
Lemma test_between r v :
  covered r v → testFloatingPoint r v = true → isnan v = false ∧ float_lt v (lower_ r) = false ∧ float_lt (upper_ r) v = false.
Proof.
  rewrite testFloatingPoint_spec. intros [Cl Cu] [Hn%negb_true_iff [Hl Hu]%andb_true_iff]%andb_true_iff. split; [done|].
  unfold lowerOk, upperOk in *. split.
  - destruct (lowerUnbounded_ r); [by apply Cl|]. apply andb_true_iff in Hl as [Hl _]. by apply negb_true_iff.
  - destruct (upperUnbounded_ r); [by apply Cu|]. apply andb_true_iff in Hu as [Hu _]. by apply negb_true_iff.
Qed.

(** A row group of doubles that has a passing value is not skipped: if a
    value between the minimum and the maximum of the column statistics passes
    the range, or there are nulls and they pass, [testDoubleRange] says so. *)
Theorem testDoubleRange_sound r min max hasNull v :
  fp_wf r → fp_kind r = kDoubleRange → covered r v → fle min v = true → fle v max = true →
  testFloatingPoint r v = true ∨ (hasNull && fp_nullAllowed_ r = true) → fp_testDoubleRange r min max hasNull = true.
Proof.
  intros Hwf Hk Hc Hmin Hmax [Ht|Hn]; unfold fp_testDoubleRange; [|by rewrite Hn].
  destruct (hasNull && fp_nullAllowed_ r); [done|]. unfold widened. rewrite Hk.
  destruct (test_between r v Hc Ht) as (Hv & Hl & Hu). destruct (covered_num r v Hwf Hc) as [Nl Nu].
  assert (isnan min = false ∧ isnan max = false) as [Nmin Nmax].
  { unfold fle, SFleb in *. destruct (SFcompare min v) eqn:E1, (SFcompare v max) eqn:E2; try done.
    apply SFcompare_nan in E1 as [? _]. apply SFcompare_nan in E2 as [_ ?]. done. }
  rewrite fle_spec in Hmin, Hmax by done. apply negb_true_iff in Hmin, Hmax.
  rewrite (le_le_trans min v (upper_ r)), (le_le_trans (lower_ r) v max); done.
Qed.

Lemma testDoubleRange_sound_witness : fp_testDoubleRange aboveOne one (f64_of_Z 5) false = true.
Proof. apply (testDoubleRange_sound aboveOne one (f64_of_Z 5) false three); try (by vm_compute). by left; vm_compute. Defined.

(** ** Merging two ranges *)

(** The case that the code gets wrong: the two ranges meet in one value, both
    pass it, and the first one excludes its own lower end. *)
Definition collision (a b : FloatingPointRange) : Prop :=
  let lower := fmax (lower_ a) (lower_ b) in
  feq lower (fmin (upper_ a) (upper_ b)) = true ∧ lowerExclusive_ a = true ∧
  testFloatingPoint a lower = true ∧ testFloatingPoint b lower = true.

Section RangesMerge.
Variables a b : FloatingPointRange.
Hypothesis Hwa : fp_wf a.
Hypothesis Hwb : fp_wf b.
Variable v : spec_float.
Hypothesis Hv : isnan v = false.
Hypothesis Hca : covered a v.
Hypothesis Hcb : covered b v.

Let lower := fmax (lower_ a) (lower_ b).
Let upper := fmin (upper_ a) (upper_ b).
Let both := testFloatingPoint a v && testFloatingPoint b v.

Local Lemma numbers : isnan (lower_ a) = false ∧ isnan (lower_ b) = false ∧ isnan (upper_ a) = false ∧ isnan (upper_ b) = false.
Proof using Hwa Hwb Hca Hcb.
  destruct (covered_num a v Hwa Hca), (covered_num b v Hwb Hcb). done.
Qed.

(** The lower condition of the merged range, when [v] satisfies it or not. *)
Lemma merged_lower (e : bool) :
  e = negb (lowerUnbounded_ a && lowerUnbounded_ b) && (negb (testFloatingPoint a lower) || negb (testFloatingPoint b lower)) →
  let ok := (lowerUnbounded_ a && lowerUnbounded_ b) || negb (float_lt v lower) && negb (e && feq lower v) in
  (ok = false → both = false) ∧ (ok = true → both = true ∨ lowerOk a v && lowerOk b v = true).
Proof using Hwa Hwb Hca Hcb Hv.
  intros ->. cbv zeta. destruct numbers as (Na & Nb & _ & _). unfold lower, both.
  rewrite (lt_fmax _ _ v Na Nb Hv). destruct Hca as [Cla _], Hcb as [Clb _].
  rewrite !(testFloatingPoint_spec _ v), Hv. cbn [negb andb]. unfold lowerOk.
  destruct (feq (fmax (lower_ a) (lower_ b)) v) eqn:E.
  - rewrite (test_congr a _ v E), (test_congr b _ v E), !(testFloatingPoint_spec _ v), Hv. cbn [negb andb]. unfold lowerOk.
    destruct (lowerUnbounded_ a) eqn:Ela, (lowerUnbounded_ b) eqn:Elb; cbn [negb orb andb];
      repeat match goal with |- context [upperOk ?r v] => destruct (upperOk r v) end;
      repeat match goal with |- context [float_lt v (lower_ ?r)] => destruct (float_lt v (lower_ r)) end;
      repeat match goal with |- context [lowerExclusive_ ?r && feq (lower_ ?r) v] => destruct (lowerExclusive_ r && feq (lower_ r) v) end;
      cbn; naive_solver.
  - rewrite andb_false_r. cbn [negb]. rewrite andb_true_r. split.
    + intros [_ [Hx|Hx]%negb_false_iff%orb_true_iff]%orb_false_iff.
      * destruct (lowerUnbounded_ a); [by destruct (Cla eq_refl) as [_ ?]; congruence|]. by rewrite Hx.
      * destruct (lowerUnbounded_ b); [by destruct (Clb eq_refl) as [_ ?]; congruence|]. rewrite Hx. cbn. by rewrite andb_false_r.
    + intros [Hx|Hx%negb_true_iff]%orb_true_iff; right.
      * apply andb_true_iff in Hx as [-> ->]. done.
      * pose proof (fmax_lt (lower_ a) (lower_ b) v Na Nb) as Hlt.
        assert (float_lt (fmax (lower_ a) (lower_ b)) v = true) as Hgt.
        { pose proof (lt_fmax _ _ v Na Nb Hv) as Hm. rewrite Hx in Hm. pose proof (fmax_num _ _ Na Nb) as Hn.
          destruct (float_order _ v Hn Hv); congruence. }
        rewrite Hgt in Hlt. symmetry in Hlt. apply andb_true_iff in Hlt as [La Lb]. apply orb_false_iff in Hx as [-> ->].
        destruct (float_order (lower_ a) v Na Hv); try done. destruct (float_order (lower_ b) v Nb Hv); try done.
        by rewrite !andb_false_r, !orb_true_r.
Qed.

Lemma merged_upper (e : bool) :
  e = negb (upperUnbounded_ a && upperUnbounded_ b) && (negb (testFloatingPoint a upper) || negb (testFloatingPoint b upper)) →
  let ok := (upperUnbounded_ a && upperUnbounded_ b) || negb (float_lt upper v) && negb (e && feq v upper) in
  (ok = false → both = false) ∧ (ok = true → both = true ∨ upperOk a v && upperOk b v = true).
Proof using Hwa Hwb Hca Hcb Hv.
  intros ->. cbv zeta. destruct numbers as (_ & _ & Na & Nb). unfold upper, both.
  rewrite (fmin_lt _ _ v Na Nb Hv). destruct Hca as [_ Cua], Hcb as [_ Cub].
  rewrite !(testFloatingPoint_spec _ v), Hv. cbn [negb andb]. unfold upperOk.
  destruct (feq v (fmin (upper_ a) (upper_ b))) eqn:E.
  - rewrite feq_sym in E. rewrite (test_congr a _ v E), (test_congr b _ v E), !(testFloatingPoint_spec _ v), Hv.
    cbn [negb andb]. unfold upperOk.
    destruct (upperUnbounded_ a) eqn:Ela, (upperUnbounded_ b) eqn:Elb; cbn [negb orb andb];
      repeat match goal with |- context [lowerOk ?r v] => destruct (lowerOk r v) end;
      repeat match goal with |- context [float_lt (upper_ ?r) v] => destruct (float_lt (upper_ r) v) end;
      repeat match goal with |- context [upperExclusive_ ?r && feq v (upper_ ?r)] => destruct (upperExclusive_ r && feq v (upper_ r)) end;
      cbn; naive_solver.
  - rewrite andb_false_r. cbn [negb]. rewrite andb_true_r. split.
    + intros [_ [Hx|Hx]%negb_false_iff%orb_true_iff]%orb_false_iff.
      * destruct (upperUnbounded_ a); [by destruct (Cua eq_refl) as [_ ?]; congruence|]. rewrite Hx. cbn. by rewrite andb_false_r.
      * destruct (upperUnbounded_ b); [by destruct (Cub eq_refl) as [_ ?]; congruence|]. rewrite Hx. cbn. by rewrite !andb_false_r.
    + intros [Hx|Hx%negb_true_iff]%orb_true_iff; right.
      * apply andb_true_iff in Hx as [-> ->]. done.
      * pose proof (lt_fmin (upper_ a) (upper_ b) v Na Nb) as Hlt.
        assert (float_lt v (fmin (upper_ a) (upper_ b)) = true) as Hgt.
        { pose proof (fmin_lt _ _ v Na Nb Hv) as Hm. rewrite Hx in Hm. pose proof (fmin_num _ _ Na Nb) as Hn.
          destruct (float_order v _ Hv Hn); congruence. }
        rewrite Hgt in Hlt. symmetry in Hlt. apply andb_true_iff in Hlt as [La Lb]. apply orb_false_iff in Hx as [-> ->].
        destruct (float_order v (upper_ a) Hv Na); try done. destruct (float_order v (upper_ b) Hv Nb); try done.
        by rewrite !andb_false_r, !orb_true_r.
Qed.

(** A value that passes both lies between the merged ends. *)
Lemma both_between : both = true → float_lt v lower = false ∧ float_lt upper v = false ∧ float_lt upper lower = false.
Proof using Hwa Hwb Hca Hcb Hv.
  intros [Ta Tb]%andb_true_iff. destruct numbers as (Na & Nb & Nua & Nub).
  destruct (test_between a v Hca Ta) as (_ & L1 & U1), (test_between b v Hcb Tb) as (_ & L2 & U2).
  assert (float_lt v lower = false) as HL by (unfold lower; by rewrite lt_fmax, L1, L2).
  assert (float_lt upper v = false) as HU by (unfold upper; by rewrite fmin_lt, U1, U2).
  split; [done|]. split; [done|]. apply (le_le_trans lower v upper); [by apply fmax_num | done..].
Qed.

Lemma rangesMerge_conjunction :
  fp_kind a = fp_kind b → ¬ collision a b →
  ∃ f, rangesMerge a b = Ok f ∧ testNull f = fp_nullAllowed_ a && fp_nullAllowed_ b ∧
    match f with
    | FRange r => testFloatingPoint r v = both ∧ fp_kind r = fp_kind a ∧ fp_wf r
    | AlwaysFalse | IsNull => both = false
    | _ => False
    end.
Proof using Hwa Hwb Hca Hcb Hv.
  intros Hk Hcol. unfold rangesMerge. rewrite bool_decide_true by done. cbn [negb]. cbv zeta.
  fold lower upper. set (eL := negb (lowerUnbounded_ a && lowerUnbounded_ b) && _). set (eU := negb (upperUnbounded_ a && upperUnbounded_ b) && _).
  destruct (float_lt upper lower || feq lower upper && lowerExclusive_ a) eqn:Eempty.
  - eexists. split; [done|]. assert (both = false) as Hb.
    { apply not_true_iff_false. intros Hb. destruct (both_between Hb) as (HL & HU & HLU). rewrite HLU in Eempty. cbn in Eempty.
      apply andb_true_iff in Eempty as [Eq Ex]. apply Hcol. split; [done|]. split; [done|]. apply andb_true_iff in Hb as [Ta Tb].
      assert (feq lower v = true) as Ev.
      { destruct numbers as (Na & Nb & _ & _). pose proof (fmax_num _ _ Na Nb) as Nl. fold lower in Nl.
        destruct (feq_congr lower upper v Eq) as (Hc & _). rewrite HU in Hc. destruct (float_order lower v Nl Hv); congruence. }
      fold lower. by rewrite (test_congr a _ v Ev), (test_congr b _ v Ev). }
    destruct (fp_nullAllowed_ a && fp_nullAllowed_ b) eqn:En; done.
  - destruct numbers as (Na & Nb & Nua & Nub). pose proof (fmax_num _ _ Na Nb) as Nl. pose proof (fmin_num _ _ Nua Nub) as Nu.
    fold lower in Nl. fold upper in Nu. unfold newFloatingPointRange. rewrite Nl, Nu. cbn [negb]. rewrite !orb_true_r.
    assert (negb (lowerUnbounded_ a && lowerUnbounded_ b) || negb (upperUnbounded_ a && upperUnbounded_ b) = true) as Hbd.
    { destruct Hwa as [H1 _]. by destruct (lowerUnbounded_ a), (upperUnbounded_ a), (lowerUnbounded_ b), (upperUnbounded_ b). }
    rewrite Hbd. cbn [velox_check mbind outcome_bind]. eexists. split; [done|]. split; [done|]. split; [|split; [done|]].
    + rewrite testFloatingPoint_spec, Hv. cbn [negb andb]. unfold lowerOk at 1, upperOk at 1. cbn [lowerUnbounded_ lowerExclusive_ lower_ upperUnbounded_ upperExclusive_ upper_].
      destruct (merged_lower eL eq_refl) as [L0 L1], (merged_upper eU eq_refl) as [U0 U1]. cbv zeta in *.
      destruct (lowerUnbounded_ a && lowerUnbounded_ b || _) eqn:EL; [|cbn; symmetry; by apply L0].
      destruct (upperUnbounded_ a && upperUnbounded_ b || _) eqn:EU; [|cbn; symmetry; by apply U0].
      destruct (L1 eq_refl) as [?|HL]; [done|]. destruct (U1 eq_refl) as [?|HU]; [done|].
      unfold both. rewrite !testFloatingPoint_spec, Hv. apply andb_true_iff in HL as [-> ->], HU as [-> ->]. done.
    + unfold fp_wf. cbn. by rewrite Nl, Nu, Hbd, !orb_true_r.
Qed.
End RangesMerge.

(** ** Merging two filters *)

(** The test that a column of the kind [k] runs. *)
Definition testAs (k : FloatKind) (f : Filter) (v : spec_float) : bool :=
  match k with kDoubleRange => testDouble f v | kFloatRange => testFloat f v end.

Definition rangeOf (f : Filter) : option FloatingPointRange := match f with FRange r => Some r | _ => None end.

Definition rangesOf (f : Filter) : list FloatingPointRange :=
  match f with FRange r => [r] | MultiRange fs _ _ => omap rangeOf fs | _ => [] end.

(** The ranges are of one kind and a multi-range holds nothing else. *)
Definition filter_wf (k : FloatKind) (f : Filter) : Prop :=
  match f with MultiRange fs _ _ => Forall (λ g, is_Some (rangeOf g)) fs | _ => True end ∧
  Forall (λ r, fp_wf r ∧ fp_kind r = k) (rangesOf f).

(** Whether one filter is a single range and the other a multi-range. *)
Definition mixed (f g : Filter) : bool :=
  match f, g with FRange _, MultiRange _ _ _ | MultiRange _ _ _, FRange _ => true | _, _ => false end.

Lemma ranges_only fs : Forall (λ g, is_Some (rangeOf g)) fs → fs = map FRange (omap rangeOf fs).
Proof.
  induction 1 as [|g fs [r Hr] _ IH]; [done|]. destruct g; try done. cbn. by rewrite <- IH.
Qed.

Lemma testAs_range k r v : fp_kind r = k → testAs k (FRange r) v = testFloatingPoint r v.
Proof. intros <-. unfold testAs. cbn. unfold fp_testDouble, fp_testFloat. by destruct (fp_kind r). Qed.

Definition anyRange (rs : list FloatingPointRange) (v : spec_float) : bool := existsb (λ r, testFloatingPoint r v) rs.

Lemma testAs_multi k rs b nan v :
  isnan v = false → Forall (λ r, fp_wf r ∧ fp_kind r = k) rs → testAs k (MultiRange (map FRange rs) b nan) v = anyRange rs v.
Proof.
  intros Hv Hrs. transitivity (existsb (λ g, testAs k g v) (map FRange rs)); [unfold testAs; destruct k; cbn; by rewrite Hv|].
  induction Hrs as [|r rs [_ Hk] _ IH]; [done|]. cbn [map existsb]. rewrite IH. unfold anyRange at 2. cbn [existsb].
  by rewrite testAs_range.
Qed.

Lemma range_in rs f : f ∈ map FRange rs → ∃ r, FRange r = f ∧ r ∈ rs.
Proof. rewrite list_elem_of_In, in_map_iff. intros (r & Hr & Hin). exists r. by rewrite list_elem_of_In. Qed.

Lemma clone_ranges rs : map (λ g, clone g None) (map FRange rs) = map FRange rs.
Proof. rewrite map_map. by apply map_ext. Qed.

Lemma withNull_test r b v : testFloatingPoint (fp_withNull r b) v = testFloatingPoint r v.
Proof. done. Qed.

Section Multi.
Variables (k : FloatKind) (v : spec_float).
Hypothesis Hv : isnan v = false.

Definition usable (r : FloatingPointRange) : Prop := (fp_wf r ∧ fp_kind r = k) ∧ covered r v.

(** The ranges that a pair of ranges contributes. *)
Lemma mergedPair_ok n a b :
  usable a → usable b → ¬ collision a b →
  ∃ l, mergedPair (mergeWithFuel (S n)) (FRange a) (FRange b) = Ok (map FRange l) ∧
    Forall (λ r, fp_wf r ∧ fp_kind r = k) l ∧ anyRange l v = testFloatingPoint a v && testFloatingPoint b v.
Proof using Hv.
  intros [[Hwa Hka] Hca] [[Hwb Hkb] Hcb] Hcol.
  destruct (rangesMerge_conjunction a b Hwa Hwb v Hv Hca Hcb ltac:(congruence) Hcol) as (f & Hf & _ & Ht).
  unfold mergedPair. cbn [mergeWithFuel mergeStep fp_mergeWith]. rewrite Hf. cbn [mbind outcome_bind].
  destruct f as [| | | |r|]; try done.
  - exists []. split; [done|]. split; [done|]. by symmetry.
  - exists []. split; [done|]. split; [done|]. by symmetry.
  - destruct Ht as (Ht & Hk & Hw). exists [r]. split; [done|]. split; [apply Forall_singleton; split; [done|congruence]|].
    unfold anyRange. cbn. by rewrite orb_false_r.
Qed.

(** Folding over one list of ranges, then over both. *)
Lemma fold_ok {A} (step : list Filter → A → outcome (list Filter)) (test : A → bool) xs :
  (∀ x acc, x ∈ xs → ∃ l, step acc x = Ok (acc ++ map FRange l) ∧ Forall (λ r, fp_wf r ∧ fp_kind r = k) l ∧ anyRange l v = test x) →
  ∀ acc, ∃ l, foldM_o step xs acc = Ok (acc ++ map FRange l) ∧ Forall (λ r, fp_wf r ∧ fp_kind r = k) l ∧
    anyRange l v = existsb test xs.
Proof using.
  induction xs as [|x xs IH]; intros Hstep acc; [exists []; by rewrite app_nil_r|].
  destruct (Hstep x acc) as (l1 & E1 & W1 & T1); [by left|].
  destruct (IH (λ y a Hy, Hstep y a (list_elem_of_further _ _ _ Hy)) (acc ++ map FRange l1)) as (l2 & E2 & W2 & T2).
  exists (l1 ++ l2). cbn [foldM_o]. rewrite E1. cbn [mbind outcome_bind]. rewrite E2, map_app, app_assoc.
  split; [done|]. split; [by apply Forall_app|]. unfold anyRange in *. by rewrite existsb_app, T1, T2.
Qed.

Lemma existsb_andb {A} (c : bool) (t : A → bool) l : existsb (λ x, c && t x) l = c && existsb t l.
Proof using. induction l as [|x l IH]; cbn; [by rewrite andb_false_r|]. rewrite IH. by destruct c. Qed.

Definition testOf (f : Filter) : bool := match f with FRange r => testFloatingPoint r v | _ => false end.

Lemma existsb_testOf rs : existsb testOf (map FRange rs) = anyRange rs v.
Proof using. by induction rs as [|r rs IH]; [|cbn; rewrite IH]. Qed.

(** One range with a list of ranges. *)
Lemma mergedRow_ok n a ss :
  usable a → Forall usable ss → (∀ c, c ∈ ss → ¬ collision a c) →
  ∀ acc, ∃ l, foldM_o (λ acc g, l ← mergedPair (mergeWithFuel (S n)) (FRange a) g; Ok (acc ++ l)) (map FRange ss) acc
      = Ok (acc ++ map FRange l) ∧
    Forall (λ r, fp_wf r ∧ fp_kind r = k) l ∧ anyRange l v = testFloatingPoint a v && anyRange ss v.
Proof using Hv.
  intros Ha Hss Hcol acc. rewrite <- existsb_testOf, <- existsb_andb. revert acc. apply fold_ok.
  intros g acc (c & <- & Hc)%range_in. rewrite Forall_forall in Hss.
  destruct (mergedPair_ok n a c Ha (Hss c Hc) (Hcol c Hc)) as (l & -> & Hl). by exists l.
Qed.

Lemma mr_mergeWith_ok n rs ss b nan b' nan' :
  Forall usable rs → Forall usable ss → (∀ a c, a ∈ rs → c ∈ ss → ¬ collision a c) →
  ∃ h, mr_mergeWith (mergeWithFuel (S n)) (map FRange rs) b nan (MultiRange (map FRange ss) b' nan') = Ok h ∧
    testNull h = b && b' ∧ testAs k h v = anyRange rs v && anyRange ss v.
Proof using Hv.
  intros Hrs Hss Hcol. cbn [mr_mergeWith]. cbv zeta. set (outer := λ (acc : list Filter) f, foldM_o _ _ acc).
  assert (∃ l, foldM_o outer (map FRange rs) [] = Ok (map FRange l) ∧ Forall (λ r, fp_wf r ∧ fp_kind r = k) l ∧
    anyRange l v = anyRange rs v && anyRange ss v) as (l & -> & Hl & <-).
  { rewrite (andb_comm (anyRange rs v)), <- (existsb_testOf rs), <- existsb_andb.
    apply (fold_ok outer (λ f, anyRange ss v && testOf f)). intros f acc (a & <- & Ha)%range_in. rewrite Forall_forall in Hrs.
    rewrite (andb_comm (anyRange ss v)). apply (mergedRow_ok n a ss (Hrs a Ha) Hss (λ c, Hcol a c Ha)). }
  cbn [mbind outcome_bind]. destruct l as [|r [|r2 l]].
  - exists (nullOrFalse (b && b')). split; [done|]. by destruct (b && b'), k.
  - exists (FRange (fp_withNull r (b && b'))). split; [done|]. split; [done|]. apply Forall_cons in Hl as [[_ Hk] _].
    rewrite testAs_range by done. unfold anyRange. cbn [existsb]. by rewrite orb_false_r, withNull_test.
  - exists (MultiRange (map FRange (r :: r2 :: l)) (b && b') (nan && nan')). split; [done|]. split; [done|].
    by rewrite testAs_multi.
Qed.
End Multi.

Lemma filter_cases k f :
  filter_wf k f →
  (rangesOf f = [] ∧ (f = AlwaysFalse ∨ f = AlwaysTrue ∨ f = IsNull ∨ f = IsNotNull)) ∨
  (∃ r, f = FRange r ∧ fp_wf r ∧ fp_kind r = k) ∨
  (∃ rs b nan, f = MultiRange (map FRange rs) b nan ∧ rangesOf f = rs ∧ Forall (λ r, fp_wf r ∧ fp_kind r = k) rs).
Proof.
  intros [Hf Hr]. destruct f as [| | | |r|fs b nan]; [left; split; [done | tauto]..| |]; right.
  - left. apply Forall_singleton in Hr as [Hw Hk]. exists r. auto.
  - right. exists (omap rangeOf fs), b, nan. by rewrite <- (ranges_only fs Hf).
Qed.

(** Copying a filter changes nothing but, when asked, the flag on nulls. *)
Lemma clone_wf k f b :
  filter_wf k f → testNull (clone f None) = testNull f ∧ (∀ v, isnan v = false → testAs k (clone f b) v = testAs k f v).
Proof.
  intros [(_ & [-> | [-> | [-> | ->]]]) | [(r & -> & _ & Hk) | (rs & b0 & nan & -> & _ & Hrs)]]%filter_cases; try done.
  - split; [done|]. intros v _. destruct b; [|done]. cbn [clone]. by rewrite !testAs_range.
  - split; [done|]. intros v Hv. cbn [clone]. rewrite clone_ranges. by rewrite !testAs_multi.
Qed.

Lemma newRange_withNull r b :
  fp_wf r → newFloatingPointRange (fp_kind r) (lower_ r) (lowerUnbounded_ r) (lowerExclusive_ r) (upper_ r) (upperUnbounded_ r)
    (upperExclusive_ r) b = Ok (fp_withNull r b).
Proof. intros (H1 & H2 & H3). unfold newFloatingPointRange. by rewrite H1, H2, H3. Qed.

(** The filters without ranges on the left. *)
Lemma mergeWith_plain k n f g v :
  filter_wf k g → isnan v = false → f = AlwaysFalse ∨ f = AlwaysTrue ∨ f = IsNull ∨ f = IsNotNull →
  ∃ h, mergeWithFuel (S (S n)) f g = Ok h ∧ testNull h = testNull f && testNull g ∧ testAs k h v = testAs k f v && testAs k g v.
Proof.
  intros Hg Hv [-> | [-> | [-> | ->]]].
  - exists AlwaysFalse. by destruct k.
  - exists (clone g None). destruct (clone_wf k g None Hg) as [Hn Ht]. split; [done|]. split; [done|]. rewrite (Ht v Hv). by destruct k.
  - exists (if testNull g then IsNull else AlwaysFalse). split; [done|]. by destruct (testNull g), k.
  - destruct (filter_cases k g Hg) as [(_ & [-> | [-> | [-> | ->]]]) | [(r & -> & Hw & Hk) | (rs & b & nan & -> & _ & Hrs)]].
    + exists AlwaysFalse. by destruct k.
    + exists IsNotNull. by destruct k.
    + exists AlwaysFalse. by destruct k.
    + exists IsNotNull. by destruct k.
    + exists (FRange (fp_withNull r false)). cbn [mergeWithFuel mergeStep isNotNull_mergeWith fp_mergeWith].
      rewrite newRange_withNull by done. split; [done|]. split; [done|]. rewrite !testAs_range by done. by destruct k.
    + exists (clone (MultiRange (map FRange rs) b nan) (Some false)). split; [done|]. split; [done|].
      rewrite (proj2 (clone_wf k _ (Some false) Hg) v Hv). by destruct k.
Qed.

(** A filter without ranges on the right is merged from the left. *)
Lemma mergeWith_swap k n f g v :
  filter_wf k f → rangesOf f ≠ [] ∨ (∃ fs b nan, f = MultiRange fs b nan) → isnan v = false →
  g = AlwaysFalse ∨ g = AlwaysTrue ∨ g = IsNull ∨ g = IsNotNull →
  ∃ h, mergeWithFuel (S (S (S n))) f g = Ok h ∧ testNull h = testNull f && testNull g ∧ testAs k h v = testAs k f v && testAs k g v.
Proof.
  intros Hf Hm Hv Hg. rewrite (andb_comm (testNull f)), (andb_comm (testAs k f v)).
  assert (mergeWithFuel (S (S (S n))) f g = mergeWithFuel (S (S n)) g f) as ->; [|by apply mergeWith_plain].
  destruct Hm as [Hm|(fs & b & nan & ->)]; [destruct f; try done|]; by destruct Hg as [-> | [-> | [-> | ->]]].
Qed.

(** C23: Merging two floating-point filters, each a range over one type, a
    multi-range of such ranges or a filter on nulls.  A single range with a
    multi-range, in either order, is refused: the call throws as unreachable.
    Every other pair merges, and the merged filter passes exactly the nulls
    and the numbers (NaN is not one) that both pass, for every number that the
    stored value of an unbounded end does not exclude, when no two ranges meet
    only in one value that both pass while the first excludes its own lower
    end. *)
Theorem float_mergeWith_conjunction k f g v :
  filter_wf k f → filter_wf k g → isnan v = false →
  (∀ r, r ∈ rangesOf f ++ rangesOf g → covered r v) →
  (∀ a b, a ∈ rangesOf f → b ∈ rangesOf g → ¬ collision a b) →
  if mixed f g then mergeWith f g = Throw VeloxUnreachable
  else ∃ h, mergeWith f g = Ok h ∧ testNull h = testNull f && testNull g ∧ testAs k h v = testAs k f v && testAs k g v.
Proof.
  intros Hf Hg Hv Hcov Hcol. destruct (mixed f g) eqn:Hs; [by destruct f, g|].
  destruct (filter_cases k f Hf) as [[_ Hp] | [(r & -> & Hw & Hk) | (rs & b & nan & -> & Er & Hrs)]]; [by apply mergeWith_plain|..].
  - destruct (filter_cases k g Hg) as [[_ Hp] | [(r2 & -> & Hw2 & Hk2) | (rs2 & b2 & nan2 & -> & _)]]; [|..|done].
    + apply mergeWith_swap; [done | by left | done..].
    + destruct (rangesMerge_conjunction r r2 Hw Hw2 v Hv) as (h & Hh & Hn & Ht);
        [apply Hcov; by left | apply Hcov; by right; left | congruence | apply Hcol; by left |].
      exists h. split; [done|]. split; [done|]. rewrite !testAs_range by done.
      destruct h as [| | | |h|]; try done; [by rewrite Ht; destruct k..|]. destruct Ht as (Ht & Hk' & _).
      rewrite testAs_range; [done | congruence].
  - destruct (filter_cases k g Hg) as [[_ Hp] | [(r2 & -> & _) | (rs2 & b2 & nan2 & -> & Er2 & Hrs2)]]; [|done|].
    + apply mergeWith_swap; [done | right; eauto | done..].
    + rewrite Er, Er2 in *. rewrite !testAs_multi by done. apply (mr_mergeWith_ok k v Hv 1).
      * rewrite Forall_forall in *. intros a Ha. split; [by apply Hrs | apply Hcov, elem_of_app; by left].
      * rewrite Forall_forall in *. intros a Ha. split; [by apply Hrs2 | apply Hcov, elem_of_app; by right].
      * done.
Qed.

(** [c < 5 or c > 8] with nulls, and [c = 3 or 6 <= c < 9]. *)
Definition infinity : spec_float := S754_infinity false.
Definition below5 : FloatingPointRange :=
  mkFloatingPointRange kDoubleRange false true false false true (S754_infinity true) (f64_of_Z 5).
Definition above8 : FloatingPointRange := mkFloatingPointRange kDoubleRange false false true true true (f64_of_Z 8) infinity.
Definition from6to9 : FloatingPointRange := mkFloatingPointRange kDoubleRange false false false false true (f64_of_Z 6) (f64_of_Z 9).
Definition outside : Filter := MultiRange [FRange below5; FRange above8] true false.
Definition pieces : Filter := MultiRange [FRange equalsThree; FRange from6to9] true true.

Lemma float_mergeWith_conjunction_witness :
  ∃ h, mergeWith outside pieces = Ok h ∧ testNull h = true ∧ testAs kDoubleRange h three = true.
Proof.
  destruct (float_mergeWith_conjunction kDoubleRange outside pieces three) as (h & Hm & Hn & Ht).
  - split; repeat constructor; by eexists.
  - split; repeat constructor; by eexists.
  - done.
  - apply Forall_forall. cbn. repeat apply Forall_cons_2; try apply Forall_nil_2; split; intros; split; (discriminate || reflexivity).
  - assert (forallb (λ a, forallb (λ b, negb (feq (fmax (lower_ a) (lower_ b)) (fmin (upper_ a) (upper_ b)) && lowerExclusive_ a))
      (rangesOf pieces)) (rangesOf outside) = true) as Hno by (vm_compute; reflexivity).
    intros a b Ha%list_elem_of_In Hb%list_elem_of_In (H1 & H2 & _). rewrite forallb_forall in Hno. specialize (Hno a Ha).
    rewrite forallb_forall in Hno. specialize (Hno b Hb). by rewrite H1, H2 in Hno.
  - exists h. split; [exact Hm|]. split; [rewrite Hn; reflexivity | rewrite Ht; reflexivity].
Defined.

(** ** Where the code differs *)

(** Two ranges that meet in one value that both pass: the merged filter rejects
    it when the first range excludes its own lower end, wherever that is. *)
Theorem collision_loses_value a b :
  fp_kind a = fp_kind b → collision a b →
  rangesMerge a b = Ok (nullOrFalse (fp_nullAllowed_ a && fp_nullAllowed_ b)).
Proof.
  intros Hk (Heq & Hex & _ & _). unfold rangesMerge. rewrite bool_decide_true by done. cbn [negb]. cbv zeta.
  by rewrite Heq, Hex, orb_true_r.
Qed.

(** [c > 1 and c = 3] becomes false, [c = 3 and c > 1] does not. *)
Theorem float_merge_order_matters :
  fp_testDouble aboveOne three = true ∧ fp_testDouble equalsThree three = true ∧
  mergeWith (FRange aboveOne) (FRange equalsThree) = Ok AlwaysFalse ∧
  (h ← mergeWith (FRange equalsThree) (FRange aboveOne); Ok (testDouble h three)) = Ok true.
Proof. repeat split; vm_compute; reflexivity. Qed.

(** A value stored for an unbounded end is documented as ignored, but excludes
    row groups and values: [c < 5] with 0 stored below. *)
Definition below5over0 : FloatingPointRange :=
  mkFloatingPointRange kDoubleRange false true true false true (f64_of_Z 0) (f64_of_Z 5).
Theorem unbounded_end_not_ignored :
  fp_testDouble below5over0 (f64_of_Z (-3)) = true ∧
  fp_testDoubleRange below5over0 (f64_of_Z (-3)) (f64_of_Z (-3)) false = false.
Proof. split; vm_compute; reflexivity. Qed.

(** Two disjoint ranges merge to a filter that has no test of row groups. *)
Theorem disjoint_ranges_unsupported :
  mergeWith (FRange above8) (FRange equalsThree) = Ok AlwaysFalse ∧
  testDoubleRange AlwaysFalse (f64_of_Z 0) (f64_of_Z 9) false = Throw VeloxUnsupported.
Proof. split; vm_compute; reflexivity. Qed.

(** NaN passes both multi-ranges, and not the merged filter. *)
Definition above8orNaN : Filter := MultiRange [FRange above8; FRange equalsThree] false true.
Definition below5orNaN : Filter := MultiRange [FRange below5] false true.
Theorem nan_lost_by_merge :
  testDouble above8orNaN S754_nan = true ∧ testDouble below5orNaN S754_nan = true ∧
  (h ← mergeWith above8orNaN below5orNaN; Ok (testDouble h S754_nan)) = Ok false.
Proof. repeat split; vm_compute; reflexivity. Qed.
