(* ===== verification/Bits.v ===== *)
(** * Bytes and bits

    What the encodings share: characters as numbers, masks and shifts as
    arithmetic, and writes into buffers of fixed size. *)
From Stdlib Require Import Ascii String.
From S2P Require Import Prelude Text.
Local Open Scope Z_scope.

(** A [char] as the number it has as a [uint8_t], and back by truncation. *)
Definition code (c : ascii) : Z := Z.of_nat (nat_of_ascii c).
Definition chr (z : Z) : ascii := ascii_of_nat (Z.to_nat (z mod 256)).

Lemma code_range c : 0 ≤ code c < 256.
Proof. unfold code. pose proof (nat_ascii_bounded c). lia. Qed.

Lemma chr_code c : chr (code c) = c.
Proof.
  unfold chr. rewrite Z.mod_small by apply code_range. unfold code. by rewrite Nat2Z.id, ascii_nat_embedding.
Qed.

Lemma code_chr z : 0 ≤ z < 256 → code (chr z) = z.
Proof.
  intros Hz. unfold chr, code. rewrite Z.mod_small, nat_ascii_embedding by lia. lia.
Qed.

(** ** Masks and shifts *)
Lemma testbit_small x n i : 0 ≤ x < 2 ^ n → n ≤ i → Z.testbit x i = false.
Proof.
  intros Hx Hi. destruct (Z.lt_ge_cases i 0); [apply Z.testbit_neg_r; lia|].
  apply Z.testbit_false; [lia|]. rewrite Z.div_small; [done|].
  split; [lia|]. apply Z.lt_le_trans with (2 ^ n); [lia | apply Z.pow_le_mono_r; lia].
Qed.

(** Bits above and bits below a position, put together. *)
Lemma lor_shift hi lo n : 0 ≤ n → 0 ≤ lo < 2 ^ n → Z.lor (Z.shiftl hi n) lo = hi * 2 ^ n + lo.
Proof.
  intros Hn Hlo. rewrite <- Z.shiftl_mul_pow2 by lia.
  assert (Z.land (Z.shiftl hi n) lo = 0) as Hl.
  { apply Z.bits_inj'. intros i Hi. rewrite Z.land_spec, Z.bits_0. destruct (Z.lt_ge_cases i n).
    - by rewrite Z.shiftl_spec_low by lia.
    - by rewrite (testbit_small lo n i), andb_false_r by lia. }
  pose proof (Z.add_lor_land (Z.shiftl hi n) lo). lia.
Qed.

Lemma lor_add hi lo n : 0 ≤ n → 0 ≤ lo < 2 ^ n → hi mod 2 ^ n = 0 → Z.lor hi lo = hi + lo.
Proof.
  intros Hn Hlo Hhi. assert (0 < 2 ^ n) by (apply Z.pow_pos_nonneg; lia).
  rewrite (Z.div_mod hi (2 ^ n)) at 1 by lia. rewrite Hhi, Z.add_0_r, Z.mul_comm, <- Z.shiftl_mul_pow2 by lia.
  rewrite lor_shift by lia. rewrite (Z.div_mod hi (2 ^ n)) at 2 by lia. lia.
Qed.

Lemma lor_range n x y : 0 ≤ n → 0 ≤ x < 2 ^ n → 0 ≤ y < 2 ^ n → 0 ≤ Z.lor x y < 2 ^ n.
Proof.
  intros Hn Hx Hy. assert (Z.lor x y = Z.lor x y mod 2 ^ n) as ->; [|apply Z.mod_pos_bound, Z.pow_pos_nonneg; lia].
  apply Z.bits_inj'. intros i Hi. destruct (Z.lt_ge_cases i n).
  - by rewrite Z.mod_pow2_bits_low by lia.
  - rewrite Z.mod_pow2_bits_high, Z.lor_spec by lia. by rewrite !(testbit_small _ n) by lia.
Qed.

Lemma mod_mask x n : 0 ≤ n → Z.land x (2 ^ n - 1) = x mod 2 ^ n.
Proof. intros Hn. rewrite <- Z.land_ones by lia. f_equal. rewrite Z.ones_equiv. lia. Qed.

Lemma land_63 x : Z.land x 63 = x mod 64.
Proof. apply (mod_mask x 6). lia. Qed.
Lemma land_127 x : Z.land x 127 = x mod 128.
Proof. apply (mod_mask x 7). lia. Qed.
Lemma land_255 x : Z.land x 255 = x mod 256.
Proof. apply (mod_mask x 8). lia. Qed.

(** ** Buffers *)

(** [bytes] written from the start of [out]; writing past its end is
    undefined. *)
Definition writeTo {A} (bytes out : list A) : outcome (list A) :=
  if (length bytes <=? length out)%nat then Ok (bytes ++ drop (length bytes) out) else Undefined.

Lemma writeTo_exact {A} (bytes out : list A) : length bytes = length out → writeTo bytes out = Ok bytes.
Proof.
  intros H. unfold writeTo. rewrite (proj2 (Nat.leb_le _ _)) by lia. by rewrite drop_ge, app_nil_r by lia.
Qed.

(** Induction by groups of three. *)
Lemma triples_ind {A} (P : list A → Prop) :
  P [] → (∀ a, P [a]) → (∀ a b, P [a; b]) → (∀ a b c l, P l → P (a :: b :: c :: l)) → ∀ l, P l.
Proof.
  intros H0 H1 H2 H3. fix IH 1. intros [|a [|b [|c l]]]; [done | done | done|]. apply H3, IH.
Qed.

(** Induction by groups of four, the last group apart. *)
Lemma quads_ind {A} (P : list A → Prop) :
  (∀ l, (length l ≤ 4)%nat → P l) → (∀ a b c d e l, P (e :: l) → P (a :: b :: c :: d :: e :: l)) → ∀ l, P l.
Proof.
  intros H0 H1 l. remember (length l) as n eqn:En. revert l En. induction (lt_wf n) as [n _ IH]. intros l ->.
  destruct l as [|a [|b [|c [|d [|e l]]]]]; [apply H0; simpl; lia..|]. apply H1. eapply IH; [|done]. simpl. lia.
Qed.

(** ** [bits::nextPowerOfTwo] of [common/base/BitUtil.h] *)
Definition nextPowerOfTwo (size : Z) : Z :=
  if size =? 0 then 0 else
  let lower := Z.shiftl 1 (Z.log2 size) in
  if lower =? size then size else uwrap 64 (2 * lower).

(** Above 2^63 the next power of two is out of range and wraps around to 0. *)
Lemma nextPowerOfTwo_wraps size : 2 ^ 63 < size < 2 ^ 64 → nextPowerOfTwo size = 0.
Proof.
  intros Hs. unfold nextPowerOfTwo. rewrite (proj2 (Z.eqb_neq size 0)) by lia. rewrite Z.shiftl_1_l.
  assert (Z.log2 size = 63) as -> by (apply Z.log2_unique; lia). by rewrite (proj2 (Z.eqb_neq (2 ^ 63) size)) by lia.
Qed.

(** Up to 2^63 it is the least power of two that is not less. *)
Lemma nextPowerOfTwo_spec size : 1 ≤ size ≤ 2 ^ 63 →
  ∃ k, 0 ≤ k ≤ 63 ∧ nextPowerOfTwo size = 2 ^ k ∧ size ≤ 2 ^ k < 2 * size.
Proof.
  intros Hs. unfold nextPowerOfTwo. rewrite (proj2 (Z.eqb_neq size 0)) by lia. rewrite Z.shiftl_1_l.
  pose proof (Z.log2_nonneg size). pose proof (Z.log2_spec size ltac:(lia)) as [Hlo Hhi]. rewrite Z.pow_succ_r in Hhi by done.
  assert (Z.log2 size ≤ 63) by (change 63 with (Z.log2 (2 ^ 63)); apply Z.log2_le_mono; lia).
  destruct (Z.eqb_spec (2 ^ Z.log2 size) size) as [E|E].
  - exists (Z.log2 size). lia.
  - assert (Z.log2 size < 63).
    { destruct (Z.eq_dec (Z.log2 size) 63) as [E'|]; [|lia]. rewrite E' in *. lia. }
    assert (2 ^ Z.log2 size ≤ 2 ^ 62) by (apply Z.pow_le_mono_r; lia).
    exists (Z.log2 size + 1). unfold uwrap. rewrite Z.pow_add_r, Z.mod_small by lia. lia.
Qed.
