(* ===== verification/Base64.v ===== *)
(** * Base64

    Models [velox/common/encode/Base64.h] and [velox/common/encode/Base64.cpp]:
    the two alphabets and their reverse tables with the checks the code makes
    at compile time, encoding with and without padding, and decoding with its
    size computations and its errors.  A [StringPiece] is the list of its
    characters; an [IOBuf] chain is the list of its buffers.  Sizes are
    [size_t], so they wrap at 2^64, except where the code narrows them to
    [int32_t]. *)
From Stdlib Require Import Ascii String.
From S2P Require Import Prelude Text Bits.
Local Open Scope Z_scope.

(** ** Alphabets *)
Definition kBase64Charset : text :=
  txt "ABCDEFGHIJKLMNOPQRSTUVWXYZabcdefghijklmnopqrstuvwxyz0123456789+/".
Definition kBase64UrlCharset : text :=
  txt "ABCDEFGHIJKLMNOPQRSTUVWXYZabcdefghijklmnopqrstuvwxyz0123456789-_".

Definition kBase64ReverseIndexTable : list Z :=
  [255; 255; 255; 255; 255; 255; 255; 255; 255; 255; 255; 255; 255; 255; 255; 255;
   255; 255; 255; 255; 255; 255; 255; 255; 255; 255; 255; 255; 255; 255; 255; 255;
   255; 255; 255; 255; 255; 255; 255; 255; 255; 255; 255; 62; 255; 255; 255; 63;
   52; 53; 54; 55; 56; 57; 58; 59; 60; 61; 255; 255; 255; 255; 255; 255;
   255; 0; 1; 2; 3; 4; 5; 6; 7; 8; 9; 10; 11; 12; 13; 14;
   15; 16; 17; 18; 19; 20; 21; 22; 23; 24; 25; 255; 255; 255; 255; 255;
   255; 26; 27; 28; 29; 30; 31; 32; 33; 34; 35; 36; 37; 38; 39; 40;
   41; 42; 43; 44; 45; 46; 47; 48; 49; 50; 51; 255; 255; 255; 255; 255;
   255; 255; 255; 255; 255; 255; 255; 255; 255; 255; 255; 255; 255; 255; 255; 255;
   255; 255; 255; 255; 255; 255; 255; 255; 255; 255; 255; 255; 255; 255; 255; 255;
   255; 255; 255; 255; 255; 255; 255; 255; 255; 255; 255; 255; 255; 255; 255; 255;
   255; 255; 255; 255; 255; 255; 255; 255; 255; 255; 255; 255; 255; 255; 255; 255;
   255; 255; 255; 255; 255; 255; 255; 255; 255; 255; 255; 255; 255; 255; 255; 255;
   255; 255; 255; 255; 255; 255; 255; 255; 255; 255; 255; 255; 255; 255; 255; 255;
   255; 255; 255; 255; 255; 255; 255; 255; 255; 255; 255; 255; 255; 255; 255; 255;
   255; 255; 255; 255; 255; 255; 255; 255; 255; 255; 255; 255; 255; 255; 255; 255].

Definition kBase64UrlReverseIndexTable : list Z :=
  [255; 255; 255; 255; 255; 255; 255; 255; 255; 255; 255; 255; 255; 255; 255; 255;
   255; 255; 255; 255; 255; 255; 255; 255; 255; 255; 255; 255; 255; 255; 255; 255;
   255; 255; 255; 255; 255; 255; 255; 255; 255; 255; 255; 62; 255; 62; 255; 63;
   52; 53; 54; 55; 56; 57; 58; 59; 60; 61; 255; 255; 255; 255; 255; 255;
   255; 0; 1; 2; 3; 4; 5; 6; 7; 8; 9; 10; 11; 12; 13; 14;
   15; 16; 17; 18; 19; 20; 21; 22; 23; 24; 25; 255; 255; 255; 255; 63;
   255; 26; 27; 28; 29; 30; 31; 32; 33; 34; 35; 36; 37; 38; 39; 40;
   41; 42; 43; 44; 45; 46; 47; 48; 49; 50; 51; 255; 255; 255; 255; 255;
   255; 255; 255; 255; 255; 255; 255; 255; 255; 255; 255; 255; 255; 255; 255; 255;
   255; 255; 255; 255; 255; 255; 255; 255; 255; 255; 255; 255; 255; 255; 255; 255;
   255; 255; 255; 255; 255; 255; 255; 255; 255; 255; 255; 255; 255; 255; 255; 255;
   255; 255; 255; 255; 255; 255; 255; 255; 255; 255; 255; 255; 255; 255; 255; 255;
   255; 255; 255; 255; 255; 255; 255; 255; 255; 255; 255; 255; 255; 255; 255; 255;
   255; 255; 255; 255; 255; 255; 255; 255; 255; 255; 255; 255; 255; 255; 255; 255;
   255; 255; 255; 255; 255; 255; 255; 255; 255; 255; 255; 255; 255; 255; 255; 255;
   255; 255; 255; 255; 255; 255; 255; 255; 255; 255; 255; 255; 255; 255; 255; 255].

Definition kBase64Pad : ascii := "="%char.

(** [charset[i]] and [table[i]] of a [std::array]. *)
Definition at_or {A} (d : A) (l : list A) (i : Z) : A := default d (l !! Z.to_nat i).

Fixpoint checkForwardIndex (idx : nat) (charset : text) (table : list Z) : bool :=
  (at_or 255 table (code (at_or kBase64Pad charset (Z.of_nat idx))) =? Z.of_nat idx) &&
  match idx with O => true | S idx' => checkForwardIndex idx' charset table end.

Fixpoint constCharsetContains (fuel : nat) (charset : text) (idx : nat) (c : ascii) : bool :=
  match fuel with
  | O => false
  | S fuel' =>
      (idx <? length charset)%nat &&
      (is_char (at_or kBase64Pad charset (Z.of_nat idx)) c || constCharsetContains fuel' charset (S idx) c)
  end.

Fixpoint checkReverseIndex (idx : nat) (charset : text) (table : list Z) : bool :=
  (if at_or 255 table (Z.of_nat idx) =? 255
   then negb (constCharsetContains 65 charset 0 (chr (Z.of_nat idx)))
   else code (at_or kBase64Pad charset (at_or 255 table (Z.of_nat idx))) =? Z.of_nat idx) &&
  match idx with O => true | S idx' => checkReverseIndex idx' charset table end.

(** ** Encoding *)
Definition calculateEncodedSize (size : Z) (withPadding : bool) : Z :=
  if size =? 0 then 0
  else
    let encodedSize := uwrap 64 (uwrap 64 (size + 2) / 3 * 4) in
    if withPadding then encodedSize
    else uwrap 64 (encodedSize - (3 - size mod 3) mod 3).

(** The characters written through [wp], in order. *)
Fixpoint encodeLoop (charset : text) (include_pad : bool) (data : text) : outcome text :=
  match data with
  | a :: b :: c :: rest =>
      let curr := Z.lor (Z.lor (Z.shiftl (code a) 16) (Z.shiftl (code b) 8)) (code c) in
      group ← mapM_o (index charset)
        [Z.land (Z.shiftr curr 18) 63; Z.land (Z.shiftr curr 12) 63; Z.land (Z.shiftr curr 6) 63; Z.land curr 63];
      groups ← encodeLoop charset include_pad rest;
      Ok (group ++ groups)
  | [a; b] =>
      let curr := Z.lor (Z.shiftl (code a) 16) (Z.shiftl (code b) 8) in
      group ← mapM_o (index charset)
        [Z.land (Z.shiftr (Z.shiftl (code a) 16) 18) 63; Z.land (Z.shiftr curr 12) 63; Z.land (Z.shiftr curr 6) 63];
      Ok (group ++ if include_pad then [kBase64Pad] else [])
  | [a] =>
      let curr := Z.shiftl (code a) 16 in
      group ← mapM_o (index charset) [Z.land (Z.shiftr curr 18) 63; Z.land (Z.shiftr curr 12) 63];
      Ok (group ++ if include_pad then [kBase64Pad; kBase64Pad] else [])
  | [] => Ok []
  end.

(** The overload that writes to [out]. *)
Definition encodeImplTo (data charset : text) (include_pad : bool) (out : text) : outcome text :=
  written ← encodeLoop charset include_pad data; writeTo written out.

(** [std::string(n, '\0')]. *)
Definition zeros (n : Z) : text := replicate (Z.to_nat n) (chr 0).
Definition sizeOf (s : text) : Z := Z.of_nat (length s).

Definition encodeImpl (data charset : text) (include_pad : bool) : outcome text :=
  encodeImplTo data charset include_pad (zeros (calculateEncodedSize (sizeOf data) include_pad)).

Definition encode (s : text) : outcome text := encodeImpl s kBase64Charset true.
Definition encodeUrl (s : text) : outcome text := encodeImpl s kBase64UrlCharset false.
Definition encodeTo (data output : text) : outcome text := encodeImplTo data kBase64Charset true output.
Definition encodeUrlTo (data output : text) : outcome text := encodeImplTo data kBase64UrlCharset true output.

(** The iterator of [IOBufWrapper] reads the buffers of a chain one after the
    other. *)
Definition encodeIOBuf (chain : list text) : outcome text := encodeImpl (concat chain) kBase64Charset true.
Definition encodeUrlIOBuf (chain : list text) : outcome text := encodeImpl (concat chain) kBase64UrlCharset false.

Definition encodeAppend (s out : text) : outcome text :=
  let outlen := calculateEncodedSize (sizeOf s) true in
  written ← encodeImplTo s kBase64Charset true (zeros outlen);
  Ok (out ++ written).

(** ** Decoding *)
Definition Base64ReverseLookup (p : ascii) (table : list Z) : outcome Z :=
  curr ← index table (code p);
  if curr >=? 64 then Throw (Base64Exception "invalid characters") else Ok curr.

Definition countPadding (src : text) (len : Z) : outcome Z :=
  last ← index src (len - 1);
  if negb (is_char last kBase64Pad) then Ok 0
  else before ← index src (len - 2);
       Ok (if negb (is_char before kBase64Pad) then 1 else 2).

(** The decoded size and the adjusted [size]. *)
Definition calculateDecodedSize (data : text) (size : Z) (withPadding : bool) : outcome (Z * Z) :=
  if size =? 0 then Ok (0, size)
  else
    let needed := uwrap 64 (size / 4 * 3) in
    let strip := padding ← countPadding data size; Ok (uwrap 64 (needed - padding), uwrap 64 (size - padding)) in
    if withPadding then
      if negb (size mod 4 =? 0) then Throw (Base64Exception "string length is not multiple of 4")
      else strip
    else
      let extra := size mod 4 in
      if negb (extra =? 0) then
        if extra =? 1 then Throw (Base64Exception "string length cannot be 1 more than a multiple of 4")
        else Ok (uwrap 64 (needed + extra - 1), size)
      else strip.

(** The last two to four characters. *)
Definition decodeFinal (table : list Z) (src : text) : outcome text :=
  match src with
  | a :: b :: tail =>
      va ← Base64ReverseLookup a table;
      vb ← Base64ReverseLookup b table;
      let last := Z.lor (Z.shiftl va 18) (Z.shiftl vb 12) in
      let dst0 := chr (Z.land (Z.shiftr last 16) 255) in
      match tail with
      | [] => Ok [dst0]
      | c :: tail' =>
          vc ← Base64ReverseLookup c table;
          let last := Z.lor last (Z.shiftl vc 6) in
          let dst1 := chr (Z.land (Z.shiftr last 8) 255) in
          match tail' with
          | [] => Ok [dst0; dst1]
          | d :: _ =>
              vd ← Base64ReverseLookup d table;
              let last := Z.lor last vd in
              Ok [dst0; dst1; chr (Z.land last 255)]
          end
      end
  | _ => Undefined
  end.

(** The bytes written to [dst]: full groups of four characters while more than
    four are left, then the rest. *)
Fixpoint decodeLoop (table : list Z) (src : text) : outcome text :=
  match src with
  | a :: b :: c :: d :: ((_ :: _) as rest) =>
      va ← Base64ReverseLookup a table;
      vb ← Base64ReverseLookup b table;
      vc ← Base64ReverseLookup c table;
      vd ← Base64ReverseLookup d table;
      let last := Z.lor (Z.lor (Z.lor (Z.shiftl va 18) (Z.shiftl vb 12)) (Z.shiftl vc 6)) vd in
      more ← decodeLoop table rest;
      Ok (chr (Z.land (Z.shiftr last 16) 255) :: chr (Z.land (Z.shiftr last 8) 255) :: chr (Z.land last 255) :: more)
  | _ => decodeFinal table src
  end.

(** The buffer after the call and the number of bytes decoded. *)
Definition decodeImpl (src : text) (src_len : Z) (dst : text) (dst_len : Z) (table : list Z)
    (include_pad : bool) : outcome (text * Z) :=
  if src_len =? 0 then Ok (dst, 0)
  else
    '(needed, src_len) ← calculateDecodedSize src src_len include_pad;
    if dst_len <? needed then Throw (Base64Exception "output string is too small")
    else if sizeOf src <? src_len then Undefined
    else
      written ← decodeLoop table (take (Z.to_nat src_len) src);
      dst' ← writeTo written dst;
      Ok (dst', needed).

(** [output.resize(n)] of a size no string can have throws. *)
Definition resized (n : Z) : outcome text :=
  if n <? 2 ^ 63 then Ok (zeros n) else Throw LengthError.

Definition decodePayload (data : text) (second : Z) : outcome text :=
  let out_len := uwrap 64 (Z.quot second 4 * 3) in
  output ← resized out_len;
  '(output, n) ← decodeImpl data (uwrap 64 second) output out_len kBase64ReverseIndexTable true;
  Ok (take (Z.to_nat n) output).

(** [std::make_pair] converts the size to the [int32_t] of the payload. *)
Definition decode (encoded : text) : outcome text :=
  decodePayload encoded (swrap 32 (sizeOf encoded)).

Definition decodeTo (data : text) (size : Z) (output : text) : outcome (text * Z) :=
  decodeImpl data size output (uwrap 64 (size / 4 * 3)) kBase64ReverseIndexTable true.

Definition decodeUrlPayload (data : text) (second : Z) : outcome text :=
  sum ← add32 second 3;
  let out_len := uwrap 64 (Z.quot sum 4 * 3) in
  output ← resized out_len;
  '(output, n) ← decodeImpl data (uwrap 64 second) output out_len kBase64UrlReverseIndexTable false;
  Ok (take (Z.to_nat n) output).

Definition decodeUrl (encoded : text) : outcome text :=
  decodeUrlPayload encoded (swrap 32 (sizeOf encoded)).

Definition decodeUrlTo (src : text) (src_len : Z) (dst : text) (dst_len : Z) (pad : bool) : outcome (text * Z) :=
  decodeImpl src src_len dst dst_len kBase64UrlReverseIndexTable pad.

(** ** Groups of bits *)
Lemma three_bytes a b c :
  0 ≤ a < 256 → 0 ≤ b < 256 → 0 ≤ c < 256 →
  Z.lor (Z.lor (Z.shiftl a 16) (Z.shiftl b 8)) c = a * 65536 + b * 256 + c.
Proof.
  intros Ha Hb Hc. rewrite !Z.shiftl_mul_pow2 by lia. change (2 ^ 16) with 65536. change (2 ^ 8) with 256.
  rewrite (lor_add (a * 65536) (b * 256) 16), (lor_add _ c 8); try lia; Z.div_mod_to_equations; lia.
Qed.

Lemma four_sextets a b c d :
  0 ≤ a < 64 → 0 ≤ b < 64 → 0 ≤ c < 64 → 0 ≤ d < 64 →
  Z.lor (Z.lor (Z.lor (Z.shiftl a 18) (Z.shiftl b 12)) (Z.shiftl c 6)) d =
  a * 262144 + b * 4096 + c * 64 + d.
Proof.
  intros Ha Hb Hc Hd. rewrite !Z.shiftl_mul_pow2 by lia.
  change (2 ^ 18) with 262144. change (2 ^ 12) with 4096. change (2 ^ 6) with 64.
  rewrite (lor_add (a * 262144) (b * 4096) 18), (lor_add _ (c * 64) 12), (lor_add _ d 6);
    try lia; Z.div_mod_to_equations; lia.
Qed.

(** The six bits of a group from position [n] on. *)
Definition sextet (x n : Z) : Z := x / 2 ^ n mod 64.

Lemma sextet_range x n : 0 ≤ sextet x n < 64.
Proof. apply Z.mod_pos_bound. lia. Qed.

Lemma sextets_of a b c :
  0 ≤ a < 256 → 0 ≤ b < 256 → 0 ≤ c < 256 →
  let x := a * 65536 + b * 256 + c in
  let y := sextet x 18 * 262144 + sextet x 12 * 4096 + sextet x 6 * 64 + sextet x 0 in
  y / 65536 mod 256 = a ∧ y / 256 mod 256 = b ∧ y mod 256 = c.
Proof.
  intros Ha Hb Hc x y. assert (y = x) as ->.
  { unfold y, x, sextet. change (2 ^ 18) with 262144. change (2 ^ 12) with 4096. change (2 ^ 6) with 64.
    change (2 ^ 0) with 1. Z.div_mod_to_equations; lia. }
  unfold x. repeat split; Z.div_mod_to_equations; lia.
Qed.

(** ** Round trips *)

(** A reverse table for an alphabet: it inverts every character and does not
    know the padding. *)
Record inverts (charset : text) (table : list Z) : Prop := {
  iv_length : length charset = 64%nat;
  iv_table : length table = 256%nat;
  iv_forward : ∀ i c, charset !! i = Some c → table !! Z.to_nat (code c) = Some (Z.of_nat i) ∧ c ≠ kBase64Pad
}.

Section Alphabet.
Context (charset : text) (table : list Z) (Hinv : inverts charset table).

Definition letter (i : Z) : ascii := at_or kBase64Pad charset i.

Lemma index_letter i : 0 ≤ i < 64 → index charset i = Ok (letter i).
Proof.
  intros Hi. unfold index, letter, at_or. destruct (Z.ltb_spec i 0); [lia|].
  destruct (charset !! Z.to_nat i) eqn:E; [done|]. apply lookup_ge_None in E. rewrite (iv_length _ _ Hinv) in E. lia.
Qed.

Lemma lookup_letter i : 0 ≤ i < 64 → Base64ReverseLookup (letter i) table = Ok i ∧ letter i ≠ kBase64Pad.
Proof.
  intros Hi. unfold letter, at_or. destruct (charset !! Z.to_nat i) eqn:E.
  - simpl. destruct (iv_forward _ _ Hinv _ _ E) as [Ht Hp]. split; [|done].
    unfold Base64ReverseLookup, index. pose proof (code_range a). destruct (Z.ltb_spec (code a) 0); [lia|].
    rewrite Ht. simpl. rewrite Z2Nat.id by lia. destruct (Z.geb_spec i 64); [lia | done].
  - apply lookup_ge_None in E. rewrite (iv_length _ _ Hinv) in E. lia.
Qed.

Lemma mapM_letters l : Forall (λ i, 0 ≤ i < 64) l → mapM_o (index charset) l = Ok (map letter l).
Proof. induction 1 as [|i l Hi _ IH]; [done|]. simpl. by rewrite index_letter, IH. Qed.

Definition lettersOf (x : Z) (n : nat) : text := map (λ k, letter (sextet x k)) (take n [18; 12; 6; 0]).

(** The characters of the encoding without padding, group by group. *)
Fixpoint bodyOf (data : text) : text :=
  match data with
  | a :: b :: c :: rest => lettersOf (code a * 65536 + code b * 256 + code c) 4 ++ bodyOf rest
  | [a; b] => lettersOf (code a * 65536 + code b * 256) 3
  | [a] => lettersOf (code a * 65536) 2
  | [] => []
  end.

Definition padOf (data : text) : nat :=
  match (length data mod 3)%nat with 1%nat => 2 | 2%nat => 1 | _ => 0 end.

Lemma land_sextet x n : 0 ≤ n → Z.land (Z.shiftr x n) 63 = sextet x n.
Proof. intros Hn. by rewrite land_63, Z.shiftr_div_pow2. Qed.

Lemma land_sextet_0 x : Z.land x 63 = sextet x 0.
Proof. unfold sextet. by rewrite land_63, Z.div_1_r. Qed.

Lemma encodeLoop_body pad data :
  encodeLoop charset pad data = Ok (bodyOf data ++ if pad : bool then replicate (padOf data) kBase64Pad else []).
Proof.
  induction data as [| a | a b | a b c rest IH] using triples_ind; [by destruct pad|..]; cbn [encodeLoop];
    pose proof (code_range a); try pose proof (code_range b); try pose proof (code_range c).
  - rewrite !land_sextet by lia. rewrite mapM_letters by (repeat constructor; apply sextet_range).
    rewrite Z.shiftl_mul_pow2 by lia. simpl. by destruct pad.
  - pose proof (three_bytes (code a) (code b) 0) as Hx. rewrite Z.lor_0_r, Z.add_0_r in Hx. rewrite Hx by lia.
    rewrite !land_sextet by lia. rewrite mapM_letters by (repeat constructor; apply sextet_range).
    assert (sextet (Z.shiftl (code a) 16) 18 = sextet (code a * 65536 + code b * 256) 18) as ->.
    { unfold sextet. rewrite Z.shiftl_mul_pow2 by lia. change (2 ^ 16) with 65536. change (2 ^ 18) with 262144.
      Z.div_mod_to_equations; lia. }
    simpl. by destruct pad.
  - rewrite three_bytes, !land_sextet, land_sextet_0 by lia.
    rewrite mapM_letters by (repeat constructor; apply sextet_range). rewrite IH. cbn [mbind outcome_bind].
    f_equal. cbn [bodyOf]. rewrite <- app_assoc. f_equal. f_equal.
    assert (padOf (a :: b :: c :: rest) = padOf rest) as ->; [|done]. unfold padOf. cbn [length].
    replace (S (S (S (length rest)))) with (length rest + 1 * 3)%nat by lia. by rewrite Nat.Div0.mod_add.
Qed.

Lemma lookup_sextet x n : Base64ReverseLookup (letter (sextet x n)) table = Ok (sextet x n).
Proof. apply lookup_letter, sextet_range. Qed.

Lemma byte_at y n : 0 ≤ n → chr (Z.land (Z.shiftr y n) 255) = chr (y / 2 ^ n mod 256).
Proof. intros Hn. by rewrite land_255, Z.shiftr_div_pow2. Qed.

Lemma chr_is z c : z mod 256 = code c → chr z = c.
Proof. intros H. unfold chr. rewrite H, <- (Z.mod_small (code c) 256) by apply code_range. apply chr_code. Qed.

(** One group of four characters, wherever it stands. *)
Lemma group_bytes a b c :
  let x := code a * 65536 + code b * 256 + code c in
  let y := Z.lor (Z.lor (Z.lor (Z.shiftl (sextet x 18) 18) (Z.shiftl (sextet x 12) 12)) (Z.shiftl (sextet x 6) 6)) (sextet x 0) in
  chr (Z.land (Z.shiftr y 16) 255) = a ∧ chr (Z.land (Z.shiftr y 8) 255) = b ∧ chr (Z.land y 255) = c.
Proof.
  intros x y. pose proof (code_range a). pose proof (code_range b). pose proof (code_range c).
  destruct (sextets_of (code a) (code b) (code c)) as (Ea & Eb & Ec); [done..|].
  unfold y. rewrite four_sextets by apply sextet_range. rewrite !byte_at by lia. rewrite land_255.
  split; [|split]; apply chr_is; rewrite Z.mod_mod by lia; assumption.
Qed.

(** The first bytes of a last group do not depend on the characters after them. *)
Lemma upper_byte s1 s2 s3 s4 :
  0 ≤ s1 < 64 → 0 ≤ s2 < 64 → 0 ≤ s3 < 64 → 0 ≤ s4 < 64 →
  let two := Z.lor (Z.shiftl s1 18) (Z.shiftl s2 12) in
  let three := Z.lor two (Z.shiftl s3 6) in
  let four := Z.lor three s4 in
  Z.land (Z.shiftr two 16) 255 = Z.land (Z.shiftr four 16) 255 ∧
  Z.land (Z.shiftr three 8) 255 = Z.land (Z.shiftr four 8) 255.
Proof.
  intros H1 H2 H3 H4 two three four.
  assert (two = s1 * 262144 + s2 * 4096) as E2.
  { unfold two. pose proof (four_sextets s1 s2 0 0) as E. rewrite Z.shiftl_0_l, !Z.lor_0_r in E. rewrite E by lia. lia. }
  assert (three = s1 * 262144 + s2 * 4096 + s3 * 64) as E3.
  { unfold three, two. pose proof (four_sextets s1 s2 s3 0) as E. rewrite !Z.lor_0_r in E. rewrite E by lia. lia. }
  assert (four = s1 * 262144 + s2 * 4096 + s3 * 64 + s4) as E4 by (by apply four_sextets).
  rewrite E2, E3, E4.
  rewrite !land_255, !Z.shiftr_div_pow2 by lia. change (2 ^ 16) with 65536. change (2 ^ 8) with 256.
  split; Z.div_mod_to_equations; lia.
Qed.

Lemma decodeFinal_group a b c :
  let x := code a * 65536 + code b * 256 + code c in
  decodeFinal table (lettersOf x 4) = Ok [a; b; c] ∧
  (code c = 0 → decodeFinal table (lettersOf x 3) = Ok [a; b]) ∧
  (code b = 0 → code c = 0 → decodeFinal table (lettersOf x 2) = Ok [a]).
Proof.
  intros x. destruct (group_bytes a b c) as (Ha & Hb & Hc). fold x in Ha, Hb, Hc.
  destruct (upper_byte (sextet x 18) (sextet x 12) (sextet x 6) (sextet x 0)) as [U1 U2]; try apply sextet_range.
  cbv zeta in U1, U2. rewrite <- U1 in Ha. rewrite <- U2 in Hb.
  unfold decodeFinal, lettersOf. cbn [take map]. rewrite !lookup_sextet. cbn [mbind outcome_bind].
  rewrite Ha, Hb, Hc. auto.
Qed.

Lemma bodyOf_nopad data : Forall (.≠ kBase64Pad) (bodyOf data).
Proof.
  assert (∀ x n, Forall (.≠ kBase64Pad) (lettersOf x n)) as Hl.
  { intros x n. unfold lettersOf. apply Forall_map, Forall_true. intros k. apply lookup_letter, sextet_range. }
  induction data as [| a | a b | a b c rest IH] using triples_ind; [constructor | apply Hl | apply Hl|].
  cbn [bodyOf]. apply Forall_app. by split.
Qed.

Lemma length_bodyOf data : (length (bodyOf data) + padOf data = (length data + 2) / 3 * 4)%nat.
Proof.
  induction data as [| a | a b | a b c rest IH] using triples_ind; [done..|].
  cbn [bodyOf]. rewrite length_app. cbn [length].
  assert (padOf (a :: b :: c :: rest) = padOf rest) as ->.
  { unfold padOf. cbn [length]. replace (S (S (S (length rest)))) with (length rest + 1 * 3)%nat by lia.
    by rewrite Nat.Div0.mod_add. }
  replace (S (S (S (length rest))) + 2)%nat with (length rest + 2 + 1 * 3)%nat by lia.
  rewrite Nat.div_add by lia. change (length (lettersOf _ 4)) with 4%nat. lia.
Qed.

Lemma bodyOf_nonempty data : data ≠ [] → bodyOf data ≠ [].
Proof. by destruct data as [|a [|b [|c rest]]]. Qed.

Lemma decodeLoop_cons4 a b c d e src :
  decodeLoop table (a :: b :: c :: d :: e :: src) =
  (va ← Base64ReverseLookup a table;
   vb ← Base64ReverseLookup b table;
   vc ← Base64ReverseLookup c table;
   vd ← Base64ReverseLookup d table;
   let last := Z.lor (Z.lor (Z.lor (Z.shiftl va 18) (Z.shiftl vb 12)) (Z.shiftl vc 6)) vd in
   more ← decodeLoop table (e :: src);
   Ok (chr (Z.land (Z.shiftr last 16) 255) :: chr (Z.land (Z.shiftr last 8) 255) :: chr (Z.land last 255) :: more)).
Proof. reflexivity. Qed.

Lemma decodeLoop_body data : data ≠ [] → decodeLoop table (bodyOf data) = Ok data.
Proof.
  induction data as [| a | a b | a b c rest IH] using triples_ind; intros Hne; [done|..].
  - destruct (decodeFinal_group a (chr 0) (chr 0)) as (_ & _ & H). rewrite !Z.add_0_r in H. by apply H.
  - destruct (decodeFinal_group a b (chr 0)) as (_ & H & _). rewrite !Z.add_0_r in H. by apply H.
  - destruct rest as [|d rest].
    { cbn [bodyOf]. rewrite app_nil_r. apply decodeFinal_group. }
    pose proof (bodyOf_nonempty (d :: rest) ltac:(done)) as Hb. specialize (IH ltac:(done)).
    change (bodyOf (a :: b :: c :: d :: rest)) with
      (lettersOf (code a * 65536 + code b * 256 + code c) 4 ++ bodyOf (d :: rest)).
    revert Hb IH. generalize (bodyOf (d :: rest)). intros body Hb IH.
    destruct (group_bytes a b c) as (Ha & Hb' & Hc).
    destruct body as [|e body]; [by destruct Hb|].
    unfold lettersOf. cbn [take map app]. rewrite decodeLoop_cons4, !lookup_sextet. cbn [mbind outcome_bind].
    rewrite IH. cbn [mbind outcome_bind]. by rewrite Ha, Hb', Hc.
Qed.
End Alphabet.

Lemma forward_inverts charset table :
  length charset = 64%nat → length table = 256%nat →
  checkForwardIndex 63 charset table = true → forallb (λ c, negb (is_char c kBase64Pad)) charset = true →
  inverts charset table.
Proof.
  intros Hc Ht Hf Hp. split; [done | done|]. intros i c Hi.
  assert (i < 64)%nat as Hlt by (rewrite <- Hc; by eapply lookup_lt_Some). split.
  - assert (∀ n, checkForwardIndex n charset table = true → (i ≤ n)%nat →
      at_or 255 table (code (at_or kBase64Pad charset (Z.of_nat i))) = Z.of_nat i) as Hn.
    { induction n as [|n IH]; intros Hn Hin; cbn [checkForwardIndex] in Hn; apply andb_true_iff in Hn as [H1 H2].
      - replace i with 0%nat in * by lia. by apply Z.eqb_eq.
      - destruct (decide (i = S n)) as [->|]; [by apply Z.eqb_eq | apply IH; [done | lia]]. }
    specialize (Hn 63%nat Hf ltac:(lia)). unfold at_or in Hn at 2. rewrite Nat2Z.id, Hi in Hn. simpl in Hn.
    unfold at_or in Hn. pose proof (code_range c).
    destruct (table !! Z.to_nat (code c)) eqn:E; [simpl in Hn; by subst|].
    apply lookup_ge_None in E. rewrite Ht in E. lia.
  - intros ->. rewrite forallb_forall in Hp. specialize (Hp kBase64Pad).
    assert (In kBase64Pad charset) as Hin by (apply list_elem_of_In; by eapply list_elem_of_lookup_2).
    apply Hp in Hin. by rewrite is_char_refl in Hin.
Qed.

Lemma std_inverts : inverts kBase64Charset kBase64ReverseIndexTable.
Proof. by apply forward_inverts. Qed.
Lemma url_inverts : inverts kBase64UrlCharset kBase64UrlReverseIndexTable.
Proof. by apply forward_inverts. Qed.
Lemma url_inverts_std : inverts kBase64Charset kBase64UrlReverseIndexTable.
Proof. by apply forward_inverts. Qed.

Lemma index_lookup {A} (l : list A) i x : 0 ≤ i → l !! Z.to_nat i = Some x → index l i = Ok x.
Proof. intros Hi Hx. unfold index. destruct (Z.ltb_spec i 0); [lia|]. by rewrite Hx. Qed.

Lemma index_app_r {A} (l r : list A) k x i :
  i = Z.of_nat (length l + k) → r !! k = Some x → index (l ++ r) i = Ok x.
Proof.
  intros -> Hx. apply index_lookup; [lia|]. rewrite Nat2Z.id, lookup_app_r by lia.
  by replace (length l + k - length l)%nat with k by lia.
Qed.

Lemma countPadding_body (body : text) n :
  Forall (.≠ kBase64Pad) body → (2 ≤ length body)%nat → (n ≤ 2)%nat →
  countPadding (body ++ replicate n kBase64Pad) (sizeOf (body ++ replicate n kBase64Pad)) = Ok (Z.of_nat n).
Proof.
  intros Hb Hl Hn. unfold countPadding, sizeOf. rewrite length_app, length_replicate.
  assert (∀ i, (i < length body)%nat → ∃ c, body !! i = Some c ∧ is_char c kBase64Pad = false) as Hbody.
  { intros i Hi. destruct (lookup_lt_is_Some_2 body i Hi) as [c Hc]. exists c. split; [done|].
    apply is_char_false. eapply Forall_lookup_1 in Hb; eauto. }
  assert (∀ i x, (i < length body + n)%nat → (body ++ replicate n kBase64Pad) !! i = Some x →
    index (body ++ replicate n kBase64Pad) (Z.of_nat i) = Ok x) as Hidx.
  { intros i x _ Hx. apply index_lookup; [lia|]. by rewrite Nat2Z.id. }
  destruct n as [|[|[|n]]]; [| | |lia].
  - destruct (Hbody (length body - 1)%nat) as (c & Hc & Hp); [lia|].
    replace (Z.of_nat (length body + 0) - 1) with (Z.of_nat (length body - 1)) by lia.
    rewrite (Hidx _ c); [by simpl; rewrite Hp | lia | by apply lookup_app_l_Some].
  - replace (Z.of_nat (length body + 1) - 1) with (Z.of_nat (length body)) by lia.
    rewrite (Hidx _ kBase64Pad); [|lia | by rewrite lookup_app_r, Nat.sub_diag by lia]. simpl.
    destruct (Hbody (length body - 1)%nat) as (c & Hc & Hp); [lia|].
    replace (Z.of_nat (length body + 1) - 2) with (Z.of_nat (length body - 1)) by lia.
    rewrite (Hidx _ c); [by simpl; rewrite Hp | lia | by apply lookup_app_l_Some].
  - replace (Z.of_nat (length body + 2) - 1) with (Z.of_nat (length body + 1)) by lia.
    rewrite (Hidx _ kBase64Pad); [|lia | by rewrite lookup_app_r, Nat.add_sub_swap, Nat.sub_diag by lia]. simpl.
    replace (Z.of_nat (length body + 2) - 2) with (Z.of_nat (length body)) by lia.
    rewrite (Hidx _ kBase64Pad); [done | lia | by rewrite lookup_app_r, Nat.sub_diag by lia].
Qed.

Lemma uwrap64_small z : 0 ≤ z < 2 ^ 64 → uwrap 64 z = z.
Proof. intros. by apply Z.mod_small. Qed.

(** Data in groups of three bytes, and the rest. *)
Lemma group_sizes charset data :
  ∃ q r, length data = (3 * q + r)%nat ∧ (r < 3)%nat ∧
    padOf data = (if (r =? 0)%nat then 0 else 3 - r)%nat ∧
    length (bodyOf charset data) = (4 * q + if r =? 0 then 0 else r + 1)%nat.
Proof.
  induction data as [| a | a b | a b c rest IH] using triples_ind.
  - exists 0%nat, 0%nat. repeat split; solve [lia | reflexivity].
  - exists 0%nat, 1%nat. repeat split; solve [lia | reflexivity].
  - exists 0%nat, 2%nat. repeat split; solve [lia | reflexivity].
  - destruct IH as (q & r & Hl & Hr & Hp & Hb). exists (S q), r. cbn [bodyOf length]. rewrite length_app.
    change (length (lettersOf charset _ 4)) with 4%nat. split; [lia|]. split; [done|]. split; [|lia].
    rewrite <- Hp. unfold padOf. cbn [length].
    replace (S (S (S (length rest)))) with (length rest + 1 * 3)%nat by lia. by rewrite Nat.Div0.mod_add.
Qed.

Lemma encodedSize_small data pad :
  sizeOf data < 2 ^ 60 →
  calculateEncodedSize (sizeOf data) pad = Z.of_nat (length (bodyOf [] data) + if pad : bool then padOf data else 0).
Proof.
  intros Hs. destruct (group_sizes [] data) as (q & r & Hl & Hr & Hp & Hb). unfold calculateEncodedSize, sizeOf in *.
  rewrite Hb, Hp, Hl in *. destruct (Z.eqb_spec (Z.of_nat (3 * q + r)) 0) as [E|E].
  { replace q with 0%nat by lia. replace r with 0%nat by lia. by destruct pad. }
  assert ((Z.of_nat (3 * q + r) + 2) / 3 = Z.of_nat q + if (r =? 0)%nat then 0 else 1) as Hd.
  { destruct r as [|[|[|r]]]; [..|lia]; simpl; Z.div_mod_to_equations; lia. }
  assert (Z.of_nat (3 * q + r) mod 3 = Z.of_nat r) as Hm by (Z.div_mod_to_equations; lia).
  assert ((3 - Z.of_nat r) mod 3 = if (r =? 0)%nat then 0 else 3 - Z.of_nat r) as Hpad.
  { destruct r as [|[|[|r]]]; [done..|lia]. }
  rewrite (uwrap64_small (Z.of_nat (3 * q + r) + 2)), Hd, Hm, Hpad by lia.
  destruct (Nat.eqb_spec r 0), pad; rewrite !uwrap64_small; try lia; rewrite uwrap64_small by lia; lia.
Qed.

Lemma length_body_any charset data : length (bodyOf charset data) = length (bodyOf [] data).
Proof.
  destruct (group_sizes charset data) as (q & r & Hl & Hr & _ & ->), (group_sizes [] data) as (q' & r' & Hl' & Hr' & _ & ->).
  assert (q = q' ∧ r = r') as [-> ->] by lia. done.
Qed.

Definition padding (pad : bool) (data : text) : text := if pad then replicate (padOf data) kBase64Pad else [].

Lemma encodeImpl_Ok charset table data pad :
  inverts charset table → sizeOf data < 2 ^ 60 →
  encodeImpl data charset pad = Ok (bodyOf charset data ++ padding pad data) ∧
  sizeOf (bodyOf charset data ++ padding pad data) = calculateEncodedSize (sizeOf data) pad.
Proof.
  intros Hi Hs. assert (sizeOf (bodyOf charset data ++ padding pad data) = calculateEncodedSize (sizeOf data) pad) as Hsz.
  { rewrite encodedSize_small by done. unfold sizeOf. rewrite length_app, (length_body_any charset).
    unfold padding. destruct pad; [by rewrite length_replicate | done]. }
  split; [|done]. unfold encodeImpl, encodeImplTo. rewrite (encodeLoop_body charset table Hi). cbn [mbind outcome_bind].
  apply writeTo_exact. unfold zeros. rewrite length_replicate, <- Hsz. unfold sizeOf. lia.
Qed.

(** Whether the padding a string has is what the decoder asks for. *)
Definition accepted (include_pad pad : bool) : Prop := include_pad = true → pad = true.

Lemma calculateDecodedSize_body charset table data include_pad pad :
  inverts charset table → data ≠ [] → accepted include_pad pad → sizeOf data < 2 ^ 60 →
  let e := bodyOf charset data ++ padding pad data in
  calculateDecodedSize e (sizeOf e) include_pad = Ok (sizeOf data, sizeOf (bodyOf charset data)).
Proof.
  intros Hi Hne Hacc Hs e.
  destruct (group_sizes charset data) as (q & r & Hl & Hr & Hp & Hb).
  assert (0 < length data)%nat as Hpos by (destruct data; simpl; [done | lia]).
  assert (2 ≤ length (bodyOf charset data))%nat as Hb2 by (rewrite Hb; destruct (Nat.eqb_spec r 0); lia).
  assert (∃ n, padding pad data = replicate n kBase64Pad ∧ (n = padOf data ∧ pad = true ∨ n = 0%nat ∧ pad = false)) as (n & En & Hn).
  { unfold padding. destruct pad; eauto. exists 0%nat. auto. }
  assert (n ≤ 2)%nat as Hn2 by (destruct Hn as [[-> _]|[-> _]]; rewrite ?Hp; destruct (Nat.eqb_spec r 0); lia).
  pose proof (countPadding_body (bodyOf charset data) n (bodyOf_nopad charset table Hi data) Hb2 Hn2) as Hc.
  unfold e. rewrite En. unfold calculateDecodedSize. rewrite Hc. cbn [mbind outcome_bind].
  unfold sizeOf in *. rewrite length_app, length_replicate, Hb in *. rewrite Hl in *.
  set (S := Z.of_nat (4 * q + (if (r =? 0)%nat then 0 else r + 1) + n)).
  assert (S mod 4 = if pad : bool then 0 else if (r =? 0)%nat then 0 else Z.of_nat r + 1) as Hm.
  { unfold S. destruct Hn as [[-> ->]|[-> ->]]; rewrite ?Hp; destruct (Nat.eqb_spec r 0); Z.div_mod_to_equations; lia. }
  assert (S / 4 = Z.of_nat q + if pad : bool then (if (r =? 0)%nat then 0 else 1) else 0) as Hd.
  { unfold S. destruct Hn as [[-> ->]|[-> ->]]; rewrite ?Hp; destruct (Nat.eqb_spec r 0); Z.div_mod_to_equations; lia. }
  destruct (Z.eqb_spec S 0) as [E|_]; [unfold S in E; destruct (Nat.eqb_spec r 0); lia|].
  rewrite Hm, Hd, (uwrap64_small (_ * 3)) by (destruct pad, (r =? 0)%nat; lia). unfold S. clear Hm Hd Hc Hb En S.
  destruct Hn as [[-> ->]|[-> ->]], include_pad; rewrite ?Hp in *; try (exfalso; by specialize (Hacc eq_refl));
    destruct (Nat.eqb_spec r 0); cbn [negb Z.eqb]; try (rewrite !uwrap64_small by lia; do 2 f_equal; lia).
  destruct (Z.eqb_spec (Z.of_nat r + 1) 0), (Z.eqb_spec (Z.of_nat r + 1) 1); cbn [negb]; try lia.
  rewrite uwrap64_small by lia. do 2 f_equal; lia.
Qed.

Lemma decodeImpl_body charset table data include_pad pad dst :
  inverts charset table → data ≠ [] → accepted include_pad pad → sizeOf data < 2 ^ 60 → (length data ≤ length dst)%nat →
  let e := bodyOf charset data ++ padding pad data in
  decodeImpl e (sizeOf e) dst (sizeOf dst) table include_pad =
    Ok (data ++ drop (length data) dst, sizeOf data).
Proof.
  intros Hi Hne Hacc Hs Hdst e. unfold decodeImpl.
  pose proof (calculateDecodedSize_body charset table data include_pad pad Hi Hne Hacc Hs) as Hd. fold e in Hd.
  destruct (Z.eqb_spec (sizeOf e) 0) as [E|_].
  { exfalso. pose proof (bodyOf_nonempty charset data Hne). unfold e, sizeOf in E. rewrite length_app in E.
    destruct (bodyOf charset data); simpl in *; [done | lia]. }
  rewrite Hd. cbn [mbind outcome_bind]. destruct (Z.ltb_spec (sizeOf dst) (sizeOf data)); [unfold sizeOf in *; lia|].
  destruct (Z.ltb_spec (sizeOf e) (sizeOf (bodyOf charset data))) as [E|_].
  { unfold e, sizeOf in E. rewrite length_app in E. lia. }
  replace (Z.to_nat (sizeOf (bodyOf charset data))) with (length (bodyOf charset data)) by (unfold sizeOf; lia).
  unfold e. rewrite take_app_length, (decodeLoop_body charset table Hi) by done.
  cbn [mbind outcome_bind]. unfold writeTo. by rewrite (proj2 (Nat.leb_le _ _)).
Qed.

(** ** The public functions *)
Lemma decodePayload_body table data (e : text) out_len include_pad charset pad :
  inverts charset table → accepted include_pad pad → e = bodyOf charset data ++ padding pad data →
  sizeOf data < 2 ^ 60 → sizeOf data ≤ out_len →
  ('(output, n) ← decodeImpl e (sizeOf e) (zeros out_len) out_len table include_pad; Ok (take (Z.to_nat n) output)) = Ok data.
Proof.
  intros Hi Hacc -> Hs Ho. destruct (decide (data = [])) as [->|Hne].
  { assert (padding pad [] = []) as -> by (by destruct pad). done. }
  assert (sizeOf (zeros out_len) = out_len) as Hz.
  { unfold sizeOf, zeros in *. rewrite length_replicate. lia. }
  rewrite <- Hz at 2. rewrite decodeImpl_body by (try done; unfold sizeOf, zeros in *; rewrite ?length_replicate; lia).
  cbn [mbind outcome_bind]. f_equal. unfold sizeOf. by rewrite Nat2Z.id, take_app_length.
Qed.

Lemma resized_small n : n < 2 ^ 63 → resized n = Ok (zeros n).
Proof. intros Hn. unfold resized. by destruct (Z.ltb_spec n (2 ^ 63)); [|lia]. Qed.

Lemma encoded_bound data pad :
  sizeOf data ≤ 1610612730 →
  sizeOf data ≤ Z.quot (calculateEncodedSize (sizeOf data) pad + 3) 4 * 3 ∧
  (pad = true → sizeOf data ≤ Z.quot (calculateEncodedSize (sizeOf data) pad) 4 * 3) ∧
  0 ≤ calculateEncodedSize (sizeOf data) pad ≤ 2147483640.
Proof.
  intros Hs. rewrite encodedSize_small by lia. destruct (group_sizes [] data) as (q & r & Hl & Hr & Hp & Hb).
  unfold sizeOf in *. rewrite Hl, Hp, Hb in *. rewrite !Z.quot_div_nonneg by (destruct pad; lia).
  destruct r as [|[|[|r]]]; [..|lia]; cbn [Nat.eqb]; destruct pad; split_and!; try done; intros;
    Z.div_mod_to_equations; lia.
Qed.

(** C22: Decoding inverts encoding: for every string whose encoding a payload
    can describe, [decode] returns it from its Base64 text, [decodeUrl] returns
    it from its unpadded URL text, and [decodeUrl] also reads the padded
    standard text; the texts have the computed sizes. *)
Theorem base64_roundtrip s :
  sizeOf s ≤ 1610612730 →
  ∃ e u, encode s = Ok e ∧ sizeOf e = calculateEncodedSize (sizeOf s) true ∧
    encodeUrl s = Ok u ∧ sizeOf u = calculateEncodedSize (sizeOf s) false ∧
    decode e = Ok s ∧ decodeUrl u = Ok s ∧ decodeUrl e = Ok s.
Proof.
  intros Hs. destruct (encodeImpl_Ok _ _ s true std_inverts) as [He Se]; [lia|].
  destruct (encodeImpl_Ok _ _ s false url_inverts) as [Hu Su]; [lia|].
  destruct (encoded_bound s true Hs) as (B1 & B2 & B3), (encoded_bound s false Hs) as (B4 & _ & B5).
  eexists _, _. split; [exact He|]. split; [exact Se|]. split; [exact Hu|]. split; [exact Su|].
  unfold decode, decodeUrl, decodePayload, decodeUrlPayload, add32. rewrite Se, Su.
  specialize (B2 eq_refl).
  rewrite !swrap_small by lia. rewrite !checked32_Ok by (unfold_ints; lia). cbn [mbind outcome_bind].
  assert (∀ z, 0 ≤ z ≤ 2147483643 → 0 ≤ Z.quot z 4 * 3 < 2 ^ 62) as Hq.
  { intros z Hz. rewrite Z.quot_div_nonneg by lia. Z.div_mod_to_equations; lia. }
  pose proof (Hq (calculateEncodedSize (sizeOf s) true)). pose proof (Hq (calculateEncodedSize (sizeOf s) true + 3)).
  pose proof (Hq (calculateEncodedSize (sizeOf s) false + 3)).
  rewrite !uwrap64_small by lia. rewrite !resized_small by lia. cbn [mbind outcome_bind].
  rewrite <- Se, <- Su in *. split; [|split].
  - apply (decodePayload_body _ s _ _ _ kBase64Charset true); try done; [apply std_inverts | lia].
  - apply (decodePayload_body _ s _ _ _ kBase64UrlCharset false); try done; [apply url_inverts | lia].
  - apply (decodePayload_body _ s _ _ _ kBase64Charset true); try done; [apply url_inverts_std | lia].
Qed.

(** ** Texts that do not decode *)
Definition invalidChars : exn := Base64Exception "invalid characters".

(** A table of 256 entries that are an index or 255, as the code checks. *)
Definition known (table : list Z) (c : ascii) : bool :=
  match table !! Z.to_nat (code c) with Some v => v <? 64 | None => false end.

Lemma lookup_known table c :
  length table = 256%nat →
  ∃ v, Base64ReverseLookup c table = (if known table c then Ok v else Throw invalidChars).
Proof.
  intros Ht. unfold Base64ReverseLookup, index, known. pose proof (code_range c).
  destruct (Z.ltb_spec (code c) 0); [lia|].
  destruct (table !! Z.to_nat (code c)) as [v|] eqn:E; [|apply lookup_ge_None in E; lia].
  exists v. simpl. destruct (Z.geb_spec v 64), (Z.ltb_spec v 64); try done; lia.
Qed.

Ltac lookup_next :=
  match goal with
  | Hlen : length ?table = 256%nat |- context [Base64ReverseLookup ?c ?table] =>
      let v := fresh "v" in let Hv := fresh "Hv" in
      destruct (lookup_known table c Hlen) as [v Hv]; rewrite Hv; clear Hv;
      destruct (known table c) eqn:?; cbn [mbind outcome_bind andb forallb]
  end.

Lemma decodeLoop_total table src :
  length table = 256%nat → (2 ≤ length src)%nat → (length src mod 4 ≠ 1)%nat →
  if forallb (known table) src
  then ∃ w, decodeLoop table src = Ok w ∧ length w = (3 * length src / 4)%nat
  else decodeLoop table src = Throw invalidChars.
Proof.
  intros Ht. induction src as [src Hl | a b c d e src IH] using quads_ind; intros H2 H4.
  - destruct src as [|a [|b [|c [|d [|e src]]]]]; simpl in Hl, H2; try lia; cbn [decodeLoop decodeFinal forallb];
      repeat lookup_next; eauto.
  - rewrite decodeLoop_cons4. cbn [forallb]. repeat lookup_next; try done.
    cbn [length] in H2, H4. replace (S (S (S (S (S (length src)))))) with (S (length src) + 1 * 4)%nat in H4 by lia.
    rewrite Nat.Div0.mod_add in H4.
    assert (2 ≤ length (e :: src))%nat as H2'.
    { cbn [length] in *. destruct (length src) as [|n]; [by destruct H4 | lia]. }
    specialize (IH H2' H4). cbn [forallb] in IH.
    destruct (known table e && forallb (known table) src) eqn:E; [|by rewrite IH].
    destruct IH as (w & -> & Hw). eexists. split; [done|]. cbn [length] in *. rewrite Hw.
    replace (3 * S (S (S (S (S (length src))))))%nat with (3 * S (length src) + 3 * 4)%nat by lia.
    rewrite Nat.div_add by lia. lia.
Qed.

Lemma known_charset c : known kBase64ReverseIndexTable c = existsb (is_char c) kBase64Charset.
Proof.
  destruct c as [b0 b1 b2 b3 b4 b5 b6 b7].
  destruct b0, b1, b2, b3, b4, b5, b6, b7; vm_compute; reflexivity.
Qed.

Lemma forallb_known l :
  forallb (known kBase64ReverseIndexTable) l = forallb (λ c, existsb (is_char c) kBase64Charset) l.
Proof. induction l as [|c l IH]; [done|]. cbn [forallb]. by rewrite known_charset, IH. Qed.

(** The padding characters at the end of a text, two at most. *)
Definition paddingOf (e : text) : nat :=
  match reverse e with
  | p :: q :: _ => if negb (is_char p kBase64Pad) then 0 else if negb (is_char q kBase64Pad) then 1 else 2
  | _ => 0
  end.

Lemma countPadding_paddingOf e : (2 ≤ length e)%nat → countPadding e (sizeOf e) = Ok (Z.of_nat (paddingOf e)).
Proof.
  intros Hl. unfold paddingOf. rewrite <- (reverse_involutive e) at 1 2. rewrite <- length_reverse in Hl.
  destruct (reverse e) as [|p [|q l]]; simpl in Hl; [lia | lia|]. clear Hl e.
  rewrite !reverse_cons, <- app_assoc. unfold sizeOf, countPadding. rewrite length_app. simpl length.
  rewrite (index_app_r (reverse l) [q; p] 1 p (_ - 1)); [|lia | reflexivity]. cbn [mbind outcome_bind].
  destruct (is_char p kBase64Pad); [|done]. cbn [negb].
  rewrite (index_app_r (reverse l) [q; p] 0 q (_ - 2)); [|lia | reflexivity]. cbn [mbind outcome_bind]. by destruct (is_char q kBase64Pad).
Qed.

Lemma decodeImpl_total e dst :
  (4 ≤ length e)%nat → sizeOf e < 2 ^ 31 → sizeOf e mod 4 = 0 → sizeOf dst = sizeOf e / 4 * 3 →
  let k := paddingOf e in
  if forallb (known kBase64ReverseIndexTable) (take (length e - k) e)
  then ∃ w, decodeImpl e (sizeOf e) dst (sizeOf dst) kBase64ReverseIndexTable true =
      Ok (w ++ drop (length w) dst, sizeOf w) ∧ sizeOf w = sizeOf e / 4 * 3 - Z.of_nat k
  else decodeImpl e (sizeOf e) dst (sizeOf dst) kBase64ReverseIndexTable true = Throw invalidChars.
Proof.
  intros Hl Hs Hm Hd k. pose proof (countPadding_paddingOf e ltac:(lia)) as Hp. fold k in Hp.
  assert (k ≤ 2)%nat as Hk by (unfold k, paddingOf; repeat case_match; lia). clearbody k.
  unfold decodeImpl, calculateDecodedSize. rewrite Hp, Hm, Hd. unfold sizeOf in *.
  destruct (Z.eqb_spec (Z.of_nat (length e)) 0) as [|_]; [lia|]. cbn [negb Z.eqb mbind outcome_bind].
  assert (0 ≤ Z.of_nat (length e) / 4 * 3 - Z.of_nat k < 2 ^ 62) as Hq by (Z.div_mod_to_equations; lia).
  rewrite (uwrap64_small (_ * 3)), !uwrap64_small by lia.
  destruct (Z.ltb_spec (Z.of_nat (length e) / 4 * 3) (Z.of_nat (length e) / 4 * 3 - Z.of_nat k)); [lia|].
  destruct (Z.ltb_spec (Z.of_nat (length e)) (Z.of_nat (length e) - Z.of_nat k)); [lia|].
  replace (Z.to_nat (Z.of_nat (length e) - Z.of_nat k)) with (length e - k)%nat by lia.
  pose proof (decodeLoop_total kBase64ReverseIndexTable (take (length e - k) e) eq_refl) as Ht.
  rewrite length_take_le in Ht by lia.
  assert ((length e - k) mod 4 ≠ 1)%nat as Hm4.
  { intros E%(f_equal Z.of_nat). rewrite Nat2Z.inj_mod in E. Z.div_mod_to_equations; lia. }
  specialize (Ht ltac:(lia) Hm4).
  destruct (forallb _ _); [|by rewrite Ht].
  destruct Ht as (w & -> & Hw). cbn [mbind outcome_bind]. exists w.
  assert (Z.of_nat (length w) = Z.of_nat (length e) / 4 * 3 - Z.of_nat k) as Hlw.
  { rewrite Hw, Nat2Z.inj_div. destruct k as [|[|[|k]]]; Z.div_mod_to_equations; lia. }
  unfold writeTo. rewrite (proj2 (Nat.leb_le _ _)) by lia. cbn [mbind outcome_bind]. by rewrite Hlw.
Qed.

(** What [decode] accepts, for texts below 2 GiB: a text whose length is no
    multiple of four is refused, a text with a character outside the alphabet
    before its padding is refused, and every other text decodes to three bytes
    for each group of four characters less the padding.  No text makes the
    decoder read or write out of bounds. *)
Theorem decode_total e :
  sizeOf e < 2 ^ 31 →
  let valid := forallb (λ c, existsb (is_char c) kBase64Charset) (take (length e - paddingOf e) e) in
  (sizeOf e mod 4 ≠ 0 → decode e = Throw (Base64Exception "string length is not multiple of 4")) ∧
  (sizeOf e mod 4 = 0 → valid = false → decode e = Throw invalidChars) ∧
  (sizeOf e mod 4 = 0 → valid = true →
   ∃ s, decode e = Ok s ∧ sizeOf s = sizeOf e / 4 * 3 - Z.of_nat (paddingOf e)).
Proof.
  intros Hs valid. unfold decode, decodePayload. pose proof (Nat2Z.is_nonneg (length e)) as Hnn. fold (sizeOf e) in Hnn.
  rewrite swrap_small, Z.quot_div_nonneg by lia.
  assert (0 ≤ sizeOf e / 4 * 3 < 2 ^ 62) as Hq by (Z.div_mod_to_equations; lia).
  rewrite !uwrap64_small, resized_small by lia. cbn [mbind outcome_bind].
  assert (sizeOf (zeros (sizeOf e / 4 * 3)) = sizeOf e / 4 * 3) as Hz.
  { unfold sizeOf at 1, zeros. rewrite length_replicate. lia. }
  destruct (decide (e = [])) as [->|Hne]; [split_and!; try done; intros; by exists []|].
  assert (0 < length e)%nat by (destruct e; simpl; [done | lia]).
  assert (sizeOf e mod 4 = 0 → (4 ≤ length e)%nat) as H4 by (unfold sizeOf in *; Z.div_mod_to_equations; lia).
  pose proof (λ Hm, decodeImpl_total e (zeros (sizeOf e / 4 * 3)) (H4 Hm) Hs Hm Hz) as Ht. rewrite Hz in Ht.
  cbv zeta in Ht. rewrite forallb_known in Ht. fold valid in Ht.
  split; [|split].
  - intros Hm. unfold decodeImpl, calculateDecodedSize.
    destruct (Z.eqb_spec (sizeOf e) 0); [unfold sizeOf in *; lia|].
    by destruct (Z.eqb_spec (sizeOf e mod 4) 0).
  - intros Hm Hv. specialize (Ht Hm). rewrite Hv in Ht. by rewrite Ht.
  - intros Hm Hv. specialize (Ht Hm). rewrite Hv in Ht.
    destruct Ht as (w & -> & Hw). exists w. split; [|done]. cbn [mbind outcome_bind]. f_equal.
    unfold sizeOf. by rewrite Nat2Z.id, take_app_length.
Qed.

(** The checks made at compile time hold. *)
Theorem tables_checked :
  checkForwardIndex 63 kBase64Charset kBase64ReverseIndexTable = true ∧
  checkForwardIndex 63 kBase64UrlCharset kBase64UrlReverseIndexTable = true ∧
  checkReverseIndex 255 kBase64Charset kBase64ReverseIndexTable = true.
Proof. vm_compute. auto. Qed.

(** The overloads that write to a buffer or append fill exactly the computed
    size. *)
Theorem encodeAppend_encode s out e :
  sizeOf s < 2 ^ 60 → encode s = Ok e → encodeAppend s out = Ok (out ++ e).
Proof.
  intros Hs He. unfold encode, encodeImpl in He. unfold encodeAppend. by rewrite He.
Qed.

(** A text of 4 GiB has size zero as an [int32_t]: it decodes to nothing. *)
Theorem decode_drops_large e : sizeOf e = 2 ^ 32 → decode e = Ok [].
Proof. intros He. unfold decode. rewrite He. reflexivity. Qed.

Lemma base64_roundtrip_witness :
  sizeOf (txt "Many") ≤ 1610612730 ∧ encode (txt "Many") = Ok (txt "TWFueQ==") ∧
  encodeUrl (txt "Many") = Ok (txt "TWFueQ") ∧ decodeUrl (txt "TWFueQ==") = Ok (txt "Many").
Proof.
  assert (sizeOf (txt "Many") ≤ 1610612730) as Hs by (vm_compute; discriminate).
  destruct (base64_roundtrip (txt "Many") Hs) as (e & u & He & _ & Hu & _ & _ & _ & Hd).
  split; [exact Hs|]. vm_compute in He, Hu. injection He as <-. injection Hu as <-.
  split; [reflexivity|]. split; [reflexivity | exact Hd].
Defined.

Lemma decode_total_witness :
  decode (txt "TWF") = Throw (Base64Exception "string length is not multiple of 4") ∧
  decode (txt "TW-u") = Throw invalidChars ∧
  ∃ s, decode (txt "TWFueQ==") = Ok s ∧ sizeOf s = 4.
Proof.
  split; [|split].
  - apply (decode_total (txt "TWF")); [reflexivity | discriminate].
  - apply (decode_total (txt "TW-u")); [reflexivity | reflexivity | reflexivity].
  - apply (decode_total (txt "TWFueQ==")); [reflexivity | reflexivity | reflexivity].
Defined.
