(* ===== verification/Varint.v ===== *)
(** * Variable-length integers

    Models [velox/common/encode/Coding.h] and [velox/common/encode/UInt128.h]:
    128-bit words as two 64-bit halves, the base-128 encoding of 64-bit and
    128-bit words with its unrolled, its looping and its streaming decoder, and
    zig-zag coding.  Buffers are lists of characters; [StringPiece] arguments
    that the code advances are returned with what is left of them.  A
    [ByteSource] is the list of the chunks it still has to give. *)
From Stdlib Require Import Ascii String.
From S2P Require Import Prelude Text Bits.
Local Open Scope Z_scope.

(** ** [UInt128] *)
Record UInt128 := mkUInt128 { hi_ : Z; lo_ : Z }.

Definition ofLo (lo : Z) : UInt128 := mkUInt128 0 lo.
Definition u128_or (a b : UInt128) : UInt128 := mkUInt128 (Z.lor (hi_ a) (hi_ b)) (Z.lor (lo_ a) (lo_ b)).
Definition u128_and (a b : UInt128) : UInt128 := mkUInt128 (Z.land (hi_ a) (hi_ b)) (Z.land (lo_ a) (lo_ b)).
Definition u128_not (a : UInt128) : UInt128 := mkUInt128 (uwrap 64 (Z.lnot (hi_ a))) (uwrap 64 (Z.lnot (lo_ a))).
Definition u128_eq (a b : UInt128) : bool := (hi_ a =? hi_ b) && (lo_ a =? lo_ b).

(** Shifting a [uint64_t] by its width or more is undefined. *)
Definition shl64 (x n : Z) : outcome Z := if n <? 64 then Ok (uwrap 64 (Z.shiftl x n)) else Undefined.
Definition shr64 (x n : Z) : outcome Z := if n <? 64 then Ok (Z.shiftr x n) else Undefined.

Definition u128_shl (a : UInt128) (n : Z) : outcome UInt128 :=
  if n >=? 64 then h ← shl64 (lo_ a) (n - 64); Ok (mkUInt128 h 0)
  else if n >? 0 then
    h ← shl64 (hi_ a) n; c ← shr64 (lo_ a) (64 - n); l ← shl64 (lo_ a) n;
    Ok (mkUInt128 (Z.lor h c) l)
  else Ok a.

Definition u128_shr (a : UInt128) (n : Z) : outcome UInt128 :=
  if n >=? 64 then l ← shr64 (hi_ a) (n - 64); Ok (mkUInt128 0 l)
  else if n >? 0 then
    l ← shr64 (lo_ a) n; c ← shl64 (hi_ a) (64 - n); h ← shr64 (hi_ a) n;
    Ok (mkUInt128 h (Z.lor l c))
  else Ok a.

(** ** [Varint] *)
Definition kMaxSize64 : nat := 10.
Definition kMaxSize128 : nat := 19.

Definition shift (a b bBits : Z) : outcome UInt128 :=
  s ← u128_shl (ofLo a) bBits; Ok (u128_or s (ofLo b)).

Definition unshift (val : UInt128) (bBits : Z) : outcome (Z * Z) :=
  one ← shl64 1 bBits;
  let second := Z.land (lo_ val) (uwrap 64 (one - 1)) in
  val ← u128_shr val bBits;
  Ok (lo_ val, second).

(** [while (val >= 128)], at most [fuel] times. *)
Fixpoint sizeLoop (fuel : nat) (s val : Z) : outcome Z :=
  match fuel with
  | O => Throw OutOfFuel
  | S fuel' => if val >=? 128 then s' ← add32 s 1; sizeLoop fuel' s' (Z.shiftr val 7) else Ok s
  end.
Definition size (val : Z) : outcome Z := sizeLoop kMaxSize64 1 val.

Definition big128 (val : UInt128) : bool := negb (hi_ val =? 0) || (lo_ val >=? 128).

Fixpoint size128Loop (fuel : nat) (s : Z) (val : UInt128) : outcome Z :=
  match fuel with
  | O => Throw OutOfFuel
  | S fuel' =>
      if big128 val then s' ← add32 s 1; val' ← u128_shr val 7; size128Loop fuel' s' val' else Ok s
  end.
Definition size128 (val : UInt128) : outcome Z := size128Loop kMaxSize128 1 val.

(** The bytes written through [p]; no bounds are checked. *)
Fixpoint encodeLoop (fuel : nat) (val : Z) : outcome text :=
  match fuel with
  | O => Throw OutOfFuel
  | S fuel' =>
      if val >=? 128 then
        rest ← encodeLoop fuel' (Z.shiftr val 7);
        Ok (chr (Z.lor 128 (Z.land val 127)) :: rest)
      else Ok [chr val]
  end.
Definition encode (val : Z) : outcome text := encodeLoop kMaxSize64 val.

Fixpoint encode128Loop (fuel : nat) (val : UInt128) : outcome text :=
  match fuel with
  | O => Throw OutOfFuel
  | S fuel' =>
      if big128 val then
        val' ← u128_shr val 7;
        rest ← encode128Loop fuel' val';
        Ok (chr (Z.lor 128 (Z.land (lo_ val) 127)) :: rest)
      else Ok [chr (lo_ val)]
  end.
Definition encode128 (val : UInt128) : outcome text := encode128Loop kMaxSize128 val.

(** A buffer of [n] characters on the stack, and what of it was written. *)
Definition throughBuffer (n : nat) (bytes : text) : outcome text :=
  buf ← writeTo bytes (replicate n (chr 0)); Ok (take (length bytes) buf).

Definition encodeToByteSink (val : Z) (sink : text) : outcome text :=
  bytes ← encode val; s ← throughBuffer kMaxSize64 bytes; Ok (sink ++ s).
Definition encode128ToByteSink (val : UInt128) (sink : text) : outcome text :=
  bytes ← encode128 val; s ← throughBuffer kMaxSize128 bytes; Ok (sink ++ s).

Definition more (c : ascii) : bool := negb (Z.land (code c) 128 =? 0).

Definition canDecode (src : text) : bool := existsb (λ v, negb (more v)) (take kMaxSize64 src).

(** [CHECK]. *)
Definition glog_check {A} (b : bool) (k : outcome A) : outcome A :=
  if b then k else Throw (FatalLog "CHECK").

(** [x |= (b & 0x7f) << n]; the tenth byte is shifted as a [uint64_t]. *)
Definition addBits (x : Z) (c : ascii) (n : Z) : Z := Z.lor x (uwrap 64 (Z.shiftl (Z.land (code c) 127) n)).

(** The unrolled path: one entry for each line, with the shift of the line. *)
Fixpoint decodeFast (shifts : list Z) (x : Z) (src : text) : outcome (Z * text) :=
  match shifts with
  | [] => Throw (FatalLog "CHECK")
  | n :: shifts' =>
      match src with
      | [] => Undefined
      | c :: src' =>
          let x := addBits x c n in
          if more c then decodeFast shifts' x src' else Ok (x, src')
      end
  end.

(** The looping path. *)
Fixpoint decodeSlow (val n max_size : Z) (src : text) : outcome (Z * text) :=
  match src with
  | [] => Undefined
  | c :: src' =>
      if more c then
        glog_check (max_size >? 1) (decodeSlow (addBits val c n) (n + 7) (max_size - 1) src')
      else
        s ← shl64 (code c) n; Ok (Z.lor val s, src')
  end.

Definition decodeFrom (src : text) (max_size : Z) : outcome (Z * text) :=
  if max_size >=? Z.of_nat kMaxSize64 then decodeFast [0; 7; 14; 21; 28; 35; 42; 49; 56; 63] 0 src
  else decodeSlow 0 0 max_size src.

Definition decode (data : text) : outcome (Z * text) := decodeFrom data (Z.of_nat (length data)).

Fixpoint decode128Slow (val : UInt128) (n max_size : Z) (src : text) : outcome (UInt128 * text) :=
  match src with
  | [] => Undefined
  | c :: src' =>
      if more c then
        glog_check (max_size >? 1)
          (s ← u128_shl (ofLo (Z.land (code c) 127)) n;
           decode128Slow (u128_or val s) (n + 7) (max_size - 1) src')
      else
        s ← u128_shl (ofLo (code c)) n; Ok (u128_or val s, src')
  end.

Definition decode128From (src : text) (max_size : Z) : outcome (UInt128 * text) :=
  decode128Slow (ofLo 0) 0 (Z.min max_size (Z.of_nat kMaxSize128)) src.

Definition decode128 (data : text) : outcome (UInt128 * text) := decode128From data (Z.of_nat (length data)).

(** ** Streams *)

(** [src->next(&chunk)]; what is left of a chunk goes back to the source. *)
Definition next (src : list text) : option (text * list text) :=
  match src with [] => None | chunk :: src' => Some (chunk, src') end.
Definition backUp (chunk : text) (src : list text) : list text :=
  match chunk with [] => src | _ => chunk :: src end.

(** The loop of [decodeFromByteSource]: the current chunk from [p] on is
    [chunk]; an empty one is replaced by the next. *)
Fixpoint sourceLoop (fuel : nat) (val n max_size : Z) (chunk : text) (src : list text) : outcome (Z * list text) :=
  match fuel with
  | O => Throw OutOfFuel
  | S fuel' =>
      '(chunk, src) ← match chunk with
                      | [] => match next src with Some cs => Ok cs | None => Throw (FatalLog "CHECK") end
                      | _ => Ok (chunk, src)
                      end;
      match chunk with
      | [] => Undefined
      | c :: chunk' =>
          if more c then
            glog_check (max_size >? 1) (sourceLoop fuel' (addBits val c n) (n + 7) (max_size - 1) chunk' src)
          else
            s ← shl64 (code c) n; Ok (Z.lor val s, backUp chunk' src)
      end
  end.
Definition decodeFromByteSource (src : list text) : outcome (Z * list text) :=
  sourceLoop kMaxSize64 0 0 (Z.of_nat kMaxSize64) [] src.

Fixpoint source128Loop (fuel : nat) (val : UInt128) (n max_size : Z) (chunk : text) (src : list text)
    : outcome (UInt128 * list text) :=
  match fuel with
  | O => Throw OutOfFuel
  | S fuel' =>
      '(chunk, src) ← match chunk with
                      | [] => match next src with Some cs => Ok cs | None => Throw (FatalLog "CHECK") end
                      | _ => Ok (chunk, src)
                      end;
      match chunk with
      | [] => Undefined
      | c :: chunk' =>
          if more c then
            glog_check (max_size >? 1)
              (s ← u128_shl (ofLo (Z.land (code c) 127)) n;
               source128Loop fuel' (u128_or val s) (n + 7) (max_size - 1) chunk' src)
          else
            s ← u128_shl (ofLo (code c)) n; Ok (u128_or val s, backUp chunk' src)
      end
  end.
Definition decode128FromByteSource (src : list text) : outcome (UInt128 * list text) :=
  source128Loop kMaxSize128 (ofLo 0) 0 (Z.of_nat kMaxSize128) [] src.

(** ** [ZigZag] *)
Definition zigzag_encode (val : Z) : Z := Z.lxor (uwrap 64 (Z.shiftl (uwrap 64 val) 1)) (uwrap 64 (Z.shiftr val 63)).
Definition zigzag_decode (w val : Z) : Z := swrap w (Z.lxor (Z.shiftr val 1) (uwrap w (- Z.land val 1))).

(** ** Bytes of an encoding *)
Lemma more_spec c : more c = (128 <=? code c).
Proof.
  unfold more. pose proof (code_range c) as Hc.
  assert (Z.land (code c) 128 = if 128 <=? code c then 128 else 0) as ->; [|by destruct (128 <=? code c)].
  apply Z.bits_inj'. intros i Hi. rewrite Z.land_spec. change 128 with (2 ^ 7) at 1. rewrite Z.pow2_bits_eqb by lia.
  destruct (Z.eqb_spec 7 i) as [<-|Hne].
  - rewrite andb_true_r, Z.testbit_eqb by lia. change (2 ^ 7) with 128.
    destruct (Z.leb_spec 128 (code c)).
    + replace (code c / 128) with 1 by (Z.div_mod_to_equations; lia). done.
    + by rewrite Z.div_small by lia.
  - rewrite andb_false_r. destruct (Z.leb_spec 128 (code c)); [|by rewrite Z.bits_0].
    change 128 with (2 ^ 7). by rewrite Z.pow2_bits_false by lia.
Qed.

Lemma low_bits c : Z.land (code c) 127 = code c - if more c then 128 else 0.
Proof.
  rewrite land_127, more_spec. pose proof (code_range c). destruct (Z.leb_spec 128 (code c)); Z.div_mod_to_equations; lia.
Qed.

(** A byte that continues and a byte that ends, carrying seven bits. *)
Lemma code_more v : 0 ≤ v → code (chr (Z.lor 128 (Z.land v 127))) = 128 + v mod 128.
Proof.
  intros Hv. rewrite land_127. assert (0 ≤ v mod 128 < 128) by (apply Z.mod_pos_bound; lia).
  rewrite (lor_add 128 (v mod 128) 7) by (done || lia). apply code_chr. lia.
Qed.

Lemma addBits_add x c n d :
  0 ≤ n → 0 ≤ x < 2 ^ n → Z.land (code c) 127 = d → 0 ≤ d * 2 ^ n < 2 ^ 64 → addBits x c n = x + d * 2 ^ n.
Proof.
  intros Hn Hx Hd Hs. unfold addBits. rewrite Hd, Z.shiftl_mul_pow2 by lia. unfold uwrap. rewrite Z.mod_small by lia.
  rewrite Z.lor_comm, <- (Z.shiftl_mul_pow2 d n) at 1 by lia. rewrite lor_shift by lia. lia.
Qed.

(** ** The three decoders *)
Lemma fast_step n shifts m x src :
  0 ≤ n < 64 →
  (if m >? 1 then ∀ y src', decodeFast shifts y src' = decodeSlow y (n + 7) (m - 1) src' else shifts = []) →
  decodeFast (n :: shifts) x src = decodeSlow x n m src.
Proof.
  intros Hn Hrest. destruct src as [|c src]; [done|]. cbn [decodeFast decodeSlow]. destruct (more c) eqn:E.
  - unfold glog_check. destruct (m >? 1); [apply Hrest | by rewrite Hrest].
  - unfold addBits. rewrite low_bits, E, Z.sub_0_r. unfold shl64. by destruct (Z.ltb_spec n 64); [|lia].
Qed.

Lemma decodeFast_slow src : decodeFast [0; 7; 14; 21; 28; 35; 42; 49; 56; 63] 0 src = decodeSlow 0 0 10 src.
Proof. repeat (apply fast_step; [lia|]; cbv iota beta; try intros ??); done. Qed.

(** Encoding [v] and decoding it after [x], seven bits at a time. *)
Lemma encodeLoop_decode fuel v :
  0 ≤ v < 2 ^ (7 * Z.of_nat fuel) → (0 < fuel)%nat →
  ∃ bytes, encodeLoop fuel v = Ok bytes ∧ (1 ≤ length bytes ≤ fuel)%nat ∧
    (∀ s, is_int32 (s + Z.of_nat fuel) → is_int32 s → sizeLoop fuel s v = Ok (s + Z.of_nat (length bytes) - 1)) ∧
    ∀ x n m rest, 0 ≤ n < 64 → 0 ≤ x < 2 ^ n → v * 2 ^ n < 2 ^ 64 → Z.of_nat (length bytes) ≤ m →
      decodeSlow x n m (bytes ++ rest) = Ok (x + v * 2 ^ n, rest).
Proof.
  revert v. induction fuel as [|fuel IH]; intros v Hv Hf; [lia|]. cbn [encodeLoop sizeLoop].
  destruct (Z.geb_spec v 128) as [Hbig|Hsmall].
  - assert (Z.shiftr v 7 = v / 128) as -> by (by rewrite Z.shiftr_div_pow2).
    assert (fuel ≠ 0%nat) as Hf0 by (intros ->; simpl in Hv; lia).
    destruct (IH (v / 128)) as (bytes & -> & Hl & Hsz & Hdec).
    { split; [Z.div_mod_to_equations; lia|]. apply Z.div_lt_upper_bound; [lia|].
      replace (7 * Z.of_nat (S fuel)) with (7 + 7 * Z.of_nat fuel) in Hv by lia. rewrite Z.pow_add_r in Hv by lia. lia. }
    { lia. }
    eexists. split; [done|]. cbn [length]. split; [lia|]. split.
    + intros s Hs Hs0. unfold add32. rewrite checked32_Ok by (unfold_ints; lia). cbn [mbind outcome_bind].
      rewrite Hsz by (unfold_ints; lia). f_equal. lia.
    + intros x n m rest Hn Hx Hvn Hm. cbn [app decodeSlow]. set (c := chr _).
      assert (code c = 128 + v mod 128) as Hc by (apply code_more; lia).
      assert (more c = true) as Hmore. { rewrite more_spec, Hc. apply Z.leb_le. Z.div_mod_to_equations; lia. }
      rewrite Hmore. unfold glog_check. destruct (Z.gtb_spec m 1); [|lia].
      assert (0 < 2 ^ n) as Hpos by (apply Z.pow_pos_nonneg; lia).
      assert (2 ^ (n + 7) = 2 ^ n * 128) as Hpow by (rewrite Z.pow_add_r by lia; done).
      assert (v = v / 128 * 128 + v mod 128 ∧ 0 ≤ v mod 128 < 128 ∧ 1 ≤ v / 128) as (Hdm & Hmod & Hdiv)
        by (Z.div_mod_to_equations; lia).
      rewrite (addBits_add x c n (v mod 128)); [| lia | lia | rewrite low_bits, Hmore, Hc; lia | nia].
      rewrite Hdec; [f_equal; f_equal; rewrite Hpow; nia| | rewrite Hpow; nia | rewrite Hpow; nia | lia].
      split; [lia|]. destruct (Z.lt_ge_cases (n + 7) 64) as [|Hge]; [done|].
      apply (Z.pow_le_mono_r 2) in Hge; [|lia]. nia.
  - eexists. split; [done|]. cbn [length]. split; [lia|]. split; [intros s _ _; f_equal; lia|].
    intros x n m rest Hn Hx Hvn Hm. cbn [app decodeSlow].
    assert (code (chr v) = v) as Hc by (apply code_chr; lia).
    assert (more (chr v) = false) as ->. { rewrite more_spec, Hc. apply Z.leb_gt. lia. }
    unfold shl64. destruct (Z.ltb_spec n 64); [|lia]. cbn [mbind outcome_bind]. rewrite Hc, Z.shiftl_mul_pow2 by lia.
    unfold uwrap. assert (0 < 2 ^ n) by (apply Z.pow_pos_nonneg; lia). rewrite Z.mod_small by nia.
    rewrite Z.lor_comm, <- (Z.shiftl_mul_pow2 v n) at 1 by lia. rewrite lor_shift by lia. do 2 f_equal. lia.
Qed.

Lemma decode_slow data :
  decode data = decodeSlow 0 0 (Z.min 10 (Z.of_nat (length data))) data.
Proof.
  unfold decode, decodeFrom. destruct (Z.geb_spec (Z.of_nat (length data)) (Z.of_nat kMaxSize64)) as [H|H].
  - rewrite decodeFast_slow. f_equal. unfold kMaxSize64 in H. lia.
  - f_equal. unfold kMaxSize64 in H. lia.
Qed.

(** Varints round-trip: every 64-bit word is encoded in [size] bytes, ten at
    most, so the buffer of [encodeToByteSink] never overflows, and decoding
    the bytes, whatever follows them and on either path of the decoder, gives
    the word back and leaves what follows. *)
Theorem varint_roundtrip v rest :
  0 ≤ v < 2 ^ 64 →
  ∃ bytes, encode v = Ok bytes ∧ size v = Ok (Z.of_nat (length bytes)) ∧ (length bytes ≤ kMaxSize64)%nat ∧
    encodeToByteSink v rest = Ok (rest ++ bytes) ∧
    decode (bytes ++ rest) = Ok (v, rest).
Proof.
  intros Hv. destruct (encodeLoop_decode kMaxSize64 v) as (bytes & He & Hl & Hs & Hd); [|unfold kMaxSize64; lia|].
  { split; [lia|]. apply Z.lt_le_trans with (2 ^ 64); [lia|]. by apply Z.pow_le_mono_r. }
  exists bytes. split; [done|]. split; [|split; [lia|split]].
  - unfold size. rewrite Hs by (unfold_ints; unfold kMaxSize64; lia). f_equal. lia.
  - unfold encodeToByteSink, encode, throughBuffer. rewrite He. cbn [mbind outcome_bind]. unfold writeTo.
    rewrite length_replicate, (proj2 (Nat.leb_le _ _)) by lia. cbn [mbind outcome_bind]. by rewrite take_app_length.
  - rewrite decode_slow, length_app. rewrite Hd; [by rewrite Z.mul_1_r | lia | lia | lia|]. unfold kMaxSize64 in Hl. lia.
Qed.

Lemma decodeSlow_defined src (m : nat) val n :
  (1 ≤ m ≤ length src)%nat → 0 ≤ n → n + 7 * (Z.of_nat m - 1) < 64 →
  if existsb (λ v, negb (more v)) (take m src)
  then ∃ r, decodeSlow val n (Z.of_nat m) src = Ok r
  else decodeSlow val n (Z.of_nat m) src = Throw (FatalLog "CHECK").
Proof.
  revert m val n. induction src as [|c src IH]; intros m val n Hm Hn Hs; [simpl in Hm; lia|].
  destruct m as [|m]; [lia|]. cbn [take existsb decodeSlow]. destruct (more c) eqn:E.
  - cbn [negb orb]. unfold glog_check. destruct (Z.gtb_spec (Z.of_nat (S m)) 1) as [H1|H1].
    + replace (Z.of_nat (S m) - 1) with (Z.of_nat m) by lia. apply IH; simpl in Hm; lia.
    + by replace m with 0%nat by lia.
  - cbn [negb orb]. unfold shl64. destruct (Z.ltb_spec n 64); [simpl; eauto | lia].
Qed.

(** [canDecode] is exact: on a non-empty buffer it says whether [decode]
    returns, and where it says no, [decode] stops at a failed check; in neither
    case are bytes read beyond the buffer. *)
Theorem canDecode_exact data :
  data ≠ [] →
  if canDecode data then ∃ r, decode data = Ok r else decode data = Throw (FatalLog "CHECK").
Proof.
  intros Hne. assert (1 ≤ length data)%nat by (destruct data; simpl; [done | lia]).
  rewrite decode_slow. replace (Z.min 10 (Z.of_nat (length data))) with (Z.of_nat (10 `min` length data)) by lia.
  pose proof (decodeSlow_defined data (10 `min` length data) 0 0) as H0.
  unfold canDecode, kMaxSize64. replace (take 10 data) with (take (10 `min` length data) data); [apply H0; lia|].
  destruct (Nat.min_spec 10 (length data)) as [[? ->]|[? ->]]; [done|]. by rewrite !take_ge by lia.
Qed.

(** What is left in a source. *)
Lemma concat_backUp chunk src : concat (backUp chunk src) = chunk ++ concat src.
Proof. by destruct chunk. Qed.

(** The stream against the buffer; running out of bytes fails a check. *)
Definition sameRead (buffer : outcome (Z * text)) (stream : outcome (Z * list text)) : Prop :=
  match buffer with
  | Ok (v, rest) => ∃ src, stream = Ok (v, src) ∧ concat src = rest
  | _ => stream = Throw (FatalLog "CHECK")
  end.

Lemma sourceLoop_same fuel val n chunk src :
  Forall (.≠ []) src → (0 < fuel)%nat → 0 ≤ n → n + 7 * (Z.of_nat fuel - 1) < 64 →
  sameRead (decodeSlow val n (Z.of_nat fuel) (chunk ++ concat src))
           (sourceLoop fuel val n (Z.of_nat fuel) chunk src).
Proof.
  revert val n chunk src. induction fuel as [|fuel IH]; intros val n chunk src Hne Hf Hn Hs; [lia|].
  assert (∀ c chunk' src', Forall (.≠ []) src' →
    sameRead (decodeSlow val n (Z.of_nat (S fuel)) (c :: chunk' ++ concat src'))
      (if more c then
         glog_check (Z.of_nat (S fuel) >? 1)
           (sourceLoop fuel (addBits val c n) (n + 7) (Z.of_nat (S fuel) - 1) chunk' src')
       else s ← shl64 (code c) n; Ok (Z.lor val s, backUp chunk' src'))) as Hstep.
  { intros c chunk' src' Hne'. cbn [decodeSlow]. destruct (more c).
    - unfold glog_check. destruct (Z.gtb_spec (Z.of_nat (S fuel)) 1); [|done].
      replace (Z.of_nat (S fuel) - 1) with (Z.of_nat fuel) by lia. apply IH; [done | lia..].
    - unfold shl64. destruct (Z.ltb_spec n 64); [|lia]. simpl. eexists. split; [done|]. apply concat_backUp. }
  cbn [sourceLoop]. destruct chunk as [|c chunk]; [|by apply Hstep].
  destruct src as [|[|c chunk] src]; [done | by inversion Hne|]. apply Hstep. by inversion Hne.
Qed.

(** Decoding a stream does not depend on how it is cut: from any non-empty
    chunks [decodeFromByteSource] reads the value, and leaves the bytes, that
    [decode] reads and leaves in one buffer that holds them all and has at
    least ten bytes. *)
Theorem decodeFromByteSource_chunks src :
  Forall (.≠ []) src → (10 ≤ length (concat src))%nat →
  sameRead (decode (concat src)) (decodeFromByteSource src).
Proof.
  intros Hne Hl. rewrite decode_slow. replace (Z.min 10 _) with (Z.of_nat kMaxSize64) by (unfold kMaxSize64; lia).
  apply (sourceLoop_same kMaxSize64 0 0 [] src); [done | unfold kMaxSize64; lia..].
Qed.

(** ** 128-bit words *)
Definition u128_wf (a : UInt128) : Prop := 0 ≤ hi_ a < 2 ^ 64 ∧ 0 ≤ lo_ a < 2 ^ 64.
Definition u128_val (a : UInt128) : Z := hi_ a * 2 ^ 64 + lo_ a.

Lemma u128_range a : u128_wf a → 0 ≤ u128_val a < 2 ^ 128.
Proof. unfold u128_wf, u128_val. lia. Qed.

Lemma u128_of_val a b : u128_wf a → u128_wf b → u128_val a = u128_val b → a = b.
Proof.
  destruct a as [h l], b as [h' l']. unfold u128_wf, u128_val. simpl. intros Ha Hb He.
  assert (h = h') as -> by lia. assert (l = l') as -> by lia. done.
Qed.

Lemma u128_or_val a b : u128_wf a → u128_wf b →
  u128_wf (u128_or a b) ∧ u128_val (u128_or a b) = Z.lor (u128_val a) (u128_val b).
Proof.
  intros [Ha La] [Hb Lb]. unfold u128_wf, u128_val, u128_or. cbn [hi_ lo_].
  split; [split; by apply lor_range|].
  rewrite <- !lor_shift by (try lia; by apply lor_range).
  rewrite Z.shiftl_lor, !Z.lor_assoc. f_equal. rewrite <- !Z.lor_assoc. f_equal. apply Z.lor_comm.
Qed.

Lemma u128_shl_val a n : u128_wf a → 0 ≤ n < 128 →
  ∃ r, u128_shl a n = Ok r ∧ u128_wf r ∧ u128_val r = u128_val a * 2 ^ n mod 2 ^ 128.
Proof.
  intros [Ha La] Hn. unfold u128_shl, shl64, shr64. destruct a as [h l]. cbn [hi_ lo_] in *.
  destruct (Z.geb_spec n 64) as [H64|H64].
  - destruct (Z.ltb_spec (n - 64) 64); [|lia]. eexists. split; [done|]. unfold u128_wf, u128_val. cbn [hi_ lo_].
    rewrite Z.shiftl_mul_pow2 by lia. unfold uwrap.
    assert (0 ≤ l * 2 ^ (n - 64) mod 2 ^ 64 < 2 ^ 64) by (apply Z.mod_pos_bound; lia). split; [lia|]. apply Z.mod_unique with (h * 2 ^ (n - 64) + l * 2 ^ (n - 64) / 2 ^ 64); [lia|].
    pose proof (Z.div_mod (l * 2 ^ (n - 64)) (2 ^ 64)).
    replace (2 ^ n) with (2 ^ (n - 64) * 2 ^ 64) by (rewrite <- Z.pow_add_r by lia; f_equal; lia). lia.
  - destruct (Z.gtb_spec n 0) as [Hpos|Hz].
    + destruct (Z.ltb_spec n 64); [|lia]. destruct (Z.ltb_spec (64 - n) 64); [|lia]. cbn [mbind outcome_bind].
      rewrite Z.shiftr_div_pow2, !Z.shiftl_mul_pow2 by lia. unfold uwrap.
      assert (2 ^ 64 = 2 ^ n * 2 ^ (64 - n)) as Hpq by (rewrite <- Z.pow_add_r by lia; f_equal; lia).
      assert (0 < 2 ^ n) by (apply Z.pow_pos_nonneg; lia). assert (0 < 2 ^ (64 - n)) by (apply Z.pow_pos_nonneg; lia).
      set (P := 2 ^ n) in *. set (Q := 2 ^ (64 - n)) in *.
      assert (h * P mod 2 ^ 64 = h mod Q * P) as Eh by (rewrite Hpq, (Z.mul_comm P Q); apply Z.mul_mod_distr_r; lia).
      assert (l * P mod 2 ^ 64 = l mod Q * P) as El by (rewrite Hpq, (Z.mul_comm P Q); apply Z.mul_mod_distr_r; lia).
      assert (0 ≤ h mod Q < Q ∧ 0 ≤ l mod Q < Q) as [Hh Hl] by (split; apply Z.mod_pos_bound; lia).
      assert (0 ≤ l / Q < P) as Hd by (split; [apply Z.div_pos; lia | apply Z.div_lt_upper_bound; lia]).
      rewrite Eh, El, (lor_add (h mod Q * P) (l / Q) n) by (try lia; try apply Z.mod_mul; lia).
      eexists. split; [done|]. unfold u128_wf, u128_val. cbn [hi_ lo_].
      split; [nia|]. apply Z.mod_unique with (h / Q); [nia|].
      pose proof (Z.div_mod h Q). pose proof (Z.div_mod l Q). change (2 ^ 128) with (2 ^ 64 * 2 ^ 64). rewrite Hpq. nia.
    + exists (mkUInt128 h l). split; [done|]. split; [done|]. replace n with 0 by lia. rewrite Z.mul_1_r.
      symmetry. apply Z.mod_small. apply (u128_range (mkUInt128 h l)). done.
Qed.

Lemma u128_shr_val a n : u128_wf a → 0 ≤ n < 128 →
  ∃ r, u128_shr a n = Ok r ∧ u128_wf r ∧ u128_val r = u128_val a / 2 ^ n.
Proof.
  intros [Ha La] Hn. unfold u128_shr, shl64, shr64. destruct a as [h l]. cbn [hi_ lo_] in *.
  destruct (Z.geb_spec n 64) as [H64|H64].
  - destruct (Z.ltb_spec (n - 64) 64); [|lia]. eexists. split; [done|]. unfold u128_wf, u128_val. cbn [hi_ lo_].
    rewrite Z.shiftr_div_pow2 by lia. assert (0 < 2 ^ (n - 64)) by (apply Z.pow_pos_nonneg; lia).
    assert (0 ≤ h / 2 ^ (n - 64) ≤ h) by (split; [apply Z.div_pos | apply Z.div_le_upper_bound]; nia).
    split; [lia|]. replace (2 ^ n) with (2 ^ 64 * 2 ^ (n - 64)) by (rewrite <- Z.pow_add_r by lia; f_equal; lia).
    rewrite <- Z.div_div by lia. by rewrite Z.div_add_l, (Z.div_small l), Z.add_0_r by lia.
  - destruct (Z.gtb_spec n 0) as [Hpos|Hz].
    + destruct (Z.ltb_spec n 64); [|lia]. destruct (Z.ltb_spec (64 - n) 64); [|lia]. cbn [mbind outcome_bind].
      rewrite !Z.shiftr_div_pow2, !Z.shiftl_mul_pow2 by lia. unfold uwrap.
      assert (2 ^ 64 = 2 ^ (64 - n) * 2 ^ n) as Hpq by (rewrite <- Z.pow_add_r by lia; f_equal; lia).
      assert (0 < 2 ^ n) by (apply Z.pow_pos_nonneg; lia). assert (0 < 2 ^ (64 - n)) by (apply Z.pow_pos_nonneg; lia).
      set (P := 2 ^ n) in *. set (Q := 2 ^ (64 - n)) in *.
      assert (h * Q mod 2 ^ 64 = h mod P * Q) as Eh by (rewrite Hpq, (Z.mul_comm Q P); apply Z.mul_mod_distr_r; lia).
      assert (0 ≤ h mod P < P) as Hh by (apply Z.mod_pos_bound; lia).
      assert (0 ≤ l / P < Q) as Hd by (split; [apply Z.div_pos; lia | apply Z.div_lt_upper_bound; lia]).
      assert (0 ≤ h / P ≤ h) by (split; [apply Z.div_pos | apply Z.div_le_upper_bound]; nia).
      rewrite Eh, Z.lor_comm, (lor_add (h mod P * Q) (l / P) (64 - n)) by (try lia; try apply Z.mod_mul; lia).
      eexists. split; [done|]. unfold u128_wf, u128_val. cbn [hi_ lo_]. split; [nia|].
      replace (h * 2 ^ 64 + l) with (h * Q * P + l) by (rewrite Hpq; ring). rewrite Z.div_add_l by lia.
      pose proof (Z.div_mod h P). nia.
    + exists (mkUInt128 h l). split; [done|]. split; [done|]. replace n with 0 by lia. by rewrite Z.div_1_r.
Qed.

(** [UInt128] computes with 128-bit words: the operators on the two halves
    keep them 64-bit words and are disjunction, multiplication by a power of
    two modulo 2^128, and division by it; shifts below 128 are always
    defined. *)
Theorem u128_refines a b n :
  u128_wf a → u128_wf b → 0 ≤ n < 128 →
  (u128_wf (u128_or a b) ∧ u128_val (u128_or a b) = Z.lor (u128_val a) (u128_val b)) ∧
  (∃ r, u128_shl a n = Ok r ∧ u128_wf r ∧ u128_val r = u128_val a * 2 ^ n mod 2 ^ 128) ∧
  (∃ r, u128_shr a n = Ok r ∧ u128_wf r ∧ u128_val r = u128_val a / 2 ^ n) ∧
  (u128_eq a b = true ↔ u128_val a = u128_val b).
Proof.
  intros Ha Hb Hn. split; [by apply u128_or_val|]. split; [by apply u128_shl_val|]. split; [by apply u128_shr_val|].
  unfold u128_eq. rewrite andb_true_iff, !Z.eqb_eq. split.
  - unfold u128_val. intros [-> ->]. done.
  - by intros ->%u128_of_val.
Qed.

Lemma big128_val a : u128_wf a → big128 a = (u128_val a >=? 128).
Proof.
  intros [Ha La]. unfold big128, u128_val. destruct (Z.eqb_spec (hi_ a) 0) as [->|].
  - done.
  - simpl. symmetry. apply Z.geb_le. lia.
Qed.

(** The loops on 128-bit words write the bytes of their value. *)
Lemma encode128Loop_val fuel a :
  u128_wf a → encode128Loop fuel a = encodeLoop fuel (u128_val a).
Proof.
  revert a. induction fuel as [|fuel IH]; intros a Ha; [done|]. cbn [encode128Loop encodeLoop]. rewrite big128_val by done.
  destruct (Z.geb_spec (u128_val a) 128) as [Hbig|Hsmall].
  - destruct (u128_shr_val a 7 Ha) as (r & -> & Hr & Hv); [lia|]. cbn [mbind outcome_bind]. rewrite IH by done.
    rewrite Z.shiftr_div_pow2, Hv by lia. do 3 f_equal.
    rewrite !land_127. unfold u128_val. change (2 ^ 64) with (2 ^ 57 * 128). rewrite Z.mul_assoc, Z.add_comm, Z.mod_add by lia. done.
  - destruct Ha as [Ha La]. unfold u128_val in *. assert (hi_ a = 0) as -> by lia. done.
Qed.

Lemma addBits128 x n d :
  u128_wf x → 0 ≤ n < 128 → 0 ≤ u128_val x < 2 ^ n → 0 ≤ d < 2 ^ 64 → d * 2 ^ n < 2 ^ 128 →
  ∃ s, u128_shl (ofLo d) n = Ok s ∧ u128_wf (u128_or x s) ∧ u128_val (u128_or x s) = u128_val x + d * 2 ^ n.
Proof.
  intros Hx Hn Hv Hd Hs. assert (u128_wf (ofLo d)) as Hw by (unfold u128_wf; simpl; lia).
  destruct (u128_shl_val (ofLo d) n Hw Hn) as (s & -> & Hws & Hvs). exists s. split; [done|].
  destruct (u128_or_val x s Hx Hws) as [Hwo ->]. split; [done|]. rewrite Hvs.
  replace (u128_val (ofLo d)) with d by (unfold u128_val; simpl; lia).
  rewrite Z.mod_small by nia. rewrite Z.lor_comm, <- (Z.shiftl_mul_pow2 d n) at 1 by lia.
  rewrite lor_shift by lia. lia.
Qed.

Lemma decode128Slow_bytes fuel v bytes :
  encodeLoop fuel v = Ok bytes → 0 ≤ v →
  ∀ x n m rest, u128_wf x → 0 ≤ n < 128 → 0 ≤ u128_val x < 2 ^ n → v * 2 ^ n < 2 ^ 128 → Z.of_nat (length bytes) ≤ m →
    ∃ r, decode128Slow x n m (bytes ++ rest) = Ok (r, rest) ∧ u128_wf r ∧ u128_val r = u128_val x + v * 2 ^ n.
Proof.
  revert v bytes. induction fuel as [|fuel IH]; intros v bytes He Hv; [done|]. cbn [encodeLoop] in He.
  destruct (Z.geb_spec v 128) as [Hbig|Hsmall].
  - apply bind_Ok_inv in He as (bytes' & He & [= <-]). intros x n m rest Hx Hn Hxn Hvn Hm.
    cbn [app decode128Slow length] in *. set (c := chr _).
    assert (code c = 128 + v mod 128) as Hc by (apply code_more; lia).
    assert (more c = true) as Hmore. { rewrite more_spec, Hc. apply Z.leb_le. Z.div_mod_to_equations; lia. }
    rewrite Hmore, low_bits, Hmore, Hc. unfold glog_check. destruct (Z.gtb_spec m 1) as [|Hm1].
    2: { destruct bytes'; [|simpl in Hm; lia]. destruct fuel; simpl in He; [done|].
         destruct (_ >=? 128); [|done]. by apply bind_Ok_inv in He as (? & _ & ?). }
    assert (0 < 2 ^ n) as Hpos by (apply Z.pow_pos_nonneg; lia).
    assert (2 ^ (n + 7) = 2 ^ n * 128) as Hpow by (rewrite Z.pow_add_r by lia; done).
    assert (v = v / 128 * 128 + v mod 128 ∧ 0 ≤ v mod 128 < 128 ∧ 1 ≤ v / 128) as (Hdm & Hmod & Hdiv)
      by (Z.div_mod_to_equations; lia).
    destruct (addBits128 x n (128 + v mod 128 - 128)) as (s & -> & Hws & Hvs); [done | lia | lia | lia | nia|].
    cbn [mbind outcome_bind]. rewrite Z.shiftr_div_pow2 in He by lia. change (2 ^ 7) with 128 in He.
    destruct (IH _ _ He ltac:(lia) (u128_or x s) (n + 7) (m - 1) rest) as (r & -> & Hr & Hvr);
      [done | | rewrite Hvs, Hpow; nia | rewrite Hpow; nia | lia|].
    { split; [lia|]. destruct (Z.lt_ge_cases (n + 7) 128) as [|Hge]; [done|].
      apply (Z.pow_le_mono_r 2) in Hge; [|lia]. nia. }
    exists r. split; [done|]. split; [done|]. rewrite Hvr, Hvs, Hpow. nia.
  - injection He as <-. intros x n m rest Hx Hn Hxn Hvn Hm. cbn [app decode128Slow].
    assert (code (chr v) = v) as Hc by (apply code_chr; lia).
    assert (more (chr v) = false) as ->. { rewrite more_spec, Hc. apply Z.leb_gt. lia. }
    rewrite Hc. destruct (addBits128 x n v) as (s & -> & Hws & Hvs); [done | lia | lia | lia | nia|].
    cbn [mbind outcome_bind]. by exists (u128_or x s).
Qed.

Lemma size128Loop_val fuel a s : u128_wf a → size128Loop fuel s a = sizeLoop fuel s (u128_val a).
Proof.
  revert a s. induction fuel as [|fuel IH]; intros a s Ha; [done|]. cbn [size128Loop sizeLoop]. rewrite big128_val by done.
  destruct (_ >=? 128); [|done]. destruct (u128_shr_val a 7 Ha) as (r & -> & Hr & Hv); [lia|].
  destruct (add32 s 1); cbn [mbind outcome_bind]; [|done..]. rewrite IH, Hv, Z.shiftr_div_pow2 by (done || lia). done.
Qed.

(** Varints of 128-bit words round-trip: every word is encoded in [size128]
    bytes, nineteen at most, and decoding the bytes gives the word back and
    leaves what follows them. *)
Theorem varint128_roundtrip a rest :
  u128_wf a →
  ∃ bytes, encode128 a = Ok bytes ∧ size128 a = Ok (Z.of_nat (length bytes)) ∧
    encode128ToByteSink a rest = Ok (rest ++ bytes) ∧ decode128 (bytes ++ rest) = Ok (a, rest).
Proof.
  intros Ha. pose proof (u128_range a Ha) as Hv.
  destruct (encodeLoop_decode kMaxSize128 (u128_val a)) as (bytes & He & Hl & Hs & _); [|unfold kMaxSize128; lia|].
  { split; [lia|]. apply Z.lt_le_trans with (2 ^ 128); [lia|]. by apply Z.pow_le_mono_r. }
  assert (encode128 a = Ok bytes) as He' by (unfold encode128; by rewrite encode128Loop_val).
  exists bytes. split; [done|]. split; [|split].
  - unfold size128. rewrite size128Loop_val, Hs by (done || (unfold_ints; unfold kMaxSize128; lia)). f_equal. lia.
  - unfold encode128ToByteSink, throughBuffer. rewrite He'. cbn [mbind outcome_bind]. unfold writeTo.
    rewrite length_replicate, (proj2 (Nat.leb_le _ _)) by lia. cbn [mbind outcome_bind]. by rewrite take_app_length.
  - unfold decode128, decode128From. rewrite length_app.
    destruct (decode128Slow_bytes _ _ _ He ltac:(lia) (ofLo 0) 0
      (Z.min (Z.of_nat (length bytes + length rest)) (Z.of_nat kMaxSize128)) rest) as (r & -> & Hr & Hvr);
      [by unfold u128_wf | lia | done | lia | lia|].
    do 2 f_equal. apply u128_of_val; [done | done|]. rewrite Hvr, Z.mul_1_r. done.
Qed.

(** A word and a few bits pack into 128 bits and come apart again:
    [unshift] inverts [shift] for every 64-bit word and every value of fewer
    than 64 bits. *)
Theorem unshift_shift a b n :
  0 ≤ a < 2 ^ 64 → 0 ≤ n < 64 → 0 ≤ b < 2 ^ n → (v ← shift a b n; unshift v n) = Ok (a, b).
Proof.
  intros Ha Hn Hb. assert (0 < 2 ^ n) as Hpos by (apply Z.pow_pos_nonneg; lia).
  assert (2 ^ n < 2 ^ 64) as Hlt by (apply Z.pow_lt_mono_r; lia).
  assert (u128_wf (ofLo a)) as Hw by (unfold u128_wf; simpl; lia).
  unfold shift. destruct (u128_shl_val (ofLo a) n Hw) as (s & -> & Hws & Hvs); [lia|]. cbn [mbind outcome_bind].
  destruct (u128_or_val s (ofLo b) Hws) as [Hwo Hvo]; [unfold u128_wf; simpl; lia|].
  assert (u128_val (u128_or s (ofLo b)) = a * 2 ^ n + b) as Hval.
  { rewrite Hvo, Hvs. replace (u128_val (ofLo a)) with a by (unfold u128_val; simpl; lia).
    replace (u128_val (ofLo b)) with b by (unfold u128_val; simpl; lia).
    rewrite Z.mod_small by nia. rewrite <- (Z.shiftl_mul_pow2 a n) at 1 by lia. apply lor_shift; lia. }
  unfold unshift, shl64. destruct (Z.ltb_spec n 64); [|lia]. cbn [mbind outcome_bind].
  destruct (u128_shr_val (u128_or s (ofLo b)) n Hwo) as (r & -> & Hwr & Hvr); [lia|]. cbn [mbind outcome_bind].
  rewrite Hval, Z.div_add_l, (Z.div_small b), Z.add_0_r in Hvr by lia.
  set (v := u128_or s (ofLo b)) in *. destruct Hwo as [Hh Hl]. unfold u128_val in Hval, Hvr. destruct Hwr as [Hrh Hrl].
  f_equal. f_equal; [lia|].
  rewrite Z.shiftl_mul_pow2, Z.mul_1_l by lia. unfold uwrap. rewrite (Z.mod_small (2 ^ n)), (Z.mod_small (2 ^ n - 1)) by lia.
  rewrite mod_mask by lia.
  replace (lo_ v) with (b + (a - hi_ v * 2 ^ (64 - n)) * 2 ^ n).
  - rewrite Z.mod_add by lia. apply Z.mod_small. lia.
  - assert (2 ^ 64 = 2 ^ (64 - n) * 2 ^ n) as Hpq by (rewrite <- Z.pow_add_r by lia; f_equal; lia).
    assert (hi_ v * 2 ^ 64 = hi_ v * 2 ^ (64 - n) * 2 ^ n) by (rewrite Hpq; ring). lia.
Qed.

(** ** Zig-zag *)
Lemma lxor_ones x n : 0 ≤ n → 0 ≤ x < 2 ^ n → Z.lxor x (2 ^ n - 1) = 2 ^ n - 1 - x.
Proof.
  intros Hn Hx. replace (2 ^ n - 1) with (Z.ones n) by (rewrite Z.ones_equiv; lia).
  rewrite (Z.sub_nocarry_ldiff (Z.ones n) x).
  - apply Z.bits_inj'. intros i Hi. rewrite Z.lxor_spec, Z.ldiff_spec. destruct (Z.lt_ge_cases i n).
    + rewrite Z.ones_spec_low by lia. by destruct (Z.testbit x i).
    + rewrite Z.ones_spec_high, (testbit_small x n) by lia. done.
  - apply Z.bits_inj'. intros i Hi. rewrite Z.ldiff_spec, Z.bits_0. destruct (Z.lt_ge_cases i n).
    + rewrite Z.ones_spec_low by lia. by rewrite andb_false_r.
    + by rewrite (testbit_small x n) by lia.
Qed.

Lemma zigzag_value v : is_int64 v → zigzag_encode v = if v <? 0 then -2 * v - 1 else 2 * v.
Proof.
  unfold_ints. intros Hv. unfold zigzag_encode. rewrite !Z.shiftl_mul_pow2, Z.shiftr_div_pow2 by lia.
  change (2 ^ 1) with 2. unfold uwrap. rewrite Z.mul_mod_idemp_l by lia. destruct (Z.ltb_spec v 0) as [Hneg|Hpos].
  - replace (v / 2 ^ 63) with (-1) by (Z.div_mod_to_equations; lia). change ((-1) mod 2 ^ 64) with (2 ^ 64 - 1).
    rewrite lxor_ones; [| lia | apply Z.mod_pos_bound; lia]. Z.div_mod_to_equations; lia.
  - rewrite (Z.div_small v) by lia. rewrite Z.mod_0_l, Z.lxor_0_r by lia. rewrite Z.mod_small by lia. lia.
Qed.

Lemma zigzag_decode_value w u :
  0 < w → 0 ≤ u < 2 ^ w → zigzag_decode w u = if u mod 2 =? 0 then u / 2 else - (u / 2) - 1.
Proof.
  intros Hw Hu. assert (2 ^ w = 2 * 2 ^ (w - 1)) as Hpow by (rewrite <- Z.pow_succ_r by lia; f_equal; lia).
  assert (0 < 2 ^ (w - 1)) by (apply Z.pow_pos_nonneg; lia).
  unfold zigzag_decode. rewrite Z.shiftr_div_pow2 by lia. change 1 with (2 ^ 1 - 1) at 2. rewrite mod_mask by lia.
  change (2 ^ 1) with 2. assert (0 ≤ u / 2 < 2 ^ (w - 1)) as Hd by (Z.div_mod_to_equations; lia).
  destruct (Z.eqb_spec (u mod 2) 0) as [->|Hne].
  - unfold uwrap. rewrite Z.mod_0_l, Z.lxor_0_r by lia. apply swrap_small; lia.
  - replace (u mod 2) with 1 by (Z.div_mod_to_equations; lia). unfold uwrap.
    assert ((-1) mod 2 ^ w = 2 ^ w - 1) as Hm by (symmetry; apply (Z.mod_unique_pos _ _ (-1)); lia).
    change (Z.opp 1) with (-1). rewrite Hm.
    rewrite lxor_ones by lia. unfold swrap.
    replace (2 ^ w - 1 - u / 2 + 2 ^ (w - 1)) with (2 ^ (w - 1) - 1 - u / 2 + 1 * 2 ^ w) by lia.
    rewrite Z.mod_add by lia. rewrite Z.mod_small by lia. lia.
Qed.

(** Zig-zag coding is a bijection between signed and unsigned 64-bit words:
    [decode] inverts [encode] and [encode] inverts [decode]; small absolute
    values have small codes. *)
Theorem zigzag_roundtrip v u :
  is_int64 v → 0 ≤ u < 2 ^ 64 →
  zigzag_decode 64 (zigzag_encode v) = v ∧ zigzag_encode (zigzag_decode 64 u) = u ∧
  0 ≤ zigzag_encode v ≤ 2 * Z.abs v.
Proof.
  intros Hv Hu. assert (0 ≤ zigzag_encode v ≤ 2 * Z.abs v) as Hr.
  { rewrite zigzag_value by done. destruct (Z.ltb_spec v 0); lia. }
  split; [|split; [|done]].
  - rewrite zigzag_decode_value by (unfold_ints; rewrite ?zigzag_value by (unfold_ints; lia); try lia; destruct (Z.ltb_spec v 0); lia).
    rewrite zigzag_value by done. destruct (Z.ltb_spec v 0);
      match goal with |- context [?a mod 2 =? 0] => destruct (Z.eqb_spec (a mod 2) 0) end; Z.div_mod_to_equations; lia.
  - rewrite zigzag_decode_value by lia. rewrite zigzag_value.
    + destruct (Z.eqb_spec (u mod 2) 0); match goal with |- context [?a <? 0] => destruct (Z.ltb_spec a 0) end;
        Z.div_mod_to_equations; lia.
    + unfold_ints. destruct (Z.eqb_spec (u mod 2) 0); Z.div_mod_to_equations; lia.
Qed.

(** The comment in the code gives another code for negative numbers. *)
Theorem zigzag_comment v : is_int64 v → v < 0 → zigzag_encode v ≠ -2 * v + 1.
Proof. intros Hv Hn. rewrite zigzag_value by done. destruct (Z.ltb_spec v 0); lia. Qed.

(** ** Concrete words *)
Lemma varint_roundtrip_witness :
  0 ≤ 300 < 2 ^ 64 ∧ encode 300 = Ok [chr 172; chr 2] ∧ decode [chr 172; chr 2; chr 7] = Ok (300, [chr 7]).
Proof.
  assert (0 ≤ 300 < 2 ^ 64) as Hv by lia. destruct (varint_roundtrip 300 [chr 7] Hv) as (bytes & He & _ & _ & _ & Hd).
  split; [exact Hv|]. vm_compute in He. injection He as <-. split; [reflexivity | exact Hd].
Defined.

Lemma varint128_roundtrip_witness :
  u128_wf (mkUInt128 1 5) ∧ ∃ bytes, encode128 (mkUInt128 1 5) = Ok bytes ∧ decode128 bytes = Ok (mkUInt128 1 5, []).
Proof.
  assert (u128_wf (mkUInt128 1 5)) as Hw by (unfold u128_wf; simpl; lia).
  destruct (varint128_roundtrip (mkUInt128 1 5) [] Hw) as (bytes & He & _ & _ & Hd).
  split; [exact Hw|]. exists bytes. split; [exact He|]. rewrite app_nil_r in Hd. exact Hd.
Defined.

Lemma canDecode_exact_witness :
  [chr 172] ≠ [] ∧ decode [chr 172] = Throw (FatalLog "CHECK").
Proof.
  assert ([chr 172] ≠ []) as Hne by discriminate. split; [exact Hne|].
  exact (canDecode_exact [chr 172] Hne).
Defined.

Lemma decodeFromByteSource_chunks_witness :
  sameRead (decode (concat [[chr 172]; [chr 2; chr 7]; replicate 8 (chr 0)]))
    (decodeFromByteSource [[chr 172]; [chr 2; chr 7]; replicate 8 (chr 0)]).
Proof.
  apply decodeFromByteSource_chunks; [repeat constructor; discriminate | vm_compute; lia].
Defined.

Lemma zigzag_roundtrip_witness : zigzag_encode (-3) = 5 ∧ zigzag_decode 64 (zigzag_encode (-3)) = -3.
Proof.
  split; [reflexivity|]. apply (zigzag_roundtrip (-3) 5); [unfold_ints; lia | lia].
Defined.
