(* ===== verification/Digits.v ===== *)
(** * Decimal digits

    What the functions that print and read decimal numbers share: characters
    that are digits, the loop that writes the digits of a number from the
    last to the first, and the value of a string of digits. *)
From Stdlib Require Import Ascii String.
From S2P Require Import Prelude Text Bits.
Local Open Scope Z_scope.
Local Open Scope list_scope.

(** [c >= '0' && c <= '9'], for a [char] that is not negative. *)
Definition digitb (c : ascii) : bool := (48 <=? code c) && (code c <=? 57).
Definition isDigit (c : ascii) : Prop := digitb c = true.

(** [c - '0'] and ['0' + d]. *)
Definition digitVal (c : ascii) : Z := code c - 48.
Definition digitChar (d : Z) : ascii := chr (48 + d).

#[global] Instance isDigit_dec c : Decision (isDigit c).
Proof. unfold isDigit. apply _. Defined.

Lemma digitVal_range c : isDigit c → 0 ≤ digitVal c ≤ 9.
Proof. unfold isDigit, digitb, digitVal. lia. Qed.

Lemma digitVal_char d : 0 ≤ d ≤ 9 → digitVal (digitChar d) = d.
Proof. intros Hd. unfold digitVal, digitChar. rewrite code_chr by lia. lia. Qed.

Lemma isDigit_char d : 0 ≤ d ≤ 9 → isDigit (digitChar d).
Proof. intros Hd. unfold isDigit, digitb, digitChar. rewrite code_chr; lia. Qed.

#[export] Hint Resolve isDigit_char digitVal_range : cactus.

(** A digit is no other character. *)
Lemma digit_not c d : isDigit c → digitb d = false → is_char c d = false.
Proof. intros Hc Hd. apply bool_decide_eq_false. intros ->. unfold isDigit in Hc. congruence. Qed.

(** A sign in front of digits. *)
Inductive sign := NoSign | Plus | Minus.
Definition signText (s : sign) : text :=
  match s with NoSign => [] | Plus => ["+"%char] | Minus => ["-"%char] end.
Definition negativeSign (s : sign) : bool := match s with Minus => true | _ => false end.

(** The value of digits read from the left, after those that gave [acc]. *)
Definition valueFrom (acc : Z) (ds : text) : Z := foldl (λ a c, a * 10 + digitVal c) acc ds.
Abbreviation value := (valueFrom 0).

Lemma valueFrom_app acc ds es : valueFrom acc (ds ++ es) = valueFrom (valueFrom acc ds) es.
Proof. apply foldl_app. Qed.

Lemma valueFrom_ge acc ds : 0 ≤ acc → Forall isDigit ds → acc ≤ valueFrom acc ds.
Proof.
  intros Hacc Hds. revert acc Hacc. induction Hds as [|c ds Hc _ IH]; intros acc Hacc; [done|].
  simpl. pose proof (digitVal_range c Hc). etrans; [|apply IH]; lia.
Qed.

Lemma valueFrom_scale acc ds :
  valueFrom acc ds = acc * 10 ^ Z.of_nat (length ds) + value ds.
Proof.
  revert acc. induction ds as [|c ds IH]; intros acc; [simpl; lia|].
  simpl valueFrom. rewrite (IH (acc * 10 + _)), (IH (0 * 10 + _)). simpl length.
  rewrite Nat2Z.inj_succ, Z.pow_succ_r by lia. nia.
Qed.

Lemma value_range ds : Forall isDigit ds → 0 ≤ value ds < 10 ^ Z.of_nat (length ds).
Proof.
  induction 1 as [|c ds Hc _ IH]; [simpl; lia|]. simpl valueFrom. rewrite valueFrom_scale.
  simpl length. rewrite Nat2Z.inj_succ, Z.pow_succ_r by lia.
  pose proof (digitVal_range c Hc). nia.
Qed.

Lemma value_zeros n : value (replicate n "0"%char) = 0.
Proof. induction n as [|n IH]; [done|]. simpl. exact IH. Qed.

Lemma zeros_digits n : Forall isDigit (replicate n "0"%char).
Proof. by apply Forall_replicate. Qed.

(** The loop
    [while (n > 0) { out += '0' + n % 10; n /= 10; }].  Digits are appended
    from the last to the first; [fuel] bounds their number. *)
Fixpoint digitsLoop (fuel : nat) (n : Z) (out : text) : outcome text :=
  if n <=? 0 then Ok out else
  match fuel with
  | O => Throw OutOfFuel
  | S fuel => digitsLoop fuel (Z.quot n 10) (out ++ [digitChar (Z.rem n 10)])
  end.

(** What it appends. *)
Fixpoint lastDigits (fuel : nat) (n : Z) : text :=
  match fuel with
  | O => []
  | S fuel => if n <=? 0 then [] else digitChar (Z.rem n 10) :: lastDigits fuel (Z.quot n 10)
  end.

Lemma lastDigits_cons fuel n :
  0 < n → lastDigits (S fuel) n = digitChar (Z.rem n 10) :: lastDigits fuel (Z.quot n 10).
Proof. intros Hn. simpl. by rewrite (proj2 (Z.leb_gt _ _)) by lia. Qed.

Lemma quot10_lt n k : 0 < n → n < 10 ^ Z.of_nat (S k) → Z.quot n 10 < 10 ^ Z.of_nat k.
Proof.
  intros Hn Hk. rewrite Nat2Z.inj_succ, Z.pow_succ_r in Hk by lia.
  rewrite Z.quot_div_nonneg by lia. apply Z.div_lt_upper_bound; lia.
Qed.

Lemma digitsLoop_spec fuel n out :
  n < 10 ^ Z.of_nat fuel → digitsLoop fuel n out = Ok (out ++ lastDigits fuel n).
Proof.
  revert n out. induction fuel as [|fuel IH]; intros n out Hn; simpl.
  - simpl in Hn. rewrite (proj2 (Z.leb_le _ _)) by lia. by rewrite app_nil_r.
  - destruct (Z.leb_spec n 0); [by rewrite app_nil_r|].
    rewrite IH by (by apply quot10_lt). by rewrite <- app_assoc.
Qed.

Lemma lastDigits_digits fuel n : Forall isDigit (lastDigits fuel n).
Proof.
  revert n. induction fuel as [|fuel IH]; intros n; simpl; [constructor|].
  destruct (Z.leb_spec n 0); [constructor|]. constructor; [|apply IH].
  apply isDigit_char. rewrite Z.rem_mod_nonneg by lia.
  pose proof (Z.mod_pos_bound n 10). lia.
Qed.

Lemma lastDigits_value fuel n :
  0 ≤ n < 10 ^ Z.of_nat fuel → value (rev (lastDigits fuel n)) = n.
Proof.
  revert n. induction fuel as [|fuel IH]; intros n Hn; simpl lastDigits; [simpl in Hn; simpl; lia|].
  destruct (Z.leb_spec n 0); [simpl; lia|]. simpl rev. rewrite valueFrom_app, IH.
  - simpl. rewrite Z.rem_mod_nonneg, Z.quot_div_nonneg by lia. pose proof (Z.mod_pos_bound n 10).
    rewrite digitVal_char by lia. pose proof (Z.div_mod n 10). lia.
  - split; [rewrite Z.quot_div_nonneg by lia; apply Z.div_pos; lia | apply quot10_lt; lia].
Qed.

Lemma lastDigits_length fuel n k :
  n < 10 ^ Z.of_nat k → (length (lastDigits fuel n) ≤ k)%nat.
Proof.
  revert n k. induction fuel as [|fuel IH]; intros n k Hn; simpl; [lia|].
  destruct (Z.leb_spec n 0); simpl; [lia|]. destruct k as [|k]; [simpl in Hn; lia|].
  apply le_n_S, IH, quot10_lt; lia.
Qed.

Lemma lastDigits_nonempty fuel n : 0 < n → (0 < fuel)%nat → lastDigits fuel n ≠ [].
Proof. intros Hn Hf. destruct fuel; [lia|]. simpl. by rewrite (proj2 (Z.leb_gt _ _)) by lia. Qed.

(** The first digits of a number are its value without the last ones. *)
Lemma value_take k ds :
  Forall isDigit ds → (k ≤ length ds)%nat → value (take k ds) = value ds / 10 ^ Z.of_nat (length ds - k).
Proof.
  intros Hds Hk. rewrite <- (take_drop k ds) at 2. rewrite valueFrom_app.
  rewrite (valueFrom_scale (value (take k ds)) (drop k ds)), length_drop.
  pose proof (value_range (drop k ds) (Forall_drop _ k ds Hds)) as Hr. rewrite length_drop in Hr.
  rewrite Z.div_add_l by lia. rewrite Z.div_small by done. lia.
Qed.

Lemma rev_zeros n : rev (replicate n "0"%char) = replicate n "0"%char.
Proof. induction n as [|n IH]; [done|]. simpl. rewrite IH. symmetry. apply replicate_cons_app. Qed.

(** Leading zeros do not count. *)
Lemma value_rev_zeros ds n : value (rev (ds ++ replicate n "0"%char)) = value (rev ds).
Proof.
  rewrite rev_app_distr, valueFrom_app, rev_zeros. by rewrite value_zeros.
Qed.

#[global] Arguments lastDigits : simpl never.
