(* ===== verification/HugeInt.v ===== *)
(** * 128-bit integers

    Models [velox/type/HugeInt.h] and [HugeInt.cpp]: an [int128_t] in two
    halves, in memory, and as a decimal string. *)
From Stdlib Require Import Ascii String.
From S2P Require Import Prelude Text Bits Digits.
Local Open Scope Z_scope.
Local Open Scope list_scope.

Definition int128_min : Z := -170141183460469231731687303715884105728.
Definition int128_max : Z := 170141183460469231731687303715884105727.
Definition is_int128 (z : Z) : Prop := int128_min ≤ z ≤ int128_max.

(** Signed 128-bit arithmetic: overflow is undefined. *)
Definition checked128 (z : Z) : outcome Z :=
  if (int128_min <=? z) && (z <=? int128_max) then Ok z else Undefined.

(** ** The two halves *)
Definition build (hi lo : Z) : Z := swrap 128 (Z.lor (uwrap 128 (Z.shiftl hi 64)) lo).
Definition lower (value : Z) : Z := uwrap 64 value.
Definition upper (value : Z) : Z := uwrap 64 (Z.shiftr value 64).

(** ** The bytes in memory, least significant first *)

(** [memcpy] from the object: its 16 bytes. *)
Definition serialize (value : Z) : list Z := map (λ i, uwrap 8 (Z.shiftr value (8 * i))) (seqZ 0 16).

(** [memcpy] into the object, from 16 bytes or more. *)
Definition deserialize (bytes : list Z) : outcome Z :=
  if (length bytes <? 16)%nat then Undefined
  else Ok (swrap 128 (foldr (λ b acc, b + 256 * acc) 0 (take 16 bytes))).

(** ** Decimal strings *)

(** [std::isdigit] of a [char]: a negative argument other than [EOF] is
    undefined. *)
Definition isdigit (c : ascii) : outcome bool :=
  if (128 <=? code c) && (code c <? 255) then Undefined else Ok (digitb c).

(** The [for] over the characters after the sign, with its early returns. *)
Fixpoint parseDigits (negative : bool) (result : Z) (s : text) : outcome Z :=
  match s with
  | [] => checked128 (if negative then - result else result)
  | c :: s =>
      d ← isdigit c;
      _ ← velox_check d;
      let cur := digitVal c in
      if Z.quot int128_max 10 <? result then Throw VeloxFail else
      let num := cur - Z.rem int128_max 10 in
      let next := (r ← checked128 (result * 10 + cur); parseDigits negative r s) in
      if result =? Z.quot int128_max 10 then
        if negative then
          if 1 <? num then Throw VeloxFail else if num =? 1 then Ok int128_min else next
        else
          if 0 <? num then Throw VeloxFail else if num =? 0 then Ok int128_max else next
      else next
  end.

Fixpoint skipBlanks (s : text) : text :=
  match s with
  | c :: s' => if is_char c " "%char then skipBlanks s' else s
  | [] => []
  end.

Definition parse (str : text) : outcome Z :=
  _ ← velox_check (negb (bool_decide (str = [])));
  match skipBlanks str with
  | c :: s =>
      if is_char c "+"%char then parseDigits false 0 s
      else if is_char c "-"%char then parseDigits true 0 s
      else parseDigits false 0 (c :: s)
  | [] => parseDigits false 0 []
  end.

(** [while (x != 0) { ans += '0' + abs(static_cast<int>(x % 10)); x /= 10; }],
    for the at most 39 digits of an [int128_t]. *)
Fixpoint to_string_loop (fuel : nat) (x : Z) (ans : text) : outcome text :=
  if x =? 0 then Ok ans else
  match fuel with
  | O => Throw OutOfFuel
  | S fuel => to_string_loop fuel (Z.quot x 10) (ans ++ [digitChar (Z.abs (Z.rem x 10))])
  end.

Definition to_string (x : Z) : outcome text :=
  if x =? 0 then Ok ["0"%char] else
  let negative := x <? 0 in
  ans ← to_string_loop 39 x [];
  let ans := if negative then ans ++ ["-"%char] else ans in
  Ok (rev ans).

(** ** What the functions compute *)
Lemma swrap_mod w z : 0 < w → swrap w (z mod 2 ^ w) = swrap w z.
Proof.
  intros Hw. unfold swrap. f_equal. rewrite Z.add_mod_idemp_l; [done|].
  assert (0 < 2 ^ w) by (apply Z.pow_pos_nonneg; lia). lia.
Qed.

Lemma swrap_128 z : is_int128 z → swrap 128 z = z.
Proof. intros Hz. apply swrap_small; unfold is_int128, int128_min, int128_max in Hz; lia. Qed.

Lemma build_sum hi lo : 0 ≤ lo < 2 ^ 64 → build hi lo = swrap 128 (hi * 2 ^ 64 + lo).
Proof.
  intros Hlo. unfold build, uwrap. rewrite Z.shiftl_mul_pow2 by lia.
  rewrite (lor_add _ lo 64); [| lia | done |].
  - rewrite <- (swrap_mod 128 (hi * 2 ^ 64 + lo)), <- Z.add_mod_idemp_l by lia.
    by rewrite swrap_mod by lia.
  - change (2 ^ 128) with (2 ^ 64 * 2 ^ 64). rewrite Z.mul_mod_distr_r by lia. by rewrite Z.mod_mul by lia.
Qed.

(** An integer is rebuilt from its halves. *)
Lemma build_halves v : is_int128 v → build (upper v) (lower v) = v.
Proof.
  intros Hv. unfold upper, lower, uwrap. rewrite build_sum by (apply Z.mod_pos_bound; lia).
  rewrite Z.shiftr_div_pow2 by lia. rewrite <- swrap_mod by lia.
  replace (((v / 2 ^ 64) mod 2 ^ 64 * 2 ^ 64 + v mod 2 ^ 64) mod 2 ^ 128) with (v mod 2 ^ 128).
  - rewrite swrap_mod by lia. by apply swrap_128.
  - change (2 ^ 128) with (2 ^ 64 * 2 ^ 64). rewrite Z.rem_mul_r by lia.
    rewrite (Z.mod_small (_ * 2 ^ 64 + _)); [lia|].
    pose proof (Z.mod_pos_bound v (2 ^ 64)). pose proof (Z.mod_pos_bound (v / 2 ^ 64) (2 ^ 64)). nia.
Qed.

(** The halves of what was built are the arguments. *)
Lemma halves_build hi lo :
  0 ≤ hi < 2 ^ 64 → 0 ≤ lo < 2 ^ 64 → upper (build hi lo) = hi ∧ lower (build hi lo) = lo.
Proof.
  intros Hhi Hlo. rewrite build_sum by done. unfold upper, lower, uwrap, swrap.
  rewrite Z.shiftr_div_pow2 by lia.
  pose proof (Z.div_mod (hi * 2 ^ 64 + lo + 2 ^ 127) (2 ^ 128)) as Hd.
  change (128 - 1) with 127. change (2 ^ 128) with (2 ^ 64 * 2 ^ 64) in *.
  set (q := (hi * 2 ^ 64 + lo + 2 ^ 127) / (2 ^ 64 * 2 ^ 64)) in *.
  replace ((hi * 2 ^ 64 + lo + 2 ^ 127) mod (2 ^ 64 * 2 ^ 64) - 2 ^ 127)
    with (lo + (hi - q * 2 ^ 64) * 2 ^ 64) by lia.
  rewrite Z.div_add, Z.mod_add, (Z.div_small lo), (Z.mod_small lo) by lia. split; [|done].
  replace (0 + (hi - q * 2 ^ 64)) with (hi + (- q) * 2 ^ 64) by lia.
  rewrite Z.mod_add by lia. by apply Z.mod_small.
Qed.

(** The bytes [i], [i + 1], ... of a number, put together. *)
Lemma bytes_value v n i :
  0 ≤ i → foldr (λ b acc, b + 256 * acc) 0 (map (λ i, uwrap 8 (Z.shiftr v (8 * i))) (seqZ i (Z.of_nat n)))
  = Z.shiftr v (8 * i) mod 2 ^ (8 * Z.of_nat n).
Proof.
  revert i. induction n as [|n IH]; intros i Hi; [by rewrite Z.mod_1_r|].
  rewrite Nat2Z.inj_succ, seqZ_cons, Z.pred_succ by lia. simpl map. simpl foldr. rewrite IH by lia.
  unfold uwrap. rewrite !Z.shiftr_div_pow2 by lia.
  replace (8 * Z.succ i) with (8 * i + 8) by lia. replace (8 * Z.succ (Z.of_nat n)) with (8 + 8 * Z.of_nat n) by lia.
  rewrite !Z.pow_add_r by lia. rewrite <- Z.div_div by lia.
  rewrite Z.rem_mul_r; [done | lia |]. apply Z.pow_pos_nonneg; lia.
Qed.

Lemma serialize_length v : length (serialize v) = 16%nat.
Proof. done. Qed.

(** What was copied into memory is read back. *)
Lemma deserialize_serialize v rest : is_int128 v → deserialize (serialize v ++ rest) = Ok v.
Proof.
  intros Hv. unfold deserialize. rewrite length_app, serialize_length. simpl Nat.ltb.
  rewrite take_app_length' by done. unfold serialize. change 16 with (Z.of_nat 16). rewrite bytes_value by lia.
  rewrite Z.shiftr_0_r. change (8 * Z.of_nat 16) with 128. rewrite swrap_mod by lia. by rewrite swrap_128.
Qed.

(** ** Reading a decimal string *)

(** On the range of the accumulator before a digit. *)
Lemma max_quot_rem : int128_max = 10 * Z.quot int128_max 10 + Z.rem int128_max 10.
Proof. reflexivity. Qed.

Lemma isdigit_digit c : isDigit c → isdigit c = Ok true.
Proof.
  intros Hc. unfold isdigit. rewrite Hc. unfold isDigit, digitb in Hc.
  destruct (Z.leb_spec 128 (code c)); [lia | done].
Qed.

Lemma checked128_Ok z : is_int128 z → checked128 z = Ok z.
Proof.
  intros [H1 H2]. unfold checked128.
  by rewrite (proj2 (Z.leb_le _ _) H1), (proj2 (Z.leb_le _ _) H2).
Qed.

(** The greatest magnitude with this sign. *)
Definition magnitude (negative : bool) : Z := if negative then - int128_min else int128_max.

Definition signed (negative : bool) (v : Z) : Z := if negative then - v else v.

Ltac unfold_huge := unfold magnitude, is_int128, int128_min, int128_max in *.

Lemma signed_int128 negative v : 0 ≤ v ≤ magnitude negative → is_int128 (signed negative v).
Proof. unfold signed. unfold_huge. destruct negative; lia. Qed.

(** One digit: it fails when the number has become too large, returns at
    once when it is the extreme one, and goes on otherwise. *)
Lemma parseDigits_step negative result c s :
  0 ≤ result → isDigit c →
  parseDigits negative result (c :: s) =
    let v := result * 10 + digitVal c in
    if magnitude negative <? v then Throw VeloxFail
    else if v =? magnitude negative then Ok (signed negative v)
    else parseDigits negative v s.
Proof.
  intros Hr Hc. pose proof (digitVal_range c Hc) as Hd. simpl parseDigits.
  rewrite (isdigit_digit c Hc). simpl velox_check. cbv zeta. simpl mbind.
  change (Z.quot int128_max 10) with 17014118346046923173168730371588410572.
  change (Z.rem int128_max 10) with 7.
  remember (result * 10 + digitVal c) as v eqn:Ev.
  assert (v ≤ int128_max → checked128 v = Ok v) as Hok by (intros; apply checked128_Ok; unfold_huge; lia).
  destruct (Z.ltb_spec 17014118346046923173168730371588410572 result);
    [rewrite (proj2 (Z.ltb_lt _ _)) by (unfold_huge; destruct negative; lia); done|].
  destruct (Z.eqb_spec result 17014118346046923173168730371588410572), negative; unfold signed; unfold_huge;
    repeat case_match; try lia; try done; try (rewrite Hok by lia; done); f_equal; lia.
Qed.

(** Digits whose value fits: the value, with the sign. *)
Lemma parseDigits_fits negative result ds :
  0 ≤ result → Forall isDigit ds → valueFrom result ds ≤ magnitude negative →
  parseDigits negative result ds = Ok (signed negative (valueFrom result ds)).
Proof.
  intros Hr Hds. revert result Hr. induction Hds as [|c ds Hc Hds IH]; intros result Hr Hv.
  - simpl in *. by apply checked128_Ok, signed_int128.
  - rewrite parseDigits_step by done. simpl in *. pose proof (digitVal_range c Hc).
    pose proof (valueFrom_ge (result * 10 + digitVal c) ds ltac:(lia) Hds).
    rewrite (proj2 (Z.ltb_ge _ _)) by lia.
    destruct (Z.eqb_spec (result * 10 + digitVal c) (magnitude negative)) as [E|];
      [rewrite E in *; do 2 f_equal; lia | apply IH; lia].
Qed.

(** Digits that go past the range without meeting its end on the way: an
    error. *)
Lemma parseDigits_large negative result ds :
  0 ≤ result ≤ magnitude negative → Forall isDigit ds → magnitude negative < valueFrom result ds →
  (∀ k, (0 < k)%nat → valueFrom result (take k ds) ≠ magnitude negative) →
  parseDigits negative result ds = Throw VeloxFail.
Proof.
  intros Hr Hds. revert result Hr. induction Hds as [|c ds Hc Hds IH]; intros result Hr Hv Hk; [simpl in *; lia|].
  rewrite parseDigits_step by (done || lia). cbv zeta. simpl in Hv. pose proof (digitVal_range c Hc).
  pose proof (Hk 1%nat ltac:(lia)) as H1. simpl in H1.
  destruct (Z.ltb_spec (magnitude negative) (result * 10 + digitVal c)); [done|].
  rewrite (proj2 (Z.eqb_neq _ _)) by done. apply IH; [lia | done|].
  intros k ?. apply (Hk (S k)). lia.
Qed.

(** Past the range, reading never returns anything but the end of the range. *)
Lemma parseDigits_beyond negative result ds v :
  0 ≤ result ≤ magnitude negative → Forall isDigit ds → magnitude negative < valueFrom result ds →
  parseDigits negative result ds = Ok v → v = signed negative (magnitude negative).
Proof.
  intros Hr Hds. revert result Hr. induction Hds as [|c ds Hc Hds IH]; intros result Hr Hv; [simpl in *; lia|].
  rewrite parseDigits_step by (done || lia). cbv zeta. simpl in Hv. pose proof (digitVal_range c Hc).
  destruct (Z.ltb_spec (magnitude negative) (result * 10 + digitVal c)); [done|].
  destruct (Z.eqb_spec (result * 10 + digitVal c) (magnitude negative)) as [->|]; [by intros [= <-]|].
  apply IH; [lia | done].
Qed.

(** ** Writing one *)
Lemma to_string_loop_digits fuel x ans : to_string_loop fuel x ans = digitsLoop fuel (Z.abs x) ans.
Proof.
  revert x ans. induction fuel as [|fuel IH]; intros x ans; simpl.
  - destruct (Z.eqb_spec x 0), (Z.leb_spec (Z.abs x) 0); [done | lia.. | done].
  - destruct (Z.eqb_spec x 0), (Z.leb_spec (Z.abs x) 0); [done | lia.. |].
    rewrite IH, <- Z.rem_abs_l by lia. by rewrite <- (Z.quot_abs x 10) by lia.
Qed.

Lemma to_string_spec x :
  is_int128 x →
  to_string x = Ok (if x =? 0 then ["0"%char]
                    else (if x <? 0 then ["-"%char] else []) ++ rev (lastDigits 39 (Z.abs x))).
Proof.
  intros Hx. unfold to_string. destruct (Z.eqb_spec x 0) as [|Hn]; [done|].
  rewrite to_string_loop_digits, digitsLoop_spec by (unfold_huge; lia). simpl.
  destruct (x <? 0); [by rewrite rev_app_distr | done].
Qed.

Lemma skipBlanks_blanks n s : skipBlanks (replicate n " "%char ++ s) = skipBlanks s.
Proof. induction n as [|n IH]; [done|]. simpl. exact IH. Qed.

(** Blanks, a sign and digits are read as the digits with the sign. *)
Lemma parse_prefix n sg ds :
  ds ≠ [] → Forall isDigit ds →
  parse (replicate n " "%char ++ signText sg ++ ds) = parseDigits (negativeSign sg) 0 ds.
Proof.
  intros Hne Hds. destruct ds as [|c ds]; [done|]. inversion_clear Hds as [|? ? Hc _].
  unfold parse. rewrite bool_decide_eq_false_2 by (destruct n, sg; done). simpl mbind.
  rewrite skipBlanks_blanks. destruct sg; simpl.
  - rewrite !(digit_not c) by done. done.
  - done.
  - done.
Qed.

(** Every 128-bit integer survives being written as a decimal string by
    [std::to_string] and read back by [HugeInt::parse]; neither call fails,
    overflows or runs past its loop. *)
Theorem hugeint_text_roundtrip (x : Z) :
  is_int128 x → ∃ s, to_string x = Ok s ∧ parse s = Ok x.
Proof.
  intros Hx. eexists. split; [by apply to_string_spec|]. destruct (Z.eqb_spec x 0) as [->|Hn]; [done|].
  set (ds := rev (lastDigits 39 (Z.abs x))).
  assert (value ds = Z.abs x) as Hv by (apply lastDigits_value; unfold_huge; lia).
  assert (Forall isDigit ds) as Hds by (apply Forall_rev, lastDigits_digits).
  assert (ds ≠ []) as Hne.
  { intros E. rewrite E in Hv. simpl in Hv. lia. }
  pose proof (parse_prefix 0 (if x <? 0 then Minus else NoSign) ds Hne Hds) as Hp.
  destruct (Z.ltb_spec x 0); simpl in *; rewrite Hp, parseDigits_fits; try done;
    rewrite ?Hv; unfold signed; unfold_huge; try lia; f_equal; lia.
Qed.

(** A decimal string in the range is read exactly; one out of the range whose
    digits do not start with the end of the range is an error. *)
Theorem parse_decimal n sg ds :
  ds ≠ [] → Forall isDigit ds →
  let m := magnitude (negativeSign sg) in
  (value ds ≤ m → parse (replicate n " "%char ++ signText sg ++ ds) = Ok (signed (negativeSign sg) (value ds))) ∧
  (m < value ds → (∀ k, (0 < k)%nat → value (take k ds) ≠ m) →
   parse (replicate n " "%char ++ signText sg ++ ds) = Throw VeloxFail).
Proof.
  intros Hne Hds m. rewrite parse_prefix by done. split.
  - by apply parseDigits_fits.
  - apply parseDigits_large; [|done]. unfold_huge. destruct (negativeSign sg); lia.
Qed.

(** [parse] returns as soon as it has read the end of the range, and does not
    look at what follows: a string that is not a number, and a number ten
    times too large, are read as the greatest integer. *)
Theorem parse_ignores_rest :
  parse (txt "170141183460469231731687303715884105727abc") = Ok int128_max ∧
  parse (txt "1701411834604692317316873037158841057270") = Ok int128_max ∧
  parse (txt "1701411834604692317316873037158841057280") = Throw VeloxFail.
Proof. vm_compute. done. Qed.

(** Blanks or a sign without digits are read as zero. *)
Theorem parse_no_digits : parse (txt "  ") = Ok 0 ∧ parse (txt "-") = Ok 0 ∧ parse [] = Throw VeloxCheckFailed.
Proof. vm_compute. done. Qed.
