(* ===== verification/Timestamp.v ===== *)
(** * Timestamps

    Models [struct Timestamp] of [velox/type/Timestamp.h] and the conversions
    of [Timestamp.cpp] that do not print: seconds since the epoch and
    nanoseconds within the second, in and out of milliseconds, microseconds
    and nanoseconds, their order, successor and predecessor, and fixed time
    zone offsets.  The range checks of the constructor are compiled in debug
    builds only; [wellFormed] is what they check. *)
From S2P Require Import Prelude.
Local Open Scope Z_scope.

Definition kMillisecondsInSecond : Z := 1000.
Definition kNanosecondsInMillisecond : Z := 1000000.
Definition kMaxSeconds : Z := Z.quot int64_max kMillisecondsInSecond.
Definition kMinSeconds : Z := Z.quot int64_min kMillisecondsInSecond - 1.
Definition kMaxNanos : Z := 999999999.

(** [seconds_] is an [int64_t], [nanos_] a [uint64_t]. *)
Record Timestamp := mkTimestamp { seconds_ : Z; nanos_ : Z }.
#[global] Instance Timestamp_eq_dec : EqDecision Timestamp.
Proof. solve_decision. Defined.

(** The checks of the constructor. *)
Definition wellFormed (t : Timestamp) : Prop :=
  kMinSeconds ≤ seconds_ t ≤ kMaxSeconds ∧ 0 ≤ nanos_ t ≤ kMaxNanos.
#[global] Instance wellFormed_dec t : Decision (wellFormed t).
Proof. apply _. Defined.

(** ** Out of a timestamp *)

(** [checkedPlus] and [checkedMultiply] throw when the result does not fit;
    the callers turn that into a user error. *)
Definition user64 (z : Z) : outcome Z := if int64b z then Ok z else Throw VeloxUserError.

Definition toNanos (t : Timestamp) : outcome Z :=
  p ← user64 (seconds_ t * 1000000000); user64 (p + swrap 64 (nanos_ t)).

(** The sum is computed in 128 bits. *)
Definition toMillis (t : Timestamp) : outcome Z :=
  let result := seconds_ t * 1000 + swrap 64 (Z.quot (nanos_ t) 1000000) in
  if (result <? int64_min) || (int64_max <? result) then Throw VeloxUserError else Ok result.

Definition toMicros (t : Timestamp) : outcome Z :=
  p ← user64 (seconds_ t * 1000000); user64 (p + swrap 64 (Z.quot (nanos_ t) 1000)).

(** ** Into a timestamp *)

(** The three conversions have one shape: [unit] of them make a second, each
    is [nanosPer] nanoseconds.  The remainder is computed in 64 bits, where
    [second * unit] can overflow. *)
Definition fromUnits (unit nanosPer x : Z) : outcome Timestamp :=
  if (0 <=? x) || (Z.rem x unit =? 0)
  then Ok (mkTimestamp (Z.quot x unit) (uwrap 64 (Z.rem x unit * nanosPer)))
  else
    let second := Z.quot x unit - 1 in
    p ← checked64 (second * unit);
    d ← sub64 x p;
    Ok (mkTimestamp second (uwrap 64 (Z.rem d unit * nanosPer))).

Definition fromMillis (millis : Z) : outcome Timestamp := fromUnits 1000 1000000 millis.
Definition fromMillisNoError (millis : Z) : outcome Timestamp := fromUnits 1000 1000000 millis.
Definition fromMicros (micros : Z) : outcome Timestamp := fromUnits 1000000 1000 micros.
Definition fromNanos (nanos : Z) : outcome Timestamp := fromUnits 1000000000 1 nanos.

Definition minMillis : Timestamp :=
  mkTimestamp kMinSeconds ((Z.rem int64_min kMillisecondsInSecond + kMillisecondsInSecond) * kNanosecondsInMillisecond).
Definition maxMillis : Timestamp :=
  mkTimestamp kMaxSeconds (Z.rem int64_max kMillisecondsInSecond * kNanosecondsInMillisecond).
Definition minTimestamp : Timestamp := mkTimestamp kMinSeconds 0.
Definition maxTimestamp : Timestamp := mkTimestamp kMaxSeconds kMaxNanos.

(** ** Order *)
Definition ts_eq (a b : Timestamp) : bool := (seconds_ a =? seconds_ b) && (nanos_ a =? nanos_ b).
Definition ts_ne (a b : Timestamp) : bool := negb (seconds_ a =? seconds_ b) || negb (nanos_ a =? nanos_ b).
Definition ts_lt (a b : Timestamp) : bool :=
  (seconds_ a <? seconds_ b) || ((seconds_ a =? seconds_ b) && (nanos_ a <? nanos_ b)).
Definition ts_le (a b : Timestamp) : bool :=
  (seconds_ a <? seconds_ b) || ((seconds_ a =? seconds_ b) && (nanos_ a <=? nanos_ b)).
Definition ts_gt (a b : Timestamp) : bool :=
  (seconds_ b <? seconds_ a) || ((seconds_ a =? seconds_ b) && (nanos_ b <? nanos_ a)).
Definition ts_ge (a b : Timestamp) : bool :=
  (seconds_ b <? seconds_ a) || ((seconds_ a =? seconds_ b) && (nanos_ b <=? nanos_ a)).

(** [operator++] and [operator--]. *)
Definition increment (t : Timestamp) : outcome Timestamp :=
  if nanos_ t <? kMaxNanos then Ok (mkTimestamp (seconds_ t) (nanos_ t + 1))
  else if seconds_ t <? kMaxSeconds then Ok (mkTimestamp (seconds_ t + 1) 0)
  else Throw VeloxUserError.

Definition decrement (t : Timestamp) : outcome Timestamp :=
  if 0 <? nanos_ t then Ok (mkTimestamp (seconds_ t) (nanos_ t - 1))
  else if kMinSeconds <? seconds_ t then Ok (mkTimestamp (seconds_ t - 1) kMaxNanos)
  else Throw VeloxUserError.

(** ** Time zones *)
Definition getPrestoTZOffsetInSeconds (tzID : Z) : Z :=
  (if tzID <=? 840 then tzID - 841 else tzID - 840) * 60.

(** What the time zone library answers for a local time. *)
Inductive localTime := Unique (sys : Z) | Ambiguous (earliest : Z) | Nonexistent.

Section Zone.
(** Named zones belong to the time zone library: the zone of an identifier
    ([locate_zone] of [getTimeZoneName], which throws for an unknown one), and
    its [to_sys] on seconds and [to_local] on milliseconds. *)
Variable Zone : Type.
Variable locateZone : Z → outcome Zone.
Variable zoneToSys : Zone → Z → localTime.
Variable zoneToLocal : Zone → Z → Z.

Definition toGMTZone (zone : Zone) (t : Timestamp) : outcome Timestamp :=
  if seconds_ t <=? -1096193779200 + 86400 then Throw VeloxUserError
  else if kMaxSeconds <? seconds_ t then Throw VeloxUserError
  else match zoneToSys zone (seconds_ t) with
       | Unique s | Ambiguous s => Ok (mkTimestamp s (nanos_ t))
       | Nonexistent => Throw VeloxUserError
       end.

(** [validateTimePoint]: from the start of year -32767 to the start of the
    last day of year 32767, in milliseconds. *)
Definition validTimePoint (millis : Z) : bool :=
  (-1096193779200000 <=? millis) && (millis <=? 971890876800000).

Definition toTimePoint (t : Timestamp) : outcome Z :=
  millis ← toMillis t;
  if validTimePoint millis then Ok millis else Throw VeloxUserError.

Definition toTimezoneZone (zone : Zone) (t : Timestamp) : outcome Timestamp :=
  tp ← toTimePoint t; Ok (mkTimestamp (zoneToLocal zone tp / 1000) (nanos_ t)).

Definition toGMT (tzID : Z) (t : Timestamp) : outcome Timestamp :=
  if tzID =? 0 then Ok t
  else if tzID <=? 1680 then
    s ← sub64 (seconds_ t) (getPrestoTZOffsetInSeconds tzID); Ok (mkTimestamp s (nanos_ t))
  else zone ← locateZone tzID; toGMTZone zone t.

Definition toTimezone (tzID : Z) (t : Timestamp) : outcome Timestamp :=
  if tzID =? 0 then Ok t
  else if tzID <=? 1680 then
    s ← add64 (seconds_ t) (getPrestoTZOffsetInSeconds tzID); Ok (mkTimestamp s (nanos_ t))
  else zone ← locateZone tzID; toTimezoneZone zone t.
End Zone.

(** ** The value of a timestamp *)

(** Nanoseconds since the epoch, as an unbounded number. *)
Definition nanosSinceEpoch (t : Timestamp) : Z := seconds_ t * 1000000000 + nanos_ t.

(** The constants as numbers. *)
Ltac ts_numbers :=
  change kMaxSeconds with 9223372036854775; change kMinSeconds with (-9223372036854776);
  change kMaxNanos with 999999999; cbn [seconds_ nanos_].

Lemma wellFormed_fields s n :
  wellFormed (mkTimestamp s n) ↔ -9223372036854776 ≤ s ≤ 9223372036854775 ∧ 0 ≤ n ≤ 999999999.
Proof. unfold wellFormed. ts_numbers. done. Qed.

Lemma ts_eq_spec a b : ts_eq a b = true ↔ a = b.
Proof. unfold ts_eq. destruct a, b; simpl. rewrite andb_true_iff, !Z.eqb_eq. naive_solver. Qed.

(** The six comparisons agree with the order of the values. *)
Lemma ts_order a b :
  wellFormed a → wellFormed b →
  let x := nanosSinceEpoch a in let y := nanosSinceEpoch b in
  ts_eq a b = (x =? y) ∧ ts_ne a b = negb (x =? y) ∧ ts_lt a b = (x <? y) ∧
  ts_le a b = (x <=? y) ∧ ts_gt a b = (y <? x) ∧ ts_ge a b = (y <=? x).
Proof.
  destruct a as [s n], b as [s' n']. rewrite !wellFormed_fields. unfold nanosSinceEpoch, ts_eq, ts_ne, ts_lt, ts_le, ts_gt, ts_ge; simpl.
  intros Ha Hb. split_and!; apply eq_bool_prop_intro; rewrite ?Is_true_true; lia.
Qed.

(** ** Conversions *)
Lemma floor_unique b q r x : 0 ≤ r < b → x = b * q + r → x / b = q ∧ x mod b = r.
Proof.
  intros Hr ->. rewrite Z.mul_comm, Z.add_comm, Z.div_add, Z.mod_add, Z.div_small, Z.mod_small by lia. lia.
Qed.

(** What the three conversions into a timestamp compute: the floor of the
    quotient and the remainder, when the floor does not fall below the least
    integer. *)
Lemma fromUnits_spec unit nanosPer x :
  1 < unit → 0 < nanosPer → unit * nanosPer = 1000000000 → is_int64 x →
  fromUnits unit nanosPer x =
    if int64_min <=? x / unit * unit
    then Ok (mkTimestamp (x / unit) (x mod unit * nanosPer)) else Undefined.
Proof.
  intros Hu Hn Hp Hx. unfold fromUnits.
  pose proof (Z.mod_pos_bound x unit ltac:(lia)) as Hm. pose proof (Z.div_mod x unit ltac:(lia)) as Hdm.
  pose proof (Z.quot_rem x unit ltac:(lia)) as Hqr.
  pose proof (Z.rem_bound_abs x unit ltac:(lia)) as Hr. pose proof (Z.rem_sign_nz x unit ltac:(lia)) as Hs.
  assert (uwrap 64 (x mod unit * nanosPer) = x mod unit * nanosPer) as Hw.
  { apply Z.mod_small. nia. }
  destruct ((0 <=? x) || (Z.rem x unit =? 0)) eqn:Hc.
  - assert (x / unit = Z.quot x unit ∧ x mod unit = Z.rem x unit) as [Hq Hrm].
    { apply floor_unique; [|done]. split; [|lia]. destruct (Z.leb_spec 0 x); [apply Z.rem_nonneg; lia | lia]. }
    rewrite (proj2 (Z.leb_le _ _)) by (unfold_ints; nia). rewrite <- Hq, <- Hrm, Hw. done.
  - assert (Z.rem x unit < 0) by (pose proof (Z.rem_nonpos x unit); lia).
    assert (x / unit = Z.quot x unit - 1 ∧ x mod unit = Z.rem x unit + unit) as [Hq Hrm].
    { apply floor_unique; lia. }
    rewrite <- Hq. unfold checked64, sub64, int64b.
    destruct (Z.leb_spec int64_min (x / unit * unit)) as [Hle|]; [|done]. simpl.
    rewrite (proj2 (Z.leb_le _ _)) by (unfold_ints; nia). simpl.
    rewrite checked64_Ok by (unfold_ints; nia). simpl.
    replace (x - x / unit * unit) with (x mod unit) by lia.
    rewrite (Z.rem_small (x mod unit)) by lia. by rewrite Hw.
Qed.

(** The least argument each conversion takes. *)
Definition leastMillis : Z := -9223372036854775000.
Definition leastMicros : Z := -9223372036854000000.
Definition leastNanos : Z := -9223372036000000000.

(** The floor stays above the least integer exactly from there on. *)
Lemma floor_above unit least x :
  0 < unit → least mod unit = 0 → least - unit < int64_min ≤ least →
  (int64_min <=? x / unit * unit) = (least <=? x).
Proof.
  intros Hu Hl Hb. pose proof (Z.div_mod x unit ltac:(lia)) as Hd. pose proof (Z.mod_pos_bound x unit Hu) as Hm.
  pose proof (Z.div_mod least unit ltac:(lia)) as Hd'. rewrite Hl in Hd'.
  destruct (Z.leb_spec least x), (Z.leb_spec int64_min (x / unit * unit)); try done; exfalso.
  - assert (least / unit ≤ x / unit) by (apply Z.div_le_mono; lia). nia.
  - assert (x / unit < least / unit) by nia. nia.
Qed.

Ltac from_units least :=
  intros Hx; etrans; [apply fromUnits_spec; [lia | lia | lia | exact Hx]|];
  rewrite (floor_above _ least) by (vm_compute; intuition congruence).

Lemma fromMillis_spec x :
  is_int64 x → fromMillis x =
    if leastMillis <=? x then Ok (mkTimestamp (x / 1000) (x mod 1000 * 1000000)) else Undefined.
Proof. from_units leastMillis. done. Qed.

Lemma fromMicros_spec x :
  is_int64 x → fromMicros x =
    if leastMicros <=? x then Ok (mkTimestamp (x / 1000000) (x mod 1000000 * 1000)) else Undefined.
Proof. from_units leastMicros. done. Qed.

Lemma fromNanos_spec x :
  is_int64 x → fromNanos x =
    if leastNanos <=? x then Ok (mkTimestamp (x / 1000000000) (x mod 1000000000)) else Undefined.
Proof. from_units leastNanos. by rewrite Z.mul_1_r. Qed.

Lemma floor_wellFormed unit nanosPer x :
  1000 ≤ unit → 0 < nanosPer → unit * nanosPer = 1000000000 → is_int64 x →
  wellFormed (mkTimestamp (x / unit) (x mod unit * nanosPer)).
Proof.
  intros Hu Hn Hp Hx. apply wellFormed_fields. pose proof (Z.mod_pos_bound x unit ltac:(lia)).
  unfold_ints. split; [|nia]. split.
  - apply Z.div_le_lower_bound; nia.
  - assert (x / unit < 9223372036854776); [|lia]. apply Z.div_lt_upper_bound; nia.
Qed.

Lemma fromUnits_wellFormed unit nanosPer x t :
  1000 ≤ unit → 0 < nanosPer → unit * nanosPer = 1000000000 → is_int64 x →
  fromUnits unit nanosPer x = Ok t → wellFormed t.
Proof.
  intros Hu Hn Hp Hx. rewrite fromUnits_spec by (done || lia). case_match; [|done]. intros [= <-].
  by apply floor_wellFormed.
Qed.

(** ** The successor and the predecessor *)
Lemma increment_spec t :
  wellFormed t → if ts_eq t maxTimestamp then increment t = Throw VeloxUserError
                 else ∃ t', increment t = Ok t' ∧ wellFormed t' ∧ nanosSinceEpoch t' = nanosSinceEpoch t + 1.
Proof.
  destruct t as [s n]. rewrite wellFormed_fields. unfold increment, ts_eq, nanosSinceEpoch, maxTimestamp. ts_numbers. intros H.
  destruct (Z.ltb_spec n 999999999).
  - rewrite (proj2 (Z.eqb_neq n 999999999)), andb_false_r by lia. eexists. split; [done|].
    rewrite wellFormed_fields. simpl. lia.
  - destruct (Z.ltb_spec s 9223372036854775).
    + rewrite (proj2 (Z.eqb_neq s _)) by lia. simpl. eexists. split; [done|]. rewrite wellFormed_fields. simpl. lia.
    + by rewrite (proj2 (Z.eqb_eq s _)), (proj2 (Z.eqb_eq n _)) by lia.
Qed.

Lemma decrement_spec t :
  wellFormed t → if ts_eq t minTimestamp then decrement t = Throw VeloxUserError
                 else ∃ t', decrement t = Ok t' ∧ wellFormed t' ∧ nanosSinceEpoch t' = nanosSinceEpoch t - 1.
Proof.
  destruct t as [s n]. rewrite wellFormed_fields. unfold decrement, ts_eq, nanosSinceEpoch, minTimestamp. ts_numbers. intros H.
  destruct (Z.ltb_spec 0 n).
  - rewrite (proj2 (Z.eqb_neq n 0)), andb_false_r by lia. eexists. split; [done|].
    rewrite wellFormed_fields. simpl. lia.
  - destruct (Z.ltb_spec (-9223372036854776) s).
    + rewrite (proj2 (Z.eqb_neq s _)) by lia. simpl. eexists. split; [done|]. rewrite wellFormed_fields. simpl. lia.
    + by rewrite (proj2 (Z.eqb_eq s _)), (proj2 (Z.eqb_eq n _)) by lia.
Qed.

(** What the program can build without a time zone. *)
Inductive Built : Timestamp → Prop :=
| built_millis x t : is_int64 x → fromMillis x = Ok t → Built t
| built_micros x t : is_int64 x → fromMicros x = Ok t → Built t
| built_nanos x t : is_int64 x → fromNanos x = Ok t → Built t
| built_minMillis : Built minMillis
| built_maxMillis : Built maxMillis
| built_min : Built minTimestamp
| built_max : Built maxTimestamp
| built_increment t t' : Built t → increment t = Ok t' → Built t'
| built_decrement t t' : Built t → decrement t = Ok t' → Built t'.

(** C37: every timestamp that the conversions from milliseconds, microseconds
    and nanoseconds, the named extremes, [operator++] and [operator--] build
    has seconds and nanoseconds in the ranges that the constructor checks in
    debug builds only. *)
Theorem built_wellFormed t : Built t → wellFormed t.
Proof.
  induction 1 as [x t Hx Hf|x t Hx Hf|x t Hx Hf| | | | |t t' _ IH Hs|t t' _ IH Hs].
  - by apply (fromUnits_wellFormed 1000 1000000 x t).
  - by apply (fromUnits_wellFormed 1000000 1000 x t).
  - by apply (fromUnits_wellFormed 1000000000 1 x t).
  - apply wellFormed_fields. by vm_compute.
  - apply wellFormed_fields. by vm_compute.
  - apply wellFormed_fields. by vm_compute.
  - apply wellFormed_fields. by vm_compute.
  - pose proof (increment_spec t IH) as H. destruct (ts_eq t _); [congruence|]. destruct H as (u & Hu & ? & _). congruence.
  - pose proof (decrement_spec t IH) as H. destruct (ts_eq t _); [congruence|]. destruct H as (u & Hu & ? & _). congruence.
Qed.

Lemma built_wellFormed_witness : wellFormed (mkTimestamp (-1) 999999999).
Proof.
  apply (built_wellFormed (mkTimestamp (-1) 999999999)). apply (built_decrement (mkTimestamp 0 0)); [|reflexivity].
  apply (built_millis 0); [by vm_compute; split; discriminate | reflexivity].
Defined.

(** The parts of the conversions out of a timestamp: the nanoseconds of a well-formed one,
    in larger units, are not changed by the conversion to [int64_t]. *)
Lemma swrap_nanos n : 0 ≤ n < 1000000000 → swrap 64 n = n.
Proof. intros. apply swrap_small; lia. Qed.

Lemma toMillis_spec s n :
  0 ≤ n ≤ 999999999 → toMillis (mkTimestamp s n) =
    let v := s * 1000 + n / 1000000 in if int64b v then Ok v else Throw VeloxUserError.
Proof.
  intros Hn. unfold toMillis. cbn [seconds_ nanos_]. rewrite Z.quot_div_nonneg by lia.
  assert (0 ≤ n / 1000000 ≤ n) by (split; [apply Z.div_pos | apply Z.div_le_upper_bound]; lia).
  rewrite swrap_nanos by lia. cbv zeta. unfold int64b.
  destruct (Z.ltb_spec (s * 1000 + n / 1000000) int64_min), (Z.ltb_spec int64_max (s * 1000 + n / 1000000));
    destruct (Z.leb_spec int64_min (s * 1000 + n / 1000000)), (Z.leb_spec (s * 1000 + n / 1000000) int64_max);
    (done || lia).
Qed.

(** Out of the units it was built from. *)
Lemma out_of_units unit nanosPer x :
  0 < nanosPer → 0 < unit → unit * nanosPer = 1000000000 → is_int64 x → int64_min ≤ x / unit * unit →
  (p ← user64 (x / unit * unit); user64 (p + swrap 64 (Z.quot (x mod unit * nanosPer) nanosPer))) = Ok x.
Proof.
  intros Hn Hu Hp Hx Hl. pose proof (Z.mod_pos_bound x unit ltac:(lia)). pose proof (Z.div_mod x unit ltac:(lia)).
  rewrite Z.quot_mul by lia. rewrite swrap_nanos by nia. unfold user64.
  rewrite (proj2 (int64b_spec _)) by (unfold_ints; lia). simpl.
  replace (x / unit * unit + x mod unit) with x by lia. by rewrite (proj2 (int64b_spec _)).
Qed.

(** a number of milliseconds, of microseconds or of nanoseconds that the
    conversion takes comes back from the timestamp it gives; what is lost of a
    timestamp that is converted to milliseconds and back is the part of its
    nanoseconds below the millisecond. *)
Theorem timestamp_units_roundtrip (x : Z) :
  is_int64 x →
  (leastMillis ≤ x → ∃ t, fromMillis x = Ok t ∧ toMillis t = Ok x) ∧
  (leastMicros ≤ x → ∃ t, fromMicros x = Ok t ∧ toMicros t = Ok x) ∧
  (leastNanos ≤ x → ∃ t, fromNanos x = Ok t ∧ toNanos t = Ok x) ∧
  (∀ s n, 0 ≤ n ≤ kMaxNanos → toMillis (mkTimestamp s n) = Ok x → leastMillis ≤ x →
   fromMillis x = Ok (mkTimestamp s (n / 1000000 * 1000000))).
Proof.
  intros Hx. rewrite fromMillis_spec, fromMicros_spec, fromNanos_spec by done. split_and!.
  - intros Hl. rewrite (proj2 (Z.leb_le _ _)) by done. eexists. split; [done|].
    pose proof (Z.mod_pos_bound x 1000 ltac:(lia)). pose proof (Z.div_mod x 1000 ltac:(lia)).
    rewrite toMillis_spec by lia. rewrite Z.div_mul by lia. cbv zeta.
    replace (x / 1000 * 1000 + x mod 1000) with x by lia. by rewrite (proj2 (int64b_spec _)).
  - intros Hl. rewrite (proj2 (Z.leb_le _ _)) by done. eexists. split; [done|].
    apply (out_of_units 1000000 1000); [lia.. | done |]. apply Z.leb_le.
    rewrite (floor_above _ leastMicros) by (vm_compute; intuition congruence). by apply Z.leb_le.
  - intros Hl. rewrite (proj2 (Z.leb_le _ _)) by done. eexists. split; [done|].
    pose proof (out_of_units 1000000000 1 x) as H. rewrite !Z.mul_1_r, Z.quot_1_r in H.
    apply H; [lia.. | done |]. apply Z.leb_le.
    rewrite (floor_above _ leastNanos) by (vm_compute; intuition congruence). by apply Z.leb_le.
  - intros s n Hn Ht Hl. change kMaxNanos with 999999999 in Hn. rewrite toMillis_spec in Ht by done.
    rewrite (proj2 (Z.leb_le _ _)) by done. cbv zeta in Ht. case_match; [|done]. injection Ht as <-.
    assert (0 ≤ n / 1000000 < 1000) by (split; [apply Z.div_pos | apply Z.div_lt_upper_bound]; lia).
    destruct (floor_unique 1000 s (n / 1000000) (s * 1000 + n / 1000000)) as [-> ->]; [lia | lia | done].
Qed.

Lemma timestamp_units_roundtrip_witness :
  ∃ t, fromMillis leastMillis = Ok t ∧ toMillis t = Ok leastMillis.
Proof.
  apply (timestamp_units_roundtrip leastMillis); [split; vm_compute; discriminate | vm_compute; discriminate].
Defined.

(** Below the least argument the intermediate product overflows: the
    milliseconds of [minMillis], which [toMillis] gives, are not taken back. *)
Theorem fromMillis_overflows :
  toMillis minMillis = Ok int64_min ∧ fromMillis int64_min = Undefined ∧
  (∀ x, is_int64 x → x < leastMillis → fromMillis x = Undefined).
Proof.
  split_and!; [reflexivity | reflexivity |]. intros x Hx Hl. rewrite fromMillis_spec by done.
  by rewrite (proj2 (Z.leb_gt _ _)).
Qed.

(** ** Fixed offsets *)

(** The identifiers 1 to 1680 stand for the offsets from -14:00 to +14:00
    without 0, each once. *)
Lemma offset_range tzID :
  1 ≤ tzID ≤ 1680 →
  let m := getPrestoTZOffsetInSeconds tzID / 60 in
  getPrestoTZOffsetInSeconds tzID = m * 60 ∧ -840 ≤ m ≤ 840 ∧ m ≠ 0.
Proof.
  intros H. unfold getPrestoTZOffsetInSeconds. rewrite Z.div_mul by lia. destruct (Z.leb_spec tzID 840); lia.
Qed.

Lemma offset_inj i j :
  1 ≤ i ≤ 1680 → 1 ≤ j ≤ 1680 → getPrestoTZOffsetInSeconds i = getPrestoTZOffsetInSeconds j → i = j.
Proof. unfold getPrestoTZOffsetInSeconds. intros. repeat case_match; lia. Qed.

(** To a zone of fixed offset and back is the identity; the conversion never
    fails and changes the instant by the offset. *)
Theorem fixed_offset_roundtrip Zone locate toSys toLocal tzID t :
  0 ≤ tzID ≤ 1680 → wellFormed t →
  ∃ t', toTimezone Zone locate toLocal tzID t = Ok t' ∧ toGMT Zone locate toSys tzID t' = Ok t.
Proof.
  destruct t as [s n]. rewrite wellFormed_fields. intros Hz Hw. unfold toTimezone, toGMT.
  destruct (Z.eqb_spec tzID 0); [by eexists|]. rewrite (proj2 (Z.leb_le tzID 1680)) by lia.
  assert (-50400 ≤ getPrestoTZOffsetInSeconds tzID ≤ 50400) by (unfold getPrestoTZOffsetInSeconds; case_match; lia).
  unfold add64, sub64. cbn [seconds_ nanos_].
  rewrite checked64_Ok by (unfold_ints; lia). simpl. eexists. split; [done|].
  rewrite checked64_Ok by (simpl; unfold_ints; lia). simpl. f_equal. f_equal. lia.
Qed.
