(* ===== verification/Calendar.v ===== *)
(** * The calendar

    Models the calendar computations of [velox/type/Timestamp.cpp]
    ([isLeap], [leapThroughEndOf], [epochToUtc]) and of
    [velox/type/TimestampConversion.cpp] ([isValidDate],
    [daysSinceEpochFromDate] and the functions built on it): from seconds
    since the epoch to a civil date and time, and from a civil date to days
    since the epoch. *)
From S2P Require Import Prelude.
Local Open Scope Z_scope.

(** ** From seconds to a date and time *)

(** The members of [std::tm] that are written; [tm_isdst] is always 0. *)
Record Tm := mkTm {
  tm_sec : Z; tm_min : Z; tm_hour : Z; tm_mday : Z; tm_mon : Z; tm_year : Z; tm_wday : Z; tm_yday : Z }.

Definition kTmYearBase : Z := 1900.
Definition kLeapYearOffset : Z := 4000000000.

Definition isLeap (y : Z) : bool :=
  (Z.rem y 4 =? 0) && (negb (Z.rem y 100 =? 0) || (Z.rem y 400 =? 0)).

Definition leapThroughEndOf (y : Z) : Z :=
  let y := y + kLeapYearOffset in Z.quot y 4 - Z.quot y 100 + Z.quot y 400.

Definition monthLengths (leap : bool) : list Z :=
  if leap then [31; 29; 31; 30; 31; 30; 31; 31; 30; 31; 30; 31]
  else [31; 28; 31; 30; 31; 30; 31; 31; 30; 31; 30; 31].

(** [while (rem < 0) { rem += kSecondsPerDay; --days; }]. *)
Fixpoint remLoop (fuel : nat) (rem days : Z) : outcome (Z * Z) :=
  if 0 <=? rem then Ok (rem, days) else
  match fuel with
  | O => Throw OutOfFuel
  | S fuel => remLoop fuel (rem + 86400) (days - 1)
  end.

(** The loop that looks for the year.  The days since the epoch are below
    [2 ^ 47], so no product here leaves 64 bits. *)
Fixpoint yearLoop (fuel : nat) (y days : Z) : outcome (Z * Z) :=
  if (days <? 0) || (365 + Z.b2z (isLeap y) <=? days) then
    match fuel with
    | O => Throw OutOfFuel
    | S fuel =>
        let newy := y + Z.quot days 365 - Z.b2z (days <? 0) in
        let days := days - ((newy - y) * 365 + leapThroughEndOf (newy - 1) - leapThroughEndOf (y - 1)) in
        yearLoop fuel newy days
    end
  else Ok (y, days).

(** [for (tm_mon = 0; days >= ip[tm_mon]; ++tm_mon) days -= ip[tm_mon]]; past
    the end of the table the read is undefined. *)
Fixpoint monthLoop (ip : list Z) (mon days : Z) : outcome (Z * Z) :=
  match ip with
  | [] => Undefined
  | len :: ip => if len <=? days then monthLoop ip (mon + 1) (days - len) else Ok (mon, days)
  end.

(** Five rounds of [yearLoop] are enough ([yearLoop_total]). *)
Definition yearFuel : nat := 5.

(** [None] when the function returns false. *)
Definition epochToUtc (epoch : Z) : outcome (option Tm) :=
  '(rem, days) ← remLoop 1 (Z.rem epoch 86400) (Z.quot epoch 86400);
  let tm_hour := Z.quot rem 3600 in
  let rem := Z.rem rem 3600 in
  let tm_min := Z.quot rem 60 in
  let tm_sec := Z.rem rem 60 in
  let tm_wday := Z.rem (4 + days) 7 in
  let tm_wday := if tm_wday <? 0 then tm_wday + 7 else tm_wday in
  if 1970 + Z.quot days 365 <=? - kLeapYearOffset + 10 then Ok None else
  '(y, days) ← yearLoop yearFuel 1970 days;
  let leapYear := isLeap y in
  let y := y - kTmYearBase in
  if (int32_max <? y) || (y <? int32_min) then Ok None else
  '(tm_mon, mdays) ← monthLoop (monthLengths leapYear) 0 days;
  Ok (Some (mkTm tm_sec tm_min tm_hour (mdays + 1) tm_mon y tm_wday days)).

(** ** From a date to days *)
Definition kLeapDays : list Z := [0; 31; 29; 31; 30; 31; 30; 31; 31; 30; 31; 30; 31].
Definition kNormalDays : list Z := [0; 31; 28; 31; 30; 31; 30; 31; 31; 30; 31; 30; 31].
Definition kCumulativeDays : list Z := [0; 31; 59; 90; 120; 151; 181; 212; 243; 273; 304; 334; 365].
Definition kCumulativeLeapDays : list Z := [0; 31; 60; 91; 121; 152; 182; 213; 244; 274; 305; 335; 366].
Definition kCumulativeYearDays : list Z :=
  [0; 365; 730; 1096; 1461; 1826; 2191; 2557; 2922; 3287; 3652; 4018; 4383; 4748;
   5113; 5479; 5844; 6209; 6574; 6940; 7305; 7670; 8035; 8401; 8766; 9131; 9496; 9862;
   10227; 10592; 10957; 11323; 11688; 12053; 12418; 12784; 13149; 13514; 13879; 14245; 14610; 14975;
   15340; 15706; 16071; 16436; 16801; 17167; 17532; 17897; 18262; 18628; 18993; 19358; 19723; 20089;
   20454; 20819; 21184; 21550; 21915; 22280; 22645; 23011; 23376; 23741; 24106; 24472; 24837; 25202;
   25567; 25933; 26298; 26663; 27028; 27394; 27759; 28124; 28489; 28855; 29220; 29585; 29950; 30316;
   30681; 31046; 31411; 31777; 32142; 32507; 32872; 33238; 33603; 33968; 34333; 34699; 35064; 35429;
   35794; 36160; 36525; 36890; 37255; 37621; 37986; 38351; 38716; 39082; 39447; 39812; 40177; 40543;
   40908; 41273; 41638; 42004; 42369; 42734; 43099; 43465; 43830; 44195; 44560; 44926; 45291; 45656;
   46021; 46387; 46752; 47117; 47482; 47847; 48212; 48577; 48942; 49308; 49673; 50038; 50403; 50769;
   51134; 51499; 51864; 52230; 52595; 52960; 53325; 53691; 54056; 54421; 54786; 55152; 55517; 55882;
   56247; 56613; 56978; 57343; 57708; 58074; 58439; 58804; 59169; 59535; 59900; 60265; 60630; 60996;
   61361; 61726; 62091; 62457; 62822; 63187; 63552; 63918; 64283; 64648; 65013; 65379; 65744; 66109;
   66474; 66840; 67205; 67570; 67935; 68301; 68666; 69031; 69396; 69762; 70127; 70492; 70857; 71223;
   71588; 71953; 72318; 72684; 73049; 73414; 73779; 74145; 74510; 74875; 75240; 75606; 75971; 76336;
   76701; 77067; 77432; 77797; 78162; 78528; 78893; 79258; 79623; 79989; 80354; 80719; 81084; 81450;
   81815; 82180; 82545; 82911; 83276; 83641; 84006; 84371; 84736; 85101; 85466; 85832; 86197; 86562;
   86927; 87293; 87658; 88023; 88388; 88754; 89119; 89484; 89849; 90215; 90580; 90945; 91310; 91676;
   92041; 92406; 92771; 93137; 93502; 93867; 94232; 94598; 94963; 95328; 95693; 96059; 96424; 96789;
   97154; 97520; 97885; 98250; 98615; 98981; 99346; 99711; 100076; 100442; 100807; 101172; 101537; 101903;
   102268; 102633; 102998; 103364; 103729; 104094; 104459; 104825; 105190; 105555; 105920; 106286; 106651; 107016;
   107381; 107747; 108112; 108477; 108842; 109208; 109573; 109938; 110303; 110669; 111034; 111399; 111764; 112130;
   112495; 112860; 113225; 113591; 113956; 114321; 114686; 115052; 115417; 115782; 116147; 116513; 116878; 117243;
   117608; 117974; 118339; 118704; 119069; 119435; 119800; 120165; 120530; 120895; 121260; 121625; 121990; 122356;
   122721; 123086; 123451; 123817; 124182; 124547; 124912; 125278; 125643; 126008; 126373; 126739; 127104; 127469;
   127834; 128200; 128565; 128930; 129295; 129661; 130026; 130391; 130756; 131122; 131487; 131852; 132217; 132583;
   132948; 133313; 133678; 134044; 134409; 134774; 135139; 135505; 135870; 136235; 136600; 136966; 137331; 137696;
   138061; 138427; 138792; 139157; 139522; 139888; 140253; 140618; 140983; 141349; 141714; 142079; 142444; 142810;
   143175; 143540; 143905; 144271; 144636; 145001; 145366; 145732; 146097].

Definition kMinYear : Z := -292275055.
Definition kMaxYear : Z := 292278994.
Definition kYearInterval : Z := 400.
Definition kDaysPerYearInterval : Z := 146097.

Definition isLeapYear (year : Z) : bool :=
  (Z.rem year 4 =? 0) && (negb (Z.rem year 100 =? 0) || (Z.rem year 400 =? 0)).

(** A read of a table at an index that has been checked. *)
Definition at_ (table : list Z) (i : Z) : Z := default 0 (table !! Z.to_nat i).

Definition isValidDate (year month day : Z) : bool :=
  if (month <? 1) || (12 <? month) then false
  else if (year <? kMinYear) || (kMaxYear <? year) then false
  else if day <? 1 then false
  else if isLeapYear year then day <=? at_ kLeapDays month else day <=? at_ kNormalDays month.

Definition isValidDayOfYear (year dayOfYear : Z) : bool :=
  if (year <? kMinYear) || (kMaxYear <? year) then false
  else negb ((dayOfYear <? 1) || (365 + Z.b2z (isLeapYear year) <? dayOfYear)).

Definition isValidWeekDate (weekYear weekOfYear dayOfWeek : Z) : bool :=
  if (dayOfWeek <? 1) || (7 <? dayOfWeek) then false
  else if (weekOfYear <? 1) || (52 <? weekOfYear) then false
  else negb ((weekYear <? kMinYear) || (kMaxYear <? weekYear)).

Definition getMaxDayOfMonth (year month : Z) : outcome Z :=
  index (if isLeapYear year then kLeapDays else kNormalDays) month.

(** [while (year < 1970) ...] and [while (year >= 2370) ...]. *)
Fixpoint yearUp (fuel : nat) (year days : Z) : outcome (Z * Z) :=
  if 1970 <=? year then Ok (year, days) else
  match fuel with
  | O => Throw OutOfFuel
  | S fuel => yearUp fuel (year + kYearInterval) (days - kDaysPerYearInterval)
  end.

Fixpoint yearDown (fuel : nat) (year days : Z) : outcome (Z * Z) :=
  if year <? 2370 then Ok (year, days) else
  match fuel with
  | O => Throw OutOfFuel
  | S fuel => yearDown fuel (year - kYearInterval) (days + kDaysPerYearInterval)
  end.

(** As many rounds as there are intervals of 400 years up to the year. *)
Definition intervalFuel (year : Z) : nat := Z.to_nat (Z.abs year / kYearInterval + 6).

Definition daysSinceEpochFromDate (year month day : Z) : outcome Z :=
  if negb (isValidDate year month day) then Throw VeloxUserError else
  '(year, days) ← yearUp (intervalFuel year) year 0;
  '(year, days) ← yearDown (intervalFuel year) year days;
  yearDays ← index kCumulativeYearDays (year - 1970);
  monthDays ← index (if isLeapYear year then kCumulativeLeapDays else kCumulativeDays) (month - 1);
  Ok (days + yearDays + monthDays + (day - 1)).

(** The argument is an [int32_t]. *)
Definition extractISODayOfTheWeek (daysSinceEpoch : Z) : Z :=
  if daysSinceEpoch <? 0 then 7 - Z.rem (- daysSinceEpoch + 3) 7
  else Z.rem (daysSinceEpoch + 3) 7 + 1.

(** The 64-bit number of days is converted to that argument. *)
Definition daysSinceEpochFromWeekDate (weekYear weekOfYear dayOfWeek : Z) : outcome Z :=
  if negb (isValidWeekDate weekYear weekOfYear dayOfWeek) then Throw VeloxUserError else
  janFourth ← daysSinceEpochFromDate weekYear 1 4;
  let firstDayOfWeekYear := extractISODayOfTheWeek (swrap 32 janFourth) in
  Ok (janFourth - (firstDayOfWeekYear - 1) + 7 * (weekOfYear - 1) + dayOfWeek - 1).

Definition daysSinceEpochFromDayOfYear (year dayOfYear : Z) : outcome Z :=
  if negb (isValidDayOfYear year dayOfYear) then Throw VeloxUserError else
  startOfYear ← daysSinceEpochFromDate year 1 1;
  Ok (startOfYear + (dayOfYear - 1)).

Definition lastDayOfMonthSinceEpochFromDate (dateTime : Tm) : outcome Z :=
  let year := tm_year dateTime + 1900 in
  let month := tm_mon dateTime + 1 in
  day ← getMaxDayOfMonth year month;
  daysSinceEpochFromDate year month day.
