(* ===== verification/CalendarCorrect.v ===== *)
(** * Correctness of the calendar

    A reference calendar, [yearStart] and [civilDays]: the days from the epoch
    to the first of January of a year, and to a date.  The search for the year
    ends after at most five rounds, and [epochToUtc] and
    [daysSinceEpochFromDate] are inverse to each other. *)
From S2P Require Import Prelude Calendar.
Local Open Scope Z_scope.

(** Linear arithmetic with quotients and remainders by numbers. *)
Ltac dlia := Z.to_euclidean_division_equations; lia.

(** ** The reference calendar *)

(** Leap years up to the end of a year, up to a constant. *)
Definition leaps (y : Z) : Z := y / 4 - y / 100 + y / 400.

(** Days from 1970-01-01 to the first of January of [y]. *)
Definition yearStart (y : Z) : Z := 365 * (y - 1970) + leaps (y - 1) - leaps 1969.

Definition yearLength (y : Z) : Z := 365 + Z.b2z (isLeap y).

(** Days of the months before the [mon]-th, counted from 0. *)
Definition monthStart (leap : bool) (mon : Z) : Z := foldr Z.add 0 (take (Z.to_nat mon) (monthLengths leap)).

Definition civilDays (y mon day : Z) : Z := yearStart y + monthStart (isLeap y) mon + (day - 1).

(** A date of the calendar: the month counts from 0, the day from 1. *)
Definition civil (y mon day : Z) : Prop :=
  0 ≤ mon < 12 ∧ 1 ≤ day ≤ default 0 (monthLengths (isLeap y) !! Z.to_nat mon).

(** ** Leap years *)
Lemma isLeap_mod y : isLeap y = (y mod 4 =? 0) && (negb (y mod 100 =? 0) || (y mod 400 =? 0)).
Proof.
  unfold isLeap.
  assert (∀ k, k ≠ 0 → (Z.rem y k =? 0) = (y mod k =? 0)) as H.
  { intros k Hk. apply eq_bool_prop_intro. rewrite !Is_true_true, !Z.eqb_eq.
    by rewrite Z.rem_divide, Z.mod_divide. }
  by rewrite !H.
Qed.

Lemma leaps_next y : leaps y = leaps (y - 1) + Z.b2z (isLeap y).
Proof.
  rewrite isLeap_mod. unfold leaps.
  destruct (Z.eqb_spec (y mod 4) 0), (Z.eqb_spec (y mod 100) 0), (Z.eqb_spec (y mod 400) 0); simpl; dlia.
Qed.

Lemma yearStart_next y : yearStart (y + 1) = yearStart y + yearLength y.
Proof. unfold yearStart, yearLength. replace (y + 1 - 1) with y by lia. rewrite (leaps_next y). lia. Qed.

Lemma yearLength_range y : 365 ≤ yearLength y ≤ 366.
Proof. unfold yearLength. destruct (isLeap y); simpl; lia. Qed.

Lemma div_gap a j n : 1 < n → 0 ≤ j → 0 ≤ (a + j) / n - a / n ≤ j.
Proof.
  intros Hn Hj. pose proof (Z.div_le_mono a (a + j) n ltac:(lia) ltac:(lia)).
  assert ((a + j) / n ≤ a / n + j); [|lia]. rewrite <- Z.div_add by lia. apply Z.div_le_mono; nia.
Qed.

(** Among [k] years in a row there are at most [(k + 3) / 4] leap years. *)
Lemma leaps_gap y k : 0 ≤ k → 0 ≤ leaps (y + k) - leaps y ∧ 4 * (leaps (y + k) - leaps y) ≤ k + 3.
Proof.
  intros Hk. unfold leaps.
  assert (∀ z, z / 100 = z / 4 / 25 ∧ z / 400 = z / 4 / 25 / 4) as H by (intros; rewrite !Z.div_div by lia; done).
  destruct (H y) as [-> ->], (H (y + k)) as [-> ->].
  assert (∃ j, (y + k) / 4 = y / 4 + j ∧ 0 ≤ j ∧ 4 * j ≤ k + 3) as (j & -> & Hj & Hj').
  { exists ((y + k) / 4 - y / 4). dlia. }
  pose proof (div_gap (y / 4) j 25 ltac:(lia) Hj) as H25.
  pose proof (div_gap (y / 4 / 25) ((y / 4 + j) / 25 - y / 4 / 25) 4 ltac:(lia) ltac:(lia)) as H4.
  replace (y / 4 / 25 + ((y / 4 + j) / 25 - y / 4 / 25)) with ((y / 4 + j) / 25) in H4 by lia. lia.
Qed.

(** The start of the year [k] years later. *)
Lemma yearStart_gap y k :
  0 ≤ k → 365 * k ≤ yearStart (y + k) - yearStart y ∧ 4 * (yearStart (y + k) - yearStart y - 365 * k) ≤ k + 3.
Proof.
  intros Hk. unfold yearStart. pose proof (leaps_gap (y - 1) k Hk).
  replace (y + k - 1) with (y - 1 + k) by lia. lia.
Qed.

Lemma yearStart_mono y y' : y < y' → yearStart y + 365 ≤ yearStart y'.
Proof. intros H. pose proof (yearStart_gap y (y' - y)). replace (y + (y' - y)) with y' in * by lia. lia. Qed.

(** The year of a day is unique. *)
Lemma year_unique y y' d :
  yearStart y ≤ d < yearStart (y + 1) → yearStart y' ≤ d < yearStart (y' + 1) → y = y'.
Proof.
  intros H H'. destruct (Z.lt_trichotomy y y') as [Hl|[?|Hl]]; [|done|].
  - destruct (Z.eq_dec (y + 1) y') as [<-|]; [lia|]. pose proof (yearStart_mono (y + 1) y'). lia.
  - destruct (Z.eq_dec (y' + 1) y) as [<-|]; [lia|]. pose proof (yearStart_mono (y' + 1) y). lia.
Qed.

Lemma yearStart_1970 : yearStart 1970 = 0.
Proof. reflexivity. Qed.

(** A year is not further from 1970 than its days. *)
Lemma year_bound y : 365 * Z.abs (y - 1970) ≤ Z.abs (yearStart y).
Proof.
  destruct (Z.le_gt_cases 1970 y).
  - pose proof (yearStart_gap 1970 (y - 1970)) as H'. replace (1970 + (y - 1970)) with y in H' by lia.
    rewrite yearStart_1970 in H'. lia.
  - pose proof (yearStart_gap y (1970 - y)) as H'. replace (y + (1970 - y)) with 1970 in H' by lia.
    rewrite yearStart_1970 in H'. lia.
Qed.

(** ** The search for the year *)
Lemma leapThroughEndOf_leaps y : - kLeapYearOffset ≤ y → leapThroughEndOf y = leaps y + 970000000.
Proof. intros Hy. unfold leapThroughEndOf, leaps, kLeapYearOffset in *. cbv zeta. dlia. Qed.

(** One round: where it goes, and how far that is. *)
Definition nextYear (y days : Z) : Z := y + Z.quot days 365 - Z.b2z (days <? 0).

Lemma nextYear_far y d :
  0 ≤ d - yearStart y → let k := (d - yearStart y) / 365 in
  nextYear y (d - yearStart y) = y + k ∧
  - (k + 3) ≤ 4 * (d - yearStart (y + k)) ∧ d - yearStart (y + k) ≤ 364.
Proof.
  intros Hd k. unfold nextYear. rewrite (proj2 (Z.ltb_ge _ _)) by lia. simpl Z.b2z.
  rewrite Z.quot_div_nonneg by lia. fold k. assert (0 ≤ k) by (apply Z.div_pos; lia).
  pose proof (yearStart_gap y k). pose proof (Z.div_mod (d - yearStart y) 365) as Hdm. fold k in Hdm.
  pose proof (Z.mod_pos_bound (d - yearStart y) 365). lia.
Qed.

Lemma nextYear_past y d :
  d - yearStart y < 0 → let k := (yearStart y - d) / 365 + 1 in
  nextYear y (d - yearStart y) = y - k ∧
  0 < d - yearStart (y - k) ∧ 4 * (d - yearStart (y - k) - 365) ≤ k + 3.
Proof.
  intros Hd k. unfold nextYear. rewrite (proj2 (Z.ltb_lt _ _)) by lia. simpl Z.b2z.
  assert (Z.quot (d - yearStart y) 365 = - ((yearStart y - d) / 365)) as ->.
  { rewrite <- Z.quot_div_nonneg by lia. rewrite <- Z.quot_opp_l by lia. f_equal. lia. }
  assert (0 ≤ (yearStart y - d) / 365) by (apply Z.div_pos; lia).
  pose proof (yearStart_gap (y - k) k ltac:(lia)) as Hg. replace (y - k + k) with y in Hg by lia.
  pose proof (Z.div_mod (yearStart y - d) 365). pose proof (Z.mod_pos_bound (yearStart y - d) 365). lia.
Qed.

(** How far from the year [n] rounds can start. *)
Definition within (n : nat) : Z :=
  match n with 0%nat => -1 | 1%nat => 364 | 2%nat => 529000 | 3%nat => 770000000 | _ => 1000000000000 end.

(** The days seen by a search that [n] rounds end. *)
Definition near (n : nat) (y days : Z) : Prop :=
  match n with
  | O => 0 ≤ days < yearLength y
  | 1%nat => -364 ≤ days ≤ 729
  | _ => Z.abs days ≤ within n
  end.

Lemma near_step n y d :
  near (S n) y (d - yearStart y) → ¬ (0 ≤ d - yearStart y < yearLength y) →
  near n (nextYear y (d - yearStart y)) (d - yearStart (nextYear y (d - yearStart y))).
Proof.
  intros Hn Hout. pose proof (yearLength_range y).
  assert (n = 0%nat ∨ n = 1%nat ∨ n = 2%nat ∨ (3 ≤ n)%nat) as Hcases by lia.
  destruct (Z.le_gt_cases 0 (d - yearStart y)) as [Hpos|Hneg].
  - destruct (nextYear_far y d Hpos) as (-> & Hlo & Hhi). set (k := (d - yearStart y) / 365) in *.
    assert (365 * k ≤ d - yearStart y < 365 * k + 365) by (unfold k; dlia).
    destruct Hcases as [->|[->|[->|Hn3]]]; simpl in *.
    + assert (k = 1) as Hk by lia. rewrite Hk in *. rewrite yearStart_next.
      pose proof (yearLength_range (y + 1)). lia.
    + lia.
    + lia.
    + destruct n as [|[|[|[|n]]]]; simpl in *; lia.
  - destruct (nextYear_past y d Hneg) as (-> & Hlo & Hhi). set (k := (yearStart y - d) / 365 + 1) in *.
    assert (365 * (k - 1) ≤ yearStart y - d < 365 * k) by (unfold k; dlia).
    destruct Hcases as [->|[->|[->|Hn3]]]; simpl in *.
    + assert (k = 1) as Hk by lia. rewrite Hk in *. pose proof (yearStart_next (y - 1)) as Hnx.
      replace (y - 1 + 1) with y in Hnx by lia. lia.
    + lia.
    + lia.
    + destruct n as [|[|[|[|n]]]]; simpl in *; lia.
Qed.

(** The days of the model are those of the reference calendar as long as the
    search stays above the offset. *)
Lemma step_days y d newy :
  - kLeapYearOffset < y → - kLeapYearOffset < newy →
  (d - yearStart y) - ((newy - y) * 365 + leapThroughEndOf (newy - 1) - leapThroughEndOf (y - 1)) = d - yearStart newy.
Proof. intros. rewrite !leapThroughEndOf_leaps by lia. unfold yearStart. lia. Qed.

(** The days of any year a search on a timestamp looks at. *)
Definition inRange (d : Z) : Prop := Z.abs d ≤ 110000000000.

Lemma nextYear_inRange y d :
  inRange (d - yearStart y) → inRange (d - yearStart (nextYear y (d - yearStart y))).
Proof.
  unfold inRange. intros H. destruct (Z.le_gt_cases 0 (d - yearStart y)) as [Hpos|Hneg].
  - destruct (nextYear_far y d Hpos) as (-> & Hlo & Hhi).
    assert ((d - yearStart y) / 365 ≤ 400000000) by (apply Z.div_le_upper_bound; lia). lia.
  - destruct (nextYear_past y d Hneg) as (-> & Hlo & Hhi).
    assert ((yearStart y - d) / 365 ≤ 400000000) by (apply Z.div_le_upper_bound; lia). lia.
Qed.

Lemma inRange_year y d : inRange d → inRange (d - yearStart y) → - kLeapYearOffset < y.
Proof. unfold inRange, kLeapYearOffset. intros. pose proof (year_bound y). lia. Qed.

(** The search ends within [n] rounds, in the year of the day. *)
Lemma yearLoop_spec n y d :
  inRange d → inRange (d - yearStart y) → near n y (d - yearStart y) →
  ∃ y', yearLoop n y (d - yearStart y) = Ok (y', d - yearStart y') ∧ 0 ≤ d - yearStart y' < yearLength y'.
Proof.
  intros Hd. revert y. induction n as [|n IH]; intros y Hy Hn.
  - exists y. split; [|done]. simpl in *. unfold yearLength in Hn.
    by rewrite (proj2 (Z.ltb_ge _ _)), (proj2 (Z.leb_gt _ _)) by lia.
  - simpl yearLoop. fold (yearLength y). fold (nextYear y (d - yearStart y)).
    destruct ((d - yearStart y <? 0) || (yearLength y <=? d - yearStart y)) eqn:Ht.
    + pose proof (nextYear_inRange y d Hy) as Hy'.
      rewrite step_days by (eapply (inRange_year _ d); eassumption). apply IH; [done|]. apply near_step; [done | lia].
    + exists y. split; [done | lia].
Qed.

(** Five rounds are enough for every day of a timestamp. *)
Lemma yearLoop_total d :
  inRange d → ∃ y, yearLoop yearFuel 1970 d = Ok (y, d - yearStart y) ∧ 0 ≤ d - yearStart y < yearLength y.
Proof.
  intros Hd. pose proof (yearLoop_spec yearFuel 1970 d Hd) as H. rewrite yearStart_1970, Z.sub_0_r in H.
  apply H; [done|]. unfold inRange in Hd. simpl. lia.
Qed.

(** ** The month *)
Definition monthSum (ip : list Z) : Z := foldr Z.add 0 ip.

Lemma monthLoop_spec ip mon days :
  Forall (λ l, 0 < l) ip → 0 ≤ days < monthSum ip →
  ∃ k, (k < length ip)%nat ∧ monthLoop ip mon days = Ok (mon + Z.of_nat k, days - monthSum (take k ip)) ∧
    0 ≤ days - monthSum (take k ip) < default 0 (ip !! k).
Proof.
  intros Hip. revert mon days. induction Hip as [|l ip Hl _ IH]; intros mon days Hd; simpl in *; [lia|].
  destruct (Z.leb_spec l days) as [Hle|Hgt].
  - destruct (IH (mon + 1) (days - l) ltac:(lia)) as (k & Hk & -> & Hr). exists (S k). simpl. split; [lia|].
    split; [|lia]. f_equal. f_equal; lia.
  - exists 0%nat. simpl. split; [lia|]. split; [f_equal; f_equal; lia | lia].
Qed.

Lemma monthLengths_pos leap : Forall (λ l, 0 < l) (monthLengths leap).
Proof. destruct leap; simpl; repeat constructor; lia. Qed.

Lemma monthSum_year y : monthSum (monthLengths (isLeap y)) = yearLength y.
Proof. unfold yearLength. destruct (isLeap y); reflexivity. Qed.

(** ** [epochToUtc] *)
Lemma remLoop_spec e : remLoop 1 (Z.rem e 86400) (Z.quot e 86400) = Ok (e mod 86400, e / 86400).
Proof.
  simpl. destruct (Z.leb_spec 0 (Z.rem e 86400)).
  - f_equal. f_equal; dlia.
  - rewrite (proj2 (Z.leb_le _ _)) by dlia. f_equal. f_equal; dlia.
Qed.

(** A date and time stands for a number of seconds since the epoch. *)
Record describes (tm : Tm) (epoch : Z) : Prop := {
  tm_civil : civil (tm_year tm + 1900) (tm_mon tm) (tm_mday tm);
  tm_days : civilDays (tm_year tm + 1900) (tm_mon tm) (tm_mday tm) = epoch / 86400;
  tm_hours : 0 ≤ tm_hour tm < 24;
  tm_minutes : 0 ≤ tm_min tm < 60;
  tm_seconds : 0 ≤ tm_sec tm < 60;
  tm_time : tm_hour tm * 3600 + tm_min tm * 60 + tm_sec tm = epoch mod 86400;
  tm_weekday : tm_wday tm = (4 + epoch / 86400) mod 7;
  tm_yearday : tm_yday tm = epoch / 86400 - yearStart (tm_year tm + 1900)
}.

Lemma time_fields r :
  0 ≤ r < 86400 →
  let h := Z.quot r 3600 in let r' := Z.rem r 3600 in let m := Z.quot r' 60 in let s := Z.rem r' 60 in
  0 ≤ h < 24 ∧ 0 ≤ m < 60 ∧ 0 ≤ s < 60 ∧ h * 3600 + m * 60 + s = r.
Proof. intros Hr. cbv zeta. dlia. Qed.

Lemma weekday_field days :
  (if Z.rem (4 + days) 7 <? 0 then Z.rem (4 + days) 7 + 7 else Z.rem (4 + days) 7) = (4 + days) mod 7.
Proof. destruct (Z.ltb_spec (Z.rem (4 + days) 7) 0); dlia. Qed.

Lemma monthStart_take leap k : monthStart leap (Z.of_nat k) = monthSum (take k (monthLengths leap)).
Proof. unfold monthStart. by rewrite Nat2Z.id. Qed.

Lemma monthLengths_length leap : length (monthLengths leap) = 12%nat.
Proof. by destruct leap. Qed.

Lemma epochToUtc_describes epoch :
  inRange (epoch / 86400) → ∃ tm, epochToUtc epoch = Ok (Some tm) ∧ describes tm epoch.
Proof.
  intros Hd. unfold epochToUtc. rewrite remLoop_spec. cbn [mbind outcome_bind]. cbv zeta.
  rewrite weekday_field. set (d := epoch / 86400) in *. set (r := epoch mod 86400).
  assert (0 ≤ r < 86400) as Hr by (unfold r; apply Z.mod_pos_bound; lia).
  destruct (time_fields r Hr) as (Hh & Hm & Hs & Ht). cbv zeta in Hh, Hm, Hs, Ht.
  assert (- kLeapYearOffset + 10 < 1970 + Z.quot d 365) as Hguard.
  { unfold inRange, kLeapYearOffset in *. dlia. }
  rewrite (proj2 (Z.leb_gt _ _) Hguard). destruct (yearLoop_total d Hd) as (y & -> & Hy). cbn [mbind outcome_bind].
  assert (Z.abs (y - 1970) ≤ 310000000) as Hyb.
  { pose proof (year_bound y). pose proof (yearLength_range y). unfold inRange in Hd. lia. }
  rewrite (proj2 (Z.ltb_ge _ _)), (proj2 (Z.ltb_ge _ _)) by (unfold kTmYearBase; unfold_ints; lia). cbn [orb].
  rewrite <- monthSum_year in Hy.
  destruct (monthLoop_spec (monthLengths (isLeap y)) 0 _ (monthLengths_pos _) Hy) as (k & Hk & -> & Hmd).
  cbn [mbind outcome_bind]. eexists. split; [done|]. rewrite monthLengths_length in Hk.
  assert (y - kTmYearBase + 1900 = y) as Hyy by (unfold kTmYearBase; lia).
  constructor; cbn [tm_sec tm_min tm_hour tm_mday tm_mon tm_year tm_wday tm_yday]; try done; rewrite ?Hyy; try done.
  - unfold civil. rewrite Z.add_0_l, Nat2Z.id. lia.
  - unfold civilDays. rewrite Z.add_0_l, monthStart_take. fold d. lia.
Qed.

(** ** [daysSinceEpochFromDate] *)
Lemma leaps_period y : leaps (y + 400) = leaps y + 97.
Proof. unfold leaps. dlia. Qed.

Lemma yearStart_period y k : 0 ≤ k → yearStart (y + 400 * k) = yearStart y + 146097 * k.
Proof.
  intros Hk. revert k Hk. apply natlike_ind; [by rewrite !Z.mul_0_r, !Z.add_0_r|]. intros k Hk IH.
  replace (y + 400 * Z.succ k) with (y + 400 * k + 400) by lia. unfold yearStart in *.
  replace (y + 400 * k + 400 - 1) with (y + 400 * k - 1 + 400) by lia. rewrite leaps_period. lia.
Qed.

Lemma isLeap_period y k : isLeap (y + 400 * k) = isLeap y.
Proof.
  rewrite !isLeap_mod.
  assert (∀ n m, 400 = n * m → n ≠ 0 → (y + 400 * k) mod n = y mod n) as H.
  { intros n m E Hn. rewrite E. replace (y + n * m * k) with (y + m * k * n) by lia. by apply Z.mod_add. }
  by rewrite (H 4 100), (H 100 4), (H 400 1).
Qed.

Lemma yearUp_spec fuel year days :
  1970 - year ≤ 400 * Z.of_nat fuel →
  ∃ k, 0 ≤ k ∧ yearUp fuel year days = Ok (year + 400 * k, days - 146097 * k) ∧
    1970 ≤ year + 400 * k ∧ (k = 0 ∨ year + 400 * k < 2370).
Proof.
  revert year days. induction fuel as [|fuel IH]; intros year days Hf; simpl; destruct (Z.leb_spec 1970 year).
  1, 3: exists 0; split; [lia|]; split; [f_equal; f_equal; lia | lia].
  - lia.
  - destruct (IH (year + kYearInterval) (days - kDaysPerYearInterval)) as (k & Hk & -> & Hr);
      unfold kYearInterval, kDaysPerYearInterval in *; [lia|].
    exists (k + 1). split; [lia|]. split; [f_equal; f_equal; lia | lia].
Qed.

Lemma yearDown_spec fuel year days :
  1970 ≤ year → year - 2369 ≤ 400 * Z.of_nat fuel →
  ∃ k, 0 ≤ k ∧ yearDown fuel year days = Ok (year - 400 * k, days + 146097 * k) ∧
    1970 ≤ year - 400 * k < 2370.
Proof.
  revert year days. induction fuel as [|fuel IH]; intros year days Hy Hf; simpl; destruct (Z.ltb_spec year 2370).
  1, 3: exists 0; split; [lia|]; split; [f_equal; f_equal; lia | lia].
  - lia.
  - destruct (IH (year - kYearInterval) (days + kDaysPerYearInterval)) as (k & Hk & -> & Hr);
      unfold kYearInterval, kDaysPerYearInterval in *; [lia..|].
    exists (k + 1). split; [lia|]. split; [f_equal; f_equal; lia | lia].
Qed.

(** The table of years holds the starts of the years from 1970 on. *)
Lemma kCumulativeYearDays_starts : kCumulativeYearDays = map (λ i, yearStart (1970 + i)) (seqZ 0 401).
Proof. vm_compute. reflexivity. Qed.

Lemma year_table y : 1970 ≤ y < 2370 → index kCumulativeYearDays (y - 1970) = Ok (yearStart y).
Proof.
  intros Hy. unfold index. rewrite (proj2 (Z.ltb_ge _ _)) by lia. rewrite kCumulativeYearDays_starts, list_lookup_fmap.
  rewrite lookup_seqZ_lt by lia. simpl. do 2 f_equal. lia.
Qed.

(** A month number in the range is one of twelve. *)
Ltac each_month m :=
  let H := fresh in
  assert (m = 0 ∨ m = 1 ∨ m = 2 ∨ m = 3 ∨ m = 4 ∨ m = 5 ∨ m = 6 ∨ m = 7 ∨ m = 8 ∨ m = 9 ∨ m = 10 ∨ m = 11)
    as H by lia;
  repeat destruct H as [H|H]; rewrite ?H in *.

Lemma month_table (leap : bool) m :
  0 ≤ m < 12 → index (if leap then kCumulativeLeapDays else kCumulativeDays) m = Ok (monthStart leap m).
Proof. intros Hm. each_month m; destruct leap; reflexivity. Qed.

Lemma isLeapYear_isLeap y : isLeapYear y = isLeap y.
Proof. reflexivity. Qed.

Lemma month_length_table (leap : bool) m :
  0 ≤ m < 12 → at_ (if leap then kLeapDays else kNormalDays) (m + 1) = default 0 (monthLengths leap !! Z.to_nat m).
Proof. intros Hm. each_month m; destruct leap; reflexivity. Qed.

Lemma isValidDate_spec y m d :
  isValidDate y m d = true ↔ civil y (m - 1) d ∧ kMinYear ≤ y ≤ kMaxYear.
Proof.
  unfold isValidDate, civil. rewrite isLeapYear_isLeap.
  destruct ((m <? 1) || (12 <? m)) eqn:Hm; [split; [done | lia]|].
  destruct ((y <? kMinYear) || (kMaxYear <? y)) eqn:Hy; [split; [done | lia]|].
  destruct (Z.ltb_spec d 1); [split; [done | lia]|].
  pose proof (month_length_table (isLeap y) (m - 1) ltac:(lia)) as Ht. replace (m - 1 + 1) with m in Ht by lia.
  rewrite <- Ht. destruct (isLeap y); rewrite Z.leb_le; lia.
Qed.

Lemma daysSinceEpochFromDate_spec y m d :
  daysSinceEpochFromDate y m d = if isValidDate y m d then Ok (civilDays y (m - 1) d) else Throw VeloxUserError.
Proof.
  unfold daysSinceEpochFromDate. destruct (isValidDate y m d) eqn:Hv; [|done]. simpl negb. cbv iota.
  apply isValidDate_spec in Hv as [[Hm Hd] Hy].
  destruct (yearUp_spec (intervalFuel y) y 0) as (k & Hk & -> & Hlo & Hor).
  { unfold intervalFuel, kYearInterval. dlia. }
  cbn [mbind outcome_bind].
  destruct (yearDown_spec (intervalFuel (y + 400 * k)) (y + 400 * k) (0 - 146097 * k)) as (j & Hj & -> & Hr); [done| |].
  { unfold intervalFuel, kYearInterval. dlia. }
  cbn [mbind outcome_bind]. rewrite year_table by lia. cbn [mbind outcome_bind]. rewrite isLeapYear_isLeap.
  replace (y + 400 * k - 400 * j) with (y + 400 * (k - j)) by lia. rewrite isLeap_period, month_table by lia. simpl.
  f_equal. unfold civilDays. destruct (Z.le_gt_cases j k).
  - rewrite yearStart_period by lia. lia.
  - pose proof (yearStart_period (y + 400 * (k - j)) (j - k) ltac:(lia)) as Hp.
    replace (y + 400 * (k - j) + 400 * (j - k)) with y in Hp by lia. lia.
Qed.
