(* ===== verification/CalendarTheorems.v ===== *)
(** * What the calendar promises

    [epochToUtc] and [daysSinceEpochFromDate] are inverse to each other on
    the range of timestamps and of dates; days of the week. *)
From S2P Require Import Prelude Timestamp Calendar CalendarCorrect.
Local Open Scope Z_scope.

(** ** A day has one date *)
Lemma monthStart_next leap m :
  0 ≤ m < 12 → monthStart leap (m + 1) = monthStart leap m + default 0 (monthLengths leap !! Z.to_nat m).
Proof. intros Hm. each_month m; destruct leap; reflexivity. Qed.

Lemma monthStart_mono leap m m' :
  0 ≤ m < m' → m' ≤ 12 → monthStart leap (m + 1) ≤ monthStart leap m'.
Proof.
  intros Hm Hm'.
  assert (Forall (λ i, Forall (λ j, i < j → monthStart leap (i + 1) ≤ monthStart leap j) (seqZ 0 13)) (seqZ 0 13)) as H.
  { apply (bool_decide_unpack _). by destruct leap; vm_compute. }
  rewrite Forall_forall in H. specialize (H m). rewrite Forall_forall in H.
  apply H; [apply elem_of_seqZ; lia | apply elem_of_seqZ; lia | lia].
Qed.

Lemma monthStart_12 y : monthStart (isLeap y) 12 = yearLength y.
Proof. unfold yearLength. by destruct (isLeap y). Qed.

Lemma monthStart_nonneg leap m : 0 ≤ m < 12 → 0 ≤ monthStart leap m.
Proof. intros Hm. each_month m; destruct leap; vm_compute; discriminate. Qed.

Lemma civil_year y m d : civil y m d → yearStart y ≤ civilDays y m d < yearStart (y + 1).
Proof.
  intros [Hm Hd]. unfold civilDays. rewrite yearStart_next, <- monthStart_12. pose proof (monthStart_next (isLeap y) m Hm).
  pose proof (monthStart_nonneg (isLeap y) m Hm). pose proof (monthStart_mono (isLeap y) m 12). lia.
Qed.

Lemma civil_unique y m d y' m' d' :
  civil y m d → civil y' m' d' → civilDays y m d = civilDays y' m' d' → y = y' ∧ m = m' ∧ d = d'.
Proof.
  intros H H' E. assert (y = y') as <-.
  { pose proof (civil_year _ _ _ H). pose proof (civil_year _ _ _ H'). apply (year_unique y y' (civilDays y m d)); lia. }
  split; [done|]. destruct H as [Hm Hd], H' as [Hm' Hd']. unfold civilDays in E.
  pose proof (monthStart_next (isLeap y) m Hm). pose proof (monthStart_next (isLeap y) m' Hm').
  destruct (Z.lt_trichotomy m m') as [Hl|[<-|Hl]]; [|lia|].
  - pose proof (monthStart_mono (isLeap y) m m'). lia.
  - pose proof (monthStart_mono (isLeap y) m' m). lia.
Qed.

(** ** The ranges *)
Lemma yearStart_le y y' : y ≤ y' → yearStart y ≤ yearStart y'.
Proof. intros H. destruct (Z.eq_dec y y') as [->|]; [done|]. pose proof (yearStart_mono y y'). lia. Qed.

(** The years of the days of timestamps are years of dates. *)
Lemma timestamp_years y d :
  -106751991168 ≤ d ≤ 106751991167 → yearStart y ≤ d < yearStart (y + 1) → kMinYear ≤ y ≤ kMaxYear.
Proof.
  intros Hd Hy. split.
  - destruct (Z.le_gt_cases kMinYear y); [done|]. pose proof (yearStart_le (y + 1) kMinYear ltac:(lia)) as H'.
    change (yearStart kMinYear) with (-106751991303) in H'. lia.
  - destruct (Z.le_gt_cases y kMaxYear); [done|]. pose proof (yearStart_le (kMaxYear + 1) y ltac:(lia)) as H'.
    change (yearStart (kMaxYear + 1)) with 106751991304 in H'. lia.
Qed.

Lemma timestamp_days s : kMinSeconds ≤ s ≤ kMaxSeconds → -106751991168 ≤ s / 86400 ≤ 106751991167.
Proof. ts_numbers. intros Hs. dlia. Qed.

(** ** The theorems *)

(** C8: for the seconds of every timestamp, [epochToUtc] succeeds, after at most
    five rounds of its search for the year, with a date of the Gregorian
    calendar and a time of day that stand for these seconds, the right day of
    the week and of the year, and [daysSinceEpochFromDate] gives the days of
    that date back. *)
Theorem epochToUtc_date (s : Z) :
  kMinSeconds ≤ s ≤ kMaxSeconds →
  ∃ tm, epochToUtc s = Ok (Some tm) ∧ describes tm s ∧
    daysSinceEpochFromDate (tm_year tm + 1900) (tm_mon tm + 1) (tm_mday tm) = Ok (s / 86400).
Proof.
  intros Hs%timestamp_days. destruct (epochToUtc_describes s) as (tm & He & Hd); [unfold inRange; lia|].
  exists tm. split; [done|]. split; [done|]. destruct Hd as [Hc Hday _ _ _ _ _ _].
  rewrite daysSinceEpochFromDate_spec. replace (tm_mon tm + 1 - 1) with (tm_mon tm) by lia.
  rewrite (proj2 (isValidDate_spec _ _ _)); [by rewrite Hday|]. replace (tm_mon tm + 1 - 1) with (tm_mon tm) by lia.
  split; [done|]. apply (timestamp_years _ (s / 86400)); [done|]. rewrite <- Hday. by apply civil_year.
Qed.

Lemma epochToUtc_date_witness :
  ∃ tm, epochToUtc (-1) = Ok (Some tm) ∧ describes tm (-1) ∧
    daysSinceEpochFromDate (tm_year tm + 1900) (tm_mon tm + 1) (tm_mday tm) = Ok (-1).
Proof. apply (epochToUtc_date (-1)). split; vm_compute; discriminate. Defined.

(** [daysSinceEpochFromDate] takes exactly the dates of the Gregorian
    calendar with a year between [kMinYear] and [kMaxYear], throws on all
    others, and [epochToUtc] recovers the date and the time of day from the
    seconds of every time on such a day. *)
Theorem date_recovered (y m d r : Z) :
  0 ≤ r < 86400 →
  if isValidDate y m d then
    ∃ days tm, daysSinceEpochFromDate y m d = Ok days ∧ epochToUtc (days * 86400 + r) = Ok (Some tm) ∧
      tm_year tm + 1900 = y ∧ tm_mon tm + 1 = m ∧ tm_mday tm = d ∧
      tm_hour tm * 3600 + tm_min tm * 60 + tm_sec tm = r
  else daysSinceEpochFromDate y m d = Throw VeloxUserError.
Proof.
  intros Hr. rewrite daysSinceEpochFromDate_spec. destruct (isValidDate y m d) eqn:Hv; [|done].
  apply isValidDate_spec in Hv as [Hc Hy]. set (days := civilDays y (m - 1) d).
  assert (inRange days) as Hin.
  { pose proof (civil_year _ _ _ Hc) as H. fold days in H. unfold inRange.
    pose proof (yearStart_le kMinYear y ltac:(lia)). pose proof (yearStart_le (y + 1) (kMaxYear + 1) ltac:(lia)).
    change (yearStart kMinYear) with (-106751991303) in *. change (yearStart (kMaxYear + 1)) with 106751991304 in *. lia. }
  destruct (floor_unique 86400 days r (days * 86400 + r)) as [Hq Hm]; [lia | lia|].
  destruct (epochToUtc_describes (days * 86400 + r)) as (tm & He & Hd); [by rewrite Hq|].
  exists days, tm. split; [done|]. split; [done|]. destruct Hd as [Hc' Hday _ _ _ Ht _ _]. rewrite Hq in Hday. rewrite Hm in Ht.
  destruct (civil_unique _ _ _ _ _ _ Hc' Hc Hday) as (? & ? & ?). lia.
Qed.

Lemma date_recovered_witness :
  ∃ days tm, daysSinceEpochFromDate 2000 2 29 = Ok days ∧ epochToUtc (days * 86400 + 1) = Ok (Some tm) ∧
    tm_year tm + 1900 = 2000 ∧ tm_mon tm + 1 = 2 ∧ tm_mday tm = 29 ∧
    tm_hour tm * 3600 + tm_min tm * 60 + tm_sec tm = 1.
Proof. exact (date_recovered 2000 2 29 1 ltac:(lia)). Defined.

(** ** Days of the week *)
Lemma extractISODayOfTheWeek_spec d : extractISODayOfTheWeek d = (d + 3) mod 7 + 1.
Proof. unfold extractISODayOfTheWeek. destruct (Z.ltb_spec d 0); dlia. Qed.

(** A week date falls on its day of the week, in the week of its year that is
    [weekOfYear] - 1 weeks after the one with the fourth of January, as long as
    the days of that year fit in 32 bits. *)
Theorem week_date (wy w dw days : Z) :
  daysSinceEpochFromWeekDate wy w dw = Ok days → is_int32 (civilDays wy 0 4) →
  extractISODayOfTheWeek days = dw ∧
  days - (dw - 1) - 7 * (w - 1) ≤ civilDays wy 0 4 < days - (dw - 1) - 7 * (w - 1) + 7.
Proof.
  unfold daysSinceEpochFromWeekDate. destruct (isValidWeekDate wy w dw) eqn:Hv; [|done]. simpl.
  rewrite daysSinceEpochFromDate_spec. change (1 - 1) with 0. case_match; [|done]. simpl. intros [= <-] H32.
  rewrite swrap_small by (unfold_ints; lia). rewrite !extractISODayOfTheWeek_spec.
  unfold isValidWeekDate in Hv. repeat case_match; try done. set (j := civilDays wy 0 4). dlia.
Qed.

(** Beyond, the number of days is cut to 32 bits before its day of the week is
    taken, and the week starts on another day than Monday. *)
Theorem week_date_narrowed :
  ∃ days, daysSinceEpochFromWeekDate 6000000 1 1 = Ok days ∧ extractISODayOfTheWeek days ≠ 1.
Proof. eexists. split; [vm_compute; reflexivity | vm_compute; discriminate]. Qed.

(** The last day of the month of a date, and the days of a year. *)
Lemma lastDay_spec tm epoch :
  describes tm epoch → kMinYear ≤ tm_year tm + 1900 ≤ kMaxYear →
  lastDayOfMonthSinceEpochFromDate tm =
    Ok (yearStart (tm_year tm + 1900) + monthStart (isLeap (tm_year tm + 1900)) (tm_mon tm + 1) - 1).
Proof.
  intros [[Hm Hd] _ _ _ _ _ _ _] Hy. unfold lastDayOfMonthSinceEpochFromDate, getMaxDayOfMonth. cbv zeta.
  rewrite isLeapYear_isLeap. set (y := tm_year tm + 1900) in *. set (m := tm_mon tm) in *.
  assert (index (if isLeap y then kLeapDays else kNormalDays) (m + 1) = Ok (default 0 (monthLengths (isLeap y) !! Z.to_nat m))) as ->.
  { each_month m; destruct (isLeap y); reflexivity. }
  cbn [mbind outcome_bind]. rewrite daysSinceEpochFromDate_spec.
  rewrite (proj2 (isValidDate_spec _ _ _)); unfold civil, civilDays; replace (m + 1 - 1) with m by lia.
  - rewrite monthStart_next by done. f_equal. lia.
  - lia.
Qed.
