(* ===== verification/TimestampText.v ===== *)
(** * Timestamps as text

    Models [Timestamp::tmToString] and [toString] of [velox/type/Timestamp.cpp]
    and the readers of [velox/type/TimestampConversion.cpp]: dates, times, UTC
    offsets and whole timestamps.  A reader takes the characters from the
    current position on and gives back those it leaves; [Ok None] is a reader
    that returns false. *)
From Stdlib Require Import Ascii String.
From S2P Require Import Prelude Text Bits Digits Timestamp Calendar.
Local Open Scope Z_scope.
Local Open Scope list_scope.

(** ** Writing *)
Inductive Precision := kMilliseconds | kMicroseconds | kNanoseconds.
Inductive Mode := kFull | kDateOnly | kTimeOnly.

Record TimestampToStringOptions := mkOptions {
  precision : Precision;
  leadingPositiveSign : bool;
  skipTrailingZeros : bool;
  zeroPaddingYear : bool;
  dateTimeSeparator : ascii;
  mode : Mode }.

Definition defaultOptions : TimestampToStringOptions := mkOptions kNanoseconds false false false "T"%char kFull.

Definition precisionWidth (p : Precision) : Z :=
  match p with kMilliseconds => 3 | kMicroseconds => 6 | kNanoseconds => 9 end.

Definition intToStr : list text :=
  map txt ["00"; "01"; "02"; "03"; "04"; "05"; "06"; "07"; "08"; "09";
   "10"; "11"; "12"; "13"; "14"; "15"; "16"; "17"; "18"; "19";
   "20"; "21"; "22"; "23"; "24"; "25"; "26"; "27"; "28"; "29";
   "30"; "31"; "32"; "33"; "34"; "35"; "36"; "37"; "38"; "39";
   "40"; "41"; "42"; "43"; "44"; "45"; "46"; "47"; "48"; "49";
   "50"; "51"; "52"; "53"; "54"; "55"; "56"; "57"; "58"; "59";
   "60"; "61"]%string.

(** [out.append(intToStr[n], 2)]. *)
Definition appendSmallInt (n : Z) (out : text) : outcome text :=
  s ← index intToStr n; Ok (out ++ s).

(** [while (out.size() < size) out += '0'], where [out] may already be longer. *)
Fixpoint padLoop (fuel : nat) (size : Z) (out : text) : outcome text :=
  if size <=? Z.of_nat (length out) then Ok out else
  match fuel with
  | O => Throw OutOfFuel
  | S fuel => padLoop fuel size (out ++ ["0"%char])
  end.

(** The year: its digits, zeros and the positive sign are appended from the
    last to the first and reversed, after the minus sign. *)
Definition yearText (tm_year : Z) (options : TimestampToStringOptions) : outcome text :=
  n ← checked32 (kTmYearBase + tm_year);
  let leading := leadingPositiveSign options && (9999 <? n) in
  let negative := n <? 0 in
  let out := if negative then ["-"%char] else [] in
  n ← (if negative then checked32 (- n) else Ok n);
  out ← digitsLoop 10 n out;
  let size := Z.b2z negative + 4 in
  out ← (if zeroPaddingYear options then padLoop 5 size out else Ok out);
  let out := if leading then out ++ ["+"%char] else out in
  let k := if negative then 1%nat else 0%nat in
  Ok (take k out ++ rev (drop k out)).

(** The digits of the fraction when trailing zeros are skipped: [frac] is what
    follows the point, [zeros] is [trailingZeros]. *)
Fixpoint fracLoop (fuel : nat) (nanos : Z) (frac : text) (zeros : Z) : outcome (text * Z) :=
  if nanos <=? 0 then Ok (frac, zeros) else
  match fuel with
  | O => Throw OutOfFuel
  | S fuel =>
      if bool_decide (frac = []) && (Z.rem nanos 10 =? 0)
      then fracLoop fuel (Z.quot nanos 10) frac (zeros + 1)
      else fracLoop fuel (Z.quot nanos 10) (frac ++ [digitChar (Z.rem nanos 10)]) zeros
  end.

(** What follows the seconds. *)
Definition fractionText (nanos : Z) (options : TimestampToStringOptions) : outcome text :=
  let nanos := match precision options with
               | kMilliseconds => Z.quot nanos 1000000
               | kMicroseconds => Z.quot nanos 1000
               | kNanoseconds => nanos
               end in
  if skipTrailingZeros options && (nanos =? 0) then Ok [] else
  '(frac, zeros) ← (if skipTrailingZeros options then fracLoop 20 nanos [] 0
                    else frac ← digitsLoop 20 nanos []; Ok (frac, 0));
  frac ← padLoop 9 (uwrap 64 (precisionWidth (precision options) - zeros)) frac;
  Ok ("."%char :: rev frac).

Definition tmToString (tmValue : Tm) (nanos : Z) (options : TimestampToStringOptions) : outcome text :=
  let time (out : text) : outcome text :=
    out ← appendSmallInt (tm_hour tmValue) out;
    out ← appendSmallInt (tm_min tmValue) (out ++ [":"%char]);
    out ← appendSmallInt (tm_sec tmValue) (out ++ [":"%char]);
    fraction ← fractionText nanos options;
    Ok (out ++ fraction) in
  match mode options with
  | kTimeOnly => time []
  | m =>
      out ← yearText (tm_year tmValue) options;
      out ← appendSmallInt (1 + tm_mon tmValue) (out ++ ["-"%char]);
      out ← appendSmallInt (tm_mday tmValue) (out ++ ["-"%char]);
      match m with
      | kDateOnly => Ok out
      | _ => time (out ++ [dateTimeSeparator options])
      end
  end.

Definition toString (t : Timestamp) (options : TimestampToStringOptions) : outcome text :=
  tm ← epochToUtc (seconds_ t);
  match tm with
  | None => Throw VeloxUserError
  | Some tm => tmToString tm (nanos_ t) options
  end.

(** ** Reading *)
Inductive ParseMode := kStrict | kNonStrict | kStandardCast | kNonStandardCast.
#[global] Instance ParseMode_eq_dec : EqDecision ParseMode.
Proof. solve_decision. Defined.

Definition characterIsSpace (c : ascii) : bool :=
  (code c =? 32) || (code c =? 9) || (code c =? 10) || (code c =? 11) || (code c =? 12) || (code c =? 13).
Definition characterIsDigit (c : ascii) : bool := digitb c.

Fixpoint skipSpaces (s : text) : text :=
  match s with
  | c :: s' => if characterIsSpace c then skipSpaces s' else s
  | [] => []
  end.

(** One or two digits: what is left and the number. *)
Definition parseDoubleDigit (s : text) : option (text * Z) :=
  match s with
  | c :: s =>
      if characterIsDigit c then
        match s with
        | d :: s' => if characterIsDigit d then Some (s', digitVal d + digitVal c * 10) else Some (s, digitVal c)
        | [] => Some ([], digitVal c)
        end
      else None
  | [] => None
  end.

Definition validDate (daysSinceEpoch : Z) : bool := int32b daysSinceEpoch.

(** [checkedPlus], [checkedMultiply] on [int32_t]. *)
Definition user32 (z : Z) : outcome Z := if int32b z then Ok z else Throw VeloxUserError.

(** The loop over the digits of the year; the digit at which the year becomes
    too large is left. *)
Fixpoint parseYear (s : text) (year : Z) : outcome (text * Z) :=
  match s with
  | c :: s' =>
      if characterIsDigit c then
        m ← user32 (year * 10);
        year ← user32 (digitVal c + m);
        if kMaxYear <? year then Ok (s, year) else parseYear s' year
      else Ok (s, year)
  | [] => Ok ([], year)
  end.

Abbreviation parsed A := (outcome (option A)).

(** [Ok None] from a reader ends the caller with the same answer. *)
Definition orFail {A B} (o : option A) (k : A → parsed B) : parsed B :=
  match o with Some a => k a | None => Ok None end.

(** [daysSinceEpoch = ...; return validDate(daysSinceEpoch)], with what is left. *)
Definition checkedDate (rest : text) (year month day : Z) : parsed (text * Z) :=
  days ← daysSinceEpochFromDate year month day;
  Ok (if validDate days then Some (rest, days) else None).

(** A trailing " (BC)", if there is one: what is left. *)
Definition stripBC (s : text) : option text :=
  match s with
  | c0 :: c1 :: c2 :: c3 :: c4 :: s' =>
      if characterIsSpace c0 && is_char c1 "("%char && is_char c2 "B"%char && is_char c3 "C"%char && is_char c4 ")"%char
      then Some s' else None
  | _ => None
  end.

(** The part of [tryParseDateString] after the day. *)
Definition finishDate (mode : ParseMode) (yearneg : bool) (year month day : Z) (s : text) : parsed (text * Z) :=
  match mode with
  | kStandardCast =>
      days ← daysSinceEpochFromDate year month day;
      Ok (if bool_decide (s = []) && validDate days then Some (s, days) else None)
  | kNonStandardCast =>
      days ← daysSinceEpochFromDate year month day;
      Ok (if negb (validDate days) then None else
          match s with
          | [] => Some (s, days)
          | c :: _ => if is_char c "T"%char || is_char c " "%char then Some (s, days) else None
          end)
  | _ =>
      let step := match stripBC s with
                  | Some s' =>
                      if yearneg || (year =? 0) then None
                      else if - year + 1 <? kMinYear then None else Some (s', - year + 1)
                  | None => Some (s, year)
                  end in
      orFail step (λ '(s, year),
        let left_ := match mode with
                     | kStrict => match skipSpaces s with [] => Some [] | _ => None end
                     | _ => match s with c :: _ => if characterIsDigit c then None else Some s | [] => Some s end
                     end in
        orFail left_ (λ s,
          days ← daysSinceEpochFromDate year month day; Ok (Some (s, days))))
  end.

(** The part after the year. *)
Definition parseMonthDay (mode : ParseMode) (yearneg : bool) (year : Z) (s : text) : parsed (text * Z) :=
  let cast := bool_decide (mode = kStandardCast) || bool_decide (mode = kNonStandardCast) in
  match s with
  | [] => if bool_decide (mode = kNonStandardCast) then checkedDate s year 1 1 else Ok None
  | sep :: s =>
      let goodSep := if cast then is_char sep "-"%char
                     else is_char sep " "%char || is_char sep "-"%char || is_char sep "/"%char || is_char sep "\"%char in
      if negb goodSep then Ok None else
      orFail (parseDoubleDigit s) (λ '(s, month),
        match s with
        | [] => if bool_decide (mode = kNonStandardCast) then checkedDate s year month 1 else Ok None
        | c :: s =>
            if negb (is_char c sep) then Ok None else
            orFail (parseDoubleDigit s) (λ '(s, day), finishDate mode yearneg year month day s)
        end)
  end.

Definition tryParseDateString (buf : text) (mode : ParseMode) : parsed (text * Z) :=
  match skipSpaces buf with
  | [] => Ok None
  | c :: s =>
      let '(yearneg, s) := if is_char c "-"%char then (true, s) else if is_char c "+"%char then (false, s) else (false, c :: s) in
      match s with
      | [] => Ok None
      | d :: _ =>
          if negb (characterIsDigit d) then Ok None else
          '(s, year) ← parseYear s 0;
          if yearneg then
            year ← user32 (- year);
            if year <? kMinYear then Ok None else parseMonthDay mode yearneg year s
          else parseMonthDay mode yearneg year s
      end
  end.

(** The digits after the point: those below the microsecond are read and ignored. *)
Fixpoint parseMicros (s : text) (mult micros : Z) : text * Z :=
  match s with
  | c :: s' =>
      if characterIsDigit c
      then parseMicros s' (Z.quot mult 10) (if 0 <? mult then micros + digitVal c * mult else micros)
      else (s, micros)
  | [] => ([], micros)
  end.

Definition fromTime (hour minute second microseconds : Z) : Z :=
  ((hour * 60 + minute) * 60 + second) * 1000000 + microseconds.

(** A colon and one or two digits. *)
Definition colonDigits (s : text) : option (text * Z) :=
  match s with
  | c :: s => if is_char c ":"%char then parseDoubleDigit s else None
  | [] => None
  end.

Definition tryParseTimeString (buf : text) (strict : bool) : option (text * Z) :=
  '(s, hour) ← parseDoubleDigit (skipSpaces buf);
  if (hour <? 0) || (24 <=? hour) then None else
  '(s, min) ← colonDigits s;
  if (min <? 0) || (60 <=? min) then None else
  '(s, sec) ← colonDigits s;
  if (sec <? 0) || (60 <? sec) then None else
  let '(s, micros) := match s with
                      | c :: s' => if is_char c "."%char then parseMicros s' 100000 0 else (s, 0)
                      | [] => (s, 0)
                      end in
  if strict
  then match skipSpaces s with [] => Some ([], fromTime hour min sec micros) | _ => None end
  else Some (s, fromTime hour min sec micros).

(** Two characters that must be digits. *)
Definition twoDigits (a b : ascii) : option Z :=
  if characterIsDigit a && characterIsDigit b then Some (digitVal a * 10 + digitVal b) else None.

(** The offsets in hours and minutes, both with the sign. *)
Definition tryParseUTCOffsetString (s : text) : option (text * Z * Z) :=
  match s with
  | sign :: a :: b :: s =>
      if negb (is_char sign "+"%char || is_char sign "-"%char) then None else
      hour ← twoDigits a b;
      let signed (z : Z) := if is_char sign "-"%char then - z else z in
      match s with
      | [] => Some ([], signed hour, 0)
      | c :: s' =>
          let s := if is_char c ":"%char then s' else s in
          match s with
          | a :: b :: s'' =>
              match twoDigits a b with
              | Some minute => Some (s'', signed hour, signed minute)
              | None => Some (s, signed hour, 0)
              end
          | _ => Some (s, signed hour, 0)
          end
      end
  | _ => None
  end.

Definition fromDatetime (daysSinceEpoch microsSinceMidnight : Z) : outcome Timestamp :=
  p ← checked64 (daysSinceEpoch * 86400);
  s ← add64 p (Z.quot microsSinceMidnight 1000000);
  Ok (mkTimestamp s (uwrap 64 (Z.rem microsSinceMidnight 1000000 * 1000))).

(** [VELOX_USER_FAIL] when the reader returned false. *)
Definition orThrow {A} (o : option A) : outcome A :=
  match o with Some a => Ok a | None => Throw VeloxUserError end.

Definition fromDateString (str : text) : outcome Z :=
  o ← tryParseDateString str kStrict; '(_, days) ← orThrow o; Ok days.

Definition castFromDateString (str : text) (isIso8601 : bool) : outcome Z :=
  o ← tryParseDateString str (if isIso8601 then kStandardCast else kNonStandardCast);
  '(_, days) ← orThrow o; Ok (swrap 32 days).

Definition fromTimeString (str : text) : outcome Z :=
  '(_, micros) ← orThrow (tryParseTimeString str true); Ok micros.

(** What may follow the time: "Z", an offset, blanks. *)
Definition finishTimestamp (timestamp : Timestamp) (s : text) : outcome Timestamp :=
  match s with
  | [] => Ok timestamp
  | c :: s' =>
      let s := if is_char c "Z"%char then s' else s in
      '(s, timestamp) ← match tryParseUTCOffsetString s with
                        | Some (s, hourOffset, minuteOffset) =>
                            seconds ← sub64 (seconds_ timestamp) (hourOffset * 3600 + minuteOffset * 60);
                            Ok (s, mkTimestamp seconds (nanos_ timestamp))
                        | None => Ok (s, timestamp)
                        end;
      match skipSpaces s with [] => Ok timestamp | _ => Throw VeloxUserError end
  end.

Definition fromTimestampString (str : text) : outcome Timestamp :=
  o ← tryParseDateString str kNonStrict;
  '(s, days) ← orThrow o;
  match s with
  | [] => fromDatetime days 0
  | c :: s' =>
      let s := if is_char c " "%char || is_char c "T"%char then s' else s in
      '(s, micros) ← orThrow (tryParseTimeString s false);
      timestamp ← fromDatetime days micros;
      finishTimestamp timestamp s
  end.
