(* ===== verification/TimestampRoundtrip.v ===== *)
(** * Timestamps survive being written and read

    What the writers of [TimestampText] write and what its readers make of it,
    part by part, and the round trip of whole timestamps. *)
From Stdlib Require Import Ascii String.
From S2P Require Import Prelude Text Bits Digits Timestamp Calendar CalendarCorrect CalendarTheorems TimestampText.
Local Open Scope Z_scope.
Local Open Scope list_scope.

(** A text that does not go on with a digit. *)
Definition stops (s : text) : Prop := match s with c :: _ => digitb c = false | [] => True end.

(** ** Two digits *)
Definition two (n : Z) : text := [digitChar (n / 10); digitChar (n mod 10)].

Lemma intToStr_two : intToStr = map two (seqZ 0 62).
Proof. vm_compute. reflexivity. Qed.

Lemma appendSmallInt_two n out : 0 ≤ n ≤ 61 → appendSmallInt n out = Ok (out ++ two n).
Proof.
  intros Hn. unfold appendSmallInt, index. rewrite (proj2 (Z.ltb_ge _ _)) by lia.
  rewrite intToStr_two, list_lookup_fmap, lookup_seqZ_lt by lia. simpl. by rewrite Z2Nat.id by lia.
Qed.

Lemma parseDoubleDigit_two n s : 0 ≤ n ≤ 99 → parseDoubleDigit (two n ++ s) = Some (s, n).
Proof.
  intros Hn. unfold two, parseDoubleDigit, characterIsDigit. simpl app.
  assert (0 ≤ n / 10 ≤ 9 ∧ 0 ≤ n mod 10 ≤ 9 ∧ n = n mod 10 + n / 10 * 10) as (? & ? & ?) by dlia.
  rewrite !(isDigit_char _), !digitVal_char by done. congruence.
Qed.

Lemma digit_not_space c : isDigit c → characterIsSpace c = false.
Proof. unfold isDigit, digitb, characterIsSpace. intros. repeat (apply orb_false_intro); lia. Qed.

Lemma skipSpaces_digit c s : isDigit c → skipSpaces (c :: s) = c :: s.
Proof. intros Hc. simpl. by rewrite digit_not_space. Qed.

(** ** Padding *)
Lemma padLoop_spec fuel size out :
  size - Z.of_nat (length out) ≤ Z.of_nat fuel →
  padLoop fuel size out = Ok (out ++ replicate (Z.to_nat (size - Z.of_nat (length out))) "0"%char).
Proof.
  revert out. induction fuel as [|fuel IH]; intros out Hf; simpl; destruct (Z.leb_spec size (Z.of_nat (length out))).
  1, 3: replace (Z.to_nat (size - _)) with 0%nat by lia; by rewrite app_nil_r.
  - lia.
  - rewrite IH by (rewrite length_app; simpl; lia). rewrite length_app, <- app_assoc. simpl length.
    replace (Z.to_nat (size - Z.of_nat (length out))) with (S (Z.to_nat (size - Z.of_nat (length out + 1)))) by lia. done.
Qed.

(** ** The year *)

(** A year is written as a sign and digits, unless it is 0 and not padded. *)
Lemma yearText_spec tm_year opts :
  let n := tm_year + 1900 in
  Z.abs n < 10 ^ 10 → is_int32 n → is_int32 (- n) → n ≠ 0 ∨ zeroPaddingYear opts = true →
  ∃ sg ds, yearText tm_year opts = Ok (signText sg ++ ds) ∧ ds ≠ [] ∧ Forall isDigit ds ∧
    value ds = Z.abs n ∧ negativeSign sg = (n <? 0).
Proof.
  intros n Hn H32 H32' Hz. unfold yearText, kTmYearBase. replace (1900 + tm_year) with n by (unfold n; lia).
  rewrite checked32_Ok by done. cbn [mbind outcome_bind].
  assert ((if n <? 0 then checked32 (- n) else Ok n) = Ok (Z.abs n)) as ->.
  { destruct (Z.ltb_spec n 0); [rewrite checked32_Ok by done|]; f_equal; lia. }
  cbn [mbind outcome_bind]. rewrite digitsLoop_spec by (simpl Z.of_nat; lia). cbn [mbind outcome_bind].
  set (ds := lastDigits 10 (Z.abs n)). set (mark := if n <? 0 then ["-"%char] else []).
  assert (∃ k, (if zeroPaddingYear opts then padLoop 5 (Z.b2z (n <? 0) + 4) (mark ++ ds) else Ok (mark ++ ds)) =
               Ok (mark ++ ds ++ replicate k "0"%char) ∧ ds ++ replicate k "0"%char ≠ []) as (k & -> & Hne).
  { assert (length mark = Z.to_nat (Z.b2z (n <? 0))) as Hmark by (unfold mark; by destruct (n <? 0)).
    destruct (zeroPaddingYear opts).
    - rewrite padLoop_spec by (destruct (n <? 0); simpl; lia). eexists. rewrite <- app_assoc. split; [done|].
      destruct (decide (ds = [])) as [E|]; [|intros [? _]%app_eq_nil; done].
      rewrite E, app_nil_r, Hmark. destruct (n <? 0); done.
    - exists 0%nat. rewrite !app_nil_r. split; [done|]. apply lastDigits_nonempty; [|lia]. destruct Hz; [lia | done]. }
  cbn [mbind outcome_bind].
  exists (if n <? 0 then Minus else if leadingPositiveSign opts && (9999 <? n) then Plus else NoSign),
    (rev (ds ++ replicate k "0"%char)).
  split_and!.
  - f_equal. unfold mark. destruct (Z.ltb_spec n 0).
    + rewrite (proj2 (Z.ltb_ge 9999 n)), andb_false_r by lia. done.
    + destruct (leadingPositiveSign opts && (9999 <? n)); [|done].
      transitivity (rev ((ds ++ replicate k "0"%char) ++ ["+"%char])); [done|]. by rewrite rev_app_distr.
  - intros E. apply (f_equal (@rev _)) in E. by rewrite rev_involutive in E.
  - apply Forall_rev, Forall_app. split; [apply lastDigits_digits | apply zeros_digits].
  - rewrite value_rev_zeros. apply lastDigits_value. simpl Z.of_nat. lia.
  - destruct (n <? 0); [done|]. by destruct (leadingPositiveSign opts && (9999 <? n)).
Qed.

(** Digits of a year in the range are read. *)
Lemma parseYear_spec ds rest year :
  Forall isDigit ds → 0 ≤ year → valueFrom year ds ≤ kMaxYear → stops rest →
  parseYear (ds ++ rest) year = Ok (rest, valueFrom year ds).
Proof.
  intros Hds. revert year. induction Hds as [|c ds Hc Hds IH]; intros year Hy Hv Hr.
  - simpl app. simpl in Hr. destruct rest as [|c rest]; [done|]. simpl in *. unfold characterIsDigit. by rewrite Hr.
  - simpl in *. unfold characterIsDigit. rewrite Hc. pose proof (digitVal_range c Hc).
    pose proof (valueFrom_ge (year * 10 + digitVal c) ds ltac:(lia) Hds).
    unfold user32, kMaxYear in *. rewrite (proj2 (int32b_spec _)) by (unfold_ints; lia). simpl.
    rewrite (proj2 (int32b_spec _)) by (unfold_ints; lia). simpl.
    replace (digitVal c + year * 10) with (year * 10 + digitVal c) by lia.
    rewrite (proj2 (Z.ltb_ge _ _)) by lia. apply IH; [lia | done | done].
Qed.

(** A sign and the digits of a year in the range, in front of something that
    is not a digit. *)
Lemma tryParseDate_year sg ds rest m :
  ds ≠ [] → Forall isDigit ds → value ds ≤ kMaxYear → stops rest →
  kMinYear ≤ (if negativeSign sg then - value ds else value ds) →
  tryParseDateString (signText sg ++ ds ++ rest) m =
    parseMonthDay m (negativeSign sg) (if negativeSign sg then - value ds else value ds) rest.
Proof.
  intros Hne Hds Hv Hr Hmin. destruct ds as [|c ds]; [done|]. inversion Hds as [|? ? Hc _]; subst.
  unfold tryParseDateString. pose proof (parseYear_spec (c :: ds) rest 0 Hds ltac:(lia) Hv Hr) as Hp.
  simpl app in *. destruct sg; cbn [signText app negativeSign] in *.
  - rewrite skipSpaces_digit by done. rewrite !(digit_not c) by done. unfold characterIsDigit. rewrite Hc.
    cbn [negb]. rewrite Hp. done.
  - change (skipSpaces ("+"%char :: ?s)) with ("+"%char :: s). cbv iota beta.
    change (is_char "+"%char "-"%char) with false. change (is_char "+"%char "+"%char) with true. cbv iota beta.
    unfold characterIsDigit. rewrite Hc. cbn [negb]. by rewrite Hp.
  - change (skipSpaces ("-"%char :: ?s)) with ("-"%char :: s). cbv iota beta.
    change (is_char "-"%char "-"%char) with true. cbv iota beta. unfold characterIsDigit. rewrite Hc. cbn [negb]. rewrite Hp.
    cbn [mbind outcome_bind]. unfold user32. rewrite (proj2 (int32b_spec _)).
    + cbn [mbind outcome_bind]. by rewrite (proj2 (Z.ltb_ge _ _)).
    + pose proof (value_range (c :: ds) Hds). unfold kMinYear in Hmin. unfold_ints. lia.
Qed.

(** The month and the day, between dashes. *)
Lemma parseMonthDay_two m yearneg year mon day rest :
  0 ≤ mon ≤ 99 → 0 ≤ day ≤ 99 →
  parseMonthDay m yearneg year ("-"%char :: two mon ++ "-"%char :: two day ++ rest) =
    finishDate m yearneg year mon day rest.
Proof.
  intros Hm Hd. unfold parseMonthDay.
  assert (is_char "-"%char "-"%char = true) as E by done. rewrite E, !orb_true_r.
  cbn [orb]. destruct (_ || _); cbn [negb]; rewrite parseDoubleDigit_two by done; cbn [orFail negb];
    rewrite E; cbn [negb]; by rewrite parseDoubleDigit_two by done.
Qed.

(** ** The fraction of the second *)

(** The nanoseconds that are written. *)
Definition truncated (p : Precision) (nanos : Z) : Z :=
  match p with
  | kMilliseconds => nanos / 1000000 * 1000000
  | kMicroseconds => nanos / 1000 * 1000
  | kNanoseconds => nanos
  end.

(** The text of a fraction: nothing, or a point and digits. *)
Definition isFraction (f : text) (nanos : Z) : Prop :=
  (f = [] ∧ nanos = 0) ∨
  ∃ fs, f = "."%char :: fs ∧ Forall isDigit fs ∧ (length fs ≤ 9)%nat ∧ value fs * 10 ^ (9 - Z.of_nat (length fs)) = nanos.

Lemma fracLoop_rest fuel n frac zeros :
  frac ≠ [] → fracLoop fuel n frac zeros = (r ← digitsLoop fuel n frac; Ok (r, zeros)).
Proof.
  revert n frac. induction fuel as [|fuel IH]; intros n frac Hne; simpl; destruct (n <=? 0); try done.
  rewrite bool_decide_eq_false_2 by done. simpl. apply IH. by destruct frac.
Qed.

(** Zeros at the end are counted, the other digits are kept. *)
Lemma fracLoop_spec fuel n zeros :
  0 < n < 10 ^ Z.of_nat fuel →
  ∃ (k fuel' : nat) u, n = 10 ^ Z.of_nat k * u ∧ 0 < u < 10 ^ Z.of_nat fuel' ∧
    fracLoop fuel n [] zeros = Ok (lastDigits fuel' u, zeros + Z.of_nat k).
Proof.
  revert n zeros. induction fuel as [|fuel IH]; intros n zeros Hn; [simpl in Hn; lia|].
  pose proof (Z.quot_rem n 10 ltac:(lia)) as Hqr.
  simpl fracLoop. rewrite (proj2 (Z.leb_gt _ _)) by lia. destruct (Z.eqb_spec (Z.rem n 10) 0) as [Hr|Hr]; simpl.
  - destruct (IH (Z.quot n 10) (zeros + 1)) as (k & fuel' & u & Hu & Hr' & ->).
    { split; [lia | apply quot10_lt; lia]. }
    exists (S k), fuel', u. split; [|split; [done | do 2 f_equal; lia]].
    rewrite Nat2Z.inj_succ, Z.pow_succ_r by lia. lia.
  - exists 0%nat, (S fuel), n. split; [simpl; lia|]. split; [done|].
    rewrite fracLoop_rest by done. rewrite digitsLoop_spec by (apply quot10_lt; lia). simpl.
    by rewrite Z.add_0_r, lastDigits_cons by lia.
Qed.

(** Digits padded to a width and reversed. *)
Lemma padded_digits fuel u w :
  0 ≤ u < 10 ^ Z.of_nat w → u < 10 ^ Z.of_nat fuel → (w ≤ 9)%nat →
  ∃ fs, padLoop 9 (Z.of_nat w) (lastDigits fuel u) = Ok (rev fs) ∧ Forall isDigit fs ∧ length fs = w ∧ value fs = u.
Proof.
  intros Hu Hf Hw. pose proof (lastDigits_length fuel u w ltac:(lia)) as Hl.
  exists (rev (lastDigits fuel u ++ replicate (w - length (lastDigits fuel u)) "0"%char)). split_and!.
  - rewrite padLoop_spec, rev_involutive by lia. do 3 f_equal. lia.
  - apply Forall_rev, Forall_app. split; [apply lastDigits_digits | apply zeros_digits].
  - rewrite length_rev, length_app, length_replicate. lia.
  - rewrite value_rev_zeros. apply lastDigits_value; lia.
Qed.

(** The scaled nanoseconds and the width they are written with. *)
Lemma scaled_nanos p nanos :
  0 ≤ nanos ≤ 999999999 →
  let v := match p with kMilliseconds => Z.quot nanos 1000000 | kMicroseconds => Z.quot nanos 1000 | kNanoseconds => nanos end in
  0 ≤ v < 10 ^ precisionWidth p ∧ truncated p nanos = v * 10 ^ (9 - precisionWidth p).
Proof. intros Hn v. unfold v. destruct p; simpl; dlia. Qed.

(** Digits of the width that is left after [k] zeros. *)
Lemma isFraction_digits fs v w (k : nat) :
  Forall isDigit fs → (k ≤ w ≤ 9)%nat → length fs = (w - k)%nat → v = 10 ^ Z.of_nat k * value fs →
  isFraction ("."%char :: fs) (v * 10 ^ (9 - Z.of_nat w)).
Proof.
  intros Hfs Hk Hl ->. right. exists fs. split; [done|]. split; [done|]. split; [lia|]. rewrite Hl.
  replace (9 - Z.of_nat (w - k)) with (Z.of_nat k + (9 - Z.of_nat w)) by lia. rewrite Z.pow_add_r by lia. lia.
Qed.

Lemma pow_factor_lt w k u : 10 ^ Z.of_nat k * u < 10 ^ Z.of_nat w → 0 < u → (k < w)%nat ∧ u < 10 ^ Z.of_nat (w - k).
Proof.
  intros H Hu. assert (0 < 10 ^ Z.of_nat k) by (apply Z.pow_pos_nonneg; lia).
  assert (k < w)%nat as Hk by (apply Nat2Z.inj_lt; apply (Z.pow_lt_mono_r_iff 10); nia).
  split; [done|]. replace (Z.of_nat w) with (Z.of_nat k + Z.of_nat (w - k)) in H by lia.
  rewrite Z.pow_add_r in H by lia. nia.
Qed.

Lemma fractionText_spec nanos opts :
  0 ≤ nanos ≤ 999999999 →
  ∃ f, fractionText nanos opts = Ok f ∧ isFraction f (truncated (precision opts) nanos).
Proof.
  intros Hn. unfold fractionText. destruct (scaled_nanos (precision opts) nanos Hn) as [Hv Ht]. cbv zeta in Hv, Ht.
  set (v := match precision opts with kMilliseconds => _ | kMicroseconds => _ | kNanoseconds => _ end) in *.
  set (p := precision opts) in *. set (w := Z.to_nat (precisionWidth p)).
  assert (precisionWidth p = Z.of_nat w ∧ (w ≤ 9)%nat) as [Hw Hw9] by (unfold w; destruct p; simpl; lia).
  rewrite Hw in *. assert (10 ^ Z.of_nat w ≤ 10 ^ 9) by (apply Z.pow_le_mono_r; lia). rewrite Ht.
  assert (10 ^ 9 < 10 ^ Z.of_nat 20) by reflexivity.
  destruct (skipTrailingZeros opts); simpl andb.
  - destruct (Z.eqb_spec v 0) as [Hv0|Hv0].
    { exists []. split; [done|]. left. rewrite Hv0. split; [done | apply Z.mul_0_l]. }
    destruct (fracLoop_spec 20 v 0) as (k & fuel' & u & Hvu & Hu & ->); [lia|].
    cbn [mbind outcome_bind]. destruct (pow_factor_lt w k u) as [Hk Huw]; [lia | lia|].
    replace (uwrap 64 (Z.of_nat w - (0 + Z.of_nat k))) with (Z.of_nat (w - k)) by (unfold uwrap; rewrite Z.mod_small; lia).
    destruct (padded_digits fuel' u (w - k)) as (fs & -> & Hfs & Hl & Hval); [lia | lia | lia|].
    cbn [mbind outcome_bind]. rewrite rev_involutive. eexists. split; [done|].
    apply (isFraction_digits fs v w k); [done | lia | done | by rewrite Hval].
  - rewrite digitsLoop_spec by lia. cbn [mbind outcome_bind app].
    replace (uwrap 64 (Z.of_nat w - 0)) with (Z.of_nat w) by (unfold uwrap; rewrite Z.mod_small; lia).
    destruct (padded_digits 20 v w) as (fs & -> & Hfs & Hl & Hval); [lia | lia | lia|].
    cbn [mbind outcome_bind]. rewrite rev_involutive. eexists. split; [done|].
    apply (isFraction_digits fs v w 0); [done | lia | lia | simpl; lia].
Qed.

(** *** Reading it *)

(** What a digit is worth when [k] of them count. *)
Definition multOf (k : nat) : Z := match k with O => 0 | S k => 10 ^ Z.of_nat k end.

Lemma multOf_next k : Z.quot (multOf (S k)) 10 = multOf k.
Proof.
  destruct k as [|k]; [done|]. unfold multOf. rewrite Nat2Z.inj_succ, Z.pow_succ_r, Z.mul_comm by lia.
  by rewrite Z.quot_mul by lia.
Qed.

Lemma parseMicros_spec fs rest k acc :
  Forall isDigit fs → stops rest →
  parseMicros (fs ++ rest) (multOf k) acc =
    (rest, acc + value (take k fs) * 10 ^ (Z.of_nat k - Z.of_nat (length (take k fs)))).
Proof.
  intros Hfs Hr. revert k acc. induction Hfs as [|c fs Hc Hfs IH]; intros k acc.
  - rewrite take_nil. simpl. rewrite Z.add_0_r. destruct rest as [|c rest]; [done|]. simpl in *.
    unfold characterIsDigit. by rewrite Hr.
  - simpl app. simpl parseMicros. unfold characterIsDigit. rewrite Hc. destruct k as [|k].
    + rewrite (IH 0%nat). f_equal.
    + rewrite multOf_next, IH. f_equal. unfold multOf. assert (0 < 10 ^ Z.of_nat k) by (apply Z.pow_pos_nonneg; lia).
      rewrite (proj2 (Z.ltb_lt _ _)) by done. simpl take. simpl valueFrom. rewrite (valueFrom_scale (0 * 10 + _)).
      simpl length. set (l := length (take k fs)). assert (l ≤ k)%nat by (unfold l; rewrite length_take; lia).
      replace (Z.of_nat (S k) - Z.of_nat (S l)) with (Z.of_nat k - Z.of_nat l) by lia.
      replace (10 ^ Z.of_nat k) with (10 ^ Z.of_nat l * 10 ^ (Z.of_nat k - Z.of_nat l)) by (rewrite <- Z.pow_add_r by lia; f_equal; lia).
      lia.
Qed.

(** Six digits are microseconds. *)
Lemma parseMicros_fraction fs rest nanos :
  Forall isDigit fs → stops rest → (length fs ≤ 9)%nat → value fs * 10 ^ (9 - Z.of_nat (length fs)) = nanos →
  parseMicros (fs ++ rest) 100000 0 = (rest, nanos / 1000).
Proof.
  intros Hfs Hr Hl Hv. change 100000 with (multOf 6). rewrite parseMicros_spec by done. f_equal. rewrite Z.add_0_l, <- Hv.
  set (l := length fs) in *. destruct (Nat.le_gt_cases 6 l) as [H6|H6].
  - rewrite value_take, length_take by (done || lia). fold l. replace (6 `min` l)%nat with 6%nat by lia.
    rewrite Z.sub_diag, Z.pow_0_r, Z.mul_1_r.
    replace 1000 with (10 ^ Z.of_nat (l - 6) * 10 ^ (9 - Z.of_nat l)).
    + rewrite Z.div_mul_cancel_r; [done | |]; apply Z.pow_nonzero; lia.
    + rewrite <- Z.pow_add_r by lia. replace (Z.of_nat (l - 6) + (9 - Z.of_nat l)) with 3 by lia. done.
  - rewrite take_ge by lia. fold l.
    replace (9 - Z.of_nat l) with (6 - Z.of_nat l + 3) by lia. rewrite Z.pow_add_r by lia.
    change (10 ^ 3) with 1000. rewrite Z.mul_assoc, Z.div_mul by lia. done.
Qed.

(** ** The time *)
Definition timeText (h m s : Z) (f : text) : text := two h ++ ":"%char :: two m ++ ":"%char :: two s ++ f.

Lemma colonDigits_two n s : 0 ≤ n ≤ 99 → colonDigits (":"%char :: two n ++ s) = Some (s, n).
Proof. intros Hn. unfold colonDigits. change (is_char ":"%char ":"%char) with true. by apply parseDoubleDigit_two. Qed.

Lemma skipSpaces_two n s : 0 ≤ n ≤ 99 → skipSpaces (two n ++ s) = two n ++ s.
Proof. intros Hn. apply skipSpaces_digit, isDigit_char. dlia. Qed.

(** The fraction of a text that ends with it. *)
Lemma fraction_read f nanos :
  isFraction f nanos →
  (match f with c :: s' => if is_char c "."%char then parseMicros s' 100000 0 else (f, 0) | [] => (f, 0) end) =
  ([], nanos / 1000).
Proof.
  intros [[-> ->]|(fs & -> & Hfs & Hl & Hv)]; [done|]. change (is_char "."%char "."%char) with true. cbv iota.
  pose proof (parseMicros_fraction fs [] nanos Hfs I Hl Hv) as H. by rewrite app_nil_r in H.
Qed.

Lemma tryParseTimeString_text h m s f nanos strict :
  0 ≤ h < 24 → 0 ≤ m < 60 → 0 ≤ s < 60 → isFraction f nanos →
  tryParseTimeString (timeText h m s f) strict = Some ([], fromTime h m s (nanos / 1000)).
Proof.
  intros Hh Hm Hs Hf. unfold tryParseTimeString, timeText.
  rewrite skipSpaces_two, parseDoubleDigit_two by lia. cbn [mbind option_bind].
  rewrite (proj2 (Z.ltb_ge h 0)), (proj2 (Z.leb_gt 24 h)) by lia. cbn [orb].
  rewrite colonDigits_two by lia. cbn [mbind option_bind].
  rewrite (proj2 (Z.ltb_ge m 0)), (proj2 (Z.leb_gt 60 m)) by lia. cbn [orb].
  rewrite colonDigits_two by lia. cbn [mbind option_bind].
  rewrite (proj2 (Z.ltb_ge s 0)), (proj2 (Z.ltb_ge 60 s)) by lia. cbn [orb].
  rewrite (fraction_read f nanos Hf). by destruct strict.
Qed.

Lemma tmToString_time tm nanos opts :
  0 ≤ tm_hour tm < 24 → 0 ≤ tm_min tm < 60 → 0 ≤ tm_sec tm < 60 → 0 ≤ nanos ≤ 999999999 →
  ∃ f, isFraction f (truncated (precision opts) nanos) ∧
    ∀ out, (out ← appendSmallInt (tm_hour tm) out;
            out ← appendSmallInt (tm_min tm) (out ++ [":"%char]);
            out ← appendSmallInt (tm_sec tm) (out ++ [":"%char]);
            fraction ← fractionText nanos opts;
            Ok (out ++ fraction)) = Ok (out ++ timeText (tm_hour tm) (tm_min tm) (tm_sec tm) f).
Proof.
  intros Hh Hm Hs Hn. destruct (fractionText_spec nanos opts Hn) as (f & Hf & Hfr). exists f. split; [done|]. intros out.
  rewrite !appendSmallInt_two by lia. cbn [mbind outcome_bind]. rewrite !appendSmallInt_two by lia. cbn [mbind outcome_bind].
  rewrite !appendSmallInt_two by lia. cbn [mbind outcome_bind]. rewrite Hf. cbn [mbind outcome_bind].
  unfold timeText. by rewrite <- !app_assoc.
Qed.

(** ** Whole timestamps *)

(** The date of a text: sign, year, month and day. *)
Definition dateText (sg : sign) (ds : text) (mon day : Z) : text :=
  signText sg ++ ds ++ "-"%char :: two mon ++ "-"%char :: two day.

Lemma civil_day31 y mon day :
  1 ≤ day ≤ default 0 (monthLengths (isLeap y) !! Z.to_nat mon) → 0 ≤ mon < 12 → 1 ≤ day ≤ 31.
Proof. intros Hd Hm. each_month mon; destruct (isLeap y); simpl in Hd; lia. Qed.

(** What [toString] writes. *)
Lemma toString_text t opts tm :
  wellFormed t → epochToUtc (seconds_ t) = Ok (Some tm) → describes tm (seconds_ t) →
  kMinYear ≤ tm_year tm + 1900 ≤ kMaxYear →
  tm_year tm + 1900 ≠ 0 ∨ zeroPaddingYear opts = true →
  ∃ sg ds f, ds ≠ [] ∧ Forall isDigit ds ∧ value ds = Z.abs (tm_year tm + 1900) ∧
    negativeSign sg = (tm_year tm + 1900 <? 0) ∧ isFraction f (truncated (precision opts) (nanos_ t)) ∧
    toString t opts = Ok
      (let date := dateText sg ds (1 + tm_mon tm) (tm_mday tm) in
       let time := timeText (tm_hour tm) (tm_min tm) (tm_sec tm) f in
       match mode opts with
       | kFull => date ++ dateTimeSeparator opts :: time
       | kDateOnly => date
       | kTimeOnly => time
       end).
Proof.
  intros [_ Hn] He [[Hmon Hday] _ Hh Hm Hs _ _ _] Hy Hz. change kMaxNanos with 999999999 in Hn.
  unfold kMinYear, kMaxYear in Hy.
  destruct (yearText_spec (tm_year tm) opts) as (sg & ds & Hyt & Hne & Hds & Hv & Hsg); [lia | unfold_ints; lia.. | done|].
  destruct (tmToString_time tm (nanos_ t) opts Hh Hm Hs Hn) as (f & Hf & Htime).
  exists sg, ds, f. do 5 (split; [done|]). unfold toString. rewrite He. cbn [mbind outcome_bind]. unfold tmToString.
  cbv zeta. pose proof (civil_day31 _ _ _ Hday Hmon).
  destruct (mode opts); rewrite ?Hyt; cbn [mbind outcome_bind];
    rewrite ?(appendSmallInt_two (1 + tm_mon tm)) by lia; cbn [mbind outcome_bind];
    rewrite ?(appendSmallInt_two (tm_mday tm)) by lia; cbn [mbind outcome_bind]; rewrite ?Htime; unfold dateText;
    f_equal; rewrite <- ?app_assoc; cbn [app]; by rewrite <- ?app_assoc.
Qed.

(** The date of such a text is read, in front of a separator that is not a
    digit, with what follows. *)
Lemma tryParseDate_text sg ds y mon day rest m :
  ds ≠ [] → Forall isDigit ds → value ds = Z.abs y → negativeSign sg = (y <? 0) →
  kMinYear ≤ y ≤ kMaxYear → 0 ≤ mon ≤ 99 → 0 ≤ day ≤ 99 →
  tryParseDateString (dateText sg ds mon day ++ rest) m = finishDate m (y <? 0) y mon day rest.
Proof.
  intros Hne Hds Hv Hsg Hy Hmon Hday. unfold dateText. rewrite <- !app_assoc. cbn [app]. rewrite <- !app_assoc. cbn [app].
  assert ((if negativeSign sg then - value ds else value ds) = y) as Hyv.
  { rewrite Hsg, Hv. destruct (Z.ltb_spec y 0); lia. }
  unfold kMinYear, kMaxYear in *. rewrite tryParseDate_year; rewrite ?Hyv; unfold kMinYear, kMaxYear; try done; try lia.
  rewrite Hsg. by apply parseMonthDay_two.
Qed.

(** A time after the date is no " (BC)". *)
Lemma stripBC_time sep h m s f : 0 ≤ h < 24 → stripBC (sep :: timeText h m s f) = None.
Proof.
  intros Hh. unfold timeText, two. cbn [app stripBC].
  rewrite (digit_not (digitChar (h / 10)) "("%char) by (done || (apply isDigit_char; dlia)).
  by rewrite andb_false_r.
Qed.

Lemma finishDate_time neg y mon day sep h m s f days :
  sep = "T"%char ∨ sep = " "%char → 0 ≤ h < 24 → daysSinceEpochFromDate y mon day = Ok days →
  finishDate kNonStrict neg y mon day (sep :: timeText h m s f) = Ok (Some (sep :: timeText h m s f, days)).
Proof.
  intros Hsep Hh Hd. unfold finishDate. rewrite stripBC_time by done. cbn [orFail].
  assert (characterIsDigit sep = false) as -> by (by destruct Hsep as [-> | ->]). cbn [orFail]. by rewrite Hd.
Qed.

(** A time of day and the days put together. *)
Lemma fromDatetime_spec secs h m s nanos :
  kMinSeconds ≤ secs ≤ kMaxSeconds → 0 ≤ nanos ≤ 999999999 → 0 ≤ h → 0 ≤ m → 0 ≤ s →
  h * 3600 + m * 60 + s = secs mod 86400 →
  fromDatetime (secs / 86400) (fromTime h m s (nanos / 1000)) = Ok (mkTimestamp secs (nanos / 1000 * 1000)).
Proof.
  ts_numbers. intros Hs Hn Hh Hm Hse Ht. unfold fromDatetime, fromTime, add64.
  assert (0 ≤ nanos / 1000 < 1000000) by dlia.
  set (x := ((h * 60 + m) * 60 + s) * 1000000 + nanos / 1000).
  assert (Z.quot x 1000000 = h * 3600 + m * 60 + s ∧ Z.rem x 1000000 = nanos / 1000) as [-> ->].
  { rewrite Z.quot_div_nonneg, Z.rem_mod_nonneg by lia. apply floor_unique; lia. }
  rewrite Ht. rewrite checked64_Ok by (unfold_ints; dlia). cbn [mbind outcome_bind].
  replace (secs / 86400 * 86400 + secs mod 86400) with secs by dlia.
  rewrite checked64_Ok by (unfold_ints; lia). cbn [mbind outcome_bind]. unfold uwrap. rewrite Z.mod_small by lia. done.
Qed.

Lemma truncated_range p n : 0 ≤ n ≤ 999999999 → 0 ≤ truncated p n ≤ 999999999.
Proof. intros Hn. destruct p; simpl; dlia. Qed.

(** The year is written: it is not 0, or it is padded with zeros. *)
Definition yearWritten (t : Timestamp) (opts : TimestampToStringOptions) : Prop :=
  zeroPaddingYear opts = true ∨ ¬ (yearStart 0 ≤ seconds_ t / 86400 < yearStart 1).

(** What [toString] wrote, with what is known of the date. *)
Lemma toString_known t opts :
  wellFormed t → yearWritten t opts →
  ∃ tm sg ds f, describes tm (seconds_ t) ∧ kMinYear ≤ tm_year tm + 1900 ≤ kMaxYear ∧
    daysSinceEpochFromDate (tm_year tm + 1900) (1 + tm_mon tm) (tm_mday tm) = Ok (seconds_ t / 86400) ∧
    ds ≠ [] ∧ Forall isDigit ds ∧ value ds = Z.abs (tm_year tm + 1900) ∧
    negativeSign sg = (tm_year tm + 1900 <? 0) ∧ isFraction f (truncated (precision opts) (nanos_ t)) ∧
    toString t opts = Ok
      (let date := dateText sg ds (1 + tm_mon tm) (tm_mday tm) in
       let time := timeText (tm_hour tm) (tm_min tm) (tm_sec tm) f in
       match mode opts with
       | kFull => date ++ dateTimeSeparator opts :: time
       | kDateOnly => date
       | kTimeOnly => time
       end).
Proof.
  intros Hw Hy. pose proof (timestamp_days _ (proj1 Hw)) as Hrange.
  destruct (epochToUtc_describes (seconds_ t)) as (tm & He & Hd); [unfold inRange; lia|].
  pose proof (tm_civil _ _ Hd) as Hc. pose proof (tm_days _ _ Hd) as Hday. pose proof (civil_year _ _ _ Hc) as Hcy.
  assert (kMinYear ≤ tm_year tm + 1900 ≤ kMaxYear) as Hyr.
  { apply (timestamp_years _ (seconds_ t / 86400)); [done | lia]. }
  destruct (toString_text t opts tm Hw He Hd Hyr) as (sg & ds & f & H1 & H2 & H3 & H4 & H5 & H6).
  { destruct Hy as [?|Hn]; [by right|]. left. intros E. apply Hn. rewrite <- Hday. rewrite E in Hcy |- *. exact Hcy. }
  exists tm, sg, ds, f. do 2 (split; [done|]). split; [|done].
  replace (1 + tm_mon tm) with (tm_mon tm + 1) by lia. rewrite daysSinceEpochFromDate_spec.
  rewrite (proj2 (isValidDate_spec _ _ _)); replace (tm_mon tm + 1 - 1) with (tm_mon tm) by lia; [by rewrite Hday | done].
Qed.

(** C7: a timestamp written by [toString] with any precision, padding, sign and
    zero options and with a 'T' or a blank between date and time is read back by
    [fromTimestampString] as the same instant, without the part of its
    nanoseconds that was not written or is below the microsecond.  It holds for
    every timestamp whose year is written, that is, is not 0 or is padded. *)
Theorem timestamp_text_roundtrip (t : Timestamp) (opts : TimestampToStringOptions) :
  wellFormed t → yearWritten t opts → mode opts = kFull →
  dateTimeSeparator opts = "T"%char ∨ dateTimeSeparator opts = " "%char →
  ∃ s, toString t opts = Ok s ∧
    fromTimestampString s = Ok (mkTimestamp (seconds_ t) (truncated (precision opts) (nanos_ t) / 1000 * 1000)).
Proof.
  intros Hw Hy Hmode Hsep. destruct (toString_known t opts Hw Hy) as (tm & sg & ds & f & Hd & Hyr & Hdays & Hne & Hds & Hv & Hsg & Hf & ->).
  rewrite Hmode. cbv zeta. eexists. split; [done|]. destruct Hd as [[Hmon Hday] _ Hh Hm Hs Ht _ _], Hw as [Hsec Hn].
  pose proof (civil_day31 _ _ _ Hday Hmon). unfold fromTimestampString.
  rewrite (tryParseDate_text sg ds (tm_year tm + 1900)) by (done || lia).
  rewrite (finishDate_time _ _ _ _ _ _ _ _ _ _ Hsep Hh Hdays). cbn [mbind outcome_bind orThrow].
  assert (is_char (dateTimeSeparator opts) " "%char || is_char (dateTimeSeparator opts) "T"%char = true) as ->
    by (by destruct Hsep as [-> | ->]).
  rewrite (tryParseTimeString_text _ _ _ f _ false Hh Hm Hs Hf). cbn [mbind outcome_bind orThrow].
  change kMaxNanos with 999999999 in Hn. pose proof (truncated_range (precision opts) _ Hn).
  rewrite fromDatetime_spec by (done || lia). done.
Qed.

Lemma timestamp_text_roundtrip_witness :
  ∃ s, toString (mkTimestamp (-9223372036854776) 123456789) defaultOptions = Ok s ∧
    fromTimestampString s = Ok (mkTimestamp (-9223372036854776) 123456000).
Proof.
  apply (timestamp_text_roundtrip (mkTimestamp (-9223372036854776) 123456789) defaultOptions).
  - split; split; vm_compute; discriminate.
  - right. vm_compute. intros [H _]. by apply H.
  - reflexivity.
  - left. reflexivity.
Defined.

(** Dates alone are read back by [fromDateString] and, when their days fit in
    32 bits, by both casts; times alone by [fromTimeString]. *)
Theorem date_and_time_text_roundtrip (t : Timestamp) (opts : TimestampToStringOptions) :
  wellFormed t → yearWritten t opts →
  ∃ s, toString t opts = Ok s ∧
    (mode opts = kDateOnly → fromDateString s = Ok (seconds_ t / 86400) ∧
      ∀ iso, is_int32 (seconds_ t / 86400) → castFromDateString s iso = Ok (seconds_ t / 86400)) ∧
    (mode opts = kTimeOnly → fromTimeString s =
      Ok (seconds_ t mod 86400 * 1000000 + truncated (precision opts) (nanos_ t) / 1000)).
Proof.
  intros Hw Hy. destruct (toString_known t opts Hw Hy) as (tm & sg & ds & f & Hd & Hyr & Hdays & Hne & Hds & Hv & Hsg & Hf & ->).
  cbv zeta. eexists. split; [done|]. destruct Hd as [[Hmon Hday] _ Hh Hm Hs Ht _ _].
  pose proof (civil_day31 _ _ _ Hday Hmon). split; intros ->.
  - assert (∀ m, tryParseDateString (dateText sg ds (1 + tm_mon tm) (tm_mday tm)) m =
      finishDate m (tm_year tm + 1900 <? 0) (tm_year tm + 1900) (1 + tm_mon tm) (tm_mday tm) []) as Hp.
    { intros m. rewrite <- (app_nil_r (dateText _ _ _ _)).
      by rewrite (tryParseDate_text sg ds (tm_year tm + 1900)) by (done || lia). }
    split; [unfold fromDateString; rewrite Hp; unfold finishDate; simpl; by rewrite Hdays|].
    intros iso H32. assert (validDate (seconds_ t / 86400) = true) as Hvd by (by apply int32b_spec).
    assert (swrap 32 (seconds_ t / 86400) = seconds_ t / 86400) as Hsw by (apply swrap_small; unfold_ints; lia).
    unfold castFromDateString. rewrite Hp. destruct iso; unfold finishDate; rewrite Hdays; cbn [mbind outcome_bind];
      rewrite Hvd; simpl; by rewrite Hsw.
  - unfold fromTimeString. rewrite (tryParseTimeString_text _ _ _ f _ true Hh Hm Hs Hf). simpl. f_equal. unfold fromTime. lia.
Qed.

(** ** What is not read back *)

(** A year 0 without padding is written with no digits, and then cannot be
    read; negative years are not affected. *)
Theorem year_zero_unread :
  toString (mkTimestamp (-62150000000) 0) defaultOptions = Ok (txt "-07-18T07:06:40.000000000") ∧
  fromTimestampString (txt "-07-18T07:06:40.000000000") = Throw VeloxUserError.
Proof. split; vm_compute; reflexivity. Qed.

(** The documented form with a blank before the offset is refused; without the
    blank it is taken. *)
Theorem blank_before_offset_refused :
  fromTimestampString (txt "2020-01-01 00:00:00 +00:00") = Throw VeloxUserError ∧
  fromTimestampString (txt "2020-01-01 00:00:00+00:00") = Ok (mkTimestamp 1577836800 0).
Proof. split; vm_compute; reflexivity. Qed.

(** A date that is taken can be past the last timestamp. *)
Theorem read_out_of_range :
  ∃ t, fromTimestampString (txt "292278994-12-31") = Ok t ∧ ¬ wellFormed t.
Proof.
  eexists. split; [vm_compute; reflexivity|]. rewrite wellFormed_fields. lia.
Qed.
