(* ===== verification/TypedFilter.v ===== *)
(** * Filters on timestamps and 128-bit integers

    Models [TimestampRange], [HugeintRange] and [HugeintValuesUsingHashTable]
    of [velox/type/Filter.h] and [Filter.cpp] with the filters without values
    they are combined with: their tests, [mergeWith], copies and serialized
    forms.  A method that a class does not override throws. *)
From Stdlib Require Import Ascii String.
From S2P Require Import Prelude Text Bits Digits HugeInt Timestamp.
Local Open Scope Z_scope.

Inductive Filter :=
| AlwaysFalse
| AlwaysTrue
| IsNull
| IsNotNull
| HugeintRange (lower upper : Z) (nullAllowed : bool)
| HugeintValues (min max : Z) (values : gset Z) (nullAllowed : bool)
| TimestampRange (lower upper : Timestamp) (nullAllowed : bool).

#[global] Instance Filter_eq_dec : EqDecision Filter.
Proof. solve_decision. Defined.

Definition testNull (f : Filter) : bool :=
  match f with
  | AlwaysFalse | IsNotNull => false
  | AlwaysTrue | IsNull => true
  | HugeintRange _ _ n | HugeintValues _ _ _ n | TimestampRange _ _ n => n
  end.

Definition clone (f : Filter) (nullAllowed : option bool) : Filter :=
  match f, nullAllowed with
  | HugeintRange l u _, Some n => HugeintRange l u n
  | HugeintValues l u vs _, Some n => HugeintValues l u vs n
  | TimestampRange l u _, Some n => TimestampRange l u n
  | f, _ => f
  end.

(** ** Constructors *)

(** [HugeintValuesUsingHashTable(min, max, values, nullAllowed)]. *)
Definition newHugeintValues (min max : Z) (values : list Z) (nullAllowed : bool) : outcome Filter :=
  _ ← velox_check (negb (bool_decide (values = [])));
  _ ← velox_check (min <=? max);
  Ok (HugeintValues min max (list_to_set values) nullAllowed).

(** [*std::min_element] and [*std::max_element]; of an empty vector it is the
    value at its end. *)
Definition minElement (values : list Z) : outcome Z :=
  match values with [] => Undefined | v :: vs => Ok (foldl Z.min v vs) end.
Definition maxElement (values : list Z) : outcome Z :=
  match values with [] => Undefined | v :: vs => Ok (foldl Z.max v vs) end.

Definition createHugeintValues (values : list Z) (nullAllowed : bool) : outcome Filter :=
  min ← minElement values; max ← maxElement values; newHugeintValues min max values nullAllowed.

(** ** Tests *)
Definition testInt128 (f : Filter) (value : Z) : outcome bool :=
  match f with
  | AlwaysTrue => Ok true
  | HugeintRange lower upper _ => Ok ((lower <=? value) && (value <=? upper))
  | HugeintValues _ _ values _ => Ok (bool_decide (value ∈ values))
  | _ => Throw VeloxUnsupported
  end.

Definition testInt128Range (f : Filter) (min max : Z) (hasNull : bool) : outcome bool :=
  match f with
  | HugeintRange lower upper nullAllowed =>
      if hasNull && nullAllowed then Ok true else Ok (negb ((upper <? min) || (max <? lower)))
  | _ => Throw VeloxUnsupported
  end.

Definition testTimestamp (f : Filter) (value : Timestamp) : outcome bool :=
  match f with
  | IsNull => Ok false
  | IsNotNull => Ok true
  | TimestampRange lower upper _ => Ok (ts_ge value lower && ts_le value upper)
  | _ => Throw VeloxUnsupported
  end.

Definition testTimestampRange (f : Filter) (min max : Timestamp) (hasNull : bool) : outcome bool :=
  match f with
  | AlwaysFalse => Ok false
  | AlwaysTrue | IsNotNull => Ok true
  | IsNull => Ok hasNull
  | TimestampRange lower upper nullAllowed =>
      if hasNull && nullAllowed then Ok true else Ok (negb (ts_gt min upper || ts_lt max lower))
  | _ => Throw VeloxUnsupported
  end.

Definition isSingleValue (lower upper : Timestamp) : bool := ts_eq lower upper.

(** ** [mergeWith] *)
Definition nullOrFalse (nullAllowed : bool) : Filter := if nullAllowed then IsNull else AlwaysFalse.

(** [std::max] and [std::min] with [operator<]. *)
Definition ts_max (a b : Timestamp) : Timestamp := if ts_lt a b then b else a.
Definition ts_min (a b : Timestamp) : Timestamp := if ts_lt b a then b else a.

(** [TimestampRange::mergeWith]; [rec] is the call on the other filter. *)
Definition timestampRange_mergeWith (rec : Filter → Filter → outcome Filter)
    (lower upper : Timestamp) (nullAllowed : bool) (other : Filter) : outcome Filter :=
  let this := TimestampRange lower upper nullAllowed in
  match other with
  | AlwaysTrue | AlwaysFalse | IsNull => rec other this
  | IsNotNull => Ok (clone this (Some false))
  | TimestampRange lower' upper' nullAllowed' =>
      let bothNullAllowed := nullAllowed && nullAllowed' in
      let lower := ts_max lower lower' in
      let upper := ts_min upper upper' in
      if ts_le lower upper then Ok (TimestampRange lower upper bothNullAllowed) else Ok (nullOrFalse bothNullAllowed)
  | _ => Throw VeloxUnreachable
  end.

(** A call passes the work on to the other filter at most once, so three
    levels of calls are enough ([mergeWith_total]). *)
Fixpoint mergeWithFuel (fuel : nat) (this other : Filter) : outcome Filter :=
  match fuel with
  | O => Throw OutOfFuel
  | S fuel =>
      match this with
      | AlwaysFalse => Ok (clone this None)
      | AlwaysTrue => Ok (clone other None)
      | IsNull => Ok (if testNull other then clone this None else AlwaysFalse)
      | IsNotNull =>
          match other with
          | AlwaysTrue | IsNotNull => Ok (clone this None)
          | AlwaysFalse | IsNull => Ok AlwaysFalse
          | _ => mergeWithFuel fuel other this
          end
      | TimestampRange lower upper nullAllowed =>
          timestampRange_mergeWith (mergeWithFuel fuel) lower upper nullAllowed other
      | HugeintRange _ _ _ | HugeintValues _ _ _ _ => Throw VeloxUnsupported
      end
  end.

Definition mergeWith (this other : Filter) : outcome Filter := mergeWithFuel 3 this other.

(** ** Serialized forms

    The members of the [folly::dynamic] object that [create] reads, under the
    name that selects it; an unsigned number is stored as an [int64_t]. *)
Inductive Serialized :=
| SAlwaysFalse | SAlwaysTrue | SIsNull | SIsNotNull
| SHugeintRange (lower upper : text) (nullAllowed : bool)
| SHugeintValues (min_lower min_upper max_lower max_upper : Z) (lower_values upper_values : list Z) (nullAllowed : bool)
| STimestampRange (lower upper : Z * Z) (nullAllowed : bool).

Definition dynamicInt (z : Z) : Z := swrap 64 z.

Definition timestampSerialize (t : Timestamp) : Z * Z := (seconds_ t, dynamicInt (nanos_ t)).
Definition timestampCreate (obj : Z * Z) : Timestamp := mkTimestamp obj.1 (uwrap 64 obj.2).

Definition serialize (f : Filter) : outcome Serialized :=
  match f with
  | AlwaysFalse => Ok SAlwaysFalse
  | AlwaysTrue => Ok SAlwaysTrue
  | IsNull => Ok SIsNull
  | IsNotNull => Ok SIsNotNull
  | HugeintRange lower upper n =>
      l ← to_string lower; u ← to_string upper; Ok (SHugeintRange l u n)
  | HugeintValues min max values n =>
      Ok (SHugeintValues (dynamicInt (HugeInt.lower min)) (dynamicInt (HugeInt.upper min))
            (dynamicInt (HugeInt.lower max)) (dynamicInt (HugeInt.upper max))
            (map (λ v, dynamicInt (HugeInt.lower v)) (elements values))
            (map (λ v, dynamicInt (HugeInt.upper v)) (elements values)) n)
  | TimestampRange lower upper n => Ok (STimestampRange (timestampSerialize lower) (timestampSerialize upper) n)
  end.

(** [HugeInt::build] takes [uint64_t] arguments. *)
Definition buildInts (hi lo : Z) : Z := build (uwrap 64 hi) (uwrap 64 lo).

(** The loop reads the second array at the indexes of the first. *)
Fixpoint deserializeHugeintValues (lowers uppers : list Z) : outcome (list Z) :=
  match lowers, uppers with
  | [], _ => Ok []
  | l :: ls, u :: us => vs ← deserializeHugeintValues ls us; Ok (buildInts u l :: vs)
  | _ :: _, [] => Throw (RuntimeError "out of range")
  end.

Definition create (obj : Serialized) : outcome Filter :=
  match obj with
  | SAlwaysFalse => Ok AlwaysFalse
  | SAlwaysTrue => Ok AlwaysTrue
  | SIsNull => Ok IsNull
  | SIsNotNull => Ok IsNotNull
  | SHugeintRange l u n => lower ← parse l; upper ← parse u; Ok (HugeintRange lower upper n)
  | SHugeintValues ml mu xl xu ls us n =>
      values ← deserializeHugeintValues ls us; newHugeintValues (buildInts mu ml) (buildInts xu xl) values n
  | STimestampRange l u n => Ok (TimestampRange (timestampCreate l) (timestampCreate u) n)
  end.

(** ** What a filter accepts: [None] is null *)
Definition acceptsTimestamp (f : Filter) (v : option Timestamp) : bool :=
  match v with
  | None => testNull f
  | Some t => match f with
              | AlwaysTrue | IsNotNull => true
              | TimestampRange lower upper _ => ts_le lower t && ts_le t upper
              | _ => false
              end
  end.

(** The filters for a column of timestamps. *)
Definition onTimestamps (f : Filter) : bool :=
  match f with HugeintRange _ _ _ | HugeintValues _ _ _ _ => false | _ => true end.

(** ** Correctness on timestamps *)
Definition filter_wf (f : Filter) : Prop :=
  match f with
  | TimestampRange lower upper _ => wellFormed lower ∧ wellFormed upper
  | HugeintRange lower upper _ => is_int128 lower ∧ is_int128 upper
  | HugeintValues min max values _ =>
      values ≠ ∅ ∧ is_int128 min ∧ is_int128 max ∧ min ≤ max ∧ ∀ v, v ∈ values → is_int128 v
  | _ => True
  end.

(** Comparisons are those of the nanoseconds since the epoch. *)
Ltac ts_cases :=
  repeat match goal with
  | Ha : wellFormed ?a, Hb : wellFormed ?b |- context [ts_lt ?a ?b] =>
      destruct (ts_order a b Ha Hb) as (_ & _ & -> & _)
  | Ha : wellFormed ?a, Hb : wellFormed ?b |- context [ts_le ?a ?b] =>
      destruct (ts_order a b Ha Hb) as (_ & _ & _ & -> & _)
  | Ha : wellFormed ?a, Hb : wellFormed ?b |- context [ts_gt ?a ?b] =>
      destruct (ts_order a b Ha Hb) as (_ & _ & _ & _ & -> & _)
  | Ha : wellFormed ?a, Hb : wellFormed ?b |- context [ts_ge ?a ?b] =>
      destruct (ts_order a b Ha Hb) as (_ & _ & _ & _ & _ & ->)
  end.

Lemma ts_max_wf a b : wellFormed a → wellFormed b → wellFormed (ts_max a b).
Proof. unfold ts_max. by destruct (ts_lt a b). Qed.
Lemma ts_min_wf a b : wellFormed a → wellFormed b → wellFormed (ts_min a b).
Proof. unfold ts_min. by destruct (ts_lt b a). Qed.
#[export] Hint Resolve ts_max_wf ts_min_wf : cactus.

Lemma ts_max_nanos a b :
  wellFormed a → wellFormed b → nanosSinceEpoch (ts_max a b) = Z.max (nanosSinceEpoch a) (nanosSinceEpoch b).
Proof. intros Ha Hb. unfold ts_max. ts_cases. case_match; lia. Qed.
Lemma ts_min_nanos a b :
  wellFormed a → wellFormed b → nanosSinceEpoch (ts_min a b) = Z.min (nanosSinceEpoch a) (nanosSinceEpoch b).
Proof. intros Ha Hb. unfold ts_min. ts_cases. case_match; lia. Qed.

(** Two ranges give the range of the common values, or null alone, or nothing. *)
Lemma ranges_meet l u n l' u' n' v :
  wellFormed l → wellFormed u → wellFormed l' → wellFormed u' → (∀ t, v = Some t → wellFormed t) →
  acceptsTimestamp
    (if ts_le (ts_max l l') (ts_min u u') then TimestampRange (ts_max l l') (ts_min u u') (n && n')
     else nullOrFalse (n && n')) v =
  acceptsTimestamp (TimestampRange l u n) v && acceptsTimestamp (TimestampRange l' u' n') v.
Proof.
  intros Hl Hu Hl' Hu' Hv.
  pose proof (ts_max_wf l l' Hl Hl') as Hm. pose proof (ts_min_wf u u' Hu Hu') as Hm'.
  destruct v as [t|]; [specialize (Hv t eq_refl)|]; unfold nullOrFalse.
  - ts_cases. rewrite ts_max_nanos, ts_min_nanos by done.
    destruct (Z.leb_spec (nanosSinceEpoch l `max` nanosSinceEpoch l') (nanosSinceEpoch u `min` nanosSinceEpoch u')) as [H|H];
      [|destruct n, n']; simpl; ts_cases; rewrite ?ts_max_nanos, ?ts_min_nanos by done;
      apply eq_bool_prop_intro; rewrite ?Is_true_true; lia.
  - by destruct (ts_le _ _), n, n'.
Qed.

Lemma clone_accepts f n v : acceptsTimestamp (clone f n) v =
  match v, n, f with None, Some n, (HugeintRange _ _ _ | HugeintValues _ _ _ _ | TimestampRange _ _ _) => n
  | _, _, _ => acceptsTimestamp f v end.
Proof. by destruct f, n, v. Qed.

(** merging two filters for a column of timestamps always succeeds, and the
    result accepts exactly the timestamps, and null, that both accept. *)
Theorem timestamp_mergeWith_conjunction (a b : Filter) :
  onTimestamps a = true → onTimestamps b = true → filter_wf a → filter_wf b →
  ∃ f, mergeWith a b = Ok f ∧ onTimestamps f = true ∧ filter_wf f ∧
    ∀ v, (∀ t, v = Some t → wellFormed t) →
      acceptsTimestamp f v = acceptsTimestamp a v && acceptsTimestamp b v.
Proof.
  intros Ha Hb Hwa Hwb.
  destruct a as [| | | |? ? ?|? ? ? ?|l u n], b as [| | | |? ? ?|? ? ? ?|l' u' n']; try discriminate;
    try (eexists; split; [reflexivity|]; split; [done|]; split; [done|]; intros [t|] _; simpl;
         by rewrite ?andb_false_r, ?andb_true_r).
  - exists (nullOrFalse n'). destruct n'; (do 3 (split; [done|])); by intros [t|] _.
  - exists (nullOrFalse n). destruct n; (do 3 (split; [done|])); intros [t|] _; simpl; by rewrite ?andb_false_r.
  - destruct Hwa as [Hl Hu], Hwb as [Hl' Hu'].
    exists (if ts_le (ts_max l l') (ts_min u u') then TimestampRange (ts_max l l') (ts_min u u') (n && n')
            else nullOrFalse (n && n')).
    split; [unfold mergeWith; simpl; by destruct (ts_le _ _)|].
    split; [destruct (ts_le _ _), n, n'; done|].
    split; [destruct (ts_le _ _), n, n'; simpl; auto with cactus|].
    intros v Hv. by apply ranges_meet.
Qed.

Lemma timestamp_mergeWith_conjunction_witness :
  ∃ f, mergeWith (TimestampRange (mkTimestamp 0 5) maxTimestamp true) IsNotNull = Ok f ∧ onTimestamps f = true ∧
    filter_wf f ∧ ∀ v, (∀ t, v = Some t → wellFormed t) →
      acceptsTimestamp f v =
      acceptsTimestamp (TimestampRange (mkTimestamp 0 5) maxTimestamp true) v && acceptsTimestamp IsNotNull v.
Proof.
  apply (timestamp_mergeWith_conjunction (TimestampRange (mkTimestamp 0 5) maxTimestamp true) IsNotNull).
  - reflexivity.
  - reflexivity.
  - split; split; vm_compute; split; discriminate.
  - exact I.
Defined.

(** A range with both ends in order passes the test on column statistics
    exactly when some value between the minimum and the maximum, or null,
    passes it. *)
Theorem testTimestampRange_exact l u n min max hasNull :
  wellFormed l → wellFormed u → wellFormed min → wellFormed max →
  ts_le l u = true → ts_le min max = true →
  testTimestampRange (TimestampRange l u n) min max hasNull = Ok true ↔
  (hasNull = true ∧ acceptsTimestamp (TimestampRange l u n) None = true) ∨
  ∃ t, wellFormed t ∧ ts_le min t = true ∧ ts_le t max = true ∧ acceptsTimestamp (TimestampRange l u n) (Some t) = true.
Proof.
  intros Hl Hu Hmin Hmax. simpl. ts_cases. intros Hlu Hmm. split.
  - destruct hasNull, n; simpl; intros H; try (by left).
    all: right; exists (ts_max l min); pose proof (ts_max_wf l min Hl Hmin) as Hw; split; [done|]; ts_cases;
      rewrite !ts_max_nanos by done; injection H as H; rewrite negb_true_iff, orb_false_iff in H; rewrite !andb_true_iff; lia.
  - intros [[-> ->]|(t & Ht & H1 & H2 & H3)]; [done|]. revert H1 H2 H3. ts_cases. intros H1 H2 H3.
    destruct (hasNull && n); [done|]. f_equal. rewrite negb_true_iff, orb_false_iff. rewrite andb_true_iff in H3. lia.
Qed.

(** ** Serialized forms *)
Lemma dynamicInt_back z : 0 ≤ z < 2 ^ 64 → uwrap 64 (dynamicInt z) = z.
Proof.
  intros Hz. unfold dynamicInt, swrap, uwrap. rewrite Zminus_mod_idemp_l.
  replace (z + 2 ^ (64 - 1) - 2 ^ (64 - 1)) with z by lia. by apply Z.mod_small.
Qed.

Lemma buildInts_back v : is_int128 v → buildInts (dynamicInt (HugeInt.upper v)) (dynamicInt (HugeInt.lower v)) = v.
Proof.
  intros Hv. unfold buildInts. rewrite !dynamicInt_back by (apply uwrap_range; lia). by apply build_halves.
Qed.

Lemma deserialize_values vs :
  Forall is_int128 vs →
  deserializeHugeintValues (map (λ v, dynamicInt (HugeInt.lower v)) vs) (map (λ v, dynamicInt (HugeInt.upper v)) vs) = Ok vs.
Proof. induction 1 as [|v vs Hv _ IH]; [done|]. simpl. rewrite IH. simpl. by rewrite buildInts_back. Qed.

Lemma timestamp_back t : wellFormed t → timestampCreate (timestampSerialize t) = t.
Proof.
  intros [_ Hn]. change kMaxNanos with 999999999 in Hn. destruct t as [s n]. unfold timestampCreate, timestampSerialize. simpl in *.
  by rewrite dynamicInt_back by lia.
Qed.

(** C32: a filter on timestamps or on 128-bit integers that is serialized and
    created again is the same filter: decimal strings, 64-bit halves and the
    signed storage of unsigned numbers lose nothing, and no step fails. *)
Theorem typed_filter_serialization (f : Filter) :
  filter_wf f → ∃ obj, serialize f = Ok obj ∧ create obj = Ok f.
Proof.
  destruct f as [| | | |l u n|mn mx vs n|l u n]; intros Hw; try (by eexists).
  - destruct Hw as [Hl Hu]. destruct (hugeint_text_roundtrip l Hl) as (sl & Hsl & Hpl).
    destruct (hugeint_text_roundtrip u Hu) as (su & Hsu & Hpu). unfold serialize. rewrite Hsl, Hsu. eexists.
    split; [done|]. cbn [mbind outcome_bind create]. rewrite Hpl, Hpu. done.
  - destruct Hw as (Hne & Hmn & Hmx & Hle & Hvs). eexists. split; [done|]. cbn [create].
    rewrite deserialize_values by (apply Forall_forall; intros v Hv; apply Hvs; by apply elem_of_elements).
    cbn [mbind outcome_bind]. unfold newHugeintValues. rewrite !buildInts_back by done.
    rewrite bool_decide_eq_false_2 by (intros ?%elements_empty_inv%leibniz_equiv; done). rewrite (proj2 (Z.leb_le _ _)) by done.
    cbn. do 2 f_equal. by rewrite list_to_set_elements_L.
  - destruct Hw as [Hl Hu]. eexists. split; [done|]. cbn [create]. by rewrite !timestamp_back.
Qed.

Lemma typed_filter_serialization_witness :
  ∃ obj, serialize (HugeintValues (-1) 5 {[-1; 5]} true) = Ok obj ∧ create obj = Ok (HugeintValues (-1) 5 {[-1; 5]} true).
Proof.
  apply (typed_filter_serialization (HugeintValues (-1) 5 {[-1; 5]} true)).
  split; [discriminate|]. split; [split; vm_compute; discriminate|]. split; [split; vm_compute; discriminate|].
  split; [lia|]. intros v Hv. assert (v = -1 ∨ v = 5) as [-> | ->] by set_solver; split; vm_compute; discriminate.
Defined.

(** ** Values *)
Lemma foldl_min_le v vs x : x ∈ v :: vs → foldl Z.min v vs ≤ x.
Proof.
  revert v x. induction vs as [|w vs IH]; intros v x Hx; simpl; [apply list_elem_of_singleton in Hx; lia|].
  assert (foldl Z.min (v `min` w) vs ≤ v `min` w) by (apply IH; by left).
  apply elem_of_cons in Hx as [->|[->|Hx]%elem_of_cons]; [lia | lia|]. apply IH. by right.
Qed.

Lemma foldl_max_ge v vs x : x ∈ v :: vs → x ≤ foldl Z.max v vs.
Proof.
  revert v x. induction vs as [|w vs IH]; intros v x Hx; simpl; [apply list_elem_of_singleton in Hx; lia|].
  assert (v `max` w ≤ foldl Z.max (v `max` w) vs) by (apply IH; by left).
  apply elem_of_cons in Hx as [->|[->|Hx]%elem_of_cons]; [lia | lia|]. apply IH. by right.
Qed.

(** The factory of IN-lists succeeds on every list that is not empty, and its
    filter accepts exactly the values of the list. *)
Theorem createHugeintValues_membership vs n :
  vs ≠ [] → ∃ f, createHugeintValues vs n = Ok f ∧ testNull f = n ∧ ∀ v, testInt128 f v = Ok (bool_decide (v ∈ vs)).
Proof.
  intros Hne. destruct vs as [|v vs]; [done|]. unfold createHugeintValues, newHugeintValues. simpl.
  pose proof (foldl_min_le v vs v ltac:(by left)). pose proof (foldl_max_ge v vs v ltac:(by left)).
  rewrite (proj2 (Z.leb_le _ _)) by lia. cbn [mbind outcome_bind velox_check]. eexists. split; [done|]. split; [done|].
  intros x. simpl. f_equal. apply bool_decide_ext. set_solver.
Qed.

(** ** What is not supported *)

(** Two disjoint ranges merge to a filter that throws when a timestamp is
    tested against it. *)
Theorem disjoint_ranges_untestable :
  ∃ f, mergeWith (TimestampRange (mkTimestamp 0 0) (mkTimestamp 1 0) false)
                 (TimestampRange (mkTimestamp 2 0) (mkTimestamp 3 0) false) = Ok f ∧
    testTimestamp f (mkTimestamp 0 0) = Throw VeloxUnsupported.
Proof. eexists. split; reflexivity. Qed.

(** The null tests cannot be applied to 128-bit integers, nor merged with
    their filters. *)
Theorem null_tests_unsupported (v l u : Z) (n : bool) :
  testInt128 IsNull v = Throw VeloxUnsupported ∧ testInt128 IsNotNull v = Throw VeloxUnsupported ∧
  mergeWith IsNotNull (HugeintRange l u n) = Throw VeloxUnsupported.
Proof. done. Qed.
