(* ===== verification/OutputBuffer.v ===== *)
(** * Task output buffers

    Models [velox/exec/OutputBuffer.h] and [velox/exec/OutputBuffer.cpp]: the
    buffer between the drivers of a task and the consumers of its output.
    Pages are enqueued for one destination, for all of them, or for whichever
    asks first; consumers fetch pages by sequence number, acknowledge them, or
    delete what is left; producers are blocked while too many bytes are
    buffered.

    A page is held by [shared_ptr]s: [page_id] is its address, and its
    reference count is the number of places of the state that hold it.  The
    vectors [freed] that a thread still owns after it has left the critical
    section are the list [releasing_].  A function ending in [Locked] is a
    critical section; the public functions release what it freed before they
    return.  [OutputBufferReach] interleaves the critical sections and the
    releases of several threads.  Callbacks, promises and futures are numbered; the calls made
    outside of the mutex are returned as [Effects].  A failed check throws,
    and the state is then not described any further.  Byte and page counts
    are integers without bound: they stay far below 2^63. *)
From S2P Require Import Prelude.
Local Open Scope Z_scope.

(** [velox/exec/ExchangeQueue.h]. *)
Record SerializedPage := mkPage { page_id : nat; page_size : Z; numRows_ : option Z }.

#[global] Instance page_eq_dec : EqDecision SerializedPage.
Proof. solve_decision. Defined.
#[global] Instance page_countable : Countable SerializedPage.
Proof.
  refine (inj_countable' (λ p, (page_id p, page_size p, numRows_ p))
    (λ t, mkPage t.1.1 t.1.2 t.2) _). by intros [].
Defined.

(** [numRows().value()]. *)
Definition rowsOf (p : SerializedPage) : outcome Z :=
  match numRows_ p with Some n => Ok n | None => Throw (RuntimeError "bad_optional_access") end.

(** A [nullptr] page is the end marker. *)
Abbreviation marked := (option SerializedPage).

(** The callback of a fetch with its arguments. *)
Record DataAvailable := mkDataAvailable { callback : nat; da_sequence : Z; da_data : list marked }.

(** ** [ArbitraryBuffer] *)
Abbreviation ArbitraryBuffer := (list marked).

Definition hasNoMoreData (pages_ : ArbitraryBuffer) : bool :=
  match last pages_ with Some None => true | _ => false end.

Definition ab_empty (pages_ : ArbitraryBuffer) : bool :=
  match pages_ with [] => true | [None] => true | _ => false end.

Definition ab_noMoreData (pages_ : ArbitraryBuffer) : ArbitraryBuffer :=
  if hasNoMoreData pages_ then pages_ else pages_ ++ [None].

Definition ab_enqueue (page : SerializedPage) (pages_ : ArbitraryBuffer) : outcome ArbitraryBuffer :=
  velox_check (negb (hasNoMoreData pages_)) ;; Ok (pages_ ++ [Some page]).

Fixpoint getPagesLoop (bytesRemoved maxBytes : Z) (pages_ : ArbitraryBuffer) : outcome (list marked * ArbitraryBuffer) :=
  if bytesRemoved <? maxBytes then
    match pages_ with
    | [] => Ok ([], [])
    | None :: rest => velox_check (length pages_ =? 1)%nat ;; Ok ([None], pages_)
    | Some p :: rest =>
        '(pages, remaining) ← getPagesLoop (bytesRemoved + page_size p) maxBytes rest;
        Ok (Some p :: pages, remaining)
    end
  else Ok ([], pages_).

Definition getPages (maxBytes : Z) (pages_ : ArbitraryBuffer) : outcome (list marked * ArbitraryBuffer) :=
  velox_check (maxBytes >? 0) ;; getPagesLoop 0 maxBytes pages_.

(** ** [DestinationBuffer] *)
Record Stats := mkStats {
  finished : bool;
  bytesBuffered : Z; rowsBuffered : Z; pagesBuffered : Z;
  bytesSent : Z; rowsSent : Z; pagesSent : Z
}.
Definition newStats : Stats := mkStats false 0 0 0 0 0 0.
#[global] Instance stats_copyable : Copyable Stats := λ s,
  mkStats (finished s) (bytesBuffered s) (rowsBuffered s) (pagesBuffered s) (bytesSent s) (rowsSent s) (pagesSent s).

Definition recordEnqueue (data : SerializedPage) (s : Stats) : outcome Stats :=
  velox_check (bool_decide (is_Some (numRows_ data))) ;;
  rows ← rowsOf data;
  Ok (s <| bytesBuffered := bytesBuffered s + page_size data |>
        <| rowsBuffered := rowsBuffered s + rows |>
        <| pagesBuffered := pagesBuffered s + 1 |>).

Definition recordAcknowledge (data : SerializedPage) (s : Stats) : outcome Stats :=
  velox_check (bool_decide (is_Some (numRows_ data))) ;;
  rows ← rowsOf data;
  Ok (s <| bytesBuffered := bytesBuffered s - page_size data |>
        <| rowsBuffered := rowsBuffered s - rows |>
        <| pagesBuffered := pagesBuffered s - 1 |>
        <| bytesSent := bytesSent s + page_size data |>
        <| rowsSent := rowsSent s + rows |>
        <| pagesSent := pagesSent s + 1 |>).

Definition recordDelete (data : SerializedPage) (s : Stats) : outcome Stats := recordAcknowledge data s.

Record DestinationBuffer := mkDestination {
  data_ : list marked;
  sequence_ : Z;
  notify_ : option nat;
  notifySequence_ : Z;
  notifyMaxBytes_ : Z;
  stats_ : Stats
}.
Definition newDestinationBuffer : DestinationBuffer := mkDestination [] 0 None 0 0 newStats.
#[global] Instance destination_copyable : Copyable DestinationBuffer := λ d,
  mkDestination (data_ d) (sequence_ d) (notify_ d) (notifySequence_ d) (notifyMaxBytes_ d) (stats_ d).

Definition db_size (d : DestinationBuffer) : Z := Z.of_nat (length (data_ d)).

Definition db_enqueue (data : marked) (d : DestinationBuffer) : outcome DestinationBuffer :=
  match data with
  | None => if hasNoMoreData (data_ d) then Ok d else Ok (d <| data_ := data_ d ++ [None] |>)
  | Some p => s ← recordEnqueue p (stats_ d); Ok (d <| stats_ := s |> <| data_ := data_ d ++ [Some p] |>)
  end.

Definition loadData (buffer : ArbitraryBuffer) (maxBytes : Z) (d : DestinationBuffer)
    : outcome (DestinationBuffer * ArbitraryBuffer) :=
  '(pages, buffer) ← getPages maxBytes buffer;
  d ← foldM_o (λ d page, db_enqueue page d) pages d;
  Ok (d, buffer).

(** The pages from a position on, until [maxBytes] are reached. *)
Fixpoint collectPages (resultBytes maxBytes : Z) (data : list marked) : outcome (list marked) :=
  match data with
  | [] => Ok []
  | None :: rest => velox_check (length rest =? 0)%nat ;; Ok [None]
  | Some p :: rest =>
      let resultBytes := resultBytes + page_size p in
      if resultBytes >=? maxBytes then Ok [Some p]
      else result ← collectPages resultBytes maxBytes rest; Ok (Some p :: result)
  end.

Definition waitFor (notify : option nat) (sequence maxBytes : Z) (d : DestinationBuffer) : DestinationBuffer :=
  d <| notify_ := notify |> <| notifySequence_ := sequence |> <| notifyMaxBytes_ := maxBytes |>.

(** The pages, the buffer, and the arbitrary buffer if one is given. *)
Definition db_getData (maxBytes sequence : Z) (notify : option nat) (arbitraryBuffer : option ArbitraryBuffer)
    (d : DestinationBuffer) : outcome (list marked * DestinationBuffer * option ArbitraryBuffer) :=
  velox_check (sequence >=? sequence_ d) ;;
  '(d, arbitraryBuffer) ← match arbitraryBuffer with
                          | Some buffer => '(d, buffer) ← loadData buffer maxBytes d; Ok (d, Some buffer)
                          | None => Ok (d, None)
                          end;
  if sequence - sequence_ d >? db_size d then
    Ok ([], waitFor notify (Z.min (notifySequence_ d) sequence) maxBytes d, arbitraryBuffer)
  else if sequence - sequence_ d =? db_size d then
    Ok ([], waitFor notify sequence maxBytes d, arbitraryBuffer)
  else
    result ← collectPages 0 maxBytes (drop (Z.to_nat (sequence - sequence_ d)) (data_ d));
    Ok (result, d, arbitraryBuffer).

Definition getAndClearNotify (d : DestinationBuffer) : outcome (option DataAvailable * DestinationBuffer) :=
  match notify_ d with
  | None => Ok (None, d)
  | Some cb =>
      '(data, d', _) ← db_getData (notifyMaxBytes_ d) (notifySequence_ d) None None d;
      Ok (Some (mkDataAvailable cb (notifySequence_ d) data),
          d' <| notify_ := None |> <| notifySequence_ := 0 |> <| notifyMaxBytes_ := 0 |>)
  end.

Definition finish (d : DestinationBuffer) : outcome DestinationBuffer :=
  velox_check (bool_decide (notify_ d = None)) ;;
  velox_check (bool_decide (data_ d = [])) ;;
  Ok (d <| stats_ := (stats_ d) <| finished := true |> |>).

Definition maybeLoadData (buffer : ArbitraryBuffer) (d : DestinationBuffer)
    : outcome (DestinationBuffer * ArbitraryBuffer) :=
  velox_check (negb (ab_empty buffer) || hasNoMoreData buffer) ;;
  match notify_ d with
  | None => Ok (d, buffer)
  | Some _ => velox_check (notifyMaxBytes_ d >? 0) ;; loadData buffer (notifyMaxBytes_ d) d
  end.

(** The pages moved out of the first [n] places, with the statistics; an end
    marker must be the last place. *)
Fixpoint freePages (n : nat) (data : list marked) (s : Stats) : outcome (list SerializedPage * Stats) :=
  match n, data with
  | S n', Some p :: rest =>
      s ← recordAcknowledge p s;
      '(freed, s) ← freePages n' rest s;
      Ok (p :: freed, s)
  | S _, None :: rest => velox_check (length rest =? 0)%nat ;; Ok ([], s)
  | _, _ => Ok ([], s)
  end.

Definition db_acknowledge (sequence : Z) (fromGetData : bool) (d : DestinationBuffer)
    : outcome (list SerializedPage * DestinationBuffer) :=
  let numDeleted := sequence - sequence_ d in
  if (numDeleted =? 0) && fromGetData then Ok ([], d)
  else if numDeleted <=? 0 then Ok ([], d)
  else
    velox_check (numDeleted <=? db_size d) ;;
    '(freed, s) ← freePages (Z.to_nat numDeleted) (data_ d) (stats_ d);
    Ok (freed, d <| stats_ := s |> <| data_ := drop (Z.to_nat numDeleted) (data_ d) |>
                 <| sequence_ := sequence_ d + numDeleted |>).

Definition db_deleteResults (d : DestinationBuffer) : outcome (list SerializedPage * DestinationBuffer) :=
  '(freed, s) ← freePages (length (data_ d)) (data_ d) (stats_ d);
  Ok (freed, d <| stats_ := s |> <| data_ := [] |>).

(** ** [OutputBuffer] *)
Inductive Kind := kPartitioned | kBroadcast | kArbitrary.
#[global] Instance kind_eq_dec : EqDecision Kind.
Proof. solve_decision. Defined.

Record OutputBuffer := mkOutputBuffer {
  kind_ : Kind;
  maxSize_ : Z;
  continueSize_ : Z;
  arbitraryBuffer_ : option ArbitraryBuffer;
  numDrivers_ : Z;
  noMoreBuffers_ : bool;
  dataToBroadcast_ : list SerializedPage;
  bufferedBytes_ : Z;
  bufferedPages_ : Z;
  numOutputRows_ : Z;
  numOutputPages_ : Z;
  promises_ : list nat;
  nextArbitraryLoadBufferIndex_ : nat;
  buffers_ : list (option DestinationBuffer);
  finishedBufferStats_ : list Stats;
  numFinished_ : Z;
  numFinalAcknowledges_ : Z;
  atEnd_ : bool;
  releasing_ : list SerializedPage
}.
#[global] Instance outputbuffer_copyable : Copyable OutputBuffer := λ s,
  mkOutputBuffer (kind_ s) (maxSize_ s) (continueSize_ s) (arbitraryBuffer_ s) (numDrivers_ s) (noMoreBuffers_ s)
    (dataToBroadcast_ s) (bufferedBytes_ s) (bufferedPages_ s) (numOutputRows_ s) (numOutputPages_ s) (promises_ s)
    (nextArbitraryLoadBufferIndex_ s) (buffers_ s) (finishedBufferStats_ s) (numFinished_ s) (numFinalAcknowledges_ s)
    (atEnd_ s) (releasing_ s).

Definition kContinuePct : Z := 90.

Definition newOutputBuffer (kind : Kind) (maxSize : Z) (numDestinations : nat) (numDrivers : Z) : OutputBuffer :=
  mkOutputBuffer kind maxSize (maxSize * kContinuePct / 100)
    (if bool_decide (kind = kArbitrary) then Some [] else None) numDrivers false [] 0 0 0 0 [] 0
    (replicate numDestinations (Some newDestinationBuffer)) (replicate numDestinations newStats) 0 0 false [].

Definition isBroadcast (s : OutputBuffer) : bool := bool_decide (kind_ s = kBroadcast).
Definition isPartitioned (s : OutputBuffer) : bool := bool_decide (kind_ s = kPartitioned).
Definition isArbitrary (s : OutputBuffer) : bool := bool_decide (kind_ s = kArbitrary).

(** The calls a public function makes outside of the mutex: notifications,
    producers continued, and whether the task is told that its output is
    consumed. *)
Record Effects := mkEffects { notified : list DataAvailable; continued : list nat; allConsumed : bool }.

(** ** References *)
Definition pagesOf (l : list marked) : list SerializedPage := omap id l.
Definition heldBy (b : option DestinationBuffer) : list SerializedPage :=
  match b with Some d => pagesOf (data_ d) | None => [] end.
Definition heldPages (s : OutputBuffer) : list SerializedPage :=
  concat (map heldBy (buffers_ s)) ++ dataToBroadcast_ s ++ pagesOf (default [] (arbitraryBuffer_ s)).

(** [shared_ptr::unique()]. *)
Definition references (s : OutputBuffer) (p : SerializedPage) : nat :=
  length (filter (.= p) (heldPages s ++ releasing_ s)).
Definition unique (s : OutputBuffer) (p : SerializedPage) : bool := (references s p =? 1)%nat.

(** [freed.clear()]: one reference to each page is dropped. *)
Fixpoint removeOne (p : SerializedPage) (l : list SerializedPage) : list SerializedPage :=
  match l with [] => [] | q :: l' => if bool_decide (p = q) then l' else q :: removeOne p l' end.
Definition releasePages (freed : list SerializedPage) (s : OutputBuffer) : OutputBuffer :=
  s <| releasing_ := foldl (λ l p, removeOne p l) (releasing_ s) freed |>.

(** ** Accounting *)
Definition updateStatsWithEnqueuedPageLocked (pageBytes pageRows : Z) (s : OutputBuffer) : OutputBuffer :=
  s <| bufferedBytes_ := bufferedBytes_ s + pageBytes |>
    <| bufferedPages_ := bufferedPages_ s + 1 |>
    <| numOutputPages_ := numOutputPages_ s + 1 |>
    <| numOutputRows_ := numOutputRows_ s + pageRows |>.

Definition updateStatsWithFreedPagesLocked (numPages pageBytes : Z) (s : OutputBuffer) : outcome OutputBuffer :=
  let s := s <| bufferedBytes_ := bufferedBytes_ s - pageBytes |> in
  velox_check (bufferedBytes_ s >=? 0) ;;
  let s := s <| bufferedPages_ := bufferedPages_ s - numPages |> in
  velox_check (bufferedPages_ s >=? 0) ;;
  Ok s.

Definition sumSizes (l : list SerializedPage) : Z := foldr (λ p n, page_size p + n) 0 l.

(** The state and the promises of the producers to continue. *)
Definition updateAfterAcknowledgeLocked (freed : list SerializedPage) (s : OutputBuffer)
    : outcome (OutputBuffer * list nat) :=
  let last := filter (λ p, unique s p = true) freed in
  let freedBytes := sumSizes last in
  if (length last =? 0)%nat then velox_check (freedBytes =? 0) ;; Ok (s, [])
  else
    velox_check (freedBytes >? 0) ;;
    s ← updateStatsWithFreedPagesLocked (Z.of_nat (length last)) freedBytes s;
    if bufferedBytes_ s <? continueSize_ s then Ok (s <| promises_ := [] |>, promises_ s) else Ok (s, []).

Definition isFinishedLocked (s : OutputBuffer) : bool :=
  if isBroadcast s && negb (noMoreBuffers_ s) then false
  else forallb (λ b : option DestinationBuffer, match b with Some _ => false | None => true end) (buffers_ s).

(** ** Destinations *)
Definition newBroadcastDestination (s : OutputBuffer) : outcome DestinationBuffer :=
  d ← foldM_o (λ d page, db_enqueue (Some page) d) (dataToBroadcast_ s) newDestinationBuffer;
  if atEnd_ s then db_enqueue None d else Ok d.

Fixpoint newDestinations (n : nat) (s : OutputBuffer) : outcome (list (option DestinationBuffer)) :=
  match n with
  | O => Ok []
  | S n' =>
      d ← (if isBroadcast s then newBroadcastDestination s else Ok newDestinationBuffer);
      ds ← newDestinations n' s;
      Ok (Some d :: ds)
  end.

Definition addOutputBuffersLocked (numBuffers : nat) (s : OutputBuffer) : outcome OutputBuffer :=
  velox_check (negb (noMoreBuffers_ s)) ;;
  velox_check (negb (isPartitioned s)) ;;
  added ← newDestinations (numBuffers - length (buffers_ s)) s;
  Ok (s <| buffers_ := buffers_ s ++ added |>
        <| finishedBufferStats_ := resize numBuffers newStats (finishedBufferStats_ s) |>).

Definition updateOutputBuffersLocked (numBuffers : nat) (noMoreBuffers : bool) (s : OutputBuffer)
    : outcome (OutputBuffer * Effects) :=
  if isPartitioned s then
    velox_check (length (buffers_ s) =? numBuffers)%nat ;;
    velox_check noMoreBuffers ;;
    Ok (s <| noMoreBuffers_ := true |>, mkEffects [] [] false)
  else
    s ← (if (length (buffers_ s) <? numBuffers)%nat then addOutputBuffersLocked numBuffers s else Ok s);
    if negb noMoreBuffers then Ok (s, mkEffects [] [] false)
    else
      let s := s <| noMoreBuffers_ := true |> in
      let isFinished := isFinishedLocked s in
      '(s, promises) ← updateAfterAcknowledgeLocked (dataToBroadcast_ s) s;
      Ok (s, mkEffects [] promises isFinished).

(** [releaseAfterAcknowledge(dataToBroadcast_, ...)], outside of the mutex. *)
Definition clearBroadcast (s : OutputBuffer) : OutputBuffer := s <| dataToBroadcast_ := [] |>.

(** The pages kept for destinations to come are released when no more come. *)
Definition updateOutputBuffers (numBuffers : nat) (noMoreBuffers : bool) (s : OutputBuffer)
    : outcome (OutputBuffer * Effects) :=
  '(s, e) ← updateOutputBuffersLocked numBuffers noMoreBuffers s;
  Ok (if noMoreBuffers && negb (isPartitioned s) then clearBroadcast s else s, e).

(** ** Producers *)

(** Runs [f] on every destination that is not deleted and collects the
    notifications. *)
Fixpoint forBuffers (f : DestinationBuffer → outcome (option DataAvailable * DestinationBuffer))
    (buffers : list (option DestinationBuffer)) : outcome (list DataAvailable * list (option DestinationBuffer)) :=
  match buffers with
  | [] => Ok ([], [])
  | None :: rest => '(cbs, rest) ← forBuffers f rest; Ok (cbs, None :: rest)
  | Some d :: rest =>
      '(cb, d) ← f d;
      '(cbs, rest) ← forBuffers f rest;
      Ok (option_list cb ++ cbs, Some d :: rest)
  end.

Definition enqueueAndNotify (data : marked) (d : DestinationBuffer) : outcome (option DataAvailable * DestinationBuffer) :=
  d ← db_enqueue data d; getAndClearNotify d.

Definition enqueueBroadcastOutputLocked (data : SerializedPage) (s : OutputBuffer)
    : outcome (OutputBuffer * list DataAvailable) :=
  velox_check (bool_decide (arbitraryBuffer_ s = None)) ;;
  '(cbs, buffers) ← forBuffers (enqueueAndNotify (Some data)) (buffers_ s);
  let s := s <| buffers_ := buffers |> in
  Ok (if noMoreBuffers_ s then s else s <| dataToBroadcast_ := dataToBroadcast_ s ++ [data] |>, cbs).

(** The destinations from [bufferId] on, in a circle, until no page is left. *)
Fixpoint arbitraryLoop (n bufferId : nat) (buffer : ArbitraryBuffer) (s : OutputBuffer)
    : outcome (OutputBuffer * list DataAvailable) :=
  match n with
  | O => Ok (s <| arbitraryBuffer_ := Some buffer |>, [])
  | S n' =>
      if ab_empty buffer then
        Ok (s <| arbitraryBuffer_ := Some buffer |> <| nextArbitraryLoadBufferIndex_ := bufferId |>, [])
      else
        let nextId := ((bufferId + 1) mod length (buffers_ s))%nat in
        match buffers_ s !! bufferId with
        | None => Undefined
        | Some None => arbitraryLoop n' nextId buffer s
        | Some (Some d) =>
            '(d, buffer) ← maybeLoadData buffer d;
            '(cb, d) ← getAndClearNotify d;
            '(s, cbs) ← arbitraryLoop n' nextId buffer (s <| buffers_ := <[bufferId := Some d]> (buffers_ s) |>);
            Ok (s, option_list cb ++ cbs)
        end
  end.

Definition enqueueArbitraryOutputLocked (data : SerializedPage) (s : OutputBuffer)
    : outcome (OutputBuffer * list DataAvailable) :=
  match arbitraryBuffer_ s with
  | None => Undefined
  | Some buffer =>
      velox_check (negb (hasNoMoreData buffer)) ;;
      buffer ← ab_enqueue data buffer;
      velox_check (nextArbitraryLoadBufferIndex_ s <? length (buffers_ s))%nat ;;
      arbitraryLoop (length (buffers_ s)) (nextArbitraryLoadBufferIndex_ s) buffer s
  end.

Definition enqueuePartitionedOutputLocked (destination : nat) (data : SerializedPage) (s : OutputBuffer)
    : outcome (OutputBuffer * list DataAvailable) :=
  velox_check (bool_decide (arbitraryBuffer_ s = None)) ;;
  match buffers_ s !! destination with
  | None => Throw VeloxCheckFailed
  | Some (Some d) =>
      '(cb, d) ← enqueueAndNotify (Some data) d;
      Ok (s <| buffers_ := <[destination := Some d]> (buffers_ s) |>, option_list cb)
  | Some None => s ← updateStatsWithFreedPagesLocked 1 (page_size data) s; Ok (s, [])
  end.

(** [future] is the caller's, if it gave one; the result says whether it must
    wait for it. *)
Definition enqueue (isRunning : bool) (destination : nat) (data : SerializedPage) (future : option nat)
    (s : OutputBuffer) : outcome (OutputBuffer * Effects * bool) :=
  velox_check isRunning ;;
  velox_check (destination <? length (buffers_ s))%nat ;;
  rows ← rowsOf data;
  let s := updateStatsWithEnqueuedPageLocked (page_size data) rows s in
  '(s, cbs) ← match kind_ s with
              | kBroadcast => velox_check (destination =? 0)%nat ;; enqueueBroadcastOutputLocked data s
              | kArbitrary => velox_check (destination =? 0)%nat ;; enqueueArbitraryOutputLocked data s
              | kPartitioned => enqueuePartitionedOutputLocked destination data s
              end;
  match future with
  | Some promise =>
      if bufferedBytes_ s >? maxSize_ s
      then Ok (s <| promises_ := promises_ s ++ [promise] |>, mkEffects cbs [] false, true)
      else Ok (s, mkEffects cbs [] false, false)
  | None => Ok (s, mkEffects cbs [] false, false)
  end.

(** The arbitrary buffer is shared by the destinations that load from it. *)
Fixpoint loadAll (buffer : ArbitraryBuffer) (buffers : list (option DestinationBuffer))
    : outcome (list DataAvailable * list (option DestinationBuffer) * ArbitraryBuffer) :=
  match buffers with
  | [] => Ok ([], [], buffer)
  | None :: rest => '(cbs, rest, buffer) ← loadAll buffer rest; Ok (cbs, None :: rest, buffer)
  | Some d :: rest =>
      '(d, buffer) ← maybeLoadData buffer d;
      '(cb, d) ← getAndClearNotify d;
      '(cbs, rest, buffer) ← loadAll buffer rest;
      Ok (option_list cb ++ cbs, Some d :: rest, buffer)
  end.

Definition checkIfDone (oneDriverFinished : bool) (s : OutputBuffer) : outcome (OutputBuffer * Effects) :=
  let s := if oneDriverFinished then s <| numFinished_ := numFinished_ s + 1 |> else s in
  velox_check (numFinished_ s <=? numDrivers_ s) ;;
  let s := s <| atEnd_ := (numFinished_ s =? numDrivers_ s) |> in
  if negb (atEnd_ s) then Ok (s, mkEffects [] [] false)
  else
    match kind_ s, arbitraryBuffer_ s with
    | kArbitrary, None => Undefined
    | kArbitrary, Some buffer =>
        '(cbs, buffers, buffer) ← loadAll (ab_noMoreData buffer) (buffers_ s);
        Ok (s <| buffers_ := buffers |> <| arbitraryBuffer_ := Some buffer |>, mkEffects cbs [] false)
    | _, _ =>
        '(cbs, buffers) ← forBuffers (enqueueAndNotify None) (buffers_ s);
        Ok (s <| buffers_ := buffers |>, mkEffects cbs [] false)
    end.

Definition noMoreData (s : OutputBuffer) : outcome (OutputBuffer * Effects) := checkIfDone true s.
Definition noMoreDrivers (s : OutputBuffer) : outcome (OutputBuffer * Effects) := checkIfDone false s.

(** The section of [updateNumDrivers] under the mutex; the rest runs after it. *)
Definition setNumDrivers (newNumDrivers : Z) (s : OutputBuffer) : OutputBuffer := s <| numDrivers_ := newNumDrivers |>.

Definition updateNumDrivers (newNumDrivers : Z) (s : OutputBuffer) : outcome (OutputBuffer * Effects) :=
  let s := setNumDrivers newNumDrivers s in
  if numDrivers_ s =? numFinished_ s then noMoreDrivers s else Ok (s, mkEffects [] [] false).

(** ** Consumers *)
Definition isFinished (s : OutputBuffer) : bool := isFinishedLocked s.

(** The pages [freed] are still held by the caller. *)
Definition acknowledgeLocked (destination : nat) (sequence : Z) (s : OutputBuffer)
    : outcome (OutputBuffer * list SerializedPage * Effects) :=
  match buffers_ s !! destination with
  | None => Throw VeloxCheckFailed
  | Some None => Ok (s, [], mkEffects [] [] false)
  | Some (Some d) =>
      '(freed, d) ← db_acknowledge sequence false d;
      let s := s <| buffers_ := <[destination := Some d]> (buffers_ s) |> <| releasing_ := releasing_ s ++ freed |> in
      '(s, promises) ← updateAfterAcknowledgeLocked freed s;
      Ok (s, freed, mkEffects [] promises false)
  end.

Definition acknowledge (destination : nat) (sequence : Z) (s : OutputBuffer) : outcome (OutputBuffer * Effects) :=
  '(s, freed, e) ← acknowledgeLocked destination sequence s;
  Ok (releasePages freed s, e).

Definition deleteResultsLocked (destination : nat) (s : OutputBuffer)
    : outcome (OutputBuffer * list SerializedPage * Effects) :=
  match buffers_ s !! destination with
  | None => Throw VeloxCheckFailed
  | Some None => Ok (s, [], mkEffects [] [] false)
  | Some (Some d) =>
      '(freed, d) ← db_deleteResults d;
      '(cb, d) ← getAndClearNotify d;
      d ← finish d;
      velox_check (destination <? length (finishedBufferStats_ s))%nat ;;
      let s := s <| finishedBufferStats_ := <[destination := stats_ d]> (finishedBufferStats_ s) |>
                 <| buffers_ := <[destination := None]> (buffers_ s) |>
                 <| numFinalAcknowledges_ := numFinalAcknowledges_ s + 1 |>
                 <| releasing_ := releasing_ s ++ freed |> in
      let isFinished := isFinishedLocked s in
      '(s, promises) ← updateAfterAcknowledgeLocked freed s;
      Ok (s, freed, mkEffects (option_list cb) promises isFinished)
  end.

(** Returns whether all destinations are deleted. *)
Definition deleteResults (destination : nat) (s : OutputBuffer) : outcome (OutputBuffer * Effects * bool) :=
  '(s, freed, e) ← deleteResultsLocked destination s;
  Ok (releasePages freed s, e, allConsumed e).

Definition getDataLocked (destination : nat) (maxBytes sequence : Z) (notify : nat) (s : OutputBuffer)
    : outcome (OutputBuffer * list SerializedPage * Effects) :=
  s ← (if negb (isPartitioned s) && (length (buffers_ s) <=? destination)%nat
       then addOutputBuffersLocked (destination + 1) s else Ok s);
  match buffers_ s !! destination with
  | Some (Some d) =>
      '(freed, d) ← db_acknowledge sequence true d;
      let s := s <| buffers_ := <[destination := Some d]> (buffers_ s) |> <| releasing_ := releasing_ s ++ freed |> in
      '(s, promises) ← updateAfterAcknowledgeLocked freed s;
      '(data, d, arbitraryBuffer) ← db_getData maxBytes sequence (Some notify) (arbitraryBuffer_ s) d;
      let s := s <| buffers_ := <[destination := Some d]> (buffers_ s) |> <| arbitraryBuffer_ := arbitraryBuffer |> in
      Ok (s, freed, mkEffects (match data with [] => [] | _ => [mkDataAvailable notify sequence data] end) promises false)
  | _ => Throw VeloxCheckFailed
  end.

Definition getData (destination : nat) (maxBytes sequence : Z) (notify : nat) (s : OutputBuffer)
    : outcome (OutputBuffer * Effects) :=
  '(s, freed, e) ← getDataLocked destination maxBytes sequence notify s;
  Ok (releasePages freed s, e).

Definition terminate (isRunning : bool) (s : OutputBuffer) : outcome (OutputBuffer * Effects) :=
  velox_check (negb isRunning) ;;
  Ok (s <| promises_ := [] |>, mkEffects [] (promises_ s) false).

Definition isOverutilized (s : OutputBuffer) : bool := (2 * bufferedBytes_ s >? maxSize_ s) || atEnd_ s.

(** Statistics of every destination. *)
Definition buffersStats (s : OutputBuffer) : outcome (list Stats) :=
  velox_check (length (buffers_ s) =? length (finishedBufferStats_ s))%nat ;;
  Ok (zip_with (λ b f, match b with Some d => stats_ d | None => f end) (buffers_ s) (finishedBufferStats_ s)).
