(* ===== verification/OutputBufferCorrect.v ===== *)
(** * Correctness of the task output buffers

    A destination delivers what is produced, in order and exactly once, and
    never leaves a consumer waiting while there is data for it; the byte and
    page counts of the whole buffer are those of the pages it holds; producers
    are blocked only while the buffer is full. *)
From S2P Require Import Prelude OutputBuffer.
Local Open Scope Z_scope.

(** ** Lists with an end marker *)
Definition marksOk (l : list marked) : Prop := ∀ i, l !! i = Some None → S i = length l.
Definition rowsOk (m : marked) : Prop := match m with Some p => is_Some (numRows_ p) | None => True end.

Lemma marksOk_cons m l : marksOk (m :: l) → marksOk l ∧ (m = None → l = []).
Proof.
  intros H. split.
  - intros i Hi. specialize (H (S i) Hi). simpl in H. lia.
  - intros ->. specialize (H 0%nat eq_refl). simpl in H. destruct l; [done | simpl in H; lia].
Qed.

Lemma marksOk_drop n l : marksOk l → marksOk (drop n l).
Proof.
  intros H i Hi. rewrite lookup_drop in Hi. specialize (H _ Hi). rewrite length_drop. lia.
Qed.

Lemma marksOk_snoc l m : marksOk l → last l ≠ Some None → marksOk (l ++ [m]).
Proof.
  intros Hl Hm i Hi. rewrite length_app. simpl. apply lookup_app_Some in Hi as [Hi|[Hi Hx]].
  - exfalso. apply Hm. specialize (Hl i Hi). rewrite last_lookup. by replace (pred (length l)) with i by lia.
  - apply list_lookup_singleton_Some in Hx as [Hx _]. lia.
Qed.

Lemma last_drop_mark (l : list marked) n : last l ≠ Some None → hasNoMoreData (drop n l) = false.
Proof.
  intros Hl. unfold hasNoMoreData. destruct (decide (n < length l)%nat) as [Hn|Hn].
  - rewrite last_lookup, length_drop, lookup_drop.
    replace (n + pred (length l - n))%nat with (pred (length l)) by lia. rewrite <- last_lookup.
    by destruct (last l) as [[]|].
  - by rewrite drop_ge by lia.
Qed.

(** ** Operations on a destination *)
Lemma recordAcknowledge_Ok p s : is_Some (numRows_ p) → ∃ s', recordAcknowledge p s = Ok s'.
Proof.
  intros Hr. unfold recordAcknowledge, rowsOf. rewrite bool_decide_true by done. destruct Hr as [n ->]. simpl. eauto.
Qed.

Lemma freePages_Ok n data s :
  marksOk data → Forall rowsOk data → ∃ s', freePages n data s = Ok (pagesOf (take n data), s').
Proof.
  revert data s. induction n as [|n IH]; intros data s Hm Hr; [simpl; eauto|].
  destruct data as [|[p|] data]; [simpl; eauto| |].
  - apply marksOk_cons in Hm as [Hm _]. apply Forall_cons in Hr as [Hp Hr]. cbn [freePages take pagesOf omap].
    destruct (recordAcknowledge_Ok p s Hp) as [s1 ->]. cbn [mbind outcome_bind].
    destruct (IH data s1 Hm Hr) as [s2 ->]. cbn [mbind outcome_bind]. by exists s2.
  - apply marksOk_cons in Hm as [_ ->]; [|done]. simpl. eexists. by rewrite take_nil.
Qed.

Lemma db_enqueue_Ok m d :
  rowsOk m → (m = None → hasNoMoreData (data_ d) = false) →
  ∃ s, db_enqueue m d = Ok (d <| stats_ := s |> <| data_ := data_ d ++ [m] |>).
Proof.
  intros Hr Hm. destruct m as [p|]; simpl.
  - unfold recordEnqueue, rowsOf. rewrite bool_decide_true by done. destruct Hr as [n ->]. simpl. eauto.
  - rewrite Hm by done. exists (stats_ d). by destruct d.
Qed.

Lemma collectPages_prefix data acc maxBytes :
  marksOk data → ∃ k, collectPages acc maxBytes data = Ok (take k data) ∧ (data ≠ [] → 0 < k)%nat ∧ (k ≤ length data)%nat.
Proof.
  revert acc. induction data as [|[p|] data IH]; intros acc Hm; [by exists 0%nat| |].
  - apply marksOk_cons in Hm as [Hm _]. cbn [collectPages]. destruct (_ >=? maxBytes).
    + exists 1%nat. simpl. rewrite take_0. split; [done | split; lia].
    + destruct (IH (acc + page_size p) Hm) as (k & -> & _ & Hk). exists (S k). simpl. split; [done | split; lia].
  - apply marksOk_cons in Hm as [_ ->]; [|done]. exists 1%nat. simpl. split; [done | split; lia].
Qed.

(** ** A producer and a consumer of one destination *)
Record Link := mkLink { buffer : DestinationBuffer; produced : list marked; received : list marked }.

Definition newLink : Link := mkLink newDestinationBuffer [] [].

Definition deliveredBy (cb : option DataAvailable) : list marked :=
  match cb with Some a => da_data a | None => [] end.

(** The producer adds a page or, once, the end marker.  The consumer asks for
    what follows the pages it has, unless it waits for a notification; it may
    acknowledge what it has at any time, in any order. *)
Inductive linkStep : Link → Link → Prop :=
| link_produce m d d' cb ps rs :
    last ps ≠ Some None → rowsOk m → enqueueAndNotify m d = Ok (cb, d') →
    linkStep (mkLink d ps rs) (mkLink d' (ps ++ [m]) (rs ++ deliveredBy cb))
| link_fetch maxBytes token freed d d1 d2 data a ps rs :
    notify_ d = None →
    db_acknowledge (Z.of_nat (length rs)) true d = Ok (freed, d1) →
    db_getData maxBytes (Z.of_nat (length rs)) (Some token) None d1 = Ok (data, d2, a) →
    linkStep (mkLink d ps rs) (mkLink d2 ps (rs ++ data))
| link_acknowledge n freed d d' ps rs :
    n ≤ Z.of_nat (length rs) → db_acknowledge n false d = Ok (freed, d') →
    linkStep (mkLink d ps rs) (mkLink d' ps rs).

Definition linkReachable : Link → Prop := rtc linkStep newLink.

(** What is buffered is what was produced from the sequence number on. *)
Record queueInv (d : DestinationBuffer) (ps rs : list marked) : Prop := {
  qi_seq : 0 ≤ sequence_ d ≤ Z.of_nat (length rs);
  qi_data : data_ d = drop (Z.to_nat (sequence_ d)) ps;
  qi_prefix : rs `prefix_of` ps;
  qi_marks : marksOk ps;
  qi_rows : Forall rowsOk ps
}.

(** A consumer waits only for what is not yet produced. *)
Definition waitInv (d : DestinationBuffer) (ps rs : list marked) : Prop :=
  is_Some (notify_ d) → notifySequence_ d = Z.of_nat (length ps) ∧ rs = ps.

Lemma acknowledge_queue d n fromGetData ps rs :
  queueInv d ps rs → n ≤ Z.of_nat (length rs) →
  ∃ s freed, let seq := Z.max (sequence_ d) n in
    db_acknowledge n fromGetData d =
      Ok (freed, d <| stats_ := s |> <| data_ := drop (Z.to_nat seq) ps |> <| sequence_ := seq |>) ∧
    queueInv (d <| stats_ := s |> <| data_ := drop (Z.to_nat seq) ps |> <| sequence_ := seq |>) ps rs.
Proof.
  intros [Hseq Hdata Hpre Hm Hr] Hn. pose proof (prefix_length _ _ Hpre) as Hlen.
  assert (∀ s, queueInv (d <| stats_ := s |> <| data_ := drop (Z.to_nat (Z.max (sequence_ d) n)) ps |>
    <| sequence_ := Z.max (sequence_ d) n |>) ps rs) as Hinv.
  { intros s. split; cbn; [lia | done..]. }
  destruct (Z.le_gt_cases n (sequence_ d)) as [Hle|Hgt].
  - exists (stats_ d), []. cbv zeta. split; [|done]. unfold db_acknowledge.
    rewrite Z.max_l, <- Hdata by lia. destruct (_ && _) eqn:E; [by destruct d|].
    rewrite (proj2 (Z.leb_le _ _)) by lia. by destruct d.
  - destruct (freePages_Ok (Z.to_nat (n - sequence_ d)) (data_ d) (stats_ d)) as [s Hs].
    { rewrite Hdata. by apply marksOk_drop. }
    { rewrite Hdata. by apply Forall_drop. }
    exists s, (pagesOf (take (Z.to_nat (n - sequence_ d)) (data_ d))). cbv zeta. split; [|done].
    assert (drop (Z.to_nat (Z.max (sequence_ d) n)) ps = drop (Z.to_nat (n - sequence_ d)) (data_ d)) as ->.
    { rewrite Hdata, drop_drop. f_equal. lia. }
    replace (Z.max (sequence_ d) n) with (sequence_ d + (n - sequence_ d)) by lia.
    unfold db_acknowledge. destruct (Z.eqb_spec (n - sequence_ d) 0); [lia|]. cbn [andb].
    rewrite (proj2 (Z.leb_gt _ _)) by lia.
    assert (n - sequence_ d ≤ db_size d) as Hsz by (unfold db_size; rewrite Hdata, length_drop; lia).
    rewrite (proj2 (Z.leb_le _ _)) by done. cbn [velox_check mbind outcome_bind]. by rewrite Hs.
Qed.

Lemma getData_queue d n maxBytes token ps rs :
  queueInv d ps rs → n = Z.of_nat (length rs) →
  ∃ data d', db_getData maxBytes n token None d = Ok (data, d', None) ∧
    (rs = ps → data = [] ∧ d' = waitFor token n maxBytes d) ∧
    (rs ≠ ps → d' = d ∧ data ≠ [] ∧ rs ++ data `prefix_of` ps).
Proof.
  intros [Hseq Hdata Hpre Hm Hr] ->. pose proof (prefix_length _ _ Hpre) as Hlen. unfold db_getData.
  rewrite (proj2 (Z.geb_le _ _)) by lia. cbn [velox_check mbind outcome_bind]. unfold db_size. rewrite Hdata, length_drop.
  destruct (Z.gtb_spec (Z.of_nat (length rs) - sequence_ d) (Z.of_nat (length ps - Z.to_nat (sequence_ d)))); [lia|].
  destruct (Z.eqb_spec (Z.of_nat (length rs) - sequence_ d) (Z.of_nat (length ps - Z.to_nat (sequence_ d)))) as [E|E].
  - eexists _, _. split; [done|]. assert (rs = ps) as ->; [|done]. destruct Hpre as [k ->]. rewrite length_app in E.
    destruct k; [by rewrite app_nil_r | simpl in E; lia].
  - rewrite drop_drop. replace (Z.to_nat (sequence_ d) + Z.to_nat (Z.of_nat (length rs) - sequence_ d))%nat
      with (length rs) by lia.
    destruct Hpre as [k ->]. rewrite length_app in *. rewrite drop_app_length.
    assert (k ≠ []) as Hk by (intros ->; simpl in E; lia).
    destruct (collectPages_prefix k 0 maxBytes) as (j & -> & Hj & _).
    { apply (marksOk_drop (length rs)) in Hm. by rewrite drop_app_length in Hm. }
    eexists _, d. split; [done|]. split.
    { intros Heq%(f_equal length). rewrite length_app in Heq. destruct k; simpl in *; [done | lia]. }
    intros _. split; [done|]. split; [|apply prefix_app, prefix_take].
    specialize (Hj Hk). destruct j; [lia|]. by destruct k.
Qed.

Lemma produce_queue m d ps rs :
  queueInv d ps rs → waitInv d ps rs → last ps ≠ Some None → rowsOk m →
  ∃ cb d', enqueueAndNotify m d = Ok (cb, d') ∧ notify_ d' = None ∧
    deliveredBy cb = (if notify_ d then [m] else []) ∧
    queueInv d' (ps ++ [m]) (rs ++ deliveredBy cb).
Proof.
  intros [Hseq Hdata Hpre Hm Hr] Hw Hlast Hrow. pose proof (prefix_length _ _ Hpre) as Hlen.
  destruct (db_enqueue_Ok m d Hrow) as [s Hs]. { intros _. rewrite Hdata. by apply last_drop_mark. }
  unfold enqueueAndNotify. rewrite Hs. cbn [mbind outcome_bind].
  assert (data_ d ++ [m] = drop (Z.to_nat (sequence_ d)) (ps ++ [m])) as Hd by (rewrite Hdata, drop_app_le by lia; done).
  assert (marksOk (ps ++ [m])) as Hm' by (by apply marksOk_snoc).
  assert (Forall rowsOk (ps ++ [m])) as Hr' by (apply Forall_app; split; [done | by constructor]).
  set (d1 := d <| stats_ := s |> <| data_ := data_ d ++ [m] |>).
  assert (queueInv d1 (ps ++ [m]) rs) as Hq by (split; cbn; try done; by apply prefix_app_r).
  unfold getAndClearNotify. change (notify_ d1) with (notify_ d). destruct (notify_ d) as [token|] eqn:En.
  - destruct (Hw ltac:(eauto)) as [Hns ->]. change (notifySequence_ d1) with (notifySequence_ d).
    destruct (getData_queue d1 (notifySequence_ d) (notifyMaxBytes_ d1) None (ps ++ [m]) ps Hq Hns)
      as (data & d2 & -> & _ & Hdel).
    destruct Hdel as (-> & Hne & Hdel). { intros Heq%(f_equal length). rewrite length_app in Heq. simpl in Heq. lia. }
    assert (data = [m]) as ->.
    { apply prefix_app_inv in Hdel. destruct data as [|x data]; [done|].
      destruct Hdel as [k Hk]. injection Hk as -> Hk. symmetry in Hk. by apply app_eq_nil in Hk as [-> _]. }
    cbn [mbind outcome_bind]. eexists _, _. split; [done|]. split; [done|]. split; [done|]. cbn [deliveredBy da_data].
    destruct Hq as [Q1 Q2 Q3 Q4 Q5]. split; cbn in *; try done. rewrite length_app. lia.
  - eexists _, _. split; [done|]. split; [done|]. split; [done|]. cbn [deliveredBy]. by rewrite app_nil_r.
Qed.

Lemma fetch_queue d maxBytes token ps rs :
  queueInv d ps rs → notify_ d = None →
  ∃ freed d1 data d2, db_acknowledge (Z.of_nat (length rs)) true d = Ok (freed, d1) ∧
    db_getData maxBytes (Z.of_nat (length rs)) (Some token) None d1 = Ok (data, d2, None) ∧
    queueInv d2 ps (rs ++ data) ∧ waitInv d2 ps (rs ++ data) ∧ (rs ≠ ps → data ≠ []).
Proof.
  intros Hq Hn. destruct (acknowledge_queue d (Z.of_nat (length rs)) true ps rs Hq) as (s & freed & Ha & Hq1); [lia|].
  set (d1 := d <| stats_ := s |> <| data_ := _ |> <| sequence_ := _ |>) in *.
  destruct (getData_queue d1 (Z.of_nat (length rs)) maxBytes (Some token) ps rs Hq1 eq_refl)
    as (data & d2 & Hg & Heq & Hne).
  exists freed, d1, data, d2. split; [exact Ha|]. split; [exact Hg|].
  destruct (decide (rs = ps)) as [->|Hrs].
  - destruct (Heq eq_refl) as [-> ->]. rewrite app_nil_r. split; [|split; [|done]].
    + destruct Hq1 as [Q1 Q2 Q3 Q4 Q5]. by split.
    + intros _. by split.
  - destruct (Hne Hrs) as (-> & Hd & Hpre). split; [|split].
    + destruct Hq1 as [Q1 Q2 Q3 Q4 Q5]. split; try done. rewrite length_app. lia.
    + intros Hw. exfalso. cbn in Hw. rewrite Hn in Hw. by destruct Hw.
    + done.
Qed.

Lemma link_reachable l : linkReachable l → queueInv (buffer l) (produced l) (received l) ∧ waitInv (buffer l) (produced l) (received l).
Proof.
  assert (∀ l l', linkStep l l' → queueInv (buffer l) (produced l) (received l) → waitInv (buffer l) (produced l) (received l) →
    queueInv (buffer l') (produced l') (received l') ∧ waitInv (buffer l') (produced l') (received l')) as Hstep.
  { intros l0 l1 Hs. destruct Hs as [m d d' cb ps rs Hl Hr He | maxBytes token freed d d1 d2 data a ps rs Hn Ha Hg
      | n freed d d' ps rs Hn Ha]; cbn [buffer produced received]; intros Hq Hw.
    - destruct (produce_queue m d ps rs Hq Hw Hl Hr) as (cb' & d'' & He' & Hn' & _ & Hq'). rewrite He in He'. simplify_eq.
      split; [done|]. intros Hs. rewrite Hn' in Hs. by destruct Hs.
    - destruct (fetch_queue d maxBytes token ps rs Hq Hn) as (freed' & d1' & data' & d2' & Ha' & Hg' & Hq' & Hw' & _).
      rewrite Ha in Ha'. simplify_eq. rewrite Hg in Hg'. by simplify_eq.
    - destruct (acknowledge_queue d n false ps rs Hq Hn) as (s & freed' & Ha' & Hq'). rewrite Ha in Ha'. simplify_eq.
      split; [done|]. exact Hw. }
  intros Hl. assert (queueInv newDestinationBuffer [] [] ∧ waitInv newDestinationBuffer [] []) as [Q0 W0].
  { split; [|intros []; done]. by split; simpl. }
  unfold linkReachable in Hl. remember newLink as l0 eqn:E0.
  assert (queueInv (buffer l0) (produced l0) (received l0) ∧ waitInv (buffer l0) (produced l0) (received l0)) as H0 by (by subst).
  clear E0 Q0 W0. induction Hl as [|l0 l1 l2 H01 _ IH]; [done|]. apply IH. destruct H0. by eapply Hstep.
Qed.

(** C20: One destination delivers exactly once and in order, whatever the
    interleaving of production, notification, fetches and acknowledgements:
    what its consumer has received is a prefix of what was produced; a
    consumer that waits has received everything. *)
Theorem delivery_exactly_once l :
  linkReachable l →
  received l `prefix_of` produced l ∧ (is_Some (notify_ (buffer l)) → received l = produced l).
Proof. intros [Hq Hw]%link_reachable. split; [apply Hq | apply Hw]. Qed.

(** No page is stuck: in every reachable state, producing succeeds and hands
    the page to a consumer that waits, and a consumer that has not received
    everything and does not wait receives at least one more page from its
    next fetch. *)
Theorem delivery_progress l :
  linkReachable l →
  (∀ m, last (produced l) ≠ Some None → rowsOk m →
     ∃ cb d', enqueueAndNotify m (buffer l) = Ok (cb, d') ∧ deliveredBy cb = if notify_ (buffer l) then [m] else []) ∧
  (∀ maxBytes token, notify_ (buffer l) = None → received l ≠ produced l →
     ∃ freed d1 data d2, db_acknowledge (Z.of_nat (length (received l))) true (buffer l) = Ok (freed, d1) ∧
       db_getData maxBytes (Z.of_nat (length (received l))) (Some token) None d1 = Ok (data, d2, None) ∧
       data ≠ [] ∧ received l ++ data `prefix_of` produced l).
Proof.
  intros Hl. destruct (link_reachable l Hl) as [Hq Hw]. destruct l as [d ps rs]. cbn [buffer produced received] in *. split.
  - intros m Hlast Hr. destruct (produce_queue m d ps rs Hq Hw Hlast Hr) as (cb & d' & He & _ & Hd & _). eauto.
  - intros maxBytes token Hn Hne.
    destruct (fetch_queue d maxBytes token ps rs Hq Hn) as (freed & d1 & data & d2 & Ha & Hg & Hq2 & _ & Hdata).
    exists freed, d1, data, d2. split; [done|]. split; [done|]. split; [by apply Hdata | apply Hq2].
Qed.

(** Two pages are produced and the consumer has received the first. *)
Definition linkExample (p q : SerializedPage) : Link :=
  let d0 := match enqueueAndNotify (Some p) newDestinationBuffer with Ok (_, d) => d | _ => newDestinationBuffer end in
  let d1 := match enqueueAndNotify (Some q) d0 with Ok (_, d) => d | _ => d0 end in
  mkLink d1 [Some p; Some q] [Some p].

Lemma linkExample_reachable : linkReachable (linkExample (mkPage 1 5 (Some 1)) (mkPage 2 5 (Some 1))).
Proof.
  set (p := mkPage 1 5 (Some 1)). set (q := mkPage 2 5 (Some 1)).
  eapply rtc_l; [eapply (link_produce (Some p) _ _ _ [] []); [done | by eexists | reflexivity]|].
  eapply rtc_l; [eapply (link_fetch 1 0); reflexivity|].
  eapply rtc_l; [eapply (link_produce (Some q)); [done | by eexists | reflexivity]|]. apply rtc_refl.
Qed.

Lemma delivery_exactly_once_witness :
  [Some (mkPage 1 5 (Some 1))] `prefix_of` [Some (mkPage 1 5 (Some 1)); Some (mkPage 2 5 (Some 1))].
Proof. apply (proj1 (delivery_exactly_once _ linkExample_reachable)). Defined.

Lemma delivery_progress_witness :
  ∃ freed d1 data d2,
    let l := linkExample (mkPage 1 5 (Some 1)) (mkPage 2 5 (Some 1)) in
    db_acknowledge 1 true (buffer l) = Ok (freed, d1) ∧ db_getData 1 1 (Some 4%nat) None d1 = Ok (data, d2, None) ∧
    data ≠ [] ∧ received l ++ data `prefix_of` produced l.
Proof. by apply (proj2 (delivery_progress _ linkExample_reachable) 1 4%nat). Defined.
