(* ===== verification/OutputBufferState.v ===== *)
(** * Invariants of the task output buffers

    Counting of pages that several places of an [OutputBuffer]
    ([velox/exec/OutputBuffer.cpp]) hold, what the accounting after an
    acknowledgement does with them, and the invariant of one destination with
    the operations that keep it. *)
From S2P Require Import Prelude OutputBuffer OutputBufferCorrect.
Local Open Scope Z_scope.

(** ** Counting pages held more than once *)

(** Lists that hold the same pages, however often. *)
Definition samePages (l k : list SerializedPage) : Prop := ∀ p, p ∈ l ↔ p ∈ k.
Infix "≋" := samePages (at level 70).

#[global] Instance samePages_equivalence : Equivalence samePages.
Proof.
  split; [by intros l p | by intros l k H p; rewrite (H p) | by intros l k m H K p; rewrite (H p), (K p)].
Qed.
#[global] Instance samePages_app : Proper (samePages ==> samePages ==> samePages) (++).
Proof. intros l l' Hl k k' Hk p. by rewrite !elem_of_app, (Hl p), (Hk p). Qed.
#[global] Instance samePages_perm : subrelation (≡ₚ) samePages.
Proof. intros l k H p. by rewrite H. Qed.

#[global] Instance sumSizes_perm : Proper ((≡ₚ) ==> eq) sumSizes.
Proof. induction 1; simpl in *; lia. Qed.

Definition heldBytes (l : list SerializedPage) : Z := sumSizes (remove_dups l).
Definition heldCount (l : list SerializedPage) : Z := Z.of_nat (length (remove_dups l)).

Lemma remove_dups_same l k : l ≋ k → remove_dups l ≡ₚ remove_dups k.
Proof.
  intros H. apply NoDup_Permutation; [apply NoDup_remove_dups..|]. intros p. by rewrite !elem_of_remove_dups, (H p).
Qed.

#[global] Instance heldBytes_proper : Proper (samePages ==> eq) heldBytes.
Proof. intros l k H. unfold heldBytes. by rewrite (remove_dups_same l k H). Qed.
#[global] Instance heldCount_proper : Proper (samePages ==> eq) heldCount.
Proof. intros l k H. unfold heldCount. by rewrite (remove_dups_same l k H). Qed.

Lemma sumSizes_app l k : sumSizes (l ++ k) = sumSizes l + sumSizes k.
Proof. induction l as [|p l IH]; simpl; [done | rewrite IH; lia]. Qed.

Lemma sumSizes_nonneg l : Forall (λ p, 0 < page_size p) l → 0 ≤ sumSizes l.
Proof. induction 1; simpl; lia. Qed.

(** The pages of [freed] that [held] does not hold are counted once. *)
Lemma remove_dups_freed (freed held : list SerializedPage) :
  NoDup freed → remove_dups (freed ++ held) ≡ₚ filter (.∉ held) freed ++ remove_dups held.
Proof.
  intros Hf. apply NoDup_Permutation.
  - apply NoDup_remove_dups.
  - apply NoDup_app. split; [by apply NoDup_filter|]. split; [|apply NoDup_remove_dups].
    intros p Hp. apply list_elem_of_filter in Hp as [Hp _]. by rewrite elem_of_remove_dups.
  - intros p. rewrite elem_of_remove_dups, !elem_of_app, list_elem_of_filter, elem_of_remove_dups.
    destruct (decide (p ∈ held)); naive_solver.
Qed.

Lemma heldBytes_freed freed held :
  NoDup freed → heldBytes (freed ++ held) = sumSizes (filter (.∉ held) freed) + heldBytes held.
Proof. intros H. unfold heldBytes. by rewrite (remove_dups_freed freed held H), sumSizes_app. Qed.

Lemma heldCount_freed freed held :
  NoDup freed → heldCount (freed ++ held) = Z.of_nat (length (filter (.∉ held) freed)) + heldCount held.
Proof. intros H. unfold heldCount. rewrite (remove_dups_freed freed held H), length_app. lia. Qed.

Lemma held_new p held : p ∉ held → heldBytes (p :: held) = page_size p + heldBytes held ∧ heldCount (p :: held) = 1 + heldCount held.
Proof.
  intros H. change (p :: held) with ([p] ++ held).
  rewrite heldBytes_freed, heldCount_freed by apply NoDup_singleton. rewrite filter_cons_True by done. simpl. split; lia.
Qed.

Lemma heldBytes_nonneg held : Forall (λ p, 0 < page_size p) held → 0 ≤ heldBytes held.
Proof.
  intros H. apply sumSizes_nonneg, Forall_forall. intros p Hp. rewrite elem_of_remove_dups in Hp.
  by apply (proj1 (Forall_forall _ _) H).
Qed.

(** A reference count of one says that no other place holds the page. *)
Lemma references_one (l freed held : list SerializedPage) p :
  NoDup freed → l ≡ₚ freed ++ held → p ∈ freed → length (filter (.= p) l) = 1%nat ↔ p ∉ held.
Proof.
  intros Hn Hl Hp. rewrite Hl, filter_app, length_app.
  assert (filter (.= p) freed ≡ₚ [p]) as ->.
  { apply NoDup_Permutation; [by apply NoDup_filter | apply NoDup_singleton|].
    intros q. rewrite list_elem_of_filter, list_elem_of_singleton. naive_solver. }
  assert (length (filter (.= p) held) = 0%nat ↔ p ∉ held) as <-; [|simpl; lia].
  rewrite length_zero_iff_nil. split.
  - intros E Hin. assert (p ∈ filter (.= p) held) as Hf by (by apply list_elem_of_filter). rewrite E in Hf. by apply elem_of_nil in Hf.
  - intros Hin. destruct (filter (.= p) held) as [|q l'] eqn:E; [done|]. exfalso.
    assert (q ∈ filter (.= p) held) as [-> Hq]%list_elem_of_filter by (rewrite E; left). done.
Qed.

Lemma filter_agree (P Q : SerializedPage → Prop) `{!∀ p, Decision (P p)} `{!∀ p, Decision (Q p)} (l : list SerializedPage) :
  (∀ p, p ∈ l → P p ↔ Q p) → filter P l = filter Q l.
Proof.
  induction l as [|p l IH]; intros HPQ; [done|]. rewrite !filter_cons, IH by (intros; apply HPQ; by right).
  pose proof (HPQ p (list_elem_of_here _ _)). by repeat case_decide; try tauto.
Qed.

(** Fewer pages are counted as freed when a reference to them is in transit. *)
Lemma filter_sum_le (P Q : SerializedPage → Prop) `{!∀ p, Decision (P p)} `{!∀ p, Decision (Q p)} (l : list SerializedPage) :
  (∀ p, P p → Q p) → Forall (λ p, 0 < page_size p) l →
  0 ≤ sumSizes (filter P l) ≤ sumSizes (filter Q l) ∧ (length (filter P l) ≤ length (filter Q l))%nat.
Proof.
  intros HPQ. induction 1 as [|p l Hp _ IH]; [done|]. rewrite !filter_cons.
  destruct (decide (P p)) as [HP|], (decide (Q p)) as [|HQ]; simpl; try lia. destruct HQ. by apply HPQ.
Qed.

(** The pages [freed] leave the places that count: [held] is what these places
    keep, [transit] what threads have taken and not yet released.  The counts
    stay at least what is held; the difference stays the same unless a page
    that is freed is also in transit.  Which producers continue. *)
Lemma updateAfterAcknowledge_Ok freed held transit s :
  NoDup freed → Forall (λ p, 0 < page_size p) (freed ++ held) → heldPages s ++ releasing_ s ≡ₚ freed ++ held ++ transit →
  heldBytes (freed ++ held) ≤ bufferedBytes_ s → heldCount (freed ++ held) ≤ bufferedPages_ s →
  (promises_ s ≠ [] → continueSize_ s ≤ bufferedBytes_ s) →
  ∃ bytes pages promises rest, updateAfterAcknowledgeLocked freed s =
      Ok (s <| bufferedBytes_ := bytes |> <| bufferedPages_ := pages |> <| promises_ := rest |>, promises) ∧
    promises ++ rest = promises_ s ∧ (rest ≠ [] → continueSize_ s ≤ bytes) ∧ heldBytes held ≤ bytes ∧ heldCount held ≤ pages ∧
    ((∀ p, p ∈ freed → p ∉ transit) → bytes - heldBytes held = bufferedBytes_ s - heldBytes (freed ++ held) ∧
       pages - heldCount held = bufferedPages_ s - heldCount (freed ++ held)).
Proof.
  intros Hn Hpos Hheld Hbytes Hcount Hprom. apply Forall_app in Hpos as [Hpf Hph].
  rewrite heldBytes_freed in * by done. rewrite heldCount_freed in * by done. unfold updateAfterAcknowledgeLocked.
  assert (filter (λ p, unique s p = true) freed = filter (.∉ held ++ transit) freed) as ->.
  { apply filter_agree. intros p Hp. unfold unique, references. rewrite Nat.eqb_eq.
    by apply (references_one _ freed). }
  destruct (filter_sum_le (.∉ held ++ transit) (.∉ held) freed) as [Hle Hlen]; [set_solver | done|].
  assert ((∀ p, p ∈ freed → p ∉ transit) → filter (.∉ held ++ transit) freed = filter (.∉ held) freed) as Hsame.
  { intros Hd. apply filter_agree. intros p Hp. specialize (Hd p Hp). set_solver. }
  set (last := filter (.∉ held ++ transit) freed) in *. cbv zeta.
  assert (Forall (λ p, 0 < page_size p) last) as Hpl.
  { apply Forall_forall. intros p [_ Hp]%list_elem_of_filter. by apply (proj1 (Forall_forall _ _) Hpf). }
  pose proof (heldBytes_nonneg held Hph) as Hh. assert (0 ≤ heldCount held) as Hc by (unfold heldCount; lia).
  assert ((∀ p, p ∈ freed → p ∉ transit) →
    (bufferedBytes_ s - sumSizes last) - heldBytes held = bufferedBytes_ s - (sumSizes (filter (.∉ held) freed) + heldBytes held) ∧
    (bufferedPages_ s - Z.of_nat (length last)) - heldCount held =
      bufferedPages_ s - (Z.of_nat (length (filter (.∉ held) freed)) + heldCount held)) as Hdiff.
  { intros Hd. rewrite (Hsame Hd). lia. }
  exists (bufferedBytes_ s - sumSizes last), (bufferedPages_ s - Z.of_nat (length last)).
  destruct last as [|p last'] eqn:El; cbn [length Nat.eqb] in *.
  - simpl in *. rewrite !Z.sub_0_r in *. exists [], (promises_ s). split; [by destruct s|]. repeat (split; [done || lia|]). done.
  - rewrite <- El in *. assert (0 < sumSizes last).
    { rewrite El in *. apply Forall_cons in Hpl as [Hp Hpl]. pose proof (sumSizes_nonneg last' Hpl). simpl. lia. }
    rewrite (proj2 (Z.gtb_gt _ _)) by lia. cbn [velox_check mbind outcome_bind]. unfold updateStatsWithFreedPagesLocked.
    cbv zeta. cbn -[Z.of_nat].
    assert (bufferedBytes_ s - sumSizes last >=? 0 = true) as -> by (apply Z.geb_le; lia).
    change (S (length last')) with (length (p :: last')) in *. rewrite <- El in *. cbn -[Z.of_nat].
    assert (bufferedPages_ s - Z.of_nat (length last) >=? 0 = true) as -> by (apply Z.geb_le; lia). cbn -[Z.of_nat].
    destruct (Z.ltb_spec (bufferedBytes_ s - sumSizes last) (continueSize_ s)); cbn -[Z.of_nat].
    + exists (promises_ s), []. rewrite app_nil_r. split; [by destruct s|]. repeat (split; [done || lia|]). done.
    + exists [], (promises_ s). split; [by destruct s|]. repeat (split; [done || lia|]). done.
Qed.

(** ** Operations on a destination that keeps the invariant *)
Definition pageOk (p : SerializedPage) : Prop := 0 < page_size p ∧ is_Some (numRows_ p).

(** [arb] are the pages in the arbitrary buffer, [ended] says whether the last
    driver is done. *)
Record destData (ended : bool) (arb : list marked) (d : DestinationBuffer) : Prop := {
  dd_nodup : NoDup (pagesOf (data_ d) ++ pagesOf arb);
  dd_pages : Forall pageOk (pagesOf (data_ d));
  dd_marks : marksOk (data_ d);
  dd_ended : None ∈ data_ d → ended = true ∧ pagesOf arb = []
}.

(** A consumer waits only at the end of an empty queue. *)
Definition waitOk (d : DestinationBuffer) : Prop :=
  is_Some (notify_ d) → data_ d = [] ∧ notifySequence_ d = sequence_ d ∧ 0 < notifyMaxBytes_ d.

Lemma pagesOf_app l k : pagesOf (l ++ k) = pagesOf l ++ pagesOf k.
Proof. apply omap_app. Qed.

Lemma elem_of_pagesOf p l : p ∈ pagesOf l ↔ Some p ∈ l.
Proof. unfold pagesOf. rewrite list_elem_of_omap. naive_solver. Qed.

Lemma pageOk_rows l : Forall pageOk (pagesOf l) → Forall rowsOk l.
Proof.
  intros H. apply Forall_forall. intros [p|] Hp; [|done].
  by apply (proj1 (Forall_forall _ _) H p), elem_of_pagesOf.
Qed.

Definition cleared (d : DestinationBuffer) : DestinationBuffer :=
  match notify_ d with
  | None => d
  | Some _ => d <| notify_ := None |> <| notifySequence_ := 0 |> <| notifyMaxBytes_ := 0 |>
  end.

(** The notification of a consumer that waits at the front of the queue. *)
Definition notification (d : DestinationBuffer) (data : list marked) : option DataAvailable :=
  match notify_ d with None => None | Some cb => Some (mkDataAvailable cb (sequence_ d) data) end.

Lemma getAndClearNotify_Ok d :
  marksOk (data_ d) → (is_Some (notify_ d) → notifySequence_ d = sequence_ d) →
  ∃ data, getAndClearNotify d = Ok (notification d data, cleared d) ∧ data `prefix_of` data_ d ∧ (data_ d ≠ [] → data ≠ []).
Proof.
  intros Hm Hs. unfold getAndClearNotify, notification, cleared. destruct (notify_ d) as [cb|] eqn:E.
  - specialize (Hs ltac:(eauto)). unfold db_getData. rewrite Hs.
    assert (sequence_ d >=? sequence_ d = true) as -> by (apply Z.geb_le; lia).
    cbn [velox_check mbind outcome_bind]. rewrite Z.sub_diag.
    assert (0 >? db_size d = false) as -> by (unfold db_size; rewrite Z.gtb_ltb; apply Z.ltb_ge; lia).
    destruct (Z.eqb_spec 0 (db_size d)) as [Hz|Hz].
    + exists []. assert (data_ d = []) as Hd by (unfold db_size in Hz; apply length_zero_iff_nil; lia).
      split; [done|]. rewrite Hd. done.
    + destruct (collectPages_prefix (data_ d) 0 (notifyMaxBytes_ d) Hm) as (k & Hk & Hpos & _).
      exists (take k (data_ d)). change (Z.to_nat 0) with 0%nat. rewrite drop_0, Hk. split; [done|]. split; [apply prefix_take|].
      intros Hd. specialize (Hpos Hd). destruct k; [lia|]. by destruct (data_ d).
  - exists (data_ d). split; [done|]. by split.
Qed.

(** ** Loading from the arbitrary buffer *)
Lemma getPagesLoop_Ok acc maxBytes arb :
  marksOk arb →
  ∃ pages rest, getPagesLoop acc maxBytes arb = Ok (pages, rest) ∧
    ((arb = pages ++ rest ∧ None ∉ pages) ∨ (arb = pages ∧ rest = [None] ∧ None ∈ arb)) ∧
    (acc < maxBytes → arb ≠ [] → pages ≠ []).
Proof.
  revert acc. induction arb as [|[p|] arb IH]; intros acc Hm; cbn [getPagesLoop].
  - exists [], []. split; [by destruct (acc <? maxBytes)|]. split; [|done]. left. split; [done | by apply not_elem_of_nil].
  - apply marksOk_cons in Hm as [Hm _]. destruct (Z.ltb_spec acc maxBytes).
    + destruct (IH (acc + page_size p) Hm) as (pages & rest & -> & Hcase & _). exists (Some p :: pages), rest.
      split; [done|]. split; [|done].
      destruct Hcase as [[-> Hp] | (-> & -> & Hin)]; [left | right; repeat split; by right].
      split; [done|]. by rewrite not_elem_of_cons.
    + exists [], (Some p :: arb). split; [done|]. split; [|lia]. left. split; [done | by apply not_elem_of_nil].
  - apply marksOk_cons in Hm as [_ ->]; [|done]. destruct (Z.ltb_spec acc maxBytes).
    + exists [None], [None]. split; [done|]. split; [|done]. right. repeat split. by left.
    + exists [], [None]. split; [done|]. split; [|lia]. left. split; [done | by apply not_elem_of_nil].
Qed.

Lemma enqueueAll_Ok pages d :
  Forall rowsOk pages → marksOk (data_ d ++ pages) →
  ∃ s, foldM_o (λ d page, db_enqueue page d) pages d = Ok (d <| stats_ := s |> <| data_ := data_ d ++ pages |>).
Proof.
  revert d. induction pages as [|m pages IH]; intros d Hr Hm.
  - exists (stats_ d). rewrite app_nil_r. by destruct d.
  - apply Forall_cons in Hr as [Hrm Hr]. cbn [foldM_o].
    destruct (db_enqueue_Ok m d Hrm) as [s Hs].
    { intros ->. unfold hasNoMoreData. destruct (last (data_ d)) as [[|]|] eqn:E; [done| |done]. exfalso.
      rewrite last_lookup in E. specialize (Hm _ (lookup_app_l_Some _ _ _ _ E)). apply lookup_lt_Some in E.
      rewrite length_app in Hm. simpl in Hm. lia. }
    rewrite Hs. cbn [mbind outcome_bind].
    destruct (IH (d <| stats_ := s |> <| data_ := data_ d ++ [m] |>) Hr) as [s' ->]; [cbn; by rewrite <- app_assoc|].
    exists s'. cbn. by rewrite <- app_assoc.
Qed.

Lemma db_enqueue_again d : marksOk (data_ d) → None ∈ data_ d → db_enqueue None d = Ok d.
Proof.
  intros Hm [i Hi]%list_elem_of_lookup. cbn. unfold hasNoMoreData. rewrite last_lookup.
  specialize (Hm i Hi). replace (pred (length (data_ d))) with i by lia. by rewrite Hi.
Qed.

(** A load moves pages and keeps the end marker for the others. *)
Record loaded (d : DestinationBuffer) (arb : list marked) (d' : DestinationBuffer) (arb' : list marked) : Prop := {
  ld_suffix : pagesOf arb' `suffix_of` pagesOf arb;
  ld_moved : pagesOf (data_ d') ++ pagesOf arb' = pagesOf (data_ d) ++ pagesOf arb;
  ld_kept : notify_ d' = notify_ d ∧ notifySequence_ d' = notifySequence_ d ∧ notifyMaxBytes_ d' = notifyMaxBytes_ d ∧
    sequence_ d' = sequence_ d;
  ld_marks : marksOk (data_ d') ∧ marksOk arb';
  ld_ended : None ∈ arb' ↔ None ∈ arb;
  ld_end : None ∈ data_ d' → (None ∈ data_ d ∨ None ∈ arb) ∧ pagesOf arb' = [];
  ld_some : arb ≠ [] → data_ d' ≠ []
}.

Lemma marksOk_app l k : marksOk l → None ∉ l → marksOk k → marksOk (l ++ k).
Proof.
  intros Hl Hn Hk i [Hi|[Hle Hi]]%lookup_app_Some.
  - exfalso. apply Hn. by eapply list_elem_of_lookup_2.
  - specialize (Hk _ Hi). rewrite length_app. lia.
Qed.

Lemma marksOk_suffix l k : marksOk (l ++ k) → marksOk k.
Proof. intros H. apply (marksOk_drop (length l)) in H. by rewrite drop_app_length in H. Qed.

Lemma marksOk_noPages arb : marksOk arb → pagesOf arb = [] → arb = [] ∨ arb = [None].
Proof.
  intros Hm Hp. destruct arb as [|[p|] arb]; [by left | done|]. apply marksOk_cons in Hm as [_ ->]; [|done]. by right.
Qed.

Lemma pageOk_app l k : Forall pageOk (pagesOf (l ++ k)) ↔ Forall pageOk (pagesOf l) ∧ Forall pageOk (pagesOf k).
Proof. by rewrite pagesOf_app, Forall_app. Qed.

Lemma loadData_Ok ended arb maxBytes d :
  0 < maxBytes → destData ended arb d → marksOk arb → Forall pageOk (pagesOf arb) →
  ∃ d' arb', loadData arb maxBytes d = Ok (d', arb') ∧ loaded d arb d' arb'.
Proof.
  intros Hmax [Hn Hp Hm He] Hma Hpa. unfold loadData, getPages.
  assert (maxBytes >? 0 = true) as -> by (apply Z.gtb_lt; lia). cbn [velox_check mbind outcome_bind].
  destruct (getPagesLoop_Ok 0 maxBytes arb Hma) as (pages & rest & -> & Hcase & Hsome). cbn [mbind outcome_bind].
  specialize (Hsome Hmax). destruct (decide (None ∈ data_ d)) as [Hin|Hin].
  - destruct (He Hin) as [_ Hpa0].
    assert (foldM_o (λ d page, db_enqueue page d) pages d = Ok d ∧ rest = arb) as [-> ->].
    { destruct (marksOk_noPages arb Hma Hpa0) as [-> | ->], Hcase as [[Hc Hc'] | (Hc & -> & Hc')].
      - symmetry in Hc. by apply app_eq_nil in Hc as [-> ->].
      - by apply elem_of_nil in Hc'.
      - destruct pages as [|m pages]; [by simpl in Hc; subst|]. injection Hc as <- Hc. destruct Hc'. by left.
      - subst pages. cbn [foldM_o]. by rewrite db_enqueue_again. }
    eexists _, _. split; [done|]. split; try done.
    + intros _. split; [by left | done].
    + intros _ E. rewrite E in Hin. by apply elem_of_nil in Hin.
  - assert (pagesOf pages ++ pagesOf rest = pagesOf arb) as Hpr.
    { destruct Hcase as [[-> _] | (-> & -> & _)]; [by rewrite pagesOf_app | by rewrite app_nil_r]. }
    assert (marksOk pages ∧ marksOk rest) as [Hmp Hmr].
    { destruct Hcase as [[-> Hc] | (-> & -> & _)]; [|split; [done | intros [|[]]; done]].
      split; [|by eapply marksOk_suffix]. intros i Hi. destruct Hc. by eapply list_elem_of_lookup_2. }
    destruct (enqueueAll_Ok pages d) as [s ->]; [|by apply marksOk_app|].
    { apply pageOk_rows. rewrite <- Hpr, Forall_app in Hpa. apply Hpa. }
    eexists _, _. split; [done|]. split; cbn [data_ assign copy_of]; try done.
    + by exists (pagesOf pages).
    + cbn. by rewrite pagesOf_app, <- app_assoc, Hpr.
    + split; [cbn; by apply marksOk_app | done].
    + destruct Hcase as [[-> Hc] | (-> & -> & Hc)]; rewrite ?elem_of_app, ?list_elem_of_singleton; naive_solver.
    + cbn. rewrite elem_of_app. intros [?|Hq]; [done|]. destruct Hcase as [[_ Hc] | (-> & -> & Hc)]; [done|]. by auto.
    + cbn. intros Hne E. apply app_eq_nil in E as [_ ->]. by apply Hsome.
Qed.

Lemma loaded_destData ended d arb d' arb' :
  destData ended arb d → (None ∈ arb → ended = true) → Forall pageOk (pagesOf arb) → loaded d arb d' arb' →
  destData ended arb' d'.
Proof.
  intros [Hn Hp Hm He] Hea Hpa [Hsuf Hmv Hk [Hmd Hma] Hel Hend _]. split; [by rewrite Hmv| |done|].
  - apply (Forall_app _ _ (pagesOf arb')). rewrite Hmv. by apply Forall_app.
  - intros Hin. destruct (Hend Hin) as [[Hi|Hi] ->]; split; try done; [by apply He | by apply Hea].
Qed.

Lemma destData_fewer ended arb arb' d :
  pagesOf arb' `suffix_of` pagesOf arb → destData ended arb d → destData ended arb' d.
Proof.
  intros [k Hk] [Hn Hp Hm He]. rewrite Hk in Hn, He. split; try done.
  - rewrite app_assoc, (Permutation_app_comm (pagesOf (data_ d))), <- app_assoc in Hn. by apply NoDup_app in Hn as (_ & _ & Hn).
  - intros Hin. destruct (He Hin) as [-> E]. split; [done|]. by apply app_eq_nil in E as [_ ->].
Qed.

Lemma data_cleared d : data_ (cleared d) = data_ d.
Proof. unfold cleared. by destruct (notify_ d). Qed.

Lemma destData_cleared ended arb d : destData ended arb d → destData ended arb (cleared d).
Proof. intros []. by split; rewrite ?data_cleared. Qed.

Lemma notify_cleared d : notify_ (cleared d) = None.
Proof. unfold cleared. by destruct (notify_ d) eqn:E. Qed.

Lemma waitOk_cleared d : waitOk (cleared d).
Proof. intros H. rewrite notify_cleared in H. by destruct H. Qed.

(** ** Adding to a destination *)

(** A page or the end marker is added and a consumer that waits receives it. *)
Definition newMark (m : marked) (d : DestinationBuffer) : Prop :=
  match m with
  | Some p => pageOk p ∧ p ∉ pagesOf (data_ d) ∧ None ∉ data_ d
  | None => True
  end.

Lemma enqueueAndNotify_Ok ended m arb d :
  newMark m d → (∀ p, m = Some p → p ∉ pagesOf arb) → (m = None → ended = true ∧ pagesOf arb = []) →
  destData ended arb d → waitOk d →
  ∃ data d', enqueueAndNotify m d = Ok (notification d data, d') ∧ (is_Some (notify_ d) → data = [m]) ∧ notify_ d' = None ∧
    pagesOf (data_ d') = pagesOf (data_ d) ++ pagesOf [m] ∧ destData ended arb d'.
Proof.
  intros Hnew Harb Hend [Hn Hp Hm He] Hw. unfold enqueueAndNotify.
  destruct (decide (m = None ∧ None ∈ data_ d)) as [[-> Hin]|Hno].
  - rewrite db_enqueue_again by done. cbn [mbind outcome_bind].
    assert (notify_ d = None) as E.
    { destruct (notify_ d) eqn:E; [|done]. destruct (Hw ltac:(rewrite E; eauto)) as [Hd _]. rewrite Hd in Hin. by apply elem_of_nil in Hin. }
    exists [], d. unfold getAndClearNotify, notification. rewrite E. split; [done|]. split; [by intros []|]. split; [done|].
    split; [by rewrite app_nil_r | done].
  - assert (None ∉ data_ d) as Hnone by (destruct m; [by destruct Hnew as (_ & _ & ?) | naive_solver]).
    assert (marksOk (data_ d ++ [m])) as Hm' by (apply marksOk_app; [done..|]; intros [|i] Hi; [done | by rewrite lookup_cons in Hi]).
    destruct (enqueueAll_Ok [m] d) as [s Hs]; [|done|].
    { constructor; [|done]. destruct m; [apply Hnew | done]. }
    cbn [foldM_o] in Hs. destruct (db_enqueue m d) as [d1| |]; [|done..]. cbn [mbind outcome_bind] in *. injection Hs as ->.
    set (d1 := d <| stats_ := s |> <| data_ := data_ d ++ [m] |>).
    destruct (getAndClearNotify_Ok d1) as (data & Hg & Hpre & Hne); [done | intros Hs; by destruct (Hw Hs) as (_ & ? & _)|].
    exists data, (cleared d1). split; [exact Hg|]. split.
    { intros Hs. destruct (Hw Hs) as [Hd _]. cbn in Hpre, Hne. rewrite Hd in Hpre, Hne. simpl in Hpre, Hne.
      destruct data as [|x data]; [by destruct (Hne ltac:(done))|]. destruct Hpre as [k Hk]. injection Hk as -> Hk.
      symmetry in Hk. by apply app_eq_nil in Hk as [-> _]. }
    split; [apply notify_cleared|]. rewrite data_cleared. cbn [d1 data_ assign copy_of]. cbn.
    rewrite pagesOf_app. split; [done|]. apply destData_cleared. split; cbn; rewrite ?pagesOf_app.
    + destruct m as [p|]; simpl; [|by rewrite app_nil_r]. destruct Hnew as (_ & Hnp & _). rewrite <- app_assoc.
      apply NoDup_app in Hn as (Hn1 & Hn2 & Hn3). apply NoDup_app. split; [done|]. simpl. split.
      * intros q Hq. rewrite not_elem_of_cons. split; [by intros -> | by apply Hn2].
      * apply NoDup_cons. by split; [apply Harb|].
    + apply Forall_app. split; [done|]. destruct m as [p|]; simpl; [by constructor; [apply Hnew|] | done].
    + done.
    + rewrite elem_of_app, list_elem_of_singleton. intros [?|<-]; [done|]. by apply Hend.
Qed.

(** ** Taking from a destination *)
Lemma destData_drop ended arb n d s q :
  destData ended arb d → destData ended arb (d <| stats_ := s |> <| data_ := drop n (data_ d) |> <| sequence_ := q |>).
Proof.
  intros [Hn Hp Hm He]. rewrite <- (take_drop n (data_ d)) in Hn, Hp, He at 1. rewrite pagesOf_app in Hn, Hp. split; cbn.
  - rewrite <- app_assoc in Hn. by apply NoDup_app in Hn as (_ & _ & Hn).
  - by apply Forall_app in Hp as [_ Hp].
  - by apply marksOk_drop.
  - intros Hin. apply He, elem_of_app. by right.
Qed.

Lemma db_acknowledge_Ok ended arb sequence fromGetData d :
  destData ended arb d → waitOk d → sequence ≤ sequence_ d + db_size d →
  ∃ freed d', db_acknowledge sequence fromGetData d = Ok (freed, d') ∧ pagesOf (data_ d) = freed ++ pagesOf (data_ d') ∧
    sequence_ d' = Z.max sequence (sequence_ d) ∧ notify_ d' = notify_ d ∧ destData ended arb d' ∧ waitOk d'.
Proof.
  intros Hd Hw Hseq. unfold db_acknowledge. destruct (Z.leb_spec (sequence - sequence_ d) 0).
  - exists [], d. rewrite Z.max_r by lia. split; [by destruct (_ && _)|]. done.
  - destruct (Z.eqb_spec (sequence - sequence_ d) 0); [lia|]. cbn [andb].
    assert (sequence - sequence_ d <=? db_size d = true) as -> by (apply Z.leb_le; lia). cbn [velox_check mbind outcome_bind].
    set (k := Z.to_nat (sequence - sequence_ d)).
    destruct (freePages_Ok k (data_ d) (stats_ d)) as [s ->]; [apply Hd | apply pageOk_rows, Hd|]. cbn [mbind outcome_bind].
    eexists _, _. split; [done|]. cbn. rewrite <- pagesOf_app, take_drop. split; [done|]. split; [lia|]. split; [done|].
    split; [by apply destData_drop|]. intros Hs. destruct (Hw Hs) as [Hd0 _]. unfold db_size in Hseq. rewrite Hd0 in Hseq.
    simpl in Hseq. lia.
Qed.

Lemma db_deleteResults_Ok ended arb d :
  destData ended arb d →
  ∃ s, db_deleteResults d = Ok (pagesOf (data_ d), d <| stats_ := s |> <| data_ := [] |>).
Proof.
  intros Hd. unfold db_deleteResults.
  destruct (freePages_Ok (length (data_ d)) (data_ d) (stats_ d)) as [s ->]; [apply Hd | apply pageOk_rows, Hd|].
  rewrite take_ge by done. by exists s.
Qed.

(** A fetch at the front of the queue returns what is there, or waits for it. *)
Lemma db_getData_Ok ended maxBytes token (a : option ArbitraryBuffer) d :
  0 < maxBytes → destData ended (default [] a) d → waitOk d → (is_Some (notify_ d) → default [] a = []) →
  marksOk (default [] a) → Forall pageOk (pagesOf (default [] a)) → (None ∈ default [] a → ended = true) →
  ∃ data d' arb', db_getData maxBytes (sequence_ d) (Some token) a d = Ok (data, d', (λ _, arb') <$> a) ∧
    data `prefix_of` data_ d' ∧ notify_ d' = (match data with [] => Some token | _ => None end) ∧
    (data = [] → default [] a = [] ∧ arb' = []) ∧ marksOk arb' ∧ (None ∈ arb' ↔ None ∈ default [] a) ∧
    pagesOf arb' `suffix_of` pagesOf (default [] a) ∧
    pagesOf (data_ d') ++ pagesOf arb' = pagesOf (data_ d) ++ pagesOf (default [] a) ∧
    destData ended arb' d' ∧ waitOk d'.
Proof.
  intros Hmax Hd Hw Hwa Hma Hpa Hea. unfold db_getData.
  assert (sequence_ d >=? sequence_ d = true) as -> by (apply Z.geb_le; lia). cbn [velox_check mbind outcome_bind].
  assert (∃ d1 arb', match a with
     | Some buffer => '(d, buffer) ← loadData buffer maxBytes d; Ok (d, Some buffer)
     | None => Ok (d, None)
     end = Ok (d1, (λ _, arb') <$> a) ∧ loaded d (default [] a) d1 arb') as (d1 & arb' & -> & Hl).
  { destruct a as [arb|]; simpl in *.
    - destruct (loadData_Ok ended arb maxBytes d Hmax Hd Hma Hpa) as (d1 & arb' & -> & Hl). by exists d1, arb'.
    - exists d, []. split; [done|]. destruct Hd as [_ _ Hm He]. split; try done. intros Hin. split; [by left | done]. }
  cbn [mbind outcome_bind]. pose proof (loaded_destData ended _ _ _ _ Hd Hea Hpa Hl) as Hd1.
  destruct Hl as [Hsuf Hmv (Kn & Ks & Km & Kq) [Hmd Hma'] Hel Hend Hsome]. rewrite Kq, Z.sub_diag.
  assert (0 >? db_size d1 = false) as -> by (unfold db_size; rewrite Z.gtb_ltb; apply Z.ltb_ge; lia).
  destruct (Z.eqb_spec 0 (db_size d1)) as [Hz|Hz].
  - assert (data_ d1 = []) as E1 by (unfold db_size in Hz; apply length_zero_iff_nil; lia).
    assert (default [] a = []) as Ea by (destruct (default [] a); [done | by destruct (Hsome ltac:(done))]).
    assert (arb' = []) as ->.
    { rewrite Ea in Hsuf, Hel. destruct (marksOk_noPages arb' Hma') as [?| ->]; [|done|].
      - destruct Hsuf as [k Hk]. symmetry in Hk. by apply app_eq_nil in Hk as [_ ?].
      - assert ((None : marked) ∈ []) as Hx by (apply Hel; by left). by apply elem_of_nil in Hx. }
    exists [], (waitFor (Some token) (sequence_ d) maxBytes d1), []. split; [done|].
    split; [apply prefix_nil|]. split; [done|]. split; [done|]. split; [done|]. split; [done|]. split; [done|]. split; [done|].
    split; [by destruct Hd1; split|]. intros _. done.
  - destruct (collectPages_prefix (data_ d1) 0 maxBytes Hmd) as (k & Hk & Hpos & _).
    assert (data_ d1 ≠ []) as E1 by (intros E; apply Hz; unfold db_size; by rewrite E).
    assert (take k (data_ d1) ≠ []) as Ht by (specialize (Hpos E1); destruct k; [lia|]; by destruct (data_ d1)).
    assert (notify_ d = None) as En.
    { destruct (notify_ d) eqn:E; [|done]. exfalso. rewrite (Hwa ltac:(eauto)) in Hmv, Hend. destruct (Hw ltac:(rewrite E; eauto)) as [Hd0 _].
      rewrite Hd0 in Hmv, Hend. simpl in Hmv. apply app_eq_nil in Hmv as [Hp _].
      destruct (marksOk_noPages _ Hmd Hp) as [?|E2]; [done|].
      destruct Hend as [[Hx|Hx] _]; [rewrite E2; by left | by apply elem_of_nil in Hx..]. }
    exists (take k (data_ d1)), d1, arb'. change (Z.to_nat 0) with 0%nat. rewrite drop_0, Hk. split; [done|].
    split; [apply prefix_take|]. split; [rewrite Kn, En; by destruct (take k _)|]. split; [done|].
    split; [done|]. split; [done|]. split; [done|]. split; [done|]. split; [done|].
    intros Hs. rewrite Kn, En in Hs. by destruct Hs.
Qed.
