(* ===== verification/OutputBufferLoops.v ===== *)
(** * The loops of the output buffer over its destinations

    Each loop of [velox/exec/OutputBuffer.cpp] over [buffers_] succeeds on
    destinations that keep the invariant and keeps it: the broadcast of a page
    or of the end marker, the circular distribution of a page from the
    arbitrary buffer, its final distribution, and the creation of
    destinations. *)
From S2P Require Import Prelude OutputBuffer OutputBufferCorrect OutputBufferState.
Local Open Scope Z_scope.

Definition destOk (ended : bool) (arb : list marked) (d : DestinationBuffer) : Prop := destData ended arb d ∧ waitOk d.

Definition eachDest (P : DestinationBuffer → Prop) (bs : list (option DestinationBuffer)) : Prop :=
  ∀ d, Some d ∈ bs → P d.

Definition heldIn (bs : list (option DestinationBuffer)) : list SerializedPage := concat (map heldBy bs).

Lemma eachDest_cons P b bs : eachDest P (b :: bs) ↔ (∀ d, b = Some d → P d) ∧ eachDest P bs.
Proof.
  split.
  - intros H. split; [intros d ->; apply H; by left | intros d Hd; apply H; by right].
  - intros [H1 H2] d [?|?]%elem_of_cons; [by apply H1 | by apply H2].
Qed.

Lemma eachDest_insert P bs i b : eachDest P bs → (∀ d, b = Some d → P d) → eachDest P (<[i := b]> bs).
Proof.
  intros H Hb d [j Hj]%list_elem_of_lookup. apply list_lookup_insert_Some in Hj as [(-> & E & _)|[_ Hj]]; [by apply Hb|].
  by apply H, list_elem_of_lookup_2 with j.
Qed.

Lemma eachDest_impl (P Q : DestinationBuffer → Prop) bs : eachDest P bs → (∀ d, P d → Q d) → eachDest Q bs.
Proof. intros H HPQ d Hd. by apply HPQ, H. Qed.

(** Replacing a destination replaces the pages it holds. *)
Lemma heldIn_split i bs b :
  bs !! i = Some b → ∃ rest, heldIn bs ≡ₚ heldBy b ++ rest ∧ ∀ b', heldIn (<[i := b']> bs) ≡ₚ heldBy b' ++ rest.
Proof.
  intros Hi. exists (heldIn (take i bs) ++ heldIn (drop (S i) bs)).
  assert (∀ x l k, heldIn (l ++ x :: k) ≡ₚ heldBy x ++ heldIn l ++ heldIn k) as Hx.
  { intros x l k. unfold heldIn. rewrite map_app, concat_app. cbn [map concat].
    rewrite !app_assoc. f_equiv. apply Permutation_app_comm. }
  split; [by rewrite <- Hx, take_drop_middle|]. intros b'.
  rewrite insert_take_drop by (by eapply lookup_lt_Some). apply Hx.
Qed.

Lemma heldIn_insert i bs d b' : bs !! i = Some (Some d) → heldBy b' = pagesOf (data_ d) → heldIn (<[i := b']> bs) ≡ₚ heldIn bs.
Proof. intros Hi Hb. destruct (heldIn_split i bs _ Hi) as (rest & -> & Hr). by rewrite Hr, Hb. Qed.

(** ** All destinations *)
Lemma forBuffers_Ok f (R : DestinationBuffer → DestinationBuffer → Prop) bs :
  eachDest (λ d, ∃ cb d', f d = Ok (cb, d') ∧ R d d') bs →
  ∃ cbs bs', forBuffers f bs = Ok (cbs, bs') ∧ Forall2 (option_Forall2 R) bs bs'.
Proof.
  induction bs as [|[d|] bs IH]; intros H; [by exists [], []| |]; apply eachDest_cons in H as [Hd H];
    destruct (IH H) as (cbs & bs' & Hbs & HR); cbn [forBuffers].
  - destruct (Hd d eq_refl) as (cb & d' & -> & Hr). cbn [mbind outcome_bind]. rewrite Hbs.
    eexists _, _. split; [done|]. by repeat constructor.
  - rewrite Hbs. eexists _, _. split; [done|]. by repeat constructor.
Qed.

(** After a page or the end marker was added everywhere. *)
Definition addedMark (ended : bool) (arb : list marked) (m : marked) (d d' : DestinationBuffer) : Prop :=
  pagesOf (data_ d') = pagesOf (data_ d) ++ pagesOf [m] ∧ notify_ d' = None ∧ destData ended arb d'.

Lemma addedMark_dests ended arb m bs bs' :
  Forall2 (option_Forall2 (addedMark ended arb m)) bs bs' →
  eachDest (λ d, destData ended arb d ∧ notify_ d = None) bs'.
Proof.
  induction 1 as [|b b' bs bs' Hb _ IH]; [by intros d ?%elem_of_nil|]. apply eachDest_cons. split; [|done].
  intros d ->. inversion Hb as [? ? (_ & ? & ?)|]. done.
Qed.

Definition allDeleted (bs : list (option DestinationBuffer)) : bool :=
  forallb (λ b : option DestinationBuffer, match b with Some _ => false | None => true end) bs.

(** The page is held wherever a destination is alive. *)
Lemma addedMark_held ended arb m bs bs' :
  Forall2 (option_Forall2 (addedMark ended arb m)) bs bs' →
  heldIn bs' ≋ heldIn bs ++ (if allDeleted bs then [] else pagesOf [m]).
Proof.
  induction 1 as [|b b' bs bs' Hb _ IH]; [done|].
  unfold heldIn in *. cbn [map concat]. rewrite IH. intros q. rewrite !elem_of_app.
  inversion Hb as [d d' (Hp & _)|]; subst; cbn [heldBy allDeleted forallb andb].
  - rewrite Hp, elem_of_app. fold (allDeleted bs). destruct (allDeleted bs); set_solver.
  - fold (allDeleted bs). set_solver.
Qed.

(** The end marker is no page. *)
Lemma addedEnd_held ended arb bs bs' :
  Forall2 (option_Forall2 (addedMark ended arb None)) bs bs' → heldIn bs' = heldIn bs.
Proof.
  induction 1 as [|b b' bs bs' Hb _ IH]; [done|]. unfold heldIn in *. cbn [map concat]. rewrite IH. f_equal.
  inversion Hb as [d d' (Hp & _)|]; subst; [|done]. cbn [heldBy]. rewrite Hp. apply app_nil_r.
Qed.

Lemma allDeleted_same R bs bs' : Forall2 (option_Forall2 R) bs bs' → allDeleted bs' = allDeleted bs.
Proof. induction 1 as [|b b' bs bs' Hb _ IH]; [done|]. cbn. unfold allDeleted in *. rewrite IH. by destruct Hb. Qed.

(** ** Distribution from the arbitrary buffer *)
Record shared (ended : bool) (arb : list marked) : Prop := {
  sh_nodup : NoDup (pagesOf arb);
  sh_pages : Forall pageOk (pagesOf arb);
  sh_marks : marksOk arb;
  sh_ended : None ∈ arb → ended = true
}.

Lemma maybeLoad_Ok ended arb d :
  negb (ab_empty arb) || hasNoMoreData arb = true → shared ended arb → destOk ended arb d →
  ∃ d1 arb' cb d', maybeLoadData arb d = Ok (d1, arb') ∧ getAndClearNotify d1 = Ok (cb, d') ∧ notify_ d' = None ∧
    shared ended arb' ∧ (None ∈ arb' ↔ None ∈ arb) ∧ pagesOf arb' `suffix_of` pagesOf arb ∧
    pagesOf (data_ d') ++ pagesOf arb' = pagesOf (data_ d) ++ pagesOf arb ∧ destData ended arb' d'.
Proof.
  intros Hc [Hn Hp Hm He] [Hd Hw]. unfold maybeLoadData. rewrite Hc. cbn [velox_check mbind outcome_bind].
  destruct (notify_ d) as [cb|] eqn:E.
  - destruct (Hw ltac:(rewrite E; eauto)) as (Hd0 & Hseq & Hmax).
    assert (notifyMaxBytes_ d >? 0 = true) as -> by (apply Z.gtb_lt; lia). cbn [velox_check mbind outcome_bind].
    destruct (loadData_Ok ended arb (notifyMaxBytes_ d) d Hmax Hd Hm Hp) as (d1 & arb' & Hload & Hl).
    pose proof (loaded_destData ended _ _ _ _ Hd He Hp Hl) as Hd1.
    destruct Hl as [Hsuf Hmv (Kn & Ks & Km & Kq) [Hmd Hma'] Hel Hend Hsome].
    destruct (getAndClearNotify_Ok d1 Hmd) as (data & Hg & _); [intros _; congruence|].
    exists d1, arb', (notification d1 data), (cleared d1). rewrite data_cleared.
    split; [done|]. split; [done|]. split; [apply notify_cleared|]. split; [|by eauto using destData_cleared].
    destruct Hsuf as [k Hk]. rewrite Hk in Hn, Hp. split; [| |done|naive_solver].
    + by apply NoDup_app in Hn as (_ & _ & Hn).
    + by apply Forall_app in Hp as [_ Hp].
  - exists d, arb, None, d. unfold getAndClearNotify. rewrite E. do 3 (split; [done|]). split; [by split|]. by do 3 (split; [done|]).
Qed.

(** What the distribution to some destinations leaves. *)
Record distributed (ended : bool) (bs : list (option DestinationBuffer)) (arb : list marked)
    (bs' : list (option DestinationBuffer)) (arb' : list marked) : Prop := {
  di_length : length bs' = length bs;
  di_held : heldIn bs' ++ pagesOf arb' ≡ₚ heldIn bs ++ pagesOf arb;
  di_suffix : pagesOf arb' `suffix_of` pagesOf arb;
  di_ended : None ∈ arb' ↔ None ∈ arb;
  di_shared : shared ended arb';
  di_dests : eachDest (destOk ended arb') bs';
  di_waits : ∀ i d, bs' !! i = Some (Some d) → is_Some (notify_ d) → bs !! i = Some (Some d);
  di_deleted : allDeleted bs' = allDeleted bs
}.

Lemma distributed_refl ended bs arb : shared ended arb → eachDest (destOk ended arb) bs → distributed ended bs arb bs arb.
Proof. by split. Qed.

Lemma distributed_trans ended bs1 arb1 bs2 arb2 bs3 arb3 :
  distributed ended bs1 arb1 bs2 arb2 → distributed ended bs2 arb2 bs3 arb3 → distributed ended bs1 arb1 bs3 arb3.
Proof.
  intros [] []. split; try done; try congruence.
  - by etrans.
  - by etrans.
  - by etrans.
  - eauto.
Qed.

Lemma destOk_fewer ended arb arb' d : pagesOf arb' `suffix_of` pagesOf arb → destOk ended arb d → destOk ended arb' d.
Proof. intros H [??]. split; [by eapply destData_fewer | done]. Qed.

Lemma allDeleted_insert bs i d d' : bs !! i = Some (Some d) → allDeleted (<[i := Some d']> bs) = allDeleted bs.
Proof.
  revert i. induction bs as [|b bs IH]; intros [|i] Hi; try done; simpl in *; [by simplify_eq|].
  unfold allDeleted in *. simpl. by rewrite IH.
Qed.

(** One destination is offered the pages of the arbitrary buffer. *)
Lemma distribute_one ended bs arb i d :
  bs !! i = Some (Some d) → negb (ab_empty arb) || hasNoMoreData arb = true → shared ended arb →
  eachDest (destOk ended arb) bs →
  ∃ d1 arb' cb d', maybeLoadData arb d = Ok (d1, arb') ∧ getAndClearNotify d1 = Ok (cb, d') ∧ notify_ d' = None ∧
    distributed ended bs arb (<[i := Some d']> bs) arb'.
Proof.
  intros Hi Hc Hs Hd.
  destruct (maybeLoad_Ok ended arb d Hc Hs) as (d1 & arb' & cb & d' & H1 & H2 & Hn & Hs' & He & Hsuf & Hmv & Hd').
  { apply Hd. by eapply list_elem_of_lookup_2. }
  exists d1, arb', cb, d'. do 3 (split; [done|]). destruct (heldIn_split i bs _ Hi) as (rest & Hr & Hr'). split; try done.
  - apply length_insert.
  - rewrite Hr', Hr. cbn [heldBy]. rewrite <- !app_assoc, (Permutation_app_comm rest (pagesOf arb')),
      (Permutation_app_comm rest (pagesOf arb)), !app_assoc. by rewrite Hmv.
  - apply eachDest_insert.
    + apply (eachDest_impl _ _ _ Hd). intros e. by apply destOk_fewer.
    + intros e [= <-]. split; [done|]. intros Hw. rewrite Hn in Hw. by destruct Hw.
  - intros j e Hj Hw. apply list_lookup_insert_Some in Hj as [(-> & [= <-] & _)|[_ Hj]]; [|done].
    rewrite Hn in Hw. by destruct Hw.
  - by apply allDeleted_insert with d.
Qed.

(** The destinations [bufferId], ..., [bufferId + n - 1] in a circle are
    offered the pages; a page is left only when none of them waits. *)
Lemma arbitraryLoop_Ok n bufferId arb s :
  (bufferId < length (buffers_ s))%nat → None ∉ arb → shared (atEnd_ s) arb → eachDest (destOk (atEnd_ s) arb) (buffers_ s) →
  ∃ bs' arb' next cbs,
    arbitraryLoop n bufferId arb s =
      Ok (s <| buffers_ := bs' |> <| arbitraryBuffer_ := Some arb' |> <| nextArbitraryLoadBufferIndex_ := next |>, cbs) ∧
    (next = nextArbitraryLoadBufferIndex_ s ∨ (next < length (buffers_ s))%nat) ∧
    distributed (atEnd_ s) (buffers_ s) arb bs' arb' ∧
    (arb' = [] ∨ ∀ k d, (k < n)%nat → bs' !! ((bufferId + k) mod length (buffers_ s))%nat = Some (Some d) → notify_ d = None).
Proof.
  revert bufferId arb s. induction n as [|n IH]; intros bufferId arb s Hid Hnone Hs Hd; cbn [arbitraryLoop].
  - exists (buffers_ s), arb, (nextArbitraryLoadBufferIndex_ s), []. split; [by destruct s|]. split; [by left|].
    split; [by apply distributed_refl | right; lia].
  - destruct (ab_empty arb) eqn:Ee.
    { exists (buffers_ s), arb, bufferId, []. split; [by destruct s|]. split; [by right|]. split; [by apply distributed_refl|].
      left. destruct arb as [|[p|] [|? ?]]; try done. destruct Hnone. by left. }
    assert ((bufferId + 1) mod length (buffers_ s) < length (buffers_ s))%nat as Hnext by (apply Nat.mod_upper_bound; lia).
    assert (∀ k, ((bufferId + 1) mod length (buffers_ s) + k) mod length (buffers_ s) = (bufferId + S k) mod length (buffers_ s))%nat
      as Hmod by (intros k; rewrite Nat.Div0.add_mod_idemp_l; f_equal; lia).
    destruct (lookup_lt_is_Some_2 _ _ Hid) as [b Hb]. rewrite Hb. destruct b as [d|].
    + destruct (distribute_one (atEnd_ s) _ arb bufferId d Hb) as (d1 & arb1 & cb & d' & -> & H2 & Hn & Hdi);
        [by rewrite Ee | done..|]. cbn [mbind outcome_bind]. rewrite H2. cbn [mbind outcome_bind].
      set (s1 := s <| buffers_ := <[bufferId := Some d']> (buffers_ s) |>).
      assert (length (buffers_ s1) = length (buffers_ s)) as Hlen by apply length_insert.
      destruct (IH ((bufferId + 1) mod length (buffers_ s))%nat arb1 s1) as (bs' & arb' & next & cbs & HL & Hnx & Hdi' & Hw).
      { by rewrite Hlen. } { by rewrite (di_ended _ _ _ _ _ Hdi). } { apply Hdi. } { apply Hdi. }
      exists bs', arb', next, (option_list cb ++ cbs). fold s1. rewrite HL. split; [by destruct s|].
      rewrite Hlen in Hnx, Hw. split; [done|]. split; [by eapply distributed_trans|].
      destruct Hw as [?|Hw]; [by left|]. right. intros [|k] e Hk He.
      * rewrite Nat.add_0_r, Nat.mod_small in He by done. destruct (notify_ e) eqn:En; [|done].
        pose proof (di_waits _ _ _ _ _ Hdi' _ _ He ltac:(rewrite En; eauto)) as Hx. cbn in Hx.
        rewrite list_lookup_insert_eq in Hx by done. by simplify_eq.
      * apply (Hw k e); [lia|]. by rewrite Hmod.
    + destruct (IH ((bufferId + 1) mod length (buffers_ s))%nat arb s Hnext Hnone Hs Hd)
        as (bs' & arb' & next & cbs & HL & Hnx & Hdi' & Hw).
      exists bs', arb', next, cbs. rewrite HL. do 3 (split; [done|]). destruct Hw as [?|Hw]; [by left|]. right.
      intros [|k] e Hk He.
      * rewrite Nat.add_0_r, Nat.mod_small in He by done. destruct (notify_ e) eqn:En; [|done].
        pose proof (di_waits _ _ _ _ _ Hdi' _ _ He ltac:(rewrite En; eauto)) as Hx. by simplify_eq.
      * apply (Hw k e); [lia|]. by rewrite Hmod.
Qed.

Lemma distributed_cons ended b bs arb bs' arb' :
  (∀ d, b = Some d → destOk ended arb d) → distributed ended bs arb bs' arb' → distributed ended (b :: bs) arb (b :: bs') arb'.
Proof.
  intros Hb []. split; try done.
  - simpl. congruence.
  - unfold heldIn in *. cbn [map concat]. by rewrite <- !app_assoc, di_held0.
  - apply eachDest_cons. split; [|done]. intros d ->. by eapply destOk_fewer, Hb.
  - intros [|i] d Hi Hw; [done | by apply (di_waits0 i d)].
  - unfold allDeleted in *. simpl. by rewrite di_deleted0.
Qed.

Lemma hasNoMoreData_spec arb : marksOk arb → hasNoMoreData arb = true ↔ None ∈ arb.
Proof.
  intros Hm. unfold hasNoMoreData. split.
  - destruct (last arb) as [[|]|] eqn:E; try done. intros _. rewrite last_lookup in E. by eapply list_elem_of_lookup_2.
  - intros [i Hi]%list_elem_of_lookup. specialize (Hm i Hi). rewrite last_lookup.
    replace (pred (length arb)) with i by lia. by rewrite Hi.
Qed.

(** When the last driver is done nobody waits any more. *)
Lemma loadAll_Ok ended arb bs :
  None ∈ arb → shared ended arb → eachDest (destOk ended arb) bs →
  ∃ cbs bs' arb', loadAll arb bs = Ok (cbs, bs', arb') ∧ distributed ended bs arb bs' arb' ∧
    eachDest (λ d, notify_ d = None) bs'.
Proof.
  revert arb. induction bs as [|[d|] bs IH]; intros arb Hend Hs Hd; cbn [loadAll].
  - exists [], [], arb. split; [done|]. split; [by apply distributed_refl | by intros d ?%elem_of_nil].
  - assert (negb (ab_empty arb) || hasNoMoreData arb = true) as Hc.
    { apply orb_true_iff. right. by apply hasNoMoreData_spec; [apply Hs|]. }
    destruct (distribute_one ended (Some d :: bs) arb 0 d eq_refl Hc Hs Hd) as (d1 & arb1 & cb & d' & -> & H2 & Hn & Hdi).
    cbn [mbind outcome_bind]. rewrite H2. cbn [mbind outcome_bind].
    pose proof (di_dests _ _ _ _ _ Hdi) as Hd1. simpl in Hd1. apply eachDest_cons in Hd1 as [Hd1 Hd2].
    destruct (IH arb1) as (cbs & bs' & arb' & -> & Hdi' & Hn'); [by apply (di_ended _ _ _ _ _ Hdi) | apply Hdi | done|].
    eexists _, _, _. split; [done|]. split.
    + eapply distributed_trans; [exact Hdi|]. by apply distributed_cons.
    + apply eachDest_cons. split; [|done]. by intros e [= <-].
  - apply eachDest_cons in Hd as [_ Hd]. destruct (IH arb Hend Hs Hd) as (cbs & bs' & arb' & -> & Hdi & Hn).
    eexists _, _, _. split; [done|]. split; [by apply distributed_cons|]. apply eachDest_cons. by split.
Qed.

(** ** New destinations *)
Lemma newBroadcastDestination_Ok s :
  Forall pageOk (dataToBroadcast_ s) → NoDup (dataToBroadcast_ s) →
  ∃ d, newBroadcastDestination s = Ok d ∧ pagesOf (data_ d) = dataToBroadcast_ s ∧ notify_ d = None ∧
    sequence_ d = 0 ∧ destData (atEnd_ s) [] d.
Proof.
  intros Hp Hn. unfold newBroadcastDestination.
  assert (∀ l d, foldM_o (λ d page, db_enqueue (Some page) d) l d = foldM_o (λ d page, db_enqueue page d) (map Some l) d) as Hmap.
  { induction l as [|p l IH]; intros d; [done|]. cbn [foldM_o map]. destruct (db_enqueue (Some p) d); cbn [mbind outcome_bind]; [apply IH | done..]. }
  assert (∀ l, pagesOf (map Some l) = l ∧ None ∉ map Some l) as Hpo.
  { induction l as [|p l [IH1 IH2]]; [split; [done | by apply not_elem_of_nil]|]. simpl. split; [by f_equal|]. by apply not_elem_of_cons. }
  destruct (Hpo (dataToBroadcast_ s)) as [Hpages Hnone]. set (l := map Some (dataToBroadcast_ s)) in *. rewrite Hmap. fold l.
  assert (marksOk l) as Hm by (intros i Hi; destruct Hnone; by eapply list_elem_of_lookup_2).
  rewrite <- Hpages in Hp, Hn. destruct (enqueueAll_Ok l newDestinationBuffer) as [st ->]; [by apply pageOk_rows | done|].
  cbn [mbind outcome_bind]. rewrite <- Hpages.
  assert (marksOk (l ++ [None])) as Hme by (apply marksOk_app; [done..|]; by intros [|[]]).
  destruct (atEnd_ s) eqn:E.
  - destruct (db_enqueue_Ok None (newDestinationBuffer <| stats_ := st |> <| data_ := l |>)) as [st' Hs']; [done| |].
    { intros _. unfold hasNoMoreData. cbn. destruct (last l) as [[|]|] eqn:El; [done| |done].
      destruct Hnone. rewrite last_lookup in El. by eapply list_elem_of_lookup_2. }
    eexists. split; [exact Hs'|]. cbn. rewrite pagesOf_app, app_nil_r. do 3 (split; [done|]).
    by split; cbn; rewrite ?pagesOf_app, ?app_nil_r.
  - eexists. split; [done|]. cbn. do 3 (split; [done|]). split; cbn; rewrite ?app_nil_r; done.
Qed.

Lemma newDestinations_Ok n arb s :
  Forall pageOk (dataToBroadcast_ s) → NoDup (dataToBroadcast_ s) → NoDup (pagesOf arb) → (isBroadcast s = true → arb = []) →
  ∃ added, newDestinations n s = Ok added ∧ length added = n ∧ Forall is_Some added ∧
    eachDest (λ d, destData (atEnd_ s) arb d ∧ notify_ d = None ∧ sequence_ d = 0) added ∧
    ∀ p, p ∈ heldIn added → p ∈ dataToBroadcast_ s.
Proof.
  intros Hp Hn Hna Hb. induction n as [|n (added & IH & Hlen & Hsome & Hd & Hheld)]; cbn [newDestinations].
  - exists []. do 3 (split; [done|]). split; [by intros d ?%elem_of_nil | by intros p ?%elem_of_nil].
  - assert (∃ d, (if isBroadcast s then newBroadcastDestination s else Ok newDestinationBuffer) = Ok d ∧
      destData (atEnd_ s) arb d ∧ notify_ d = None ∧ sequence_ d = 0 ∧ ∀ p, p ∈ pagesOf (data_ d) → p ∈ dataToBroadcast_ s)
      as (d & -> & Hdd & Hnd & Hsd & Hpd).
    { destruct (isBroadcast s).
      - rewrite Hb by done. destruct (newBroadcastDestination_Ok s Hp Hn) as (d & -> & Hpages & ? & ? & ?).
        exists d. rewrite Hpages. by do 4 (split; [done|]).
      - exists newDestinationBuffer. split; [done|]. split; [split; cbn; [done | constructor | by intros [] | by intros ?%elem_of_nil]|]. do 2 (split; [done|]). by intros p ?%elem_of_nil. }
    cbn [mbind outcome_bind]. rewrite IH. exists (Some d :: added). split; [done|]. split; [simpl; lia|].
    split; [by constructor|]. split.
    + apply eachDest_cons. split; [by intros e [= <-] | done].
    + intros p. unfold heldIn in *. cbn [map concat heldBy]. rewrite elem_of_app. intros [?|?]; [by apply Hpd | by apply Hheld].
Qed.
