(* ===== verification/OutputBufferReach.v ===== *)
(** * The output buffer shared by threads

    The functions of [velox/exec/OutputBuffer.cpp] as the steps of a transition
    system that several threads take in any order.  A step is a critical
    section, or what a thread does after it has left the mutex and other
    threads can observe: the release of the pages in its vector [freed], one
    reference after the other, the clearing of [dataToBroadcast_], and the
    second part of [updateNumDrivers].  An invariant of every reachable
    state. *)
From S2P Require Import Prelude OutputBuffer OutputBufferCorrect OutputBufferState OutputBufferLoops.
Local Open Scope Z_scope.

Definition pending (s : OutputBuffer) : list marked := default [] (arbitraryBuffer_ s).

(** The pages that destinations, the arbitrary buffer and, as long as
    destinations may be added, the broadcast list hold. *)
Definition livePages (s : OutputBuffer) : list SerializedPage :=
  heldIn (buffers_ s) ++ (if noMoreBuffers_ s then [] else dataToBroadcast_ s) ++ pagesOf (pending s).

(** The references that threads outside of the mutex are about to drop. *)
Definition transit (s : OutputBuffer) : list SerializedPage :=
  releasing_ s ++ (if noMoreBuffers_ s then dataToBroadcast_ s else []).

(** ** The invariant *)

(** The counts are at least those of the pages held; they are those of the
    pages held when pages are not shared, and when [exact] says that nothing
    has disturbed the counts.  Producers wait only above [continueSize_]. *)
Record accountsInv (exact : bool) (s : OutputBuffer) : Prop := {
  ai_pages : Forall pageOk (livePages s);
  ai_bytes : heldBytes (livePages s) ≤ bufferedBytes_ s;
  ai_count : heldCount (livePages s) ≤ bufferedPages_ s;
  ai_exact : exact = true ∨ kind_ s ≠ kBroadcast →
    bufferedBytes_ s = heldBytes (livePages s) ∧ bufferedPages_ s = heldCount (livePages s);
  ai_sole : kind_ s ≠ kBroadcast → NoDup (livePages s ++ transit s);
  ai_promises : promises_ s ≠ [] → continueSize_ s ≤ bufferedBytes_ s;
  ai_sizes : continueSize_ s ≤ maxSize_ s
}.

(** Destinations and the arbitrary buffer are consistent; a consumer waits only
    when there is nothing for it. *)
Record queuesInv (s : OutputBuffer) : Prop := {
  qu_kind : kind_ s = kArbitrary ↔ is_Some (arbitraryBuffer_ s);
  qu_broadcast : NoDup (dataToBroadcast_ s);
  qu_kept : dataToBroadcast_ s ≠ [] → kind_ s = kBroadcast;
  qu_shared : shared (atEnd_ s) (pending s);
  qu_dests : eachDest (destOk (atEnd_ s) (pending s)) (buffers_ s);
  qu_waits : eachDest (λ d, is_Some (notify_ d) → pending s = []) (buffers_ s)
}.

Record shapeInv (s : OutputBuffer) : Prop := {
  sh_stats : length (finishedBufferStats_ s) = length (buffers_ s);
  sh_drivers : numFinished_ s ≤ numDrivers_ s;
  sh_atEnd : atEnd_ s = true → numFinished_ s = numDrivers_ s;
  sh_next : nextArbitraryLoadBufferIndex_ s = 0%nat ∨ (nextArbitraryLoadBufferIndex_ s < length (buffers_ s))%nat
}.

Definition bufferInv (exact : bool) (s : OutputBuffer) : Prop := accountsInv exact s ∧ queuesInv s ∧ shapeInv s.

(** ** Steps *)
Inductive call :=
| Enqueue (destination : nat) (data : SerializedPage) (future : option nat)
| NoMoreData
| UpdateNumDrivers (newNumDrivers : Z)
| NoMoreDrivers
| UpdateOutputBuffers (numBuffers : nat) (noMoreBuffers : bool)
| ClearBroadcast
| GetData (destination : nat) (maxBytes sequence : Z) (notify : nat)
| Acknowledge (destination : nat) (sequence : Z)
| DeleteResults (destination : nat)
| Release (page : SerializedPage)
| Terminate.

Definition noEffects : Effects := mkEffects [] [] false.

(** What [Acknowledge], [DeleteResults] and [GetData] take out of the buffer
    stays in [releasing_] until the steps [Release]. *)
Definition run (c : call) (s : OutputBuffer) : outcome (OutputBuffer * Effects) :=
  match c with
  | Enqueue destination data future => '(s, e, _) ← enqueue true destination data future s; Ok (s, e)
  | NoMoreData => noMoreData s
  | UpdateNumDrivers n => Ok (setNumDrivers n s, noEffects)
  | NoMoreDrivers => noMoreDrivers s
  | UpdateOutputBuffers numBuffers noMoreBuffers => updateOutputBuffersLocked numBuffers noMoreBuffers s
  | ClearBroadcast => Ok (clearBroadcast s, noEffects)
  | GetData destination maxBytes sequence notify =>
      '(s, _, e) ← getDataLocked destination maxBytes sequence notify s; Ok (s, e)
  | Acknowledge destination sequence => '(s, _, e) ← acknowledgeLocked destination sequence s; Ok (s, e)
  | DeleteResults destination => '(s, _, e) ← deleteResultsLocked destination s; Ok (s, e)
  | Release page => Ok (releasePages [page] s, noEffects)
  | Terminate => terminate false s
  end.

(** What the callers are told to respect: a page is new, not empty and has a row count;
    nothing is produced after the last driver is done; the number of drivers
    only decreases; nothing beyond what was produced is acknowledged; the end
    of the destinations is not announced again while the list of the broadcast
    pages is still being cleared.  A thread clears the list after it has
    announced the end of the destinations and releases pages it has taken. *)
Definition allowed (c : call) (s : OutputBuffer) : Prop :=
  match c with
  | Enqueue destination data _ =>
      (destination < length (buffers_ s))%nat ∧ (isPartitioned s = false → destination = 0%nat) ∧
      pageOk data ∧ data ∉ heldPages s ++ releasing_ s ∧ atEnd_ s = false
  | NoMoreData => numFinished_ s < numDrivers_ s
  | UpdateNumDrivers n => numFinished_ s ≤ n ≤ numDrivers_ s
  | NoMoreDrivers => True
  | UpdateOutputBuffers numBuffers noMoreBuffers =>
      if isPartitioned s then numBuffers = length (buffers_ s) ∧ noMoreBuffers = true
      else ((length (buffers_ s) < numBuffers)%nat → noMoreBuffers_ s = false) ∧
           (noMoreBuffers = true → noMoreBuffers_ s = true → dataToBroadcast_ s = [])
  | ClearBroadcast => noMoreBuffers_ s = true
  | GetData destination maxBytes sequence _ =>
      0 < maxBytes ∧
      match buffers_ s !! destination with
      | Some (Some d) => sequence_ d ≤ sequence ≤ sequence_ d + db_size d
      | Some None => False
      | None => isPartitioned s = false ∧ noMoreBuffers_ s = false ∧ sequence = 0
      end
  | Acknowledge destination sequence =>
      match buffers_ s !! destination with
      | Some (Some d) => sequence ≤ sequence_ d + db_size d
      | Some None => True
      | None => False
      end
  | DeleteResults destination => (destination < length (buffers_ s))%nat
  | Release page => page ∈ releasing_ s
  | Terminate => True
  end.

(** What does not disturb the counts of a broadcast: it takes pages out of the
    buffer only when no other thread is about to release some, and is not given
    pages after everything was consumed. *)
Definition calm (c : call) (s : OutputBuffer) : Prop :=
  match c with
  | Enqueue _ _ _ => isBroadcast s = true → isFinished s = false
  | UpdateOutputBuffers _ _ | GetData _ _ _ _ | Acknowledge _ _ | DeleteResults _ => isBroadcast s = true → transit s = []
  | _ => True
  end.

Inductive reachableBy (may : call → OutputBuffer → Prop) : OutputBuffer → Prop :=
| reachable_new kind maxSize numDestinations numDrivers :
    0 ≤ maxSize → 0 ≤ numDrivers → reachableBy may (newOutputBuffer kind maxSize numDestinations numDrivers)
| reachable_step c s s' e : reachableBy may s → may c s → run c s = Ok (s', e) → reachableBy may s'.

(** Every state that threads can bring the buffer into. *)
Definition reachable : OutputBuffer → Prop := reachableBy allowed.

(** The states that are reached without a step that disturbs the counts. *)
Definition undisturbed : OutputBuffer → Prop := reachableBy (λ c s, allowed c s ∧ calm c s).

(** [c] returns and keeps the invariant. *)
Definition keeps (exact : bool) (c : call) (s : OutputBuffer) : Prop := ∃ s' e, run c s = Ok (s', e) ∧ bufferInv exact s'.

(** ** References *)
Lemma heldPages_live s : heldPages s ++ releasing_ s ≡ₚ livePages s ++ transit s.
Proof.
  unfold heldPages, livePages, transit, pending. fold (heldIn (buffers_ s)). rewrite <- !app_assoc. f_equiv.
  destruct (noMoreBuffers_ s); simpl; [|by rewrite app_nil_r].
  etrans; [apply Permutation_app_comm|]. by rewrite <- app_assoc.
Qed.

Lemma not_held p s : p ∉ heldPages s ++ releasing_ s → p ∉ livePages s ∧ p ∉ transit s.
Proof. rewrite heldPages_live, elem_of_app. naive_solver. Qed.

(** ** A new buffer *)
Ltac empty_case := first [done | by constructor | by intros [] | by intros ?%elem_of_nil].

Lemma newOutputBuffer_inv exact kind maxSize n drivers :
  0 ≤ maxSize → 0 ≤ drivers → bufferInv exact (newOutputBuffer kind maxSize n drivers).
Proof.
  intros Hmax Hdr. set (s := newOutputBuffer kind maxSize n drivers).
  assert (heldIn (buffers_ s) = []) as Hheld by (simpl; clear; induction n; done).
  assert (pending s = []) as Hp by (unfold pending; by destruct kind).
  assert (livePages s = []) as Hh by (unfold livePages; by rewrite Hheld, Hp).
  assert (∀ d, Some d ∈ buffers_ s → d = newDestinationBuffer) as Hd.
  { intros d Hd. simpl in Hd. by apply elem_of_replicate in Hd as [[= ->] _]. }
  split; [|split].
  - split; rewrite ?Hh; try done. { intros _. constructor. }
    simpl. unfold kContinuePct. Z.to_euclidean_division_equations. lia.
  - split; rewrite ?Hp.
    + simpl. destruct kind; simpl; split; try done; by intros [].
    + constructor.
    + done.
    + split; simpl; empty_case.
    + intros d ->%Hd. split; [|by intros []].
      split; simpl; empty_case.
    + done.
  - split; simpl; [by rewrite !length_replicate | done | done | by left].
Qed.

(** ** Accounts *)
Definition accounts (s : OutputBuffer) :=
  (bufferedBytes_ s, bufferedPages_ s, promises_ s, continueSize_ s, maxSize_ s, kind_ s).

Lemma accounts_same exact s s' :
  accounts s' = accounts s → livePages s' ≋ livePages s →
  (kind_ s ≠ kBroadcast → livePages s' ++ transit s' ≡ₚ livePages s ++ transit s) → accountsInv exact s → accountsInv exact s'.
Proof.
  intros E Hh Hr [Hp Hb Hc He Hn Hpr Hs]. injection E as E1 E2 E3 E4 E5 E6.
  split; rewrite ?E1, ?E2, ?E3, ?E4, ?E5, ?E6, ?Hh; try done.
  - apply Forall_forall. intros p Hin. apply Hh in Hin. by apply (proj1 (Forall_forall _ _) Hp).
  - intros Hk. rewrite (Hr Hk). by apply Hn.
Qed.

(** The pages that are held only change places. *)
Lemma accounts_moved exact s s' :
  accounts s' = accounts s → transit s' = transit s → livePages s' ≡ₚ livePages s → accountsInv exact s → accountsInv exact s'.
Proof. intros E Ht Hl. apply accounts_same; [done | by rewrite Hl|]. intros _. by rewrite Ht, Hl. Qed.

(** The pages [freed] leave the buffer: what only they held is no longer
    counted. *)
Lemma acknowledged_Ok exact s s1 freed :
  accountsInv exact s → (exact = true → isBroadcast s = true → transit s = []) → NoDup freed →
  accounts s1 = accounts s → livePages s ≡ₚ freed ++ livePages s1 → transit s1 ≡ₚ transit s ++ freed →
  ∃ bytes pages promises rest, updateAfterAcknowledgeLocked freed s1 =
      Ok (s1 <| bufferedBytes_ := bytes |> <| bufferedPages_ := pages |> <| promises_ := rest |>, promises) ∧
    accountsInv exact (s1 <| bufferedBytes_ := bytes |> <| bufferedPages_ := pages |> <| promises_ := rest |>).
Proof.
  intros [Hp Hb Hc Hex Hso Hpr Hs] Hcalm Hn E Hh Ht. injection E as E1 E2 E3 E4 E5 E6. rewrite Hh in *.
  destruct (updateAfterAcknowledge_Ok freed (livePages s1) (transit s) s1)
    as (bytes & pages & promises & rest & Hu & _ & Hrest & Hb1 & Hc1 & Hsame).
  - done.
  - apply (Forall_impl pageOk); [done | by intros p []].
  - rewrite heldPages_live, Ht, (Permutation_app_comm (transit s)), Permutation_app_swap_app. done.
  - by rewrite E1.
  - by rewrite E2.
  - by rewrite E1, E3, E4.
  - exists bytes, pages, promises, rest. split; [done|]. apply Forall_app in Hp as [_ Hp]. set (s2 := _ <| promises_ := rest |>).
    assert (livePages s2 = livePages s1 ∧ transit s2 = transit s1) as [L T] by done.
    assert (kind_ s ≠ kBroadcast → NoDup (livePages s1 ++ transit s1) ∧ ∀ p, p ∈ freed → p ∉ transit s) as Hsole.
    { intros Hk. specialize (Hso Hk). rewrite <- app_assoc in Hso. split.
      - by rewrite Ht, (Permutation_app_comm (transit s) freed), Permutation_app_swap_app.
      - intros p Hin. apply NoDup_app in Hso as (_ & Hd & _). specialize (Hd p Hin). set_solver. }
    split; rewrite ?L, ?T; try done.
    + change (kind_ s2) with (kind_ s1). rewrite E6. intros Hx.
      assert (∀ p, p ∈ freed → p ∉ transit s) as Hd.
      { destruct (decide (kind_ s = kBroadcast)) as [Hk|Hk]; [|by apply Hsole]. destruct Hx as [Hx|]; [|done].
        intros p _. rewrite Hcalm; [apply not_elem_of_nil | done | unfold isBroadcast; by rewrite Hk]. }
      destruct (Hsame Hd), (Hex Hx). change (bufferedBytes_ s2) with bytes. change (bufferedPages_ s2) with pages.
      rewrite E1, E2 in *. lia.
    + change (kind_ s2) with (kind_ s1). rewrite E6. intros Hk. by apply Hsole.
    + cbn. by rewrite E4, E5.
Qed.

(** ** Consumers *)
Lemma livePages_insert s i d b' freed :
  buffers_ s !! i = Some (Some d) → pagesOf (data_ d) = freed ++ heldBy b' →
  livePages s ≡ₚ freed ++ livePages (s <| buffers_ := <[i := b']> (buffers_ s) |>).
Proof.
  intros Hi Hf. destruct (heldIn_split i _ _ Hi) as (rest & Hr & Hr'). unfold livePages, pending, heldIn in *. cbn.
  rewrite Hr, Hr'. cbn [heldBy]. by rewrite Hf, <- !app_assoc.
Qed.

(** The vector [freed] of a thread joins the references in transit. *)
Lemma transit_taken s s' freed :
  (releasing_ s', noMoreBuffers_ s', dataToBroadcast_ s') = (releasing_ s ++ freed, noMoreBuffers_ s, dataToBroadcast_ s) →
  transit s' ≡ₚ transit s ++ freed.
Proof. intros [= E1 E2 E3]. unfold transit. rewrite E1, E2, E3, <- !app_assoc. f_equiv. apply Permutation_app_comm. Qed.

Lemma dest_lookup s i d : queuesInv s → buffers_ s !! i = Some (Some d) →
  destOk (atEnd_ s) (pending s) d ∧ (is_Some (notify_ d) → pending s = []).
Proof. intros H Hi. apply list_elem_of_lookup_2 in Hi. split; [by apply (qu_dests s H) | by apply (qu_waits s H)]. Qed.

Lemma freed_NoDup ended arb d freed rest : destOk ended arb d → pagesOf (data_ d) = freed ++ rest → NoDup freed.
Proof. intros [[Hn _ _ _] _] E. rewrite E, <- app_assoc in Hn. by apply NoDup_app in Hn as [Hn _]. Qed.

(** Replacing a destination keeps the queues consistent. *)
Lemma queues_insert s s' i b' :
  queuesInv s → buffers_ s' = <[i := b']> (buffers_ s) →
  (kind_ s', arbitraryBuffer_ s', dataToBroadcast_ s', noMoreBuffers_ s', atEnd_ s') =
    (kind_ s, arbitraryBuffer_ s, dataToBroadcast_ s, noMoreBuffers_ s, atEnd_ s) →
  (∀ d, b' = Some d → destOk (atEnd_ s) (pending s) d ∧ (is_Some (notify_ d) → pending s = [])) → queuesInv s'.
Proof.
  intros [] Hb E Hd. injection E as E1 E2 E3 E4 E5.
  split; unfold pending in *; rewrite ?E1, ?E2, ?E3, ?E4, ?E5, ?Hb; try done;
    (apply eachDest_insert; [done|]); intros d Hd'; by apply (Hd d).
Qed.

Lemma shape_same s s' :
  shapeInv s → length (buffers_ s') = length (buffers_ s) → length (finishedBufferStats_ s') = length (finishedBufferStats_ s) →
  (numFinished_ s', numDrivers_ s', atEnd_ s', nextArbitraryLoadBufferIndex_ s') =
    (numFinished_ s, numDrivers_ s, atEnd_ s, nextArbitraryLoadBufferIndex_ s) → shapeInv s'.
Proof. intros [] H1 H2 E. injection E as E1 E2 E3 E4. by split; rewrite ?H1, ?H2, ?E1, ?E2, ?E3, ?E4. Qed.

Lemma acknowledge_keeps exact destination sequence s :
  bufferInv exact s → allowed (Acknowledge destination sequence) s → (exact = true → calm (Acknowledge destination sequence) s) →
  keeps exact (Acknowledge destination sequence) s.
Proof.
  intros (Ha & Hq & Hs) Hal Hcalm. unfold keeps, run, acknowledgeLocked. cbn in Hal.
  destruct (buffers_ s !! destination) as [[d|]|] eqn:Hi; [| |done].
  - destruct (dest_lookup s _ _ Hq Hi) as [[Hd Hw] Hwp].
    destruct (db_acknowledge_Ok _ _ sequence false d Hd Hw Hal) as (freed & d' & -> & Hp & Hseq & Hnot & Hd' & Hw').
    cbn [mbind outcome_bind].
    destruct (acknowledged_Ok exact s (s <| buffers_ := <[destination := Some d']> (buffers_ s) |>
      <| releasing_ := releasing_ s ++ freed |>) freed) as (bytes & pages & promises & rest & -> & Hacc); [done|done| | | | |].
    + by eapply freed_NoDup, Hp.
    + done.
    + by apply (livePages_insert s destination d (Some d') freed).
    + by apply transit_taken.
    + cbn [mbind outcome_bind]. eexists _, _. split; [done|]. split; [exact Hacc|]. split.
      * eapply queues_insert; [done | done | done|]. intros e [= <-]. by rewrite Hnot.
      * eapply shape_same; [done | by cbn; rewrite length_insert | done..].
  - by eexists _, _.
Qed.

Lemma deleteResults_keeps exact destination s :
  bufferInv exact s → allowed (DeleteResults destination) s → (exact = true → calm (DeleteResults destination) s) →
  keeps exact (DeleteResults destination) s.
Proof.
  intros (Ha & Hq & Hs) Hal Hcalm. unfold keeps, run, deleteResultsLocked. cbn in Hal.
  destruct (lookup_lt_is_Some_2 _ _ Hal) as [[d|] Hi]; rewrite Hi; [|by eexists _, _].
  destruct (dest_lookup s _ _ Hq Hi) as [[Hd Hw] Hwp].
  destruct (db_deleteResults_Ok _ _ d Hd) as [st ->]. cbn [mbind outcome_bind].
  set (d1 := d <| stats_ := st |> <| data_ := [] |>).
  destruct (getAndClearNotify_Ok d1) as (data & -> & _ & _); [by intros [] | intros Hn; by destruct (Hw Hn) as (_ & ? & _)|].
  cbn [mbind outcome_bind]. unfold finish. rewrite notify_cleared, data_cleared. cbn [mbind outcome_bind velox_check bool_decide].
  rewrite !bool_decide_true by done. cbn [mbind outcome_bind velox_check].
  assert (destination <? length (finishedBufferStats_ s) = true)%nat as -> by (apply Nat.ltb_lt; by rewrite (sh_stats s Hs)).
  cbn [mbind outcome_bind velox_check]. cbv zeta. set (s1 := _ <| releasing_ := _ |>).
  destruct (acknowledged_Ok exact s s1 (pagesOf (data_ d))) as (bytes & pages & promises & rest & -> & Hacc); [done|done| | | | |].
  - eapply freed_NoDup; [by split|]. symmetry. apply app_nil_r.
  - done.
  - apply (livePages_insert s destination d None); [done|]. symmetry. apply app_nil_r.
  - by apply transit_taken.
  - cbn [mbind outcome_bind]. eexists _, _. split; [done|]. split; [exact Hacc|]. split.
    + by eapply queues_insert.
    + eapply shape_same; [done | by cbn; rewrite length_insert | by cbn; rewrite length_insert | done].
Qed.

Lemma terminate_keeps exact s : bufferInv exact s → keeps exact Terminate s.
Proof.
  intros ([] & Hq & Hs). eexists _, _. split; [done|]. split; [by split | by destruct Hq, Hs].
Qed.

(** ** Outside of the mutex *)
Lemma removeOne_perm p l : p ∈ l → l ≡ₚ p :: removeOne p l.
Proof.
  induction l as [|q l IH]; [by intros ?%elem_of_nil|]. intros Hin. simpl. case_bool_decide as E; [by subst|].
  apply elem_of_cons in Hin as [?|Hin]; [done|]. rewrite (IH Hin) at 1. constructor.
Qed.

(** References in transit are dropped. *)
Lemma transit_dropped exact s s' dropped :
  accounts s' = accounts s → livePages s' = livePages s → transit s ≡ₚ dropped ++ transit s' →
  accountsInv exact s → accountsInv exact s'.
Proof.
  intros E L T [Hp Hb Hc He Hn Hpr Hs]. injection E as E1 E2 E3 E4 E5 E6. split; rewrite ?E1, ?E2, ?E3, ?E4, ?E5, ?E6, ?L; try done.
  intros Hk. specialize (Hn Hk). rewrite T, Permutation_app_swap_app in Hn. by apply NoDup_app in Hn as (_ & _ & Hn).
Qed.

Lemma release_keeps exact p s : bufferInv exact s → allowed (Release p) s → keeps exact (Release p) s.
Proof.
  intros (Ha & Hq & Hs) Hal. eexists _, _. split; [done|]. split; [|by destruct Hq, Hs].
  apply (transit_dropped exact s _ [p]); [done | done | | done].
  unfold transit. cbn. by rewrite (removeOne_perm p (releasing_ s)) at 1.
Qed.

Lemma clearBroadcast_keeps exact s : bufferInv exact s → allowed ClearBroadcast s → keeps exact ClearBroadcast s.
Proof.
  intros (Ha & Hq & Hs) Hal. cbn in Hal. eexists _, _. split; [done|]. split; [|split].
  - apply (transit_dropped exact s _ (dataToBroadcast_ s)); [done | | | done]; unfold livePages, transit, clearBroadcast; cbn; rewrite Hal.
    + done.
    + rewrite app_nil_r. apply Permutation_app_comm.
  - destruct Hq. split; cbn; try done. constructor.
  - by destruct Hs.
Qed.

(** ** Destinations are added *)
Lemma sole_broadcast s : queuesInv s → kind_ s ≠ kBroadcast → dataToBroadcast_ s = [].
Proof. intros Hq Hk. destruct (dataToBroadcast_ s) eqn:E; [done|]. destruct Hk. apply Hq. by rewrite E. Qed.

Lemma addOutputBuffers_keeps exact numBuffers s :
  bufferInv exact s → isPartitioned s = false → noMoreBuffers_ s = false → (length (buffers_ s) < numBuffers)%nat →
  ∃ added, addOutputBuffersLocked numBuffers s =
      Ok (s <| buffers_ := buffers_ s ++ added |> <| finishedBufferStats_ := resize numBuffers newStats (finishedBufferStats_ s) |>) ∧
    length added = (numBuffers - length (buffers_ s))%nat ∧ Forall is_Some added ∧
    eachDest (λ d, notify_ d = None ∧ sequence_ d = 0) added ∧
    bufferInv exact (s <| buffers_ := buffers_ s ++ added |> <| finishedBufferStats_ := resize numBuffers newStats (finishedBufferStats_ s) |>).
Proof.
  intros (Ha & Hq & Hs) Hpart Hno Hlt. unfold addOutputBuffersLocked. rewrite Hno, Hpart. cbn [negb velox_check mbind outcome_bind].
  destruct (newDestinations_Ok (numBuffers - length (buffers_ s)) (pending s) s) as (added & -> & Hlen & Hsome & Hd & Hheld).
  - pose proof (ai_pages _ s Ha) as Hp. unfold livePages in Hp. rewrite Hno, !Forall_app in Hp. apply Hp.
  - apply Hq.
  - apply Hq.
  - unfold isBroadcast, pending. intros Hb%bool_decide_eq_true. destruct (arbitraryBuffer_ s) eqn:E; [|done].
    assert (kind_ s = kArbitrary) as Hk by (apply (qu_kind s Hq); rewrite E; eauto). congruence.
  - cbn [mbind outcome_bind]. exists added. split; [done|]. split; [done|]. split; [done|]. split.
    { apply (eachDest_impl _ _ _ Hd). naive_solver. }
    assert (∀ bs, heldIn (bs ++ added) = heldIn bs ++ heldIn added) as Happ
      by (intros bs; unfold heldIn; by rewrite map_app, concat_app).
    split; [|split].
    + apply (accounts_same exact s); [done | | | exact Ha].
      * unfold livePages, pending. cbn. fold (heldIn (buffers_ s ++ added)). rewrite Happ, Hno. intros p. rewrite !elem_of_app. specialize (Hheld p). naive_solver.
      * intros Hk. rewrite (sole_broadcast s Hq Hk) in Hheld.
        assert (heldIn added = []) as E.
        { destruct (heldIn added) as [|p l]; [done|]. destruct (not_elem_of_nil p). apply Hheld. by left. }
        unfold livePages, pending, transit. cbn. fold (heldIn (buffers_ s ++ added)). by rewrite Happ, E, app_nil_r.
    + destruct Hq. split; try done; cbn; intros d [Hin|Hin]%elem_of_app; try (by apply qu_dests0); try (by apply qu_waits0);
        destruct (Hd d Hin) as (Hdd & Hn & _).
      * split; [done|]. intros Hw. rewrite Hn in Hw. by destruct Hw.
      * intros Hw. rewrite Hn in Hw. by destruct Hw.
    + destruct Hs as [H1 H2 H3 H4]. split; cbn; try done.
      * rewrite length_resize, length_app. lia.
      * rewrite length_app. lia.
Qed.

(** The announcement that no more destinations come, once they were added. *)
Lemma noMoreBuffers_keeps exact s :
  bufferInv exact s → (exact = true → isBroadcast s = true → transit s = []) →
  (noMoreBuffers_ s = true → dataToBroadcast_ s = []) →
  ∃ s' promises, updateAfterAcknowledgeLocked (dataToBroadcast_ s) (s <| noMoreBuffers_ := true |>) = Ok (s', promises) ∧ bufferInv exact s'.
Proof.
  intros (Ha & Hq & Hs) Hcalm Hd.
  destruct (acknowledged_Ok exact s (s <| noMoreBuffers_ := true |>) (dataToBroadcast_ s))
    as (bytes & pages & promises & rest & Hu & Hacc); [done | done | apply Hq | done | | |].
  - unfold livePages, pending. cbn. destruct (noMoreBuffers_ s); [by rewrite Hd | apply Permutation_app_swap_app].
  - unfold transit. cbn. destruct (noMoreBuffers_ s); [by rewrite Hd, !app_nil_r | by rewrite app_nil_r].
  - eexists _, _. split; [exact Hu|]. split; [exact Hacc|]. split; [by destruct Hq | by destruct Hs].
Qed.

Lemma updateOutputBuffers_keeps exact numBuffers noMoreBuffers s :
  bufferInv exact s → allowed (UpdateOutputBuffers numBuffers noMoreBuffers) s →
  (exact = true → calm (UpdateOutputBuffers numBuffers noMoreBuffers) s) → keeps exact (UpdateOutputBuffers numBuffers noMoreBuffers) s.
Proof.
  intros Hinv Hal Hcalm. unfold keeps, run, updateOutputBuffersLocked. cbn in Hal, Hcalm.
  destruct (isPartitioned s) eqn:Hpart.
  - destruct Hal as [-> ->]. rewrite Nat.eqb_refl. cbn [velox_check mbind outcome_bind]. eexists _, _. split; [done|].
    destruct Hinv as (Ha & Hq & Hs). split; [|split; [by destruct Hq | by destruct Hs]].
    assert (dataToBroadcast_ s = []) as E.
    { apply (sole_broadcast s Hq). unfold isPartitioned in Hpart. apply bool_decide_eq_true in Hpart. congruence. }
    apply (accounts_moved exact s); [done | | | done]; unfold livePages, transit, pending; cbn; rewrite E; by destruct (noMoreBuffers_ s).
  - destruct Hal as [Hadd Hclear].
    assert (∃ s1, (if (length (buffers_ s) <? numBuffers)%nat then addOutputBuffersLocked numBuffers s else Ok s) = Ok s1 ∧
      bufferInv exact s1 ∧ (kind_ s1, transit s1, noMoreBuffers_ s1, dataToBroadcast_ s1) =
        (kind_ s, transit s, noMoreBuffers_ s, dataToBroadcast_ s)) as (s1 & -> & Hinv1 & E).
    { destruct (Nat.ltb_spec (length (buffers_ s)) numBuffers); [|by exists s].
      destruct (addOutputBuffers_keeps exact numBuffers s) as (added & -> & _ & _ & _ & Hi); [by auto..|]. by eexists. }
    injection E as Ek Et En Ed. cbn [mbind outcome_bind]. destruct noMoreBuffers; cbn [negb]; [|by eexists _, _]. cbv zeta.
    destruct (noMoreBuffers_keeps exact s1) as (s2 & promises & Hu & Hinv2); [done | | |].
    + unfold isBroadcast in *. by rewrite Ek, Et.
    + rewrite En, Ed. by apply Hclear.
    + change (dataToBroadcast_ (s1 <| noMoreBuffers_ := true |>)) with (dataToBroadcast_ s1). rewrite Hu. by eexists _, _.
Qed.

(** ** Fetches *)

(** A load changes the pages of one destination and of the arbitrary buffer. *)
Lemma load_queues s i d d' arb' :
  queuesInv s → buffers_ s !! i = Some (Some d) →
  marksOk arb' → (None ∈ arb' ↔ None ∈ pending s) → pagesOf arb' `suffix_of` pagesOf (pending s) →
  destData (atEnd_ s) arb' d' → waitOk d' → (is_Some (notify_ d') → pending s = [] ∧ arb' = []) →
  queuesInv (s <| buffers_ := <[i := Some d']> (buffers_ s) |> <| arbitraryBuffer_ := (λ _, arb') <$> arbitraryBuffer_ s |>).
Proof.
  intros Hq Hi Hm Hel Hsuf Hd Hw Hwp. set (s' := _ <| arbitraryBuffer_ := _ |>).
  destruct (arbitraryBuffer_ s) as [arb|] eqn:Ea.
  - assert (pending s = arb) as Hp by (unfold pending; by rewrite Ea). rewrite Hp in *.
    assert (pending s' = arb') as Hp' by done.
    destruct Hq as [Hk Hb Hke [Hn Hpa Hma He] Hds Hws]. rewrite Hp in *. split; try done; cbn [atEnd_ s']; rewrite ?Hp'.
    + cbn. rewrite Hk, Ea. by split; intros; eauto.
    + destruct Hsuf as [k Hsk]. rewrite Hsk in Hn, Hpa. split; [| |done|cbn; naive_solver].
      * by apply NoDup_app in Hn as (_ & _ & ?).
      * by apply Forall_app in Hpa as [_ ?].
    + apply eachDest_insert; [|intros e [= <-]; by split]. apply (eachDest_impl _ _ _ Hds). intros e. by apply destOk_fewer.
    + apply eachDest_insert; [|intros e [= <-] ?; by apply Hwp]. apply (eachDest_impl _ _ _ Hws).
      intros e He' Hx. specialize (He' Hx). rewrite He' in Hsuf, Hel. destruct (marksOk_noPages arb' Hm) as [?| ->]; [|done|].
      * destruct Hsuf as [k Hsk]. symmetry in Hsk. by apply app_eq_nil in Hsk as [_ ?].
      * assert ((None : marked) ∈ []) as Hy by (apply Hel; by left). by apply elem_of_nil in Hy.
  - assert (pending s = []) as Hp by (unfold pending; by rewrite Ea). rewrite Hp in *.
    destruct Hq as [Hk Hb Hke Hsh Hds Hws]. rewrite Hp in *. split; try done; cbn [atEnd_ s'].
    + cbn. by rewrite Hk, Ea.
    + apply eachDest_insert; [done|]. intros e [= <-]. split; [|done]. eapply destData_fewer, Hd. apply suffix_nil.
Qed.

(** Pages loaded by a destination are as live as before. *)
Lemma livePages_loaded s i d d' arb' :
  buffers_ s !! i = Some (Some d) → pagesOf arb' `suffix_of` pagesOf (pending s) →
  pagesOf (data_ d') ++ pagesOf arb' = pagesOf (data_ d) ++ pagesOf (pending s) →
  livePages (s <| buffers_ := <[i := Some d']> (buffers_ s) |> <| arbitraryBuffer_ := (λ _, arb') <$> arbitraryBuffer_ s |>)
    ≡ₚ livePages s.
Proof.
  intros Hi Hsuf Hmv. destruct (heldIn_split i _ _ Hi) as (others & Ho & Ho'). unfold livePages, pending, heldIn in *. cbn.
  rewrite Ho, Ho'. cbn [heldBy].
  assert (pagesOf (default [] ((λ _, arb') <$> arbitraryBuffer_ s)) ++ pagesOf (data_ d') ≡ₚ
    pagesOf (default [] (arbitraryBuffer_ s)) ++ pagesOf (data_ d)) as Hx.
  { etrans; [apply Permutation_app_comm|]. etrans; [|apply Permutation_app_comm].
    destruct (arbitraryBuffer_ s); apply reflexive_eq; [exact Hmv|]. rewrite <- Hmv.
    destruct Hsuf as [k Hsk]. symmetry in Hsk. by apply app_eq_nil in Hsk as [_ ->]. }
  rewrite !(app_assoc _ _ (pagesOf (default [] _))), !(Permutation_app_comm _ (pagesOf (default [] _))), !app_assoc.
  by rewrite Hx.
Qed.

Lemma getDataLocked_Ok exact destination maxBytes sequence notify s d :
  bufferInv exact s → (exact = true → isBroadcast s = true → transit s = []) →
  buffers_ s !! destination = Some (Some d) → 0 < maxBytes → sequence_ d ≤ sequence ≤ sequence_ d + db_size d →
  ∃ s' freed e, getDataLocked destination maxBytes sequence notify s = Ok (s', freed, e) ∧ bufferInv exact s'.
Proof.
  intros (Ha & Hq & Hs) Hcalm Hi Hmax [Hge Hle]. unfold getDataLocked.
  assert (length (buffers_ s) <=? destination = false)%nat as Hlt by (apply Nat.leb_gt; by eapply lookup_lt_Some).
  rewrite Hlt, andb_false_r. cbn [mbind outcome_bind]. rewrite Hi.
  destruct (dest_lookup s _ _ Hq Hi) as [[Hd Hw] Hwp].
  destruct (db_acknowledge_Ok _ _ sequence true d Hd Hw Hle) as (freed & d1 & -> & Hp & Hseq & Hnot & Hd1 & Hw1).
  cbn [mbind outcome_bind]. rewrite Z.max_l in Hseq by lia.
  set (s1 := s <| buffers_ := <[destination := Some d1]> (buffers_ s) |> <| releasing_ := releasing_ s ++ freed |>).
  destruct (acknowledged_Ok exact s s1 freed) as (bytes & pages & promises & rest & -> & Hacc);
    [done | done | by eapply freed_NoDup, Hp | done | | by apply transit_taken |].
  { by apply (livePages_insert s destination d (Some d1) freed). }
  cbn [mbind outcome_bind]. set (s2 := s1 <| bufferedBytes_ := _ |> <| bufferedPages_ := _ |> <| promises_ := rest |>) in *.
  change (arbitraryBuffer_ s2) with (arbitraryBuffer_ s).
  assert (queuesInv s2) as Hq2 by (eapply (queues_insert s); [done | done | done|]; intros e [= <-]; by rewrite Hnot).
  destruct Hq as [Hk Hb Hke Hsh Hds Hws]. subst sequence.
  destruct (db_getData_Ok (atEnd_ s) maxBytes notify (arbitraryBuffer_ s) d1) as
    (data & d2 & arb' & -> & _ & Hn2 & Hdata & Hma & Hel & Hsuf & Hmv & Hd2 & Hw2);
    [done | done | done | by rewrite Hnot | apply Hsh..|].
  cbn [mbind outcome_bind]. eexists _, _, _. split; [done|].
  assert (buffers_ s2 !! destination = Some (Some d1)) as Hi2 by (cbn; apply list_lookup_insert_eq; by eapply lookup_lt_Some).
  split; [|split].
  - apply (accounts_moved exact s2); [done | done | | done]. by apply (livePages_loaded s2 destination d1 d2 arb').
  - apply (load_queues s2 destination d1 d2 arb'); try done.
    intros Hx. apply Hdata. rewrite Hn2 in Hx. destruct data; [done | by destruct Hx].
  - apply (shape_same s); [done | by cbn; rewrite !length_insert | done | done].
Qed.

Lemma getData_keeps exact destination maxBytes sequence notify s :
  bufferInv exact s → allowed (GetData destination maxBytes sequence notify) s →
  (exact = true → calm (GetData destination maxBytes sequence notify) s) → keeps exact (GetData destination maxBytes sequence notify) s.
Proof.
  intros Hinv [Hmax Hal] Hcalm. unfold keeps, run. destruct (buffers_ s !! destination) as [[d|]|] eqn:Hi; [|done|].
  - destruct (getDataLocked_Ok exact destination maxBytes sequence notify s d) as (s' & freed & e & -> & Hi'); [done..|]. by eexists _, _.
  - destruct Hal as (Hpart & Hno & ->). apply lookup_ge_None in Hi.
    destruct (addOutputBuffers_keeps exact (destination + 1) s) as (added & Hadd & Hlen & Hsome & Hnew & Hinv1); [done..|lia|].
    set (s1 := s <| buffers_ := _ |> <| finishedBufferStats_ := _ |>) in *.
    assert (∃ d, added !! (destination - length (buffers_ s))%nat = Some (Some d)) as [d Hd].
    { destruct (lookup_lt_is_Some_2 added (destination - length (buffers_ s))) as [b Hb]; [lia|].
      destruct (proj1 (Forall_lookup _ _) Hsome _ _ Hb) as [d ->]. eauto. }
    destruct (Hnew d) as [_ Hs0]; [by eapply list_elem_of_lookup_2|].
    assert (buffers_ s1 !! destination = Some (Some d)) as Hi1 by (cbn; by rewrite lookup_app_r).
    destruct (getDataLocked_Ok exact destination maxBytes 0 notify s1 d) as (s' & freed & e & He & Hi'); [done..| |].
    { unfold db_size. lia. }
    assert (getDataLocked destination maxBytes 0 notify s = getDataLocked destination maxBytes 0 notify s1) as ->.
    { unfold getDataLocked. rewrite Hpart, (proj2 (Nat.leb_le _ _)) by done. cbn [negb andb]. rewrite Hadd.
      assert (length (buffers_ s1) <=? destination = false)%nat as -> by (apply Nat.leb_gt; by eapply lookup_lt_Some).
      by rewrite andb_false_r. }
    rewrite He. by eexists _, _.
Qed.

(** ** The last driver is done *)
Lemma destOk_end ended arb arb' d : pagesOf arb' = pagesOf arb → destOk ended arb d → destOk true arb' d.
Proof. intros E [[Hn Hp Hm He] Hw]. split; [|done]. split; rewrite ?E; try done. intros Hin. split; [done | by apply He]. Qed.

Lemma shared_end ended arb : shared ended arb → shared true (ab_noMoreData arb) ∧ None ∈ ab_noMoreData arb ∧ pagesOf (ab_noMoreData arb) = pagesOf arb.
Proof.
  intros [Hn Hp Hm He]. unfold ab_noMoreData. destruct (hasNoMoreData arb) eqn:E.
  - split; [by split|]. split; [by apply hasNoMoreData_spec | done].
  - assert (pagesOf (arb ++ [None]) = pagesOf arb) as Hpa by (rewrite pagesOf_app; apply app_nil_r).
    split; [split; rewrite ?Hpa; try done|split; [apply elem_of_app; right; by left | done]].
    apply marksOk_snoc; [done|]. intros El. unfold hasNoMoreData in E. by rewrite El in E.
Qed.

(** The state once every destination has the end marker or can load it. *)
Definition endedState (n : Z) (bs : list (option DestinationBuffer)) (arb : list marked) (s : OutputBuffer) : OutputBuffer :=
  s <| numFinished_ := n |> <| atEnd_ := true |> <| buffers_ := bs |>
    <| arbitraryBuffer_ := (λ _, arb) <$> arbitraryBuffer_ s |>.

Lemma endedState_inv exact n bs arb s :
  bufferInv exact s → n = numDrivers_ s → eachDest (destOk true arb) bs → eachDest (λ d, notify_ d = None) bs → shared true arb →
  length bs = length (buffers_ s) → (arbitraryBuffer_ s = None → arb = []) →
  heldIn bs ++ pagesOf arb ≡ₚ heldIn (buffers_ s) ++ pagesOf (pending s) → bufferInv exact (endedState n bs arb s).
Proof.
  intros (Ha & Hq & Hs) Heq Hd Hn Hsh Hlen Ha0 Hheld. set (s' := endedState n bs arb s).
  assert (pending s' = arb) as Hp'.
  { unfold pending. cbn. destruct (arbitraryBuffer_ s); [done|]. symmetry. by apply Ha0. }
  split; [|split].
  - apply (accounts_moved exact s); [done | done | | done]. unfold livePages. rewrite Hp'.
    change (buffers_ s') with bs. change (noMoreBuffers_ s') with (noMoreBuffers_ s). change (dataToBroadcast_ s') with (dataToBroadcast_ s).
    by rewrite !(Permutation_app_swap_app (heldIn _)), Hheld.
  - destruct Hq as [Hk Hb Hke _ _ _]. split; rewrite ?Hp'; try done.
    + cbn. rewrite Hk. by destruct (arbitraryBuffer_ s); split; intros []; eauto.
    + intros d Hin Hw. rewrite (Hn d Hin) in Hw. by destruct Hw.
  - destruct Hs as [H1 H2 H3 H4]. split; cbn; try done; try lia; by rewrite Hlen.
Qed.

Lemma checkIfDone_Ok exact (oneDriverFinished : bool) s n :
  bufferInv exact s → n = (if oneDriverFinished then numFinished_ s + 1 else numFinished_ s) →
  n ≤ numDrivers_ s → (atEnd_ s = true → n = numDrivers_ s) →
  ∃ s' e, checkIfDone oneDriverFinished s = Ok (s', e) ∧ bufferInv exact s'.
Proof.
  intros Hinv Hnf Hle Hend. pose proof Hinv as (Ha & Hq & Hs). unfold checkIfDone. cbv zeta.
  assert ((if oneDriverFinished then s <| numFinished_ := numFinished_ s + 1 |> else s) = s <| numFinished_ := n |>) as ->
    by (subst n; by destruct oneDriverFinished, s).
  cbn [numFinished_ numDrivers_]. cbn. assert (n <=? numDrivers_ s = true) as -> by (by apply Z.leb_le). cbn.
  destruct (Z.eqb_spec n (numDrivers_ s)) as [Heq|Hne]; cbn.
  2: { eexists _, _. split; [done|]. assert (atEnd_ s = false) as He by (destruct (atEnd_ s); naive_solver).
       split; [by apply (accounts_moved exact s)|]. split.
       - destruct Hq. rewrite He in *. by split.
       - destruct Hs. by split. }
  destruct (arbitraryBuffer_ s) as [arb|] eqn:Earb.
  - assert (kind_ s = kArbitrary) as Hk by (apply (qu_kind s Hq); rewrite Earb; eauto). rewrite Hk.
    assert (pending s = arb) as Hpe by (unfold pending; by rewrite Earb). destruct Hq as [_ _ _ Hsh Hd _]. rewrite Hpe in *.
    destruct (shared_end _ _ Hsh) as (Hsh' & Hin & Hpa).
    destruct (loadAll_Ok true (ab_noMoreData arb) (buffers_ s)) as (cbs & bs & arb' & -> & Hdi & Hn); [done | done | |].
    { apply (eachDest_impl _ _ _ Hd). intros d. by apply destOk_end. }
    cbn [mbind outcome_bind]. destruct Hdi. exists (endedState n bs arb' s), (mkEffects cbs [] false). split.
    + unfold endedState. rewrite Earb. by rewrite <- Hk.
    + apply endedState_inv; try done; [by rewrite Earb|]. by rewrite Hpe, di_held, Hpa.
  - assert (kind_ s ≠ kArbitrary) as Hk by (intros E; apply (qu_kind s Hq) in E; rewrite Earb in E; by destruct E).
    assert (pending s = []) as Hpe by (unfold pending; by rewrite Earb). destruct Hq as [_ _ _ Hsh Hd _]. rewrite Hpe in *.
    destruct (forBuffers_Ok (enqueueAndNotify None) (addedMark true [] None) (buffers_ s)) as (cbs & bs & Hf & HR).
    { apply (eachDest_impl _ _ _ Hd). intros d Hdd. destruct (destOk_end _ [] [] d eq_refl Hdd) as [Hd1 Hw1].
      destruct (enqueueAndNotify_Ok true None [] d) as (data & d' & -> & _ & Hn' & Hp' & Hd'); try done. by eexists _, d'. }
    pose proof (addedMark_dests _ _ _ _ _ HR) as Hd2. pose proof (addedEnd_held _ _ _ _ HR) as Hh.
    exists (endedState n bs [] s), (mkEffects cbs [] false). split.
    { rewrite Hf. unfold endedState. clear -Hk Earb. destruct s as [k]. cbn in *. subst. by destruct k. }
    apply endedState_inv; try done.
    + apply (eachDest_impl _ _ _ Hd2). intros d [Hdd Hn]. split; [done|]. intros Hw. rewrite Hn in Hw. by destruct Hw.
    + apply (eachDest_impl _ _ _ Hd2). by intros d [].
    + split; empty_case.
    + symmetry. by eapply Forall2_length.
    + by rewrite Hh, Hpe.
Qed.

Lemma noMoreData_keeps exact s : bufferInv exact s → allowed NoMoreData s → keeps exact NoMoreData s.
Proof.
  intros Hinv Hal. cbn in Hal. eapply (checkIfDone_Ok exact true); try done; [lia|].
  intros E. pose proof (sh_atEnd s (proj2 (proj2 Hinv)) E). lia.
Qed.

Lemma noMoreDrivers_keeps exact s : bufferInv exact s → keeps exact NoMoreDrivers s.
Proof. intros Hinv. pose proof (proj2 (proj2 Hinv)) as []. by eapply (checkIfDone_Ok exact false). Qed.

Lemma updateNumDrivers_keeps exact n s : bufferInv exact s → allowed (UpdateNumDrivers n) s → keeps exact (UpdateNumDrivers n) s.
Proof.
  intros (Ha & Hq & Hs) Hal. cbn in Hal. eexists _, _. split; [done|]. split; [by apply (accounts_moved exact s)|].
  split; [by destruct Hq|]. destruct Hs as [H1 H2 H3 H4]. split; cbn; [done | lia | | done].
  intros E. specialize (H3 E). lia.
Qed.

(** ** Producers *)

(** A new page is counted; [exact] counts need it to be held. *)
Lemma accounts_enqueue exact p s s' :
  accountsInv exact s → pageOk p → p ∉ livePages s → p ∉ transit s → transit s' = transit s →
  (livePages s' ≋ p :: livePages s ∨ livePages s' ≋ livePages s ∧ exact = false ∧ kind_ s = kBroadcast) →
  (kind_ s ≠ kBroadcast → livePages s' ≡ₚ p :: livePages s) →
  accounts s' = (bufferedBytes_ s + page_size p, bufferedPages_ s + 1, promises_ s, continueSize_ s, maxSize_ s, kind_ s) →
  accountsInv exact s'.
Proof.
  intros [Hp Hb Hc He Hn Hpr Hs] Hpage Hnew Hnt Ht Hh Hsole E. injection E as E1 E2 E3 E4 E5 E6.
  destruct (held_new p _ Hnew) as [N1 N2]. pose proof (proj1 Hpage) as Hpos.
  assert (NoDup (livePages s ++ transit s) → NoDup ((p :: livePages s) ++ transit s)) as Hnd.
  { intros H. simpl. apply NoDup_cons. split; [rewrite elem_of_app; naive_solver | done]. }
  assert (Forall pageOk (p :: livePages s)) as Hpp by by constructor.
  destruct Hh as [Hh|(Hh & -> & Hk)]; split; rewrite ?E1, ?E2, ?E3, ?E4, ?E5, ?E6, ?Ht, ?Hh; try done; try lia.
  all: try (intros Hne; specialize (Hpr Hne); lia).
  all: try (apply Forall_forall; intros q Hq%Hh; by apply (proj1 (Forall_forall _ _) Hpp)).
  - intros Hx. destruct (He Hx). lia.
  - intros Hk. rewrite (Hsole Hk). by apply Hnd, Hn.
  - apply Forall_forall. intros q Hq%Hh. by apply (proj1 (Forall_forall _ _) Hp).
  - by intros [|].
Qed.

Lemma accounts_added exact p s s' :
  accountsInv exact s → pageOk p → p ∉ heldPages s ++ releasing_ s → transit s' = transit s → livePages s' ≡ₚ p :: livePages s →
  accounts s' = (bufferedBytes_ s + page_size p, bufferedPages_ s + 1, promises_ s, continueSize_ s, maxSize_ s, kind_ s) →
  accountsInv exact s'.
Proof.
  intros Ha Hp Hnew Ht Hh E. destruct (not_held p s Hnew) as [Hn Hnt]. apply (accounts_enqueue exact p s); try done.
  left. by rewrite Hh.
Qed.

(** A page that nothing holds, before the last driver is done. *)
Lemma newPage s d p :
  queuesInv s → atEnd_ s = false → pageOk p → p ∉ livePages s → Some d ∈ buffers_ s → newMark (Some p) d ∧ p ∉ pagesOf (pending s).
Proof.
  intros Hq He Hp Hnew Hd. unfold livePages in Hnew. rewrite !not_elem_of_app in Hnew. destruct Hnew as (H1 & H2 & H3).
  split; [|done]. split; [done|]. split.
  - intros Hin. apply H1. apply list_elem_of_In, in_concat. exists (heldBy (Some d)).
    rewrite <- !list_elem_of_In. split; [|done]. apply list_elem_of_fmap. by exists (Some d).
  - intros Hin. destruct (qu_dests s Hq d Hd) as [[_ _ _ Hend] _]. destruct (Hend Hin). congruence.
Qed.

Lemma pending_None s : queuesInv s → kind_ s ≠ kArbitrary → arbitraryBuffer_ s = None ∧ pending s = [].
Proof.
  intros Hq Hk. destruct (arbitraryBuffer_ s) eqn:E.
  - destruct Hk. apply (qu_kind s Hq). rewrite E. eauto.
  - split; [done|]. unfold pending. by rewrite E.
Qed.

(** [s] is the state before the page was counted. *)
Definition counted (p : SerializedPage) (rows : Z) (s : OutputBuffer) : OutputBuffer :=
  updateStatsWithEnqueuedPageLocked (page_size p) rows s.

Lemma enqueueBroadcast_Ok exact p rows s :
  bufferInv exact s → kind_ s = kBroadcast → pageOk p → p ∉ heldPages s ++ releasing_ s → atEnd_ s = false →
  (exact = true → isFinished s = false) →
  ∃ s' cbs, enqueueBroadcastOutputLocked p (counted p rows s) = Ok (s', cbs) ∧ bufferInv exact s'.
Proof.
  intros (Ha & Hq & Hs) Hk Hp Hall He Hfin. unfold enqueueBroadcastOutputLocked. destruct (pending_None s Hq) as [Hnone Hpe]; [by rewrite Hk|].
  destruct (not_held p s Hall) as [Hnew Hnt].
  change (arbitraryBuffer_ (counted p rows s)) with (arbitraryBuffer_ s). change (buffers_ (counted p rows s)) with (buffers_ s).
  rewrite bool_decide_true by done. cbn [velox_check mbind outcome_bind].
  destruct (forBuffers_Ok (enqueueAndNotify (Some p)) (addedMark false [] (Some p)) (buffers_ s)) as (cbs & bs & Hf & HR).
  { intros d Hd. destruct (qu_dests s Hq d Hd) as [Hd1 Hw1]. rewrite He, Hpe in Hd1.
    destruct (newPage s d p Hq He Hp Hnew Hd) as [Hm _].
    destruct (enqueueAndNotify_Ok false (Some p) [] d) as (data & d' & -> & _ & Hn' & Hp' & Hd'); try done.
    { by intros q _ ?%elem_of_nil. } by eexists _, d'. }
  rewrite Hf. cbn [mbind outcome_bind]. eexists _, _. split; [done|].
  pose proof (addedMark_dests _ _ _ _ _ HR) as Hd2. pose proof (addedMark_held _ _ _ _ _ HR) as Hh.
  pose proof (Forall2_length _ _ _ HR) as Hlen. unfold isFinished, isFinishedLocked, isBroadcast in Hfin.
  rewrite Hk in Hfin. cbn [bool_decide andb] in Hfin. fold (allDeleted (buffers_ s)) in Hfin.
  assert (eachDest (destOk false []) bs) as Hd3.
  { intros d Hin. destruct (Hd2 d Hin) as [Hdd Hn]. split; [done|]. intros Hw. rewrite Hn in Hw. by destruct Hw. }
  change (noMoreBuffers_ ((counted p rows s) <| buffers_ := bs |>)) with (noMoreBuffers_ s).
  assert (p ∉ dataToBroadcast_ s) as Hnb by (unfold heldPages in Hall; set_solver).
  destruct (noMoreBuffers_ s) eqn:Eno; cbn [negb] in Hfin; rewrite ?andb_false_r in Hfin; (split; [|split]).
  - apply (accounts_enqueue exact p s); [done.. | | by rewrite Hk | done]. unfold livePages, pending. cbn. rewrite Hnone, Eno.
    fold (heldIn bs) (heldIn (buffers_ s)). rewrite Hh. destruct (allDeleted (buffers_ s)).
    + right. split; [by rewrite app_nil_r|]. split; [|done]. destruct exact; [by specialize (Hfin eq_refl) | done].
    + left. intros q. set_solver.
  - destruct Hq as [K1 K2 K3 K4 K5 K6]. rewrite Hpe, He in *.
    split; unfold pending; cbn; rewrite ?Hnone, ?He, ?Hk in *; done.
  - by apply (shape_same s).
  - apply (accounts_enqueue exact p s); [done..| | | by rewrite Hk | done].
    + unfold transit. cbn. by rewrite Eno.
    + left. unfold livePages, pending. cbn. rewrite Hnone, Eno.
      fold (heldIn bs) (heldIn (buffers_ s)). rewrite Hh. intros q. destruct (allDeleted (buffers_ s)); set_solver.
  - destruct Hq as [K1 K2 K3 K4 K5 K6]. rewrite Hpe, He in *.
    split; unfold pending; cbn; rewrite ?Hnone, ?He, ?Hk in *; try done.
    apply NoDup_app. split; [done|]. split; [|apply NoDup_singleton]. intros q Hq1 ->%list_elem_of_singleton. done.
  - by apply (shape_same s).
Qed.

(** Walking once around a circle of [n] visits every place. *)
Lemma circle n start i : (start < n)%nat → (i < n)%nat → ∃ k, (k < n)%nat ∧ ((start + k) mod n)%nat = i.
Proof.
  intros Hst Hi. destruct (decide (start ≤ i)%nat) as [Hle|Hgt].
  - exists (i - start)%nat. split; [lia|]. rewrite Nat.mod_small; lia.
  - exists (n + i - start)%nat. split; [lia|]. replace (start + (n + i - start))%nat with (i + 1 * n)%nat by lia.
    rewrite Nat.Div0.mod_add, Nat.mod_small; lia.
Qed.

Lemma enqueuePartitioned_Ok exact destination p rows s :
  bufferInv exact s → kind_ s = kPartitioned → (destination < length (buffers_ s))%nat → pageOk p →
  p ∉ heldPages s ++ releasing_ s → atEnd_ s = false →
  ∃ s' cbs, enqueuePartitionedOutputLocked destination p (counted p rows s) = Ok (s', cbs) ∧ bufferInv exact s'.
Proof.
  intros (Ha & Hq & Hs) Hk Hlt Hp Hall He. unfold enqueuePartitionedOutputLocked. destruct (not_held p s Hall) as [Hnew _].
  destruct (pending_None s Hq) as [Hnone Hpe]; [by rewrite Hk|].
  change (arbitraryBuffer_ (counted p rows s)) with (arbitraryBuffer_ s). change (buffers_ (counted p rows s)) with (buffers_ s).
  rewrite bool_decide_true by done. cbn [velox_check mbind outcome_bind].
  destruct (lookup_lt_is_Some_2 _ _ Hlt) as [[d|] Hi]; rewrite Hi.
  - destruct (dest_lookup s _ _ Hq Hi) as [[Hd Hw] Hwp]. rewrite Hpe, He in Hd.
    destruct (newPage s d p Hq He Hp Hnew) as [Hm _]; [by eapply list_elem_of_lookup_2|].
    destruct (enqueueAndNotify_Ok false (Some p) [] d) as (data & d' & -> & _ & Hn' & Hp' & Hd'); try done.
    { by intros q _ ?%elem_of_nil. }
    cbn [mbind outcome_bind]. eexists _, _. split; [done|].
    assert (waitOk d' ∧ (is_Some (notify_ d') → pending s = [])) as [Hw' Hwp']
      by (split; intros Hx; rewrite Hn' in Hx; by destruct Hx).
    split; [|split].
    + apply (accounts_added exact p s); [done.. | | done].
      destruct (heldIn_split destination _ _ Hi) as (rest & Hr & Hr'). unfold livePages, pending, heldIn in *. cbn.
      rewrite Hr, Hr'. cbn [heldBy]. rewrite Hp'. change (pagesOf [Some p]) with [p]. by rewrite <- Permutation_cons_append.
    + eapply (queues_insert s); [done | done | done|]. intros e [= <-]. split; [|done]. split; [by rewrite Hpe, He | done].
    + by apply (shape_same s); [done | cbn; rewrite length_insert | |].
  - unfold updateStatsWithFreedPagesLocked. cbv zeta. cbn.
    assert (0 ≤ heldBytes (livePages s)) as Hpos by (apply heldBytes_nonneg; eapply Forall_impl; [apply Ha|]; by intros q []).
    pose proof (ai_bytes _ s Ha) as Hb. pose proof (ai_count _ s Ha) as Hc. unfold heldCount in Hc.
    replace (bufferedBytes_ s + page_size p - page_size p) with (bufferedBytes_ s) by lia.
    replace (bufferedPages_ s + 1 - 1) with (bufferedPages_ s) by lia.
    assert (bufferedBytes_ s >=? 0 = true) as -> by (apply Z.geb_le; lia).
    assert (bufferedPages_ s >=? 0 = true) as -> by (apply Z.geb_le; lia). cbn.
    eexists _, _. split; [done|]. split; [|split].
    + by apply (accounts_moved exact s).
    + by destruct Hq.
    + by apply (shape_same s).
Qed.

Lemma enqueueArbitrary_Ok exact p rows s :
  bufferInv exact s → kind_ s = kArbitrary → (0 < length (buffers_ s))%nat → pageOk p →
  p ∉ heldPages s ++ releasing_ s → atEnd_ s = false →
  ∃ s' cbs, enqueueArbitraryOutputLocked p (counted p rows s) = Ok (s', cbs) ∧ bufferInv exact s'.
Proof.
  intros (Ha & Hq & Hs) Hk Hlt Hp Hall He. unfold enqueueArbitraryOutputLocked. destruct (not_held p s Hall) as [Hnew _].
  destruct (proj1 (qu_kind s Hq) Hk) as [arb Earb]. assert (pending s = arb) as Hpe by (unfold pending; by rewrite Earb).
  change (arbitraryBuffer_ (counted p rows s)) with (arbitraryBuffer_ s). rewrite Earb.
  destruct (qu_shared s Hq) as [Hn Hpa Hm Hend]. rewrite Hpe, He in *.
  assert (None ∉ arb) as Hno by (intros Hin; by apply Hend in Hin).
  assert (hasNoMoreData arb = false) as Eh by (apply not_true_iff_false; by rewrite hasNoMoreData_spec).
  assert (p ∉ pagesOf arb) as Hpn by (rewrite <- Hpe; unfold livePages in Hnew; set_solver).
  unfold ab_enqueue. rewrite Eh. cbn [negb velox_check mbind outcome_bind].
  change (nextArbitraryLoadBufferIndex_ (counted p rows s)) with (nextArbitraryLoadBufferIndex_ s).
  change (buffers_ (counted p rows s)) with (buffers_ s).
  assert (nextArbitraryLoadBufferIndex_ s < length (buffers_ s))%nat as Hnx by (destruct Hs as [_ _ _ [->|]]; done).
  rewrite (proj2 (Nat.ltb_lt _ _)) by done. cbn [velox_check mbind outcome_bind].
  assert (pagesOf (arb ++ [Some p]) = pagesOf arb ++ [p]) as Hpp by (by rewrite pagesOf_app).
  destruct (arbitraryLoop_Ok (length (buffers_ s)) (nextArbitraryLoadBufferIndex_ s) (arb ++ [Some p]) (counted p rows s))
    as (bs & arb' & next & cbs & -> & Hnext & Hdi & Hwait).
  - done.
  - rewrite not_elem_of_app, list_elem_of_singleton. by split.
  - change (atEnd_ (counted p rows s)) with (atEnd_ s). rewrite He. split; rewrite ?Hpp.
    + apply NoDup_app. split; [done|]. split; [by intros q Hq1 ->%list_elem_of_singleton | apply NoDup_singleton].
    + apply Forall_app. by split; [|constructor].
    + apply marksOk_app; [done..|]. by intros [|[]].
    + rewrite elem_of_app, list_elem_of_singleton. by intros [?|].
  - intros d Hd. destruct (qu_dests s Hq d Hd) as [[D1 D2 D3 D4] Hw]. rewrite Hpe, He in *.
    destruct (newPage s d p Hq He Hp Hnew Hd) as [(_ & Hpd & Hdn) _].
    split; [|done]. change (atEnd_ (counted p rows s)) with (atEnd_ s). rewrite He.
    split; rewrite ?Hpp; try done. rewrite app_assoc. apply NoDup_app. split; [done|]. split; [|apply NoDup_singleton].
    intros q Hq1 ->%list_elem_of_singleton. apply elem_of_app in Hq1 as [?|?]; done.
  - eexists _, _. split; [done|]. destruct Hdi as [L1 L2 L3 L4 L5 L6 L7 L8]. change (atEnd_ (counted p rows s)) with (atEnd_ s) in *.
    rewrite He in *. change (buffers_ (counted p rows s)) with (buffers_ s) in *. split; [|split].
    + apply (accounts_added exact p s); [done.. | | done]. unfold livePages. rewrite Hpe. unfold pending. cbn.
      fold (heldIn bs) (heldIn (buffers_ s)). rewrite Hpp, app_assoc in L2.
      rewrite Permutation_app_swap_app. fold (pagesOf arb') (pagesOf arb). rewrite L2, <- Permutation_cons_append.
      by rewrite <- Permutation_middle, (Permutation_app_swap_app (heldIn (buffers_ s))).
    + destruct Hq as [K1 K2 K3 K4 K5 K6]. rewrite Hpe in *. split; unfold pending; cbn; rewrite ?He; try done.
      intros d [i Hi]%list_elem_of_lookup Hw. destruct Hwait as [?|Hwait]; [done|]. exfalso.
      destruct (circle (length (buffers_ s)) (nextArbitraryLoadBufferIndex_ s) i) as (k & Hk' & Hmod);
        [done | rewrite <- L1; by eapply lookup_lt_Some|].
      rewrite (Hwait k d Hk') in Hw; [by destruct Hw | by rewrite Hmod].
    + destruct Hs as [H1 H2 H3 H4]. split; cbn; try congruence; try done. rewrite L1. destruct Hnext as [->|?]; [done | by right].
Qed.

Lemma enqueue_keeps exact destination p future s :
  bufferInv exact s → allowed (Enqueue destination p future) s → (exact = true → calm (Enqueue destination p future) s) →
  keeps exact (Enqueue destination p future) s.
Proof.
  intros Hinv (Hlt & Hdest & Hp & Hnew & He) Hcalm. unfold keeps, run, enqueue. cbn [velox_check mbind outcome_bind].
  rewrite (proj2 (Nat.ltb_lt _ _)) by done. cbn [velox_check mbind outcome_bind].
  assert (∃ rows, rowsOf p = Ok rows) as [rows ->] by (destruct Hp as [_ [r Hr]]; exists r; unfold rowsOf; by rewrite Hr).
  cbn [mbind outcome_bind]. cbv zeta. fold (counted p rows s). change (kind_ (counted p rows s)) with (kind_ s).
  unfold calm, isPartitioned, isBroadcast in *.
  assert (∃ s1 cbs, match kind_ s with
    | kBroadcast => velox_check (destination =? 0)%nat ;; enqueueBroadcastOutputLocked p (counted p rows s)
    | kArbitrary => velox_check (destination =? 0)%nat ;; enqueueArbitraryOutputLocked p (counted p rows s)
    | kPartitioned => enqueuePartitionedOutputLocked destination p (counted p rows s)
    end = Ok (s1, cbs) ∧ bufferInv exact s1) as (s1 & cbs & -> & Hinv1).
  { destruct (kind_ s) eqn:Hk.
    - by apply enqueuePartitioned_Ok.
    - rewrite Hdest by done. cbn [Nat.eqb velox_check mbind outcome_bind]. apply enqueueBroadcast_Ok; try done. intros Hx. by apply Hcalm.
    - rewrite Hdest in * by done. cbn [Nat.eqb velox_check mbind outcome_bind]. by apply enqueueArbitrary_Ok. }
  cbn [mbind outcome_bind]. destruct future as [promise|]; [|by eexists _, _].
  destruct (Z.gtb_spec (bufferedBytes_ s1) (maxSize_ s1)) as [Hgt|]; [|by eexists _, _].
  eexists _, _. split; [done|]. destruct Hinv1 as ([A1 A2 A3 A4 A5 A6 A7] & [] & []). split; [|split; by split]. split; cbn; try done.
  intros _. lia.
Qed.

(** ** Reachable states *)
Lemma call_keeps exact c s : bufferInv exact s → allowed c s → (exact = true → calm c s) → keeps exact c s.
Proof.
  intros Hinv Hal Hcalm. destruct c.
  - by apply enqueue_keeps.
  - by apply noMoreData_keeps.
  - by apply updateNumDrivers_keeps.
  - by apply noMoreDrivers_keeps.
  - by apply updateOutputBuffers_keeps.
  - by apply clearBroadcast_keeps.
  - by apply getData_keeps.
  - by apply acknowledge_keeps.
  - by apply deleteResults_keeps.
  - by apply release_keeps.
  - by apply terminate_keeps.
Qed.

Lemma reachableBy_inv exact may s :
  (∀ c s, may c s → allowed c s ∧ (exact = true → calm c s)) → reachableBy may s → bufferInv exact s.
Proof.
  intros Hmay. induction 1 as [kind maxSize n drivers Hm Hd | c s s' e _ IH Hal Hrun]; [by apply newOutputBuffer_inv|].
  destruct (Hmay c s Hal) as [Hal' Hcalm]. destruct (call_keeps exact c s IH Hal' Hcalm) as (s'' & e' & Hrun' & Hinv).
  rewrite Hrun in Hrun'. by simplify_eq.
Qed.

Lemma reachable_inv s : reachable s → bufferInv false s.
Proof. by apply reachableBy_inv. Qed.

Lemma undisturbed_inv s : undisturbed s → bufferInv true s.
Proof. apply reachableBy_inv. naive_solver. Qed.
