(* ===== verification/OutputBufferTheorems.v ===== *)
(** * What the task output buffers guarantee

    Consequences of the invariant of [OutputBufferReach] for the producers and
    the consumers of a task's output, the public functions as sequences of its
    steps, and three executions in which the counts of
    [velox/exec/OutputBuffer.cpp] do not describe what is held. *)
From S2P Require Import Prelude OutputBuffer OutputBufferCorrect OutputBufferState OutputBufferLoops OutputBufferReach.
Local Open Scope Z_scope.

(** ** Executions *)

(** Runs steps in order. *)
Fixpoint runAll (cs : list call) (s : OutputBuffer) : outcome OutputBuffer :=
  match cs with
  | [] => Ok s
  | c :: cs => '(s, _) ← run c s; runAll cs s
  end.

Fixpoint mayAll (may : call → OutputBuffer → Prop) (cs : list call) (s : OutputBuffer) : Prop :=
  match cs with
  | [] => True
  | c :: cs => may c s ∧ match run c s with Ok (s, _) => mayAll may cs s | _ => False end
  end.

Lemma runAll_reachable may cs s s' : reachableBy may s → mayAll may cs s → runAll cs s = Ok s' → reachableBy may s'.
Proof.
  revert s. induction cs as [|c cs IH]; intros s Hs; cbn [runAll mayAll]; [by intros _ [= <-]|].
  intros [Hal Hall] Hrun. destruct (run c s) as [[s1 e]| |] eqn:E; cbn [mbind outcome_bind] in Hrun; [|done..].
  by apply (IH s1); [eapply reachable_step|..].
Qed.

Lemma undisturbed_reachable s : undisturbed s → reachable s.
Proof.
  induction 1 as [|c s s' e _ IH [Hal _] Hrun]; [by constructor | by eapply reachable_step].
Qed.

(** The pages of a vector are released one after the other. *)
Lemma releaseAll freed s : runAll (map Release freed) s = Ok (releasePages freed s).
Proof.
  revert s. induction freed as [|p freed IH]; intros s; cbn [map runAll]; [by destruct s|]. cbn [run mbind outcome_bind].
  rewrite IH. by destruct s.
Qed.

Lemma runAll_cons c cs s s' e : run c s = Ok (s', e) → runAll (c :: cs) s = runAll cs s'.
Proof. intros E. cbn [runAll]. by rewrite E. Qed.

(** Each public function that does more than one critical section is such a
    sequence of steps: with nothing in between, its result is that of the
    function. *)
Theorem public_functions_are_steps s s' e :
  (∀ destination sequence, acknowledge destination sequence s = Ok (s', e) →
     ∃ freed, runAll (Acknowledge destination sequence :: map Release freed) s = Ok s') ∧
  (∀ destination finished, deleteResults destination s = Ok (s', e, finished) →
     ∃ freed, runAll (DeleteResults destination :: map Release freed) s = Ok s') ∧
  (∀ destination maxBytes sequence notify, getData destination maxBytes sequence notify s = Ok (s', e) →
     ∃ freed, runAll (GetData destination maxBytes sequence notify :: map Release freed) s = Ok s') ∧
  (∀ numBuffers noMoreBuffers, updateOutputBuffers numBuffers noMoreBuffers s = Ok (s', e) →
     ∃ rest, runAll (UpdateOutputBuffers numBuffers noMoreBuffers :: rest) s = Ok s' ∧ (rest = [] ∨ rest = [ClearBroadcast])) ∧
  (∀ n, updateNumDrivers n s = Ok (s', e) →
     ∃ rest, runAll (UpdateNumDrivers n :: rest) s = Ok s' ∧ (rest = [] ∨ rest = [NoMoreDrivers])).
Proof.
  split; [|split; [|split; [|split]]].
  - intros destination sequence H. unfold acknowledge in H. cbn [runAll run].
    destruct (acknowledgeLocked _ _ _) as [[[s1 freed] e1]| |]; [|done..]. injection H as <- <-. exists freed. apply releaseAll.
  - intros destination fin H. unfold deleteResults in H. cbn [runAll run].
    destruct (deleteResultsLocked _ _) as [[[s1 freed] e1]| |]; [|done..]. injection H as <- <- <-. exists freed. apply releaseAll.
  - intros destination maxBytes sequence notify H. unfold getData in H. cbn [runAll run].
    destruct (getDataLocked _ _ _ _ _) as [[[s1 freed] e1]| |]; [|done..]. injection H as <- <-. exists freed. apply releaseAll.
  - intros numBuffers noMoreBuffers H. unfold updateOutputBuffers in H.
    destruct (updateOutputBuffersLocked _ _ _) as [[s1 e1]| |] eqn:E; [|done..]. injection H as <- <-.
    destruct (_ && _); [exists [ClearBroadcast] | exists []]; (split; [|by auto]); by rewrite (runAll_cons _ _ _ s1 e1).
  - intros n H. unfold updateNumDrivers in H. cbv zeta in H.
    destruct (_ =? _); [exists [NoMoreDrivers] | exists []]; (split; [|by auto]); cbn [runAll run mbind outcome_bind].
    + by rewrite H.
    + by injection H as <- _.
Qed.

Definition aPage (n : nat) (size : Z) : SerializedPage := mkPage n size (Some 1).

(** A broadcast to two consumers: one has taken the first page, the other waits
    behind it, a producer is blocked, and a thread is about to release its
    reference to the first page. *)
Definition exampleCalls : list call :=
  [UpdateOutputBuffers 2 true; ClearBroadcast; Enqueue 0 (aPage 1 60) None; GetData 0 10 0 7; GetData 1 10 0 8; GetData 1 10 1 9;
   Enqueue 0 (aPage 2 70) (Some 3%nat)].
Definition exampleBuffer : OutputBuffer := newOutputBuffer kBroadcast 100 1 1.
Definition exampleState : OutputBuffer := match runAll exampleCalls exampleBuffer with Ok s => s | _ => exampleBuffer end.

Ltac allowed_example :=
  vm_compute; repeat split; try done; try (by eexists); try lia; repeat (apply not_elem_of_cons; split; [done|]); apply not_elem_of_nil.

Lemma exampleState_undisturbed : undisturbed exampleState.
Proof.
  apply (runAll_reachable _ exampleCalls exampleBuffer); [by constructor | | by vm_compute]. allowed_example.
Qed.

(** ** Guarantees *)

(** C3: The byte and page counts cover what is held: in every state that
    threads can bring the buffer into, [bufferedBytes_] and [bufferedPages_] are
    at least the total size and the number of the pages that some destination,
    the broadcast list or the arbitrary buffer holds, a page that several
    destinations share counted once.  They are exactly that for a partitioned or
    an arbitrary output, whatever the threads do, and for a broadcast as long as
    no thread takes pages out of the buffer while another one has yet to release
    what it took, outside of the mutex, and no page is broadcast after
    everything was consumed. *)
Theorem output_accounting s :
  reachable s →
  heldBytes (livePages s) ≤ bufferedBytes_ s ∧ heldCount (livePages s) ≤ bufferedPages_ s ∧
  (kind_ s ≠ kBroadcast ∨ undisturbed s →
     bufferedBytes_ s = heldBytes (livePages s) ∧ bufferedPages_ s = heldCount (livePages s)).
Proof.
  intros (Ha & _ & _)%reachable_inv. do 2 (split; [apply Ha|]). intros [Hk|(Hu & _ & _)%undisturbed_inv].
  - apply Ha. by right.
  - apply Hu. by left.
Qed.

Lemma output_accounting_witness : bufferedBytes_ exampleState = 130 ∧ length (livePages exampleState) = 3%nat.
Proof.
  pose proof exampleState_undisturbed as Hu.
  destruct (output_accounting exampleState (undisturbed_reachable _ Hu)) as (_ & _ & H).
  rewrite (proj1 (H (or_intror Hu))). by vm_compute.
Defined.

(** C36: No internal check fails: in every reachable state every call made as
    its callers are told to make it returns, and none of the consistency checks
    on counts, end markers, notifications and destinations throws. *)
Theorem output_calls_succeed c s :
  reachable s → allowed c s → ∃ s' e, run c s = Ok (s', e) ∧ reachable s'.
Proof.
  intros Hs Hal. destruct (call_keeps false c s (reachable_inv s Hs) Hal) as (s' & e & Hrun & _); [done|].
  exists s', e. split; [done | by eapply reachable_step].
Qed.

Lemma output_calls_succeed_witness :
  ∃ s' e, run (Acknowledge 0 2) exampleState = Ok (s', e) ∧ reachable s'.
Proof.
  apply (output_calls_succeed (Acknowledge 0 2) exampleState (undisturbed_reachable _ exampleState_undisturbed)). by vm_compute.
Defined.

Lemma allDeleted_held bs : allDeleted bs = true → heldIn bs = [].
Proof. induction bs as [|[d|] bs IH]; [done|done|]. apply IH. Qed.

(** A partitioned or broadcast output that is consumed holds nothing. *)
Lemma finished_nothing_live s : queuesInv s → isFinished s = true → kind_ s ≠ kArbitrary → livePages s = [].
Proof.
  intros Hq Hfin Hk. unfold isFinished, isFinishedLocked in Hfin. fold (allDeleted (buffers_ s)) in Hfin.
  destruct (pending_None s Hq Hk) as [_ Hpe]. unfold livePages. rewrite Hpe.
  destruct (decide (kind_ s = kBroadcast)) as [Hb|Hb].
  - unfold isBroadcast in Hfin. rewrite Hb in Hfin. destruct (noMoreBuffers_ s); [|done]. by rewrite allDeleted_held.
  - rewrite (sole_broadcast s Hq Hb), allDeleted_held; [by destruct (noMoreBuffers_ s) | by destruct (_ && _)].
Qed.

(** C33: Producers are blocked only while the buffer is full: a blocked producer
    means that at least [continueSize_] bytes are counted.  For a partitioned or
    an arbitrary output, and for a broadcast whose counts were not disturbed (no
    pages taken out while another thread has yet to release some, none broadcast
    after everything was consumed), the pages held have at least that many bytes,
    so that their consumption continues it; and then, once a partitioned or a
    broadcast output is consumed completely, no producer is blocked, if
    [continueSize_] is positive, as it is for a limit of at least two bytes. *)
Theorem producers_continue s :
  reachable s →
  (promises_ s ≠ [] → continueSize_ s ≤ bufferedBytes_ s) ∧
  (kind_ s ≠ kBroadcast ∨ undisturbed s →
    (promises_ s ≠ [] → continueSize_ s ≤ heldBytes (livePages s)) ∧
    (isFinished s = true → kind_ s ≠ kArbitrary → 0 < continueSize_ s → promises_ s = [])).
Proof.
  intros Hs. pose proof (reachable_inv s Hs) as (Ha & Hq & _). pose proof (ai_promises _ s Ha) as Hp. split; [done|].
  intros Hx. assert (bufferedBytes_ s = heldBytes (livePages s)) as Hb.
  { destruct Hx as [Hk|(Hu & _ & _)%undisturbed_inv]; [apply Ha; by right | apply Hu; by left]. }
  rewrite Hb in Hp. split; [done|]. intros Hfin Hk Hc. destruct (promises_ s) as [|t ts]; [done|].
  specialize (Hp ltac:(done)). rewrite (finished_nothing_live s Hq Hfin Hk) in Hp. unfold heldBytes in Hp. simpl in Hp. lia.
Qed.

Lemma producers_continue_witness :
  promises_ exampleState = [3%nat] ∧ continueSize_ exampleState ≤ heldBytes (livePages exampleState).
Proof.
  split; [by vm_compute|]. pose proof exampleState_undisturbed as Hu.
  destruct (producers_continue exampleState (undisturbed_reachable _ Hu)) as [_ H].
  by apply (proj1 (H (or_intror Hu))).
Defined.

(** No wakeup is lost: a consumer waits only when its queue and the
    arbitrary buffer are empty, and the next page for a destination of a
    partitioned output is handed to the consumer that waits there. *)
Theorem waiting_consumers_served s i d cb :
  reachable s → buffers_ s !! i = Some (Some d) → notify_ d = Some cb →
  data_ d = [] ∧ pending s = [] ∧
  ∀ p future, kind_ s = kPartitioned → allowed (Enqueue i p future) s →
    ∃ s' e, run (Enqueue i p future) s = Ok (s', e) ∧ notified e = [mkDataAvailable cb (sequence_ d) [Some p]].
Proof.
  intros (Ha & Hq & Hs)%reachable_inv Hi Hcb. destruct (dest_lookup s i d Hq Hi) as [[Hd Hw] Hwp].
  assert (is_Some (notify_ d)) as Hn by (rewrite Hcb; eauto). split; [by apply Hw|]. split; [by apply Hwp|].
  intros p future Hk (Hlt & _ & Hp & Hall & He). destruct (not_held p s Hall) as [Hnew _].
  destruct (newPage s d p Hq He Hp Hnew) as [Hm Hpn]; [by eapply list_elem_of_lookup_2|].
  destruct (enqueueAndNotify_Ok (atEnd_ s) (Some p) (pending s) d) as (data & d' & Hen & Hdata & _); [done | | done.. |].
  { by intros q [= <-]. }
  specialize (Hdata Hn). subst data. unfold run, enqueue. cbn [velox_check mbind outcome_bind].
  rewrite (proj2 (Nat.ltb_lt _ _)) by done. cbn [velox_check mbind outcome_bind].
  assert (∃ rows, rowsOf p = Ok rows) as [rows ->] by (destruct Hp as [_ [r Hr]]; exists r; unfold rowsOf; by rewrite Hr).
  cbn [mbind outcome_bind]. cbv zeta. fold (counted p rows s). change (kind_ (counted p rows s)) with (kind_ s).
  rewrite Hk. unfold enqueuePartitionedOutputLocked.
  change (arbitraryBuffer_ (counted p rows s)) with (arbitraryBuffer_ s). change (buffers_ (counted p rows s)) with (buffers_ s).
  destruct (pending_None s Hq) as [Hnone _]; [by rewrite Hk|]. rewrite bool_decide_true by done.
  cbn [velox_check mbind outcome_bind]. rewrite Hi, Hen. unfold notification. rewrite Hcb. cbn [mbind outcome_bind].
  destruct future; [destruct (_ >? _)|]; by eexists _, _.
Qed.

Definition waitingCalls : list call := [GetData 1 10 0 9].
Definition waitingState : OutputBuffer :=
  match runAll waitingCalls (newOutputBuffer kPartitioned 100 2 1) with Ok s => s | _ => exampleBuffer end.

Lemma waitingState_reachable : reachable waitingState.
Proof.
  apply (runAll_reachable _ waitingCalls (newOutputBuffer kPartitioned 100 2 1)); [by constructor | | by vm_compute].
  allowed_example.
Qed.

Lemma waiting_consumers_served_witness :
  ∃ s' e, run (Enqueue 1 (aPage 1 60) None) waitingState = Ok (s', e) ∧ notified e = [mkDataAvailable 9 0 [Some (aPage 1 60)]].
Proof.
  apply (waiting_consumers_served waitingState 1 (waitFor (Some 9%nat) 0 10 newDestinationBuffer) 9 waitingState_reachable).
  - by vm_compute.
  - by vm_compute.
  - by vm_compute.
  - allowed_example.
Defined.

(** ** Where the counts and the pages diverge *)

(** A page broadcast after the last destination was deleted is counted although
    nothing holds it: [enqueueBroadcastOutputLocked] has no branch for it, unlike
    [enqueuePartitionedOutputLocked].  The counts never go down again, and the
    producer that exceeds the limit is blocked for good. *)
Theorem broadcast_after_consumption_counts :
  ∃ s, reachable s ∧ isFinished s = true ∧ heldPages s = [] ∧ bufferedBytes_ s = 120 ∧ promises_ s = [3%nat].
Proof.
  set (s0 := newOutputBuffer kBroadcast 100 1 1).
  set (cs := [UpdateOutputBuffers 1 true; ClearBroadcast; DeleteResults 0; Enqueue 0 (aPage 1 60) None; Enqueue 0 (aPage 2 60) (Some 3%nat)]).
  exists (match runAll cs s0 with Ok s => s | _ => s0 end). split; [|by vm_compute].
  apply (runAll_reachable _ cs s0); [by constructor | | by vm_compute]. allowed_example.
Qed.

(** An arbitrary output keeps the pages nobody has asked for when its last
    destination is deleted: the task is told that its output is consumed, but a
    blocked producer stays blocked. *)
Theorem arbitrary_consumed_blocks :
  ∃ s, reachable s ∧ isFinished s = true ∧ promises_ s = [3%nat] ∧ bufferedBytes_ s = 150.
Proof.
  set (s0 := newOutputBuffer kArbitrary 100 1 1).
  set (cs := [Enqueue 0 (aPage 1 150) (Some 3%nat); DeleteResults 0; NoMoreData]).
  exists (match runAll cs s0 with Ok s => s | _ => s0 end). split; [|by vm_compute].
  apply (runAll_reachable _ cs s0); [by constructor | | by vm_compute]. allowed_example.
Qed.

(** Two consumers that acknowledge the last two references of a broadcast page:
    each tests [unique()] inside the mutex while the other's vector [freed],
    cleared only after the mutex is released, still holds the page.  Neither
    counts it as freed. *)
Theorem racing_acknowledges_leak :
  ∃ s, reachable s ∧ heldPages s = [] ∧ releasing_ s = [] ∧ bufferedBytes_ s = 60 ∧ bufferedPages_ s = 1.
Proof.
  set (s0 := newOutputBuffer kBroadcast 100 2 1).
  set (cs := [UpdateOutputBuffers 2 true; ClearBroadcast; Enqueue 0 (aPage 1 60) None; Acknowledge 0 1; Acknowledge 1 1;
              Release (aPage 1 60); Release (aPage 1 60)]).
  exists (match runAll cs s0 with Ok s => s | _ => s0 end). split; [|by vm_compute].
  apply (runAll_reachable _ cs s0); [by constructor | | by vm_compute].
  vm_compute; repeat split; try done; try (by eexists); try lia; repeat first [apply not_elem_of_nil | apply not_elem_of_cons; split; [done|]];
    repeat first [by left | right].
Qed.
