(* ===== verification/Exchange.v ===== *)
(** * The reading end of an exchange

    Models [velox/exec/ExchangeQueue.h], [ExchangeQueue.cpp] and
    [velox/exec/ExchangeClient.h], [ExchangeClient.cpp]: the queue that
    collects the pages of several upstream tasks, and the client that decides
    which of them to ask for more.

    The sources are known by number and are used through the interface
    [ExchangeSource]: an upstream task is reached over the network by code
    outside of the repository.  Promises are numbered.  A function returns the
    promises it fulfils and the requests it sends outside of the mutex.  Byte
    and page counts are integers without bound, except for the 32-bit size
    that [dequeueLocked] adds up. *)
From S2P Require Import Prelude OutputBuffer.
Local Open Scope Z_scope.

(** ** [ExchangeQueue] *)
Record ExchangeQueue := mkQueue {
  numCompleted_ : Z;
  numSources_ : Z;
  noMoreSources_ : bool;
  atEnd_ : bool;
  queue_ : list SerializedPage;
  promises_ : list nat;
  error_ : string;
  totalBytes_ : Z;
  receivedPages_ : Z;
  receivedBytes_ : Z;
  peakBytes_ : Z
}.
#[global] Instance queue_copyable : Copyable ExchangeQueue := λ q,
  mkQueue (numCompleted_ q) (numSources_ q) (noMoreSources_ q) (atEnd_ q) (queue_ q) (promises_ q) (error_ q)
    (totalBytes_ q) (receivedPages_ q) (receivedBytes_ q) (peakBytes_ q).

Definition newQueue : ExchangeQueue := mkQueue 0 0 false false [] [] "" 0 0 0 0.

Definition averageReceivedPageBytes (q : ExchangeQueue) : Z :=
  if receivedPages_ q >? 0 then receivedBytes_ q / receivedPages_ q else 0.

Definition addSourceLocked (q : ExchangeQueue) : outcome ExchangeQueue :=
  velox_check (negb (noMoreSources_ q)) ;; Ok (q <| numSources_ := numSources_ q + 1 |>).

Definition clearAllPromisesLocked (q : ExchangeQueue) : ExchangeQueue * list nat :=
  (q <| promises_ := [] |>, promises_ q).

Definition checkCompleteLocked (q : ExchangeQueue) : ExchangeQueue * list nat :=
  if noMoreSources_ q && (numCompleted_ q =? numSources_ q)
  then clearAllPromisesLocked (q <| atEnd_ := true |>) else (q, []).

Definition noMoreSources (q : ExchangeQueue) : ExchangeQueue * list nat :=
  checkCompleteLocked (q <| noMoreSources_ := true |>).

Definition q_close (q : ExchangeQueue) : ExchangeQueue * list nat :=
  clearAllPromisesLocked (q <| queue_ := [] |>).

(** A page, or [nullptr] at the end of a source. *)
Definition enqueueLocked (page : option SerializedPage) (q : ExchangeQueue) : ExchangeQueue * list nat :=
  match page with
  | None => checkCompleteLocked (q <| numCompleted_ := numCompleted_ q + 1 |>)
  | Some p =>
      let q := q <| totalBytes_ := totalBytes_ q + page_size p |> in
      let q := if peakBytes_ q <? totalBytes_ q then q <| peakBytes_ := totalBytes_ q |> else q in
      let q := q <| receivedPages_ := receivedPages_ q + 1 |> <| receivedBytes_ := receivedBytes_ q + page_size p |>
                 <| queue_ := queue_ q ++ [p] |> in
      match last (promises_ q) with
      | Some promise => (q <| promises_ := removelast (promises_ q) |>, [promise])
      | None => (q, [])
      end
  end.

(** The pages taken from the front; [pageBytes] has 32 bits. *)
Fixpoint dequeueLoop (maxBytes pageBytes : Z) (queue : list SerializedPage) : list SerializedPage * list SerializedPage :=
  match queue with
  | [] => ([], [])
  | p :: rest =>
      if (pageBytes >? 0) && (pageBytes + page_size p >? maxBytes) then ([], queue)
      else let '(pages, rest) := dequeueLoop maxBytes (uwrap 32 (pageBytes + page_size p)) rest in (p :: pages, rest)
  end.

(** The pages and [atEnd]; [promise] is the promise of the caller's future. *)
Definition dequeueLocked (maxBytes : Z) (promise : nat) (q : ExchangeQueue)
    : outcome (list SerializedPage * bool * ExchangeQueue) :=
  if negb (bool_decide (error_ q = ""%string)) then Throw (RuntimeError (error_ q))
  else
    let '(pages, rest) := dequeueLoop maxBytes 0 (queue_ q) in
    let q := q <| queue_ := rest |> <| totalBytes_ := totalBytes_ q - sumSizes pages |> in
    match rest with
    | [] => if atEnd_ q then Ok (pages, true, q) else Ok (pages, false, q <| promises_ := promises_ q ++ [promise] |>)
    | _ => Ok (pages, false, q)
    end.

Definition setError (error : string) (q : ExchangeQueue) : ExchangeQueue * list nat :=
  if negb (bool_decide (error_ q = ""%string)) then (q, [])
  else clearAllPromisesLocked (q <| error_ := error |> <| atEnd_ := true |> <| queue_ := [] |>).

(** ** [ExchangeSource] *)

(** What the client sees of a source: [shouldRequestLocked] also changes it. *)
Class ExchangeSource (S : Type) := {
  shouldRequestLocked : S → bool * S;
  isRequestPendingLocked : S → bool
}.

(** The documented behaviour: it says yes when no request is pending, and marks
    the source as pending. *)
Class ExchangeSourceLaws (S : Type) `{ExchangeSource S} := {
  should_when_idle s : isRequestPendingLocked s = false → (shouldRequestLocked s).1 = true;
  should_marks s : isRequestPendingLocked (shouldRequestLocked s).2 = true
}.

(** The member [requestPending_] of the base class as the whole state. *)
#[global] Instance flagSource : ExchangeSource bool := {
  shouldRequestLocked := λ requestPending, (negb requestPending, true);
  isRequestPendingLocked := λ requestPending, requestPending
}.
#[global] Instance flagSource_laws : ExchangeSourceLaws bool.
Proof. split; [by intros [] | done]. Qed.

Section Client.
Context {S : Type} `{ExchangeSource S}.

(** ** [ExchangeClient] *)
Record ExchangeClient := mkClient {
  maxQueuedBytes_ : Z;
  client_queue : ExchangeQueue;
  remoteTaskIds_ : list string;
  sources_ : list nat;
  closed_ : bool;
  producingSources_ : list nat;
  emptySources_ : list nat;
  source_state : nat → S
}.
#[global] Instance client_copyable : Copyable ExchangeClient := λ c,
  mkClient (maxQueuedBytes_ c) (client_queue c) (remoteTaskIds_ c) (sources_ c) (closed_ c) (producingSources_ c)
    (emptySources_ c) (source_state c).

Definition newClient (maxQueuedBytes : Z) (states : nat → S) : ExchangeClient :=
  mkClient maxQueuedBytes newQueue [] [] false [] [] states.

(** The sources to ask, and for how many bytes. *)
Record RequestSpec := mkRequest { req_sources : list nat; req_maxBytes : Z }.
Definition noRequest : RequestSpec := mkRequest [] 0.

Definition countPendingSourcesLocked (c : ExchangeClient) : Z :=
  Z.of_nat (length (filter (λ i, isRequestPendingLocked (source_state c i) = true) (sources_ c))).

Definition getAveragePageSize (c : ExchangeClient) : Z :=
  let averagePageSize := Z.min (maxQueuedBytes_ c) (averageReceivedPageBytes (client_queue c)) in
  if averagePageSize =? 0 then Z.shiftl 1 20 else averagePageSize.

(** The difference and the quotient are unsigned, the maximum has 32 bits. *)
Definition getNumSourcesToRequestLocked (averagePageSize : Z) (c : ExchangeClient) : Z :=
  let numPending := countPendingSourcesLocked c in
  let numToRequest :=
    Z.max 1 (swrap 32 (uwrap 64 (maxQueuedBytes_ c - totalBytes_ (client_queue c)) / averagePageSize)) in
  if numToRequest <=? numPending then 0 else numToRequest - numPending.

(** The sources taken from a queue, what remains of it, and the states of the
    sources; at most [n] sources are picked. *)
Fixpoint pickFrom (n : nat) (sources : list nat) (states : nat → S) : list nat * list nat * (nat → S) :=
  match sources with
  | [] => ([], [], states)
  | i :: rest =>
      match n with
      | O => ([], sources, states)
      | Datatypes.S n' =>
          let '(should, state) := shouldRequestLocked (states i) in
          let states := λ j, if (j =? i)%nat then state else states j in
          if should then let '(picked, rest, states) := pickFrom n' rest states in (i :: picked, rest, states)
          else pickFrom n rest states
      end
  end.

Definition pickSourcesToRequestLocked (c : ExchangeClient) : ExchangeClient * RequestSpec :=
  if closed_ c || (totalBytes_ (client_queue c) >=? maxQueuedBytes_ c) then (c, noRequest)
  else
    let averagePageSize := getAveragePageSize c in
    let numToRequest := getNumSourcesToRequestLocked averagePageSize c in
    if numToRequest =? 0 then (c, noRequest)
    else
      let n := Z.to_nat numToRequest in
      let '(picked1, producing, states) := pickFrom n (producingSources_ c) (source_state c) in
      let '(picked2, empty, states) := pickFrom (n - length picked1) (emptySources_ c) states in
      (c <| producingSources_ := producing |> <| emptySources_ := empty |> <| source_state := states |>,
       mkRequest (picked1 ++ picked2) averagePageSize).

(** [i] is the source that the factory makes; the last component is a source to
    close at once. *)
Definition addRemoteTaskId (taskId : string) (i : nat) (c : ExchangeClient)
    : outcome (ExchangeClient * RequestSpec * list nat) :=
  if bool_decide (taskId ∈ remoteTaskIds_ c) then Ok (c, noRequest, [])
  else
    let c := c <| remoteTaskIds_ := taskId :: remoteTaskIds_ c |> in
    if closed_ c then Ok (c, noRequest, [i])
    else
      q ← addSourceLocked (client_queue c);
      let c := c <| sources_ := sources_ c ++ [i] |> <| client_queue := q |>
                 <| producingSources_ := producingSources_ c ++ [i] |> in
      let '(c, spec) := pickSourcesToRequestLocked c in
      Ok (c, spec, []).

Definition noMoreRemoteTasks (c : ExchangeClient) : ExchangeClient * list nat :=
  let '(q, promises) := noMoreSources (client_queue c) in (c <| client_queue := q |>, promises).

(** [close] takes the mutex twice.  The first time it marks the client as closed
    and takes the sources, which are then closed; a client that is closed
    already has none to give and the call ends there. *)
Definition closeClient (c : ExchangeClient) : ExchangeClient * option (list nat) :=
  if closed_ c then (c, None) else (c <| closed_ := true |> <| sources_ := [] |>, Some (sources_ c)).

(** The second time it closes the queue; the promises fulfilled. *)
Definition closeQueue (c : ExchangeClient) : ExchangeClient * list nat :=
  let '(q, promises) := q_close (client_queue c) in (c <| client_queue := q |>, promises).

(** The whole call without another one in between: the sources to close and the
    promises fulfilled. *)
Definition close (c : ExchangeClient) : ExchangeClient * list nat * list nat :=
  match closeClient c with
  | (c, None) => (c, [], [])
  | (c, Some sources) => let '(c, promises) := closeQueue c in (c, sources, promises)
  end.

Definition next (maxBytes : Z) (promise : nat) (c : ExchangeClient)
    : outcome (ExchangeClient * list SerializedPage * bool * RequestSpec) :=
  '(pages, atEnd, q) ← dequeueLocked maxBytes promise (client_queue c);
  let c := c <| client_queue := q |> in
  if (atEnd : bool) then Ok (c, pages, true, noRequest)
  else if negb (length pages =? 0)%nat && (totalBytes_ q >? maxQueuedBytes_ c) then Ok (c, pages, false, noRequest)
  else let '(c, spec) := pickSourcesToRequestLocked c in Ok (c, pages, false, spec).

(** The continuation of a request to source [i]. *)
Definition onResponse (i : nat) (bytes : Z) (atEnd : bool) (c : ExchangeClient) : ExchangeClient * RequestSpec :=
  if closed_ c then (c, noRequest)
  else
    let c := if atEnd then c
             else if bytes >? 0 then c <| producingSources_ := producingSources_ c ++ [i] |>
             else c <| emptySources_ := emptySources_ c ++ [i] |> in
    pickSourcesToRequestLocked c.

Definition onError (what : string) (c : ExchangeClient) : ExchangeClient * list nat :=
  let '(q, promises) := setError what (client_queue c) in (c <| client_queue := q |>, promises).

End Client.
Arguments ExchangeClient S : clear implicits.
