(* ===== verification/ExchangeCorrect.v ===== *)
(** * Correctness of the exchange

    The client and its queue as one system with the sources: pages reach the
    consumers in the order of their arrival and exactly once, a source never
    has two requests outstanding, and a consumer that waits always waits for a
    request that is outstanding, or for the list of sources to be completed. *)
From S2P Require Import Prelude OutputBuffer OutputBufferState Exchange.
Local Open Scope Z_scope.

(** ** Taking pages from the queue *)
Lemma dequeueLoop_split maxBytes acc queue :
  (dequeueLoop maxBytes acc queue).1 ++ (dequeueLoop maxBytes acc queue).2 = queue.
Proof.
  revert acc. induction queue as [|p queue IH]; intros acc; [done|]. cbn [dequeueLoop]. destruct (_ && _); [done|].
  specialize (IH (uwrap 32 (acc + page_size p))). destruct (dequeueLoop _ _ queue). cbn in *. by rewrite IH.
Qed.

Definition smallPage (p : SerializedPage) : Prop := 0 < page_size p < 2 ^ 32.

(** After a first page of [acc] bytes: as many more as fit. *)
Lemma dequeueLoop_more maxBytes acc queue pages rest :
  0 < acc < 2 ^ 32 → maxBytes < 2 ^ 32 → Forall smallPage queue → dequeueLoop maxBytes acc queue = (pages, rest) →
  (pages = [] ∨ acc + sumSizes pages ≤ maxBytes) ∧ (∀ p, head rest = Some p → maxBytes < acc + sumSizes pages + page_size p).
Proof.
  intros Ha Hm Hs. revert acc pages rest Ha. induction Hs as [|p queue Hp _ IH]; intros acc pages rest Ha; cbn [dequeueLoop].
  - intros [= <- <-]. split; [by left | done].
  - assert (acc >? 0 = true) as -> by (apply Z.gtb_lt; lia). cbn [andb].
    destruct (Z.gtb_spec (acc + page_size p) maxBytes).
    + intros [= <- <-]. split; [by left|]. intros q [= <-]. simpl. lia.
    + unfold uwrap. rewrite Z.mod_small by (destruct Hp; lia).
      destruct (dequeueLoop maxBytes (acc + page_size p) queue) as [pages' rest'] eqn:E. intros [= <- <-].
      destruct (IH (acc + page_size p) pages' rest') as [Hfit Hmax]; [destruct Hp; lia | done|]. simpl. split.
      * right. destruct Hfit as [->|]; simpl; lia.
      * intros q Hq. specialize (Hmax q Hq). lia.
Qed.

(** [dequeueLocked] takes the front of the queue: at least one page when
    there is one, further pages only while all of them fit into [maxBytes], and
    as many as fit; what remains keeps its order and its byte count. *)
Theorem dequeueLocked_fits maxBytes promise q :
  0 ≤ maxBytes < 2 ^ 32 → Forall smallPage (queue_ q) → error_ q = ""%string →
  ∃ pages atEnd q', dequeueLocked maxBytes promise q = Ok (pages, atEnd, q') ∧
    pages ++ queue_ q' = queue_ q ∧ (queue_ q ≠ [] → pages ≠ []) ∧
    (sumSizes pages ≤ maxBytes ∨ (length pages ≤ 1)%nat) ∧
    (∀ p, head (queue_ q') = Some p → maxBytes < sumSizes pages + page_size p) ∧
    totalBytes_ q' = totalBytes_ q - sumSizes pages ∧ (atEnd = true → queue_ q' = [] ∧ atEnd_ q = true).
Proof.
  intros Hm Hs He. unfold dequeueLocked. rewrite bool_decide_true by done. cbn [negb].
  pose proof (dequeueLoop_split maxBytes 0 (queue_ q)) as Hsplit.
  assert (∀ pages rest, dequeueLoop maxBytes 0 (queue_ q) = (pages, rest) →
    (queue_ q ≠ [] → pages ≠ []) ∧ (sumSizes pages ≤ maxBytes ∨ (length pages ≤ 1)%nat) ∧
    ∀ p, head rest = Some p → maxBytes < sumSizes pages + page_size p) as Hloop.
  { intros pages rest. destruct Hs as [|p queue Hp Hs]; cbn [dequeueLoop]; [intros [= <- <-]; simpl; split; [done | split; [left; lia | done]]|].
    cbn [Z.gtb andb]. change (0 >? 0) with false. cbn [andb]. rewrite Z.add_0_l. unfold uwrap. rewrite Z.mod_small by (destruct Hp; lia).
    destruct (dequeueLoop maxBytes (page_size p) queue) as [pages' rest'] eqn:E. intros [= <- <-].
    destruct (dequeueLoop_more maxBytes (page_size p) queue pages' rest') as [Hfit Hmax]; [done | lia | done | done|].
    split; [done|]. simpl. split.
    - destruct Hfit as [->|]; [right; simpl; lia | left; lia].
    - done. }
  destruct (dequeueLoop maxBytes 0 (queue_ q)) as [pages rest]. cbn in Hsplit. destruct (Hloop pages rest eq_refl) as (L1 & L2 & L3).
  destruct rest as [|r rest]; cbn; [destruct (atEnd_ q) eqn:Ea|]; eexists _, _, _; by repeat split.
Qed.

Lemma dequeueLocked_fits_witness :
  ∃ pages atEnd q', dequeueLocked 10 0 (newQueue <| queue_ := [mkPage 1 4 None; mkPage 2 6 None; mkPage 3 1 None] |> <| totalBytes_ := 11 |>)
    = Ok (pages, atEnd, q') ∧ pages ++ queue_ q' = [mkPage 1 4 None; mkPage 2 6 None; mkPage 3 1 None] ∧ totalBytes_ q' = 11 - sumSizes pages.
Proof.
  destruct (dequeueLocked_fits 10 0 (newQueue <| queue_ := [mkPage 1 4 None; mkPage 2 6 None; mkPage 3 1 None] |> <| totalBytes_ := 11 |>))
    as (pages & atEnd & q' & H1 & H2 & _ & _ & _ & H3 & _); [lia | by repeat constructor | done|]. by exists pages, atEnd, q'.
Defined.

(** ** The client with its sources *)
Section System.
Context {S : Type} `{ExchangeSourceLaws S}.

(** [requested] sources have a request outstanding, [responding] ones have
    delivered their pages (with the number of bytes and whether they are at
    their end) but the continuation of the request has not run, [ended] ones
    are done.  [arrived] are the pages received so far, [taken] those given
    to consumers, and [failed] says whether an error was reported. *)
Record System := mkSystem {
  client : ExchangeClient S;
  requested : list nat;
  responding : list (nat * Z * bool);
  ended : list nat;
  arrived : list SerializedPage;
  taken : list SerializedPage;
  failed : bool
}.

Definition newSystem (maxQueuedBytes : Z) (states : nat → S) : System :=
  mkSystem (newClient maxQueuedBytes states) [] [] [] [] [] false.

Definition responder (r : nat * Z * bool) : nat := r.1.1.

(** A source delivers pages and possibly the end marker under the mutex. *)
Definition deliver (pages : list SerializedPage) (atEnd : bool) (q : ExchangeQueue) : ExchangeQueue :=
  foldl (λ q m, (enqueueLocked m q).1) q (map Some pages ++ if atEnd then [None] else []).

Definition setState (i : nat) (state : S) (states : nat → S) : nat → S := λ j, if (j =? i)%nat then state else states j.

(** The steps are the critical sections of the code and of the sources, so that
    calls interleave in any way; [close] consists of two. *)
Inductive systemStep : System → System → Prop :=
| sys_add taskId i c c' spec toClose rq rs en ar tk fl :
    i ∉ sources_ c → isRequestPendingLocked (source_state c i) = false →
    addRemoteTaskId taskId i c = Ok (c', spec, toClose) →
    systemStep (mkSystem c rq rs en ar tk fl) (mkSystem c' (rq ++ req_sources spec) rs en ar tk fl)
| sys_noMore c rq rs en ar tk fl :
    systemStep (mkSystem c rq rs en ar tk fl) (mkSystem (noMoreRemoteTasks c).1 rq rs en ar tk fl)
| sys_next maxBytes promise c c' pages atEnd spec rq rs en ar tk fl :
    next maxBytes promise c = Ok (c', pages, atEnd, spec) →
    systemStep (mkSystem c rq rs en ar tk fl) (mkSystem c' (rq ++ req_sources spec) rs en ar (tk ++ pages) fl)
| sys_arrive i state pages bytes atEnd c rq1 rq2 rs en ar tk fl :
    isRequestPendingLocked state = false →
    systemStep (mkSystem c (rq1 ++ i :: rq2) rs en ar tk fl)
      (mkSystem (c <| client_queue := deliver pages atEnd (client_queue c) |> <| source_state := setState i state (source_state c) |>)
         (rq1 ++ rq2) (rs ++ [(i, bytes, atEnd)]) en (ar ++ pages) tk fl)
| sys_respond i bytes (atEnd : bool) c c' spec rq rs1 rs2 en ar tk fl :
    onResponse i bytes atEnd c = (c', spec) →
    systemStep (mkSystem c rq (rs1 ++ (i, bytes, atEnd) :: rs2) en ar tk fl)
      (mkSystem c' (rq ++ req_sources spec) (rs1 ++ rs2) (if atEnd then en ++ [i] else en) ar tk fl)
| sys_fail i what c rq1 rq2 rs en ar tk fl :
    systemStep (mkSystem c (rq1 ++ i :: rq2) rs en ar tk fl) (mkSystem (onError what c).1 (rq1 ++ rq2) rs en ar tk true)
| sys_closeClient c rq rs en ar tk fl :
    systemStep (mkSystem c rq rs en ar tk fl) (mkSystem (closeClient c).1 rq rs en ar tk fl)
| sys_closeQueue c rq rs en ar tk fl :
    closed_ c = true → systemStep (mkSystem c rq rs en ar tk fl) (mkSystem (closeQueue c).1 rq rs en ar tk fl).

Definition systemReachable (s : System) : Prop := ∃ maxQueuedBytes states, rtc systemStep (newSystem maxQueuedBytes states) s.

(** ** The invariant *)
Record queueOk (q : ExchangeQueue) : Prop := {
  qo_complete : atEnd_ q = true ↔ noMoreSources_ q = true ∧ numCompleted_ q = numSources_ q;
  qo_end : atEnd_ q = true → promises_ q = [];
  qo_bytes : totalBytes_ q = sumSizes (queue_ q)
}.

Record settled (c : ExchangeClient S) (rq : list nat) (rs : list (nat * Z * bool)) (en : list nat)
    (ar tk : list SerializedPage) : Prop := {
  st_parts : sources_ c ≡ₚ rq ++ map responder rs ++ (producingSources_ c ++ emptySources_ c) ++ en;
  st_nodup : NoDup (sources_ c);
  st_pending : ∀ i, i ∈ sources_ c → isRequestPendingLocked (source_state c i) = true ↔ i ∈ rq;
  st_sources : numSources_ (client_queue c) = Z.of_nat (length (sources_ c));
  st_completed : numCompleted_ (client_queue c) = Z.of_nat (length en + length (filter (λ r, r.2 = true) rs));
  st_queue : queueOk (client_queue c);
  st_fifo : tk ++ queue_ (client_queue c) = ar
}.

(** While there is room and a source that could be asked, one is being asked. *)
Definition flowing (c : ExchangeClient S) (rq : list nat) (rs : list (nat * Z * bool)) : Prop :=
  totalBytes_ (client_queue c) < maxQueuedBytes_ c → producingSources_ c ++ emptySources_ c ≠ [] → rq ++ map responder rs ≠ [].

Definition running (s : System) : Prop :=
  settled (client s) (requested s) (responding s) (ended s) (arrived s) (taken s) ∧
  flowing (client s) (requested s) (responding s).

(** Closed, or an error was reported. *)
Definition stopped (s : System) : Prop := closed_ (client s) = true ∨ failed s = true.

(** ** Picking sources *)
Lemma pickFrom_idle n sources (states : nat → S) picked rest states' :
  NoDup sources → (∀ i, i ∈ sources → isRequestPendingLocked (states i) = false) →
  pickFrom n sources states = (picked, rest, states') →
  picked = take n sources ∧ rest = drop n sources ∧
  (∀ i, i ∈ picked → isRequestPendingLocked (states' i) = true) ∧ (∀ i, i ∉ picked → states' i = states i).
Proof.
  revert n states picked rest states'. induction sources as [|i sources IH]; intros n states picked rest states' Hn Hidle; cbn [pickFrom].
  - intros [= <- <- <-]. rewrite take_nil, drop_nil. do 2 (split; [done|]). split; [by intros j ?%elem_of_nil | done].
  - apply NoDup_cons in Hn as [Hi Hn]. destruct n as [|n].
    { intros [= <- <- <-]. do 2 (split; [done|]). split; [by intros j ?%elem_of_nil | done]. }
    destruct (shouldRequestLocked (states i)) as [should state] eqn:Es.
    assert (should = true) as ->. { pose proof (should_when_idle (states i)) as Hs. rewrite Es in Hs. apply Hs, Hidle. by left. }
    destruct (pickFrom n sources _) as [[picked1 rest1] states1] eqn:E. intros [= <- <- <-].
    apply IH in E as (-> & -> & Hp & Hu); [|done|].
    + cbn. do 2 (split; [done|]). split.
      * intros j [->|Hj]%elem_of_cons; [|by apply Hp].
        destruct (decide (i ∈ take n sources)) as [Hin|Hin]; [by apply Hp|]. rewrite Hu, Nat.eqb_refl by done.
        pose proof (should_marks (states i)) as Hs. by rewrite Es in Hs.
      * intros j Hj. rewrite not_elem_of_cons in Hj. rewrite Hu by naive_solver.
        destruct (Nat.eqb_spec j i); [naive_solver | done].
    + intros j Hj. destruct (Nat.eqb_spec j i) as [->|]; [done|]. apply Hidle. by right.
Qed.

(** A pick moves idle sources to the request; it picks one when there is one
    and no request is outstanding. *)
Lemma pick_Ok (c c' : ExchangeClient S) spec :
  NoDup (producingSources_ c ++ emptySources_ c) →
  (∀ i, i ∈ producingSources_ c ++ emptySources_ c → isRequestPendingLocked (source_state c i) = false) →
  pickSourcesToRequestLocked c = (c', spec) →
  (maxQueuedBytes_ c', client_queue c', remoteTaskIds_ c', sources_ c', closed_ c') =
    (maxQueuedBytes_ c, client_queue c, remoteTaskIds_ c, sources_ c, closed_ c) ∧
  producingSources_ c ++ emptySources_ c ≡ₚ req_sources spec ++ producingSources_ c' ++ emptySources_ c' ∧
  (∀ i, i ∈ req_sources spec → isRequestPendingLocked (source_state c' i) = true) ∧
  (∀ i, i ∉ req_sources spec → source_state c' i = source_state c i) ∧
  (closed_ c = false → totalBytes_ (client_queue c) < maxQueuedBytes_ c →
    countPendingSourcesLocked c = 0 → producingSources_ c ++ emptySources_ c ≠ [] → req_sources spec ≠ []).
Proof.
  intros Hn Hidle. unfold pickSourcesToRequestLocked.
  destruct (closed_ c || _) eqn:Ec.
  { intros [= <- <-]. split; [done|]. split; [done|]. split; [by intros i ?%elem_of_nil|]. split; [done|].
    intros Hc Ht. rewrite Hc in Ec. apply Z.geb_le in Ec. lia. }
  cbv zeta. set (n := getNumSourcesToRequestLocked _ c).
  assert (countPendingSourcesLocked c = 0 → 1 ≤ n) as Hpos.
  { intros Hz. unfold n, getNumSourcesToRequestLocked. rewrite Hz. cbv zeta. destruct (_ <=? 0) eqn:E; [apply Z.leb_le in E|]; lia. }
  destruct (Z.eqb_spec n 0) as [Hz|Hz].
  { intros [= <- <-]. split; [done|]. split; [done|]. split; [by intros i ?%elem_of_nil|]. split; [done|]. intros _ _ Hp. specialize (Hpos Hp). lia. }
  destruct (pickFrom (Z.to_nat n) (producingSources_ c) (source_state c)) as [[picked1 producing] states1] eqn:E1.
  destruct (pickFrom _ (emptySources_ c) states1) as [[picked2 empty] states2] eqn:E2. intros [= <- <-].
  apply NoDup_app in Hn as (Hn1 & Hdis & Hn2).
  apply pickFrom_idle in E1 as (-> & -> & P1 & U1); [|done | intros i Hi; apply Hidle, elem_of_app; by left].
  set (m := Z.to_nat n) in *. set (k := (m - length (take m (producingSources_ c)))%nat) in *.
  apply pickFrom_idle in E2 as (-> & -> & P2 & U2); [|done|].
  2: { intros i Hi. rewrite U1; [apply Hidle, elem_of_app; by right|]. intros Hin. apply (Hdis i); [|done].
       rewrite <- (take_drop m (producingSources_ c)). apply elem_of_app. by left. }
  cbn. split; [done|]. split.
  { rewrite <- (take_drop m (producingSources_ c)) at 1. rewrite <- (take_drop k (emptySources_ c)) at 1.
    rewrite <- !app_assoc. f_equiv. apply Permutation_app_swap_app. }
  split.
  { intros i [Hi|Hi]%elem_of_app; [|by apply P2]. destruct (decide (i ∈ take k (emptySources_ c))); [by apply P2|].
    rewrite U2 by done. by apply P1. }
  split.
  { intros i Hi. rewrite not_elem_of_app in Hi. destruct Hi. by rewrite U2, U1. }
  intros _ _ Hz0 Hne. specialize (Hpos Hz0). intros [Ht1 Ht2]%app_eq_nil.
  assert (producingSources_ c = []) as Hp0. { destruct (producingSources_ c); [done|]. destruct m eqn:Em; [unfold m in Em; lia | done]. }
  rewrite Hp0 in Hne. unfold k in Ht2. rewrite Ht1 in Ht2. cbn in Ht2. rewrite Nat.sub_0_r in Ht2.
  destruct (emptySources_ c); [done|]. destruct m eqn:Em; [unfold m in Em; lia | done].
Qed.

Lemma settled_idle c rq rs en ar tk :
  settled c rq rs en ar tk →
  NoDup (producingSources_ c ++ emptySources_ c) ∧
  ∀ i, i ∈ producingSources_ c ++ emptySources_ c → i ∉ rq ∧ isRequestPendingLocked (source_state c i) = false.
Proof.
  intros [Hp Hn Hpe _ _ _ _]. pose proof Hn as Hn'. rewrite Hp in Hn.
  rewrite (Permutation_app_swap_app rq), (Permutation_app_swap_app rq) in Hn.
  apply NoDup_app in Hn as (_ & _ & Hn). apply NoDup_app in Hn as (Hn1 & Hdis & _). split; [done|]. intros i Hi.
  assert (i ∉ rq) as Hr by (intros Hr; apply (Hdis i Hi), elem_of_app; by left).
  split; [done|]. apply not_true_iff_false. rewrite Hpe; [done|]. rewrite Hp.
  do 2 (apply elem_of_app; right). apply elem_of_app. by left.
Qed.

Lemma pick_running c c' spec rq rs en ar tk :
  settled c rq rs en ar tk → closed_ c = false → pickSourcesToRequestLocked c = (c', spec) →
  settled c' (rq ++ req_sources spec) rs en ar tk ∧ flowing c' (rq ++ req_sources spec) rs ∧
  closed_ c' = false ∧ client_queue c' = client_queue c.
Proof.
  intros Hs Hc Hpick. destruct (settled_idle _ _ _ _ _ _ Hs) as [Hn Hidle].
  destruct (pick_Ok c c' spec) as (E & Hperm & Hmark & Hsame & Hpicks); [done | intros i Hi; by apply Hidle | done|].
  injection E as E1 E2 E3 E4 E5. destruct Hs as [Hp Hnd Hpe Hso Hco Hqu Hfi].
  split; [|split; [|by rewrite E5, E2]].
  - split; rewrite ?E2, ?E4; try done.
    + rewrite Hp, Hperm, <- !app_assoc. f_equiv. apply Permutation_app_swap_app.
    + intros i Hi. rewrite elem_of_app. destruct (decide (i ∈ req_sources spec)) as [Hin|Hin].
      * split; [by right|]. intros _. by apply Hmark.
      * rewrite Hsame by done. rewrite Hpe by done. tauto.
  - intros Ht Hne Hnil. rewrite E1, E2 in Ht. apply app_eq_nil in Hnil as [[-> Hspec]%app_eq_nil Hrs].
    assert (producingSources_ c ++ emptySources_ c ≠ []) as Hne'.
    { intros E. rewrite E in Hperm. apply Permutation_nil in Hperm. by apply app_eq_nil in Hperm as [_ ?]. }
    apply (Hpicks Hc Ht); [|done|done].
    unfold countPendingSourcesLocked. rewrite filter_none; [done|]. apply Forall_forall. intros i Hi. rewrite Hpe by done. apply not_elem_of_nil.
Qed.

(** ** Steps of the queue *)
Lemma checkComplete_Ok q q' promises :
  checkCompleteLocked q = (q', promises) → (atEnd_ q = true → promises_ q = [] ∧ noMoreSources_ q = true ∧ numCompleted_ q = numSources_ q) →
  totalBytes_ q = sumSizes (queue_ q) →
  queueOk q' ∧ (numCompleted_ q', numSources_ q', noMoreSources_ q', queue_ q', error_ q', totalBytes_ q') =
    (numCompleted_ q, numSources_ q, noMoreSources_ q, queue_ q, error_ q, totalBytes_ q).
Proof.
  unfold checkCompleteLocked. intros E Hend Hb. destruct (noMoreSources_ q) eqn:En; cbn [andb] in E.
  - destruct (Z.eqb_spec (numCompleted_ q) (numSources_ q)) as [He|He]; injection E as <- <-.
    + split; [split; cbn; [by rewrite En | done..] | cbn; by rewrite En].
    + split; [|by rewrite En]. split; [|naive_solver|done]. rewrite En. split; [by intros []%Hend; naive_solver | naive_solver].
  - injection E as <- <-. split; [|by rewrite En]. split; [|naive_solver|done]. rewrite En. split; [|naive_solver].
    intros (_ & ? & _)%Hend. done.
Qed.

Lemma enqueuePages_Ok pages q :
  queueOk q →
  let q' := foldl (λ q m, (enqueueLocked m q).1) q (map Some pages) in
  queueOk q' ∧ (numCompleted_ q', numSources_ q', noMoreSources_ q', atEnd_ q', queue_ q', error_ q') =
    (numCompleted_ q, numSources_ q, noMoreSources_ q, atEnd_ q, queue_ q ++ pages, error_ q).
Proof.
  revert q. induction pages as [|p pages IH]; intros q Hq; [cbn; by rewrite app_nil_r|]. cbn [map foldl].
  set (q1 := (enqueueLocked (Some p) q).1).
  assert ((numCompleted_ q1, numSources_ q1, noMoreSources_ q1, atEnd_ q1, queue_ q1, error_ q1) =
    (numCompleted_ q, numSources_ q, noMoreSources_ q, atEnd_ q, queue_ q ++ [p], error_ q) ∧
    totalBytes_ q1 = totalBytes_ q + page_size p ∧ (promises_ q = [] → promises_ q1 = [])) as (E1 & Hb1 & Hp1).
  { unfold q1, enqueueLocked. cbv zeta. cbn. destruct (_ <? _); cbn; destruct (last (promises_ q)) eqn:El; cbn;
      (split; [done|]; split; [done|]; intros Hn; by rewrite Hn in * ). }
  injection E1 as A1 A2 A3 A4 A5 A6. destruct Hq as [Q1 Q2 Q3].
  assert (queueOk q1) as Hq1.
  { split; rewrite ?A1, ?A2, ?A3, ?A4; [done | intros Ha; by apply Hp1, Q2|]. rewrite Hb1, A5, sumSizes_app, Q3. simpl. lia. }
  destruct (IH q1 Hq1) as [Hq' E']. split; [done|]. rewrite E', A1, A2, A3, A4, A5, A6. by rewrite <- app_assoc.
Qed.

Lemma deliver_Ok pages atEnd q :
  queueOk q → atEnd_ q = false →
  queueOk (deliver pages atEnd q) ∧
  (numCompleted_ (deliver pages atEnd q), numSources_ (deliver pages atEnd q), queue_ (deliver pages atEnd q),
   error_ (deliver pages atEnd q)) =
    (numCompleted_ q + (if atEnd then 1 else 0), numSources_ q, queue_ q ++ pages, error_ q).
Proof.
  intros Hq Ha. unfold deliver. rewrite foldl_app. destruct (enqueuePages_Ok pages q Hq) as [Hq1 E]. cbv zeta in Hq1, E.
  set (q1 := foldl _ q (map Some pages)) in *. injection E as A1 A2 A3 A4 A5 A6. destruct atEnd; cbn [foldl].
  - destruct (enqueueLocked None q1) as [q2 promises] eqn:E2. cbn [enqueueLocked fst] in *.
    apply checkComplete_Ok in E2 as [Hq2 E2]; cbn.
    + split; [done|]. injection E2 as B1 B2 B3 B4 B5 B6. by rewrite B1, B2, B4, B5, A1, A2, A5, A6.
    + rewrite A4. congruence.
    + apply Hq1.
  - split; [done|]. rewrite A1, A2, A5, A6. by rewrite Z.add_0_r.
Qed.

Lemma deliver_error pages atEnd q : error_ (deliver pages atEnd q) = error_ q.
Proof.
  unfold deliver. generalize (map Some pages ++ if atEnd then [None] else []). intros l. revert q.
  induction l as [|m l IH]; intros q; [done|]. cbn [foldl]. rewrite IH. destruct m; cbn.
  - destruct (_ <? _); cbn; by destruct (last (promises_ q)).
  - unfold checkCompleteLocked. cbn. by destruct (_ && _).
Qed.

Lemma dequeue_Ok maxBytes promise q pages atEnd q' :
  queueOk q → dequeueLocked maxBytes promise q = Ok (pages, atEnd, q') →
  queueOk q' ∧ pages ++ queue_ q' = queue_ q ∧ (atEnd = true → atEnd_ q = true) ∧
  (numCompleted_ q', numSources_ q', error_ q') = (numCompleted_ q, numSources_ q, error_ q).
Proof.
  unfold dequeueLocked. intros [Q1 Q2 Q3]. destruct (bool_decide (error_ q = _)); cbn [negb]; [|done].
  pose proof (dequeueLoop_split maxBytes 0 (queue_ q)) as Hs. destruct (dequeueLoop maxBytes 0 (queue_ q)) as [pg rest]. cbn in Hs.
  assert (totalBytes_ q - sumSizes pg = sumSizes rest) as Hb by (rewrite Q3, <- Hs, sumSizes_app; lia).
  destruct rest as [|r rest]; [cbn; destruct (atEnd_ q) eqn:Ea|]; intros [= <- <- <-]; cbn; rewrite ?app_nil_r in *; rewrite ?Ea;
    (split; [split; cbn; rewrite ?Ea; by try apply Q2 | done]).
Qed.

(** ** Steps of the system *)

(** Permutations that move one element. *)
Ltac to_front := rewrite <- ?app_assoc; cbn [app]; rewrite <- !Permutation_middle; by rewrite ?app_nil_r.

(** At the end nothing is outstanding. *)
Lemma settled_end c rq rs en ar tk :
  settled c rq rs en ar tk → atEnd_ (client_queue c) = true → rq = [] ∧ producingSources_ c ++ emptySources_ c = [].
Proof.
  intros [Hp Hn Hpe Hso Hco [Q1 _ _] _] He. apply Q1 in He as [_ He]. rewrite Hso, Hco, Hp, !length_app, length_map in He.
  pose proof (length_filter (λ r : nat * Z * bool, r.2 = true) rs) as Hle. rewrite <- !length_zero_iff_nil, length_app. lia.
Qed.

Lemma add_running taskId i c c' spec toClose rq rs en ar tk :
  settled c rq rs en ar tk → flowing c rq rs → closed_ c = false → i ∉ sources_ c →
  isRequestPendingLocked (source_state c i) = false → addRemoteTaskId taskId i c = Ok (c', spec, toClose) →
  settled c' (rq ++ req_sources spec) rs en ar tk ∧ flowing c' (rq ++ req_sources spec) rs.
Proof.
  intros Hs Hf Hc Hi Hidle. unfold addRemoteTaskId. destruct (bool_decide _).
  { intros [= <- <- <-]. cbn. by rewrite app_nil_r. }
  cbv zeta. cbn [closed_]. set (c0 := c <| remoteTaskIds_ := _ |>). change (closed_ c0) with (closed_ c). rewrite Hc.
  unfold addSourceLocked. change (client_queue c0) with (client_queue c). destruct (noMoreSources_ (client_queue c)) eqn:En; [done|].
  cbn [negb velox_check mbind outcome_bind]. set (c1 := c0 <| sources_ := _ |> <| client_queue := _ |> <| producingSources_ := _ |>).
  destruct (pickSourcesToRequestLocked c1) as [c2 spec2] eqn:Epick. intros [= <- <- <-].
  destruct Hs as [Hp Hn Hpe Hso Hco [Q1 Q2 Q3] Hfi].
  assert (settled c1 rq rs en ar tk) as Hs1.
  { split; cbn; try done.
    - rewrite Hp, <- !app_assoc. do 3 f_equiv. rewrite (Permutation_app_comm en [i]). apply Permutation_app_swap_app.
    - apply NoDup_app. split; [done|]. split; [|apply NoDup_singleton]. by intros j Hj ->%list_elem_of_singleton.
    - intros j [Hj| ->%list_elem_of_singleton]%elem_of_app; [by apply Hpe|]. rewrite Hidle. split; [done|]. intros Hr.
      destruct Hi. rewrite Hp. apply elem_of_app. by left.
    - rewrite length_app, Hso. simpl. lia.
    - split; cbn; try done. rewrite Q1, En. naive_solver. }
  destruct (pick_running _ _ _ _ _ _ _ _ Hs1 Hc Epick) as (? & ? & _). done.
Qed.

Lemma noMore_running c rq rs en ar tk :
  settled c rq rs en ar tk → flowing c rq rs →
  settled (noMoreRemoteTasks c).1 rq rs en ar tk ∧ flowing (noMoreRemoteTasks c).1 rq rs.
Proof.
  intros [Hp Hn Hpe Hso Hco [Q1 Q2 Q3] Hfi] Hf. unfold noMoreRemoteTasks, noMoreSources.
  destruct (checkCompleteLocked _) as [q promises] eqn:E. apply checkComplete_Ok in E as [Hq E]; cbn.
  - injection E as E1 E2 E3 E4 E5 E6. split; [split; cbn; try done; congruence|]. intros Ht Hne. apply Hf; [|done]. cbn in Ht. congruence.
  - intros He. split; [by apply Q2|]. split; [done|]. by apply Q1 in He as [_ ?].
  - done.
Qed.

Lemma next_running maxBytes promise c c' pages atEnd spec rq rs en ar tk :
  settled c rq rs en ar tk → closed_ c = false → next maxBytes promise c = Ok (c', pages, atEnd, spec) →
  settled c' (rq ++ req_sources spec) rs en ar (tk ++ pages) ∧ flowing c' (rq ++ req_sources spec) rs.
Proof.
  intros Hs Hc. unfold next. destruct (dequeueLocked maxBytes promise (client_queue c)) as [[[pg e] q]| |] eqn:Ed; [|done..].
  cbn [mbind outcome_bind]. cbv zeta. destruct (dequeue_Ok _ _ _ _ _ _ (st_queue _ _ _ _ _ _ Hs) Ed) as (Hq & Hsplit & Hend & E).
  injection E as E1 E2 E3. set (c1 := c <| client_queue := q |>).
  assert (settled c1 rq rs en ar (tk ++ pg)) as Hs1.
  { destruct Hs as [Hp Hn Hpe Hso Hco Hqu Hfi]. split; cbn; try done; [congruence..|]. by rewrite <- app_assoc, Hsplit. }
  destruct e.
  { intros [= <- <- <- <-]. cbn. rewrite app_nil_r. split; [done|]. intros _ Hne. destruct Hne.
    by apply (settled_end _ _ _ _ _ _ Hs), Hend. }
  destruct (_ && _) eqn:Ebig.
  { intros [= <- <- <- <-]. cbn. rewrite app_nil_r. split; [done|]. apply andb_true_iff in Ebig as [_ Hbig%Z.gtb_lt].
    intros Ht. cbn in Ht, Hbig. lia. }
  destruct (pickSourcesToRequestLocked c1) as [c2 spec2] eqn:Epick. intros [= <- <- <- <-].
  destruct (pick_running _ _ _ _ _ _ _ _ Hs1 Hc Epick) as (? & ? & _). done.
Qed.

Lemma arrive_running i state pages bytes atEnd c rq1 rq2 rs en ar tk :
  settled c (rq1 ++ i :: rq2) rs en ar tk → isRequestPendingLocked state = false →
  let c' := c <| client_queue := deliver pages atEnd (client_queue c) |> <| source_state := setState i state (source_state c) |> in
  settled c' (rq1 ++ rq2) (rs ++ [(i, bytes, atEnd)]) en (ar ++ pages) tk ∧ flowing c' (rq1 ++ rq2) (rs ++ [(i, bytes, atEnd)]).
Proof.
  intros Hs Hidle. assert (atEnd_ (client_queue c) = false) as He.
  { apply not_true_iff_false. intros E. apply (settled_end _ _ _ _ _ _ Hs) in E as [E _]. by destruct rq1. }
  destruct Hs as [Hp Hn Hpe Hso Hco Hqu Hfi]. destruct (deliver_Ok pages atEnd _ Hqu He) as [Hq E]. injection E as E1 E2 E3 E4.
  cbv zeta. split.
  - split; cbn; try done.
    + rewrite Hp, map_app. cbn [map responder fst]. to_front.
    + intros j Hj. unfold setState. pose proof Hn as Hn'. rewrite Hp, <- app_assoc in Hn'. cbn in Hn'.
      rewrite <- Permutation_middle in Hn'. apply NoDup_cons in Hn' as [Hi _]. rewrite !elem_of_app in Hi.
      destruct (Nat.eqb_spec j i) as [->|Hne].
      * rewrite Hidle, elem_of_app. split; [done | tauto].
      * rewrite Hpe, !elem_of_app, elem_of_cons by done. naive_solver.
    + congruence.
    + rewrite E1, Hco, filter_app, length_app, filter_cons. cbn [snd]. destruct atEnd; case_decide; try done; cbn; lia.
    + rewrite E3, app_assoc. by rewrite Hfi.
  - intros _ _. rewrite map_app. cbn. intros Hnil. apply app_eq_nil in Hnil as [_ Hnil]. by apply app_eq_nil in Hnil as [_ ?].
Qed.

Lemma respond_running i bytes (atEnd : bool) c c' spec rq rs1 rs2 en ar tk :
  settled c rq (rs1 ++ (i, bytes, atEnd) :: rs2) en ar tk → closed_ c = false → onResponse i bytes atEnd c = (c', spec) →
  let en' := if atEnd then en ++ [i] else en in
  settled c' (rq ++ req_sources spec) (rs1 ++ rs2) en' ar tk ∧ flowing c' (rq ++ req_sources spec) (rs1 ++ rs2).
Proof.
  intros [Hp Hn Hpe Hso Hco Hqu Hfi] Hc. unfold onResponse. rewrite Hc. cbv zeta. set (c1 := if atEnd then c else _). intros Hpick.
  assert (settled c1 rq (rs1 ++ rs2) (if atEnd then en ++ [i] else en) ar tk ∧ closed_ c1 = false) as [Hs1 Hc1].
  { rewrite map_app in Hp. cbn in Hp. rewrite filter_app, filter_cons in Hco. cbn in Hco.
    unfold c1. destruct atEnd; [|destruct (bytes >? 0)]; (split; [|done]); split; cbn; try done.
    all: try (rewrite filter_app, length_app; rewrite Hco; repeat case_decide; try done; cbn; rewrite ?length_app; cbn; lia).
    all: rewrite Hp, map_app; to_front. }
  destruct (pick_running _ _ _ _ _ _ _ _ Hs1 Hc1 Hpick) as (? & ? & _). done.
Qed.

(** A closed client stays closed. *)
Lemma pick_same (c c' : ExchangeClient S) spec :
  pickSourcesToRequestLocked c = (c', spec) → closed_ c' = closed_ c ∧ client_queue c' = client_queue c.
Proof.
  unfold pickSourcesToRequestLocked. destruct (_ || _); [by intros [= <- <-]|]. cbv zeta. destruct (_ =? 0); [by intros [= <- <-]|].
  destruct (pickFrom _ (producingSources_ c) _) as [[? ?] ?]. destruct (pickFrom _ (emptySources_ c) _) as [[? ?] ?].
  by intros [= <- <-].
Qed.

Lemma next_queue maxBytes promise (c c' : ExchangeClient S) pages atEnd spec :
  next maxBytes promise c = Ok (c', pages, atEnd, spec) →
  dequeueLocked maxBytes promise (client_queue c) = Ok (pages, atEnd, client_queue c').
Proof.
  unfold next. destruct (dequeueLocked _ _ _) as [[[pg e] q]| |]; [|done..]. cbn [mbind outcome_bind]. cbv zeta.
  destruct e; [by intros [= <- <- <- <-]|]. destruct (_ && _); [by intros [= <- <- <- <-]|].
  destruct (pickSourcesToRequestLocked _) as [c2 spec2] eqn:Ep. intros [= <- <- <- <-]. by apply pick_same in Ep as [_ ->].
Qed.

Lemma respond_queue i bytes atEnd (c c' : ExchangeClient S) spec : onResponse i bytes atEnd c = (c', spec) → client_queue c' = client_queue c.
Proof.
  unfold onResponse. destruct (closed_ c); [by intros [= <- <-]|]. cbv zeta. intros Hp. apply pick_same in Hp as [_ ->].
  destruct atEnd; [done|]. by destruct (bytes >? 0).
Qed.

Lemma checkComplete_error q : error_ (checkCompleteLocked q).1 = error_ q.
Proof. unfold checkCompleteLocked. by destruct (_ && _). Qed.

Lemma stopped_step s s' : systemStep s s' → stopped s → stopped s'.
Proof.
  unfold stopped. destruct 1 as [taskId i c c' spec toClose rq rs en ar tk fl _ _ Hadd | c rq rs en ar tk fl
    | maxBytes promise c c' pages atEnd spec rq rs en ar tk fl Hnext | i state pages bytes atEnd c rq1 rq2 rs en ar tk fl _
    | i bytes atEnd c c' spec rq rs1 rs2 en ar tk fl Hresp | i what c rq1 rq2 rs en ar tk fl | c rq rs en ar tk fl | c rq rs en ar tk fl _];
    cbn [client failed]; (intros [Hc|Hfl]; [left | by right]).
  - unfold addRemoteTaskId in Hadd. destruct (bool_decide _); [by simplify_eq|]. cbv zeta in Hadd. cbn in Hadd. rewrite Hc in Hadd. by simplify_eq.
  - unfold noMoreRemoteTasks. by destruct (noMoreSources _).
  - unfold next in Hnext. destruct (dequeueLocked _ _ _) as [[[pg e] q]| |]; [|done..]. cbn [mbind outcome_bind] in Hnext.
    cbv zeta in Hnext. destruct e; [by simplify_eq|]. destruct (_ && _); [by simplify_eq|].
    destruct (pickSourcesToRequestLocked _) as [c2 spec2] eqn:Ep. simplify_eq. by apply pick_same in Ep as [-> _].
  - done.
  - unfold onResponse in Hresp. rewrite Hc in Hresp. by simplify_eq.
  - unfold onError. by destruct (setError _ _).
  - unfold closeClient. by rewrite Hc.
  - unfold closeQueue. by destruct (q_close _).
Qed.

Lemma running_step s s' : systemStep s s' → running s → ¬ stopped s → running s' ∨ stopped s'.
Proof.
  intros Hstep [Hs Hf] Hno. assert (closed_ (client s) = false) as Hc by (unfold stopped in Hno; destruct (closed_ (client s)); naive_solver).
  destruct Hstep as [taskId i c c' spec toClose rq rs en ar tk fl Hi Hidle Hadd | c rq rs en ar tk fl
    | maxBytes promise c c' pages atEnd spec rq rs en ar tk fl Hnext | i state pages bytes atEnd c rq1 rq2 rs en ar tk fl Hidle
    | i bytes atEnd c c' spec rq rs1 rs2 en ar tk fl Hresp | i what c rq1 rq2 rs en ar tk fl | c rq rs en ar tk fl | c rq rs en ar tk fl Hcl]; cbn in *.
  - left. by eapply add_running.
  - left. by apply noMore_running.
  - left. by eapply next_running.
  - left. by apply arrive_running.
  - left. by eapply respond_running.
  - right. by right.
  - right. left. unfold closeClient. by rewrite Hc.
  - congruence.
Qed.

Lemma system_inv s : systemReachable s → running s ∨ stopped s.
Proof.
  intros (maxQueuedBytes & states & Hreach).
  assert (running (newSystem maxQueuedBytes states) ∨ stopped (newSystem maxQueuedBytes states)) as Hinit.
  { left. split; [|by intros _ []]. split; cbn; try done; [constructor | by intros i ?%elem_of_nil|]. by split; cbn; try naive_solver. }
  remember (newSystem maxQueuedBytes states) as s0 eqn:E. clear E.
  induction Hreach as [|s0 s1 s2 Hstep _ IH]; [done|]. apply IH.
  destruct (decide (closed_ (client s0) = true ∨ failed s0 = true)) as [Hst|Hno].
  - right. by eapply stopped_step.
  - destruct Hinit as [Hr|]; [|done]. by eapply running_step.
Qed.

Lemma system_running s : systemReachable s → closed_ (client s) = false → failed s = false → running s.
Proof. intros [?|[?|?]]%system_inv Hc He; [done | congruence | congruence]. Qed.

(** ** After an error *)

(** Nobody waits once the queue is at its end. *)
Definition quiet (q : ExchangeQueue) : Prop := atEnd_ q = true ∧ promises_ q = [].

Lemma checkComplete_quiet q : quiet q → quiet (checkCompleteLocked q).1 ∧ error_ (checkCompleteLocked q).1 = error_ q.
Proof. unfold checkCompleteLocked, quiet. destruct (_ && _); cbn; naive_solver. Qed.

Lemma deliver_quiet pages atEnd q : quiet q → quiet (deliver pages atEnd q).
Proof.
  unfold deliver. generalize (map Some pages ++ if atEnd then [None] else []). intros l. revert q.
  induction l as [|m l IH]; intros q Hq; [done|]. cbn [foldl]. apply IH. destruct m as [p|]; cbn; [|by apply checkComplete_quiet].
  unfold quiet in *. destruct Hq as [? Hq]. destruct (_ <? _); cbn; by rewrite Hq.
Qed.

Lemma dequeue_error maxBytes promise q pages atEnd q' :
  dequeueLocked maxBytes promise q = Ok (pages, atEnd, q') → error_ q' = error_ q ∧ (quiet q → quiet q').
Proof.
  unfold dequeueLocked, quiet. destruct (negb _); [done|]. destruct (dequeueLoop _ _ _) as [pg rest].
  destruct rest; [cbn; destruct (atEnd_ q) eqn:Ea|]; intros [= <- <- <-]; cbn; rewrite ?Ea; naive_solver.
Qed.

Lemma add_queue taskId i (c c' : ExchangeClient S) spec toClose :
  addRemoteTaskId taskId i c = Ok (c', spec, toClose) →
  error_ (client_queue c') = error_ (client_queue c) ∧ (quiet (client_queue c) → quiet (client_queue c')).
Proof.
  unfold addRemoteTaskId, addSourceLocked. destruct (bool_decide _); [by intros [= <- <- <-]|]. cbv zeta. cbn.
  destruct (closed_ c); [by intros [= <- <- <-]|]. destruct (noMoreSources_ _); [done|]. cbn [negb velox_check mbind outcome_bind].
  destruct (pickSourcesToRequestLocked _) as [c2 spec2] eqn:Ep. intros [= <- <- <-]. by apply pick_same in Ep as [_ ->].
Qed.

(** A reported error wakes everybody and nobody waits again; an error in the
    queue was reported. *)
Definition errorOk (s : System) : Prop :=
  (failed s = true → quiet (client_queue (client s))) ∧ (error_ (client_queue (client s)) ≠ ""%string → failed s = true).

(** The critical sections that leave error and end of the queue alone. *)
Lemma errorOk_same (q q' : ExchangeQueue) (fl : bool) :
  error_ q' = error_ q → (quiet q → quiet q') →
  (fl = true → quiet q) ∧ (error_ q ≠ ""%string → fl = true) → (fl = true → quiet q') ∧ (error_ q' ≠ ""%string → fl = true).
Proof. intros -> ? [? ?]. auto. Qed.

Lemma errorOk_step s s' : systemStep s s' → errorOk s → errorOk s'.
Proof.
  unfold errorOk. destruct 1 as [taskId i c c' spec toClose rq rs en ar tk fl _ _ Hadd | c rq rs en ar tk fl
    | maxBytes promise c c' pages atEnd spec rq rs en ar tk fl Hnext | i state pages bytes atEnd c rq1 rq2 rs en ar tk fl _
    | i bytes atEnd c c' spec rq rs1 rs2 en ar tk fl Hresp | i what c rq1 rq2 rs en ar tk fl | c rq rs en ar tk fl | c rq rs en ar tk fl _];
    cbn [client failed]; try apply errorOk_same.
  - by apply add_queue in Hadd as [? _].
  - by apply add_queue in Hadd as [_ ?].
  - unfold noMoreRemoteTasks, noMoreSources. pose proof (checkComplete_error ((client_queue c) <| noMoreSources_ := true |>)) as He.
    by destruct (checkCompleteLocked _).
  - intros Hq. unfold noMoreRemoteTasks, noMoreSources. pose proof (checkComplete_quiet ((client_queue c) <| noMoreSources_ := true |>) Hq) as [He _].
    by destruct (checkCompleteLocked _).
  - apply next_queue in Hnext. by eapply dequeue_error.
  - apply next_queue in Hnext. by eapply dequeue_error.
  - apply deliver_error.
  - apply deliver_quiet.
  - by rewrite (respond_queue _ _ _ _ _ _ Hresp).
  - by rewrite (respond_queue _ _ _ _ _ _ Hresp).
  - intros [Hfl He]. split; [intros _|done]. unfold onError, setError. destruct (bool_decide (error_ (client_queue c) = _)) eqn:Eb; cbn; [done|].
    apply bool_decide_eq_false in Eb. by apply Hfl, He.
  - unfold closeClient. by destruct (closed_ c).
  - unfold closeClient. by destruct (closed_ c).
  - done.
  - by intros [? _].
Qed.

Lemma errorOk_reachable s : systemReachable s → errorOk s.
Proof.
  intros (maxQueuedBytes & states & Hreach). assert (errorOk (newSystem maxQueuedBytes states)) as Hinit by done.
  induction Hreach as [|s0 s1 s2 Hstep _ IH]; [done|]. apply IH. by eapply errorOk_step.
Qed.

(** Pages pass through the exchange in the order of their arrival and
    exactly once: what the consumers have taken, followed by what is queued, is
    what the sources have delivered, and [totalBytes_] is the size of what is
    queued, whatever the interleaving of consumers, deliveries and responses,
    until the client is closed or an error is reported. *)
Theorem exchange_fifo s :
  systemReachable s → closed_ (client s) = false → failed s = false →
  taken s ++ queue_ (client_queue (client s)) = arrived s ∧
  totalBytes_ (client_queue (client s)) = sumSizes (queue_ (client_queue (client s))).
Proof. intros Hr Hc He. destruct (system_running s Hr Hc He) as [[] _]. split; [done | by destruct st_queue0]. Qed.

(** A source never has two requests outstanding. *)
Theorem exchange_single_request s :
  systemReachable s → closed_ (client s) = false → failed s = false →
  NoDup (requested s ++ map responder (responding s)).
Proof.
  intros Hr Hc He. destruct (system_running s Hr Hc He) as [[Hp Hn _ _ _ _ _] _]. rewrite Hp, app_assoc in Hn.
  by apply NoDup_app in Hn as [Hn _].
Qed.

(** C34: The exchange does not deadlock: whenever a consumer waits and nothing is
    queued, some source has a request outstanding or a response about to be
    handled.  There are three exceptions: every source is at its end and more
    sources may still be added; the client was closed, after which sources are
    not asked any more; or the client was made with no room for pages (a
    [maxQueuedBytes] of 0), so that it asks no source.  Errors are no
    exception: once one was reported nobody waits.  This holds in every state
    that the critical sections of the client, of the queue and of the sources
    can reach in any order. *)
Theorem exchange_no_deadlock s :
  systemReachable s → queue_ (client_queue (client s)) = [] → promises_ (client_queue (client s)) ≠ [] →
  requested s ++ map responder (responding s) ≠ [] ∨
  (sources_ (client s) ≡ₚ ended s ∧ noMoreSources_ (client_queue (client s)) = false) ∨
  closed_ (client s) = true ∨ maxQueuedBytes_ (client s) ≤ 0.
Proof.
  intros Hr Hq Hp. destruct (closed_ (client s)) eqn:Hc; [by right; right; left|].
  destruct (Z.le_gt_cases (maxQueuedBytes_ (client s)) 0) as [|Hmax]; [by right; right; right|].
  destruct (failed s) eqn:He; [by apply (errorOk_reachable s Hr) in He as [_ He]|].
  destruct (system_running s Hr Hc He) as [[P1 P2 P3 P4 P5 [Q1 Q2 Q3] P7] Hf].
  destruct (decide (requested s ++ map responder (responding s) = [])) as [Hnil|]; [right; left | by left].
  assert (producingSources_ (client s) ++ emptySources_ (client s) = []) as Hidle.
  { destruct (decide (producingSources_ (client s) ++ emptySources_ (client s) = [])) as [|Hne]; [done|].
    destruct (Hf ltac:(rewrite Q3, Hq; done) Hne Hnil). }
  apply app_eq_nil in Hnil as [Hr0 Hs0]. apply map_eq_nil in Hs0. rewrite Hr0, Hs0, Hidle in P1. cbn in P1. split; [done|].
  apply not_true_iff_false. intros Hno. apply Hp, Q2, Q1. split; [done|]. rewrite P4, P5, P1, Hs0. cbn. lia.
Qed.
End System.

(** ** Examples *)

(** One source is being asked again, one page of it has been taken, and the
    consumer waits for the next. *)
Definition afterAdd : ExchangeClient bool :=
  match addRemoteTaskId "task" 0 (newClient 100 (λ _, false)) with Ok (c, _, _) => c | _ => newClient 100 (λ _, false) end.
Definition afterNext (promise : nat) (c : ExchangeClient bool) : ExchangeClient bool :=
  match next 10 promise c with Ok (c, _, _, _) => c | _ => c end.
Definition afterArrive (c : ExchangeClient bool) : ExchangeClient bool :=
  c <| client_queue := deliver [mkPage 1 5 None] false (client_queue c) |> <| source_state := setState 0 false (source_state c) |>.
Definition exchangeExample : System (S := bool) :=
  mkSystem (onResponse 0 5 false (afterNext 8 (afterArrive (afterNext 7 afterAdd)))).1 [0%nat] [] [] [mkPage 1 5 None] [mkPage 1 5 None] false.

Lemma exchangeExample_reachable : systemReachable exchangeExample.
Proof.
  exists 100, (λ _, false).
  eapply rtc_l; [apply (sys_add "task" 0 _ afterAdd (mkRequest [0%nat] 1048576) []); [by apply not_elem_of_nil | done | by vm_compute]|].
  eapply rtc_l; [apply (sys_next 10 7 _ (afterNext 7 afterAdd) [] false noRequest); by vm_compute|].
  eapply rtc_l; [apply (sys_arrive 0 false [mkPage 1 5 None] 5 false _ [] []); done|].
  eapply rtc_l; [apply (sys_next 10 8 _ (afterNext 8 (afterArrive (afterNext 7 afterAdd))) [mkPage 1 5 None] false (mkRequest [] 5)); by vm_compute|].
  eapply rtc_l; [apply (sys_respond 0 5 false _ (onResponse 0 5 false (afterNext 8 (afterArrive (afterNext 7 afterAdd)))).1
    (mkRequest [0%nat] 5) _ [] [] []); by vm_compute|].
  apply rtc_refl.
Qed.

Lemma exchange_fifo_witness :
  taken exchangeExample ++ queue_ (client_queue (client exchangeExample)) = [mkPage 1 5 None].
Proof. apply (exchange_fifo exchangeExample exchangeExample_reachable); by vm_compute. Defined.

Lemma exchange_no_deadlock_witness :
  requested exchangeExample ++ map responder (responding exchangeExample) ≠ [] ∨
  (sources_ (client exchangeExample) ≡ₚ ended exchangeExample ∧
   noMoreSources_ (client_queue (client exchangeExample)) = false) ∨
  closed_ (client exchangeExample) = true ∨ maxQueuedBytes_ (client exchangeExample) ≤ 0.
Proof. apply (exchange_no_deadlock exchangeExample exchangeExample_reachable); by vm_compute. Defined.

(** ** Where the queue leaves its contract *)

(** [totalBytes] is documented as the bytes held, but clearing the queue does
    not reset it. *)
Theorem cleared_queue_keeps_bytes :
  let q := (enqueueLocked (Some (mkPage 1 5 None)) newQueue).1 in
  queue_ (setError "e" q).1 = [] ∧ totalBytes_ (setError "e" q).1 = 5 ∧
  queue_ (q_close q).1 = [] ∧ totalBytes_ (q_close q).1 = 5.
Proof. by vm_compute. Qed.

(** An error without a message is no error: the pages are dropped and the
    consumers see a regular end. *)
Theorem empty_error_truncates :
  let q := (enqueueLocked (Some (mkPage 1 5 None)) newQueue).1 in
  ∃ q', dequeueLocked 10 0 (setError "" q).1 = Ok ([], true, q').
Proof. eexists. by vm_compute. Qed.

(** A consumer that empties the queue leaves a promise behind although it does
    not wait: the next page resumes that promise, and a consumer that does wait
    (promise 1) is not woken. *)
Definition stalePromise : outcome (ExchangeQueue * list nat) :=
  '(_, _, q) ← dequeueLocked 10 1 newQueue;
  '(_, _, q) ← dequeueLocked 10 2 q;
  let '(q, resumed) := enqueueLocked (Some (mkPage 1 5 None)) q in
  velox_check (bool_decide (resumed = [2%nat])) ;;
  '(pages, _, q) ← dequeueLocked 10 3 q;
  velox_check (bool_decide (pages = [mkPage 1 5 None])) ;;
  Ok (enqueueLocked (Some (mkPage 2 5 None)) q).

Theorem stale_promise_resumed :
  ∃ q, stalePromise = Ok (q, [3%nat]) ∧ queue_ q = [mkPage 2 5 None] ∧ promises_ q = [1%nat].
Proof. eexists. split; [by vm_compute | done]. Qed.

(** A consumer that asks a closed client waits, and a client without room asks
    no source. *)
Theorem closed_client_waits :
  ∃ c, next 10 7 (close afterAdd).1.1 = Ok (c, [], false, noRequest) ∧ promises_ (client_queue c) = [7%nat] ∧ queue_ (client_queue c) = [].
Proof. eexists. split; [by vm_compute | done]. Qed.

Theorem no_room_asks_nobody :
  ∃ c, addRemoteTaskId "task" 0 (newClient 0 (λ _, false)) = Ok (c, noRequest, []) ∧ producingSources_ c = [0%nat] ∧
    ∃ c', next 10 7 c = Ok (c', [], false, noRequest) ∧ promises_ (client_queue c') = [7%nat].
Proof. eexists. split; [by vm_compute|]. split; [done|]. eexists. split; [by vm_compute | done]. Qed.
