(* ===== verification/MemoryPool.v ===== *)
(** * Memory pools

    Models the accounting of [velox/common/memory/MemoryPool.h] and
    [MemoryPool.cpp]: the tree of pools, reservations that are made at a leaf
    and propagated from the root down, their release, and the capacity of the
    root.  Threads meet in the critical sections of the pools' mutexes, so each
    section is one function on one pool, and an operation is the sequence of
    the sections it still has to enter. *)
From S2P Require Import Prelude.
Local Open Scope Z_scope.

(** ** Sizes *)
Definition kMaxMemory : Z := int64_max.
Definition kMB : Z := 1048576.

(** [bits::roundUp] on [uint64_t]. *)
Definition roundUp (value factor : Z) : Z := uwrap 64 (uwrap 64 (value + (factor - 1)) / factor * factor).

Definition quantizedSize (size : Z) : Z :=
  if size <? 16 * kMB then roundUp size kMB
  else if size <? 64 * kMB then roundUp size (4 * kMB)
  else roundUp size (8 * kMB).

Definition roundedDelta (size delta : Z) : outcome Z :=
  sum ← add64 size delta;
  Ok (swrap 64 (quantizedSize (uwrap 64 sum) - size)).

(** [63 - countLeadingZeros] of a number that is not zero is its binary
    logarithm. *)
Definition preferredSize (size : Z) : Z :=
  if size <? 8 then 8
  else
    let lower := Z.shiftl 1 (Z.log2 size) in
    if lower =? size then size
    else if uwrap 64 (lower + lower / 2) >=? size then uwrap 64 (lower + lower / 2)
    else uwrap 64 (lower * 2).

(** ** One pool *)
Inductive Kind := kLeaf | kAggregate.
#[global] Instance kind_eq_dec : EqDecision Kind.
Proof. solve_decision. Defined.

(** Pools are known by the number they are created with. *)
Record MemoryPoolImpl := mkPool {
  name_ : string;
  kind_ : Kind;
  alignment_ : Z;
  parent_ : option nat;
  maxCapacity_ : Z;
  trackUsage_ : bool;
  threadSafe_ : bool;
  reclaimer_ : bool;
  aborted_ : bool;
  abortError_ : option exn;
  children_ : gmap string nat;
  capacity_ : Z;
  reservationBytes_ : Z;
  usedReservationBytes_ : Z;
  minReservationBytes_ : Z;
  peakBytes_ : Z;
  cumulativeBytes_ : Z;
  numAllocs_ : Z;
  numFrees_ : Z;
  numReserves_ : Z;
  numReleases_ : Z;
  numCollisions_ : Z
}.

#[global] Instance pool_copy : Copyable MemoryPoolImpl := λ p,
  mkPool (name_ p) (kind_ p) (alignment_ p) (parent_ p) (maxCapacity_ p) (trackUsage_ p) (threadSafe_ p) (reclaimer_ p)
    (aborted_ p) (abortError_ p) (children_ p) (capacity_ p) (reservationBytes_ p) (usedReservationBytes_ p)
    (minReservationBytes_ p) (peakBytes_ p) (cumulativeBytes_ p) (numAllocs_ p) (numFrees_ p) (numReserves_ p)
    (numReleases_ p) (numCollisions_ p).

Definition isLeaf (p : MemoryPoolImpl) : bool := bool_decide (kind_ p = kLeaf).
Definition isRoot (p : MemoryPoolImpl) : bool := bool_decide (parent_ p = None).

Definition currentBytesLocked (p : MemoryPoolImpl) : Z :=
  if isLeaf p then usedReservationBytes_ p else reservationBytes_ p.

Definition availableReservationLocked (p : MemoryPoolImpl) : outcome Z :=
  if negb (isLeaf p) then Ok 0
  else d ← sub64 (reservationBytes_ p) (usedReservationBytes_ p); Ok (Z.max 0 d).

Definition sizeAlign (p : MemoryPoolImpl) (size : Z) : outcome Z :=
  let remainder := Z.rem size (alignment_ p) in
  if remainder =? 0 then Ok size else s ← add64 size (alignment_ p); sub64 s remainder.

Definition sanityCheckLocked (p : MemoryPoolImpl) : outcome unit :=
  velox_check (negb ((reservationBytes_ p <? usedReservationBytes_ p) || (reservationBytes_ p <? minReservationBytes_ p)
    || (usedReservationBytes_ p <? 0))).

Definition reservationSizeLocked (p : MemoryPoolImpl) (size : Z) : outcome Z :=
  unused ← sub64 (reservationBytes_ p) (usedReservationBytes_ p);
  neededSize ← sub64 size unused;
  if neededSize <=? 0 then Ok 0 else roundedDelta (reservationBytes_ p) neededSize.

Definition maybeUpdatePeakBytesLocked (newPeak : Z) (p : MemoryPoolImpl) : MemoryPoolImpl :=
  p <| peakBytes_ := Z.max (peakBytes_ p) newPeak |>.

(** The critical section of [reserveThreadSafe]; [reserveNonThreadSafe] runs the
    same code without the mutex.  It uses the reservation when that suffices,
    and otherwise returns what is missing. *)
Definition reserveLocked (size : Z) (reserveOnly : bool) (p : MemoryPoolImpl) : outcome (Z * MemoryPoolImpl) :=
  increment ← reservationSizeLocked p (swrap 64 size);
  if increment =? 0 then
    let p' :=
      if reserveOnly then p <| minReservationBytes_ := reservationBytes_ p |>
      else
        let used := swrap 64 (usedReservationBytes_ p + size) in
        maybeUpdatePeakBytesLocked used
          (p <| usedReservationBytes_ := used |> <| cumulativeBytes_ := swrap 64 (cumulativeBytes_ p + size) |>) in
    sanityCheckLocked p' ;; Ok (0, p')
  else Ok (increment, p).

Definition checkIfAborted (p : MemoryPoolImpl) : outcome unit :=
  if aborted_ p then match abortError_ p with Some e => Throw e | None => Throw VeloxCheckFailed end else Ok tt.

(** [underArbitration] is the state of the calling thread. *)
Definition maybeIncrementReservation (underArbitration : bool) (size : Z) (p : MemoryPoolImpl) : outcome (bool * MemoryPoolImpl) :=
  (if isRoot p then checkIfAborted p else Ok tt) ;;
  if isRoot p && (uwrap 64 (reservationBytes_ p + size) >? uwrap 64 (capacity_ p)) && negb underArbitration then Ok (false, p)
  else
    let reservation := swrap 64 (reservationBytes_ p + size) in
    let p1 := p <| reservationBytes_ := reservation |> in
    Ok (true,
      if isLeaf p then p1
      else maybeUpdatePeakBytesLocked reservation (p1 <| cumulativeBytes_ := swrap 64 (cumulativeBytes_ p + size) |>)).

(** The critical section of [releaseThreadSafe]; [releaseNonThreadSafe] makes the
    sanity check only when something is freed. *)
Definition releaseLocked (size : Z) (releaseOnly : bool) (p : MemoryPoolImpl) : outcome (Z * MemoryPoolImpl) :=
  if releaseOnly && (minReservationBytes_ p =? 0) then velox_check (size =? 0) ;; Ok (0, p)
  else
    (if releaseOnly then velox_check (size =? 0) else Ok tt) ;;
    let p1 :=
      if releaseOnly then p <| minReservationBytes_ := 0 |>
      else p <| usedReservationBytes_ := swrap 64 (usedReservationBytes_ p - size) |> in
    let newCap :=
      if releaseOnly then usedReservationBytes_ p else Z.max (minReservationBytes_ p) (usedReservationBytes_ p1) in
    let newQuantized := swrap 64 (quantizedSize (uwrap 64 newCap)) in
    freeable ← sub64 (reservationBytes_ p) newQuantized;
    let p2 := if freeable >? 0 then p1 <| reservationBytes_ := newQuantized |> else p1 in
    (if threadSafe_ p || (freeable >? 0) then sanityCheckLocked p2 else Ok tt) ;;
    Ok (freeable, p2).

(** The critical section of [decrementReservation]. *)
Definition decrementLocked (size : Z) (p : MemoryPoolImpl) : outcome MemoryPoolImpl :=
  velox_check (size >? 0) ;;
  let p' := p <| reservationBytes_ := swrap 64 (reservationBytes_ p - size) |> in
  sanityCheckLocked p' ;; Ok p'.

(** ** The tree of pools *)
Notation store := (gmap nat MemoryPoolImpl).

Definition getPool (pools : store) (id : nat) : outcome MemoryPoolImpl :=
  match pools !! id with Some p => Ok p | None => Undefined end.

(** The pools from the root down to [id], in the order in which the recursion
    over [parent_] returns. *)
Fixpoint ancestors (fuel : nat) (pools : store) (id : nat) : list nat :=
  match fuel with
  | O => []
  | S fuel' =>
      match pools !! id with
      | None => []
      | Some p => match parent_ p with None => [id] | Some q => ancestors fuel' pools q ++ [id] end
      end
  end.

(** A parent is created before its children. *)
Definition pathTo (pools : store) (id : nat) : list nat := ancestors (S id) pools id.

Definition rootOf (pools : store) (id : nat) : outcome nat :=
  match pathTo pools id with r :: _ => Ok r | [] => Undefined end.

Definition atRoot {A} (f : MemoryPoolImpl → outcome A) (pools : store) (id : nat) : outcome A :=
  r ← rootOf pools id; p ← getPool pools r; f p.

(** Changes the root of the tree of [id]. *)
Definition updateRoot {A} (f : MemoryPoolImpl → outcome (A * MemoryPoolImpl)) (pools : store) (id : nat) : outcome (A * store) :=
  r ← rootOf pools id;
  p ← getPool pools r;
  '(a, p') ← f p;
  Ok (a, <[r := p']> pools).

Definition capacity : store → nat → outcome Z := atRoot (λ p, Ok (capacity_ p)).
Definition aborted : store → nat → outcome bool := atRoot (λ p, Ok (aborted_ p)).
Definition freeBytes : store → nat → outcome Z :=
  atRoot (λ p, if capacity_ p =? kMaxMemory then Ok 0
               else velox_check (capacity_ p >=? reservationBytes_ p) ;; sub64 (capacity_ p) (reservationBytes_ p)).

(** [capacity_ - reservationBytes_] is converted to [uint64_t] before it is
    compared with zero. *)
Definition shrinkRoot (targetBytes : Z) (p : MemoryPoolImpl) : outcome (Z * MemoryPoolImpl) :=
  velox_check (negb (capacity_ p =? kMaxMemory)) ;;
  d ← sub64 (capacity_ p) (reservationBytes_ p);
  let free := Z.max 0 (uwrap 64 d) in
  let freeBytes := if negb (targetBytes =? 0) then Z.min targetBytes free else free in
  Ok (freeBytes, p <| capacity_ := swrap 64 (capacity_ p - freeBytes) |>).
Definition shrink (targetBytes : Z) : store → nat → outcome (Z * store) := updateRoot (shrinkRoot targetBytes).

Definition growRoot (bytes : Z) (p : MemoryPoolImpl) : outcome (Z * MemoryPoolImpl) :=
  velox_check (negb (capacity_ p =? kMaxMemory)) ;;
  velox_check (uwrap 64 (capacity_ p + bytes) <=? uwrap 64 (maxCapacity_ p)) ;;
  let c := swrap 64 (capacity_ p + bytes) in
  velox_check (uwrap 64 c >=? bytes) ;;
  Ok (uwrap 64 c, p <| capacity_ := c |>).
Definition grow (bytes : Z) : store → nat → outcome (Z * store) := updateRoot (growRoot bytes).

(** [abort] up to the call of the reclaimer, which is code of the query. *)
Definition abortRoot (error : exn) (p : MemoryPoolImpl) : outcome (unit * MemoryPoolImpl) :=
  if negb (reclaimer_ p) then Throw (RuntimeError "Can't abort the memory pool without reclaimer")
  else velox_check (negb (aborted_ p)) ;; Ok (tt, p <| abortError_ := Some error |> <| aborted_ := true |>).
Definition abort (error : exn) : store → nat → outcome (unit * store) := updateRoot (abortRoot error).

Definition setReclaimer (pools : store) (id : nat) : outcome store :=
  p ← getPool pools id;
  match parent_ p with
  | Some q => parent ← getPool pools q; velox_check (reclaimer_ parent)
  | None => Ok tt
  end ;;
  velox_check (negb (reclaimer_ p)) ;;
  Ok (<[id := p <| reclaimer_ := true |>]> pools).

(** ** Creation and destruction *)
Definition kMinAlignment : Z := 16.
Definition kMaxAlignment : Z := 64.

Definition isAlignmentValid (allocateBytes alignmentBytes : Z) : bool :=
  (alignmentBytes =? kMinAlignment)
  || ((alignmentBytes >=? kMinAlignment) && (alignmentBytes <=? kMaxAlignment) && (allocateBytes mod alignmentBytes =? 0)
      && (Z.land alignmentBytes (alignmentBytes - 1) =? 0)).

(** The constructors of [MemoryPool] and [MemoryPoolImpl]; [parent] is the pool
    that [parent_] points to. *)
Definition newPool (name : string) (kind : Kind) (parent : option (nat * MemoryPoolImpl)) (maxCapacity alignment : Z)
    (trackUsage threadSafe reclaimer : bool) : outcome MemoryPoolImpl :=
  let maxCapacity := match parent with None => maxCapacity | Some _ => kMaxMemory end in
  velox_check (negb (bool_decide (parent = None) && bool_decide (kind = kLeaf))) ;;
  velox_check (maxCapacity >? 0) ;;
  velox_check (isAlignmentValid 0 alignment) ;;
  velox_check (threadSafe || bool_decide (kind = kLeaf)) ;;
  velox_check (match parent with None => true | Some (_, q) => reclaimer_ q || negb reclaimer end) ;;
  Ok (mkPool name kind alignment (fst <$> parent) maxCapacity trackUsage threadSafe reclaimer false None ∅
        (match parent with None => 0 | Some _ => kMaxMemory end) 0 0 0 0 0 0 0 0 0 0).

(** [addLeafChild] and [addAggregateChild]; [id] is the new pool. *)
Definition addChild (pools : store) (parent id : nat) (name : string) (kind : Kind) (threadSafe reclaimer : bool) : outcome store :=
  p ← getPool pools parent;
  if isLeaf p then Throw (RuntimeError "operation is only allowed on aggregation memory pool")
  else
    velox_check (bool_decide (children_ p !! name = None)) ;;
    child ← newPool name kind (Some (parent, p)) kMaxMemory (alignment_ p) (trackUsage_ p)
              (match kind with kLeaf => threadSafe | kAggregate => true end) reclaimer;
    Ok (<[id := child]> (<[parent := p <| children_ := <[name := id]> (children_ p) |>]> pools)).

Definition dropChild (name : string) (p : MemoryPoolImpl) : outcome MemoryPoolImpl :=
  if isLeaf p then Throw (RuntimeError "operation is only allowed on aggregation memory pool")
  else velox_check (bool_decide (is_Some (children_ p !! name))) ;; Ok (p <| children_ := delete name (children_ p) |>).

(** The destructors, with the checks of a debug build: a release build does not
    check that nothing is reserved any more, and logs a leak of a leaf.  What
    a leaked leaf had reserved would stay counted in the pools above it. *)
Definition destroyPool (pools : store) (id : nat) : outcome store :=
  p ← getPool pools id;
  pools' ← match parent_ p with
           | None => Ok pools
           | Some q => parent ← getPool pools q; parent' ← dropChild (name_ p) parent; Ok (<[q := parent']> pools)
           end;
  velox_check ((usedReservationBytes_ p =? 0) && (reservationBytes_ p =? 0) && (minReservationBytes_ p =? 0)) ;;
  velox_check (bool_decide (children_ p = ∅)) ;;
  Ok (delete id pools').

(** ** Operations in progress

    What a thread inside [reserve] or [release] does next.  Between two
    sections it holds no mutex, and any other thread may run. *)
Inductive op :=
| Reserving (leaf : nat) (size : Z) (reserveOnly : bool) (numAttempts : Z)
    (* about to enter the loop of [reserveThreadSafe] *)
| Incrementing (leaf : nat) (size : Z) (reserveOnly : bool) (numAttempts increment : Z) (done : list nat) (next : nat)
    (rest : list nat)
    (* [incrementReservationThreadSafe] has passed the pools [done] *)
| Growing (leaf : nat) (size : Z) (reserveOnly : bool) (numAttempts increment : Z)
    (* in [growCapacityCb_] *)
| Regrown (leaf : nat) (size : Z) (reserveOnly : bool) (numAttempts increment : Z)
    (* the callback has returned true *)
| Releasing (leaf : nat) (size : Z) (releaseOnly : bool) (error : option exn)
    (* about to enter [releaseThreadSafe]; then [error] is rethrown *)
| Decrementing (leaf : nat) (amount : Z) (next : nat) (rest : list nat) (error : option exn)
    (* [decrementReservation] still has to visit [next :: rest] *)
| Finished (error : option exn).

Definition leafOf (o : op) : option nat :=
  match o with
  | Reserving l _ _ _ | Incrementing l _ _ _ _ _ _ _ | Growing l _ _ _ _ | Regrown l _ _ _ _ | Releasing l _ _ _
  | Decrementing l _ _ _ _ => Some l
  | Finished _ => None
  end.

(** A thread-safe leaf gives back what it does not use before it rethrows. *)
Definition failed (leaf : nat) (p : MemoryPoolImpl) (e : exn) : op :=
  if threadSafe_ p then Releasing leaf 0 false (Some e) else Finished (Some e).

Definition addCollisions (numAttempts : Z) (p : MemoryPoolImpl) : MemoryPoolImpl :=
  if numAttempts >? 1 then p <| numCollisions_ := uwrap 64 (numCollisions_ p + (numAttempts - 1)) |> else p.

(** The checks that [incrementReservationThreadSafe] makes on its way up. *)
Definition checkedPath (pools : store) (leaf : nat) (p : MemoryPoolImpl) (increment : Z) : outcome (list nat) :=
  let path := pathTo pools leaf in
  let safe id := match pools !! id with Some q => threadSafe_ q | None => false end in
  velox_check (forallb (λ id, safe id || (bool_decide (id = leaf) && negb (threadSafe_ p))) path) ;;
  velox_check (increment >? 0) ;;
  Ok path.

(** What follows when [id] has taken the increment: the pool below it, or a
    second look at the leaf. *)
Definition descend (leaf : nat) (size : Z) (reserveOnly : bool) (numAttempts increment : Z) (done rest : list nat) : op :=
  match rest with
  | [] => Reserving leaf size reserveOnly (numAttempts + 1)
  | next :: rest' => Incrementing leaf size reserveOnly numAttempts increment done next rest'
  end.

Definition stepReserve (pools : store) (leaf : nat) (size : Z) (reserveOnly : bool) (numAttempts : Z) : outcome (store * op) :=
  p ← getPool pools leaf;
  velox_check (isLeaf p) ;;
  '(increment, p') ← reserveLocked size reserveOnly p;
  if increment =? 0 then Ok (<[leaf := addCollisions numAttempts p']> pools, Finished None)
  else
    path ← checkedPath pools leaf p increment;
    match path with
    | [] => Undefined
    | next :: rest => Ok (pools, Incrementing leaf size reserveOnly numAttempts (uwrap 64 increment) [] next rest)
    end.

(** [maybeIncrementReservation] on [id]; only a root refuses, and [refused] says
    what follows then. *)
Definition stepIncrement (underArbitration : bool) (pools : store) (leaf id : nat) (increment : Z) (taken refused : op)
    : outcome (store * op) :=
  l ← getPool pools leaf;
  p ← getPool pools id;
  match maybeIncrementReservation underArbitration increment p with
  | Ok (true, p') => Ok (<[id := p']> pools, taken)
  | Ok (false, _) => velox_check (isRoot p) ;; Ok (pools, refused)
  | Throw e => Ok (pools, failed leaf l e)
  | Undefined => Undefined
  end.

Definition stepRelease (pools : store) (leaf : nat) (size : Z) (releaseOnly : bool) (error : option exn) : outcome (store * op) :=
  p ← getPool pools leaf;
  velox_check (isLeaf p) ;;
  match parent_ p with
  | None => Throw VeloxCheckFailed
  | Some parent =>
      '(freeable, p') ← releaseLocked size releaseOnly p;
      Ok (<[leaf := p']> pools,
        if freeable >? 0 then
          match pathTo pools parent with next :: rest => Decrementing leaf freeable next rest error | [] => Finished error end
        else Finished error)
  end.

Definition stepDecrement (pools : store) (leaf : nat) (amount : Z) (next : nat) (rest : list nat) (error : option exn)
    : outcome (store * op) :=
  p ← getPool pools next;
  p' ← decrementLocked amount p;
  Ok (<[next := p']> pools,
    match rest with [] => Finished error | next' :: rest' => Decrementing leaf amount next' rest' error end).

(** One section; [grew] is the answer of the callback. *)
Definition opStep (underArbitration grew : bool) (pools : store) (o : op) : outcome (store * op) :=
  match o with
  | Reserving leaf size only n => stepReserve pools leaf size only n
  | Incrementing leaf size only n inc done next rest =>
      stepIncrement underArbitration pools leaf next inc (descend leaf size only n inc (done ++ [next]) rest)
        (Growing leaf size only n inc)
  | Growing leaf size only n inc =>
      p ← getPool pools leaf;
      Ok (pools, if grew then Regrown leaf size only n inc else failed leaf p MemoryCapExceeded)
  | Regrown leaf size only n inc =>
      match pathTo pools leaf with
      | [] => Undefined
      | root :: rest =>
          stepIncrement underArbitration pools leaf root inc (descend leaf size only n inc [root] rest)
            (Reserving leaf size only (n + 1))
      end
  | Releasing leaf size only e => stepRelease pools leaf size only e
  | Decrementing leaf amount next rest e => stepDecrement pools leaf amount next rest e
  | Finished _ => Ok (pools, o)
  end.

(** ** Whole operations

    The operations of a thread that no other thread interferes with.
    [growCapacityCb] is the callback of the memory manager, which may change
    the pools; the allocator is asked by [allocateBytes]. *)
Section Calls.
Variable growCapacityCb : store → nat → Z → bool * store.

Fixpoint runOp (fuel : nat) (pools : store) (o : op) : outcome (store * option exn) :=
  match o with
  | Finished e => Ok (pools, e)
  | _ =>
      match fuel with
      | O => Throw OutOfFuel
      | S fuel' =>
          let '(grew, pools') := match o with Growing leaf _ _ _ inc => growCapacityCb pools leaf inc | _ => (false, pools) end in
          '(pools'', o') ← opStep false grew pools' o;
          runOp fuel' pools'' o'
      end
  end.

(** Two rounds of the loop with a way down and a way back. *)
Definition callFuel (pools : store) (leaf : nat) : nat := 2 * length (pathTo pools leaf) + 8.

Definition reserve (pools : store) (leaf : nat) (size : Z) (reserveOnly : bool) : outcome (store * option exn) :=
  p ← getPool pools leaf;
  if trackUsage_ p then runOp (callFuel pools leaf) pools (Reserving leaf size reserveOnly 0) else Ok (pools, None).

Definition releaseBytes (pools : store) (leaf : nat) (size : Z) (releaseOnly : bool) : outcome store :=
  p ← getPool pools leaf;
  if trackUsage_ p then '(pools', _) ← runOp (callFuel pools leaf) pools (Releasing leaf size releaseOnly None); Ok pools'
  else Ok pools.

Definition memOp (count : MemoryPoolImpl → MemoryPoolImpl) (pools : store) (leaf : nat) : outcome store :=
  p ← getPool pools leaf;
  if negb (isLeaf p) then Throw (RuntimeError "Memory operation is only allowed on leaf memory pool")
  else Ok (<[leaf := count p]> pools).

Definition incAllocs (p : MemoryPoolImpl) : MemoryPoolImpl := p <| numAllocs_ := uwrap 64 (numAllocs_ p + 1) |>.
Definition incFrees (p : MemoryPoolImpl) : MemoryPoolImpl := p <| numFrees_ := uwrap 64 (numFrees_ p + 1) |>.
Definition incReserves (p : MemoryPoolImpl) : MemoryPoolImpl := p <| numReserves_ := uwrap 64 (numReserves_ p + 1) |>.
Definition incReleases (p : MemoryPoolImpl) : MemoryPoolImpl := p <| numReleases_ := uwrap 64 (numReleases_ p + 1) |>.

(** The common part of [allocate], [allocateZeroFilled] and [reallocate]:
    reserve, ask the allocator, and give the reservation back when it fails. *)
Definition allocateAligned (pools : store) (leaf : nat) (alignedSize : Z) (allocated : bool) : outcome (store * option exn) :=
  '(pools1, e) ← reserve pools leaf (uwrap 64 alignedSize) false;
  match e with
  | Some _ => Ok (pools1, e)
  | None =>
      if allocated then Ok (pools1, None)
      else pools2 ← releaseBytes pools1 leaf (uwrap 64 alignedSize) false; Ok (pools2, Some MemoryAllocError)
  end.

Definition allocate (pools : store) (leaf : nat) (size : Z) (allocated : bool) : outcome (store * option exn) :=
  pools1 ← memOp incAllocs pools leaf;
  p ← getPool pools1 leaf;
  alignedSize ← sizeAlign p size;
  allocateAligned pools1 leaf alignedSize allocated.

Definition allocateZeroFilled (pools : store) (leaf : nat) (numEntries sizeEach : Z) (allocated : bool)
    : outcome (store * option exn) :=
  pools1 ← memOp incAllocs pools leaf;
  p ← getPool pools1 leaf;
  size ← checked64 (sizeEach * numEntries);
  alignedSize ← sizeAlign p size;
  allocateAligned pools1 leaf alignedSize allocated.

Definition free (pools : store) (leaf : nat) (size : Z) : outcome store :=
  pools1 ← memOp incFrees pools leaf;
  p ← getPool pools1 leaf;
  alignedSize ← sizeAlign p size;
  releaseBytes pools1 leaf (uwrap 64 alignedSize) false.

(** [old] tells whether the pointer is not null. *)
Definition reallocate (pools : store) (leaf : nat) (old : bool) (size newSize : Z) (allocated : bool)
    : outcome (store * option exn) :=
  pools1 ← memOp incAllocs pools leaf;
  p ← getPool pools1 leaf;
  alignedNewSize ← sizeAlign p newSize;
  '(pools2, e) ← allocateAligned pools1 leaf alignedNewSize allocated;
  match e with
  | Some _ => Ok (pools2, e)
  | None => if old then pools3 ← free pools2 leaf size; Ok (pools3, None) else Ok (pools2, None)
  end.

Definition kGrowthQuantum : Z := 8388608.

(** An exception makes [maybeReserve] answer false, unless the pool has been
    aborted. *)
Definition maybeReserve (pools : store) (leaf : nat) (increment : Z) : outcome (store * (bool + exn)) :=
  pools1 ← memOp incReserves pools leaf;
  '(pools2, e) ← reserve pools1 leaf (roundUp increment kGrowthQuantum) true;
  match e with
  | None => Ok (pools2, inl true)
  | Some e => b ← aborted pools2 leaf; Ok (pools2, if b : bool then inr e else inl false)
  end.

Definition release (pools : store) (leaf : nat) : outcome store :=
  pools1 ← memOp incReleases pools leaf;
  releaseBytes pools1 leaf 0 true.
End Calls.

(** ** All threads together *)
Record system := mkSystem { pools : store; nextId : nat; ops : gmap nat op }.
