(* ===== verification/MemoryPoolState.v ===== *)
(** * The state of the memory pools

    Sums over pools and operations, the sections of the mutexes and the paths
    of the tree: what the invariant of [MemoryPoolReach] is built from. *)
From S2P Require Import Prelude MemoryPool.
Local Open Scope Z_scope.

(** ** Sizes *)

(** The bytes reserved below one root are assumed to stay under two exbibytes,
    and so is the size of a request. *)
Definition limit : Z := 2 ^ 61.
Definition incrementLimit : Z := 2 ^ 62 + 8 * kMB.

Lemma roundUp_spec x f : 0 ≤ x < 2 ^ 63 → 0 < f ≤ 8 * kMB → x ≤ roundUp x f < x + f ∧ (roundUp x f) mod f = 0.
Proof.
  unfold kMB. intros Hx Hf. unfold roundUp, uwrap. rewrite (Z.mod_small (x + (f - 1))) by lia.
  pose proof (Z.div_mod (x + (f - 1)) f ltac:(lia)) as E. pose proof (Z.mod_pos_bound (x + (f - 1)) f ltac:(lia)) as B.
  rewrite Z.mod_small by nia. split; [nia|]. by apply Z.mod_mul; lia.
Qed.

Lemma quantizedSize_spec x : 0 ≤ x < 2 ^ 63 → x ≤ quantizedSize x < x + 8 * kMB.
Proof.
  intros Hx. unfold quantizedSize. pose proof (λ f, roundUp_spec x f Hx) as H.
  destruct (x <? _); [|destruct (x <? _)]; [pose proof (H kMB) | pose proof (H (4 * kMB)) | pose proof (H (8 * kMB))]; unfold kMB in *; lia.
Qed.

Lemma quantizedSize_0 : quantizedSize 0 = 0.
Proof. done. Qed.

(** ** The sections of one pool *)
Record counters_ok (p : MemoryPoolImpl) : Prop := mkCounters {
  used_range : 0 ≤ usedReservationBytes_ p ≤ reservationBytes_ p;
  min_range : 0 ≤ minReservationBytes_ p ≤ reservationBytes_ p;
  reserved_limit : reservationBytes_ p < limit
}.

(** What no section changes. *)
Definition static (p : MemoryPoolImpl) :=
  (name_ p, kind_ p, parent_ p, (threadSafe_ p, trackUsage_ p, children_ p), (maxCapacity_ p, capacity_ p), alignment_ p).

Lemma small64 z : 0 ≤ z < 2 ^ 63 → swrap 64 z = z ∧ uwrap 64 z = z.
Proof. intros H. split; [apply swrap_small; lia | unfold uwrap; apply Z.mod_small; lia]. Qed.

Lemma sanityCheck_ok p : counters_ok p → sanityCheckLocked p = Ok tt.
Proof. intros [H1 H2 _]. unfold sanityCheckLocked. replace (_ || _) with false; [done|]. symmetry. blia. Qed.

Lemma reservationSize_spec p size :
  counters_ok p → 0 ≤ size < limit →
  (usedReservationBytes_ p + size ≤ reservationBytes_ p ∧ reservationSizeLocked p size = Ok 0) ∨
  (reservationBytes_ p < usedReservationBytes_ p + size ∧ ∃ inc, reservationSizeLocked p size = Ok inc ∧ 0 < inc < incrementLimit ∧
     inc = quantizedSize (usedReservationBytes_ p + size) - reservationBytes_ p).
Proof.
  intros [Hu Hm Hl] Hs. unfold limit in *. unfold reservationSizeLocked, sub64.
  rewrite !checked64_Ok by (unfold_ints; lia). cbn [mbind outcome_bind]. rewrite checked64_Ok by (unfold_ints; lia).
  cbn [mbind outcome_bind]. destruct (Z.leb_spec (size - (reservationBytes_ p - usedReservationBytes_ p)) 0); [left; split; [lia | done]|].
  right. split; [lia|]. unfold roundedDelta, add64. rewrite checked64_Ok by (unfold_ints; lia). cbn [mbind outcome_bind].
  replace (reservationBytes_ p + (size - (reservationBytes_ p - usedReservationBytes_ p))) with (usedReservationBytes_ p + size) by lia.
  destruct (small64 (usedReservationBytes_ p + size)) as [_ ->]; [lia|].
  pose proof (quantizedSize_spec (usedReservationBytes_ p + size) ltac:(lia)) as Hq. unfold incrementLimit, kMB in *.
  destruct (small64 (quantizedSize (usedReservationBytes_ p + size) - reservationBytes_ p)) as [-> _]; [lia|].
  eexists. split; [done|]. split; [lia | done].
Qed.

(** Either the reservation suffices and is used, or an increment is needed that
    makes it suffice. *)
Lemma reserveLocked_spec size only p :
  counters_ok p → 0 ≤ size < limit →
  (∃ p', reserveLocked size only p = Ok (0, p') ∧ usedReservationBytes_ p + size ≤ reservationBytes_ p ∧ static p' = static p ∧
     reservationBytes_ p' = reservationBytes_ p ∧ counters_ok p' ∧
     usedReservationBytes_ p' = usedReservationBytes_ p + (if only then 0 else size) ∧
     minReservationBytes_ p' = (if only then reservationBytes_ p else minReservationBytes_ p)) ∨
  (∃ inc, reserveLocked size only p = Ok (inc, p) ∧ 0 < size ∧ 0 < inc < incrementLimit ∧
     inc = quantizedSize (usedReservationBytes_ p + size) - reservationBytes_ p).
Proof.
  intros Hc Hs. pose proof Hc as [Hu Hm Hl]. unfold reserveLocked, limit in *. destruct (small64 size) as [-> _]; [lia|].
  destruct (reservationSize_spec p size Hc Hs) as [(Hfit & ->) | (Hno & inc & -> & Hinc & Einc)]; cbn [mbind outcome_bind].
  - left. destruct (small64 (usedReservationBytes_ p + size)) as [-> _]; [lia|]. eexists.
    assert (counters_ok (if only then p <| minReservationBytes_ := reservationBytes_ p |> else
      maybeUpdatePeakBytesLocked (usedReservationBytes_ p + size) (p <| usedReservationBytes_ := usedReservationBytes_ p + size |>
        <| cumulativeBytes_ := swrap 64 (cumulativeBytes_ p + size) |>))) as Hok by (destruct only; constructor; cbn; unfold limit; lia).
    cbn [Z.eqb]. rewrite sanityCheck_ok by done. split; [done|]. destruct only; cbn; repeat split; try done; try lia; apply Hok.
  - right. exists inc. destruct (Z.eqb_spec inc 0); [lia|]. repeat split; try done; lia.
Qed.

(** A release lowers the use by [size] and the reservation to what is kept. *)
Lemma releaseLocked_spec size (only : bool) p :
  counters_ok p → (if only then size = 0 else 0 ≤ size ≤ usedReservationBytes_ p : Prop) →
  ∃ freeable p', releaseLocked size only p = Ok (freeable, p') ∧ static p' = static p ∧ counters_ok p' ∧
    usedReservationBytes_ p' = usedReservationBytes_ p - size ∧
    reservationBytes_ p' = reservationBytes_ p - Z.max 0 freeable ∧
    (minReservationBytes_ p' = if only then 0 else minReservationBytes_ p) ∧
    (only = true ∧ minReservationBytes_ p = 0 ∧ p' = p ∧ freeable = 0 ∨
     freeable = reservationBytes_ p - quantizedSize (Z.max (minReservationBytes_ p') (usedReservationBytes_ p'))).
Proof.
  intros Hc Hs. pose proof Hc as [Hu Hm Hl]. unfold releaseLocked, limit in *.
  destruct (only && (minReservationBytes_ p =? 0)) eqn:Eearly.
  - apply andb_true_iff in Eearly as [-> E%Z.eqb_eq]. subst size. exists 0, p. rewrite Z.sub_0_r. repeat split; try done; try lia. by left.
  - set (p1 := if only then p <| minReservationBytes_ := 0 |> else p <| usedReservationBytes_ := _ |>).
    set (newCap := if only then usedReservationBytes_ p else Z.max _ _).
    assert (usedReservationBytes_ p1 = usedReservationBytes_ p - size ∧ minReservationBytes_ p1 = (if only then 0 else minReservationBytes_ p) ∧
      reservationBytes_ p1 = reservationBytes_ p ∧ static p1 = static p ∧
      newCap = Z.max (minReservationBytes_ p1) (usedReservationBytes_ p1)) as (E1 & E2 & E3 & E4 & E5).
    { unfold p1, newCap, p1. destruct only; cbn; [subst size; repeat split; lia|].
      destruct (small64 (usedReservationBytes_ p - size)) as [-> _]; [lia|]. done. }
    assert ((if only then velox_check (size =? 0) else Ok ()) = Ok tt) as -> by (destruct only; [subst|]; done).
    cbn [mbind outcome_bind]. clearbody p1 newCap. assert (0 ≤ newCap ≤ reservationBytes_ p) as Hcap by (rewrite E5, E1, E2; destruct only; lia).
    destruct (small64 newCap) as [_ ->]; [lia|]. pose proof (quantizedSize_spec newCap ltac:(lia)) as Hq. unfold kMB in Hq.
    destruct (small64 (quantizedSize newCap)) as [-> _]; [lia|]. unfold sub64. rewrite checked64_Ok by (unfold_ints; lia).
    cbn [mbind outcome_bind]. set (fr := reservationBytes_ p - quantizedSize newCap). set (p2 := if fr >? 0 then p1 <| reservationBytes_ := _ |> else p1).
    assert (static p2 = static p ∧ usedReservationBytes_ p2 = usedReservationBytes_ p1 ∧ minReservationBytes_ p2 = minReservationBytes_ p1 ∧
      reservationBytes_ p2 = reservationBytes_ p - Z.max 0 fr) as (F1 & F2 & F3 & F4).
    { unfold p2. destruct (Z.gtb_spec fr 0); cbn; repeat split; try done; try lia. }
    assert (counters_ok p2) as Hok by (constructor; unfold limit; rewrite ?F2, ?F3, ?F4, ?E1, ?E2; unfold fr; destruct only; lia).
    exists fr, p2. rewrite (sanityCheck_ok p2 Hok). destruct (_ || _); cbn; (split; [done|]); rewrite F2, F3, F4, <- E1, <- E2, <- E5;
      repeat split; try done; try apply Hok; by right.
Qed.

Lemma decrementLocked_spec size p :
  counters_ok p → 0 < size ≤ reservationBytes_ p → usedReservationBytes_ p = 0 → minReservationBytes_ p = 0 →
  ∃ p', decrementLocked size p = Ok p' ∧ static p' = static p ∧ counters_ok p' ∧ reservationBytes_ p' = reservationBytes_ p - size ∧
    usedReservationBytes_ p' = 0 ∧ minReservationBytes_ p' = 0.
Proof.
  intros [Hu Hm Hl] Hs U M. unfold limit in *. unfold decrementLocked. destruct (Z.gtb_spec size 0); [|lia]. cbn [velox_check mbind outcome_bind].
  destruct (small64 (reservationBytes_ p - size)) as [-> _]; [lia|].
  assert (counters_ok (p <| reservationBytes_ := reservationBytes_ p - size |>)) as Hok by (constructor; cbn; unfold limit; lia).
  rewrite sanityCheck_ok by done. eexists. repeat split; try done; apply Hok.
Qed.

(** ** Paths in the tree *)

(** A parent exists, is older than its children and aggregates them. *)
Definition tree_ok (pools : store) : Prop :=
  ∀ id p, pools !! id = Some p →
    match parent_ p with
    | None => kind_ p = kAggregate
    | Some q => (q < id)%nat ∧ ∃ pq, pools !! q = Some pq ∧ kind_ pq = kAggregate
    end.

Lemma ancestors_fuel ps n id : tree_ok ps → (id < n)%nat → ancestors n ps id = pathTo ps id.
Proof.
  intros Ht. unfold pathTo. revert id. induction (lt_wf n) as [n _ IH]. intros id Hn. destruct n as [|n]; [lia|]. cbn [ancestors].
  destruct (ps !! id) as [p|] eqn:E; [|done]. pose proof (Ht id p E) as Hp. destruct (parent_ p) as [q|]; [|done].
  destruct Hp as [Hq _]. f_equal. rewrite (IH n) by lia. destruct (decide (id = n)) as [->|]; [|by rewrite (IH id) by lia].
  rewrite <- (IH n) by lia. done.
Qed.

Lemma path_unfold ps id p :
  tree_ok ps → ps !! id = Some p → pathTo ps id = match parent_ p with None => [id] | Some q => pathTo ps q ++ [id] end.
Proof.
  intros Ht E. pose proof (Ht id p E) as Hp. unfold pathTo at 1. cbn [ancestors]. rewrite E.
  destruct (parent_ p); [|done]. destruct Hp as [Hq _]. by rewrite ancestors_fuel.
Qed.

(** Walks up the tree. *)
Lemma path_ind ps (P : nat → Prop) :
  tree_ok ps →
  (∀ id p, ps !! id = Some p → match parent_ p with None => True | Some q => P q end → P id) →
  ∀ id, is_Some (ps !! id) → P id.
Proof.
  intros Ht Hstep id. induction (lt_wf id) as [id _ IH]. intros [p E]. apply (Hstep id p E). pose proof (Ht id p E) as Hp.
  destruct (parent_ p) as [q|]; [|done]. destruct Hp as (Hq & pq & Epq & _). by apply IH.
Qed.

(** The paths depend on the parents only. *)
Lemma path_extend ps ps' id :
  tree_ok ps → tree_ok ps' → (∀ j p, ps !! j = Some p → ∃ p', ps' !! j = Some p' ∧ parent_ p' = parent_ p) → is_Some (ps !! id) →
  pathTo ps' id = pathTo ps id.
Proof.
  intros Ht Ht' Hsub. revert id. apply (path_ind ps _ Ht). intros id p E Hq. destruct (Hsub id p E) as (p' & E' & Epar).
  rewrite (path_unfold ps id p), (path_unfold ps' id p') by done. rewrite Epar. destruct (parent_ p); [by rewrite Hq | done].
Qed.

(** Everything above a pool is an older aggregate. *)
Lemma path_above ps id a :
  tree_ok ps → is_Some (ps !! id) → a ∈ pathTo ps id →
  a = id ∨ (a < id)%nat ∧ (∃ p, ps !! a = Some p ∧ kind_ p = kAggregate) ∧ ∃ c p, ps !! c = Some p ∧ parent_ p = Some a.
Proof.
  intros Ht. revert id. refine (path_ind ps _ Ht _). intros id p E IH. rewrite (path_unfold ps id p) by done.
  pose proof (Ht id p E) as Hp. destruct (parent_ p) as [q|] eqn:Epar; [|set_solver].
  intros [Ha|Ha]%elem_of_app; [|set_solver]. right. destruct Hp as (Hq & pq & Epq & Ekind).
  destruct (IH Ha) as [->|(Hlt & Hagg & Hc)]; [by eauto 10 | split; [lia | done]].
Qed.

Lemma path_NoDup ps id : tree_ok ps → is_Some (ps !! id) → NoDup (pathTo ps id).
Proof.
  intros Ht. revert id. apply (path_ind ps _ Ht). intros id p E IH. rewrite (path_unfold ps id p) by done.
  pose proof (Ht id p E) as Hp. destruct (parent_ p) as [q|]; [|apply NoDup_singleton]. destruct Hp as (Hq & pq & Epq & _).
  apply NoDup_app. split; [done|]. split; [|apply NoDup_singleton]. intros a Ha ->%list_elem_of_singleton.
  destruct (path_above ps q id Ht) as [->|[? _]]; [eauto | done | lia..].
Qed.

Lemma path_self ps id : tree_ok ps → is_Some (ps !! id) → id ∈ pathTo ps id.
Proof. intros Ht [p E]. rewrite (path_unfold ps id p) by done. destruct (parent_ p); set_solver. Qed.

(** The path of a leaf is that of its parent and the leaf. *)
Lemma leaf_path ps id p :
  tree_ok ps → ps !! id = Some p → kind_ p = kLeaf → ∃ q, parent_ p = Some q ∧ pathTo ps id = pathTo ps q ++ [id] ∧ pathTo ps q ≠ [].
Proof.
  intros Ht E Ek. pose proof (Ht id p E) as Hp. rewrite (path_unfold ps id p) by done. destruct (parent_ p) as [q|]; [|congruence].
  exists q. split; [done|]. split; [done|]. destruct Hp as (_ & pq & Epq & _). intros E'.
  pose proof (path_self ps q Ht ltac:(eauto)) as Hin. rewrite E' in Hin. by apply elem_of_nil in Hin.
Qed.

Lemma exists_last_or {A} (l : list A) : l = [] ∨ ∃ l' x, l = l' ++ [x].
Proof. destruct l as [|x l _] using rev_ind; eauto. Qed.

(** A path passes through the paths of its pools. *)
Lemma path_prefix ps l done id rest :
  tree_ok ps → is_Some (ps !! l) → pathTo ps l = done ++ id :: rest → pathTo ps id = done ++ [id].
Proof.
  intros Ht Hl. revert l Hl rest. refine (path_ind ps _ Ht _). intros l p E IH rest Hp. rewrite (path_unfold ps l p Ht E) in Hp.
  destruct (exists_last_or rest) as [->|(rest' & x & ->)].
  - assert (id = l) as ->.
    { apply (f_equal last) in Hp. rewrite last_snoc in Hp. destruct (parent_ p); [rewrite last_snoc in Hp|]; by simplify_eq/=. }
    by rewrite (path_unfold ps l p Ht E).
  - rewrite app_comm_cons, app_assoc in Hp. destruct (parent_ p) as [q|].
    + apply app_inj_tail in Hp as [Hp _]. by apply (IH rest').
    + apply (f_equal length) in Hp. rewrite !length_app in Hp. simpl in Hp. lia.
Qed.

(** Above a root there is nothing. *)
Lemma path_root_first ps l done id rest p :
  tree_ok ps → is_Some (ps !! l) → pathTo ps l = done ++ id :: rest → ps !! id = Some p → parent_ p = None → done = [].
Proof.
  intros Ht Hl Hp E Er. apply (path_prefix ps l done id rest Ht Hl) in Hp. rewrite (path_unfold ps id p Ht E), Er in Hp.
  destruct done as [|x done]; [done|]. apply (f_equal length) in Hp. rewrite length_app in Hp. simpl in Hp. lia.
Qed.

(** An increment at one pool: it is taken, or the root refuses it. *)
Lemma maybeIncrement_spec under inc p :
  counters_ok p → 0 < inc < incrementLimit →
  (isRoot p = true ∧ ∃ e, maybeIncrementReservation under inc p = Throw e) ∨
  (isRoot p = true ∧ maybeIncrementReservation under inc p = Ok (false, p)) ∨
  (∃ p', maybeIncrementReservation under inc p = Ok (true, p') ∧ static p' = static p ∧
     reservationBytes_ p' = reservationBytes_ p + inc ∧ usedReservationBytes_ p' = usedReservationBytes_ p ∧
     minReservationBytes_ p' = minReservationBytes_ p ∧
     (isRoot p = true → under = false → 0 ≤ capacity_ p ≤ int64_max → reservationBytes_ p' ≤ capacity_ p)).
Proof.
  intros [Hu Hm Hl] Hinc. unfold maybeIncrementReservation, limit, incrementLimit, kMB in *.
  destruct (small64 (reservationBytes_ p + inc)) as [-> ->]; [lia|].
  destruct (isRoot p) eqn:Er; cbn [andb].
  - unfold checkIfAborted. destruct (aborted_ p); [left; split; [done|]; destruct (abortError_ p); by eexists|]. cbn [mbind outcome_bind].
    destruct ((_ >? _) && _) eqn:Eref; [by right; left|]. right. right. eexists. split; [done|].
    repeat split; try by destruct (isLeaf p). intros _ -> Hcap. unfold uwrap in Eref. rewrite Z.mod_small in Eref by (unfold_ints; lia).
    rewrite andb_true_r in Eref. destruct (isLeaf p); cbn; lia.
  - right. right. cbn [mbind outcome_bind]. eexists. split; [done|]. by repeat split; try by destruct (isLeaf p).
Qed.
