(* ===== verification/MemoryPoolReach.v ===== *)
(** * Threads on a tree of memory pools

    The reservations and releases of any number of threads, the creation and
    destruction of pools and the changes of their capacity, as one transition
    system, and the invariant that every step keeps: an aggregate has reserved
    what the leaves below it have, and what is on its way between them. *)
From S2P Require Import Prelude MemoryPool MemoryPoolState.
Local Open Scope Z_scope.

(** ** Steps *)

(** The bytes of the leaf [l] that are about to be freed. *)
Definition releasing (l : nat) (o : op) : Z :=
  match o with Releasing l' m _ _ => if decide (l' = l) then m else 0 | _ => 0 end.

(** [arbitration] tells whether threads that run under memory arbitration take
    part; the bytes reserved stay under [limit], a thread frees what is in use,
    and a leaf that is not thread-safe is used by one thread at a time. *)
Inductive sysStep (arbitration : bool) : system → system → Prop :=
| step_run s i o under grew ps o' :
    ops s !! i = Some o → (under = true → arbitration = true) → opStep under grew (pools s) o = Ok (ps, o') →
    (∀ id p, ps !! id = Some p → reservationBytes_ p < limit) →
    sysStep arbitration s (mkSystem ps (nextId s) (<[i := o']> (ops s)))
| step_reserve s i l p size reserveOnly :
    ops s !! i = None → pools s !! l = Some p → kind_ p = kLeaf → trackUsage_ p = true → 0 ≤ size < limit →
    (threadSafe_ p = true ∨ ∀ j o, ops s !! j = Some o → leafOf o ≠ Some l) →
    sysStep arbitration s (mkSystem (pools s) (nextId s) (<[i := Reserving l size reserveOnly 0]> (ops s)))
| step_release s i l p size :
    ops s !! i = None → pools s !! l = Some p → kind_ p = kLeaf → trackUsage_ p = true → 0 ≤ size →
    (threadSafe_ p = true ∨ ∀ j o, ops s !! j = Some o → leafOf o ≠ Some l) →
    size + total (λ _ o, releasing l o) (ops s) ≤ usedReservationBytes_ p →
    sysStep arbitration s (mkSystem (pools s) (nextId s) (<[i := Releasing l size false None]> (ops s)))
| step_releaseUnused s i l p :
    ops s !! i = None → pools s !! l = Some p → kind_ p = kLeaf → trackUsage_ p = true →
    (threadSafe_ p = true ∨ ∀ j o, ops s !! j = Some o → leafOf o ≠ Some l) →
    sysStep arbitration s (mkSystem (pools s) (nextId s) (<[i := Releasing l 0 true None]> (ops s)))
| step_return s i e :
    ops s !! i = Some (Finished e) → sysStep arbitration s (mkSystem (pools s) (nextId s) (delete i (ops s)))
| step_addRoot s name maxCapacity alignment trackUsage reclaimer p :
    is_int64 maxCapacity → newPool name kAggregate None maxCapacity alignment trackUsage true reclaimer = Ok p →
    sysStep arbitration s (mkSystem (<[nextId s := p]> (pools s)) (S (nextId s)) (ops s))
| step_addChild s parent name kind threadSafe reclaimer ps :
    addChild (pools s) parent (nextId s) name kind threadSafe reclaimer = Ok ps →
    sysStep arbitration s (mkSystem ps (S (nextId s)) (ops s))
| step_destroy s id ps :
    (∀ i o, ops s !! i = Some o → leafOf o ≠ Some id) → (∀ c p, pools s !! c = Some p → parent_ p ≠ Some id) →
    destroyPool (pools s) id = Ok ps → sysStep arbitration s (mkSystem ps (nextId s) (ops s))
| step_grow s id bytes a ps :
    0 ≤ bytes < 2 ^ 64 → grow bytes (pools s) id = Ok (a, ps) → sysStep arbitration s (mkSystem ps (nextId s) (ops s))
| step_shrink s id targetBytes a ps :
    0 ≤ targetBytes < 2 ^ 64 → shrink targetBytes (pools s) id = Ok (a, ps) →
    sysStep arbitration s (mkSystem ps (nextId s) (ops s))
| step_abort s id error ps :
    abort error (pools s) id = Ok (tt, ps) → sysStep arbitration s (mkSystem ps (nextId s) (ops s))
| step_setReclaimer s id ps :
    setReclaimer (pools s) id = Ok ps → sysStep arbitration s (mkSystem ps (nextId s) (ops s))
| step_count s id count ps :
    count ∈ [incAllocs; incFrees; incReserves; incReleases] → memOp count (pools s) id = Ok ps →
    sysStep arbitration s (mkSystem ps (nextId s) (ops s)).

Definition emptySystem : system := mkSystem ∅ 0 ∅.
Definition reachable (arbitration : bool) (s : system) : Prop := rtc (sysStep arbitration) emptySystem s.

(** ** The shape of the tree *)
Definition shape (p : MemoryPoolImpl) := (name_ p, kind_ p, parent_ p, (threadSafe_ p, trackUsage_ p, children_ p)).

Lemma static_shape p q : static p = static q → shape p = shape q.
Proof. unfold static, shape. congruence. Qed.

Lemma shape_fields p q :
  shape p = shape q → name_ p = name_ q ∧ kind_ p = kind_ q ∧ parent_ p = parent_ q ∧ threadSafe_ p = threadSafe_ q ∧ children_ p = children_ q.
Proof. unfold shape. intros [=]. done. Qed.

Record shaped (ps : store) (next : nat) : Prop := mkShaped {
  sh_fresh : ∀ id p, ps !! id = Some p → (id < next)%nat;
  sh_tree : tree_ok ps;
  sh_safe : ∀ id p, ps !! id = Some p → kind_ p = kAggregate → threadSafe_ p = true;
  sh_child : ∀ id p name c, ps !! id = Some p → children_ p !! name = Some c →
    ∃ q, ps !! c = Some q ∧ parent_ q = Some id ∧ name_ q = name;
  sh_listed : ∀ c q id p, ps !! c = Some q → parent_ q = Some id → ps !! id = Some p → children_ p !! name_ q = Some c
}.

(** Two stores with the same shapes. *)
Definition sameShapes (ps ps' : store) : Prop := ∀ id, shape <$> (ps' !! id) = shape <$> (ps !! id).

Lemma sameShapes_insert ps id p p' : ps !! id = Some p → shape p' = shape p → sameShapes ps (<[id := p']> ps).
Proof.
  intros E Es j. destruct (decide (j = id)) as [->|].
  - rewrite (lookup_insert_eq ps). rewrite E. simpl. by rewrite Es.
  - by rewrite (lookup_insert_ne ps).
Qed.

Lemma sameShapes_get ps ps' id p' : sameShapes ps ps' → ps' !! id = Some p' → ∃ p, ps !! id = Some p ∧ shape p' = shape p.
Proof. intros H E. specialize (H id). rewrite E in H. destruct (ps !! id) as [p|]; [|done]. exists p. split; [done|]. by apply (inj Some) in H. Qed.

Lemma sameShapes_sym ps ps' : sameShapes ps ps' → sameShapes ps' ps.
Proof. intros H id. by rewrite (H id). Qed.

Lemma shaped_same ps ps' next : shaped ps next → sameShapes ps ps' → shaped ps' next.
Proof.
  intros [F T S C L] H. pose proof (sameShapes_sym _ _ H) as H'. split.
  - intros id p' E. destruct (sameShapes_get ps ps' id p' H E) as (p & Ep & _). by apply (F id p).
  - intros id p' E. destruct (sameShapes_get ps ps' id p' H E) as (p & Ep & Es). apply shape_fields in Es as (_ & Ek & Epar & _).
    pose proof (T id p Ep) as Hp. rewrite Epar, Ek. destruct (parent_ p) as [q|]; [|done]. destruct Hp as (Hlt & pq & Epq & Ekq).
    destruct (sameShapes_get ps' ps q pq H' Epq) as (pq' & Epq' & (_ & Ek' & _)%shape_fields). split; [done|]. exists pq'. split; congruence.
  - intros id p' E Ek. destruct (sameShapes_get ps ps' id p' H E) as (p & Ep & (_ & Ek' & _ & Et & _)%shape_fields).
    rewrite Et. apply (S id p Ep). congruence.
  - intros id p' name c E Ec. destruct (sameShapes_get ps ps' id p' H E) as (p & Ep & (_ & _ & _ & _ & Ech)%shape_fields).
    rewrite Ech in Ec. destruct (C id p name c Ep Ec) as (q & Eq & Eqp & Eqn).
    destruct (sameShapes_get ps' ps c q H' Eq) as (q' & Eq' & (En & _ & Epar & _)%shape_fields). exists q'. split; [done|]. split; congruence.
  - intros c q' id p' Eq' Epar' E. destruct (sameShapes_get ps ps' id p' H E) as (p & Ep & (_ & _ & _ & _ & Ech)%shape_fields).
    destruct (sameShapes_get ps ps' c q' H Eq') as (q & Eq & (En & _ & Epar & _)%shape_fields). rewrite Ech, En.
    apply (L c q id p Eq); congruence.
Qed.

Lemma path_same ps ps' id : tree_ok ps → tree_ok ps' → sameShapes ps ps' → pathTo ps' id = pathTo ps id.
Proof.
  intros T T' H. destruct (ps !! id) as [p|] eqn:E.
  - apply path_extend; [done | done | | by eauto]. intros j q Eq.
    destruct (sameShapes_get ps' ps j q (sameShapes_sym _ _ H) Eq) as (q' & Eq' & (_ & _ & Epar & _)%shape_fields). eauto.
  - specialize (H id). rewrite E in H. unfold pathTo. cbn [ancestors]. by rewrite E; destruct (ps' !! id).
Qed.

(** ** What operations hold *)

(** The bytes that the aggregate [a] counts for an operation, and no leaf. *)
Definition pend (a : nat) (o : op) : Z :=
  match o with
  | Incrementing _ _ _ _ inc done _ _ => if decide (a ∈ done) then inc else 0
  | Decrementing _ amount next rest _ => if decide (a ∈ next :: rest) then amount else 0
  | _ => 0
  end.

(** The operations that may leave the leaf [l] with an unused reservation. *)
Definition holding (l : nat) (o : op) : Prop :=
  match o with
  | Reserving l' size only _ | Incrementing l' size only _ _ _ _ _ | Growing l' size only _ _ | Regrown l' size only _ _ =>
      l' = l ∧ (0 < size ∨ only = true)
  | Releasing l' _ _ e => l' = l ∧ is_Some e
  | _ => False
  end.

Definition op_ok (ps : store) (o : op) : Prop :=
  match leafOf o with Some l => ∃ p, ps !! l = Some p ∧ kind_ p = kLeaf | None => True end ∧
  match o with
  | Reserving l size _ _ => 0 ≤ size < limit
  | Incrementing l size _ _ inc done next rest =>
      0 < size < limit ∧ 0 < inc < incrementLimit ∧ pathTo ps l = done ++ next :: rest
  | Growing _ size _ _ inc | Regrown _ size _ _ inc => 0 < size < limit ∧ 0 < inc < incrementLimit
  | Releasing _ size only e => 0 ≤ size ∧ (only = true → size = 0 ∧ e = None)
  | Decrementing l amount next rest _ => 0 < amount ∧ ∃ done, pathTo ps l = done ++ next :: rest ++ [l]
  | Finished _ => True
  end.

(** The reservation of the leaf [l] as [a] counts it. *)
Definition contrib (ps : store) (a l : nat) (q : MemoryPoolImpl) : Z :=
  if decide (kind_ q = kLeaf ∧ a ∈ pathTo ps l) then reservationBytes_ q else 0.

Definition leafBytes (ps : store) (a : nat) : Z := total (contrib ps a) ps.
Definition pendingBytes (s : system) (a : nat) : Z := total (λ _ o, pend a o) (ops s).

Record inv (s : system) : Prop := mkInv {
  inv_shape : shaped (pools s) (nextId s);
  inv_counters : ∀ id p, pools s !! id = Some p →
    counters_ok p ∧ (kind_ p = kAggregate → usedReservationBytes_ p = 0 ∧ minReservationBytes_ p = 0);
  inv_ops : ∀ i o, ops s !! i = Some o → op_ok (pools s) o;
  inv_account : ∀ a p, pools s !! a = Some p → kind_ p = kAggregate →
    reservationBytes_ p = leafBytes (pools s) a + pendingBytes s a;
  inv_release : ∀ l p, pools s !! l = Some p → total (λ _ o, releasing l o) (ops s) ≤ usedReservationBytes_ p;
  inv_idle : ∀ l p, pools s !! l = Some p → kind_ p = kLeaf → threadSafe_ p = true →
    usedReservationBytes_ p = 0 → minReservationBytes_ p = 0 →
    reservationBytes_ p = 0 ∨ ∃ i o, ops s !! i = Some o ∧ holding l o
}.

Lemma op_ok_paths ps ps' o :
  (∀ l p, leafOf o = Some l → ps !! l = Some p → kind_ p = kLeaf → pathTo ps' l = pathTo ps l ∧ ∃ p', ps' !! l = Some p' ∧ kind_ p' = kLeaf) →
  op_ok ps o → op_ok ps' o.
Proof.
  intros H [Hl Ho]. unfold op_ok. destruct (leafOf o) as [l|] eqn:El; [|by destruct o].
  destruct Hl as (p & Ep & Ek). destruct (H l p eq_refl Ep Ek) as [Epath Hp']. split; [done|].
  destruct o; simplify_eq/=; rewrite ?Epath; done.
Qed.

Lemma op_ok_same ps ps' o : tree_ok ps → tree_ok ps' → sameShapes ps ps' → op_ok ps o → op_ok ps' o.
Proof.
  intros T T' H. apply op_ok_paths. intros l p _ Ep Ek. split; [by apply path_same|].
  destruct (sameShapes_get ps' ps l p (sameShapes_sym _ _ H) Ep) as (p' & Ep' & (_ & Ek' & _)%shape_fields). exists p'. split; congruence.
Qed.

Lemma leafBytes_update ps next id p p' a :
  shaped ps next → ps !! id = Some p → shape p' = shape p →
  leafBytes (<[id := p']> ps) a
  = leafBytes ps a + (if decide (kind_ p = kLeaf ∧ a ∈ pathTo ps id) then reservationBytes_ p' - reservationBytes_ p else 0).
Proof.
  intros Hs E Es. pose proof (sameShapes_insert ps id p p' E Es) as Hsame. pose proof (shaped_same ps _ next Hs Hsame) as Hs'.
  unfold leafBytes. rewrite (total_ext _ (contrib ps a)).
  - rewrite (total_update _ ps id p p' E). unfold contrib. apply shape_fields in Es as (_ & -> & _). destruct (decide _); lia.
  - intros i x _. unfold contrib. by rewrite (path_same ps) by (apply Hs || apply Hs' || done).
Qed.

(** One section of the operation [i], which changes the pool [id]. *)
Lemma inv_update s i o o' id p p' :
  inv s → ops s !! i = Some o → pools s !! id = Some p → shape p' = shape p →
  counters_ok p' → (kind_ p = kAggregate → usedReservationBytes_ p' = 0 ∧ minReservationBytes_ p' = 0) →
  op_ok (pools s) o' →
  (∀ a q, pools s !! a = Some q → kind_ q = kAggregate →
    (if decide (a = id) then reservationBytes_ p' - reservationBytes_ p else 0)
    = (if decide (kind_ p = kLeaf ∧ a ∈ pathTo (pools s) id) then reservationBytes_ p' - reservationBytes_ p else 0) + (pend a o' - pend a o)) →
  (∀ l, releasing l o' ≤ releasing l o + (if decide (l = id) then usedReservationBytes_ p' - usedReservationBytes_ p else 0)) →
  (∀ l q, pools s !! l = Some q → kind_ q = kLeaf → threadSafe_ q = true →
    l = id ∧ (usedReservationBytes_ p' = 0 → minReservationBytes_ p' = 0 → reservationBytes_ p' = 0) ∨ holding l o' ∨
    (¬ holding l o ∧ (l = id → usedReservationBytes_ p' = 0 → minReservationBytes_ p' = 0 →
      usedReservationBytes_ p = 0 ∧ minReservationBytes_ p = 0 ∧ (reservationBytes_ p = 0 → reservationBytes_ p' = 0)))) →
  inv (mkSystem (<[id := p']> (pools s)) (nextId s) (<[i := o']> (ops s))).
Proof.
  intros [Hsh Hc Ho Ha Hr Hi] Ei Eid Es Hc' Hagg Ho' Hda Hdr Hdi.
  pose proof (sameShapes_insert _ id p p' Eid Es) as Hsame. pose proof (shaped_same _ _ _ Hsh Hsame) as Hsh'.
  apply shape_fields in Es as Hf. destruct Hf as (_ & Ek & _ & Ets & _). split; cbn [pools nextId ops].
  - done.
  - intros j q [(<- & <-)|(Hne & Ej)]%lookup_insert_Some; [|by apply (Hc j q)]. split; [done|]. rewrite Ek. apply Hagg.
  - intros j q Hj. apply (op_ok_same (pools s)); [apply Hsh | apply Hsh' | done |].
    apply lookup_insert_Some in Hj as [(<- & <-)|(_ & Hj)]; [done | by apply (Ho j)].
  - intros a q Hq Ekq. unfold pendingBytes. cbn [ops]. rewrite (leafBytes_update _ (nextId s) id p p'), (total_update _ _ i o) by done.
    apply lookup_insert_Some in Hq as [(<- & <-)|(Hne & Hq)].
    + specialize (Hda id p Eid ltac:(congruence)). specialize (Ha id p Eid ltac:(congruence)). unfold pendingBytes in Ha.
      rewrite decide_True in Hda by done. lia.
    + specialize (Hda a q Hq Ekq). specialize (Ha a q Hq Ekq). unfold pendingBytes in Ha. rewrite decide_False in Hda by congruence. lia.
  - intros l q Hq. rewrite (total_update _ _ i o) by done. specialize (Hdr l).
    apply lookup_insert_Some in Hq as [(<- & <-)|(Hne & Hq)].
    + specialize (Hr id p Eid). rewrite decide_True in Hdr by done. lia.
    + specialize (Hr l q Hq). rewrite decide_False in Hdr by congruence. lia.
  - intros l q' Hq Ekq Etq U M.
    assert (∃ q, pools s !! l = Some q ∧ kind_ q = kLeaf ∧ threadSafe_ q = true ∧ (l = id ∧ q = p ∧ q' = p' ∨ l ≠ id ∧ q' = q)) as (q & Eq & Ek1 & Et1 & Hcase).
    { apply lookup_insert_Some in Hq as [(<- & <-)|(Hne & Hq)]; [exists p | exists q']; repeat split; auto; congruence. }
    destruct (Hdi l q Eq Ek1 Et1) as [(-> & Hz) | [Hh | [Hnh Hback]]].
    + left. destruct Hcase as [(_ & -> & ->)|[? _]]; [auto | done].
    + right. exists i, o'. by rewrite lookup_insert_eq.
    + assert (reservationBytes_ q = 0 ∧ (reservationBytes_ q = 0 → reservationBytes_ q' = 0) ∨ ∃ j oj, ops s !! j = Some oj ∧ holding l oj) as Hold.
      { destruct Hcase as [(-> & -> & ->)|[Hne ->]]; [|destruct (Hi l q Eq Ek1 Et1 U M); auto].
        destruct (Hback eq_refl U M) as (U0 & M0 & Hz). destruct (Hi id p Eid Ek1 Et1 U0 M0); auto. }
      destruct Hold as [[Hz0 Hz]|(j & oj & Ej & Hh)]; [left; auto|]. right. exists j, oj. split; [|done].
      rewrite lookup_insert_ne; [done|]. intros ->. rewrite Ei in Ej. by simplify_eq.
Qed.

(** An operation goes on without changing a pool. *)
Lemma inv_move s i o o' :
  inv s → ops s !! i = Some o → op_ok (pools s) o' → (∀ a q, pools s !! a = Some q → kind_ q = kAggregate → pend a o' = pend a o) →
  (∀ l, releasing l o' ≤ releasing l o) →
  (∀ l q, pools s !! l = Some q → kind_ q = kLeaf → threadSafe_ q = true → holding l o → holding l o') →
  inv (mkSystem (pools s) (nextId s) (<[i := o']> (ops s))).
Proof.
  intros [Hsh Hc Ho Ha Hr Hi] Ei Ho' Hda Hdr Hdi. split; cbn [pools nextId ops].
  - done.
  - done.
  - intros j q [(<- & <-)|(_ & Hj)]%lookup_insert_Some; [done | by apply (Ho j)].
  - intros a q Hq Ekq. unfold pendingBytes. cbn [ops]. rewrite (total_update _ _ i o), (Hda a q), (Ha a q) by done. unfold pendingBytes. lia.
  - intros l q Hq. rewrite (total_update _ _ i o) by done. specialize (Hr l q Hq). specialize (Hdr l). lia.
  - intros l q Hq Ekq Etq U M. destruct (Hi l q Hq Ekq Etq U M) as [?|(j & oj & Ej & Hh)]; [by left|]. right.
    destruct (decide (j = i)) as [->|]; [|exists j, oj; by rewrite lookup_insert_ne].
    exists i, o'. rewrite lookup_insert_eq. split; [done|]. apply (Hdi l q); [done..|]. by rewrite Ei in Ej; simplify_eq.
Qed.

(** ** The sections of an operation *)

Definition bounded (ps : store) : Prop := ∀ id p, ps !! id = Some p → reservationBytes_ p < limit.

(** A section runs, and keeps the invariant. *)
Definition runs (under grew : bool) (s : system) (i : nat) (o : op) : Prop :=
  ∃ ps o', opStep under grew (pools s) o = Ok (ps, o') ∧ (bounded ps → inv (mkSystem ps (nextId s) (<[i := o']> (ops s)))).

Lemma getPool_Some ps id p : ps !! id = Some p → getPool ps id = Ok p.
Proof. unfold getPool. by intros ->. Qed.

Lemma isLeaf_kind p : kind_ p = kLeaf → isLeaf p = true.
Proof. intros E. unfold isLeaf. by apply bool_decide_eq_true. Qed.

Lemma addCollisions_same n p :
  static (addCollisions n p) = static p ∧ reservationBytes_ (addCollisions n p) = reservationBytes_ p ∧
  usedReservationBytes_ (addCollisions n p) = usedReservationBytes_ p ∧ minReservationBytes_ (addCollisions n p) = minReservationBytes_ p.
Proof. unfold addCollisions. by destruct (n >? 1). Qed.

Lemma counters_same p q :
  reservationBytes_ q = reservationBytes_ p → usedReservationBytes_ q = usedReservationBytes_ p →
  minReservationBytes_ q = minReservationBytes_ p → counters_ok p → counters_ok q.
Proof. intros E1 E2 E3 [H1 H2 H3]. split; congruence. Qed.

(** An aggregate is not a leaf. *)
Lemma kinds_differ (ps : store) a l p q :
  ps !! a = Some p → kind_ p = kAggregate → ps !! l = Some q → kind_ q = kLeaf → a ≠ l.
Proof. intros E1 K1 E2 K2 ->. congruence. Qed.

(** The check on the way up passes: every pool is thread-safe but possibly the leaf. *)
Lemma checkedPath_ok ps next l p inc :
  shaped ps next → ps !! l = Some p → 0 < inc → checkedPath ps l p inc = Ok (pathTo ps l).
Proof.
  intros Hs E Hinc. unfold checkedPath. replace (forallb _ _) with true.
  - cbn. by destruct (Z.gtb_spec inc 0); [|lia].
  - symmetry. apply forallb_forall. intros a Ha%list_elem_of_In.
    destruct (path_above ps l a (sh_tree _ _ Hs) ltac:(eauto) Ha) as [->|(_ & (q & Eq & Ek) & _)].
    + rewrite E, bool_decide_true by done. by destruct (threadSafe_ p).
    + by rewrite Eq, (sh_safe _ _ Hs a q Eq Ek).
Qed.

Lemma stepReserve_runs under grew s i l size only n :
  inv s → ops s !! i = Some (Reserving l size only n) → runs under grew s i (Reserving l size only n).
Proof.
  intros Hinv Ei. pose proof (inv_ops s Hinv i _ Ei) as [(p & Ep & Ek) Hsize]. cbn in Hsize.
  destruct (inv_counters s Hinv l p Ep) as [Hc _]. unfold runs, opStep, stepReserve. rewrite (getPool_Some _ l p Ep).
  cbn [mbind outcome_bind]. rewrite isLeaf_kind by done. cbn [velox_check mbind outcome_bind].
  destruct (reserveLocked_spec size only p Hc Hsize) as [(p' & -> & Hfit & Es & Er & Hc' & Eu & Em) | (inc & -> & Hpos & Hinc & _)];
    cbn [mbind outcome_bind].
  - cbn [Z.eqb]. eexists _, _. split; [done|]. intros _. destruct (addCollisions_same n p') as (As & Ar & Au & Am).
    apply (inv_update s i (Reserving l size only n) (Finished None) l p); try done.
    + apply static_shape. congruence.
    + by apply (counters_same p').
    + congruence.
    + intros a q Eq Ekq. rewrite Ar, Er. destruct (decide _), (decide _); cbn; lia.
    + intros l'. cbn. rewrite Au, Eu. destruct (decide (l' = l)), only; lia.
    + intros l' q Eq _ _. rewrite Ar, Au, Am, Er, Eu, Em. cbn. destruct (decide (l' = l)) as [->|Hne]; [|right; right; naive_solver].
      destruct Hc as [Hu Hm _]. destruct only; [left; lia|]. destruct (decide (size = 0)) as [->|]; [|left; lia].
      right. right. split; [intros [_ [?|?]]; [lia | done]|]. intros _ U M. lia.
  - destruct (Z.eqb_spec inc 0); [lia|]. rewrite (checkedPath_ok _ (nextId s)) by (apply Hinv || done || lia). cbn [mbind outcome_bind].
    pose proof (path_self _ l (sh_tree _ _ (inv_shape s Hinv)) ltac:(eauto)) as Hself.
    destruct (pathTo (pools s) l) as [|next rest] eqn:Epath; [by apply elem_of_nil in Hself|]. eexists _, _. split; [done|]. intros _.
    unfold incrementLimit, limit, kMB in *. destruct (small64 inc) as [_ ->]; [lia|].
    apply (inv_move s i (Reserving l size only n)); try done.
    split; [by exists p|]. unfold incrementLimit, limit, kMB. split; [lia|]. split; [lia | done].
Qed.

(** The operation fails before any pool has counted it. *)
Lemma failed_inv s i o l p e :
  inv s → ops s !! i = Some o → pools s !! l = Some p → kind_ p = kLeaf →
  (∀ a, pend a o = 0) → (∀ k, releasing k o = 0) → (∀ k, holding k o → k = l) →
  inv (mkSystem (pools s) (nextId s) (<[i := failed l p e]> (ops s))).
Proof.
  intros Hinv Ei Ep Ek Hpend Hrel Hhold. unfold failed. apply (inv_move s i o); try done.
  - destruct (threadSafe_ p); [|done]. split; [by exists p|]. split; [lia | congruence].
  - intros a _ _ _. rewrite Hpend. by destruct (threadSafe_ p).
  - intros k. rewrite Hrel. destruct (threadSafe_ p); cbn; [destruct (decide _); lia | done].
  - intros k q Eq _ Et Hh. rewrite (Hhold k Hh) in *. assert (q = p) as -> by congruence. rewrite Et. by split.
Qed.

(** [o] is about to add [inc] to the pool [id] on the path of the leaf [l]. *)
Definition addsAt (ps : store) (o : op) (l : nat) (size : Z) (only : bool) (n inc : Z) (done : list nat) (id : nat) (rest : list nat) : Prop :=
  pathTo ps l = done ++ id :: rest ∧
  (o = Incrementing l size only n inc done id rest ∨ o = Regrown l size only n inc ∧ done = []).

Lemma addsAt_facts ps o l size only n inc done id rest :
  addsAt ps o l size only n inc done id rest → op_ok ps o →
  (∃ p, ps !! l = Some p ∧ kind_ p = kLeaf) ∧ 0 < size < limit ∧ 0 < inc < incrementLimit ∧
  (∀ a, pend a o = if decide (a ∈ done) then inc else 0) ∧ (∀ k, releasing k o = 0) ∧ (∀ k, holding k o ↔ k = l).
Proof.
  intros [_ [->|[-> ->]]] [Hl Ho]; cbn in *; destruct Ho as (? & ? & ?) || destruct Ho as (? & ?);
    (split; [done|]); (split; [done|]); (split; [done|]); (split; [done|]); (split; [done|]); intros k; (split; [by intros [-> _]|]);
    intros ->; (split; [done|]); left; lia.
Qed.

(** The pools of a path, apart from the leaf at its end, are aggregates. *)
Lemma path_kinds ps l p done id rest :
  tree_ok ps → ps !! l = Some p → kind_ p = kLeaf → pathTo ps l = done ++ id :: rest →
  ∃ q, ps !! id = Some q ∧ (rest = [] ∧ id = l ∧ q = p ∨ rest ≠ [] ∧ id ≠ l ∧ kind_ q = kAggregate).
Proof.
  intros Ht E Ek Hp. destruct (leaf_path ps l p Ht E Ek) as (par & _ & Hpath & _).
  destruct (decide (id = l)) as [->|Hne].
  - exists p. split; [done|]. left. split; [|done]. pose proof (path_NoDup ps l Ht ltac:(eauto)) as Hnd.
    destruct (exists_last_or rest) as [->|(r & x & ->)]; [done|]. rewrite Hp in Hpath, Hnd.
    rewrite app_comm_cons, app_assoc in Hpath. apply app_inj_tail in Hpath as [_ ->].
    apply NoDup_app in Hnd as (_ & _ & Hnd). rewrite NoDup_cons in Hnd. destruct Hnd as [Hnd _]. set_solver.
  - destruct (path_above ps l id Ht ltac:(eauto)) as [->|(_ & (q & Eq & Ekq) & _)]; [rewrite Hp; set_solver | done |].
    exists q. split; [done|]. right. split; [|done]. intros ->. rewrite Hp in Hpath. by apply app_inj_tail in Hpath as [_ ->].
Qed.

Lemma stepIncrement_runs under s i o l size only n inc done id rest refused :
  inv s → ops s !! i = Some o → addsAt (pools s) o l size only n inc done id rest →
  refused = Growing l size only n inc ∨ refused = Reserving l size only (n + 1) →
  ∃ ps o', stepIncrement under (pools s) l id inc (descend l size only n inc (done ++ [id]) rest) refused = Ok (ps, o') ∧
    (bounded ps → inv (mkSystem ps (nextId s) (<[i := o']> (ops s)))).
Proof.
  intros Hinv Ei Hadd Href. pose proof (inv_ops s Hinv i o Ei) as Hok.
  destruct (addsAt_facts _ _ _ _ _ _ _ _ _ _ Hadd Hok) as ((p & Ep & Ek) & Hsize & Hinc & Hpend & Hrel & Hhold). destruct Hadd as [Hpath _].
  pose proof (sh_tree _ _ (inv_shape s Hinv)) as Ht. destruct (path_kinds _ l p done id rest Ht Ep Ek Hpath) as (q & Eq & Hkind).
  destruct (inv_counters s Hinv id q Eq) as [Hc Hagg]. unfold stepIncrement. rewrite (getPool_Some _ l p Ep), (getPool_Some _ id q Eq).
  cbn [mbind outcome_bind].
  assert (isRoot q = true → done = []) as Hroot.
  { intros Hr%bool_decide_eq_true. by apply (path_root_first (pools s) l done id rest q Ht). }
  destruct (maybeIncrement_spec under inc q Hc Hinc) as [(Hr & e & ->) | [(Hr & ->) | (q' & -> & Es & Er & Eu & Em & _)]].
  - eexists _, _. split; [done|]. intros _. apply (failed_inv s i o); try done; [|intros k; by apply Hhold].
    intros a. rewrite Hpend, (Hroot Hr). done.
  - rewrite Hr. cbn [velox_check mbind outcome_bind]. eexists _, _. split; [done|]. intros _. apply (inv_move s i o); try done.
    + destruct Href as [-> | ->]; (split; [by exists p|]); cbn; lia.
    + intros a _ _ _. rewrite Hpend, (Hroot Hr). by destruct Href as [-> | ->].
    + intros k. rewrite Hrel. by destruct Href as [-> | ->].
    + intros k _ _ _ _ ->%Hhold. destruct Href as [-> | ->]; (split; [done|]); left; lia.
  - eexists _, _. split; [done|]. intros Hb. specialize (Hb id q' (lookup_insert_eq _ _ _)).
    apply (inv_update s i o _ id q); try done.
    + by apply static_shape.
    + destruct Hc as [Hu Hm Hl]. split; rewrite ?Eu, ?Em, ?Er; lia.
    + rewrite Eu, Em. done.
    + unfold descend. destruct rest as [|next rest']; (split; [by exists p|]); [cbn; lia|]. split; [done|]. split; [done|].
      by rewrite Hpath, <- app_assoc.
    + intros a qa Ea Eka. rewrite Hpend, Er. destruct Hkind as [(-> & -> & ->)|(Hrest & Hne & Ekq)].
      * cbn [descend pend]. pose proof (kinds_differ (pools s) a l qa p Ea Eka Ep Ek). rewrite (decide_False (P := a = l)) by done. rewrite Hpath.
        destruct (decide (a ∈ done)), (decide (kind_ p = kLeaf ∧ a ∈ done ++ [l])); set_solver by lia.
      * rewrite (decide_False (P := kind_ q = kLeaf ∧ _)) by (intros [? _]; congruence).
        pose proof (path_NoDup (pools s) l Ht ltac:(eauto)) as Hnd. rewrite Hpath in Hnd. apply NoDup_app in Hnd as (_ & Hnd & _).
        unfold descend. destruct rest as [|next rest']; [done|]. cbn [pend].
        destruct (decide (a = id)), (decide (a ∈ done)), (decide (a ∈ done ++ [id])); set_solver by lia.
    + intros k. rewrite Hrel, Eu. unfold descend. destruct rest; cbn; destruct (decide (k = id)); lia.
    + intros k qk Eqk Ekk _. destruct (decide (k = l)) as [->|Hne].
      * right. left. unfold descend. destruct rest; (split; [done|]); left; lia.
      * right. right. split; [by intros ->%Hhold|]. intros ->. assert (qk = q) as -> by congruence.
        destruct Hkind as [(_ & -> & _)|(_ & _ & ?)]; congruence.
Qed.

Lemma releasing_nonneg s l : inv s → ∀ i o, ops s !! i = Some o → 0 ≤ releasing l o.
Proof. intros Hinv i o Ei. destruct (inv_ops s Hinv i o Ei) as [_ Ho]. destruct o; cbn in *; try lia. destruct (decide _); lia. Qed.

Lemma pend_nonneg s a : inv s → ∀ i o, ops s !! i = Some o → 0 ≤ pend a o.
Proof. intros Hinv i o Ei. destruct (inv_ops s Hinv i o Ei) as [_ Ho]. destruct o; cbn in *; try lia; destruct (decide _); lia. Qed.

Lemma leafBytes_nonneg s a : inv s → 0 ≤ leafBytes (pools s) a.
Proof.
  intros Hinv. apply total_nonneg. intros l p Ep. unfold contrib. destruct (inv_counters s Hinv l p Ep) as [[? _ _] _].
  destruct (decide _); lia.
Qed.

(** A release finds the bytes it frees in use. *)
Lemma release_ready s i l size only e :
  inv s → ops s !! i = Some (Releasing l size only e) →
  ∃ p fr p', pools s !! l = Some p ∧ kind_ p = kLeaf ∧ counters_ok p ∧ (only = true → size = 0 ∧ e = None) ∧
    releaseLocked size only p = Ok (fr, p') ∧ static p' = static p ∧ counters_ok p' ∧
    usedReservationBytes_ p' = usedReservationBytes_ p - size ∧ reservationBytes_ p' = reservationBytes_ p - Z.max 0 fr ∧
    (only = true ∧ minReservationBytes_ p = 0 ∧ p' = p ∧ fr = 0 ∨
     fr = reservationBytes_ p - quantizedSize (Z.max (minReservationBytes_ p') (usedReservationBytes_ p'))).
Proof.
  intros Hinv Ei. pose proof (inv_ops s Hinv i _ Ei) as [(p & Ep & Ek) [Hsize Honly]].
  destruct (inv_counters s Hinv l p Ep) as [Hc _].
  assert (size ≤ usedReservationBytes_ p) as Hle.
  { pose proof (inv_release s Hinv l p Ep). pose proof (total_ge _ _ i _ (releasing_nonneg s l Hinv) Ei) as Hge. cbn in Hge.
    rewrite decide_True in Hge by done. lia. }
  destruct (releaseLocked_spec size only p Hc) as (fr & p' & Erel & Es & Hc' & Eu & Er & Em & Hfr); [destruct only; [by apply Honly | lia]|].
  exists p, fr, p'. done.
Qed.

Lemma stepRelease_runs under grew s i l size only e :
  inv s → ops s !! i = Some (Releasing l size only e) → runs under grew s i (Releasing l size only e).
Proof.
  intros Hinv Ei. destruct (release_ready s i l size only e Hinv Ei) as (p & fr & p' & Ep & Ek & Hc & Honly & Erel & Es & Hc' & Eu & Er & Hfr).
  pose proof (sh_tree _ _ (inv_shape s Hinv)) as Ht.
  destruct (leaf_path _ l p Ht Ep Ek) as (par & Epar & Hpath & Hne).
  unfold runs, opStep, stepRelease. rewrite (getPool_Some _ l p Ep). cbn [mbind outcome_bind]. rewrite isLeaf_kind by done.
  cbn [velox_check mbind outcome_bind]. rewrite Epar, Erel. cbn [mbind outcome_bind].
  destruct (pathTo (pools s) par) as [|next rest] eqn:Epp; [done|]. eexists _, _. split; [done|]. intros _.
  apply (inv_update s i (Releasing l size only e) _ l p); try done.
  - by apply static_shape.
  - congruence.
  - destruct (Z.gtb_spec fr 0); [|done]. split; [by exists p|]. split; [lia|]. by exists [].
  - intros a q Ea Eka. pose proof (kinds_differ (pools s) a l q p Ea Eka Ep Ek). rewrite (decide_False (P := a = l)) by done. rewrite Hpath, Er.
    destruct (Z.gtb_spec fr 0); cbn [pend]; [|destruct (decide _); lia].
    destruct (decide (a ∈ next :: rest)), (decide (kind_ p = kLeaf ∧ a ∈ (next :: rest) ++ [l])); set_solver by lia.
  - intros k. rewrite Eu. transitivity 0; [by destruct (fr >? 0)|]. cbn. destruct (decide (l = k)), (decide (k = l)); congruence || lia.
  - intros k q _ _ _. destruct (decide (k = l)) as [->|Hnk]; [|right; right; split; [intros [? _]; congruence | done]].
    destruct Hfr as [(-> & _ & -> & _)|Hfr].
    + right. right. split; [|by intros]. intros [_ He]. destruct (Honly eq_refl) as [_ ->]. by destruct He.
    + left. split; [done|]. intros U M. rewrite U, M in Hfr. change (quantizedSize (Z.max 0 0)) with 0 in Hfr. destruct Hc as [? _ _]. lia.
Qed.

(** A pool that is to be decremented has counted the bytes. *)
Lemma decrement_ready s i l amount next rest e :
  inv s → ops s !! i = Some (Decrementing l amount next rest e) →
  ∃ q q', pools s !! next = Some q ∧ kind_ q = kAggregate ∧ usedReservationBytes_ q = 0 ∧ 0 < amount ∧
    decrementLocked amount q = Ok q' ∧ static q' = static q ∧ counters_ok q' ∧ reservationBytes_ q' = reservationBytes_ q - amount ∧
    usedReservationBytes_ q' = 0 ∧ minReservationBytes_ q' = 0.
Proof.
  intros Hinv Ei. pose proof (inv_ops s Hinv i _ Ei) as [(p & Ep & Ek) (Hamount & done & Hpath)].
  destruct (path_kinds _ l p done next (rest ++ [l]) (sh_tree _ _ (inv_shape s Hinv)) Ep Ek Hpath) as (q & Eq & [(Hnil & _)|(_ & Hne & Ekq)]);
    [by destruct rest|].
  destruct (inv_counters s Hinv next q Eq) as [Hc Hagg]. destruct (Hagg Ekq) as [U M].
  assert (amount ≤ reservationBytes_ q) as Hle.
  { rewrite (inv_account s Hinv next q Eq Ekq). pose proof (leafBytes_nonneg s next Hinv).
    pose proof (total_ge _ _ i _ (pend_nonneg s next Hinv) Ei) as Hge. cbn in Hge. rewrite decide_True in Hge by set_solver.
    unfold pendingBytes. lia. }
  destruct (decrementLocked_spec amount q Hc ltac:(lia) U M) as (q' & Edec & Es & Hc' & Er & U' & M'). exists q, q'. done.
Qed.

Lemma stepDecrement_runs under grew s i l amount next rest e :
  inv s → ops s !! i = Some (Decrementing l amount next rest e) → runs under grew s i (Decrementing l amount next rest e).
Proof.
  intros Hinv Ei. pose proof (inv_ops s Hinv i _ Ei) as [(p & Ep & Ek) (Hamount & done & Hpath)].
  pose proof (sh_tree _ _ (inv_shape s Hinv)) as Ht.
  destruct (decrement_ready s i l amount next rest e Hinv Ei) as (q & q' & Eq & Ekq & U & _ & Edec & Es & Hc' & Er & U' & M').
  unfold runs, opStep, stepDecrement. rewrite (getPool_Some _ next q Eq). cbn [mbind outcome_bind]. rewrite Edec. cbn [mbind outcome_bind].
  eexists _, _. split; [reflexivity|]. intros _. apply (inv_update s i (Decrementing l amount next rest e) _ next q); try done.
  - by apply static_shape.
  - destruct rest as [|next' rest']; [done|]. split; [by exists p|]. split; [done|]. exists (done ++ [next]). by rewrite Hpath, <- app_assoc.
  - intros a qa Ea Eka. rewrite (decide_False (P := kind_ q = kLeaf ∧ _)) by (intros [? _]; congruence).
    pose proof (path_NoDup (pools s) l Ht ltac:(eauto)) as Hnd. rewrite Hpath in Hnd. apply NoDup_app in Hnd as (_ & _ & Hnd).
    rewrite NoDup_cons in Hnd. destruct Hnd as [Hnin _]. rewrite Er.
    destruct rest as [|next' rest']; cbn [pend]; [destruct (decide (a = next)), (decide (a ∈ [next])); set_solver by lia|].
    destruct (decide (a = next)), (decide (a ∈ next :: next' :: rest')), (decide (a ∈ next' :: rest')); set_solver by lia.
  - intros k. rewrite U, U'. transitivity 0; [by destruct rest|]. cbn. by destruct (decide (k = next)).
  - intros k qk Eqk Ekk _. right. right. split; [by intros []|]. intros ->. congruence.
Qed.

(** No section of a pool's mutex fails, and each keeps the invariant. *)
Lemma opStep_runs under grew s i o : inv s → ops s !! i = Some o → runs under grew s i o.
Proof.
  intros Hinv Ei. pose proof (inv_ops s Hinv i o Ei) as Hok. destruct o as [l size only n|l size only n inc dn next rest|l size only n inc|
    l size only n inc|l size only e|l amount next rest e|e].
  - by apply stepReserve_runs.
  - apply (stepIncrement_runs under s i (Incrementing l size only n inc dn next rest) l size only n inc dn next rest); [done..| |by left].
    split; [by destruct Hok as [_ (_ & _ & ?)] | by left].
  - destruct Hok as [(p & Ep & Ek) Hs]. unfold runs, opStep. rewrite (getPool_Some _ l p Ep). cbn [mbind outcome_bind].
    eexists _, _. split; [done|]. intros _. destruct grew; [|by apply (failed_inv s i (Growing l size only n inc)); try done; intros k [-> _]].
    apply (inv_move s i (Growing l size only n inc)); try done. split; [by exists p | done].
  - destruct Hok as [(p & Ep & Ek) Hs]. pose proof (sh_tree _ _ (inv_shape s Hinv)) as Ht.
    pose proof (path_self _ l Ht ltac:(eauto)) as Hself. unfold runs, opStep.
    destruct (pathTo (pools s) l) as [|r rest] eqn:Epath; [by apply elem_of_nil in Hself|].
    apply (stepIncrement_runs under s i (Regrown l size only n inc) l size only n inc [] r rest); [done..| |by right].
    split; [done | by right].
  - by apply stepRelease_runs.
  - by apply stepDecrement_runs.
  - eexists _, _. split; [done|]. intros _. rewrite insert_id by done. by destruct s.
Qed.
