(* ===== verification/MemoryPoolTheorems.v ===== *)
(** * What holds of memory pools in every run

    The remaining steps keep the invariant; then what it means for the callers:
    the counts are right under every interleaving, no internal check fails, the
    capacity is respected, and memory that is given back is given back to the
    root. *)
From S2P Require Import Prelude MemoryPool MemoryPoolState MemoryPoolReach.
Local Open Scope Z_scope.

(** ** Calls begin and return *)
Lemma inv_start s i o :
  inv s → ops s !! i = None → op_ok (pools s) o → (∀ a, pend a o = 0) →
  (∀ l p, pools s !! l = Some p → releasing l o + total (λ _ o, releasing l o) (ops s) ≤ usedReservationBytes_ p) →
  inv (mkSystem (pools s) (nextId s) (<[i := o]> (ops s))).
Proof.
  intros [Hsh Hc Ho Ha Hr Hi] Ei Hok Hp Hrel. split; cbn [pools nextId ops]; try done.
  - intros j q [(<- & <-)|(_ & Hj)]%lookup_insert_Some; [done | by apply (Ho j)].
  - intros a p Ep Ek. unfold pendingBytes. cbn [ops]. rewrite total_insert, Hp, (Ha a p) by done. done.
  - intros l p Ep. rewrite total_insert by done. by apply Hrel.
  - intros l p Ep Ek Et U M. destruct (Hi l p Ep Ek Et U M) as [?|(j & q & Ej & Hh)]; [by left|]. right. exists j, q.
    rewrite lookup_insert_ne; [done | congruence].
Qed.

Lemma inv_return s i e : inv s → ops s !! i = Some (Finished e) → inv (mkSystem (pools s) (nextId s) (delete i (ops s))).
Proof.
  intros [Hsh Hc Ho Ha Hr Hi] Ei. split; cbn [pools nextId ops]; try done.
  - intros j q [_ Hj]%lookup_delete_Some. by apply (Ho j).
  - intros a p Ep Ek. rewrite (Ha a p Ep Ek). unfold pendingBytes. cbn [ops]. by rewrite (total_delete _ _ i (Finished e)).
  - intros l p Ep. pose proof (Hr l p Ep) as H. rewrite (total_delete _ _ i (Finished e) Ei) in H. cbn in H. lia.
  - intros l p Ep Ek Et U M. destruct (Hi l p Ep Ek Et U M) as [?|(j & q & Ej & Hh)]; [by left|]. right. exists j, q.
    rewrite lookup_delete_ne; [done|]. intros ->. rewrite Ei in Ej. by simplify_eq.
Qed.

(** ** Changes that leave the counters alone *)
Definition counts (p : MemoryPoolImpl) := (reservationBytes_ p, usedReservationBytes_ p, minReservationBytes_ p).

Lemma inv_touch s id p p' :
  inv s → pools s !! id = Some p → shape p' = shape p → counts p' = counts p →
  inv (mkSystem (<[id := p']> (pools s)) (nextId s) (ops s)).
Proof.
  intros [Hsh Hc Ho Ha Hr Hi] Eid Es Ec. assert (reservationBytes_ p' = reservationBytes_ p ∧ usedReservationBytes_ p' = usedReservationBytes_ p ∧
    minReservationBytes_ p' = minReservationBytes_ p) as (Er & Eu & Em) by (unfold counts in Ec; by injection Ec).
  pose proof (sameShapes_insert _ id p p' Eid Es) as Hsame. pose proof (shaped_same _ _ _ Hsh Hsame) as Hsh'.
  assert (∀ j q', <[id := p']> (pools s) !! j = Some q' → ∃ q, pools s !! j = Some q ∧ shape q' = shape q ∧
    reservationBytes_ q' = reservationBytes_ q ∧ usedReservationBytes_ q' = usedReservationBytes_ q ∧ minReservationBytes_ q' = minReservationBytes_ q) as Hget.
  { intros j q' [(<- & <-)|(_ & Hj)]%lookup_insert_Some; eauto 10. }
  split; cbn [pools nextId ops]; try done.
  - intros j q' Hj. destruct (Hget j q' Hj) as (q & Eq & (_ & Ek & _)%shape_fields & R & U & M). rewrite Ek, U, M.
    destruct (Hc j q Eq). split; [by apply (counters_same q) | done].
  - intros j o Ej. apply (op_ok_same (pools s)); [apply Hsh | apply Hsh' | done | by apply (Ho j)].
  - intros a q' Hj Ek. destruct (Hget a q' Hj) as (q & Eq & (_ & Ek' & _)%shape_fields & R & _). rewrite R.
    rewrite (leafBytes_update _ (nextId s) id p p') by done. rewrite (Ha a q Eq ltac:(congruence)). unfold pendingBytes. cbn [ops].
    destruct (decide _); lia.
  - intros l q' Hj. destruct (Hget l q' Hj) as (q & Eq & _ & _ & U & _). rewrite U. by apply Hr.
  - intros l q' Hj. destruct (Hget l q' Hj) as (q & Eq & (_ & Ek & _ & Et & _)%shape_fields & R & U & M). rewrite Ek, Et, R, U, M. by apply Hi.
Qed.

Lemma updateRoot_inv {A} (f : MemoryPoolImpl → outcome (A * MemoryPoolImpl)) ps id a ps' :
  updateRoot f ps id = Ok (a, ps') → ∃ r p p', ps !! r = Some p ∧ f p = Ok (a, p') ∧ ps' = <[r := p']> ps ∧ r ∈ pathTo ps id.
Proof.
  unfold updateRoot, rootOf, getPool. intros H. destruct (pathTo ps id) as [|r rest]; [done|]. cbn in H.
  destruct (ps !! r) as [p|] eqn:E; [|done]. cbn in H. destruct (f p) as [[b p']| |] eqn:Ef; [|done..]. cbn in H. simplify_eq.
  exists r, p, p'. set_solver.
Qed.

Lemma growRoot_inv bytes p a p' :
  growRoot bytes p = Ok (a, p') → p' = p <| capacity_ := swrap 64 (capacity_ p + bytes) |> ∧
  uwrap 64 (capacity_ p + bytes) ≤ uwrap 64 (maxCapacity_ p) ∧ capacity_ p ≠ kMaxMemory.
Proof.
  unfold growRoot. intros H. inv_bind. simplify_eq. split; [done|]. split; [by apply Z.leb_le|].
  apply negb_true_iff in Ha. by apply Z.eqb_neq.
Qed.

Lemma shrinkRoot_inv target p a p' : shrinkRoot target p = Ok (a, p') → p' = p <| capacity_ := swrap 64 (capacity_ p - a) |>.
Proof. unfold shrinkRoot. intros H. inv_bind. by simplify_eq. Qed.

(** ** Pools are created and destroyed *)
Lemma path_exists s i o l a : inv s → ops s !! i = Some o → leafOf o = Some l → a ∈ pathTo (pools s) l → is_Some (pools s !! a).
Proof.
  intros Hinv Ei El Ha. destruct (inv_ops s Hinv i o Ei) as [Hl _]. rewrite El in Hl. destruct Hl as (p & Ep & _).
  destruct (path_above _ l a (sh_tree _ _ (inv_shape s Hinv)) ltac:(eauto) Ha) as [->|(_ & (q & Eq & _) & _)]; eauto.
Qed.

(** A pool that does not exist is counted by no operation. *)
Lemma pend_absent s a : inv s → pools s !! a = None → pendingBytes s a = 0.
Proof.
  intros Hinv Ea. apply total_zero. intros i o Ei. destruct (inv_ops s Hinv i o Ei) as [_ Ho].
  assert (∀ l, leafOf o = Some l → a ∉ pathTo (pools s) l) as Hno.
  { intros l El Hin. destruct (path_exists s i o l a Hinv Ei El Hin) as [p Hp]. congruence. }
  destruct o as [| l size only n inc dn next rest | | | | l amount next rest e |]; try done; specialize (Hno l eq_refl); cbn [pend].
  - destruct Ho as (_ & _ & Hp). rewrite Hp in Hno. rewrite decide_False by set_solver. done.
  - destruct Ho as (_ & dn & Hp). rewrite Hp in Hno. rewrite decide_False by set_solver. done.
Qed.

Lemma releasing_absent s l : inv s → pools s !! l = None → total (λ _ o, releasing l o) (ops s) = 0.
Proof.
  intros Hinv El. apply total_zero. intros i o Ei. destruct (inv_ops s Hinv i o Ei) as [Hl _].
  destruct o; try done. cbn in Hl |- *. destruct Hl as (p & Ep & _). rewrite decide_False; [done|]. intros ->. congruence.
Qed.

(** Pools with zero counters come and go. *)
Lemma inv_restructure s ps next :
  inv s → shaped ps next →
  (∀ j p', ps !! j = Some p' →
    (∃ p, pools s !! j = Some p ∧ kind_ p' = kind_ p ∧ threadSafe_ p' = threadSafe_ p ∧ counts p' = counts p) ∨
    pools s !! j = None ∧ counts p' = (0, 0, 0)) →
  (∀ j, is_Some (pools s !! j) → is_Some (ps !! j) → pathTo ps j = pathTo (pools s) j) →
  (∀ j p, pools s !! j = Some p → ps !! j = None → counts p = (0, 0, 0) ∧ ∀ i o, ops s !! i = Some o → leafOf o ≠ Some j) →
  inv (mkSystem ps next (ops s)).
Proof.
  intros Hinv Hsh Hnew Hpath Hgone. pose proof Hinv as [Hsh0 Hc Ho Ha Hr Hi].
  assert (∀ p, counts p = (0, 0, 0) → reservationBytes_ p = 0 ∧ usedReservationBytes_ p = 0 ∧ minReservationBytes_ p = 0) as Hzero.
  { unfold counts. by intros p [= -> -> ->]. }
  assert (∀ p q, counts p = counts q → reservationBytes_ p = reservationBytes_ q ∧ usedReservationBytes_ p = usedReservationBytes_ q ∧
    minReservationBytes_ p = minReservationBytes_ q) as Hsame by (unfold counts; by intros p q [=]).
  assert (∀ a, is_Some (pools s !! a) → leafBytes ps a = leafBytes (pools s) a) as Hleaf.
  { intros a Hex. apply total_pointwise. intros j. destruct (ps !! j) as [p'|] eqn:Ej', (pools s !! j) as [p|] eqn:Ej; simpl; [| | |done].
    - destruct (Hnew j p' Ej') as [(q & Eq & Ek & _ & (Er & _)%Hsame)|[? _]]; [|congruence]. assert (q = p) as -> by congruence.
      unfold contrib. rewrite (Hpath j) by eauto. by rewrite Ek, Er.
    - destruct (Hnew j p' Ej') as [(q & Eq & _)|[_ (Er & _)%Hzero]]; [congruence|]. unfold contrib. rewrite Er. by destruct (decide _).
    - destruct (Hgone j p Ej Ej') as [(Er & _)%Hzero _]. unfold contrib. rewrite Er. by destruct (decide _). }
  split; cbn [pools nextId ops]; [done|..].
  - intros j p' Ej. destruct (Hnew j p' Ej) as [(p & Ep & Ek & _ & (R & U & M)%Hsame)|[_ (R & U & M)%Hzero]].
    + rewrite Ek, U, M. destruct (Hc j p Ep). split; [by apply (counters_same p) | done].
    + split; [split; rewrite ?R, ?U, ?M; unfold limit; lia | done].
  - intros i o Ei. apply (op_ok_paths (pools s)); [|by apply (Ho i)]. intros l p El Ep Ek.
    destruct (ps !! l) as [p'|] eqn:Ep'; [|by destruct (Hgone l p Ep Ep') as [_ []%(λ H, H i o Ei)]].
    split; [apply Hpath; eauto|]. exists p'. split; [done|]. destruct (Hnew l p' Ep') as [(q & Eq & Ekq & _)|[? _]]; congruence.
  - intros a p' Ep' Ek. change (pendingBytes (mkSystem ps next (ops s)) a) with (pendingBytes s a).
    destruct (Hnew a p' Ep') as [(p & Ep & Ek' & _ & (R & _)%Hsame)|[Ea (R & _)%Hzero]].
    + rewrite R, Hleaf by eauto. apply Ha; congruence.
    + rewrite R, pend_absent by done. symmetry. rewrite Z.add_0_r. apply total_zero. intros j q' Eq'. unfold contrib.
      destruct (decide _) as [[Ekq Hin]|]; [|done]. destruct (Hnew j q' Eq') as [(q & Eq & _)|[_ (Rq & _)%Hzero]]; [|done].
      rewrite (Hpath j) in Hin by eauto. exfalso.
      destruct (path_above (pools s) j a (sh_tree _ _ Hsh0) ltac:(eauto) Hin) as [->|(_ & (qa & Eqa & _) & _)]; congruence.
  - intros l p' Ep'. destruct (Hnew l p' Ep') as [(p & Ep & _ & _ & (_ & U & _)%Hsame)|[El (_ & U & _)%Hzero]]; rewrite U; [by apply Hr|].
    by rewrite releasing_absent.
  - intros l p' Ep' Ek Et. destruct (Hnew l p' Ep') as [(p & Ep & Ek' & Et' & (R & U & M)%Hsame)|[El (R & _)%Hzero]]; [|by left].
    rewrite R, U, M. apply Hi; congruence.
Qed.

(** A new pool. *)
Record newborn (name : string) (kind : Kind) (parent : option nat) (p : MemoryPoolImpl) : Prop := mkNewborn {
  nb_name : name_ p = name; nb_kind : kind_ p = kind; nb_parent : parent_ p = parent; nb_children : children_ p = ∅;
  nb_counts : counts p = (0, 0, 0); nb_safe : kind = kAggregate → threadSafe_ p = true;
  nb_root : parent = None → kind = kAggregate ∧ capacity_ p = 0 ∧ 0 < maxCapacity_ p
}.

Lemma newPool_newborn name kind parent maxCapacity alignment track safe reclaimer p :
  newPool name kind parent maxCapacity alignment track safe reclaimer = Ok p → newborn name kind (fst <$> parent) p.
Proof.
  unfold newPool. intros H. inv_bind. simplify_eq/=. split; cbn; try done.
  - intros ->. match goal with H : safe || _ = true |- _ => by rewrite orb_false_r in H end.
  - destruct parent; [done|]. intros _. destruct kind; [done|]. split; [done|]. split; [done|]. apply Z.gtb_lt. done.
Qed.

(** [p'] is [p] but for its children. *)
Definition sameButChildren (p' p : MemoryPoolImpl) : Prop :=
  name_ p' = name_ p ∧ kind_ p' = kind_ p ∧ parent_ p' = parent_ p ∧ threadSafe_ p' = threadSafe_ p ∧ counts p' = counts p.

Section AddPool.
Variables (ps : store) (next : nat) (c : MemoryPoolImpl) (par : nat) (p : MemoryPoolImpl) (name : string) (kind : Kind).
Hypothesis Hsh : shaped ps next.
Hypothesis Ep : ps !! par = Some p.
Hypothesis Ek : kind_ p = kAggregate.
Hypothesis Efree : children_ p !! name = None.
Hypothesis Hc : newborn name kind (Some par) c.

Let p' := p <| children_ := <[name := next]> (children_ p) |>.
Let ps' := <[next := c]> (<[par := p']> ps).

Lemma next_absent : ps !! next = None.
Proof using Hsh. destruct (ps !! next) as [q|] eqn:E; [|done]. pose proof (sh_fresh _ _ Hsh next q E). lia. Qed.

Lemma par_not_next : par ≠ next.
Proof using Hsh Ep. pose proof (sh_fresh _ _ Hsh par p Ep). lia. Qed.

Lemma added_get j x :
  ps' !! j = Some x → j = next ∧ x = c ∨ j ≠ next ∧ ∃ y, ps !! j = Some y ∧ sameButChildren x y ∧ (j = par ∧ x = p' ∧ y = p ∨ j ≠ par ∧ x = y).
Proof using Ep.
  intros [(<- & <-)|(Hne & [(<- & <-)|(Hne2 & Hj)]%lookup_insert_Some)]%lookup_insert_Some; [by left|right..]; (split; [done|]).
  - exists p. repeat split; try done. by left.
  - exists x. repeat split; try done. right. by split.
Qed.

Lemma added_old j y : ps !! j = Some y → ∃ x, ps' !! j = Some x ∧ sameButChildren x y.
Proof using Hsh Ep.
  intros Ej. pose proof (sh_fresh _ _ Hsh j y Ej). unfold ps'. rewrite lookup_insert_ne by lia.
  destruct (decide (j = par)) as [->|Hne]; [|exists y; by rewrite lookup_insert_ne].
  rewrite lookup_insert_eq. exists p'. split; [done|]. assert (y = p) as -> by congruence. done.
Qed.

Lemma added_shaped : shaped ps' (S next).
Proof using All.
  pose proof next_absent as Hnone. pose proof par_not_next as Hpn. pose proof Hsh as [F T S C L]. pose proof (sh_fresh _ _ Hsh par p Ep) as Hlt. split.
  - intros j x [(-> & ->)|(_ & y & Ey & _)]%added_get; [lia|]. pose proof (F j y Ey). lia.
  - intros j x [(-> & ->)|(_ & y & Ey & (_ & Eky & Epy & _) & _)]%added_get.
    + rewrite (nb_parent _ _ _ _ Hc). split; [done|]. destruct (added_old par p Ep) as (x & Ex & (_ & Ekx & _)). exists x. split; congruence.
    + pose proof (T j y Ey) as Hy. rewrite Epy, Eky. destruct (parent_ y) as [q|]; [|done]. destruct Hy as (Hq & pq & Epq & Ekq).
      destruct (added_old q pq Epq) as (x' & Ex' & (_ & Ekx & _)). split; [done|]. exists x'. split; congruence.
  - intros j x [(-> & ->)|(_ & y & Ey & (_ & Eky & _ & Ets & _) & _)]%added_get Ekx.
    + rewrite (nb_kind _ _ _ _ Hc) in Ekx. by apply (nb_safe _ _ _ _ Hc).
    + rewrite Ets. apply (S j y); congruence.
  - intros j x nm d [(-> & ->)|(Hj & y & Ey & Hyx & Hcase)]%added_get Hd; [by rewrite (nb_children _ _ _ _ Hc), lookup_empty in Hd|].
    assert (nm = name ∧ d = next ∧ j = par ∨ children_ y !! nm = Some d) as [(-> & -> & ->)|Hold].
    { destruct Hcase as [(-> & -> & ->)|[_ ->]]; [|by right]. cbn in Hd. apply lookup_insert_Some in Hd as [(<- & <-)|[_ Hd]]; [by left | by right]. }
    + exists c. unfold ps'. rewrite lookup_insert_eq. split; [done|]. split; [apply Hc | apply Hc].
    + destruct (C j y nm d Ey Hold) as (q & Eq & Eqp & Eqn). destruct (added_old d q Eq) as (x' & Ex' & (En & _ & Epx & _)).
      exists x'. split; [done|]. split; congruence.
  - intros d x j y [(-> & ->)|(Hd & x0 & Ex0 & (En & _ & Epx & _) & _)]%added_get Hpar [(-> & ->)|(Hj & y0 & Ey0 & _ & Hcase)]%added_get.
    + rewrite (nb_parent _ _ _ _ Hc) in Hpar. by simplify_eq.
    + rewrite (nb_parent _ _ _ _ Hc) in Hpar. simplify_eq. destruct Hcase as [(_ & -> & _)|[? _]]; [|done].
      rewrite (nb_name _ _ _ _ Hc). apply lookup_insert_eq.
    + pose proof (T d x0 Ex0) as Ht. rewrite Epx in Hpar. rewrite Hpar in Ht. destruct Ht as (_ & pq & Epq & _). congruence.
    + rewrite En. pose proof (L d x0 j y0 Ex0 ltac:(congruence) Ey0) as Hl. destruct Hcase as [(-> & -> & ->)|[_ ->]]; [|done].
      cbn. rewrite lookup_insert_ne; [done|]. intros Heq. rewrite <- Heq in Hl. congruence.
Qed.
End AddPool.

Lemma addChild_inv s par name kind safe reclaimer ps :
  inv s → addChild (pools s) par (nextId s) name kind safe reclaimer = Ok ps → inv (mkSystem ps (S (nextId s)) (ops s)).
Proof.
  intros Hinv. unfold addChild, getPool. destruct (pools s !! par) as [p|] eqn:Ep; [|done]. cbn [mbind outcome_bind].
  destruct (isLeaf p) eqn:Eleaf; [done|]. intros H. inv_bind. rename Ha into Hfree, a0 into c, Ha0 into Hnew.
  apply bool_decide_eq_true in Hfree. apply newPool_newborn in Hnew as Hnb. cbn in Hnb. clear Hnew. subst ps.
  assert (kind_ p = kAggregate) as Ek by (unfold isLeaf in Eleaf; apply bool_decide_eq_false in Eleaf; by destruct (kind_ p)).
  pose proof (inv_shape s Hinv) as Hsh. pose proof (added_shaped _ _ c par p name kind Hsh Ep Ek Hfree Hnb) as Hsh'.
  apply (inv_restructure s); [done | done | ..].
  - intros j x [(-> & ->)|(_ & y & Ey & (_ & Eky & _ & Ets & Ecy) & _)]%(added_get _ _ c par p name Ep).
    + right. split; [by apply next_absent | apply Hnb].
    + left. by exists y.
  - intros j Hj _. apply path_extend; [apply Hsh | apply Hsh' | | done]. intros k y Ey.
    destruct (added_old _ _ c par p name Hsh Ep k y Ey) as (x & Ex & (_ & _ & Epar & _)). by exists x.
  - intros j y Ey Hnone. destruct (added_old _ _ c par p name Hsh Ep j y Ey) as (x & Ex & _). by pose proof (eq_trans (eq_sym Ex) Hnone).
Qed.

Lemma addRoot_inv s name p :
  inv s → newborn name kAggregate None p → inv (mkSystem (<[nextId s := p]> (pools s)) (S (nextId s)) (ops s)).
Proof.
  intros Hinv Hnb. pose proof (inv_shape s Hinv) as Hsh. pose proof (next_absent _ _ Hsh) as Hnone. pose proof Hsh as [F T S C L].
  assert (∀ j x, <[nextId s := p]> (pools s) !! j = Some x → j = nextId s ∧ x = p ∨ j ≠ nextId s ∧ pools s !! j = Some x) as Hget.
  { intros j x [(<- & <-)|(? & ?)]%lookup_insert_Some; auto. }
  assert (∀ j x, pools s !! j = Some x → <[nextId s := p]> (pools s) !! j = Some x) as Hold.
  { intros j x Ej. rewrite lookup_insert_ne; [done|]. intros <-. congruence. }
  assert (shaped (<[nextId s := p]> (pools s)) (Datatypes.S (nextId s))) as Hsh'.
  { split.
    - intros j x [(-> & ->)|(_ & Ej)]%Hget; [lia|]. pose proof (F j x Ej). lia.
    - intros j x [(-> & ->)|(_ & Ej)]%Hget; [rewrite (nb_parent _ _ _ _ Hnb); apply Hnb|]. pose proof (T j x Ej) as Hx.
      destruct (parent_ x); [|done]. destruct Hx as (? & q & Eq & ?). split; [done|]. exists q. auto.
    - intros j x [(-> & ->)|(_ & Ej)]%Hget Ek; [by apply Hnb | by apply (S j x)].
    - intros j x nm d [(-> & ->)|(_ & Ej)]%Hget Hd; [by rewrite (nb_children _ _ _ _ Hnb), lookup_empty in Hd|].
      destruct (C j x nm d Ej Hd) as (q & Eq & ?). exists q. auto.
    - intros d x j y [(-> & ->)|(_ & Ed)]%Hget Hpar [(-> & ->)|(_ & Ej)]%Hget.
      + by rewrite (nb_parent _ _ _ _ Hnb) in Hpar.
      + by rewrite (nb_parent _ _ _ _ Hnb) in Hpar.
      + pose proof (T d x Ed) as Hx. rewrite Hpar in Hx. destruct Hx as (_ & q & Eq & _). congruence.
      + by apply (L d x j y). }
  apply (inv_restructure s); [done | done | ..].
  - intros j x [(-> & ->)|(_ & Ej)]%Hget; [right; split; [done | apply Hnb] | left; by exists x].
  - intros j Hj _. apply path_extend; [apply Hsh | apply Hsh' | | done]. intros k y Ey. exists y. auto.
  - intros j y Ey Hn. apply Hold in Ey. congruence.
Qed.

(** What [destroyPool] leaves. *)
Lemma destroyPool_inv ps next id ps' :
  shaped ps next → destroyPool ps id = Ok ps' →
  ∃ p, ps !! id = Some p ∧ counts p = (0, 0, 0) ∧ children_ p = ∅ ∧ ps' !! id = None ∧
    (∀ j x, ps' !! j = Some x → j ≠ id ∧ ∃ y, ps !! j = Some y ∧ sameButChildren x y ∧
       (children_ x = children_ y ∧ parent_ p ≠ Some j ∨ parent_ p = Some j ∧ children_ x = delete (name_ p) (children_ y))) ∧
    (∀ j y, ps !! j = Some y → j ≠ id → ∃ x, ps' !! j = Some x ∧ sameButChildren x y).
Proof.
  intros [F T S C L]. unfold destroyPool, getPool. destruct (ps !! id) as [p|] eqn:Ep; [|done]. cbn [mbind outcome_bind].
  intros H. apply bind_Ok_inv in H as (ps1 & H1 & H). inv_bind. subst ps'. exists p. split; [done|].
  assert (counts p = (0, 0, 0)) as Hcounts by (unfold counts; repeat f_equal; blia).
  match goal with H : bool_decide (children_ p = ∅) = true |- _ => apply bool_decide_eq_true in H as Hch end.
  split; [done|]. split; [done|]. split; [apply lookup_delete_eq|].
  assert ((parent_ p = None ∧ ps1 = ps) ∨ ∃ q pq pq', parent_ p = Some q ∧ ps !! q = Some pq ∧ q ≠ id ∧
    pq' = pq <| children_ := delete (name_ p) (children_ pq) |> ∧ ps1 = <[q := pq']> ps) as Hps1.
  { pose proof (T id p Ep) as Hpar. destruct (parent_ p) as [q|] eqn:Epar; [|left; by inv_bind]. right. destruct (ps !! q) as [pq|] eqn:Eq; [|done].
    destruct Hpar as [Hlt _]. cbn [mbind outcome_bind] in H1. unfold dropChild in H1. destruct (isLeaf pq); [done|]. inv_bind.
    exists q, pq, (pq <| children_ := delete (name_ p) (children_ pq) |>). repeat split; try done; [lia | by simplify_eq]. }
  destruct Hps1 as [[Epar ->]|(q & pq & pq' & Epar & Eq & Hne & -> & ->)]; split.
  - intros j x [Hj Ej]%lookup_delete_Some. split; [done|]. exists x. rewrite Epar. split; [done|]. split; [done|]. by left.
  - intros j y Ey Hj. exists y. by rewrite lookup_delete_ne.
  - intros j x [Hj [(<- & <-)|(Hjq & Ej)]%lookup_insert_Some]%lookup_delete_Some; (split; [done|]).
    + exists pq. split; [done|]. split; [done|]. right. done.
    + exists x. split; [done|]. split; [done|]. left. rewrite Epar. split; congruence.
  - intros j y Ey Hj. rewrite lookup_delete_ne by done. destruct (decide (j = q)) as [->|]; [|exists y; by rewrite lookup_insert_ne].
    rewrite lookup_insert_eq. eexists. split; [done|]. assert (y = pq) as -> by congruence. done.
Qed.

Lemma destroy_inv s id ps :
  inv s → (∀ i o, ops s !! i = Some o → leafOf o ≠ Some id) → (∀ c p, pools s !! c = Some p → parent_ p ≠ Some id) →
  destroyPool (pools s) id = Ok ps → inv (mkSystem ps (nextId s) (ops s)).
Proof.
  intros Hinv Hops Hchild Hd. pose proof (inv_shape s Hinv) as Hsh. pose proof Hsh as [F T S C L].
  destruct (destroyPool_inv _ _ _ _ Hsh Hd) as (p & Ep & Hcounts & Hch & Hgone & Hget & Hold).
  assert (shaped ps (nextId s)) as Hsh'.
  { split.
    - intros j x (_ & y & Ey & _)%Hget. by apply (F j y).
    - intros j x (_ & y & Ey & (_ & Ek & Epar & _) & _)%Hget. pose proof (T j y Ey) as Hy. rewrite Epar, Ek.
      destruct (parent_ y) as [q|] eqn:Eq; [|done]. destruct Hy as (Hlt & pq & Epq & Ekq).
      destruct (Hold q pq Epq) as (x' & Ex' & (_ & Ekx & _)); [intros ->; by apply (Hchild j y)|]. split; [done|]. exists x'. split; congruence.
    - intros j x (_ & y & Ey & (_ & Ek & _ & Et & _) & _)%Hget Ekx. rewrite Et. apply (S j y); congruence.
    - intros j x nm d (_ & y & Ey & _ & Hcase)%Hget Hd'.
      assert (children_ y !! nm = Some d ∧ (parent_ p = Some j → nm ≠ name_ p)) as [Hin Hnm].
      { destruct Hcase as [(-> & ?)|(? & ->)] in Hd'; [done|]. by apply lookup_delete_Some in Hd' as [? ?]. }
      destruct (C j y nm d Ey Hin) as (q & Eq & Epq & Enq).
      destruct (Hold d q Eq) as (x' & Ex' & (En & _ & Epx & _)); [|exists x'; split; [done|]; split; congruence].
      intros ->. assert (q = p) as -> by congruence. by apply (Hnm Epq).
    - intros d x j x' (Hd' & y & Ey & (En & _ & Epx & _) & _)%Hget Hpar (_ & y' & Ey' & _ & Hcase)%Hget.
      rewrite En. pose proof (L d y j y' Ey ltac:(congruence) Ey') as Hl. destruct Hcase as [(-> & _)|(Hpj & ->)]; [done|].
      rewrite lookup_delete_ne; [done|]. intros Heq. pose proof (L id p j y' Ep Hpj Ey') as Hl'. rewrite Heq in Hl'. congruence. }
  apply (inv_restructure s); [done | done | ..].
  - intros j x (_ & y & Ey & (_ & Ek & _ & Et & Ec) & _)%Hget. left. by exists y.
  - intros j _ Hj. symmetry. apply path_extend; [apply Hsh' | apply Hsh | | done]. intros k x (_ & y & Ey & (_ & _ & Epar & _) & _)%Hget.
    exists y. by split.
  - intros j y Ey Hn. destruct (decide (j = id)) as [->|Hne]; [|destruct (Hold j y Ey Hne) as (x & Ex & _); congruence].
    split; [congruence | done].
Qed.

(** ** Every step keeps the invariant *)
Lemma inv_step arbitration s s' : inv s → sysStep arbitration s s' → inv s'.
Proof.
  intros Hinv Hstep. destruct Hstep as [s i o under grew ps o' Ei _ Hrun Hb|s i l p size only Ei Ep Ek _ Hsize _|
    s i l p size Ei Ep Ek _ Hsize _ Hle|s i l p Ei Ep Ek _ _|s i e Ei|s name maxc al tr rc p _ Hnew|s par name kind safe rc ps Hadd|
    s id ps Hops Hch Hd|s id bytes a ps _ Hg|s id target a ps _ Hg|s id error ps Hg|s id ps Hg|s id count ps Hcount Hm].
  - destruct (opStep_runs under grew s i o Hinv Ei) as (ps' & o'' & Hrun' & Hok). rewrite Hrun in Hrun'. simplify_eq. by apply Hok.
  - apply inv_start; [done | done | | done |]; [split; [by exists p | done]|]. intros k q Eq. cbn. by apply (inv_release s Hinv k q).
  - apply inv_start; [done | done | | done |]; [split; [by exists p | split; [done | done]]|]. intros k q Eq. cbn.
    destruct (decide (l = k)) as [<-|]; [congruence|]. by apply (inv_release s Hinv k q).
  - apply inv_start; [done | done | | done |]; [split; [by exists p | split; [done | done]]|]. intros k q Eq. cbn.
    destruct (decide (l = k)); by apply (inv_release s Hinv k q).
  - by apply (inv_return s i e).
  - apply (addRoot_inv s name); [done|]. by apply newPool_newborn in Hnew.
  - by apply (addChild_inv s par name kind safe rc).
  - by apply (destroy_inv s id).
  - apply updateRoot_inv in Hg as (r & p & p' & Ep & (-> & _)%growRoot_inv & -> & _). by apply (inv_touch s r p).
  - apply updateRoot_inv in Hg as (r & p & p' & Ep & ->%shrinkRoot_inv & -> & _). by apply (inv_touch s r p).
  - apply updateRoot_inv in Hg as (r & p & p' & Ep & Ha & -> & _). unfold abortRoot in Ha. destruct (negb _); [done|]. inv_bind. simplify_eq.
    by apply (inv_touch s r p).
  - unfold setReclaimer, getPool in Hg. destruct (pools s !! id) as [p|] eqn:Ep; [|done]. inv_bind. subst ps.
    apply (inv_touch s id p); try done. all: by simplify_eq.
  - unfold memOp, getPool in Hm. destruct (pools s !! id) as [p|] eqn:Ep; [|done]. cbn [mbind outcome_bind] in Hm. destruct (negb _); [done|].
    simplify_eq. apply (inv_touch s id p); try done; set_unfold in Hcount; destruct Hcount as [-> | [-> | [-> | [-> | []]]]]; done.
Qed.

Lemma inv_empty : inv emptySystem.
Proof. split; [split|..]; cbn; intros *; by rewrite ?lookup_empty. Qed.

Lemma pools_reachable_inv arbitration s : reachable arbitration s → inv s.
Proof.
  intros H. unfold reachable in H. remember emptySystem as s0 eqn:E. assert (inv s0) as H0 by (subst; apply inv_empty). clear E.
  induction H as [|s1 s2 s3 Hs _ IH]; [done|]. apply IH. by apply (inv_step arbitration s1).
Qed.

(** ** Capacity *)

(** A section changes one pool, and fills a root only up to its capacity. *)
Definition sectionChange (under : bool) (ps ps' : store) : Prop :=
  ps' = ps ∨ ∃ id p p', ps' = <[id := p']> ps ∧ ps !! id = Some p ∧ static p' = static p ∧
    (isRoot p = true → under = false → 0 ≤ capacity_ p ≤ int64_max → reservationBytes_ p' ≤ Z.max (reservationBytes_ p) (capacity_ p)).

Lemma stepIncrement_changes under s l id inc taken refused ps o' :
  inv s → 0 < inc < incrementLimit → stepIncrement under (pools s) l id inc taken refused = Ok (ps, o') → sectionChange under (pools s) ps.
Proof.
  intros Hinv Hinc. unfold stepIncrement, getPool. destruct (pools s !! l) as [pl|]; [|done]. cbn [mbind outcome_bind].
  destruct (pools s !! id) as [p|] eqn:Ep; [|done]. cbn [mbind outcome_bind]. destruct (inv_counters s Hinv id p Ep) as [Hc _].
  destruct (maybeIncrement_spec under inc p Hc Hinc) as [(_ & e & ->) | [(Hr & ->) | (p' & -> & Es & _ & _ & _ & Hcap)]].
  - intros [= <- <-]. by left.
  - rewrite Hr. intros [= <- <-]. by left.
  - intros [= <- <-]. right. exists id, p, p'. repeat split; try done. intros Hr Hu Hrange. specialize (Hcap Hr Hu Hrange). lia.
Qed.

Lemma opStep_changes under grew s i o ps o' :
  inv s → ops s !! i = Some o → opStep under grew (pools s) o = Ok (ps, o') → sectionChange under (pools s) ps.
Proof.
  intros Hinv Ei Hrun. pose proof (inv_ops s Hinv i o Ei) as [Hl Ho].
  destruct o as [l size only n|l size only n inc dn next rest|l size only n inc|l size only n inc|l size only e|l amount next rest e|e];
    cbn [leafOf] in Hl; try destruct Hl as (p & Ep & Ek).
  - cbn [opStep] in Hrun. unfold stepReserve in Hrun. rewrite (getPool_Some _ l p Ep) in Hrun. cbn [mbind outcome_bind] in Hrun.
    rewrite isLeaf_kind in Hrun by done. cbn [velox_check mbind outcome_bind] in Hrun. destruct (inv_counters s Hinv l p Ep) as [Hc _].
    destruct (reserveLocked_spec size only p Hc Ho) as [(p' & Er & _ & Es & Eres & _) | (inc & Er & _ & Hinc & _)];
      rewrite Er in Hrun; cbn [mbind outcome_bind] in Hrun.
    + injection Hrun as <- <-. right. destruct (addCollisions_same n p') as (As & Ar & _). exists l, p, (addCollisions n p').
      repeat split; try done; [congruence|]. intros _ _ _. rewrite Ar, Eres. lia.
    + destruct (Z.eqb_spec inc 0); [lia|]. destruct (checkedPath _ _ _ _) as [[|nx rs]| |]; try done. injection Hrun as <- <-. by left.
  - destruct Ho as (_ & Hinc & _). by apply (stepIncrement_changes under s l next inc _ _ ps o' Hinv Hinc Hrun).
  - cbn [opStep] in Hrun. rewrite (getPool_Some _ l p Ep) in Hrun. injection Hrun as <- <-. by left.
  - destruct Ho as (_ & Hinc). cbn [opStep] in Hrun. destruct (pathTo (pools s) l) as [|r rest]; [done|].
    by apply (stepIncrement_changes under s l r inc _ _ ps o' Hinv Hinc Hrun).
  - destruct (release_ready s i l size only e Hinv Ei) as (q & fr & p' & Eq & _ & _ & _ & Erel & Es & _ & _ & Er & _).
    assert (q = p) as -> by congruence. cbn [opStep] in Hrun. unfold stepRelease in Hrun. rewrite (getPool_Some _ l p Ep) in Hrun.
    cbn [mbind outcome_bind] in Hrun. rewrite isLeaf_kind in Hrun by done. cbn [velox_check mbind outcome_bind] in Hrun.
    destruct (parent_ p); [|done]. rewrite Erel in Hrun. cbn [mbind outcome_bind] in Hrun. injection Hrun as <- <-.
    right. exists l, p, p'. repeat split; try done. lia.
  - destruct (decrement_ready s i l amount next rest e Hinv Ei) as (q & q' & Eq & _ & _ & Hpos & Edec & Es & _ & Er & _).
    cbn [opStep] in Hrun. unfold stepDecrement in Hrun. rewrite (getPool_Some _ next q Eq) in Hrun. cbn [mbind outcome_bind] in Hrun.
    rewrite Edec in Hrun. injection Hrun as <- <-. right. exists next, q, q'. repeat split; try done. lia.
  - injection Hrun as <- <-. by left.
Qed.

(** Roots are within their capacity, and the capacity within its maximum. *)
Definition capacity_ok (ps : store) : Prop :=
  ∀ r p, ps !! r = Some p → parent_ p = None → reservationBytes_ p ≤ capacity_ p ≤ maxCapacity_ p ∧ maxCapacity_ p ≤ int64_max.

Lemma capacity_touch ps id p p' :
  capacity_ok ps → ps !! id = Some p → parent_ p' = parent_ p →
  (parent_ p = None → reservationBytes_ p ≤ capacity_ p ≤ maxCapacity_ p → maxCapacity_ p ≤ int64_max →
    reservationBytes_ p' ≤ capacity_ p' ≤ maxCapacity_ p' ∧ maxCapacity_ p' = maxCapacity_ p) →
  capacity_ok (<[id := p']> ps).
Proof.
  intros Hcap E Epar Hnew r q [(<- & <-)|(_ & Hq)]%lookup_insert_Some Hr; [|by apply (Hcap r q)].
  rewrite Epar in Hr. destruct (Hcap id p E Hr) as [H1 H2]. destruct (Hnew Hr H1 H2) as [H3 E3]. split; [done | lia].
Qed.

(** A growth that is accepted does not wrap around. *)
Lemma growRoot_capacity bytes p a p' :
  0 ≤ bytes < 2 ^ 64 → 0 ≤ capacity_ p ≤ maxCapacity_ p → maxCapacity_ p ≤ int64_max → growRoot bytes p = Ok (a, p') →
  capacity_ p' = capacity_ p + bytes ∧ capacity_ p' ≤ maxCapacity_ p.
Proof.
  intros Hb Hc Hm H. unfold growRoot in H. inv_bind. simplify_eq. cbn. apply Z.leb_le in Ha0.
  rewrite Z.geb_leb in Ha1. apply Z.leb_le in Ha1. unfold uwrap, swrap in *. unfold_ints. rewrite (Z.mod_small (maxCapacity_ p)) in Ha0 by lia.
  assert (capacity_ p + bytes < 2 ^ 64 ∨ 2 ^ 64 ≤ capacity_ p + bytes) as [Hlt|Hge] by lia.
  - rewrite (Z.mod_small (capacity_ p + bytes)) in Ha0 by lia. rewrite Z.mod_small by lia. lia.
  - exfalso. assert ((capacity_ p + bytes) mod 2 ^ 64 = capacity_ p + bytes - 2 ^ 64) as E.
    { symmetry. apply (Z.mod_unique_pos _ _ 1); lia. }
    rewrite E in Ha0. assert ((capacity_ p + bytes + 2 ^ (64 - 1)) mod 2 ^ 64 = capacity_ p + bytes - 2 ^ 63) as E2.
    { symmetry. apply (Z.mod_unique_pos _ _ 1); lia. }
    rewrite E2 in Ha1. rewrite Z.mod_small in Ha1 by lia. lia.
Qed.

(** Shrinking takes unreserved capacity only. *)
Lemma shrinkRoot_capacity target p a p' :
  0 ≤ target → 0 ≤ reservationBytes_ p ≤ capacity_ p → capacity_ p ≤ int64_max → shrinkRoot target p = Ok (a, p') →
  capacity_ p' = capacity_ p - a ∧ 0 ≤ a ≤ capacity_ p - reservationBytes_ p ∧ (target ≠ 0 → a ≤ target) ∧
  (target = 0 → a = capacity_ p - reservationBytes_ p).
Proof.
  intros Ht Hc Hm H. unfold shrinkRoot, sub64 in H. unfold_ints. rewrite checked64_Ok in H by (unfold_ints; lia). inv_bind. simplify_eq. cbn.
  destruct (small64 (capacity_ p - reservationBytes_ p)) as [_ Eu]; [lia|]. rewrite Eu. rewrite Z.max_r by lia.
  destruct (Z.eqb_spec target 0) as [->|]; cbn [negb]; rewrite swrap_small by lia; lia.
Qed.

Lemma capacity_step s s' : inv s → capacity_ok (pools s) → sysStep false s s' → capacity_ok (pools s').
Proof.
  intros Hinv Hcap Hstep. destruct Hstep as [s i o under grew ps o' Ei Hu Hrun _|s i l p size only _ _ _ _ _ _|
    s i l p size _ _ _ _ _ _ _|s i l p _ _ _ _ _|s i e _|s name maxc al tr rc p Hmax Hnew|s par name kind safe rc ps Hadd|
    s id ps Hops Hch Hd|s id bytes a ps Hb Hg|s id target a ps Hb Hg|s id error ps Hg|s id ps Hg|s id count ps Hcount Hm]; cbn [pools]; try done.
  - destruct (opStep_changes under grew s i o ps o' Hinv Ei Hrun) as [->|(id & p & p' & -> & Ep & Es & Hfill)]; [done|].
    assert (under = false) as -> by (destruct under; [by specialize (Hu eq_refl)|done]). unfold static in Es. injection Es as _ _ Epar _ _ _ Emax Ecap _.
    apply (capacity_touch _ id p p' Hcap Ep Epar). intros Hr H1 H2. rewrite Emax, Ecap. split; [|done].
    destruct (inv_counters s Hinv id p Ep) as [[Hres _ _] _]. unfold isRoot in Hfill. rewrite bool_decide_true in Hfill by done.
    specialize (Hfill eq_refl eq_refl ltac:(lia)). lia.
  - intros r q [(<- & <-)|(_ & Hq)]%lookup_insert_Some Hr; [|by apply (Hcap r q)]. apply newPool_newborn in Hnew as Hnb.
    destruct (nb_root _ _ _ _ Hnb eq_refl) as (_ & Ec & Emax). pose proof (nb_counts _ _ _ _ Hnb) as Hz. unfold counts in Hz. injection Hz as Ez _ _.
    unfold newPool in Hnew. inv_bind. simplify_eq. cbn in *. unfold_ints. lia.
  - unfold addChild, getPool in Hadd. destruct (pools s !! par) as [p|] eqn:Ep; [|done]. cbn [mbind outcome_bind] in Hadd. destruct (isLeaf p); [done|].
    inv_bind. subst ps. apply newPool_newborn in Ha0. intros r q [(<- & <-)|(_ & Hq)]%lookup_insert_Some Hr; [by rewrite (nb_parent _ _ _ _ Ha0) in Hr|].
    refine (capacity_touch _ par p _ Hcap Ep _ _ r q Hq Hr); [done | by intros].
  - destruct (destroyPool_inv _ _ _ _ (inv_shape s Hinv) Hd) as (p & Ep & _ & _ & _ & _ & _). unfold destroyPool, getPool in Hd. rewrite Ep in Hd.
    cbn [mbind outcome_bind] in Hd. apply bind_Ok_inv in Hd as (ps1 & H1 & H). inv_bind. subst ps.
    assert (capacity_ok ps1) as Hcap1; [|intros r q [_ Hq]%lookup_delete_Some; by apply (Hcap1 r q)].
    destruct (parent_ p) as [q|]; [|by inv_bind; subst]. destruct (pools s !! q) as [pq|] eqn:Eq; [|done]. cbn [mbind outcome_bind] in H1.
    unfold dropChild in H1. destruct (isLeaf pq); [done|]. inv_bind. subst. apply (capacity_touch _ q pq); done.
  - apply updateRoot_inv in Hg as (r & p & p' & Ep & Hg & -> & _). destruct (inv_counters s Hinv r p Ep) as [[Hres _ _] _].
    pose proof (growRoot_inv _ _ _ _ Hg) as (Ep' & _). apply (capacity_touch _ r p p' Hcap Ep); [by rewrite Ep'|]. intros Hr H1 H2.
    destruct (growRoot_capacity bytes p a p' Hb ltac:(lia) H2 Hg) as [Ec Hle].
    assert (maxCapacity_ p' = maxCapacity_ p ∧ reservationBytes_ p' = reservationBytes_ p) as [-> ->] by (by rewrite Ep'). lia.
  - apply updateRoot_inv in Hg as (r & p & p' & Ep & Hg & -> & _). destruct (inv_counters s Hinv r p Ep) as [[Hres _ _] _].
    pose proof (shrinkRoot_inv _ _ _ _ Hg) as Ep'. apply (capacity_touch _ r p p' Hcap Ep); [by rewrite Ep'|]. intros Hr H1 H2.
    destruct (shrinkRoot_capacity target p a p' ltac:(lia) ltac:(lia) ltac:(lia) Hg) as (Ec & Ha & _).
    assert (maxCapacity_ p' = maxCapacity_ p ∧ reservationBytes_ p' = reservationBytes_ p) as [-> ->] by (by rewrite Ep'). lia.
  - apply updateRoot_inv in Hg as (r & p & p' & Ep & Ha & -> & _). unfold abortRoot in Ha. destruct (negb _); [done|]. inv_bind. simplify_eq.
    by apply (capacity_touch _ r p).
  - unfold setReclaimer, getPool in Hg. destruct (pools s !! id) as [p|] eqn:Ep; [|done]. inv_bind. subst ps.
    apply (capacity_touch _ id p); try done; by simplify_eq.
  - unfold memOp, getPool in Hm. destruct (pools s !! id) as [p|] eqn:Ep; [|done]. cbn [mbind outcome_bind] in Hm. destruct (negb _); [done|].
    simplify_eq. apply (capacity_touch _ id p); try done; set_unfold in Hcount; destruct Hcount as [-> | [-> | [-> | [-> | []]]]]; done.
Qed.

(** ** What the callers may rely on *)

(** A query pool of 64 MB with one operator, whose first reservation of 3 MB is
    on its way from the root to the leaf. *)
Definition valueOr {A} (d : A) (m : outcome A) : A := match m with Ok a => a | _ => d end.
Definition storeOf {A} (m : outcome (A * store)) : store := valueOr ∅ (snd <$> m).
Definition demoPool : MemoryPoolImpl :=
  mkPool "query" kAggregate 64 None (100 * kMB) true true false false None ∅ 0 0 0 0 0 0 0 0 0 0 0.
Definition demoRoot : store := {[0%nat := demoPool]}.
Definition demoGrown : store := storeOf (grow (64 * kMB) demoRoot 0).
Definition demoPools : store := valueOr ∅ (addChild demoGrown 0 1 "operator" kLeaf true false).
Definition demoRequest : op := Reserving 1 3000000 false 0.
Definition demoClimb (done : list nat) (next : nat) (rest : list nat) : op := Incrementing 1 3000000 false 0 (3 * kMB) done next rest.
Definition demoHalfway : store := valueOr ∅ (fst <$> opStep false false demoPools (demoClimb [] 0 [1%nat])).
Definition demo : system := mkSystem demoHalfway 2 {[7%nat := demoClimb [0%nat] 1 []]}.

Lemma limit_check (ps : store) : forallb (λ x, reservationBytes_ x.2 <? limit) (map_to_list ps) = true → bounded ps.
Proof.
  intros H id p Ep. rewrite forallb_forall in H. apply Z.ltb_lt. apply (H (id, p)). by apply list_elem_of_In, elem_of_map_to_list.
Qed.

Lemma step_single arbitration ps ps' next i o o' :
  opStep false false ps o = Ok (ps', o') → bounded ps' → sysStep arbitration (mkSystem ps next {[i := o]}) (mkSystem ps' next {[i := o']}).
Proof.
  intros Hrun Hb. pose proof (step_run arbitration (mkSystem ps next {[i := o]}) i o false false ps' o') as H. cbn in H.
  rewrite insert_singleton_eq in H. apply H; [apply lookup_singleton_eq | done..].
Qed.

Lemma idle_reachable arbitration : reachable arbitration (mkSystem demoPools 2 ∅).
Proof.
  apply (rtc_l _ _ (mkSystem demoRoot 1 ∅)).
  { apply (step_addRoot arbitration emptySystem "query" (100 * kMB) 64 true false demoPool); [done | by vm_compute]. }
  apply (rtc_l _ _ (mkSystem demoGrown 1 ∅)).
  { apply (step_grow arbitration (mkSystem demoRoot 1 ∅) 0 (64 * kMB) (64 * kMB)); [done | by vm_compute]. }
  apply rtc_once. apply (step_addChild arbitration (mkSystem demoGrown 1 ∅) 0 "operator" kLeaf true false). by vm_compute.
Qed.

Lemma demo_reachable arbitration : reachable arbitration demo.
Proof.
  apply (rtc_r _ (mkSystem demoPools 2 {[7%nat := demoClimb [] 0 [1%nat]]})); [|apply step_single; [by vm_compute | by apply limit_check]].
  apply (rtc_r _ (mkSystem demoPools 2 {[7%nat := demoRequest]})); [|apply step_single; [by vm_compute | by apply limit_check]].
  apply (rtc_r _ (mkSystem demoPools 2 ∅)); [apply idle_reachable|].
  apply (step_reserve arbitration (mkSystem demoPools 2 ∅) 7 1 (valueOr demoPool (getPool demoPools 1)) 3000000 false); try done. by left.
Qed.

(** C4: In every interleaving of reservations, releases, creation and
    destruction of pools and changes of capacity, an aggregate pool has
    reserved exactly what the leaves below it have reserved and what is on its
    way between them; when no call is running nothing is on its way.  A leaf
    never uses, and never keeps for later, more than it has reserved. *)
Theorem pool_accounting arbitration s id p :
  reachable arbitration s → pools s !! id = Some p →
  (kind_ p = kAggregate → reservationBytes_ p = leafBytes (pools s) id + pendingBytes s id ∧ (ops s = ∅ → pendingBytes s id = 0)) ∧
  0 ≤ usedReservationBytes_ p ≤ reservationBytes_ p ∧ 0 ≤ minReservationBytes_ p ≤ reservationBytes_ p.
Proof.
  intros Hinv%pools_reachable_inv Ep. destruct (inv_counters s Hinv id p Ep) as [[Hu Hm _] _]. split; [|done]. intros Ek.
  split; [by apply (inv_account s Hinv)|]. intros Eo. unfold pendingBytes. rewrite Eo. apply total_empty.
Qed.

Lemma pool_accounting_witness :
  leafBytes (pools demo) 0 = 0 ∧ pendingBytes demo 0 = 3 * kMB ∧ reservationBytes_ (valueOr demoPool (getPool (pools demo) 0)) = 3 * kMB.
Proof.
  destruct (pool_accounting false demo 0 (valueOr demoPool (getPool (pools demo) 0)) (demo_reachable false) eq_refl) as [H _].
  destruct (H eq_refl) as [H1 _]. split; [reflexivity|]. split; [reflexivity|]. rewrite H1. reflexivity.
Defined.

(** C6: No critical section of a reservation or a release fails: no sanity check,
    no check on the way up the tree, no dangling pool, no overflow, whatever the
    other threads do and whatever the capacity callback answers.  In particular
    the decrements, which must not throw, do not throw. *)
Theorem pool_sections_succeed arbitration s i o underArbitration grew :
  reachable arbitration s → ops s !! i = Some o →
  ∃ ps o', opStep underArbitration grew (pools s) o = Ok (ps, o').
Proof.
  intros Hinv%pools_reachable_inv Ei. destruct (opStep_runs underArbitration grew s i o Hinv Ei) as (ps & o' & Hrun & _). by exists ps, o'.
Qed.

Lemma pool_sections_succeed_witness : ∃ ps o', opStep true true (pools demo) (demoClimb [0%nat] 1 []) = Ok (ps, o').
Proof. apply (pool_sections_succeed false demo 7); [apply demo_reachable | reflexivity]. Defined.

(** C26: As long as no thread runs under memory arbitration, a root never has
    reserved more than its capacity, which never exceeds its maximum, in every
    interleaving with growth and shrinking; [freeBytes] does not throw. *)
Theorem pool_capacity s r p :
  reachable false s → pools s !! r = Some p → parent_ p = None →
  reservationBytes_ p ≤ capacity_ p ≤ maxCapacity_ p ∧ ∃ n, freeBytes (pools s) r = Ok n ∧ 0 ≤ n ≤ capacity_ p - reservationBytes_ p.
Proof.
  intros Hr Ep Eroot. pose proof (pools_reachable_inv false s Hr) as Hinv. assert (capacity_ok (pools s)) as Hcap.
  { clear Ep. unfold reachable in Hr. remember emptySystem as s0 eqn:E.
    assert (inv s0 ∧ capacity_ok (pools s0)) as [H0 H1] by (subst; split; [apply inv_empty | intros ? ? H; cbn in H; by rewrite lookup_empty in H]). clear E Hinv.
    induction Hr as [|s1 s2 s3 Hs _ IH]; [done|]. apply IH; [by apply (inv_step false s1) | by apply (capacity_step s1)]. }
  destruct (Hcap r p Ep Eroot) as [Hle Hmax]. split; [done|]. destruct (inv_counters s Hinv r p Ep) as [[Hres _ _] _].
  unfold freeBytes, atRoot, rootOf. rewrite (path_unfold _ r p (sh_tree _ _ (inv_shape s Hinv)) Ep), Eroot. cbn [mbind outcome_bind].
  rewrite (getPool_Some _ r p Ep). cbn [mbind outcome_bind]. destruct (Z.eqb_spec (capacity_ p) kMaxMemory); [exists 0; split; [done | lia]|].
  rewrite Z.geb_leb, (proj2 (Z.leb_le (reservationBytes_ p) (capacity_ p))) by lia. cbn [velox_check mbind outcome_bind].
  exists (capacity_ p - reservationBytes_ p). unfold sub64. rewrite checked64_Ok by (unfold_ints; lia). split; [done | lia].
Qed.

Lemma pool_capacity_witness : ∃ n, freeBytes (pools demo) 0 = Ok n ∧ 0 ≤ n ≤ 61 * kMB.
Proof.
  destruct (pool_capacity demo 0 (valueOr demoPool (getPool (pools demo) 0)) (demo_reachable false) eq_refl eq_refl) as [_ H]. exact H.
Defined.

(** When no call is running and every leaf is thread-safe and has neither
    memory in use nor a reservation kept for later, the reservations are gone
    from every pool up to the roots, and every pool without children can be
    destroyed. *)
Theorem memory_returned arbitration s :
  reachable arbitration s → ops s = ∅ →
  (∀ l p, pools s !! l = Some p → kind_ p = kLeaf →
    threadSafe_ p = true ∧ usedReservationBytes_ p = 0 ∧ minReservationBytes_ p = 0) →
  ∀ id p, pools s !! id = Some p →
    reservationBytes_ p = 0 ∧ (children_ p = ∅ → ∃ ps, destroyPool (pools s) id = Ok ps).
Proof.
  intros Hinv%pools_reachable_inv Eo Hleaf id p Ep.
  assert (∀ l q, pools s !! l = Some q → kind_ q = kLeaf → reservationBytes_ q = 0) as Hz.
  { intros l q Eq Ekq. destruct (Hleaf l q Eq Ekq) as (Et & U & M). destruct (inv_idle s Hinv l q Eq Ekq Et U M) as [?|(i & o & Ei & _)]; [done|].
    by rewrite Eo, lookup_empty in Ei. }
  assert (reservationBytes_ p = 0 ∧ usedReservationBytes_ p = 0 ∧ minReservationBytes_ p = 0) as (R & U & M).
  { destruct (kind_ p) eqn:Ek; [by destruct (Hleaf id p Ep Ek) as (_ & ? & ?); eauto|]. split; [|by apply (inv_counters s Hinv id p Ep)].
    rewrite (inv_account s Hinv id p Ep Ek). unfold pendingBytes. rewrite Eo, total_empty, Z.add_0_r. apply total_zero. intros l q Eq.
    unfold contrib. destruct (decide _) as [[Ekq _]|]; [by apply (Hz l) | done]. }
  split; [done|]. intros Ech. unfold destroyPool. rewrite (getPool_Some _ id p Ep). cbn [mbind outcome_bind]. rewrite R, U, M, Ech. cbn.
  destruct (inv_shape s Hinv) as [_ T S _ L]. pose proof (T id p Ep) as Hpar. destruct (parent_ p) as [q|] eqn:Eq; [|by eexists].
  destruct Hpar as (_ & pq & Epq & Ekq). rewrite (getPool_Some _ q pq Epq). cbn [mbind outcome_bind]. unfold dropChild, isLeaf.
  rewrite Ekq, (L id p q pq Ep Eq Epq). by eexists.
Qed.

Lemma memory_returned_witness : ∃ ps, destroyPool demoPools 1 = Ok ps.
Proof.
  assert (∀ l p, demoPools !! l = Some p → kind_ p = kLeaf → threadSafe_ p = true ∧ usedReservationBytes_ p = 0 ∧ minReservationBytes_ p = 0) as Hl.
  { intros l p Ep. assert (forallb (λ x, threadSafe_ x.2 && (usedReservationBytes_ x.2 =? 0) && (minReservationBytes_ x.2 =? 0)) (map_to_list demoPools) = true) as H by reflexivity.
    rewrite forallb_forall in H. specialize (H (l, p)). rewrite <- list_elem_of_In, elem_of_map_to_list in H. specialize (H Ep). cbn in H. intros _.
    apply andb_true_iff in H as [[H1 H2%Z.eqb_eq]%andb_true_iff H3%Z.eqb_eq]. done. }
  destruct (memory_returned false (mkSystem demoPools 2 ∅) (idle_reachable false) eq_refl Hl 1 (valueOr demoPool (getPool demoPools 1)) eq_refl) as [_ H].
  apply H. reflexivity.
Defined.

(** ** Where the code differs *)

(** A pool that was overused under arbitration: [std::max<uint64_t>(0, x)] does
    not keep a negative difference from becoming a huge number, and shrinking
    "all free bytes" enlarges the capacity from 3 MB to the 5 MB reserved and
    reports almost 2^64 bytes as freed. *)
Definition overused : MemoryPoolImpl := demoPool <| capacity_ := 3 * kMB |> <| reservationBytes_ := 5 * kMB |>.
Theorem shrink_overused :
  (∃ p, shrinkRoot 0 overused = Ok (2 ^ 64 - 2 * kMB, p) ∧ capacity_ p = 5 * kMB) ∧
  (∃ p, shrinkRoot kMB overused = Ok (kMB, p) ∧ capacity_ p = 2 * kMB).
Proof. split; eexists; split; vm_compute; reflexivity. Qed.
