(* ===== verification/MemoryPoolCalls.v ===== *)
(** * Calls on a memory pool that run alone

    A reservation or a release that no other thread interferes with returns,
    and changes the use of its leaf by what it was asked for, whatever the
    memory manager answers when the root asks it for more capacity; what is
    allocated can be freed again. *)
From S2P Require Import Prelude MemoryPool MemoryPoolState MemoryPoolReach MemoryPoolTheorems.
Local Open Scope Z_scope.

Definition alone (ps : store) (next : nat) (o : op) : Prop := inv (mkSystem ps next {[0%nat := o]}).

Lemma alone_step ps next o :
  ∀ grew, alone ps next o → ∃ ps' o', opStep false grew ps o = Ok (ps', o') ∧ (bounded ps' → alone ps' next o').
Proof.
  intros grew H. destruct (opStep_runs false grew _ 0%nat o H) as (ps' & o' & Hrun & Hok); [apply lookup_singleton_eq|].
  exists ps', o'. split; [done|]. intros Hb. specialize (Hok Hb). cbn in Hok. by rewrite insert_singleton_eq in Hok.
Qed.

Lemma alone_begin ps next l p o :
  inv (mkSystem ps next ∅) → ps !! l = Some p → op_ok ps o → (∀ a, pend a o = 0) →
  (∀ k q, ps !! k = Some q → releasing k o ≤ usedReservationBytes_ q) → alone ps next o.
Proof.
  intros Hinv Ep Hok Hp Hr. apply (inv_start (mkSystem ps next ∅) 0%nat o); try done; cbn. intros k q Eq. rewrite total_empty.
  pose proof (Hr k q Eq). lia.
Qed.

Lemma alone_end ps next e : alone ps next (Finished e) → inv (mkSystem ps next ∅).
Proof.
  intros H. pose proof (inv_return _ 0%nat e H (lookup_singleton_eq _ _)) as H'. cbn in H'. by rewrite delete_singleton_eq in H'.
Qed.

Lemma alone_bounded ps next o : alone ps next o → bounded ps.
Proof. intros H id p Ep. by destruct (inv_counters _ H id p Ep) as [[_ _ ?] _]. Qed.

Lemma bounded_insert ps id p : bounded ps → reservationBytes_ p < limit → bounded (<[id := p]> ps).
Proof. intros Hb Hp j q [(<- & <-)|(_ & Hj)]%lookup_insert_Some; [done | by apply (Hb j)]. Qed.

(** ** The callback that grows a root *)

(** What a call relies on of the callback of the memory manager when nobody else
    interferes: it keeps the accounts right, creates and destroys no pools,
    leaves the leaf that asks alone and lets no pool reserve more (it may take
    from others); and when it says that it has grown the root, the root has
    room for the increment, unless it was aborted meanwhile. *)
Class GrowsCapacity (growCapacityCb : store → nat → Z → bool * store) : Prop := {
  grow_ok ps next l p size only n inc grew ps' :
    alone ps next (Growing l size only n inc) → ps !! l = Some p → growCapacityCb ps l inc = (grew, ps') →
    alone ps' next (Growing l size only n inc) ∧ sameShapes ps ps' ∧ ps' !! l = Some p ∧
    ∀ j q q', ps !! j = Some q → ps' !! j = Some q' → reservationBytes_ q' ≤ reservationBytes_ q;
  grow_room ps next l size only n inc ps' r q :
    alone ps next (Growing l size only n inc) → growCapacityCb ps l inc = (true, ps') →
    rootOf ps' l = Ok r → ps' !! r = Some q → aborted_ q = true ∨ reservationBytes_ q + inc ≤ uwrap 64 (capacity_ q)
}.

(** A manager that grows nothing. *)
Definition refuse (ps : store) (_ : nat) (_ : Z) : bool * store := (false, ps).

#[export] Instance refuse_grows : GrowsCapacity refuse.
Proof. split; [|done]. intros ps next l p size only n inc grew ps' Ha Ep [= <- <-]. split_and!; try done. intros j q q' E1 E2. assert (q' = q) as -> by congruence. lia. Qed.

(** A manager that grows the root to what the request needs. *)
Definition growEnough (ps : store) (l : nat) (inc : Z) : bool * store :=
  match r ← rootOf ps l; getPool ps r with
  | Ok q => match grow (reservationBytes_ q + inc - capacity_ q) ps l with Ok (_, ps') => (true, ps') | _ => (false, ps) end
  | _ => (false, ps)
  end.

Lemma growEnough_cases ps l inc grew ps' :
  growEnough ps l inc = (grew, ps') →
  (grew = false ∧ ps' = ps) ∨
  (grew = true ∧ ∃ r q, rootOf ps l = Ok r ∧ ps !! r = Some q ∧ ps' = <[r := q <| capacity_ := swrap 64 (reservationBytes_ q + inc) |>]> ps).
Proof.
  unfold growEnough, grow, updateRoot. destruct (rootOf ps l) as [r| |] eqn:Er; cbn [mbind outcome_bind]; [|intros [= <- <-]; by left..].
  unfold getPool. destruct (ps !! r) as [q|] eqn:Eq; cbn [mbind outcome_bind]; [|intros [= <- <-]; by left].
  unfold growRoot, velox_check. destruct (negb _); cbn [mbind outcome_bind]; [|intros [= <- <-]; by left].
  destruct (_ <=? _); cbn [mbind outcome_bind]; [|intros [= <- <-]; by left]. destruct (_ >=? _); cbn [mbind outcome_bind]; [|intros [= <- <-]; by left].
  intros [= <- <-]. right. split; [done|]. exists r, q. do 2 (split; [done|]). by replace (capacity_ q + _) with (reservationBytes_ q + inc) by lia.
Qed.

#[export] Instance growEnough_grows : GrowsCapacity growEnough.
Proof.
  split.
  - intros ps next l p size only n inc grew ps' Ha Ep [[_ ->]|(_ & r & q & Er & Eq & ->)]%growEnough_cases.
    { split_and!; try done. intros j q q' E1 E2. assert (q' = q) as -> by congruence. lia. }
    destruct (inv_ops _ Ha 0%nat _ (lookup_singleton_eq _ _)) as [(pl & El & Ek) _]. cbn [pools] in El. assert (pl = p) as -> by congruence.
    pose proof (sh_tree _ _ (inv_shape _ Ha)) as Ht. cbn [pools] in Ht. unfold rootOf in Er. destruct (pathTo ps l) as [|r0 rest] eqn:Epath; [done|]. injection Er as ->.
    assert (r ≠ l) as Hne.
    { intros ->. destruct (path_kinds ps l p [] l rest Ht Ep Ek Epath) as (x & _ & [(-> & _)|(_ & ? & _)]); [|done].
      destruct (leaf_path ps l p Ht Ep Ek) as (par & _ & Hpath & Hpar). rewrite Epath in Hpath. by destruct (pathTo ps par) as [|? []]. }
    split_and!; [exact (inv_touch _ r q (q <| capacity_ := swrap 64 (reservationBytes_ q + inc) |>) Ha Eq eq_refl eq_refl) | by apply (sameShapes_insert ps r q) | by rewrite lookup_insert_ne |].
    intros j x x' E1 [(<- & <-)|(_ & E2)]%lookup_insert_Some; [|assert (x' = x) as -> by congruence; lia]. cbn. assert (x = q) as -> by congruence. lia.
  - intros ps next l size only n inc ps' r q Ha [[? _]|(_ & r0 & q0 & Er & Eq & ->)]%growEnough_cases Hr Hq; [done|].
    destruct (inv_ops _ Ha 0%nat _ (lookup_singleton_eq _ _)) as [_ (_ & Hinc)]. cbn in Hinc. destruct (inv_counters _ Ha r0 q0 Eq) as [[? _ ?] _].
    pose proof (inv_shape _ Ha) as Hsh. cbn [pools nextId] in Hsh. set (q1 := q0 <| capacity_ := _ |>) in *.
    pose proof (sameShapes_insert ps r0 q0 q1 Eq eq_refl) as Hsame. pose proof (shaped_same _ _ _ Hsh Hsame) as Hsh'.
    unfold rootOf in Hr, Er. rewrite (path_same ps _ l (sh_tree _ _ Hsh) (sh_tree _ _ Hsh') Hsame) in Hr.
    assert (r = r0) as -> by (destruct (pathTo ps l); congruence). rewrite lookup_insert_eq in Hq. injection Hq as <-. right. cbn.
    unfold limit, incrementLimit, kMB in *. destruct (small64 (reservationBytes_ q0 + inc)) as [E1 E2]; [lia|]. rewrite E1, E2. lia.
Qed.

(** ** Releases *)
Section Calls.
Context (growCapacityCb : store → nat → Z → bool * store) `{!GrowsCapacity growCapacityCb}.

Definition afterDecrement (l : nat) (amount : Z) (rest : list nat) (e : option exn) : op :=
  match rest with [] => Finished e | id :: rest' => Decrementing l amount id rest' e end.

Lemma decrement_one ps next l p amount id rest e :
  alone ps next (Decrementing l amount id rest e) → ps !! l = Some p →
  ∃ ps', opStep false false ps (Decrementing l amount id rest e) = Ok (ps', afterDecrement l amount rest e) ∧
    alone ps' next (afterDecrement l amount rest e) ∧ ps' !! l = Some p.
Proof.
  intros Ha Ep. destruct (decrement_ready _ 0%nat l amount id rest e Ha (lookup_singleton_eq _ _)) as (q & q' & Eq & Ekq & _ & _ & Edec & _ & Hc' & _).
  cbn [pools] in Eq. destruct (alone_step _ _ _ false Ha) as (ps' & o' & Hrun & Hok). pose proof Hrun as Hrun'. cbn [opStep] in Hrun'.
  unfold stepDecrement in Hrun'. rewrite (getPool_Some _ id q Eq) in Hrun'. cbn [mbind outcome_bind] in Hrun'. rewrite Edec in Hrun'.
  injection Hrun' as <- <-. exists (<[id := q']> ps). split; [done|]. split.
  - apply Hok, bounded_insert; [by apply (alone_bounded ps next _ Ha) | apply Hc'].
  - destruct (inv_ops _ Ha 0%nat _ (lookup_singleton_eq _ _)) as [(pl & El & Ekl) _]. cbn [pools] in El.
    rewrite lookup_insert_ne; [done|]. intros ->. congruence.
Qed.

Lemma run_decrement ps next l p amount id rest e fuel :
  alone ps next (Decrementing l amount id rest e) → ps !! l = Some p → (length rest < fuel)%nat →
  ∃ ps', runOp growCapacityCb fuel ps (Decrementing l amount id rest e) = Ok (ps', e) ∧ inv (mkSystem ps' next ∅) ∧ ps' !! l = Some p.
Proof.
  revert ps id fuel. induction rest as [|id' rest IH]; intros ps id fuel Ha Ep Hf; (destruct fuel as [|fuel]; [simpl in Hf; lia|]);
    destruct (decrement_one ps next l p amount id _ e Ha Ep) as (ps' & Hrun & Ha' & Ep'); cbn [runOp]; rewrite Hrun; cbn [mbind outcome_bind].
  - exists ps'. split; [by destruct fuel|]. split; [by apply (alone_end ps' next e) | done].
  - apply (IH ps' id' fuel Ha' Ep'). simpl in Hf. lia.
Qed.

(** A release returns, and rethrows what it was given. *)
Lemma run_release ps next l p size only e fuel :
  alone ps next (Releasing l size only e) → ps !! l = Some p → (length (pathTo ps l) < fuel)%nat →
  ∃ ps' p', runOp growCapacityCb fuel ps (Releasing l size only e) = Ok (ps', e) ∧ inv (mkSystem ps' next ∅) ∧ ps' !! l = Some p' ∧
    usedReservationBytes_ p' = usedReservationBytes_ p - size ∧ static p' = static p.
Proof.
  intros Ha Ep Hf. destruct (release_ready _ 0%nat l size only e Ha (lookup_singleton_eq _ _)) as
    (q & fr & p' & Eq & Ek & Hc & _ & Erel & Es & Hc' & Eu & _). cbn [pools] in Eq. assert (q = p) as -> by congruence.
  pose proof (sh_tree _ _ (inv_shape _ Ha)) as Ht. cbn [pools] in Ht. destruct (leaf_path ps l p Ht Ep Ek) as (par & Epar & Hpath & Hne).
  destruct (alone_step _ _ _ false Ha) as (ps1 & o1 & Hrun & Hok). pose proof Hrun as Hrun'. cbn [opStep] in Hrun'. unfold stepRelease in Hrun'.
  rewrite (getPool_Some _ l p Ep) in Hrun'. cbn [mbind outcome_bind] in Hrun'. rewrite isLeaf_kind in Hrun' by done.
  cbn [velox_check mbind outcome_bind] in Hrun'. rewrite Epar, Erel in Hrun'. injection Hrun' as <- <-.
  specialize (Hok (bounded_insert _ _ _ (alone_bounded _ _ _ Ha) (reserved_limit _ Hc'))).
  destruct fuel as [|fuel]; [lia|]. cbn [runOp]. rewrite Hrun. cbn [mbind outcome_bind].
  rewrite Hpath, length_app in Hf. simpl in Hf. destruct (pathTo ps par) as [|r rest]; [done|].
  assert (<[l := p']> ps !! l = Some p') as El by apply lookup_insert_eq. simpl in Hf. destruct (fr >? 0).
  - destruct (run_decrement _ next l p' fr r rest e fuel Hok El ltac:(lia)) as (ps' & -> & Hinv & El'). by exists ps', p'.
  - exists (<[l := p']> ps), p'. split; [by destruct fuel|]. split; [by apply (alone_end _ next e) | done].
Qed.

(** ** Reservations *)

(** Only a root can refuse an increment. *)
Lemma below_accepts ps next l size only n inc done id rest q :
  alone ps next (Incrementing l size only n inc done id rest) → done ≠ [] → ps !! id = Some q →
  ∃ q', maybeIncrementReservation false inc q = Ok (true, q').
Proof using.
  intros Ha Hne Eq. destruct (inv_ops _ Ha 0%nat _ (lookup_singleton_eq _ _)) as [(pl & El & _) (_ & Hinc & Hpath)]; cbn [pools] in El, Hpath.
  pose proof (sh_tree _ _ (inv_shape _ Ha)) as Ht. cbn [pools] in Ht. destruct (inv_counters _ Ha id q Eq) as [Hc _].
  destruct (maybeIncrement_spec false inc q Hc Hinc) as [(Hroot & _) | [(Hroot & _) | (q' & E & _)]]; [| |by exists q'];
    apply bool_decide_eq_true in Hroot; destruct Hne; by apply (path_root_first ps l done id rest q Ht ltac:(eauto)).
Qed.

(** The way down: every pool below the root takes the increment. *)
Lemma climb ps next l p size only n inc done id rest fuel :
  alone ps next (Incrementing l size only n inc done id rest) → ps !! l = Some p →
  (∀ j q, ps !! j = Some q → j ∈ id :: rest → reservationBytes_ q + inc < limit) →
  (∀ q, ps !! id = Some q → ∃ q', maybeIncrementReservation false inc q = Ok (true, q')) →
  ∃ ps' p', runOp growCapacityCb (S (length rest) + fuel) ps (Incrementing l size only n inc done id rest)
      = runOp growCapacityCb fuel ps' (Reserving l size only (n + 1)) ∧
    alone ps' next (Reserving l size only (n + 1)) ∧ ps' !! l = Some p' ∧ static p' = static p ∧
    reservationBytes_ p' = reservationBytes_ p + inc ∧ usedReservationBytes_ p' = usedReservationBytes_ p.
Proof.
  revert ps p done id. induction rest as [|id' rest IH]; intros ps p done id Ha Ep Hb Hacc;
    destruct (inv_ops _ Ha 0%nat _ (lookup_singleton_eq _ _)) as [(pl & El & Ek) (Hsize & Hinc & Hpath)]; cbn [pools] in El, Hpath;
    (assert (pl = p) as -> by congruence); pose proof (sh_tree _ _ (inv_shape _ Ha)) as Ht; cbn [pools] in Ht;
    destruct (path_kinds ps l p done id _ Ht Ep Ek Hpath) as (q & Eq & Hkind); destruct (Hacc q Eq) as (q' & Eacc);
    destruct (inv_counters _ Ha id q Eq) as [Hc _];
    destruct (maybeIncrement_spec false inc q Hc Hinc) as [(_ & e & E) | [(_ & E) | (q1 & E & Es & Er & Eu & Em & _)]]; try congruence;
    (assert (q1 = q') as -> by congruence);
    destruct (alone_step _ _ _ false Ha) as (ps1 & o1 & Hrun & Hok); pose proof Hrun as Hrun'; cbn [opStep] in Hrun'; unfold stepIncrement in Hrun';
    rewrite (getPool_Some _ l p Ep), (getPool_Some _ id q Eq) in Hrun'; cbn [mbind outcome_bind] in Hrun'; rewrite Eacc in Hrun';
    injection Hrun' as <- <-; cbn [length Nat.add runOp]; rewrite Hrun; cbn [mbind outcome_bind descend] in *;
    (assert (bounded (<[id := q']> ps)) as Hb' by (apply bounded_insert;
      [by apply (alone_bounded ps next _ Ha) | rewrite Er; apply (Hb id q Eq); by left])); specialize (Hok Hb').
  - destruct Hkind as [(_ & -> & ->)|[? _]]; [|done]. exists (<[l := q']> ps), q'. rewrite lookup_insert_eq. done.
  - destruct Hkind as [(? & _)|(_ & Hne & Ekq)]; [done|].
    pose proof (path_NoDup ps l Ht ltac:(eauto)) as Hnd. rewrite Hpath in Hnd. apply NoDup_app in Hnd as (_ & _ & Hnd). rewrite NoDup_cons in Hnd. destruct Hnd as [Hnin _].
    destruct (IH (<[id := q']> ps) p (done ++ [id]) id') as (ps' & p' & Hr & Ha' & El' & Hst); [done | by rewrite lookup_insert_ne | | |].
    + intros j x [(<- & _)|(_ & Hj)]%lookup_insert_Some Hin; [done|]. apply (Hb j x Hj). by right.
    + intros x Hx. apply (below_accepts (<[id := q']> ps) next l size only n inc (done ++ [id]) id' rest x Hok); [by destruct done | done].
    + exists ps', p'. done.
Qed.

(** A failure is rethrown; the use of the leaf is as before. *)
Lemma run_failed ps next l p e fuel :
  alone ps next (failed l p e) → ps !! l = Some p → (length (pathTo ps l) < fuel)%nat →
  ∃ ps' p', runOp growCapacityCb fuel ps (failed l p e) = Ok (ps', Some e) ∧ inv (mkSystem ps' next ∅) ∧ ps' !! l = Some p' ∧
    usedReservationBytes_ p' = usedReservationBytes_ p ∧ static p' = static p.
Proof.
  intros Ha Ep Hf. unfold failed in *. destruct (threadSafe_ p).
  - destruct (run_release ps next l p 0 false (Some e) fuel Ha Ep Hf) as (ps' & p' & Hrun & Hinv & El & Eu & Es). exists ps', p'.
    do 3 (split; [done|]). split; [lia | done].
  - exists ps, p. split; [by destruct fuel|]. split; [by apply (alone_end ps next (Some e)) | done].
Qed.

(** What makes a reservation of [size] bytes at the leaf [l] fail. *)
Definition noRoom (ps : store) (l : nat) (size : Z) : Prop :=
  ∃ r q, r ∈ pathTo ps l ∧ ps !! r = Some q ∧ parent_ q = None ∧
    (aborted_ q = true ∨ uwrap 64 (capacity_ q) < reservationBytes_ q + (size + 8 * kMB)).

Lemma refusal under inc q size :
  counters_ok q → 0 < inc < incrementLimit → inc ≤ size + 8 * kMB → isRoot q = true →
  (∀ q', maybeIncrementReservation under inc q ≠ Ok (true, q')) →
  aborted_ q = true ∨ uwrap 64 (capacity_ q) < reservationBytes_ q + (size + 8 * kMB).
Proof.
  intros [Hu _ Hl] Hinc Hle Hr Hno. destruct (aborted_ q) eqn:Ea; [by left|right]. unfold maybeIncrementReservation, checkIfAborted in Hno.
  rewrite Hr, Ea in Hno. cbn [mbind outcome_bind andb] in Hno. unfold limit, incrementLimit, kMB in *.
  destruct (small64 (reservationBytes_ q + inc)) as [_ Eu]; [lia|]. rewrite Eu in Hno.
  destruct ((_ >? _) && _) eqn:E; [|by destruct (Hno _ eq_refl)]. apply andb_true_iff in E as [E _]. rewrite Z.gtb_ltb in E. apply Z.ltb_lt in E. lia.
Qed.

(** What else a failure needs: the root is aborted, or the manager refuses to
    grow it, or aborts it. *)
Definition notGrown (ps : store) (l : nat) : Prop :=
  ∃ inc, (growCapacityCb ps l inc).1 = false ∨
    ∃ r q, r ∈ pathTo ps l ∧ parent_ q = None ∧ aborted_ q = true ∧ (ps !! r = Some q ∨ (growCapacityCb ps l inc).2 !! r = Some q).

Lemma throw_aborted inc q e : counters_ok q → 0 < inc < incrementLimit → maybeIncrementReservation false inc q = Throw e → aborted_ q = true.
Proof using.
  intros _ _. unfold maybeIncrementReservation, checkIfAborted. destruct (isRoot q), (aborted_ q); try done; cbn [mbind outcome_bind andb];
    by destruct (_ && _).
Qed.

(** The loop ends when the reservation suffices. *)
Lemma run_fit ps next l p size only n fuel :
  alone ps next (Reserving l size only n) → ps !! l = Some p → usedReservationBytes_ p + size ≤ reservationBytes_ p → (0 < fuel)%nat →
  ∃ ps' p', runOp growCapacityCb fuel ps (Reserving l size only n) = Ok (ps', None) ∧ inv (mkSystem ps' next ∅) ∧ ps' !! l = Some p' ∧
    usedReservationBytes_ p' = usedReservationBytes_ p + (if only then 0 else size) ∧ static p' = static p.
Proof.
  intros Ha Ep Hfit Hf. destruct (inv_ops _ Ha 0%nat _ (lookup_singleton_eq _ _)) as [(pl & El & Ek) Hsize]. cbn [pools] in El.
  assert (pl = p) as -> by congruence. cbn in Hsize. destruct (inv_counters _ Ha l p Ep) as [Hc _].
  destruct (alone_step _ _ _ false Ha) as (ps1 & o1 & Hrun & Hok). pose proof Hrun as Hrun'. cbn [opStep] in Hrun'. unfold stepReserve in Hrun'.
  rewrite (getPool_Some _ l p Ep) in Hrun'. cbn [mbind outcome_bind] in Hrun'. rewrite isLeaf_kind in Hrun' by done.
  cbn [velox_check mbind outcome_bind] in Hrun'.
  destruct (reserveLocked_spec size only p Hc Hsize) as [(p' & Er & _ & Es & Eres & Hc' & Eu & _) | (inc & Er & _ & Hinc & Einc)];
    rewrite Er in Hrun'; cbn [mbind outcome_bind] in Hrun'.
  - cbn [Z.eqb] in Hrun'. injection Hrun' as <- <-. destruct (addCollisions_same n p') as (As & Ar & Au & _).
    destruct fuel as [|fuel]; [lia|]. cbn [runOp]. rewrite Hrun. cbn [mbind outcome_bind]. exists (<[l := addCollisions n p']> ps), (addCollisions n p').
    split; [by destruct fuel|]. split; [|split; [apply lookup_insert_eq | by rewrite Au, Eu, As, Es]].
    apply (alone_end _ next None), Hok, bounded_insert; [by apply (alone_bounded ps next _ Ha) | rewrite Ar; apply Hc'].
  - exfalso. destruct (reservationSize_spec p size Hc Hsize) as [[_ E]|[? _]]; [|lia]. unfold reserveLocked in Er.
    unfold limit in Hsize. rewrite (proj1 (small64 size ltac:(lia))), E in Er. cbn [mbind outcome_bind Z.eqb] in Er.
    inv_bind. simplify_eq. lia.
Qed.

(** After the callback has grown the root, or the root was aborted. *)
Lemma run_regrown ps next l p size only n inc fuel :
  alone ps next (Regrown l size only n inc) → ps !! l = Some p → (2 * length (pathTo ps l) + 2 < fuel)%nat →
  (∀ r q, rootOf ps l = Ok r → ps !! r = Some q → aborted_ q = true ∨ reservationBytes_ q + inc ≤ uwrap 64 (capacity_ q)) →
  usedReservationBytes_ p + size ≤ reservationBytes_ p + inc → (∀ j q, ps !! j = Some q → reservationBytes_ q + inc < limit) →
  ∃ ps' e p', runOp growCapacityCb fuel ps (Regrown l size only n inc) = Ok (ps', e) ∧ inv (mkSystem ps' next ∅) ∧ ps' !! l = Some p' ∧
    usedReservationBytes_ p' = usedReservationBytes_ p + (match e with None => if only then 0 else size | Some _ => 0 end) ∧ static p' = static p ∧
    (e ≠ None → ∃ r q, r ∈ pathTo ps l ∧ ps !! r = Some q ∧ parent_ q = None ∧ aborted_ q = true).
Proof using Type*.
  intros Ha Ep Hf Hgrant Henough Hroom. destruct (inv_ops _ Ha 0%nat _ (lookup_singleton_eq _ _)) as [(pl & El & Ek) (Hsize & Hinc)].
  cbn [pools] in El. assert (pl = p) as -> by congruence. pose proof (sh_tree _ _ (inv_shape _ Ha)) as Ht. cbn [pools] in Ht.
  unfold rootOf in Hgrant. destruct (alone_step _ _ _ false Ha) as (ps1 & o1 & Hrun & Hok). pose proof Hrun as Hrun'. cbn [opStep] in Hrun'.
  destruct (pathTo ps l) as [|r rest] eqn:Epath; [done|]. destruct (path_kinds ps l p [] r rest Ht Ep Ek Epath) as (q & Eq & Hkind).
  specialize (Hgrant r q eq_refl Eq). destruct (inv_counters _ Ha r q Eq) as [Hcq _].
  unfold stepIncrement in Hrun'. rewrite (getPool_Some _ l p Ep), (getPool_Some _ r q Eq) in Hrun'. cbn [mbind outcome_bind] in Hrun'.
  destruct fuel as [|fuel]; [simpl in Hf; lia|]. cbn [runOp]. rewrite Hrun. cbn [mbind outcome_bind].
  destruct (maybeIncrement_spec false inc q Hcq Hinc) as [(Hr & e & E) | [(Hr & E) | (q1 & E & Es & Er & Eu & Em & _)]]; rewrite E in Hrun'.
  - injection Hrun' as <- <-. specialize (Hok (alone_bounded ps next _ Ha)).
    destruct (run_failed ps next l p e fuel Hok Ep) as (ps' & p' & Hrun2 & Hinv & El' & Eu & Es); [rewrite Epath; simpl in *; lia|].
    exists ps', (Some e), p'. do 3 (split; [done|]). split; [lia|]. split; [done|]. intros _. exists r, q. split; [set_solver|]. split; [done|].
    split; [by apply bool_decide_eq_true in Hr | by apply (throw_aborted inc q e)].
  - exfalso. unfold maybeIncrementReservation, checkIfAborted in E. rewrite Hr in E. destruct (aborted_ q) eqn:Eab; [by destruct (abortError_ q)|].
    destruct Hgrant as [|Hgrant]; [congruence|]. cbn [mbind outcome_bind andb] in E. destruct Hcq as [? _ ?]. unfold limit, incrementLimit, kMB in *.
    destruct (small64 (reservationBytes_ q + inc)) as [_ E64]; [lia|]. rewrite E64 in E. rewrite Z.gtb_ltb, (proj2 (Z.ltb_ge _ _)) in E by lia. done.
  - injection Hrun' as <- <-. assert (bounded (<[r := q1]> ps)) as Hb.
    { apply bounded_insert; [by apply (alone_bounded ps next _ Ha) | rewrite Er; by apply (Hroom r q)]. }
    specialize (Hok Hb). destruct Hkind as [(-> & -> & ->)|(Hne & Hrl & _)].
    { destruct (leaf_path ps l p Ht Ep Ek) as (par & _ & Hpath & Hpar). rewrite Epath in Hpath. by destruct (pathTo ps par) as [|? []]. }
    destruct rest as [|id rest]; [done|]. cbn [descend app] in *.
    replace fuel with (S (length rest) + (fuel - S (length rest)))%nat by (simpl in Hf; lia).
    pose proof (path_NoDup ps l Ht ltac:(eauto)) as Hnd. rewrite Epath in Hnd. apply NoDup_cons in Hnd as [Hnin _].
    destruct (climb (<[r := q1]> ps) next l p size only n inc [r] id rest (fuel - S (length rest)) Hok) as (ps' & p' & -> & Ha' & El' & Es' & Er' & Eu').
    + by rewrite lookup_insert_ne.
    + intros j x [(<- & _)|(_ & Hj)]%lookup_insert_Some Hin; [set_solver|]. by apply (Hroom j).
    + intros x Hx. by apply (below_accepts _ next l size only n inc [r] id rest x Hok).
    + destruct (run_fit ps' next l p' size only (n + 1) (fuel - S (length rest)) Ha' El' ltac:(lia) ltac:(simpl in Hf; lia)) as (ps2 & p2 & Hrun2 & Hinv & El2 & Eu2 & Es2).
      exists ps2, None, p2. do 3 (split; [done|]). split; [by rewrite Eu2, Eu'; destruct only|]. by rewrite Es2, Es'.
Qed.

(** The root has refused and the callback is asked. *)
Lemma run_growing ps next l p size only n inc fuel :
  alone ps next (Growing l size only n inc) → ps !! l = Some p → (2 * length (pathTo ps l) + 3 < fuel)%nat →
  usedReservationBytes_ p + size ≤ reservationBytes_ p + inc → (∀ j q, ps !! j = Some q → reservationBytes_ q + inc < limit) →
  ∃ ps' e p', runOp growCapacityCb fuel ps (Growing l size only n inc) = Ok (ps', e) ∧ inv (mkSystem ps' next ∅) ∧ ps' !! l = Some p' ∧
    usedReservationBytes_ p' = usedReservationBytes_ p + (match e with None => if only then 0 else size | Some _ => 0 end) ∧ static p' = static p ∧
    (e ≠ None → notGrown ps l).
Proof using Type*.
  intros Ha Ep Hf Henough Hroom. destruct fuel as [|fuel]; [lia|]. cbn [runOp]. destruct (growCapacityCb ps l inc) as [grew ps1] eqn:Ecb.
  destruct (grow_ok _ _ _ _ _ _ _ _ _ _ Ha Ep Ecb) as (Ha1 & Hsame & Ep1 & Hless).
  pose proof (path_same ps ps1 l (sh_tree _ _ (inv_shape _ Ha)) (sh_tree _ _ (inv_shape _ Ha1)) Hsame) as Epath.
  destruct (alone_step _ _ _ grew Ha1) as (ps2 & o2 & Hrun & Hok). pose proof Hrun as Hrun'. cbn [opStep] in Hrun'.
  rewrite (getPool_Some _ l p Ep1) in Hrun'. injection Hrun' as <- <-. specialize (Hok (alone_bounded ps1 next _ Ha1)). rewrite Hrun. cbn [mbind outcome_bind].
  destruct grew.
  - destruct (run_regrown ps1 next l p size only n inc fuel Hok Ep1) as (ps' & e & p' & Hrun2 & Hinv & El' & Eu & Es & He); [rewrite Epath; lia | | done | |].
    + intros r q. by apply (grow_room _ _ _ _ _ _ _ _ _ _ Ha Ecb).
    + intros j q1 Eq1. destruct (sameShapes_get ps ps1 j q1 Hsame Eq1) as (q & Eq & _). pose proof (Hless j q q1 Eq Eq1). pose proof (Hroom j q Eq). lia.
    + exists ps', e, p'. do 5 (split; [done|]). intros (r & q & Hin & Eq & Er & Eab)%He. exists inc. right. exists r, q. rewrite Epath in Hin. rewrite Ecb. auto.
  - destruct (run_failed ps1 next l p MemoryCapExceeded fuel Hok Ep1 ltac:(rewrite Epath; lia)) as (ps' & p' & Hrun3 & Hinv & El' & Eu & Es).
    exists ps', (Some MemoryCapExceeded), p'. do 3 (split; [done|]). split; [lia|]. split; [done|]. intros _. exists inc. left. by rewrite Ecb.
Qed.

(** The root is asked first: everything below takes what it accepts. *)
Lemma run_increment ps next l p size only n inc r rest fuel :
  alone ps next (Incrementing l size only n inc [] r rest) → ps !! l = Some p → (2 * length rest + 6 < fuel)%nat →
  inc ≤ size + 8 * kMB → usedReservationBytes_ p + size ≤ reservationBytes_ p + inc →
  (∀ j q, ps !! j = Some q → reservationBytes_ q + (size + 8 * kMB) < limit) →
  ∃ ps' e p', runOp growCapacityCb fuel ps (Incrementing l size only n inc [] r rest) = Ok (ps', e) ∧ inv (mkSystem ps' next ∅) ∧ ps' !! l = Some p' ∧
    usedReservationBytes_ p' = usedReservationBytes_ p + (match e with None => if only then 0 else size | Some _ => 0 end) ∧ static p' = static p ∧
    (e ≠ None → noRoom ps l size ∧ notGrown ps l).
Proof using Type*.
  intros Ha Ep Hf Hle Henough Hroom. destruct (inv_ops _ Ha 0%nat _ (lookup_singleton_eq _ _)) as [(pl & El & Ek) (Hsize & Hinc & Hpath)].
  cbn [pools] in El, Hpath. assert (pl = p) as -> by congruence. pose proof (sh_tree _ _ (inv_shape _ Ha)) as Ht. cbn [pools] in Ht.
  destruct (path_kinds ps l p [] r rest Ht Ep Ek Hpath) as (q & Eq & _). destruct (inv_counters _ Ha r q Eq) as [Hcq _].
  assert (length (pathTo ps l) = S (length rest)) as Hlen by by rewrite Hpath.
  assert (isRoot q = true → (∀ q', maybeIncrementReservation false inc q ≠ Ok (true, q')) → noRoom ps l size) as Hno.
  { intros Hr Hn. exists r, q. split; [rewrite Hpath; set_solver|]. split; [done|]. split; [by apply bool_decide_eq_true in Hr|].
    by apply (refusal false inc). }
  destruct (alone_step _ _ _ false Ha) as (ps1 & o1 & Hrun & Hok). pose proof Hrun as Hrun'. cbn [opStep] in Hrun'. unfold stepIncrement in Hrun'.
  rewrite (getPool_Some _ l p Ep), (getPool_Some _ r q Eq) in Hrun'. cbn [mbind outcome_bind] in Hrun'.
  destruct (maybeIncrement_spec false inc q Hcq Hinc) as [(Hr & e & E) | [(Hr & E) | (q1 & E & _)]]; rewrite E in Hrun'.
  - injection Hrun' as <- <-. specialize (Hok (alone_bounded ps next _ Ha)). destruct fuel as [|fuel]; [lia|]. cbn [runOp]. rewrite Hrun.
    cbn [mbind outcome_bind]. destruct (run_failed ps next l p e fuel Hok Ep ltac:(lia)) as (ps' & p' & Hrun2 & Hinv & El' & Eu & Es).
    exists ps', (Some e), p'. do 3 (split; [done|]). split; [lia|]. split; [done|]. intros _. split; [apply (Hno Hr); congruence|].
    exists inc. right. exists r, q. split; [rewrite Hpath; set_solver|]. split; [by apply bool_decide_eq_true in Hr|].
    split; [by apply (throw_aborted inc q e) | by left].
  - rewrite Hr in Hrun'. injection Hrun' as <- <-. specialize (Hok (alone_bounded ps next _ Ha)). destruct fuel as [|fuel]; [lia|].
    cbn [runOp]. rewrite Hrun. cbn [mbind outcome_bind].
    destruct (run_growing ps next l p size only n inc fuel Hok Ep ltac:(lia) Henough) as (ps' & e & p' & Hrun2 & Hinv & El' & Eu & Es & He);
      [intros j x Hx; pose proof (Hroom j x Hx); lia|].
    exists ps', e, p'. do 5 (split; [done|]). intros Hne. split; [apply (Hno Hr); congruence | by apply He].
  - replace fuel with (S (length rest) + (fuel - S (length rest)))%nat by lia.
    destruct (climb ps next l p size only n inc [] r rest (fuel - S (length rest)) Ha Ep) as (ps' & p' & -> & Ha' & El' & Es' & Er' & Eu').
    + intros j x Hx _. pose proof (Hroom j x Hx). lia.
    + intros x Hx. assert (x = q) as -> by congruence. by exists q1.
    + destruct (run_fit ps' next l p' size only (n + 1) (fuel - S (length rest)) Ha' El' ltac:(lia) ltac:(lia)) as (ps2 & p2 & Hrun2 & Hinv & El2 & Eu2 & Es2).
      exists ps2, None, p2. do 3 (split; [done|]). split; [by rewrite Eu2, Eu'; destruct only|]. by rewrite Es2, Es'.
Qed.

(** The reservation of a thread that runs alone, from the loop on. *)
Lemma run_reserve ps next l p size only n fuel :
  alone ps next (Reserving l size only n) → ps !! l = Some p → (2 * length (pathTo ps l) + 6 < fuel)%nat →
  (∀ j q, ps !! j = Some q → reservationBytes_ q + (size + 8 * kMB) < limit) →
  ∃ ps' e p', runOp growCapacityCb fuel ps (Reserving l size only n) = Ok (ps', e) ∧ inv (mkSystem ps' next ∅) ∧ ps' !! l = Some p' ∧
    usedReservationBytes_ p' = usedReservationBytes_ p + (match e with None => if only then 0 else size | Some _ => 0 end) ∧ static p' = static p ∧
    (e ≠ None → noRoom ps l size ∧ notGrown ps l).
Proof.
  intros Ha Ep Hf Hroom. destruct (inv_ops _ Ha 0%nat _ (lookup_singleton_eq _ _)) as [(pl & El & Ek) Hsize]. cbn [pools] in El.
  assert (pl = p) as -> by congruence. cbn in Hsize. destruct (inv_counters _ Ha l p Ep) as [Hc _].
  destruct (reserveLocked_spec size only p Hc Hsize) as [(p' & _ & Hfit & _) | (inc & Er & Hpos & Hinc & Einc)].
  - destruct (run_fit ps next l p size only n fuel Ha Ep Hfit ltac:(lia)) as (ps' & p2 & Hrun & Hinv & El' & Eu & Es). exists ps', None, p2.
    do 3 (split; [done|]). split; [by rewrite Eu; destruct only | done].
  - destruct (alone_step _ _ _ false Ha) as (ps1 & o1 & Hrun & Hok). pose proof Hrun as Hrun'. cbn [opStep] in Hrun'. unfold stepReserve in Hrun'.
    rewrite (getPool_Some _ l p Ep) in Hrun'. cbn [mbind outcome_bind] in Hrun'. rewrite isLeaf_kind in Hrun' by done.
    cbn [velox_check mbind outcome_bind] in Hrun'. rewrite Er in Hrun'. cbn [mbind outcome_bind] in Hrun'.
    pose proof (inv_shape _ Ha) as Hsh. cbn [pools nextId] in Hsh.
    destruct (Z.eqb_spec inc 0); [lia|]. rewrite (checkedPath_ok ps next) in Hrun' by (done || lia). cbn [mbind outcome_bind] in Hrun'.
    destruct (pathTo ps l) as [|r rest] eqn:Epath; [done|]. unfold incrementLimit, kMB in Hinc. destruct (small64 inc) as [_ E64]; [lia|].
    rewrite E64 in Hrun'. injection Hrun' as <- <-. specialize (Hok (alone_bounded ps next _ Ha)). simpl in Hf.
    destruct fuel as [|fuel]; [lia|]. cbn [runOp]. rewrite Hrun. cbn [mbind outcome_bind].
    pose proof (quantizedSize_spec (usedReservationBytes_ p + size)) as Hq. destruct Hc as [? ? ?]. unfold limit in Hsize, reserved_limit.
    apply (run_increment ps next l p size only n inc r rest fuel Hok Ep); [lia | unfold limit in *; lia | unfold limit in *; lia | done].
Qed.

(** ** Whole calls *)
Definition roomFor (ps : store) (size : Z) : Prop := ∀ j q, ps !! j = Some q → reservationBytes_ q + (size + 8 * kMB) < limit.

Lemma reserve_call ps next l p size only :
  inv (mkSystem ps next ∅) → ps !! l = Some p → kind_ p = kLeaf → trackUsage_ p = true → 0 ≤ size → roomFor ps size →
  ∃ ps' e p', reserve growCapacityCb ps l size only = Ok (ps', e) ∧ inv (mkSystem ps' next ∅) ∧ ps' !! l = Some p' ∧
    usedReservationBytes_ p' = usedReservationBytes_ p + (match e with None => if only then 0 else size | Some _ => 0 end) ∧ static p' = static p ∧
    (e ≠ None → noRoom ps l size ∧ notGrown ps l).
Proof.
  intros Hinv Ep Ek Et Hs Hroom. unfold reserve. rewrite (getPool_Some ps l p Ep). cbn [mbind outcome_bind]. rewrite Et.
  apply (run_reserve ps next l p size only 0); [|done | unfold callFuel; lia | done].
  apply (alone_begin ps next l p); [done | done | | done |].
  - split; [by exists p|]. pose proof (Hroom l p Ep). destruct (inv_counters _ Hinv l p Ep) as [[? _ _] _]. unfold kMB in *. cbn. lia.
  - intros k q Eq. cbn. destruct (inv_counters _ Hinv k q Eq) as [[? _ _] _]. lia.
Qed.

Lemma release_call ps next l p size :
  inv (mkSystem ps next ∅) → ps !! l = Some p → kind_ p = kLeaf → trackUsage_ p = true → 0 ≤ size ≤ usedReservationBytes_ p →
  ∃ ps' p', releaseBytes growCapacityCb ps l size false = Ok ps' ∧ inv (mkSystem ps' next ∅) ∧ ps' !! l = Some p' ∧
    usedReservationBytes_ p' = usedReservationBytes_ p - size ∧ static p' = static p.
Proof.
  intros Hinv Ep Ek Et Hs. unfold releaseBytes. rewrite (getPool_Some ps l p Ep). cbn [mbind outcome_bind]. rewrite Et.
  assert (alone ps next (Releasing l size false None)) as Ha.
  { apply (alone_begin ps next l p); [done | done | | done |]; [split; [by exists p | split; [lia | done]]|]. intros k q Eq. cbn.
    destruct (decide (l = k)) as [->|]; [assert (q = p) as -> by congruence; lia|]. destruct (inv_counters _ Hinv k q Eq) as [[? _ _] _]. lia. }
  destruct (run_release ps next l p size false None (callFuel ps l) Ha Ep) as (ps' & p' & -> & Hinv' & El & Eu & Es); [unfold callFuel; lia|].
  exists ps', p'. done.
Qed.

Lemma memOp_call count ps next l p :
  count ∈ [incAllocs; incFrees; incReserves; incReleases] → inv (mkSystem ps next ∅) → ps !! l = Some p → kind_ p = kLeaf →
  memOp count ps l = Ok (<[l := count p]> ps) ∧ inv (mkSystem (<[l := count p]> ps) next ∅) ∧ counts (count p) = counts p ∧
  shape (count p) = shape p ∧ alignment_ (count p) = alignment_ p.
Proof.
  intros Hc Hinv Ep Ek. assert (shape (count p) = shape p ∧ counts (count p) = counts p ∧ alignment_ (count p) = alignment_ p) as (Es & Ec & Ea).
  { set_unfold in Hc. by destruct Hc as [-> | [-> | [-> | [-> | []]]]]. }
  split; [|by split; [apply (inv_touch (mkSystem ps next ∅) l p)|]]. unfold memOp. rewrite (getPool_Some ps l p Ep). cbn [mbind outcome_bind].
  by rewrite isLeaf_kind.
Qed.

Lemma sizeAlign_spec p size :
  0 ≤ size < limit → 0 < alignment_ p ≤ 64 → ∃ a, sizeAlign p size = Ok a ∧ size ≤ a < size + alignment_ p ∧ (alignment_ p | a).
Proof.
  unfold limit. intros Hs Ha. unfold sizeAlign. pose proof (Z.rem_bound_pos size (alignment_ p) ltac:(lia) ltac:(lia)) as Hr.
  pose proof (Z.quot_rem' size (alignment_ p)) as Hq. destruct (Z.eqb_spec (Z.rem size (alignment_ p)) 0) as [E|E].
  - exists size. split; [done|]. split; [lia|]. exists (Z.quot size (alignment_ p)). lia.
  - unfold add64, sub64. rewrite checked64_Ok by (unfold_ints; lia). cbn [mbind outcome_bind]. rewrite checked64_Ok by (unfold_ints; lia).
    eexists. split; [done|]. split; [lia|]. exists (Z.quot size (alignment_ p) + 1). lia.
Qed.

End Calls.

(** C35: A reservation that no other thread interferes with returns, without
    running out of retries, for every callback that grows roots as documented:
    one that keeps the accounts and the requesting leaf as they are and, when
    it says that it has grown the root, has made room for the request, unless
    the root was aborted.  The reservation either makes the use of the leaf
    grow by exactly the requested size (or, when it only reserves, leaves it),
    or throws and leaves the use as it was.  It throws only when the root was
    aborted or lacked the capacity for the size and one quantum of 8 MB, and
    the callback did not grow it or it was aborted.  Afterwards the accounts
    are right again.  The reserved bytes of all pools are taken to stay below
    the limit of the counters. *)
Theorem reserve_alone growCapacityCb `{!GrowsCapacity growCapacityCb} arbitration s l p size only :
  reachable arbitration s → ops s = ∅ → pools s !! l = Some p → kind_ p = kLeaf → trackUsage_ p = true → 0 ≤ size → roomFor (pools s) size →
  ∃ ps' e p', reserve growCapacityCb (pools s) l size only = Ok (ps', e) ∧ inv (mkSystem ps' (nextId s) ∅) ∧ ps' !! l = Some p' ∧
    usedReservationBytes_ p' = usedReservationBytes_ p + (match e with None => if only then 0 else size | Some _ => 0 end) ∧ static p' = static p ∧
    (e ≠ None → noRoom (pools s) l size ∧ notGrown growCapacityCb (pools s) l).
Proof.
  intros Hinv%pools_reachable_inv Eo Ep Ek Et Hs Hroom. apply reserve_call; try done. destruct s as [ps n os]. cbn in *. by subst os.
Qed.

Lemma room_check (ps : store) size : forallb (λ x, reservationBytes_ x.2 + (size + 8 * kMB) <? limit) (map_to_list ps) = true → roomFor ps size.
Proof.
  intros H id p Ep. rewrite forallb_forall in H. apply Z.ltb_lt. apply (H (id, p)). by apply list_elem_of_In, elem_of_map_to_list.
Qed.

(** 90 MB in a root of 64 MB: the callback grows it, and the reservation is
    made in the second attempt. *)
Lemma reserve_alone_witness :
  ∃ ps' p', reserve growEnough demoPools 1 (90 * kMB) false = Ok (ps', None) ∧ ps' !! 1%nat = Some p' ∧ usedReservationBytes_ p' = 90 * kMB.
Proof.
  destruct (reserve_alone growEnough false (mkSystem demoPools 2 ∅) 1 (valueOr demoPool (getPool demoPools 1)) (90 * kMB) false (idle_reachable false))
    as (ps' & e & p' & Hrun & _ & El & Eu & _ & _); try reflexivity; [discriminate | apply room_check; reflexivity |].
  assert (snd <$> reserve growEnough demoPools 1 (90 * kMB) false = Ok None) as He by (vm_compute; reflexivity).
  exists ps', p'. cbn [pools] in Hrun. rewrite Hrun in He. injection He as ->. split; [exact Hrun|]. split; [exact El | exact Eu].
Defined.

(** What is allocated can be freed: after an allocation that succeeded, in a
    tree of pools where no other call is running, freeing a buffer of the same
    size returns and brings the use of the leaf back to what it was, whatever
    the alignment added. *)
Theorem allocate_free_roundtrip growCapacityCb `{!GrowsCapacity growCapacityCb} arbitration s l p size ps1 :
  reachable arbitration s → ops s = ∅ → pools s !! l = Some p → kind_ p = kLeaf → trackUsage_ p = true → 0 < alignment_ p ≤ 64 →
  0 ≤ size → roomFor (pools s) (size + 64) → allocate growCapacityCb (pools s) l size true = Ok (ps1, None) →
  ∃ ps2 p2, free growCapacityCb ps1 l size = Ok ps2 ∧ inv (mkSystem ps2 (nextId s) ∅) ∧ ps2 !! l = Some p2 ∧
    usedReservationBytes_ p2 = usedReservationBytes_ p.
Proof.
  intros Hinv%pools_reachable_inv Eo Ep Ek Et Hal Hs Hroom Halloc. destruct s as [ps n os]. cbn [pools ops nextId] in *. subst os.
  destruct (memOp_call incAllocs ps n l p) as (Hm & Hinv1 & Ec & Es & Ea); [set_solver | done..|].
  destruct (sizeAlign_spec (incAllocs p) size) as (a & Esize & Ha & _); [|by rewrite Ea|].
  { pose proof (Hroom l p Ep). destruct (inv_counters _ Hinv l p Ep) as [[? _ _] _]. unfold kMB in *. lia. }
  unfold allocate in Halloc. rewrite Hm in Halloc. cbn [mbind outcome_bind] in Halloc.
  rewrite (getPool_Some _ l (incAllocs p)) in Halloc by apply lookup_insert_eq. cbn [mbind outcome_bind] in Halloc. rewrite Esize in Halloc.
  cbn [mbind outcome_bind] in Halloc. unfold allocateAligned in Halloc.
  assert (roomFor (<[l := incAllocs p]> ps) a) as Hroom1.
  { intros j q [(<- & <-)|(_ & Hj)]%lookup_insert_Some; [pose proof (Hroom l p Ep) | pose proof (Hroom j q Hj)]; cbn in *; lia. }
  assert (0 ≤ a < 2 ^ 63) as Ha63.
  { pose proof (Hroom l p Ep). destruct (inv_counters _ Hinv l p Ep) as [[? _ _] _]. unfold kMB, limit in *. lia. }
  rewrite (proj2 (small64 a Ha63)) in Halloc.
  destruct (reserve_call growCapacityCb _ n l (incAllocs p) a false Hinv1 (lookup_insert_eq _ _ _)) as (ps' & e & p1 & Er & Hinv2 & El & Eu & Es1 & _);
    [done | done | lia | done |].
  rewrite Er in Halloc. cbn [mbind outcome_bind] in Halloc. destruct e; [done|]. injection Halloc as <-.
  unfold static in Es1. injection Es1 as _ Ek1 _ _ Et1 _ _ _ Ea1.
  destruct (memOp_call incFrees ps' n l p1) as (Hm2 & Hinv3 & _ & _ & Ea2); [set_solver | done | done | by rewrite Ek1 |].
  destruct (sizeAlign_spec (incFrees p1) size) as (a2 & Esize2 & _); [pose proof (Hroom l p Ep); destruct (inv_counters _ Hinv l p Ep) as [[? _ _] _]; unfold kMB in *; lia | by rewrite Ea2, Ea1 |].
  assert (a2 = a) as ->.
  { unfold sizeAlign in Esize, Esize2. rewrite Ea2, Ea1 in Esize2. rewrite Ea in Esize. change (alignment_ (incAllocs p)) with (alignment_ p) in Esize2.
    rewrite Esize in Esize2. by injection Esize2. }
  destruct (release_call growCapacityCb (<[l := incFrees p1]> ps') n l (incFrees p1) a Hinv3 (lookup_insert_eq _ _ _)) as (ps2 & p2 & Erel & Hinv4 & El2 & Eu2 & _);
    [change (kind_ p1 = kLeaf); by rewrite Ek1 | change (trackUsage_ p1 = true); by rewrite Et1 | |].
  { cbn. rewrite Eu. cbn. destruct (inv_counters _ Hinv l p Ep) as [[? _ _] _]. lia. }
  exists ps2, p2. unfold free. rewrite Hm2. cbn [mbind outcome_bind]. rewrite (getPool_Some _ l (incFrees p1)) by apply lookup_insert_eq.
  cbn [mbind outcome_bind]. rewrite Esize2. cbn [mbind outcome_bind]. rewrite (proj2 (small64 a Ha63)), Erel.
  do 3 (split; [done|]). rewrite Eu2. cbn. rewrite Eu. cbn. lia.
Qed.

Lemma allocate_free_roundtrip_witness :
  ∃ ps2 p2, free refuse (storeOf ((λ x, (x.2, x.1)) <$> allocate refuse demoPools 1 100 true)) 1 100 = Ok ps2 ∧ inv (mkSystem ps2 2 ∅) ∧
    ps2 !! 1%nat = Some p2 ∧ usedReservationBytes_ p2 = 0.
Proof.
  apply (allocate_free_roundtrip refuse false (mkSystem demoPools 2 ∅) 1 (valueOr demoPool (getPool demoPools 1)) 100); [apply idle_reachable |
    reflexivity | reflexivity | reflexivity | reflexivity | split; [reflexivity | discriminate] | discriminate | apply room_check; reflexivity |].
  vm_compute. reflexivity.
Defined.

(** ** Size classes *)

(** The sizes [MemoryPool::preferredSize] rounds to: the powers of two from 8 on,
    and the numbers halfway between them. *)
Definition sizeClass (c : Z) : Prop := ∃ k, 3 ≤ k ∧ (c = 2 ^ k ∨ c = 3 * 2 ^ (k - 1)).

(** [preferredSize] returns the least size class that is large enough, for
    every size up to 2^63. *)
Theorem preferredSize_least size :
  0 ≤ size ≤ 2 ^ 63 → sizeClass (preferredSize size) ∧ size ≤ preferredSize size ∧ ∀ c, sizeClass c → size ≤ c → preferredSize size ≤ c.
Proof.
  intros Hs. unfold preferredSize. destruct (Z.ltb_spec size 8) as [Hlt|Hge].
  - split; [exists 3; split; [lia | by left]|]. split; [lia|]. intros c (k & Hk & [-> | ->]) _.
    + change 8 with (2 ^ 3). apply Z.pow_le_mono_r; lia.
    + assert (2 ^ 2 ≤ 2 ^ (k - 1)) by (apply Z.pow_le_mono_r; lia). lia.
  - rewrite Z.shiftl_1_l. pose proof (Z.log2_spec size ltac:(lia)) as Hlog. pose proof (Z.log2_nonneg size) as Hnn. set (b := Z.log2 size) in *. clearbody b.
    assert (3 ≤ b ≤ 63) as Hb.
    { split; [|apply (Z.pow_le_mono_r_iff 2); lia]. assert (2 ^ 3 < 2 ^ Z.succ b) as H by lia. apply Z.pow_lt_mono_r_iff in H; lia. }
    assert (2 ^ b = 2 * 2 ^ (b - 1)) as Ehalf by (rewrite <- Z.pow_succ_r by lia; f_equal; lia).
    assert (2 ^ b / 2 = 2 ^ (b - 1)) as Hdiv by (rewrite Ehalf, Z.mul_comm; apply Z.div_mul; lia).
    rewrite Z.pow_succ_r in Hlog by lia. rewrite Hdiv.
    assert (∀ c, sizeClass c → size ≤ c → 2 ^ b < size → 3 * 2 ^ (b - 1) ≤ c ∧ (c < 2 ^ (b + 1) → c = 3 * 2 ^ (b - 1))) as Hleast.
    { intros c (k & Hk & Hc) Hsc Hbs. assert (2 ^ (k - 1) * 2 = 2 ^ k) as Ek by (rewrite Z.mul_comm, <- Z.pow_succ_r by lia; f_equal; lia).
      assert (2 ^ (b + 1) = 2 * 2 ^ b) as Eb by (rewrite Z.pow_add_r by lia; lia).
      destruct (Z.lt_trichotomy k b) as [Hkb|[->|Hkb]].
      - assert (2 ^ (k + 1) ≤ 2 ^ b) by (apply Z.pow_le_mono_r; lia). rewrite Z.pow_add_r in * by lia. lia.
      - lia.
      - assert (2 ^ (b + 1) ≤ 2 ^ k) by (apply Z.pow_le_mono_r; lia). lia. }
    assert (2 ^ b ≤ 2 ^ 63) by (apply Z.pow_le_mono_r; lia).
    destruct (Z.eqb_spec (2 ^ b) size) as [<-|Hne]; [|rewrite Z.geb_leb; unfold uwrap; rewrite (Z.mod_small (_ + _)) by lia; destruct (Z.leb_spec size (2 ^ b + 2 ^ (b - 1)))].
    + split; [exists b; split; [lia | by left]|]. split; [lia | done].
    + split; [exists b; split; [lia | right; lia]|]. split; [lia|]. intros c Hc Hsc. destruct (Hleast c Hc Hsc ltac:(lia)). lia.
    + assert (b < 63) as Hb63 by (assert (b ≠ 63); [intros ->|]; lia). assert (2 ^ (b + 1) ≤ 2 ^ 63) by (apply Z.pow_le_mono_r; lia).
      assert (2 ^ (b + 1) = 2 * 2 ^ b) as Eb by (rewrite Z.pow_add_r by lia; lia). rewrite Z.mod_small by lia.
      split; [exists (b + 1); split; [lia | left; lia]|]. split; [lia|]. intros c Hc Hsc. destruct (Hleast c Hc Hsc ltac:(lia)) as [_ H3].
      destruct (Z.lt_ge_cases c (2 ^ (b + 1))) as [Hl|]; [specialize (H3 Hl)|]; lia.
Qed.

Lemma preferredSize_least_witness : sizeClass (preferredSize 100) ∧ 100 ≤ preferredSize 100 ∧ ∀ c, sizeClass c → 100 ≤ c → preferredSize 100 ≤ c.
Proof. apply (preferredSize_least 100). split; discriminate. Defined.

(** The next power of two after a size of more than 1.5 * 2^63 is not a 64-bit
    number. *)
Theorem preferredSize_overflow : preferredSize (2 ^ 64 - 1) = 0.
Proof. reflexivity. Qed.
