(* ===== verification/Catalog.v ===== *)
(** * The optimizer's catalog

    Models the class [CataLog] of [velox/optimizer/CataLog.h] and the classes
    [Stat], [OutputStat] and [Source] of [velox/cost_model]: the maps from
    names and plan-node ids to files, schemas and statistics, every setter and
    getter, the lookups that abort or throw, and the histogram of a
    categorical column.  [RowType] stands for Velox's row types, which the
    catalog only stores; a [RowTypePtr] may be null. *)
From Stdlib Require Import SpecFloat Ascii String.
From S2P Require Import Prelude CFloat Text.
Local Open Scope Z_scope.

(** ** Files and sources *)
Inductive FileFormat :=
| UNKNOWN | DWRF | RC | RC_TEXT | RC_BINARY | TEXT | JSON | PARQUET | ALPHA | ORC.

#[global] Instance FileFormat_eq_dec : EqDecision FileFormat.
Proof. solve_decision. Defined.

(** A temporary file; the file is removed when the last reference goes. *)
Record TempFilePath := mkTempFilePath { path : string }.

#[global] Instance TempFilePath_eq_dec : EqDecision TempFilePath.
Proof. solve_decision. Defined.

Abbreviation PlanNodeId := string (only parsing).

Record OutputStat := mkOutputStat { stat_name : string; numRows : Z; numCols : Z }.

Inductive SourceType := NODE | FILE | VECTOR | DATABASE.

Record Source := mkSource {
  source_name : string;
  source_type : SourceType;
  source_stats : option OutputStat
}.

Section CataLog.
Context {RowType : Type}.
Notation RowTypePtr := (option RowType).

Record CataLog := mkCataLog {
  cl_name : string;
  defaultBlocksNum : Z;
  defaultBlocksSize : Z;
  blockingThreshold : Z;
  defaultSplits : Z;
  dataSourceStatMap : gmap string (list Z);
  idFileAddrMap : gmap PlanNodeId (list string);
  idFileFormatMap : gmap PlanNodeId FileFormat;
  vectorIdMap : gmap string PlanNodeId;
  dataSourceSchemaMap : gmap string RowTypePtr;
  dataSourceFileAddrMap : gmap string (list TempFilePath);
  dataSourceBlocksSchemaMap : gmap string RowTypePtr;
  dataSourceBlocksFileAddrMap : gmap string (list TempFilePath);
  UDFFileAddrMap : gmap string (list TempFilePath);
  UDFSchemaMap : gmap string RowTypePtr;
  fileSchemaMap : gmap PlanNodeId RowTypePtr;
  sourceMap : gmap string Source;
  preserveTempFilePaths : list TempFilePath;
  registeredDataSrcFiles : gmap string (list string);
  registeredDataSrcFormat : gmap string FileFormat;
  registeredDataSrcSchema : gmap string RowTypePtr;
  registeredDataSrcStats : gmap string (Z * Z);
  nodeIdRelationNameMap : gmap PlanNodeId string;
  numericalColMinMaxs : gmap string (Z * Z);
  categoricalColVals : gmap string (list string);
  factorizableOpSrcMap : gmap string (list string);
  factorizableSrcPushdownNodesMap : gmap string (list string);
  intermediateStateTupleCounterMap : gmap string Z;
  dataSrcSparsityMap : gmap string spec_float
}.

#[global] Instance CataLog_copy : Copyable CataLog := λ c,
  mkCataLog (cl_name c) (defaultBlocksNum c) (defaultBlocksSize c) (blockingThreshold c)
    (defaultSplits c) (dataSourceStatMap c) (idFileAddrMap c) (idFileFormatMap c) (vectorIdMap c)
    (dataSourceSchemaMap c) (dataSourceFileAddrMap c) (dataSourceBlocksSchemaMap c)
    (dataSourceBlocksFileAddrMap c) (UDFFileAddrMap c) (UDFSchemaMap c) (fileSchemaMap c)
    (sourceMap c) (preserveTempFilePaths c) (registeredDataSrcFiles c)
    (registeredDataSrcFormat c) (registeredDataSrcSchema c) (registeredDataSrcStats c)
    (nodeIdRelationNameMap c) (numericalColMinMaxs c) (categoricalColVals c)
    (factorizableOpSrcMap c) (factorizableSrcPushdownNodesMap c)
    (intermediateStateTupleCounterMap c) (dataSrcSparsityMap c).

(** [CataLog(name)] with the default member initialisers. *)
Definition newCataLog (name : string) : CataLog :=
  mkCataLog name 4 256 256 392 ∅ ∅ ∅ ∅ ∅ ∅ ∅ ∅ ∅ ∅ ∅ ∅ [] ∅ ∅ ∅ ∅ ∅ ∅ ∅ ∅ ∅ ∅ ∅.

(** ** UDF files *)
Definition udfKey (name : string) (flag : Z) (nameSuffix : string) : option string :=
  if flag =? 1 then Some ((name ++ "_weights" ++ nameSuffix)%string)
  else if flag =? 0 then Some ((name ++ "_values" ++ nameSuffix)%string)
  else None.

(** Both branches of the lookup assign to the two maps. *)
Definition add (name : string) (schema : RowTypePtr) (filePath : list TempFilePath) (flag : Z)
    (nameSuffix : string) (c : CataLog) : CataLog :=
  let c := c <| preserveTempFilePaths := preserveTempFilePaths c ++ filePath |> in
  match udfKey name flag nameSuffix with
  | Some key =>
      c <| UDFFileAddrMap := <[key := filePath]> (UDFFileAddrMap c) |>
        <| UDFSchemaMap := <[key := schema]> (UDFSchemaMap c) |>
  | None => c
  end.

Definition setUDFSchema (key : string) (schema : RowTypePtr) (c : CataLog) : CataLog :=
  c <| UDFSchemaMap := <[key := schema]> (UDFSchemaMap c) |>.

Definition findSchemaInMap (schemaMap : gmap string RowTypePtr) (key : string) : RowTypePtr :=
  default None (schemaMap !! key).

Definition findFileAddrInMap (fileAddrMap : gmap string (list TempFilePath)) (key : string)
    : list TempFilePath :=
  default [] (fileAddrMap !! key).

Definition findStatInMap (statMap : gmap string (list Z)) (key : string) : list Z :=
  default [] (statMap !! key).

Definition getUDFSchema (key : string) (c : CataLog) : outcome RowTypePtr :=
  match findSchemaInMap (UDFSchemaMap c) key with
  | None => Throw (RuntimeError "Key was not found in UDFSchemaMap.")
  | Some t => Ok (Some t)
  end.

Definition getUDFFileAddr (key : string) (c : CataLog) : outcome (list TempFilePath) :=
  match findFileAddrInMap (UDFFileAddrMap c) key with
  | [] => Throw (RuntimeError "Key was not found in UDFFileAddrMap.")
  | l => Ok l
  end.

Definition checkExistsUDFFileAddr (key : string) (c : CataLog) : bool :=
  bool_decide (is_Some (UDFFileAddrMap c !! key)).

(** ** The data source and its blocks, under the one key "values" *)
Definition setDataSourceBlocks (schema : RowTypePtr) (filePath : list TempFilePath)
    (c : CataLog) : CataLog :=
  c <| dataSourceBlocksSchemaMap := <["values"%string := schema]> (dataSourceBlocksSchemaMap c) |>
    <| dataSourceBlocksFileAddrMap := <["values"%string := filePath]> (dataSourceBlocksFileAddrMap c) |>.

Definition getDataSourceBlocksSchema (key : string) (c : CataLog) : RowTypePtr :=
  findSchemaInMap (dataSourceBlocksSchemaMap c) key.

Definition getDataSourceBlocksFileAddr (key : string) (c : CataLog) : list TempFilePath :=
  findFileAddrInMap (dataSourceBlocksFileAddrMap c) key.

Definition setDataSource (schema : RowTypePtr) (filePath : list TempFilePath) (c : CataLog) : CataLog :=
  c <| dataSourceSchemaMap := <["values"%string := schema]> (dataSourceSchemaMap c) |>
    <| dataSourceFileAddrMap := <["values"%string := filePath]> (dataSourceFileAddrMap c) |>.

Definition setDataSourceStat (dims : list Z) (c : CataLog) : CataLog :=
  c <| dataSourceStatMap := <["values"%string := dims]> (dataSourceStatMap c) |>.

Definition getDataSourceStat (key : string) (c : CataLog) : outcome (list Z) :=
  match findStatInMap (dataSourceStatMap c) key with
  | [] => Throw (RuntimeError "Key was not found in dataSourceStatMap.")
  | l => Ok l
  end.

(** ** Files of plan nodes *)
Definition setIdAddressFormat (p : PlanNodeId) (filePath : list string) (format : FileFormat)
    (c : CataLog) : CataLog :=
  c <| idFileAddrMap := <[p := filePath]> (idFileAddrMap c) |>
    <| idFileFormatMap := <[p := format]> (idFileFormatMap c) |>.

Definition setIdAddress (p : PlanNodeId) (filePath : list string) (c : CataLog) : CataLog :=
  setIdAddressFormat p filePath DWRF c.

(** The overload that takes temporary files keeps them alive. *)
Definition setIdAddressTemp (p : PlanNodeId) (filePath : list TempFilePath) (c : CataLog) : CataLog :=
  setIdAddressFormat p (map path filePath) DWRF
    (c <| preserveTempFilePaths := preserveTempFilePaths c ++ filePath |>).

Definition setIdAddressWhole (m : gmap PlanNodeId (list string)) (c : CataLog) : CataLog :=
  c <| idFileAddrMap := m |>.

(** [idFileAddrMap[p]] inserts an empty list for an unknown id. *)
Definition getFileAddress (p : PlanNodeId) (c : CataLog) : list string * CataLog :=
  match idFileAddrMap c !! p with
  | Some l => (l, c)
  | None => ([], c <| idFileAddrMap := <[p := []]> (idFileAddrMap c) |>)
  end.

Definition deleteIdAddressMap (p : PlanNodeId) (c : CataLog) : CataLog :=
  c <| idFileAddrMap := delete p (idFileAddrMap c) |>.

Definition clearIdAddressMap (c : CataLog) : CataLog := c <| idFileAddrMap := ∅ |>.

Definition setFileSchema (p : PlanNodeId) (schema : RowTypePtr) (c : CataLog) : CataLog :=
  c <| fileSchemaMap := <[p := schema]> (fileSchemaMap c) |>.

Definition getFileSchema (p : PlanNodeId) (c : CataLog) : RowTypePtr :=
  default None (fileSchemaMap c !! p).

Definition clearFileSchemaMap (c : CataLog) : CataLog := c <| fileSchemaMap := ∅ |>.

Definition setIdFileFormat (p : PlanNodeId) (format : FileFormat) (c : CataLog) : CataLog :=
  c <| idFileFormatMap := <[p := format]> (idFileFormatMap c) |>.

Definition getIdFileFormat (p : PlanNodeId) (c : CataLog) : FileFormat :=
  default DWRF (idFileFormatMap c !! p).

Definition setVectorIdMap (p : PlanNodeId) (values : string) (c : CataLog) : CataLog :=
  c <| vectorIdMap := <[values := p]> (vectorIdMap c) |>.

Definition deleteVectorIdMap (values : string) (c : CataLog) : CataLog :=
  c <| vectorIdMap := delete values (vectorIdMap c) |>.

Definition clearVectorIdMap (c : CataLog) : CataLog := c <| vectorIdMap := ∅ |>.

Definition getVectorIdMap (values : string) (c : CataLog) : PlanNodeId :=
  default ""%string (vectorIdMap c !! values).

(** ** Tuning parameters *)
Definition setBlockingThreshold (n : Z) (c : CataLog) : CataLog := c <| blockingThreshold := n |>.
Definition setDefaultBlocksNum (n : Z) (c : CataLog) : CataLog := c <| defaultBlocksNum := n |>.
Definition setDefaultBlocksSize (n : Z) (c : CataLog) : CataLog := c <| defaultBlocksSize := n |>.

(** ** Relation names and sources *)
Definition addNodeIdRelationName (p : PlanNodeId) (relationName : string) (c : CataLog) : CataLog :=
  c <| nodeIdRelationNameMap := <[p := relationName]> (nodeIdRelationNameMap c) |>.

(** A lookup that logs a fatal error, which aborts, when the key is missing. *)
Definition lookupOrFatal {A} (m : gmap string A) (key message : string) : outcome A :=
  match m !! key with
  | Some x => Ok x
  | None => Throw (FatalLog message)
  end.

Definition getNodeIdRelationName (p : PlanNodeId) (c : CataLog) : outcome string :=
  lookupOrFatal (nodeIdRelationNameMap c) p "PlanNodeId not exist in nodeIdRelationNameMap".

Definition clearNodeIdRelationNameMap (c : CataLog) : CataLog :=
  c <| nodeIdRelationNameMap := ∅ |>.

(** [sourceMap.insert] leaves an existing entry as it is. *)
Definition addSource (src : Source) (c : CataLog) : CataLog :=
  match sourceMap c !! source_name src with
  | Some _ => c
  | None => c <| sourceMap := <[source_name src := src]> (sourceMap c) |>
  end.

Definition removeSource (name : string) (c : CataLog) : CataLog :=
  c <| sourceMap := delete name (sourceMap c) |>.

Definition getSource (srcName : string) (c : CataLog) : outcome Source :=
  lookupOrFatal (sourceMap c) srcName "srcName not exist in sourceMap".

Definition clearSourceMap (c : CataLog) : CataLog := c <| sourceMap := ∅ |>.

(** ** Registered data sources *)
Definition registerDataSrc (name : string) (filePath : list string) (format : FileFormat)
    (schema : RowTypePtr) (stats : Z * Z) (c : CataLog) : outcome CataLog :=
  match registeredDataSrcFiles c !! name with
  | Some _ => Throw (FatalLog "name already exists in registeredDataSrcFiles")
  | None =>
      Ok (c <| registeredDataSrcFiles := <[name := filePath]> (registeredDataSrcFiles c) |>
            <| registeredDataSrcFormat := <[name := format]> (registeredDataSrcFormat c) |>
            <| registeredDataSrcSchema := <[name := schema]> (registeredDataSrcSchema c) |>
            <| registeredDataSrcStats := <[name := stats]> (registeredDataSrcStats c) |>)
  end.

(** The overload that takes temporary files; the check comes first. *)
Definition registerDataSrcTemp (name : string) (filePath : list TempFilePath) (schema : RowTypePtr)
    (stats : Z * Z) (c : CataLog) : outcome CataLog :=
  match registeredDataSrcFiles c !! name with
  | Some _ => Throw (FatalLog "name already exists in registeredDataSrcFiles")
  | None =>
      registerDataSrc name (map path filePath) DWRF schema stats
        (c <| preserveTempFilePaths := preserveTempFilePaths c ++ filePath |>)
  end.

Definition getRegisteredDataSrcFiles (name : string) (c : CataLog) : outcome (list string) :=
  lookupOrFatal (registeredDataSrcFiles c) name "name not exist in registeredDataSrcFiles".
Definition getRegisteredDataSrcFormat (name : string) (c : CataLog) : outcome FileFormat :=
  lookupOrFatal (registeredDataSrcFormat c) name "name not exist in registeredDataSrcFormat".
Definition getRegisteredDataSrcSchema (name : string) (c : CataLog) : outcome RowTypePtr :=
  lookupOrFatal (registeredDataSrcSchema c) name "name not exist in registeredDataSrcSchema".
Definition getRegisteredDataSrcStats (name : string) (c : CataLog) : outcome (Z * Z) :=
  lookupOrFatal (registeredDataSrcStats c) name "name not exist in registeredDataSrcStats".

Definition clearRegisteredDataSrc (c : CataLog) : CataLog :=
  c <| registeredDataSrcFiles := ∅ |> <| registeredDataSrcFormat := ∅ |>
    <| registeredDataSrcSchema := ∅ |> <| registeredDataSrcStats := ∅ |>.

(** ** Column statistics *)
Definition setDataSrcSparsity (name : string) (sparsity : spec_float) (c : CataLog) : CataLog :=
  c <| dataSrcSparsityMap := <[name := sparsity]> (dataSrcSparsityMap c) |>.

Definition getDataSrcSparsity (name : string) (c : CataLog) : spec_float :=
  default f32_zero (dataSrcSparsityMap c !! name).

Definition clearDataSrcSparsity (c : CataLog) : CataLog := c <| dataSrcSparsityMap := ∅ |>.

(** The bounds are doubles, the map stores pairs of [int]. *)
Definition addNumericalColMinMax (colName : string) (min max : spec_float) (c : CataLog)
    : outcome CataLog :=
  min' ← float_to_int32 min;
  max' ← float_to_int32 max;
  Ok (c <| numericalColMinMaxs := <[colName := (min', max')]> (numericalColMinMaxs c) |>).

Definition getNumericalColMinMax (colName : string) (c : CataLog) : outcome (Z * Z) :=
  lookupOrFatal (numericalColMinMaxs c) colName "colName not exist in numericalColMinMaxs".

Definition clearNumericalColMinMax (c : CataLog) : CataLog := c <| numericalColMinMaxs := ∅ |>.

Definition addCategoricalColVals (colName : string) (uniqueValues : list string) (c : CataLog) : CataLog :=
  c <| categoricalColVals := <[colName := uniqueValues]> (categoricalColVals c) |>.

Definition getCategoricalColVals (colName : string) (c : CataLog) : outcome (list string) :=
  lookupOrFatal (categoricalColVals c) colName "colName not exist in categoricalColVals".

Definition clearCategoricalColVals (c : CataLog) : CataLog := c <| categoricalColVals := ∅ |>.

(** ** Factorizable operators and intermediate states *)
Definition addFactorizableOpSrc (opName : string) (srcNames : list string) (c : CataLog) : CataLog :=
  c <| factorizableOpSrcMap := <[opName := srcNames]> (factorizableOpSrcMap c) |>.
Definition getFactorizableOpSrc (opName : string) (c : CataLog) : outcome (list string) :=
  lookupOrFatal (factorizableOpSrcMap c) opName "opName not exist in factorizableOpSrcMap".
Definition clearFactorizableOpSrc (c : CataLog) : CataLog := c <| factorizableOpSrcMap := ∅ |>.

Definition addFactorizableSrcPushdownNodes (opName : string) (pushdownNodes : list string)
    (c : CataLog) : CataLog :=
  c <| factorizableSrcPushdownNodesMap := <[opName := pushdownNodes]> (factorizableSrcPushdownNodesMap c) |>.
Definition getFactorizableSrcPushdownNodes (opName : string) (c : CataLog) : outcome (list string) :=
  lookupOrFatal (factorizableSrcPushdownNodesMap c) opName
    "opName not exist in factorizableSrcPushdownNodesMap".
Definition clearFactorizableSrcPushdownNodes (c : CataLog) : CataLog :=
  c <| factorizableSrcPushdownNodesMap := ∅ |>.

Definition getIntermediateStateTupleCounter (name : string) (c : CataLog) : Z :=
  default 0 (intermediateStateTupleCounterMap c !! name).
Definition setIntermediateStateTupleCounter (name : string) (counter : Z) (c : CataLog) : CataLog :=
  c <| intermediateStateTupleCounterMap := <[name := counter]> (intermediateStateTupleCounterMap c) |>.
Definition clearIntermediateStateTupleCounter (name : string) (c : CataLog) : CataLog :=
  c <| intermediateStateTupleCounterMap := delete name (intermediateStateTupleCounterMap c) |>.
Definition clearIntermediateStateTupleCounterMap (c : CataLog) : CataLog :=
  c <| intermediateStateTupleCounterMap := ∅ |>.

(** ** The histogram of a categorical column *)
Definition containsText (s : string) (sub : string) : bool :=
  match find_sub (txt sub) (txt s) with Some _ => true | None => false end.

(** The words of one value: a genre list is split at [|]. *)
Definition wordsOf (colName value : string) : list string :=
  if containsText colName "genres"
  then map string_of_list_ascii (splitString (txt value) "|"%char)
  else [value].

Definition countWord (counts : gmap string Z) (word : string) : gmap string Z :=
  <[word := default 0 (counts !! word) + 1]> counts.

Definition string_le (a b : string) : Prop := String.leb a b = true.
#[global] Instance string_le_dec : RelDecision string_le := λ a b, decide (String.leb a b = true).

(** The loop over the categories; [bins] has room for one more entry than
    [frequencies]. *)
Fixpoint fillBins (counts : gmap string Z) (totalCount : Z) (categories : list string) (index : nat)
    (frequencies : list spec_float) (bins : list string)
    : outcome (list spec_float * list string) :=
  match categories with
  | [] => Ok (frequencies, bins)
  | category :: rest =>
      if (length bins <=? index)%nat then Ok (frequencies, bins)
      else if (index <? length frequencies)%nat then
        let freq := match counts !! category with
                    | None => S754_zero false
                    | Some n => f64_div (f64_of_Z n) (f64_of_Z totalCount)
                    end in
        fillBins counts totalCount rest (S index) (<[index := freq]> frequencies)
          (<[index := category]> bins)
      else Undefined
  end.

Definition columnWords (colName : string) (column : list (option string)) : list string :=
  concat (map (λ v, match v with Some s => wordsOf colName s | None => [] end) column).

Definition categoriesToIterate (colName : string) (column : list (option string)) (c : CataLog)
    : list string :=
  match categoricalColVals c !! colName with
  | Some vals => vals
  | None => merge_sort string_le (remove_dups (columnWords colName column))
  end.

Definition processCategoricalColumn (colName : string) (column : list (option string))
    (frequencies : list spec_float) (bins : list string) (c : CataLog)
    : outcome (list spec_float * list string) :=
  let words := columnWords colName column in
  fillBins (foldl countWord ∅ words) (Z.of_nat (length words))
    (categoriesToIterate colName column c) 0 frequencies bins.

(** The call in [outputHistogramForData]: [numBins] frequencies and
    [numBins + 1] bin edges. *)
Definition categoricalHistogram (colName : string) (column : list (option string)) (numBins : nat)
    (c : CataLog) : outcome (list spec_float * list string) :=
  processCategoricalColumn colName column (replicate numBins (S754_zero false))
    (replicate (S numBins) ""%string) c.

(** ** The catalog as a state machine *)
Inductive cat_step : CataLog → CataLog → Prop :=
| step_add name schema files flag suffix c : cat_step c (add name schema files flag suffix c)
| step_setUDFSchema key schema c : cat_step c (setUDFSchema key schema c)
| step_setDataSourceBlocks schema files c : cat_step c (setDataSourceBlocks schema files c)
| step_setDataSource schema files c : cat_step c (setDataSource schema files c)
| step_setDataSourceStat dims c : cat_step c (setDataSourceStat dims c)
| step_setIdAddressFormat p files format c : cat_step c (setIdAddressFormat p files format c)
| step_setIdAddressTemp p files c : cat_step c (setIdAddressTemp p files c)
| step_setIdAddressWhole m c : cat_step c (setIdAddressWhole m c)
| step_getFileAddress p c : cat_step c (getFileAddress p c).2
| step_deleteIdAddressMap p c : cat_step c (deleteIdAddressMap p c)
| step_clearIdAddressMap c : cat_step c (clearIdAddressMap c)
| step_setFileSchema p schema c : cat_step c (setFileSchema p schema c)
| step_clearFileSchemaMap c : cat_step c (clearFileSchemaMap c)
| step_setIdFileFormat p format c : cat_step c (setIdFileFormat p format c)
| step_setVectorIdMap p values c : cat_step c (setVectorIdMap p values c)
| step_deleteVectorIdMap values c : cat_step c (deleteVectorIdMap values c)
| step_clearVectorIdMap c : cat_step c (clearVectorIdMap c)
| step_setBlockingThreshold n c : cat_step c (setBlockingThreshold n c)
| step_setDefaultBlocksNum n c : cat_step c (setDefaultBlocksNum n c)
| step_setDefaultBlocksSize n c : cat_step c (setDefaultBlocksSize n c)
| step_addNodeIdRelationName p name c : cat_step c (addNodeIdRelationName p name c)
| step_clearNodeIdRelationNameMap c : cat_step c (clearNodeIdRelationNameMap c)
| step_addSource src c : cat_step c (addSource src c)
| step_removeSource name c : cat_step c (removeSource name c)
| step_clearSourceMap c : cat_step c (clearSourceMap c)
| step_registerDataSrc name files format schema stats c c' :
    registerDataSrc name files format schema stats c = Ok c' → cat_step c c'
| step_registerDataSrcTemp name files schema stats c c' :
    registerDataSrcTemp name files schema stats c = Ok c' → cat_step c c'
| step_clearRegisteredDataSrc c : cat_step c (clearRegisteredDataSrc c)
| step_setDataSrcSparsity name x c : cat_step c (setDataSrcSparsity name x c)
| step_clearDataSrcSparsity c : cat_step c (clearDataSrcSparsity c)
| step_addNumericalColMinMax col min max c c' :
    addNumericalColMinMax col min max c = Ok c' → cat_step c c'
| step_clearNumericalColMinMax c : cat_step c (clearNumericalColMinMax c)
| step_addCategoricalColVals col vals c : cat_step c (addCategoricalColVals col vals c)
| step_clearCategoricalColVals c : cat_step c (clearCategoricalColVals c)
| step_addFactorizableOpSrc op srcs c : cat_step c (addFactorizableOpSrc op srcs c)
| step_clearFactorizableOpSrc c : cat_step c (clearFactorizableOpSrc c)
| step_addPushdown op nodes c : cat_step c (addFactorizableSrcPushdownNodes op nodes c)
| step_clearPushdown c : cat_step c (clearFactorizableSrcPushdownNodes c)
| step_setCounter name n c : cat_step c (setIntermediateStateTupleCounter name n c)
| step_clearCounter name c : cat_step c (clearIntermediateStateTupleCounter name c)
| step_clearCounters c : cat_step c (clearIntermediateStateTupleCounterMap c).

(** The states a catalog goes through. *)
Definition reachable (c : CataLog) : Prop := ∃ name, rtc cat_step (newCataLog name) c.

(** A registered name has all four entries, an UDF with files has a schema
    entry, and a source is stored under its own name. *)
Record catalog_ok (c : CataLog) : Prop := {
  co_format : ∀ n, is_Some (registeredDataSrcFormat c !! n) ↔ is_Some (registeredDataSrcFiles c !! n);
  co_schema : ∀ n, is_Some (registeredDataSrcSchema c !! n) ↔ is_Some (registeredDataSrcFiles c !! n);
  co_stats : ∀ n, is_Some (registeredDataSrcStats c !! n) ↔ is_Some (registeredDataSrcFiles c !! n);
  co_udf : ∀ k, is_Some (UDFFileAddrMap c !! k) → is_Some (UDFSchemaMap c !! k);
  co_source : ∀ n s, sourceMap c !! n = Some s → source_name s = n
}.

Lemma insert_is_Some {A} (m : gmap string A) k x n :
  is_Some (<[k := x]> m !! n) ↔ n = k ∨ is_Some (m !! n).
Proof. rewrite lookup_insert_is_Some. destruct (decide (n = k)); naive_solver. Qed.

Lemma is_Some_None_iff {A B} : is_Some (@None A) ↔ is_Some (@None B).
Proof. split; intros [? [=]]. Qed.

Lemma registered_ok name files format schema stats c c' :
  catalog_ok c → registerDataSrc name files format schema stats c = Ok c' → catalog_ok c'.
Proof.
  intros [H1 H2 H3 H4 H5]. unfold registerDataSrc. destruct (_ !! name); [done|]. intros [= <-].
  split; simpl; try done; intros n; rewrite !insert_is_Some; naive_solver.
Qed.

Lemma cat_step_ok c c' : cat_step c c' → catalog_ok c → catalog_ok c'.
Proof.
  intros Hs Hok. destruct Hs; try (destruct Hok; by split).
  - unfold add. destruct Hok as [H1 H2 H3 H4 H5]. destruct (udfKey _ _ _); [|by split].
    split; simpl; try done. intros k. rewrite !insert_is_Some. naive_solver.
  - destruct Hok as [H1 H2 H3 H4 H5]. split; simpl; try done. intros k Hk.
    rewrite insert_is_Some. auto.
  - unfold getFileAddress. destruct (_ !! p); simpl; destruct Hok; by split.
  - unfold addSource. destruct (_ !! _) eqn:E; [done|]. destruct Hok as [H1 H2 H3 H4 H5].
    split; simpl; try done. intros n s [[<- <-]|[_ Hs]]%lookup_insert_Some; [done | by apply H5].
  - destruct Hok as [H1 H2 H3 H4 H5]. split; simpl; try done.
    intros n s [_ Hs]%lookup_delete_Some. by apply H5.
  - by eapply registered_ok.
  - unfold registerDataSrcTemp in *. destruct (_ !! name) eqn:E; [done|].
    eapply registered_ok; [|done]. destruct Hok. by split.
  - destruct Hok as [_ _ _ H4 H5]. split; simpl; try done; intros n; rewrite !lookup_empty; apply is_Some_None_iff.
  - destruct Hok. unfold addNumericalColMinMax in *. inv_bind. subst. by split.
Qed.

Lemma newCataLog_ok name : catalog_ok (newCataLog name).
Proof.
  split; simpl; try (by intros; rewrite ?lookup_empty in *); intros n; rewrite !lookup_empty;
    apply is_Some_None_iff || by intros [? ?].
Qed.

Lemma reachable_ok c : reachable c → catalog_ok c.
Proof.
  intros (name & Hr). remember (newCataLog name) as c0 eqn:E.
  assert (catalog_ok c0) as Hok by (subst; apply newCataLog_ok). clear E.
  induction Hr; [done|]. eauto using cat_step_ok.
Qed.

(** Files handed over as temporary files are never released. *)
Lemma cat_step_preserves c c' :
  cat_step c c' → preserveTempFilePaths c `prefix_of` preserveTempFilePaths c'.
Proof.
  intros Hs. destruct Hs; try done.
  - unfold add. destruct (udfKey _ _ _); simpl; by eexists.
  - by eexists.
  - unfold getFileAddress. by destruct (_ !! p).
  - unfold addSource. by destruct (_ !! _).
  - unfold registerDataSrc in *. destruct (_ !! name); [done|]. by simplify_eq.
  - unfold registerDataSrcTemp, registerDataSrc in *. destruct (_ !! name) eqn:E; [done|].
    simpl in *. simplify_eq. simpl. by eexists.
  - unfold addNumericalColMinMax in *. inv_bind. by subst.
Qed.

(** ** Histograms *)
Definition frequency (counts : gmap string Z) (totalCount : Z) (category : string) : spec_float :=
  match counts !! category with
  | None => S754_zero false
  | Some n => f64_div (f64_of_Z n) (f64_of_Z totalCount)
  end.

Lemma countWords_spec words counts w :
  foldl countWord counts words !! w =
  if decide (w ∈ words) then Some (default 0 (counts !! w) + Z.of_nat (length (filter (.= w) words)))
  else counts !! w.
Proof.
  revert counts; induction words as [|x words IH]; intros counts; cbn [foldl].
  { by rewrite decide_False by apply not_elem_of_nil. }
  rewrite IH, filter_cons. unfold countWord. destruct (decide (x = w)) as [->|Hne].
  - rewrite lookup_insert_eq. simpl. rewrite (decide_True (P := w ∈ w :: words)) by set_solver.
    case_decide as Hw; simpl; [f_equal; lia|].
    rewrite (filter_none (.= w) words); [done|]. apply Forall_forall. intros y Hy ->. done.
  - rewrite lookup_insert_ne by done. simpl.
    destruct (decide (w ∈ words)) as [Hw|Hw].
    + by rewrite decide_True by set_solver.
    + by rewrite decide_False by set_solver.
Qed.

(** The entries before [index] stay, the next ones are the categories'. *)
Lemma fillBins_Ok counts total cats index freqs bins :
  (index + length cats ≤ length freqs)%nat → (length freqs ≤ length bins)%nat →
  ∃ freqs' bins', fillBins counts total cats index freqs bins = Ok (freqs', bins') ∧
    length freqs' = length freqs ∧ length bins' = length bins ∧
    (∀ i, (i < index)%nat → freqs' !! i = freqs !! i ∧ bins' !! i = bins !! i) ∧
    ∀ i cat, cats !! i = Some cat →
      bins' !! (index + i)%nat = Some cat ∧
      freqs' !! (index + i)%nat = Some (frequency counts total cat).
Proof.
  revert index freqs bins; induction cats as [|cat cats IH]; intros index freqs bins Hle Hfb; simpl in *.
  { eexists _, _. split_and!; done. }
  destruct (Nat.leb_spec (length bins) index); [lia|].
  destruct (Nat.ltb_spec index (length freqs)); [|lia]. fold (frequency counts total cat).
  destruct (IH (S index) (<[index := frequency counts total cat]> freqs) (<[index := cat]> bins))
    as (freqs' & bins' & -> & Hlf & Hlb & Hbelow & Hat); [rewrite !length_insert; lia..|].
  rewrite !length_insert in *. eexists _, _. split_and!; [done.. | |].
  - intros i Hi. destruct (Hbelow i) as [-> ->]; [lia|].
    rewrite !list_lookup_insert_ne by lia. done.
  - intros [|i] c Hc; simpl in Hc.
    + injection Hc as ->. rewrite Nat.add_0_r. destruct (Hbelow index) as [-> ->]; [lia|].
      rewrite !list_lookup_insert_eq by lia. done.
    + replace (index + S i)%nat with (S index + i)%nat by lia. by apply Hat.
Qed.

Lemma fillBins_overflow counts total cats index freqs bins :
  (index ≤ length freqs)%nat → (length freqs < length bins)%nat →
  (length freqs < index + length cats)%nat →
  fillBins counts total cats index freqs bins = Undefined.
Proof.
  revert index freqs bins; induction cats as [|cat cats IH]; intros index freqs bins Hi Hfb Hov;
    simpl in *; [lia|].
  destruct (Nat.leb_spec (length bins) index); [lia|].
  destruct (Nat.ltb_spec index (length freqs)); [|done].
  apply IH; rewrite !length_insert; lia.
Qed.

(** ** Properties *)

(** C39: In every state a catalog can reach through its operations, a
    registered data source has its files, format, schema and statistics
    together, an UDF with files has a schema entry, and each source is stored
    under its own name; so the getters of a registered source never abort. *)
Theorem catalog_invariant c :
  reachable c →
  catalog_ok c ∧
  ∀ name files, getRegisteredDataSrcFiles name c = Ok files →
    ∃ format schema stats, getRegisteredDataSrcFormat name c = Ok format ∧
      getRegisteredDataSrcSchema name c = Ok schema ∧ getRegisteredDataSrcStats name c = Ok stats.
Proof.
  intros Hr. pose proof (reachable_ok c Hr) as Hok. split; [done|].
  intros name files. unfold getRegisteredDataSrcFiles, getRegisteredDataSrcFormat,
    getRegisteredDataSrcSchema, getRegisteredDataSrcStats, lookupOrFatal.
  destruct (registeredDataSrcFiles c !! name) as [fs|] eqn:E; [|done]. intros _.
  destruct Hok as [H1 H2 H3 _ _].
  destruct (proj2 (H1 name) (mk_is_Some _ _ E)) as [? ->].
  destruct (proj2 (H2 name) (mk_is_Some _ _ E)) as [? ->].
  destruct (proj2 (H3 name) (mk_is_Some _ _ E)) as [? ->]. by eexists _, _, _.
Qed.

(** Registering a data source and reading it back: a fresh name is
    accepted, the four getters then return what was registered, other names
    are unaffected, and registering the name again aborts. *)
Theorem registerDataSrc_roundtrip name files format schema stats c :
  registeredDataSrcFiles c !! name = None →
  ∃ c', registerDataSrc name files format schema stats c = Ok c' ∧
    getRegisteredDataSrcFiles name c' = Ok files ∧
    getRegisteredDataSrcFormat name c' = Ok format ∧
    getRegisteredDataSrcSchema name c' = Ok schema ∧
    getRegisteredDataSrcStats name c' = Ok stats ∧
    (∀ other, other ≠ name →
       getRegisteredDataSrcFiles other c' = getRegisteredDataSrcFiles other c ∧
       getRegisteredDataSrcSchema other c' = getRegisteredDataSrcSchema other c) ∧
    ∀ files' format' schema' stats',
      registerDataSrc name files' format' schema' stats' c' =
      Throw (FatalLog "name already exists in registeredDataSrcFiles").
Proof.
  intros E. unfold registerDataSrc at 1. rewrite E. eexists. split; [done|].
  unfold getRegisteredDataSrcFiles, getRegisteredDataSrcFormat,
    getRegisteredDataSrcSchema, getRegisteredDataSrcStats, lookupOrFatal, registerDataSrc. simpl.
  rewrite !lookup_insert_eq. split_and!; try done.
  intros other Hne. by rewrite !lookup_insert_ne by done.
Qed.

(** A temporary file given to the catalog stays alive as long as the
    catalog: no operation drops one, and after [setIdAddressMap] with
    temporary files every path stored for the node belongs to a file that is
    kept, in every later state. *)
Theorem temp_files_kept p files c c' :
  rtc cat_step (setIdAddressTemp p files c) c' →
  fst (getFileAddress p (setIdAddressTemp p files c)) = map path files ∧
  Forall (λ s, ∃ f, f ∈ preserveTempFilePaths c' ∧ path f = s) (map path files).
Proof.
  intros Hr. split.
  - unfold getFileAddress, setIdAddressTemp, setIdAddressFormat. simpl. by rewrite lookup_insert_eq.
  - assert (preserveTempFilePaths (setIdAddressTemp p files c) `prefix_of` preserveTempFilePaths c')
      as [rest Hp].
    { induction Hr as [|x y z Hs _ IH]; [done|].
      etrans; [by apply cat_step_preserves | exact IH]. }
    rewrite Hp. simpl. apply Forall_forall. intros s (f & -> & Hf)%list_elem_of_fmap.
    exists f. set_solver.
Qed.

(** The histogram of a categorical column with at most [numBins]
    categories is complete: bin i names the i-th category and its frequency is
    the number of its occurrences divided by the number of all words. *)
Theorem categoricalHistogram_correct colName column numBins c :
  (length (categoriesToIterate colName column c) ≤ numBins)%nat →
  ∃ freqs bins, categoricalHistogram colName column numBins c = Ok (freqs, bins) ∧
    length freqs = numBins ∧ length bins = S numBins ∧
    ∀ i cat, categoriesToIterate colName column c !! i = Some cat →
      bins !! i = Some cat ∧
      freqs !! i = Some
        (let words := columnWords colName column in
         if decide (cat ∈ words)
         then f64_div (f64_of_Z (Z.of_nat (length (filter (.= cat) words))))
                (f64_of_Z (Z.of_nat (length words)))
         else S754_zero false).
Proof.
  intros Hle. unfold categoricalHistogram, processCategoricalColumn.
  destruct (fillBins_Ok (foldl countWord ∅ (columnWords colName column))
    (Z.of_nat (length (columnWords colName column))) (categoriesToIterate colName column c) 0
    (replicate numBins (S754_zero false)) (replicate (S numBins) ""%string))
    as (freqs & bins & -> & Hf & Hb & _ & Hat); rewrite ?length_replicate; [lia..|].
  rewrite length_replicate in Hf. simpl in Hb. rewrite length_replicate in Hb. eexists _, _. split_and!; [reflexivity | exact Hf | exact Hb |].
  intros i cat Hi. destruct (Hat i cat Hi) as [Hb' Hf']. split; [done|]. simpl in Hf'. rewrite Hf'.
  unfold frequency. rewrite countWords_spec, lookup_empty. simpl. by destruct (decide _).
Qed.

(** With more categories than bins the loop's bound is one too large: it
    stops at the end of the bin names, but the frequencies are one entry
    shorter, and the write past their end is undefined. *)
Theorem categoricalHistogram_overflow colName column numBins c :
  (numBins < length (categoriesToIterate colName column c))%nat →
  categoricalHistogram colName column numBins c = Undefined.
Proof.
  intros Hlt. unfold categoricalHistogram, processCategoricalColumn.
  apply fillBins_overflow; rewrite ?length_replicate; lia.
Qed.
End CataLog.
Arguments CataLog : clear implicits.

Definition sample_catalog : CataLog unit := newCataLog "demo".

Lemma catalog_invariant_witness :
  reachable (addSource (mkSource "t" FILE None) sample_catalog) ∧
  catalog_ok (addSource (mkSource "t" FILE None) sample_catalog).
Proof.
  assert (reachable (addSource (mkSource "t" FILE None) sample_catalog)) as Hr.
  { exists "demo"%string. apply rtc_once. apply step_addSource. }
  split; [exact Hr | exact (proj1 (catalog_invariant _ Hr))].
Defined.

Lemma registerDataSrc_roundtrip_witness :
  ∃ c', registerDataSrc "t" ["/tmp/a"%string] PARQUET None (10, 2) sample_catalog = Ok c' ∧
    getRegisteredDataSrcFormat "t" c' = Ok PARQUET.
Proof.
  destruct (registerDataSrc_roundtrip "t" ["/tmp/a"%string] PARQUET None (10, 2) sample_catalog)
    as (c' & H & _ & H' & _); [reflexivity|]. exists c'. split; [exact H | exact H'].
Defined.

Lemma temp_files_kept_witness :
  fst (getFileAddress "1" (setIdAddressTemp "1" [mkTempFilePath "/tmp/x"] sample_catalog)) =
    ["/tmp/x"%string] ∧
  ∃ f, f ∈ preserveTempFilePaths
         (clearIdAddressMap (setIdAddressTemp "1" [mkTempFilePath "/tmp/x"] sample_catalog)) ∧
       path f = "/tmp/x"%string.
Proof.
  destruct (temp_files_kept "1" [mkTempFilePath "/tmp/x"] sample_catalog
    (clearIdAddressMap (setIdAddressTemp "1" [mkTempFilePath "/tmp/x"] sample_catalog))) as [H1 H2].
  - apply rtc_once. apply step_clearIdAddressMap.
  - split; [exact H1|]. exact (Forall_inv H2).
Defined.

Lemma categoricalHistogram_correct_witness :
  length (categoriesToIterate "genres" [Some "b|a"%string; None; Some "a"%string] sample_catalog) = 2%nat ∧
  ∃ freqs bins, categoricalHistogram "genres" [Some "b|a"%string; None; Some "a"%string] 2 sample_catalog
    = Ok (freqs, bins) ∧ bins !! 0%nat = Some "a"%string.
Proof.
  split; [reflexivity|].
  destruct (categoricalHistogram_correct "genres" [Some "b|a"%string; None; Some "a"%string] 2 sample_catalog)
    as (freqs & bins & H & _ & _ & Hat); [vm_compute; lia|].
  exists freqs, bins. split; [exact H|]. apply (Hat 0%nat "a"%string). reflexivity.
Defined.

Lemma categoricalHistogram_overflow_witness :
  categoricalHistogram "city" [Some "b"%string; Some "a"%string] 1 sample_catalog = Undefined.
Proof.
  apply (categoricalHistogram_overflow "city" [Some "b"%string; Some "a"%string] 1 sample_catalog).
  vm_compute. lia.
Defined.
