(* ===== verification/Plan.v ===== *)
(** * Plan trees

    Models the searches and edits of [velox/optimizer/Helper.h] on query
    plans: [findPlanNodeById] and [findNodeIdsBetweenIds] on plan nodes,
    [replaceSourceWithIdInSerializedPlan] and
    [addProjectionFiledInSerializedPlan] on serialized plans. *)
From Stdlib Require Import Ascii String.
From S2P Require Import Prelude Text Catalog.
Local Open Scope list_scope.

(** ** Plan nodes

    What the optimizer reads of a [core::PlanNode]: its id, its name, its
    sources and, for a project node, the printed projections (null
    expressions included). *)
Inductive PlanNode := mkPlanNode {
  node_id : string;
  node_name : string;
  projections : list (option string);
  sources : list PlanNode
}.

Section PlanNode_ind.
Context (P : PlanNode → Prop).
Hypothesis step : ∀ id name projs srcs, Forall P srcs → P (mkPlanNode id name projs srcs).

(** Induction through the list of sources. *)
Fixpoint PlanNode_ind' (n : PlanNode) : P n :=
  match n with
  | mkPlanNode id name projs srcs =>
      step id name projs srcs
        ((fix go (l : list PlanNode) : Forall P l :=
            match l with
            | [] => Forall_nil_2 P
            | x :: l' => Forall_cons_2 P x l' (PlanNode_ind' x) (go l')
            end) srcs)
  end.
End PlanNode_ind.

(** The ids of a plan, in the order of the recursive searches. *)
Fixpoint ids (n : PlanNode) : list string :=
  node_id n :: concat (map ids (sources n)).

(** The first result that is not null. *)
Fixpoint firstFound {A B} (f : A → option B) (l : list A) : option B :=
  match l with
  | [] => None
  | x :: l' => match f x with Some y => Some y | None => firstFound f l' end
  end.

Fixpoint findPlanNodeById (planNode : PlanNode) (nodeId : string) : option PlanNode :=
  if bool_decide (node_id planNode = nodeId) then Some planNode
  else firstFound (λ child, findPlanNodeById child nodeId) (sources planNode).

(** [findNodeIdsBetweenIds] appends to and pops from the shared vector
    [nodeIds]; the result is the returned vector and the vector left behind.
    The loop over the children stops at the first non-empty result. *)
Fixpoint searchChildren (f : PlanNode → list string → list string * list string)
    (children : list PlanNode) (nodeIds : list string) : list string * list string :=
  match children with
  | [] => ([], removelast nodeIds)
  | child :: rest =>
      let '(found, nodeIds') := f child nodeIds in
      match found with
      | [] => searchChildren f rest nodeIds'
      | _ => (found, nodeIds')
      end
  end.

Fixpoint findNodeIdsBetweenIds (sourceNodeId targetNodeId : string) (planNode : PlanNode)
    (nodeIds : list string) : list string * list string :=
  let planNodeId := node_id planNode in
  let nodeIds :=
    if negb (bool_decide (planNodeId = sourceNodeId)) &&
       negb (bool_decide (planNodeId = targetNodeId))
    then nodeIds ++ [planNodeId] else nodeIds in
  if bool_decide (planNodeId = sourceNodeId) then (nodeIds, nodeIds)
  else searchChildren (findNodeIdsBetweenIds sourceNodeId targetNodeId) (sources planNode) nodeIds.

(** ** Serialized plans

    The members of the JSON object of a node that these functions touch; a
    node without the key "sources" has [None]. *)
Section SerializedPlan.
Context {Expr Ty : Type}.

Inductive SerializedPlan := mkSerialized {
  s_id : string;
  s_name : string;
  s_projections : list Expr;
  s_names : list string;
  s_outputTypes : list Ty;
  s_outputNames : list string;
  s_sources : option (list SerializedPlan)
}.

Section SerializedPlan_ind.
Context (P : SerializedPlan → Prop).
Hypothesis leaf : ∀ i n pr ns ot onm, P (mkSerialized i n pr ns ot onm None).
Hypothesis inner : ∀ i n pr ns ot onm srcs,
  Forall P srcs → P (mkSerialized i n pr ns ot onm (Some srcs)).

Fixpoint SerializedPlan_ind' (s : SerializedPlan) : P s :=
  match s with
  | mkSerialized i n pr ns ot onm None => leaf i n pr ns ot onm
  | mkSerialized i n pr ns ot onm (Some srcs) =>
      inner i n pr ns ot onm srcs
        ((fix go (l : list SerializedPlan) : Forall P l :=
            match l with
            | [] => Forall_nil_2 P
            | x :: l' => Forall_cons_2 P x l' (SerializedPlan_ind' x) (go l')
            end) srcs)
  end.
End SerializedPlan_ind.

Definition withSources (s : SerializedPlan) (srcs : option (list SerializedPlan)) : SerializedPlan :=
  mkSerialized (s_id s) (s_name s) (s_projections s) (s_names s) (s_outputTypes s)
    (s_outputNames s) srcs.

(** The loop over the sources: a match is replaced and ends the loop. *)
Fixpoint replaceIn (f : SerializedPlan → SerializedPlan) (new : SerializedPlan) (nodeId : string)
    (l : list SerializedPlan) : list SerializedPlan :=
  match l with
  | [] => []
  | source :: rest =>
      if bool_decide (s_id source = nodeId) then new :: rest
      else f source :: replaceIn f new nodeId rest
  end.

Fixpoint replaceSourceWithIdInSerializedPlan (new : SerializedPlan) (nodeId : string)
    (s : SerializedPlan) : SerializedPlan :=
  match s_sources s with
  | None => s
  | Some srcs =>
      withSources s (Some (replaceIn (replaceSourceWithIdInSerializedPlan new nodeId) new nodeId srcs))
  end.

(** A field to be added: its name, its type and the field-access
    expression. *)
Record Field := mkField { fieldName : string; fieldType : Ty; fieldExpr : Expr }.

Definition addField (field : Field) (s : SerializedPlan) : outcome SerializedPlan :=
  if containsText (s_name s) "Project" then
    Ok (mkSerialized (s_id s) (s_name s) (s_projections s ++ [fieldExpr field])
          (s_names s ++ [fieldName field]) (s_outputTypes s) (s_outputNames s) (s_sources s))
  else if containsText (s_name s) "Join" then
    Ok (mkSerialized (s_id s) (s_name s) (s_projections s) (s_names s)
          (s_outputTypes s ++ [fieldType field]) (s_outputNames s ++ [fieldName field]) (s_sources s))
  else if containsText (s_name s) "Filter" || containsText (s_name s) "LimitNode" then Ok s
  else Throw (RuntimeError "addProjectionFiledInSerializedPlan: Unsupported node type").

Fixpoint addProjectionFiledInSerializedPlan (field : Field) (nodeIds : list string)
    (s : SerializedPlan) : outcome SerializedPlan :=
  match s_sources s with
  | None => Ok s
  | Some srcs =>
      s' ← (if bool_decide (s_id s ∈ nodeIds) then addField field s else Ok s);
      srcs' ← mapM_o (addProjectionFiledInSerializedPlan field nodeIds) srcs;
      Ok (withSources s' (Some srcs'))
  end.
End SerializedPlan.
Arguments SerializedPlan : clear implicits.
Arguments Field : clear implicits.

(** ** Finding a node *)

(** [m] is [n] or below it. *)
Inductive subplan (m : PlanNode) : PlanNode → Prop :=
| subplan_refl : subplan m m
| subplan_source n s : s ∈ sources n → subplan m s → subplan m n.

Lemma firstFound_Some {A B} (f : A → option B) l y :
  firstFound f l = Some y → ∃ x, x ∈ l ∧ f x = Some y.
Proof.
  induction l as [|x l IH]; simpl; [done|]. destruct (f x) eqn:E.
  - intros [= <-]. exists x. set_solver.
  - intros (x' & ? & ?)%IH. exists x'. set_solver.
Qed.

Lemma firstFound_None {A B} (f : A → option B) l : firstFound f l = None ↔ Forall (λ x, f x = None) l.
Proof.
  induction l as [|x l IH]; simpl; [done|]. rewrite Forall_cons. destruct (f x); naive_solver.
Qed.

Lemma findPlanNodeById_Some n nodeId m :
  findPlanNodeById n nodeId = Some m → subplan m n ∧ node_id m = nodeId.
Proof.
  revert m; induction n as [id name projs srcs IH] using PlanNode_ind'; intros m. simpl.
  case_bool_decide as E; [intros [= <-]; by split; [constructor|]|].
  intros (x & Hx & Hf)%firstFound_Some. rewrite Forall_forall in IH.
  destruct (IH x Hx m Hf). split; [|done]. by eapply subplan_source.
Qed.

Lemma ids_subplan n x : x ∈ ids n ↔ ∃ m, subplan m n ∧ node_id m = x.
Proof.
  induction n as [id name projs srcs IH] using PlanNode_ind'. simpl.
  rewrite elem_of_cons, elem_of_concat_map. rewrite Forall_forall in IH. split.
  - intros [->|(s & Hs & Hin)].
    + eexists. split; [constructor | done].
    + apply (IH s Hs) in Hin as (m & Hm & <-). exists m. split; [|done]. by eapply subplan_source.
  - intros (m & Hm & <-). inversion Hm as [|n s Hs Hm']; subst; [by left|]. simpl in Hs.
    right. exists s. split; [done|]. apply IH; eauto.
Qed.

Lemma findPlanNodeById_None n nodeId : nodeId ∈ ids n → findPlanNodeById n nodeId ≠ None.
Proof.
  induction n as [id name projs srcs IH] using PlanNode_ind'. simpl.
  rewrite elem_of_cons, elem_of_concat_map. case_bool_decide as E; [done|].
  intros [->|(s & Hs & Hin)]; [done|]. rewrite firstFound_None, Forall_forall in *.
  intros Hall. by apply (IH s Hs Hin), Hall.
Qed.

(** ** The path to a node *)

(** The ids from [n] to the parent of the node [sourceNodeId] below it. *)
Fixpoint pathTo (sourceNodeId : string) (n : PlanNode) : option (list string) :=
  if bool_decide (node_id n = sourceNodeId) then Some []
  else (λ p, node_id n :: p) <$> firstFound (pathTo sourceNodeId) (sources n).

Lemma pathTo_None src n : pathTo src n = None ↔ src ∉ ids n.
Proof.
  induction n as [id name projs srcs IH] using PlanNode_ind'. simpl.
  rewrite not_elem_of_cons, elem_of_concat_map. case_bool_decide as E; [naive_solver|].
  rewrite fmap_None, firstFound_None, !Forall_forall in *. split.
  - intros H. split; [done|]. intros (s & Hs & Hin). by apply (IH s Hs); auto.
  - intros [_ H] s Hs. apply (IH s Hs). intros Hin. apply H. eauto.
Qed.

(** Below a node that is not the target, the search restores the vector when
    it fails and returns the extended vector when it succeeds. *)
Lemma between_below src tgt n acc :
  tgt ∉ ids n →
  findNodeIdsBetweenIds src tgt n acc =
  match pathTo src n with
  | Some p => (acc ++ p, acc ++ p)
  | None => ([], acc)
  end.
Proof.
  revert acc; induction n as [id name projs srcs IH] using PlanNode_ind'; intros acc Ht.
  simpl in Ht. apply not_elem_of_cons in Ht as [Hne Ht]. rewrite elem_of_concat_map in Ht.
  simpl. rewrite (bool_decide_false (id = tgt)) by done. rewrite andb_true_r.
  case_bool_decide as E; simpl; [by rewrite app_nil_r|].
  assert (∀ l, Forall (λ s, s ∈ srcs) l →
    searchChildren (findNodeIdsBetweenIds src tgt) l (acc ++ [id]) =
    match firstFound (pathTo src) l with
    | Some p => (acc ++ id :: p, acc ++ id :: p)
    | None => ([], acc)
    end) as Hl.
  { induction 1 as [|s l Hs _ IHl]; simpl; [by rewrite removelast_last|].
    rewrite Forall_forall in IH. rewrite IH by eauto. destruct (pathTo src s) as [p|]; [|done].
    rewrite <- app_assoc. simpl. destruct (acc ++ id :: p) eqn:Ea; [by destruct acc | done]. }
  rewrite Hl by (by apply Forall_forall). by destruct (firstFound _ _).
Qed.

(** ** Substituting a source *)
Section Substitution.
Context {Expr Ty : Type}.
Implicit Types s t new : SerializedPlan Expr Ty.

Fixpoint s_ids s : list string :=
  s_id s :: match s_sources s with None => [] | Some l => concat (map s_ids l) end.

(** Every node below the root with the given id is replaced. *)
Fixpoint substSources new (nodeId : string) s : SerializedPlan Expr Ty :=
  match s_sources s with
  | None => s
  | Some l =>
      withSources s (Some (map (λ x, if bool_decide (s_id x = nodeId) then new
                                     else substSources new nodeId x) l))
  end.

Lemma substSources_id new nodeId s : nodeId ∉ s_ids s → substSources new nodeId s = s.
Proof.
  induction s as [|i n pr ns ot onm srcs IH] using SerializedPlan_ind'; [done|].
  simpl. rewrite not_elem_of_cons, elem_of_concat_map. intros [_ Hn].
  unfold withSources. simpl. do 2 f_equal. rewrite <- (map_id srcs) at 2.
  apply map_ext_in. intros x Hx%list_elem_of_In. rewrite Forall_forall in IH.
  assert (nodeId ∉ s_ids x) as Hx' by eauto. rewrite bool_decide_false; [by apply IH|].
  intros <-. apply Hx'. destruct x. simpl. set_solver.
Qed.

Lemma s_id_in s : s_id s ∈ s_ids s.
Proof. destruct s. simpl. set_solver. Qed.

Lemma replaceIn_map new nodeId l :
  Forall (λ s, NoDup (s_ids s) →
    replaceSourceWithIdInSerializedPlan new nodeId s = substSources new nodeId s) l →
  NoDup (concat (map s_ids l)) →
  replaceIn (replaceSourceWithIdInSerializedPlan new nodeId) new nodeId l =
  map (λ x, if bool_decide (s_id x = nodeId) then new else substSources new nodeId x) l.
Proof.
  induction 1 as [|s l Hs _ IH]; simpl; [done|]. intros (Hnd & Hdis & Hl)%NoDup_app.
  case_bool_decide as E.
  - f_equal. rewrite <- (map_id l) at 1. apply map_ext_in. intros x Hx%list_elem_of_In.
    assert (nodeId ∉ s_ids x) as Hx'.
    { intros Hin. apply (Hdis nodeId); [rewrite <- E; apply s_id_in|].
      apply elem_of_concat_map. eauto. }
    rewrite bool_decide_false; [by rewrite substSources_id|]. intros <-. apply Hx', s_id_in.
  - rewrite IH, Hs by done. done.
Qed.

Lemma replaceSource_subst new nodeId s :
  NoDup (s_ids s) → replaceSourceWithIdInSerializedPlan new nodeId s = substSources new nodeId s.
Proof.
  induction s as [|i n pr ns ot onm srcs IH] using SerializedPlan_ind'; [done|].
  intros [_ Hnd]%NoDup_cons. simpl in *. by rewrite replaceIn_map.
Qed.
End Substitution.

(** ** Properties *)

(** [findPlanNodeById] returns a node of the plan with the id asked for
    exactly when there is one, and null otherwise. *)
Theorem findPlanNodeById_correct plan nodeId :
  match findPlanNodeById plan nodeId with
  | Some m => subplan m plan ∧ node_id m = nodeId
  | None => ∀ m, subplan m plan → node_id m ≠ nodeId
  end.
Proof.
  destruct (findPlanNodeById plan nodeId) as [m|] eqn:E.
  - by apply findPlanNodeById_Some.
  - intros m Hm Hid. apply (findPlanNodeById_None plan nodeId); [|done].
    apply ids_subplan. eauto.
Qed.

(** [findNodeIdsBetweenIds], started at the target node of a plan in which
    the ids are unique, returns the ids strictly between the target
    and the source node, and nothing when the source is not below; the shared
    vector is left empty in that case. *)
Theorem findNodeIdsBetweenIds_correct src plan :
  NoDup (ids plan) → src ≠ node_id plan →
  findNodeIdsBetweenIds src (node_id plan) plan [] =
  match firstFound (pathTo src) (sources plan) with
  | Some p => (p, p)
  | None => ([], [])
  end.
Proof.
  intros Hnd Hne. destruct plan as [id name projs srcs]. simpl in *.
  apply NoDup_cons in Hnd as [Hu Hnd].
  rewrite (bool_decide_false (id = src)), (bool_decide_true (id = id)) by done. simpl.
  induction srcs as [|s srcs IH]; [done|]. simpl in Hu, Hnd |- *.
  rewrite elem_of_app in Hu. apply NoDup_app in Hnd as (_ & Hdis & Hnd).
  rewrite between_below by naive_solver.
  destruct (pathTo src s) as [[|x p]|] eqn:Ep; simpl; [|done | apply IH; naive_solver].
  rewrite IH by naive_solver. assert (firstFound (pathTo src) srcs = None) as ->; [|done].
  apply firstFound_None, Forall_forall. intros y Hy. apply pathTo_None. intros Hin.
  apply (Hdis src); [|apply elem_of_concat_map; eauto].
  destruct (decide (src ∈ ids s)) as [|Hn]; [done|]. apply pathTo_None in Hn. congruence.
Qed.

Definition sample_plan : PlanNode :=
  mkPlanNode "4" "Project" []
    [mkPlanNode "3" "HashJoin" []
       [mkPlanNode "1" "TableScan" [] [];
        mkPlanNode "2" "Filter" [] [mkPlanNode "0" "TableScan" [] []]]].

Lemma findNodeIdsBetweenIds_correct_witness :
  findNodeIdsBetweenIds "0" "4" sample_plan [] = (["3"; "2"], ["3"; "2"])%string.
Proof.
  apply (findNodeIdsBetweenIds_correct "0" sample_plan); [|discriminate].
  apply (bool_decide_unpack _). vm_compute. exact I.
Defined.

(** On a serialized plan with unique ids, replacing a source replaces
    exactly the node with that id (wherever it is below the root) by the new
    source and leaves every other node as it is; without such a node the plan
    is unchanged. *)
Theorem replaceSource_correct {Expr Ty} (new s : SerializedPlan Expr Ty) nodeId :
  NoDup (s_ids s) →
  replaceSourceWithIdInSerializedPlan new nodeId s = substSources new nodeId s ∧
  (nodeId ∉ s_ids s → replaceSourceWithIdInSerializedPlan new nodeId s = s).
Proof.
  intros Hnd. rewrite replaceSource_subst by done. split; [done|]. apply substSources_id.
Qed.

Definition sample_scan (id : string) : SerializedPlan unit unit :=
  mkSerialized id "TableScanNode" [] [] [] [] None.

Lemma replaceSource_correct_witness :
  replaceSourceWithIdInSerializedPlan (sample_scan "9") "1"
    (mkSerialized "3" "HashJoinNode" [] [] [] [] (Some [sample_scan "1"; sample_scan "2"])) =
  mkSerialized "3" "HashJoinNode" [] [] [] [] (Some [sample_scan "9"; sample_scan "2"]).
Proof.
  refine (proj1 (replaceSource_correct (sample_scan "9")
    (mkSerialized "3" "HashJoinNode" [] [] [] [] (Some [sample_scan "1"; sample_scan "2"])) "1" _)).
  apply (bool_decide_unpack _). vm_compute. exact I.
Defined.
