(* ===== verification/CostModel.v ===== *)
(** * The cost model

    Models [velox/cost_model]: [UdfCostCoefficient::getCoefficient], the
    [SimpleCostModel] with one cost formula per kind of plan node, the cost of
    a chain of UDFs in a projection, and the [SimpleCostEstimator] that walks
    the plan.  Costs are [float]s, row and column counts [int]s.  The registry
    of vector functions, a run-time table, is an argument. *)
From Stdlib Require Import SpecFloat Ascii String.
From S2P Require Import Prelude CFloat Text Catalog Plan.
Local Open Scope Z_scope.

Record CostEstimate := mkCost { cost : spec_float; outputRows : Z; outputCols : Z }.

(** ** Coefficients *)
Definition coefficientMap : Type := gmap string (list spec_float).

Definition getCoefficient (m : coefficientMap) (udf : string) : list spec_float :=
  default [f64_of_Z 1] (m !! udf).

(** ** Kinds of plan nodes *)
Inductive PlanNodeType :=
| Filter | Project | Aggregation | HashJoin | OrderBy | TableScan | NONE | LocalPartition
| Unnest | RowNumber | NestedLoopJoin.

Definition hashPlanNode (name : string) : PlanNodeType :=
  if bool_decide (name = "Filter"%string) then Filter
  else if bool_decide (name = "Project"%string) then Project
  else if bool_decide (name = "TableScan"%string) then TableScan
  else if bool_decide (name = "HashJoin"%string) then HashJoin
  else if bool_decide (name = "OrderBy"%string) then OrderBy
  else if bool_decide (name = "Aggregation"%string) then Aggregation
  else if bool_decide (name = "LocalPartition"%string) then LocalPartition
  else if bool_decide (name = "Unnest"%string) then Unnest
  else if bool_decide (name = "RowNumber"%string) then RowNumber
  else if bool_decide (name = "NestedLoopJoin"%string) then NestedLoopJoin
  else NONE.

(** ** UDF chains *)

(** What the registry holds for a name: the [getCost] of an [MLFunction], or
    [None] for a function that is not one, for which the cast gives a null
    pointer. *)
Definition registry : Type := gmap string (option (Z → Z → CostEstimate)).

Definition skippedUdfs : list string :=
  ["velox_tree_predict"; "velox_decision_tree_construct"; "velox_decision_tree_predict";
   "decision_forest_predict"; "gt"; "if"]%string.

Section Model.
Context {RowType : Type} (functionMap : registry) (coefficients : coefficientMap).
Context (catalog : CataLog RowType).

Definition udfStep (acc : CostEstimate) (udf : string) : outcome CostEstimate :=
  match functionMap !! udf with
  | None => Ok acc
  | Some f =>
      if bool_decide (udf ∈ skippedUdfs) then Ok acc
      else match f with
           | None => Undefined
           | Some getCost =>
               let cur := getCost (outputRows acc) (outputCols acc) in
               Ok (mkCost (f32_add (cost acc) (cost cur)) (outputRows cur) (outputCols cur))
           end
  end.

(** [sources[i].getStats()] as an [OutputStat]; a null pointer is used without
    a check. *)
Definition statOf (srcs : list Source) (i : Z) : outcome OutputStat :=
  s ← index srcs i;
  match source_stats s with Some st => Ok st | None => Undefined end.

Definition getUDFCost (udfs : list string) (srcs : list Source) : outcome CostEstimate :=
  stat ← statOf srcs 0;
  foldM_o udfStep udfs (mkCost f32_zero (numRows stat) (numCols stat)).

(** The names before the parentheses; the last token, the input, is dropped. *)
Definition getUDFs (expression : string) : list string :=
  removelast (map string_of_list_ascii (splitString (txt expression) open_paren)).

Definition handleProjection (expression : option string) (srcs : list Source) : outcome CostEstimate :=
  match expression with
  | None => Ok (mkCost f32_zero 1 1)
  | Some exp => getUDFCost (reverse (getUDFs exp)) srcs
  end.

(** ** Leaf nodes *)
Definition handleLeafNode (node : PlanNode) : outcome CostEstimate :=
  src ← getSource (node_id node) catalog;
  match source_stats src with
  | None => Undefined
  | Some stat => Ok (mkCost f32_zero (numRows stat) (numCols stat))
  end.

(** ** Inner nodes *)

(** 0.2f and 0.5f *)
Definition lambda_aggregate : spec_float := S754_finite false 13421773 (-26).
Definition lambda_filter : spec_float := S754_finite false 8388608 (-24).

(** [coefficientVector[0] * rows], computed in [double], stored as [float]. *)
Definition scaledCost (coefficient : spec_float) (rows : Z) : spec_float :=
  f64_to_f32 (f64_mul coefficient (f64_of_Z rows)).

(** [alpha * M + beta * M * N + gamma * O * P] in [float]. *)
Definition joinCost (alpha beta gamma : spec_float) (l r : OutputStat) : spec_float :=
  f32_add
    (f32_add (f32_mul alpha (f32_of_Z (numRows l)))
       (f32_mul (f32_mul beta (f32_of_Z (numRows l))) (f32_of_Z (numCols l))))
    (f32_mul (f32_mul gamma (f32_of_Z (numRows r))) (f32_of_Z (numCols r))).

Definition maxStep (acc e : CostEstimate) : CostEstimate :=
  mkCost (f32_add (cost acc) (cost e))
    (if outputRows e >? outputRows acc then outputRows e else outputRows acc)
    (if outputCols e >? outputCols acc then outputCols e else outputCols acc).

Definition handleInternalNode (node : PlanNode) (srcs : list Source) : outcome CostEstimate :=
  match srcs with
  | [] => Throw (RuntimeError "Source not found for node")
  | _ =>
    let coefficientVector := getCoefficient coefficients (node_name node) in
    match hashPlanNode (node_name node) with
    | Aggregation | OrderBy =>
        stats ← statOf srcs 0;
        c0 ← index coefficientVector 0;
        rows ← float_to_int32 (f32_mul lambda_aggregate (f32_of_Z (numRows stats)));
        Ok (mkCost (scaledCost c0 (numRows stats)) rows (numCols stats))
    | Filter =>
        stats ← statOf srcs 0;
        rows ← float_to_int32 (f32_mul lambda_filter (f32_of_Z (numRows stats)));
        Ok (mkCost (f32_mul lambda_filter (f32_of_Z (numRows stats))) rows (numCols stats))
    | HashJoin =>
        alpha ← index coefficientVector 0;
        beta ← index coefficientVector 1;
        gamma ← index coefficientVector 2;
        stats1 ← statOf srcs 0;
        stats2 ← statOf srcs 1;
        cols ← add32 (numCols stats1) (numCols stats2);
        Ok (mkCost (joinCost (f64_to_f32 alpha) (f64_to_f32 beta) (f64_to_f32 gamma) stats1 stats2)
              (numRows stats1) cols)
    | Project =>
        foldM_o (λ acc projection, e ← handleProjection projection srcs; Ok (maxStep acc e))
          (projections node) (mkCost f32_zero 0 0)
    | LocalPartition | RowNumber =>
        stats ← statOf srcs 0;
        c0 ← index coefficientVector 0;
        Ok (mkCost (scaledCost c0 (numRows stats)) (numRows stats) (numCols stats))
    | Unnest =>
        stats ← statOf srcs 0;
        Ok (mkCost (f32_of_Z (numRows stats)) (numRows stats) (numCols stats))
    | NestedLoopJoin =>
        alpha ← index coefficientVector 0;
        beta ← index coefficientVector 1;
        gamma ← index coefficientVector 2;
        stats1 ← statOf srcs 0;
        stats2 ← statOf srcs 1;
        Ok (mkCost (joinCost (f64_to_f32 alpha) (f64_to_f32 beta) (f64_to_f32 gamma) stats1 stats2)
              (if numRows stats1 >? numRows stats2 then numRows stats1 else numRows stats2)
              (numCols stats2))
    | TableScan | NONE => Throw (RuntimeError "Node type not supported")
    end
  end.

Definition getCost (node : PlanNode) (srcs : list Source) : outcome CostEstimate :=
  match srcs with
  | [] => handleLeafNode node
  | _ => handleInternalNode node srcs
  end.

(** ** The estimator *)
Definition sourceOf (node : PlanNode) (e : CostEstimate) : Source :=
  mkSource (node_name node) NODE (Some (mkOutputStat "" (outputRows e) (outputCols e))).

Fixpoint estimateCost (plan : PlanNode) : outcome CostEstimate :=
  estimates ← mapM_o estimateCost (sources plan);
  let srcCost := foldl (λ acc e, f32_add acc (cost e)) f32_zero estimates in
  estimate ← getCost plan (map (sourceOf plan) estimates);
  Ok (mkCost (f32_add (cost estimate) srcCost) (outputRows estimate) (outputCols estimate)).
End Model.

(** ** What an estimate presupposes *)
Section Facts.
Context {RowType : Type} (functionMap : registry) (coefficients : coefficientMap).
Context (catalog : CataLog RowType).
Local Abbreviation estimateCost' := (estimateCost functionMap coefficients catalog).

Definition supported (name : string) : Prop :=
  name ∈ ["Filter"; "Project"; "HashJoin"; "OrderBy"; "Aggregation"; "LocalPartition"; "Unnest";
          "RowNumber"; "NestedLoopJoin"]%string.

Definition isJoin (name : string) : Prop := name = "HashJoin"%string ∨ name = "NestedLoopJoin"%string.

(** Every leaf has statistics in the catalog; every inner node is of a
    supported kind, a join with two inputs and three coefficients. *)
Inductive costed : PlanNode → Prop :=
| costed_leaf id name projs src stat :
    sourceMap catalog !! id = Some src → source_stats src = Some stat →
    costed (mkPlanNode id name projs [])
| costed_inner id name projs srcs :
    srcs ≠ [] → Forall costed srcs → supported name →
    (isJoin name → (2 ≤ length srcs)%nat ∧ (3 ≤ length (getCoefficient coefficients name))%nat) →
    costed (mkPlanNode id name projs srcs).

Lemma hashPlanNode_unsupported name : ¬ supported name → hashPlanNode name = TableScan ∨ hashPlanNode name = NONE.
Proof.
  unfold supported, hashPlanNode. rewrite !elem_of_cons, elem_of_nil.
  repeat case_bool_decide; naive_solver.
Qed.

Lemma index_Ok_lt {A} (l : list A) i x : 0 ≤ i → index l i = Ok x → (Z.to_nat i < length l)%nat.
Proof.
  intros Hi. unfold index. destruct (i <? 0); [done|].
  destruct (l !! Z.to_nat i) eqn:E; [|done]. intros _. by eapply lookup_lt_Some.
Qed.

Lemma handleInternalNode_inv node srcs e :
  handleInternalNode functionMap coefficients node srcs = Ok e →
  supported (node_name node) ∧
  (isJoin (node_name node) →
   (2 ≤ length srcs)%nat ∧ (3 ≤ length (getCoefficient coefficients (node_name node)))%nat).
Proof.
  intros H. destruct (decide (supported (node_name node))) as [Hs|Hn].
  - split; [done|]. unfold handleInternalNode in H. destruct srcs as [|s srcs]; [done|].
    intros [E|E]; rewrite E in H |- *; simpl in H; inv_bind;
      unfold statOf in *; inv_bind;
      repeat match goal with Hi : index _ _ = Ok _ |- _ => apply index_Ok_lt in Hi; [|lia] end;
      simpl in *; lia.
  - exfalso. unfold handleInternalNode in H. destruct srcs; [done|].
    by destruct (hashPlanNode_unsupported _ Hn) as [E|E]; rewrite E in H.
Qed.

Lemma estimateCost_costed plan e : estimateCost' plan = Ok e → costed plan.
Proof.
  revert e; induction plan as [id name projs srcs IH] using PlanNode_ind'; intros e H.
  simpl in H. inv_bind. rename a into es, a0 into est. apply mapM_o_Ok in Ha.
  destruct srcs as [|s srcs].
  - inversion Ha; subst. simpl in Ha0. unfold handleLeafNode, getSource, lookupOrFatal in Ha0. simpl in Ha0.
    destruct (sourceMap catalog !! id) as [src|] eqn:Es; [|done]. simpl in Ha0.
    destruct (source_stats src) as [stat|] eqn:Est; [|done]. by eapply costed_leaf.
  - assert (length es = length (s :: srcs)) as Hlen by (symmetry; by eapply Forall2_length).
    destruct es as [|e0 es]; [done|]. cbn [map getCost] in Ha0.
    apply handleInternalNode_inv in Ha0 as [Hs Hj]. cbn [node_name length] in Hs, Hj, Hlen. rewrite length_map in Hj.
    apply costed_inner; [done | | done |].
    + rewrite Forall_forall in IH |- *. intros x Hx. apply list_elem_of_lookup in Hx as [i Hi].
      destruct (Forall2_lookup_l _ _ _ _ _ Ha Hi) as (y & _ & Hy).
      apply (IH x (list_elem_of_lookup_2 _ _ _ Hi) y Hy).
    + intros Hjoin. specialize (Hj Hjoin). simpl. lia.
Qed.

(** ** Projections *)
Lemma splitString_open tokens :
  Forall (λ t, open_paren ∉ t) tokens → last tokens ≠ Some [] →
  splitString (joinWith open_paren tokens) open_paren = tokens.
Proof. apply splitString_join_gen. Qed.

Lemma joinWith_cons d x l : l ≠ [] → joinWith d (x :: l) = x ++ d :: joinWith d l.
Proof. by destruct l. Qed.

Lemma render_join names arg :
  ∃ tail, render names arg = joinWith open_paren (names ++ [arg ++ tail]) ∧
    open_paren ∉ tail ∧ (names ≠ [] → tail ≠ []).
Proof.
  induction names as [|f names (tail & E & Ht & _)].
  - exists []. simpl. rewrite app_nil_r. split_and!; [done | set_solver | done].
  - exists (tail ++ [close_paren]). split_and!; [| |by intros _; destruct tail].
    + change (render (f :: names) arg) with (f ++ open_paren :: render names arg ++ [close_paren]).
      rewrite E. clear E. destruct names as [|g names]; simpl; [by rewrite <- app_assoc|].
      do 2 f_equal.
      assert (∀ l, joinWith open_paren (l ++ [arg ++ tail]) ++ [close_paren] =
                   joinWith open_paren (l ++ [arg ++ tail ++ [close_paren]])) as Hj.
      { clear. induction l as [|x l IH]; [simpl; by rewrite <- app_assoc|]. cbn [app].
        rewrite !joinWith_cons by (by destruct l). rewrite <- app_assoc. cbn [app]. by rewrite IH. }
      apply (Hj (g :: names)).
    + rewrite elem_of_app, list_elem_of_singleton. intros [?|?]; [done | discriminate].
Qed.

Lemma getUDFs_render names arg :
  names ≠ [] → Forall (λ t, open_paren ∉ t) names → open_paren ∉ arg →
  getUDFs (string_of_list_ascii (render names arg)) = map string_of_list_ascii names.
Proof.
  intros Hne Hn Ha. unfold getUDFs, txt. rewrite list_ascii_of_string_of_list_ascii.
  destruct (render_join names arg) as (tail & -> & Ht & Htail).
  rewrite splitString_open.
  - rewrite map_app. simpl. apply removelast_last.
  - apply Forall_app. split; [done|]. constructor; [set_solver | constructor].
  - rewrite last_snoc. intros [= Hnil]. apply app_nil in Hnil as [_ Hnil]. by apply Htail.
Qed.
End Facts.

(** ** Properties *)

(** An estimate is produced only for plans whose every leaf has statistics
    in the catalog and whose every inner node is of a supported kind, each
    join with its two inputs and its three coefficients: a missing piece is
    always an error (or undefined), never a made-up number. *)
Theorem estimateCost_sound {RowType} functionMap coefficients (catalog : CataLog RowType) plan e :
  estimateCost functionMap coefficients catalog plan = Ok e → costed coefficients catalog plan.
Proof. apply estimateCost_costed. Qed.

(** A projection that is a chain of calls f1(f2(...fn(arg)...)) is costed
    from the innermost function outwards: the functions are found in the
    printed expression and folded in the order fn, ..., f1. *)
Theorem handleProjection_innermost_first functionMap names arg srcs :
  names ≠ [] → Forall (λ t, open_paren ∉ t) names → open_paren ∉ arg →
  handleProjection functionMap (Some (string_of_list_ascii (render names arg))) srcs =
  getUDFCost functionMap (reverse (map string_of_list_ascii names)) srcs.
Proof. intros. unfold handleProjection. by rewrite getUDFs_render. Qed.

(** The two joins: a hash join keeps the rows of the left input and
    concatenates the columns; a nested-loop join has exactly the same cost,
    takes the larger row count and keeps the columns of the right input
    only. *)
Theorem join_estimates functionMap coefficients id1 id2 projs srcs l r h n :
  getCoefficient coefficients "HashJoin" = getCoefficient coefficients "NestedLoopJoin" →
  statOf srcs 0 = Ok l → statOf srcs 1 = Ok r →
  handleInternalNode functionMap coefficients (mkPlanNode id1 "HashJoin" projs []) srcs = Ok h →
  handleInternalNode functionMap coefficients (mkPlanNode id2 "NestedLoopJoin" projs []) srcs = Ok n →
  cost h = cost n ∧ outputRows h = numRows l ∧ outputCols h = numCols l + numCols r ∧
  outputRows n = Z.max (numRows l) (numRows r) ∧ outputCols n = numCols r.
Proof.
  intros Ec Hl Hr Hh Hn. unfold handleInternalNode in *. destruct srcs as [|s srcs]; [done|].
  simpl in Hh, Hn. rewrite Hl, Hr in *. simpl in Hh, Hn. inv_bind. subst. simpl.
  rewrite <- Ec in *. simplify_eq. unfold add32, checked32 in *.
  destruct (int32b _); simplify_eq. split_and!; try done; [congruence|].
  destruct (Z.gtb_spec (numRows l) (numRows r)); lia.
Qed.

(** A join whose name is missing from the coefficient file reads past the
    end of the one-element default vector, whatever its inputs. *)
Theorem join_without_coefficients functionMap coefficients id name projs srcs :
  isJoin name → coefficients !! name = None → srcs ≠ [] →
  handleInternalNode functionMap coefficients (mkPlanNode id name projs []) srcs = Undefined.
Proof.
  intros Hj Hc Hs. destruct srcs as [|s srcs]; [done|]. unfold handleInternalNode, getCoefficient. simpl.
  rewrite Hc. by destruct Hj as [-> | ->].
Qed.

(** ** Witnesses *)
Definition sample_costs : coefficientMap :=
  {[ "HashJoin" := [f64_of_Z 1; f64_of_Z 2; f64_of_Z 3];
     "NestedLoopJoin" := [f64_of_Z 1; f64_of_Z 2; f64_of_Z 3] ]}%string.

Definition sample_sources : CataLog unit :=
  addSource (mkSource "0" FILE (Some (mkOutputStat "" 100 4)))
    (addSource (mkSource "1" FILE (Some (mkOutputStat "" 10 2))) (newCataLog "demo")).

Definition sample_join : PlanNode :=
  mkPlanNode "3" "HashJoin" [] [mkPlanNode "0" "TableScan" [] []; mkPlanNode "1" "TableScan" [] []].

Lemma estimateCost_sound_witness :
  estimateCost ∅ sample_costs sample_sources sample_join = Ok (mkCost (f32_of_Z 960) 100 6) ∧
  costed sample_costs sample_sources sample_join.
Proof.
  assert (estimateCost ∅ sample_costs sample_sources sample_join = Ok (mkCost (f32_of_Z 960) 100 6))
    as H by (vm_compute; reflexivity).
  split; [exact H | exact (estimateCost_sound _ _ _ _ _ H)].
Defined.

Lemma handleProjection_innermost_first_witness :
  handleProjection ∅ (Some "relu(mat_mul(x))"%string) [] =
  getUDFCost ∅ ["mat_mul"; "relu"]%string [].
Proof.
  apply (handleProjection_innermost_first ∅ [txt "relu"; txt "mat_mul"] (txt "x"));
    [discriminate | |]; [repeat constructor|]; apply (bool_decide_unpack _); vm_compute; exact I.
Defined.

Definition sample_inputs : list Source :=
  [mkSource "" NODE (Some (mkOutputStat "" 100 4)); mkSource "" NODE (Some (mkOutputStat "" 10 2))].

Lemma join_estimates_witness :
  ∃ h n, handleInternalNode ∅ sample_costs (mkPlanNode "7" "HashJoin" [] []) sample_inputs = Ok h ∧
    handleInternalNode ∅ sample_costs (mkPlanNode "8" "NestedLoopJoin" [] []) sample_inputs = Ok n ∧
    cost h = cost n ∧ outputCols h = 6 ∧ outputCols n = 2.
Proof.
  destruct (handleInternalNode ∅ sample_costs (mkPlanNode "7" "HashJoin" [] []) sample_inputs)
    as [h| |] eqn:Eh; [|vm_compute in Eh; discriminate..].
  destruct (handleInternalNode ∅ sample_costs (mkPlanNode "8" "NestedLoopJoin" [] []) sample_inputs)
    as [n| |] eqn:En; [|vm_compute in En; discriminate..].
  destruct (join_estimates ∅ sample_costs "7" "8" [] sample_inputs (mkOutputStat "" 100 4)
    (mkOutputStat "" 10 2) h n) as (H1 & _ & H3 & _ & H5);
    [vm_compute; reflexivity | reflexivity | reflexivity | exact Eh | exact En |].
  exists h, n. split; [reflexivity|]. split; [reflexivity|]. split; [exact H1|]. split; [exact H3 | exact H5].
Defined.

Lemma join_without_coefficients_witness :
  handleInternalNode ∅ ∅ (mkPlanNode "7" "HashJoin" [] []) sample_inputs = Undefined.
Proof.
  apply join_without_coefficients; [left; reflexivity | reflexivity | discriminate].
Defined.
