(* ===== verification/PlanState.v ===== *)
(** * Rewrite rules and the state of the search

    Models [RuleManager] and [PlanState] of [velox/optimizer]: the table of
    rewrite rules, the actions offered on a plan, the record of the actions
    already taken, and the application of a set of chosen actions.  A rewrite
    rule is used only through its interface [RewriteAction]. *)
From Stdlib Require Import SpecFloat Ascii String.
From S2P Require Import Prelude CFloat Text Catalog Plan.
Local Open Scope list_scope.

(** ** The interface of a rule

    [check] tells whether the rule applies to a plan and which targets it
    appends; [apply] rewrites the plan under construction, the state [W]. *)
Record RewriteAction (RowType W : Type) := mkRewriteAction {
  check : PlanNode → CataLog RowType → bool * list string;
  apply : list string → W → outcome W
}.
Arguments check {_ _} _ _ _.
Arguments apply {_ _} _ _ _.

(** The names the constructor of [RuleManager] registers, in the order of the
    [std::map]. *)
Definition ruleNames : list string :=
  ["DecisionForestUDF2RelationRewriteAction"; "MLDecompositionPushdownRewriteAction";
   "MatMulDense2SparseRewriteAction"; "Mul2JoinAggHorizontalRewriteAction";
   "Mul2JoinAggRewriteAction"; "MultiLayerUDF2TorchNNRewriteAction";
   "TorchNN2TwoLayerUDFRewriteAction"]%string.

Record PlanState := mkPlanState {
  actionsPair : gmap string (list string);
  actions : list string;
  preAction : string;
  transformedExprs : gmap string (list string)
}.

#[global] Instance PlanState_copy : Copyable PlanState := λ s,
  mkPlanState (actionsPair s) (actions s) (preAction s) (transformedExprs s).

Definition newPlanState : PlanState := mkPlanState ∅ [] "" ∅.

(** [v[key].push_back(x)] on a map of vectors. *)
Definition pushBack (key x : string) (m : gmap string (list string)) : gmap string (list string) :=
  <[key := default [] (m !! key) ++ [x]]> m.

(** [std::find] in the vector stored under a key. *)
Definition listedUnder (m : gmap string (list string)) (key x : string) : bool :=
  match m !! key with
  | Some l => bool_decide (x ∈ l)
  | None => false
  end.

Definition checkIsValidRule (targetRule targetString : string) (st : PlanState) : bool :=
  listedUnder (actionsPair st) targetString targetRule.

Definition isRuleApplied (targetString targetRule : string) (st : PlanState) : bool :=
  listedUnder (transformedExprs st) targetString targetRule.

Definition addTransformedExpr (targetString targetRule : string) (st : PlanState) : PlanState :=
  match transformedExprs st !! targetString with
  | None => st <| transformedExprs := <[targetString := [targetRule]]> (transformedExprs st) |>
  | Some l =>
      st <| transformedExprs := <[targetString := l ++ [targetRule]]> (transformedExprs st) |>
  end.

Definition clearTransformedExpr (st : PlanState) : PlanState := st <| transformedExprs := ∅ |>.

(** [std::sort] followed by [std::unique]. *)
Fixpoint unique (l : list string) : list string :=
  match l with
  | x :: ((y :: _) as l') => if bool_decide (x = y) then unique l' else x :: unique l'
  | _ => l
  end.

Definition sortUnique (l : list string) : list string := unique (merge_sort string_le l).

(** One action of a rule: offered unless it was applied before. *)
Definition offer (rule : string) (st : PlanState) (action : string) : PlanState :=
  if isRuleApplied action rule st then st
  else st <| actionsPair := pushBack action rule (actionsPair st) |>.

Section Rules.
Context {RowType W : Type}.
Implicit Types (rules : list (string * RewriteAction RowType W)).

(** [RuleManager]: a rule object for every registered name. *)
Definition newRuleManager (implementation : string → RewriteAction RowType W)
    : list (string * RewriteAction RowType W) :=
  map (λ name, (name, implementation name)) ruleNames.

Fixpoint pickRule rules (ruleName : string) : option (RewriteAction RowType W) :=
  match rules with
  | [] => None
  | (name, rule) :: rest =>
      if bool_decide (name = ruleName) then Some rule else pickRule rest ruleName
  end.

(** The body of the loop over the rules: the rule appends to [actions], which
    is cleared at the end. *)
Definition searchRule (rootNode : PlanNode) (cataLog : CataLog RowType) (st : PlanState)
    (rulePair : string * RewriteAction RowType W) : PlanState :=
  let '(applicable, targets) := check rulePair.2 rootNode cataLog in
  let st := st <| actions := actions st ++ targets |> in
  let st :=
    if applicable : bool then
      let st := st <| actions := sortUnique (actions st) |> in
      foldl (offer rulePair.1) st (actions st)
    else st in
  st <| actions := [] |>.

Definition getPossibleActions rules (rootNode : PlanNode) (cataLog : CataLog RowType)
    (st : PlanState) : PlanState :=
  foldl (searchRule rootNode cataLog) (st <| actionsPair := ∅ |>) rules.

(** ** Taking actions *)
Definition groupActions (targetActions : list (string * string)) : gmap string (list string) :=
  foldl (λ m ta, pushBack ta.2 ta.1 m) ∅ targetActions.

Definition takeGroup rules (sw : PlanState * W) (group : string * list string)
    : outcome (PlanState * W) :=
  let '(st, w) := sw in
  let '(targetRule, targetStrings) := group in
  if forallb (λ t, checkIsValidRule targetRule t st) targetStrings then
    match pickRule rules targetRule with
    | Some rule =>
        w' ← apply rule targetStrings w;
        Ok (foldl (λ st t, addTransformedExpr t targetRule st) (st <| preAction := targetRule |>)
              targetStrings, w')
    | None => Ok (st, w)
    end
  else Throw (RuntimeError "is not a valid rule").

(** The groups come out of an [unordered_map]: their order is an argument. *)
Definition takeAction rules (groups : list (string * list string)) (st : PlanState) (w : W)
    : outcome (PlanState * W) :=
  foldM_o (takeGroup rules) groups (st, w).

(** [groups] is an iteration order of the grouped actions. *)
Definition grouping (targetActions : list (string * string)) (groups : list (string * list string))
    : Prop :=
  groups ≡ₚ map_to_list (groupActions targetActions).
End Rules.

(** ** Reading the offered actions *)

(** The entries of a [std::map] in the order of the keys. *)
Definition sortedEntries (m : gmap string (list string)) : list (string * list string) :=
  omap (λ k, (λ v, (k, v)) <$> m !! k) (merge_sort string_le (map fst (map_to_list m))).

Definition getActionPairsWithRules (rules : list string) (st : PlanState) : list (string * string) :=
  concat (map (λ entry, map (λ r, (entry.1, r)) (filter (.∈ rules) entry.2))
            (sortedEntries (actionsPair st))).

Definition getActionPairsWithRule (rule : string) (st : PlanState) : list (string * string) :=
  concat (map (λ entry, map (λ r, (entry.1, r)) (filter (.= rule) entry.2))
            (sortedEntries (actionsPair st))).

(** [getInputExprName]: the text between [ROW] with its opening bracket and
    quote and the next closing quote and bracket; the expression is one
    line, as the regular expression's dot asks for. *)
Definition row_open : text := txt "ROW[" ++ [double_quote].
Definition row_close : text := double_quote :: txt "]".

Definition getInputExprName (targetExprStr : string) : string :=
  match find_sub row_open (txt targetExprStr) with
  | Some i =>
      let rest := drop (i + 5) (txt targetExprStr) in
      match find_sub row_close rest with
      | Some j => string_of_list_ascii (take j rest)
      | None => ""%string
      end
  | None => ""%string
  end.

Definition denseToSparse : string := "MatMulDense2SparseRewriteAction".

Definition sparsityStep {RowType} (cataLog : CataLog RowType) (best : (string * string) * spec_float)
    (entry : string * list string) : (string * string) * spec_float :=
  if bool_decide (denseToSparse ∈ entry.2) then
    let sparsity := getDataSrcSparsity (getInputExprName entry.1) cataLog in
    if float_lt best.2 sparsity && float_lt sparsity (f32_of_Z 1)
    then ((entry.1, denseToSparse), sparsity) else best
  else best.

Definition configureMatMulDense2SparseAction {RowType} (cataLog : CataLog RowType) (st : PlanState)
    : string * string :=
  (foldl (sparsityStep cataLog) ((""%string, ""%string), f32_zero) (sortedEntries (actionsPair st))).1.

(** ** What is offered *)
Lemma listedUnder_pushBack m k x t r :
  listedUnder (pushBack k x m) t r = listedUnder m t r || bool_decide (t = k ∧ r = x).
Proof.
  unfold listedUnder, pushBack. destruct (decide (t = k)) as [->|Hne].
  - rewrite lookup_insert_eq. destruct (m !! k) as [l|]; simpl.
    + rewrite (bool_decide_ext _ (r ∈ l ∨ (k = k ∧ r = x))) by set_solver.
      apply bool_decide_or.
    + apply bool_decide_ext. set_solver.
  - rewrite lookup_insert_ne by done. rewrite (bool_decide_false (t = k ∧ _)) by naive_solver.
    by rewrite orb_false_r.
Qed.

Lemma elem_of_unique l x : x ∈ unique l ↔ x ∈ l.
Proof.
  induction l as [|y [|z l] IH]; [done..|].
  change (unique (y :: z :: l)) with (if bool_decide (y = z) then unique (z :: l) else y :: unique (z :: l)).
  case_bool_decide as E.
  - rewrite IH. subst. set_solver.
  - rewrite !(elem_of_cons _ x y), IH. done.
Qed.

Lemma elem_of_sortUnique l x : x ∈ sortUnique l ↔ x ∈ l.
Proof. unfold sortUnique. by rewrite elem_of_unique, merge_sort_Permutation. Qed.

Lemma offer_fold rule acts st :
  transformedExprs (foldl (offer rule) st acts) = transformedExprs st ∧
  ∀ t r, checkIsValidRule r t (foldl (offer rule) st acts) =
    checkIsValidRule r t st || bool_decide (r = rule ∧ t ∈ acts ∧ isRuleApplied t rule st = false).
Proof.
  revert st; induction acts as [|a acts IH]; intros st; simpl.
  { split; [done|]. intros t r. rewrite bool_decide_false by set_solver. by rewrite orb_false_r. }
  destruct (IH (offer rule st a)) as [Ht Hv].
  assert (transformedExprs (offer rule st a) = transformedExprs st) as Ha.
  { unfold offer. by destruct (isRuleApplied a rule st). }
  rewrite Ht. split; [done|]. intros t r. rewrite Hv.
  assert (isRuleApplied t rule (offer rule st a) = isRuleApplied t rule st) as ->.
  { unfold isRuleApplied. by rewrite Ha. }
  assert (checkIsValidRule r t (offer rule st a) =
          checkIsValidRule r t st || bool_decide (r = rule ∧ t = a ∧ isRuleApplied t rule st = false)) as ->.
  { unfold offer. destruct (isRuleApplied a rule st) eqn:Ea.
    - rewrite bool_decide_false by (intros (_ & -> & ?); congruence). by rewrite orb_false_r.
    - unfold checkIsValidRule. simpl. rewrite listedUnder_pushBack. f_equal.
      apply bool_decide_ext. split; [by intros [-> ->] | by intros (-> & -> & _)]. }
  rewrite <- orb_assoc. f_equal. rewrite <- bool_decide_or. apply bool_decide_ext. set_solver.
Qed.

Section Correct.
Context {RowType W : Type}.
Implicit Types (rules : list (string * RewriteAction RowType W)).

(** The rules whose check succeeds on the plan, with their targets. *)
Definition applicable rules (root : PlanNode) (cat : CataLog RowType) (t r : string) : Prop :=
  ∃ a, (r, a) ∈ rules ∧ (check a root cat).1 = true ∧ t ∈ (check a root cat).2.

Lemma searchRule_spec root cat st rp :
  actions st = [] →
  actions (searchRule root cat st rp) = [] ∧
  transformedExprs (searchRule root cat st rp) = transformedExprs st ∧
  ∀ t r, checkIsValidRule r t (searchRule (W := W) root cat st rp) = true ↔
    checkIsValidRule r t st = true ∨
    (applicable [rp] root cat t r ∧ isRuleApplied t r st = false).
Proof.
  intros Hac. unfold searchRule. destruct rp as [name a]. simpl.
  destruct (check a root cat) as [b targets] eqn:Ec. split; [done|].
  assert (∀ t r, applicable [(name, a)] root cat t r ↔ r = name ∧ b = true ∧ t ∈ targets) as Happ.
  { intros t r. unfold applicable. split.
    - intros (a' & [= -> ->]%list_elem_of_singleton & Hb & Hin). rewrite Ec in *. done.
    - intros (-> & -> & Hin). exists a. rewrite Ec. set_solver. }
  destruct b; simpl.
  - match goal with |- context [foldl _ ?s ?l] => destruct (offer_fold name l s) as [Ht Hv]; set (st2 := foldl (offer name) s l) in * end.
    split; [exact Ht|]. intros t r. rewrite Happ.
    specialize (Hv t r). unfold checkIsValidRule in Hv |- *. simpl in Hv |- *.
    rewrite Hv, orb_true_iff, bool_decide_eq_true, elem_of_sortUnique, Hac.
    unfold isRuleApplied. simpl. naive_solver.
  - split; [done|]. intros t r. rewrite Happ. unfold checkIsValidRule. simpl. naive_solver.
Qed.

Lemma searchRules_spec rules root cat st :
  actions st = [] →
  actions (foldl (searchRule root cat) st rules) = [] ∧
  transformedExprs (foldl (searchRule root cat) st rules) = transformedExprs st ∧
  ∀ t r, checkIsValidRule r t (foldl (searchRule root cat) st rules) = true ↔
    checkIsValidRule r t st = true ∨
    (applicable rules root cat t r ∧ isRuleApplied t r st = false).
Proof.
  revert st; induction rules as [|rp rules IH]; intros st Hac; simpl.
  { split_and!; [done..|]. intros t r. split; [auto|]. intros [?|[(a & Hin & _) _]]; [done|].
    by apply not_elem_of_nil in Hin. }
  destruct (searchRule_spec root cat st rp Hac) as (Hac' & Ht' & Hv').
  destruct (IH _ Hac') as (Hac2 & Ht2 & Hv2). rewrite Ht2, Ht'. split_and!; [done..|].
  intros t r. rewrite Hv2, Hv'.
  assert (isRuleApplied t r (searchRule root cat st rp) = isRuleApplied t r st) as ->
    by (unfold isRuleApplied; by rewrite Ht').
  assert (applicable (rp :: rules) root cat t r ↔
          applicable [rp] root cat t r ∨ applicable rules root cat t r) as ->; [|tauto].
  unfold applicable. setoid_rewrite elem_of_cons. setoid_rewrite elem_of_nil. naive_solver.
Qed.

(** ** What was applied *)
Lemma addTransformed_spec t' r' st t r :
  isRuleApplied t r (addTransformedExpr t' r' st) = isRuleApplied t r st || bool_decide (t = t' ∧ r = r').
Proof.
  unfold isRuleApplied. rewrite <- listedUnder_pushBack. f_equal.
  unfold addTransformedExpr, pushBack. by destruct (transformedExprs st !! t').
Qed.

Lemma addTransformed_fold r' ts st :
  actionsPair (foldl (λ st t, addTransformedExpr t r' st) st ts) = actionsPair st ∧
  ∀ t r, isRuleApplied t r (foldl (λ st t, addTransformedExpr t r' st) st ts) =
    isRuleApplied t r st || bool_decide (t ∈ ts ∧ r = r').
Proof.
  revert st; induction ts as [|a ts IH]; intros st; cbn [foldl].
  { split; [done|]. intros. rewrite bool_decide_false by set_solver. by rewrite orb_false_r. }
  destruct (IH (addTransformedExpr a r' st)) as [Ha Hi]. split.
  - rewrite Ha. unfold addTransformedExpr. by destruct (transformedExprs st !! a).
  - intros t r. rewrite Hi, addTransformed_spec, <- orb_assoc. f_equal.
    rewrite <- bool_decide_or. apply bool_decide_ext. set_solver.
Qed.

(** All targets of all groups were valid, and the groups that have a rule are
    recorded as applied. *)
Lemma takeAction_spec rules groups st w st' w' :
  takeAction rules groups st w = Ok (st', w') →
  actionsPair st' = actionsPair st ∧
  (∀ t r, isRuleApplied t r st = true → isRuleApplied t r st' = true) ∧
  ∀ r ts t, (r, ts) ∈ groups → t ∈ ts →
    checkIsValidRule r t st = true ∧ (is_Some (pickRule rules r) → isRuleApplied t r st' = true).
Proof.
  revert st w; induction groups as [|[r ts] groups IH]; intros st w H; simpl in H.
  { injection H as <- <-. split_and!; [done..|]. by intros ? ? ? ?%not_elem_of_nil. }
  apply bind_Ok_inv in H as ([st1 w1] & H1 & H2). simpl in H1.
  destruct (forallb (λ t, checkIsValidRule r t st) ts) eqn:Ev; [|done].
  assert (∀ t, t ∈ ts → checkIsValidRule r t st = true) as Hvalid.
  { intros t Ht. rewrite forallb_forall in Ev. by apply Ev, list_elem_of_In. }
  assert (actionsPair st1 = actionsPair st ∧
    (∀ t r0, isRuleApplied t r0 st = true → isRuleApplied t r0 st1 = true) ∧
    (is_Some (pickRule rules r) → ∀ t, t ∈ ts → isRuleApplied t r st1 = true)) as (Hap & Hmono & Hnew).
  { destruct (pickRule rules r) as [rule|] eqn:Ep.
    - inv_bind. subst. simplify_eq.
      destruct (addTransformed_fold r ts (st <| preAction := r |>)) as [Hpair Hi].
      split; [exact Hpair|]. split.
      + intros t r0 Hap. rewrite Hi. change (isRuleApplied t r0 (st <| preAction := r |>)) with (isRuleApplied t r0 st).
        by rewrite Hap.
      + intros _ t Ht. rewrite Hi, bool_decide_true by done. apply orb_true_r.
    - simplify_eq. split_and!; [done..|]. by intros [? [=]]. }
  destruct (IH st1 w1 H2) as (Hap2 & Hmono2 & Hv2). split_and!; [congruence | eauto |].
  intros r0 ts0 t Hin Ht. apply elem_of_cons in Hin as [[= -> ->]|Hin].
  - split; [by apply Hvalid|]. intros Hs. apply Hmono2, Hnew; done.
  - destruct (Hv2 r0 ts0 t Hin Ht) as [Hc Hi]. split; [|done].
    unfold checkIsValidRule in *. by rewrite <- Hap.
Qed.

Lemma groupActions_spec targetActions t r :
  (t, r) ∈ targetActions → ∃ ts, groupActions targetActions !! r = Some ts ∧ t ∈ ts.
Proof.
  assert (∀ l m, (t, r) ∈ l ∨ (∃ ts, m !! r = Some ts ∧ t ∈ ts) →
    ∃ ts, foldl (λ m ta, pushBack ta.2 ta.1 m) m l !! r = Some ts ∧ t ∈ ts) as H.
  { induction l as [|[t' r'] l IH]; intros m [Hin|(ts & Hm & Hts)]; simpl.
    - by apply not_elem_of_nil in Hin.
    - eauto.
    - apply IH. apply elem_of_cons in Hin as [[= <- <-]|Hin]; [right|by left].
      unfold pushBack. rewrite lookup_insert_eq. eexists. split; [done|]. set_solver.
    - apply IH. right. unfold pushBack. destruct (decide (r = r')) as [<-|Hne].
      + rewrite lookup_insert_eq, Hm. eexists. split; [done|]. simpl. set_solver.
      + rewrite lookup_insert_ne by done. eauto. }
  intros Hin. apply H. by left.
Qed.

(** What a search offers. *)
Lemma offered_exact rules root cat st t r :
  actions st = [] →
  checkIsValidRule r t (getPossibleActions rules root cat st) = true ↔
  applicable rules root cat t r ∧ isRuleApplied t r st = false.
Proof.
  intros Hac. unfold getPossibleActions.
  destruct (searchRules_spec rules root cat
    (mkPlanState ∅ (actions st) (preAction st) (transformedExprs st)) Hac) as (_ & _ & Hv).
  etrans; [apply Hv|]. unfold checkIsValidRule, listedUnder. simpl. rewrite lookup_empty.
  unfold isRuleApplied. simpl. naive_solver.
Qed.

(** ** Sequences of operations *)

(** The operations that keep the record of the taken actions.  A call of
    [takeAction] is a sequence of groups, of which it may do only some before
    it throws. *)
Inductive recordingStep rules : PlanState → PlanState → Prop :=
| step_search root cat st : recordingStep rules st (getPossibleActions rules root cat st)
| step_group group st w st' w' : takeGroup rules (st, w) group = Ok (st', w') → recordingStep rules st st'
| step_record t r st : recordingStep rules st (addTransformedExpr t r st).

(** All operations that change the state. *)
Inductive planStep rules : PlanState → PlanState → Prop :=
| step_keeps st st' : recordingStep rules st st' → planStep rules st st'
| step_clear st : planStep rules st (clearTransformedExpr st).

Lemma addTransformed_actions r ts st : actions (foldl (λ st t, addTransformedExpr t r st) st ts) = actions st.
Proof. revert st. induction ts as [|t ts IH]; intros st; [done|]. cbn. rewrite IH. unfold addTransformedExpr. by destruct (transformedExprs st !! t). Qed.

Lemma takeGroup_actions rules group st w st' w' : takeGroup rules (st, w) group = Ok (st', w') → actions st' = actions st.
Proof.
  destruct group as [r ts]. cbn. destruct (forallb _ ts); [|done]. destruct (pickRule rules r); [|by intros [= <- _]].
  intros (w1 & _ & [= <- _])%bind_Ok_inv. by rewrite addTransformed_actions.
Qed.

Lemma takeAction_actions rules groups st w st' w' : takeAction rules groups st w = Ok (st', w') → actions st' = actions st.
Proof.
  unfold takeAction. revert st w. induction groups as [|g groups IH]; intros st w H; [by injection H as <- _|].
  apply bind_Ok_inv in H as ([st1 w1] & H1 & H2). rewrite (IH _ _ H2). by eapply takeGroup_actions.
Qed.

Lemma takeGroup_applied rules group st w st' w' t r :
  takeGroup rules (st, w) group = Ok (st', w') → isRuleApplied t r st = true → isRuleApplied t r st' = true.
Proof.
  intros H. assert (takeAction rules [group] st w = Ok (st', w')) as Ht by (unfold takeAction; cbn [foldM_o]; by rewrite H).
  apply (takeAction_spec _ _ _ _ _ _ Ht).
Qed.

Lemma recordingStep_actions rules st st' : recordingStep rules st st' → actions st = [] → actions st' = [].
Proof.
  destruct 1 as [root cat st | group st w st' w' H | t r st]; intros Hac.
  - by apply searchRules_spec.
  - by rewrite (takeGroup_actions _ _ _ _ _ _ H).
  - unfold addTransformedExpr. by destruct (transformedExprs st !! t).
Qed.

Lemma planRun_actions rules st st' : actions st = [] → rtc (planStep rules) st st' → actions st' = [].
Proof.
  intros Hac Hr. induction Hr as [|st st1 st' Hstep _ IH]; [done|]. apply IH.
  destruct Hstep as [st st1 Hstep | st]; [by eapply recordingStep_actions | done].
Qed.

(** What is recorded stays recorded. *)
Lemma recording_run rules st st' t r :
  rtc (recordingStep rules) st st' → actions st = [] → isRuleApplied t r st = true → actions st' = [] ∧ isRuleApplied t r st' = true.
Proof.
  induction 1 as [|st st1 st' Hstep _ IH]; [done|]. intros Hac Hap. apply IH; [by eapply recordingStep_actions|].
  destruct Hstep as [root cat st | group st w st1 w' H | t' r' st].
  - destruct (searchRules_spec rules root cat (mkPlanState ∅ (actions st) (preAction st) (transformedExprs st)) Hac) as (_ & E & _).
    unfold isRuleApplied in *. etrans; [exact (f_equal (λ m, listedUnder m t r) E) | exact Hap].
  - by eapply takeGroup_applied.
  - rewrite addTransformed_spec. by rewrite Hap.
Qed.

(** ** Properties *)

(** C21: The offered actions are exactly the applicable ones that were not
    taken before: after [getPossibleActions] a rule is valid on a target if
    and only if the rule's check succeeds on the plan with that target and
    the pair is not recorded as applied.  What was offered on an earlier plan
    is forgotten. *)
Theorem getPossibleActions_exact rules root cat st t r :
  actions st = [] →
  checkIsValidRule r t (getPossibleActions rules root cat st) = true ↔
  applicable rules root cat t r ∧ isRuleApplied t r st = false.
Proof. apply offered_exact. Qed.

(** C40: Until the record is cleared, what was taken is not offered again: after
    an action (target, rule) of a registered rule has been taken, any sequence
    of further searches, taken actions (also calls that throw half way) and
    records, on whatever plans, leaves a state in which a search does not offer
    the action, nor any action taken before it.  [clearTransformedExpr], which
    the driver of the search calls when it starts again from the original
    plan, ends this: the next search offers the action exactly when its check
    succeeds. *)
Theorem taken_never_offered_again rules targetActions groups st w st' w' st'' root cat t r :
  rtc (planStep rules) newPlanState st → grouping targetActions groups →
  takeAction rules groups st w = Ok (st', w') →
  (t, r) ∈ targetActions ∧ is_Some (pickRule rules r) ∨ isRuleApplied t r st = true →
  rtc (recordingStep rules) st' st'' →
  checkIsValidRule r t (getPossibleActions rules root cat st'') = false ∧
  (checkIsValidRule r t (getPossibleActions rules root cat (clearTransformedExpr st'')) = true ↔ applicable rules root cat t r).
Proof.
  intros Hr Hg Ht Hin Hrun. assert (actions st'' = [] ∧ isRuleApplied t r st'' = true) as [Hac Hap].
  { destruct (takeAction_spec _ _ _ _ _ _ Ht) as (_ & Hmono & Hnew). apply (recording_run rules st'); [done|..].
    - rewrite (takeAction_actions _ _ _ _ _ _ Ht). by apply (planRun_actions rules newPlanState).
    - destruct Hin as [[Hin Hs]|Hap]; [|by apply Hmono]. destruct (groupActions_spec _ _ _ Hin) as (ts & Hts & Htin).
      apply (Hnew r ts t); [by rewrite Hg, elem_of_map_to_list | done | done]. }
  split.
  - apply not_true_is_false. intros [_ H]%offered_exact; [congruence | done].
  - rewrite offered_exact by done. unfold isRuleApplied, listedUnder. cbn. rewrite lookup_empty. naive_solver.
Qed.

(** Only offered actions can be taken: if one of the requested pairs is
    not among the offered ones, [takeAction] throws instead of returning,
    whatever the order in which the groups are visited. *)
Theorem takeAction_rejects_invalid rules targetActions groups st w t r :
  grouping targetActions groups → (t, r) ∈ targetActions → checkIsValidRule r t st = false →
  ∀ res, takeAction rules groups st w ≠ Ok res.
Proof.
  intros Hg Hin Hinv [st' w'] H. destruct (groupActions_spec _ _ _ Hin) as (ts & Hts & Htin).
  destruct (takeAction_spec _ _ _ _ _ _ H) as (_ & _ & Hnew).
  destruct (Hnew r ts t) as [Hv _]; [by rewrite Hg, elem_of_map_to_list | done |]. congruence.
Qed.
End Correct.

Lemma elem_of_sortedEntries m k v : (k, v) ∈ sortedEntries m ↔ m !! k = Some v.
Proof.
  unfold sortedEntries. rewrite list_elem_of_omap. split.
  - intros (x & _ & Hx). destruct (m !! x) eqn:E; simplify_eq/=. done.
  - intros H. exists k. rewrite H. split; [|done].
    rewrite merge_sort_Permutation. apply list_elem_of_fmap. exists (k, v).
    split; [done | by apply elem_of_map_to_list].
Qed.

Lemma elem_of_pairs (P : string → Prop) `{∀ r, Decision (P r)} m t r :
  (t, r) ∈ concat (map (λ entry, map (λ r, (entry.1, r)) (filter P entry.2)) (sortedEntries m)) ↔
  P r ∧ listedUnder m t r = true.
Proof.
  rewrite elem_of_concat_map. unfold listedUnder. split.
  - intros ([k v] & Hin%elem_of_sortedEntries & (r' & [= -> ->] & [HP Hr]%list_elem_of_filter)%list_elem_of_fmap).
    simpl in *. rewrite Hin. by rewrite bool_decide_true.
  - intros [HP Hl]. destruct (m !! t) as [v|] eqn:E; [|done]. apply bool_decide_eq_true in Hl.
    exists (t, v). split; [by apply elem_of_sortedEntries|]. simpl.
    apply list_elem_of_fmap. exists r. split; [done|]. by apply list_elem_of_filter.
Qed.

(** The queries on the offered actions agree with the validity check:
    [getActionPairsWithRule] and [getActionPairsWithRules] list exactly the
    valid pairs of the rules asked for. *)
Theorem getActionPairs_exact st t r rule rules :
  ((t, r) ∈ getActionPairsWithRule rule st ↔ r = rule ∧ checkIsValidRule rule t st = true) ∧
  ((t, r) ∈ getActionPairsWithRules rules st ↔ r ∈ rules ∧ checkIsValidRule r t st = true).
Proof.
  unfold getActionPairsWithRule, getActionPairsWithRules, checkIsValidRule.
  rewrite !elem_of_pairs. naive_solver.
Qed.

(** The state of the scan over the offered actions: [best] is the action
    chosen so far with its sparsity, and no entry seen so far beats it. *)
Section DenseToSparse.
Context {RowType : Type} (cataLog : CataLog RowType) (st : PlanState).

Definition sparsityOf (t : string) : spec_float := getDataSrcSparsity (getInputExprName t) cataLog.

Definition candidate (t : string) : Prop :=
  checkIsValidRule denseToSparse t st = true ∧ float_lt (sparsityOf t) (f32_of_Z 1) = true.

Definition chosen (best : (string * string) * spec_float) : Prop :=
  best = ((""%string, ""%string), f32_zero) ∨
  (best.1.2 = denseToSparse ∧ candidate best.1.1 ∧ best.2 = sparsityOf best.1.1 ∧
   float_lt f32_zero best.2 = true).

Definition unbeaten (best : (string * string) * spec_float) (t : string) : Prop :=
  candidate t → float_lt best.2 (sparsityOf t) = false.

Lemma valid_entry k v :
  (k, v) ∈ sortedEntries (actionsPair st) → checkIsValidRule denseToSparse k st = bool_decide (denseToSparse ∈ v).
Proof.
  intros Hin%elem_of_sortedEntries. unfold checkIsValidRule, listedUnder. by rewrite Hin.
Qed.

Lemma sparsityStep_chosen best e :
  e ∈ sortedEntries (actionsPair st) → chosen best →
  chosen (sparsityStep cataLog best e) ∧ unbeaten (sparsityStep cataLog best e) e.1 ∧
  ∀ t, unbeaten best t → unbeaten (sparsityStep cataLog best e) t.
Proof.
  destruct e as [k v]. intros Hin%valid_entry Hb. unfold sparsityStep. cbn [fst snd].
  fold (sparsityOf k). case_bool_decide as Hd.
  - destruct (float_lt best.2 (sparsityOf k) && float_lt (sparsityOf k) (f32_of_Z 1)) eqn:Ef.
    + apply andb_true_iff in Ef as [Hgt Hlt]. split_and!.
      * right. split_and!; [done | by split | done |]. cbn [snd].
        destruct Hb as [->|(_ & _ & _ & H0)]; [done|]. by apply float_lt_trans with (best.2).
      * intros _. apply float_lt_irrefl.
      * intros t Ht Hc. cbn [snd]. apply not_true_is_false. intros H.
        pose proof (Ht Hc) as Hf. rewrite (float_lt_trans _ _ _ Hgt H) in Hf. done.
    + split_and!; [done| |done]. intros [_ Hlt]. rewrite Hlt, andb_true_r in Ef. done.
  - split_and!; [done| |done]. intros [Hc _]. by rewrite Hin in Hc.
Qed.

Lemma sparsitySteps_chosen l best :
  l ⊆ sortedEntries (actionsPair st) → chosen best →
  chosen (foldl (sparsityStep cataLog) best l) ∧
  (∀ e, e ∈ l → unbeaten (foldl (sparsityStep cataLog) best l) e.1) ∧
  ∀ t, unbeaten best t → unbeaten (foldl (sparsityStep cataLog) best l) t.
Proof.
  revert best; induction l as [|e l IH]; intros best Hl Hb; [set_solver|].
  destruct (sparsityStep_chosen best e) as (Hc & He & Hk); [set_solver|done|].
  destruct (IH (sparsityStep cataLog best e)) as (Hc' & Hs & Hk'); [set_solver|done|].
  cbn [foldl]. split_and!; [done| |auto]. intros e' [->|Hin]%elem_of_cons; auto.
Qed.
End DenseToSparse.

(** [configureMatMulDense2SparseAction] picks the sparsest candidate: it
    returns a valid action of the dense-to-sparse rule whose input has a
    sparsity strictly between 0 and 1 that no other valid action (of sparsity
    below 1) exceeds, or the empty pair, and the latter only when no valid
    action has a sparsity between 0 and 1. *)
Theorem configureMatMulDense2Sparse_best {RowType} (cataLog : CataLog RowType) st t r :
  configureMatMulDense2SparseAction cataLog st = (t, r) →
  let sparsity t' := getDataSrcSparsity (getInputExprName t') cataLog in
  let valid t' := checkIsValidRule denseToSparse t' st = true ∧ float_lt (sparsity t') (f32_of_Z 1) = true in
  (t = ""%string ∧ r = ""%string ∧ ∀ t', valid t' → float_lt f32_zero (sparsity t') = false) ∨
  (r = denseToSparse ∧ valid t ∧ float_lt f32_zero (sparsity t) = true ∧
   ∀ t', valid t' → float_lt (sparsity t) (sparsity t') = false).
Proof.
  intros E sparsity valid. unfold configureMatMulDense2SparseAction in E.
  destruct (sparsitySteps_chosen cataLog st (sortedEntries (actionsPair st))
    ((""%string, ""%string), f32_zero)) as (Hc & Hb & _); [done | by left|].
  assert (∀ t', valid t' → float_lt (foldl (sparsityStep cataLog) ((""%string, ""%string), f32_zero)
    (sortedEntries (actionsPair st))).2 (sparsity t') = false) as Hmax.
  { intros t' Hv. pose proof Hv as [Hl _]. unfold checkIsValidRule, listedUnder in Hl.
    destruct (actionsPair st !! t') as [v|] eqn:Ev; [|done].
    apply (Hb (t', v)); [by apply elem_of_sortedEntries | exact Hv]. }
  destruct Hc as [Hc|(Hr & Hv & Hs & H0)].
  - left. rewrite Hc in E, Hmax. cbn [fst snd] in E, Hmax. naive_solver.
  - right. rewrite E in Hr, Hv, Hs. rewrite Hs in Hmax, H0. cbn [fst snd] in *. split_and!; done.
Qed.

(** ** Witnesses *)
Definition sample_rule : RewriteAction unit nat :=
  mkRewriteAction unit nat (λ _ _, (true, ["b"; "a"; "b"]%string)) (λ ts w, Ok (w + length ts)).

Definition sample_rules : list (string * RewriteAction unit nat) := newRuleManager (λ _, sample_rule).

Definition sample_state : PlanState :=
  getPossibleActions sample_rules (mkPlanNode "0" "Project" [] []) (newCataLog "demo") newPlanState.

Lemma getPossibleActions_exact_witness : checkIsValidRule denseToSparse "a" sample_state = true.
Proof.
  apply (getPossibleActions_exact sample_rules (mkPlanNode "0" "Project" [] []) (newCataLog "demo")
    newPlanState "a" denseToSparse eq_refl).
  split; [|reflexivity]. exists sample_rule. split; [|split; [reflexivity|]].
  - cbn. do 2 apply list_elem_of_further. apply list_elem_of_here.
  - cbn. apply list_elem_of_further, list_elem_of_here.
Defined.

Lemma sample_state_reached : rtc (planStep sample_rules) newPlanState sample_state.
Proof. apply rtc_once, step_keeps, step_search. Qed.

(** Two actions are taken and another search follows. *)
Lemma taken_never_offered_again_witness :
  ∃ st' w', takeAction sample_rules [(denseToSparse, ["a"; "b"]%string)] sample_state 0 = Ok (st', w') ∧
    w' = 2 ∧
    checkIsValidRule denseToSparse "a"
      (getPossibleActions sample_rules (mkPlanNode "1" "Filter" [] []) (newCataLog "demo")
         (getPossibleActions sample_rules (mkPlanNode "2" "Project" [] []) (newCataLog "demo") st')) = false.
Proof.
  destruct (takeAction sample_rules [(denseToSparse, ["a"; "b"]%string)] sample_state 0)
    as [[st' w']| |] eqn:E; [|vm_compute in E; discriminate..].
  exists st', w'. split; [reflexivity|]. split; [vm_compute in E; congruence|].
  refine (proj1 (taken_never_offered_again sample_rules [("a", denseToSparse); ("b", denseToSparse)]%string
    [(denseToSparse, ["a"; "b"]%string)] sample_state 0 st' w'
    (getPossibleActions sample_rules (mkPlanNode "2" "Project" [] []) (newCataLog "demo") st')
    (mkPlanNode "1" "Filter" [] []) (newCataLog "demo") "a" denseToSparse _ _ _ _ _)).
  - exact sample_state_reached.
  - unfold grouping. vm_compute. reflexivity.
  - exact E.
  - left. split; [apply list_elem_of_here|]. eexists. reflexivity.
  - apply rtc_once, step_search.
Defined.

Lemma takeAction_rejects_invalid_witness :
  checkIsValidRule denseToSparse "c" sample_state = false ∧
  takeAction sample_rules [(denseToSparse, ["c"]%string)] sample_state 0 ≠ Ok (sample_state, 0).
Proof.
  split; [vm_compute; reflexivity|].
  apply (takeAction_rejects_invalid sample_rules [("c", denseToSparse)]%string
    [(denseToSparse, ["c"]%string)] sample_state 0 "c" denseToSparse).
  - unfold grouping. vm_compute. reflexivity.
  - apply list_elem_of_here.
  - vm_compute. reflexivity.
Defined.

Definition sample_target : string :=
  string_of_list_ascii (txt "mat_mul(" ++ row_open ++ txt "x" ++ row_close ++ txt ")").

Definition sample_sparse : PlanState :=
  newPlanState <| actionsPair := pushBack sample_target denseToSparse ∅ |>.

Definition sample_sparsity : CataLog unit :=
  setDataSrcSparsity "x" (S754_finite false 8388608 (-24)) (newCataLog "demo").

Lemma configureMatMulDense2Sparse_best_witness :
  configureMatMulDense2SparseAction sample_sparsity sample_sparse = (sample_target, denseToSparse) ∧
  checkIsValidRule denseToSparse sample_target sample_sparse = true.
Proof.
  assert (configureMatMulDense2SparseAction sample_sparsity sample_sparse = (sample_target, denseToSparse)) as E
    by (vm_compute; reflexivity).
  split; [exact E|].
  destruct (configureMatMulDense2Sparse_best sample_sparsity sample_sparse _ _ E) as [(H & _)|(_ & [H _] & _)];
    [vm_compute in H; discriminate H | exact H].
Defined.
