(* ===== verification/Blocks.v ===== *)
(** * Cutting matrices and tables into blocks

    Models the block functions of [velox/optimizer/Helper.h]:
    [create_block_index], [create_input_block], [create_weight_block],
    [create_blocks] and [splitRowVectorIntoBatches].  The elements are only
    copied, so their type is a parameter.  Sizes are non-negative [int]s; a
    division by zero and a read past the end are undefined. *)
From Stdlib Require Import SpecFloat.
From S2P Require Import Prelude CFloat.
Local Open Scope nat_scope.
Local Open Scope list_scope.

Definition divide (a b : nat) : outcome nat :=
  match b with 0 => Undefined | _ => Ok (a / b) end.

(** [for (int i = 0; i < n; i++) v.push_back(f(i))]. *)
Definition forLoop {B} (n : nat) (f : nat → outcome B) : outcome (list B) := mapM_o f (seq 0 n).

(** Row and column numbers of the blocks: one row of blocks for the left
    operand ([flag = 0]), one column for the right one. *)
Definition create_block_index (parts : nat) (flag : Z) : list (list spec_float) :=
  let zeros := map (λ _, f32_of_Z 0) (seq 0 parts) in
  let numbers := map (λ i, f32_of_Z (Z.of_nat i)) (seq 0 parts) in
  if (flag =? 0)%Z then [zeros; numbers] else [numbers; zeros].

Section Blocks.
Context {A : Type}.

Definition readAt (l : list A) (i : nat) : outcome A :=
  match l !! i with Some x => Ok x | None => Undefined end.

Definition create_input_block (total_size : nat) (values : list (list A)) (block_numbers : nat)
    : outcome (list (list A)) :=
  let flattened := concat values in
  block_size ← divide total_size block_numbers;
  num_cols ← divide total_size (length values);
  cols_per_block ← divide block_size (length values);
  forLoop block_numbers (λ i,
    forLoop block_size (λ j,
      data_x ← divide j cols_per_block;
      let data_y := i * cols_per_block + j mod cols_per_block in
      readAt flattened (data_x * num_cols + data_y))).

Definition create_weight_block (total_size : nat) (values : list A) (block_numbers : nat)
    : outcome (list (list A)) :=
  block_size ← divide total_size block_numbers;
  forLoop block_numbers (λ i, forLoop block_size (λ j, readAt values (i * block_size + j))).

(** [std::ceil(static_cast<float>(col) / block_size)] as an [int]. *)
Definition float_ceil (x : spec_float) : option Z :=
  match x with
  | S754_zero _ => Some 0%Z
  | S754_finite s m e =>
      if (0 <=? e)%Z then float_trunc x
      else if s then Some (- Z.shiftr (Z.pos m) (- e))%Z
      else Some (Z.shiftr (Z.pos m + Z.ones (- e)) (- e))%Z
  | _ => None
  end.

Definition num_blocks (col block_size : nat) : outcome nat :=
  match float_ceil (SFdiv 24 128 (f32_of_Z (Z.of_nat col)) (f32_of_Z (Z.of_nat block_size))) with
  | Some z => if (0 <=? z)%Z && int32b z then Ok (Z.to_nat z) else Undefined
  | None => Undefined
  end.

(** One block: the columns from [current_col], row by row. *)
Definition create_block (row col : nat) (values : list A) (current_col current_block_size : nat)
    : outcome (list A) :=
  rows ← forLoop row (λ r, forLoop current_block_size (λ c, readAt values (r * col + current_col + c)));
  Ok (concat rows).

(** The loop over the blocks from number [i]; the last one takes the rest of
    the columns. *)
Fixpoint create_blocks_from (row col : nat) (values : list A) (block_size remaining current_col : nat)
    : outcome (list (list A)) :=
  match remaining with
  | 0 => Ok []
  | S remaining' =>
      let current_block_size := match remaining' with 0 => col - current_col | _ => block_size end in
      block ← create_block row col values current_col current_block_size;
      rest ← create_blocks_from row col values block_size remaining' (current_col + current_block_size);
      Ok (block :: rest)
  end.

Definition create_blocks (row col : nat) (values : list A) (block_size : nat)
    : outcome (list (list A)) :=
  n ← num_blocks col block_size;
  create_blocks_from row col values block_size n 0.

(** The loop of [splitRowVectorIntoBatches] from [start]; [slice] copies. *)
Fixpoint batchesFrom (fuel : nat) (inputVector : list A) (batchSize start : nat)
    : outcome (list (list A)) :=
  if start <? length inputVector then
    match fuel with
    | 0 => Throw OutOfFuel
    | S fuel' =>
        let currentBatchSize := Nat.min batchSize (length inputVector - start) in
        rest ← batchesFrom fuel' inputVector batchSize (start + batchSize);
        Ok (take currentBatchSize (drop start inputVector) :: rest)
    end
  else Ok [].

(** One iteration per row is enough when the batch size is positive. *)
Definition splitRowVectorIntoBatches (inputVector : list A) (batchSize : nat)
    : outcome (list (list A)) :=
  batchesFrom (length inputVector) inputVector batchSize 0.

(** ** Loops that only read *)
Lemma mapM_o_all {B} (f : nat → outcome B) (g : nat → B) l :
  (∀ i, i ∈ l → f i = Ok (g i)) → mapM_o f l = Ok (map g l).
Proof.
  induction l as [|i l IH]; intros H; [done|]. simpl. rewrite H by set_solver. simpl.
  rewrite IH by set_solver. done.
Qed.

Lemma forLoop_Ok {B} n (f : nat → outcome B) (g : nat → B) :
  (∀ i, i < n → f i = Ok (g i)) → forLoop n f = Ok (map g (seq 0 n)).
Proof.
  intros H. apply mapM_o_all. intros i Hi. apply H. apply elem_of_seq in Hi. lia.
Qed.

(** Reading [n] consecutive cells copies a segment. *)
Lemma readSegment (l : list A) from n (f : nat → nat) :
  from + n ≤ length l → (∀ j, j < n → f j = from + j) →
  forLoop n (λ j, readAt l (f j)) = Ok (take n (drop from l)).
Proof.
  intros Hle Hf. unfold forLoop.
  assert (∀ k s, s + k = n → mapM_o (λ j, readAt l (f j)) (seq s k) = Ok (take k (drop (from + s) l))) as H.
  { induction k as [|k IH]; intros s Hs; [done|]. cbn [seq mapM_o].
    destruct (lookup_lt_is_Some_2 l (from + s)) as [x Hx]; [lia|].
    assert (readAt l (f s) = Ok x) as -> by (unfold readAt; rewrite Hf by lia; by rewrite Hx).
    cbn [mbind outcome_bind]. rewrite IH by lia. rewrite (drop_S l x (from + s)) by done.
    simpl. by rewrite Nat.add_succ_r. }
  rewrite (H n 0) by lia. by rewrite Nat.add_0_r.
Qed.

(** ** The columns of a row-major matrix *)

(** Columns [from .. from + width) of each row, row after row. *)
Definition columns (row col : nat) (values : list A) (from width : nat) : list A :=
  concat (map (λ r, take width (drop (r * col + from) values)) (seq 0 row)).

Lemma length_concat_uniform {B} (f : B → list A) l n :
  (∀ x, x ∈ l → length (f x) = n) → length (concat (map f l)) = length l * n.
Proof.
  induction l as [|x l IH]; intros H; [done|]. simpl. rewrite length_app, H, IH by set_solver. done.
Qed.

Lemma lookup_concat_uniform (rows : list (list A)) n x y :
  Forall (λ r, length r = n) rows → y < n →
  concat rows !! (x * n + y) = rows !! x ≫= λ r, r !! y.
Proof.
  intros H Hy. revert x; induction H as [|r rows Hr _ IH]; intros x; [by destruct x|].
  destruct x as [|x]; simpl.
  - by rewrite lookup_app_l by lia.
  - rewrite lookup_app_r by lia. replace (n + x * n + y - length r) with (x * n + y) by lia. apply IH.
Qed.

Lemma create_block_Ok row col values from width :
  from + width ≤ col → length values = row * col →
  create_block row col values from width = Ok (columns row col values from width).
Proof.
  intros Hle Hlen. unfold create_block.
  rewrite (forLoop_Ok _ _ (λ r, take width (drop (r * col + from) values))); [done|].
  intros r Hr. apply readSegment; [nia | lia].
Qed.

(** The blocks from column [from] on, with their first column and width. *)
Fixpoint cuts (block_size remaining col from : nat) : list (nat * nat) :=
  match remaining with
  | 0 => []
  | S remaining' =>
      let width := match remaining' with 0 => col - from | _ => block_size end in
      (from, width) :: cuts block_size remaining' col (from + width)
  end.

Lemma create_blocks_from_Ok row col values block_size remaining from :
  length values = row * col → from + (remaining - 1) * block_size ≤ col →
  create_blocks_from row col values block_size remaining from =
  Ok (map (λ c, columns row col values c.1 c.2) (cuts block_size remaining col from)).
Proof.
  intros Hlen. revert from; induction remaining as [|n IH]; intros from Hle; [done|].
  cbn [create_blocks_from cuts map]. destruct n as [|n].
  - rewrite create_block_Ok by lia. done.
  - rewrite create_block_Ok by lia. cbn [mbind outcome_bind]. rewrite IH by lia. done.
Qed.

(** Putting the cuts of one row side by side gives the row back. *)
Lemma cuts_cover (l : list A) block_size remaining col from off :
  remaining ≠ 0 → from + (remaining - 1) * block_size ≤ col →
  concat (map (λ c, take c.2 (drop (off + c.1) l)) (cuts block_size remaining col from)) =
  take (col - from) (drop (off + from) l).
Proof.
  revert from; induction remaining as [|n IH]; intros from Hne Hle; [done|].
  cbn [cuts map concat fst snd]. destruct n as [|n]; [simpl; by rewrite app_nil_r|].
  rewrite IH by lia.
  replace (col - from) with (block_size + (col - (from + block_size))) at 1 by lia.
  rewrite <- take_take_drop. rewrite drop_drop. do 3 f_equal; lia.
Qed.
End Blocks.

Section MoreBlocks.
Context {A : Type}.
Implicit Types (values : list (list A)) (l : list A).

Lemma mapM_o_app {B} (f : nat → outcome B) a b xs ys :
  mapM_o f a = Ok xs → mapM_o f b = Ok ys → mapM_o f (a ++ b) = Ok (xs ++ ys).
Proof.
  revert xs; induction a as [|i a IH]; intros xs Ha Hb; simpl in *; [by injection Ha as <-|].
  inv_bind. subst. rewrite Ha0. simpl. by rewrite (IH _ Ha1 Hb).
Qed.

Lemma mapM_o_shift {B} (f : nat → outcome B) s off k :
  mapM_o f (seq (off + s) k) = mapM_o (λ c, f (off + c)) (seq s k).
Proof.
  revert s; induction k as [|k IH]; intros s; [done|]. cbn [seq mapM_o].
  rewrite <- Nat.add_succ_r, IH. done.
Qed.

(** A loop over [n * k] steps as [n] loops over [k] steps. *)
Lemma forLoop_nested {B} n k (f : nat → outcome B) (g : nat → list B) :
  (∀ r, r < n → forLoop k (λ c, f (r * k + c)) = Ok (g r)) →
  forLoop (n * k) f = Ok (concat (map g (seq 0 n))).
Proof.
  induction n as [|n IH]; intros H; [done|].
  replace (S n * k) with (n * k + k) by lia. unfold forLoop. rewrite seq_app, seq_S, map_app, concat_app.
  simpl. rewrite app_nil_r. apply mapM_o_app; [apply IH; intros; apply H; lia|].
  rewrite <- H by lia. unfold forLoop. rewrite <- mapM_o_shift. by rewrite Nat.add_0_r.
Qed.

Lemma mapM_o_ext_in {B} (f g : nat → outcome B) (js : list nat) :
  (∀ x, x ∈ js → f x = g x) → mapM_o f js = mapM_o g js.
Proof.
  induction js as [|x js IH]; intros H; [done|]. simpl. rewrite H by set_solver.
  by rewrite IH by set_solver.
Qed.

Lemma divide_Ok a b : b ≠ 0 → divide a b = Ok (a / b).
Proof. by destruct b. Qed.

Lemma create_input_block_Ok values B k :
  B ≠ 0 → k ≠ 0 → values ≠ [] → Forall (λ r, length r = B * k) values →
  create_input_block (length values * (B * k)) values B =
  Ok (map (λ i, columns (length values) (B * k) (concat values) (i * k) k) (seq 0 B)).
Proof.
  intros HB Hk Hv Hrows. unfold create_input_block. set (R := length values).
  assert (R ≠ 0) as HR by (by destruct values).
  assert (length (concat values) = R * (B * k)) as Hlen.
  { unfold R. rewrite <- (map_id values) at 1. apply length_concat_uniform.
    intros r Hr. rewrite Forall_forall in Hrows. auto. }
  rewrite !divide_Ok by done. cbn [mbind outcome_bind].
  replace (R * (B * k) / B) with (R * k).
  2: { symmetry. replace (R * (B * k)) with (R * k * B) by lia. by apply Nat.div_mul. }
  replace (R * (B * k) / R) with (B * k).
  2: { symmetry. rewrite Nat.mul_comm. by apply Nat.div_mul. }
  rewrite divide_Ok by done. cbn [mbind outcome_bind].
  replace (R * k / R) with k by (symmetry; rewrite Nat.mul_comm; by apply Nat.div_mul).
  apply forLoop_Ok. intros i Hi. apply forLoop_nested. intros r Hr.
  unfold forLoop. rewrite (mapM_o_ext_in _ (λ c, readAt (concat values) (r * (B * k) + i * k + c))).
  - apply readSegment; [|lia]. rewrite Hlen.
    pose proof (Nat.mul_le_mono_r (S r) R (B * k) ltac:(lia)).
    pose proof (Nat.mul_le_mono_r (S i) B k ltac:(lia)). lia.
  - intros c Hc%elem_of_seq. rewrite divide_Ok by done. cbn [mbind outcome_bind].
    rewrite Nat.div_add_l, Nat.div_small, Nat.add_0_r by lia.
    rewrite (Nat.add_comm (r * k) c), Nat.Div0.mod_add, Nat.mod_small by lia. f_equal. lia.
Qed.

Lemma create_weight_block_Ok l B m :
  B ≠ 0 → length l = B * m →
  create_weight_block (B * m) l B = Ok (map (λ i, take m (drop (i * m) l)) (seq 0 B)).
Proof.
  intros HB Hlen. unfold create_weight_block. rewrite divide_Ok by done. cbn [mbind outcome_bind].
  replace (B * m / B) with m by (symmetry; rewrite Nat.mul_comm; by apply Nat.div_mul).
  apply forLoop_Ok. intros i Hi. apply readSegment; [nia | lia].
Qed.

Lemma batchesFrom_Ok l batchSize fuel start :
  0 < batchSize → length l - start ≤ fuel →
  ∃ bs, batchesFrom fuel l batchSize start = Ok bs ∧ concat bs = drop start l ∧
    Forall (λ b, 0 < length b ≤ batchSize) bs.
Proof.
  intros Hb. revert start; induction fuel as [|fuel IH]; intros start Hf; simpl;
    destruct (Nat.ltb_spec start (length l)) as [Hlt|Hge]; try lia.
  - exists []. rewrite drop_ge by lia. auto.
  - destruct (IH (start + batchSize)) as (bs & -> & Hc & Hall); [lia|]. simpl.
    eexists. split; [done|]. split.
    + simpl. rewrite Hc. destruct (Nat.le_ge_cases batchSize (length l - start)).
      * rewrite Nat.min_l, <- drop_drop by lia. apply take_drop.
      * rewrite Nat.min_r by lia. rewrite (drop_ge l (start + _)) by lia. rewrite app_nil_r.
        apply take_ge. rewrite length_drop. lia.
    + constructor; [|done]. rewrite length_take, length_drop. lia.
  - exists []. rewrite drop_ge by lia. auto.
Qed.

End MoreBlocks.

(** ** Block-wise matrix multiplication *)
Section MatMul.
Local Open Scope Z_scope.

Fixpoint sumZ (n : nat) (f : nat → Z) : Z :=
  match n with O => 0 | S n' => sumZ n' f + f n' end.

(** Entry (r, n) of the product of a row-major matrix with [k] columns and one
    with [N] columns. *)
Definition mulEntry (k N : nat) (x w : list Z) (r n : nat) : Z :=
  sumZ k (λ c, x !!! (r * k + c)%nat * w !!! (c * N + n)%nat).

Lemma sumZ_add a b f : sumZ (a + b) f = sumZ a f + sumZ b (λ i, f (a + i)%nat).
Proof.
  induction b as [|b IH]; [rewrite Nat.add_0_r; simpl; lia|]. rewrite Nat.add_succ_r. simpl.
  rewrite IH. lia.
Qed.

Lemma sumZ_ext n f g : (∀ i, (i < n)%nat → f i = g i) → sumZ n f = sumZ n g.
Proof. induction n as [|n IH]; intros H; [done|]. simpl. rewrite IH, H by auto with lia. done. Qed.

Lemma sumZ_nested B k f : sumZ B (λ i, sumZ k (λ c, f (i * k + c)%nat)) = sumZ (B * k) f.
Proof.
  induction B as [|B IH]; [done|]. replace (S B * k)%nat with (B * k + k)%nat by lia.
  rewrite sumZ_add, <- IH. done.
Qed.

Lemma lookup_total_segment {X} `{Inhabited X} (l : list X) m from i :
  (i < m)%nat → take m (drop from l) !!! i = l !!! (from + i)%nat.
Proof.
  intros Hi. rewrite !list_lookup_total_alt, lookup_take_lt, lookup_drop by done. done.
Qed.

Lemma columns_lookup {X} `{Inhabited X} R C (l : list X) from k r c :
  (r < R)%nat → (c < k)%nat → (from + k ≤ C)%nat → length l = (R * C)%nat →
  columns R C l from k !!! (r * k + c)%nat = l !!! (r * C + (from + c))%nat.
Proof.
  intros Hr Hc Hle Hlen. unfold columns. rewrite list_lookup_total_alt.
  rewrite (lookup_concat_uniform _ k).
  - change (map ?f ?x) with (f <$> x). rewrite list_lookup_fmap, lookup_seq_lt by done. simpl.
    rewrite <- list_lookup_total_alt, lookup_total_segment by done. f_equal. lia.
  - apply Forall_forall. intros x (r' & -> & Hr'%elem_of_seq)%list_elem_of_fmap.
    rewrite length_take, length_drop, Hlen.
    pose proof (Nat.mul_le_mono_r (S r') R C ltac:(lia)). lia.
  - done.
Qed.
End MatMul.

(** ** Properties *)

(** Cutting a matrix into blocks with [create_blocks] loses nothing: every
    read is in bounds, block b holds the columns [cuts] assigns to it, and
    putting the blocks side by side gives every row of the matrix back; the
    last block takes the columns that are left. *)
Theorem create_blocks_roundtrip {A} (values : list A) row col block_size n :
  num_blocks col block_size = Ok n → n ≠ 0 → (n - 1) * block_size ≤ col → length values = row * col →
  ∃ blocks, create_blocks row col values block_size = Ok blocks ∧
    blocks = map (λ c, columns row col values c.1 c.2) (cuts block_size n col 0) ∧
    ∀ r, r < row →
      concat (map (λ c, take c.2 (drop (r * col + c.1) values)) (cuts block_size n col 0)) =
      take col (drop (r * col) values).
Proof.
  intros Hn Hne Hle Hlen. unfold create_blocks. rewrite Hn. cbn [mbind outcome_bind].
  rewrite create_blocks_from_Ok by (done || lia). eexists. split_and!; [done..|].
  intros r Hr. rewrite cuts_cover by (done || lia). by rewrite Nat.sub_0_r, Nat.add_0_r.
Qed.

Lemma create_blocks_roundtrip_witness :
  num_blocks 5 2 = Ok 3 ∧
  ∃ blocks, create_blocks 2 5 [1; 2; 3; 4; 5; 6; 7; 8; 9; 10] 2 = Ok blocks ∧
    blocks = [[1; 2; 6; 7]; [3; 4; 8; 9]; [5; 10]].
Proof.
  split; [vm_compute; reflexivity|].
  destruct (create_blocks_roundtrip [1; 2; 3; 4; 5; 6; 7; 8; 9; 10] 2 5 2 3) as (bs & H & Hb & _);
    [vm_compute; reflexivity | lia | lia | reflexivity |].
  exists bs. split; [exact H | exact Hb].
Defined.

(** Block-wise multiplication is multiplication: for an R x C input and a
    C x N weight matrix cut into B blocks each, by columns and by rows, both
    functions succeed and the products of corresponding blocks add up to the
    product of the matrices, entry by entry (over exact arithmetic). *)
Theorem blocked_multiplication (values : list (list Z)) (weights : list Z) B k N :
  B ≠ 0 → k ≠ 0 → values ≠ [] → Forall (λ row, length row = B * k) values →
  length weights = B * (k * N) →
  ∃ xs ws, create_input_block (length values * (B * k)) values B = Ok xs ∧
    create_weight_block (B * (k * N)) weights B = Ok ws ∧
    ∀ r n, r < length values → n < N →
      sumZ B (λ i, mulEntry k N (xs !!! i) (ws !!! i) r n) =
      mulEntry (B * k) N (concat values) weights r n.
Proof.
  intros HB Hk Hv Hrows Hw. rewrite create_input_block_Ok, create_weight_block_Ok by done.
  eexists _, _. split_and!; [done..|]. intros r n Hr Hn. unfold mulEntry at 2.
  rewrite <- sumZ_nested. apply sumZ_ext. intros i Hi. unfold mulEntry. apply sumZ_ext. intros c Hc.
  assert (length (concat values) = length values * (B * k)) as Hlen.
  { rewrite <- (map_id values) at 1. apply length_concat_uniform.
    intros x Hx. rewrite Forall_forall in Hrows. auto. }
  assert (∀ (f : nat → list Z), map f (seq 0 B) !!! i = f i) as Hi'.
  { intros f. change (map f (seq 0 B)) with (f <$> seq 0 B).
    rewrite list_lookup_total_alt, list_lookup_fmap, lookup_seq_lt by done. done. }
  pose proof (Nat.mul_le_mono_r (S i) B k ltac:(lia)). pose proof (Nat.mul_le_mono_r (S c) k N ltac:(lia)).
  rewrite !Hi', columns_lookup, lookup_total_segment by (done || lia).
  f_equal; f_equal; lia.
Qed.

Lemma blocked_multiplication_witness :
  ∃ xs ws, create_input_block 4 [[1; 2]; [3; 4]]%Z 2 = Ok xs ∧
    create_weight_block 2 [5; 6]%Z 2 = Ok ws ∧
    sumZ 2 (λ i, mulEntry 1 1 (xs !!! i) (ws !!! i) 1 0) = 39%Z.
Proof.
  destruct (blocked_multiplication [[1; 2]; [3; 4]]%Z [5; 6]%Z 2 1 1) as (xs & ws & Hx & Hw & H);
    [discriminate | discriminate | discriminate | repeat constructor | reflexivity |].
  exists xs, ws. split; [exact Hx|]. split; [exact Hw|]. rewrite (H 1 0); [reflexivity | simpl; lia | lia].
Defined.

(** Splitting a table into batches: with a positive batch size the loop
    ends, every batch is non-empty and at most of the given size, and the
    batches in order are the table. *)
Theorem splitRowVectorIntoBatches_correct {A} (inputVector : list A) batchSize :
  0 < batchSize →
  ∃ batches, splitRowVectorIntoBatches inputVector batchSize = Ok batches ∧
    concat batches = inputVector ∧ Forall (λ b, 0 < length b ≤ batchSize) batches.
Proof.
  intros Hb. unfold splitRowVectorIntoBatches.
  destruct (batchesFrom_Ok inputVector batchSize (length inputVector) 0) as (bs & ? & ? & ?);
    [done | lia |]. eauto.
Qed.

Lemma splitRowVectorIntoBatches_correct_witness :
  ∃ batches, splitRowVectorIntoBatches [1; 2; 3; 4; 5] 2 = Ok batches ∧ concat batches = [1; 2; 3; 4; 5].
Proof.
  destruct (splitRowVectorIntoBatches_correct [1; 2; 3; 4; 5] 2) as (bs & H & Hc & _); [lia|].
  exists bs. split; [exact H | exact Hc].
Defined.

(** A batch size of zero never terminates on a table with rows: however
    many iterations are allowed, the loop needs more. *)
Theorem zero_batch_size_loops {A} (inputVector : list A) fuel :
  inputVector ≠ [] → batchesFrom fuel inputVector 0 0 = Throw OutOfFuel.
Proof.
  intros Hne. assert (0 < length inputVector) as Hlen by (destruct inputVector; [done | simpl; lia]).
  induction fuel as [|fuel IH]; simpl; rewrite (proj2 (Nat.ltb_lt _ _) Hlen); [done|]. by rewrite IH.
Qed.

Lemma zero_batch_size_loops_witness : batchesFrom 100 [7; 8] 0 0 = Throw OutOfFuel.
Proof. apply (zero_batch_size_loops [7; 8] 100). discriminate. Defined.
