(* ===== verification/Conv.v ===== *)
(** * Convolution as a product of matrices

    Models [velox/optimizer/ConvHelper.h]: images and kernels are cut into
    windows, windows into chunks, chunks are gathered in blocks and blocks are
    copied into two matrices whose product is the convolution.  The elements
    are copied only, so their type is a parameter.  Sizes and indices are taken
    to stay within [int], as they do for every array that can be allocated.
    A read or write past the end of an array and a division by zero are
    undefined; memory from [new] is not initialised. *)
From S2P Require Import Prelude.
Local Open Scope Z_scope.

Definition idiv (a b : Z) : outcome Z := if b =? 0 then Undefined else Ok (Z.quot a b).
Definition imod (a b : Z) : outcome Z := if b =? 0 then Undefined else Ok (Z.rem a b).

Section Conv.
Context {T : Type} (zero one : T).

(** ** Images *)
Record Image := mkImage { img_index : Z; img_x : Z; img_y : Z; img_z : Z; matrices : list (list T) }.

Definition get_x (img : Image) (padding : Z) : Z := img_x img + padding * 2.
Definition get_y (img : Image) (padding : Z) : Z := img_y img + padding * 2.

Definition get_h_slides (img : Image) (padding kernel_size stride : Z) : outcome Z :=
  q ← idiv (get_y img padding - kernel_size) stride; Ok (q + 1).
Definition get_v_slides (img : Image) (padding kernel_size stride : Z) : outcome Z :=
  q ← idiv (get_x img padding - kernel_size) stride; Ok (q + 1).

Definition get_win_value (img : Image) (window i j stride channel kernel_size padding : Z) : outcome T :=
  h_slides ← get_h_slides img padding kernel_size stride;
  r ← idiv window h_slides;
  c ← imod window h_slides;
  let x_index := (r * stride + i) - padding in
  let y_index := (c * stride + j) - padding in
  if (padding >? 0) && ((x_index <? 0) || (y_index <? 0) || (x_index >=? img_x img) || (y_index >=? img_y img)) then Ok zero
  else
    let flat_index := x_index * img_y img + y_index in
    m ← index (matrices img) channel;
    index m flat_index.

Definition get_conv2d_window_count (img : Image) (kernel_size stride padding : Z) : outcome Z :=
  h_slides ← get_h_slides img padding kernel_size stride;
  v_slides ← get_v_slides img padding kernel_size stride;
  Ok (h_slides * v_slides).

(** ** Chunks *)
Record ImageChunk := mkChunk {
  block_row : Z; y_index : Z; chunk : list T; chunk_size : Z; y_size : Z; block_row_start : Z
}.
#[global] Instance chunk_copyable : Copyable ImageChunk := λ c,
  mkChunk (block_row c) (y_index c) (chunk c) (chunk_size c) (y_size c) (block_row_start c).

(** [reserve] throws for a negative size. *)
Definition newChunk (size y_size block_row y_index block_row_start : Z) : outcome ImageChunk :=
  if size <? 0 then Throw LengthError else Ok (mkChunk block_row y_index [] size y_size block_row_start).

Definition getSize (c : ImageChunk) : Z := Z.of_nat (length (chunk c)).
Definition getChunkActualRowIndex (c : ImageChunk) : Z := block_row_start c + block_row c.

(** The chunks so far, the number of the current one, and the current one. *)
Definition cutState := (list ImageChunk * Z * ImageChunk)%type.

Definition flush (make : Z → outcome ImageChunk) (st : cutState) : outcome cutState :=
  let '(result, counter, c) := st in
  c' ← make (counter + 1); Ok (result ++ [c], counter + 1, c').

Definition append (v : T) (st : cutState) : cutState :=
  let '(result, counter, c) := st in (result, counter, c <| chunk := chunk c ++ [v] |>).

(** The body of the innermost loop; [value] computes what is appended. *)
Definition pushValue (block_y : Z) (make : Z → outcome ImageChunk) (value : outcome T) (st : cutState) : outcome cutState :=
  let c := st.2 in
  full ← (if getSize c >? 0 then r ← imod (getSize c) block_y; Ok (r =? 0) else Ok false);
  st' ← (if full : bool then flush make st else Ok st);
  v ← value;
  Ok (append v st').

(** After the loops: the place of the bias. *)
Definition finishRow (block_y : Z) (make : Z → outcome ImageChunk) (last : T) (st : cutState) : outcome (list ImageChunk) :=
  r ← imod (getSize st.2) block_y;
  st' ← (if r =? 0 then flush make st else Ok st);
  let '(result, _, c) := append last st' in Ok (result ++ [c]).

Definition cutWindow (img : Image) (block_y strides kernel padding w : Z) (make : Z → outcome ImageChunk) (st : cutState) : outcome cutState :=
  foldM_o (λ st c,
    foldM_o (λ st i,
      foldM_o (λ st j, pushValue block_y make (get_win_value img w i j strides c kernel padding) st) (seqZ 0 kernel) st)
      (seqZ 0 kernel) st)
    (seqZ 0 (img_z img)) st.

Definition img_to_chunks (img : Image) (block_y strides kernel padding : Z) : outcome (list ImageChunk) :=
  windows ← get_conv2d_window_count img kernel strides padding;
  let row_start := img_index img * windows in
  rows ← mapM_o (λ w,
    let make counter := newChunk block_y block_y w counter row_start in
    c ← make 0;
    st ← cutWindow img block_y strides kernel padding w make ([], 0, c);
    finishRow block_y make one st) (seqZ 0 windows);
  Ok (concat rows).

Definition kernel_to_chunks (kernel : Image) (block_y : Z) : outcome (list ImageChunk) :=
  let make counter := newChunk block_y block_y 0 counter (img_index kernel) in
  c ← make 0;
  st ← foldM_o (λ st c,
         data ← index (matrices kernel) c;
         foldM_o (λ st i, pushValue block_y make (index data i) st) (seqZ 0 (img_x kernel * img_y kernel)) st)
       (seqZ 0 (img_z kernel)) ([], 0, c);
  finishRow block_y make zero st.

(** ** Blocks *)
Record ImageBlock := mkBlock {
  block_x_index : Z; block_x_size : Z; block_y_size : Z; block_y_index : Z; chunks : gmap Z (list T); key : Z; feature_count : Z
}.

Definition newBlock (block_x_size : Z) (c : ImageChunk) : outcome ImageBlock :=
  let row := getChunkActualRowIndex c in
  x ← idiv row block_x_size;
  Ok (mkBlock x block_x_size (y_size c) (y_index c) {[row := chunk c]} (x * 10000 + y_index c) (getSize c)).

Definition getActualBlockSize (b : ImageBlock) : Z := Z.of_nat (size (chunks b)).

(** Rows that are present already are kept. *)
Definition merge (b addMeIn : ImageBlock) : ImageBlock :=
  mkBlock (block_x_index b) (block_x_size b) (block_y_size b) (block_y_index b) (chunks b ∪ chunks addMeIn) (key b) (feature_count b).

(** The map of the code is read in the order of its keys. *)
Definition chunks_to_blocks (cs : list ImageChunk) (block_x : Z) : outcome (list ImageBlock) :=
  blocks ← mapM_o (newBlock block_x) cs;
  let keys := merge_sort Z.le (remove_dups (map key blocks)) in
  Ok (omap (λ k, match filter (λ b, key b = k) blocks with [] => None | b :: bs => Some (foldl merge b bs) end) keys).

(** ** Matrices *)
Record ImageMatrix := mkMatrix { num_row : Z; num_col : Z; data : list (option T) }.

Definition newArray (n : Z) : outcome (list (option T)) := if n <? 0 then Throw LengthError else Ok (replicate (Z.to_nat n) None).

Definition writeAt (d : list (option T)) (i : Z) (v : T) : outcome (list (option T)) :=
  if (0 <=? i) && (i <? Z.of_nat (length d)) then Ok (<[Z.to_nat i := Some v]> d) else Undefined.

(** [chunk.at(row).at(y)]. *)
Definition chunkAt (b : ImageBlock) (row y : Z) : outcome T :=
  match chunks b !! row with
  | None => Throw (RuntimeError "map::at")
  | Some c => match (if y <? 0 then None else c !! Z.to_nat y) with Some v => Ok v | None => Throw (RuntimeError "vector::at") end
  end.

Definition cellValue (b : ImageBlock) (x y : Z) : outcome T :=
  if (x >=? getActualBlockSize b) || (y >=? feature_count b) then Ok zero
  else chunkAt b (block_x_index b * block_x_size b + x) y.

(** The loops over one block; [place] is the index a cell is written to. *)
Definition copyBlock (real_block_x real_block_y : Z) (place : Z → Z → Z) (b : ImageBlock) (d : list (option T)) : outcome (list (option T)) :=
  foldM_o (λ d x, foldM_o (λ d y, v ← cellValue b x y; writeAt d (place x y) v) (seqZ 0 real_block_y) d) (seqZ 0 real_block_x) d.

Definition blocks_to_matrix (blocks : list ImageBlock) (block_x block_y : Z) (padding : bool) (total_features total_rows : Z)
    : outcome ImageMatrix :=
  d ← newArray (total_rows * total_features);
  d' ← foldM_o (λ d b,
         copyBlock (if padding then block_x else getActualBlockSize b)
           (if padding then block_y else Z.min block_y (total_features - block_y_index b * block_y))
           (λ x y, x * total_features + y + block_y_index b * block_y_size b) b d) blocks d;
  Ok (mkMatrix total_rows total_features d').

Definition kernelblocks_to_matrix (blocks : list ImageBlock) (block_x block_y : Z) (padding : bool) (total_features total_rows : Z)
    : outcome ImageMatrix :=
  d ← newArray (total_rows * total_features);
  d' ← foldM_o (λ d b,
         copyBlock (if padding then block_x else getActualBlockSize b)
           (if padding then block_y else Z.min block_y (total_rows - block_y_index b * block_y))
           (λ x y, (y + block_y_index b * block_y_size b) * total_features + x) b d) blocks d;
  Ok (mkMatrix total_rows total_features d').

Definition copy_bias_to_matrix (m : ImageMatrix) (bias : list T) : outcome ImageMatrix :=
  let lastRow := num_row m - 1 in
  d ← foldM_o (λ d i, v ← index bias i; writeAt d (lastRow * num_col m + i) v) (seqZ 0 (num_col m)) (data m);
  Ok (mkMatrix (num_row m) (num_col m) d).

Definition convertImage (images : list Image) (window_items strides kWidth kChannels padding block_x block_y : Z) : outcome ImageMatrix :=
  first ← index images 0;
  windows ← get_conv2d_window_count first kWidth strides padding;
  let finalRowSize := Z.of_nat (length images) * windows in
  let finalColSize := kChannels * kWidth * kWidth + 1 in
  cs ← mapM_o (λ img, img_to_chunks img window_items strides kWidth padding) images;
  blocks ← chunks_to_blocks (concat cs) block_x;
  blocks_to_matrix blocks block_x block_y (negb (padding =? 0)) finalColSize finalRowSize.

Definition convertKernel (kernels : list Image) (window_items kWidth kChannels : Z) (block_padding : bool) (block_x block_y : Z) (bias : list T)
    : outcome ImageMatrix :=
  let finalRowSize := kChannels * kWidth * kWidth + 1 in
  let finalColSize := Z.of_nat (length kernels) in
  cs ← mapM_o (λ k, kernel_to_chunks k window_items) kernels;
  blocks ← chunks_to_blocks (concat cs) block_x;
  m ← kernelblocks_to_matrix blocks block_x block_y block_padding finalColSize finalRowSize;
  copy_bias_to_matrix m bias.

(** Every image gets the same values. *)
Definition loadFormData (width height channels numOfImages : Z) (values : list T) : outcome (list Image) :=
  let imageSize := width * height in
  mapM_o (λ imageCount,
    ms ← mapM_o (λ c, mapM_o (λ i, index values (c * imageSize + i)) (seqZ 0 imageSize)) (seqZ 0 channels);
    Ok (mkImage imageCount width height channels ms)) (seqZ 0 numOfImages).

(** [convert2Matrix] of kernels. *)
Definition convert2Matrix (d0 d1 d2 numOfImages : Z) (values bias : list T) : outcome ImageMatrix :=
  kernels ← loadFormData d0 d1 d2 numOfImages values;
  convertKernel kernels (d0 * d1) d0 d2 false 32 (d0 * d1) bias.

(** ** Blocks of whole rows *)
Definition writeRange (d : list T) (start : Z) (l : list T) : outcome (list T) :=
  if (0 <=? start) && (start + Z.of_nat (length l) <=? Z.of_nat (length d))
  then Ok (take (Z.to_nat start) d ++ l ++ drop (Z.to_nat start + length l) d) else Undefined.

Definition placeChunk (block_x_width total_chunk_size : Z) (blocks : list (list T)) (c : ImageChunk) : outcome (list (list T)) :=
  block_index ← idiv (block_row c + block_row_start c) block_x_width;
  r ← imod (block_row c + block_row_start c) block_x_width;
  b ← index blocks block_index;
  b' ← writeRange b (r * total_chunk_size) (chunk c);
  Ok (<[Z.to_nat block_index := b']> blocks).

Definition chunks2Blocks (cs : list ImageChunk) (block_x_width : Z) : outcome (list (list T)) :=
  let n := Z.of_nat (length cs) in
  let w := uwrap 64 block_x_width in
  q ← (if w =? 0 then Undefined else Ok (swrap 32 (uwrap 64 (n + w - 1) / w)));
  first ← index cs 0;
  if (q <? 0) || (block_x_width * getSize first <? 0) then Throw LengthError
  else
    foldM_o (placeChunk block_x_width (getSize first)) cs
      (replicate (Z.to_nat q) (replicate (Z.to_nat (block_x_width * getSize first)) zero)).

(** [convert2Blocks] of given images. *)
Definition convert2Blocks (images : list Image) (kWidth kChannels strides padding block_x_width : Z) : outcome (list (list T)) :=
  first ← index images 0;
  windows ← get_conv2d_window_count first kWidth strides padding;
  let finalColSize := kChannels * kWidth * kWidth + 1 in
  cs ← mapM_o (λ img, img_to_chunks img finalColSize strides kWidth padding) images;
  chunks2Blocks (concat cs) block_x_width.
End Conv.
