(* ===== verification/ConvCorrect.v ===== *)
(** * Correctness of the convolution helpers

    The windows of the images become the rows of one matrix, the kernels the
    columns of the other, and the product of the two is the convolution. *)
From S2P Require Import Prelude Conv.
Local Open Scope Z_scope.

Lemma foldM_o_push {A B S} (f : S → A → outcome S) (state : list B → S) (g : A → list B) l vs :
  (∀ x ws, x ∈ l → f (state ws) x = Ok (state (ws ++ g x))) → foldM_o f l (state vs) = Ok (state (vs ++ concat (map g l))).
Proof.
  revert vs. induction l as [|x l IH]; intros vs H; cbn; [by rewrite app_nil_r|].
  rewrite H by set_solver. cbn [mbind outcome_bind]. rewrite IH by set_solver. by rewrite <- app_assoc.
Qed.

Lemma length_concat_map {A B} (f : A → list B) (n : nat) l : (∀ x, length (f x) = n) → length (concat (map f l)) = (length l * n)%nat.
Proof. intros Hf. induction l as [|x l IH]; cbn; [done|]. rewrite length_app, Hf, IH. done. Qed.

Section Cutting.
Context {T : Type} (zero one : T).
Notation Image := (Image (T := T)).
Notation ImageChunk := (ImageChunk (T := T)).

(** ** Cutting a row into chunks *)
Definition piece (b : nat) (l : list T) (t : nat) : list T := take b (drop (t * b) l).

Lemma piece_length b l t : length (piece b l t) = (b `min` (length l - t * b))%nat.
Proof. unfold piece. by rewrite length_take, length_drop. Qed.

Lemma piece_lookup b l t y : (y < b)%nat → piece b l t !! y = l !! (t * b + y)%nat.
Proof. intros Hy. unfold piece. by rewrite lookup_take_lt, lookup_drop. Qed.

(** The number of the last piece. *)
Definition lastPiece (b : nat) (l : list T) : nat := (pred (length l) / b)%nat.

Lemma lastPiece_spec b l : (0 < b)%nat → l ≠ [] → (lastPiece b l * b < length l ≤ lastPiece b l * b + b)%nat.
Proof.
  intros Hb Hl. unfold lastPiece. assert (length l ≠ 0)%nat by by destruct l.
  pose proof (Nat.div_mod (pred (length l)) b ltac:(lia)). pose proof (Nat.mod_upper_bound (pred (length l)) b ltac:(lia)). nia.
Qed.

Section Row.
Variables (row start : Z) (b : nat).
Hypothesis Hb : (0 < b)%nat.

Definition pieceChunk (l : list T) (t : nat) : ImageChunk :=
  mkChunk row (Z.of_nat t) (piece b l t) (Z.of_nat b) (Z.of_nat b) start.
Definition make (counter : Z) : outcome ImageChunk := newChunk (Z.of_nat b) (Z.of_nat b) row counter start.

(** The state after the values [l] have been pushed. *)
Definition cutOf (l : list T) : cutState :=
  (map (pieceChunk l) (seq 0 (lastPiece b l)), Z.of_nat (lastPiece b l), pieceChunk l (lastPiece b l)).

Lemma make_Ok counter : make counter = Ok (mkChunk row counter [] (Z.of_nat b) (Z.of_nat b) start).
Proof using Hb. unfold make, newChunk. by destruct (Z.ltb_spec (Z.of_nat b) 0); [lia|]. Qed.

Lemma cut_empty : cutOf [] = ([], 0, mkChunk row 0 [] (Z.of_nat b) (Z.of_nat b) start).
Proof using Hb. unfold cutOf, lastPiece, pieceChunk. cbn. rewrite Nat.div_0_l by lia. cbn. unfold piece. by rewrite drop_nil, take_nil. Qed.

(** The current chunk is full when the values fill whole chunks. *)
Lemma size_last l : l ≠ [] → getSize (pieceChunk l (lastPiece b l)) = Z.of_nat (length l - lastPiece b l * b).
Proof using Hb. intros Hl. pose proof (lastPiece_spec b l Hb Hl). unfold getSize. cbn. rewrite piece_length. lia. Qed.

Lemma lastPiece_snoc l v :
  l ≠ [] → lastPiece b (l ++ [v]) = (lastPiece b l + (if decide (length l = lastPiece b l * b + b) then 1 else 0))%nat.
Proof using Hb.
  intros Hl. pose proof (lastPiece_spec b l Hb Hl) as H. assert (l ++ [v] ≠ []) as Hne by by destruct l.
  pose proof (lastPiece_spec b (l ++ [v]) Hb Hne) as H'. rewrite length_app in H'. cbn in H'. destruct (decide _); nia.
Qed.

(** A piece that is full does not change. *)
Lemma piece_snoc l v t : (t * b + b ≤ length l)%nat → piece b (l ++ [v]) t = piece b l t.
Proof using Hb. intros H. unfold piece. rewrite drop_app_le by lia. rewrite take_app_le; [done|]. rewrite length_drop. lia. Qed.

Lemma piece_snoc_last l v t : (t * b ≤ length l < t * b + b)%nat → piece b (l ++ [v]) t = piece b l t ++ [v].
Proof using Hb.
  intros H. unfold piece. rewrite drop_app_le by lia. rewrite (take_ge (drop _ l)) by (rewrite length_drop; lia).
  apply take_ge. rewrite length_app, length_drop. cbn. lia.
Qed.

Lemma chunks_snoc l v n : (n * b ≤ length l)%nat → map (pieceChunk (l ++ [v])) (seq 0 n) = map (pieceChunk l) (seq 0 n).
Proof using Hb.
  intros H. apply map_ext_in. intros t [_ Ht]%in_seq. unfold pieceChunk. rewrite piece_snoc; [done|]. nia.
Qed.

(** Starting a new chunk when the current one is full, then appending. *)
Lemma append_cut l v :
  l ≠ [] → length l ≠ (lastPiece b l * b + b)%nat → append v (cutOf l) = cutOf (l ++ [v]).
Proof using Hb.
  intros Hl Hn. pose proof (lastPiece_spec b l Hb Hl). unfold cutOf. rewrite lastPiece_snoc by done. rewrite decide_False, Nat.add_0_r by done.
  rewrite chunks_snoc by lia. cbn. unfold pieceChunk. rewrite piece_snoc_last by lia. done.
Qed.

Lemma flush_cut l v :
  l ≠ [] → length l = (lastPiece b l * b + b)%nat → (append v <$> flush make (cutOf l)) = Ok (cutOf (l ++ [v])).
Proof using Hb.
  intros Hl Hn. unfold cutOf. rewrite (lastPiece_snoc l v Hl). rewrite decide_True by done. set (m := lastPiece b l) in *.
  cbn [flush]. rewrite make_Ok. cbn [mbind outcome_bind fmap outcome_fmap append chunk]. rewrite Nat.add_1_r. rewrite (chunks_snoc l v (S m)) by lia.
  rewrite seq_S, map_app. cbn. rewrite Nat2Z.inj_succ. unfold pieceChunk. rewrite (piece_snoc_last _ _ (S m)) by lia.
  assert (piece b l (S m) = []) as -> by (unfold piece; rewrite drop_ge by lia; by rewrite take_nil). rewrite ?Nat2Z.inj_succ. unfold Z.succ. done.
Qed.

Lemma full_iff l : l ≠ [] → (Z.rem (getSize (pieceChunk l (lastPiece b l))) (Z.of_nat b) =? 0) = bool_decide (length l = lastPiece b l * b + b)%nat.
Proof using Hb.
  intros Hl. rewrite size_last by done. pose proof (lastPiece_spec b l Hb Hl) as H. rewrite Z.rem_mod_nonneg by lia.
  case_bool_decide as E.
  - replace (length l - lastPiece b l * b)%nat with b by lia. by rewrite Z.mod_same by lia.
  - rewrite Z.mod_small by lia. apply Z.eqb_neq. lia.
Qed.

Lemma pushValue_cut l v : pushValue (Z.of_nat b) make (Ok v) (cutOf l) = Ok (cutOf (l ++ [v])).
Proof using Hb.
  unfold pushValue. destruct (decide (l = [])) as [->|Hl].
  - rewrite cut_empty. cbn. unfold cutOf, lastPiece. cbn. rewrite Nat.div_0_l by lia. unfold pieceChunk, piece. cbn.
    rewrite firstn_all2 by (cbn; lia). done.
  - change (cutOf l).2 with (pieceChunk l (lastPiece b l)). cbv zeta. pose proof (lastPiece_spec b l Hb Hl). destruct (Z.gtb_spec (getSize (pieceChunk l (lastPiece b l))) 0); [|rewrite size_last in * by done; lia].
    unfold imod. destruct (Z.eqb_spec (Z.of_nat b) 0); [lia|]. cbn [mbind outcome_bind]. rewrite full_iff by done. case_bool_decide as E.
    + pose proof (flush_cut l v Hl E) as Hf. destruct (flush make (cutOf l)) as [st| |] eqn:Ef; [|done..]. done.
    + pose proof (append_cut l v Hl E) as Ha. cbn [mbind outcome_bind]. by rewrite <- Ha.
Qed.

(** All chunks of a row: the values and the place of the bias. *)
Lemma finishRow_cut l v :
  l ≠ [] → finishRow (Z.of_nat b) make v (cutOf l) = Ok (map (pieceChunk (l ++ [v])) (seq 0 (S (lastPiece b (l ++ [v]))))).
Proof using Hb.
  intros Hl. assert (∀ st, st = cutOf (l ++ [v]) → (let '(result, _, c) := st in Ok (result ++ [c]) : outcome (list ImageChunk)) =
    Ok (map (pieceChunk (l ++ [v])) (seq 0 (S (lastPiece b (l ++ [v])))))) as Hend.
  { intros st ->. unfold cutOf. by rewrite seq_S, map_app. }
  unfold finishRow, imod. destruct (Z.eqb_spec (Z.of_nat b) 0); [lia|]. cbn [mbind outcome_bind]. change (cutOf l).2 with (pieceChunk l (lastPiece b l)). rewrite full_iff by done. case_bool_decide as E.
  - pose proof (flush_cut l v Hl E) as Hf. destruct (flush make _) as [st| |]; [|done..]. cbn in Hf |- *. injection Hf as Hf. by apply Hend.
  - pose proof (append_cut l v Hl E) as Ha. cbn [mbind outcome_bind]. by apply Hend.
Qed.
End Row.
End Cutting.

(** ** Windows *)
Section Windows.
Context {T : Type} (zero one : T).
Notation Image := (Image (T := T)).

(** An image: [img_z] channels of [img_x] rows of [img_y] values. *)
Record image_wf (img : Image) : Prop := {
  wf_x : 0 < img_x img; wf_y : 0 < img_y img; wf_z : 0 < img_z img;
  wf_channels : Z.of_nat (length (matrices img)) = img_z img;
  wf_sizes : Forall (λ m, Z.of_nat (length m) = img_x img * img_y img) (matrices img)
}.

(** The value of a channel at a position; outside the image it is zero. *)
Definition pixel (img : Image) (c x y : Z) : T :=
  if (0 <=? x) && (x <? img_x img) && (0 <=? y) && (y <? img_y img)
  then nth (Z.to_nat (x * img_y img + y)) (nth (Z.to_nat c) (matrices img) []) zero else zero.

(** The numbers of windows beside and below each other. *)
Definition across (img : Image) (s k p : Z) : Z := (img_y img + p * 2 - k) / s + 1.
Definition down (img : Image) (s k p : Z) : Z := (img_x img + p * 2 - k) / s + 1.

(** The values under window [w], channel by channel and row by row. *)
Definition windowValues (img : Image) (s k p w : Z) : list T :=
  concat (map (λ c, concat (map (λ i, map (λ j,
    pixel img c (w / across img s k p * s + i - p) (w mod across img s k p * s + j - p)) (seqZ 0 k)) (seqZ 0 k))) (seqZ 0 (img_z img))).

Record window_wf (img : Image) (s k p : Z) : Prop := {
  ww_image : image_wf img; ww_s : 0 < s; ww_k : 0 < k; ww_p : 0 <= p;
  ww_x : k <= img_x img + p * 2; ww_y : k <= img_y img + p * 2
}.

Section One.
Variables (img : Image) (s k p : Z).
Hypothesis W : window_wf img s k p.

Lemma h_slides_across : get_h_slides img p k s = Ok (across img s k p).
Proof using W.
  destruct W as [_ Hs Hk Hp Hx Hy]. unfold get_h_slides, idiv, get_y, across. destruct (Z.eqb_spec s 0); [lia|]. cbn.
  rewrite Z.quot_div_nonneg by lia. done.
Qed.

Lemma v_slides_down : get_v_slides img p k s = Ok (down img s k p).
Proof using W.
  destruct W as [_ Hs Hk Hp Hx Hy]. unfold get_v_slides, idiv, get_x, down. destruct (Z.eqb_spec s 0); [lia|]. cbn.
  rewrite Z.quot_div_nonneg by lia. done.
Qed.

Lemma window_count_ok : get_conv2d_window_count img k s p = Ok (across img s k p * down img s k p).
Proof using W. unfold get_conv2d_window_count. rewrite h_slides_across, v_slides_down. done. Qed.

Lemma across_pos : 0 < across img s k p.
Proof using W. destruct W. unfold across. pose proof (Z.div_pos (img_y img + p * 2 - k) s). lia. Qed.
Lemma down_pos : 0 < down img s k p.
Proof using W. destruct W. unfold down. pose proof (Z.div_pos (img_x img + p * 2 - k) s). lia. Qed.

(** A window lies in the padded image. *)
Lemma window_inside w i j :
  0 <= w < across img s k p * down img s k p → 0 <= i < k → 0 <= j < k →
  0 <= w / across img s k p * s + i < img_x img + p * 2 ∧ 0 <= w mod across img s k p * s + j < img_y img + p * 2.
Proof using W.
  pose proof across_pos as Ha. pose proof down_pos as Hd. destruct W as [_ Hs Hk Hp Hx Hy]. intros Hw Hi Hj.
  pose proof (Z.mod_pos_bound w (across img s k p) Ha) as Hm. pose proof (Z.div_pos w (across img s k p) ltac:(lia) Ha) as Hq.
  assert (w / across img s k p < down img s k p) as Hlt by (apply Z.div_lt_upper_bound; lia).
  pose proof (Z.mul_div_le (img_x img + p * 2 - k) s Hs) as Ex. pose proof (Z.mul_div_le (img_y img + p * 2 - k) s Hs) as Ey.
  unfold down in Hlt. unfold across in Hm at 3. split; nia.
Qed.

Lemma index_nth {A} (l : list A) (i : Z) (d : A) : 0 <= i < Z.of_nat (length l) → index l i = Ok (nth (Z.to_nat i) l d).
Proof using.
  intros H. unfold index. destruct (Z.ltb_spec i 0); [lia|].
  destruct (lookup_lt_is_Some_2 l (Z.to_nat i)) as [v Hv]; [lia|]. rewrite Hv. f_equal. symmetry. by apply nth_lookup_Some.
Qed.

Lemma get_win_value_pixel w c i j :
  0 <= w < across img s k p * down img s k p → 0 <= c < img_z img → 0 <= i < k → 0 <= j < k →
  get_win_value zero img w i j s c k p =
  Ok (pixel img c (w / across img s k p * s + i - p) (w mod across img s k p * s + j - p)).
Proof using W.
  intros Hw Hc Hi Hj. destruct (window_inside w i j Hw Hi Hj) as [Hx Hy]. pose proof across_pos as Ha.
  unfold get_win_value. rewrite h_slides_across. cbn [mbind outcome_bind]. unfold idiv, imod. destruct (Z.eqb_spec (across img s k p) 0); [lia|].
  cbn [mbind outcome_bind]. rewrite Z.quot_div_nonneg, Z.rem_mod_nonneg by lia. cbv zeta. destruct W as [[] ? ? Hp ? ?].
  set (x := w / across img s k p * s + i - p). set (y := w mod across img s k p * s + j - p). unfold pixel.
  destruct ((0 <=? x) && (x <? img_x img) && (0 <=? y) && (y <? img_y img)) eqn:E.
  - replace ((p >? 0) && _) with false by (symmetry; apply not_true_iff_false; lia).
    rewrite (index_nth _ c []) by lia. cbn [mbind outcome_bind]. apply index_nth.
    destruct (lookup_lt_is_Some_2 (matrices img) (Z.to_nat c)) as [m Hm]; [lia|].
    rewrite (nth_lookup_Some _ _ _ _ Hm). rewrite Forall_lookup in wf_sizes0. rewrite (wf_sizes0 _ _ Hm). nia.
  - replace ((p >? 0) && _) with true by (symmetry; lia). done.
Qed.

Lemma windowValues_length w : Z.of_nat (length (windowValues img s k p w)) = img_z img * k * k.
Proof using W.
  destruct W as [[] ? ? Hp ? ?]. unfold windowValues.
  rewrite (length_concat_map _ (Z.to_nat k * Z.to_nat k)%nat); [rewrite length_seqZ; lia|]. intros c.
  rewrite (length_concat_map _ (Z.to_nat k)); [by rewrite length_seqZ|]. intros i. by rewrite length_map, length_seqZ.
Qed.

(** A window becomes one row: its values and a one for the bias. *)
Definition imageRow (w : Z) : list T := windowValues img s k p w ++ [one].

Lemma cutWindow_row b row start w :
  (0 < b)%nat → 0 <= w < across img s k p * down img s k p →
  cutWindow zero img (Z.of_nat b) s k p w (make row start b) (cutOf row start b []) = Ok (cutOf row start b (windowValues img s k p w)).
Proof using W.
  intros Hb Hw. unfold cutWindow, windowValues. refine (foldM_o_push _ (cutOf row start b) _ _ [] _). intros c vs Hc%elem_of_seqZ.
  apply (foldM_o_push _ (cutOf row start b)). intros i vs' Hi%elem_of_seqZ.
  etrans; [apply (foldM_o_push _ (cutOf row start b) (λ j, [pixel img c (w / across img s k p * s + i - p) (w mod across img s k p * s + j - p)]))|].
  - intros j vs'' Hj%elem_of_seqZ. rewrite get_win_value_pixel by lia. by apply pushValue_cut.
  - do 3 f_equal. induction (seqZ 0 k); cbn; congruence.
Qed.

Lemma img_to_chunks_rows b :
  (0 < b)%nat → let windows := across img s k p * down img s k p in
  img_to_chunks zero one img (Z.of_nat b) s k p =
  Ok (concat (map (λ w, map (pieceChunk w (img_index img * windows) b (imageRow w)) (seq 0 (S (lastPiece b (imageRow w))))) (seqZ 0 windows))).
Proof using W.
  intros Hb windows. unfold img_to_chunks. rewrite window_count_ok. cbn [mbind outcome_bind]. fold windows. cbv zeta.
  erewrite (proj2 (mapM_o_Ok _ _ _)); [cbn [mbind outcome_bind]; reflexivity|].
  apply Forall2_fmap_r, Forall_Forall2_diag, Forall_forall. intros w Hw%elem_of_seqZ.
  change (newChunk (Z.of_nat b) (Z.of_nat b) w 0 (img_index img * windows)) with (make w (img_index img * windows) b 0 : outcome (ImageChunk (T := T))).
  rewrite make_Ok by done. cbn [mbind outcome_bind]. rewrite <- (cut_empty w (img_index img * windows) b Hb).
  change (λ counter, newChunk (Z.of_nat b) (Z.of_nat b) w counter (img_index img * windows)) with (make w (img_index img * windows) b : Z → outcome (ImageChunk (T := T))).
  rewrite cutWindow_row by (done || lia). cbn [mbind outcome_bind]. apply finishRow_cut; [done|].
  intros E. pose proof (windowValues_length w) as Hl. rewrite E in Hl. destruct W as [[] ? ? ? ? ?]. cbn in Hl. nia.
Qed.
End One.
End Windows.

(** ** Kernels *)
Lemma concat_singles {A B} (f : A → B) l : concat (map (λ x, [f x]) l) = map f l.
Proof. induction l; cbn; congruence. Qed.

(** A loop over all cells is a loop over the rows and one over the columns. *)
Lemma map_seqZ_rows {B} (f : Z → B) a b :
  0 <= a → 0 <= b → map f (seqZ 0 (a * b)) = concat (map (λ i, map (λ j, f (i * b + j)) (seqZ 0 b)) (seqZ 0 a)).
Proof.
  intros Ha Hb. pattern a. apply natlike_ind; [by rewrite Z.mul_0_l| |done]. clear a Ha. intros a Ha IH. unfold Z.succ.
  rewrite Z.mul_add_distr_r, Z.mul_1_l, !seqZ_app, !map_app, concat_app, IH by nia. f_equal.
  rewrite (seqZ_cons (0 + a) 1), (seqZ_nil _ (Z.pred 1)) by lia. cbn [map concat]. rewrite app_nil_r, !Z.add_0_l.
  rewrite <- (Z.add_0_r (a * b)) at 1. rewrite <- (fmap_add_seqZ (a * b) 0 b). apply map_map.
Qed.

Section Kernels.
Context {T : Type} (zero : T).
Notation Image := (Image (T := T)).

(** A square kernel becomes one row: its values and the place of the bias. *)
Definition kernelValues (kernel : Image) (k : Z) : list T :=
  concat (map (λ c, concat (map (λ i, map (λ j, pixel zero kernel c i j) (seqZ 0 k)) (seqZ 0 k))) (seqZ 0 (img_z kernel))).
Definition kernelRow (kernel : Image) (k : Z) : list T := kernelValues kernel k ++ [zero].

Variables (kernel : Image) (k : Z).
Hypothesis Hkernel : image_wf kernel.
Hypothesis Hx : img_x kernel = k.
Hypothesis Hy : img_y kernel = k.

Lemma pixel_index c i j : 0 <= c < img_z kernel → 0 <= i < k → 0 <= j < k →
  ∃ m, index (matrices kernel) c = Ok m ∧ index m (i * k + j) = Ok (pixel zero kernel c i j).
Proof using Hkernel Hx Hy.
  intros Hc Hi Hj. destruct Hkernel as [? ? ? Hch Hsz]. rewrite (index_nth _ c []) by lia. eexists; split; [done|].
  unfold pixel. rewrite Hx, Hy. replace (_ && _) with true by (symmetry; lia). apply index_nth.
  destruct (lookup_lt_is_Some_2 (matrices kernel) (Z.to_nat c)) as [m Hm]; [lia|].
  rewrite (nth_lookup_Some _ _ _ _ Hm). rewrite Forall_lookup in Hsz. rewrite (Hsz _ _ Hm). nia.
Qed.

Lemma kernelValues_length : Z.of_nat (length (kernelValues kernel k)) = img_z kernel * k * k.
Proof using Hkernel Hx Hy.
  destruct Hkernel. unfold kernelValues. rewrite (length_concat_map _ (Z.to_nat k * Z.to_nat k)%nat); [rewrite length_seqZ; lia|]. intros c.
  rewrite (length_concat_map _ (Z.to_nat k)); [by rewrite length_seqZ|]. intros i. by rewrite length_map, length_seqZ.
Qed.

Lemma kernel_to_chunks_row b :
  (0 < b)%nat →
  kernel_to_chunks zero kernel (Z.of_nat b) =
  Ok (map (pieceChunk 0 (img_index kernel) b (kernelRow kernel k)) (seq 0 (S (lastPiece b (kernelRow kernel k))))).
Proof using Hkernel Hx Hy.
  intros Hb. pose proof Hkernel as [? ? ? ? ?]. unfold kernel_to_chunks. cbv zeta.
  change (newChunk (Z.of_nat b) (Z.of_nat b) 0 0 (img_index kernel)) with (make 0 (img_index kernel) b 0 : outcome (ImageChunk (T := T))).
  change (λ counter, newChunk (Z.of_nat b) (Z.of_nat b) 0 counter (img_index kernel)) with (make 0 (img_index kernel) b : Z → outcome (ImageChunk (T := T))).
  rewrite make_Ok by done. cbn [mbind outcome_bind]. rewrite <- (cut_empty 0 (img_index kernel) b Hb).
  set (state := cutOf 0 (img_index kernel) b) in *. rewrite (foldM_o_push _ state (λ c, concat (map (λ i, map (λ j, pixel zero kernel c i j) (seqZ 0 k)) (seqZ 0 k)))).
  - cbn [mbind outcome_bind app]. apply finishRow_cut; [done|]. intros E. pose proof kernelValues_length as Hl. rewrite E in Hl. cbn in Hl. nia.
  - intros c vs Hc%elem_of_seqZ. destruct (pixel_index c 0 0) as (m & Hm & _); [lia..|]. rewrite Hm. cbn [mbind outcome_bind]. rewrite Hx, Hy.
    pose proof (map_seqZ_rows (λ f, pixel zero kernel c (f / k) (f mod k)) k k ltac:(lia) ltac:(lia)) as Hr.
    assert (concat (map (λ i, map (λ j, pixel zero kernel c i j) (seqZ 0 k)) (seqZ 0 k)) = map (λ f, pixel zero kernel c (f / k) (f mod k)) (seqZ 0 (k * k))) as ->.
    { rewrite Hr. f_equal. apply map_ext_in. intros i _. apply map_ext_in. intros j Hj%list_elem_of_In%elem_of_seqZ.
      rewrite Z.div_add_l, Z.div_small, Z.add_0_r by lia. rewrite Z.add_comm, Z.mod_add, Z.mod_small by lia. done. }
    rewrite <- (concat_singles (λ f, pixel zero kernel c (f / k) (f mod k))). apply (foldM_o_push _ state). intros f ws Hf%elem_of_seqZ.
    destruct (pixel_index c (f / k) (f mod k)) as (m' & Hm' & Hv); [lia| |apply Z.mod_pos_bound; lia|].
    { split; [apply Z.div_pos; lia|apply Z.div_lt_upper_bound; lia]. }
    rewrite Hm in Hm'. injection Hm' as <-. replace (f / k * k + f mod k) with f in Hv by (pose proof (Z.div_mod f k); lia).
    rewrite Hv. by apply pushValue_cut.
Qed.
End Kernels.

(** ** Gathering the chunks in blocks *)
Lemma StronglySorted_seq m n : StronglySorted Z.le (map Z.of_nat (seq m n)).
Proof.
  revert m. induction n as [|n IH]; intros m; cbn; constructor; [apply IH|]. apply Forall_fmap, Forall_seq. intros j Hj. cbn. lia.
Qed.

Section Gather.
Context {T : Type}.
Variables (X : Z) (b P : nat).

(** A row: its place in the image, where the rows of the image start, and its values. *)
Notation entry := (Z * Z * list T)%type.
Definition entryRow (e : entry) : Z := e.1.2 + e.1.1.
Definition entryChunks (e : entry) : list (ImageChunk (T := T)) := map (pieceChunk e.1.1 e.1.2 b e.2) (seq 0 P).
Definition entryBlock (t : nat) (e : entry) : ImageBlock :=
  mkBlock 0 X (Z.of_nat b) (Z.of_nat t) {[entryRow e := piece b e.2 t]} (Z.of_nat t) (Z.of_nat (length (piece b e.2 t))).

Lemma newBlock_entry e t : 0 <= entryRow e < X → newBlock X (pieceChunk e.1.1 e.1.2 b e.2 t) = Ok (entryBlock t e).
Proof using.
  intros H. unfold newBlock, idiv, getChunkActualRowIndex. destruct (Z.eqb_spec X 0); [lia|]. cbn.
  rewrite Z.quot_div_nonneg by (unfold entryRow in *; lia). fold (entryRow e). by rewrite Z.div_small.
Qed.

Lemma newBlocks_entries es :
  Forall (λ e, 0 <= entryRow e < X) es →
  mapM_o (newBlock X) (concat (map entryChunks es)) = Ok (concat (map (λ e, map (λ t, entryBlock t e) (seq 0 P)) es)).
Proof using.
  intros H. apply mapM_o_Ok. induction H as [|e es He Hes IH]; cbn; [done|]. apply Forall2_app; [|done].
  unfold entryChunks. apply Forall2_fmap, Forall_Forall2_diag, Forall_forall. intros t _. by apply newBlock_entry.
Qed.

Lemma filter_key es t : (t < P)%nat →
  filter (λ blk, key blk = Z.of_nat t) (concat (map (λ e, map (λ t, entryBlock t e) (seq 0 P)) es)) = map (entryBlock t) es.
Proof using.
  intros Ht. induction es as [|e es IH]; [done|]. cbn [map concat]. rewrite filter_app, IH. change (entryBlock t e :: ?l) with ([entryBlock t e] ++ l). f_equal.
  replace P with (t + (1 + (P - t - 1)))%nat by lia. rewrite !seq_app, !map_app, !filter_app.
  assert (∀ l, t ∉ l → filter (λ blk, key blk = Z.of_nat t) (map (λ t, entryBlock t e) l) = []) as Hn.
  { intros l Hl. induction l as [|u l IHl]; [done|]. cbn [map]. rewrite not_elem_of_cons in Hl. rewrite filter_cons_False by (cbn; lia). apply IHl, Hl. }
  rewrite !Hn by (rewrite elem_of_seq; lia). cbn [seq map]. rewrite filter_cons_True by (cbn; lia). rewrite filter_nil, Hn by (rewrite elem_of_seq; lia). done.
Qed.

Lemma sorted_keys es : es ≠ [] →
  merge_sort Z.le (remove_dups (map key (concat (map (λ e, map (λ t, entryBlock t e) (seq 0 P)) es)))) = map Z.of_nat (seq 0 P).
Proof using.
  intros He. apply (StronglySorted_unique Z.le).
  - apply StronglySorted_merge_sort; apply _.
  - apply StronglySorted_seq.
  - rewrite merge_sort_Permutation. apply NoDup_Permutation.
    + apply NoDup_remove_dups.
    + apply NoDup_fmap_2; [apply _|apply NoDup_seq].
    + intros z. rewrite elem_of_remove_dups. rewrite !list_elem_of_fmap. setoid_rewrite list_elem_of_In. setoid_rewrite in_concat. setoid_rewrite in_map_iff. split.
      * intros (blk & -> & (l & (e & <- & He') & Hin)). apply in_map_iff in Hin as (t & <- & Ht). by exists t.
      * intros (t & -> & Ht). destruct es as [|e es]; [done|]. exists (entryBlock t e). split; [done|].
        exists (map (λ t, entryBlock t e) (seq 0 P)). split; [exists e; split; [done|by left]|]. apply in_map_iff. by exists t.
Qed.

(** The block of the [t]-th pieces of all rows. *)
Definition mergedBlock (es : list entry) (t : nat) : ImageBlock :=
  mkBlock 0 X (Z.of_nat b) (Z.of_nat t) (list_to_map (map (λ e, (entryRow e, piece b e.2 t)) es)) (Z.of_nat t)
    (match es with [] => 0 | e :: _ => Z.of_nat (length (piece b e.2 t)) end).

Lemma merge_blocks es (blk : ImageBlock) t :
  foldl merge blk (map (entryBlock t) es) =
  mkBlock (block_x_index blk) (block_x_size blk) (block_y_size blk) (block_y_index blk)
    (chunks blk ∪ list_to_map (map (λ e, (entryRow e, piece b e.2 t)) es)) (key blk) (feature_count blk).
Proof using.
  revert blk. induction es as [|e es IH]; intros blk; cbn.
  - rewrite (right_id_L ∅ (∪)). by destruct blk.
  - rewrite IH. cbn. by rewrite <- (assoc_L (∪)), insert_union_singleton_l.
Qed.

Lemma chunks_to_blocks_entries es :
  es ≠ [] → Forall (λ e, 0 <= entryRow e < X) es →
  chunks_to_blocks (concat (map entryChunks es)) X = Ok (map (mergedBlock es) (seq 0 P)).
Proof using.
  intros Hne H. unfold chunks_to_blocks. rewrite newBlocks_entries by done. cbn [mbind outcome_bind]. cbv zeta. f_equal.
  rewrite sorted_keys by done. assert (∀ l, Forall (λ t, t < P)%nat l →
    omap (λ k, match filter (λ blk, key blk = k) (concat (map (λ e, map (λ t, entryBlock t e) (seq 0 P)) es)) with [] => None | blk :: bs => Some (foldl merge blk bs) end)
      (map Z.of_nat l) = map (mergedBlock es) l) as Hall.
  { induction 1 as [|t l Ht Hl IH]; [done|]. cbn. rewrite IH, filter_key by done. destruct es as [|e es']; [done|]. cbn.
    rewrite merge_blocks. cbn. unfold mergedBlock. do 3 f_equal. cbn. by rewrite insert_union_singleton_l. }
  apply Hall, Forall_seq. lia.
Qed.
End Gather.

(** ** Copying blocks into a matrix *)
Section Over.
Context {T : Type}.

(** The array [base] after the cells [ws] have got their values in [target]. *)
Definition over (base : list (option T)) (target : list T) (ws : list nat) : list (option T) :=
  imap (λ i o, if decide (i ∈ ws) then target !! i else o) base.

Lemma over_nil base target : over base target [] = base.
Proof. unfold over. apply list_eq. intros i. rewrite list_lookup_imap. destruct (base !! i); cbn; [|done]. by rewrite decide_False by set_solver. Qed.

Lemma over_all base target ws :
  length base = length target → (∀ i, (i < length base)%nat → i ∈ ws ∨ base !! i = Some (target !! i)) → over base target ws = Some <$> target.
Proof.
  intros Hl H. apply list_eq. intros i. unfold over. rewrite list_lookup_imap, list_lookup_fmap.
  destruct (decide (i < length base)%nat) as [Hi|Hi].
  - destruct (lookup_lt_is_Some_2 base i Hi) as [o Ho]. destruct (lookup_lt_is_Some_2 target i ltac:(lia)) as [v Hv].
    specialize (H i Hi). rewrite Ho, Hv in *. cbn. destruct (decide _); [done|]. naive_solver.
  - by rewrite !lookup_ge_None_2 by lia.
Qed.

Lemma writeAt_over base target ws i v :
  length base = length target → 0 <= i → target !! Z.to_nat i = Some v →
  writeAt (over base target ws) i v = Ok (over base target (ws ++ [Z.to_nat i])).
Proof.
  intros Hl Hi Hv. pose proof (lookup_lt_Some _ _ _ Hv) as Hlt. unfold writeAt. unfold over at 1. rewrite length_imap.
  replace (_ && _) with true by (symmetry; lia). f_equal. apply list_eq. intros j. unfold over.
  destruct (decide (j = Z.to_nat i)) as [->|Hne].
  - rewrite list_lookup_insert_eq by (rewrite length_imap; lia). rewrite list_lookup_imap.
    destruct (lookup_lt_is_Some_2 base (Z.to_nat i) ltac:(lia)) as [o ->]. cbn. rewrite decide_True by set_solver. by rewrite Hv.
  - rewrite list_lookup_insert_ne by done. rewrite !list_lookup_imap. destruct (base !! j); cbn; [|done]. f_equal. apply decide_ext. set_solver.
Qed.

Definition cells (nx ny : Z) (place : Z → Z → Z) : list nat :=
  concat (map (λ x, concat (map (λ y, [Z.to_nat (place x y)]) (seqZ 0 ny))) (seqZ 0 nx)).

Lemma elem_of_cells nx ny place x y : 0 <= x < nx → 0 <= y < ny → Z.to_nat (place x y) ∈ cells nx ny place.
Proof.
  intros Hx Hy. unfold cells. apply list_elem_of_In, in_concat. eexists. split; [apply in_map, list_elem_of_In, elem_of_seqZ; done|].
  rewrite concat_singles. apply in_map_iff. exists y. split; [done|]. by apply list_elem_of_In, elem_of_seqZ.
Qed.

Lemma copyBlock_over (zero : T) base target blk nx ny place ws :
  length base = length target →
  (∀ x y, 0 <= x < nx → 0 <= y < ny → ∃ v, cellValue zero blk x y = Ok v ∧ 0 <= place x y ∧ target !! Z.to_nat (place x y) = Some v) →
  copyBlock zero nx ny place blk (over base target ws) = Ok (over base target (ws ++ cells nx ny place)).
Proof.
  intros Hl H. unfold copyBlock, cells. apply (foldM_o_push _ (over base target)). intros x vs Hx%elem_of_seqZ.
  apply (foldM_o_push _ (over base target)). intros y us Hy%elem_of_seqZ. destruct (H x y) as (v & Hv & Hp & Ht); [lia..|].
  rewrite Hv. cbn [mbind outcome_bind]. by apply writeAt_over.
Qed.

(** The cells of a matrix with [C] columns, row by row. *)
Definition grid (R C : nat) (f : nat → nat → T) : list T := map (λ i, f (i / C)%nat (i mod C)%nat) (seq 0 (R * C)).

Lemma grid_length R C f : length (grid R C f) = (R * C)%nat.
Proof. unfold grid. by rewrite length_map, length_seq. Qed.

Lemma grid_lookup R C f x y : (x < R)%nat → (y < C)%nat → grid R C f !! (x * C + y)%nat = Some (f x y).
Proof.
  intros Hx Hy. unfold grid. change (map ?f ?l) with (f <$> l). rewrite list_lookup_fmap, lookup_seq_lt by nia. cbn.
  rewrite Nat.div_add_l, Nat.div_small, Nat.add_0_r by lia. rewrite Nat.add_comm, Nat.Div0.mod_add, Nat.mod_small by lia. done.
Qed.

Lemma grid_cell R C i : (i < R * C)%nat → (i / C < R ∧ i mod C < C ∧ i = i / C * C + i mod C)%nat.
Proof.
  intros Hi. assert (C ≠ 0)%nat by (intros ->; lia). pose proof (Nat.div_mod i C ltac:(done)). pose proof (Nat.mod_upper_bound i C ltac:(done)).
  split; [apply Nat.Div0.div_lt_upper_bound; lia|lia].
Qed.
End Over.

Lemma foldM_o_map {A B S} (f : S → B → outcome S) (g : A → B) l s : foldM_o f (map g l) s = foldM_o (λ s x, f s (g x)) l s.
Proof. revert s. induction l as [|x l IH]; intros s; [done|]. cbn. destruct (f s (g x)); [apply IH|done..]. Qed.

Lemma newArray_ok {T} (n m : nat) : newArray (T := T) (Z.of_nat n * Z.of_nat m) = Ok (replicate (n * m) None).
Proof. unfold newArray. destruct (Z.ltb_spec (Z.of_nat n * Z.of_nat m) 0); [lia|]. do 2 f_equal. lia. Qed.

Section Table.
Context {T : Type} (zero : T).
Variables (X : Z) (b F : nat) (es : list (Z * Z * list T)).
Hypothesis Hb : (0 < b)%nat.
Hypothesis HF : (0 < F)%nat.
Hypothesis Hlen : Forall (λ e, length e.2 = F) es.
Hypothesis Hrows : map entryRow es = map Z.of_nat (seq 0 (length es)).

Definition pieces : nat := S (pred F / b).
Definition value (x j : nat) : T := nth j (nth x (map snd es) []) zero.

Lemma keys_NoDup t : NoDup (map fst (map (λ e : Z * Z * list T, (entryRow e, piece b e.2 t)) es)).
Proof using Hrows.
  rewrite map_map. change (NoDup (map entryRow es)). rewrite Hrows. apply NoDup_fmap_2; [apply _|apply NoDup_seq].
Qed.

Lemma block_size t : getActualBlockSize (mergedBlock X b es t) = Z.of_nat (length es).
Proof using Hrows.
  unfold getActualBlockSize, mergedBlock. cbn [chunks]. rewrite map_size_list_to_map.
  - by rewrite length_map.
  - apply keys_NoDup.
Qed.

Lemma block_row_piece t x e : es !! x = Some e → chunks (mergedBlock X b es t) !! Z.of_nat x = Some (piece b e.2 t).
Proof using Hrows.
  intros He. unfold mergedBlock. cbn [chunks]. apply elem_of_list_to_map_1.
  - apply keys_NoDup.
  - apply list_elem_of_fmap. exists e. split; [|by eapply list_elem_of_lookup_2].
    assert (map entryRow es !! x = Some (entryRow e)) as H by (change (map ?f ?l) with (f <$> l); by rewrite list_lookup_fmap, He).
    rewrite Hrows in H. change (map ?f ?l) with (f <$> l) in H. rewrite list_lookup_fmap, lookup_seq_lt in H by by eapply lookup_lt_Some. cbn in H. congruence.
Qed.

Lemma block_cell t x y :
  (x < length es)%nat → (y < b)%nat → (t * b + y < F)%nat →
  cellValue zero (mergedBlock X b es t) (Z.of_nat x) (Z.of_nat y) = Ok (value x (t * b + y)).
Proof using Hb HF Hlen Hrows.
  intros Hx Hy HtF. destruct (lookup_lt_is_Some_2 es x Hx) as [e He]. rewrite Forall_lookup in Hlen. pose proof (Hlen x e He) as Hle.
  unfold cellValue. rewrite block_size. assert (feature_count (mergedBlock X b es t) = Z.of_nat (b `min` (F - t * b))) as ->.
  { cbn. destruct es as [|e0 es0]; [cbn in Hx; lia|]. cbn. rewrite piece_length. by rewrite (Hlen 0%nat e0 eq_refl). }
  assert (y < b `min` (F - t * b))%nat by lia. rewrite !Z.geb_leb, !(proj2 (Z.leb_gt _ _)) by lia. cbn [orb]. unfold chunkAt. cbn [block_x_index block_x_size mergedBlock].
  rewrite Z.mul_0_l, Z.add_0_l, (block_row_piece t x e He). destruct (Z.ltb_spec (Z.of_nat y) 0); [lia|]. rewrite Nat2Z.id, piece_lookup by done.
  destruct (lookup_lt_is_Some_2 e.2 (t * b + y)%nat ltac:(lia)) as [v Hv]. rewrite Hv. f_equal. unfold value.
  assert (map snd es !! x = Some e.2) as Hmap by (change (map ?f ?l) with (f <$> l); by rewrite list_lookup_fmap, He).
  rewrite (nth_lookup_Some _ _ _ _ Hmap). symmetry. by apply nth_lookup_Some.
Qed.

(** The piece and the place in it of every column. *)
Lemma column_piece j : (j < F)%nat → (j / b < pieces)%nat ∧ (j mod b < b)%nat ∧ (j = j / b * b + j mod b)%nat.
Proof using Hb HF.
  intros Hj. unfold pieces. pose proof (Nat.div_mod j b ltac:(lia)). pose proof (Nat.mod_upper_bound j b ltac:(lia)).
  pose proof (Nat.Div0.div_le_mono j (pred F) b ltac:(lia)). lia.
Qed.

Lemma piece_start t : (t < pieces)%nat → (t * b < F)%nat.
Proof using Hb HF.
  unfold pieces. intros Ht. pose proof (Nat.Div0.mul_div_le (pred F) b). nia.
Qed.

(** Copying all blocks fills the matrix. *)
Lemma copyBlocks_all (target : list T) (place : nat → Z → Z → Z) (rest : nat → Z) :
  (∀ t, (t < pieces)%nat → rest t = Z.of_nat (b `min` (F - t * b))) →
  length target = (length es * F)%nat →
  (∀ t x y, (t < pieces)%nat → (x < length es)%nat → (y < b)%nat → (t * b + y < F)%nat →
     0 <= place t (Z.of_nat x) (Z.of_nat y) ∧ target !! Z.to_nat (place t (Z.of_nat x) (Z.of_nat y)) = Some (value x (t * b + y))) →
  (∀ i, (i < length es * F)%nat → ∃ t x y, (t < pieces)%nat ∧ (x < length es)%nat ∧ (y < b)%nat ∧ (t * b + y < F)%nat ∧
     Z.to_nat (place t (Z.of_nat x) (Z.of_nat y)) = i) →
  foldM_o (λ d t, copyBlock zero (getActualBlockSize (mergedBlock X b es t)) (rest t) (place t) (mergedBlock X b es t) d)
    (seq 0 pieces) (replicate (length es * F) None) = Ok (Some <$> target).
Proof using Hb HF Hlen Hrows.
  intros Hrest Hl Hplace Hcover. set (base := replicate (length es * F) (None : option T)).
  assert (length base = length target) as Hbl by (unfold base; rewrite length_replicate; lia).
  rewrite <- (over_nil base target). rewrite (foldM_o_push _ (over base target) (λ t, cells (Z.of_nat (length es)) (rest t) (place t))).
  - f_equal. apply over_all; [done|]. intros i Hi. left. cbn [app]. destruct (Hcover i ltac:(lia)) as (t & x & y & Ht & Hx & Hy & HtF & <-).
    apply list_elem_of_In, in_concat. exists (cells (Z.of_nat (length es)) (rest t) (place t)). split.
    + apply in_map_iff. exists t. split; [done|]. apply in_seq. lia.
    + apply list_elem_of_In, elem_of_cells; [lia|]. rewrite Hrest by done. lia.
  - intros t ws Ht%elem_of_seq. rewrite block_size. apply copyBlock_over; [done|]. intros x y Hx Hy. rewrite Hrest in Hy by lia.
    destruct (Hplace t (Z.to_nat x) (Z.to_nat y)) as [Hp Hv]; [lia..|]. rewrite !Z2Nat.id in * by lia.
    exists (value (Z.to_nat x) (t * b + Z.to_nat y)). split; [|done]. rewrite <- block_cell by lia. by rewrite !Z2Nat.id by lia.
Qed.

Lemma blocks_to_matrix_table :
  blocks_to_matrix zero (map (mergedBlock X b es) (seq 0 pieces)) X (Z.of_nat b) false (Z.of_nat F) (Z.of_nat (length es)) =
  Ok (mkMatrix (Z.of_nat (length es)) (Z.of_nat F) (Some <$> grid (length es) F value)).
Proof using Hb HF Hlen Hrows.
  unfold blocks_to_matrix. rewrite newArray_ok. cbn [mbind outcome_bind]. rewrite foldM_o_map. cbn [block_y_index block_y_size mergedBlock].
  rewrite copyBlocks_all with (target := grid (length es) F value).
  - done.
  - intros t Ht%piece_start. lia.
  - apply grid_length.
  - intros t x y Ht Hx Hy HtF. split; [lia|]. rewrite <- (grid_lookup (length es) F value x (t * b + y)) by done. f_equal. lia.
  - intros i Hi. destruct (grid_cell _ _ _ Hi) as (Hx & Hj & Hi'). destruct (column_piece (i mod F) Hj) as (Ht & Hy & Hj').
    exists (i mod F / b)%nat, (i / F)%nat, (i mod F mod b)%nat. do 4 (split; [done || lia|]). lia.
Qed.

Lemma kernelblocks_to_matrix_table :
  kernelblocks_to_matrix zero (map (mergedBlock X b es) (seq 0 pieces)) X (Z.of_nat b) false (Z.of_nat (length es)) (Z.of_nat F) =
  Ok (mkMatrix (Z.of_nat F) (Z.of_nat (length es)) (Some <$> grid F (length es) (λ j x, value x j))).
Proof using Hb HF Hlen Hrows.
  unfold kernelblocks_to_matrix. rewrite newArray_ok. cbn [mbind outcome_bind]. rewrite foldM_o_map. cbn [block_y_index block_y_size mergedBlock].
  rewrite Nat.mul_comm. rewrite copyBlocks_all with (target := grid F (length es) (λ j x, value x j)).
  - done.
  - intros t Ht%piece_start. lia.
  - rewrite grid_length. lia.
  - intros t x y Ht Hx Hy HtF. split; [lia|]. rewrite <- (grid_lookup F (length es) (λ j x, value x j) (t * b + y) x) by done. f_equal. lia.
  - intros i Hi. rewrite Nat.mul_comm in Hi. destruct (grid_cell _ _ _ Hi) as (Hj & Hx & Hi'). destruct (column_piece (i / length es) Hj) as (Ht & Hy & Hj').
    exists (i / length es / b)%nat, (i mod length es)%nat, (i / length es mod b)%nat. do 4 (split; [done || lia|]). nia.
Qed.
End Table.
