(* ===== verification/ConvTheorems.v ===== *)
(** * The convolution helpers compute a convolution

    [convertImage] and [convertKernel] of [velox/optimizer/ConvHelper.h] give
    two matrices whose product is the convolution of the images with the
    kernels plus the bias, for values of any type that are only copied (they
    are [float] in the code); [convert2Blocks] lists the same rows in blocks. *)
From Stdlib Require Import SpecFloat.
From S2P Require Import Prelude CFloat Blocks Conv ConvCorrect.
Local Open Scope Z_scope.

Lemma seqZ_seq n : seqZ 0 (Z.of_nat n) = map Z.of_nat (seq 0 n).
Proof. unfold seqZ. rewrite Nat2Z.id. apply map_ext. intros i. lia. Qed.

(** ** Batches of images *)
Section Convert.
Context {T : Type} (zero one : T).
Notation Image := (Image (T := T)).

(** Images of one size, numbered from zero. *)
Record batch (images : list Image) (x y z : Z) : Prop := {
  batch_some : images ≠ [];
  batch_index : map img_index images = seqZ 0 (Z.of_nat (length images));
  batch_each : Forall (λ img, image_wf img ∧ img_x img = x ∧ img_y img = y ∧ img_z img = z) images
}.

(** The number of windows of an image of that size. *)
Definition windowsOf (x y s k p : Z) : Z := ((y + p * 2 - k) / s + 1) * ((x + p * 2 - k) / s + 1).

Section Images.
Variables (images : list Image) (x y z s k p : Z) (b : nat).
Hypothesis Hbatch : batch images x y z.
Hypothesis Hs : 0 < s.
Hypothesis Hk : 0 < k.
Hypothesis Hp : 0 <= p.
Hypothesis Hx : k <= x + p * 2.
Hypothesis Hy : k <= y + p * 2.

Let W := windowsOf x y s k p.
Let F := S (Z.to_nat (z * k * k)).

Definition imageEntries (img : Image) : list (Z * Z * list T) :=
  map (λ w, (w, img_index img * W, imageRow zero one img s k p w)) (seqZ 0 W).

Lemma images_each : Forall (λ img, window_wf img s k p ∧ across img s k p * down img s k p = W ∧ img_z img = z) images.
Proof using Hbatch Hs Hk Hp Hx Hy.
  eapply Forall_impl; [apply Hbatch|]. intros img (Hwf & E1 & E2 & E3). subst x y z. split; [by constructor|done].
Qed.

Lemma windows_pos : 0 < W.
Proof using Hbatch Hs Hk Hp Hx Hy.
  pose proof images_each as H. pose proof (batch_some _ _ _ _ Hbatch). destruct images as [|img l]; [done|].
  inversion_clear H as [|? ? (Hw & <- & _) _]. pose proof (across_pos img s k p Hw). pose proof (down_pos img s k p Hw). nia.
Qed.
Lemma imageRow_length img w : img ∈ images → length (imageRow zero one img s k p w) = F.
Proof using Hbatch Hs Hk Hp Hx Hy.
  intros Hin. pose proof images_each as H. rewrite Forall_forall in H. destruct (H img Hin) as (Hw & _ & Hz).
  unfold imageRow. rewrite length_app. pose proof (windowValues_length zero img s k p Hw w). rewrite Hz in *. unfold F. cbn. lia.
Qed.

Lemma images_chunks :
  (0 < b)%nat → mapM_o (λ img, img_to_chunks zero one img (Z.of_nat b) s k p) images = Ok (map (λ img, concat (map (entryChunks b (pieces b F)) (imageEntries img))) images).
Proof using Hbatch Hs Hk Hp Hx Hy.
  intros Hb. apply mapM_o_Ok, Forall2_fmap_r, Forall_Forall2_diag, Forall_forall. intros img Hin. pose proof images_each as H. rewrite Forall_forall in H.
  destruct (H img Hin) as (Hw & HW & _). rewrite img_to_chunks_rows by done. rewrite HW. f_equal. f_equal. unfold imageEntries. rewrite map_map.
  apply map_ext. intros w. unfold entryChunks. cbn [fst snd]. unfold lastPiece, pieces. by rewrite imageRow_length.
Qed.

Definition entries : list (Z * Z * list T) := concat (map imageEntries images).

Lemma entries_chunks : concat (map (λ img, concat (map (entryChunks b (pieces b F)) (imageEntries img))) images) = concat (map (entryChunks b (pieces b F)) entries).
Proof using. clear Hbatch. unfold entries. rewrite concat_map, map_map. induction images as [|img l IH]; [done|]. cbn [map concat]. rewrite concat_app. by f_equal. Qed.

Lemma entries_length : length entries = (length images * Z.to_nat W)%nat.
Proof using. unfold entries. apply length_concat_map. intros img. unfold imageEntries. by rewrite length_map, length_seqZ. Qed.

Lemma entries_rows : map entryRow entries = seqZ 0 (Z.of_nat (length images) * W).
Proof using Hbatch Hs Hk Hp Hx Hy.
  pose proof windows_pos. etrans; [|apply map_id]. rewrite map_seqZ_rows by lia. rewrite <- (batch_index _ _ _ _ Hbatch). unfold entries.
  rewrite concat_map, !map_map. f_equal. apply map_ext. intros img. unfold imageEntries. by rewrite map_map.
Qed.

Lemma entries_numbered : map entryRow entries = map Z.of_nat (seq 0 (length entries)).
Proof using Hbatch Hs Hk Hp Hx Hy. pose proof windows_pos. rewrite entries_rows, entries_length, <- seqZ_seq. f_equal. lia. Qed.

Lemma entries_lengths : Forall (λ e, length e.2 = F) entries.
Proof using Hbatch Hs Hk Hp Hx Hy.
  apply Forall_forall. intros e He. apply list_elem_of_In, in_concat in He as (l & Hl & He). apply in_map_iff in Hl as (img & <- & Hin).
  apply in_map_iff in He as (w & <- & _). cbn. by apply imageRow_length, list_elem_of_In.
Qed.

(** Row [i * W + w] is window [w] of image [i]. *)
Lemma entries_lookup i img w :
  images !! i = Some img → (w < Z.to_nat W)%nat → map snd entries !! (i * Z.to_nat W + w)%nat = Some (imageRow zero one img s k p (Z.of_nat w)).
Proof using Hbatch Hs Hk Hp Hx Hy.
  intros Hi Hw. change (map ?f ?l) with (f <$> l). rewrite list_lookup_fmap. unfold entries. rewrite (lookup_concat_uniform _ (Z.to_nat W)).
  - change (map ?f ?l) with (f <$> l). rewrite list_lookup_fmap, Hi. cbn. unfold imageEntries. change (map ?f ?l) with (f <$> l).
    rewrite list_lookup_fmap, lookup_seqZ_lt by lia. done.
  - apply Forall_fmap, Forall_forall. intros img' _. unfold imageEntries. cbn. by rewrite length_map, length_seqZ.
  - done.
Qed.

Lemma windows_first img l : images = img :: l → get_conv2d_window_count img k s p = Ok W.
Proof using Hbatch Hs Hk Hp Hx Hy.
  intros E. pose proof images_each as H. rewrite E in H. inversion_clear H as [|? ? (Hw & HW & _) _]. by rewrite window_count_ok, HW.
Qed.

Lemma entries_some : entries ≠ [].
Proof using Hbatch Hs Hk Hp Hx Hy.
  intros E. pose proof entries_length as H. rewrite E in H. pose proof windows_pos. pose proof (batch_some _ _ _ _ Hbatch).
  destruct images; [done|]. cbn in H. lia.
Qed.
End Images.

(** Without padding the matrix of the images has a row per window. *)
Lemma convertImage_rows images x y z s k b X :
  (0 < b)%nat → batch images x y z → 0 < s → 0 < k → k <= x → k <= y → Z.of_nat (length images) * windowsOf x y s k 0 <= X →
  let es := entries images x y s k 0 in
  convertImage zero one images (Z.of_nat b) s k z 0 X (Z.of_nat b) =
  Ok (mkMatrix (Z.of_nat (length es)) (Z.of_nat (S (Z.to_nat (z * k * k)))) (Some <$> grid (length es) (S (Z.to_nat (z * k * k))) (value zero es))).
Proof.
  intros Hb B Hs Hk Hx Hy HX es. assert (0 <= 0) as Hp by done. assert (k <= x + 0 * 2) as Hx' by lia. assert (k <= y + 0 * 2) as Hy' by lia.
  pose proof (windows_pos images x y z s k 0 B Hs Hk Hp Hx' Hy') as HW. pose proof (entries_length images x y s k 0) as Hl. fold es in Hl.
  unfold convertImage. destruct images as [|img l] eqn:E; [by destruct (batch_some _ _ _ _ B)|]. change (index (img :: l) 0) with (Ok img). cbn [mbind outcome_bind].
  rewrite (windows_first _ x y z s k 0 B Hs Hk Hp Hx' Hy' img l eq_refl). cbn [mbind outcome_bind]. cbv zeta.
  rewrite (images_chunks _ x y z s k 0 b B Hs Hk Hp Hx' Hy' Hb). cbn [mbind outcome_bind]. rewrite entries_chunks. fold es.
  rewrite chunks_to_blocks_entries.
  - cbn [mbind outcome_bind]. assert (0 < z) by (destruct B as [_ _ Hall]; inversion_clear Hall as [|? ? ([] & _ & _ & <-) _]; done).
    replace (z * k * k + 1) with (Z.of_nat (S (Z.to_nat (z * k * k)))) by nia.
    replace (Z.of_nat (length (img :: l)) * windowsOf x y s k 0) with (Z.of_nat (length es)) by (rewrite Hl; nia).
    apply blocks_to_matrix_table; [done|lia|by eapply entries_lengths|by eapply entries_numbered].
  - by eapply entries_some.
  - apply Forall_forall. intros e He. assert (entryRow e ∈ map entryRow es) as Hr by by apply list_elem_of_fmap_2.
    unfold es in Hr. rewrite (entries_rows _ x y z) in Hr by done. apply elem_of_seqZ in Hr. lia.
Qed.

(** ** The matrix of the kernels *)
Definition kernelEntries (kernels : list Image) (k : Z) : list (Z * Z * list T) :=
  map (λ kernel, (0, img_index kernel, kernelRow zero kernel k)) kernels.

Lemma kernels_chunks kernels k z b :
  (0 < b)%nat → batch kernels k k z →
  mapM_o (λ kernel, kernel_to_chunks zero kernel (Z.of_nat b)) kernels = Ok (map (entryChunks b (pieces b (S (Z.to_nat (z * k * k))))) (kernelEntries kernels k)).
Proof.
  intros Hb [_ _ Hall]. apply mapM_o_Ok. unfold kernelEntries. rewrite map_map. apply Forall2_fmap_r, Forall_Forall2_diag. eapply Forall_impl; [done|].
  intros kernel (Hwf & Hx & Hy & Hz). cbv beta. rewrite (kernel_to_chunks_row zero kernel k) by done. unfold entryChunks. cbn [fst snd]. unfold lastPiece, pieces, kernelRow.
  rewrite length_app. pose proof (kernelValues_length zero kernel k Hwf Hx Hy) as Hl. rewrite Hz in Hl. do 5 f_equal. cbn. lia.
Qed.

Lemma kernelEntries_numbered kernels k z :
  batch kernels k k z → map entryRow (kernelEntries kernels k) = map Z.of_nat (seq 0 (length (kernelEntries kernels k))).
Proof.
  intros [_ Hi _]. unfold kernelEntries. rewrite length_map, <- seqZ_seq, <- Hi, map_map. apply map_ext. intros kernel. unfold entryRow. cbn. lia.
Qed.

Lemma kernelEntries_lengths kernels k z : batch kernels k k z → Forall (λ e, length e.2 = S (Z.to_nat (z * k * k))) (kernelEntries kernels k).
Proof.
  intros [_ _ Hall]. apply Forall_fmap. eapply Forall_impl; [done|]. intros kernel (Hwf & Hx & Hy & Hz). cbn [compose snd]. unfold kernelRow. rewrite length_app.
  pose proof (kernelValues_length zero kernel k Hwf Hx Hy) as Hl. rewrite Hz in Hl. cbn. lia.
Qed.

Lemma batch_z images x y z : batch images x y z → 0 < z.
Proof. intros [Hne _ Hall]. destruct images; [done|]. inversion_clear Hall as [|? ? (Hwf & _ & _ & <-) _]. apply Hwf. Qed.

Lemma kernels_matrix kernels k z b X :
  (0 < b)%nat → batch kernels k k z → Z.of_nat (length kernels) <= X →
  let es := kernelEntries kernels k in let F := S (Z.to_nat (z * k * k)) in
  (cs ← mapM_o (λ kernel, kernel_to_chunks zero kernel (Z.of_nat b)) kernels;
   blocks ← chunks_to_blocks (concat cs) X;
   kernelblocks_to_matrix zero blocks X (Z.of_nat b) false (Z.of_nat (length kernels)) (Z.of_nat F)) =
  Ok (mkMatrix (Z.of_nat F) (Z.of_nat (length kernels)) (Some <$> grid F (length kernels) (λ j q, value zero es q j))).
Proof.
  intros Hb B HX es F. rewrite (kernels_chunks kernels k z b Hb B). cbn [mbind outcome_bind]. fold es F.
  assert (length kernels = length es) as Hlen by (unfold es, kernelEntries; by rewrite length_map). rewrite chunks_to_blocks_entries.
  - cbn [mbind outcome_bind]. rewrite Hlen. apply kernelblocks_to_matrix_table; [done|unfold F; lia|by apply kernelEntries_lengths|by eapply kernelEntries_numbered].
  - pose proof (batch_some _ _ _ _ B). by destruct kernels.
  - apply Forall_forall. intros e He. assert (entryRow e ∈ map entryRow es) as Hr by by apply list_elem_of_fmap_2.
    unfold es in Hr. rewrite (kernelEntries_numbered kernels k z B) in Hr. apply list_elem_of_fmap in Hr as (i & -> & Hi%elem_of_seq). fold es in Hi. lia.
Qed.

(** The bias replaces the last row. *)
Lemma copy_bias_row (F C : nat) (f : nat → nat → T) (bias : list T) d :
  (0 < F)%nat → length bias = C →
  copy_bias_to_matrix (mkMatrix (Z.of_nat F) (Z.of_nat C) (Some <$> grid F C f)) bias =
  Ok (mkMatrix (Z.of_nat F) (Z.of_nat C) (Some <$> grid F C (λ j q, if decide (j = pred F) then nth q bias d else f j q))).
Proof.
  intros HF Hbias. unfold copy_bias_to_matrix. cbn [num_row num_col data]. set (f' := λ j q, if decide (j = pred F) then nth q bias d else f j q).
  set (base := Some <$> grid F C f). assert (length base = length (grid F C f')) as Hl by (unfold base; by rewrite length_fmap, !grid_length).
  rewrite <- (over_nil base (grid F C f')). rewrite (foldM_o_push _ (over base (grid F C f')) (λ i, [Z.to_nat ((Z.of_nat F - 1) * Z.of_nat C + i)])).
  - cbn [mbind outcome_bind]. do 2 f_equal. apply over_all; [done|]. intros i Hi. rewrite Hl, grid_length in Hi. destruct (grid_cell _ _ _ Hi) as (Hj & Hq & Ei).
    destruct (decide (i / C = pred F)%nat) as [E|E].
    + left. cbn [app]. rewrite concat_singles. apply list_elem_of_In, in_map_iff. exists (Z.of_nat (i mod C)). split; [nia|]. apply list_elem_of_In, elem_of_seqZ. lia.
    + right. unfold base. rewrite Ei. rewrite list_lookup_fmap, !grid_lookup by done. cbn. unfold f'. by rewrite decide_False.
  - intros i ws Hi%elem_of_seqZ. rewrite (index_nth _ _ d) by lia. cbn [mbind outcome_bind]. apply writeAt_over; [done|nia|].
    replace (Z.to_nat ((Z.of_nat F - 1) * Z.of_nat C + i)) with (pred F * C + Z.to_nat i)%nat by nia. rewrite grid_lookup by lia. unfold f'. by rewrite decide_True.
Qed.

Lemma convertKernel_columns kernels k z b X bias :
  (0 < b)%nat → 0 < k → batch kernels k k z → Z.of_nat (length kernels) <= X → length bias = length kernels →
  let F := S (Z.to_nat (z * k * k)) in
  convertKernel zero kernels (Z.of_nat b) k z false X (Z.of_nat b) bias =
  Ok (mkMatrix (Z.of_nat F) (Z.of_nat (length kernels))
    (Some <$> grid F (length kernels) (λ j q, if decide (j = pred F) then nth q bias zero else value zero (kernelEntries kernels k) q j))).
Proof.
  intros Hb Hk B HX Hbias F. pose proof (kernels_matrix kernels k z b X Hb B HX) as H. cbv zeta in H. fold F in H.
  pose proof (batch_z _ _ _ _ B). unfold convertKernel. cbv zeta. replace (z * k * k + 1) with (Z.of_nat F) by (unfold F; nia).
  rewrite (kernels_chunks kernels k z b Hb B) in H |- *. fold F in H |- *. cbn [mbind outcome_bind] in H |- *.
  destruct (chunks_to_blocks _ X) as [blocks| |]; cbn [mbind outcome_bind] in H |- *; [|done..]. rewrite H. cbn [mbind outcome_bind].
  apply copy_bias_row; [unfold F; lia|done].
Qed.
End Convert.

(** ** Convolution *)
Section Convolution.
Context {T : Type} (zero one : T).
Notation Image := (Image (T := T)).
Notation ImageMatrix := (ImageMatrix (T := T)).

(** The pairs of a pixel and a weight whose products the convolution adds up,
    for the window [w] of the image: channel by channel, row by row. *)
Definition terms (img kernel : Image) (s k p w : Z) : list (T * T) :=
  concat (map (λ c, concat (map (λ i, map (λ j,
    (pixel zero img c (w / across img s k p * s + i - p) (w mod across img s k p * s + j - p), pixel zero kernel c i j))
    (seqZ 0 k)) (seqZ 0 k))) (seqZ 0 (img_z img))).

Definition cellAt (m : ImageMatrix) (r c : Z) : option T :=
  match data m !! Z.to_nat (r * num_col m + c) with Some (Some v) => Some v | _ => None end.

(** A cell of the product of two matrices; [inner] adds up the products of the
    pairs. *)
Definition product (inner : list (T * T) → T) (a b : ImageMatrix) (r c : Z) : option T :=
  inner <$> mapM (λ j, u ← cellAt a r j; v ← cellAt b j c; Some (u, v)) (seqZ 0 (num_col a)).

Lemma zip_concat {A B C} (f : C → list A) (g : C → list B) l :
  (∀ x, length (f x) = length (g x)) → zip (concat (map f l)) (concat (map g l)) = concat (map (λ x, zip (f x) (g x)) l).
Proof using. intros H. induction l as [|x l IH]; [done|]. cbn [map concat]. by rewrite zip_with_app, IH by done. Qed.

Lemma zip_map {A B C} (f : C → A) (g : C → B) l : zip (map f l) (map g l) = map (λ x, (f x, g x)) l.
Proof using. induction l as [|x l IH]; [done|]. cbn. by rewrite IH. Qed.

Lemma zip_terms img kernel s k p w :
  img_z kernel = img_z img → zip (windowValues zero img s k p w) (kernelValues zero kernel k) = terms img kernel s k p w.
Proof using.
  intros Hz. unfold windowValues, kernelValues, terms. rewrite Hz, zip_concat.
  - f_equal. apply map_ext. intros c. rewrite zip_concat by (intros i; by rewrite !length_map). f_equal. apply map_ext. intros i. apply zip_map.
  - intros c. rewrite !(length_concat_map _ (Z.to_nat k)); [done|intros i; by rewrite length_map, length_seqZ..].
Qed.

(** A row and a column read cell by cell. *)
Lemma product_zip inner a b r c u v :
  num_col a = Z.of_nat (length u) → length u = length v →
  (∀ j, (j < length u)%nat → cellAt a r (Z.of_nat j) = Some (nth j u zero) ∧ cellAt b (Z.of_nat j) c = Some (nth j v zero)) →
  product inner a b r c = Some (inner (zip u v)).
Proof using.
  intros Hn Hl H. unfold product. rewrite Hn, seqZ_seq. change (Some (inner (zip u v))) with (inner <$> Some (zip u v)). f_equal.
  apply mapM_Some, Forall2_same_length_lookup. rewrite length_map, length_seq, length_zip_with. split; [lia|].
  intros j z [x y] Hj Hxy. change (map ?f ?l) with (f <$> l) in Hj. apply list_lookup_fmap_Some in Hj as (j' & -> & [-> Hlt]%lookup_seq). cbn [Nat.add] in *.
  destruct (H j Hlt) as [-> ->]. cbn. apply lookup_zip_with_Some in Hxy as (x' & y' & [= -> ->] & Hx & Hy). by rewrite (nth_lookup_Some _ _ _ _ Hx), (nth_lookup_Some _ _ _ _ Hy).
Qed.

Lemma cellAt_grid (R C : nat) f (r c : nat) :
  (r < R)%nat → (c < C)%nat → cellAt (mkMatrix (Z.of_nat R) (Z.of_nat C) (Some <$> grid R C f)) (Z.of_nat r) (Z.of_nat c) = Some (f r c).
Proof.
  intros Hr Hc. unfold cellAt. cbn. replace (Z.to_nat _) with (r * C + c)%nat by lia. by rewrite list_lookup_fmap, grid_lookup.
Qed.

(** The column of a kernel, with its bias in the last place. *)
Lemma kernel_column (kernels : list Image) k z q kernel bias v j :
  batch kernels k k z → kernels !! q = Some kernel → bias !! q = Some v → (j < S (Z.to_nat (z * k * k)))%nat →
  (if decide (j = pred (S (Z.to_nat (z * k * k)))) then nth q bias zero else value zero (kernelEntries zero kernels k) q j) = nth j (kernelValues zero kernel k ++ [v]) zero.
Proof.
  intros B Hq Hv Hj. destruct B as [_ _ Hall]. rewrite Forall_lookup in Hall. destruct (Hall q kernel Hq) as (Hwf & Hx & Hy & Hz).
  pose proof (kernelValues_length zero kernel k Hwf Hx Hy) as Hl. rewrite Hz in Hl. destruct (decide _) as [E|E]; cbn in E.
  - rewrite (nth_lookup_Some _ _ _ _ Hv). rewrite app_nth2 by lia. by replace (j - _)%nat with 0%nat by lia.
  - rewrite app_nth1 by lia. unfold value. assert (map snd (kernelEntries zero kernels k) !! q = Some (kernelRow zero kernel k)) as Hr.
    { unfold kernelEntries. rewrite map_map. change (map ?f ?l) with (f <$> l). by rewrite list_lookup_fmap, Hq. }
    rewrite (nth_lookup_Some _ _ _ _ Hr). unfold kernelRow. by rewrite app_nth1 by lia.
Qed.

Lemma image_row (images : list Image) x y z s k i img w j :
  batch images x y z → 0 < s → 0 < k → k <= x → k <= y → images !! i = Some img → (w < Z.to_nat (windowsOf x y s k 0))%nat →
  value zero (entries zero one images x y s k 0) (i * Z.to_nat (windowsOf x y s k 0) + w) j = nth j (imageRow zero one img s k 0 (Z.of_nat w)) zero.
Proof.
  intros B Hs Hk Hx Hy Hi Hw. unfold value.
  assert (map snd (entries zero one images x y s k 0) !! (i * Z.to_nat (windowsOf x y s k 0) + w)%nat = Some (imageRow zero one img s k 0 (Z.of_nat w))) as Hr.
  { eapply (entries_lookup zero one images x y z s k 0 B); (done || lia). }
  by rewrite (nth_lookup_Some _ _ _ _ Hr).
Qed.

End Convolution.

(** ** Blocks of whole rows *)
Section Rows.
Context {T : Type} (zero : T).
Variables (n F Q : nat).
Hypothesis Hn : (0 < n)%nat.

(** The rows so far, and rows of zeros. *)
Definition padded (rs : list (list T)) : list (list T) := rs ++ replicate (Q * n - length rs) (replicate F zero).
Definition blocksOf (rs : list (list T)) : list (list T) := map (λ q, concat (take n (drop (q * n) (padded rs)))) (seq 0 Q).

Lemma padded_snoc rs r : (length rs < Q * n)%nat → padded (rs ++ [r]) = <[length rs := r]> (padded rs).
Proof using Hn.
  intros H. unfold padded. rewrite length_app. cbn. rewrite <- app_assoc. replace (Q * n - length rs)%nat with (S (Q * n - (length rs + 1))) by lia.
  cbn. rewrite insert_app_r_alt by done. by rewrite Nat.sub_diag.
Qed.

Lemma padded_length rs : (length rs ≤ Q * n)%nat → length (padded rs) = (Q * n)%nat.
Proof using Hn. intros H. unfold padded. rewrite length_app, length_replicate. lia. Qed.

Lemma padded_widths rs : Forall (λ r, length r = F) rs → Forall (λ r, length r = F) (padded rs).
Proof using Hn. intros H. apply Forall_app. split; [done|]. apply Forall_replicate, length_replicate. Qed.

(** Writing a row into a block that is a list of rows. *)
Lemma writeRange_row (l : list (list T)) j r :
  Forall (λ r, length r = F) l → (j < length l)%nat → length r = F →
  writeRange (concat l) (Z.of_nat j * Z.of_nat F) r = Ok (concat (<[j := r]> l)).
Proof using Hn.
  intros Hl Hj Hr. assert (∀ l, Forall (λ r, length r = F) l → length (concat l : list T) = (length l * F)%nat) as Hc.
  { induction 1 as [|x l' Hx _ IH]; [done|]. cbn. by rewrite length_app, Hx, IH. }
  destruct (lookup_lt_is_Some_2 l j Hj) as [old Hold]. pose proof (take_drop_middle l j old Hold) as E.
  rewrite insert_take_drop by done. rewrite <- E in Hl. apply Forall_app in Hl as [H1 H2]. apply Forall_cons in H2 as [Ho H2].
  assert (length (concat (take j l)) = (j * F)%nat) as L1 by (rewrite Hc by done; rewrite length_take; lia).
  assert (concat l = concat (take j l) ++ old ++ concat (drop (S j) l)) as Ec by (rewrite <- E at 1; by rewrite concat_app).
  unfold writeRange. rewrite Ec, concat_app. cbn [concat]. rewrite !length_app, L1, Ho, Hr.
  replace (_ && _) with true by (symmetry; apply andb_true_iff; split; apply Z.leb_le; lia). replace (Z.to_nat _) with (j * F)%nat by lia. f_equal. f_equal; [|f_equal].
  - by rewrite take_app_length' by lia.
  - rewrite app_assoc. apply drop_app_length'. rewrite length_app. lia.
Qed.

Lemma take_drop_insert (l : list (list T)) m q r : (m < length l)%nat →
  take n (drop (q * n) (<[m := r]> l)) = if decide (q = m / n)%nat then <[(m mod n)%nat := r]> (take n (drop (q * n) l)) else take n (drop (q * n) l).
Proof using Hn.
  intros Hm. pose proof (Nat.div_mod m n ltac:(lia)) as Ed. pose proof (Nat.mod_upper_bound m n ltac:(lia)) as Hu. destruct (decide _) as [->|Hne].
  - rewrite drop_insert_ge by lia. replace (m - m / n * n)%nat with (m mod n)%nat by lia. by apply take_insert_lt.
  - destruct (decide (m < q * n)%nat) as [Hlt|Hge].
    + by rewrite drop_insert_lt.
    + rewrite drop_insert_ge by lia. apply take_insert_ge. assert (q < m / n ∨ m / n < q)%nat as [H|H] by lia; nia.
Qed.

Lemma placeChunk_row rs r c :
  (length rs < Q * n)%nat → Forall (λ r, length r = F) rs → length r = F →
  block_row c + block_row_start c = Z.of_nat (length rs) → chunk c = r →
  placeChunk (Z.of_nat n) (Z.of_nat F) (blocksOf rs) c = Ok (blocksOf (rs ++ [r])).
Proof using Hn.
  intros Hlt Hw Hr Hrow Hc. unfold placeChunk, idiv, imod. rewrite Hrow, Hc. destruct (Z.eqb_spec (Z.of_nat n) 0); [lia|]. cbn [mbind outcome_bind].
  rewrite Z.quot_div_nonneg, Z.rem_mod_nonneg by lia. set (m := length rs) in *. rewrite <- Nat2Z.inj_div, <- Nat2Z.inj_mod.
  assert (m / n < Q)%nat as HQ by (apply Nat.Div0.div_lt_upper_bound; lia). pose proof (Nat.mod_upper_bound m n ltac:(lia)). pose proof (Nat.div_mod m n ltac:(lia)).
  assert (blocksOf rs !! (m / n)%nat = Some (concat (take n (drop (m / n * n) (padded rs))))) as Hb.
  { unfold blocksOf. change (map ?f ?l) with (f <$> l). rewrite list_lookup_fmap, lookup_seq_lt by done. done. }
  unfold index. destruct (Z.ltb_spec (Z.of_nat (m / n)) 0); [lia|]. rewrite Nat2Z.id, Hb. cbn [mbind outcome_bind].
  pose proof (padded_length rs ltac:(lia)) as Hpl. rewrite writeRange_row.
  - cbn [mbind outcome_bind]. f_equal. unfold blocksOf. rewrite padded_snoc by done. fold m. apply list_eq. intros q. change (map ?f ?l) with (f <$> l).
    destruct (decide (q < Q)%nat) as [Hq|Hq].
    + destruct (decide (q = m / n)%nat) as [->|Hne].
      * rewrite list_lookup_insert_eq by (rewrite length_fmap, length_seq; lia). rewrite list_lookup_fmap, lookup_seq_lt by done. cbn [fmap option_fmap option_map].
        rewrite take_drop_insert by lia. by rewrite decide_True.
      * rewrite list_lookup_insert_ne by done. rewrite !list_lookup_fmap, lookup_seq_lt by done. cbn. rewrite take_drop_insert by lia. by rewrite decide_False.
    + rewrite !lookup_ge_None_2; [done|rewrite length_fmap, length_seq; lia|rewrite length_insert, length_fmap, length_seq; lia].
  - by apply Forall_take, Forall_drop, padded_widths.
  - rewrite length_take, length_drop, Hpl. nia.
  - done.
Qed.

Lemma placeChunks_rows rs es :
  (length rs + length es ≤ Q * n)%nat → Forall (λ r, length r = F) rs → Forall (λ e, length e.2 = F) es →
  map entryRow es = map Z.of_nat (seq (length rs) (length es)) →
  foldM_o (placeChunk (Z.of_nat n) (Z.of_nat F)) (concat (map (entryChunks F 1) es)) (blocksOf rs) = Ok (blocksOf (rs ++ map snd es)).
Proof using Hn.
  revert rs. induction es as [|e es IH]; intros rs Hlen Hrs Hes Hrow; cbn [map concat]; [by rewrite app_nil_r|].
  apply Forall_cons in Hes as [He Hes]. cbn in Hlen, Hrow. injection Hrow as Hr Hrow. cbn [entryChunks seq map app foldM_o].
  rewrite (placeChunk_row rs e.2).
  - cbn [mbind outcome_bind]. rewrite IH; [by rewrite <- app_assoc|rewrite length_app; cbn; lia|by apply Forall_app; auto|done|].
    rewrite length_app. cbn. by rewrite Nat.add_1_r.
  - lia.
  - done.
  - done.
  - cbn. unfold entryRow in Hr. lia.
  - cbn. unfold piece. rewrite drop_0. apply take_ge. lia.
Qed.

Lemma concat_replicate (m k : nat) : concat (replicate m (replicate k zero)) = replicate (m * k) zero.
Proof using. induction m as [|m IH]; [done|]. cbn. by rewrite IH, replicate_add. Qed.

Lemma blocksOf_nil : blocksOf [] = replicate Q (replicate (n * F) zero).
Proof using Hn.
  unfold blocksOf, padded. cbn [length app]. rewrite Nat.sub_0_r. apply list_eq. intros q. change (map ?f ?l) with (f <$> l). rewrite list_lookup_fmap.
  destruct (decide (q < Q)%nat) as [Hq|Hq].
  - rewrite lookup_seq_lt by done. cbn. rewrite lookup_replicate_2 by done. f_equal. rewrite drop_replicate, take_replicate, concat_replicate.
    f_equal. replace (n `min` (Q * n - q * n))%nat with n by nia. done.
  - rewrite lookup_seq_ge by lia. symmetry. apply lookup_replicate_None. lia.
Qed.

Lemma concat_blocksOf rs : (length rs ≤ Q * n)%nat → concat (blocksOf rs) = concat rs ++ replicate ((Q * n - length rs) * F) zero.
Proof using Hn.
  intros Hle. rewrite <- concat_replicate, <- concat_app. fold (padded rs). pose proof (padded_length rs Hle) as Hl. revert Hl. unfold blocksOf. generalize (padded rs). clear rs Hle.
  assert (∀ m q l, length l = ((q + m) * n)%nat → concat (map (λ q, concat (take n (drop (q * n) l))) (seq q m)) = (concat (drop (q * n) l) : list T)) as G.
  { induction m as [|m IH]; intros q l Hl; cbn [seq map concat].
    - rewrite drop_ge by lia. done.
    - rewrite IH by lia. rewrite <- concat_app. f_equal. rewrite <- (take_drop n (drop (q * n) l)) at 2. f_equal. rewrite drop_drop. f_equal. lia. }
  intros l Hl. rewrite (G Q 0%nat l) by done. done.
Qed.

Lemma chunks2Blocks_rows es :
  es ≠ [] → Forall (λ e, length e.2 = F) es → map entryRow es = map Z.of_nat (seq 0 (length es)) →
  Z.of_nat (length es) < 2 ^ 31 → Z.of_nat n < 2 ^ 31 → Q = ((length es + n - 1) / n)%nat →
  chunks2Blocks zero (concat (map (entryChunks F 1) es)) (Z.of_nat n) = Ok (blocksOf (map snd es)).
Proof using Hn.
  intros Hne Hw Hrow Hlen Hn31 HQ. destruct es as [|e0 es0] eqn:Ees; [done|]. rewrite <- Ees in *.
  assert (length (concat (map (entryChunks F 1) es)) = length es) as Hcs by (rewrite (length_concat_map _ 1%nat); [lia|done]).
  assert (length es ≤ Q * n)%nat as Hfit. { pose proof (Nat.div_mod (length es + n - 1) n ltac:(lia)). pose proof (Nat.mod_upper_bound (length es + n - 1) n ltac:(lia)). nia. }
  assert (Z.of_nat Q < 2 ^ 31) as HQ31. { assert (Q ≤ length es)%nat; [|lia]. subst Q. rewrite Ees in *. cbn [length] in *. apply Nat.Div0.div_le_upper_bound. nia. }
  unfold chunks2Blocks. rewrite Hcs. cbv zeta. unfold uwrap. rewrite (Z.mod_small (Z.of_nat n)) by lia. destruct (Z.eqb_spec (Z.of_nat n) 0); [lia|]. cbn [mbind outcome_bind].
  rewrite Z.mod_small by lia. replace ((Z.of_nat (length es) + Z.of_nat n - 1) / Z.of_nat n) with (Z.of_nat Q) by (subst Q; rewrite Nat2Z.inj_div; f_equal; lia).
  rewrite swrap_small by lia. assert (index (concat (map (entryChunks F 1) es)) 0 = Ok (pieceChunk e0.1.1 e0.1.2 F e0.2 0)) as -> by by rewrite Ees.
  cbn [mbind outcome_bind]. assert (getSize (pieceChunk e0.1.1 e0.1.2 F e0.2 0) = Z.of_nat F) as ->.
  { rewrite Ees in Hw. apply Forall_cons in Hw as [Hw _]. unfold getSize. cbn. rewrite piece_length. lia. }
  replace ((Z.of_nat Q <? 0) || _) with false by (symmetry; apply orb_false_iff; split; apply Z.ltb_ge; lia).
  replace (replicate _ _) with (blocksOf []) by (rewrite blocksOf_nil; do 2 f_equal; lia). by apply (placeChunks_rows []).
Qed.
End Rows.

Lemma all_set {A} (l : list A) : Forall is_Some (Some <$> l).
Proof. induction l; constructor; eauto. Qed.

(** ** Properties *)


(** Images of one size become blocks of whole rows, whatever the stride
    and the padding: [convert2Blocks] returns as many blocks as the rows
    need, all of [n] rows, and the blocks one after the other are the values under
    every window, each followed by a one, then zeros. *)
Theorem convert2Blocks_rows {T} (zero one : T) (images : list Image) x y z s k p (n : nat) :
  batch images x y z → 0 < s → 0 < k → 0 <= p → k <= x + p * 2 → k <= y + p * 2 → (0 < n)%nat →
  Z.of_nat n < 2 ^ 31 → Z.of_nat (length images) * windowsOf x y s k p < 2 ^ 31 →
  let rows := concat (map (λ img, map (imageRow zero one img s k p) (seqZ 0 (windowsOf x y s k p))) images) in
  let width := S (Z.to_nat (z * k * k)) in
  ∃ blocks, convert2Blocks zero one images k z s p (Z.of_nat n) = Ok blocks ∧
    length blocks = ((length rows + n - 1) / n)%nat ∧
    concat blocks = concat rows ++ replicate ((length blocks * n - length rows) * width) zero.
Proof.
  intros B Hs Hk Hp Hx Hy Hn Hn31 HR rows width. set (es := entries zero one images x y s k p).
  pose proof (windows_pos images x y z s k p B Hs Hk Hp Hx Hy) as HW. pose proof (entries_length zero one images x y s k p) as Hl. fold es in Hl.
  assert (map snd es = rows) as Hrows.
  { unfold es, entries, rows. rewrite concat_map, map_map. f_equal. apply map_ext. intros img. unfold imageEntries. by rewrite map_map. }
  assert (length rows = length es) as Hlr by (rewrite <- Hrows; apply length_map). set (Q := ((length es + n - 1) / n)%nat).
  exists (blocksOf zero n width Q rows). assert (length es ≤ Q * n)%nat as Hfit.
  { pose proof (Nat.div_mod (length es + n - 1) n ltac:(lia)). pose proof (Nat.mod_upper_bound (length es + n - 1) n ltac:(lia)). unfold Q. nia. }
  assert (length (blocksOf zero n width Q rows) = Q) as HlQ by (unfold blocksOf; by rewrite length_map, length_seq).
  split; [|rewrite HlQ; split; [unfold Q; by rewrite Hlr|apply concat_blocksOf; lia]].
  unfold convert2Blocks. destruct images as [|img l] eqn:E; [by destruct (batch_some _ _ _ _ B)|]. change (index (img :: l) 0) with (Ok img). cbn [mbind outcome_bind].
  rewrite (windows_first _ x y z s k p B Hs Hk Hp Hx Hy img l eq_refl). cbn [mbind outcome_bind]. cbv zeta. pose proof (batch_z _ _ _ _ B).
  replace (z * k * k + 1) with (Z.of_nat width) by (unfold width; nia).
  rewrite (images_chunks zero one _ x y z s k p width B Hs Hk Hp Hx Hy ltac:(unfold width; lia)). cbn [mbind outcome_bind]. rewrite entries_chunks. fold es width.
  replace (pieces width width) with 1%nat by (unfold pieces; rewrite Nat.div_small by (unfold width; lia); done).
  rewrite <- Hrows. apply chunks2Blocks_rows; [done|by eapply entries_some|by eapply entries_lengths|by eapply entries_numbered|lia|done|done].
Qed.

(** ** Concrete inputs *)
Definition testImages : list (Image (T := Z)) := [mkImage 0 3 3 1 [[1; 2; 3; 4; 5; 6; 7; 8; 9]]; mkImage 1 3 3 1 [[9; 8; 7; 6; 5; 4; 3; 2; 1]]].
Definition testKernels : list (Image (T := Z)) := [mkImage 0 2 2 1 [[1; 0; 0; 1]]; mkImage 1 2 2 1 [[1; 2; 3; 4]]].

Lemma testImages_batch : batch testImages 3 3 1.
Proof. split; [done|done|]. repeat constructor; done. Qed.

(** The values as [float], and the sum of products from the first to the
    last. *)
Definition floatImage (img : Image (T := Z)) : Image (T := spec_float) :=
  mkImage (img_index img) (img_x img) (img_y img) (img_z img) (map (map f32_of_Z) (matrices img)).
Definition f32_inner (l : list (spec_float * spec_float)) : spec_float := foldl f32_add f32_zero (map (λ '(u, v), f32_mul u v) l).


Lemma convert2Blocks_rows_witness : ∃ blocks, convert2Blocks 0 1 testImages 2 1 1 1 5 = Ok blocks ∧ length blocks = 7%nat.
Proof.
  destruct (convert2Blocks_rows 0 1 testImages 3 3 1 1 2 1 5) as (blocks & H1 & H2 & _).
  1: exact testImages_batch. 1-6: lia. 1: lia. 1: vm_compute; done. exists blocks. split; [exact H1|]. rewrite H2. vm_compute. done.
Defined.

(** ** What the code does outside these conditions *)

(** The rows of the second block are written over those of the first: the
    offset of the block is used to read and not to write. *)
Theorem second_block_lost : ∃ m,
  convertImage 0 1 testImages 4 1 2 1 0 4 4 = Ok m ∧ cellAt m 4 0 = None ∧ cellAt m 0 0 = Some 9.
Proof. eexists. split; [vm_compute; reflexivity|]. done. Qed.

Theorem second_kernel_block_lost : ∃ m,
  convertKernel 0 testKernels 4 2 1 false 1 4 [10; 20] = Ok m ∧ cellAt m 0 1 = None.
Proof. eexists. split; [vm_compute; reflexivity|]. done. Qed.

(** The padding of the image is passed as the padding of the blocks, which
    writes past the end of the matrix. *)
Theorem padding_overflows : convertImage 0 1 testImages 4 1 2 1 1 32 4 = Undefined.
Proof. vm_compute. done. Qed.

(** All images read the same values. *)
Theorem loadFormData_same {T} width height channels n (values : list T) images i j a b :
  loadFormData width height channels n values = Ok images → images !! i = Some a → images !! j = Some b → matrices a = matrices b.
Proof.
  unfold loadFormData. intros H Ha Hb. apply mapM_o_Ok in H. destruct (Forall2_lookup_r _ _ _ _ _ H Ha) as (ca & _ & Ea).
  destruct (Forall2_lookup_r _ _ _ _ _ H Hb) as (cb & _ & Eb). apply bind_Ok_inv in Ea as (ma & Hma & [= <-]). apply bind_Ok_inv in Eb as (mb & Hmb & [= <-]). cbn. congruence.
Qed.
