(* ===== verification/DecisionTree.v ===== *)
(** * Decision trees and forests

    Models [velox/ml_functions/DecisionTree.h], the prediction of
    [VeloxDecisionTree.h] and [DecisionForest.h]: the parser of the tree
    dumps of XGBoost, the array of nodes it fills, and the prediction loops
    over that array.  The reference is the inductive type [DTree] of decision
    trees. *)
From Stdlib Require Import SpecFloat Ascii String.
From S2P Require Import Prelude CFloat Text.
Local Open Scope Z_scope.

Definition MAX_NUM_NODES_PER_TREE : nat := 512.

(** [threshold] and [leafValue] share their storage. *)
Record Node := mkNode {
  value : spec_float;
  indexID : Z;
  leftChild : Z;
  rightChild : Z;
  isLeaf : bool;
  isMissTrackLeft : bool
}.

#[global] Instance Node_copy : Copyable Node := λ n,
  mkNode (value n) (indexID n) (leftChild n) (rightChild n) (isLeaf n) (isMissTrackLeft n).

(** The array; [None] is a node that was never written. *)
Abbreviation tree := (list (option Node)).

Definition emptyTree : tree := replicate MAX_NUM_NODES_PER_TREE None.

(** Reading an element that was not written is undefined, as is an index out
    of range. *)
Definition nodeAt (t : tree) (i : Z) : outcome Node :=
  n ← index t i;
  match n with Some node => Ok node | None => Undefined end.

Definition writeNode (i : Z) (n : Node) (t : tree) : outcome tree :=
  if (0 <=? i) && (i <? Z.of_nat (length t)) then Ok (<[Z.to_nat i := Some n]> t) else Undefined.

(** ** Numbers *)
Definition digitOf (c : ascii) : option Z :=
  let n := Z.of_nat (nat_of_ascii c) in
  if (48 <=? n) && (n <=? 57) then Some (n - 48) else None.

Fixpoint digits (s : text) : list Z * text :=
  match s with
  | c :: s' => match digitOf c with
               | Some d => let '(ds, rest) := digits s' in (d :: ds, rest)
               | None => ([], s)
               end
  | [] => ([], [])
  end.

Definition decimal (ds : list Z) : Z := foldl (λ acc d, acc * 10 + d) 0 ds.

(** [isspace]: blank, and the control characters from tab to return. *)
Definition isSpace (c : ascii) : bool :=
  let n := nat_of_ascii c in (n =? 32)%nat || ((9 <=? n)%nat && (n <=? 13)%nat).

Fixpoint skipSpace (s : text) : text :=
  match s with c :: s' => if isSpace c then skipSpace s' else s | [] => [] end.

Definition sign (s : text) : bool * text :=
  match s with
  | c :: s' => if is_char c "-"%char then (true, s') else if is_char c "+"%char then (false, s') else (false, s)
  | [] => (false, [])
  end.

Definition invalid_argument : exn := RuntimeError "invalid_argument".
Definition out_of_range : exn := RuntimeError "out_of_range".

Definition stoi (s : text) : outcome Z :=
  let '(neg, s) := sign (skipSpace s) in
  match digits s with
  | ([], _) => Throw invalid_argument
  | (ds, _) =>
      let z := if neg : bool then - decimal ds else decimal ds in
      if int32b z then Ok z else Throw out_of_range
  end.

Definition exponent (s : text) : Z :=
  match s with
  | c :: s' =>
      if is_char c "e"%char || is_char c "E"%char then
        let '(neg, s'') := sign s' in
        let z := decimal (digits s'').1 in if neg : bool then - z else z
      else 0
  | [] => 0
  end.

(** [mantissa * 10 ^ e], correctly rounded. *)
Definition decimal_to_f64 (neg : bool) (mantissa e : Z) : spec_float :=
  match mantissa with
  | Zpos m =>
      if 0 <=? e then binary_normalize 53 1024 ((if neg then -1 else 1) * (mantissa * 10 ^ e)) 0 neg
      else SFdiv 53 1024 (S754_finite neg m 0) (S754_finite false (Z.to_pos (10 ^ (- e))) 0)
  | _ => S754_zero neg
  end.

(** Decimal notation with an optional exponent, the form of the dumps. *)
Definition stod (s : text) : outcome spec_float :=
  let '(neg, s) := sign (skipSpace s) in
  let '(ip, s) := digits s in
  let '(fp, s) := match s with
                  | c :: s' => if is_char c "."%char then digits s' else ([], s)
                  | [] => ([], s)
                  end in
  match ip ++ fp with
  | [] => Throw invalid_argument
  | ds =>
      match decimal_to_f64 neg (decimal ds) (exponent s - Z.of_nat (length fp)) with
      | S754_infinity _ => Throw out_of_range
      | x => Ok x
      end
  end.

(** ** Lines of a dump *)

(** [(int)line.find(target)], which is -1 for [npos]. *)
Definition findZ (target line : text) : Z :=
  match find_sub target line with Some i => Z.of_nat i | None => -1 end.

(** [line.substr(pos, n)] with [int] arguments: a position past the end
    throws. *)
Definition substrI (line : text) (pos n : Z) : outcome text :=
  if (0 <=? pos) && (pos <=? Z.of_nat (length line)) then Ok (substrZ line pos n)
  else Throw out_of_range.

(** [exit(1)] *)
Definition exit1 : exn := FatalLog "exit(1)".

Definition quote_bracket : text := double_quote :: txt " ]".

Record Lines := mkLines { relationships : list text; innerNodes : list text; leafNodes : list text }.

Definition found (target line : text) : bool := 0 <=? findZ target line.

(** [constructTreeFromPathHelper]: one line of the file. *)
Definition classifyLine (ls : Lines) (line : text) : Lines :=
  if (length line =? 0)%nat || found (txt "graph") line || found (txt "}") line then ls
  else if found (txt "->") line then
    mkLines (relationships ls ++ [line]) (innerNodes ls) (leafNodes ls)
  else if found (txt "leaf") line then
    mkLines (relationships ls) (innerNodes ls) (leafNodes ls ++ [line])
  else if found (txt "label") line then
    mkLines (relationships ls) (innerNodes ls ++ [line]) (leafNodes ls)
  else ls.

Definition processInnerNode (t : tree) (line : text) : outcome tree :=
  let e0 := findZ (txt "[ label") line in
  if e0 =? -1 then Throw exit1 else
  nodeID ← (s ← substrI line 4 (e0 - 1 - 4); stoi s);
  let f := findZ (txt "f") line in
  let lt := findZ (txt "<") line in
  if (f =? -1) || (lt =? -1) then Throw exit1 else
  idx ← (s ← substrI line (f + 1) (lt - f - 1); stoi s);
  let e := findZ quote_bracket line in
  if e =? -1 then Throw exit1 else
  threshold ← (s ← substrI line (lt + 1) (e - lt - 1); stod s);
  writeNode nodeID (mkNode (f64_to_f32 threshold) idx (-1) (-1) false false) t.

(** The characters taken for the leaf value. *)
Definition leafValueText (line : text) : outcome text :=
  let s := findZ (txt "leaf=") line in
  let e := findZ quote_bracket line in
  if (s =? -1) || (e =? -1) then Throw exit1 else substrI line (s + 5) (e - 3 - s - 5).

Definition processLeafNode (t : tree) (line : text) : outcome tree :=
  let e0 := findZ (txt "[") line in
  if e0 =? -1 then Throw exit1 else
  nodeID ← (s ← substrI line 4 (e0 - 1 - 4); stoi s);
  leafValue ← (s ← leafValueText line; stod s);
  writeNode nodeID (mkNode (f64_to_f32 leafValue) (-1) (-1) (-1) true true) t.

(** A relationship line: parent, child, and whether missing values follow
    it. *)
Definition parseRelationship (line : text) : outcome (Z * Z * bool) :=
  let mid := findZ (txt "->") line in
  if mid =? -1 then Throw exit1 else
  parentNodeID ← (s ← substrI line 4 (mid - 1 - 4); stoi s);
  let e := findZ (txt "[") line in
  if e =? -1 then Throw exit1 else
  childNodeID ← (s ← substrI line (mid + 3) (e - 1 - mid - 3); stoi s);
  Ok (parentNodeID, childNodeID, found (txt "yes, missing") line).

(** The first edge of a node is its left child, the second its right one; a
    further one is only reported. *)
Definition addEdge (t : tree) (edge : Z * Z * bool) : outcome tree :=
  let '(parent, child, missing) := edge in
  n ← nodeAt t parent;
  let n := if missing : bool then n <| isMissTrackLeft := true |> else n in
  if leftChild n =? -1 then writeNode parent (n <| leftChild := child |>) t
  else if rightChild n =? -1 then writeNode parent (n <| rightChild := child |>) t
  else writeNode parent n t.

Definition processRelationship (t : tree) (line : text) : outcome tree :=
  edge ← parseRelationship line; addEdge t edge.

Definition constructTree (lines : list text) : outcome tree :=
  let ls := foldl classifyLine (mkLines [] [] []) lines in
  t ← foldM_o processInnerNode (innerNodes ls) emptyTree;
  t ← foldM_o processLeafNode (leafNodes ls) t;
  foldM_o processRelationship (relationships ls) t.

(** ** Prediction *)

(** The next node; [missing] selects the variant for missing values. *)
Definition nextIndex (missing : bool) (n : Node) (featureValue : spec_float) : Z :=
  if missing && bool_decide (featureValue = S754_nan) then
    if isMissTrackLeft n then leftChild n else rightChild n
  else if float_lt featureValue (value n) then leftChild n else rightChild n.

(** The [while] loop from [curIndex]. *)
Fixpoint walk (fuel : nat) (missing : bool) (t : tree) (input : list spec_float) (curBase curIndex : Z)
    : outcome spec_float :=
  match fuel with
  | O => Throw OutOfFuel
  | S fuel' =>
      n ← nodeAt t curIndex;
      if isLeaf n then Ok (value n)
      else
        featureValue ← index input (curBase + indexID n);
        walk fuel' missing t input curBase (nextIndex missing n featureValue)
  end.

(** A tree whose children come after their parents needs at most one step per
    node. *)
Definition predictSingle (t : tree) (input : list spec_float) (curBase : Z) : outcome spec_float :=
  walk (length t) false t input curBase 0.

Definition predictRows (missing : bool) (t : tree) (input : list spec_float) (numInputs numFeatures : nat)
    : outcome (list spec_float) :=
  mapM_o (λ rowIndex, walk (length t) missing t input (Z.of_nat (rowIndex * numFeatures)) 0)
    (seq 0 numInputs).

Definition predict := predictRows false.
Definition predictMissing := predictRows true.

(** ** Forests *)
Record Forest := mkForest { forest : list tree; isClassification : bool }.

Definition addTree (input : list spec_float) (curBase : Z) (acc : spec_float) (t : tree)
    : outcome spec_float :=
  v ← walk (length t) false t input curBase 0; Ok (f32_add acc v).

Definition forestRow (f : Forest) (input : list spec_float) (curBase : Z) : outcome spec_float :=
  accumulated ← foldM_o (addTree input curBase) (forest f) f32_zero;
  let average := SFdiv 24 128 accumulated (f32_of_Z (Z.of_nat (length (forest f)))) in
  Ok (if isClassification f
      then if float_lt f32_zero average then f32_of_Z 1 else f32_zero
      else average).

Definition forestPredict (f : Forest) (input : list spec_float) (numInputs numFeatures : nat)
    : outcome (list spec_float) :=
  mapM_o (λ rowIndex, forestRow f input (Z.of_nat (rowIndex * numFeatures))) (seq 0 numInputs).

(** ** Reference: decision trees *)
Inductive DTree (A : Type) :=
| Leaf (v : A)
| Inner (feature : Z) (threshold : spec_float) (missLeft : bool) (l r : DTree A).
Arguments Leaf {A} v.
Arguments Inner {A} feature threshold missLeft l r.

(** What the leaf holds that a row reaches. *)
Fixpoint evalTree {A} (missing : bool) (row : list spec_float) (T : DTree A) : A :=
  match T with
  | Leaf v => v
  | Inner feature threshold missLeft l r =>
      let x := default S754_nan (row !! Z.to_nat feature) in
      let goLeft := if missing && bool_decide (x = S754_nan) then missLeft else float_lt x threshold in
      if goLeft : bool then evalTree missing row l else evalTree missing row r
  end.

Fixpoint height {A} (T : DTree A) : nat :=
  match T with Leaf _ => 0 | Inner _ _ _ l r => S (Nat.max (height l) (height r)) end.

(** The array holds the tree from node [i] on; the features are below
    [numFeatures]. *)
Inductive layout (numFeatures : nat) (t : tree) : Z → DTree spec_float → Prop :=
| layout_leaf i n : nodeAt t i = Ok n → isLeaf n = true → layout numFeatures t i (Leaf (value n))
| layout_inner i n l r :
    nodeAt t i = Ok n → isLeaf n = false → 0 ≤ indexID n < Z.of_nat numFeatures →
    layout numFeatures t (leftChild n) l → layout numFeatures t (rightChild n) r →
    layout numFeatures t i (Inner (indexID n) (value n) (isMissTrackLeft n) l r).

Definition rowOf (input : list spec_float) (numFeatures r : nat) : list spec_float :=
  take numFeatures (drop (r * numFeatures) input).

Lemma index_row input numFeatures r i :
  ((S r) * numFeatures ≤ length input)%nat → 0 ≤ i < Z.of_nat numFeatures →
  index input (Z.of_nat (r * numFeatures) + i) =
  Ok (default S754_nan (rowOf input numFeatures r !! Z.to_nat i)).
Proof.
  intros Hlen Hi. unfold index, rowOf. destruct (Z.ltb_spec (Z.of_nat (r * numFeatures) + i) 0); [lia|].
  rewrite lookup_take_lt, lookup_drop by lia.
  replace (Z.to_nat (Z.of_nat (r * numFeatures) + i)) with (r * numFeatures + Z.to_nat i)%nat by lia.
  destruct (lookup_lt_is_Some_2 input (r * numFeatures + Z.to_nat i)) as [x ->]; [simpl in Hlen; lia | done].
Qed.

Lemma walk_eval missing numFeatures t input r i T fuel :
  layout numFeatures t i T → (height T < fuel)%nat → ((S r) * numFeatures ≤ length input)%nat →
  walk fuel missing t input (Z.of_nat (r * numFeatures)) i =
  Ok (evalTree missing (rowOf input numFeatures r) T).
Proof.
  intros HL Hf Hlen. revert fuel Hf. induction HL as [i n Hn Hl|i n l rt Hn Hl Hi HLl IHl HLr IHr];
    intros [|fuel] Hf; simpl in Hf; try lia; simpl; rewrite Hn; simpl; rewrite Hl; [done|].
  rewrite index_row by done. cbn [mbind outcome_bind]. unfold nextIndex.
  set (x := default _ _). destruct (missing && bool_decide (x = S754_nan)).
  - destruct (isMissTrackLeft n); [apply IHl | apply IHr]; lia.
  - destruct (float_lt x (value n)); [apply IHl | apply IHr]; lia.
Qed.

(** ** Well-formed arrays *)

(** Every written inner node has its children behind it, written as well, and
    tests one of the features. *)
Record tree_wf (numFeatures : nat) (t : tree) : Prop := {
  tw_root : ∃ n, nodeAt t 0 = Ok n;
  tw_inner : ∀ i n, nodeAt t i = Ok n → isLeaf n = false →
    0 ≤ indexID n < Z.of_nat numFeatures ∧
    (i < leftChild n ∧ ∃ n', nodeAt t (leftChild n) = Ok n') ∧
    (i < rightChild n ∧ ∃ n', nodeAt t (rightChild n) = Ok n')
}.

Lemma nodeAt_range t i n : nodeAt t i = Ok n → 0 ≤ i < Z.of_nat (length t).
Proof.
  unfold nodeAt, index. destruct (Z.ltb_spec i 0); [done|].
  destruct (t !! Z.to_nat i) eqn:E; [|done]. apply lookup_lt_Some in E. lia.
Qed.

Lemma wf_layout numFeatures t i n :
  tree_wf numFeatures t → nodeAt t i = Ok n →
  ∃ T, layout numFeatures t i T ∧ Z.of_nat (height T) < Z.of_nat (length t) - i.
Proof.
  intros [_ Hw]. remember (Z.to_nat (Z.of_nat (length t) - i)) as d eqn:Ed.
  revert i n Ed. induction (lt_wf d) as [d _ IH]. intros i n -> Hn.
  pose proof (nodeAt_range t i n Hn). destruct (isLeaf n) eqn:El.
  - exists (Leaf (value n)). split; [by constructor|]. simpl. lia.
  - destruct (Hw i n Hn El) as (Hi & (Hl & nl & Hnl) & (Hr & nr & Hnr)).
    pose proof (nodeAt_range t _ nl Hnl). pose proof (nodeAt_range t _ nr Hnr).
    edestruct (IH (Z.to_nat (Z.of_nat (length t) - leftChild n))) as (L & HL & HhL); [lia | done | exact Hnl |].
    edestruct (IH (Z.to_nat (Z.of_nat (length t) - rightChild n))) as (R & HR & HhR); [lia | done | exact Hnr |].
    exists (Inner (indexID n) (value n) (isMissTrackLeft n) L R). split; [by apply layout_inner|].
    simpl. lia.
Qed.

Lemma predictRows_eval missing numFeatures t T input numInputs :
  layout numFeatures t 0 T → (height T < length t)%nat → (numInputs * numFeatures ≤ length input)%nat →
  predictRows missing t input numInputs numFeatures =
  Ok (map (λ r, evalTree missing (rowOf input numFeatures r) T) (seq 0 numInputs)).
Proof.
  intros HL Hh Hlen. unfold predictRows. apply mapM_o_Ok, Forall2_fmap_r, Forall_Forall2_diag, Forall_forall.
  intros r Hr%elem_of_seq. apply walk_eval; [done | done |].
  pose proof (Nat.mul_le_mono_r (S r) numInputs numFeatures ltac:(lia)). lia.
Qed.

Lemma wf_root numFeatures t : tree_wf numFeatures t →
  ∃ T, layout numFeatures t 0 T ∧ (height T < length t)%nat.
Proof.
  intros Hw. destruct (tw_root _ _ Hw) as [n Hn].
  destruct (wf_layout numFeatures t 0 n Hw Hn) as (T & HL & Hh). exists T. split; [done | lia].
Qed.

Lemma walk_no_nan fuel t input curBase i :
  Forall (λ x, x ≠ S754_nan) input →
  walk fuel true t input curBase i = walk fuel false t input curBase i.
Proof.
  intros Hn. revert i; induction fuel as [|fuel IH]; intros i; [done|]. simpl.
  destruct (nodeAt t i) as [n| |]; [|done..]. simpl. destruct (isLeaf n); [done|].
  destruct (index input (curBase + indexID n)) as [x| |] eqn:Ex; [|done..]. simpl.
  rewrite IH. f_equal. unfold nextIndex. rewrite bool_decide_false; [done|].
  unfold index in Ex. destruct (_ <? 0); [done|]. destruct (input !! _) eqn:E; [|done].
  simplify_eq. rewrite Forall_forall in Hn. apply Hn. by eapply list_elem_of_lookup_2.
Qed.

(** ** Forests *)
Lemma addTrees_eval numFeatures ts Ts input r acc :
  Forall2 (λ t T, layout numFeatures t 0 T ∧ (height T < length t)%nat) ts Ts →
  ((S r) * numFeatures ≤ length input)%nat →
  foldM_o (addTree input (Z.of_nat (r * numFeatures))) ts acc =
  Ok (foldl (λ acc T, f32_add acc (evalTree false (rowOf input numFeatures r) T)) acc Ts).
Proof.
  intros H Hlen. revert acc; induction H as [|t T ts Ts [HL Hh] _ IH]; intros acc; [done|].
  cbn [foldM_o foldl].
  assert (addTree input (Z.of_nat (r * numFeatures)) acc t =
          Ok (f32_add acc (evalTree false (rowOf input numFeatures r) T))) as ->.
  { unfold addTree. by rewrite (walk_eval _ numFeatures _ _ _ _ T). }
  cbn [mbind outcome_bind]. apply IH.
Qed.

Definition forestValue (classification : bool) (Ts : list (DTree spec_float)) (row : list spec_float) : spec_float :=
  let sum := foldl (λ acc T, f32_add acc (evalTree false row T)) f32_zero Ts in
  let average := SFdiv 24 128 sum (f32_of_Z (Z.of_nat (length Ts))) in
  if classification then if float_lt f32_zero average then f32_of_Z 1 else f32_zero else average.

(** ** Properties *)

(** Prediction terminates and computes the decision tree: on an array in
    which children come after their parents, both prediction functions
    return, with every read in bounds, for every row the value of one and the
    same decision tree, the one the array lays out from node 0; missing
    values follow the recorded default branch in [predictMissing]. *)
Theorem predict_correct numFeatures t :
  tree_wf numFeatures t →
  ∃ T, layout numFeatures t 0 T ∧
    ∀ input numInputs, (numInputs * numFeatures ≤ length input)%nat →
      predict t input numInputs numFeatures =
        Ok (map (λ r, evalTree false (rowOf input numFeatures r) T) (seq 0 numInputs)) ∧
      predictMissing t input numInputs numFeatures =
        Ok (map (λ r, evalTree true (rowOf input numFeatures r) T) (seq 0 numInputs)).
Proof.
  intros Hw. destruct (wf_root numFeatures t Hw) as (T & HL & Hh).
  exists T. split; [done|]. intros input numInputs Hlen.
  split; by apply predictRows_eval.
Qed.

(** On inputs without missing values the two prediction functions agree,
    on every array of nodes. *)
Theorem predictMissing_agrees t input numInputs numFeatures :
  Forall (λ x, x ≠ S754_nan) input →
  predictMissing t input numInputs numFeatures = predict t input numInputs numFeatures.
Proof.
  intros Hn. unfold predictMissing, predict, predictRows. apply mapM_o_ext. intros r.
  by apply walk_no_nan.
Qed.

(** A forest of well-formed trees predicts, for every row, the average of
    the trees' values added up in order; as a classifier it answers 1 or 0
    according to the sign of that average. *)
Theorem forestPredict_correct numFeatures f input numInputs :
  Forall (tree_wf numFeatures) (forest f) → (numInputs * numFeatures ≤ length input)%nat →
  ∃ Ts, Forall2 (λ t T, layout numFeatures t 0 T) (forest f) Ts ∧
    forestPredict f input numInputs numFeatures =
      Ok (map (λ r, forestValue (isClassification f) Ts (rowOf input numFeatures r)) (seq 0 numInputs)).
Proof.
  intros Hw Hlen.
  assert (∃ Ts, Forall2 (λ t T, layout numFeatures t 0 T ∧ (height T < length t)%nat) (forest f) Ts)
    as (Ts & HTs).
  { induction Hw as [|t ts Ht _ (Ts & IH)]; [by exists []|].
    destruct (wf_root numFeatures t Ht) as (T & HT). exists (T :: Ts). by constructor. }
  exists Ts. split; [eapply Forall2_impl; [exact HTs | naive_solver]|].
  unfold forestPredict. apply mapM_o_Ok, Forall2_fmap_r, Forall_Forall2_diag, Forall_forall.
  intros r Hr%elem_of_seq. unfold forestRow.
  rewrite (addTrees_eval numFeatures _ Ts); [|done|].
  - cbn [mbind outcome_bind]. rewrite (Forall2_length _ _ _ HTs). done.
  - pose proof (Nat.mul_le_mono_r (S r) numInputs numFeatures ltac:(lia)). lia.
Qed.

(** The value of a leaf is read from the dump without its last three
    characters: on a line with the label leaf=NUM the text handed to
    [std::stod] is NUM cut by three. *)
Theorem leaf_value_truncated prefix num rest :
  let line := (prefix ++ txt "leaf=" ++ num ++ quote_bracket ++ rest)%list in
  find_sub (txt "leaf=") line = Some (length prefix) →
  find_sub quote_bracket line = Some (length prefix + 5 + length num)%nat → (3 ≤ length num)%nat →
  leafValueText line = Ok (take (length num - 3) num).
Proof.
  intros line Hs He Hn. unfold leafValueText, findZ. rewrite Hs, He.
  rewrite (proj2 (orb_false_iff _ _)) by (split; apply Z.eqb_neq; lia). unfold substrI.
  assert (length line = length prefix + 5 + length num + length (quote_bracket ++ rest)%list)%nat as Hl.
  { unfold line. rewrite !length_app. simpl. lia. }
  destruct ((0 <=? _) && (_ <=? _)) eqn:Er; [|lia]. f_equal. unfold substrZ.
  destruct (Z.ltb_spec (Z.of_nat (length prefix + 5 + length num) - 3 - Z.of_nat (length prefix) - 5) 0); [lia|].
  unfold substr. unfold line. rewrite app_assoc, drop_length_app.
  - rewrite take_app_le by lia. f_equal. lia.
  - rewrite length_app. simpl. lia.
Qed.

(** ** Witnesses *)

(** A dump line; the quotes are written as apostrophes. *)
Definition dumpLine (s : string) : text :=
  map (λ c, if is_char c "'"%char then double_quote else c) (txt s).

Definition sample_dump : list text :=
  [dumpLine "digraph {"; dumpLine "    graph [ rankdir=TB ]"; dumpLine "    0 [ label='f1<1.5' ]";
   dumpLine "    1 [ label='leaf=0.50000' ]"; dumpLine "    2 [ label='leaf=-0.75000' ]";
   dumpLine "    0 -> 1 [label='yes, missing' color='blue']"; dumpLine "    0 -> 2 [label='no' color='red']";
   dumpLine "}"].

Definition sample_tree : tree := match constructTree sample_dump with Ok t => t | _ => [] end.

(** The decidable form of [tree_wf]. *)
Definition writtenAfter (t : tree) (i c : Z) : bool :=
  (i <? c) && match nodeAt t c with Ok _ => true | _ => false end.

Definition node_ok (numFeatures : nat) (t : tree) (i : Z) : bool :=
  match nodeAt t i with
  | Ok n => isLeaf n || ((0 <=? indexID n) && (indexID n <? Z.of_nat numFeatures) &&
                         writtenAfter t i (leftChild n) && writtenAfter t i (rightChild n))
  | _ => true
  end.

Definition tree_wfb (numFeatures : nat) (t : tree) : bool :=
  match nodeAt t 0 with Ok _ => true | _ => false end &&
  forallb (node_ok numFeatures t) (seqZ 0 (Z.of_nat (length t))).

Lemma writtenAfter_true t i c :
  writtenAfter t i c = true → i < c ∧ ∃ n, nodeAt t c = Ok n.
Proof.
  unfold writtenAfter. intros [H1 H2]%andb_true_iff. split; [lia|].
  destruct (nodeAt t c) as [n| |]; [by exists n | done..].
Qed.

Lemma tree_wfb_sound numFeatures t : tree_wfb numFeatures t = true → tree_wf numFeatures t.
Proof.
  unfold tree_wfb. intros [Hr Hall]%andb_true_iff. split.
  - destruct (nodeAt t 0) as [n| |]; [by exists n | done..].
  - intros i n Hn Hl. rewrite forallb_forall in Hall. specialize (Hall i).
    unfold node_ok in Hall. rewrite Hn, Hl in Hall. simpl in Hall.
    assert (0 ≤ indexID n < Z.of_nat numFeatures ∧ writtenAfter t i (leftChild n) = true ∧
      writtenAfter t i (rightChild n) = true) as (Hi & Hlc & Hrc).
    { pose proof (nodeAt_range t i n Hn). rewrite !andb_true_iff in Hall.
      destruct Hall as [[[? ?] ?] ?]; [|split_and!; (done || lia)].
      apply list_elem_of_In, elem_of_seqZ. lia. }
    apply writtenAfter_true in Hlc, Hrc. naive_solver.
Qed.

Lemma predict_correct_witness :
  ∃ T, layout 2 sample_tree 0 T ∧
    predict sample_tree [f32_of_Z 9; f32_of_Z 1; f32_of_Z 9; f32_of_Z 2] 2 2 =
      Ok (map (λ r, evalTree false (rowOf [f32_of_Z 9; f32_of_Z 1; f32_of_Z 9; f32_of_Z 2] 2 r) T) [0; 1]%nat).
Proof.
  destruct (predict_correct 2 sample_tree) as (T & HL & H).
  - apply tree_wfb_sound. vm_compute. reflexivity.
  - exists T. split; [exact HL|].
    exact (proj1 (H [f32_of_Z 9; f32_of_Z 1; f32_of_Z 9; f32_of_Z 2] 2%nat ltac:(simpl; lia))).
Defined.

Lemma predictMissing_agrees_witness :
  predictMissing sample_tree [f32_of_Z 9; f32_of_Z 1] 1 2 = predict sample_tree [f32_of_Z 9; f32_of_Z 1] 1 2.
Proof.
  apply (predictMissing_agrees sample_tree [f32_of_Z 9; f32_of_Z 1] 1 2).
  repeat constructor; vm_compute; discriminate.
Defined.

Lemma forestPredict_correct_witness :
  ∃ Ts, Forall2 (λ t T, layout 2 t 0 T) [sample_tree; sample_tree] Ts ∧
    forestPredict (mkForest [sample_tree; sample_tree] true) [f32_of_Z 9; f32_of_Z 1] 1 2 =
      Ok [forestValue true Ts (rowOf [f32_of_Z 9; f32_of_Z 1] 2 0)].
Proof.
  apply (forestPredict_correct 2 (mkForest [sample_tree; sample_tree] true) [f32_of_Z 9; f32_of_Z 1] 1);
    [|simpl; lia].
  apply Forall_cons_2; [|apply Forall_cons_2; [|apply Forall_nil_2]];
    apply tree_wfb_sound; vm_compute; reflexivity.
Defined.

Lemma leaf_value_truncated_witness :
  leafValueText (dumpLine "    1 [ label='leaf=0.12345' ]") = Ok (txt "0.12").
Proof.
  apply (leaf_value_truncated (dumpLine "    1 [ label='") (txt "0.12345") []);
    [reflexivity | reflexivity | simpl; lia].
Defined.
