(* ===== verification/TreeDump.v ===== *)
(** * Dumps of decision trees

    The text format of the tree dumps that XGBoost writes and
    [velox/ml_functions/DecisionTree.h] reads (examples are the files under
    [resources/model]), and the proof that [constructTree] reads a whole dump
    back: every node of the dump ends up at its place in the array, with its
    feature, threshold, children and default branch. *)
From Stdlib Require Import SpecFloat Ascii String.
From S2P Require Import Prelude CFloat Text DecisionTree.
Local Open Scope Z_scope.

(** ** The format *)

(** A number as the dump writes it, with the value it stands for. *)
Record numeral := mkNumeral { ntext : text; nval : Z }.
Record number := mkNumber { dtext : text; dval : spec_float }.

Inductive dnode :=
| DInner (id feature : numeral) (threshold : number) (yes no : numeral) (missLeft : bool)
| DLeaf (id : numeral) (leaf : number).

Definition dq (s : text) : text := double_quote :: s.

(** [    3 [ label="f2<-0.483837187" ]] *)
Definition innerLine (id feature threshold : text) : text :=
  txt "    " ++ id ++ txt " [ label=" ++ dq (txt "f" ++ feature ++ txt "<" ++ threshold ++ quote_bracket).

(** [    49 [ label="leaf=-0.160000011" ]] *)
Definition leafLine (id leaf : text) : text :=
  txt "    " ++ id ++ txt " [ label=" ++ dq (txt "leaf=" ++ leaf ++ quote_bracket).

(** [    3 -> 7 [label="yes" color="#FF0000"]] *)
Definition edgeLine (parent child label color : text) : text :=
  txt "    " ++ parent ++ txt " -> " ++ child ++
  txt " [label=" ++ dq (label ++ dq (txt " color=" ++ dq (color ++ dq (txt "]")))).

Definition edgeLines (parent yes no : text) (missLeft : bool) : list text :=
  if missLeft then
    [edgeLine parent yes (txt "yes, missing") (txt "#0000FF"); edgeLine parent no (txt "no") (txt "#FF0000")]
  else
    [edgeLine parent yes (txt "yes") (txt "#FF0000"); edgeLine parent no (txt "no, missing") (txt "#0000FF")].

Definition nodeLines (d : dnode) : list text :=
  match d with
  | DInner id feature threshold yes no missLeft =>
      innerLine (ntext id) (ntext feature) (dtext threshold) ::
      edgeLines (ntext id) (ntext yes) (ntext no) missLeft ++ [[]]
  | DLeaf id leaf => [leafLine (ntext id) (dtext leaf); []]
  end.

Definition dump (ds : list dnode) : list text :=
  [txt "digraph {"; txt "    graph [ rankdir=TB ]"; []] ++ concat (map nodeLines ds) ++ [txt "}"].

(** ** What a node of the dump stands for *)
Definition isDigit (c : ascii) : bool := match digitOf c with Some _ => true | None => false end.
Definition isNumberChar (c : ascii) : bool := isDigit c || bool_decide (c ∈ txt ".-+e").

Definition numeral_ok (n : numeral) : Prop :=
  Forall (λ c, isDigit c = true) (ntext n) ∧ stoi (ntext n) = Ok (nval n) ∧ 0 ≤ nval n.

Definition threshold_ok (d : number) : Prop :=
  Forall (λ c, isNumberChar c = true) (dtext d) ∧ stod (dtext d) = Ok (dval d).

(** A leaf stands for the number its whole text denotes.  The parser hands
    another text to [std::stod]: the one without its last three characters, or,
    when it is shorter than that, the whole rest of the line. *)
Definition leafText (s : text) : text := if (length s <? 3)%nat then (s ++ quote_bracket)%list else take (length s - 3) s.
Definition readLeaf (d : number) : spec_float := match stod (leafText (dtext d)) with Ok v => f64_to_f32 v | _ => f32_zero end.
Definition writtenLeaf (d : number) : spec_float := f64_to_f32 (dval d).

(** What the parser is given is still a number. *)
Definition leaf_ok (d : number) : Prop :=
  Forall (λ c, isNumberChar c = true) (dtext d) ∧ stod (dtext d) = Ok (dval d) ∧ ∃ v, stod (leafText (dtext d)) = Ok v.

Definition idOf (d : dnode) : numeral := match d with DInner id _ _ _ _ _ => id | DLeaf id _ => id end.

Definition dnode_ok (d : dnode) : Prop :=
  numeral_ok (idOf d) ∧ nval (idOf d) < Z.of_nat MAX_NUM_NODES_PER_TREE ∧
  match d with
  | DInner _ feature threshold yes no _ =>
      numeral_ok feature ∧ threshold_ok threshold ∧ numeral_ok yes ∧ numeral_ok no
  | DLeaf _ leaf => leaf_ok leaf
  end.

Definition nodeOf (d : dnode) : Node :=
  match d with
  | DInner _ feature threshold yes no missLeft =>
      mkNode (f64_to_f32 (dval threshold)) (nval feature) (nval yes) (nval no) false missLeft
  | DLeaf _ leaf => mkNode (readLeaf leaf) (-1) (-1) (-1) true true
  end.

(** ** Searching in lines *)
Lemma notin_chars (P : ascii → bool) s c : Forall (λ c, P c = true) s → P c = false → c ∉ s.
Proof. intros Hs Hc Hin. rewrite Forall_forall in Hs. specialize (Hs c Hin). congruence. Qed.

Lemma find_sub_skip c p s rest :
  c ∉ s → find_sub (c :: p) (s ++ rest) = (λ i, (length s + i)%nat) <$> find_sub (c :: p) rest.
Proof.
  induction s as [|d s IH]; intros Hc; simpl.
  - by destruct (find_sub (c :: p) rest).
  - apply not_elem_of_cons in Hc as [Hd Hs]. specialize (IH Hs). simpl in IH.
    unfold is_char at 1. rewrite bool_decide_false by congruence. simpl. rewrite IH.
    by destruct (find_sub (c :: p) rest).
Qed.

Lemma find_sub_at c p s rest :
  c ∉ s → find_sub (c :: p) (s ++ (c :: p) ++ rest) = Some (length s).
Proof.
  intros Hc. rewrite find_sub_skip by done.
  assert (prefixb (c :: p) ((c :: p) ++ rest) = true) as Hp.
  { generalize (c :: p). intros q. induction q as [|d q IH]; [done|]. simpl.
    unfold is_char. by rewrite bool_decide_true, IH. }
  assert (find_sub (c :: p) ((c :: p) ++ rest) = Some 0%nat) as ->.
  { simpl in *. by rewrite Hp. }
  simpl. f_equal. lia.
Qed.

Lemma find_sub_none c p s : c ∉ s → find_sub (c :: p) s = None.
Proof.
  intros Hc. rewrite <- (app_nil_r s), find_sub_skip by done. done.
Qed.

Lemma substrI_mid pre mid post (pos n : Z) :
  pos = Z.of_nat (length pre) → n = Z.of_nat (length mid) →
  substrI (pre ++ mid ++ post) pos n = Ok mid.
Proof.
  intros -> ->. unfold substrI. rewrite !length_app.
  rewrite (proj2 (andb_true_iff _ _)) by (split; apply Z.leb_le; lia). f_equal. unfold substrZ.
  destruct (Z.ltb_spec (Z.of_nat (length mid)) 0); [lia|]. unfold substr.
  rewrite !Nat2Z.id, drop_app_length. by rewrite take_app_length.
Qed.

Lemma find_sub_step p d s :
  prefixb p (d :: s) = false → find_sub p (d :: s) = S <$> find_sub p s.
Proof. intros H. simpl. by rewrite H. Qed.

Lemma find_sub_here p s : prefixb p s = true → find_sub p s = Some 0%nat.
Proof. intros H. destruct s; simpl; by rewrite H. Qed.

Lemma prefixb_ne c p d s : c ≠ d → prefixb (c :: p) (d :: s) = false.
Proof. intros H. simpl. unfold is_char. by rewrite bool_decide_false. Qed.

Lemma prefixb_eq c p s : prefixb (c :: p) (c :: s) = prefixb p s.
Proof. simpl. unfold is_char. by rewrite bool_decide_true. Qed.

Lemma prefixb_incl p s c : prefixb p s = true → c ∈ p → c ∈ s.
Proof.
  revert s; induction p as [|d p IH]; intros [|e s] Hp Hc; [set_solver..|]. simpl in Hp.
  apply andb_true_iff in Hp as [Hd Hp]. apply bool_decide_eq_true in Hd as ->.
  apply elem_of_cons in Hc as [->|Hc]; set_solver.
Qed.

Lemma find_sub_missing c p s : c ∈ p → c ∉ s → find_sub p s = None.
Proof.
  intros Hp. induction s as [|d s IH]; intros Hs.
  - destruct p; [set_solver | done].
  - rewrite find_sub_step; [rewrite IH; set_solver|].
    apply not_true_is_false. intros H. eauto using prefixb_incl.
Qed.

(** A decidable closed statement. *)
Ltac closed := apply (bool_decide_unpack _); vm_compute; exact I.

(** [c ∉ s] for a text put together from constants and numerals. *)
Ltac notin :=
  repeat match goal with
  | |- _ ∉ _ ++ _ => apply not_elem_of_app; split
  | |- _ ∉ dq _ => unfold dq
  | |- _ ∉ _ :: _ ++ _ => apply not_elem_of_cons; split; [closed|]
  end;
  first [ eapply notin_chars; [eassumption | reflexivity] | closed ].

(** The result of a search in such a text. *)
Ltac scan :=
  cbv [innerLine leafLine edgeLine dq quote_bracket double_quote]; cbn [txt list_ascii_of_string];
  repeat first
    [ rewrite find_sub_skip by notin
    | rewrite app_nil_l
    | rewrite <- app_comm_cons
    | rewrite find_sub_here by (repeat rewrite prefixb_eq; reflexivity)
    | rewrite find_sub_step by
        (repeat first [rewrite prefixb_eq | rewrite <- app_comm_cons | rewrite prefixb_ne by closed]; reflexivity) ];
  cbn [fmap option_fmap option_map length Nat.add find_sub prefixb app];
  try (f_equal; lia); try reflexivity.

Section InnerLine.
Context (id feature threshold : text).
Context (Hid : Forall (λ c, isDigit c = true) id) (Hf : Forall (λ c, isDigit c = true) feature)
        (Ht : Forall (λ c, isNumberChar c = true) threshold).
Let line := innerLine id feature threshold.

Lemma inner_label : find_sub (txt "[ label") line = Some (4 + length id + 1)%nat.
Proof. unfold line. scan. Qed.

Lemma inner_f : find_sub (txt "f") line = Some (4 + length id + 10)%nat.
Proof. unfold line. scan. Qed.

Lemma inner_lt : find_sub (txt "<") line = Some (4 + length id + 11 + length feature)%nat.
Proof. unfold line. scan. Qed.

Lemma inner_end :
  find_sub quote_bracket line = Some (4 + length id + 12 + length feature + length threshold)%nat.
Proof. unfold line. scan. Qed.

Lemma inner_graph : find_sub (txt "graph") line = None.
Proof. unfold line. scan. Qed.
Lemma inner_brace : find_sub (txt "}") line = None.
Proof. unfold line. scan. Qed.
Lemma inner_arrow : find_sub (txt "->") line = None.
Proof. apply (find_sub_missing ">"%char); [closed|]. unfold line, innerLine. notin. Qed.
Lemma inner_leaf : find_sub (txt "leaf") line = None.
Proof. unfold line. scan. Qed.

Lemma inner_classify ls :
  classifyLine ls line = mkLines (relationships ls) (innerNodes ls ++ [line]) (leafNodes ls).
Proof.
  unfold classifyLine, found, findZ. rewrite inner_graph, inner_brace, inner_arrow, inner_leaf.
  assert (find_sub (txt "label") line = Some (4 + length id + 3)%nat) as -> by (unfold line; scan).
  unfold line, innerLine. done.
Qed.

Lemma inner_process nodeID idx thr t :
  stoi id = Ok nodeID → stoi feature = Ok idx → stod threshold = Ok thr →
  processInnerNode t line = writeNode nodeID (mkNode (f64_to_f32 thr) idx (-1) (-1) false false) t.
Proof.
  intros Hn Hi Hv. unfold processInnerNode, findZ. rewrite inner_label, inner_f, inner_lt, inner_end.
  rewrite !(proj2 (Z.eqb_neq _ (-1))) by lia.
  assert (substrI line 4 (Z.of_nat (4 + length id + 1) - 1 - 4) = Ok id) as ->
    by (apply (substrI_mid (txt "    ")); [done | lia]).
  cbn [mbind outcome_bind]. rewrite Hn. cbn [mbind outcome_bind orb].
  assert (substrI line (Z.of_nat (4 + length id + 10) + 1)
    (Z.of_nat (4 + length id + 11 + length feature) - Z.of_nat (4 + length id + 10) - 1) = Ok feature) as ->.
  { replace line with ((txt "    " ++ id ++ txt " [ label=" ++ dq (txt "f")) ++ feature ++
      (txt "<" ++ threshold ++ quote_bracket))%list by (unfold line, innerLine; by rewrite <- !app_assoc).
    apply substrI_mid; [rewrite !length_app; simpl; lia | lia]. }
  cbn [mbind outcome_bind]. rewrite Hi. cbn [mbind outcome_bind].
  assert (substrI line (Z.of_nat (4 + length id + 11 + length feature) + 1)
    (Z.of_nat (4 + length id + 12 + length feature + length threshold) -
     Z.of_nat (4 + length id + 11 + length feature) - 1) = Ok threshold) as ->.
  { replace line with ((txt "    " ++ id ++ txt " [ label=" ++ dq (txt "f") ++ feature ++ txt "<") ++
      threshold ++ quote_bracket)%list by (unfold line, innerLine; by rewrite <- !app_assoc).
    apply substrI_mid; [rewrite !length_app; simpl; lia | lia]. }
  cbn [mbind outcome_bind]. rewrite Hv. done.
Qed.
End InnerLine.

Section LeafLine.
Context (id leaf : text).
Context (Hid : Forall (λ c, isDigit c = true) id) (Hl : Forall (λ c, isNumberChar c = true) leaf).
Let line := leafLine id leaf.

Lemma leaf_classify ls :
  classifyLine ls line = mkLines (relationships ls) (innerNodes ls) (leafNodes ls ++ [line]).
Proof.
  unfold classifyLine, found, findZ.
  assert (find_sub (txt "graph") line = None) as -> by (unfold line; scan).
  assert (find_sub (txt "}") line = None) as -> by (unfold line; scan).
  assert (find_sub (txt "->") line = None) as ->.
  { apply (find_sub_missing ">"%char); [closed|]. unfold line, leafLine. notin. }
  assert (find_sub (txt "leaf") line = Some (4 + length id + 10)%nat) as -> by (unfold line; scan).
  unfold line, leafLine. done.
Qed.

Lemma leaf_process nodeID v t :
  stoi id = Ok nodeID → stod (leafText leaf) = Ok v →
  processLeafNode t line = writeNode nodeID (mkNode (f64_to_f32 v) (-1) (-1) (-1) true true) t.
Proof.
  intros Hn Hv. unfold processLeafNode, findZ.
  assert (find_sub (txt "[") line = Some (4 + length id + 1)%nat) as -> by (unfold line; scan).
  rewrite (proj2 (Z.eqb_neq _ (-1))) by lia.
  assert (substrI line 4 (Z.of_nat (4 + length id + 1) - 1 - 4) = Ok id) as ->
    by (apply (substrI_mid (txt "    ")); [done | lia]).
  cbn [mbind outcome_bind]. rewrite Hn. cbn [mbind outcome_bind].
  assert (leafValueText line = Ok (leafText leaf)) as ->.
  { unfold leafValueText, findZ.
    assert (find_sub (txt "leaf=") line = Some (4 + length id + 10)%nat) as -> by (unfold line; scan).
    assert (find_sub quote_bracket line = Some (4 + length id + 15 + length leaf)%nat) as -> by (unfold line; scan).
    rewrite !(proj2 (Z.eqb_neq _ (-1))) by lia. cbn [orb]. unfold leafText. destruct (Nat.ltb_spec (length leaf) 3) as [H3|H3].
    { unfold substrI, substrZ. rewrite (proj2 (andb_true_iff _ _)) by (unfold line, leafLine; rewrite !length_app; cbn; rewrite !length_app; split; apply Z.leb_le; lia).
      rewrite (proj2 (Z.ltb_lt _ _)) by lia. f_equal.
      replace line with ((txt "    " ++ id ++ txt " [ label=" ++ dq (txt "leaf=")) ++ (leaf ++ quote_bracket))%list
        by (unfold line, leafLine; by rewrite <- !app_assoc).
      apply drop_app_length'. rewrite !length_app. cbn. lia. }
    replace line with ((txt "    " ++ id ++ txt " [ label=" ++ dq (txt "leaf=")) ++ take (length leaf - 3) leaf ++
      (drop (length leaf - 3) leaf ++ quote_bracket))%list
      by (rewrite (app_assoc (take _ _)), take_drop; unfold line, leafLine; by rewrite <- !app_assoc).
    apply substrI_mid; [rewrite !length_app; simpl; lia|]. rewrite length_take. lia. }
  cbn [mbind outcome_bind]. rewrite Hv. done.
Qed.
End LeafLine.

(** ** Edges *)
Definition edgeLabels : list text := [txt "yes"; txt "yes, missing"; txt "no"; txt "no, missing"].
Definition edgeColors : list text := [txt "#FF0000"; txt "#0000FF"].

Section EdgeLine.
Context (parent child : text).
Context (Hp : Forall (λ c, isDigit c = true) parent) (Hc : Forall (λ c, isDigit c = true) child).

(** A statement about a line holds when it holds for each label and color. *)
Ltac each_label Hl Hk :=
  unfold edgeLabels in Hl; unfold edgeColors in Hk;
  rewrite !elem_of_cons, elem_of_nil in Hl; rewrite !elem_of_cons, elem_of_nil in Hk;
  destruct Hl as [-> | [-> | [-> | [-> | []]]]]; destruct Hk as [-> | [-> | []]].

Lemma edge_classify label color ls :
  label ∈ edgeLabels → color ∈ edgeColors →
  let line := edgeLine parent child label color in
  classifyLine ls line = mkLines (relationships ls ++ [line]) (innerNodes ls) (leafNodes ls).
Proof.
  intros Hl Hk line. unfold classifyLine, found, findZ.
  assert (find_sub (txt "graph") line = None) as ->.
  { apply (find_sub_missing "h"%char); [closed|]. unfold line, edgeLine. each_label Hl Hk; notin. }
  assert (find_sub (txt "}") line = None) as ->.
  { apply (find_sub_missing "}"%char); [closed|]. unfold line, edgeLine. each_label Hl Hk; notin. }
  assert (find_sub (txt "->") line = Some (4 + length parent + 1)%nat) as -> by (unfold line; scan).
  unfold line, edgeLine. done.
Qed.

Lemma edge_parse label color p c :
  label ∈ edgeLabels → color ∈ edgeColors → stoi parent = Ok p → stoi child = Ok c →
  parseRelationship (edgeLine parent child label color) =
  Ok (p, c, bool_decide (label = txt "yes, missing")).
Proof.
  intros Hl Hk Hsp Hsc. set (line := edgeLine parent child label color).
  unfold parseRelationship, findZ.
  assert (find_sub (txt "->") line = Some (4 + length parent + 1)%nat) as -> by (unfold line; scan).
  assert (find_sub (txt "[") line = Some (4 + length parent + 5 + length child)%nat) as -> by (unfold line; scan).
  rewrite !(proj2 (Z.eqb_neq _ (-1))) by lia.
  assert (substrI line 4 (Z.of_nat (4 + length parent + 1) - 1 - 4) = Ok parent) as ->
    by (apply (substrI_mid (txt "    ")); [done | lia]).
  cbn [mbind outcome_bind]. rewrite Hsp. cbn [mbind outcome_bind].
  assert (substrI line (Z.of_nat (4 + length parent + 1) + 3)
    (Z.of_nat (4 + length parent + 5 + length child) - 1 - Z.of_nat (4 + length parent + 1) - 3) = Ok child) as ->.
  { unfold line, edgeLine. rewrite (app_assoc parent), (app_assoc (txt "    ")).
    apply substrI_mid; [rewrite !length_app; simpl; lia | lia]. }
  cbn [mbind outcome_bind]. rewrite Hsc. cbn [mbind outcome_bind]. do 2 f_equal.
  unfold line, found, findZ. each_label Hl Hk; scan.
Qed.
End EdgeLine.

(** ** The whole dump *)
Definition relLines (d : dnode) : list text :=
  match d with
  | DInner id _ _ yes no missLeft => edgeLines (ntext id) (ntext yes) (ntext no) missLeft
  | DLeaf _ _ => []
  end.
Definition innLines (d : dnode) : list text :=
  match d with
  | DInner id feature threshold _ _ _ => [innerLine (ntext id) (ntext feature) (dtext threshold)]
  | DLeaf _ _ => []
  end.
Definition leafLines (d : dnode) : list text :=
  match d with DInner _ _ _ _ _ _ => [] | DLeaf id leaf => [leafLine (ntext id) (dtext leaf)] end.

Lemma classify_node d ls :
  dnode_ok d →
  foldl classifyLine ls (nodeLines d) =
  mkLines (relationships ls ++ relLines d) (innerNodes ls ++ innLines d) (leafNodes ls ++ leafLines d).
Proof.
  intros ((Hid & _) & _ & Hd). destruct d as [id f thr yes no ml|id leaf]; cbn [nodeLines idOf] in *.
  - destruct Hd as ((Hf & _) & (Ht & _) & (Hy & _) & (Hn & _)).
    cbn [foldl relLines innLines leafLines]. rewrite inner_classify by done.
    unfold edgeLines. destruct ml; cbn [app foldl];
      rewrite edge_classify by (done || closed); rewrite edge_classify by (done || closed);
      cbn [relationships innerNodes leafNodes]; by rewrite <- !app_assoc, !app_nil_r.
  - destruct Hd as (Hl & _). cbn [foldl relLines innLines leafLines].
    rewrite leaf_classify by done. cbn [relationships innerNodes leafNodes]. by rewrite !app_nil_r.
Qed.

Lemma classify_dump ds :
  Forall dnode_ok ds →
  foldl classifyLine (mkLines [] [] []) (dump ds) =
  mkLines (concat (map relLines ds)) (concat (map innLines ds)) (concat (map leafLines ds)).
Proof.
  intros Hds.
  assert (∀ ls, foldl classifyLine ls (concat (map nodeLines ds)) =
    mkLines (relationships ls ++ concat (map relLines ds)) (innerNodes ls ++ concat (map innLines ds))
      (leafNodes ls ++ concat (map leafLines ds))) as H.
  { induction Hds as [|d ds Hd _ IH]; intros ls; cbn [map concat].
    - rewrite !app_nil_r. by destruct ls.
    - rewrite foldl_app, classify_node, IH by done. cbn [relationships innerNodes leafNodes].
      by rewrite <- !app_assoc. }
  unfold dump. rewrite !foldl_app.
  change (foldl classifyLine (mkLines [] [] []) [txt "digraph {"; txt "    graph [ rankdir=TB ]"; []])
    with (mkLines [] [] []).
  rewrite H. done.
Qed.

(** ** Writing the array *)
Definition put (t : tree) (w : Z * Node) : tree := <[Z.to_nat w.1 := Some w.2]> t.

Lemma length_put t w : length (put t w) = length t.
Proof. apply length_insert. Qed.

Lemma length_puts t ws : length (foldl put t ws) = length t.
Proof. revert t; induction ws as [|w ws IH]; intros t; [done|]. simpl. by rewrite IH, length_put. Qed.

Lemma nodeAt_put_eq t i n : 0 ≤ i < Z.of_nat (length t) → nodeAt (put t (i, n)) i = Ok n.
Proof.
  intros Hi. unfold nodeAt, index, put. destruct (Z.ltb_spec i 0); [lia|].
  rewrite list_lookup_insert_eq by (simpl; lia). done.
Qed.

Lemma nodeAt_put_ne t w i : i ≠ w.1 → 0 ≤ w.1 → nodeAt (put t w) i = nodeAt t i.
Proof.
  intros Hi Hw. unfold nodeAt, index, put. destruct (Z.ltb_spec i 0); [done|].
  rewrite list_lookup_insert_ne by lia. done.
Qed.

Lemma writeNode_put i n t :
  0 ≤ i < Z.of_nat (length t) → writeNode i n t = Ok (put t (i, n)).
Proof.
  intros Hi. unfold writeNode. destruct ((0 <=? i) && (i <? Z.of_nat (length t))) eqn:E; [done | lia].
Qed.

Lemma nodeAt_puts_other t ws i :
  Forall (λ w, 0 ≤ w.1) ws → i ∉ map fst ws → nodeAt (foldl put t ws) i = nodeAt t i.
Proof.
  intros Hws. revert t; induction Hws as [|w ws Hw _ IH]; intros t Hi; [done|].
  cbn [map] in Hi. apply not_elem_of_cons in Hi as [Hi Hi']. simpl.
  by rewrite IH, nodeAt_put_ne.
Qed.

Lemma nodeAt_puts t ws i n :
  Forall (λ w, 0 ≤ w.1 < Z.of_nat (length t)) ws → NoDup (map fst ws) → (i, n) ∈ ws →
  nodeAt (foldl put t ws) i = Ok n.
Proof.
  intros Hws. revert t Hws; induction ws as [|w ws IH]; intros t Hws Hnd Hin; [set_solver|].
  apply Forall_cons in Hws as [Hw Hws]. cbn [map] in Hnd. apply NoDup_cons in Hnd as [Hni Hnd]. simpl.
  apply elem_of_cons in Hin as [<-|Hin].
  - rewrite nodeAt_puts_other; [by apply nodeAt_put_eq | | done].
    eapply Forall_impl; [exact Hws | naive_solver].
  - apply IH; [by rewrite length_put | done | done].
Qed.

(** The writes of the three passes. *)
Definition rawOf (d : dnode) : list (Z * Node) :=
  match d with
  | DInner id feature threshold _ _ _ =>
      [(nval id, mkNode (f64_to_f32 (dval threshold)) (nval feature) (-1) (-1) false false)]
  | DLeaf _ _ => []
  end.
Definition innerOf (d : dnode) : list (Z * Node) :=
  match d with DInner id _ _ _ _ _ => [(nval id, nodeOf d)] | DLeaf _ _ => [] end.
Definition leafOf (d : dnode) : list (Z * Node) :=
  match d with DInner _ _ _ _ _ _ => [] | DLeaf id _ => [(nval id, nodeOf d)] end.

Definition ids (ds : list dnode) : list Z := map (λ d, nval (idOf d)) ds.

Lemma inner_pass ds t :
  Forall dnode_ok ds → length t = MAX_NUM_NODES_PER_TREE →
  foldM_o processInnerNode (concat (map innLines ds)) t = Ok (foldl put t (concat (map rawOf ds))).
Proof.
  intros Hds. revert t; induction Hds as [|d ds Hd _ IH]; intros t Ht; [done|].
  destruct d as [id f thr yes no ml|id leaf]; [|by apply IH].
  destruct Hd as ((Hid & Hsi & Hpos) & Hmax & (Hf & Hsf & _) & (Hth & Hst) & _). simpl in *.
  rewrite (inner_process _ _ _ Hid Hf Hth _ _ _ _ Hsi Hsf Hst), writeNode_put by lia.
  cbn [mbind outcome_bind]. apply IH. by rewrite length_put.
Qed.

Lemma leaf_pass ds t :
  Forall dnode_ok ds → length t = MAX_NUM_NODES_PER_TREE →
  foldM_o processLeafNode (concat (map leafLines ds)) t = Ok (foldl put t (concat (map leafOf ds))).
Proof.
  intros Hds. revert t; induction Hds as [|d ds Hd _ IH]; intros t Ht; [done|].
  destruct d as [id f thr yes no ml|id leaf]; [by apply IH|].
  destruct Hd as ((Hid & Hsi & Hpos) & Hmax & (Hl & _ & v & Hsl)). simpl in *. unfold readLeaf in *.
  rewrite (leaf_process _ _ Hid Hl _ _ _ Hsi Hsl), writeNode_put by lia.
  cbn [mbind outcome_bind]. rewrite Hsl. apply IH. by rewrite length_put.
Qed.

(** The two edges of an inner node complete it. *)
Lemma edge_step id c label color t r :
  numeral_ok id → numeral_ok c → label ∈ edgeLabels → color ∈ edgeColors →
  addEdge t (nval id, nval c, bool_decide (label = txt "yes, missing")) = r →
  processRelationship t (edgeLine (ntext id) (ntext c) label color) = r.
Proof.
  intros (Hid & Hsi & _) (Hc & Hsc & _) Hl Hk <-. unfold processRelationship.
  by rewrite (edge_parse _ _ Hid Hc _ _ _ _ Hl Hk Hsi Hsc).
Qed.

Lemma edges_complete id f thr yes no ml t :
  let d := DInner id f thr yes no ml in
  dnode_ok d → length t = MAX_NUM_NODES_PER_TREE →
  nodeAt t (nval id) = Ok (mkNode (f64_to_f32 (dval thr)) (nval f) (-1) (-1) false false) →
  foldM_o processRelationship (relLines d) t = Ok (put t (nval id, nodeOf d)).
Proof.
  intros d (Hid & Hmax & _ & _ & Hy & Hn) Ht Hat. cbn [idOf d] in Hid, Hmax.
  pose proof Hid as (_ & _ & Hpos). pose proof Hy as (_ & _ & Hypos).
  assert (0 ≤ nval id < Z.of_nat (length t)) as Hr by lia.
  assert (∀ n m, writeNode (nval id) n (put t (nval id, m)) = Ok (put t (nval id, n))) as Hw.
  { intros n m. rewrite writeNode_put by (by rewrite length_put). unfold put. cbn [fst snd].
    by rewrite list_insert_insert_eq. }
  cbn [relLines d]. unfold edgeLines. destruct ml; cbn [foldM_o];
    (erewrite (edge_step _ yes);
      [|done|done|closed|closed|unfold addEdge; rewrite Hat; cbn; by apply writeNode_put]);
    cbn [mbind outcome_bind];
    (rewrite (edge_step id no _ _ _ (Ok (put t (nval id, nodeOf d))));
      [done|done|done|closed|closed|unfold addEdge; rewrite nodeAt_put_eq by done; cbn;
        destruct (nval yes); [by apply Hw..|lia]]).
Qed.

Lemma edge_pass ds t :
  Forall dnode_ok ds → NoDup (ids ds) → length t = MAX_NUM_NODES_PER_TREE →
  (∀ i n, (i, n) ∈ concat (map rawOf ds) → nodeAt t i = Ok n) →
  foldM_o processRelationship (concat (map relLines ds)) t = Ok (foldl put t (concat (map innerOf ds))).
Proof.
  intros Hds. revert t; induction Hds as [|d ds Hd Hds IH]; intros t Hnd Ht Hraw; [done|].
  cbn [ids map] in Hnd. apply NoDup_cons in Hnd as [Hni Hnd].
  destruct d as [id f thr yes no ml|id leaf]; [|by apply IH].
  cbn [map concat]. rewrite foldM_o_app, edges_complete; [|done|done|by apply Hraw, elem_of_app; left; apply list_elem_of_singleton].
  cbn [mbind outcome_bind innerOf app foldl]. apply IH; [done | by rewrite length_put |].
  intros i n Hin. rewrite nodeAt_put_ne; [by apply Hraw, elem_of_app; right | | apply Hd].
  intros ->. apply Hni. apply elem_of_concat_map in Hin as (d & Hd' & Hin).
  destruct d as [id' f' thr' yes' no' ml'|id' leaf']; [|set_solver].
  apply list_elem_of_singleton in Hin. apply list_elem_of_fmap.
  eexists. split; [|exact Hd']. simpl in *. by injection Hin.
Qed.

Lemma nodeAt_empty i : nodeAt emptyTree i = Undefined.
Proof.
  unfold nodeAt, index, emptyTree. destruct (i <? 0); [done|].
  destruct (_ !! _) as [x|] eqn:E; [|done]. apply lookup_replicate in E as [-> _]. done.
Qed.

(** The writes of a pass are to distinct cells of the array. *)
Definition sameNode (f : dnode → list (Z * Node)) : Prop := ∀ d i n, (i, n) ∈ f d → i = nval (idOf d).

Lemma writes_distinct f ds :
  sameNode f → (∀ d, (length (f d) ≤ 1)%nat) → NoDup (ids ds) → NoDup (map fst (concat (map f ds))).
Proof.
  intros Hs Hlen. induction ds as [|d ds IH]; intros Hnd; [by constructor|].
  cbn [ids map] in Hnd. apply NoDup_cons in Hnd as [Hni Hnd]. cbn [map concat].
  rewrite map_app. apply NoDup_app. split_and!; [ | |by apply IH].
  - specialize (Hlen d). destruct (f d) as [|w [|]]; simpl in *; [constructor | apply NoDup_singleton | lia].
  - intros i Hi Hi'. apply list_elem_of_fmap in Hi as ([j n] & -> & Hj).
    apply list_elem_of_fmap in Hi' as ([j' n'] & Heq & Hj'). cbn [fst] in *. subst j'.
    apply elem_of_concat_map in Hj' as (d' & Hd' & Hj'). apply Hs in Hj, Hj'. apply Hni.
    apply list_elem_of_fmap. exists d'. split; [congruence | done].
Qed.

Lemma writes_bounds f ds (P : Z → Prop) :
  sameNode f → Forall (λ d, P (nval (idOf d))) ds → Forall (λ w, P w.1) (concat (map f ds)).
Proof.
  intros Hs Hds. apply Forall_forall. intros [i n] Hin. apply elem_of_concat_map in Hin as (d & Hd & Hin).
  apply Hs in Hin as ->. rewrite Forall_forall in Hds. by apply Hds.
Qed.

Lemma rawOf_same : sameNode rawOf.
Proof. intros [id f thr yes no ml|id leaf] i n Hin; set_solver. Qed.
Lemma innerOf_same : sameNode innerOf.
Proof. intros [id f thr yes no ml|id leaf] i n Hin; set_solver. Qed.
Lemma leafOf_same : sameNode leafOf.
Proof. intros [id f thr yes no ml|id leaf] i n Hin; set_solver. Qed.

Lemma one_write d : (length (rawOf d) ≤ 1 ∧ length (innerOf d) ≤ 1 ∧ length (leafOf d) ≤ 1)%nat.
Proof. destruct d; simpl; lia. Qed.

(** A cell that belongs to no node of a pass. *)
Lemma not_written f ds i :
  sameNode f → (∀ d, d ∈ ds → i = nval (idOf d) → f d = []) → i ∉ map fst (concat (map f ds)).
Proof.
  intros Hs Hd Hi. apply list_elem_of_fmap in Hi as ([j n] & -> & Hj).
  apply elem_of_concat_map in Hj as (d & Hin & Hj). pose proof (Hs _ _ _ Hj) as E.
  rewrite (Hd d Hin E) in Hj. set_solver.
Qed.

Section Dump.
Context (ds : list dnode) (Hok : Forall dnode_ok ds) (Hnd : NoDup (ids ds)).

Lemma ids_bounds : Forall (λ d, 0 ≤ nval (idOf d) < Z.of_nat MAX_NUM_NODES_PER_TREE) ds.
Proof. eapply Forall_impl; [exact Hok|]. intros d ((_ & _ & Hp) & Hm & _). lia. Qed.

Lemma writes_inArray f :
  sameNode f → Forall (λ w, 0 ≤ w.1 < Z.of_nat MAX_NUM_NODES_PER_TREE) (concat (map f ds)).
Proof. intros Hs. apply (writes_bounds f ds (λ i, 0 ≤ i < Z.of_nat MAX_NUM_NODES_PER_TREE) Hs), ids_bounds. Qed.

Lemma writes_nonneg f : sameNode f → Forall (λ w, 0 ≤ w.1) (concat (map f ds)).
Proof. intros Hs. eapply Forall_impl; [by apply writes_inArray | naive_solver]. Qed.

Lemma same_id d d' : d ∈ ds → d' ∈ ds → nval (idOf d) = nval (idOf d') → d = d'.
Proof.
  intros [i Hi]%list_elem_of_lookup_1 [j Hj]%list_elem_of_lookup_1 E.
  assert (i = j) as ->; [|congruence].
  eapply (NoDup_lookup (ids ds)); [done| |]; unfold ids; rewrite list_lookup_fmap.
  - by rewrite Hi.
  - rewrite Hj. simpl. by rewrite E.
Qed.

Definition dumpTree : tree :=
  foldl put (foldl put (foldl put emptyTree (concat (map rawOf ds))) (concat (map leafOf ds)))
    (concat (map innerOf ds)).

Lemma constructTree_dumpTree : constructTree (dump ds) = Ok dumpTree.
Proof.
  unfold constructTree. rewrite classify_dump by done. cbn [relationships innerNodes leafNodes].
  rewrite inner_pass by done. cbn [mbind outcome_bind].
  rewrite leaf_pass by (rewrite ?length_puts; done). cbn [mbind outcome_bind].
  apply edge_pass; [done | done | by rewrite !length_puts |].
  intros i n Hin. rewrite nodeAt_puts_other.
  - apply nodeAt_puts; [|apply writes_distinct; [apply rawOf_same | apply one_write | done] | done].
    apply writes_inArray, rawOf_same.
  - apply writes_nonneg, leafOf_same.
  - apply not_written; [apply leafOf_same|]. intros d Hd ->.
    apply elem_of_concat_map in Hin as (d' & Hd' & Hin). pose proof (rawOf_same _ _ _ Hin) as E.
    rewrite (same_id d d' Hd Hd' E). destruct d'; [done | set_solver].
Qed.

Lemma nodeAt_dumpTree d : d ∈ ds → nodeAt dumpTree (nval (idOf d)) = Ok (nodeOf d).
Proof.
  intros Hd. unfold dumpTree. destruct d as [id f thr yes no ml|id leaf] eqn:E.
  - apply nodeAt_puts; [|apply writes_distinct; [apply innerOf_same | apply one_write | done]|].
    + rewrite !length_puts. apply writes_inArray, innerOf_same.
    + apply elem_of_concat_map. eexists. split; [exact Hd | by left].
  - rewrite nodeAt_puts_other.
    + apply nodeAt_puts; [|apply writes_distinct; [apply leafOf_same | apply one_write | done]|].
      * rewrite !length_puts. apply writes_inArray, leafOf_same.
      * apply elem_of_concat_map. eexists. split; [exact Hd | by left].
    + apply writes_nonneg, innerOf_same.
    + apply not_written; [apply innerOf_same|]. intros d' Hd' Ei. by rewrite <- (same_id _ _ Hd Hd' Ei).
Qed.

Lemma nodeAt_dumpTree_other i : i ∉ ids ds → nodeAt dumpTree i = Undefined.
Proof.
  intros Hi. assert (∀ f t, sameNode f → nodeAt (foldl put t (concat (map f ds))) i = nodeAt t i) as H.
  { intros f t Hs. apply nodeAt_puts_other.
    - apply writes_nonneg, Hs.
    - apply not_written; [done|]. intros d Hd ->. exfalso. apply Hi. apply list_elem_of_fmap. by exists d. }
  unfold dumpTree. rewrite (H innerOf), (H leafOf), (H rawOf), nodeAt_empty;
    auto using innerOf_same, leafOf_same, rawOf_same.
Qed.
End Dump.

(** ** Dumps of decision trees *)

(** The tree a dump describes from a node on, with its leaves as they are
    written. *)
Inductive describes (numFeatures : nat) (ds : list dnode) : Z → DTree number → Prop :=
| describes_leaf id leaf :
    DLeaf id leaf ∈ ds → describes numFeatures ds (nval id) (Leaf leaf)
| describes_inner id f thr yes no ml l r :
    DInner id f thr yes no ml ∈ ds → nval f < Z.of_nat numFeatures →
    describes numFeatures ds (nval yes) l → describes numFeatures ds (nval no) r →
    describes numFeatures ds (nval id) (Inner (nval f) (f64_to_f32 (dval thr)) ml l r).

Fixpoint mapTree {A B} (g : A → B) (T : DTree A) : DTree B :=
  match T with Leaf v => Leaf (g v) | Inner f thr ml l r => Inner f thr ml (mapTree g l) (mapTree g r) end.

Lemma evalTree_map {A B} (g : A → B) missing row T : evalTree missing row (mapTree g T) = g (evalTree missing row T).
Proof. induction T as [v|f thr ml l IHl r IHr]; [done|]. cbn [mapTree evalTree]. rewrite IHl, IHr. by destruct (if missing && _ then _ else _). Qed.

Lemma describes_reached numFeatures ds i T missing row :
  describes numFeatures ds i T → ∃ id, DLeaf id (evalTree missing row T) ∈ ds.
Proof. induction 1 as [id leaf Hd|id f thr yes no ml l r _ _ _ IHl _ IHr]; cbn [evalTree]; [eauto|]. by destruct (if missing && _ then _ else _). Qed.

(** Nodes are numbered from the root on, children after their parents, and no
    child is missing. *)
Record dump_wf (numFeatures : nat) (ds : list dnode) : Prop := {
  dw_ok : Forall dnode_ok ds;
  dw_ids : NoDup (ids ds);
  dw_root : 0 ∈ ids ds;
  dw_inner : ∀ id f thr yes no ml, DInner id f thr yes no ml ∈ ds →
    nval f < Z.of_nat numFeatures ∧
    nval id < nval yes ∧ nval yes ∈ ids ds ∧ nval id < nval no ∧ nval no ∈ ids ds
}.

Lemma nodeAt_written ds i n :
  Forall dnode_ok ds → NoDup (ids ds) → nodeAt (dumpTree ds) i = Ok n →
  ∃ d, d ∈ ds ∧ i = nval (idOf d) ∧ n = nodeOf d.
Proof.
  intros Hok Hnd Hn. destruct (decide (i ∈ ids ds)) as [Hi|Hi].
  - apply list_elem_of_fmap in Hi as (d & -> & Hd). exists d. rewrite nodeAt_dumpTree in Hn by done.
    by simplify_eq.
  - by rewrite nodeAt_dumpTree_other in Hn.
Qed.

Lemma nodeAt_ids ds i :
  Forall dnode_ok ds → NoDup (ids ds) → i ∈ ids ds → ∃ n, nodeAt (dumpTree ds) i = Ok n.
Proof.
  intros Hok Hnd Hi. apply list_elem_of_fmap in Hi as (d & -> & Hd). exists (nodeOf d).
  by apply nodeAt_dumpTree.
Qed.

Lemma dumpTree_wf numFeatures ds : dump_wf numFeatures ds → tree_wf numFeatures (dumpTree ds).
Proof.
  intros [Hok Hnd Hroot Hin]. split; [by apply nodeAt_ids|].
  intros i n Hn Hl. destruct (nodeAt_written _ _ _ Hok Hnd Hn) as (d & Hd & -> & ->).
  destruct d as [id f thr yes no ml|id leaf]; [|done].
  destruct (Hin _ _ _ _ _ _ Hd) as (Hf & Hy & Hy' & Ho & Ho'). cbn [nodeOf indexID leftChild rightChild idOf].
  destruct (proj1 (Forall_forall _ _) Hok _ Hd) as (_ & _ & (_ & _ & Hfp) & _).
  split_and!; [done | done | done | by apply nodeAt_ids | done | by apply nodeAt_ids].
Qed.

Lemma describes_layout numFeatures ds i T :
  Forall dnode_ok ds → NoDup (ids ds) → describes numFeatures ds i T → layout numFeatures (dumpTree ds) i (mapTree readLeaf T).
Proof.
  intros Hok Hnd. induction 1 as [id leaf Hd|id f thr yes no ml l r Hd Hf _ IHl _ IHr].
  - apply (layout_leaf _ _ _ (nodeOf (DLeaf id leaf))); [|done]. by apply (nodeAt_dumpTree _ Hok Hnd _ Hd).
  - apply (layout_inner _ _ _ (nodeOf (DInner id f thr yes no ml))); [|done| |done|done].
    + by apply (nodeAt_dumpTree _ Hok Hnd _ Hd).
    + destruct (proj1 (Forall_forall _ _) Hok _ Hd) as (_ & _ & (_ & _ & Hfp) & _). done.
Qed.

Lemma layout_functional numFeatures t i T T' :
  layout numFeatures t i T → layout numFeatures t i T' → T = T'.
Proof.
  intros H. revert T'. induction H as [i n Hn Hl|i n l r Hn Hl Hi HLl IHl HLr IHr]; intros T' H';
    inversion H' as [? n' Hn'|? n' l' r' Hn']; subst; assert (n' = n) as -> by congruence;
    [done | congruence | congruence | f_equal; auto].
Qed.

(** ** Properties *)

(** Reading a dump back: for a dump in XGBoost's format whose node ids are
    distinct and fit the array, [constructTree] returns without an error or
    an access outside the array; every node of the dump is then found under
    its id with its feature, threshold, children and default branch (a leaf
    with its value cut as the parser cuts it), and no other cell was
    written. *)
Theorem constructTree_dump ds :
  Forall dnode_ok ds → NoDup (ids ds) →
  ∃ t, constructTree (dump ds) = Ok t ∧ length t = MAX_NUM_NODES_PER_TREE ∧
    (∀ d, d ∈ ds → nodeAt t (nval (idOf d)) = Ok (nodeOf d)) ∧
    (∀ i, i ∉ ids ds → nodeAt t i = Undefined).
Proof.
  intros Hok Hnd. exists (dumpTree ds). split_and!.
  - by apply constructTree_dumpTree.
  - unfold dumpTree. by rewrite !length_puts.
  - intros d Hd. by apply nodeAt_dumpTree.
  - intros i Hi. by apply nodeAt_dumpTree_other.
Qed.


(** ** Witnesses *)
Definition num (s : string) : numeral :=
  mkNumeral (txt s) (match stoi (txt s) with Ok z => z | _ => 0 end).
Definition thr (s : string) : number :=
  mkNumber (txt s) (match stod (txt s) with Ok x => x | _ => f32_zero end).

Definition sample_nodes : list dnode :=
  [DInner (num "0") (num "13") (thr "-1.78858411") (num "1") (num "2") false;
   DLeaf (num "1") (thr "-0.160000011"); DLeaf (num "2") (thr "0.199803725")].

Lemma sample_nodes_ok : Forall dnode_ok sample_nodes.
Proof.
  repeat apply Forall_cons_2; [| | |apply Forall_nil_2];
    (split; [|split; [vm_compute; reflexivity|]]);
    repeat match goal with
    | |- numeral_ok _ => split; [|split]
    | |- threshold_ok _ => split
    | |- leaf_ok _ => split; [|split]
    | |- ∃ v, stod _ = Ok v => eexists
    | |- _ ∧ _ => split
    end;
    first [ vm_compute; reflexivity | vm_compute; lia
          | apply Forall_forall; intros c Hc; apply list_elem_of_In in Hc; vm_compute in Hc; intuition (subst; reflexivity)
          | vm_compute; discriminate ].
Qed.

Lemma constructTree_dump_witness :
  ∃ t, constructTree (dump sample_nodes) = Ok t ∧ nodeAt t 3 = Undefined ∧
    nodeAt t 0 = Ok (mkNode (f64_to_f32 (dval (thr "-1.78858411"))) 13 1 2 false false).
Proof.
  destruct (constructTree_dump sample_nodes sample_nodes_ok) as (t & Ht & _ & Hd & Ho); [closed|].
  exists t. split; [exact Ht|]. split; [apply Ho; closed|].
  apply (Hd (DInner (num "0") (num "13") (thr "-1.78858411") (num "1") (num "2") false)).
  apply list_elem_of_here.
Defined.

Lemma sample_dump_wf : dump_wf 14 sample_nodes.
Proof.
  split; [apply sample_nodes_ok | closed | closed |].
  intros id f t yes no ml Hin.
  apply elem_of_cons in Hin as [Hin|Hin]; [|apply elem_of_cons in Hin as [Hin|Hin]; [done|set_solver]].
  injection Hin as -> -> -> -> -> ->. split_and!; try (vm_compute; reflexivity); closed.
Qed.


(** ** What dropping the characters does *)

(** A leaf of -0.160000011 is read as -0.160000, another [float]; a leaf of
    -1.5e-05 is read as -1.5; a leaf of 0.5 is no number any more; a leaf of
    -1 is read in full. *)
Theorem leaf_values_changed :
  readLeaf (thr "-0.160000011") ≠ writtenLeaf (thr "-0.160000011") ∧
  readLeaf (thr "-1.5e-05") = writtenLeaf (thr "-1.5") ∧
  stod (leafText (txt "0.5")) = Throw invalid_argument ∧
  readLeaf (thr "-1") = writtenLeaf (thr "-1").
Proof. split_and!; vm_compute; (reflexivity || discriminate). Qed.
