(* ===== verification/MLVector.v ===== *)
(** * Vectors and batches of rows

    What the functions of [velox/ml_functions] use of [velox/vector]: the set
    of selected rows, arrays as offsets, sizes and elements, inputs behind a
    dictionary or a constant, and the steps that these functions share: find
    the distinct rows of the input, gather them in a matrix, and write the
    rows of the result matrix to the output.

    Row numbers, offsets and sizes are non-negative; an element that was never
    written is [None].  Reading past the end of a buffer, or an element that
    was never written, is undefined.  The output vector is referenced once, as
    it is during the evaluation of an expression. *)
From S2P Require Import Prelude.
Local Open Scope nat_scope.
Local Open Scope list_scope.

(** ** Selected rows *)
Definition SelectivityVector := list bool.

Definition isValid (rows : SelectivityVector) (row : nat) : bool := default false (rows !! row).
Definition selected (rows : SelectivityVector) : list nat := filter (λ row, isValid rows row = true) (seq 0 (length rows)).
Definition countSelected (rows : SelectivityVector) : nat := length (selected rows).

(** [rows.end()]: one past the last selected row. *)
Definition end_ (rows : SelectivityVector) : nat := match last (selected rows) with Some row => S row | None => 0 end.

Definition applyToSelected {S} (f : S → nat → outcome S) (rows : SelectivityVector) (s : S) : outcome S := foldM_o f (selected rows) s.

(** ** Buffers *)
Definition readAt {A} (l : list A) (i : nat) : outcome A := match l !! i with Some x => Ok x | None => Undefined end.
Definition storeAt {A} (l : list A) (i : nat) (x : A) : outcome (list A) := if i <? length l then Ok (<[i := x]> l) else Undefined.

Definition initialised {A} (o : option A) : outcome A := match o with Some x => Ok x | None => Undefined end.
Definition readSlice {A} (l : list (option A)) (start n : nat) : outcome (list A) :=
  if start + n <=? length l then mapM_o initialised (take n (drop start l)) else Undefined.
Definition memcpy {A} (l : list (option A)) (start : nat) (xs : list A) : outcome (list (option A)) :=
  if start + length xs <=? length l then Ok (take start l ++ map Some xs ++ drop (start + length xs) l) else Undefined.

(** ** Arrays *)
Record ArrayVector (A : Type) := mkArrayVector { rawOffsets : list nat; rawSizes : list nat; elements : list (option A) }.
Arguments mkArrayVector {_} _ _ _.
Arguments rawOffsets {_} _.
Arguments rawSizes {_} _.
Arguments elements {_} _.
#[global] Instance ArrayVector_copyable {A} : Copyable (ArrayVector A) := λ v, mkArrayVector (rawOffsets v) (rawSizes v) (elements v).

(** The array of a row. *)
Definition arrayAt {A} (v : ArrayVector A) (row : nat) : outcome (list A) :=
  offset ← readAt (rawOffsets v) row; size ← readAt (rawSizes v) row; readSlice (elements v) offset size.

(** [VectorMaker::arrayVector]: one array after the other. *)
Fixpoint offsetsFrom (start : nat) (sizes : list nat) : list nat :=
  match sizes with [] => [] | n :: sizes => start :: offsetsFrom (start + n) sizes end.
Definition arrayVector {A} (data : list (list A)) : ArrayVector A :=
  mkArrayVector (offsetsFrom 0 (map length data)) (map length data) (map Some (concat data)).

(** ** Decoded inputs: the rows of a base vector behind a mapping *)
Inductive Mapping := Identity | Constant (constantIndex : nat) | Dictionary (indices : list nat).

Definition index (m : Mapping) (row : nat) : outcome nat :=
  match m with Identity => Ok row | Constant c => Ok c | Dictionary indices => readAt indices row end.

(** ** Outputs *)
Definition resizeIndices (indices : list nat) (newSize : nat) : list nat := indices ++ replicate (newSize - length indices) 0.

(** [ensureWritable] and [mutableSizes], [mutableOffsets]; no vector is an
    empty one. *)
Definition ensureWritable {A} (rows : SelectivityVector) (output : option (ArrayVector A)) : ArrayVector A :=
  match output with
  | None => mkArrayVector (replicate (end_ rows) 0) (replicate (end_ rows) 0) []
  | Some v => v <| rawOffsets := resizeIndices (rawOffsets v) (end_ rows) |> <| rawSizes := resizeIndices (rawSizes v) (end_ rows) |>
  end.

Definition fillZero (l : list nat) (n : nat) : list nat := replicate n 0 ++ drop n l.

(** The common beginning: a writable output whose rows are cleared. *)
Definition prepareOutput {A} (rows : SelectivityVector) (output : option (ArrayVector A)) : ArrayVector A :=
  let v := ensureWritable rows output in
  v <| rawSizes := fillZero (rawSizes v) (end_ rows) |> <| rawOffsets := fillZero (rawOffsets v) (end_ rows) |>.

(** [elementsOutput->resize(baseOffset + rows.end() * cols)]; the arithmetic is
    that of [int]. *)
Definition growElements {A} (rows : SelectivityVector) (cols : nat) (v : ArrayVector A) : outcome (ArrayVector A) :=
  let baseOffset := length (elements v) in
  _ ← checked32 (Z.of_nat (baseOffset + end_ rows * cols));
  Ok (v <| elements := elements v ++ replicate (end_ rows * cols) None |>).

(** ** Distinct rows *)

(** [rowMap] from a row to its place in the matrix, and the base rows in the
    order of their first use. *)
Definition rowState := (gmap nat nat * list nat)%type.

(** [rowMap[k]] of a missing key creates it with value zero. *)
Definition collectRow (m : Mapping) (st : rowState) (row : nat) : outcome rowState :=
  let '(rowMap, unique) := st in
  mappedIndexInRowData ← index m row;
  if bool_decide (mappedIndexInRowData ∈ unique) then
    let place := default 0 (rowMap !! mappedIndexInRowData) in
    Ok (<[row := place]> (<[mappedIndexInRowData := place]> rowMap), unique)
  else Ok (<[row := length unique]> rowMap, unique ++ [mappedIndexInRowData]).

Definition collectRows (m : Mapping) (rows : SelectivityVector) : outcome rowState := applyToSelected (collectRow m) rows (∅, []).

(** [cols] values from the offset of a base row. *)
Definition gatherRow {A} (base : ArrayVector A) (cols : nat) (rawIndex : nat) : outcome (list A) :=
  offset ← readAt (rawOffsets base) rawIndex; readSlice (elements base) offset cols.

Definition gatherMatrix {A} (base : ArrayVector A) (cols : nat) (unique : list nat) : outcome (list (list A)) :=
  mapM_o (gatherRow base cols) unique.

(** Writing one row of the result; the next one goes [step] further. *)
Definition scatterRow {A} (cols step : nat) (rowMap : gmap nat nat) (result : list (list A)) (st : nat * ArrayVector A) (row : nat)
    : outcome (nat * ArrayVector A) :=
  let '(outputOffset, v) := st in
  match rowMap !! row with
  | None => Throw (RuntimeError "Mapped index not found for the result matrix.")
  | Some place =>
      offsets ← storeAt (rawOffsets v) row outputOffset;
      sizes ← storeAt (rawSizes v) row cols;
      xs ← readAt result place;
      els ← memcpy (elements v) outputOffset xs;
      Ok (outputOffset + step, mkArrayVector offsets sizes els)
  end.

Definition scatterRows {A} (rows : SelectivityVector) (cols start step : nat) (rowMap : gmap nat nat) (result : list (list A)) (v : ArrayVector A)
    : outcome (ArrayVector A) :=
  st ← applyToSelected (scatterRow cols step rowMap result) rows (start, v); Ok st.2.
