(* ===== verification/MLFunctions.v ===== *)
(** * Functions on batches of rows

    Models the functions of [velox/ml_functions] that queries call on columns
    of arrays: the layers [mat_mul], [mat_mul_s], [mat_add], [relu],
    [sigmoid], [softmax], [argmax], [min_max_scaler], [batch_norm_1d],
    [sequence_pooling], [embedding] and [concat], each as the whole of its
    [apply].  A layer is a record of its members; the product of matrices, the
    reductions of Eigen and the elementary functions of the C library are
    parameters. *)
From Stdlib Require Import SpecFloat Ascii String.
From S2P Require Import Prelude CFloat MLVector.
Local Open Scope nat_scope.
Local Open Scope list_scope.

Abbreviation float := spec_float.
Abbreviation Matrix := (list (list float)).

Definition f32_sub : float → float → float := SFsub 24 128.
Definition f32_div : float → float → float := SFdiv 24 128.
Definition f32_one : float := f32_of_Z 1.

(** ** Products *)
Section Products.
(** [inputMatrix * weightMatrix], dense, and for a sparse left operand of given
    size and entries. *)
Context (product : Matrix → Matrix → Matrix).
Context (sparseProduct : nat → nat → list (nat * nat * float) → Matrix → Matrix).

Record MatrixMultiply := mkMatrixMultiply { mm_weights : Matrix; mm_dims0 : nat; mm_dims1 : nat }.

Definition gpu_error : exn := RuntimeError "GPU implementation of Matrix Multiple is not implemented.".

Definition MatrixMultiply_apply (f : MatrixMultiply) (use_gpu : bool) (rows : SelectivityVector) (m : Mapping) (input : ArrayVector float)
    (output : option (ArrayVector float)) : outcome (ArrayVector float) :=
  if use_gpu then Throw gpu_error
  else
    let v := prepareOutput rows output in
    st ← collectRows m rows;
    let '(rowMap, unique) := st in
    inputMatrix ← gatherMatrix input (mm_dims0 f) unique;
    let resultMatrix := product inputMatrix (mm_weights f) in
    let baseOffset := length (elements v) in
    v' ← growElements rows (mm_dims1 f) v;
    scatterRows rows (mm_dims1 f) baseOffset (mm_dims1 f) rowMap resultMatrix v'.

(** The entries of one row that are not zero. *)
Definition rowTriplets (rowIndex : nat) (xs : list float) : list (nat * nat * float) :=
  omap (λ '(col, val), if SFeqb val f32_zero then None else Some (rowIndex, col, val)) (imap pair xs).

(** The results are written from the first element on. *)
Definition SparseMatrixMultiply_apply (f : MatrixMultiply) (use_gpu : bool) (rows : SelectivityVector) (m : Mapping) (input : ArrayVector float)
    (output : option (ArrayVector float)) : outcome (ArrayVector float) :=
  if use_gpu then Throw gpu_error
  else
    let v := prepareOutput rows output in
    st ← collectRows m rows;
    let '(rowMap, unique) := st in
    inputMatrix ← gatherMatrix input (mm_dims0 f) unique;
    let inputTriplets := concat (imap rowTriplets inputMatrix) in
    let resultMatrix := sparseProduct (length unique) (mm_dims0 f) inputTriplets (mm_weights f) in
    v' ← growElements rows (mm_dims1 f) v;
    scatterRows rows (mm_dims1 f) 0 (mm_dims1 f) rowMap resultMatrix v'.
End Products.

(** ** Adding a vector to every row *)
Record MatrixVectorAddition := mkMatrixVectorAddition { mva_weights : list float; mva_dims0 : nat }.

Definition MatrixVectorAddition_apply (f : MatrixVectorAddition) (rows : SelectivityVector) (m : Mapping) (input : ArrayVector float)
    (output : option (ArrayVector float)) : outcome (ArrayVector float) :=
  let v := prepareOutput rows output in
  st ← collectRows m rows;
  let '(rowMap, unique) := st in
  inputMatrix ← gatherMatrix input (mva_dims0 f) unique;
  let sumMatrix := map (λ xs, zip_with f32_add xs (mva_weights f)) inputMatrix in
  let baseOffset := length (elements v) in
  v' ← growElements rows (mva_dims0 f) v;
  scatterRows rows (mva_dims0 f) baseOffset (mva_dims0 f) rowMap sumMatrix v'.

(** ** Functions of single values *)
Definition reluFunction (x : float) : float := if SFltb f32_zero x then x else f32_zero.

Definition mapRow (g : float → float) (m : Mapping) (input : ArrayVector float) (result : list (list float)) (i : nat) : outcome (list (list float)) :=
  mappedIndexInRowData ← index m i;
  dataSize ← readAt (rawSizes input) mappedIndexInRowData;
  dataOffset ← readAt (rawOffsets input) mappedIndexInRowData;
  xs ← readSlice (elements input) dataOffset dataSize;
  storeAt result i (map g xs).

Definition mapRows (g : float → float) (rows : SelectivityVector) (m : Mapping) (input : ArrayVector float) : outcome (ArrayVector float) :=
  result ← applyToSelected (mapRow g m input) rows (replicate (length rows) []);
  Ok (arrayVector result).

Definition Relu_apply (rows : SelectivityVector) (m : Mapping) (input : ArrayVector float) : outcome (ArrayVector float) :=
  mapRows reluFunction rows m input.

Section Exponential.
Context (exp : float → float).
Context (sum : list float → float).

Definition sigmoidFunction (x : float) : float := f32_div f32_one (f32_add f32_one (exp (SFopp x))).

Definition Sigmoid_apply (rows : SelectivityVector) (m : Mapping) (input : ArrayVector float) : outcome (ArrayVector float) :=
  mapRows sigmoidFunction rows m input.

(** [numCols] is the size of the last distinct row; it has no value when no
    row is selected. *)
Definition numColsOf (input : ArrayVector float) (unique : list nat) : outcome nat :=
  match last unique with None => Undefined | Some rawIndex => readAt (rawSizes input) rawIndex end.

Definition softmaxRow (xs : list float) : list float :=
  let es := map exp xs in map (λ e, f32_div e (sum es)) es.

Definition Softmax_apply (rows : SelectivityVector) (m : Mapping) (input : ArrayVector float) (output : option (ArrayVector float))
    : outcome (ArrayVector float) :=
  let v := prepareOutput rows output in
  st ← collectRows m rows;
  let '(rowMap, unique) := st in
  numCols ← numColsOf input unique;
  inputMatrix ← gatherMatrix input numCols unique;
  let resultMatrix := map softmaxRow inputMatrix in
  let baseOffset := length (elements v) in
  v' ← growElements rows numCols v;
  scatterRows rows numCols baseOffset numCols rowMap resultMatrix v'.
End Exponential.

(** ** The place of the largest value *)
Section Argmax.
(** The column [maxCoeff] reports for a row. *)
Context (maxCol : list float → nat).

Definition setLabel (rowMap : gmap nat nat) (argmaxMap : list nat) (output : list (option nat)) (row : nat) : outcome (list (option nat)) :=
  match rowMap !! row with
  | None => Throw (RuntimeError "Mapped index not found for the result matrix.")
  | Some place => storeAt output row (Some (default 0 (argmaxMap !! place)))
  end.

(** [output] is the flat vector after [ensureWritable]. *)
Definition Argmax_apply (rows : SelectivityVector) (m : Mapping) (input : ArrayVector float) (output : list (option nat)) : outcome (list (option nat)) :=
  st ← collectRows m rows;
  let '(rowMap, unique) := st in
  numCols ← numColsOf input unique;
  inputMatrix ← gatherMatrix input numCols unique;
  let argmaxMap := map maxCol inputMatrix in
  applyToSelected (setLabel rowMap argmaxMap) rows output.
End Argmax.

(** ** Scaling *)
Record MinMaxScaler := mkMinMaxScaler { scalerMinValues_ : list float; scalerMaxValues_ : list float; numCols_ : nat }.

Definition scaleRow (f : MinMaxScaler) (xs : list float) : list float :=
  let range := zip_with f32_sub (scalerMaxValues_ f) (scalerMinValues_ f) in
  zip_with f32_div (zip_with f32_sub xs (scalerMinValues_ f)) range.

Definition MinMaxScaler_apply (f : MinMaxScaler) (rows : SelectivityVector) (m : Mapping) (input : ArrayVector float)
    (output : option (ArrayVector float)) : outcome (ArrayVector float) :=
  let v := prepareOutput rows output in
  st ← collectRows m rows;
  let '(rowMap, unique) := st in
  inputMatrix ← gatherMatrix input (numCols_ f) unique;
  let resultMatrix := map (scaleRow f) inputMatrix in
  let baseOffset := length (elements v) in
  v' ← growElements rows (numCols_ f) v;
  scatterRows rows (numCols_ f) baseOffset (numCols_ f) rowMap resultMatrix v'.

(** ** Normalisation over the batch *)
Section BatchNorm.
Context (mean sum : list float → float) (sqrt : float → float).

Record BatchNorm1D := mkBatchNorm1D { bn_weights : list float; bn_bias : list float; eps_ : float; bn_dims0 : nat }.

Definition column (i : nat) (matrix : Matrix) : list float := map (λ xs, nth i xs f32_zero) matrix.

Definition normalise (f : BatchNorm1D) (matrix : Matrix) (i : nat) (x : float) : float :=
  let colData := column i matrix in
  let colMean := mean colData in
  let colVariance := f32_div (sum (map (λ y, let d := f32_sub y colMean in f32_mul d d) colData)) (f32_of_Z (Z.of_nat (length matrix) - 1)) in
  f32_add (f32_mul (f32_div (f32_sub x colMean) (sqrt (f32_add colVariance (eps_ f)))) (nth i (bn_weights f) f32_zero)) (nth i (bn_bias f) f32_zero).

(** The offset of the output does not move from row to row. *)
Definition BatchNorm1D_apply (f : BatchNorm1D) (rows : SelectivityVector) (m : Mapping) (input : ArrayVector float)
    (output : option (ArrayVector float)) : outcome (ArrayVector float) :=
  let v := prepareOutput rows output in
  st ← collectRows m rows;
  let '(rowMap, unique) := st in
  inputMatrix ← gatherMatrix input (bn_dims0 f) unique;
  let resultMatrix := map (imap (normalise f inputMatrix)) inputMatrix in
  let baseOffset := length (elements v) in
  v' ← growElements rows (bn_dims0 f) v;
  scatterRows rows (bn_dims0 f) baseOffset 0 rowMap resultMatrix v'.
End BatchNorm.

(** ** Pooling of several embeddings *)
Section Pooling.
(** Minimum, maximum and mean of the columns of a matrix. *)
Context (minCoeff maxCoeff colMean : Matrix → list float).

Inductive poolMode := MIN | MAX | MEAN.
Record SequencePooling := mkSequencePooling { mode_ : poolMode; embeddingDims_ : nat }.

(** The mode is compared in capitals. *)
Definition toupper (c : ascii) : ascii :=
  let n := nat_of_ascii c in if (97 <=? n) && (n <=? 122) then ascii_of_nat (n - 32) else c.

Definition newSequencePooling (mode : string) (embeddingDims : nat) : outcome SequencePooling :=
  let mode := string_of_list_ascii (map toupper (list_ascii_of_string mode)) in
  if bool_decide (mode = "MIN"%string) then Ok (mkSequencePooling MIN embeddingDims)
  else if bool_decide (mode = "MAX"%string) then Ok (mkSequencePooling MAX embeddingDims)
  else if bool_decide (mode = "MEAN"%string) then Ok (mkSequencePooling MEAN embeddingDims)
  else Throw (RuntimeError ("[Error]: The input mode: " ++ mode ++ " is not supported. Supported mode: MIN, MAX, MEAN")%string).

Definition reshape (rowsOf cols : nat) (xs : list float) : Matrix := map (λ i, take cols (drop (i * cols) xs)) (seq 0 rowsOf).

Definition poolRow (f : SequencePooling) (input : ArrayVector float) (rawIndex : nat) : outcome (list float) :=
  numEmbeddingValues ← readAt (rawSizes input) rawIndex;
  offset ← readAt (rawOffsets input) rawIndex;
  if embeddingDims_ f =? 0 then Undefined
  else
    let numEmbeddingToCombie := numEmbeddingValues / embeddingDims_ f in
    xs ← readSlice (elements input) offset (numEmbeddingToCombie * embeddingDims_ f);
    if numEmbeddingToCombie =? 1 then Ok xs
    else
      let varaidicEmbedding := reshape numEmbeddingToCombie (embeddingDims_ f) xs in
      Ok (match mode_ f with MIN => minCoeff varaidicEmbedding | MAX => maxCoeff varaidicEmbedding | MEAN => colMean varaidicEmbedding end).

Definition SequencePooling_apply (f : SequencePooling) (rows : SelectivityVector) (m : Mapping) (input : ArrayVector float)
    (output : option (ArrayVector float)) : outcome (ArrayVector float) :=
  let v := prepareOutput rows output in
  st ← collectRows m rows;
  let '(rowMap, unique) := st in
  resultMatix ← mapM_o (poolRow f input) unique;
  let baseOffset := length (elements v) in
  v' ← growElements rows (embeddingDims_ f) v;
  scatterRows rows (embeddingDims_ f) baseOffset (embeddingDims_ f) rowMap resultMatix v'.
End Pooling.

(** ** Embeddings *)
Record Embedding := mkEmbedding { em_weights : list float; em_dims0 : nat; em_dims1 : nat }.

Definition weightRow (f : Embedding) (embedIndex : Z) : outcome (list float) :=
  if (embedIndex >=? Z.of_nat (em_dims0 f))%Z then Throw (RuntimeError "[Embedding] Index out of bounds")
  else if (embedIndex <? 0)%Z then Undefined
  else readSlice (map Some (em_weights f)) (Z.to_nat embedIndex * em_dims1 f) (em_dims1 f).

(** The arrays of the base vector are read at the row, not at its index. *)
Definition embedRow (f : Embedding) (input : ArrayVector Z) (st : nat * ArrayVector float) (row : nat) : outcome (nat * ArrayVector float) :=
  let '(outputOffset, v) := st in
  numSubIndices ← readAt (rawSizes input) row;
  indicesOffset ← readAt (rawOffsets input) row;
  offsets ← storeAt (rawOffsets v) row outputOffset;
  sizes ← storeAt (rawSizes v) row (numSubIndices * em_dims1 f);
  st ← foldM_o (λ '(outputOffset, els) i,
         o ← readAt (elements input) (indicesOffset + i);
         embedIndex ← initialised o;
         xs ← weightRow f embedIndex;
         els' ← memcpy els outputOffset xs;
         Ok (outputOffset + em_dims1 f, els')) (seq 0 numSubIndices) (outputOffset, elements v);
  Ok (st.1, mkArrayVector offsets sizes st.2).

Definition Embedding_apply (f : Embedding) (rows : SelectivityVector) (m : Mapping) (input : ArrayVector Z) (output : option (ArrayVector float))
    : outcome (ArrayVector float) :=
  let v := prepareOutput rows output in
  numEmbeddingToRetireve ← applyToSelected (λ n row, size ← readAt (rawSizes input) row; Ok (n + size)) rows 0;
  let baseOffset := length (elements v) in
  _ ← checked32 (Z.of_nat (baseOffset + numEmbeddingToRetireve * em_dims1 f));
  let v' := v <| elements := elements v ++ replicate (numEmbeddingToRetireve * em_dims1 f) None |> in
  st ← applyToSelected (embedRow f input) rows (baseOffset, v');
  Ok st.2.

(** ** Concatenation of two arrays, by position *)
Definition Concat_apply (input1Dims_ input2Dims_ : nat) (rows : SelectivityVector) (input1 input2 : ArrayVector float) : outcome (ArrayVector float) :=
  results ← mapM_o (λ i,
    xs ← readSlice (elements input1) (i * input1Dims_) input1Dims_;
    ys ← readSlice (elements input2) (i * input2Dims_) input2Dims_;
    Ok (xs ++ ys)) (seq 0 (length rows));
  Ok (arrayVector results).
