(* ===== verification/MLCorrect.v ===== *)
(** * Batches of rows: correctness

    Gathering the distinct rows of an input and scattering the rows of a
    result matrix gives every selected row its own result, when the input is
    flat, constant, or a dictionary without repetitions. *)
From S2P Require Import Prelude CFloat MLVector MLFunctions.
Local Open Scope nat_scope.
Local Open Scope list_scope.

(** ** Loops *)
Lemma foldM_o_prefix {A S} (f : S → A → outcome S) (state : list A → S) l :
  (∀ l1 x l2, l = l1 ++ x :: l2 → f (state l1) x = Ok (state (l1 ++ [x]))) → foldM_o f l (state []) = Ok (state l).
Proof.
  intros H. assert (∀ l2 l1, l = l1 ++ l2 → foldM_o f l2 (state l1) = Ok (state l)) as G; [|by apply (G l [])].
  induction l2 as [|x l2 IH]; intros l1 E; cbn; [by rewrite E, app_nil_r|].
  rewrite (H l1 x l2 E). cbn. apply IH. by rewrite <- app_assoc.
Qed.

Lemma mapM_o_map {A B} (f : A → outcome B) (g : A → B) l : (∀ x, x ∈ l → f x = Ok (g x)) → mapM_o f l = Ok (map g l).
Proof. intros H. apply mapM_o_Ok, Forall2_fmap_r, Forall_Forall2_diag, Forall_forall, H. Qed.

(** ** Selected rows *)
Lemma selected_valid rows row : row ∈ selected rows ↔ isValid rows row = true.
Proof.
  unfold selected. rewrite list_elem_of_filter, elem_of_seq. split; [by intros []|]. intros H. split; [done|]. split; [lia|]. cbn.
  unfold isValid in H. destruct (rows !! row) eqn:E; [|done]. by eapply lookup_lt_Some.
Qed.

Lemma selected_NoDup rows : NoDup (selected rows).
Proof. apply NoDup_filter, NoDup_seq. Qed.

Lemma selected_sorted rows : StronglySorted lt (selected rows).
Proof.
  unfold selected. generalize 0. induction (length rows) as [|n IH]; intros s; [constructor|]. cbn [seq].
  rewrite filter_cons. destruct (decide _); [|apply IH]. constructor; [apply IH|]. apply Forall_forall. intros x Hx.
  apply list_elem_of_filter in Hx as [_ Hx%elem_of_seq]. lia.
Qed.

Lemma sorted_last l (x y : nat) : StronglySorted lt l → last l = Some y → x ∈ l → x ≤ y.
Proof.
  induction 1 as [|a l Hs IH Ha]; [done|]. intros Hl [->|Hx]%elem_of_cons.
  - destruct l; [cbn in Hl; naive_solver|]. rewrite last_cons_cons in Hl. apply last_Some_elem_of in Hl. rewrite Forall_forall in Ha. specialize (Ha y Hl). lia.
  - apply IH; [|done]. destruct l; [by apply elem_of_nil in Hx|]. by rewrite last_cons_cons in Hl.
Qed.

Lemma selected_end rows row : row ∈ selected rows → row < end_ rows.
Proof.
  intros H. unfold end_. destruct (last (selected rows)) as [y|] eqn:E.
  - pose proof (sorted_last _ row y (selected_sorted rows) E H). lia.
  - apply last_None in E. rewrite E in H. by apply elem_of_nil in H.
Qed.

Lemma selected_count rows : length (selected rows) ≤ end_ rows.
Proof.
  rewrite <- (length_seq (end_ rows) 0). apply submseteq_length, NoDup_submseteq; [apply selected_NoDup|].
  intros row H. apply elem_of_seq. pose proof (selected_end rows row H). lia.
Qed.

(** ** The places of the rows *)

(** The base row of every selected row is where [rowMap] says. *)
Definition placed (rowMap : gmap nat nat) (unique : list nat) (idx : nat → nat) (l : list nat) : Prop :=
  ∀ row, row ∈ l → ∃ place, rowMap !! row = Some place ∧ unique !! place = Some (idx row).

(** Inputs whose repetitions [collectRow] finds again. *)
Definition faithful (m : Mapping) (idx : nat → nat) (l : list nat) : Prop :=
  (∀ row, row ∈ l → index m row = Ok (idx row)) ∧ (NoDup (map idx l) ∨ ∀ row1 row2, row1 ∈ l → row2 ∈ l → idx row1 = idx row2).

Lemma collect_distinct m idx l :
  (∀ row, row ∈ l → index m row = Ok (idx row)) → NoDup l → NoDup (map idx l) →
  ∃ rowMap, foldM_o (collectRow m) l (∅, []) = Ok (rowMap, map idx l) ∧ placed rowMap (map idx l) idx l.
Proof.
  induction l as [|row l IH] using rev_ind; intros Hi Hl Hd.
  { exists ∅. split; [done|]. intros row H. by apply elem_of_nil in H. }
  rewrite map_app in Hd |- *. apply NoDup_app in Hd as (Hd & Hnew & _). apply NoDup_app in Hl as (Hl & Hrow & _).
  destruct IH as (rowMap & E & Hp); [set_solver|done|done|]. rewrite foldM_o_app, E. cbn. rewrite Hi by set_solver. cbn.
  rewrite bool_decide_false by (intros H; apply (Hnew _ H); set_solver). eexists. split; [done|].
  intros row' Hr. destruct (decide (row' = row)) as [->|Hne].
  - exists (length (map idx l)). rewrite lookup_insert_eq. split; [done|]. by rewrite list_lookup_middle.
  - destruct (Hp row') as (place & E1 & E2); [set_solver|]. exists place. rewrite lookup_insert_ne by done. split; [done|]. by apply lookup_app_l_Some.
Qed.

Lemma collect_same m c l :
  (∀ row, row ∈ l → index m row = Ok c) → l ≠ [] →
  ∃ rowMap, foldM_o (collectRow m) l (∅, []) = Ok (rowMap, [c]) ∧ placed rowMap [c] (λ _, c) l ∧ (∀ k v, rowMap !! k = Some v → v = 0).
Proof.
  induction l as [|row l IH] using rev_ind; intros Hi Hne; [done|]. rewrite foldM_o_app. destruct (decide (l = [])) as [->|Hl].
  - cbn. rewrite Hi by set_solver. cbn. rewrite bool_decide_false by set_solver. eexists. split; [done|]. split.
    + intros row' Hr. assert (row' = row) as -> by set_solver. exists 0. by rewrite lookup_insert_eq.
    + intros k v H. apply lookup_insert_Some in H as [[_ <-]|[_ H]]; [done|]. by rewrite lookup_empty in H.
  - destruct IH as (rowMap & E & Hp & Hz); [set_solver|done|]. rewrite E. cbn. rewrite Hi by set_solver. cbn. rewrite bool_decide_true by set_solver.
    assert (default 0 (rowMap !! c) = 0) as -> by (destruct (rowMap !! c) eqn:Ec; [by apply Hz in Ec as ->|done]).
    eexists. split; [done|]. split.
    + intros row' Hr. exists 0. split; [|done]. destruct (decide (row' = row)) as [->|H1]; [by rewrite lookup_insert_eq|].
      rewrite lookup_insert_ne by done. destruct (decide (row' = c)) as [->|H2]; [by rewrite lookup_insert_eq|]. rewrite lookup_insert_ne by done.
      destruct (Hp row') as (place & E1 & _); [set_solver|]. rewrite E1. by apply Hz in E1 as ->.
    + intros k v [[_ <-]|[_ [[_ <-]|[_ H]]%lookup_insert_Some]]%lookup_insert_Some; [done..|]. by eapply Hz.
Qed.

(** The first selected row of every base row, in their order. *)
Fixpoint firstRowsAfter (idx : nat → nat) (seen l : list nat) : list nat :=
  match l with
  | [] => []
  | row :: l => if bool_decide (idx row ∈ seen) then firstRowsAfter idx seen l else row :: firstRowsAfter idx (idx row :: seen) l
  end.
Definition firstRows (idx : nat → nat) (l : list nat) : list nat := firstRowsAfter idx [] l.

Lemma firstRows_distinct idx l : NoDup (map idx l) → firstRows idx l = l.
Proof.
  unfold firstRows. intros H. assert (∀ b, b ∈ ([] : list nat) → b ∉ map idx l) as Hs by (intros b Hb; by apply elem_of_nil in Hb).
  revert H Hs. generalize ([] : list nat). induction l as [|row l IH]; intros seen H Hs; [done|]. cbn in H |- *. apply NoDup_cons in H as [Hn H].
  rewrite bool_decide_false by (intros Hin; apply (Hs _ Hin); cbn; set_solver). f_equal. apply IH; [done|].
  intros b [->|Hb]%elem_of_cons; [done|]. specialize (Hs b Hb). cbn in Hs. set_solver.
Qed.

Lemma firstRows_same idx row0 l : (∀ row, row ∈ l → idx row = idx row0) → firstRows idx (row0 :: l) = [row0].
Proof.
  intros H. unfold firstRows. cbn. f_equal. induction l as [|row l IH]; [done|]. cbn.
  rewrite bool_decide_true by (rewrite (H row) by set_solver; set_solver). apply IH. set_solver.
Qed.

Lemma firstRows_elem idx l row : row ∈ firstRows idx l → row ∈ l.
Proof.
  unfold firstRows. generalize ([] : list nat). induction l as [|r l IH]; intros seen; cbn; [done|]. case_bool_decide; intros Hr; [|apply elem_of_cons in Hr as [->|Hr]; [by left|]]; right; by eapply IH.
Qed.

Lemma collect_faithful m idx rows :
  faithful m idx (selected rows) →
  ∃ rowMap, collectRows m rows = Ok (rowMap, map idx (firstRows idx (selected rows))) ∧
    placed rowMap (map idx (firstRows idx (selected rows))) idx (selected rows).
Proof.
  intros [Hi [Hd|Hs]]; unfold collectRows, applyToSelected.
  - rewrite firstRows_distinct by done. destruct (collect_distinct m idx _ Hi (selected_NoDup rows) Hd) as (rowMap & E & Hp). by exists rowMap.
  - destruct (selected rows) as [|row0 l] eqn:E.
    { exists ∅. split; [done|]. intros row H. by apply elem_of_nil in H. }
    rewrite firstRows_same by (intros row Hr; apply Hs; set_solver).
    destruct (collect_same m (idx row0) (row0 :: l)) as (rowMap & E1 & Hp & _); [intros row Hr; rewrite Hi by done; f_equal; apply Hs; set_solver|done|].
    exists rowMap. split; [done|]. intros row Hr. destruct (Hp row Hr) as (place & H1 & H2). exists place. split; [done|]. cbn [map]. rewrite H2. f_equal. apply Hs; set_solver.
Qed.

(** ** Buffers *)
Lemma readSlice_all {A} (l1 l2 : list (option A)) ys start n :
  start = length l1 → n = length ys → readSlice (l1 ++ map Some ys ++ l2) start n = Ok ys.
Proof.
  intros -> ->. unfold readSlice. rewrite !length_app, length_map. replace (_ <=? _) with true by (symmetry; apply Nat.leb_le; lia).
  rewrite drop_app_length. rewrite <- (length_map Some ys), take_app_length. apply mapM_o_Ok, Forall2_fmap_l, Forall_Forall2_diag, Forall_forall. done.
Qed.

Lemma readSlice_length {A} (l : list (option A)) start n xs : readSlice l start n = Ok xs → length xs = n.
Proof.
  unfold readSlice. destruct (Nat.leb_spec (start + n) (length l)); [|done]. intros E%mapM_o_Ok%Forall2_length.
  rewrite length_take, length_drop in E. lia.
Qed.

Lemma memcpy_app {A} (l1 old : list (option A)) l2 xs n :
  n = length l1 → length old = length xs → memcpy (l1 ++ old ++ l2) n xs = Ok (l1 ++ map Some xs ++ l2).
Proof.
  intros -> H. unfold memcpy. rewrite !length_app. replace (_ <=? _) with true by (symmetry; apply Nat.leb_le; lia). f_equal.
  rewrite take_app_length. f_equal. f_equal. rewrite app_assoc. apply drop_app_length'. rewrite length_app. lia.
Qed.

Lemma storeAt_Ok {A} (l : list A) i x : i < length l → storeAt l i x = Ok (<[i := x]> l).
Proof. intros H. unfold storeAt. by rewrite (proj2 (Nat.ltb_lt _ _) H). Qed.

(** ** Rows written so far *)

(** The place of a row among them. *)
Definition position (row : nat) (l : list nat) : option nat := fst <$> list_find (row =.) l.

Lemma position_snoc row l new :
  position row (l ++ [new]) = match position row l with Some i => Some i | None => if decide (row = new) then Some (length l) else None end.
Proof.
  unfold position. destruct (list_find (row =.) l) as [[i x]|] eqn:E; cbn.
  - by rewrite (list_find_app_l _ _ _ _ _ E).
  - rewrite list_find_app_r by done. cbn. destruct (decide (row = new)); cbn; [|done]. f_equal; lia.
Qed.

Lemma position_None row l : row ∉ l → position row l = None.
Proof.
  intros H. unfold position. destruct (list_find (row =.) l) as [[i x]|] eqn:E; [|done]. apply list_find_Some in E as (Hx & -> & _).
  destruct H. by eapply list_elem_of_lookup_2.
Qed.

Lemma position_lt row l i : position row l = Some i → i < length l.
Proof.
  unfold position. destruct (list_find (row =.) l) as [[j x]|] eqn:E; [|done]. intros [= <-]. apply list_find_Some in E as (Hj & _). by eapply lookup_lt_Some.
Qed.

Lemma position_lookup row l i : NoDup l → l !! i = Some row → position row l = Some i.
Proof.
  intros Hd Hi. unfold position. destruct (list_find (row =.) l) as [[j x]|] eqn:E; cbn.
  - apply list_find_Some in E as (Hj & -> & _). f_equal. by eapply NoDup_lookup.
  - apply list_find_None in E. rewrite Forall_lookup in E. by destruct (E i row Hi).
Qed.

(** A buffer with a value per row, of which the rows [l] have been written. *)
Definition written {B} (f : nat → nat → B) (l : list nat) (bs : list B) : list B :=
  imap (λ row old, match position row l with Some i => f row i | None => old end) bs.

Lemma written_nil {B} (f : nat → nat → B) bs : written f [] bs = bs.
Proof. unfold written. cbn. apply list_eq. intros i. rewrite list_lookup_imap. by destruct (bs !! i). Qed.

Lemma written_length {B} (f : nat → nat → B) l bs : length (written f l bs) = length bs.
Proof. apply length_imap. Qed.

Lemma written_lookup {B} (f : nat → nat → B) l bs row i :
  NoDup l → l !! i = Some row → row < length bs → written f l bs !! row = Some (f row i).
Proof.
  intros Hd Hi Hr. unfold written. rewrite list_lookup_imap. destruct (lookup_lt_is_Some_2 bs row Hr) as [b ->]. cbn. by rewrite (position_lookup row l i).
Qed.

Lemma insert_written {B} (f f' : nat → nat → B) l bs new b :
  new ∉ l → (∀ row i, i < length l → f' row i = f row i) → b = f' new (length l) → <[new := b]> (written f l bs) = written f' (l ++ [new]) bs.
Proof.
  intros Hn Hf ->. unfold written. apply list_eq. intros j. rewrite list_lookup_imap. destruct (decide (j = new)) as [->|Hne].
  - destruct (bs !! new) as [old|] eqn:E; cbn.
    + rewrite list_lookup_insert_eq by (rewrite length_imap; by eapply lookup_lt_Some). rewrite position_snoc, position_None by done. by rewrite decide_True.
    + rewrite list_insert_ge; [by rewrite list_lookup_imap, E|]. rewrite length_imap. by apply lookup_ge_None.
  - rewrite list_lookup_insert_ne by done. rewrite list_lookup_imap. destruct (bs !! j); cbn; [|done]. rewrite position_snoc.
    destruct (position j l) as [i|] eqn:E; [|by rewrite decide_False]. rewrite Hf by by eapply position_lt. done.
Qed.

Lemma selected_split rows l new l2 : selected rows = l ++ new :: l2 → new ∉ l.
Proof. intros E. pose proof (selected_NoDup rows) as H. rewrite E in H. apply NoDup_app in H as (_ & H & _). intros Hn. apply (H new Hn). set_solver. Qed.

(** ** Writing the rows of a result *)
Section Scatter.
Context {A : Type}.
Variables (start : nat) (v : ArrayVector A) (res : nat → list A).

Definition used (l : list nat) : nat := length (concat (map res l)).

(** The vector after the rows [l] have got their results. *)
Definition scattered (l : list nat) : ArrayVector A :=
  mkArrayVector (written (λ _ i, start + used (take i l)) l (rawOffsets v)) (written (λ row _, length (res row)) l (rawSizes v))
    (take start (elements v) ++ map Some (concat (map res l)) ++ drop (start + used l) (elements v)).

Lemma used_app l1 l2 : used (l1 ++ l2) = used l1 + used l2.
Proof using. unfold used. by rewrite map_app, concat_app, length_app. Qed.

Lemma used_one row : used [row] = length (res row).
Proof using. unfold used. cbn. by rewrite app_nil_r. Qed.

Lemma used_uniform cols l : Forall (λ row, length (res row) = cols) l → used l = length l * cols.
Proof using. unfold used. induction 1 as [|row l Hr _ IH]; [done|]. cbn. by rewrite length_app, Hr, IH. Qed.

Lemma scattered_nil : scattered [] = v.
Proof using. unfold scattered. rewrite !written_nil. unfold used. cbn. rewrite Nat.add_0_r, take_drop. by destruct v. Qed.

(** What one more row does to the three buffers. *)
Lemma scattered_snoc l new els :
  new ∉ l → start + used (l ++ [new]) ≤ length (elements v) →
  memcpy (elements (scattered l)) (start + used l) (res new) = Ok els →
  scattered (l ++ [new]) = mkArrayVector (<[new := start + used l]> (rawOffsets (scattered l))) (<[new := length (res new)]> (rawSizes (scattered l))) els.
Proof using.
  intros Hn Hroom Hm. rewrite used_app, used_one in Hroom. unfold scattered at 1. symmetry. f_equal.
  - apply insert_written; [done| |].
    + intros _ i Hi. by rewrite take_app_le by lia.
    + by rewrite take_app_length.
  - by apply insert_written.
  - cbn [scattered elements] in Hm. set (es := elements v) in *.
    assert (drop (start + used l) es = take (length (res new)) (drop (start + used l) es) ++ drop (start + used (l ++ [new])) es) as Ed.
    { rewrite <- (take_drop (length (res new)) (drop (start + used l) es)) at 1. f_equal. rewrite drop_drop, used_app, used_one. f_equal. lia. }
    rewrite Ed, app_assoc, memcpy_app in Hm; [|rewrite length_app, length_take, length_map; unfold used; unfold used in Hroom; lia|rewrite length_take, length_drop; lia].
    injection Hm as <-. rewrite map_app, concat_app, map_app. cbn. rewrite app_nil_r, <- !app_assoc. done.
Qed.

Lemma memcpy_room l new : start + used (l ++ [new]) ≤ length (elements v) → ∃ els, memcpy (elements (scattered l)) (start + used l) (res new) = Ok els.
Proof using.
  intros H. rewrite used_app, used_one in H. unfold memcpy. eexists. rewrite (proj2 (Nat.leb_le _ _)); [done|]. cbn.
  rewrite !length_app, length_take, length_map, length_drop. fold (used l). lia.
Qed.

Lemma scatterRow_step cols rowMap result l new l2 :
  NoDup (l ++ new :: l2) → length (res new) = cols →
  new < length (rawOffsets v) → new < length (rawSizes v) → start + used (l ++ new :: l2) ≤ length (elements v) →
  (∃ place, rowMap !! new = Some place ∧ result !! place = Some (res new)) →
  scatterRow cols cols rowMap result (start + used l, scattered l) new = Ok (start + used (l ++ [new]), scattered (l ++ [new])).
Proof using.
  intros Hd Hc Ho Hs Hroom (place & Hp & Hr). apply NoDup_app in Hd as (_ & Hnew & _). assert (new ∉ l) as Hn by set_solver.
  change (new :: l2) with ([new] ++ l2) in Hroom. rewrite (assoc_L (++)), used_app in Hroom. unfold scatterRow. rewrite Hp.
  rewrite !storeAt_Ok by (cbn; rewrite written_length; done). cbn [mbind outcome_bind]. unfold readAt. rewrite Hr. cbn [mbind outcome_bind].
  destruct (memcpy_room l new ltac:(lia)) as [els E]. rewrite E. cbn [mbind outcome_bind]. rewrite (scattered_snoc l new els Hn ltac:(lia) E), Hc.
  f_equal. f_equal. rewrite used_app, used_one. lia.
Qed.

Lemma scatterRows_Ok cols rows rowMap result :
  Forall (λ row, length (res row) = cols) (selected rows) → end_ rows ≤ length (rawOffsets v) → end_ rows ≤ length (rawSizes v) →
  start + used (selected rows) ≤ length (elements v) →
  (∀ row, row ∈ selected rows → ∃ place, rowMap !! row = Some place ∧ result !! place = Some (res row)) →
  scatterRows rows cols start cols rowMap result v = Ok (scattered (selected rows)).
Proof using.
  intros Hc Ho Hs Hroom Hp. unfold scatterRows, applyToSelected. pose proof (foldM_o_prefix (scatterRow cols cols rowMap result) (λ l, (start + used l, scattered l)) (selected rows)) as E.
  cbn beta in E. rewrite scattered_nil in E. change (used []) with 0 in E. rewrite Nat.add_0_r in E. rewrite E; [done|].
  intros l1 row l2 El. assert (row ∈ selected rows) as Hin by (rewrite El; set_solver). pose proof (selected_end rows row Hin).
  pose proof (selected_NoDup rows). rewrite Forall_forall in Hc. eapply scatterRow_step; [by rewrite <- El|by apply Hc|lia|lia|by rewrite <- El|by apply Hp].
Qed.

(** Every written row has its own result. *)
Lemma scattered_arrayAt l row :
  NoDup l → row ∈ l → row < length (rawOffsets v) → row < length (rawSizes v) → start + used l ≤ length (elements v) →
  arrayAt (scattered l) row = Ok (res row).
Proof using.
  intros Hd [i Hi]%list_elem_of_lookup Ho Hs Hroom. unfold arrayAt, readAt. cbn [scattered rawOffsets rawSizes elements].
  rewrite !(written_lookup _ _ _ row i Hd Hi) by done. cbn [mbind outcome_bind]. pose proof (take_drop_middle l i row Hi) as El.
  assert (map Some (concat (map res l)) = map Some (concat (map res (take i l))) ++ map Some (res row) ++ map Some (concat (map res (drop (S i) l)))) as ->.
  { rewrite <- El at 1. rewrite map_app, concat_app. cbn. by rewrite !map_app. }
  rewrite <- !app_assoc, app_assoc. apply readSlice_all; [|done]. rewrite length_app, length_take, length_map. unfold used. lia.
Qed.
End Scatter.

(** ** Writable outputs *)
Definition outputSize {A} (output : option (ArrayVector A)) : nat := match output with Some v => length (elements v) | None => 0 end.

Lemma prepareOutput_size {A} rows (output : option (ArrayVector A)) :
  end_ rows ≤ length (rawOffsets (prepareOutput rows output)) ∧ end_ rows ≤ length (rawSizes (prepareOutput rows output)) ∧
  length (elements (prepareOutput rows output)) = outputSize output.
Proof.
  unfold prepareOutput, ensureWritable, fillZero. cbn. rewrite !length_app, !length_replicate. split; [lia|]. split; [lia|]. by destruct output.
Qed.

Lemma growElements_Ok {A} rows cols (v : ArrayVector A) :
  (Z.of_nat (length (elements v) + end_ rows * cols) ≤ int32_max)%Z →
  growElements rows cols v = Ok (v <| elements := elements v ++ replicate (end_ rows * cols) None |>).
Proof. intros H. unfold growElements. rewrite checked32_Ok; [done|]. unfold_ints. lia. Qed.

(** ** A matrix function on a batch *)
Section Batch.
Variables (rows : SelectivityVector) (m : Mapping) (input : ArrayVector float) (output : option (ArrayVector float)).
Variables (n_in n_out : nat) (idx : nat → nat) (x : nat → list float).

(** The selected rows are found again by [collectRow] and hold [n_in] values
    each. *)
Record readable : Prop := {
  rd_faithful : faithful m idx (selected rows);
  rd_rows : ∀ row, row ∈ selected rows → arrayAt input (idx row) = Ok (x row) ∧ length (x row) = n_in
}.
Hypothesis Hread : readable.
Hypothesis Hroom : (Z.of_nat (outputSize output + end_ rows * n_out) ≤ int32_max)%Z.

(** The matrix of the inputs of a batch: one row per base row. *)
Definition batchInput : Matrix := map x (firstRows idx (selected rows)).

Lemma gather_input : gatherMatrix input n_in (map idx (firstRows idx (selected rows))) = Ok batchInput.
Proof using Hread.
  unfold gatherMatrix, batchInput. apply mapM_o_Ok, Forall2_fmap, Forall_Forall2_diag, Forall_forall. intros row Hr%firstRows_elem.
  destruct (rd_rows Hread row Hr) as [E Hl]. unfold arrayAt in E. unfold gatherRow. inv_bind. rewrite Ha. cbn.
  pose proof (readSlice_length _ _ _ _ E). congruence.
Qed.

Lemma batchInput_shape : Forall (λ r, length r = n_in) batchInput.
Proof using Hread. apply Forall_fmap, Forall_forall. intros row Hr%firstRows_elem. cbn. by apply (rd_rows Hread). Qed.

(** The batch holds the input of a row where the row is placed. *)
Lemma batchInput_placed rowMap row :
  placed rowMap (map idx (firstRows idx (selected rows))) idx (selected rows) → row ∈ selected rows →
  ∃ place, rowMap !! row = Some place ∧ batchInput !! place = Some (x row).
Proof using Hread.
  intros Hp Hr. destruct (Hp row Hr) as (place & E1 & E2). exists place. split; [done|]. unfold batchInput.
  change (map idx ?l) with (idx <$> l) in E2. change (map x ?l) with (x <$> l). apply list_lookup_fmap_Some in E2 as (first & E2 & Ef).
  rewrite list_lookup_fmap, Ef. cbn. f_equal. apply list_elem_of_lookup_2, firstRows_elem in Ef.
  destruct (rd_rows Hread row Hr) as [H1 _], (rd_rows Hread first Ef) as [H2 _]. congruence.
Qed.

(** Every row gets the row of the result where it is placed. *)
Lemma batch_results (rowMap : gmap nat nat) (result : Matrix) (res : nat → list float) :
  (∀ row, row ∈ selected rows → length (res row) = n_out ∧ ∃ place, rowMap !! row = Some place ∧ result !! place = Some (res row)) →
  ∃ v, (v' ← growElements rows n_out (prepareOutput rows output);
        scatterRows rows n_out (length (elements (prepareOutput rows output))) n_out rowMap result v') = Ok v ∧
    ∀ row, row ∈ selected rows → arrayAt v row = Ok (res row).
Proof using Hroom.
  intros Hres. destruct (prepareOutput_size rows output) as (Ho & Hs & He). rewrite growElements_Ok by (rewrite He; done). cbn [mbind outcome_bind].
  rewrite He. set (v' := _ <| elements := _ |>). assert (Forall (λ row, length (res row) = n_out) (selected rows)) as Hlen by (apply Forall_forall; intros row Hr; by apply Hres).
  assert (outputSize output + used res (selected rows) ≤ length (elements v')) as Hroom'.
  { rewrite (used_uniform _ n_out) by done. unfold v'. cbn. rewrite length_app, length_replicate. pose proof (selected_count rows). unfold prepareOutput in He. cbn in He. rewrite He. nia. }
  eexists. split; [apply (scatterRows_Ok (outputSize output) v' res n_out); [exact Hlen|exact Ho|exact Hs|exact Hroom'|]; intros row Hr; by apply Hres|].
  intros row Hr. pose proof (selected_end rows row Hr). apply (scattered_arrayAt (outputSize output) v' res);
    [apply selected_NoDup|done|change (rawOffsets v') with (rawOffsets (prepareOutput rows output)); lia|change (rawSizes v') with (rawSizes (prepareOutput rows output)); lia|done].
Qed.
End Batch.
