(* ===== verification/MLTheorems.v ===== *)
(** * What the functions compute

    The interface [RowFunction]: what a function on a batch promises for every
    selected row.  The layers implement it, layers in sequence implement it,
    and the functions that break it are listed at the end. *)
From Stdlib Require Import SpecFloat.
From S2P Require Import Prelude CFloat MLVector MLFunctions MLCorrect.
Local Open Scope nat_scope.
Local Open Scope list_scope.

(** ** The interface *)
Definition applyFunction := SelectivityVector → Mapping → ArrayVector float → option (ArrayVector float) → outcome (ArrayVector float).

(** [f] computes [g] on rows of [n_in] values; the output gets room for
    [width] values per row. *)
Class RowFunction (f : applyFunction) (n_in n_out width : nat) (g : list float → list float) : Prop := {
  row_length : ∀ xs, length xs = n_in → length (g xs) = n_out;
  row_apply : ∀ rows m input output idx x,
    readable rows m input n_in idx x → (Z.of_nat (outputSize output + end_ rows * width) ≤ int32_max)%Z →
    ∃ v, f rows m input output = Ok v ∧ ∀ row, row ∈ selected rows → arrayAt v row = Ok (g (x row))
}.

(** What the functions rely on of the product of matrices: the shape of its
    result.  How its entries are rounded is left open: a row of the product of
    a batch need not be the product of that row alone. *)
Class MatrixProduct (product : Matrix → Matrix → Matrix) : Prop := {
  product_shape : ∀ rs w n, w ≠ [] → Forall (λ r, length r = length w) rs → Forall (λ r, length r = n) w →
    length (product rs w) = length rs ∧ Forall (λ r, length r = n) (product rs w)
}.

(** ** Layers *)

(** A function that gathers a matrix, computes and scatters: every row gets the
    row of the result at its place in the batch. *)
Lemma batch_function rows m input output n_in n_out idx x (kernel : Matrix → Matrix) :
  readable rows m input n_in idx x → (Z.of_nat (outputSize output + end_ rows * n_out) ≤ int32_max)%Z →
  length (kernel (batchInput rows idx x)) = length (batchInput rows idx x) → Forall (λ r, length r = n_out) (kernel (batchInput rows idx x)) →
  ∃ place res v,
    (st ← collectRows m rows; let '(rowMap, unique) := st in
     inputMatrix ← gatherMatrix input n_in unique;
     v' ← growElements rows n_out (prepareOutput rows output);
     scatterRows rows n_out (length (elements (prepareOutput rows output))) n_out rowMap (kernel inputMatrix) v') = Ok v ∧
    ∀ row, row ∈ selected rows → batchInput rows idx x !! place row = Some (x row) ∧
      kernel (batchInput rows idx x) !! place row = Some (res row) ∧ length (res row) = n_out ∧ arrayAt v row = Ok (res row).
Proof.
  intros Hread Hroom Hl Hc. destruct (collect_faithful m idx rows (rd_faithful _ _ _ _ _ _ Hread)) as (rowMap & E1 & Hp).
  set (place := λ row, default 0 (rowMap !! row)). set (res := λ row, default [] (kernel (batchInput rows idx x) !! place row)).
  assert (∀ row, row ∈ selected rows → rowMap !! row = Some (place row) ∧ batchInput rows idx x !! place row = Some (x row) ∧
    kernel (batchInput rows idx x) !! place row = Some (res row) ∧ length (res row) = n_out) as H.
  { intros row Hr. destruct (batchInput_placed _ _ _ _ _ _ Hread rowMap row Hp Hr) as (p & E2 & E3). unfold place, res, place. rewrite E2. cbn.
    destruct (lookup_lt_is_Some_2 (kernel (batchInput rows idx x)) p) as [r Er]; [rewrite Hl; by eapply lookup_lt_Some|]. rewrite Er.
    split; [done|]. split; [done|]. split; [done|]. rewrite Forall_lookup in Hc. by apply (Hc p). }
  destruct (batch_results rows output n_out Hroom rowMap (kernel (batchInput rows idx x)) res) as (v & Ev & Hv).
  { intros row Hr. destruct (H row Hr) as (H1 & _ & H3 & H4). eauto. }
  exists place, res, v. rewrite E1. cbn [mbind outcome_bind]. rewrite (gather_input _ _ _ _ _ _ Hread). cbn [mbind outcome_bind].
  split; [exact Ev|]. intros row Hr. destruct (H row Hr) as (_ & H2 & H3 & H4). auto.
Qed.

(** A function that computes row by row. *)
Lemma matrix_function (f : applyFunction) n_in n_out g :
  (∀ xs, length xs = n_in → length (g xs) = n_out) →
  (∀ rows m input output, f rows m input output =
     (st ← collectRows m rows; let '(rowMap, unique) := st in
      inputMatrix ← gatherMatrix input n_in unique;
      v' ← growElements rows n_out (prepareOutput rows output);
      scatterRows rows n_out (length (elements (prepareOutput rows output))) n_out rowMap (map g inputMatrix) v')) →
  RowFunction f n_in n_out n_out g.
Proof.
  intros Hg Hf. split; [done|]. intros rows m input output idx x Hread Hroom. rewrite Hf.
  destruct (batch_function rows m input output n_in n_out idx x (map g) Hread Hroom) as (place & res & v & Ev & Hv).
  - apply length_map.
  - apply Forall_fmap. eapply Forall_impl; [by eapply batchInput_shape|]. intros r. apply Hg.
  - exists v. split; [exact Ev|]. intros row Hr. destruct (Hv row Hr) as (H1 & H2 & _ & ->). f_equal.
    change (map g ?l) with (g <$> l) in H2. rewrite list_lookup_fmap, H1 in H2. by injection H2.
Qed.

#[export] Instance MatrixVectorAddition_rows w d0 :
  TCEq (length w) d0 → RowFunction (MatrixVectorAddition_apply (mkMatrixVectorAddition w d0)) d0 d0 d0 (λ xs, zip_with f32_add xs w).
Proof. intros Hw%TCEq_eq. apply matrix_function; [|done]. intros xs Hx. rewrite length_zip_with. lia. Qed.

#[export] Instance MinMaxScaler_rows lo hi d0 :
  TCEq (length lo) d0 → TCEq (length hi) d0 → RowFunction (MinMaxScaler_apply (mkMinMaxScaler lo hi d0)) d0 d0 d0 (scaleRow (mkMinMaxScaler lo hi d0)).
Proof. intros Hlo%TCEq_eq Hhi%TCEq_eq. apply matrix_function; [|done]. intros xs Hx. unfold scaleRow. cbn. rewrite !length_zip_with. lia. Qed.

(** ** Vectors made of arrays *)
Lemma offsetsFrom_lookup sizes s row n : sizes !! row = Some n → offsetsFrom s sizes !! row = Some (s + sum_list (take row sizes)).
Proof.
  revert s row. induction sizes as [|k sizes IH]; intros s row H; [done|]. destruct row as [|row]; cbn in *; [f_equal; lia|].
  rewrite IH by done. f_equal. lia.
Qed.

Lemma sum_list_app_nat (l1 l2 : list nat) : sum_list (l1 ++ l2) = sum_list l1 + sum_list l2.
Proof. induction l1 as [|n l1 IH]; cbn; [done|]. rewrite IH. lia. Qed.

Lemma length_concat_sum {A} (data : list (list A)) : length (concat data) = sum_list (map length data).
Proof. induction data as [|xs data IH]; cbn; [done|]. by rewrite length_app, IH. Qed.

Lemma arrayVector_arrayAt {A} (data : list (list A)) row xs : data !! row = Some xs → arrayAt (arrayVector data) row = Ok xs.
Proof.
  intros H. unfold arrayAt, arrayVector, readAt. cbn [rawOffsets rawSizes elements].
  assert (map length data !! row = Some (length xs)) as Hs by (change (map ?f ?l) with (f <$> l); by rewrite list_lookup_fmap, H).
  rewrite (offsetsFrom_lookup _ 0 _ _ Hs), Hs. cbn [mbind outcome_bind]. pose proof (take_drop_middle data row xs H) as E.
  assert (map Some (concat data) = map Some (concat (take row data)) ++ map Some xs ++ map Some (concat (drop (S row) data))) as ->.
  { rewrite <- E at 1. rewrite concat_app. cbn. by rewrite !map_app. }
  apply readSlice_all; [|done]. rewrite length_map, length_concat_sum. cbn. f_equal. change (map ?f ?l) with (f <$> l). by rewrite fmap_take.
Qed.

(** A function that builds its result row by row. *)
Lemma mapRows_apply h rows m input n idx x :
  readable rows m input n idx x →
  ∃ v, mapRows h rows m input = Ok v ∧ ∀ row, row ∈ selected rows → arrayAt v row = Ok (map h (x row)).
Proof.
  intros Hread. unfold mapRows, applyToSelected. set (bs := replicate (length rows) []).
  assert (∀ row, row ∈ selected rows → row < length bs) as Hlt.
  { intros row Hr. unfold bs, selected in *. rewrite length_replicate. apply list_elem_of_filter in Hr as [_ Hr%elem_of_seq]. lia. }
  rewrite <- (written_nil (λ row _, map h (x row)) bs). rewrite (foldM_o_prefix _ (λ l, written (λ row _, map h (x row)) l bs)).
  - cbn [mbind outcome_bind]. eexists. split; [done|]. intros row Hr. apply arrayVector_arrayAt. pose proof (Hlt row Hr). apply list_elem_of_lookup in Hr as [i Hi].
    by rewrite (written_lookup _ _ _ row i (selected_NoDup rows) Hi).
  - intros l1 row l2 El. assert (row ∈ selected rows) as Hin by (rewrite El; set_solver).
    destruct (rd_faithful _ _ _ _ _ _ Hread) as [Hi _]. destruct (rd_rows _ _ _ _ _ _ Hread row Hin) as [Ea _]. unfold mapRow. rewrite (Hi row Hin). cbn [mbind outcome_bind].
    unfold arrayAt in Ea. inv_bind. rewrite Ha, Ha0. cbn [mbind outcome_bind]. rewrite Ea. cbn [mbind outcome_bind].
    rewrite storeAt_Ok by (rewrite written_length; by apply Hlt). f_equal. apply insert_written; [by eapply selected_split|done|done].
Qed.

#[export] Instance Relu_rows n : RowFunction (λ rows m input _, Relu_apply rows m input) n n 0 (map reluFunction).
Proof. split; [intros xs Hx; by rewrite length_map|]. intros rows m input output idx x Hread _. by eapply mapRows_apply. Qed.

#[export] Instance Sigmoid_rows exp n : RowFunction (λ rows m input _, Sigmoid_apply exp rows m input) n n 0 (map (sigmoidFunction exp)).
Proof. split; [intros xs Hx; by rewrite length_map|]. intros rows m input output idx x Hread _. by eapply mapRows_apply. Qed.

(** [softmax] has no number of columns when no row is selected. *)
Lemma Softmax_rows exp sum rows m input output n idx x :
  selected rows ≠ [] → readable rows m input n idx x → (Z.of_nat (outputSize output + end_ rows * n) ≤ int32_max)%Z →
  ∃ v, Softmax_apply exp sum rows m input output = Ok v ∧ ∀ row, row ∈ selected rows → arrayAt v row = Ok (softmaxRow exp sum (x row)).
Proof.
  intros Hs Hread Hroom. destruct (collect_faithful m idx rows (rd_faithful _ _ _ _ _ _ Hread)) as (rowMap & E1 & Hp).
  assert (numColsOf input (map idx (firstRows idx (selected rows))) = Ok n) as E3.
  { unfold numColsOf. destruct (last (map idx (firstRows idx (selected rows)))) as [b|] eqn:El.
    - apply last_Some_elem_of, list_elem_of_fmap in El as (row & -> & Hr%firstRows_elem). destruct (rd_rows _ _ _ _ _ _ Hread row Hr) as [Ea Hl].
      unfold arrayAt in Ea. inv_bind. rewrite Ha0. f_equal. apply readSlice_length in Ea. congruence.
    - apply last_None in El. destruct (selected rows) as [|row l] eqn:Es; [done|]. destruct (Hp row) as (place & _ & E); [set_solver|]. by rewrite El in E. }
  destruct (batch_function rows m input output n n idx x (map (softmaxRow exp sum)) Hread Hroom) as (place & res & v & Ev & Hv).
  - apply length_map.
  - apply Forall_fmap. eapply Forall_impl; [by eapply batchInput_shape|]. intros r Hr. cbn. unfold softmaxRow. by rewrite !length_map.
  - exists v. unfold Softmax_apply. rewrite E1 in Ev |- *. cbn [mbind outcome_bind] in Ev |- *. rewrite E3. cbn [mbind outcome_bind]. split; [exact Ev|].
    intros row Hr. destruct (Hv row Hr) as (H1 & H2 & _ & ->). f_equal.
    change (map ?g ?l) with (g <$> l) in H2. rewrite list_lookup_fmap, H1 in H2. by injection H2.
Qed.

(** ** Layers in sequence *)
Definition andThen (f h : applyFunction) : applyFunction := λ rows m input output, v ← f rows m input None; h rows Identity v output.

#[export] Instance sequence_rows f h a b c w1 w2 g1 g2 :
  RowFunction f a b w1 g1 → RowFunction h b c w2 g2 → RowFunction (andThen f h) a c (w1 `max` w2) (λ xs, g2 (g1 xs)).
Proof.
  intros [Hl1 H1] [Hl2 H2]. split; [auto|]. intros rows m input output idx x Hread Hroom. unfold andThen.
  destruct (H1 rows m input None idx x Hread) as (v & E & Hv); [cbn; nia|]. rewrite E. cbn [mbind outcome_bind].
  apply (H2 rows Identity v output id (λ row, g1 (x row))); [|nia]. split.
  - split; [done|]. left. rewrite map_id. apply selected_NoDup.
  - intros row Hr. split; [by apply Hv|]. apply Hl1. by apply (rd_rows _ _ _ _ _ _ Hread).
Qed.

(** ** Rows that share their place *)
Lemma scatter_same_place {A} cols start rowMap (result : list (list A)) l v off v' :
  foldM_o (scatterRow cols 0 rowMap result) l (start, v) = Ok (off, v') →
  off = start ∧ ∀ row, row ∈ l → rawOffsets v' !! row = Some start ∧ rawSizes v' !! row = Some cols.
Proof.
  revert off v'. induction l as [|row l IH] using rev_ind; intros off v' H.
  { cbn in H. injection H as <- <-. split; [done|]. intros row Hr. by apply elem_of_nil in Hr. }
  rewrite foldM_o_app in H. apply bind_Ok_inv in H as ([off1 v1] & H1 & H2). destruct (IH _ _ H1) as [-> Hl]. cbn in H2.
  destruct (rowMap !! row) as [place|]; [|done]. unfold storeAt in H2.
  destruct (Nat.ltb_spec row (length (rawOffsets v1))); [|done]. destruct (Nat.ltb_spec row (length (rawSizes v1))); [|done]. cbn in H2.
  destruct (readAt result place); cbn in H2; [|done..]. destruct (memcpy _ _ _); cbn in H2; [|done..]. injection H2 as <- <-. split; [lia|].
  intros row' Hr. cbn [rawOffsets rawSizes]. destruct (decide (row' = row)) as [->|Hne].
  - by rewrite !list_lookup_insert_eq.
  - rewrite !list_lookup_insert_ne by done. apply Hl. set_solver.
Qed.

(** ** Embeddings *)
Lemma memcpy_then {A} (l l' : list (option A)) s xs ys :
  s + length xs + length ys ≤ length l → memcpy l s xs = Ok l' → memcpy l' (s + length xs) ys = memcpy l s (xs ++ ys).
Proof.
  intros H Hm. assert (∃ l1 o1 o2 l2, l = l1 ++ o1 ++ o2 ++ l2 ∧ length l1 = s ∧ length o1 = length xs ∧ length o2 = length ys) as (l1 & o1 & o2 & l2 & -> & <- & H1 & H2).
  { exists (take s l), (take (length xs) (drop s l)), (take (length ys) (drop (s + length xs) l)), (drop (s + length xs + length ys) l).
    rewrite !length_take, !length_drop. split; [|lia]. rewrite <- (drop_drop l (length ys) (s + length xs)), take_drop, <- (drop_drop l (length xs) s), take_drop. by rewrite take_drop. }
  rewrite memcpy_app in Hm by done. injection Hm as <-. rewrite (app_assoc l1), memcpy_app; [|by rewrite length_app, length_map|done].
  rewrite (app_assoc o1), memcpy_app; [|done|rewrite !length_app; lia]. by rewrite map_app, <- !app_assoc.
Qed.

Lemma readSlice_lookup {A} (l : list (option A)) s n xs i y : readSlice l s n = Ok xs → xs !! i = Some y → l !! (s + i) = Some (Some y).
Proof.
  intros H Hy. pose proof (readSlice_length _ _ _ _ H) as Hn. pose proof (lookup_lt_Some _ _ _ Hy) as Hlt. unfold readSlice in H. destruct (_ <=? _); [|done].
  apply mapM_o_Ok in H. destruct (Forall2_lookup_r _ _ _ _ _ H Hy) as (o & Ho & E). rewrite lookup_take_lt, lookup_drop in Ho by lia. rewrite Ho. by destruct o; [injection E as ->|].
Qed.

Section Embeddings.
Variables (f : Embedding) (rows : SelectivityVector) (input : ArrayVector Z) (output : option (ArrayVector float)) (ids : nat → list Z).
Hypothesis Hids : ∀ row, row ∈ selected rows → arrayAt input row = Ok (ids row) ∧ Forall (λ i, (0 ≤ i < Z.of_nat (em_dims0 f))%Z) (ids row).
Hypothesis Hweights : length (em_weights f) = em_dims0 f * em_dims1 f.

Definition embedding (i : Z) : list float := take (em_dims1 f) (drop (Z.to_nat i * em_dims1 f) (em_weights f)).
Definition embeddings (row : nat) : list float := concat (map embedding (ids row)).

Lemma weightRow_Ok i : (0 ≤ i < Z.of_nat (em_dims0 f))%Z → weightRow f i = Ok (embedding i) ∧ length (embedding i) = em_dims1 f.
Proof using Hweights.
  intros Hi. assert (Z.to_nat i * em_dims1 f + em_dims1 f ≤ length (em_weights f)) as H by nia. unfold weightRow, embedding.
  rewrite Z.geb_leb, (proj2 (Z.leb_gt _ _)) by lia. rewrite (proj2 (Z.ltb_ge _ _)) by lia. rewrite length_take, length_drop. split; [|lia].
  unfold readSlice. rewrite length_map, (proj2 (Nat.leb_le _ _)) by lia. rewrite <- fmap_drop, <- fmap_take. apply mapM_o_Ok, Forall2_fmap_l, Forall_Forall2_diag, Forall_forall. done.
Qed.

(** The loop over the indices of one row copies the rows of the weights one
    after the other. *)
Lemma embed_loop js input_offset els els' off :
  Forall (λ i, (0 ≤ i < Z.of_nat (em_dims0 f))%Z) js → (∀ k i, js !! k = Some i → elements input !! (input_offset + k) = Some (Some i)) →
  memcpy els off (concat (map embedding js)) = Ok els' →
  foldM_o (λ '(outputOffset, els) i,
    o ← readAt (elements input) (input_offset + i); embedIndex ← initialised o; xs ← weightRow f embedIndex;
    els' ← memcpy els outputOffset xs; Ok (outputOffset + em_dims1 f, els')) (seq 0 (length js)) (off, els) = Ok (off + length js * em_dims1 f, els').
Proof using Hweights.
  revert els'. induction js as [|i js IH] using rev_ind; intros els' Hi Hin Hm.
  { unfold memcpy in Hm. cbn in Hm. destruct (_ <=? _); [|done]. injection Hm as <-. cbn. by rewrite !Nat.add_0_r, take_drop. }
  rewrite length_app, Nat.add_1_r, seq_S, foldM_o_app. rewrite map_app, concat_app in Hm. cbn [map concat] in Hm. rewrite app_nil_r in Hm.
  apply Forall_app in Hi as [Hi [Hi1 _]%Forall_cons]. destruct (weightRow_Ok i Hi1) as [Ew Hl].
  assert (length (concat (map embedding js)) = length js * em_dims1 f) as Hlen.
  { clear -Hi Hweights. induction Hi as [|j js Hj _ IHi]; [done|]. cbn. rewrite length_app, IHi. destruct (weightRow_Ok j Hj) as [_ ->]. done. }
  assert (off + length (concat (map embedding js) ++ embedding i) ≤ length els) as Hroom. { unfold memcpy in Hm. destruct (Nat.leb_spec (off + length (concat (map embedding js) ++ embedding i)) (length els)); [done|discriminate]. }
  rewrite length_app in Hroom. assert (∃ els1, memcpy els off (concat (map embedding js)) = Ok els1) as [els1 E1]. { unfold memcpy. rewrite (proj2 (Nat.leb_le _ _)) by lia. eauto. }
  rewrite (IH els1 Hi); [|intros k j Hk; apply Hin; by apply lookup_app_l_Some|done]. cbn [mbind outcome_bind foldM_o]. rewrite Nat.add_0_l. unfold readAt. rewrite (Hin (length js) i) by by rewrite list_lookup_middle.
  cbn [mbind outcome_bind initialised]. rewrite Ew. cbn [mbind outcome_bind]. pose proof (memcpy_then els els1 off (concat (map embedding js)) (embedding i) ltac:(lia) E1) as E2.
  rewrite Hlen in E2. rewrite E2, Hm. cbn. do 2 f_equal. lia.
Qed.

Definition embeddingCount : nat := sum_list (map (λ row, length (ids row)) (selected rows)).

Lemma embeddings_length row : row ∈ selected rows → length (embeddings row) = length (ids row) * em_dims1 f.
Proof using Hids Hweights.
  intros Hr. destruct (Hids row Hr) as [_ Hi]. unfold embeddings. clear -Hi Hweights.
  induction Hi as [|j js Hj _ IHi]; [done|]. cbn. rewrite length_app, IHi. destruct (weightRow_Ok j Hj) as [_ ->]. done.
Qed.

Lemma used_embeddings : used embeddings (selected rows) = embeddingCount * em_dims1 f.
Proof using Hids Hweights.
  unfold used, embeddingCount. assert (∀ l, (∀ row, row ∈ l → row ∈ selected rows) →
    length (concat (map embeddings l)) = sum_list (map (λ row, length (ids row)) l) * em_dims1 f) as H; [|by apply H].
  induction l as [|row l IH]; intros Hl; [done|]. cbn. rewrite length_app, IH by set_solver. rewrite embeddings_length by set_solver. lia.
Qed.

Lemma embeddings_counted : applyToSelected (λ n row, size ← readAt (rawSizes input) row; Ok (n + size)) rows 0 = Ok embeddingCount.
Proof using Hids Hweights.
  unfold applyToSelected, embeddingCount. apply (foldM_o_prefix _ (λ l, sum_list (map (λ row, length (ids row)) l))). intros l1 row l2 E.
  destruct (Hids row) as [Ea _]; [rewrite E; set_solver|]. unfold arrayAt in Ea. inv_bind. rewrite Ha0. cbn. f_equal.
  rewrite map_app, sum_list_app_nat. apply readSlice_length in Ea. cbn. lia.
Qed.

(** Every selected row gets the embeddings of its indices. *)
Lemma Embedding_rows m :
  (Z.of_nat (outputSize output + embeddingCount * em_dims1 f) ≤ int32_max)%Z →
  ∃ v, Embedding_apply f rows m input output = Ok v ∧ ∀ row, row ∈ selected rows → arrayAt v row = Ok (embeddings row).
Proof using Hids Hweights.
  intros Hroom. destruct (prepareOutput_size rows output) as (Ho & Hs & He). unfold Embedding_apply. rewrite embeddings_counted. cbn [mbind outcome_bind]. rewrite He.
  rewrite checked32_Ok by (unfold_ints; lia). cbn [mbind outcome_bind]. set (v' := _ <| elements := _ |>). set (start := outputSize output).
  assert (start + used embeddings (selected rows) ≤ length (elements v')) as Hr.
  { rewrite used_embeddings. unfold v'. cbn [elements assign]. rewrite length_app, length_replicate. fold start. unfold start. rewrite <- He. cbn. lia. }
  assert (end_ rows ≤ length (rawOffsets v')) as Ho' by exact Ho. assert (end_ rows ≤ length (rawSizes v')) as Hs' by exact Hs. clearbody v'.
  assert (applyToSelected (embedRow f input) rows (start, v') = Ok (start + used embeddings (selected rows), scattered start v' embeddings (selected rows))) as E.
  { pose proof (foldM_o_prefix (embedRow f input) (λ l, (start + used embeddings l, scattered start v' embeddings l)) (selected rows)) as E.
    cbn beta in E. rewrite scattered_nil in E. change (used embeddings []) with 0 in E. rewrite Nat.add_0_r in E. apply E. clear E. intros l1 row l2 El.
    assert (row ∈ selected rows) as Hin by (rewrite El; set_solver). pose proof (selected_end rows row Hin) as Hend. destruct (Hids row Hin) as [Ea Hi].
    assert (start + used embeddings (l1 ++ [row]) ≤ length (elements v')) as Hroom'.
    { rewrite El in Hr. change (row :: l2) with ([row] ++ l2) in Hr. rewrite (assoc_L (++)), used_app in Hr. lia. }
    destruct (memcpy_room start v' embeddings l1 row Hroom') as [els Em]. unfold arrayAt in Ea. inv_bind. unfold embedRow. rewrite Ha0, Ha. cbn [mbind outcome_bind].
    pose proof (readSlice_length _ _ _ _ Ea) as Hn.
    rewrite !storeAt_Ok by (cbn [scattered rawOffsets rawSizes]; rewrite written_length; lia).
    cbn [mbind outcome_bind]. rewrite <- Hn. rewrite (embed_loop (ids row) a (elements (scattered start v' embeddings l1)) els); [|done|intros k i Hk; by eapply readSlice_lookup|done].
    cbn [mbind outcome_bind]. rewrite (scattered_snoc start v' embeddings l1 row els (selected_split _ _ _ _ El) Hroom' Em). rewrite embeddings_length by done.
    rewrite used_app, used_one, embeddings_length by done. cbn. do 2 f_equal. lia. }
  rewrite E. cbn. eexists. split; [done|]. intros row Hrow. pose proof (selected_end rows row Hrow).
  apply scattered_arrayAt; [apply selected_NoDup|done|lia|lia|done].
Qed.
End Embeddings.

(** ** A product to run the functions with *)
Definition plainProduct (rs w : Matrix) : Matrix :=
  map (λ xs, map (λ j, foldl f32_add f32_zero (zip_with f32_mul xs (column j w))) (seq 0 (length (default [] (w !! 0))))) rs.

#[export] Instance plainProduct_shape : MatrixProduct plainProduct.
Proof.
  split. intros rs w n Hne _ Hw. unfold plainProduct. split; [apply length_map|]. apply Forall_fmap, Forall_forall. intros xs _. cbn.
  rewrite length_map, length_seq. destruct w as [|r w]; [done|]. by apply Forall_cons in Hw as [Hr _].
Qed.

(** What [readable] asks of the rows that another function has just written. *)
Lemma readable_next rows v n res : (∀ row, row ∈ selected rows → arrayAt v row = Ok (res row) ∧ length (res row) = n) → readable rows Identity v n id res.
Proof. intros H. split; [|done]. split; [done|]. left. rewrite map_id. apply selected_NoDup. Qed.

(** ** Properties *)

(** C27: A dense layer written as [relu(mat_add(mat_mul(x)))] gives every
    selected row the activation of its own input.  For weights with at least
    one row, inputs of that many values, flat, constant or behind a dictionary
    without repetitions, any selection of rows (also none) and whatever the
    outputs held before, as long as the elements of an output can be counted
    in 32 bits, the three calls return.  The product is formed once, of the
    matrix of the distinct inputs of the batch with the weights; this matrix
    has the input of the row at some place, and the array of the row is [relu]
    of the row of the product at that place plus the bias.  Of the product
    only the shape is assumed, so nothing is said of how its sums are
    rounded. *)
Theorem dense_layer product `{!MatrixProduct product} w bias d0 d1 rows m input out1 out2 idx x :
  w ≠ [] → length w = d0 → Forall (λ r, length r = d1) w → length bias = d1 → readable rows m input d0 idx x →
  (Z.of_nat (outputSize out1 + end_ rows * d1) ≤ int32_max)%Z → (Z.of_nat (outputSize out2 + end_ rows * d1) ≤ int32_max)%Z →
  let batch := map x (firstRows idx (selected rows)) in
  ∃ v1 v2 v3,
    MatrixMultiply_apply product (mkMatrixMultiply w d0 d1) false rows m input out1 = Ok v1 ∧
    MatrixVectorAddition_apply (mkMatrixVectorAddition bias d1) rows Identity v1 out2 = Ok v2 ∧
    Relu_apply rows Identity v2 = Ok v3 ∧
    ∀ row, row ∈ selected rows → ∃ place sums,
      batch !! place = Some (x row) ∧ product batch w !! place = Some sums ∧
      arrayAt v3 row = Ok (map reluFunction (zip_with f32_add sums bias)).
Proof.
  intros Hne Hw Hd Hbias Hread Hr1 Hr2 batch. pose proof (batchInput_shape _ _ _ _ _ _ Hread) as Hb. rewrite <- Hw in Hb.
  destruct (product_shape (batchInput rows idx x) w d1 Hne Hb Hd) as [Hl Hc].
  destruct (batch_function rows m input out1 d0 d1 idx x (λ rs, product rs w) Hread Hr1 Hl Hc) as (place & res & v1 & E1 & V1).
  pose proof (readable_next rows v1 d1 res (λ row Hr, conj (proj2 (proj2 (proj2 (V1 row Hr)))) (proj1 (proj2 (proj2 (V1 row Hr)))))) as R1.
  destruct (MatrixVectorAddition_rows bias d1 (proj2 (TCEq_eq _ _) Hbias)) as [Hl2 H2]. destruct (H2 rows Identity v1 out2 id _ R1 Hr2) as (v2 & E2 & V2).
  pose proof (readable_next rows v2 d1 _ (λ row Hr, conj (V2 row Hr) (Hl2 _ (proj2 (rd_rows _ _ _ _ _ _ R1 row Hr))))) as R2.
  destruct (mapRows_apply reluFunction rows Identity v2 d1 id _ R2) as (v3 & E3 & V3). exists v1, v2, v3. split; [exact E1|]. split; [done|]. split; [done|].
  intros row Hr. destruct (V1 row Hr) as (B1 & B2 & _). exists (place row), (res row). split; [done|]. split; [done|]. by apply V3.
Qed.

(** Three rows of which the first and the last are selected. *)
Definition testInput : ArrayVector float := arrayVector [[f32_of_Z 1; f32_of_Z 2]; [f32_of_Z 3; f32_of_Z 4]; [f32_of_Z 5; f32_of_Z 6]].
Definition testWeights : Matrix := [[f32_of_Z 1]; [f32_of_Z (-1)]].

Lemma dense_layer_witness : ∃ v1 v2 v3,
  MatrixMultiply_apply plainProduct (mkMatrixMultiply testWeights 2 1) false [true; false; true] Identity testInput None = Ok v1 ∧
  MatrixVectorAddition_apply (mkMatrixVectorAddition [f32_of_Z 3] 1) [true; false; true] Identity v1 None = Ok v2 ∧
  Relu_apply [true; false; true] Identity v2 = Ok v3 ∧ arrayAt v3 2 = Ok [f32_of_Z 2].
Proof.
  destruct (dense_layer plainProduct testWeights [f32_of_Z 3] 2 1 [true; false; true] Identity testInput None None id
    (λ row, default [] ([[f32_of_Z 1; f32_of_Z 2]; [f32_of_Z 3; f32_of_Z 4]; [f32_of_Z 5; f32_of_Z 6]] !! row))) as (v1 & v2 & v3 & E1 & E2 & E3 & H).
  - done.
  - done.
  - by repeat constructor.
  - done.
  - split; [split; [done|left; rewrite map_id; apply selected_NoDup]|]. intros row Hr. apply selected_valid in Hr.
    destruct row as [|[|[|row]]]; cbn in Hr; [|discriminate| |]; by vm_compute || discriminate.
  - vm_compute. discriminate.
  - vm_compute. discriminate.
  - exists v1, v2, v3. do 3 (split; [done|]). destruct (H 2) as (place & sums & B & P & ->); [by apply selected_valid|].
    destruct place as [|[|place]]; vm_compute in B; [discriminate| |discriminate]. vm_compute in P. injection P as <-. by vm_compute.
Defined.

(** Looking up embeddings of a flat column returns, for every selected row,
    the rows of the weights at its indices one after the other, whatever the
    numbers of indices per row, provided that all of them are in range; the
    arrays of the rows do not overlap each other or what the output held. *)
Theorem embedding_lookup f rows input output ids :
  (∀ row, row ∈ selected rows → arrayAt input row = Ok (ids row) ∧ Forall (λ i, (0 ≤ i < Z.of_nat (em_dims0 f))%Z) (ids row)) →
  length (em_weights f) = em_dims0 f * em_dims1 f →
  (Z.of_nat (outputSize output + embeddingCount rows ids * em_dims1 f) ≤ int32_max)%Z →
  ∃ v, Embedding_apply f rows Identity input output = Ok v ∧
    ∀ row, row ∈ selected rows → arrayAt v row = Ok (concat (map (embedding f) (ids row))).
Proof. intros Hids Hw Hroom. exact (Embedding_rows f rows input output ids Hids Hw Identity Hroom). Qed.

Lemma embedding_lookup_witness : ∃ v,
  Embedding_apply (mkEmbedding [f32_of_Z 5; f32_of_Z 6; f32_of_Z 7] 3 1) [true; false; true] Identity (arrayVector [[2%Z; 0%Z]; [1%Z]; [1%Z]]) None = Ok v ∧
  arrayAt v 0 = Ok [f32_of_Z 7; f32_of_Z 5].
Proof.
  destruct (embedding_lookup (mkEmbedding [f32_of_Z 5; f32_of_Z 6; f32_of_Z 7] 3 1) [true; false; true] (arrayVector [[2%Z; 0%Z]; [1%Z]; [1%Z]]) None
    (λ row, default [] ([[2%Z; 0%Z]; [1%Z]; [1%Z]] !! row))) as (v & E & H).
  - intros row Hr. apply selected_valid in Hr. destruct row as [|[|[|row]]]; cbn in Hr; [|discriminate| |discriminate];
      (split; [by vm_compute|]; cbn; repeat constructor; cbn; lia).
  - done.
  - vm_compute. discriminate.
  - exists v. split; [done|]. rewrite (H 0); [by vm_compute|]. by apply selected_valid.
Defined.

(** ** Where the functions break the interface *)

(** A repeated base row is looked for under its own number instead of the
    number of the row it was first met at.  Functions of one argument get flat
    or constant inputs, but [mat_mul] with its second argument can get a
    dictionary: here the third row gets the result of the first one. *)
Theorem repeated_row_mixed :
  (v ← MatrixMultiply_apply plainProduct (mkMatrixMultiply [[f32_of_Z 10]] 1 1) false [true; true; true] (Dictionary [1; 2; 2])
         (arrayVector [[f32_of_Z 1]; [f32_of_Z 2]; [f32_of_Z 3]]) None;
   mapM_o (arrayAt v) [0; 1; 2]) = Ok [[f32_of_Z 20]; [f32_of_Z 30]; [f32_of_Z 20]].
Proof. vm_compute. done. Qed.

(** [batch_norm_1d] writes all rows to the same place: they all end up with
    the same array, that of the last row. *)
Theorem batchNorm_rows_equal mean sum sqrt f rows m input output v row1 row2 :
  BatchNorm1D_apply mean sum sqrt f rows m input output = Ok v → row1 ∈ selected rows → row2 ∈ selected rows → arrayAt v row1 = arrayAt v row2.
Proof.
  unfold BatchNorm1D_apply, scatterRows, applyToSelected. intros H H1 H2. apply bind_Ok_inv in H as ([rowMap unique] & _ & H).
  apply bind_Ok_inv in H as (inputMatrix & _ & H). apply bind_Ok_inv in H as (v' & _ & H). apply bind_Ok_inv in H as ([off v''] & H & [= <-]).
  apply scatter_same_place in H as [_ H]. destruct (H row1 H1) as [E1 E2]. destruct (H row2 H2) as [E3 E4]. unfold arrayAt, readAt. cbn. by rewrite E1, E2, E3, E4.
Qed.

(** The arrays of rows that are not selected are lost, although a result that
    is partly filled must be kept. *)
Theorem unselected_row_lost :
  (v ← MatrixVectorAddition_apply (mkMatrixVectorAddition [f32_of_Z 10] 1) [false; true] Identity (arrayVector [[f32_of_Z 1]; [f32_of_Z 2]])
         (Some (arrayVector [[f32_of_Z 7]]));
   mapM_o (arrayAt v) [0; 1]) = Ok [[]; [f32_of_Z 12]].
Proof. vm_compute. done. Qed.

(** [mat_mul_s] writes from the first element on, over the arrays of rows that
    are not selected. *)
Theorem sparse_overwrites :
  (v ← SparseMatrixMultiply_apply (λ n d ts w, [[f32_of_Z 2]]) (mkMatrixMultiply [[f32_of_Z 2]] 1 1) false [true] Identity
         (arrayVector [[f32_of_Z 1]]) (Some (mkArrayVector [0; 0] [0; 1] [Some (f32_of_Z 7)]));
   arrayAt v 1) = Ok [f32_of_Z 2].
Proof. vm_compute. done. Qed.

(** A negative index reads in front of the weights. *)
Theorem embedding_negative_index : Embedding_apply (mkEmbedding [f32_of_Z 5; f32_of_Z 6] 2 1) [true] Identity (arrayVector [[(-1)%Z]]) None = Undefined.
Proof. vm_compute. done. Qed.

(** [softmax] takes the length of its last distinct row for all rows. *)
Theorem softmax_mixed_lengths exp sum :
  (v ← Softmax_apply exp sum [true; true] Identity (arrayVector [[f32_of_Z 1; f32_of_Z 2]; [f32_of_Z 3]]) None; xs ← arrayAt v 0; Ok (length xs)) = Ok 1.
Proof. vm_compute. done. Qed.
