(* ===== verification/MLConvolve.v ===== *)
(** * Convolution and pooling functions

    Models the functions [conv2d], [vec_scal_add] and [max_pool] of
    [velox/ml_functions/functions.h], which read the elements of a flat column
    of arrays as one buffer.  Sums and maxima of blocks are parameters; sizes
    are taken to stay within [int]. *)
From Stdlib Require Import SpecFloat.
From S2P Require Import Prelude CFloat MLVector MLFunctions MLCorrect MLTheorems.
Local Open Scope nat_scope.
Local Open Scope list_scope.

Definition elementAt (values : list (option float)) (i : nat) : outcome float := o ← readAt values i; initialised o.

(** The values of [input.block(i, j, height, width)] of a matrix with [cols]
    columns that starts at [start]. *)
Definition block (values : list (option float)) (start cols i j height width : nat) : outcome (list float) :=
  rows ← mapM_o (λ di, mapM_o (λ dj, elementAt values (start + (i + di) * cols + (j + dj))) (seq 0 width)) (seq 0 height);
  Ok (concat rows).

(** The loops over the cells of an output of [planes] matrices of [height] by
    [width]; the planes are [plane] cells apart. *)
Definition cellLoop (planes height width plane : nat) (cell : nat → nat → nat → float → outcome float) (row : list float) : outcome (list float) :=
  foldM_o (λ row f, foldM_o (λ row i, foldM_o (λ row j,
    old ← readAt row (f * plane + i * width + j);
    x ← cell f i j old;
    storeAt row (f * plane + i * width + j) x) (seq 0 width) row) (seq 0 height) row) (seq 0 planes) row.

(** ** [conv2d] *)
Section Convolute.
Context (sum : list float → float).

Record Convolute := mkConvolute { cv_weights : list (option float); filters : nat; filterHeight : nat; filterWidth : nat; channels : nat; inputHeight : nat; inputWidth : nat }.

Definition output_height (f : Convolute) : Z := (Z.of_nat (inputHeight f) - Z.of_nat (filterHeight f) + 1)%Z.
Definition output_width (f : Convolute) : Z := (Z.of_nat (inputWidth f) - Z.of_nat (filterWidth f) + 1)%Z.

(** The contribution of one channel of sample [s] to a cell. *)
Definition channelCell (cv : Convolute) (values : list (option float)) (s c f i j : nat) : outcome float :=
  xs ← block values (s * (inputHeight cv * inputWidth cv * channels cv) + c * (inputHeight cv * inputWidth cv)) (inputWidth cv) i j (filterHeight cv) (filterWidth cv);
  ws ← block (cv_weights cv) (f * (filterHeight cv * filterWidth cv * channels cv) + c * (filterHeight cv * filterWidth cv)) (filterWidth cv) 0 0 (filterHeight cv) (filterWidth cv);
  Ok (sum (zip_with f32_mul xs ws)).

(** A vector of a negative size cannot be made. *)
Definition Convolute_apply (cv : Convolute) (rows : SelectivityVector) (input : ArrayVector float) : outcome (ArrayVector float) :=
  let total := (output_height cv * output_width cv * Z.of_nat (filters cv))%Z in
  if (total <? 0)%Z then Throw LengthError
  else
    let height := Z.to_nat (output_height cv) in
    let width := Z.to_nat (output_width cv) in
    results ← mapM_o (λ s,
      foldM_o (λ row c,
        cellLoop (filters cv) height width (height * width) (λ f i j old, x ← channelCell cv (elements input) s c f i j; Ok (f32_add old x)) row)
        (seq 0 (channels cv)) (replicate (Z.to_nat total) f32_zero)) (seq 0 (length rows));
    Ok (arrayVector results).
End Convolute.

(** ** [vec_scal_add]: the bias is added to the input itself, which is then
    copied to the output. *)
Record VectorScalarAddition := mkVectorScalarAddition { vsa_weights : list float; vsa_dims0 : nat }.

Definition addBias (f : VectorScalarAddition) (numRows numCols step : nat) (values : list (option float)) (i : nat) : outcome (list (option float)) :=
  w ← readAt (vsa_weights f) i;
  foldM_o (λ values r, foldM_o (λ values k,
    x ← elementAt values (r * numCols + (i * step + k));
    storeAt values (r * numCols + (i * step + k)) (Some (f32_add x w))) (seq 0 step) values) (seq 0 numRows) values.

(** The elements of the input after the call, and the output. *)
Definition VectorScalarAddition_apply (f : VectorScalarAddition) (rows : SelectivityVector) (input : ArrayVector float)
    : outcome (list (option float) * ArrayVector float) :=
  if (length rows =? 0) || (vsa_dims0 f =? 0) then Undefined
  else
    let num_cols := length (elements input) / length rows in
    let step := num_cols / vsa_dims0 f in
    values ← foldM_o (addBias f (length rows) num_cols step) (seq 0 (vsa_dims0 f)) (elements input);
    results ← mapM_o (λ r, readSlice values (r * num_cols) num_cols) (seq 0 (length rows));
    Ok (values, arrayVector results).

(** ** [max_pool] *)
Section MaxPool.
Context (maxCoeff : list float → float).

Record MaxPool := mkMaxPool { side : nat; poolRows : nat; poolCols : nat }.

Definition MaxPool_apply (f : MaxPool) (rows : SelectivityVector) (input : ArrayVector float) : outcome (ArrayVector float) :=
  if (length rows =? 0) || (poolRows f * poolCols f =? 0) || (side f =? 0) then Undefined
  else
    let num_cols := length (elements input) / length rows in
    let num_channels := num_cols / (poolRows f * poolCols f) in
    let output_size := poolRows f * poolCols f / (side f * side f) in
    let output_rows := poolRows f / side f in
    let output_cols := poolCols f / side f in
    results ← mapM_o (λ s,
      cellLoop num_channels output_rows output_cols output_size (λ c i j _,
        xs ← block (elements input) (s * num_cols + c * poolRows f * poolCols f) (poolCols f) (i * side f) (j * side f) (side f) (side f);
        Ok (maxCoeff xs)) (replicate (num_cols / (side f * side f)) f32_zero)) (seq 0 (length rows));
    Ok (arrayVector results).
End MaxPool.

(** ** Loops over cells *)
Lemma foldM_o_strides {St} (g : St → nat → outcome St) (st : nat → St) b w n :
  (∀ i, i < n → g (st (b + i * w)) i = Ok (st (b + S i * w))) → foldM_o g (seq 0 n) (st b) = Ok (st (b + n * w)).
Proof.
  induction n as [|n IH]; intros H; [by rewrite Nat.mul_0_l, Nat.add_0_r|].
  rewrite seq_S, foldM_o_app, IH by (intros i Hi; apply H; lia). cbn. rewrite H by lia. done.
Qed.

(** The cells before [k] have got their new values. *)
Definition upTo (h : nat → float → float) (row : list float) (k : nat) : list float := imap (λ n old, if n <? k then h n old else old) row.

Lemma upTo_0 h row : upTo h row 0 = row.
Proof. unfold upTo. apply list_eq. intros i. rewrite list_lookup_imap. by destruct (row !! i). Qed.

Lemma upTo_all h row k : length row ≤ k → upTo h row k = imap h row.
Proof.
  intros Hk. unfold upTo. apply list_eq. intros i. rewrite !list_lookup_imap. destruct (row !! i) eqn:E; [|done]. cbn [fmap option_fmap option_map]. apply lookup_lt_Some in E.
  by rewrite (proj2 (Nat.ltb_lt _ _)) by lia.
Qed.

Lemma upTo_step h row k x : row !! k = Some x → readAt (upTo h row k) k = Ok x ∧ storeAt (upTo h row k) k (h k x) = Ok (upTo h row (S k)).
Proof.
  intros Hx. pose proof (lookup_lt_Some _ _ _ Hx) as Hk. split.
  - unfold readAt, upTo. rewrite list_lookup_imap, Hx. cbn [fmap option_fmap option_map]. by rewrite (proj2 (Nat.ltb_ge k k)) by lia.
  - rewrite storeAt_Ok by (unfold upTo; by rewrite length_imap). f_equal. unfold upTo. apply list_eq. intros i. rewrite list_lookup_imap. destruct (decide (i = k)) as [->|Hne].
    + rewrite list_lookup_insert_eq by by rewrite length_imap. rewrite Hx. cbn [fmap option_fmap option_map]. by rewrite (proj2 (Nat.ltb_lt k (S k))) by lia.
    + rewrite list_lookup_insert_ne by done. rewrite list_lookup_imap. destruct (row !! i); [|done]. cbn [fmap option_fmap option_map]. f_equal.
      destruct (Nat.ltb_spec i k), (Nat.ltb_spec i (S k)); (done || lia).
Qed.

Lemma cellLoop_Ok planes height width cell (h : nat → float → float) row :
  length row = planes * (height * width) →
  (∀ f i j old, f < planes → i < height → j < width → cell f i j old = Ok (h (f * (height * width) + i * width + j) old)) →
  cellLoop planes height width (height * width) cell row = Ok (imap h row).
Proof.
  intros Hl Hc. unfold cellLoop. rewrite <- (upTo_0 h row) at 1.
  pose proof (foldM_o_strides (λ row f, foldM_o (λ row i, foldM_o (λ row j,
    old ← readAt row (f * (height * width) + i * width + j); x ← cell f i j old; storeAt row (f * (height * width) + i * width + j) x)
    (seq 0 width) row) (seq 0 height) row) (upTo h row) 0 (height * width) planes) as E. rewrite E; [f_equal; apply upTo_all; lia|]. clear E.
  intros f Hf. cbn beta. rewrite Nat.add_0_l. replace (0 + S f * (height * width)) with (f * (height * width) + height * width) by lia.
  apply (foldM_o_strides _ (upTo h row) (f * (height * width)) width height). intros i Hi.
  replace (f * (height * width) + S i * width) with (f * (height * width) + i * width + width * 1) by lia.
  apply (foldM_o_strides _ (upTo h row) (f * (height * width) + i * width) 1 width). intros j Hj. rewrite Nat.mul_1_r.
  assert (f * (height * width) + i * width + j < length row) as Hlt.
  { rewrite Hl. pose proof (Nat.mul_le_mono_r (S i) height width Hi). pose proof (Nat.mul_le_mono_r (S f) planes (height * width) Hf). lia. }
  destruct (lookup_lt_is_Some_2 row _ Hlt) as [x Hx].
  destruct (upTo_step h row _ x Hx) as [E1 E2]. rewrite E1. cbn [mbind outcome_bind]. rewrite Hc by done. cbn [mbind outcome_bind]. rewrite E2. do 2 f_equal. lia.
Qed.

(** ** Blocks *)
Definition blockOf (xs : list float) (start cols i j height width : nat) : list float :=
  concat (map (λ di, map (λ dj, nth (start + (i + di) * cols + (j + dj)) xs f32_zero) (seq 0 width)) (seq 0 height)).

Lemma block_Ok xs start cols i j height width :
  (∀ di dj, di < height → dj < width → start + (i + di) * cols + (j + dj) < length xs) →
  block (map Some xs) start cols i j height width = Ok (blockOf xs start cols i j height width).
Proof.
  intros H. unfold block. rewrite (mapM_o_map _ (λ di, map (λ dj, nth (start + (i + di) * cols + (j + dj)) xs f32_zero) (seq 0 width))); [done|].
  intros di Hdi%elem_of_seq. apply mapM_o_map. intros dj Hdj%elem_of_seq. specialize (H di dj ltac:(lia) ltac:(lia)). unfold elementAt, readAt.
  destruct (lookup_lt_is_Some_2 xs _ H) as [x Hx]. change (map Some xs) with (Some <$> xs). rewrite list_lookup_fmap, Hx. cbn. f_equal. symmetry. by apply nth_lookup_Some.
Qed.

(** A cell in one of [parts] parts of one of [outer] parts of [size] cells each. *)
Lemma nested_bound a outer b parts size cell : a < outer → b < parts → cell < size → a * (size * parts) + b * size + cell < outer * (size * parts).
Proof.
  intros Ha Hb Hc. pose proof (Nat.mul_le_mono_r (S a) outer (size * parts) Ha). pose proof (Nat.mul_le_mono_l (S b) parts size Hb). lia.
Qed.

Lemma cell_index (oh ow f i j : nat) : i < oh → j < ow →
  ((f * (oh * ow) + i * ow + j) / (oh * ow) = f ∧ (f * (oh * ow) + i * ow + j) mod (oh * ow) / ow = i ∧ (f * (oh * ow) + i * ow + j) mod ow = j).
Proof.
  intros Hi Hj. pose proof (Nat.mul_le_mono_r (S i) oh ow Hi) as H. assert (i * ow + j < oh * ow) as Hlt by lia.
  rewrite <- Nat.add_assoc. rewrite Nat.div_add_l, Nat.div_small, Nat.add_0_r by lia. split; [done|].
  rewrite (Nat.add_comm (f * (oh * ow))), Nat.Div0.mod_add, Nat.mod_small by lia. rewrite Nat.div_add_l, Nat.div_small, Nat.add_0_r by lia. split; [done|].
  rewrite (Nat.mul_comm oh ow), (Nat.mul_comm ow oh), Nat.mul_assoc, Nat.Div0.mod_add, Nat.add_comm, Nat.Div0.mod_add, Nat.mod_small; lia.
Qed.

(** ** [conv2d] *)
Section Cells.
Context (sum : list float → float).
Variables (cv : Convolute) (ws xs : list float) (samples : nat).
Let kh := filterHeight cv.
Let kw := filterWidth cv.
Let ih := inputHeight cv.
Let iw := inputWidth cv.
Hypothesis Hws : cv_weights cv = map Some ws.
Hypothesis Hwl : length ws = filters cv * (kh * kw * channels cv).
Hypothesis Hxl : samples * (ih * iw * channels cv) ≤ length xs.
Hypothesis Hkh : 1 ≤ kh ≤ ih.
Hypothesis Hkw : 1 ≤ kw ≤ iw.

(** Channel [c] of sample [s] under filter [f] at row [i] and column [j]. *)
Definition windowSum (s c f i j : nat) : float :=
  sum (zip_with f32_mul (blockOf xs (s * (ih * iw * channels cv) + c * (ih * iw)) iw i j kh kw)
        (blockOf ws (f * (kh * kw * channels cv) + c * (kh * kw)) kw 0 0 kh kw)).

Lemma channelCell_Ok s c f i j :
  s < samples → c < channels cv → f < filters cv → i + kh ≤ ih → j + kw ≤ iw → channelCell sum cv (map Some xs) s c f i j = Ok (windowSum s c f i j).
Proof using Hws Hwl Hxl Hkh Hkw.
  intros Hs Hc Hf Hi Hj. unfold channelCell. rewrite block_Ok.
  - cbn [mbind outcome_bind]. rewrite Hws, block_Ok; [done|]. intros di dj Hdi Hdj. fold kh kw in Hdi, Hdj |- *. rewrite Hwl, !Nat.add_0_l, <- Nat.add_assoc.
    apply nested_bound; [done|done|]. pose proof (Nat.mul_le_mono_r (S di) kh kw Hdi). lia.
  - intros di dj Hdi Hdj. fold ih iw kh kw in Hdi, Hdj |- *. eapply Nat.lt_le_trans; [|exact Hxl]. rewrite <- Nat.add_assoc. apply nested_bound; [done|done|].
    pose proof (Nat.mul_le_mono_r (S (i + di)) ih iw ltac:(lia)). lia.
Qed.

Let oh := S ih - kh.
Let ow := S iw - kw.

(** The cells of a sample: filter by filter, row by row. *)
Definition convolved (s : nat) : list float :=
  map (λ n, foldl (λ acc c, f32_add acc (windowSum s c (n / (oh * ow)) (n mod (oh * ow) / ow) (n mod ow))) f32_zero (seq 0 (channels cv))) (seq 0 (filters cv * (oh * ow))).

Lemma sample_Ok s : s < samples →
  foldM_o (λ row c, cellLoop (filters cv) oh ow (oh * ow) (λ f i j old, x ← channelCell sum cv (map Some xs) s c f i j; Ok (f32_add old x)) row)
    (seq 0 (channels cv)) (replicate (filters cv * (oh * ow)) f32_zero) = Ok (convolved s).
Proof using Hws Hwl Hxl Hkh Hkw.
  intros Hs. set (N := filters cv * (oh * ow)).
  set (h c n old := f32_add old (windowSum s c (n / (oh * ow)) (n mod (oh * ow) / ow) (n mod ow))).
  pose proof (foldM_o_strides (λ row c, cellLoop (filters cv) oh ow (oh * ow) (λ f i j old, x ← channelCell sum cv (map Some xs) s c f i j; Ok (f32_add old x)) row)
    (λ k, map (λ n, foldl (λ acc c, h c n acc) f32_zero (seq 0 k)) (seq 0 N)) 0 1 (channels cv)) as E.
  assert (map (λ n, foldl (λ acc c, h c n acc) f32_zero (seq 0 0)) (seq 0 N) = replicate N f32_zero) as E0.
  { apply list_eq. intros i. change (map ?f ?l) with (f <$> l). rewrite list_lookup_fmap. destruct (decide (i < N)).
    - by rewrite lookup_seq_lt, lookup_replicate_2 by done.
    - rewrite lookup_seq_ge by lia. symmetry. apply lookup_replicate_None. lia. }
  cbn beta in E. rewrite E0 in E. rewrite E, Nat.mul_1_r, Nat.add_0_l; [done|]. clear E E0. intros c Hc. rewrite Nat.mul_1_r, Nat.add_0_l, Nat.mul_1_r, Nat.add_0_l.
  rewrite (cellLoop_Ok _ _ _ _ (h c)).
  - f_equal. apply list_eq. intros i. rewrite list_lookup_imap. change (map ?f ?l) with (f <$> l). rewrite !list_lookup_fmap. destruct (seq 0 N !! i) eqn:Ei; [|done].
    apply lookup_seq in Ei as [-> _]. cbn [fmap option_fmap option_map]. rewrite seq_S, foldl_app. done.
  - by rewrite length_map, length_seq.
  - intros f i j old Hf Hi Hj. rewrite channelCell_Ok; [|done|done|done|unfold oh in Hi; lia|unfold ow in Hj; lia]. cbn [mbind outcome_bind]. unfold h.
    destruct (cell_index oh ow f i j Hi Hj) as (-> & -> & ->). done.
Qed.
End Cells.

(** [conv2d] computes the convolution of every sample: for filters no
    larger than the input, the array of sample [s] holds for every filter, row
    and column the sum over the channels of the products of the input under
    the filter with the weights, accumulated channel by channel; all reads stay
    within the input and the weights. *)
Theorem conv2d_cells sum cv ws xs rows input s :
  cv_weights cv = map Some ws → length ws = filters cv * (filterHeight cv * filterWidth cv * channels cv) →
  elements input = map Some xs → length rows * (inputHeight cv * inputWidth cv * channels cv) ≤ length xs →
  1 ≤ filterHeight cv ≤ inputHeight cv → 1 ≤ filterWidth cv ≤ inputWidth cv → s < length rows →
  ∃ v, Convolute_apply sum cv rows input = Ok v ∧ arrayAt v s = Ok (convolved sum cv ws xs s).
Proof.
  intros Hws Hwl Hxs Hxl Hkh Hkw Hs. unfold Convolute_apply. cbv zeta.
  assert (output_height cv = Z.of_nat (S (inputHeight cv) - filterHeight cv)) as -> by (unfold output_height; lia).
  assert (output_width cv = Z.of_nat (S (inputWidth cv) - filterWidth cv)) as -> by (unfold output_width; lia).
  rewrite <- !Nat2Z.inj_mul. replace (_ <? 0)%Z with false by (symmetry; apply Z.ltb_ge, Nat2Z.is_nonneg). rewrite !Nat2Z.id, (Nat.mul_comm _ (filters cv)).
  rewrite (mapM_o_map _ (convolved sum cv ws xs)).
  - cbn. eexists. split; [done|]. apply arrayVector_arrayAt. change (map ?f ?l) with (f <$> l). rewrite list_lookup_fmap, lookup_seq_lt by done. done.
  - intros s' Hs'%elem_of_seq. rewrite Hxs. apply (sample_Ok sum cv ws xs (length rows) Hws Hwl Hxl Hkh Hkw s'). lia.
Qed.

Lemma conv2d_cells_witness : ∃ v,
  Convolute_apply (foldl f32_add f32_zero) (mkConvolute (map Some [f32_of_Z 1; f32_of_Z 2; f32_of_Z 3; f32_of_Z 4]) 1 2 2 1 3 3) [true]
    (arrayVector [map f32_of_Z (seqZ 1 9)]) = Ok v ∧ arrayAt v 0 = Ok (map f32_of_Z [37; 47; 67; 77]%Z).
Proof.
  destruct (conv2d_cells (foldl f32_add f32_zero) (mkConvolute (map Some [f32_of_Z 1; f32_of_Z 2; f32_of_Z 3; f32_of_Z 4]) 1 2 2 1 3 3)
    [f32_of_Z 1; f32_of_Z 2; f32_of_Z 3; f32_of_Z 4] (map f32_of_Z (seqZ 1 9)) [true] (arrayVector [map f32_of_Z (seqZ 1 9)]) 0) as (v & E1 & E2).
  - done.
  - done.
  - cbn [elements arrayVector concat]. by rewrite app_nil_r.
  - vm_compute. lia.
  - cbn. lia.
  - cbn. lia.
  - cbn. lia.
  - exists v. split; [done|]. rewrite E2. by vm_compute.
Defined.

(** ** Where the functions differ from what they mean to do *)

(** [vec_scal_add] changes its input: a second reader of the column, here the
    same call again, finds the bias in it. *)
Theorem bias_added_twice :
  (r1 ← VectorScalarAddition_apply (mkVectorScalarAddition [f32_of_Z 10] 1) [true] (arrayVector [[f32_of_Z 1]]);
   r2 ← VectorScalarAddition_apply (mkVectorScalarAddition [f32_of_Z 10] 1) [true] ((arrayVector [[f32_of_Z 1]]) <| elements := r1.1 |>);
   arrayAt r2.2 0) = Ok [f32_of_Z 21].
Proof. by vm_compute. Qed.

(** When the side does not divide the size, [max_pool] leaves zeros between the
    channels: five by five pooled by two gives six cells instead of four. *)
Theorem maxPool_gap maxCoeff :
  (v ← MaxPool_apply maxCoeff (mkMaxPool 2 5 5) [true] (arrayVector [replicate 25 f32_one]); arrayAt v 0) =
  Ok (replicate 4 (maxCoeff (replicate 4 f32_one)) ++ [f32_zero; f32_zero]).
Proof. by vm_compute. Qed.
