(* ===== verification/Encoder.v ===== *)
(** * Encoders

    Models [velox/ml_functions/Encoder.h]: the functions that turn categories,
    token numbers and rating maps into arrays of numbers.  A hash map from
    categories to numbers is a [gmap]; warnings are not modelled. *)
From Stdlib Require Import SpecFloat Ascii String.
From S2P Require Import Prelude CFloat Text MLVector MLFunctions MLCorrect MLTheorems.
Local Open Scope nat_scope.
Local Open Scope list_scope.

(** Loops that set the result of every selected row. *)
Definition setRows {B} (rows : SelectivityVector) (initial : B) (rowResult : nat → outcome B) : outcome (list B) :=
  applyToSelected (λ result row, xs ← rowResult row; storeAt result row xs) rows (replicate (length rows) initial).

(** The values of a flat vector. *)
Definition valueAt {A} (values : list (option A)) (row : nat) : outcome A := o ← readAt values row; initialised o.

(** ** Categories *)
Definition IntEncoder_apply (mapping_ : gmap Z Z) (rows : SelectivityVector) (input : ArrayVector Z) : outcome (ArrayVector Z) :=
  result ← setRows rows [] (λ row,
    userIdBeforeEncode ← valueAt (elements input) row;
    Ok [default (-1)%Z (mapping_ !! userIdBeforeEncode)]);
  Ok (arrayVector result).

Definition StringEncoder_apply (mapping_ : gmap string Z) (rows : SelectivityVector) (m : Mapping) (input : list (option string)) : outcome (ArrayVector Z) :=
  result ← setRows rows [] (λ row,
    i ← index m row;
    val ← valueAt input i;
    Ok [default (-1)%Z (mapping_ !! val)]);
  Ok (arrayVector result).

Definition StringVariadicEncoder_apply (mapping_ : gmap string Z) (rows : SelectivityVector) (input : ArrayVector string) : outcome (ArrayVector Z) :=
  result ← setRows rows [] (λ row,
    numElements ← readAt (rawSizes input) row;
    offset ← readAt (rawOffsets input) row;
    mapM_o (λ j, val ← valueAt (elements input) (offset + j); Ok (default 0%Z (mapping_ !! val))) (seq 0 numElements));
  Ok (arrayVector result).

(** One token of a list separated by bars. *)
Definition setToken (mapping_ : gmap string Z) (row : list Z) (token : text) : outcome (list Z) :=
  match mapping_ !! string_of_list_ascii token with
  | None => Ok row
  | Some value =>
      index ← checked32 (value - 1);
      if ((0 <=? index) && (index <? Z.of_nat (size mapping_)))%Z then storeAt row (Z.to_nat index) 1%Z else Ok row
  end.

Definition OneHotEncoder_apply (mapping_ : gmap string Z) (rows : SelectivityVector) (input : list (option string)) : outcome (ArrayVector Z) :=
  let zeros := replicate (size mapping_) 0%Z in
  result ← setRows rows zeros (λ row,
    val ← valueAt input row;
    foldM_o (setToken mapping_) (splitString (txt val) "|"%char) zeros);
  Ok (arrayVector result).

(** ** Token frequencies *)
Definition countToken (vocabSize_ : nat) (buffer : list float) (tokenId : Z) : outcome (list float) :=
  if ((0 <=? tokenId) && (tokenId <? Z.of_nat vocabSize_))%Z then
    x ← readAt buffer (Z.to_nat tokenId); storeAt buffer (Z.to_nat tokenId) (f32_add x f32_one)
  else Ok buffer.

Definition normaliseCounts (buffer : list float) : list float :=
  let sum := foldl f32_add f32_zero buffer in
  if SFltb f32_zero sum then map (λ x, f32_div x sum) buffer else buffer.

Definition TokenFreqVector_apply (vocabSize_ : nat) (rows : SelectivityVector) (input : ArrayVector Z) : outcome (ArrayVector float) :=
  let zeros := replicate vocabSize_ f32_zero in
  result ← setRows rows zeros (λ row,
    offset ← readAt (rawOffsets input) row;
    size ← readAt (rawSizes input) row;
    counts ← foldM_o (λ buffer i, tokenId ← valueAt (elements input) (offset + i); countToken vocabSize_ buffer tokenId) (seq 0 size) zeros;
    Ok (normaliseCounts counts));
  Ok (arrayVector result).

(** ** Ratings: a map from movies to ratings as the offsets, sizes, keys and values of its rows *)
Record MapVector := mkMapVector { mapOffsets : list nat; mapSizes : list nat; mapKeys : list (option Z); mapValues : list (option Z) }.

Definition setRating (numItems_ : nat) (buffer : list float) (movieId rating : Z) : outcome (list float) :=
  idx ← checked32 (movieId - 1);
  if ((0 <=? idx) && (idx <? Z.of_nat numItems_))%Z then storeAt buffer (Z.to_nat idx) (f32_of_Z rating) else Ok buffer.

Definition RatingMapToArray_apply (numItems_ : nat) (rows : SelectivityVector) (input : MapVector) : outcome (ArrayVector float) :=
  let zeros := replicate numItems_ f32_zero in
  result ← setRows rows zeros (λ row,
    off ← readAt (mapOffsets input) row;
    sz ← readAt (mapSizes input) row;
    foldM_o (λ buffer i,
      movieId ← valueAt (mapKeys input) (off + i);
      rating ← valueAt (mapValues input) (off + i);
      setRating numItems_ buffer movieId rating) (seq 0 sz) zeros);
  Ok (arrayVector result).

(** ** Several hot positions of equal weight; all rows are read, selected or not *)
Definition MultiHotNormalizedEncoder_apply (size_ : nat) (rows : SelectivityVector) (input : ArrayVector Z) : outcome (ArrayVector float) :=
  encoding ← mapM_o (λ i,
    numSubIndices ← readAt (rawSizes input) i;
    indicesOffset ← readAt (rawOffsets input) i;
    let value := f64_to_f32 (f64_div (f64_of_Z 1) (f64_of_Z (Z.of_nat numSubIndices))) in
    foldM_o (λ row j,
      embedIndex ← valueAt (elements input) (indicesOffset + j);
      if (embedIndex <? 0)%Z then Undefined else storeAt row (Z.to_nat embedIndex) value) (seq 0 numSubIndices) (replicate size_ f32_zero))
    (seq 0 (length rows));
  Ok (arrayVector encoding).

(** ** Correctness *)
Lemma setRows_Ok {B} rows (initial : B) rowResult (res : nat → B) :
  (∀ row, row ∈ selected rows → rowResult row = Ok (res row)) →
  ∃ result, setRows rows initial rowResult = Ok result ∧ ∀ row, row ∈ selected rows → result !! row = Some (res row).
Proof.
  intros H. set (bs := replicate (length rows) initial). assert (∀ row, row ∈ selected rows → row < length bs) as Hlt.
  { intros row Hr. unfold bs, selected in *. rewrite length_replicate. apply list_elem_of_filter in Hr as [_ Hr%elem_of_seq]. lia. }
  exists (written (λ row _, res row) (selected rows) bs). split.
  - unfold setRows, applyToSelected. fold bs. rewrite <- (written_nil (λ row _, res row) bs) at 1. apply (foldM_o_prefix _ (λ l, written (λ row _, res row) l bs)).
    intros l1 row l2 El. assert (row ∈ selected rows) as Hin by (rewrite El; set_solver). rewrite H by done. cbn [mbind outcome_bind].
    rewrite storeAt_Ok by (rewrite written_length; by apply Hlt). f_equal. apply insert_written; [by eapply selected_split|done|done].
  - intros row Hr. pose proof (Hlt row Hr). apply list_elem_of_lookup in Hr as [i Hi]. by rewrite (written_lookup _ _ _ row i (selected_NoDup rows) Hi).
Qed.

(** An encoder whose rows are computed one by one. *)
Lemma encoder_rows {B} rows (initial : list B) rowResult (res : nat → list B) :
  (∀ row, row ∈ selected rows → rowResult row = Ok (res row)) →
  ∃ v, (result ← setRows rows initial rowResult; Ok (arrayVector result)) = Ok v ∧ ∀ row, row ∈ selected rows → arrayAt v row = Ok (res row).
Proof.
  intros H. destruct (setRows_Ok rows initial rowResult res H) as (result & E & Hr). rewrite E. cbn. eexists. split; [done|].
  intros row Hin. apply arrayVector_arrayAt. by apply Hr.
Qed.

Lemma valueAt_Ok {A} (l : list (option A)) i x : l !! i = Some (Some x) → valueAt l i = Ok x.
Proof. intros H. unfold valueAt, readAt. by rewrite H. Qed.

(** The position a token stands for. *)
Definition tokenPosition (mapping_ : gmap string Z) (token : text) : option nat :=
  match mapping_ !! string_of_list_ascii token with
  | Some value => if ((1 <=? value) && (value <=? Z.of_nat (size mapping_)))%Z then Some (Z.to_nat (value - 1)) else None
  | None => None
  end.

(** Ones at the positions of the tokens, zeros elsewhere. *)
Definition hot (mapping_ : gmap string Z) (tokens : list text) : list Z :=
  map (λ k, if decide (Some k ∈ map (tokenPosition mapping_) tokens) then 1%Z else 0%Z) (seq 0 (size mapping_)).

Lemma hot_lookup mapping_ tokens k :
  k < size mapping_ → hot mapping_ tokens !! k = Some (if decide (Some k ∈ map (tokenPosition mapping_) tokens) then 1%Z else 0%Z).
Proof. intros H. unfold hot. change (map ?f (seq 0 ?n)) with (f <$> seq 0 n). rewrite list_lookup_fmap, lookup_seq_lt by done. done. Qed.

Lemma setToken_hot mapping_ tokens token :
  (∀ k value, mapping_ !! k = Some value → is_int32 (value - 1)) → setToken mapping_ (hot mapping_ tokens) token = Ok (hot mapping_ (tokens ++ [token])).
Proof.
  intros Hm. assert (length (hot mapping_ tokens) = size mapping_) as Hl by (unfold hot; by rewrite length_map, length_seq).
  assert (∀ p, tokenPosition mapping_ token = p → hot mapping_ (tokens ++ [token]) = match p with Some k => <[k := 1%Z]> (hot mapping_ tokens) | None => hot mapping_ tokens end) as Hhot.
  { intros p Hp. apply list_eq. intros j. destruct (decide (j < size mapping_)) as [Hj|Hj].
    - rewrite hot_lookup, map_app by done. cbn. rewrite Hp. destruct p as [k|].
      + destruct (decide (j = k)) as [->|Hne].
        * rewrite list_lookup_insert_eq by lia. by rewrite decide_True by set_solver.
        * rewrite list_lookup_insert_ne by done. rewrite hot_lookup by done. f_equal. apply decide_ext. set_solver.
      + rewrite hot_lookup by done. f_equal. apply decide_ext. set_solver.
    - rewrite lookup_ge_None_2; [|unfold hot; rewrite length_map, length_seq; lia]. symmetry. apply lookup_ge_None_2. destruct p; rewrite ?length_insert; lia. }
  unfold setToken. destruct (mapping_ !! string_of_list_ascii token) as [value|] eqn:E.
  - rewrite checked32_Ok by by eapply Hm. cbn [mbind outcome_bind]. destruct ((0 <=? value - 1) && (value - 1 <? Z.of_nat (size mapping_)))%Z eqn:Ev.
    + rewrite storeAt_Ok by lia. rewrite (Hhot (Some (Z.to_nat (value - 1)))); [done|]. unfold tokenPosition. rewrite E. replace (_ && _)%bool with true by (symmetry; lia). done.
    + rewrite (Hhot None); [done|]. unfold tokenPosition. rewrite E. replace (_ && _)%bool with false by (symmetry; lia). done.
  - rewrite (Hhot None); [done|]. unfold tokenPosition. by rewrite E.
Qed.

(** The one-hot encoding of a list of categories separated by bars is exact:
    for every selected row the array has one entry per category, which is one
    when a category of the list has that number and zero otherwise; unknown
    categories and numbers out of range set nothing. *)
Theorem oneHot_exact mapping_ rows input (val : nat → string) :
  (∀ k value, mapping_ !! k = Some value → is_int32 (value - 1)) → (∀ row, row ∈ selected rows → input !! row = Some (Some (val row))) →
  ∃ v, OneHotEncoder_apply mapping_ rows input = Ok v ∧
    ∀ row, row ∈ selected rows → ∃ xs, arrayAt v row = Ok xs ∧ length xs = size mapping_ ∧
      ∀ k, k < size mapping_ → xs !! k = Some (if decide (Some k ∈ map (tokenPosition mapping_) (splitString (txt (val row)) "|"%char)) then 1%Z else 0%Z).
Proof.
  intros Hm Hin. destruct (encoder_rows rows (replicate (size mapping_) 0%Z)
    (λ row, val ← valueAt input row; foldM_o (setToken mapping_) (splitString (txt val) "|"%char) (replicate (size mapping_) 0%Z))
    (λ row, hot mapping_ (splitString (txt (val row)) "|"%char))) as (v & E & Hv).
  - intros row Hr. rewrite (valueAt_Ok _ _ _ (Hin row Hr)). cbn [mbind outcome_bind].
    assert (replicate (size mapping_) 0%Z = hot mapping_ []) as ->.
    { unfold hot. apply list_eq. intros k. change (map ?f (seq 0 ?n)) with (f <$> seq 0 n). rewrite list_lookup_fmap. destruct (decide (k < size mapping_)).
      - rewrite lookup_replicate_2, lookup_seq_lt by done. cbn. by rewrite decide_False by set_solver.
      - rewrite lookup_seq_ge by lia. apply lookup_replicate_None. lia. }
    apply foldM_o_prefix. intros l1 token l2 _. by apply setToken_hot.
  - exists v. split; [exact E|]. intros row Hr. eexists. split; [by apply Hv|]. split; [unfold hot; by rewrite length_map, length_seq|]. intros k Hk. by apply hot_lookup.
Qed.

Lemma oneHot_exact_witness : ∃ v,
  OneHotEncoder_apply {["Action" := 1%Z; "Drama" := 2%Z]} [true] [Some "Drama|Western"] = Ok v ∧ ∃ xs, arrayAt v 0 = Ok xs ∧ xs !! 1 = Some 1%Z.
Proof.
  destruct (oneHot_exact {["Action" := 1%Z; "Drama" := 2%Z]} [true] [Some "Drama|Western"] (λ _, "Drama|Western")) as (v & E & H).
  - intros k value Hk. rewrite lookup_insert_Some in Hk. destruct Hk as [[_ <-]|[_ [_ <-]%lookup_singleton_Some]]; unfold_ints; lia.
  - intros row Hr. apply selected_valid in Hr. by destruct row as [|[]].
  - exists v. split; [done|]. destruct (H 0) as (xs & Ex & _ & Hx); [by apply selected_valid|]. exists xs. split; [done|]. rewrite Hx by (vm_compute; lia). by vm_compute.
Defined.

(** [encoder] reads the elements at the number of the row: right for arrays of
    one element, wrong as soon as an array has two. *)
Theorem intEncoder_single mapping_ rows input (x : nat → Z) :
  (∀ row, row ∈ selected rows → elements input !! row = Some (Some (x row))) →
  ∃ v, IntEncoder_apply mapping_ rows input = Ok v ∧ ∀ row, row ∈ selected rows → arrayAt v row = Ok [default (-1)%Z (mapping_ !! x row)].
Proof.
  intros H. apply encoder_rows. intros row Hr. by rewrite (valueAt_Ok _ _ _ (H row Hr)).
Qed.

Theorem intEncoder_shifted :
  (v ← IntEncoder_apply {[1%Z := 10%Z; 2%Z := 20%Z; 3%Z := 30%Z]} [true; true] (arrayVector [[1%Z; 2%Z]; [3%Z]]); mapM_o (arrayAt v) [0; 1]) =
  Ok [[10%Z]; [20%Z]].
Proof. vm_compute. done. Qed.

(** A missing category is -1 for one encoder and 0, the number of a category,
    for the other. *)
Theorem missing_category_numbers :
  (v ← StringEncoder_apply {["a" := 0%Z]} [true] Identity [Some "b"]; arrayAt v 0) = Ok [(-1)%Z] ∧
  (v ← StringVariadicEncoder_apply {["a" := 0%Z]} [true] (arrayVector [["b"]]); arrayAt v 0) = Ok [0%Z].
Proof. by vm_compute. Qed.
