(* ===== verification/LoserTree.v ===== *)
(** * Merging of sorted streams

    Models [velox/exec/TreeOfLosers.h]: [TreeOfLosers] with [next] and
    [nextWithEquals], and [MergeArray].  A stream is the list of the values it
    still holds; the streams themselves belong to the caller, who takes the
    first value of the stream that was returned before the next call. *)
From S2P Require Import Prelude Bits.
Local Open Scope Z_scope.

(** The largest value of [TIndex], a [uint16_t]. *)
Definition kEmpty : Z := 65535.

(** The members that change; [streams_] are given to each call. *)
Record TreeOfLosers := mkTree {
  values_ : list Z;
  equals_ : list bool;
  lastIndex_ : Z;
  firstStream_ : Z }.
#[global] Instance Tree_copy : Copyable TreeOfLosers :=
  λ t, mkTree (values_ t) (equals_ t) (lastIndex_ t) (firstStream_ t).

(** ** Construction *)

(** [while (numStreams > levelSize) { size += levelSize; levelSize *= 2; }]. *)
Fixpoint levels (fuel : nat) (numStreams size levelSize : Z) : outcome (Z * Z) :=
  if numStreams <=? levelSize then Ok (size, levelSize) else
  match fuel with
  | O => Throw OutOfFuel
  | S fuel => levels fuel numStreams (size + levelSize) (levelSize * 2)
  end.

Definition newTreeOfLosers (numStreams : Z) : outcome TreeOfLosers :=
  _ ← velox_check (numStreams <? kEmpty);
  _ ← velox_check (1 <=? numStreams);
  '(size, levelSize) ← levels 16 numStreams 0 1;
  let firstStream :=
    if numStreams =? nextPowerOfTwo numStreams then size
    else let secondLastSize := Z.quot levelSize 2 in
         let overflow := numStreams - secondLastSize in
         (size - secondLastSize) + overflow in
  let n := Z.to_nat firstStream in
  Ok (mkTree (replicate n kEmpty) (replicate n false) kEmpty firstStream).

(** ** Node numbers, cut to the width of [TIndex] *)
Definition parent (node : Z) : Z := uwrap 16 (Z.quot (node - 1) 2).
Definition leftChild (node : Z) : Z := uwrap 16 (node * 2 + 1).
Definition rightChild (node : Z) : Z := uwrap 16 (node * 2 + 2).

(** An assignment to an element of a vector. *)
Definition setAt {A} (l : list A) (i : Z) (x : A) : outcome (list A) :=
  _ ← index l i; Ok (<[Z.to_nat i := x]> l).

Section Streams.
Context {V : Type}.

(** [MergeStream::compare] on the first values of two streams. *)
Variable compare : V → V → Z.

Abbreviation streams := (list (list V)).

Definition hasData (ss : streams) (i : Z) : outcome bool :=
  s ← index ss i; Ok (match s with [] => false | _ => true end).

(** Comparing asks for the first values; there must be some. *)
Definition firstValue (ss : streams) (i : Z) : outcome V :=
  s ← index ss i; match s with [] => Undefined | v :: _ => Ok v end.

Definition compareStreams (ss : streams) (i j : Z) : outcome Z :=
  a ← firstValue ss i; b ← firstValue ss j; Ok (compare a b).

(** [operator<]. *)
Definition lessThan (ss : streams) (i j : Z) : outcome bool :=
  c ← compareStreams ss i j; Ok (c <? 0).

(** ** What differs between [next] and [nextWithEquals]

    What is handed up the tree, an index or an index with a flag; how it is
    kept in a node; and who wins when two of them meet, at first ([playFirst],
    the left and the right child) and later ([playUp], the one in the node and
    the one that comes up).  Both give the winner and the one that stays. *)
Record Contest := {
  entry : Type;
  indexOf : entry → Z;
  plain : Z → entry;
  load : TreeOfLosers → Z → outcome entry;
  store : TreeOfLosers → Z → entry → outcome TreeOfLosers;
  playFirst : streams → entry → entry → outcome (entry * entry);
  playUp : streams → entry → entry → outcome (entry * entry) }.

Definition playLess (ss : streams) (a b : Z) : outcome (Z * Z) :=
  less ← lessThan ss a b; Ok (if less : bool then (a, b) else (b, a)).

Definition plainContest : Contest := {|
  entry := Z;
  indexOf := λ i, i;
  plain := λ i, i;
  load := λ t node, index (values_ t) node;
  store := λ t node v, vs ← setAt (values_ t) node v; Ok (t <| values_ := vs |>);
  playFirst := playLess;
  playUp := playLess |}.

(** With flags a tie goes to the left child at first, and to the one that comes
    up later; the winner gets the flag. *)
Definition firstEquals (ss : streams) (l r : Z * bool) : outcome ((Z * bool) * (Z * bool)) :=
  c ← compareStreams ss l.1 r.1;
  Ok (if c =? 0 then ((l.1, true), r) else if c <? 0 then (l, r) else (r, l)).

Definition upEquals (ss : streams) (node value : Z * bool) : outcome ((Z * bool) * (Z * bool)) :=
  c ← compareStreams ss node.1 value.1;
  Ok (if c =? 0 then ((value.1, true), node) else if c <? 0 then (node, value) else (value, node)).

Definition equalsContest : Contest := {|
  entry := Z * bool;
  indexOf := fst;
  plain := λ i, (i, false);
  load := λ t node, v ← index (values_ t) node; e ← index (equals_ t) node; Ok (v, e);
  store := λ t node v,
    vs ← setAt (values_ t) node v.1; es ← setAt (equals_ t) node v.2;
    Ok (t <| values_ := vs |> <| equals_ := es |>);
  playFirst := firstEquals;
  playUp := upEquals |}.

Section Contests.
Variable C : Contest.

Definition isEmpty (e : entry C) : bool := indexOf C e =? kEmpty.

(** [first] and [firstWithEquals]. *)
Fixpoint firstOf (fuel : nat) (ss : streams) (node : Z) (t : TreeOfLosers) : outcome (TreeOfLosers * entry C) :=
  if firstStream_ t <=? node then
    d ← hasData ss (node - firstStream_ t);
    Ok (t, plain C (if d : bool then node - firstStream_ t else kEmpty))
  else
  match fuel with
  | O => Throw OutOfFuel
  | S fuel =>
      '(t, l) ← firstOf fuel ss (leftChild node) t;
      '(t, r) ← firstOf fuel ss (rightChild node) t;
      if isEmpty l then Ok (t, r)
      else if isEmpty r then Ok (t, l)
      else '(winner, stays) ← playFirst C ss l r;
           t ← store C t node stays;
           Ok (t, winner)
  end.

(** The first loop of [propagate]: up to the first node that is not empty;
    [None] when it returns from there. *)
Fixpoint skipUp (fuel : nat) (node : Z) (t : TreeOfLosers) : outcome (option Z) :=
  v ← load C t node;
  if isEmpty v then
    if node =? 0 then Ok None else
    match fuel with
    | O => Throw OutOfFuel
    | S fuel => skipUp fuel (parent node) t
    end
  else Ok (Some node).

(** One round of its second loop. *)
Definition upNode (ss : streams) (node : Z) (value : entry C) (t : TreeOfLosers) : outcome (TreeOfLosers * entry C) :=
  v ← load C t node;
  if isEmpty v then Ok (t, value)
  else if isEmpty value then t ← store C t node (plain C kEmpty); Ok (t, v)
  else '(winner, stays) ← playUp C ss v value;
       t ← store C t node stays;
       Ok (t, winner).

Fixpoint climb (fuel : nat) (ss : streams) (node : Z) (value : entry C) (t : TreeOfLosers) : outcome (TreeOfLosers * entry C) :=
  '(t, value) ← upNode ss node value t;
  if node =? 0 then Ok (t, value) else
  match fuel with
  | O => Throw OutOfFuel
  | S fuel => climb fuel ss (parent node) value t
  end.

(** A tree of [uint16_t] node numbers has at most 16 levels. *)
Definition treeFuel : nat := 17.

(** [propagate] and [propagateWithEquals]. *)
Definition propagateOf (ss : streams) (node : Z) (value : entry C) (t : TreeOfLosers) : outcome (TreeOfLosers * entry C) :=
  start ← skipUp treeFuel node t;
  match start with
  | None => Ok (t, value)
  | Some node => climb treeFuel ss node value t
  end.

(** [next] and [nextWithEquals]: the entry that wins; [None] is a null
    pointer. *)
Definition nextOf (ss : streams) (t : TreeOfLosers) : outcome (TreeOfLosers * option (entry C)) :=
  if (lastIndex_ t =? kEmpty) && bool_decide (values_ t = []) then
    d ← hasData ss 0; Ok (t, if d : bool then Some (plain C 0) else None)
  else
    '(t, result) ←
      (if lastIndex_ t =? kEmpty then firstOf treeFuel ss 0 t
       else d ← hasData ss (lastIndex_ t);
            propagateOf ss (parent (uwrap 16 (firstStream_ t + lastIndex_ t)))
              (plain C (if d : bool then lastIndex_ t else kEmpty)) t);
    let t := t <| lastIndex_ := indexOf C result |> in
    Ok (t, if isEmpty result then None else Some result).
End Contests.

Definition first := firstOf plainContest.
Definition firstWithEquals := firstOf equalsContest.
Definition propagate := propagateOf plainContest.
Definition propagateWithEquals := propagateOf equalsContest.

(** The index of the stream with the lowest first value. *)
Definition next (ss : streams) (t : TreeOfLosers) : outcome (TreeOfLosers * option Z) := nextOf plainContest ss t.
Definition nextWithEquals (ss : streams) (t : TreeOfLosers) : outcome (TreeOfLosers * option (Z * bool)) :=
  nextOf equalsContest ss t.

(** ** [MergeArray] *)

(** The streams in the array, by their number. *)
Record MergeArray := mkMergeArray { isFirst_ : bool; streams_ : list Z }.

Definition lessFirst (ss : streams) (i j : Z) : bool :=
  match lessThan ss i j with Ok b => b | _ => false end.

(** The streams that have data; [sorted] is what [std::sort] makes of them,
    any arrangement in which no stream is less than one before it. *)
Definition withData (ss : streams) : list Z :=
  filter (λ i, hasData ss i = Ok true) (seqZ 0 (Z.of_nat (length ss))).

Definition newMergeArray (sort : (Z → Z → bool) → list Z → list Z) (ss : streams) : MergeArray :=
  mkMergeArray true (sort (lessFirst ss) (withData ss)).

(** [std::lower_bound]: how many at the front are less than [first]. *)
Fixpoint lowerBound (ss : streams) (first : Z) (l : list Z) : nat :=
  match l with
  | i :: l => if lessFirst ss i first then S (lowerBound ss first l) else 0%nat
  | [] => 0%nat
  end.

Definition ma_next (ss : streams) (a : MergeArray) : outcome (MergeArray * option Z) :=
  if isFirst_ a then Ok (mkMergeArray false (streams_ a), head (streams_ a)) else
  match streams_ a with
  | [] => Undefined
  | first :: rest =>
      d ← hasData ss first;
      if negb d then Ok (mkMergeArray false rest, head rest)
      else
        let offset := lowerBound ss first rest in
        let l := take offset rest ++ first :: drop offset rest in
        Ok (mkMergeArray false l, head l)
  end.

End Streams.
