(* ===== verification/LoserTreeCorrect.v ===== *)
(** * Correctness of the tree of losers

    Nodes are numbered as in a heap.  [won t ss node w]: in the subtree of
    [node] the entry [w] has won, and the losers are where they lost.  Filling
    the tree establishes it, and sending one new entry up the path of the last
    winner re-establishes it. *)
From S2P Require Import Prelude LoserTree.
Local Open Scope Z_scope.

(** ** Subtrees *)
Inductive below : Z → Z → Prop :=
| below_refl n : below n n
| below_left n m : below (2 * n + 1) m → below n m
| below_right n m : below (2 * n + 2) m → below n m.

(** A node below another is an iterated child. *)
Lemma below_div n m : 0 ≤ n → below n m → ∃ k, 0 ≤ k ∧ (m + 1) / 2 ^ k = n + 1.
Proof.
  intros Hn H. induction H as [n|n m _ IH|n m _ IH].
  - exists 0. by rewrite Z.div_1_r.
  - destruct (IH ltac:(lia)) as (k & Hk & E). exists (k + 1). split; [lia|].
    rewrite Z.pow_add_r, <- Z.div_div by lia. rewrite E. change (2 ^ 1) with 2.
    replace (2 * n + 1 + 1) with ((n + 1) * 2) by lia. by rewrite Z.div_mul.
  - destruct (IH ltac:(lia)) as (k & Hk & E). exists (k + 1). split; [lia|].
    rewrite Z.pow_add_r, <- Z.div_div by lia. rewrite E. change (2 ^ 1) with 2.
    replace (2 * n + 2 + 1) with (1 + (n + 1) * 2) by lia. by rewrite Z.div_add.
Qed.

(** The two subtrees of a node have no node in common. *)
Lemma below_disjoint n m : 0 ≤ n → below (2 * n + 1) m → below (2 * n + 2) m → False.
Proof.
  intros Hn Hl Hr. apply below_div in Hl as (k & Hk & El); [|lia]. apply below_div in Hr as (j & Hj & Er); [|lia].
  assert (∀ a b x y, 0 ≤ a < b → (m + 1) / 2 ^ a = x → (m + 1) / 2 ^ b = y → 0 < x → y ≤ x / 2) as Hlt.
  { intros a b x y Hab <- <- Hx. replace b with (a + (b - a)) by lia. rewrite Z.pow_add_r, <- Z.div_div by lia.
    apply Z.div_le_compat_l; [lia|]. split; [lia|]. change 2 with (2 ^ 1) at 1. apply Z.pow_le_mono_r; lia. }
  destruct (Z.lt_trichotomy k j) as [H|[<-|H]]; [|lia|].
  - specialize (Hlt k j _ _ ltac:(lia) El Er ltac:(lia)). Z.to_euclidean_division_equations; lia.
  - specialize (Hlt j k _ _ ltac:(lia) Er El ltac:(lia)). Z.to_euclidean_division_equations; lia.
Qed.

Lemma below_child n m : below n m → below n (2 * m + 1) ∧ below n (2 * m + 2).
Proof.
  induction 1 as [n|n m _ [IH1 IH2]|n m _ [IH1 IH2]].
  - split; [apply below_left | apply below_right]; constructor.
  - split; by apply below_left.
  - split; by apply below_right.
Qed.

(** All nodes are below the root. *)
Lemma below_root m : 0 ≤ m → below 0 m.
Proof.
  intros Hm. pattern m. revert m Hm. apply Zlt_0_ind. intros m IH Hm.
  destruct (Z.eq_dec m 0) as [->|]; [constructor|].
  destruct (Z.Even_or_Odd m) as [[k Hk]|[k Hk]].
  - destruct (below_child 0 (k - 1)) as [_ H]; [apply IH; lia|]. replace m with (2 * (k - 1) + 2) by lia. done.
  - destruct (below_child 0 k) as [H _]; [apply IH; lia|]. by replace m with (2 * k + 1) by lia.
Qed.

Lemma below_ge n m : 0 ≤ n → below n m → n ≤ m.
Proof. intros Hn H. induction H; lia. Qed.

(** ** Nodes, cells and fuel *)
Lemma parent_left n : 0 ≤ n → 2 * n + 1 < 65536 → parent (2 * n + 1) = n.
Proof.
  intros. unfold parent, uwrap. replace (2 * n + 1 - 1) with (n * 2) by lia. rewrite Z.quot_mul by lia. apply Z.mod_small. lia.
Qed.

Lemma parent_right n : 0 ≤ n → 2 * n + 2 < 65536 → parent (2 * n + 2) = n.
Proof.
  intros. unfold parent, uwrap. replace (2 * n + 2 - 1) with (1 + n * 2) by lia.
  rewrite Z.quot_div_nonneg, Z.div_add by lia. apply Z.mod_small. simpl. lia.
Qed.

Lemma child_small n : 0 ≤ n → 2 * n + 2 < 65536 → leftChild n = 2 * n + 1 ∧ rightChild n = 2 * n + 2.
Proof. intros. unfold leftChild, rightChild, uwrap. rewrite !Z.mod_small by lia. lia. Qed.

Lemma index_Some {A} (l : list A) i x : 0 ≤ i → index l i = Ok x ↔ l !! Z.to_nat i = Some x.
Proof.
  intros Hi. unfold index. rewrite (proj2 (Z.ltb_ge _ _)) by lia. destruct (l !! Z.to_nat i); naive_solver.
Qed.

Lemma setAt_Ok {A} (l : list A) i x :
  0 ≤ i < Z.of_nat (length l) → setAt l i x = Ok (<[Z.to_nat i := x]> l).
Proof.
  intros Hi. unfold setAt. destruct (lookup_lt_is_Some_2 l (Z.to_nat i)) as [y Hy]; [lia|].
  by rewrite (proj2 (index_Some l i y ltac:(lia)) Hy).
Qed.

(** What a comparison promises: the sign tells the order, a total one. *)
Class CompareOrder {V} (compare : V → V → Z) : Prop := {
  compare_sym a b : compare a b < 0 ↔ 0 < compare b a;
  compare_trans a b c : compare a b ≤ 0 → compare b c ≤ 0 → compare a c ≤ 0 }.

Lemma compare_refl {V} (compare : V → V → Z) `{!CompareOrder compare} a : compare a a = 0.
Proof. pose proof (compare_sym a a). lia. Qed.

Lemma compare_swap {V} (compare : V → V → Z) `{!CompareOrder compare} a b : compare a b ≤ 0 ↔ 0 ≤ compare b a.
Proof. pose proof (compare_sym b a). lia. Qed.

Section Tournament.
Context {V : Type} (compare : V → V → Z) `{!CompareOrder compare} (C : @Contest V).
Abbreviation streams := (list (list V)).

(** The first value of the stream [i] is not after that of [j]. *)
Definition firstLe (ss : streams) (i j : Z) : Prop :=
  ∃ u v, firstValue ss i = Ok u ∧ firstValue ss j = Ok v ∧ compare u v ≤ 0.

(** What the contests promise.  [shape n t]: the tree has [n] inner nodes;
    [cell t m e]: the node [m] holds [e]; [beats ss a b w x]: of [a] and [b],
    [w] goes up and [x] stays. *)
Variable shape : Z → TreeOfLosers → Prop.
Variable beats : streams → entry C → entry C → entry C → entry C → Prop.

Definition cell (t : TreeOfLosers) (m : Z) (e : entry C) : Prop := load C t m = Ok e.

Class ContestLaws := {
  plain_index i : indexOf C (plain C i) = i;
  shape_values n t : shape n t → Z.of_nat (length (values_ t)) = n;
  shape_last n t i : shape n t → shape n (t <| lastIndex_ := i |>);
  load_last t i m : load C (t <| lastIndex_ := i |>) m = load C t m;
  load_shape n t m : shape n t → 0 ≤ m < n → ∃ e, cell t m e;
  store_shape n t m e : shape n t → 0 ≤ m < n →
    ∃ t', store C t m e = Ok t' ∧ shape n t' ∧ lastIndex_ t' = lastIndex_ t ∧ firstStream_ t' = firstStream_ t ∧
      cell t' m e ∧ ∀ k, 0 ≤ k → k ≠ m → load C t' k = load C t k;
  beats_cases ss a b w x : beats ss a b w x →
    (indexOf C w = indexOf C a ∧ x = b) ∨ (indexOf C w = indexOf C b ∧ x = a);
  beats_sym ss a b w x : beats ss a b w x → beats ss b a w x;
  beats_le ss a b w x : beats ss a b w x → firstLe ss (indexOf C w) (indexOf C x);
  beats_ext ss ss' a b w x :
    (∀ i, i = indexOf C a ∨ i = indexOf C b → firstValue ss i = firstValue ss' i) → beats ss a b w x → beats ss' a b w x;
  playFirst_beats ss a b u v :
    firstValue ss (indexOf C a) = Ok u → firstValue ss (indexOf C b) = Ok v →
    ∃ w x, playFirst C ss a b = Ok (w, x) ∧ beats ss a b w x;
  playUp_beats ss a b u v :
    firstValue ss (indexOf C a) = Ok u → firstValue ss (indexOf C b) = Ok v →
    ∃ w x, playUp C ss a b = Ok (w, x) ∧ beats ss a b w x }.

Context {laws : ContestLaws}.

(** [n] is the number of inner nodes, [n + 1] that of streams. *)
Variable n : Z.

Abbreviation none := (plain C kEmpty).

Definition leafEntry (ss : streams) (i : Z) : entry C :=
  plain C (match ss !! Z.to_nat i with Some (_ :: _) => i | _ => kEmpty end).

(** How two winners settle at a node. *)
Definition settled (ss : streams) (a b w x : entry C) : Prop :=
  (a = none ∧ w = b ∧ x = none) ∨ (b = none ∧ w = a ∧ x = none) ∨
  (indexOf C a ≠ kEmpty ∧ indexOf C b ≠ kEmpty ∧ beats ss a b w x).

Inductive won (t : TreeOfLosers) (ss : streams) : Z → entry C → Prop :=
| won_leaf i : 0 ≤ i ≤ n → won t ss (n + i) (leafEntry ss i)
| won_inner m a b w x : 0 ≤ m < n →
    won t ss (2 * m + 1) a → won t ss (2 * m + 2) b → cell t m x → settled ss a b w x → won t ss m w.

(** The winner of a subtree is the first value of one of its streams. *)
Lemma won_stream t ss m w :
  won t ss m w → Z.of_nat (length ss) = n + 1 → n < kEmpty →
  w = none ∨ ∃ i v s, 0 ≤ i ≤ n ∧ indexOf C w = i ∧ below m (n + i) ∧ ss !! Z.to_nat i = Some (v :: s).
Proof.
  intros H Hl Hn. induction H as [i Hi|m a b w x Hm _ IHa _ IHb _ Hs].
  - unfold leafEntry. destruct (lookup_lt_is_Some_2 ss (Z.to_nat i)) as [[|v s] Es]; [lia|..]; rewrite Es; [by left|].
    right. exists i, v, s. split; [done|]. split; [apply plain_index|]. split; [constructor | done].
  - destruct Hs as [(_ & -> & _)|[(_ & -> & _)|(Ha & Hb & Hw)]].
    + destruct IHb as [?|(i & v & s & ? & ? & ? & ?)]; [by left|]. right. exists i, v, s. by eauto using below_right.
    + destruct IHa as [?|(i & v & s & ? & ? & ? & ?)]; [by left|]. right. exists i, v, s. by eauto using below_left.
    + right. destruct IHa as [->|(i & v & s & Hi & <- & Hbi & Es)]; [by rewrite plain_index in Ha|].
      destruct IHb as [->|(j & v' & s' & Hj & <- & Hbj & Es')]; [by rewrite plain_index in Hb|].
      apply beats_cases in Hw as [[-> _]|[-> _]]; eexists _, _, _; eauto 6 using below_left, below_right.
Qed.

Lemma won_index t ss m w :
  won t ss m w → Z.of_nat (length ss) = n + 1 → n < kEmpty → indexOf C w = kEmpty → w = none.
Proof. intros H Hl Hn E. destruct (won_stream _ _ _ _ H Hl Hn) as [?|(i & v & s & ? & ? & _)]; [done | lia]. Qed.

(** Only the cells and the streams of a subtree matter. *)
Lemma won_frame t t' ss ss' m w :
  won t ss m w → Z.of_nat (length ss) = n + 1 → n < kEmpty → 0 ≤ m →
  (∀ k, 0 ≤ k < n → below m k → load C t' k = load C t k) →
  (∀ i, 0 ≤ i ≤ n → below m (n + i) → ss' !! Z.to_nat i = ss !! Z.to_nat i) →
  won t' ss' m w.
Proof.
  intros H Hl Hn Hm. induction H as [i Hi|m a b w x Hmn Ha IHa Hb IHb Hc Hs]; intros Hcells Hss.
  - assert (leafEntry ss i = leafEntry ss' i) as -> by (unfold leafEntry; rewrite Hss; [done | done | constructor]).
    by constructor.
  - econstructor; [done | apply IHa | apply IHb | |]; try lia; try (intros; apply Hcells || apply Hss; by eauto using below_left, below_right).
    + unfold cell. rewrite Hcells; [done | done | constructor].
    + destruct Hs as [?|[?|(Hea & Heb & Hw)]]; [by left | by right; left|]. right; right. split; [done|]. split; [done|].
      eapply beats_ext; [|done]. intros i Hi. unfold firstValue, index.
      destruct (won_stream _ _ _ _ Ha Hl Hn) as [->|(ia & va & sa & Hia & <- & Hba & Ea)]; [by rewrite plain_index in Hea|].
      destruct (won_stream _ _ _ _ Hb Hl Hn) as [->|(ib & vb & sb & Hib & <- & Hbb & Eb)]; [by rewrite plain_index in Heb|].
      destruct Hi as [-> | ->]; rewrite (proj2 (Z.ltb_ge _ _)) by lia; rewrite Hss; eauto using below_left, below_right.
Qed.

Lemma settled_sym ss a b w x : settled ss a b w x → settled ss b a w x.
Proof. intros [?|[?|(? & ? & ?)]]; [right; left | left | right; right]; auto using beats_sym. Qed.

(** The one that stays is the winner of the other side. *)
Lemma settled_sibling ss a b w x :
  settled ss a b w x → indexOf C w ≠ kEmpty →
  (indexOf C a = indexOf C w ∧ x = b) ∨ (indexOf C b = indexOf C w ∧ x = a).
Proof.
  intros [(-> & -> & ->)|[(-> & -> & ->)|(_ & _ & Hb)]] Hw; [by right | by left|].
  apply beats_cases in Hb as [[-> ->]|[-> ->]]; auto.
Qed.

(** A winner that is not empty can be compared. *)
Lemma won_value t ss m w :
  won t ss m w → Z.of_nat (length ss) = n + 1 → n < kEmpty → indexOf C w ≠ kEmpty →
  ∃ v, firstValue ss (indexOf C w) = Ok v.
Proof.
  intros H Hl Hn Hw. destruct (won_stream _ _ _ _ H Hl Hn) as [->|(i & v & s & Hi & -> & _ & E)]; [by rewrite plain_index in Hw|].
  exists v. unfold firstValue. by rewrite (proj2 (index_Some ss i _ ltac:(lia)) E).
Qed.

(** Trees that differ in the cells of one subtree. *)
Definition sameOutside (m : Z) (t t' : TreeOfLosers) : Prop :=
  shape n t' ∧ lastIndex_ t' = lastIndex_ t ∧ firstStream_ t' = firstStream_ t ∧
  ∀ k, 0 ≤ k → ¬ below m k → load C t' k = load C t k.

Lemma sameOutside_refl m t : shape n t → sameOutside m t t.
Proof. by repeat split. Qed.

Lemma sameOutside_trans m t1 t2 t3 : sameOutside m t1 t2 → sameOutside m t2 t3 → sameOutside m t1 t3.
Proof.
  intros (_ & E1 & F1 & H1) (? & E2 & F2 & H2). split_and!; [done | congruence | congruence |].
  intros k Hk Hb. by rewrite H2, H1.
Qed.

Lemma sameOutside_left m t t' : sameOutside (2 * m + 1) t t' → sameOutside m t t'.
Proof. intros (? & ? & ? & H). split_and!; try done. intros k Hk Hb. apply H; eauto using below_left. Qed.

Lemma sameOutside_right m t t' : sameOutside (2 * m + 2) t t' → sameOutside m t t'.
Proof. intros (? & ? & ? & H). split_and!; try done. intros k Hk Hb. apply H; eauto using below_right. Qed.

Lemma store_outside t m e : shape n t → 0 ≤ m < n → ∃ t', store C t m e = Ok t' ∧ cell t' m e ∧ sameOutside m t t' ∧
  ∀ k, 0 ≤ k → k ≠ m → load C t' k = load C t k.
Proof.
  intros Hs Hm. destruct (store_shape n t m e Hs Hm) as (t' & -> & Hs' & ? & ? & Hc & Hk).
  exists t'. split; [done|]. split; [done|]. split; [|done]. split_and!; try done.
  intros k Hk0 Hb. apply Hk; [done|]. intros ->. apply Hb. constructor.
Qed.

(** A round at a node settles the entry that comes up and the winner of the
    other side. *)
Lemma upNode_settles t ss m y z :
  shape n t → 0 ≤ m < n → cell t m z →
  (y = none ∨ (indexOf C y ≠ kEmpty ∧ ∃ u, firstValue ss (indexOf C y) = Ok u)) →
  (z = none ∨ (indexOf C z ≠ kEmpty ∧ ∃ v, firstValue ss (indexOf C z) = Ok v)) →
  ∃ t' w x, upNode C ss m y t = Ok (t', w) ∧ cell t' m x ∧ settled ss y z w x ∧ sameOutside m t t' ∧
    ∀ k, 0 ≤ k → k ≠ m → load C t' k = load C t k.
Proof.
  intros Hs Hm Hc Hy Hz. unfold upNode, isEmpty. rewrite Hc. cbn [mbind outcome_bind].
  destruct Hz as [->|(Hz & v & Hv)].
  - rewrite plain_index, Z.eqb_refl. exists t, y, none. split; [done|]. split; [done|]. split; [by right; left|].
    split; [by apply sameOutside_refl | done].
  - rewrite (proj2 (Z.eqb_neq _ _) Hz). destruct Hy as [->|(Hy & u & Hu)].
    + rewrite plain_index, Z.eqb_refl. destruct (store_outside t m none Hs Hm) as (t' & -> & ? & ? & ?).
      exists t', z, none. cbn. split; [done|]. split; [done|]. split; [by left | done].
    + rewrite (proj2 (Z.eqb_neq _ _) Hy). destruct (playUp_beats ss z y v u Hv Hu) as (w & x & -> & Hb). cbn [mbind outcome_bind].
      destruct (store_outside t m x Hs Hm) as (t' & -> & ? & ? & ?). exists t', w, x. cbn. split; [done|]. split; [done|].
      split; [|done]. right; right. auto using beats_sym.
Qed.

(** A subtree whose other cells changed is as it was. *)
Lemma won_left t t' ss m a :
  won t ss (2 * m + 1) a → Z.of_nat (length ss) = n + 1 → n < kEmpty → 0 ≤ m →
  (∀ k, 0 ≤ k → ¬ below (2 * m + 2) k → k ≠ m → load C t' k = load C t k) → won t' ss (2 * m + 1) a.
Proof.
  intros H Hl Hn Hm Hk. apply (won_frame t t' ss ss _ _ H Hl Hn); [lia | | done]. intros k Hk0 Hb. apply Hk; [lia | |].
  - intros Hb'. by apply (below_disjoint m k).
  - apply below_ge in Hb; lia.
Qed.

Lemma won_right t t' ss m b :
  won t ss (2 * m + 2) b → Z.of_nat (length ss) = n + 1 → n < kEmpty → 0 ≤ m →
  (∀ k, 0 ≤ k → ¬ below (2 * m + 1) k → k ≠ m → load C t' k = load C t k) → won t' ss (2 * m + 2) b.
Proof.
  intros H Hl Hn Hm Hk. apply (won_frame t t' ss ss _ _ H Hl Hn); [lia | | done]. intros k Hk0 Hb. apply Hk; [lia | |].
  - intros Hb'. by apply (below_disjoint m k).
  - apply below_ge in Hb; lia.
Qed.

Lemma leaf_first t ss m :
  firstStream_ t = n → Z.of_nat (length ss) = n + 1 → n ≤ m ≤ 2 * n →
  ∃ d, hasData ss (m - n) = Ok d ∧ plain C (if d then m - n else kEmpty) = leafEntry ss (m - n).
Proof.
  intros Hf Hl Hm. destruct (lookup_lt_is_Some_2 ss (Z.to_nat (m - n))) as [s Es]; [lia|].
  unfold hasData, leafEntry. rewrite (proj2 (index_Some ss (m - n) s ltac:(lia)) Es), Es. cbn. eexists. split; [done|]. by destruct s.
Qed.

Lemma nonempty_or_none t ss m w :
  won t ss m w → Z.of_nat (length ss) = n + 1 → n < kEmpty →
  w = none ∨ (indexOf C w ≠ kEmpty ∧ ∃ v, firstValue ss (indexOf C w) = Ok v).
Proof.
  intros H Hl Hn. destruct (Z.eq_dec (indexOf C w) kEmpty) as [E|E]; [left; by eapply won_index|].
  right. split; [done|]. by eapply won_value.
Qed.

(** ** Filling the tree *)

(** The two winners meet at an empty node. *)
Lemma meet_won ss m t a b :
  0 ≤ m < n → n < kEmpty → Z.of_nat (length ss) = n + 1 → shape n t → cell t m none →
  won t ss (2 * m + 1) a → won t ss (2 * m + 2) b →
  ∃ t' w,
    (if isEmpty C a then Ok (t, b) else if isEmpty C b then Ok (t, a)
     else '(winner, stays) ← playFirst C ss a b; t ← store C t m stays; Ok (t, winner)) = Ok (t', w) ∧
    won t' ss m w ∧ sameOutside m t t'.
Proof.
  intros Hm HnE Hl Hs Hc Ha Hb. unfold isEmpty.
  destruct (nonempty_or_none _ _ _ _ Ha Hl HnE) as [->|(Hea & u & Hu)].
  { rewrite plain_index, Z.eqb_refl. exists t, b. split; [done|]. split; [|by apply sameOutside_refl].
    econstructor; [lia | done | done | done | by left]. }
  rewrite (proj2 (Z.eqb_neq _ _) Hea). destruct (nonempty_or_none _ _ _ _ Hb Hl HnE) as [->|(Heb & v & Hv)].
  { rewrite plain_index, Z.eqb_refl. exists t, a. split; [done|]. split; [|by apply sameOutside_refl].
    econstructor; [lia | done | done | done | by right; left]. }
  rewrite (proj2 (Z.eqb_neq _ _) Heb). destruct (playFirst_beats ss a b u v Hu Hv) as (w & x & -> & Hbeat). cbn [mbind outcome_bind].
  destruct (store_outside t m x Hs Hm) as (t3 & -> & Hc3 & Ho3 & Hk3). cbn [mbind outcome_bind].
  exists t3, w. split; [done|]. split; [|done].
  assert (won t3 ss (2 * m + 1) a) by (apply (won_left t); auto; lia).
  assert (won t3 ss (2 * m + 2) b) by (apply (won_right t); auto; lia).
  econstructor; [lia | done | done | done | by right; right].
Qed.

Lemma firstOf_won fuel ss m t :
  0 ≤ n ≤ 32767 → Z.of_nat (length ss) = n + 1 → 0 ≤ m ≤ 2 * n → n < (m + 1) * 2 ^ Z.of_nat fuel →
  shape n t → firstStream_ t = n → (∀ k, 0 ≤ k < n → below m k → cell t k none) →
  ∃ t' w, firstOf C fuel ss m t = Ok (t', w) ∧ won t' ss m w ∧ sameOutside m t t'.
Proof.
  intros Hn Hl. assert (n < kEmpty) as HnE by (unfold kEmpty; lia).
  revert m t. induction fuel as [|fuel IH]; intros m t Hm Hf Hs Hfs Hnone; simpl; rewrite Hfs.
  all: destruct (Z.leb_spec n m) as [Hleaf|Hinner].
  1, 3: destruct (leaf_first t ss m Hfs Hl ltac:(lia)) as (d & -> & Hd); cbn [mbind outcome_bind]; rewrite Hd;
    exists t, (leafEntry ss (m - n)); split; [done|]; split; [|by apply sameOutside_refl];
    replace m with (n + (m - n)) at 1 by lia; constructor; lia.
  { simpl in Hf. lia. }
  destruct (child_small m) as [-> ->]; [lia | lia|].
  rewrite Nat2Z.inj_succ, Z.pow_succ_r in Hf by lia.
  destruct (IH (2 * m + 1) t) as (t1 & a & -> & Ha & Ho1); try done; [lia | nia | |].
  { intros k Hk Hb. apply Hnone; eauto using below_left. }
  cbn [mbind outcome_bind]. pose proof Ho1 as (Hs1 & _ & Hfs1 & Hk1).
  destruct (IH (2 * m + 2) t1) as (t2 & b & -> & Hb & Ho2); try done; [lia | nia | congruence | |].
  { intros k Hk Hb. unfold cell. rewrite Hk1; [apply Hnone; eauto using below_right | lia|]. intros Hb'. by apply (below_disjoint m k ltac:(lia)). }
  cbn [mbind outcome_bind]. pose proof Ho2 as (Hs2 & _ & _ & Hk2).
  assert (won t2 ss (2 * m + 1) a) as Ha2 by (apply (won_left t1); auto; lia).
  assert (sameOutside m t t2) as Ho by (eapply sameOutside_trans; [by apply sameOutside_left | by apply sameOutside_right]).
  assert (cell t2 m none) as Hc.
  { unfold cell. rewrite Hk2, Hk1 by (lia || (intros H'%below_ge; lia)). apply Hnone; [lia | constructor]. }
  destruct (meet_won ss m t2 a b) as (t3 & w & -> & Hw & Ho3); try done; [lia|].
  exists t3, w. split; [done|]. split; [done|]. by eapply sameOutside_trans.
Qed.

(** ** The way up *)

(** What the loop does above a node. *)
Definition climbFrom (fuel : nat) (ss : streams) (c : Z) (x : entry C) (t : TreeOfLosers) : outcome (TreeOfLosers * entry C) :=
  if c =? 0 then Ok (t, x) else climb C fuel ss (parent c) x t.

Lemma climbFrom_step f ss c p x t t' x' :
  c ≠ 0 → parent c = p → upNode C ss p x t = Ok (t', x') → climbFrom (S f) ss c x t = climbFrom f ss p x' t'.
Proof.
  intros Hc <- Hu. unfold climbFrom. rewrite (proj2 (Z.eqb_neq _ _) Hc). simpl climb. rewrite Hu. cbn [mbind outcome_bind].
  by destruct (parent c =? 0).
Qed.

(** A round at a node whose children have their winners [a] and [b], the one
    that comes up being [y] and the other one [z]. *)
Lemma up_one t ss m a b y z :
  0 ≤ m < n → n < kEmpty → Z.of_nat (length ss) = n + 1 → shape n t →
  won t ss (2 * m + 1) a → won t ss (2 * m + 2) b → cell t m z → (y = a ∧ z = b) ∨ (y = b ∧ z = a) →
  ∃ t' w, upNode C ss m y t = Ok (t', w) ∧ won t' ss m w ∧ sameOutside m t t'.
Proof.
  intros Hm HnE Hl Hs Ha Hb Hc Hyz.
  pose proof (nonempty_or_none _ _ _ _ Ha Hl HnE) as Hna. pose proof (nonempty_or_none _ _ _ _ Hb Hl HnE) as Hnb.
  destruct (upNode_settles t ss m y z Hs Hm Hc) as (t' & w & x & Hu & Hx & Hset & Ho & Hk);
    [destruct Hyz as [[-> ->]|[-> ->]]; assumption..|].
  exists t', w. split; [done|]. split; [|done].
  assert (won t' ss (2 * m + 1) a) by (apply (won_left t); auto; lia).
  assert (won t' ss (2 * m + 2) b) by (apply (won_right t); auto; lia).
  econstructor; [lia | done | done | done |]. destruct Hyz as [[-> ->]|[-> ->]]; [done | by apply settled_sym].
Qed.

(** Streams that differ in one. *)
Definition sameBut (i : Z) (ss ss' : streams) : Prop :=
  length ss = length ss' ∧ ∀ j, 0 ≤ j ≤ n → j ≠ i → ss' !! Z.to_nat j = ss !! Z.to_nat j.

Lemma won_other t t' ss ss' m c w i :
  won t ss m w → Z.of_nat (length ss) = n + 1 → n < kEmpty → 0 ≤ m → 0 ≤ c → sameBut i ss ss' → below c (n + i) →
  (∀ k, below m k → below c k → False) → sameOutside c t t' → won t' ss' m w.
Proof.
  intros H Hl Hn Hm Hc [_ Hss] Hi Hdis (_ & _ & _ & Hk). apply (won_frame t t' ss ss' m w H Hl Hn Hm).
  - intros k Hk0 Hb. apply Hk; [lia|]. intros Hb'. by eapply Hdis.
  - intros j Hj Hb. apply Hss; [done|]. intros ->. by eapply Hdis.
Qed.

Lemma leafEntry_index ss j i : indexOf C (leafEntry ss j) = i → i ≠ kEmpty → j = i.
Proof. unfold leafEntry. rewrite plain_index. case_match; [case_match|]; congruence. Qed.

(** The new first value of the last winner's stream goes up its path. *)
Lemma climb_won t ss ss' i m w :
  won t ss m w → 0 ≤ m → n ≤ 32767 → 0 ≤ i ≤ n → Z.of_nat (length ss) = n + 1 → shape n t → sameBut i ss ss' →
  indexOf C w = i →
  ∃ d t' w', (m + 1) * 2 ^ Z.of_nat d ≤ n + i + 1 ∧ below m (n + i) ∧
    (∀ f, climbFrom (d + f) ss' (n + i) (leafEntry ss' i) t = climbFrom f ss' m w' t') ∧
    won t' ss' m w' ∧ sameOutside m t t'.
Proof.
  intros H Hm0 Hn Hi Hl Hs Hss. assert (n < kEmpty) as HnE by (unfold kEmpty; lia).
  assert (Z.of_nat (length ss') = n + 1) as Hl' by (destruct Hss; lia).
  induction H as [j Hj|m a b w x Hm Ha IHa Hb IHb Hc Hset]; intros Hw.
  - apply leafEntry_index in Hw; [|lia]. subst j. exists 0%nat, t, (leafEntry ss' i).
    split; [simpl; lia|]. split; [constructor|]. split; [done|]. split; [by constructor | by apply sameOutside_refl].
  - apply settled_sibling in Hset as [[Hai ->]|[Hbi ->]]; [| |lia].
    + destruct (IHa ltac:(lia) ltac:(congruence)) as (d & t1 & w1 & Hd & Hbel & Hclimb & Hw1 & Ho1).
      assert (won t1 ss' (2 * m + 2) b) as Hb1.
      { apply (won_other t t1 ss ss' _ (2 * m + 1) b i); try done; [lia | lia|]. intros k ? ?. by apply (below_disjoint m k ltac:(lia)). }
      assert (cell t1 m b) as Hc1.
      { unfold cell. destruct Ho1 as (_ & _ & _ & ->); [done | lia | intros H'%below_ge; lia]. }
      destruct (up_one t1 ss' m w1 b w1 b) as (t2 & w2 & Hu & Hw2 & Ho2); try done; [by destruct Ho1 | by left|].
      exists (d + 1)%nat, t2, w2. split; [rewrite Nat2Z.inj_add, Z.pow_add_r by lia; lia|].
      split; [by apply below_left|]. split; [|split; [done | eapply sameOutside_trans; [by apply sameOutside_left | done]]].
      intros f. rewrite <- Nat.add_assoc, Hclimb. apply climbFrom_step; [lia | apply parent_left; lia | done].
    + destruct (IHb ltac:(lia) ltac:(congruence)) as (d & t1 & w1 & Hd & Hbel & Hclimb & Hw1 & Ho1).
      assert (won t1 ss' (2 * m + 1) a) as Ha1.
      { apply (won_other t t1 ss ss' _ (2 * m + 2) a i); try done; [lia | lia|]. intros k ? ?. by apply (below_disjoint m k ltac:(lia)). }
      assert (cell t1 m a) as Hc1.
      { unfold cell. destruct Ho1 as (_ & _ & _ & ->); [done | lia | intros H'%below_ge; lia]. }
      destruct (up_one t1 ss' m a w1 w1 a) as (t2 & w2 & Hu & Hw2 & Ho2); try done; [by destruct Ho1 | by right|].
      exists (d + 1)%nat, t2, w2. split; [rewrite Nat2Z.inj_add, Z.pow_add_r by lia; lia|].
      split; [by apply below_right|]. split; [|split; [done | eapply sameOutside_trans; [by apply sameOutside_right | done]]].
      intros f. rewrite <- Nat.add_assoc, Hclimb. apply climbFrom_step; [lia | apply parent_right; lia | done].
Qed.

(** The first loop of [propagate] changes nothing. *)
Lemma skipUp_climb f g ss node x t r :
  climb C f ss node x t = Ok r →
  ∃ start, skipUp C (f + g) node t = Ok start ∧
    match start with None => r = (t, x) | Some node' => ∃ f', (f' ≤ f)%nat ∧ climb C f' ss node' x t = Ok r end.
Proof.
  revert node. induction f as [|f IH]; intros node H; pose proof H as H'; simpl in H; unfold upNode in H; simpl skipUp.
  - destruct (load C t node) as [v| |] eqn:Ev; cbn [mbind outcome_bind] in *; try done. destruct (isEmpty C v) eqn:He.
    + cbn [mbind outcome_bind] in H. destruct (node =? 0) eqn:E0; [|done].
      injection H as <-. destruct g; simpl; rewrite Ev; cbn; rewrite He, E0; by exists None.
    + destruct g; simpl; rewrite Ev; cbn; rewrite He; exists (Some node); split; [done | by exists 0%nat | done | by exists 0%nat].
  - destruct (load C t node) as [v| |] eqn:Ev; cbn [mbind outcome_bind] in *; try done. destruct (isEmpty C v) eqn:He.
    + cbn [mbind outcome_bind] in H. destruct (node =? 0) eqn:E0; [injection H as <-; by exists None|].
      destruct (IH _ H) as (start & Hst & Hr). exists start. split; [done|]. destruct start; [|done].
      destruct Hr as (f' & ? & ?). exists f'. split; [lia | done].
    + exists (Some node). split; [done|]. by exists (S f).
Qed.

Lemma climb_more f g ss node x t r : climb C f ss node x t = Ok r → climb C (f + g) ss node x t = Ok r.
Proof.
  revert node x t. induction f as [|f IH]; intros node x t H; simpl in *.
  - destruct (upNode C ss node x t) as [[t' x']| |] eqn:E; cbn [mbind outcome_bind] in H; try done.
    destruct (node =? 0) eqn:E0; [|done]. destruct g; simpl; rewrite E; cbn; by rewrite E0.
  - destruct (upNode C ss node x t) as [[t' x']| |] eqn:E; cbn [mbind outcome_bind] in *; try done.
    destruct (node =? 0); [done|]. by apply IH.
Qed.

Lemma propagateOf_climb f ss node x t r :
  climb C f ss node x t = Ok r → (f ≤ treeFuel)%nat → propagateOf C ss node x t = Ok r.
Proof.
  intros H Hf. destruct (skipUp_climb f (treeFuel - f) ss node x t r H) as (start & Hst & Hr).
  replace (f + (treeFuel - f))%nat with treeFuel in Hst by lia. unfold propagateOf. rewrite Hst. cbn [mbind outcome_bind].
  destruct start as [node'|]; [|by rewrite Hr]. destruct Hr as (f' & Hf' & Hc).
  pose proof (climb_more f' (treeFuel - f') _ _ _ _ _ Hc) as Hm. by replace (f' + (treeFuel - f'))%nat with treeFuel in Hm by lia.
Qed.

(** ** All streams of a subtree *)
Lemma won_none t ss m w :
  won t ss m w → w = none → Z.of_nat (length ss) = n + 1 → n < kEmpty → 0 ≤ m →
  (∀ k, 0 ≤ k < n → below m k → cell t k none) ∧
  (∀ j, 0 ≤ j ≤ n → below m (n + j) → ss !! Z.to_nat j = Some []).
Proof.
  intros H -> Hl HnE. remember none as w eqn:Ew. induction H as [i Hi|m a b w x Hm Ha IHa Hb IHb Hc Hset]; intros Hm0; subst.
  - split.
    + intros k Hk Hb%below_ge; lia.
    + intros j Hj Hb. assert (j = i) as ->.
      { inversion Hb as [|? ? Hb'|? ? Hb']; [lia | apply below_ge in Hb'; lia | apply below_ge in Hb'; lia]. }
      destruct (lookup_lt_is_Some_2 ss (Z.to_nat i)) as [[|v s] Es]; [lia | done|].
      exfalso. apply (f_equal (indexOf C)) in Ew. unfold leafEntry in Ew. rewrite Es, !plain_index in Ew. lia.
  - assert (a = none ∧ b = none ∧ x = none) as (-> & -> & ->).
    { destruct Hset as [(-> & <- & ->)|[(-> & <- & ->)|(Hea & Heb & Hbt)]]; [done | done|].
      exfalso. apply beats_cases in Hbt as [[E _]|[E _]]; rewrite plain_index in E; congruence. }
    destruct (IHa eq_refl ltac:(lia)) as [Ha1 Ha2], (IHb eq_refl ltac:(lia)) as [Hb1 Hb2]. split.
    + intros k Hk Hb'. inversion Hb'; subst; auto.
    + intros j Hj Hb'. inversion Hb'; subst; auto; lia.
Qed.

Lemma firstLe_trans ss i j k : firstLe ss i j → firstLe ss j k → firstLe ss i k.
Proof.
  intros (u & v & Hu & Hv & Huv) (v' & z & Hv' & Hz & Hvz). rewrite Hv in Hv'. injection Hv' as <-.
  exists u, z. split; [done|]. split; [done|]. by eapply compare_trans.
Qed.

Lemma firstLe_refl ss i v s : 0 ≤ i → ss !! Z.to_nat i = Some (v :: s) → firstLe ss i i.
Proof.
  intros Hi E. exists v, v. rewrite (compare_refl compare). unfold firstValue. by rewrite (proj2 (index_Some ss i _ Hi) E).
Qed.

(** The winner is the least of its subtree. *)
Lemma won_least t ss m w j v s :
  won t ss m w → Z.of_nat (length ss) = n + 1 → n < kEmpty → 0 ≤ m → 0 ≤ j ≤ n → below m (n + j) →
  ss !! Z.to_nat j = Some (v :: s) → firstLe ss (indexOf C w) j.
Proof.
  intros H Hl HnE Hm0 Hj. revert Hm0. induction H as [i Hi|m a b w x Hm Ha IHa Hb IHb _ Hset]; intros Hm0 Hb' E.
  - assert (j = i) as ->.
    { inversion Hb' as [|? ? Hb|? ? Hb]; [lia | apply below_ge in Hb; lia | apply below_ge in Hb; lia]. }
    unfold leafEntry. rewrite E, plain_index. apply (firstLe_refl _ _ v s); [lia | done].
  - assert (∀ c, won t ss c none → 0 ≤ c → below c (n + j) → False) as Hnone.
    { intros c Hc Hc0 Hcb. destruct (won_none _ _ _ _ Hc eq_refl Hl HnE Hc0) as [_ H]. rewrite H in E; done. }
    assert (∀ y, indexOf C w = indexOf C y ∨ firstLe ss (indexOf C w) (indexOf C y) → firstLe ss (indexOf C y) j →
      firstLe ss (indexOf C w) j) as Hvia.
    { intros y [->|H] Hy; [done | by eapply firstLe_trans]. }
    assert (below (2 * m + 1) (n + j) ∨ below (2 * m + 2) (n + j)) as Hside by (inversion Hb'; subst; [lia | by left | by right]).
    destruct Hset as [(-> & -> & ->)|[(-> & -> & ->)|(_ & _ & Hbt)]].
    + destruct Hside; [|apply IHb; auto; lia]. exfalso. by eapply (Hnone (2 * m + 1)); [|lia|].
    + destruct Hside; [apply IHa; auto; lia|]. exfalso. by eapply (Hnone (2 * m + 2)); [|lia|].
    + pose proof (beats_le _ _ _ _ _ Hbt) as Hle.
      destruct Hside; [apply (Hvia a) | apply (Hvia b)]; try (apply IHa || apply IHb; auto; lia);
        apply beats_cases in Hbt as [[? ->]|[? ->]]; auto.
Qed.

(** ** The calls *)

(** Before a call: nothing has been returned so far, or the first value of the
    stream that was returned last has been taken. *)
Definition treeReady (t : TreeOfLosers) (ss : streams) : Prop :=
  shape n t ∧ firstStream_ t = n ∧ Z.of_nat (length ss) = n + 1 ∧
  ((lastIndex_ t = kEmpty ∧ ∀ k, 0 ≤ k < n → cell t k none) ∨
   (0 < n ∧ 0 ≤ lastIndex_ t ≤ n ∧ ∃ v s w, ss !! Z.to_nat (lastIndex_ t) = Some s ∧
      won t (<[Z.to_nat (lastIndex_ t) := v :: s]> ss) 0 w ∧ indexOf C w = lastIndex_ t)).

Lemma won_last t ss m w i : won t ss m w → Z.of_nat (length ss) = n + 1 → n < kEmpty → 0 ≤ m → won (t <| lastIndex_ := i |>) ss m w.
Proof. intros H Hl HnE Hm. apply (won_frame t _ ss ss m w H Hl HnE Hm); [intros; apply load_last | done]. Qed.

(** The path from a leaf to the root is shorter than the fuel. *)
Lemma depth_fuel d i : n ≤ 32767 → 0 ≤ i ≤ n → (0 + 1) * 2 ^ Z.of_nat d ≤ n + i + 1 → (d ≤ treeFuel)%nat.
Proof.
  intros Hn Hi Hd. destruct (decide (d ≤ treeFuel)%nat) as [|Hf]; [done|]. exfalso.
  assert (2 ^ 17 ≤ 2 ^ Z.of_nat d) by (apply Z.pow_le_mono_r; unfold treeFuel in Hf; lia). lia.
Qed.

Lemma propagateOf_won t ss v s w :
  0 < n ≤ 32767 → shape n t → Z.of_nat (length ss) = n + 1 → 0 ≤ lastIndex_ t ≤ n → ss !! Z.to_nat (lastIndex_ t) = Some s →
  won t (<[Z.to_nat (lastIndex_ t) := v :: s]> ss) 0 w → indexOf C w = lastIndex_ t →
  ∃ t' w', propagateOf C ss (parent (n + lastIndex_ t)) (leafEntry ss (lastIndex_ t)) t = Ok (t', w') ∧ won t' ss 0 w' ∧ sameOutside 0 t t'.
Proof.
  intros Hn Hs Hl Hi Es Hw Ew. set (i := lastIndex_ t) in *.
  destruct (climb_won t (<[Z.to_nat i := v :: s]> ss) ss i 0 w) as (d & t' & w' & Hd & _ & Hclimb & Hw' & Ho); try done;
    [lia | rewrite length_insert; lia | |].
  { split; [apply length_insert|]. intros j Hj Hji. rewrite list_lookup_insert_ne by lia. done. }
  exists t', w'. split; [|done]. apply (propagateOf_climb d); [|by eapply depth_fuel; [lia| |]].
  specialize (Hclimb 0%nat). rewrite Nat.add_0_r in Hclimb. unfold climbFrom in Hclimb.
  rewrite (proj2 (Z.eqb_neq (n + i) 0)) in Hclimb by lia. done.
Qed.

(** The tree after the winner is known. *)
Lemma ready_after t ss w :
  0 < n → n < kEmpty → shape n t → firstStream_ t = n → Z.of_nat (length ss) = n + 1 → won t ss 0 w →
  let t' := t <| lastIndex_ := indexOf C w |> in
  won t' ss 0 w ∧ (isEmpty C w = true → treeReady t' ss) ∧
  (isEmpty C w = false → treeReady t' (alter tail (Z.to_nat (indexOf C w)) ss)).
Proof.
  intros Hn HnE Hs Hf Hl Hw t'. assert (won t' ss 0 w) as Hw' by (apply won_last; auto; lia). split; [done|].
  assert (shape n t') by by apply shape_last. unfold isEmpty. split.
  - intros He%Z.eqb_eq. split; [done|]. split; [done|]. split; [done|]. left. split; [done|].
    pose proof (won_index _ _ _ _ Hw Hl HnE He) as ->. intros k Hk. unfold cell, t'. rewrite load_last.
    apply (won_none _ _ _ _ Hw eq_refl Hl HnE); [lia | done | apply below_root; lia].
  - intros He%Z.eqb_neq. split; [done|]. split; [done|]. split; [by rewrite length_alter|]. right. split; [done|].
    destruct (won_stream _ _ _ _ Hw Hl HnE) as [->|(i & v & s & Hi & Ei & _ & Es)]; [by rewrite plain_index in He|].
    change (lastIndex_ t') with (indexOf C w). rewrite Ei. split; [done|]. exists v, s, w.
    rewrite list_lookup_alter_eq, Es. split; [done|]. split; [|done].
    replace (<[Z.to_nat i := v :: s]> (alter tail (Z.to_nat i) ss)) with ss; [done|].
    apply list_eq. intros k. destruct (decide (k = Z.to_nat i)) as [->|Hk].
    + rewrite list_lookup_insert_eq; [done|]. rewrite length_alter. lia.
    + rewrite list_lookup_insert_ne, list_lookup_alter_ne by done. done.
Qed.

(** A call returns the winner of the whole tree, and the tree is ready for the
    next call when its first value has been taken. *)
Lemma nextOf_won t ss :
  0 ≤ n ≤ 32767 → treeReady t ss →
  ∃ t' w, nextOf C ss t = Ok (t', if isEmpty C w then None else Some w) ∧ won t' ss 0 w ∧
    (isEmpty C w = true → treeReady t' ss) ∧
    (isEmpty C w = false → treeReady t' (alter tail (Z.to_nat (indexOf C w)) ss)).
Proof.
  intros Hn (Hs & Hf & Hl & Hlast). assert (n < kEmpty) as HnE by (unfold kEmpty; lia). pose proof (shape_values _ _ Hs) as Hv.
  unfold nextOf. destruct (decide (n = 0)) as [E0|Hn0].
  - destruct Hlast as [[He Hc]|[? _]]; [|lia]. destruct (values_ t) as [|? ?] eqn:Ev; [|simpl in Hv; lia].
    rewrite He, Z.eqb_refl, bool_decide_eq_true_2 by done. cbn [andb].
    destruct (lookup_lt_is_Some_2 ss (Z.to_nat 0)) as [s Es]; [lia|]. unfold hasData. rewrite (proj2 (index_Some ss 0 s ltac:(lia)) Es). cbn [mbind outcome_bind].
    exists t, (leafEntry ss 0). assert (won t ss 0 (leafEntry ss 0)) by (rewrite <- E0 at 1; replace n with (n + 0) at 1 by lia; constructor; lia).
    unfold isEmpty, leafEntry in *. rewrite Es in *. destruct s as [|v s]; rewrite plain_index.
    + rewrite Z.eqb_refl. repeat (split; [done|]). split; [|done]. intros _. split_and!; try done. by left.
    + replace (0 =? kEmpty) with false by done. split; [done|]. split; [done|]. split; [done|]. intros _. split_and!; try done; [by rewrite length_alter | by left].
  - destruct Hlast as [[He Hc]|(_ & Hi & v & s & w & Es & Hw & Ew)].
    + rewrite He, Z.eqb_refl, bool_decide_eq_false_2 by (intros E; rewrite E in Hv; simpl in Hv; lia). cbn [andb].
      destruct (firstOf_won treeFuel ss 0 t) as (t' & w & -> & Hw & Ho); try done; [lia | change (2 ^ Z.of_nat treeFuel) with 131072; lia | by auto|].
      cbn [mbind outcome_bind]. destruct Ho as (Hs' & _ & Hf' & _).
      destruct (ready_after t' ss w) as (? & ? & ?); try done; [lia | congruence|]. by eexists _, w.
    + rewrite (proj2 (Z.eqb_neq (lastIndex_ t) kEmpty)) by lia. cbn [andb].
      destruct (leaf_first t ss (n + lastIndex_ t) Hf Hl ltac:(lia)) as (d & Hd & Hp).
      replace (n + lastIndex_ t - n) with (lastIndex_ t) in Hd, Hp by lia. rewrite Hd. cbn [mbind outcome_bind]. rewrite Hp, Hf.
      unfold uwrap. rewrite Z.mod_small by (unfold kEmpty in *; lia).
      destruct (propagateOf_won t ss v s w) as (t' & w' & -> & Hw' & Ho); try done; [lia|].
      cbn [mbind outcome_bind]. destruct Ho as (Hs' & _ & Hf' & _).
      destruct (ready_after t' ss w') as (? & ? & ?); try done; [lia | congruence|]. by eexists _, w'.
Qed.
End Tournament.
