(* ===== verification/LoserTreeTheorems.v ===== *)
(** * Merging of sorted streams: what callers get

    Both kinds of contest satisfy the laws of [LoserTreeCorrect].  [Merger] is
    what a merging structure promises to the loop that takes the values out;
    the tree, the tree with flags and the array implement it.  [merged] is
    what the loop then produces. *)
From S2P Require Import Prelude Bits LoserTree LoserTreeCorrect.
Local Open Scope Z_scope.

(** ** Construction *)
Lemma levels_spec fuel k N :
  0 ≤ k → N ≤ 2 ^ (k + Z.of_nat fuel) → (0 < k → 2 ^ (k - 1) < N) → 1 ≤ N →
  ∃ j, levels fuel N (2 ^ k - 1) (2 ^ k) = Ok (2 ^ j - 1, 2 ^ j) ∧ 0 ≤ j ∧ N ≤ 2 ^ j ∧ (0 < j → 2 ^ (j - 1) < N).
Proof.
  revert k. induction fuel as [|fuel IH]; intros k Hk HN Hlow H1; simpl.
  all: destruct (Z.leb_spec N (2 ^ k)) as [Hle|Hgt]; [by exists k|].
  - rewrite Z.add_0_r in HN. lia.
  - replace (2 ^ k - 1 + 2 ^ k) with (2 ^ (k + 1) - 1) by (rewrite Z.pow_add_r; lia).
    replace (2 ^ k * 2) with (2 ^ (k + 1)) by (rewrite Z.pow_add_r; lia).
    apply IH; [lia | | | done].
    + by replace (k + 1 + Z.of_nat fuel) with (k + Z.of_nat (S fuel)) by lia.
    + intros _. by replace (k + 1 - 1) with k by lia.
Qed.

(** There is one inner node less than there are streams. *)
Lemma newTreeOfLosers_spec N : 1 ≤ N < kEmpty →
  newTreeOfLosers N = Ok (mkTree (replicate (Z.to_nat (N - 1)) kEmpty) (replicate (Z.to_nat (N - 1)) false) kEmpty (N - 1)).
Proof.
  intros HN. unfold newTreeOfLosers. unfold velox_check.
  rewrite (proj2 (Z.ltb_lt N kEmpty)), (proj2 (Z.leb_le 1 N)) by lia. cbn [mbind outcome_bind].
  destruct (levels_spec 16 0 N) as (j & Hj & Hj0 & Hup & Hlow); [lia | change (2 ^ (0 + Z.of_nat 16)) with 65536; unfold kEmpty in *; lia | lia | lia|].
  change (2 ^ 0 - 1) with 0 in Hj. change (2 ^ 0) with 1 in Hj. rewrite Hj. cbn [mbind outcome_bind].
  assert ((if N =? nextPowerOfTwo N then 2 ^ j - 1 else 2 ^ j - 1 - Z.quot (2 ^ j) 2 + (N - Z.quot (2 ^ j) 2)) = N - 1) as ->; [|done].
  destruct (Z.eqb_spec N (nextPowerOfTwo N)) as [E|E].
  - destruct (nextPowerOfTwo_spec N) as (k & Hk & Ek & _); [unfold kEmpty in *; lia|]. rewrite Ek in E.
    assert (j = k) as <-; [|lia]. destruct (Z.lt_trichotomy j k) as [H'|[->|H']]; [|done|].
    + assert (2 ^ j < 2 ^ k) by (apply Z.pow_lt_mono_r; lia). lia.
    + assert (2 ^ k ≤ 2 ^ (j - 1)) by (apply Z.pow_le_mono_r; lia). specialize (Hlow ltac:(lia)). lia.
  - destruct (Z.eq_dec j 0) as [->|]; [by replace N with 1 in E by (simpl in Hup; lia)|].
    replace j with (j - 1 + 1) by lia. rewrite Z.pow_add_r by lia. change (2 ^ 1) with 2. rewrite Z.quot_mul; lia.
Qed.

(** ** The laws of the contests *)
Section Laws.
Context {V : Type} (compare : V → V → Z) `{!CompareOrder compare}.
Abbreviation streams := (list (list V)).

Definition plainShape (n : Z) (t : TreeOfLosers) : Prop := Z.of_nat (length (values_ t)) = n.
Definition equalsShape (n : Z) (t : TreeOfLosers) : Prop :=
  Z.of_nat (length (values_ t)) = n ∧ Z.of_nat (length (equals_ t)) = n.

Definition plainBeats (ss : streams) (a b w x : Z) : Prop :=
  ((w = a ∧ x = b) ∨ (w = b ∧ x = a)) ∧ firstLe compare ss w x.

(** Two streams whose first values are equal. *)
Definition tie (ss : streams) (i j : Z) : Prop :=
  ∃ u v, firstValue ss i = Ok u ∧ firstValue ss j = Ok v ∧ compare u v = 0.

Definition equalsBeats (ss : streams) (a b w x : Z * bool) : Prop :=
  ((w.1 = a.1 ∧ x = b ∧ (w.2 = true ↔ a.2 = true ∨ tie ss a.1 b.1)) ∨
   (w.1 = b.1 ∧ x = a ∧ (w.2 = true ↔ b.2 = true ∨ tie ss a.1 b.1))) ∧ firstLe compare ss w.1 x.1.

Lemma tie_sym ss i j : tie ss i j → tie ss j i.
Proof. intros (u & v & ? & ? & ?). exists v, u. pose proof (compare_sym u v). pose proof (compare_sym v u). split_and!; [done..|lia]. Qed.

Lemma firstLe_ext ss ss' i j :
  firstValue ss i = firstValue ss' i → firstValue ss j = firstValue ss' j → firstLe compare ss i j → firstLe compare ss' i j.
Proof. unfold firstLe. by intros -> ->. Qed.

Lemma tie_ext ss ss' i j :
  firstValue ss i = firstValue ss' i → firstValue ss j = firstValue ss' j → tie ss i j ↔ tie ss' i j.
Proof. unfold tie. by intros -> ->. Qed.

Lemma playLess_beats ss a b u v :
  firstValue ss a = Ok u → firstValue ss b = Ok v → ∃ w x, playLess compare ss a b = Ok (w, x) ∧ plainBeats ss a b w x.
Proof.
  intros Hu Hv. unfold playLess, lessThan, compareStreams. rewrite Hu, Hv. cbn [mbind outcome_bind].
  destruct (Z.ltb_spec (compare u v) 0) as [H|H]; eexists _, _; (split; [done|]); split; [by left | | by right|].
  - exists u, v. split_and!; [done..|lia].
  - exists v, u. split_and!; [done..|]. by apply compare_swap.
Qed.

#[global] Instance plainLaws : ContestLaws compare (plainContest compare) plainShape plainBeats.
Proof.
  split; try done.
  - intros n t m Hs Hm. destruct (lookup_lt_is_Some_2 (values_ t) (Z.to_nat m)) as [e He]; [unfold plainShape in Hs; lia|].
    exists e. apply index_Some; [lia | done].
  - intros n t m e Hs Hm. unfold plainShape in *. simpl. rewrite setAt_Ok by lia. eexists. split; [done|].
    simpl. rewrite length_insert. split_and!; [done..| |].
    + apply index_Some; [lia|]. apply list_lookup_insert_eq. cbn. lia.
    + intros k Hk Hkm. unfold index. rewrite list_lookup_insert_ne by lia. done.
  - by intros ss a b w x [[[-> ->]|[-> ->]] _]; [left | right].
  - intros ss a b w x [H ?]. split; [by destruct H; [right | left] | done].
  - by intros ss a b w x [_ H].
  - intros ss ss' a b w x He [H Hle]. split; [done|]. eapply firstLe_ext; [..|exact Hle]; apply He; destruct H as [[-> ->]|[-> ->]]; auto.
  - intros ss a b u v. apply playLess_beats.
  - intros ss a b u v. apply playLess_beats.
Qed.

Lemma tie_values ss i j u v : firstValue ss i = Ok u → firstValue ss j = Ok v → tie ss i j ↔ compare u v = 0.
Proof.
  intros Hu Hv. unfold tie. rewrite Hu, Hv. split; [intros (u' & v' & [= <-] & [= <-] & ?); done | by eauto].
Qed.

Lemma firstEquals_beats ss a b u v :
  firstValue ss a.1 = Ok u → firstValue ss b.1 = Ok v →
  ∃ w x, firstEquals compare ss a b = Ok (w, x) ∧ equalsBeats ss a b w x.
Proof.
  intros Hu Hv. unfold firstEquals, compareStreams. rewrite Hu, Hv. cbn [mbind outcome_bind].
  unfold equalsBeats. pose proof (tie_values _ _ _ _ _ Hu Hv) as Ht. pose proof (compare_swap compare v u) as Hsw.
  destruct (Z.eqb_spec (compare u v) 0) as [H|H]; [|destruct (Z.ltb_spec (compare u v) 0) as [H'|H']]; eexists _, _; (split; [done|]); simpl.
  - split; [left; naive_solver | exists u, v; split_and!; [done..|lia]].
  - split; [left; naive_solver | exists u, v; split_and!; [done..|lia]].
  - split; [right; naive_solver | exists v, u; split_and!; [done..|lia]].
Qed.

Lemma upEquals_beats ss a b u v :
  firstValue ss a.1 = Ok u → firstValue ss b.1 = Ok v →
  ∃ w x, upEquals compare ss a b = Ok (w, x) ∧ equalsBeats ss a b w x.
Proof.
  intros Hu Hv. unfold upEquals, compareStreams. rewrite Hu, Hv. cbn [mbind outcome_bind].
  unfold equalsBeats. pose proof (tie_values _ _ _ _ _ Hu Hv) as Ht. pose proof (compare_swap compare v u) as Hsw.
  destruct (Z.eqb_spec (compare u v) 0) as [H|H]; [|destruct (Z.ltb_spec (compare u v) 0) as [H'|H']]; eexists _, _; (split; [done|]); simpl.
  - split; [right; naive_solver | exists v, u; split_and!; [done..|lia]].
  - split; [left; naive_solver | exists u, v; split_and!; [done..|lia]].
  - split; [right; naive_solver | exists v, u; split_and!; [done..|lia]].
Qed.

#[global] Instance equalsLaws : ContestLaws compare (equalsContest compare) equalsShape equalsBeats.
Proof.
  split; try done.
  - by intros n t [? _].
  - intros n t m [Hv He] Hm. destruct (lookup_lt_is_Some_2 (values_ t) (Z.to_nat m)) as [v Ev]; [lia|].
    destruct (lookup_lt_is_Some_2 (equals_ t) (Z.to_nat m)) as [e Ee]; [lia|]. exists (v, e). unfold cell. simpl.
    rewrite (proj2 (index_Some (values_ t) m v ltac:(lia)) Ev). simpl. by rewrite (proj2 (index_Some (equals_ t) m e ltac:(lia)) Ee).
  - intros n t m e [Hv He] Hm. unfold equalsShape. simpl. rewrite !setAt_Ok by (cbn; lia). eexists. split; [done|].
    simpl. rewrite !length_insert. split_and!; [done..| |].
    + unfold cell. simpl. rewrite (proj2 (index_Some _ m e.1 ltac:(lia))) by (apply list_lookup_insert_eq; lia). simpl.
      rewrite (proj2 (index_Some _ m e.2 ltac:(lia))) by (apply list_lookup_insert_eq; lia). simpl. by destruct e.
    + intros k Hk Hkm. unfold index. by rewrite !list_lookup_insert_ne by lia.
  - intros ss a b w x [[(? & ? & _)|(? & ? & _)] _]; [by left | by right].
  - intros ss a b w x [H ?]. split; [|done].
    assert (tie ss a.1 b.1 ↔ tie ss b.1 a.1) as <- by (split; apply tie_sym). by destruct H; [right | left].
  - by intros ss a b w x [_ H].
  - intros ss ss' a b w x He [H Hle]. simpl in He.
    split; [rewrite <- (tie_ext ss ss') by auto; done|].
    eapply firstLe_ext; [..|exact Hle]; apply He; destruct H as [(? & -> & _)|(? & -> & _)]; auto.
  - intros ss a b u v. apply firstEquals_beats.
  - intros ss a b u v. apply upEquals_beats.
Qed.

(** ** The flag of the winner *)
Variable n : Z.
Hypothesis n_range : 0 ≤ n < kEmpty.
Abbreviation wonE := (won (equalsContest compare) (equalsBeats) n).

(** Some other stream below [m] has an equal first value. *)
Definition otherTie (ss : streams) (m i : Z) : Prop :=
  ∃ j, 0 ≤ j ≤ n ∧ j ≠ i ∧ below m (n + j) ∧ tie ss i j.

Lemma tie_stream ss i j : 0 ≤ j → tie ss i j → ∃ v s, ss !! Z.to_nat j = Some (v :: s).
Proof.
  intros Hj (u & v & _ & Hv & _). unfold firstValue in Hv. inv_bind. apply index_Some in Ha; [|done].
  destruct a as [|v' s]; [done|]. by exists v', s.
Qed.

Lemma below_inner m j : 0 ≤ m < n → 0 ≤ j → below m (n + j) ↔ below (2 * m + 1) (n + j) ∨ below (2 * m + 2) (n + j).
Proof.
  intros Hm Hj. split; [inversion 1; subst; auto; lia | intros [?|?]; [by apply below_left | by apply below_right]].
Qed.

Lemma below_leaf i j : 0 ≤ i ≤ n → 0 ≤ j ≤ n → below (n + i) (n + j) → j = i.
Proof.
  intros Hi Hj Hb. inversion Hb as [|? ? Hc|? ? Hc]; [lia | apply below_ge in Hc; lia..].
Qed.

(** The winner [a] of one side has met the winner [b] of the other. *)
Lemma flag_side t ss c o (a b : Z * bool) :
  Z.of_nat (length ss) = n + 1 → 0 ≤ c → 0 ≤ o → (∀ k, below c k → below o k → False) →
  wonE t ss c a → wonE t ss o b → a.1 ≠ kEmpty → b.1 ≠ kEmpty → firstLe compare ss a.1 b.1 → (a.2 = true ↔ otherTie ss c a.1) →
  (a.2 = true ∨ tie ss a.1 b.1) ↔ ∃ j, 0 ≤ j ≤ n ∧ j ≠ a.1 ∧ (below c (n + j) ∨ below o (n + j)) ∧ tie ss a.1 j.
Proof.
  intros Hl Hc0 Ho0 Hdis Ha Hb Hae Hbe Hle Hflag. split.
  - intros [H%Hflag|H]; [destruct H as (j & ? & ? & ? & ?); exists j; by auto|].
    destruct (won_stream compare _ _ _ _ _ _ _ _ Hb Hl ltac:(lia)) as [->|(j & v & s & Hj & Ej & Hbj & _)]; [done|].
    destruct (won_stream compare _ _ _ _ _ _ _ _ Ha Hl ltac:(lia)) as [->|(i & v' & s' & Hi & Ei & Hbi & _)]; [done|].
    simpl in Ei, Ej. exists j. rewrite <- Ej in *. split; [done|]. split; [|by auto].
    intros E. apply (Hdis (n + a.1)); [by rewrite Ei | by rewrite <- E].
  - intros (j & Hj & Hne & [Hbj|Hbj] & Ht); [left; apply Hflag; by exists j|]. right.
    destruct (tie_stream _ _ _ (proj1 Hj) Ht) as (v & s & Es).
    destruct (won_least compare _ _ _ _ _ _ _ _ j v s Hb Hl ltac:(lia) Ho0 Hj Hbj Es) as (y & z & Hy & Hz & Hyz). simpl in Hy.
    destruct Hle as (x & y' & Hx & Hy' & Hxy). rewrite Hy in Hy'. injection Hy' as <-.
    apply (tie_values _ _ _ _ _ Hx Hz) in Ht. apply (tie_values _ _ _ _ _ Hx Hy).
    assert (compare y x ≤ 0) as Hyx by (apply (compare_trans y z x); [done | apply compare_swap; [done|lia]]).
    apply compare_swap in Hyx; [lia | done].
Qed.

Lemma won_flag t ss m (w : Z * bool) :
  wonE t ss m w → Z.of_nat (length ss) = n + 1 → 0 ≤ m → w.1 ≠ kEmpty → (w.2 = true ↔ otherTie ss m w.1).
Proof.
  intros H Hl. induction H as [i Hi|m a b w x Hm Ha IHa Hb IHb _ Hset]; intros Hm0 Hw.
  - split; [by unfold leafEntry|]. intros (j & Hj & Hne & Hb & _). exfalso. apply Hne. pose proof (below_leaf _ _ Hi Hj Hb) as ->.
    apply (leafEntry_index compare (equalsContest compare) equalsShape equalsBeats ss); [done | exact Hw].
  - assert (∀ i, otherTie ss m i ↔ ∃ j, 0 ≤ j ≤ n ∧ j ≠ i ∧ (below (2 * m + 1) (n + j) ∨ below (2 * m + 2) (n + j)) ∧ tie ss i j) as Hother.
    { intros i. unfold otherTie. split; intros (j & ? & ? & ? & ?); exists j; split_and!; try done; try lia; apply below_inner; auto; lia. }
    assert (∀ c i j, wonE t ss c (plain (equalsContest compare) kEmpty) → 0 ≤ c → 0 ≤ j ≤ n → below c (n + j) → tie ss i j → False) as Hnone.
    { intros c i j Hc Hc0 Hj Hbj Ht. destruct (tie_stream _ _ _ (proj1 Hj) Ht) as (v & s & Es).
      destruct (won_none compare _ _ _ _ _ _ _ _ Hc eq_refl Hl ltac:(lia) Hc0) as [_ He]. rewrite He in Es; done. }
    rewrite Hother. destruct Hset as [(-> & -> & _)|[(-> & -> & _)|(Hae & Hbe & Hbt)]].
    + rewrite IHb by (done || lia). split; intros (j & ? & ? & Hj & ?); exists j; split_and!; try done; auto; try lia.
      destruct Hj; [exfalso; by eapply (Hnone (2 * m + 1)); [|lia| |..] | done].
    + rewrite IHa by (done || lia). split; intros (j & ? & ? & Hj & ?); exists j; split_and!; try done; auto; try lia.
      destruct Hj; [done | exfalso; by eapply (Hnone (2 * m + 2)); [|lia| |..]].
    + simpl in Hae, Hbe. destruct Hbt as [[(Ew & -> & ->)|(Ew & -> & ->)] Hle]; rewrite Ew in *.
      * apply (flag_side t ss (2 * m + 1) (2 * m + 2) a b); auto; try lia; [|apply IHa; [lia | done]].
        intros k ? ?. by apply (below_disjoint m k).
      * assert (tie ss a.1 b.1 ↔ tie ss b.1 a.1) as -> by (split; apply tie_sym).
        rewrite (flag_side t ss (2 * m + 2) (2 * m + 1) b a); auto; try lia; [|intros k ? ?; by apply (below_disjoint m k)|apply IHb; [lia | done]].
        split; intros (j & ? & ? & [?|?] & ?); exists j; auto.
Qed.
End Laws.
