(* ===== verification/MergeStreams.v ===== *)
(** * Merging of sorted streams: the loop of the caller

    [Merger] is what a merging structure promises to the loop that takes the
    values out; the tree, the tree with flags and the array implement it.
    [merged] is what the loop produces: a sorted arrangement of all values. *)
From S2P Require Import Prelude LoserTree LoserTreeCorrect LoserTreeTheorems.
Local Open Scope Z_scope.

Section Merge.
Context {V : Type} (compare : V → V → Z) `{!CompareOrder compare}.
Abbreviation streams := (list (list V)).

Definition le (a b : V) : Prop := compare a b ≤ 0.
Definition lt (a b : V) : Prop := compare a b < 0.

(** Takes the first value of a stream. *)
Definition pop (ss : streams) (i : Z) : streams := alter tail (Z.to_nat i) ss.

(** [v] is the first value of the stream [i] and no other is less. *)
Definition least (ss : streams) (i : Z) (v : V) : Prop :=
  0 ≤ i ∧ (∃ s, ss !! Z.to_nat i = Some (v :: s)) ∧ ∀ j u s, ss !! j = Some (u :: s) → le v u.

(** ** The interface *)
Section Interface.
Context {M E : Type}.

(** What is returned names a stream. *)
Variable idx : E → Z.
Variable nextFn : streams → M → outcome (M * option E).
Variable ready : M → streams → Prop.
Variable good : streams → E → Prop.

Class Merger := {
  merger_next m ss : ready m ss →
    ∃ m' r, nextFn ss m = Ok (m', r) ∧
      match r with
      | None => Forall (λ s, s = []) ss
      | Some e => (∃ v, least ss (idx e) v) ∧ good ss e ∧ ready m' (pop ss (idx e))
      end }.

(** Call, take the first value of the stream that is returned, until there is
    none. *)
Fixpoint drain (fuel : nat) (ss : streams) (m : M) : outcome (list (V * E)) :=
  '(m, r) ← nextFn ss m;
  match r with
  | None => Ok []
  | Some e =>
      v ← firstValue ss (idx e);
      match fuel with
      | O => Throw OutOfFuel
      | S fuel => out ← drain fuel (pop ss (idx e)) m; Ok ((v, e) :: out)
      end
  end.

Inductive merged : streams → list (V * E) → Prop :=
| merged_nil ss : Forall (λ s, s = []) ss → merged ss []
| merged_cons ss e v out : least ss (idx e) v → good ss e → merged (pop ss (idx e)) out → merged ss ((v, e) :: out).

Lemma join_empty (ss : streams) : Forall (λ s, s = []) ss → mjoin ss = [].
Proof. induction 1 as [|s ss -> _ IH]; done. Qed.

(** Taking a value removes it from the values to come. *)
Lemma pop_perm ss i v s : ss !! i = Some (v :: s) → mjoin ss ≡ₚ v :: mjoin (alter (@tail V) i ss).
Proof.
  revert i. induction ss as [|s' ss IH]; intros [|i] H; try done; simpl in *.
  - by injection H as ->.
  - rewrite (IH i H). by rewrite Permutation_middle.
Qed.

Lemma least_pop ss i v : least ss i v → mjoin ss ≡ₚ v :: mjoin (pop ss i).
Proof. intros (_ & [s Hs] & _). by eapply pop_perm. Qed.

(** The loop ends after one call per value, and one more. *)
Lemma drain_merged `{!Merger} fuel m ss :
  ready m ss → (length (mjoin ss) ≤ fuel)%nat → ∃ out, drain fuel ss m = Ok out ∧ merged ss out.
Proof.
  revert m ss. induction fuel as [|fuel IH]; intros m ss Hr Hf; simpl;
    destruct (merger_next m ss Hr) as (m' & [e|] & -> & Hnext); cbn [mbind outcome_bind].
  2, 4: by exists []; split; [done | constructor].
  all: destruct Hnext as ([v Hv] & Hg & Hr'); pose proof (Permutation_length (least_pop _ _ _ Hv)) as Hlen; simpl in Hlen.
  { lia. }
  destruct (IH m' (pop ss (idx e))) as (out & Ho & Hm); [done | lia|].
  pose proof Hv as (Hi & [s Hs] & _). unfold firstValue. rewrite (proj2 (index_Some ss (idx e) _ Hi) Hs). cbn [mbind outcome_bind].
  rewrite Ho. exists ((v, e) :: out). split; [done | by constructor].
Qed.

(** ** What the loop produces *)
Lemma merged_perm ss out : merged ss out → out.*1 ≡ₚ mjoin ss.
Proof.
  induction 1 as [ss H|ss e v out Hv _ _ IH]; [by rewrite join_empty|]. simpl. rewrite IH. symmetry. by apply least_pop.
Qed.

Lemma pop_lookup ss i j : 0 ≤ i → pop ss i !! j = (if decide (j = Z.to_nat i) then tail <$> ss !! j else ss !! j).
Proof.
  intros Hi. unfold pop. destruct (decide (j = Z.to_nat i)) as [->|Hj]; [apply list_lookup_alter_eq | by apply list_lookup_alter_ne].
Qed.

Lemma pop_Forall (P : list V → Prop) ss i : (∀ s, P s → P (tail s)) → 0 ≤ i → Forall P ss → Forall P (pop ss i).
Proof.
  intros HP Hi H. apply Forall_lookup. intros j s. rewrite pop_lookup by done. rewrite Forall_lookup in H.
  destruct (decide (j = Z.to_nat i)); [|by apply H]. intros (s' & Hs' & ->)%fmap_Some. eauto.
Qed.

Lemma tail_sorted (R : V → V → Prop) s : StronglySorted R s → StronglySorted R (tail s).
Proof. destruct 1; [constructor | done]. Qed.

(** The least of the first values is the least of all. *)
Lemma least_all ss i v : Forall (StronglySorted le) ss → least ss i v → Forall (le v) (mjoin ss).
Proof.
  intros Hs (_ & _ & Hmin). apply Forall_forall. intros u (s & Hu & Hin)%list_elem_of_join.
  rewrite Forall_forall in Hs. specialize (Hs s Hin). apply list_elem_of_lookup in Hin as [j Hj].
  destruct s as [|h s]; [by apply elem_of_nil in Hu|]. specialize (Hmin _ _ _ Hj).
  apply elem_of_cons in Hu as [->|Hu]; [done|]. inversion Hs as [|? ? _ Hall]. subst. rewrite Forall_forall in Hall.
  unfold le in *. eapply compare_trans; [done | by apply Hall].
Qed.

Lemma merged_sorted ss out : merged ss out → Forall (StronglySorted le) ss → StronglySorted le (out.*1).
Proof.
  induction 1 as [|ss e v out Hv _ Hm IH]; intros Hs; [constructor|]. simpl. constructor.
  - apply IH. apply pop_Forall; [apply tail_sorted | apply Hv | done].
  - apply merged_perm in Hm. rewrite Hm. pose proof (least_all _ _ _ Hs Hv) as Hall. rewrite (least_pop _ _ _ Hv) in Hall.
    by inversion Hall.
Qed.

Lemma lt_le_sorted s : StronglySorted lt s → StronglySorted le s.
Proof.
  induction 1 as [|v s Hs IH Hall]; constructor; [done|]. eapply Forall_impl; [exact Hall|]. intros u. unfold lt, le. lia.
Qed.

(** The first values of the other streams decide whether the next value is
    equal. *)
Lemma next_equal ss e v out :
  Forall (StronglySorted lt) ss → least ss (idx e) v → merged (pop ss (idx e)) out →
  (∃ j, 0 ≤ j ∧ j ≠ idx e ∧ tie compare ss (idx e) j) ↔ ∃ u e', head out = Some (u, e') ∧ compare v u = 0.
Proof.
  intros Hss Hv Hm. assert (Forall (StronglySorted le) ss) as Hle by (eapply Forall_impl; [exact Hss | apply lt_le_sorted]).
  pose proof (least_all _ _ _ Hle Hv) as Hall. rewrite (least_pop _ _ _ Hv) in Hall. inversion Hall as [|? ? _ Hall']; subst.
  pose proof Hv as (Hi & [s Hs] & _). assert (firstValue ss (idx e) = Ok v) as Hfv.
  { unfold firstValue. by rewrite (proj2 (index_Some ss (idx e) _ Hi) Hs). }
  split.
  - intros (j & Hj & Hne & Ht). destruct (tie_stream _ _ _ _ Hj Ht) as (u & s' & Es).
    assert (firstValue ss j = Ok u) as Hfu by (unfold firstValue; by rewrite (proj2 (index_Some ss j _ Hj) Es)).
    apply (tie_values _ _ _ _ _ _ Hfv Hfu) in Ht.
    assert (pop ss (idx e) !! Z.to_nat j = Some (u :: s')) as Ep by (rewrite pop_lookup by done; rewrite decide_False by lia; done).
    inversion Hm as [? Hnil|? e' u' out' Hu' _ Hm']; subst.
    { rewrite Forall_forall in Hnil. apply list_elem_of_lookup_2, Hnil in Ep. done. }
    exists u', e'. split; [done|]. pose proof Hu' as (_ & _ & Hmin). specialize (Hmin _ _ _ Ep).
    assert (le v u') as Hvu. { rewrite (least_pop _ _ _ Hu') in Hall'. by inversion Hall'. }
    unfold le in *. assert (compare u' v ≤ 0) as H by (eapply compare_trans; [exact Hmin|]; apply compare_swap; [done | lia]).
    apply compare_swap in H; [lia | done].
  - intros (u & e' & Ho & Hc). inversion Hm as [|? e'' u' out' Hu' _ _]; subst; [done|]. injection Ho as -> ->.
    destruct Hu' as (Hi' & [s' Hs'] & _). rewrite pop_lookup in Hs' by done. destruct (decide (Z.to_nat (idx e') = Z.to_nat (idx e))) as [E'|Hne].
    + exfalso. rewrite E', Hs in Hs'. simpl in Hs'. injection Hs' as ->. rewrite Forall_forall in Hss.
      apply list_elem_of_lookup_2, Hss in Hs. inversion Hs as [|? ? _ Hlt]. inversion Hlt as [|? ? Hl _]. unfold lt in Hl. lia.
    + exists (idx e'). split; [done|]. split; [congruence|]. exists v, u. split; [done|]. split; [|done].
      unfold firstValue. by rewrite (proj2 (index_Some ss (idx e') _ Hi') Hs').
Qed.

(** Flags that tell of ties tell whether the next value is equal. *)
Lemma merged_flags (flag : E → bool) ss out :
  (∀ ss e, good ss e → flag e = true ↔ ∃ j, 0 ≤ j ∧ j ≠ idx e ∧ tie compare ss (idx e) j) →
  merged ss out → Forall (StronglySorted lt) ss →
  ∀ k v e, out !! k = Some (v, e) → (flag e = true ↔ ∃ u e', out !! S k = Some (u, e') ∧ compare v u = 0).
Proof.
  intros Hgood. induction 1 as [|ss e v out Hv Hg Hm IH]; intros Hs k v' e' Hk; [done|]. destruct k as [|k].
  - injection Hk as <- <-. rewrite (Hgood _ _ Hg), (next_equal _ _ _ _ Hs Hv Hm). simpl. by rewrite <- head_lookup.
  - apply IH; [|done]. apply pop_Forall; [apply tail_sorted | apply Hv | done].
Qed.
End Interface.

(** ** The trees *)
Section Trees.
Context (C : @Contest V) (shape : Z → TreeOfLosers → Prop) (beats : streams → entry C → entry C → entry C → entry C → Prop).
Context {laws : ContestLaws compare C shape beats}.

Definition readyTree (t : TreeOfLosers) (ss : streams) : Prop := ∃ n, 0 ≤ n ≤ 32767 ∧ treeReady C shape beats n t ss.

Lemma won_root_least n t ss w :
  won C beats n t ss 0 w → Z.of_nat (length ss) = n + 1 → n < kEmpty → isEmpty C w = false → ∃ v, least ss (indexOf C w) v.
Proof.
  intros Hw Hl Hn He%Z.eqb_neq.
  destruct (won_stream compare _ _ _ _ _ _ _ _ Hw Hl Hn) as [->|(i & v & s & Hi & Ei & _ & Es)]; [by rewrite (plain_index compare C shape beats) in He|].
  exists v. rewrite Ei. split; [lia|]. split; [by exists s|]. intros j u s' Ej. pose proof (lookup_lt_Some _ _ _ Ej) as Hj.
  rewrite <- (Nat2Z.id j) in Ej. destruct (won_least compare _ _ _ _ _ _ _ _ (Z.of_nat j) u s' Hw Hl Hn) as (v' & u' & Hv & Hu & Hle);
    [lia | lia | apply below_root; lia | done|].
  rewrite Ei in Hv. unfold firstValue in *. rewrite (proj2 (index_Some ss i _ ltac:(lia)) Es) in Hv.
  rewrite (proj2 (index_Some ss (Z.of_nat j) _ ltac:(lia)) Ej) in Hu. by injection Hv as <-; injection Hu as <-.
Qed.

Lemma won_root_none n t ss w :
  won C beats n t ss 0 w → Z.of_nat (length ss) = n + 1 → n < kEmpty → isEmpty C w = true → Forall (λ s, s = []) ss.
Proof.
  intros Hw Hl Hn He%Z.eqb_eq. pose proof (won_index compare _ _ _ _ _ _ _ _ Hw Hl Hn He) as ->.
  destruct (won_none compare _ _ _ _ _ _ _ _ Hw eq_refl Hl Hn ltac:(lia)) as [_ H].
  apply Forall_lookup. intros j s Hj. pose proof (lookup_lt_Some _ _ _ Hj). specialize (H (Z.of_nat j) ltac:(lia)).
  rewrite Nat2Z.id, Hj in H. specialize (H ltac:(apply below_root; lia)). congruence.
Qed.

Lemma treeMerger (good : streams → entry C → Prop) :
  (∀ n t ss w, 0 ≤ n < kEmpty → won C beats n t ss 0 w → Z.of_nat (length ss) = n + 1 → isEmpty C w = false → good ss w) →
  Merger (indexOf C) (nextOf C) readyTree good.
Proof.
  intros Hgood. split. intros t ss (n & Hn & Hr). pose proof Hr as (_ & _ & Hl & _).
  assert (n < kEmpty) as HnE by (unfold kEmpty; lia).
  destruct (nextOf_won compare C shape beats n t ss Hn Hr) as (t' & w & -> & Hw & Hnone & Hsome). eexists _, _. split; [done|].
  destruct (isEmpty C w) eqn:He; [by eapply won_root_none|].
  split; [by eapply won_root_least|]. split; [eapply Hgood; eauto; lia|]. exists n. auto.
Qed.

(** A new tree has seen nothing. *)
Lemma new_ready ss : (∀ n m, 0 ≤ m < n → load C (mkTree (replicate (Z.to_nat n) kEmpty) (replicate (Z.to_nat n) false) kEmpty n) m = Ok (plain C kEmpty)) →
  (∀ n, 0 ≤ n → shape n (mkTree (replicate (Z.to_nat n) kEmpty) (replicate (Z.to_nat n) false) kEmpty n)) →
  1 ≤ Z.of_nat (length ss) ≤ 32768 → ∃ t, newTreeOfLosers (Z.of_nat (length ss)) = Ok t ∧ readyTree t ss.
Proof.
  intros Hload Hshape Hl. set (n := Z.of_nat (length ss) - 1).
  rewrite newTreeOfLosers_spec by (unfold kEmpty; lia). eexists. split; [done|]. fold n.
  exists n. split; [lia|]. split; [apply Hshape; lia|]. split; [done|]. split; [lia|]. left. split; [done|]. intros k Hk. by apply Hload.
Qed.
End Trees.

Definition flagGood (ss : streams) (e : Z * bool) : Prop := e.2 = true ↔ ∃ j, 0 ≤ j ∧ j ≠ e.1 ∧ tie compare ss e.1 j.

#[global] Instance plainMerger :
  Merger (λ i, i) (next compare) (readyTree (plainContest compare) plainShape (plainBeats compare)) (λ _ _, True).
Proof. by refine (treeMerger (plainContest compare) plainShape (plainBeats compare) (λ _ _, True) _). Qed.

#[global] Instance flagMerger :
  Merger fst (nextWithEquals compare) (readyTree (equalsContest compare) equalsShape (equalsBeats compare)) flagGood.
Proof.
  refine (treeMerger (equalsContest compare) equalsShape (equalsBeats compare) flagGood _). intros n t ss w Hn Hw Hl He%Z.eqb_neq. unfold flagGood.
  rewrite (won_flag compare n Hn t ss 0 w Hw Hl ltac:(lia) He). split.
  - intros (j & ? & ? & _ & ?). exists j. split_and!; [lia | done | done].
  - intros (j & Hj & Hne & Ht). destruct (tie_stream _ _ _ _ Hj Ht) as (v & s & Es). apply lookup_lt_Some in Es.
    exists j. split_and!; [lia | lia | done | apply below_root; lia | done].
Qed.

Lemma new_plain ss : 1 ≤ Z.of_nat (length ss) ≤ 32768 →
  ∃ t, newTreeOfLosers (Z.of_nat (length ss)) = Ok t ∧ readyTree (plainContest compare) plainShape (plainBeats compare) t ss.
Proof.
  apply new_ready; simpl.
  - intros n m Hm. apply index_Some; [lia|]. apply lookup_replicate. split; [done|lia].
  - intros n Hn. unfold plainShape. simpl. rewrite length_replicate. lia.
Qed.

Lemma new_equals ss : 1 ≤ Z.of_nat (length ss) ≤ 32768 →
  ∃ t, newTreeOfLosers (Z.of_nat (length ss)) = Ok t ∧ readyTree (equalsContest compare) equalsShape (equalsBeats compare) t ss.
Proof.
  apply new_ready; simpl.
  - intros n m Hm. unfold index. rewrite (proj2 (Z.ltb_ge _ _)) by lia. by rewrite !lookup_replicate_2 by lia.
  - intros n Hn. unfold equalsShape. simpl. rewrite !length_replicate. lia.
Qed.
End Merge.
