(* ===== verification/MergeTheorems.v ===== *)
(** * Merging of sorted streams: the array, and the theorems

    [MergeArray] implements [Merger] too, [std::sort] being any function with
    the contract [SortsBy].  The theorems are about whole merges, from
    construction to the end of all streams. *)
From S2P Require Import Prelude LoserTree LoserTreeCorrect LoserTreeTheorems MergeStreams.
Local Open Scope Z_scope.

(** ** [std::sort]

    The comparison has to be a strict weak order on the elements. *)
Definition weakOrderOn (less : Z → Z → bool) (l : list Z) : Prop :=
  (∀ x, x ∈ l → less x x = false) ∧
  (∀ x y z, x ∈ l → y ∈ l → z ∈ l → less x y = true → less y z = true → less x z = true) ∧
  (∀ x y z, x ∈ l → y ∈ l → z ∈ l → less x y = false → less y z = false → less x z = false).

Class SortsBy (sort : (Z → Z → bool) → list Z → list Z) : Prop := {
  sort_perm less l : sort less l ≡ₚ l;
  sort_sorted less l : weakOrderOn less l → StronglySorted (λ x y, less y x = false) (sort less l) }.

Section Array.
Context {V : Type} (compare : V → V → Z) `{!CompareOrder compare}.
Abbreviation streams := (list (list V)).
Abbreviation firstLe := (firstLe compare).

Definition filled (ss : streams) (i : Z) : Prop := 0 ≤ i ∧ ∃ v s, ss !! Z.to_nat i = Some (v :: s).

Definition arraySorted (ss : streams) (l : list Z) : Prop :=
  NoDup l ∧ (∀ i, i ∈ l ↔ filled ss i) ∧ StronglySorted (firstLe ss) l.

(** Before a call: it is the first one, or the first value of the stream in
    front has been taken. *)
Definition readyArray (a : MergeArray) (ss : streams) : Prop :=
  if isFirst_ a then arraySorted ss (streams_ a)
  else ∃ i rest v s, streams_ a = i :: rest ∧ ss !! Z.to_nat i = Some s ∧ arraySorted (<[Z.to_nat i := v :: s]> ss) (i :: rest).

Lemma filled_value ss i : filled ss i → ∃ v, firstValue ss i = Ok v.
Proof. intros (Hi & v & s & E). exists v. unfold firstValue. by rewrite (proj2 (index_Some ss i _ Hi) E). Qed.

Lemma filled_data ss i : 0 ≤ i → hasData ss i = Ok true ↔ filled ss i.
Proof.
  intros Hi. unfold hasData, filled. split.
  - intros H. inv_bind. apply index_Some in Ha; [|done]. destruct a as [|v s]; [done|]. eauto.
  - intros (_ & v & s & E). by rewrite (proj2 (index_Some ss i _ Hi) E).
Qed.

Lemma lessFirst_le ss i j : filled ss i → filled ss j → lessFirst compare ss i j = false ↔ firstLe ss j i.
Proof.
  intros (u & Hu)%filled_value (v & Hv)%filled_value. unfold lessFirst, lessThan, compareStreams. rewrite Hu, Hv. cbn [mbind outcome_bind].
  pose proof (compare_swap compare v u) as Hsw. split.
  - intros H%Z.ltb_ge. exists v, u. split_and!; [done..|lia].
  - intros (v' & u' & Hv' & Hu' & Hle). apply Z.ltb_ge. assert (v' = v ∧ u' = u) as [-> ->] by (split; congruence). lia.
Qed.

Lemma firstLe_total ss i j : filled ss i → filled ss j → lessFirst compare ss i j = true → firstLe ss i j.
Proof.
  intros (u & Hu)%filled_value (v & Hv)%filled_value. unfold lessFirst, lessThan, compareStreams. rewrite Hu, Hv. cbn [mbind outcome_bind].
  intros H%Z.ltb_lt. exists u, v. split_and!; [done..|lia].
Qed.

(** *** Construction *)
Lemma withData_filled ss i : i ∈ withData ss ↔ filled ss i.
Proof.
  unfold withData. rewrite list_elem_of_filter. split.
  - intros [Hd Hi%elem_of_seqZ]. apply filled_data; [lia | done].
  - intros Hf. pose proof Hf as (Hi & v & s & E). apply lookup_lt_Some in E.
    split; [by apply filled_data | apply elem_of_seqZ; lia].
Qed.

Lemma lessFirst_order ss l : Forall (filled ss) l → weakOrderOn (lessFirst compare ss) l.
Proof.
  rewrite Forall_forall. intros Hf.
  assert (∀ i j, i ∈ l → j ∈ l → lessFirst compare ss i j = true ↔ ¬ firstLe ss j i) as Hless.
  { intros i j Hi Hj. rewrite <- (lessFirst_le ss i j) by auto. by destruct (lessFirst compare ss i j). }
  split_and!.
  - intros x Hx. apply lessFirst_le; auto. destruct (Hf x Hx) as (? & v & s & ?). by eapply firstLe_refl.
  - intros x y z Hx Hy Hz Hxy Hyz. apply Hless; auto. intros Hzx. apply (proj1 (Hless y z Hy Hz) Hyz).
    eapply firstLe_trans; [done | exact Hzx|]. apply firstLe_total; auto.
  - intros x y z Hx Hy Hz Hxy%lessFirst_le Hyz%lessFirst_le; auto. apply lessFirst_le; auto. by eapply firstLe_trans.
Qed.

Lemma new_array_ready sort `{!SortsBy sort} ss : readyArray (newMergeArray compare sort ss) ss.
Proof.
  unfold readyArray. simpl. assert (∀ i, i ∈ sort (lessFirst compare ss) (withData ss) ↔ filled ss i) as Hin.
  { intros i. rewrite sort_perm. apply withData_filled. }
  split_and!; [| done |].
  - rewrite sort_perm. apply NoDup_filter, NoDup_seqZ.
  - assert (StronglySorted (λ x y, lessFirst compare ss y x = false) (sort (lessFirst compare ss) (withData ss))) as Hs.
    { apply sort_sorted, lessFirst_order. apply Forall_forall. intros i. apply withData_filled. }
    revert Hs. assert (Forall (filled ss) (sort (lessFirst compare ss) (withData ss))) as Hf by (apply Forall_forall; intros; by apply Hin).
    revert Hf. generalize (sort (lessFirst compare ss) (withData ss)) as l. induction l as [|x l IH]; intros Hf Hs; [constructor|].
    inversion Hf; inversion Hs as [|? ? Hs' Hall]; subst. constructor; [auto|]. rewrite Forall_forall in *. intros y Hy.
    apply lessFirst_le; auto.
Qed.

(** *** The calls *)

(** The stream in front is returned. *)
Lemma array_head ss l : arraySorted ss l →
  match head l with
  | None => Forall (λ s, s = []) ss
  | Some i => (∃ v, least compare ss i v) ∧ True ∧ readyArray (mkMergeArray false l) (pop ss i)
  end.
Proof.
  intros Hl. pose proof Hl as (_ & Hin & Hs). destruct l as [|i l]; simpl.
  - apply Forall_lookup. intros j s Hj. destruct s as [|v s]; [done|]. exfalso. apply (not_elem_of_nil (Z.of_nat j)), Hin.
    split; [lia|]. rewrite Nat2Z.id. by exists v, s.
  - assert (filled ss i) as (Hi & v & s & Es) by (apply Hin; by left). split; [|split; [done|]].
    + exists v. split; [done|]. split; [by exists s|]. intros j u s' Ej.
      assert (Z.of_nat j ∈ i :: l) as Hj by (apply Hin; split; [lia|]; rewrite Nat2Z.id; by exists u, s').
      assert (firstLe ss i (Z.of_nat j)) as (v' & u' & Hv & Hu & Hle).
      { inversion Hs as [|? ? _ Hall]; subst. apply elem_of_cons in Hj as [->|Hj]; [by eapply firstLe_refl|].
        rewrite Forall_forall in Hall. by apply Hall. }
      unfold firstValue in Hv, Hu. rewrite (proj2 (index_Some ss i _ Hi) Es) in Hv. rewrite <- (Nat2Z.id j) in Ej.
      rewrite (proj2 (index_Some ss (Z.of_nat j) _ ltac:(lia)) Ej) in Hu. by injection Hv as <-; injection Hu as <-.
    + exists i, l, v, s. split; [done|]. split; [unfold pop; by rewrite list_lookup_alter_eq, Es|].
      replace (<[Z.to_nat i := v :: s]> (pop ss i)) with ss; [done|]. unfold pop. apply list_eq. intros k.
      destruct (decide (k = Z.to_nat i)) as [->|Hk].
      * rewrite list_lookup_insert_eq; [done|]. rewrite length_alter. by eapply lookup_lt_Some.
      * by rewrite list_lookup_insert_ne, list_lookup_alter_ne.
Qed.

(** The streams behind the one in front are still in order. *)
Lemma sorted_rest ss i rest v s :
  ss !! Z.to_nat i = Some s → arraySorted (<[Z.to_nat i := v :: s]> ss) (i :: rest) →
  0 ≤ i ∧ NoDup (i :: rest) ∧ (∀ j, j ∈ rest ↔ j ≠ i ∧ filled ss j) ∧ StronglySorted (firstLe ss) rest.
Proof.
  intros Es (Hnd & Hin & Hs). assert (0 ≤ i) as Hi by (destruct (proj1 (Hin i)) as [? _]; [by left | done]).
  apply NoDup_cons in Hnd as Hnd'. destruct Hnd' as [Hni _].
  assert (∀ j, j ≠ i → 0 ≤ j → <[Z.to_nat i := v :: s]> ss !! Z.to_nat j = ss !! Z.to_nat j) as Hsame.
  { intros j Hj Hj0. apply list_lookup_insert_ne. lia. }
  assert (∀ j, j ≠ i → filled (<[Z.to_nat i := v :: s]> ss) j ↔ filled ss j) as Hfill.
  { intros j Hj. unfold filled. split; intros (? & ? & ? & H'); (split; [done|]); rewrite Hsame in * by done; eauto. }
  assert (∀ j, j ∈ rest ↔ j ≠ i ∧ filled ss j) as Hrest.
  { intros j. split.
    - intros Hj. assert (j ≠ i) as Hne by (by intros ->). split; [done|]. apply Hfill, Hin; [done | by right].
    - intros [Hne Hf%Hfill%Hin]; [|done]. apply elem_of_cons in Hf as [?|?]; done. }
  split_and!; try done. inversion Hs as [|? ? Hs' _]; subst. clear -Hs' Hrest Hsame.
  assert (Forall (λ j, j ≠ i ∧ filled ss j) rest) as Hf by (apply Forall_forall; intros; by apply Hrest). clear Hrest.
  induction rest as [|x l IH]; [constructor|]. inversion Hf as [|? ? [Hx [Hx0 _]] Hf']; inversion Hs' as [|? ? Hs Hall]; subst.
  constructor; [auto|]. rewrite Forall_forall in *. intros y Hy. destruct (Hf' y Hy) as [Hyi [Hy0 _]].
  eapply firstLe_ext; [..|apply Hall, Hy]; unfold firstValue, index; rewrite Hsame; done.
Qed.

Abbreviation inserted := (λ ss i l, take (lowerBound compare ss i l) l ++ i :: drop (lowerBound compare ss i l) l).

Lemma inserted_perm ss i l : inserted ss i l ≡ₚ i :: l.
Proof. rewrite <- Permutation_middle. by rewrite take_drop. Qed.

Lemma inserted_sorted ss i l :
  filled ss i → Forall (filled ss) l → StronglySorted (firstLe ss) l → StronglySorted (firstLe ss) (inserted ss i l).
Proof.
  intros Hi. induction l as [|x l IH]; intros Hf Hs; simpl; [by repeat constructor|].
  inversion Hf as [|? ? Hx Hf']; inversion Hs as [|? ? Hs' Hall]; subst.
  destruct (lessFirst compare ss x i) eqn:E; simpl.
  - constructor; [by apply IH|]. rewrite inserted_perm. constructor; [by apply firstLe_total | done].
  - apply lessFirst_le in E; [|done..]. constructor; [done|]. constructor; [done|].
    eapply Forall_impl; [exact Hall|]. intros y Hy. by eapply firstLe_trans.
Qed.

#[global] Instance arrayMerger : Merger compare (λ i, i) (ma_next compare) readyArray (λ _ _, True).
Proof.
  split. intros [isFirst l] ss Hr. unfold ma_next, readyArray in *. cbn [isFirst_ streams_] in *. destruct isFirst.
  { eexists _, _. split; [done|]. by apply array_head. }
  destruct Hr as (i & rest & v & s & -> & Es & Hs). destruct (sorted_rest _ _ _ _ _ Es Hs) as (Hi & Hnd & Hrest & Hsr).
  unfold hasData. rewrite (proj2 (index_Some ss i _ Hi) Es). cbn [mbind outcome_bind]. apply NoDup_cons in Hnd as Hnd'. destruct Hnd' as [Hni Hnr].
  destruct s as [|u s]; cbn [negb]; eexists _, _; (split; [done|]); apply array_head; split_and!; try done.
  - intros j. rewrite Hrest. split; [by intros [_ ?]|]. intros Hf. split; [|done]. intros ->. destruct Hf as (_ & ? & ? & ?). congruence.
  - by rewrite inserted_perm.
  - intros j. rewrite inserted_perm, elem_of_cons, Hrest. destruct (decide (j = i)) as [->|]; [|naive_solver].
    split; [|by left]. intros _. split; [done|]. by exists u, s.
  - apply inserted_sorted; [split; [done|]; by exists u, s | | done].
    apply Forall_forall. intros j Hj. by apply Hrest.
Qed.
End Array.

(** ** Whole merges *)

(** As many calls as there are values, and one more, empty all streams. *)
Abbreviation drainTree := (λ compare ss, drain (λ i, i) (next compare) (length (mjoin ss)) ss).
Abbreviation drainFlags := (λ compare ss, drain fst (nextWithEquals compare) (length (mjoin ss)) ss).
Abbreviation drainArray := (λ compare ss, drain (λ i, i) (ma_next compare) (length (mjoin ss)) ss).

Lemma drained_sorted {V M E} (compare : V → V → Z) `{!CompareOrder compare} idx nextFn ready good
    `{!@Merger V compare M E idx nextFn ready good} m ss :
  ready m ss → Forall (StronglySorted (le compare)) ss →
  ∃ out, drain idx nextFn (length (mjoin ss)) ss m = Ok out ∧ merged compare idx good ss out ∧
    StronglySorted (le compare) out.*1 ∧ out.*1 ≡ₚ mjoin ss.
Proof.
  intros Hr Hs. destruct (drain_merged compare idx nextFn ready good (length (mjoin ss)) m ss Hr ltac:(lia)) as (out & Ho & Hm).
  exists out. split_and!; [done | done | by eapply merged_sorted | by eapply merged_perm].
Qed.

(** C9: Merging up to 32768 sorted streams with a tree of losers returns: every
    call gives a stream whose first value can be taken, the loop ends after
    one call per value, and what was taken is sorted and is all the values
    of the streams. *)
Theorem tree_merge {V} (compare : V → V → Z) (ss : list (list V)) :
  CompareOrder compare → 1 ≤ Z.of_nat (length ss) ≤ 32768 → Forall (StronglySorted (le compare)) ss →
  ∃ t out, newTreeOfLosers (Z.of_nat (length ss)) = Ok t ∧ drainTree compare ss t = Ok out ∧
    StronglySorted (le compare) out.*1 ∧ out.*1 ≡ₚ mjoin ss.
Proof.
  intros Hc Hl Hs. destruct (new_plain compare ss Hl) as (t & Ht & Hr). exists t.
  destruct (drained_sorted compare _ _ _ _ t ss Hr Hs) as (out & ? & _ & ? & ?). by exists out.
Qed.

#[global] Instance sub_order : CompareOrder Z.sub.
Proof. split; lia. Qed.

Lemma tree_merge_witness :
  ∃ t out, newTreeOfLosers 3 = Ok t ∧ drainTree Z.sub [[2; 5]; [1; 5; 9]; []] t = Ok out ∧
    StronglySorted (le Z.sub) out.*1 ∧ out.*1 ≡ₚ [2; 5; 1; 5; 9].
Proof.
  apply (tree_merge Z.sub [[2; 5]; [1; 5; 9]; []]); [apply _ | simpl; lia|].
  repeat constructor; unfold le; lia.
Defined.

(** C10: When the values of each stream are unique, the flag [nextWithEquals]
    returns with a stream is true exactly when the next value of the merge is
    equal to the one returned. *)
Theorem tree_flags {V} (compare : V → V → Z) (ss : list (list V)) :
  CompareOrder compare → 1 ≤ Z.of_nat (length ss) ≤ 32768 → Forall (StronglySorted (lt compare)) ss →
  ∃ t out, newTreeOfLosers (Z.of_nat (length ss)) = Ok t ∧ drainFlags compare ss t = Ok out ∧
    StronglySorted (le compare) out.*1 ∧ out.*1 ≡ₚ mjoin ss ∧
    ∀ k v i (flag : bool), out !! k = Some (v, (i, flag)) → (flag = true ↔ ∃ u e, out !! S k = Some (u, e) ∧ compare v u = 0).
Proof.
  intros Hc Hl Hs. destruct (new_equals compare ss Hl) as (t & Ht & Hr). exists t.
  destruct (drained_sorted compare _ _ _ _ t ss Hr) as (out & ? & Hm & ? & ?).
  { eapply Forall_impl; [exact Hs | intros s; apply lt_le_sorted]. }
  exists out. split_and!; try done. intros k v i flag Hk.
  by apply (merged_flags compare fst (flagGood compare) snd ss out (λ _ _ H, H) Hm Hs k v (i, flag)).
Qed.

Lemma tree_flags_witness :
  ∃ t out, newTreeOfLosers 2 = Ok t ∧ drainFlags Z.sub [[2; 5]; [1; 5; 9]] t = Ok out ∧
    StronglySorted (le Z.sub) out.*1 ∧ out.*1 ≡ₚ [2; 5; 1; 5; 9] ∧
    ∀ k v i (flag : bool), out !! k = Some (v, (i, flag)) → (flag = true ↔ ∃ u e, out !! S k = Some (u, e) ∧ v - u = 0).
Proof.
  apply (tree_flags Z.sub [[2; 5]; [1; 5; 9]]); [apply _ | simpl; lia|].
  repeat constructor; unfold lt; lia.
Defined.

(** C28: The tree of losers and the array of streams merge the same 1 to 32768
    sorted streams to the same values, when values that compare equal are
    equal.  The limit is that of the tree: its constructor takes up to 65534
    streams, but with more than 32768 it never returns a value, whereas the
    array does. *)
Theorem array_like_tree {V} (compare : V → V → Z) sort (ss : list (list V)) :
  CompareOrder compare → SortsBy sort → (∀ a b, compare a b = 0 → a = b) →
  1 ≤ Z.of_nat (length ss) ≤ 32768 → Forall (StronglySorted (le compare)) ss →
  ∃ t out out', newTreeOfLosers (Z.of_nat (length ss)) = Ok t ∧ drainTree compare ss t = Ok out ∧
    drainArray compare ss (newMergeArray compare sort ss) = Ok out' ∧ out'.*1 = out.*1.
Proof.
  intros Hc Hsort Heq Hl Hs. destruct (new_plain compare ss Hl) as (t & Ht & Hr).
  destruct (drained_sorted compare _ _ _ _ t ss Hr Hs) as (out & Ho & _ & Hso & Hp).
  destruct (drained_sorted compare _ _ _ _ _ ss (new_array_ready compare sort ss) Hs) as (out' & Ho' & _ & Hso' & Hp').
  exists t, out, out'. split_and!; try done.
  assert (AntiSymm (=) (le compare)) by (intros a b H1 H2; apply Heq; unfold le in *; apply compare_swap in H2; [lia | done]).
  apply (StronglySorted_unique (le compare)); [done..|]. by rewrite Hp', Hp.
Qed.

(** Insertion sort has the contract. *)
Fixpoint insertBy (less : Z → Z → bool) (x : Z) (l : list Z) : list Z :=
  match l with
  | y :: l' => if less y x then y :: insertBy less x l' else x :: l
  | [] => [x]
  end.

Definition insertionSort (less : Z → Z → bool) (l : list Z) : list Z := foldr (insertBy less) [] l.

Lemma insertBy_perm less x l : insertBy less x l ≡ₚ x :: l.
Proof. induction l as [|y l IH]; simpl; [done|]. destruct (less y x); [rewrite IH; apply perm_swap | done]. Qed.

Lemma insertionSort_perm less l : insertionSort less l ≡ₚ l.
Proof. induction l as [|x l IH]; simpl; [done|]. by rewrite insertBy_perm, IH. Qed.

Lemma insertBy_sorted less x l l' :
  weakOrderOn less l' → x ∈ l' → Forall (.∈ l') l →
  StronglySorted (λ a b, less b a = false) l → StronglySorted (λ a b, less b a = false) (insertBy less x l).
Proof.
  intros (Hirr & Htr & Hneg) Hx. induction l as [|y l IH]; intros Hf Hs; simpl; [by repeat constructor|].
  inversion Hf as [|? ? Hy Hf']; inversion Hs as [|? ? Hs' Hall]; subst. rewrite Forall_forall in Hf'. destruct (less y x) eqn:E.
  - constructor; [apply IH; [by apply Forall_forall | done]|]. rewrite insertBy_perm. constructor; [|done].
    destruct (less x y) eqn:E'; [|done]. pose proof (Htr y x y Hy Hx Hy E E'). by rewrite (Hirr y Hy) in *.
  - constructor; [done|]. constructor; [done|]. rewrite Forall_forall in *. intros z Hz. by apply (Hneg z y x); auto.
Qed.

#[global] Instance insertionSort_sorts : SortsBy insertionSort.
Proof.
  split; [apply insertionSort_perm|]. intros less l Hw.
  assert (∀ k, Forall (.∈ l) k → StronglySorted (λ x y, less y x = false) (insertionSort less k)) as H.
  { induction k as [|x k IH]; intros Hf; simpl; [constructor|]. inversion Hf; subst.
    apply (insertBy_sorted less x _ l); auto. by rewrite insertionSort_perm. }
  apply H. by apply Forall_forall.
Qed.

Lemma array_like_tree_witness :
  ∃ t out out', newTreeOfLosers 3 = Ok t ∧ drainTree Z.sub [[2; 5]; [1; 5; 9]; []] t = Ok out ∧
    drainArray Z.sub [[2; 5]; [1; 5; 9]; []] (newMergeArray Z.sub insertionSort [[2; 5]; [1; 5; 9]; []]) = Ok out' ∧ out'.*1 = out.*1.
Proof.
  apply (array_like_tree Z.sub insertionSort [[2; 5]; [1; 5; 9]; []]); [apply _ | apply _ | intros; lia | simpl; lia|].
  repeat constructor; unfold le; lia.
Defined.

(** ** Limits *)

(** On the way down the left side of a tree of more than 32768 streams. *)
Lemma left_side {V} (compare : V → V → Z) C (ss : list (list V)) t fuel k :
  32768 < Z.of_nat (length ss) < kEmpty → firstStream_ t = Z.of_nat (length ss) - 1 → 0 ≤ k ≤ 15 →
  firstOf C fuel ss (2 ^ k - 1) t = Throw OutOfFuel.
Proof.
  intros Hl Hf. unfold kEmpty in Hl. revert k. induction fuel as [|fuel IH]; intros k Hk; simpl; rewrite Hf.
  all: assert (1 ≤ 2 ^ k ≤ 32768) as Hpow by (change 1 with (2 ^ 0); change 32768 with (2 ^ 15); split; apply Z.pow_le_mono_r; lia).
  all: rewrite (proj2 (Z.leb_gt _ _)) by lia.
  { done. }
  destruct (Z.eq_dec k 15) as [->|Hk15].
  - change (leftChild (2 ^ 15 - 1)) with 65535. change (rightChild (2 ^ 15 - 1)) with (2 ^ 0 - 1).
    assert (∃ d, firstOf C fuel ss 65535 t = Ok (t, d)) as [d ->].
    { destruct (lookup_lt_is_Some_2 ss (Z.to_nat (65535 - firstStream_ t))) as [s Es]; [lia|].
      destruct fuel; simpl; rewrite (proj2 (Z.leb_le _ _)) by lia; unfold hasData;
        rewrite (proj2 (index_Some ss (65535 - firstStream_ t) s ltac:(lia)) Es); simpl; eauto. }
    cbn [mbind outcome_bind]. by rewrite IH by lia.
  - assert (leftChild (2 ^ k - 1) = 2 ^ (k + 1) - 1) as ->.
    { assert (2 ^ k ≤ 16384) by (change 16384 with (2 ^ 14); apply Z.pow_le_mono_r; lia).
      unfold leftChild, uwrap. rewrite Z.mod_small by lia. rewrite Z.pow_add_r by lia. lia. }
    by rewrite IH by lia.
Qed.

(** The constructor accepts up to 65534 streams, but with more than 32768 the
    numbers of the children wrap around and the first call never returns. *)
Theorem many_streams_never_return {V} (compare : V → V → Z) (ss : list (list V)) :
  32768 < Z.of_nat (length ss) < kEmpty →
  ∃ t, newTreeOfLosers (Z.of_nat (length ss)) = Ok t ∧ ∀ fuel, first compare fuel ss 0 t = Throw OutOfFuel.
Proof.
  intros Hl. rewrite newTreeOfLosers_spec by lia. eexists. split; [done|]. intros fuel.
  by apply (left_side compare (plainContest compare) ss _ fuel 0).
Qed.

(** After the call that returns no stream the tree returns none again; the
    array reads the front of an empty vector. *)
Theorem array_after_end :
  (∃ t, newTreeOfLosers 1 = Ok t ∧ next Z.sub [[]] t = Ok (t, None)) ∧
  ∃ a, ma_next Z.sub [[]] (newMergeArray Z.sub insertionSort [[]]) = Ok (a, None) ∧ ma_next Z.sub [[]] a = Undefined.
Proof. split; eexists; by split. Qed.
