(* ===== verification/MmapArena.v ===== *)
(** * Arenas of mapped memory

    Models [velox/common/memory/MmapArena]: [MmapArena], which hands out blocks
    of one mapped region and keeps the free ones by address and by size, and
    [ManagedMmapArenas], which maps further regions when one is not enough.
    Addresses are numbers.  The address [mmap] returns is an argument, [None]
    when it fails. *)
From S2P Require Import Prelude Bits.
Local Open Scope Z_scope.

(** ** Ordered maps: iterators as keys *)
Definition keys {A} (m : gmap Z A) : list Z := (map_to_list m).*1.

Definition leastOf (ks : list Z) : option Z :=
  foldr (λ k best, Some (match best with Some b => Z.min k b | None => k end)) None ks.

Definition greatestOf (ks : list Z) : option Z :=
  foldr (λ k best, Some (match best with Some b => Z.max k b | None => k end)) None ks.

(** [lower_bound]; [None] is [end()]. *)
Definition lower_bound {A} (m : gmap Z A) (k : Z) : option Z := leastOf (filter (λ q, k ≤ q) (keys m)).

(** [std::prev] and [std::next] of the iterator at the key [k]. *)
Definition prevKey {A} (m : gmap Z A) (k : Z) : option Z := greatestOf (filter (λ q, q < k) (keys m)).
Definition nextKey {A} (m : gmap Z A) (k : Z) : option Z := leastOf (filter (λ q, k < q) (keys m)).

(** The keys in their order. *)
Definition orderedKeys {A} (m : gmap Z A) : list Z := merge_sort Z.le (keys m).

(** ** [MmapArena] *)
Definition kMinGrainSizeBytes : Z := 1048576.

Record MmapArena := mkArena {
  byteSize_ : Z;
  address_ : Z;
  freeBytes_ : Z;
  freeList_ : gmap Z Z;
  freeLookup_ : gmap Z (gset Z) }.
#[global] Instance Arena_copy : Copyable MmapArena :=
  λ a, mkArena (byteSize_ a) (address_ a) (freeBytes_ a) (freeList_ a) (freeLookup_ a).

Definition roundBytes (bytes : Z) : Z := nextPowerOfTwo bytes.

(** [freeLookup_[bytes].emplace(addr)]. *)
Definition addToLookup (addr bytes : Z) (a : MmapArena) : MmapArena :=
  a <| freeLookup_ := <[bytes := {[addr]} ∪ default ∅ (freeLookup_ a !! bytes)]> (freeLookup_ a) |>.

Definition removeFromLookup (addr bytes : Z) (a : MmapArena) : MmapArena :=
  let rest := default ∅ (freeLookup_ a !! bytes) ∖ {[addr]} in
  a <| freeLookup_ := if bool_decide (rest = ∅) then delete bytes (freeLookup_ a)
                      else <[bytes := rest]> (freeLookup_ a) |>.

Definition addFreeBlock (address bytes : Z) (a : MmapArena) : outcome MmapArena :=
  _ ← velox_check (bool_decide (freeList_ a !! address = None));
  Ok (addToLookup address bytes (a <| freeList_ := <[address := bytes]> (freeList_ a) |>)).

Definition removeFreeBlock (addr bytes : Z) (a : MmapArena) : MmapArena :=
  removeFromLookup addr bytes (a <| freeList_ := delete addr (freeList_ a) |>).

Definition newMmapArena (mmap : option Z) (capacityBytes : Z) : outcome MmapArena :=
  _ ← velox_check (capacityBytes mod kMinGrainSizeBytes =? 0);
  match mmap with
  | None => Throw VeloxFail
  | Some ptr =>
      if ptr =? 0 then Throw VeloxFail else
      a ← addFreeBlock ptr capacityBytes (mkArena capacityBytes ptr 0 ∅ ∅);
      Ok (a <| freeBytes_ := capacityBytes |>)
  end.

Section Begin.
(** [*begin()] of a set that is not ordered, any of its elements. *)
Variable begin : gset Z → Z.

(** The block that is handed out; [None] is a null pointer. *)
Definition allocate (bytes : Z) (a : MmapArena) : outcome (MmapArena * option Z) :=
  if bytes =? 0 then Ok (a, None) else
  let bytes := roundBytes bytes in
  match lower_bound (freeLookup_ a) bytes with
  | None => Ok (a, None)
  | Some curFreeBytes =>
      let addresses := default ∅ (freeLookup_ a !! curFreeBytes) in
      let a := a <| freeBytes_ := uwrap 64 (freeBytes_ a - bytes) |> in
      if bool_decide (addresses = ∅) then Undefined else
      let address := begin addresses in
      if curFreeBytes =? bytes then Ok (removeFreeBlock address curFreeBytes a, Some address)
      else
        a ← addFreeBlock (uwrap 64 (address + bytes)) (curFreeBytes - bytes) a;
        Ok (removeFreeBlock address curFreeBytes a, Some address)
  end.

(** The neighbour of the freed block, and whether it is merged with it. *)
Definition prevBlock (curAddr : Z) (a : MmapArena) : outcome (option (Z * Z * bool)) :=
  match prevKey (freeList_ a) curAddr with
  | None => Ok None
  | Some prevAddr =>
      let prevBytes := default 0 (freeList_ a !! prevAddr) in
      let prevEndAddr := uwrap 64 (prevAddr + prevBytes) in
      _ ← velox_check (prevEndAddr <=? curAddr);
      Ok (Some (prevAddr, prevBytes, prevEndAddr =? curAddr))
  end.

Definition nextBlock (curAddr bytes : Z) (a : MmapArena) : outcome (option (Z * Z * bool)) :=
  match nextKey (freeList_ a) curAddr with
  | None => Ok None
  | Some nextAddr =>
      let nextBytes := default 0 (freeList_ a !! nextAddr) in
      let curEndAddr := uwrap 64 (curAddr + bytes) in
      _ ← velox_check (curEndAddr <=? nextAddr);
      Ok (Some (nextAddr, nextBytes, curEndAddr =? nextAddr))
  end.

(** [freeList_[addr] = newFreeSize; freeLookup_[newFreeSize].emplace(addr);]. *)
Definition setFreeBlock (addr newFreeSize : Z) (a : MmapArena) : MmapArena :=
  addToLookup addr newFreeSize (a <| freeList_ := <[addr := newFreeSize]> (freeList_ a) |>).

Definition free (address bytes : Z) (a : MmapArena) : outcome MmapArena :=
  if (address =? 0) || (bytes =? 0) then Ok a else
  let bytes := roundBytes bytes in
  let a := a <| freeBytes_ := uwrap 64 (freeBytes_ a + bytes) |> in
  a ← addFreeBlock address bytes a;
  prev ← prevBlock address a;
  next ← nextBlock address bytes a;
  match prev, next with
  | Some (prevAddr, prevBytes, true), Some (nextAddr, nextBytes, true) =>
      let a := removeFreeBlock address bytes a in
      let a := removeFromLookup prevAddr prevBytes a in
      let a := removeFreeBlock nextAddr nextBytes a in
      Ok (setFreeBlock prevAddr (uwrap 64 (nextAddr - prevAddr + nextBytes)) a)
  | Some (prevAddr, prevBytes, true), _ =>
      let a := removeFreeBlock address bytes a in
      let a := removeFromLookup prevAddr prevBytes a in
      Ok (setFreeBlock prevAddr (uwrap 64 (address - prevAddr + bytes)) a)
  | _, Some (nextAddr, nextBytes, true) =>
      let a := removeFreeBlock nextAddr nextBytes a in
      let a := removeFromLookup address bytes a in
      Ok (setFreeBlock address (uwrap 64 (nextAddr - address + nextBytes)) a)
  | _, _ => Ok a
  end.

Definition empty (a : MmapArena) : bool := freeBytes_ a =? byteSize_ a.

(** *** The check of the tests *)

(** The errors of the block at [key]. *)
Definition blockErrors (a : MmapArena) (key : Z) : Z :=
  let bytes := default 0 (freeList_ a !! key) in
  let blockEndAddress := uwrap 64 (key + bytes) in
  Z.b2z (negb (bool_decide (key ∈ default ∅ (freeLookup_ a !! bytes)))) +
  Z.b2z (uwrap 64 (address_ a + byteSize_ a) <? blockEndAddress) +
  Z.b2z (match nextKey (freeList_ a) key with Some next => next <? blockEndAddress | None => false end).

Definition freeListTotalBytes (a : MmapArena) : Z :=
  foldl (λ total key, swrap 64 (total + default 0 (freeList_ a !! key))) 0 (orderedKeys (freeList_ a)).

Definition freeLookupTotalBytes (a : MmapArena) : Z :=
  foldl (λ total key, swrap 64 (total + key * Z.of_nat (size (default ∅ (freeLookup_ a !! key))))) 0 (orderedKeys (freeLookup_ a)).

Definition checkConsistency (a : MmapArena) : bool :=
  let numErrors :=
    foldl (λ errors key, errors + blockErrors a key) 0 (orderedKeys (freeList_ a)) +
    foldl (λ errors key, errors + Z.b2z (bool_decide (default ∅ (freeLookup_ a !! key) = ∅))) 0 (orderedKeys (freeLookup_ a)) +
    Z.b2z (negb (freeListTotalBytes a =? freeLookupTotalBytes a) || negb (uwrap 64 (freeListTotalBytes a) =? freeBytes_ a)) in
  numErrors =? 0.

(** ** [ManagedMmapArenas]

    Arenas are shared objects; the address of its region tells one from
    another. *)
Record ManagedMmapArenas := mkManaged {
  singleArenaCapacity_ : Z;
  arenas_ : gmap Z MmapArena;
  currentArena_ : Z }.
#[global] Instance Managed_copy : Copyable ManagedMmapArenas :=
  λ m, mkManaged (singleArenaCapacity_ m) (arenas_ m) (currentArena_ m).

Definition newManagedMmapArenas (mmap : option Z) (singleArenaCapacity : Z) : outcome ManagedMmapArenas :=
  arena ← newMmapArena mmap singleArenaCapacity;
  Ok (mkManaged singleArenaCapacity {[address_ arena := arena]} (address_ arena)).

(** An arena allocates; it is changed where it is. *)
Definition allocateFrom (at_ bytes : Z) (m : ManagedMmapArenas) : outcome (ManagedMmapArenas * option Z) :=
  match arenas_ m !! at_ with
  | None => Undefined
  | Some arena =>
      '(arena, result) ← allocate bytes arena;
      Ok (m <| arenas_ := <[at_ := arena]> (arenas_ m) |>, result)
  end.

(** The system does not map a region that is mapped. *)
Definition managedAllocate (mmap : option Z) (bytes : Z) (m : ManagedMmapArenas) : outcome (ManagedMmapArenas * option Z) :=
  '(m, result) ← allocateFrom (currentArena_ m) bytes m;
  match result with
  | Some _ => Ok (m, result)
  | None =>
      newArena ← newMmapArena mmap (singleArenaCapacity_ m);
      let at_ := address_ newArena in
      if bool_decide (arenas_ m !! at_ = None) then
        allocateFrom at_ bytes (m <| arenas_ := <[at_ := newArena]> (arenas_ m) |> <| currentArena_ := at_ |>)
      else Undefined
  end.

Definition managedFree (address bytes : Z) (m : ManagedMmapArenas) : outcome ManagedMmapArenas :=
  _ ← velox_check (negb (bool_decide (arenas_ m = ∅)));
  at_ ← (if bool_decide (lower_bound (arenas_ m) address = Some address) then Ok address
         else match prevKey (arenas_ m) address with
              | None => Throw VeloxCheckFailed
              | Some at_ =>
                  _ ← velox_check (uwrap 64 (address + bytes) <=? uwrap 64 (at_ + singleArenaCapacity_ m));
                  Ok at_
              end);
  match arenas_ m !! at_ with
  | None => Undefined
  | Some arena =>
      arena ← free address bytes arena;
      if empty arena && negb (at_ =? currentArena_ m) then Ok (m <| arenas_ := delete at_ (arenas_ m) |>)
      else Ok (m <| arenas_ := <[at_ := arena]> (arenas_ m) |>)
  end.

End Begin.
