(* ===== verification/MmapArenaState.v ===== *)
(** * Arenas of mapped memory: tiles and maps

    An arena is a row of tiles, free and used ones, that cover its region
    without a gap.  The maps of the code are read off the tiles. *)
From S2P Require Import Prelude Bits MmapArena.
Local Open Scope Z_scope.

(** ** Iterators *)
Lemma leastOf_spec ks :
  match leastOf ks with None => ks = [] | Some k => k ∈ ks ∧ ∀ q, q ∈ ks → k ≤ q end.
Proof.
  induction ks as [|k ks IH]; simpl; [done|]. destruct (leastOf ks) as [b|].
  - destruct IH as [Hb Hmin]. split.
    + destruct (Z.min_spec k b) as [[_ ->]|[_ ->]]; [by left | by right].
    + intros q [->|Hq]%elem_of_cons; [lia|]. specialize (Hmin q Hq). lia.
  - subst. split; [by left|]. intros q [->|Hq]%elem_of_cons; [lia | by apply elem_of_nil in Hq].
Qed.

Lemma greatestOf_spec ks :
  match greatestOf ks with None => ks = [] | Some k => k ∈ ks ∧ ∀ q, q ∈ ks → q ≤ k end.
Proof.
  induction ks as [|k ks IH]; simpl; [done|]. destruct (greatestOf ks) as [b|].
  - destruct IH as [Hb Hmax]. split.
    + destruct (Z.max_spec k b) as [[_ ->]|[_ ->]]; [by right | by left].
    + intros q [->|Hq]%elem_of_cons; [lia|]. specialize (Hmax q Hq). lia.
  - subst. split; [by left|]. intros q [->|Hq]%elem_of_cons; [lia | by apply elem_of_nil in Hq].
Qed.

Section Keys.
Context {A : Type}.
Implicit Types (m : gmap Z A) (k q : Z).

Lemma elem_of_keys m k : k ∈ keys m ↔ is_Some (m !! k).
Proof.
  unfold keys. rewrite list_elem_of_fmap. split.
  - intros ([k' x] & -> & H%elem_of_map_to_list). by exists x.
  - intros [x H]. exists (k, x). by rewrite elem_of_map_to_list.
Qed.

Lemma first_block_spec m k :
  match lower_bound m k with
  | None => ∀ q, is_Some (m !! q) → q < k
  | Some p => is_Some (m !! p) ∧ k ≤ p ∧ ∀ q, is_Some (m !! q) → k ≤ q → p ≤ q
  end.
Proof.
  unfold lower_bound. pose proof (leastOf_spec (filter (λ q, k ≤ q) (keys m))) as H. destruct (leastOf _) as [p|].
  - destruct H as [[? Hp%elem_of_keys]%list_elem_of_filter Hmin]. split_and!; [done..|]. intros q Hq Hk. apply Hmin.
    apply list_elem_of_filter. by rewrite elem_of_keys.
  - intros q Hq%elem_of_keys. destruct (Z.lt_ge_cases q k); [done|]. exfalso. apply (not_elem_of_nil q). rewrite <- H.
    by apply list_elem_of_filter.
Qed.

Lemma prevKey_spec m k :
  match prevKey m k with
  | None => ∀ q, is_Some (m !! q) → k ≤ q
  | Some p => is_Some (m !! p) ∧ p < k ∧ ∀ q, is_Some (m !! q) → q < k → q ≤ p
  end.
Proof.
  unfold prevKey. pose proof (greatestOf_spec (filter (λ q, q < k) (keys m))) as H. destruct (greatestOf _) as [p|].
  - destruct H as [[? Hp%elem_of_keys]%list_elem_of_filter Hmax]. split_and!; [done..|]. intros q Hq Hk. apply Hmax.
    apply list_elem_of_filter. by rewrite elem_of_keys.
  - intros q Hq%elem_of_keys. destruct (Z.le_gt_cases k q); [done|]. exfalso. apply (not_elem_of_nil q). rewrite <- H.
    by apply list_elem_of_filter.
Qed.

Lemma nextKey_spec m k :
  match nextKey m k with
  | None => ∀ q, is_Some (m !! q) → q ≤ k
  | Some p => is_Some (m !! p) ∧ k < p ∧ ∀ q, is_Some (m !! q) → k < q → p ≤ q
  end.
Proof.
  unfold nextKey. pose proof (leastOf_spec (filter (λ q, k < q) (keys m))) as H. destruct (leastOf _) as [p|].
  - destruct H as [[? Hp%elem_of_keys]%list_elem_of_filter Hmin]. split_and!; [done..|]. intros q Hq Hk. apply Hmin.
    apply list_elem_of_filter. by rewrite elem_of_keys.
  - intros q Hq%elem_of_keys. destruct (Z.le_gt_cases q k); [done|]. exfalso. apply (not_elem_of_nil q). rewrite <- H.
    by apply list_elem_of_filter.
Qed.
End Keys.

(** ** Tiles: a size, and whether the tile is free *)
Abbreviation tile := (Z * bool)%type.

Definition width (l : list tile) : Z := foldr (λ t n, t.1 + n) 0 l.
Definition freeTotal (l : list tile) : Z := foldr (λ t n, (if t.2 : bool then t.1 else 0) + n) 0 l.
Definition positive (l : list tile) : Prop := Forall (λ t, 0 < t.1) l.

(** The tiles that are free, or those that are not, by their address. *)
Fixpoint blocksOf (f : bool) (a : Z) (l : list tile) : gmap Z Z :=
  match l with
  | [] => ∅
  | (s, g) :: l => (if eqb f g then <[a := s]> else id) (blocksOf f (a + s) l)
  end.

(** No two free tiles are next to each other. *)
Fixpoint apart (l : list tile) : Prop :=
  match l with
  | [] => True
  | t :: l => (match head l with Some t' => ¬ (t.2 = true ∧ t'.2 = true) | None => True end) ∧ apart l
  end.

Lemma width_app l1 l2 : width (l1 ++ l2) = width l1 + width l2.
Proof. induction l1 as [|t l1 IH]; simpl; lia. Qed.

Lemma freeTotal_app l1 l2 : freeTotal (l1 ++ l2) = freeTotal l1 + freeTotal l2.
Proof. induction l1 as [|t l1 IH]; simpl; lia. Qed.

Lemma width_nonneg l : positive l → 0 ≤ width l.
Proof. induction 1; simpl; lia. Qed.

Lemma freeTotal_range l : positive l → 0 ≤ freeTotal l ≤ width l.
Proof. induction 1 as [|[s []] l Hs _ IH]; simpl in *; lia. Qed.

Lemma positive_mid l1 t l2 : positive (l1 ++ t :: l2) ↔ positive l1 ∧ 0 < t.1 ∧ positive l2.
Proof. unfold positive. rewrite Forall_app, Forall_cons. done. Qed.

Lemma apart_app l1 l2 :
  apart (l1 ++ l2) ↔ apart l1 ∧ apart l2 ∧ ∀ t t', last l1 = Some t → head l2 = Some t' → ¬ (t.2 = true ∧ t'.2 = true).
Proof.
  induction l1 as [|t l1 IH]; simpl; [naive_solver|]. destruct l1 as [|t' l1].
  - simpl in *. destruct l2 as [|t2 l2]; simpl; naive_solver.
  - rewrite IH. simpl head. rewrite last_cons_cons. naive_solver.
Qed.

(** A block lies within the tiles. *)
Lemma blocksOf_range f a l k s : positive l → blocksOf f a l !! k = Some s → a ≤ k ∧ k + s ≤ a + width l ∧ 0 < s.
Proof.
  intros Hp. revert a. induction Hp as [|[s' g] l Hs Hp IH]; intros a; simpl in *; [done|].
  pose proof (width_nonneg l Hp). destruct (eqb f g).
  - rewrite lookup_insert_Some. intros [[-> ->]|[_ H']]; [lia|]. apply IH in H'. lia.
  - intros H'%IH. lia.
Qed.

Lemma blocksOf_left f a l1 t l2 k : positive (l1 ++ t :: l2) → k < a + width l1 → blocksOf f a (l1 ++ t :: l2) !! k = blocksOf f a l1 !! k.
Proof.
  revert a. induction l1 as [|[s g] l1 IH]; intros a Hp Hk; simpl in *.
  - apply eq_None_not_Some. intros [s H]. apply (blocksOf_range f a (t :: l2)) in H; [lia | done].
  - inversion Hp; subst. assert (blocksOf f (a + s) (l1 ++ t :: l2) !! k = blocksOf f (a + s) l1 !! k) as E by (apply IH; [done | lia]).
    destruct (eqb f g); [|done]. by rewrite !lookup_insert, E.
Qed.

Lemma blocksOf_right f a l1 s g l2 k :
  positive (l1 ++ (s, g) :: l2) → a + width l1 < k → blocksOf f a (l1 ++ (s, g) :: l2) !! k = blocksOf f (a + width l1 + s) l2 !! k.
Proof.
  revert a. induction l1 as [|[s' g'] l1 IH]; intros a Hp Hk; simpl in *.
  - replace (a + 0 + s) with (a + s) by lia. destruct (eqb f g); [|done]. rewrite lookup_insert_ne by lia. done.
  - inversion Hp as [|? ? Hs' Hp']; subst. simpl in *. pose proof (proj1 (positive_mid _ _ _) Hp') as [Hp1 _]. pose proof (width_nonneg l1 Hp1).
    replace (a + (s' + width l1) + s) with (a + s' + width l1 + s) by lia. rewrite <- IH by (done || lia).
    destruct (eqb f g'); [|done]. rewrite lookup_insert_ne by lia. done.
Qed.

Lemma blocksOf_here f a l1 s g l2 :
  positive (l1 ++ (s, g) :: l2) → blocksOf f a (l1 ++ (s, g) :: l2) !! (a + width l1) = if eqb f g then Some s else None.
Proof.
  revert a. induction l1 as [|[s' g'] l1 IH]; intros a Hp; simpl in *.
  - rewrite Z.add_0_r. destruct (eqb f g); [by rewrite lookup_insert_eq|].
    apply eq_None_not_Some. intros [s' H]. inversion Hp; subst. apply blocksOf_range in H; [simpl in *; lia | done].
  - inversion Hp as [|? ? Hs' Hp']; subst. simpl in *. pose proof (proj1 (positive_mid _ _ _) Hp') as [Hp1 _]. pose proof (width_nonneg l1 Hp1).
    replace (a + (s' + width l1)) with (a + s' + width l1) by lia. rewrite <- (IH (a + s')) by done.
    destruct (eqb f g'); [|done]. rewrite lookup_insert_ne by lia. done.
Qed.

(** A block is one of the tiles. *)
Lemma blocksOf_tile f a l k s :
  positive l → blocksOf f a l !! k = Some s → ∃ l1 l2, l = l1 ++ (s, f) :: l2 ∧ k = a + width l1.
Proof.
  intros Hp. revert a. induction Hp as [|[s' g] l Hs Hp IH]; intros a; simpl; [done|]. destruct (eqb f g) eqn:E.
  - rewrite lookup_insert_Some. intros [[-> ->]|[_ H']].
    + apply eqb_prop in E as ->. exists [], l. split; [done|]. simpl. lia.
    + apply IH in H' as (l1 & l2 & -> & ->). exists ((s', g) :: l1), l2. split; [done|]. simpl. lia.
  - intros (l1 & l2 & -> & ->)%IH. exists ((s', g) :: l1), l2. split; [done|]. simpl. lia.
Qed.
