(* ===== verification/MmapArenaCorrect.v ===== *)
(** * Arenas of mapped memory: every operation keeps the tiles *)
From S2P Require Import Prelude Bits MmapArena MmapArenaState.
Local Open Scope Z_scope.

Lemma mid_lookup f a l1 s g l2 k : positive (l1 ++ (s, g) :: l2) →
  blocksOf f a (l1 ++ (s, g) :: l2) !! k =
    if decide (k < a + width l1) then blocksOf f a l1 !! k
    else if decide (k = a + width l1) then (if eqb f g then Some s else None)
    else blocksOf f (a + width l1 + s) l2 !! k.
Proof.
  intros Hp. destruct (decide (k < a + width l1)); [by apply blocksOf_left|].
  destruct (decide (k = a + width l1)) as [->|]; [by apply blocksOf_here | apply blocksOf_right; [done | lia]].
Qed.

(** ** The index by size *)
Definition lookupOf (lk : gmap Z (gset Z)) (fl : gmap Z Z) : Prop :=
  (∀ bytes p, p ∈ default ∅ (lk !! bytes) ↔ fl !! p = Some bytes) ∧ ∀ bytes, lk !! bytes ≠ Some ∅.

Lemma default_insert (lk : gmap Z (gset Z)) k X q :
  default ∅ (<[k := X]> lk !! q) = if decide (q = k) then X else default ∅ (lk !! q).
Proof. destruct (decide (q = k)) as [->|]; [by rewrite lookup_insert_eq | by rewrite lookup_insert_ne]. Qed.

Lemma addToLookup_of a fl p bytes :
  lookupOf (freeLookup_ a) fl → fl !! p = None → lookupOf (freeLookup_ (addToLookup p bytes a)) (<[p := bytes]> fl).
Proof.
  intros [Hin Hne] Hp. split; simpl.
  - intros q r. rewrite default_insert. rewrite lookup_insert_Some. destruct (decide (q = bytes)) as [->|Hq].
    + rewrite elem_of_union, elem_of_singleton, Hin. destruct (decide (r = p)) as [->|]; naive_solver.
    + rewrite Hin. split; [|naive_solver]. intros H. right. split; [|done]. congruence.
  - intros q. destruct (decide (q = bytes)) as [->|Hq]; [rewrite lookup_insert_eq | by rewrite lookup_insert_ne].
    intros [=E]. set_solver.
Qed.

Lemma removeFromLookup_of a fl p bytes :
  lookupOf (freeLookup_ a) fl → fl !! p = Some bytes → lookupOf (freeLookup_ (removeFromLookup p bytes a)) (delete p fl).
Proof.
  intros [Hin Hne] Hp. set (rest := default ∅ (freeLookup_ a !! bytes) ∖ {[p]}).
  assert (∀ q, default ∅ (freeLookup_ (removeFromLookup p bytes a) !! q) = if decide (q = bytes) then rest else default ∅ (freeLookup_ a !! q)) as Hd.
  { intros q. unfold removeFromLookup. simpl. fold rest. destruct (bool_decide_reflect (rest = ∅)) as [E|E]; [|apply default_insert].
    destruct (decide (q = bytes)) as [->|]; [by rewrite lookup_delete_eq, E | by rewrite lookup_delete_ne]. }
  split.
  - intros q r. rewrite Hd, lookup_delete_Some. destruct (decide (q = bytes)) as [->|Hq]; [|rewrite Hin; naive_solver].
    unfold rest. rewrite elem_of_difference, Hin. set_solver.
  - intros q. unfold removeFromLookup. simpl. fold rest. destruct (bool_decide_reflect (rest = ∅)) as [E|E].
    + destruct (decide (q = bytes)) as [->|]; [by rewrite lookup_delete_eq | by rewrite lookup_delete_ne].
    + destruct (decide (q = bytes)) as [->|]; [rewrite lookup_insert_eq; congruence | by rewrite lookup_insert_ne].
Qed.

(** ** The invariant of an arena *)

(** The tiles lie in the region and the maps are theirs. *)
Record laid (a : MmapArena) (l : list tile) : Prop := {
  laid_positive : positive l;
  laid_total : width l = byteSize_ a;
  laid_region : 0 < address_ a ∧ address_ a + byteSize_ a < 2 ^ 64;
  laid_list : freeList_ a = blocksOf true (address_ a) l;
  laid_lookup : lookupOf (freeLookup_ a) (freeList_ a);
  laid_bytes : freeBytes_ a = freeTotal l }.

Record tiled (a : MmapArena) (l : list tile) : Prop := {
  tiled_laid : laid a l;
  tiled_apart : apart l }.

Abbreviation usedIn := (λ a l, blocksOf false (address_ a) l).

Lemma uwrap64 z : 0 ≤ z < 2 ^ 64 → uwrap 64 z = z.
Proof. apply Z.mod_small. Qed.

Lemma beyond_None f a l k : positive l → k < a → blocksOf f a l !! k = None.
Proof. intros Hp Hk. apply eq_None_not_Some. intros [s H]. apply blocksOf_range in H; [lia | done]. Qed.

Lemma roundBytes_range bytes : 1 ≤ bytes ≤ 2 ^ 63 → bytes ≤ roundBytes bytes ≤ 2 ^ 63.
Proof.
  intros Hb. destruct (nextPowerOfTwo_spec bytes Hb) as (k & Hk & E & Hr). unfold roundBytes. rewrite E.
  assert (2 ^ k ≤ 2 ^ 63) by (apply Z.pow_le_mono_r; lia). lia.
Qed.

(** A free tile becomes a used one and a rest. *)
Definition splitTile (b s : Z) : list tile := (b, false) :: if s =? b then [] else [(s - b, true)].
Arguments splitTile : simpl never.

Lemma split_maps A l1 b s l2 : positive (l1 ++ (s, true) :: l2) → 0 < b ≤ s →
  let l := l1 ++ (s, true) :: l2 in let l' := l1 ++ splitTile b s ++ l2 in let c := A + width l1 in
  blocksOf false A l' = <[c := b]> (blocksOf false A l) ∧
  blocksOf true A l' = delete c (if s =? b then blocksOf true A l else <[c + b := s - b]> (blocksOf true A l)).
Proof.
  intros Hp Hb l l' c. apply positive_mid in Hp as Hp'. destruct Hp' as (Hp1 & _ & Hp2). unfold l, l', splitTile, c.
  destruct (Z.eqb_spec s b) as [->|Hne]; simpl app.
  - assert (positive (l1 ++ (b, false) :: l2)) by (apply positive_mid; split_and!; [done | simpl; lia | done]).
    split; apply map_eq; intros k; rewrite ?lookup_insert, ?lookup_delete, !mid_lookup by done; simpl; repeat case_decide; try done; lia.
  - assert (positive (l1 ++ (b, false) :: (s - b, true) :: l2)).
    { apply positive_mid. split_and!; [done | simpl; lia|]. constructor; [simpl; lia | done]. }
    split; apply map_eq; intros k; rewrite ?lookup_insert, ?lookup_delete, ?lookup_insert, !mid_lookup by done; simpl;
      replace (A + width l1 + b + (s - b)) with (A + width l1 + s) by lia; repeat case_decide; try done; try lia.
    all: rewrite ?lookup_insert; repeat case_decide; try done; try lia.
Qed.

Lemma split_apart l1 b s l2 : apart (l1 ++ (s, true) :: l2) → apart (l1 ++ splitTile b s ++ l2).
Proof.
  unfold splitTile. rewrite !apart_app. intros (H1 & [Hh H2] & H12). simpl in *. split; [done|].
  destruct (s =? b); simpl; (split; [split_and! | intros t t' _ [= <-]; simpl; naive_solver]); try done; destruct (head l2); naive_solver.
Qed.

Lemma split_totals l1 b s l2 :
  width (l1 ++ splitTile b s ++ l2) = width (l1 ++ (s, true) :: l2) ∧
  freeTotal (l1 ++ splitTile b s ++ l2) = freeTotal (l1 ++ (s, true) :: l2) - b.
Proof.
  unfold splitTile. rewrite !width_app, !freeTotal_app. simpl. destruct (Z.eqb_spec s b); simpl; lia.
Qed.

Lemma split_positive l1 b s l2 : positive (l1 ++ (s, true) :: l2) → 0 < b ≤ s → positive (l1 ++ splitTile b s ++ l2).
Proof.
  intros (Hp1 & _ & Hp2)%positive_mid Hb. apply positive_mid. split_and!; [done | simpl; lia|].
  destruct (Z.eqb_spec s b); simpl; [done|]. constructor; [simpl; lia | done].
Qed.

Section Begin.
Variable begin : gset Z → Z.
Hypothesis begin_in : ∀ X, X ≠ ∅ → begin X ∈ X.

(** Allocation splits the smallest free tile that is large enough; it fails
    when there is none. *)
Lemma allocate_tiles a l bytes : tiled a l → 1 ≤ bytes ≤ 2 ^ 63 →
  let b := roundBytes bytes in
  (allocate begin bytes a = Ok (a, None) ∧ ∀ s, (s, true) ∈ l → s < b) ∨
  ∃ a' l1 s l2, let c := address_ a + width l1 in
    l = l1 ++ (s, true) :: l2 ∧ b ≤ s ∧ (∀ s', (s', true) ∈ l → b ≤ s' → s ≤ s') ∧
    allocate begin bytes a = Ok (a', Some c) ∧ tiled a' (l1 ++ splitTile b s ++ l2) ∧
    address_ a' = address_ a ∧ byteSize_ a' = byteSize_ a.
Proof.
  intros [[Hp Ht Hr Hl [Hin Hne] Hf] Ha] Hb b. pose proof (roundBytes_range _ Hb) as Hrb. fold b in Hrb.
  assert (∀ s, (s, true) ∈ l → is_Some (freeLookup_ a !! s)) as Hkey.
  { intros s (l1 & l2 & ->)%list_elem_of_split. pose proof (blocksOf_here true (address_ a) l1 s true l2 Hp) as E. simpl in E.
    rewrite <- Hl in E. apply Hin in E. destruct (freeLookup_ a !! s); [done | set_solver]. }
  unfold allocate. rewrite (proj2 (Z.eqb_neq bytes 0)) by lia. fold b.
  pose proof (first_block_spec (freeLookup_ a) b) as Hlb. destruct (lower_bound (freeLookup_ a) b) as [s|]; [|left; auto].
  right. destruct Hlb as ([X HX] & Hbs & Hmin). assert (X ≠ ∅) as HXne by (intros ->; by apply (Hne s)).
  rewrite HX. simpl default. rewrite bool_decide_eq_false_2 by done. set (c := begin X).
  assert (freeList_ a !! c = Some s) as Hc by (apply Hin; rewrite HX; by apply begin_in).
  rewrite Hl in Hc. apply blocksOf_tile in Hc as (l1 & l2 & -> & Ec); [|done].
  destruct (split_maps (address_ a) l1 b s l2 Hp ltac:(lia)) as [_ Hfree]. rewrite <- Ec, <- Hl in Hfree.
  destruct (split_totals l1 b s l2) as [Htot Hftot]. pose proof (freeTotal_range _ Hp).
  assert (c + s ≤ address_ a + byteSize_ a) as Hend.
  { rewrite <- Ht, Ec, width_app. simpl. apply positive_mid in Hp as (? & ? & Hp2). pose proof (width_nonneg l2 Hp2). lia. }
  assert (address_ a ≤ c) by (apply positive_mid in Hp as (Hp1 & _); pose proof (width_nonneg l1 Hp1); lia).
  assert (freeList_ a !! c = Some s) as Hcs by (rewrite Hl, Ec; by apply (blocksOf_here true)).
  assert (freeTotal (l1 ++ splitTile b s ++ l2) = uwrap 64 (freeBytes_ a - b)) as Hbytes.
  { rewrite Hftot, Hf. symmetry. apply uwrap64. assert (0 ≤ freeTotal (l1 ++ splitTile b s ++ l2)) by (apply freeTotal_range, split_positive; [done|lia]). lia. }
  assert (positive (l1 ++ splitTile b s ++ l2)) as Hp' by (apply split_positive; [done | lia]).
  pose proof (split_apart _ b _ _ Ha) as Ha'. rewrite Ht in Htot.
  assert (∀ l', positive l' → apart l' → width l' = byteSize_ a → freeTotal l' = uwrap 64 (freeBytes_ a - b) → ∀ fl lk,
    fl = blocksOf true (address_ a) l' → lookupOf lk fl → tiled (mkArena (byteSize_ a) (address_ a) (uwrap 64 (freeBytes_ a - b)) fl lk) l') as Htiled.
  { intros. split; [by split | done]. }
  specialize (Htiled _ Hp' Ha' Htot Hbytes). destruct (Z.eqb_spec s b) as [Hsb|Hsb].
  - eexists _, l1, s, l2. split; [done|]. split; [done|]. split; [by auto|]. rewrite <- Ec.
    split; [done|]. split; [|done]. apply Htiled; [done|]. by apply (removeFromLookup_of a).
  - rewrite (uwrap64 (c + b)) by lia.
    assert (freeList_ a !! (c + b) = None) as Hfresh.
    { rewrite Hl, Ec, blocksOf_right by (done || lia). apply beyond_None; [by apply positive_mid in Hp as (_ & _ & ?) | lia]. }
    unfold addFreeBlock. simpl freeList_. rewrite bool_decide_eq_true_2 by done. cbn [velox_check mbind outcome_bind].
    eexists _, l1, s, l2. split; [done|]. split; [done|]. split; [by auto|]. rewrite <- Ec.
    split; [done|]. split; [|done]. apply Htiled; [done|].
    apply (removeFromLookup_of (addToLookup (c + b) (s - b) a)); [by apply addToLookup_of | simpl; by rewrite lookup_insert_ne by lia].
Qed.
End Begin.

(** ** Freeing *)

(** Nothing starts between a tile and the next. *)
Lemma last_block f a l1 p g q s : positive (l1 ++ [(p, g)]) → blocksOf f a (l1 ++ [(p, g)]) !! q = Some s →
  (q = a + width l1 ∧ f = g ∧ s = p) ∨ (q + s ≤ a + width l1).
Proof.
  intros Hp. rewrite mid_lookup by done. repeat case_decide.
  - intros H'. right. apply positive_mid in Hp as [Hp _]. apply (blocksOf_range f a l1) in H'; [lia | done].
  - destruct (eqb f g) eqn:E; [|done]. intros [= <-]. left. by apply eqb_prop in E.
  - done.
Qed.

Definition notMerged (r : option (Z * Z * bool)) : Prop := match r with Some (_, _, b) => b = false | None => True end.

Section Neighbours.
Context (a : MmapArena) (A : Z) (l1 l2 : list tile) (b : Z).
Hypothesis positive_l : positive (l1 ++ (b, true) :: l2).
Hypothesis region : 0 < A ∧ A + width (l1 ++ (b, true) :: l2) < 2 ^ 64.
Hypothesis list_a : freeList_ a = blocksOf true A (l1 ++ (b, true) :: l2).
Abbreviation c := (A + width l1).

Lemma prevBlock_spec :
  (∃ l p, l1 = l ++ [(p, true)] ∧ prevBlock c a = Ok (Some (c - p, p, true))) ∨
  ((∀ t, last l1 = Some t → t.2 = false) ∧ ∃ r, prevBlock c a = Ok r ∧ notMerged r).
Proof.
  pose proof (proj1 (positive_mid _ _ _) positive_l) as (Hp1 & Hb & Hp2). pose proof (width_nonneg _ Hp1). pose proof (width_nonneg _ Hp2).
  destruct region as [HA Hend]. rewrite width_app in Hend. simpl in *.
  assert (∀ q s, freeList_ a !! q = Some s → q < c → blocksOf true A l1 !! q = Some s) as Hleft.
  { intros q s. rewrite list_a. intros E Hq. by rewrite blocksOf_left in E. }
  unfold prevBlock. pose proof (prevKey_spec (freeList_ a) c) as Hprev.
  destruct l1 as [|[p g] l _] using rev_ind.
  - right. split; [done|]. destruct (prevKey _ _) as [q|]; [|by exists None].
    destruct Hprev as ([s Hs] & Hq & _). by apply Hleft in Hs.
  - destruct (proj1 (positive_mid _ _ _) Hp1) as (Hpl & Hpp & _). pose proof (width_nonneg _ Hpl). rewrite width_app in *. simpl in *.
    destruct g.
    + left. exists l, p. split; [done|]. destruct (prevKey _ _) as [q|].
      2: { specialize (Hprev (A + width l)). rewrite list_a, <- app_assoc in Hprev. simpl in Hprev.
           rewrite (blocksOf_here true) in Hprev by (by rewrite <- app_assoc in positive_l). specialize (Hprev ltac:(by eexists)). lia. }
      destruct Hprev as ([s Hs] & Hq & Hmax). specialize (Hmax (A + width l)). rewrite list_a, <- app_assoc in Hmax. simpl in Hmax.
      rewrite (blocksOf_here true) in Hmax by (by rewrite <- app_assoc in positive_l). specialize (Hmax ltac:(by eexists) ltac:(lia)).
      pose proof (Hleft _ _ Hs Hq) as Hs'. pose proof (blocksOf_range _ _ _ _ _ Hp1 Hs'). apply last_block in Hs' as [(-> & _ & ->)|]; [|lia|done].
      rewrite Hs. simpl default. rewrite uwrap64 by lia.
      replace (A + width l + p) with (A + (width l + (p + 0))) by lia. rewrite Z.leb_refl, Z.eqb_refl. cbn. do 3 f_equal. f_equal. lia.
    + right. split; [intros t; rewrite last_snoc; by intros [= <-]|]. destruct (prevKey _ _) as [q|]; [|by exists None].
      destruct Hprev as ([s Hs] & Hq & Hmax). pose proof (Hleft _ _ Hs Hq) as Hs'. pose proof (blocksOf_range _ _ _ _ _ Hp1 Hs').
      apply last_block in Hs' as [(_ & ? & _)|Hlt]; [done| |done]. rewrite Hs. simpl default. rewrite uwrap64 by lia.
      rewrite (proj2 (Z.leb_le _ _)), (proj2 (Z.eqb_neq _ _)) by lia. by eexists.
Qed.

Lemma nextBlock_spec :
  (∃ p l, l2 = (p, true) :: l ∧ nextBlock c b a = Ok (Some (c + b, p, true))) ∨
  ((∀ t, head l2 = Some t → t.2 = false) ∧ ∃ r, nextBlock c b a = Ok r ∧ notMerged r).
Proof.
  pose proof (proj1 (positive_mid _ _ _) positive_l) as (Hp1 & Hb & Hp2). pose proof (width_nonneg _ Hp1). pose proof (width_nonneg _ Hp2).
  destruct region as [HA Hend]. rewrite width_app in Hend. simpl in *.
  assert (∀ q, c < q → freeList_ a !! q = blocksOf true (c + b) l2 !! q) as Hright.
  { intros q Hq. rewrite list_a. by apply blocksOf_right. }
  unfold nextBlock. pose proof (nextKey_spec (freeList_ a) c) as Hnext. rewrite uwrap64 by lia.
  destruct l2 as [|[p g] l].
  - right. split; [done|]. destruct (nextKey _ _) as [q|]; [|by exists None].
    destruct Hnext as ([s Hs] & Hq & _). by rewrite Hright in Hs.
  - inversion Hp2 as [|? ? Hp Hpl]; subst. simpl in *. destruct g.
    + left. exists p, l. split; [done|]. assert (freeList_ a !! (c + b) = Some p) as Hcb by (rewrite Hright by lia; by rewrite lookup_insert_eq).
      destruct (nextKey _ _) as [q|]; [|specialize (Hnext (c + b) ltac:(by eexists)); lia].
      destruct Hnext as ([s Hs] & Hq & Hmin). specialize (Hmin (c + b) ltac:(by eexists) ltac:(lia)).
      assert (q = c + b) as ->.
      { rewrite Hright in Hs by done. destruct (decide (q = c + b)) as [|Hne]; [done|]. rewrite lookup_insert_ne in Hs by done.
        apply blocksOf_range in Hs; [lia | done]. }
      rewrite Hcb. simpl default. by rewrite Z.leb_refl, Z.eqb_refl.
    + right. split; [by intros t [= <-]|]. destruct (nextKey _ _) as [q|]; [|by exists None].
      destruct Hnext as ([s Hs] & Hq & Hmin). rewrite Hright in Hs by done. apply blocksOf_range in Hs; [|done].
      rewrite (proj2 (Z.leb_le _ _)), (proj2 (Z.eqb_neq _ _)) by lia. by eexists.
Qed.
End Neighbours.

(** Two neighbours become one tile. *)
Lemma join_maps f A l1 p b l2 : positive (l1 ++ (p, true) :: (b, true) :: l2) →
  blocksOf f A (l1 ++ (p + b, true) :: l2) =
    if f then <[A + width l1 := p + b]> (delete (A + width l1 + p) (blocksOf f A (l1 ++ (p, true) :: (b, true) :: l2)))
    else blocksOf f A (l1 ++ (p, true) :: (b, true) :: l2).
Proof.
  intros Hp. apply positive_mid in Hp as Hp'. destruct Hp' as (Hp1 & Hpp & Hp2). inversion Hp2 as [|? ? Hb Hp2']; subst. simpl in *.
  assert (positive (l1 ++ (p + b, true) :: l2)) by (apply positive_mid; split_and!; [done | simpl; lia | done]).
  destruct f; apply map_eq; intros k; rewrite ?lookup_insert, ?lookup_delete, !mid_lookup by done; simpl;
    rewrite ?lookup_insert, ?Z.add_assoc; repeat case_decide; try done; try lia.
  subst. rewrite beyond_None; [done | done | lia].
Qed.

Lemma join_positive l1 p b l2 : positive (l1 ++ (p, true) :: (b, true) :: l2) → positive (l1 ++ (p + b, true) :: l2).
Proof.
  intros (Hp1 & Hpp & Hp2)%positive_mid. inversion Hp2; subst. apply positive_mid. split_and!; [done | simpl in *; lia | done].
Qed.

Lemma join_totals l1 p b l2 :
  width (l1 ++ (p + b, true) :: l2) = width (l1 ++ (p, true) :: (b, true) :: l2) ∧
  freeTotal (l1 ++ (p + b, true) :: l2) = freeTotal (l1 ++ (p, true) :: (b, true) :: l2).
Proof. rewrite !width_app, !freeTotal_app. simpl. lia. Qed.

Lemma merge_one a l1 p b l2 : laid a (l1 ++ (p, true) :: (b, true) :: l2) →
  let c1 := address_ a + width l1 in
  laid (setFreeBlock c1 (p + b) (removeFromLookup c1 p (removeFreeBlock (c1 + p) b a))) (l1 ++ (p + b, true) :: l2).
Proof.
  intros [Hp Ht Hr Hl Hk Hf] c1. pose proof (proj1 (positive_mid _ _ _) Hp) as (Hp1 & Hpp & _). simpl in Hpp.
  destruct (join_totals l1 p b l2) as [Et Ef].
  assert (freeList_ a !! c1 = Some p) as H1 by (rewrite Hl; by apply (blocksOf_here true)).
  assert (freeList_ a !! (c1 + p) = Some b) as H2 by (rewrite Hl, blocksOf_right by (done || lia); simpl; by rewrite lookup_insert_eq).
  assert (<[c1 := p + b]> (delete (c1 + p) (freeList_ a)) = blocksOf true (address_ a) (l1 ++ (p + b, true) :: l2)) as E
    by (rewrite Hl; symmetry; by apply (join_maps true)).
  split; simpl address_; simpl byteSize_; [by eapply join_positive | congruence | done | done | | simpl; congruence].
  change (freeList_ (setFreeBlock _ _ _)) with (<[c1 := p + b]> (delete (c1 + p) (freeList_ a))).
  rewrite <- (insert_delete_eq (delete (c1 + p) (freeList_ a))).
  apply (addToLookup_of (removeFromLookup c1 p (removeFreeBlock (c1 + p) b a))); [|by rewrite lookup_delete_eq].
  apply removeFromLookup_of; [by apply removeFromLookup_of|]. by rewrite lookup_delete_ne by lia.
Qed.

Lemma merge_both a l1 p b n l2 : laid a (l1 ++ (p, true) :: (b, true) :: (n, true) :: l2) →
  let c1 := address_ a + width l1 in
  laid (setFreeBlock c1 (p + b + n) (removeFreeBlock (c1 + p + b) n (removeFromLookup c1 p (removeFreeBlock (c1 + p) b a))))
    (l1 ++ (p + b + n, true) :: l2).
Proof.
  intros [Hp Ht Hr Hl Hk Hf] c1. pose proof (proj1 (positive_mid _ _ _) Hp) as (Hp1 & Hpp & Hp2). inversion Hp2 as [|? ? Hb _]; subst. simpl in *.
  destruct (join_totals l1 p b ((n, true) :: l2)) as [Et Ef]. destruct (join_totals l1 (p + b) n l2) as [Et' Ef'].
  pose proof (join_positive _ _ _ _ Hp) as Hpj.
  assert (freeList_ a !! c1 = Some p) as H1 by (rewrite Hl; by apply (blocksOf_here true)).
  assert (freeList_ a !! (c1 + p) = Some b) as H2 by (rewrite Hl, blocksOf_right by (done || lia); simpl; by rewrite lookup_insert_eq).
  assert (freeList_ a !! (c1 + p + b) = Some n) as H3.
  { rewrite Hl, blocksOf_right by (done || lia). simpl. rewrite lookup_insert_ne by lia. by rewrite lookup_insert_eq. }
  assert (<[c1 := p + b + n]> (delete (c1 + p + b) (delete (c1 + p) (freeList_ a))) = blocksOf true (address_ a) (l1 ++ (p + b + n, true) :: l2)) as E.
  { rewrite (join_maps true) by done. rewrite (join_maps true) by done. fold c1. rewrite <- Hl, Z.add_assoc.
    rewrite delete_insert_ne, insert_insert_eq by lia. done. }
  split; simpl address_; simpl byteSize_; [by eapply join_positive | congruence | done | done | | simpl; congruence].
  change (freeList_ (setFreeBlock _ _ _)) with (<[c1 := p + b + n]> (delete (c1 + p + b) (delete (c1 + p) (freeList_ a)))).
  rewrite <- (insert_delete_eq (delete (c1 + p + b) (delete (c1 + p) (freeList_ a)))).
  apply (addToLookup_of (removeFreeBlock (c1 + p + b) n (removeFromLookup c1 p (removeFreeBlock (c1 + p) b a)))); [|by rewrite lookup_delete_eq].
  rewrite delete_delete. apply (removeFromLookup_of (removeFromLookup c1 p (removeFreeBlock (c1 + p) b a))).
  - apply removeFromLookup_of; [by apply removeFromLookup_of|]. by rewrite lookup_delete_ne by lia.
  - by rewrite !lookup_delete_ne by lia.
Qed.

(** The freed tile, before it is merged. *)
Lemma free_laid a l1 b l2 : laid a (l1 ++ (b, false) :: l2) →
  let c := address_ a + width l1 in
  let a' := a <| freeBytes_ := uwrap 64 (freeBytes_ a + b) |> in
  ∃ a1, addFreeBlock c b a' = Ok a1 ∧ laid a1 (l1 ++ (b, true) :: l2) ∧ address_ a1 = address_ a ∧ byteSize_ a1 = byteSize_ a.
Proof.
  intros [Hp Ht Hr Hl Hk Hf] c a'. pose proof (proj1 (positive_mid _ _ _) Hp) as (Hp1 & Hb & Hp2). simpl in Hb.
  assert (positive (l1 ++ (b, true) :: l2)) as Hp' by by apply positive_mid.
  assert (freeList_ a !! c = None) as Hc by (rewrite Hl; by apply (blocksOf_here true)).
  unfold addFreeBlock. change (freeList_ a') with (freeList_ a). rewrite bool_decide_eq_true_2 by done. cbn [velox_check mbind outcome_bind].
  eexists. split; [done|]. split; [|done].
  assert (width (l1 ++ (b, true) :: l2) = byteSize_ a) as Ht' by (rewrite <- Ht, !width_app; done).
  split; simpl address_; simpl byteSize_; [done | done | done | | by apply (addToLookup_of a') |].
  - simpl. rewrite Hl. apply map_eq. intros k. rewrite lookup_insert, !mid_lookup by done. fold c. repeat case_decide; try done; lia.
  - simpl. pose proof (freeTotal_range _ Hp'). rewrite Hf, uwrap64; rewrite !freeTotal_app in *; simpl in *; lia.
Qed.

Lemma freed_used A l1 b l2 : positive (l1 ++ (b, false) :: l2) →
  blocksOf false A (l1 ++ (b, true) :: l2) = delete (A + width l1) (blocksOf false A (l1 ++ (b, false) :: l2)).
Proof.
  intros Hp. pose proof (proj1 (positive_mid _ _ _) Hp) as (Hp1 & Hb & Hp2).
  assert (positive (l1 ++ (b, true) :: l2)) as Hp' by by apply positive_mid.
  apply map_eq. intros k. rewrite lookup_delete, !mid_lookup by done. repeat case_decide; try done; lia.
Qed.

Lemma merge_apart l1 g s l2 :
  apart (l1 ++ g ++ l2) → (∀ t, last l1 = Some t → t.2 = false) → (∀ t, head l2 = Some t → t.2 = false) →
  apart (l1 ++ (s, true) :: l2).
Proof.
  rewrite !apart_app. intros (H1 & (_ & H2 & _) & _) Hl Hh. split; [done|]. split; simpl.
  - split; [|done]. destruct (head l2) as [t|]; [|done]. rewrite (Hh t eq_refl). naive_solver.
  - intros t t' Ht _. rewrite (Hl t Ht). naive_solver.
Qed.

(** What follows a free tile is not free. *)
Lemma apart_before l1 p l2 : apart (l1 ++ (p, true) :: l2) → ∀ t, last l1 = Some t → t.2 = false.
Proof. rewrite apart_app. intros (_ & _ & H) t Ht. specialize (H t _ Ht eq_refl). destruct (t.2); naive_solver. Qed.

Lemma apart_after l1 p l2 : apart (l1 ++ (p, true) :: l2) → ∀ t, head l2 = Some t → t.2 = false.
Proof. rewrite apart_app. intros (_ & [H _] & _) t Ht. rewrite Ht in H. simpl in H. destruct (t.2); naive_solver. Qed.

(** The merges, on a freed tile between its neighbours. *)
Section Merges.
Context (a : MmapArena) (l1 l2 : list tile) (b : Z).
Hypothesis laid_a : laid a (l1 ++ (b, true) :: l2).
Hypothesis apart_a : apart (l1 ++ (b, false) :: l2).
Abbreviation A := (address_ a).
Abbreviation c := (A + width l1).

Definition mergedTo (a' : MmapArena) : Prop :=
  ∃ l', tiled a' l' ∧ address_ a' = A ∧ byteSize_ a' = byteSize_ a ∧ blocksOf false A l' = blocksOf false A (l1 ++ (b, true) :: l2).

Lemma region_bound : 0 < A ∧ 0 ≤ width l1 ∧ 0 < b ∧ 0 ≤ width l2 ∧ c + b + width l2 < 2 ^ 64.
Proof.
  destruct laid_a as [Hp Ht Hr _ _ _]. apply positive_mid in Hp as (Hp1 & Hb & Hp2). rewrite width_app in Ht. simpl in *.
  pose proof (width_nonneg _ Hp1). pose proof (width_nonneg _ Hp2). lia.
Qed.

Lemma merge_none : (∀ t, last l1 = Some t → t.2 = false) → (∀ t, head l2 = Some t → t.2 = false) → mergedTo a.
Proof. intros Hl Hh. exists (l1 ++ (b, true) :: l2). split; [|done]. split; [done|]. by apply (merge_apart l1 [(b, false)] b l2). Qed.

Lemma merge_prev l p : l1 = l ++ [(p, true)] → (∀ t, head l2 = Some t → t.2 = false) →
  mergedTo (setFreeBlock (c - p) (uwrap 64 (c - (c - p) + b)) (removeFromLookup (c - p) p (removeFreeBlock c b a))).
Proof.
  intros El Hh. pose proof region_bound as Hreg. pose proof laid_a as Hlaid. pose proof apart_a as Hap. unfold mergedTo. clear laid_a apart_a. subst l1.
  rewrite width_app, <- app_assoc in *. simpl in *. pose proof (laid_positive _ _ Hlaid) as Hp. apply positive_mid in Hp as Hp'. destruct Hp' as (Hpl & Hpp & _).
  pose proof (width_nonneg _ Hpl). simpl in Hpp. rewrite uwrap64 by lia.
  replace (A + (width l + (p + 0)) - (A + (width l + (p + 0)) - p) + b) with (p + b) by lia.
  replace (A + (width l + (p + 0)) - p) with (A + width l) by lia. replace (A + (width l + (p + 0))) with (A + width l + p) by lia.
  exists (l ++ (p + b, true) :: l2). split; [split|split; [done|split; [done|]]].
  - by apply merge_one.
  - apply (merge_apart l [(p, true); (b, false)] _ l2); [done | by eapply apart_before | done].
  - by apply (join_maps false).
Qed.

Lemma merge_next n l : l2 = (n, true) :: l → (∀ t, last l1 = Some t → t.2 = false) →
  mergedTo (setFreeBlock c (uwrap 64 (c + b - c + n)) (removeFromLookup c b (removeFreeBlock (c + b) n a))).
Proof.
  intros El Hl. pose proof region_bound as Hreg. pose proof laid_a as Hlaid. pose proof apart_a as Hap. unfold mergedTo. clear laid_a apart_a. subst l2. simpl in *.
  pose proof (laid_positive _ _ Hlaid) as Hp. apply positive_mid in Hp as (_ & _ & Hp2). inversion Hp2 as [|? ? Hn Hp3]; subst. simpl in Hn.
  pose proof (width_nonneg _ Hp3). rewrite uwrap64 by lia. replace (c + b - c + n) with (b + n) by lia.
  exists (l1 ++ (b + n, true) :: l). split; [split|split; [done|split; [done|]]].
  - by apply merge_one.
  - apply (merge_apart l1 [(b, false); (n, true)] _ l); [done | done|]. apply (apart_after (l1 ++ [(b, false)]) n). by rewrite <- app_assoc.
  - apply (join_maps false). apply Hlaid.
Qed.

Lemma merge_two l p n l' : l1 = l ++ [(p, true)] → l2 = (n, true) :: l' →
  mergedTo (setFreeBlock (c - p) (uwrap 64 (c + b - (c - p) + n))
    (removeFreeBlock (c + b) n (removeFromLookup (c - p) p (removeFreeBlock c b a)))).
Proof.
  intros El El'. pose proof region_bound as Hreg. pose proof laid_a as Hlaid. pose proof apart_a as Hap. unfold mergedTo. clear laid_a apart_a. subst l1 l2.
  rewrite width_app, <- app_assoc in *. simpl in *. pose proof (laid_positive _ _ Hlaid) as Hp. apply positive_mid in Hp as Hp'. destruct Hp' as (Hpl & Hpp & Hp2).
  inversion Hp2 as [|? ? _ Hp3]; inversion Hp3 as [|? ? Hn Hp4]; subst. pose proof (width_nonneg _ Hp4). pose proof (width_nonneg _ Hpl). simpl in Hpp, Hn.
  rewrite uwrap64 by lia.
  replace (A + (width l + (p + 0)) + b - (A + (width l + (p + 0)) - p) + n) with (p + b + n) by lia.
  replace (A + (width l + (p + 0)) - p) with (A + width l) by lia. replace (A + (width l + (p + 0))) with (A + width l + p) by lia.
  exists (l ++ (p + b + n, true) :: l'). split; [split|split; [done|split; [done|]]].
  - by apply merge_both.
  - apply (merge_apart l [(p, true); (b, false); (n, true)] _ l'); [done | by eapply apart_before|].
    apply (apart_after (l ++ [(p, true); (b, false)]) n). by rewrite <- app_assoc.
  - rewrite <- (join_maps false A l p b) by done. apply (join_maps false). by eapply join_positive.
Qed.
End Merges.

(** Freeing a used tile merges it with its free neighbours. *)
Lemma free_tiles a l1 b l2 bytes :
  tiled a (l1 ++ (b, false) :: l2) → bytes ≠ 0 → roundBytes bytes = b →
  let c := address_ a + width l1 in
  ∃ a' l', free c bytes a = Ok a' ∧ tiled a' l' ∧ address_ a' = address_ a ∧ byteSize_ a' = byteSize_ a ∧
    usedIn a l' = delete c (usedIn a (l1 ++ (b, false) :: l2)).
Proof.
  intros [Hlaid Hap] Hbytes Hb c. pose proof Hlaid as [Hp Ht Hr Hl Hk Hf].
  destruct (free_laid a l1 b l2 Hlaid) as (a1 & Ea1 & Hlaid1 & HA & HB).
  pose proof (region_bound a1 l1 l2 b Hlaid1) as Hreg. rewrite HA in Hreg.
  cut (∃ a', free c bytes a = Ok a' ∧ mergedTo a1 l1 l2 b a').
  { intros (a' & Ha' & l' & Htiled & HA' & HB' & Hu). exists a', l'. split_and!; [done | done | congruence | congruence|].
    rewrite HA in Hu. rewrite Hu. by apply freed_used. }
  unfold free. rewrite (proj2 (Z.eqb_neq c 0)), (proj2 (Z.eqb_neq bytes 0)) by (done || lia). cbn [orb]. rewrite Hb.
  unfold c. rewrite Ea1. cbn [mbind outcome_bind]. rewrite <- HA.
  pose proof Hlaid1 as [Hpos1 Htot1 Hreg1 Hlist1 _ _]. rewrite <- Htot1 in Hreg1.
  destruct (prevBlock_spec a1 (address_ a1) l1 l2 b Hpos1 Hreg1 Hlist1) as [(l & p & El & Hprev)|(Hlast & r & Hprev & Hr')];
  destruct (nextBlock_spec a1 (address_ a1) l1 l2 b Hpos1 Hreg1 Hlist1) as [(n & l3 & El3 & Hnext)|(Hhead & r2 & Hnext & Hr2)];
    rewrite Hprev; cbn [mbind outcome_bind]; rewrite Hnext; cbn [mbind outcome_bind].
  - eexists. split; [done|]. by eapply merge_two.
  - destruct r2 as [[[? ?] ?]|]; simpl in Hr2; subst; eexists; (split; [done|]); by eapply merge_prev.
  - destruct r as [[[? ?] ?]|]; simpl in Hr'; subst; eexists; (split; [done|]); by eapply merge_next.
  - destruct r as [[[? ?] ?]|], r2 as [[[? ?] ?]|]; simpl in Hr', Hr2; subst; eexists; (split; [done|]); by eapply merge_none.
Qed.
