(* ===== verification/MmapArenaReach.v ===== *)
(** * Arenas of mapped memory: sums, and the calls of a client *)
From S2P Require Import Prelude Bits MmapArena MmapArenaState MmapArenaCorrect.
Local Open Scope Z_scope.

(** ** Sums over maps *)
Section Sums.
Context {A : Type}.
Implicit Types (f : Z → A → Z) (m : gmap Z A).

(** A sum over the keys in any order. *)
Lemma total_keys f (g : Z → Z) m ks :
  ks ≡ₚ keys m → (∀ k x, m !! k = Some x → g k = f k x) → foldr (λ k n, g k + n) 0 ks = total f m.
Proof.
  intros Hp Hg. assert (∀ l l', l ≡ₚ l' → foldr (λ k n, g k + n) 0 l = foldr (λ k n, g k + n) 0 l') as Hperm
    by (induction 1; simpl; lia).
  rewrite (Hperm _ _ Hp). unfold keys, total. rewrite map_fold_foldr. assert (Forall (λ kx, g kx.1 = f kx.1 kx.2) (map_to_list m)) as Hall.
  { apply Forall_forall. intros [k x] Hk%elem_of_map_to_list. by apply Hg. }
  induction Hall as [|[k x] l Hkx _ IH]; [done|]. exact (f_equal2 Z.add Hkx IH).
Qed.
End Sums.

Abbreviation sumBytes := (total (λ _ (bytes : Z), bytes)).

Lemma blocksOf_sum f a l : positive l → sumBytes (blocksOf f a l) = if f then freeTotal l else width l - freeTotal l.
Proof.
  intros Hp. revert a. induction Hp as [|[s g] l Hs Hp IH]; intros a; simpl; [rewrite total_empty; by destruct f|]. simpl in Hs.
  destruct (eqb f g) eqn:E.
  - apply eqb_prop in E as ->. rewrite total_insert by (apply beyond_None; [done | lia]). rewrite IH. destruct g; lia.
  - unfold id. rewrite IH. destruct f, g; try done; lia.
Qed.

(** The index by size counts every block once. *)
Lemma lookup_sum fl : ∀ lk, lookupOf lk fl → total (λ bytes X, bytes * Z.of_nat (size X)) lk = sumBytes fl.
Proof.
  induction fl as [|p s fl Hp IH] using map_ind; intros lk Hlk.
  - rewrite total_empty. assert (lk = ∅) as ->; [|apply total_empty]. apply map_empty. intros bytes. destruct Hlk as [Hin Hne].
    destruct (lk !! bytes) as [X|] eqn:E; [|done]. exfalso. apply (Hne bytes). rewrite E. f_equal. apply set_eq. intros q.
    specialize (Hin bytes q). rewrite E in Hin. simpl in Hin. rewrite lookup_empty in Hin. set_solver.
  - set (a := mkArena 0 0 0 ∅ lk). pose proof (removeFromLookup_of a (<[p := s]> fl) p s Hlk ltac:(by rewrite lookup_insert_eq)) as Hrem.
    rewrite delete_insert_id in Hrem by done. apply IH in Hrem. rewrite total_insert by done. rewrite <- Hrem. clear IH Hrem.
    destruct Hlk as [Hin Hne]. specialize (Hin s p). rewrite lookup_insert_eq in Hin. destruct (lk !! s) as [X|] eqn:E; [|set_solver].
    simpl in Hin. assert (p ∈ X) as HpX by by apply Hin.
    assert (size X = S (size (X ∖ {[p]}))) as Hsz.
    { rewrite size_difference by set_solver. rewrite size_singleton.
      assert (size X ≠ 0%nat) by (apply size_non_empty_iff; set_solver). lia. }
    rewrite (total_delete _ _ _ _ E), Hsz. simpl. rewrite E. simpl. destruct (bool_decide_reflect (X ∖ {[p]} = ∅)) as [E'|E'].
    + rewrite E', size_empty. lia.
    + rewrite total_replace. lia.
Qed.

(** ** One arena and its client

    The client knows the blocks it holds, by their address and the bytes it
    asked for. *)
Definition arenaInv (a : MmapArena) (live : gmap Z Z) : Prop :=
  ∃ l, tiled a l ∧ usedIn a l = roundBytes <$> live ∧ map_Forall (λ _ bytes, 1 ≤ bytes ≤ 2 ^ 63) live.

Lemma newMmapArena_inv ptr capacity a :
  0 < ptr → 0 < capacity → ptr + capacity < 2 ^ 64 → newMmapArena (Some ptr) capacity = Ok a →
  arenaInv a ∅ ∧ address_ a = ptr ∧ byteSize_ a = capacity.
Proof.
  intros Hptr Hcap Hend. unfold newMmapArena. destruct (velox_check _); try done. cbn [mbind outcome_bind].
  rewrite (proj2 (Z.eqb_neq ptr 0)) by lia. unfold addFreeBlock. simpl freeList_. rewrite lookup_empty, bool_decide_eq_true_2 by done.
  cbn [velox_check mbind outcome_bind]. intros [= <-]. split; [|done]. exists [(capacity, true)].
  split; [|split; [by rewrite fmap_empty | apply map_Forall_empty]].
  split; [|done]. split; simpl; try done; try lia.
  - by constructor.
  - apply (addToLookup_of (mkArena capacity ptr 0 ∅ ∅)); [|done]. split; simpl; [|done].
    intros bytes p. rewrite lookup_empty. set_solver.
Qed.

Section Client.
Variable begin : gset Z → Z.
Hypothesis begin_in : ∀ X, X ≠ ∅ → begin X ∈ X.

Definition held (live : gmap Z Z) (r : option Z) (bytes : Z) : gmap Z Z :=
  match r with Some p => <[p := bytes]> live | None => live end.

Inductive arenaStep : MmapArena * gmap Z Z → MmapArena * gmap Z Z → Prop :=
| step_allocate a live bytes a' r :
    0 ≤ bytes ≤ 2 ^ 63 → allocate begin bytes a = Ok (a', r) → arenaStep (a, live) (a', held live r bytes)
| step_free a live p bytes a' :
    live !! p = Some bytes → free p bytes a = Ok a' → arenaStep (a, live) (a', delete p live).

Definition arenaReach (ptr capacity : Z) : MmapArena * gmap Z Z → Prop :=
  λ s, ∃ a, newMmapArena (Some ptr) capacity = Ok a ∧ rtc arenaStep (a, ∅) s.

(** What a call to [allocate] does to the blocks. *)
Lemma allocate_inv a live bytes : arenaInv a live → 1 ≤ bytes ≤ 2 ^ 63 →
  ∃ a' r, allocate begin bytes a = Ok (a', r) ∧ arenaInv a' (held live r bytes) ∧ address_ a' = address_ a ∧ byteSize_ a' = byteSize_ a ∧
    match r with None => a' = a ∧ ∀ l, tiled a l → ∀ s, (s, true) ∈ l → s < roundBytes bytes | Some p => live !! p = None end.
Proof.
  intros (l & Hl & Hu & Hb) Hbytes. destruct (allocate_tiles begin begin_in a l bytes Hl Hbytes) as [[Hnone Hs]|(a' & l1 & s & l2 & -> & Hbs & _ & Hsome & Hl' & HA & HB)].
  - exists a, None. split; [done|]. split; [by exists l|]. split; [done|]. split; [done|]. split; [done|]. intros l' Hl'.
    destruct (allocate_tiles begin begin_in a l' bytes Hl' Hbytes) as [[_ H]|(? & ? & ? & ? & _ & _ & _ & Hsome & _)]; [done | congruence].
  - exists a', (Some (address_ a + width l1)). split; [done|]. pose proof (roundBytes_range _ Hbytes).
    pose proof (laid_positive _ _ (tiled_laid _ _ Hl)) as Hp.
    assert (live !! (address_ a + width l1) = None) as Hfresh.
    { pose proof (blocksOf_here false (address_ a) l1 s true l2 Hp) as E. simpl in E. rewrite Hu, lookup_fmap in E. by destruct (live !! _). }
    split; [|done]. exists (l1 ++ splitTile (roundBytes bytes) s ++ l2). split; [done|]. rewrite HA. split.
    + destruct (split_maps (address_ a) l1 (roundBytes bytes) s l2 Hp ltac:(lia)) as [-> _]. simpl. by rewrite Hu, fmap_insert.
    + by apply map_Forall_insert_2.
Qed.

(** A request above 2^63 bytes is rounded to none: the rest of the block it is
    given is inserted at an address that is in the list. *)
Lemma allocate_huge a live bytes : arenaInv a live → 2 ^ 63 < bytes < 2 ^ 64 →
  allocate begin bytes a = if bool_decide (freeList_ a = ∅) then Ok (a, None) else Throw VeloxCheckFailed.
Proof.
  intros (l & [[Hp Ht Hr Hl [Hin Hne] Hf] _] & _ & _) Hb. unfold allocate. rewrite (proj2 (Z.eqb_neq bytes 0)) by lia.
  unfold roundBytes. rewrite nextPowerOfTwo_wraps by done.
  pose proof (first_block_spec (freeLookup_ a) 0) as Hlb. destruct (lower_bound (freeLookup_ a) 0) as [s|].
  - destruct Hlb as ([X HX] & _ & _). assert (X ≠ ∅) as HXne by (intros ->; by apply (Hne s)).
    rewrite HX. simpl default. rewrite (bool_decide_eq_false_2 (X = ∅)) by done.
    assert (freeList_ a !! begin X = Some s) as Hc by (apply Hin; rewrite HX; by apply begin_in).
    assert (address_ a ≤ begin X ∧ begin X + s ≤ address_ a + byteSize_ a ∧ 0 < s) as (? & ? & ?)
      by (rewrite Hl in Hc; pose proof (blocksOf_range _ _ _ _ _ Hp Hc); lia).
    rewrite (proj2 (Z.eqb_neq s 0)), Z.add_0_r, uwrap64 by lia. unfold addFreeBlock. simpl freeList_. rewrite Hc.
    rewrite bool_decide_eq_false_2 by done. rewrite bool_decide_eq_false_2; [done|]. intros E. by rewrite E in Hc.
  - rewrite bool_decide_eq_true_2; [done|]. apply map_empty. intros p. apply eq_None_not_Some. intros [s Hs].
    pose proof Hs as Hs'. apply Hin in Hs'. rewrite Hl in Hs. pose proof (blocksOf_range _ _ _ _ _ Hp Hs).
    assert (is_Some (freeLookup_ a !! s)) as Hk by (destruct (freeLookup_ a !! s); [done | set_solver]). specialize (Hlb s Hk). lia.
Qed.

(** A block that is held can be freed. *)
Lemma free_inv a live p bytes : arenaInv a live → live !! p = Some bytes →
  ∃ a', free p bytes a = Ok a' ∧ arenaInv a' (delete p live) ∧ address_ a' = address_ a ∧ byteSize_ a' = byteSize_ a.
Proof.
  intros (l & Hl & Hu & Hb) Hp. pose proof (Hb p bytes Hp) as Hbytes. simpl in Hbytes. pose proof (laid_positive _ _ (tiled_laid _ _ Hl)) as Hpos.
  assert (usedIn a l !! p = Some (roundBytes bytes)) as Hused by (by rewrite Hu, lookup_fmap, Hp).
  apply blocksOf_tile in Hused as (l1 & l2 & -> & ->); [|done].
  destruct (free_tiles a l1 _ l2 bytes Hl ltac:(lia) eq_refl) as (a' & l' & Hfree & Hl' & HA & HB & Hu').
  exists a'. split; [done|]. split; [|done]. exists l'. split; [done|]. split; [by rewrite HA, Hu', Hu, fmap_delete | by apply map_Forall_delete].
Qed.

Lemma step_inv s s' : arenaStep s s' → arenaInv s.1 s.2 → arenaInv s'.1 s'.2 ∧ address_ s'.1 = address_ s.1 ∧ byteSize_ s'.1 = byteSize_ s.1.
Proof.
  destruct 1 as [a live bytes a' r Hb Ha|a live p bytes a' Hp Ha]; intros Hinv; simpl in *.
  - destruct (Z.eq_dec bytes 0) as [->|]; [by injection Ha as <- <-|].
    destruct (allocate_inv a live bytes Hinv ltac:(lia)) as (a2 & r2 & E & H & HA & HB & _). rewrite Ha in E. by injection E as <- <-.
  - destruct (free_inv a live p bytes Hinv Hp) as (a2 & E & H & HA & HB). rewrite Ha in E. by injection E as <-.
Qed.

Lemma reach_inv ptr capacity s : 0 < ptr → 0 < capacity → ptr + capacity < 2 ^ 64 → arenaReach ptr capacity s →
  arenaInv s.1 s.2 ∧ address_ s.1 = ptr ∧ byteSize_ s.1 = capacity.
Proof.
  intros Hptr Hcap Hend (a & Ha & Hsteps). apply (newMmapArena_inv ptr capacity a) in Ha; [|done..].
  set (P := λ s, arenaInv s.1 s.2 ∧ address_ s.1 = ptr ∧ byteSize_ s.1 = capacity).
  assert (P (a, ∅)) as HP by done. clear Ha. change (P s). induction Hsteps as [|s1 s2 s3 Hstep _ IH]; [done|]. apply IH.
  destruct HP as (Hinv & HA & HB). destruct (step_inv _ _ Hstep Hinv) as (? & ? & ?). unfold P. split_and!; [done | congruence | congruence].
Qed.
End Client.
