(* ===== verification/MmapArenaTheorems.v ===== *)
(** * Arenas of mapped memory: what clients get *)
From S2P Require Import Prelude Bits MmapArena MmapArenaState MmapArenaCorrect MmapArenaReach.
Local Open Scope Z_scope.

Lemma blocksOf_disjoint f g a l p q s t :
  positive l → blocksOf f a l !! p = Some s → blocksOf g a l !! q = Some t → p < q → p + s ≤ q.
Proof.
  intros Hp (l1 & l2 & -> & ->)%blocksOf_tile Hq Hlt; [|done]. rewrite blocksOf_right in Hq by (done || lia).
  apply blocksOf_range in Hq; [lia|]. by apply positive_mid in Hp as (_ & _ & ?).
Qed.

(** ** The check of the tests *)
Lemma foldl_add (f : Z → Z) ks z : foldl (λ n k, n + f k) z ks = z + foldr (λ k n, f k + n) 0 ks.
Proof. revert z. induction ks as [|k ks IH]; intros z; simpl; [lia|]. rewrite IH. lia. Qed.

Lemma swrap_add w z y : 0 < w → swrap w (swrap w z + y) = swrap w (z + y).
Proof.
  intros Hw. unfold swrap. f_equal.
  replace ((z + 2 ^ (w - 1)) mod 2 ^ w - 2 ^ (w - 1) + y + 2 ^ (w - 1)) with ((z + 2 ^ (w - 1)) mod 2 ^ w + y) by lia.
  rewrite Zplus_mod_idemp_l. f_equal. lia.
Qed.

Lemma uwrap_swrap w z : 0 < w → uwrap w (swrap w z) = uwrap w z.
Proof.
  intros Hw. unfold uwrap, swrap. rewrite <- Zminus_mod_idemp_l, Zmod_mod, Zminus_mod_idemp_l. f_equal. lia.
Qed.

Lemma foldl_swrap (f : Z → Z) ks z :
  foldl (λ n k, swrap 64 (n + f k)) (swrap 64 z) ks = swrap 64 (z + foldr (λ k n, f k + n) 0 ks).
Proof.
  revert z. induction ks as [|k ks IH]; intros z; simpl; [by rewrite Z.add_0_r|]. rewrite swrap_add, IH by lia. f_equal. lia.
Qed.

Lemma foldr_zero (f : Z → Z) ks : (∀ k, k ∈ ks → f k = 0) → foldr (λ k n, f k + n) 0 ks = 0.
Proof. induction ks as [|k ks IH]; intros H; simpl; [done|]. rewrite H by by left. rewrite IH; [lia|]. intros q Hq. apply H. by right. Qed.

Lemma orderedKeys_perm {A} (m : gmap Z A) : orderedKeys m ≡ₚ keys m.
Proof. apply merge_sort_Permutation. Qed.

Lemma blockErrors_none a l k : tiled a l → k ∈ keys (freeList_ a) → blockErrors a k = 0.
Proof.
  intros [[Hp Ht Hr Hl [Hin _] _] _] [s Hk]%elem_of_keys. unfold blockErrors. rewrite Hk. simpl default.
  pose proof Hk as Hk'. rewrite Hl in Hk'. pose proof (blocksOf_range _ _ _ _ _ Hp Hk') as Hrange. rewrite !uwrap64 by lia.
  rewrite bool_decide_eq_true_2 by by apply Hin. rewrite (proj2 (Z.ltb_ge _ _)) by lia.
  pose proof (nextKey_spec (freeList_ a) k) as Hnext. destruct (nextKey _ _) as [q|]; [|done].
  destruct Hnext as ([t Hq] & Hlt & _). rewrite Hl in Hq. pose proof (blocksOf_disjoint true true _ _ _ _ _ _ Hp Hk' Hq Hlt).
  by rewrite (proj2 (Z.ltb_ge _ _)) by lia.
Qed.

Lemma tiled_consistent a l : tiled a l → checkConsistency a = true.
Proof.
  intros Hl. pose proof Hl as [[Hp Ht Hr Hfl Hlk Hf] _]. unfold checkConsistency. rewrite !foldl_add.
  assert (freeListTotalBytes a = swrap 64 (freeTotal l)) as ->.
  { refine (eq_trans (foldl_swrap (λ key, default 0 (freeList_ a !! key)) _ 0) _). f_equal. rewrite Z.add_0_l.
    rewrite (total_keys (λ _ s, s) _ (freeList_ a)) by (done || apply orderedKeys_perm || (intros k s ->; done)).
    rewrite Hfl. by rewrite (blocksOf_sum true). }
  assert (freeLookupTotalBytes a = swrap 64 (freeTotal l)) as ->.
  { refine (eq_trans (foldl_swrap (λ key, key * Z.of_nat (size (default ∅ (freeLookup_ a !! key)))) _ 0) _). f_equal. rewrite Z.add_0_l.
    rewrite (total_keys (λ s X, s * Z.of_nat (size X)) _ (freeLookup_ a)) by (apply orderedKeys_perm || (intros k s ->; done)).
    rewrite (lookup_sum (freeList_ a)) by done. rewrite Hfl. by rewrite (blocksOf_sum true). }
  rewrite (foldr_zero (blockErrors a)) by (intros k; rewrite orderedKeys_perm; by apply blockErrors_none with (l := l)).
  rewrite foldr_zero.
  - pose proof (freeTotal_range _ Hp). rewrite Z.eqb_refl, uwrap_swrap, uwrap64 by lia. by rewrite Hf, Z.eqb_refl.
  - intros k. rewrite orderedKeys_perm. intros [X HX]%elem_of_keys. rewrite HX. simpl. rewrite bool_decide_eq_false_2; [done|].
    intros ->. by apply (proj2 Hlk k).
Qed.

(** ** Room *)

(** [b] bytes in a row that no used block touches lie in one free tile. *)
Lemma room_tile a l x b :
  positive l → apart l → 0 < b → a ≤ x → x + b ≤ a + width l →
  (∀ p s, blocksOf false a l !! p = Some s → p + s ≤ x ∨ x + b ≤ p) → ∃ s, (s, true) ∈ l ∧ b ≤ s.
Proof.
  intros Hp. revert a. induction Hp as [|[s g] l Hs Hp IH]; intros a Hap Hb Hx Hend Hfree; simpl in *; [lia|].
  destruct Hap as [Hhead Hap].
  assert (∀ p t, blocksOf false (a + s) l !! p = Some t → p + t ≤ x ∨ x + b ≤ p) as Hfree'.
  { intros p t Hpt. apply Hfree. pose proof (blocksOf_range _ _ _ _ _ Hp Hpt). destruct g; [done|]. simpl. rewrite lookup_insert_ne; [done | lia]. }
  destruct (Z.le_gt_cases (a + s) x) as [Hright|Hover].
  { destruct (IH (a + s)) as (t & Ht & Hbt); try done; [lia|]. exists t. split; [by right | done]. }
  destruct g.
  2: { exfalso. destruct (Hfree a s); [simpl; by rewrite lookup_insert_eq | lia | lia]. }
  destruct (Z.le_gt_cases (x + b) (a + s)); [exists s; split; [by left | lia]|].
  destruct l as [|[t g'] l]; simpl in *; [lia|]. destruct g'; [naive_solver|]. exfalso. inversion Hp; subst. simpl in *.
  destruct (Hfree' (a + s) t); [by rewrite lookup_insert_eq | lia | lia].
Qed.

(** [b] bytes from [x] on are in the arena and in no block that is held. *)
Definition roomAt (a : MmapArena) (live : gmap Z Z) (b x : Z) : Prop :=
  address_ a ≤ x ∧ x + b ≤ address_ a + byteSize_ a ∧
  ∀ p bytes, live !! p = Some bytes → p + roundBytes bytes ≤ x ∨ x + b ≤ p.

Lemma room_free a live l b x : tiled a l → usedIn a l = roundBytes <$> live → 0 < b → roomAt a live b x → ∃ s, (s, true) ∈ l ∧ b ≤ s.
Proof.
  intros [[Hp Ht _ _ _ _] Hap] Hu Hb (Hx & Hend & Hfree). apply (room_tile (address_ a) l x b); try done; [lia|].
  intros p s Hps. simpl in Hu. rewrite Hu, lookup_fmap in Hps. destruct (live !! p) as [bytes|] eqn:E; [|done]. injection Hps as <-. by apply Hfree.
Qed.

Lemma inv_disjoint a live p q b c :
  arenaInv a live → live !! p = Some b → live !! q = Some c → p < q → p + roundBytes b ≤ q.
Proof.
  intros (l & [[Hpos _ _ _ _ _] _] & Hu & _) Hp Hq Hlt.
  apply (blocksOf_disjoint false false (address_ a) l p q _ (roundBytes c)); try done; simpl in Hu; by rewrite Hu, lookup_fmap, ?Hp, ?Hq.
Qed.

Lemma inv_range a live p b :
  arenaInv a live → live !! p = Some b → 0 < address_ a ≤ p ∧ p + roundBytes b ≤ address_ a + byteSize_ a ∧ 0 < b ≤ roundBytes b.
Proof.
  intros (l & [[Hpos Ht Hr _ _ _] _] & Hu & Hb) Hp. pose proof (Hb p b Hp) as Hbb. simpl in Hbb. pose proof (roundBytes_range _ Hbb).
  assert (blocksOf false (address_ a) l !! p = Some (roundBytes b)) as H' by (simpl in Hu; by rewrite Hu, lookup_fmap, Hp).
  apply blocksOf_range in H'; [lia | done].
Qed.

Lemma inv_bytes a live : arenaInv a live → freeBytes_ a + sumBytes (roundBytes <$> live) = byteSize_ a.
Proof.
  intros (l & [[Hpos Ht _ _ _ Hf] _] & Hu & _). simpl in Hu. rewrite <- Hu, (blocksOf_sum false), Hf by done. lia.
Qed.

(** Without used tiles there is one tile. *)
Lemma unused_tiles a l : positive l → apart l → blocksOf false a l = ∅ → l = [] ∨ l = [(width l, true)].
Proof.
  intros Hp Hap Hu. destruct Hp as [|[s g] l Hs Hp]; [by left|]. right. simpl in *. destruct g; [|exfalso; by apply insert_non_empty in Hu].
  destruct Hp as [|[t g] l Ht Hp]; simpl in *; [do 2 f_equal; f_equal; lia|]. exfalso.
  destruct g; [naive_solver | by apply insert_non_empty in Hu].
Qed.

Lemma inv_unused a : arenaInv a ∅ → 0 < byteSize_ a → freeList_ a = {[address_ a := byteSize_ a]}.
Proof.
  intros (l & [[Hpos Ht _ Hl _ _] Hap] & Hu & _) Hb. rewrite fmap_empty in Hu.
  destruct (unused_tiles _ _ Hpos Hap Hu) as [->|E]; [simpl in Ht; lia|]. rewrite E in Hl. by rewrite Hl, Ht.
Qed.

(** ** One arena *)
Lemma allocated_room a a' live p bytes :
  arenaInv a' (<[p := bytes]> live) → address_ a' = address_ a → byteSize_ a' = byteSize_ a → live !! p = None →
  roomAt a live (roundBytes bytes) p.
Proof.
  intros Hinv HA HB Hp. pose proof (inv_range _ _ p bytes Hinv ltac:(by rewrite lookup_insert_eq)) as Hr. rewrite HA, HB in Hr.
  split; [lia|]. split; [lia|]. intros q b Hq. assert (q ≠ p) as Hne by (intros ->; congruence).
  assert (<[p := bytes]> live !! q = Some b) as Hq' by by rewrite lookup_insert_ne.
  assert (<[p := bytes]> live !! p = Some bytes) as Hp' by by rewrite lookup_insert_eq.
  destruct (Z.lt_ge_cases q p); [left; by eapply inv_disjoint | right; eapply inv_disjoint; eauto; lia].
Qed.

Lemma allocate_room begin a live bytes : (∀ X, X ≠ ∅ → begin X ∈ X) → arenaInv a live → 1 ≤ bytes ≤ 2 ^ 63 →
  ∃ a' r, allocate begin bytes a = Ok (a', r) ∧ match r with
    | Some p => roomAt a live (roundBytes bytes) p
    | None => a' = a ∧ ∀ x, ¬ roomAt a live (roundBytes bytes) x
    end.
Proof.
  intros Hbegin Hinv Hb. destruct (allocate_inv begin Hbegin a live bytes Hinv Hb) as (a' & r & E & Hinv' & HA & HB & Hr).
  exists a', r. split; [done|]. destruct r as [p|]; [by eapply allocated_room|]. destruct Hr as [-> Hnone]. split; [done|].
  intros x Hx. destruct Hinv as (l & Hl & Hu & _). pose proof (roundBytes_range _ Hb).
  destruct (room_free a live l (roundBytes bytes) x Hl Hu ltac:(lia) Hx) as (s & Hs & Hbs). specialize (Hnone l Hl s Hs). lia.
Qed.

(** C11: In every state a client can bring an arena into, the blocks it holds
    are inside the region and do not overlap, the free bytes are what is not
    held, and the consistency check passes. *)
Theorem arena_blocks begin ptr capacity a live :
  (∀ X, X ≠ ∅ → begin X ∈ X) → 0 < ptr → 0 < capacity → ptr + capacity < 2 ^ 64 → arenaReach begin ptr capacity (a, live) →
  (∀ p b, live !! p = Some b → ptr ≤ p ∧ p + b ≤ ptr + capacity) ∧
  (∀ p q b c, live !! p = Some b → live !! q = Some c → p < q → p + b ≤ q) ∧
  freeBytes_ a + sumBytes (roundBytes <$> live) = capacity ∧ checkConsistency a = true.
Proof.
  intros Hbegin Hptr Hcap Hend Hreach. destruct (reach_inv begin Hbegin _ _ _ Hptr Hcap Hend Hreach) as (Hinv & HA & HB). simpl in *.
  split_and!.
  - intros p b Hp. pose proof (inv_range _ _ _ _ Hinv Hp). lia.
  - intros p q b c Hp Hq Hlt. pose proof (inv_range _ _ _ _ Hinv Hp). pose proof (inv_disjoint _ _ _ _ _ _ Hinv Hp Hq Hlt). lia.
  - rewrite <- HB. by apply inv_bytes.
  - destruct Hinv as (l & Hl & _). by eapply tiled_consistent.
Qed.

(** C29: In every state a client can bring an arena into, a request for up to
    2^63 bytes, which [allocate] rounds up to the next power of two, returns a
    block of that many bytes that touches no block that is held, and a null
    pointer exactly when the region has no free bytes of the rounded number in a
    row (so not always when the bytes asked for would fit); a request for no
    bytes returns a null pointer; one for more than 2^63 bytes, whose rounding
    wraps around to 0, fails a check unless nothing at all is free; and freeing
    a block that is held does not fail. *)
Theorem arena_calls begin ptr capacity a live :
  (∀ X, X ≠ ∅ → begin X ∈ X) → 0 < ptr → 0 < capacity → ptr + capacity < 2 ^ 64 → arenaReach begin ptr capacity (a, live) →
  allocate begin 0 a = Ok (a, None) ∧
  (∀ bytes, 1 ≤ bytes ≤ 2 ^ 63 →
     (∃ k, 0 ≤ k ≤ 63 ∧ roundBytes bytes = 2 ^ k ∧ bytes ≤ 2 ^ k < 2 * bytes) ∧
     ∃ a' r, allocate begin bytes a = Ok (a', r) ∧ match r with
     | Some p => roomAt a live (roundBytes bytes) p
     | None => a' = a ∧ ∀ x, ¬ roomAt a live (roundBytes bytes) x
     end) ∧
  (∀ bytes, 2 ^ 63 < bytes < 2 ^ 64 →
     allocate begin bytes a = if bool_decide (freeList_ a = ∅) then Ok (a, None) else Throw VeloxCheckFailed) ∧
  ∀ p bytes, live !! p = Some bytes → ∃ a', free p bytes a = Ok a'.
Proof.
  intros Hbegin Hptr Hcap Hend Hreach. destruct (reach_inv begin Hbegin _ _ _ Hptr Hcap Hend Hreach) as (Hinv & HA & HB). simpl in *.
  split; [done|]. split; [intros bytes Hb; split; [by apply nextPowerOfTwo_spec | by apply allocate_room]|].
  split; [intros bytes; by apply (allocate_huge begin Hbegin a live)|].
  intros p bytes Hp. destruct (free_inv a live p bytes Hinv Hp) as (a' & E & _). by exists a'.
Qed.

(** When the client has freed everything, the region is one free block
    again, whatever the order of the calls was. *)
Theorem arena_defragmented begin ptr capacity a :
  (∀ X, X ≠ ∅ → begin X ∈ X) → 0 < ptr → 0 < capacity → ptr + capacity < 2 ^ 64 → arenaReach begin ptr capacity (a, ∅) →
  freeList_ a = {[ptr := capacity]} ∧ empty a = true.
Proof.
  intros Hbegin Hptr Hcap Hend Hreach. destruct (reach_inv begin Hbegin _ _ _ Hptr Hcap Hend Hreach) as (Hinv & HA & HB). simpl in *.
  split; [rewrite <- HA, <- HB; apply inv_unused; [done | lia]|]. pose proof (inv_bytes _ _ Hinv) as Hb. rewrite fmap_empty, total_empty in Hb.
  unfold empty. apply Z.eqb_eq. lia.
Qed.

(** A client that holds the second of two blocks. *)
Definition anyOf (X : gset Z) : Z := default 0 (head (elements X)).

Lemma anyOf_in X : X ≠ ∅ → anyOf X ∈ X.
Proof.
  intros HX. unfold anyOf. destruct (elements X) as [|x l] eqn:E; simpl.
  - apply elements_empty_inv in E. by apply leibniz_equiv in E.
  - apply elem_of_elements. rewrite E. by left.
Qed.

Definition okArena (o : outcome MmapArena) : MmapArena := match o with Ok a => a | _ => mkArena 0 0 0 ∅ ∅ end.
Definition sampleNew : MmapArena := okArena (newMmapArena (Some 4096) 1048576).
Definition sampleOne : MmapArena := okArena (fst <$> allocate anyOf 5 sampleNew).
Definition sampleTwo : MmapArena := okArena (fst <$> allocate anyOf 100 sampleOne).
Definition sampleFreed : MmapArena := okArena (free 4096 5 sampleTwo).
Definition sampleEmpty : MmapArena := okArena (free 4104 100 sampleFreed).

Lemma sample_reach : arenaReach anyOf 4096 1048576 (sampleFreed, {[4104 := 100]}).
Proof.
  exists sampleNew. split; [by vm_compute|].
  eapply rtc_l; [apply (step_allocate anyOf sampleNew ∅ 5 sampleOne (Some 4096)); [lia | by vm_compute]|].
  eapply rtc_l; [apply (step_allocate anyOf sampleOne _ 100 sampleTwo (Some 4104)); [lia | by vm_compute]|].
  eapply rtc_l; [apply (step_free anyOf sampleTwo _ 4096 5 sampleFreed); [done | by vm_compute]|].
  assert (delete 4096 (held (held ∅ (Some 4096) 5) (Some 4104) 100) = {[4104 := 100]}) as -> by by vm_compute. apply rtc_refl.
Qed.

Lemma sample_reach_empty : arenaReach anyOf 4096 1048576 (sampleEmpty, ∅).
Proof.
  destruct sample_reach as (a & Ha & Hr). exists a. split; [done|]. eapply rtc_r; [exact Hr|].
  assert (∅ = delete 4104 ({[4104 := 100]} : gmap Z Z)) as -> by by vm_compute. apply (step_free anyOf _ _ 4104 100); [done | by vm_compute].
Qed.

Lemma arena_blocks_witness :
  4096 ≤ 4104 ∧ freeBytes_ sampleFreed + sumBytes (roundBytes <$> {[4104 := 100]}) = 1048576 ∧ checkConsistency sampleFreed = true.
Proof.
  destruct (arena_blocks anyOf 4096 1048576 sampleFreed {[4104 := 100]} anyOf_in ltac:(lia) ltac:(lia) ltac:(lia) sample_reach) as (H1 & _ & H3 & H4).
  split; [apply (H1 4104 100); reflexivity|]. by split.
Defined.

Lemma arena_calls_witness : ∃ a' r, allocate anyOf 300 sampleFreed = Ok (a', r) ∧ ∃ a'', free 4104 100 sampleFreed = Ok a''.
Proof.
  destruct (arena_calls anyOf 4096 1048576 sampleFreed {[4104 := 100]} anyOf_in ltac:(lia) ltac:(lia) ltac:(lia) sample_reach) as (_ & H1 & _ & H2).
  destruct (H1 300 ltac:(lia)) as (_ & a' & r & E & _). exists a', r. split; [done|]. apply (H2 4104 100). reflexivity.
Defined.

Lemma arena_defragmented_witness : freeList_ sampleEmpty = {[4096 := 1048576]} ∧ empty sampleEmpty = true.
Proof. apply (arena_defragmented anyOf 4096 1048576); [exact anyOf_in | lia | lia | lia | exact sample_reach_empty]. Defined.
