(* ===== verification/MmapManaged.v ===== *)
(** * Sets of arenas

    [ManagedMmapArenas] and its client as a transition system: the regions do
    not overlap, every block that is held lies in one of them, and each arena
    with its blocks is as in [MmapArenaReach]. *)
From S2P Require Import Prelude Bits MmapArena MmapArenaState MmapArenaCorrect MmapArenaReach MmapArenaTheorems.
Local Open Scope Z_scope.

(** The blocks that lie in the region at [at_]. *)
Definition inRegion (cap at_ : Z) (px : Z * Z) : Prop := at_ ≤ px.1 < at_ + cap.
#[global] Instance inRegion_dec cap at_ px : Decision (inRegion cap at_ px).
Proof. unfold inRegion. apply _. Defined.

Definition part (cap at_ : Z) (live : gmap Z Z) : gmap Z Z := filter (inRegion cap at_) live.

Record managedInv (m : ManagedMmapArenas) (live : gmap Z Z) : Prop := {
  managed_capacity : 0 < singleArenaCapacity_ m ∧ singleArenaCapacity_ m mod kMinGrainSizeBytes = 0;
  managed_current : is_Some (arenas_ m !! currentArena_ m);
  managed_arena at_ a : arenas_ m !! at_ = Some a →
    arenaInv a (part (singleArenaCapacity_ m) at_ live) ∧ address_ a = at_ ∧ byteSize_ a = singleArenaCapacity_ m;
  managed_region at_ : is_Some (arenas_ m !! at_) → 0 < at_ ∧ at_ + singleArenaCapacity_ m < 2 ^ 64;
  managed_apart at_ at' : is_Some (arenas_ m !! at_) → is_Some (arenas_ m !! at') → at_ < at' → at_ + singleArenaCapacity_ m ≤ at';
  managed_covered p b : live !! p = Some b → ∃ at_, is_Some (arenas_ m !! at_) ∧ at_ ≤ p < at_ + singleArenaCapacity_ m }.

Lemma part_insert cap at_ live p b :
  part cap at_ (<[p := b]> live) = if decide (at_ ≤ p < at_ + cap) then <[p := b]> (part cap at_ live) else part cap at_ (delete p live).
Proof.
  unfold part. case_decide as H; [by apply map_filter_insert_True|]. rewrite map_filter_insert_False by done. done.
Qed.

Lemma part_delete cap at_ live p : part cap at_ (delete p live) = delete p (part cap at_ live).
Proof. apply map_filter_delete. Qed.

Lemma part_outside cap at_ live p : ¬ (at_ ≤ p < at_ + cap) → delete p (part cap at_ live) = part cap at_ live.
Proof. intros H. apply delete_id. unfold part. rewrite map_lookup_filter_None. right. intros x _. exact H. Qed.

(** A place in one region is in no other. *)
Lemma region_unique m live at_ at' p :
  managedInv m live → is_Some (arenas_ m !! at_) → is_Some (arenas_ m !! at') →
  at_ ≤ p < at_ + singleArenaCapacity_ m → at' ≤ p < at' + singleArenaCapacity_ m → at_ = at'.
Proof.
  intros Hinv Ha Ha' Hp Hp'. destruct (Z.lt_trichotomy at_ at') as [H|[H|H]]; [|done|].
  - pose proof (managed_apart _ _ Hinv _ _ Ha Ha' H). lia.
  - pose proof (managed_apart _ _ Hinv _ _ Ha' Ha H). lia.
Qed.

(** The blocks of one arena change. *)
Lemma managed_update m live live' at_ a a' :
  managedInv m live → arenas_ m !! at_ = Some a → arenaInv a' (part (singleArenaCapacity_ m) at_ live') →
  address_ a' = address_ a → byteSize_ a' = byteSize_ a →
  (∀ at', at' ≠ at_ → is_Some (arenas_ m !! at') → part (singleArenaCapacity_ m) at' live' = part (singleArenaCapacity_ m) at' live) →
  (∀ p b, live' !! p = Some b → is_Some (live !! p) ∨ at_ ≤ p < at_ + singleArenaCapacity_ m) →
  managedInv (m <| arenas_ := <[at_ := a']> (arenas_ m) |>) live'.
Proof.
  intros Hinv Ha Ha' HA HB Hother Hcov.
  assert (∀ at', is_Some (<[at_ := a']> (arenas_ m) !! at') ↔ is_Some (arenas_ m !! at')) as Hdom.
  { intros at'. rewrite lookup_insert_is_Some. split; [intros [<-|[_ ?]]; [by exists a | done] | destruct (decide (at_ = at')); auto]. }
  split; simpl.
  - apply Hinv.
  - apply Hdom, Hinv.
  - intros at' x. rewrite lookup_insert_Some. intros [[<- <-]|[Hne Hx]].
    + pose proof (managed_arena _ _ Hinv _ _ Ha) as (_ & ? & ?). split; [done|]. split; congruence.
    + rewrite Hother by (done || by exists x). by apply (managed_arena _ _ Hinv).
  - intros at' H%Hdom. by apply (managed_region _ _ Hinv).
  - intros x y Hx%Hdom Hy%Hdom. by apply (managed_apart _ _ Hinv).
  - intros p b Hp. destruct (Hcov p b Hp) as [[b' Hb']|Hin].
    + destruct (managed_covered _ _ Hinv p b' Hb') as (at' & Hat & Hr). exists at'. by rewrite Hdom.
    + exists at_. rewrite Hdom. split; [by exists a | done].
Qed.

Section Client.
Variable begin : gset Z → Z.
Hypothesis begin_in : ∀ X, X ≠ ∅ → begin X ∈ X.

Lemma allocateFrom_inv m live at_ bytes :
  managedInv m live → is_Some (arenas_ m !! at_) → 1 ≤ bytes ≤ 2 ^ 63 →
  ∃ m' r, allocateFrom begin at_ bytes m = Ok (m', r) ∧ managedInv m' (held live r bytes) ∧
    singleArenaCapacity_ m' = singleArenaCapacity_ m ∧ (∀ at', is_Some (arenas_ m' !! at') ↔ is_Some (arenas_ m !! at')) ∧
    match r with
    | Some p => live !! p = None
    | None => m' = m ∧ ∀ x a, arenas_ m !! at_ = Some a → ¬ roomAt a (part (singleArenaCapacity_ m) at_ live) (roundBytes bytes) x
    end.
Proof.
  intros Hinv [a Ha] Hb. unfold allocateFrom. rewrite Ha. pose proof (managed_arena _ _ Hinv _ _ Ha) as (Hai & HA & HB).
  destruct (allocate_inv begin begin_in a _ bytes Hai Hb) as (a' & r & E & Hai' & HA' & HB' & Hr). rewrite E. cbn [mbind outcome_bind].
  eexists _, r. split; [done|]. assert (∀ at', is_Some (<[at_ := a']> (arenas_ m) !! at') ↔ is_Some (arenas_ m !! at')) as Hdom.
  { intros at'. rewrite lookup_insert_is_Some. split; [intros [<-|[_ ?]]; [by exists a | done] | destruct (decide (at_ = at')); auto]. }
  destruct r as [p|]; simpl in *.
  - pose proof (inv_range _ _ p bytes Hai' ltac:(by rewrite lookup_insert_eq)) as Hp. rewrite HA', HA, HB', HB in Hp.
    assert (at_ ≤ p < at_ + singleArenaCapacity_ m) as Hreg by lia.
    assert (live !! p = None) as Hfresh.
    { destruct (live !! p) as [b|] eqn:Eb; [|done]. unfold part in Hr. rewrite map_lookup_filter_None in Hr. destruct Hr as [Hr|Hr]; [congruence|].
      exfalso. by apply (Hr b Eb). }
    split; [|done]. apply (managed_update m live _ at_ a); try done.
    + rewrite part_insert, decide_True by done. done.
    + intros at' Hne Hat. rewrite part_insert, decide_False, part_delete.
      2: { intros Hreg'. apply Hne. by eapply (region_unique m live _ _ p). }
      apply part_outside. intros Hreg'. apply Hne. symmetry. eapply (region_unique m live _ _ p); done.
    + intros q b. rewrite lookup_insert_Some. intros [[<- _]|[_ Hq]]; [by right | left; by exists b].
  - destruct Hr as [-> Hnone]. rewrite insert_id by done. destruct m as [cap arenas cur]. simpl in *. split; [done|]. split; [done|]. split; [done|].
    split; [done|]. intros x a0 Ea0 Hroom. injection Ea0 as <-.
    destruct (allocate_room begin a _ bytes begin_in Hai Hb) as (a2 & r2 & E2 & Hr2). rewrite E in E2. injection E2 as <- <-. by apply (proj2 Hr2 x).
Qed.

(** The system maps a region that is not mapped. *)
Definition freshRegion (m : ManagedMmapArenas) (ptr : Z) : Prop :=
  0 < ptr ∧ ptr + singleArenaCapacity_ m < 2 ^ 64 ∧
  ∀ at_, is_Some (arenas_ m !! at_) → ptr + singleArenaCapacity_ m ≤ at_ ∨ at_ + singleArenaCapacity_ m ≤ ptr.

Lemma newMmapArena_Ok ptr cap : 0 < ptr → cap mod kMinGrainSizeBytes = 0 → ∃ a, newMmapArena (Some ptr) cap = Ok a.
Proof.
  intros Hp Hc. unfold newMmapArena. rewrite Hc, Z.eqb_refl. cbn [velox_check mbind outcome_bind]. rewrite (proj2 (Z.eqb_neq ptr 0)) by lia.
  unfold addFreeBlock. simpl freeList_. rewrite lookup_empty, bool_decide_eq_true_2 by done. by eexists.
Qed.

(** A further region holds no block. *)
Lemma part_fresh m live ptr : managedInv m live → freshRegion m ptr → part (singleArenaCapacity_ m) ptr live = ∅.
Proof.
  intros Hinv (Hptr & Hend & Hfresh). apply map_empty. intros p. apply map_lookup_filter_None. destruct (live !! p) as [b|] eqn:E; [right|by left].
  intros b' _ Hin. unfold inRegion in Hin. simpl in Hin.
  destruct (managed_covered _ _ Hinv p b E) as (at_ & Hat & Hr). specialize (Hfresh at_ Hat). lia.
Qed.

Lemma managed_grow m live ptr a :
  managedInv m live → freshRegion m ptr → newMmapArena (Some ptr) (singleArenaCapacity_ m) = Ok a →
  arenas_ m !! ptr = None ∧ managedInv (m <| arenas_ := <[ptr := a]> (arenas_ m) |> <| currentArena_ := ptr |>) live ∧ address_ a = ptr.
Proof.
  intros Hinv Hf Hnew. pose proof (managed_capacity _ _ Hinv) as [Hcap _]. pose proof Hf as (Hptr & Hend & Hfresh).
  destruct (newMmapArena_inv ptr _ a Hptr Hcap Hend Hnew) as (Hai & HA & HB).
  assert (arenas_ m !! ptr = None) as Hnone.
  { apply eq_None_not_Some. intros H. specialize (Hfresh ptr H). lia. }
  split; [done|]. split; [|done]. split; simpl.
  - apply Hinv.
  - rewrite lookup_insert_eq. by eexists.
  - intros at_ x. rewrite lookup_insert_Some. intros [[<- <-]|[_ Hx]]; [by rewrite (part_fresh m live ptr) | by apply (managed_arena _ _ Hinv)].
  - intros at_. rewrite lookup_insert_is_Some. intros [<-|[_ H]]; [lia | by apply (managed_region _ _ Hinv)].
  - intros x y. rewrite !lookup_insert_is_Some. intros [<-|[_ Hx]] [<-|[_ Hy]] Hlt; [lia | specialize (Hfresh y Hy); lia | specialize (Hfresh x Hx); lia|].
    by apply (managed_apart _ _ Hinv).
  - intros p b Hp. destruct (managed_covered _ _ Hinv p b Hp) as (at_ & Hat & Hr). exists at_. split; [|done].
    rewrite lookup_insert_is_Some. destruct (decide (ptr = at_)); auto.
Qed.

(** An allocation succeeds unless it is, rounded, larger than an arena. *)
Lemma managedAllocate_inv m live ptr bytes :
  managedInv m live → freshRegion m ptr → 1 ≤ bytes ≤ 2 ^ 63 →
  ∃ m' r, managedAllocate begin (Some ptr) bytes m = Ok (m', r) ∧ managedInv m' (held live r bytes) ∧
    singleArenaCapacity_ m' = singleArenaCapacity_ m ∧
    match r with Some p => live !! p = None | None => singleArenaCapacity_ m < roundBytes bytes end.
Proof.
  intros Hinv Hf Hb. unfold managedAllocate.
  destruct (allocateFrom_inv m live _ bytes Hinv (managed_current _ _ Hinv) Hb) as (m1 & r & -> & Hinv1 & Hcap1 & Hdom1 & Hr). cbn [mbind outcome_bind].
  destruct r as [p|]; [by exists m1, (Some p)|]. destruct Hr as [-> _].
  destruct (newMmapArena_Ok ptr (singleArenaCapacity_ m)) as [a Ha]; [by destruct Hf | apply Hinv|].
  destruct (managed_grow m live ptr a Hinv Hf Ha) as (Hnone & Hinv2 & HA). rewrite Ha. cbn [mbind outcome_bind]. rewrite HA, bool_decide_eq_true_2 by done.
  set (m2 := m <| arenas_ := <[ptr := a]> (arenas_ m) |> <| currentArena_ := ptr |>) in *.
  assert (arenas_ m2 !! ptr = Some a) as Hat by by apply lookup_insert_eq.
  destruct (allocateFrom_inv m2 live ptr bytes Hinv2 ltac:(by exists a) Hb) as (m3 & r & -> & Hinv3 & Hcap3 & _ & Hr).
  exists m3, r. split; [done|]. split; [done|]. split; [done|]. destruct r as [p|]; [done|]. destruct Hr as [_ Hno].
  destruct (Z.lt_ge_cases (singleArenaCapacity_ m) (roundBytes bytes)) as [|Hle]; [done|]. exfalso. apply (Hno ptr a Hat).
  pose proof (managed_arena _ _ Hinv2 _ _ Hat) as (_ & _ & HB). split; [lia|]. split; [rewrite HB; simpl; lia|].
  intros p b. simpl singleArenaCapacity_. by rewrite (part_fresh m live ptr).
Qed.

(** A request for no bytes maps a further region and returns nothing. *)
Lemma managedAllocate_zero m live ptr :
  managedInv m live → freshRegion m ptr →
  ∃ m', managedAllocate begin (Some ptr) 0 m = Ok (m', None) ∧ managedInv m' live ∧
    singleArenaCapacity_ m' = singleArenaCapacity_ m ∧ currentArena_ m' = ptr.
Proof.
  intros Hinv Hf. unfold managedAllocate.
  assert (∀ m at_ a, arenas_ m !! at_ = Some a → allocateFrom begin at_ 0 m = Ok (m, None)) as Hzero.
  { intros m' at_ a Ha. unfold allocateFrom. rewrite Ha. cbn. rewrite insert_id by done. by destruct m'. }
  destruct (managed_current _ _ Hinv) as [c Hc]. rewrite (Hzero m _ c Hc). cbn [mbind outcome_bind].
  destruct (newMmapArena_Ok ptr (singleArenaCapacity_ m)) as [a Ha]; [by destruct Hf | apply Hinv|].
  destruct (managed_grow m live ptr a Hinv Hf Ha) as (Hnone & Hinv2 & HA). rewrite Ha. cbn [mbind outcome_bind]. rewrite HA, bool_decide_eq_true_2 by done.
  rewrite (Hzero _ ptr a) by by apply lookup_insert_eq. by eexists.
Qed.

(** A request above 2^63 bytes fails a check, at the latest in a new arena. *)
Lemma managedAllocate_huge m live ptr bytes :
  managedInv m live → freshRegion m ptr → 2 ^ 63 < bytes < 2 ^ 64 →
  managedAllocate begin (Some ptr) bytes m = Throw VeloxCheckFailed.
Proof.
  intros Hinv Hf Hb. unfold managedAllocate. destruct (managed_current _ _ Hinv) as [c Hc].
  pose proof (managed_arena _ _ Hinv _ _ Hc) as (Hci & _). 
  assert (allocateFrom begin (currentArena_ m) bytes m = if bool_decide (freeList_ c = ∅) then Ok (m, None) else Throw VeloxCheckFailed) as ->.
  { unfold allocateFrom. rewrite Hc, (allocate_huge begin begin_in c _ bytes Hci Hb). destruct (bool_decide _); [|done].
    cbn. rewrite insert_id by done. by destruct m. }
  destruct (bool_decide (freeList_ c = ∅)); [|done]. cbn [mbind outcome_bind].
  destruct (newMmapArena_Ok ptr (singleArenaCapacity_ m)) as [a Ha]; [by destruct Hf | apply Hinv|].
  destruct (managed_grow m live ptr a Hinv Hf Ha) as (Hnone & Hinv2 & HA). rewrite Ha. cbn [mbind outcome_bind]. rewrite HA, bool_decide_eq_true_2 by done.
  pose proof (managed_capacity _ _ Hinv) as [Hcap _]. destruct Hf as (Hptr & Hend & _).
  destruct (newMmapArena_inv ptr _ a Hptr Hcap Hend Ha) as (Hai & _ & HB).
  unfold allocateFrom. simpl arenas_. rewrite lookup_insert_eq, (allocate_huge begin begin_in a _ bytes Hai Hb).
  rewrite (inv_unused a Hai) by lia. by rewrite bool_decide_eq_false_2 by apply map_non_empty_singleton.
Qed.

(** The arena that is found is the one the block is in. *)
Lemma find_arena m live at_ p :
  managedInv m live → is_Some (arenas_ m !! at_) → at_ ≤ p < at_ + singleArenaCapacity_ m →
  (lower_bound (arenas_ m) p = Some p ∧ at_ = p) ∨ (lower_bound (arenas_ m) p ≠ Some p ∧ prevKey (arenas_ m) p = Some at_).
Proof.
  intros Hinv Hat Hp. pose proof (managed_capacity _ _ Hinv) as [Hcap _]. destruct (decide (p = at_)) as [->|Hne].
  - left. split; [|done]. pose proof (first_block_spec (arenas_ m) at_) as H. destruct (lower_bound _ _) as [q|].
    + destruct H as (_ & Hq & Hmin). specialize (Hmin at_ Hat ltac:(lia)). f_equal. lia.
    + specialize (H at_ Hat). lia.
  - right. split.
    + intros E. pose proof (first_block_spec (arenas_ m) p) as H. rewrite E in H. destruct H as [H _].
      apply Hne. symmetry. by apply (region_unique m live at_ p p Hinv Hat H); [|lia].
    + pose proof (prevKey_spec (arenas_ m) p) as H. destruct (prevKey _ _) as [q|]; [|specialize (H at_ Hat); lia].
      destruct H as (Hq & Hqp & Hmax). specialize (Hmax at_ Hat ltac:(lia)). f_equal. destruct (Z.eq_dec at_ q) as [|Hn]; [done|].
      pose proof (managed_apart _ _ Hinv at_ q Hat Hq ltac:(lia)). lia.
Qed.

Lemma sumBytes_positive (m : gmap Z Z) : map_Forall (λ _ x, 0 < x) m → 0 ≤ sumBytes m ∧ (sumBytes m = 0 → m = ∅).
Proof.
  induction m as [|k x m Hk IH] using map_ind; intros Hall; [by rewrite total_empty|]. rewrite total_insert by done.
  apply map_Forall_insert in Hall as [Hx Hall]; [|done]. destruct (IH Hall) as [? _]. lia.
Qed.

(** An arena whose bytes are all free holds no block. *)
Lemma empty_no_blocks a live : arenaInv a live → empty a = true → live = ∅.
Proof.
  intros Hai He%Z.eqb_eq. pose proof (inv_bytes _ _ Hai) as Hb. destruct Hai as (l & _ & _ & Hall).
  apply (fmap_empty_inv roundBytes), sumBytes_positive; [|lia]. intros p s Hs. rewrite lookup_fmap in Hs.
  destruct (live !! p) as [b|] eqn:E; [|done]. injection Hs as <-. specialize (Hall p b E). simpl in Hall. pose proof (roundBytes_range _ Hall). lia.
Qed.

(** An arena without blocks is given back. *)
Lemma managed_remove m live at_ :
  managedInv m live → is_Some (arenas_ m !! at_) → part (singleArenaCapacity_ m) at_ live = ∅ → at_ ≠ currentArena_ m →
  managedInv (m <| arenas_ := delete at_ (arenas_ m) |>) live.
Proof.
  intros Hinv Hat Hpart Hcur.
  assert (∀ at', is_Some (delete at_ (arenas_ m) !! at') ↔ at_ ≠ at' ∧ is_Some (arenas_ m !! at')) as Hdom by (intros; apply lookup_delete_is_Some).
  split; simpl.
  - apply Hinv.
  - apply Hdom. split; [done | apply Hinv].
  - intros at' x. rewrite lookup_delete_Some. intros [_ Hx]. by apply (managed_arena _ _ Hinv).
  - intros at' [_ H]%Hdom. by apply (managed_region _ _ Hinv).
  - intros x y [_ Hx]%Hdom [_ Hy]%Hdom. by apply (managed_apart _ _ Hinv).
  - intros p b Hp. destruct (managed_covered _ _ Hinv p b Hp) as (at' & Hat' & Hr). exists at'. split; [|done]. apply Hdom. split; [|done].
    intros <-. assert (part (singleArenaCapacity_ m) at_ live !! p = Some b) as E by (apply map_lookup_filter_Some; done).
    rewrite Hpart in E. done.
Qed.

Lemma managedFree_inv m live p bytes :
  managedInv m live → live !! p = Some bytes →
  ∃ m', managedFree p bytes m = Ok m' ∧ managedInv m' (delete p live) ∧ singleArenaCapacity_ m' = singleArenaCapacity_ m.
Proof.
  intros Hinv Hp. destruct (managed_covered _ _ Hinv p bytes Hp) as (at_ & [a Ha] & Hr).
  pose proof (managed_arena _ _ Hinv _ _ Ha) as (Hai & HA & HB). pose proof (managed_region _ _ Hinv at_ ltac:(by exists a)) as Hreg.
  assert (part (singleArenaCapacity_ m) at_ live !! p = Some bytes) as Hpart by (apply map_lookup_filter_Some; done).
  pose proof (inv_range _ _ _ _ Hai Hpart) as Hrange. rewrite HA, HB in Hrange.
  destruct (free_inv a _ p bytes Hai Hpart) as (a' & Hfree & Hai' & HA' & HB').
  assert (managedInv (m <| arenas_ := <[at_ := a']> (arenas_ m) |>) (delete p live)) as Hinv'.
  { apply (managed_update m live _ at_ a); try done.
    - by rewrite part_delete.
    - intros at' Hne Hat'. rewrite part_delete. apply part_outside. intros Hreg'. apply Hne.
      apply (region_unique m live _ _ p Hinv); [done | by exists a | done | done].
    - intros q b. rewrite lookup_delete_Some. intros [_ Hq]. left. by exists b. }
  unfold managedFree. rewrite (bool_decide_eq_false_2 (arenas_ m = ∅)) by (intros E; by rewrite E in Ha). cbn [negb velox_check mbind outcome_bind].
  assert ((if bool_decide (lower_bound (arenas_ m) p = Some p) then Ok p else match prevKey (arenas_ m) p with
    | Some at_ => _ ← velox_check (uwrap 64 (p + bytes) <=? uwrap 64 (at_ + singleArenaCapacity_ m)); Ok at_
    | None => Throw VeloxCheckFailed end) = Ok at_) as ->.
  { destruct (find_arena m live at_ p Hinv ltac:(by exists a) Hr) as [[E ->]|[E ->]]; [by rewrite bool_decide_eq_true_2|].
    rewrite bool_decide_eq_false_2 by done. rewrite !uwrap64 by lia. by rewrite (proj2 (Z.leb_le _ _)) by lia. }
  cbn [mbind outcome_bind]. rewrite Ha, Hfree. cbn [mbind outcome_bind]. destruct (empty a') eqn:He; [|by eexists].
  destruct (Z.eqb_spec at_ (currentArena_ m)); [by eexists|]. cbn. eexists. split; [done|]. split; [|done].
  replace (delete at_ (arenas_ m)) with (delete at_ (<[at_ := a']> (arenas_ m))) by apply delete_insert_eq.
  apply (managed_remove (m <| arenas_ := <[at_ := a']> (arenas_ m) |>) (delete p live) at_ Hinv'); simpl; [by rewrite lookup_insert_eq | | done].
  rewrite part_delete. by apply (empty_no_blocks a').
Qed.

(** ** The transition system *)
Inductive managedStep : ManagedMmapArenas * gmap Z Z → ManagedMmapArenas * gmap Z Z → Prop :=
| managed_allocates m live ptr bytes m' r :
    0 ≤ bytes ≤ 2 ^ 63 → freshRegion m ptr → managedAllocate begin (Some ptr) bytes m = Ok (m', r) →
    managedStep (m, live) (m', held live r bytes)
| managed_frees m live p bytes m' :
    live !! p = Some bytes → managedFree p bytes m = Ok m' → managedStep (m, live) (m', delete p live).

Definition managedReach (ptr capacity : Z) : ManagedMmapArenas * gmap Z Z → Prop :=
  λ s, ∃ m, newManagedMmapArenas (Some ptr) capacity = Ok m ∧ rtc managedStep (m, ∅) s.

Lemma managedStep_inv s s' : managedStep s s' → managedInv s.1 s.2 →
  managedInv s'.1 s'.2 ∧ singleArenaCapacity_ s'.1 = singleArenaCapacity_ s.1.
Proof.
  destruct 1 as [m live ptr bytes m' r Hb Hf Ha|m live p bytes m' Hp Ha]; intros Hinv; simpl in *.
  - destruct (Z.eq_dec bytes 0) as [->|].
    { destruct (managedAllocate_zero m live ptr Hinv Hf) as (m2 & E & H & HC & _). rewrite Ha in E. by injection E as <- ->. }
    destruct (managedAllocate_inv m live ptr bytes Hinv Hf ltac:(lia)) as (m2 & r2 & E & H & HC & _). rewrite Ha in E. by injection E as <- <-.
  - destruct (managedFree_inv m live p bytes Hinv Hp) as (m2 & E & H & HC). rewrite Ha in E. by injection E as <-.
Qed.

Lemma newManaged_inv ptr capacity m :
  0 < ptr → 0 < capacity → ptr + capacity < 2 ^ 64 → newManagedMmapArenas (Some ptr) capacity = Ok m →
  managedInv m ∅ ∧ singleArenaCapacity_ m = capacity.
Proof.
  intros Hptr Hcap Hend H. unfold newManagedMmapArenas in H. inv_bind. subst m.
  pose proof Ha as Hgrain. unfold newMmapArena in Hgrain. apply bind_Ok_inv in Hgrain as (u & Hu%velox_check_Ok%Z.eqb_eq & _).
  destruct (newMmapArena_inv ptr capacity a Hptr Hcap Hend Ha) as (Hai & HA & HB). split; [|done].
  assert (∀ at_, is_Some (({[address_ a := a]} : gmap Z MmapArena) !! at_) ↔ at_ = ptr) as Hdom.
  { intros at_. rewrite HA. split; [intros [x [-> _]%lookup_singleton_Some]; done | intros ->; by rewrite lookup_singleton_eq]. }
  split; simpl.
  - done.
  - apply Hdom. by rewrite HA.
  - intros at_ x [<- <-]%lookup_singleton_Some. unfold part. by rewrite map_filter_empty.
  - intros at_ ->%Hdom. lia.
  - intros x y ->%Hdom ->%Hdom. lia.
  - done.
Qed.

Lemma managedReach_inv ptr capacity s : 0 < ptr → 0 < capacity → ptr + capacity < 2 ^ 64 → managedReach ptr capacity s →
  managedInv s.1 s.2 ∧ singleArenaCapacity_ s.1 = capacity.
Proof.
  intros Hptr Hcap Hend (m & Hm & Hsteps). apply (newManaged_inv ptr capacity m) in Hm; [|done..].
  set (P := λ s, managedInv s.1 s.2 ∧ singleArenaCapacity_ s.1 = capacity).
  assert (P (m, ∅)) as HP by done. clear Hm. change (P s). induction Hsteps as [|s1 s2 s3 Hstep _ IH]; [done|]. apply IH.
  destruct HP as [Hinv HC]. destruct (managedStep_inv _ _ Hstep Hinv) as [? ?]. split; [done | congruence].
Qed.
End Client.

(** ** What clients get *)
Lemma managed_disjoint m live p q b c :
  managedInv m live → live !! p = Some b → live !! q = Some c → p < q → p + roundBytes b ≤ q.
Proof.
  intros Hinv Hp Hq Hlt. destruct (managed_covered _ _ Hinv p b Hp) as (x & [a Ha] & Hx), (managed_covered _ _ Hinv q c Hq) as (y & [a' Ha'] & Hy).
  pose proof (managed_arena _ _ Hinv _ _ Ha) as (Hai & HA & HB).
  assert (part (singleArenaCapacity_ m) x live !! p = Some b) as Hpart by (apply map_lookup_filter_Some; done).
  destruct (decide (x = y)) as [<-|Hne].
  - assert (part (singleArenaCapacity_ m) x live !! q = Some c) as Hq' by (apply map_lookup_filter_Some; done). by eapply inv_disjoint.
  - pose proof (inv_range _ _ _ _ Hai Hpart). pose proof (managed_apart _ _ Hinv x y ltac:(by exists a) ltac:(by exists a')).
    pose proof (managed_apart _ _ Hinv y x ltac:(by exists a') ltac:(by exists a)). lia.
Qed.

Lemma managed_fits m live p b : managedInv m live → live !! p = Some b → roundBytes b ≤ singleArenaCapacity_ m.
Proof.
  intros Hinv Hp. destruct (managed_covered _ _ Hinv p b Hp) as (x & [a Ha] & Hx). pose proof (managed_arena _ _ Hinv _ _ Ha) as (Hai & HA & HB).
  assert (part (singleArenaCapacity_ m) x live !! p = Some b) as Hpart by (apply map_lookup_filter_Some; done).
  pose proof (inv_range _ _ _ _ Hai Hpart). lia.
Qed.

(** C12: In every state a client can bring a set of arenas into, the blocks it
    holds do not overlap, whichever arena they are from.  When the system maps
    a further region if it is asked to, a request for up to 2^63 bytes returns a
    null pointer exactly when the next power of two, to which it is rounded, is
    larger than an arena (also when the bytes asked for are not), and otherwise
    a block that overlaps none that is held; a request for no bytes returns a
    null pointer and leaves a further region behind; one for more than 2^63
    bytes fails a check.  Every block that is held can be freed. *)
Theorem managed_arenas begin ptr capacity m live :
  (∀ X, X ≠ ∅ → begin X ∈ X) → 0 < ptr → 0 < capacity → ptr + capacity < 2 ^ 64 → managedReach begin ptr capacity (m, live) →
  (∀ p q b c, live !! p = Some b → live !! q = Some c → p < q → p + roundBytes b ≤ q) ∧
  (∀ bytes region, 1 ≤ bytes ≤ 2 ^ 63 → freshRegion m region →
     (∃ k, 0 ≤ k ≤ 63 ∧ roundBytes bytes = 2 ^ k ∧ bytes ≤ 2 ^ k < 2 * bytes) ∧
     ∃ m' r, managedAllocate begin (Some region) bytes m = Ok (m', r) ∧ (r = None ↔ capacity < roundBytes bytes) ∧
       ∀ p q b, r = Some p → live !! q = Some b → q + roundBytes b ≤ p ∨ p + roundBytes bytes ≤ q) ∧
  (∀ region, freshRegion m region → ∃ m', managedAllocate begin (Some region) 0 m = Ok (m', None) ∧ currentArena_ m' = region) ∧
  (∀ bytes region, 2 ^ 63 < bytes < 2 ^ 64 → freshRegion m region →
     managedAllocate begin (Some region) bytes m = Throw VeloxCheckFailed) ∧
  ∀ p bytes, live !! p = Some bytes → ∃ m', managedFree p bytes m = Ok m'.
Proof.
  intros Hbegin Hptr Hcap Hend Hreach. destruct (managedReach_inv begin Hbegin _ _ _ Hptr Hcap Hend Hreach) as (Hinv & HC). simpl in *.
  split_and!.
  - intros p q b c. by apply (managed_disjoint m live).
  - intros bytes region Hb Hf. split; [by apply nextPowerOfTwo_spec|].
    destruct (managedAllocate_inv begin Hbegin m live region bytes Hinv Hf Hb) as (m' & r & E & Hinv' & HC' & Hr).
    exists m', r. split; [done|]. destruct r as [p|]; simpl in *; [|split; [naive_solver lia | done]].
    assert (<[p := bytes]> live !! p = Some bytes) as Hp by by rewrite lookup_insert_eq.
    pose proof (managed_fits _ _ _ _ Hinv' Hp). split; [split; [done | lia]|]. intros p' q b [= <-] Hq.
    assert (p ≠ q) as Hne by (intros ->; congruence). assert (<[p := bytes]> live !! q = Some b) as Hq' by by rewrite lookup_insert_ne.
    destruct (Z.lt_ge_cases q p); [left; by apply (managed_disjoint m' _ q p b bytes Hinv') | right; apply (managed_disjoint m' _ p q bytes b Hinv'); [done | done | lia]].
  - intros region Hf. destruct (managedAllocate_zero begin m live region Hinv Hf) as (m' & E & _ & _ & Hcur). by exists m'.
  - intros bytes region Hb Hf. by apply (managedAllocate_huge begin Hbegin m live).
  - intros p bytes Hp. destruct (managedFree_inv m live p bytes Hinv Hp) as (m' & E & _). by exists m'.
Qed.

(** Two regions of one block each. *)
Definition okManaged (o : outcome ManagedMmapArenas) : ManagedMmapArenas := match o with Ok m => m | _ => mkManaged 0 ∅ 0 end.
Definition managedNew : ManagedMmapArenas := okManaged (newManagedMmapArenas (Some 4096) 1048576).
Definition managedOne : ManagedMmapArenas := okManaged (fst <$> managedAllocate anyOf (Some 4194304) 1000000 managedNew).
Definition managedTwo : ManagedMmapArenas := okManaged (fst <$> managedAllocate anyOf (Some 4194304) 1000000 managedOne).

Lemma sample_fresh m region : singleArenaCapacity_ m = 1048576 → arenas_ m = {[4096 := default sampleNew (arenas_ m !! 4096)]} →
  4194304 ≤ region ≤ 8388608 → freshRegion m region.
Proof.
  intros HC HA Hr. unfold freshRegion. rewrite HC. split; [lia|]. split; [lia|]. intros at_. rewrite HA. intros [x [<- _]%lookup_singleton_Some]. lia.
Qed.

Lemma managed_sample : managedReach anyOf 4096 1048576 (managedTwo, {[4096 := 1000000; 4194304 := 1000000]}).
Proof.
  exists managedNew. split; [by vm_compute|].
  eapply rtc_l; [apply (managed_allocates anyOf managedNew ∅ 4194304 1000000 managedOne (Some 4096)); [lia | | by vm_compute]|].
  { apply sample_fresh; [by vm_compute | by vm_compute | lia]. }
  eapply rtc_l; [apply (managed_allocates anyOf managedOne _ 4194304 1000000 managedTwo (Some 4194304)); [lia | | by vm_compute]|].
  { apply sample_fresh; [by vm_compute | by vm_compute | lia]. }
  assert (held (held ∅ (Some 4096) 1000000) (Some 4194304) 1000000 = {[4096 := 1000000; 4194304 := 1000000]}) as -> by by vm_compute.
  apply rtc_refl.
Qed.

Lemma managed_arenas_witness : 4096 + roundBytes 1000000 ≤ 4194304 ∧ ∃ m', managedFree 4096 1000000 managedTwo = Ok m'.
Proof.
  destruct (managed_arenas anyOf 4096 1048576 managedTwo _ anyOf_in ltac:(lia) ltac:(lia) ltac:(lia) managed_sample) as (H1 & _ & _ & _ & H3).
  split; [apply (H1 4096 4194304 1000000 1000000); [reflexivity | reflexivity | lia] | apply (H3 4096 1000000); reflexivity].
Defined.

(** A request that is larger than an arena, and a request for no bytes, map a
    further region each time and make it the current one; the arena before it,
    which holds nothing, is not given back. *)
Theorem unusable_regions :
  (∃ m, managedAllocate anyOf (Some 4194304) 2000000 managedNew = Ok (m, None) ∧ keys (arenas_ m) = [4194304; 4096] ∧
     currentArena_ m = 4194304 ∧ map_Forall (λ _ a, empty a = true) (arenas_ m)) ∧
  ∃ m, managedAllocate anyOf (Some 4194304) 0 managedNew = Ok (m, None) ∧ keys (arenas_ m) = [4194304; 4096] ∧ currentArena_ m = 4194304.
Proof.
  split; eexists; (split; [by vm_compute|]); (split; [by vm_compute|]); [split; [by vm_compute|] | by vm_compute].
  apply map_Forall_to_list. vm_compute. by repeat constructor.
Qed.

(** An arena of 3 MB does not serve a request for 2.5 MB: the comment in
    [ManagedMmapArenas::allocate] says that the second attempt fails only for a
    request larger than an arena. *)
Theorem rounded_request_fails :
  (m ← newManagedMmapArenas (Some 4096) 3145728; '(_, result) ← managedAllocate anyOf (Some 16777216) 2621440 m; Ok result) = Ok None.
Proof. by vm_compute. Qed.

(** A request for more than 2^63 bytes is rounded to none: it does not return a
    null pointer but fails a check. *)
Theorem huge_request_fails : allocate anyOf (2 ^ 63 + 1) sampleNew = Throw VeloxCheckFailed.
Proof. by vm_compute. Qed.
