(* ===== verification/Arbitrator.v ===== *)
(** * Memory arbitration

    Models [velox/exec/SharedArbitrator]: capacity is moved between the root
    pools of queries.  The state holds the arbitrator and the pools; a function
    that throws keeps the state it has reached.  What other threads do between
    two accesses, and the code of the queries that reclaims their memory, are
    parameters. *)
From S2P Require Import Prelude MemoryPool.
Local Open Scope Z_scope.

Record World := mkWorld {
  nodeCapacity_ : Z;
  memoryPoolTransferCapacity_ : Z;
  freeCapacity_ : Z;
  running_ : bool;
  waitPromises_ : list nat;
  numRequests_ : Z;
  numSucceeded_ : Z;
  numAborted_ : Z;
  numFailures_ : Z;
  numShrunkBytes_ : Z;
  numReclaimedBytes_ : Z;
  numNonReclaimableAttempts_ : Z;
  arbNumReserves_ : Z;
  arbNumReleases_ : Z;
  (** The root pools, by their number, and the number of accesses so far. *)
  roots_ : gmap nat MemoryPoolImpl;
  clock_ : nat }.
#[global] Instance World_copy : Copyable World := λ w,
  mkWorld (nodeCapacity_ w) (memoryPoolTransferCapacity_ w) (freeCapacity_ w) (running_ w) (waitPromises_ w)
    (numRequests_ w) (numSucceeded_ w) (numAborted_ w) (numFailures_ w) (numShrunkBytes_ w) (numReclaimedBytes_ w)
    (numNonReclaimableAttempts_ w) (arbNumReserves_ w) (arbNumReleases_ w) (roots_ w) (clock_ w).

Definition newSharedArbitrator (capacity memoryPoolTransferCapacity : Z) : World :=
  mkWorld capacity memoryPoolTransferCapacity capacity false [] 0 0 0 0 0 0 0 0 0 ∅ 0.

(** ** Functions that throw *)
Definition M (A : Type) : Type := World → outcome (World * (A + exn)).

#[global] Instance M_ret : MRet M := λ A a w, Ok (w, inl a).
#[global] Instance M_bind : MBind M := λ A B f m w,
  match m w with
  | Ok (w, inl a) => f a w
  | Ok (w, inr e) => Ok (w, inr e)
  | Throw e => Throw e
  | Undefined => Undefined
  end.

Definition raise {A} (e : exn) : M A := λ w, Ok (w, inr e).
Definition check (b : bool) : M unit := if b then mret tt else raise VeloxCheckFailed.
Definition modify (f : World → World) : M unit := λ w, Ok (f w, inl tt).
Definition gets {A} (f : World → A) : M A := λ w, Ok (w, inl (f w)).

(** [try]: the exception is a value. *)
Definition attempt {A} (m : M A) : M (A + exn) := λ w,
  match m w with Ok (w, r) => Ok (w, inl r) | Throw e => Throw e | Undefined => Undefined end.

(** An exception that leaves a [noexcept] function ends the process. *)
Definition noexcept {A} (m : M A) : M A := λ w,
  match m w with
  | Ok (w, inr _) => Throw (FatalLog "std::terminate")
  | r => r
  end.

(** [VELOX_MEM_POOL_ABORTED]. *)
Definition poolAbortedError : exn := RuntimeError "MEM_ABORTED".

Section Arbitration.
(** What other threads do before the access with the given number. *)
Variable interfere : nat → World → World.

(** The reclaimers of the queries: what they offer, what a call to reclaim does
    to their pool, how many attempts it could not make and whether it throws,
    and what they do when they are aborted. *)
Variable reclaimableOf : nat → nat → MemoryPoolImpl → option Z.
Variable reclaimPool : nat → nat → Z → MemoryPoolImpl → MemoryPoolImpl * Z * option exn.
Variable abortPool : nat → nat → MemoryPoolImpl → MemoryPoolImpl.

Definition tick : M nat := λ w,
  let w := interfere (clock_ w) w in
  Ok (w <| clock_ := S (clock_ w) |>, inl (clock_ w)).

(** ** The functions of [MemoryPool] on a root pool *)
Definition changeRoot {A} (id : nat) (f : MemoryPoolImpl → MemoryPoolImpl * outcome A) : M A := λ w,
  match roots_ w !! id with
  | None => Undefined
  | Some p =>
      let '(p, r) := f p in
      let w := w <| roots_ := <[id := p]> (roots_ w) |> in
      match r with Ok a => Ok (w, inl a) | Throw e => Ok (w, inr e) | Undefined => Undefined end
  end.

Definition withRoot {A} (id : nat) (f : nat → MemoryPoolImpl → MemoryPoolImpl * outcome A) : M A :=
  now ← tick; changeRoot id (f now).

Definition update {A} (f : MemoryPoolImpl → outcome (A * MemoryPoolImpl)) (now : nat) (p : MemoryPoolImpl) : MemoryPoolImpl * outcome A :=
  match f p with Ok (a, p) => (p, Ok a) | Throw e => (p, Throw e) | Undefined => (p, Undefined) end.

Definition readRoot {A} (id : nat) (f : MemoryPoolImpl → A) : M A := withRoot id (λ _ p, (p, Ok (f p))).

Definition poolCapacity (id : nat) : M Z := readRoot id capacity_.
Definition poolAborted (id : nat) : M bool := readRoot id aborted_.
Definition poolShrink (id : nat) (targetBytes : Z) : M Z := withRoot id (update (shrinkRoot targetBytes)).
Definition poolGrow (id : nat) (bytes : Z) : M Z := noexcept (withRoot id (update (growRoot bytes))).

Definition rootFreeBytes (p : MemoryPoolImpl) : outcome Z :=
  if capacity_ p =? kMaxMemory then Ok 0
  else velox_check (capacity_ p >=? reservationBytes_ p) ;; sub64 (capacity_ p) (reservationBytes_ p).
Definition poolFreeBytes (id : nat) : M Z := withRoot id (λ _ p, (p, rootFreeBytes p)).

Definition poolReclaimableBytes (id : nat) : M (option Z) :=
  withRoot id (λ now p, (p, Ok (if reclaimer_ p then reclaimableOf now id p else None))).

(** The attempts that could not be made, and the exception thrown. *)
Definition poolReclaim (id : nat) (targetBytes : Z) : M (Z * option exn) :=
  withRoot id (λ now p,
    if reclaimer_ p then
      let '(p, attempts, e) := reclaimPool now id targetBytes p in (p, Ok (attempts, e))
    else (p, Ok (0, None))).

Definition poolAbort (id : nat) (error : exn) : M unit :=
  withRoot id (λ now p,
    match abortRoot error p with
    | Ok (_, p) => (abortPool now id p, Ok tt)
    | Throw e => (p, Throw e)
    | Undefined => (p, Undefined)
    end).

(** ** Free capacity *)
Definition maxGrowBytes (id : nat) : M Z := readRoot id (λ p, uwrap 64 (maxCapacity_ p - capacity_ p)).
Definition capacityAfterGrowth (id : nat) (targetBytes : Z) : M Z := readRoot id (λ p, uwrap 64 (capacity_ p + targetBytes)).

Definition decrementFreeCapacityLocked (bytes : Z) : M Z :=
  targetBytes ← gets (λ w, Z.min (freeCapacity_ w) bytes);
  free ← gets freeCapacity_;
  check (targetBytes <=? free) ;;
  modify (λ w, w <| freeCapacity_ := uwrap 64 (freeCapacity_ w - targetBytes) |>) ;;
  mret targetBytes.
Definition decrementFreeCapacity (bytes : Z) : M Z := tick ;; decrementFreeCapacityLocked bytes.

Definition incrementFreeCapacityLocked (bytes : Z) : M unit :=
  modify (λ w, w <| freeCapacity_ := uwrap 64 (freeCapacity_ w + bytes) |>) ;;
  over ← gets (λ w, nodeCapacity_ w <? freeCapacity_ w);
  if over : bool then raise VeloxFail else mret tt.
Definition incrementFreeCapacity (bytes : Z) : M unit := tick ;; incrementFreeCapacityLocked bytes.

(** [growCapacity] of a new pool, without arbitration. *)
Definition growNewPool (id : nat) (targetBytes : Z) : M Z :=
  room ← maxGrowBytes id;
  let bytesToReserve := Z.min (swrap 64 room) (swrap 64 targetBytes) in
  modify (λ w, w <| arbNumReserves_ := uwrap 64 (arbNumReserves_ w + 1) |>) ;;
  busy ← gets running_;
  if busy : bool then mret 0 else
  reserveBytes ← decrementFreeCapacityLocked (uwrap 64 bytesToReserve);
  poolGrow id reserveBytes ;;
  mret reserveBytes.

Definition shrinkCapacity (id : nat) (targetBytes : Z) : M Z :=
  modify (λ w, w <| arbNumReleases_ := uwrap 64 (arbNumReleases_ w + 1) |>) ;;
  freedBytes ← poolShrink id targetBytes;
  incrementFreeCapacityLocked freedBytes ;;
  mret freedBytes.

(** The destructor: all the capacity has to be back. *)
Definition destroySharedArbitrator (checkUsageLeak : bool) : M unit := noexcept (
  leak ← gets (λ w, negb (freeCapacity_ w =? nodeCapacity_ w));
  if leak && checkUsageLeak then raise VeloxFail else mret tt).

(** ** Candidates *)
Record Candidate := mkCandidate { reclaimable : bool; reclaimableBytes : Z; freeBytes : Z; pool : nat }.

Fixpoint getCandidateStats (pools : list nat) : M (list Candidate) :=
  match pools with
  | [] => mret []
  | id :: pools =>
      reclaimableBytesOpt ← poolReclaimableBytes id;
      free ← poolFreeBytes id;
      rest ← getCandidateStats pools;
      mret (mkCandidate (match reclaimableBytesOpt with Some _ => true | None => false end)
              (default 0 reclaimableBytesOpt) free id :: rest)
  end.

(** [std::sort]. *)
Variable sort : (Candidate → Candidate → bool) → list Candidate → list Candidate.

Definition byFreeCapacity (lhs rhs : Candidate) : bool := freeBytes rhs <? freeBytes lhs.
Definition byReclaimableMemory (lhs rhs : Candidate) : bool :=
  if negb (reclaimable lhs) then false
  else if negb (reclaimable rhs) then true
  else reclaimableBytes rhs <? reclaimableBytes lhs.

Definition sortCandidatesByFreeCapacity : list Candidate → list Candidate := sort byFreeCapacity.
Definition sortCandidatesByReclaimableMemory : list Candidate → list Candidate := sort byReclaimableMemory.

Fixpoint largestLoop (requestor : nat) (targetBytes : Z) (best : option (Candidate * Z)) (candidates : list Candidate) : M (option Candidate) :=
  match candidates with
  | [] => mret (fst <$> best)
  | c :: candidates =>
      let isCandidate := bool_decide (pool c = requestor) in
      current ← poolCapacity (pool c);
      let capacity := swrap 64 (current + (if isCandidate then targetBytes else 0)) in
      largestLoop requestor targetBytes
        (match best with
         | None => Some (c, capacity)
         | Some (b, maxCapacity) =>
             if capacity <? maxCapacity then best
             else if maxCapacity <? capacity then Some (c, capacity)
             else if isCandidate then Some (c, maxCapacity) else best
         end) candidates
  end.

Definition findCandidateWithLargestCapacity (requestor : nat) (targetBytes : Z) (candidates : list Candidate) : M Candidate :=
  check (negb (bool_decide (length candidates = 0%nat))) ;;
  best ← largestLoop requestor targetBytes None candidates;
  match best with Some c => mret c | None => raise VeloxCheckFailed end.

(** ** Reclaiming *)
Definition abort (id : nat) (error : exn) : M unit :=
  modify (λ w, w <| numAborted_ := uwrap 64 (numAborted_ w + 1) |>) ;;
  attempt (poolAbort id error) ;;
  isAborted ← poolAborted id;
  check isAborted.

(** The handler of [reclaim]. *)
Definition abortAndShrink (id : nat) (error : exn) : M unit :=
  abort id error ;;
  poolShrink id 0 ;;
  mret tt.

Definition reclaim (id : nat) (targetBytes : Z) : M Z := noexcept (
  oldCapacity ← poolCapacity id;
  shrunk ← attempt (poolShrink id targetBytes);
  freed ←
    match shrunk with
    | inr e => abortAndShrink id e ;; mret (0, 0)
    | inl freedBytes =>
        if freedBytes <? targetBytes then
          reclaimed ← poolReclaim id (targetBytes - freedBytes);
          match reclaimed.2 with
          | Some e => abortAndShrink id e ;; mret (freedBytes, reclaimed.1)
          | None => mret (freedBytes, reclaimed.1)
          end
        else mret (freedBytes, 0)
    end;
  let '(freedBytes, numNonReclaimableAttempts) := freed in
  newCapacity ← poolCapacity id;
  check (uwrap 64 newCapacity <=? uwrap 64 oldCapacity) ;;
  let reclaimedBytes := uwrap 64 oldCapacity - uwrap 64 newCapacity in
  modify (λ w, w <| numReclaimedBytes_ := uwrap 64 (numReclaimedBytes_ w + reclaimedBytes - freedBytes) |>
                 <| numShrunkBytes_ := uwrap 64 (numShrunkBytes_ w + freedBytes) |>
                 <| numNonReclaimableAttempts_ := uwrap 64 (numNonReclaimableAttempts_ w + numNonReclaimableAttempts) |>) ;;
  mret reclaimedBytes).

Fixpoint reclaimFreeLoop (candidates : list Candidate) (targetBytes freedBytes : Z) : M Z :=
  match candidates with
  | [] => mret freedBytes
  | c :: candidates =>
      check (freedBytes <? targetBytes) ;;
      if freeBytes c =? 0 then mret freedBytes else
      let bytesToShrink := Z.min (swrap 64 (targetBytes - freedBytes)) (swrap 64 (freeBytes c)) in
      if bytesToShrink <=? 0 then mret freedBytes else
      freed ← poolShrink (pool c) bytesToShrink;
      let freedBytes := uwrap 64 (freedBytes + freed) in
      if targetBytes <=? freedBytes then mret freedBytes
      else reclaimFreeLoop candidates targetBytes freedBytes
  end.

(** The candidates are sorted in place: the functions return them too. *)
Definition reclaimFreeMemoryFromCandidates (candidates : list Candidate) (targetBytes : Z) : M (Z * list Candidate) :=
  let candidates := sortCandidatesByFreeCapacity candidates in
  freedBytes ← reclaimFreeLoop candidates targetBytes 0;
  modify (λ w, w <| numShrunkBytes_ := uwrap 64 (numShrunkBytes_ w + freedBytes) |>) ;;
  mret (freedBytes, candidates).

Fixpoint reclaimUsedLoop (requestor : nat) (candidates : list Candidate) (targetBytes freedBytes : Z) : M Z :=
  match candidates with
  | [] => mret freedBytes
  | c :: candidates =>
      check (freedBytes <? targetBytes) ;;
      if negb (reclaimable c) || (reclaimableBytes c =? 0) then mret freedBytes else
      transfer ← gets memoryPoolTransferCapacity_;
      let bytesToReclaim := Z.max (swrap 64 (targetBytes - freedBytes)) (swrap 64 transfer) in
      check (0 <? bytesToReclaim) ;;
      freed ← reclaim (pool c) bytesToReclaim;
      let freedBytes := swrap 64 (freedBytes + freed) in
      isAborted ← (if targetBytes <=? freedBytes then mret true else poolAborted requestor);
      if isAborted : bool then mret freedBytes
      else reclaimUsedLoop requestor candidates targetBytes freedBytes
  end.

Definition reclaimUsedMemoryFromCandidates (requestor : nat) (candidates : list Candidate) (targetBytes : Z) : M (Z * list Candidate) :=
  let candidates := sortCandidatesByReclaimableMemory candidates in
  freedBytes ← reclaimUsedLoop requestor candidates targetBytes 0;
  mret (uwrap 64 freedBytes, candidates).

(** ** Arbitration *)
Definition checkCapacityGrowth (id : nat) (targetBytes : Z) : M bool :=
  room ← maxGrowBytes id;
  if targetBytes <=? room then
    after ← capacityAfterGrowth id targetBytes;
    gets (λ w, after <=? nodeCapacity_ w)
  else mret false.

Definition countFailure : M unit := modify (λ w, w <| numFailures_ := uwrap 64 (numFailures_ w + 1) |>).

(** Throws when the requestor has been aborted. *)
Definition failIfAborted (requestor : nat) : M unit :=
  isAborted ← poolAborted requestor;
  if isAborted : bool then countFailure ;; raise poolAbortedError else mret tt.

Definition ensureCapacity (requestor : nat) (targetBytes : Z) : M bool :=
  node ← gets nodeCapacity_;
  maxCapacity ← readRoot requestor maxCapacity_;
  if (node <? targetBytes) || (uwrap 64 maxCapacity <? targetBytes) then mret false else
  fits ← checkCapacityGrowth requestor targetBytes;
  if fits : bool then mret true else
  reclaimedBytes ← reclaim requestor targetBytes;
  incrementFreeCapacity reclaimedBytes ;;
  failIfAborted requestor ;;
  checkCapacityGrowth requestor targetBytes.

Definition handleOOM (requestor : nat) (targetBytes : Z) (candidates : list Candidate) : M bool :=
  victim ← findCandidateWithLargestCapacity requestor targetBytes candidates;
  if bool_decide (requestor = pool victim) then mret false else
  abort (pool victim) poolAbortedError ;;
  freed ← poolShrink (pool victim) 0;
  incrementFreeCapacity freed ;;
  mret true.

(** The guard of [arbitrateMemory]: what is left of the freed capacity goes
    back, also when the function throws. *)
Definition giveBack (freedBytes : Z) : M unit :=
  if 0 <? freedBytes then noexcept (incrementFreeCapacity freedBytes) else mret tt.

Definition guarded {A} (freedBytes : Z) (m : M A) : M A :=
  r ← attempt m;
  match r with
  | inl a => mret a
  | inr e => giveBack freedBytes ;; raise e
  end.

Definition growBy (requestor : nat) (growTarget freedBytes : Z) : M unit :=
  let bytesToGrow := Z.min growTarget freedBytes in
  poolGrow requestor bytesToGrow ;;
  giveBack (freedBytes - bytesToGrow).

Definition arbitrateMemory (requestor : nat) (candidates : list Candidate) (targetBytes : Z) : M (bool * list Candidate) :=
  isAborted ← poolAborted requestor;
  check (negb isAborted) ;;
  room ← maxGrowBytes requestor;
  transfer ← gets memoryPoolTransferCapacity_;
  let growTarget := Z.min room (Z.max transfer targetBytes) in
  freedBytes ← decrementFreeCapacity growTarget;
  if targetBytes <=? freedBytes then poolGrow requestor freedBytes ;; mret (true, candidates) else
  check (freedBytes <? growTarget) ;;
  freed ← guarded freedBytes (reclaimFreeMemoryFromCandidates candidates (growTarget - freedBytes));
  let '(more, candidates) := freed in
  let freedBytes := uwrap 64 (freedBytes + more) in
  if targetBytes <=? freedBytes then growBy requestor growTarget freedBytes ;; mret (true, candidates) else
  freed ← guarded freedBytes (check (freedBytes <? growTarget) ;;
                              reclaimUsedMemoryFromCandidates requestor candidates (growTarget - freedBytes));
  let '(more, candidates) := freed in
  let freedBytes := uwrap 64 (freedBytes + more) in
  guarded freedBytes (failIfAborted requestor) ;;
  guarded freedBytes (isAborted ← poolAborted requestor; check (negb isAborted)) ;;
  if freedBytes <? targetBytes then giveBack freedBytes ;; mret (false, candidates) else
  growBy requestor growTarget freedBytes ;; mret (true, candidates).

(** [growCapacity] between the start and the end of the arbitration: at most
    one retry. *)
Fixpoint arbitrateLoop (retries : nat) (requestor : nat) (candidatePools : list nat) (targetBytes : Z) : M bool :=
  candidates ← getCandidateStats candidatePools;
  arbitrated ← arbitrateMemory requestor candidates targetBytes;
  let '(done, candidates) := arbitrated in
  if done : bool then
    modify (λ w, w <| numSucceeded_ := uwrap 64 (numSucceeded_ w + 1) |>) ;; mret true
  else
    match retries with
    | O => countFailure ;; mret false
    | S retries =>
        isAborted ← poolAborted requestor;
        check (negb isAborted) ;;
        freed ← handleOOM requestor targetBytes candidates;
        if freed : bool then arbitrateLoop retries requestor candidatePools targetBytes
        else countFailure ;; mret false
    end.

Definition growWithArbitration (requestor : nat) (candidatePools : list nat) (targetBytes : Z) : M bool :=
  failIfAborted requestor ;;
  ensured ← ensureCapacity requestor targetBytes;
  if negb ensured then countFailure ;; mret false
  else arbitrateLoop 1 requestor candidatePools targetBytes.

(** ** Requests, one after another *)

(** True when the request has to wait.  Before it [enterArbitration], and when
    the request is over [leaveArbitration], call the reclaimer of the pool,
    which is code of the query: by default it does nothing, and what it does
    is one of the steps of other threads. *)
Definition startArbitration (request : nat) : M bool :=
  tick ;;
  modify (λ w, w <| numRequests_ := uwrap 64 (numRequests_ w + 1) |>) ;;
  busy ← gets running_;
  if busy : bool then
    modify (λ w, w <| waitPromises_ := waitPromises_ w ++ [request] |>) ;; mret true
  else
    idle ← gets (λ w, bool_decide (waitPromises_ w = []));
    check idle ;;
    modify (λ w, w <| running_ := true |>) ;; mret false.

(** The request that is resumed. *)
Definition finishArbitration : M (option nat) :=
  tick ;;
  busy ← gets running_;
  check busy ;;
  next ← gets (λ w, last (waitPromises_ w));
  match next with
  | Some request => modify (λ w, w <| waitPromises_ := removelast (waitPromises_ w) |>) ;; mret (Some request)
  | None => modify (λ w, w <| running_ := false |>) ;; mret None
  end.

(** A request that does not wait, or has been resumed: the check of the caller's
    state, the arbitration, and its end in the destructor, which is not run
    when the constructor has thrown. *)
Definition growCapacity (stateCheck : option exn) (requestor : nat) (candidatePools : list nat) (targetBytes : Z) : M bool :=
  match stateCheck with
  | Some e => raise e
  | None =>
      r ← attempt (growWithArbitration requestor candidatePools targetBytes);
      noexcept finishArbitration ;;
      match r with inl b => mret b | inr e => raise e end
  end.
End Arbitration.
