(* ===== verification/ArbitratorState.v ===== *)
(** * Memory arbitration: a program logic and what holds between accesses

    [wp m Q E w]: from [w] the function [m] returns a value that satisfies [Q]
    or throws an exception that satisfies [E]; it neither ends the process nor
    leaves the defined behaviour. *)
From S2P Require Import Prelude MemoryPool Arbitrator.
Local Open Scope Z_scope.

Definition wp {A} (m : M A) (Q : A → World → Prop) (E : exn → World → Prop) (w : World) : Prop :=
  ∃ w' r, m w = Ok (w', r) ∧ match r with inl a => Q a w' | inr e => E e w' end.

Section Rules.
Context {A B : Type}.
Implicit Types (E : exn → World → Prop).

Lemma wp_ret (a : A) (Q : A → World → Prop) E w : Q a w → wp (mret a) Q E w.
Proof. intros H. by exists w, (inl a). Qed.

Lemma wp_raise e (Q : A → World → Prop) E w : E e w → wp (raise e) Q E w.
Proof. intros H. by exists w, (inr e). Qed.

Lemma wp_mono (m : M A) (Q Q' : A → World → Prop) E E' w :
  wp m Q E w → (∀ a w', Q a w' → Q' a w') → (∀ e w', E e w' → E' e w') → wp m Q' E' w.
Proof. intros (w' & r & Hm & H) HQ HE. exists w', r. split; [done|]. destruct r; auto. Qed.

Lemma wp_bind (m : M A) (f : A → M B) Q E w : wp m (λ a w', wp (f a) Q E w') E w → wp (m ≫= f) Q E w.
Proof.
  intros (w' & [a|e] & Hm & H).
  - destruct H as (w'' & r & Hf & H). exists w'', r. unfold mbind, M_bind. by rewrite Hm.
  - exists w', (inr e). unfold mbind, M_bind. by rewrite Hm.
Qed.

Lemma wp_attempt (m : M A) Q E w : wp m (λ a, Q (inl a)) (λ e, Q (inr e)) w → wp (attempt m) Q E w.
Proof. intros (w' & r & Hm & H). exists w', (inl r). unfold attempt. rewrite Hm. by destruct r. Qed.

Lemma wp_noexcept (m : M A) Q E w : wp m Q (λ _ _, False) w → wp (noexcept m) Q E w.
Proof. intros (w' & [a|e] & Hm & H); [|done]. exists w', (inl a). unfold noexcept. by rewrite Hm. Qed.

Lemma wp_check b (Q : unit → World → Prop) E w : b = true → Q tt w → wp (check b) Q E w.
Proof. intros -> H. by exists w, (inl tt). Qed.

Lemma wp_modify f (Q : unit → World → Prop) E w : Q tt (f w) → wp (modify f) Q E w.
Proof. intros H. by exists (f w), (inl tt). Qed.

Lemma wp_gets (f : World → A) Q E w : Q (f w) w → wp (gets f) Q E w.
Proof. intros H. by exists w, (inl (f w)). Qed.
End Rules.

(** Runs the next function, whose result is described by [H]. *)
Tactic Notation "wp_step" uconstr(H) "as" simple_intropattern(a) simple_intropattern(w) simple_intropattern(p) :=
  eapply wp_bind, wp_mono; [eapply H; eauto | simpl; intros a w p | try done].

(** ** The state between accesses *)

(** A pool of a query: it is not overused and has a reclaimer. *)
Definition wfPool (p : MemoryPoolImpl) : Prop :=
  0 ≤ reservationBytes_ p ≤ capacity_ p ∧ capacity_ p ≤ maxCapacity_ p ≤ kMaxMemory ∧ reclaimer_ p = true.

Abbreviation capacities := (total (λ _ p, capacity_ p)).

(** The capacity of the node is the free capacity, the capacity of the pools,
    and what the running arbitration holds. *)
Record conserved (held : Z) (w : World) : Prop := {
  conserved_node : 0 ≤ nodeCapacity_ w < kMaxMemory;
  conserved_transfer : 0 ≤ memoryPoolTransferCapacity_ w < 2 ^ 63;
  conserved_free : 0 ≤ freeCapacity_ w;
  conserved_held : 0 ≤ held;
  conserved_pools : map_Forall (λ _ p, wfPool p) (roots_ w);
  conserved_sum : freeCapacity_ w + capacities (roots_ w) + held = nodeCapacity_ w }.

Lemma conserved_bounds h w : conserved h w → 0 ≤ capacities (roots_ w) ∧ freeCapacity_ w ≤ nodeCapacity_ w ∧ h ≤ nodeCapacity_ w.
Proof.
  intros [Hn Ht Hf Hh Hp Hs]. assert (0 ≤ capacities (roots_ w)); [|lia]. apply total_nonneg. intros i p Hi. specialize (Hp i p Hi). destruct Hp. lia.
Qed.

Lemma conserved_capacity h w id p : conserved h w → roots_ w !! id = Some p → wfPool p ∧ capacity_ p + h ≤ nodeCapacity_ w < kMaxMemory.
Proof.
  intros [Hn Ht Hf Hh Hp Hs] Hi. split; [by apply (Hp id)|]. assert (capacity_ p ≤ capacities (roots_ w)); [|lia].
  apply (total_ge (λ _ p, capacity_ p) (roots_ w) id); [|done]. intros j q Hj. specialize (Hp j q Hj). destruct Hp. lia.
Qed.

(** A pool changes, and what is held changes with its capacity. *)
Lemma conserved_update h w id p p' : conserved h w → roots_ w !! id = Some p → wfPool p' → 0 ≤ h + (capacity_ p - capacity_ p') →
  conserved (h + (capacity_ p - capacity_ p')) (w <| roots_ := <[id := p']> (roots_ w) |>).
Proof.
  intros [Hn Ht Hf Hh Hp Hs] Hi Hp' Hnn. split; simpl; try done.
  - by apply map_Forall_insert_2.
  - rewrite (total_update _ _ _ _ _ Hi). lia.
Qed.

(** ** What other threads may do

    They may use their pools, and give the capacity of pools that take no part
    in the arbitration back to the arbitrator. *)
Record rely (parties : list nat) (w w' : World) : Prop := {
  rely_node : nodeCapacity_ w' = nodeCapacity_ w;
  rely_transfer : memoryPoolTransferCapacity_ w' = memoryPoolTransferCapacity_ w;
  rely_running : running_ w = true → running_ w' = true;
  rely_free : 0 ≤ freeCapacity_ w → 0 ≤ freeCapacity_ w';
  rely_sum : freeCapacity_ w' + capacities (roots_ w') = freeCapacity_ w + capacities (roots_ w);
  rely_pools : map_Forall (λ _ p, wfPool p) (roots_ w) → map_Forall (λ _ p, wfPool p) (roots_ w');
  rely_parties id p : id ∈ parties → roots_ w !! id = Some p → ∃ p', roots_ w' !! id = Some p' ∧
    capacity_ p' = capacity_ p ∧ maxCapacity_ p' = maxCapacity_ p ∧ aborted_ p' = aborted_ p }.

Lemma rely_refl parties w : rely parties w w.
Proof. split; try done. intros id p _ H. by exists p. Qed.

Lemma rely_conserved parties h w w' : rely parties w w' → conserved h w → conserved h w'.
Proof.
  intros [Hn Ht _ Hf Hs Hp _] [Kn Kt Kf Kh Kp Ks]. split; rewrite ?Hn, ?Ht; auto. lia.
Qed.
