(* ===== verification/ArbitratorCorrect.v ===== *)
(** * Memory arbitration: no capacity is lost *)
From S2P Require Import Prelude MemoryPool Arbitrator ArbitratorState.
Local Open Scope Z_scope.

(** What the reclaimers of the queries promise: they change the use of their
    pool, and lower its capacity at most. *)
Class ReclaimerLaws (reclaimPool : nat → nat → Z → MemoryPoolImpl → MemoryPoolImpl * Z * option exn)
    (abortPool : nat → nat → MemoryPoolImpl → MemoryPoolImpl) : Prop := {
  reclaim_law now id target p : wfPool p → let p' := (reclaimPool now id target p).1.1 in
    wfPool p' ∧ capacity_ p' ≤ capacity_ p ∧ maxCapacity_ p' = maxCapacity_ p ∧ aborted_ p' = aborted_ p;
  abort_law now id p : wfPool p → let p' := abortPool now id p in
    wfPool p' ∧ capacity_ p' = capacity_ p ∧ maxCapacity_ p' = maxCapacity_ p ∧ aborted_ p' = aborted_ p }.

(** ** One pool *)
Lemma wfPool_capacity p c : wfPool p → reservationBytes_ p ≤ c ≤ maxCapacity_ p → wfPool (p <| capacity_ := c |>).
Proof. intros (Hr & Hm & Hrec) Hc. unfold wfPool. simpl. split_and!; (lia || done). Qed.

Lemma shrinkRoot_spec t p : wfPool p → capacity_ p < kMaxMemory → 0 ≤ t →
  ∃ f, shrinkRoot t p = Ok (f, p <| capacity_ := capacity_ p - f |>) ∧ 0 ≤ f ≤ capacity_ p - reservationBytes_ p ∧ (t ≠ 0 → f ≤ t) ∧
    f = (if t =? 0 then capacity_ p - reservationBytes_ p else Z.min t (capacity_ p - reservationBytes_ p)).
Proof.
  intros (Hr & Hm & _) Hc Ht. unfold shrinkRoot, kMaxMemory, int64_max in *. rewrite (proj2 (Z.eqb_neq (capacity_ p) _)) by lia. cbn [negb velox_check mbind outcome_bind].
  unfold sub64. rewrite checked64_Ok by (unfold_ints; lia). cbn [mbind outcome_bind]. rewrite Z.max_r by (apply uwrap_range; lia).
  unfold uwrap. rewrite Z.mod_small by lia.
  set (f := if negb (t =? 0) then Z.min t (capacity_ p - reservationBytes_ p) else capacity_ p - reservationBytes_ p).
  assert (0 ≤ f ≤ capacity_ p - reservationBytes_ p) as Hf by (unfold f; destruct (negb (t =? 0)); lia).
  exists f. rewrite swrap_small by (simpl; lia). split_and!; try done; unfold f; destruct (Z.eqb_spec t 0); simpl; lia.
Qed.

Lemma growRoot_spec b p : wfPool p → capacity_ p < kMaxMemory → 0 ≤ b → capacity_ p + b ≤ maxCapacity_ p →
  growRoot b p = Ok (capacity_ p + b, p <| capacity_ := capacity_ p + b |>).
Proof.
  intros (Hr & Hm & _) Hc Hb Hmax. unfold growRoot, kMaxMemory, int64_max in *. rewrite (proj2 (Z.eqb_neq (capacity_ p) _)) by lia. cbn [negb velox_check mbind outcome_bind].
  unfold uwrap. rewrite !(Z.mod_small (capacity_ p + b)), (Z.mod_small (maxCapacity_ p)) by lia.
  rewrite (proj2 (Z.leb_le _ _)) by lia. cbn [velox_check mbind outcome_bind]. rewrite swrap_small by (simpl; lia). rewrite Z.mod_small by lia.
  rewrite (proj2 (Z.geb_le _ _)) by lia. done.
Qed.

Lemma rootFreeBytes_spec p : wfPool p → capacity_ p < kMaxMemory → rootFreeBytes p = Ok (capacity_ p - reservationBytes_ p).
Proof.
  intros (Hr & Hm & _) Hc. unfold rootFreeBytes, kMaxMemory, int64_max in *. rewrite (proj2 (Z.eqb_neq (capacity_ p) _)) by lia.
  rewrite (proj2 (Z.geb_le _ _)) by lia. cbn [velox_check mbind outcome_bind]. apply checked64_Ok. unfold_ints. lia.
Qed.

Section Correct.
Context (interfere : nat → World → World) (reclaimableOf : nat → nat → MemoryPoolImpl → option Z).
Context (reclaimPool : nat → nat → Z → MemoryPoolImpl → MemoryPoolImpl * Z * option exn).
Context (abortPool : nat → nat → MemoryPoolImpl → MemoryPoolImpl).
Context (sort : (Candidate → Candidate → bool) → list Candidate → list Candidate).

(** The requestor, the candidates, and the limit of the requestor. *)
Context (requestor : nat) (ids : list nat) (limit : Z).
Abbreviation parties := (requestor :: ids).

Context (interfere_rely : ∀ n w, rely parties w (interfere n w)) {laws : ReclaimerLaws reclaimPool abortPool}.
Context (sort_perm : ∀ f l, sort f l ≡ₚ l).

(** The arbitration holds [h] bytes; the capacity of the requestor is at most
    [c]; [a] tells whether it has been aborted. *)
Definition state (h c : Z) (a : bool) (w : World) : Prop :=
  conserved h w ∧ running_ w = true ∧ (∀ id, id ∈ ids → is_Some (roots_ w !! id)) ∧
  ∃ p, roots_ w !! requestor = Some p ∧ capacity_ p ≤ c ∧ maxCapacity_ p = limit ∧ aborted_ p = a.

Lemma state_rely h c a w w' : rely parties w w' → state h c a w → state h c a w'.
Proof.
  intros Hrel (Hcon & Hrun & Hids & p & Hp & Hc & Hm & Ha). split; [by eapply rely_conserved|]. split; [by apply (rely_running _ _ _ Hrel)|]. split.
  - intros id Hid. destruct (Hids id Hid) as [q Hq]. destruct (rely_parties _ _ _ Hrel id q) as (q' & ? & _); [by right | done | by exists q'].
  - destruct (rely_parties _ _ _ Hrel requestor p) as (p' & ? & Hc' & Hm' & Ha'); [by left | done|]. exists p'. split; [done|]. split_and!; [lia | congruence | congruence].
Qed.

Lemma state_weaken h c c' a w : state h c a w → c ≤ c' → state h c' a w.
Proof. intros (? & ? & ? & p & ? & ? & ? & ?) Hc. split_and!; try done. exists p. split_and!; (done || lia). Qed.

(** Other threads leave these as they are. *)
Definition same (p p' : MemoryPoolImpl) : Prop :=
  capacity_ p' = capacity_ p ∧ maxCapacity_ p' = maxCapacity_ p ∧ aborted_ p' = aborted_ p.

Definition never : exn → World → Prop := λ _ _, False.

Lemma wp_safe {A} (m : M A) Q Q' E w : wp m Q never w → (∀ a w', Q a w' → Q' a w') → wp m Q' E w.
Proof. intros H HQ. eapply wp_mono; [exact H | done | by intros ? ? []]. Qed.

Lemma state_same h c a w w' :
  nodeCapacity_ w' = nodeCapacity_ w → memoryPoolTransferCapacity_ w' = memoryPoolTransferCapacity_ w → freeCapacity_ w' = freeCapacity_ w →
  running_ w' = running_ w → roots_ w' = roots_ w → state h c a w → state h c a w'.
Proof.
  intros En Et Ef Er Eo ([] & Hrun & Hids & p & Hp). split; [split; rewrite ?En, ?Et, ?Ef, ?Eo; done|].
  split; [by rewrite Er|]. split; [by rewrite Eo|]. exists p. by rewrite Eo.
Qed.

Lemma tick_wp h c a w : state h c a w →
  wp (tick interfere) (λ _ w', state h c a w' ∧ ∀ id p, id ∈ parties → roots_ w !! id = Some p → ∃ p', roots_ w' !! id = Some p' ∧ same p p') never w.
Proof.
  intros H. eexists _, (inl _). split; [done|]. simpl. pose proof (interfere_rely (clock_ w) w) as Hrel. split.
  - apply (state_same h c a (interfere (clock_ w) w)); try done. by eapply state_rely.
  - intros id p Hid Hp. destruct (rely_parties _ _ _ Hrel id p Hid Hp) as (p' & Hp' & ?). by exists p'.
Qed.

(** Every party is there. *)
Lemma party_pool h c a w id : state h c a w → id ∈ parties → ∃ p, roots_ w !! id = Some p ∧ wfPool p ∧ capacity_ p + h ≤ nodeCapacity_ w < kMaxMemory ∧
  (id = requestor → capacity_ p ≤ c ∧ maxCapacity_ p = limit ∧ aborted_ p = a).
Proof.
  intros (Hcon & _ & Hids & p & Hp & Hc & Hm & Ha) [->|Hid]%elem_of_cons.
  - exists p. destruct (conserved_capacity _ _ _ _ Hcon Hp). split; [done|]. split; [done|]. split; [done|]. done.
  - destruct (Hids id Hid) as [q Hq]. exists q. destruct (conserved_capacity _ _ _ _ Hcon Hq). split; [done|]. split; [done|]. split; [done|].
    intros ->. assert (q = p) as -> by congruence. done.
Qed.

(** The state after the pool [p] has become [p']. *)
Definition changed (h c : Z) (a : bool) (id : nat) (p p' : MemoryPoolImpl) (w : World) : Prop :=
  roots_ w !! id = Some p' ∧
  ∃ a', state (h + (capacity_ p - capacity_ p')) c a' w ∧ (id ≠ requestor ∨ aborted_ p' = aborted_ p → a' = a).

Lemma changed_root h c a w id p p' :
  state h c a w → roots_ w !! id = Some p → wfPool p' → capacity_ p' ≤ capacity_ p → maxCapacity_ p' = maxCapacity_ p →
  changed h c a id p p' (w <| roots_ := <[id := p']> (roots_ w) |>).
Proof.
  intros (Hcon & Hrun & Hids & q & Hq & Hc & Hm & Ha) Hp Hwf Hle Hmax. split; [by apply lookup_insert_eq|].
  exists (if decide (id = requestor) then aborted_ p' else a). split; [|case_decide as Eid; [|done]; intros [?|E]; [done|]; subst id; assert (q = p) as -> by congruence; by rewrite E].
  split; [apply conserved_update; try done; pose proof (conserved_held _ _ Hcon); lia|]. split; [done|]. split.
  - intros j Hj. simpl. apply lookup_insert_is_Some. destruct (decide (id = j)); auto.
  - simpl. case_decide as E.
    + subst id. exists p'. rewrite lookup_insert_eq. assert (q = p) as -> by congruence. split_and!; (done || lia || congruence).
    + exists q. by rewrite lookup_insert_ne.
Qed.

(** An access that does not raise the capacity of its pool. *)
Lemma withRoot_wp {A} h c a w id p1 (f : nat → MemoryPoolImpl → MemoryPoolImpl * outcome A) (Φ : A → MemoryPoolImpl → MemoryPoolImpl → Prop)
    (Ψ : exn → MemoryPoolImpl → MemoryPoolImpl → Prop) :
  state h c a w → id ∈ parties → roots_ w !! id = Some p1 →
  (∀ now p, wfPool p → capacity_ p + h < kMaxMemory → same p1 p →
     let p' := (f now p).1 in wfPool p' ∧ capacity_ p' ≤ capacity_ p ∧ maxCapacity_ p' = maxCapacity_ p ∧
     match (f now p).2 with Ok x => Φ x p p' | Throw e => Ψ e p p' | Undefined => False end) →
  wp (withRoot interfere id f) (λ x w', ∃ p p', same p1 p ∧ wfPool p ∧ Φ x p p' ∧ changed h c a id p p' w')
    (λ e w', ∃ p p', same p1 p ∧ wfPool p ∧ Ψ e p p' ∧ changed h c a id p p' w') w.
Proof.
  intros Hst Hid Hp1 Hf. unfold withRoot. eapply wp_bind, wp_safe; [by apply (tick_wp h c a)|]. simpl. intros now w' [Hst' Hsame].
  destruct (party_pool _ _ _ _ _ Hst' Hid) as (p & Hp & Hwf & Hcap & Hreq).
  assert (same p1 p) as Hs by (destruct (Hsame id p1 Hid Hp1) as (q & Hq & ?); assert (q = p) as -> by congruence; done).
  destruct (Hf now p Hwf ltac:(lia) Hs) as (Hwf' & Hle & Hmax & Hr). unfold changeRoot, wp. rewrite Hp.
  pose proof (changed_root _ _ _ _ _ _ _ Hst' Hp Hwf' Hle Hmax) as Hch.
  destruct (f now p) as [p' [x|e|]]; simpl in *; [| |done]; eexists _, _; (split; [done|]); simpl; eexists p, p'; eauto.
Qed.

(** ** The functions of a pool *)
Lemma changed_state h c a id p p' w : changed h c a id p p' w → aborted_ p' = aborted_ p → state (h + (capacity_ p - capacity_ p')) c a w.
Proof. intros (_ & a' & Hst & Ha) E. by rewrite <- (Ha (or_intror E)). Qed.

Lemma readRoot_wp {A} h c a w id p1 (g : MemoryPoolImpl → A) : state h c a w → id ∈ parties → roots_ w !! id = Some p1 →
  wp (readRoot interfere id g) (λ x w', ∃ p, x = g p ∧ same p1 p ∧ wfPool p ∧ roots_ w' !! id = Some p ∧ state h c a w') never w.
Proof.
  intros Hst Hid Hp1. eapply wp_mono; [apply (withRoot_wp h c a w id p1 _ (λ x p p', x = g p ∧ p' = p) (λ _ _ _, False)); try done | |].
  - simpl. intros x w' (p & p' & Hs & Hwf & (-> & ->) & Hch). exists p. split; [done|]. split; [done|]. split; [done|].
    pose proof (changed_state _ _ _ _ _ _ _ Hch eq_refl) as H'. replace (h + (capacity_ p - capacity_ p)) with h in H' by lia. by destruct Hch.
  - simpl. intros e w' (? & ? & _ & _ & [] & _).
Qed.

Lemma poolShrink_wp h c a w id p1 t : state h c a w → id ∈ parties → 0 ≤ t → roots_ w !! id = Some p1 →
  wp (poolShrink interfere id t) (λ f w', 0 ≤ f ∧ (t ≠ 0 → f ≤ t) ∧ state (h + f) c a w' ∧
    ∃ p, roots_ w' !! id = Some p ∧ capacity_ p = capacity_ p1 - f ∧ aborted_ p = aborted_ p1) never w.
Proof.
  intros Hst Hid Ht Hp1. pose proof Hst as (Hcon & _). pose proof (conserved_held _ _ Hcon).
  eapply wp_mono; [apply (withRoot_wp h c a w id p1 _ (λ f p p', 0 ≤ f ∧ (t ≠ 0 → f ≤ t) ∧ p' = p <| capacity_ := capacity_ p - f |>) (λ _ _ _, False)); try done | |].
  - intros now p Hwf Hc Hs. destruct (shrinkRoot_spec t p Hwf ltac:(lia) Ht) as (f & E & Hf & Hle & _). unfold update. rewrite E. simpl.
    split; [|split_and!; (done || lia)]. apply wfPool_capacity; [done|]. destruct Hwf as (? & ? & _). lia.
  - simpl. intros f w' (p & p' & (Hc & _ & Ha) & Hwf & (Hf & Hle & ->) & Hch). split; [done|]. split; [done|].
    pose proof (changed_state _ _ _ _ _ _ _ Hch eq_refl) as H'. simpl in H'. replace (h + (capacity_ p - (capacity_ p - f))) with (h + f) in H' by lia.
    split; [done|]. destruct Hch as [Hp' _]. eexists. split; [done|]. simpl. split; [lia | done].
  - simpl. intros e w' (? & ? & _ & _ & [] & _).
Qed.

Lemma poolGrow_wp h c a w b : state (h + b) c a w → 0 ≤ h → 0 ≤ b → c + b ≤ limit →
  wp (poolGrow interfere requestor b) (λ _ w', state h (c + b) a w' ∧ ∃ p, roots_ w' !! requestor = Some p ∧ b ≤ capacity_ p) never w.
Proof.
  intros Hst Hh Hb Hlim. unfold poolGrow, withRoot. apply wp_noexcept. eapply wp_bind, wp_safe; [by apply (tick_wp (h + b) c a)|]. simpl. intros now w' [Hst' _].
  destruct (party_pool _ _ _ _ requestor Hst' ltac:(by left)) as (p & Hp & Hwf & Hcap & Hreq). destruct (Hreq eq_refl) as (Hc & Hm & Ha).
  pose proof Hwf as (Hres & _). unfold changeRoot, wp, update. rewrite Hp, growRoot_spec by (done || lia). eexists _, _. split; [done|]. simpl.
  destruct Hst' as (Hcon & Hrun & Hids & _). split; [|eexists; rewrite lookup_insert_eq; split; [done|]; simpl; lia].
  assert (wfPool (p <| capacity_ := capacity_ p + b |>)) by (apply wfPool_capacity; [done | lia]).
  split; [|split; [done|split]].
  - replace h with (h + b + (capacity_ p - capacity_ (p <| capacity_ := capacity_ p + b |>))) by (simpl; lia). apply conserved_update; [done | done | done | simpl; lia].
  - intros j Hj. simpl. apply lookup_insert_is_Some. destruct (decide (requestor = j)); auto.
  - eexists. simpl. rewrite lookup_insert_eq. split; [done|]. simpl. split_and!; (done || lia).
Qed.

(** ** The free capacity *)
Lemma free_update h h' c a w f : state h c a w → 0 ≤ h' → 0 ≤ f → freeCapacity_ w + h = f + h' → state h' c a (w <| freeCapacity_ := f |>).
Proof.
  intros ([] & Hrun & Hids & Hp) Hh' Hf E. split; [split; simpl; (done || lia) | done].
Qed.

(** The pools of the parties are as before. *)
Definition kept (w w' : World) : Prop :=
  ∀ id p, id ∈ parties → roots_ w !! id = Some p → ∃ p', roots_ w' !! id = Some p' ∧ same p p'.

Lemma incrementFreeCapacity_wp h c a w b : state (h + b) c a w → 0 ≤ h → 0 ≤ b →
  wp (incrementFreeCapacity interfere b) (λ _ w', state h c a w' ∧ kept w w') never w.
Proof.
  intros Hst Hh Hb. unfold incrementFreeCapacity. eapply wp_bind, wp_safe; [by apply (tick_wp (h + b) c a)|]. simpl. intros _ w' [Hst' Hk].
  pose proof Hst' as (Hcon & _). pose proof (conserved_bounds _ _ Hcon). pose proof (conserved_node _ _ Hcon) as Hn. pose proof (conserved_free _ _ Hcon).
  pose proof (conserved_sum _ _ Hcon). unfold kMaxMemory, int64_max in Hn. assert (uwrap 64 (freeCapacity_ w' + b) = freeCapacity_ w' + b) as E by (apply Z.mod_small; lia).
  unfold incrementFreeCapacityLocked. apply wp_bind, wp_modify, wp_bind, wp_gets. simpl. rewrite E, (proj2 (Z.ltb_ge _ _)) by lia.
  apply wp_ret. split; [|exact Hk]. apply (free_update (h + b)); (done || lia).
Qed.

Lemma decrementFreeCapacity_wp h c a w b : state h c a w → 0 ≤ b →
  wp (decrementFreeCapacity interfere b) (λ f w', 0 ≤ f ≤ b ∧ state (h + f) c a w') never w.
Proof.
  intros Hst Hb. unfold decrementFreeCapacity. eapply wp_bind, wp_safe; [by apply (tick_wp h c a)|]. simpl. intros _ w' [Hst' _].
  pose proof Hst' as (Hcon & _). pose proof (conserved_bounds _ _ Hcon). pose proof (conserved_node _ _ Hcon) as Hn. pose proof (conserved_free _ _ Hcon).
  pose proof (conserved_held _ _ Hcon). unfold kMaxMemory, int64_max in Hn.
  unfold decrementFreeCapacityLocked. apply wp_bind, wp_gets, wp_bind, wp_gets. simpl. apply wp_bind, wp_check; [apply Z.leb_le; lia|].
  apply wp_bind, wp_modify, wp_ret. simpl. split; [lia|]. unfold uwrap. rewrite Z.mod_small by lia. apply (free_update h); (done || lia).
Qed.

Lemma kept_refl w : kept w w.
Proof. intros id p _ Hp. by exists p. Qed.

Lemma giveBack_wp h c a w f E : state (h + f) c a w → 0 ≤ h → 0 ≤ f →
  wp (giveBack interfere f) (λ _ w', state h c a w' ∧ kept w w') E w.
Proof.
  intros Hst Hh Hf. unfold giveBack. destruct (Z.ltb_spec 0 f).
  - apply wp_noexcept. by apply incrementFreeCapacity_wp.
  - apply wp_ret. replace (h + f) with h in Hst by lia. split; [done | apply kept_refl].
Qed.

Lemma wp_guarded {A} f (m : M A) Q E w :
  wp m Q (λ e w', wp (giveBack interfere f) (λ _, E e) E w') w → wp (guarded interfere f m) Q E w.
Proof.
  intros H. unfold guarded. apply wp_bind, wp_attempt. eapply wp_mono; [exact H | |]; simpl.
  - intros a w' Ha. by apply wp_ret.
  - intros e w' He. apply wp_bind. eapply wp_mono; [exact He | | done]. simpl. intros _ w'' ?. by apply wp_raise.
Qed.

(** ** Aborting and reclaiming *)

(** The flag of the requestor changes only when it is the pool itself. *)
Definition flagOf (id : nat) (a a' : bool) : Prop := id ≠ requestor → a' = a.

Lemma abort_wp h c a w id p1 e : state h c a w → id ∈ parties → roots_ w !! id = Some p1 →
  wp (abort interfere abortPool id e) (λ _ w', ∃ p a', roots_ w' !! id = Some p ∧ capacity_ p = capacity_ p1 ∧ state h c a' w' ∧ flagOf id a a') never w.
Proof.
  intros Hst Hid Hp1. unfold abort. apply wp_bind, wp_modify, wp_bind, wp_attempt.
  set (w1 := w <| numAborted_ := _ |>). assert (state h c a w1) as Hst1 by by apply (state_same h c a w).
  assert (∀ p p' w', same p1 p → capacity_ p' = capacity_ p → aborted_ p' = true → changed h c a id p p' w' →
    wp (isAborted ← poolAborted interfere id; check isAborted) (λ _ w', ∃ p a', roots_ w' !! id = Some p ∧ capacity_ p = capacity_ p1 ∧ state h c a' w' ∧ flagOf id a a') never w') as Hrest.
  { intros p p' w' (Hc & _) Ec Ea (Hp' & a' & Hst' & Ha'). replace (h + (capacity_ p - capacity_ p')) with h in Hst' by lia.
    unfold poolAborted. eapply wp_bind, wp_safe; [by apply (readRoot_wp h c a' w' id p')|]. simpl. intros b w'' (q & -> & (Hqc & _ & Hqa) & _ & Hq & Hst'').
    apply wp_check; [congruence|]. exists q, a'. split; [done|]. split; [lia|]. split; [done|]. intros Hne. apply Ha'. by left. }
  eapply wp_mono; [apply (withRoot_wp h c a w1 id p1 _ (λ _ p p', capacity_ p' = capacity_ p ∧ aborted_ p' = true) (λ _ p p', p' = p ∧ aborted_ p = true)); try done | |].
  - intros now p Hwf Hc Hs. unfold abortRoot. pose proof Hwf as (_ & _ & ->). simpl. destruct (aborted_ p) eqn:Ea; simpl.
    + split; [done|]. split_and!; (done || lia).
    + match goal with |- context [abortPool now id ?r] => set (q := r) end.
      destruct (abort_law now id q ltac:(done)) as (Hwf' & -> & -> & ->). by split_and!.
  - simpl. intros _ w' (p & p' & Hs & _ & (Ec & Ea) & Hch). by eapply Hrest.
  - simpl. intros _ w' (p & p' & Hs & _ & (-> & Ea) & Hch). by eapply Hrest.
Qed.

(** The capacity [id] had was [old]; what it has lost since is held. *)
Definition tracked (id : nat) (old h c : Z) (a : bool) (w : World) : Prop :=
  ∃ p a', roots_ w !! id = Some p ∧ capacity_ p ≤ old ∧ state (h + (old - capacity_ p)) c a' w ∧ flagOf id a a'.

Lemma abortAndShrink_wp id old h c a w e : tracked id old h c a w → id ∈ parties →
  wp (abortAndShrink interfere abortPool id e) (λ _ w', tracked id old h c a w') never w.
Proof.
  intros (p & a' & Hp & Hle & Hst & Ha) Hid. unfold abortAndShrink.
  eapply wp_bind, wp_safe; [by eapply abort_wp|]. simpl. intros _ w' (q & a'' & Hq & Ec & Hst' & Ha').
  eapply wp_bind, wp_safe; [eapply (poolShrink_wp _ c a'' w' id q 0); (done || lia)|]. simpl. intros g w'' (Hg & _ & Hst'' & q' & Hq' & Ec' & _).
  apply wp_ret. exists q', a''. split; [done|]. split; [lia|]. split.
  - by replace (h + (old - capacity_ q')) with (h + (old - capacity_ p) + g) by lia.
  - intros Hne. rewrite Ha' by done. by apply Ha.
Qed.

Lemma poolReclaim_wp id old h c a w t : tracked id old h c a w → id ∈ parties →
  wp (poolReclaim interfere reclaimPool id t) (λ _ w', tracked id old h c a w') never w.
Proof.
  intros (p & a' & Hp & Hle & Hst & Ha) Hid. unfold poolReclaim.
  eapply wp_mono; [apply (withRoot_wp (h + (old - capacity_ p)) c a' w id p _ (λ _ q q', aborted_ q' = aborted_ q ∧ capacity_ q' ≤ capacity_ q) (λ _ _ _, False)); try done | |].
  - intros now q Hwf Hc Hs. pose proof Hwf as (_ & _ & ->). pose proof (reclaim_law now id t q Hwf) as (Hwf' & Hc' & Hm' & Ha').
    destruct (reclaimPool now id t q) as [[q' n] o]. simpl in *. split; [done|]. by split_and!.
  - simpl. intros [n o] w' (q & q' & (Hc & _) & Hwf & (Hab & Hcq) & Hch). pose proof (changed_state _ _ _ _ _ _ _ Hch Hab) as Hst'. destruct Hch as [Hq' _].
    exists q', a'. split; [done|]. split; [lia|]. split; [|done].
    by replace (h + (old - capacity_ q')) with (h + (old - capacity_ p) + (capacity_ q - capacity_ q')) by lia.
  - simpl. intros e w' (? & ? & _ & _ & [] & _).
Qed.

(** What [reclaim] returns is what the pool has lost. *)
Lemma reclaim_wp id h c a w t E : state h c a w → id ∈ parties → 0 ≤ t →
  wp (reclaim interfere reclaimPool abortPool id t) (λ f w', 0 ≤ f ∧ ∃ a', state (h + f) c a' w' ∧ flagOf id a a') E w.
Proof.
  intros Hst Hid Ht. unfold reclaim. apply wp_noexcept. destruct (party_pool _ _ _ _ id Hst Hid) as (p0 & Hp0 & _).
  unfold poolCapacity. eapply wp_bind, wp_safe; [by apply (readRoot_wp h c a w id p0)|]. simpl. intros old w1 (p1 & -> & _ & _ & Hp1 & Hst1).
  set (old := capacity_ p1). apply wp_bind, wp_attempt. eapply wp_safe; [by eapply (poolShrink_wp h c a w1 id p1 t)|]. simpl.
  intros f w2 (Hf & _ & Hst2 & p2 & Hp2 & Ec2 & _).
  assert (tracked id old h c a w2) as Htr.
  { exists p2, a. split; [done|]. split; [unfold old; lia|]. split; [|done]. by replace (h + (old - capacity_ p2)) with (h + f) by (unfold old; lia). }
  apply wp_bind. apply (wp_safe _ (λ _ w', tracked id old h c a w')).
  { destruct (f <? t); [|by apply wp_ret]. eapply wp_bind, wp_safe; [by apply poolReclaim_wp|]. simpl. intros [n [e|]] w3 H3; simpl; [|by apply wp_ret].
    eapply wp_bind, wp_safe; [by apply (abortAndShrink_wp id old h c a w3)|]. simpl. intros _ w4 H4. by apply wp_ret. }
  simpl. intros [g n] w3 (p3 & a3 & Hp3 & Hle3 & Hst3 & Ha3). unfold poolCapacity.
  eapply wp_bind, wp_safe; [by apply (readRoot_wp (h + (old - capacity_ p3)) c a3 w3 id p3)|]. simpl. intros new w4 (p4 & -> & (Ec4 & _) & Hwf4 & Hp4 & Hst4).
  destruct (party_pool _ _ _ _ id Hst1 Hid) as (q1 & Hq1 & (Hr1 & _) & Hb1 & _). assert (q1 = p1) as -> by congruence.
  pose proof Hst1 as (Hcon1 & _). pose proof (conserved_held _ _ Hcon1). unfold kMaxMemory, int64_max in Hb1.
  destruct Hwf4 as (Hr4 & _). unfold uwrap. rewrite !Z.mod_small by (unfold old in *; lia).
  apply wp_bind, wp_check; [apply Z.leb_le; lia|]. apply wp_bind, wp_modify, wp_ret. split; [lia|]. exists a3. split; [|done].
  rewrite <- Ec4 in Hst4. by apply (state_same _ _ _ w4).
Qed.

(** ** The candidates *)

(** An access that leaves the pool as it is. *)
Lemma readWith_wp {A} h c a w id f (Φ : A → Prop) : state h c a w → id ∈ parties →
  (∀ now p, wfPool p → capacity_ p < kMaxMemory → ∃ x, f now p = (p, Ok x) ∧ Φ x) →
  wp (withRoot interfere id f) (λ x w', Φ x ∧ state h c a w') never w.
Proof.
  intros Hst Hid Hf. destruct (party_pool _ _ _ _ id Hst Hid) as (p1 & Hp1 & _). pose proof Hst as (Hcon & _). pose proof (conserved_held _ _ Hcon).
  eapply wp_mono; [apply (withRoot_wp h c a w id p1 f (λ x p p', Φ x ∧ p' = p) (λ _ _ _, False)); try done | |].
  - intros now p Hwf Hc _. destruct (Hf now p Hwf ltac:(lia)) as (x & -> & Hx). simpl. split_and!; (done || lia).
  - simpl. intros x w' (p & p' & _ & _ & (Hx & ->) & Hch). split; [done|].
    pose proof (changed_state _ _ _ _ _ _ _ Hch eq_refl) as H'. by replace (h + (capacity_ p - capacity_ p)) with h in H' by lia.
  - simpl. intros e w' (? & ? & _ & _ & [] & _).
Qed.

Definition wfCandidate (cand : Candidate) : Prop := pool cand ∈ ids ∧ 0 ≤ freeBytes cand < 2 ^ 63.

Lemma getCandidateStats_wp h c a w pools : state h c a w → (∀ id, id ∈ pools → id ∈ ids) →
  wp (getCandidateStats interfere reclaimableOf pools) (λ cs w', state h c a w' ∧ Forall wfCandidate cs ∧ pool <$> cs = pools) never w.
Proof.
  intros Hst Hsub. revert w Hst. induction pools as [|id pools IH]; intros w Hst; simpl; [by apply wp_ret|].
  assert (id ∈ parties) as Hid by (right; apply Hsub; by left). unfold poolReclaimableBytes, poolFreeBytes.
  eapply wp_bind, wp_safe; [apply (readWith_wp h c a w id _ (λ _, True)); [done|done|]; by eauto|]. simpl. intros o w1 [_ Hst1].
  eapply wp_bind, wp_safe; [apply (readWith_wp h c a w1 id _ (λ x, 0 ≤ x < 2 ^ 63)); [done|done|]|].
  { intros _ p Hwf Hc. rewrite rootFreeBytes_spec by done. eexists. split; [done|]. destruct Hwf as (? & _). unfold kMaxMemory, int64_max in Hc. lia. }
  simpl. intros x w2 [Hx Hst2]. eapply wp_bind, wp_safe; [apply IH; [|done]; intros; apply Hsub; by right|]. simpl. intros cs w3 (Hst3 & Hcs & E).
  apply wp_ret. split; [done|]. split; [|by rewrite <- E]. constructor; [|done]. split; [apply Hsub; by left | done].
Qed.

(** ** The loops over the candidates *)
Lemma held_bound h c a w : state h c a w → 0 ≤ h < kMaxMemory.
Proof. intros (Hcon & _). pose proof (conserved_bounds _ _ Hcon). pose proof (conserved_node _ _ Hcon). pose proof (conserved_held _ _ Hcon). lia. Qed.

Lemma reclaimFreeLoop_wp h c a cs t : Forall wfCandidate cs → ∀ w f, state (h + f) c a w → 0 ≤ h → 0 ≤ f < t → t < 2 ^ 63 →
  wp (reclaimFreeLoop interfere cs t f) (λ f' w', 0 ≤ f' ≤ t ∧ state (h + f') c a w') never w.
Proof.
  induction 1 as [|cand cs [Hid Hfree] _ IH]; intros w f Hst Hh Hf Ht; simpl; [apply wp_ret; split; [lia|done]|].
  apply wp_bind, wp_check; [apply Z.ltb_lt; lia|]. destruct (freeBytes cand =? 0); [apply wp_ret; split; [lia|done]|].
  rewrite !swrap_small by (simpl; lia). destruct (Z.leb_spec (Z.min (t - f) (freeBytes cand)) 0) as [|Hpos]; [apply wp_ret; split; [lia|done]|].
  destruct (party_pool _ _ _ _ (pool cand) Hst ltac:(by right)) as (p & Hp & _).
  eapply wp_bind, wp_safe; [apply (poolShrink_wp (h + f) c a w (pool cand) p); [done|by right|lia|done]|]. simpl.
  intros g w' (Hg & Hle & Hst' & _). specialize (Hle ltac:(lia)). unfold uwrap. rewrite Z.mod_small by lia.
  replace (h + f + g) with (h + (f + g)) in Hst' by lia. destruct (Z.leb_spec t (f + g)); [apply wp_ret; split; [lia|done]|]. apply IH; (done || lia).
Qed.

Lemma reclaimFree_wp h c a cs t w : Forall wfCandidate cs → state h c a w → 0 < t < 2 ^ 63 →
  wp (reclaimFreeMemoryFromCandidates interfere sort cs t) (λ r w', 0 ≤ r.1 ≤ t ∧ state (h + r.1) c a w' ∧ r.2 ≡ₚ cs) never w.
Proof.
  intros Hcs Hst Ht. pose proof (held_bound _ _ _ _ Hst). unfold reclaimFreeMemoryFromCandidates, sortCandidatesByFreeCapacity.
  eapply wp_bind, wp_safe; [apply (reclaimFreeLoop_wp h c a); rewrite ?sort_perm, ?Z.add_0_r; (done || lia)|]. simpl. intros f w' [Hf Hst'].
  apply wp_bind, wp_modify, wp_ret. split; [done|]. split; [by apply (state_same _ _ _ w') | apply sort_perm].
Qed.

Lemma poolAborted_wp h c a w E : state h c a w → wp (poolAborted interfere requestor) (λ b w', b = a ∧ state h c a w') E w.
Proof.
  intros Hst. destruct (party_pool _ _ _ _ requestor Hst ltac:(by left)) as (p & Hp & _).
  eapply wp_safe; [apply (readRoot_wp h c a w requestor p); [done|by left|done]|]. simpl. intros b w' (q & -> & _ & _ & Hq & Hst'). split; [|done].
  destruct Hst' as (_ & _ & _ & q' & Hq' & _ & _ & <-). congruence.
Qed.

Lemma reclaimUsedLoop_wp h c cs t E : Forall wfCandidate cs → ∀ w f a, state (h + f) c a w → 0 ≤ h → 0 ≤ f < t → t < 2 ^ 63 →
  wp (reclaimUsedLoop interfere reclaimPool abortPool requestor cs t f) (λ f' w', 0 ≤ f' < 2 ^ 63 ∧ ∃ a', state (h + f') c a' w') E w.
Proof.
  induction 1 as [|cand cs [Hid Hfree] _ IH]; intros w f a Hst Hh Hf Ht; simpl; [apply wp_ret; split; [lia|by exists a]|].
  apply wp_bind, wp_check; [apply Z.ltb_lt; lia|]. destruct (negb _ || _); [apply wp_ret; split; [lia|by exists a]|].
  apply wp_bind, wp_gets. pose proof Hst as (Hcon & _). pose proof (conserved_transfer _ _ Hcon). rewrite !swrap_small by (simpl; lia).
  apply wp_bind, wp_check; [apply Z.ltb_lt; lia|]. apply wp_bind. eapply wp_safe; [apply (reclaim_wp (pool cand) (h + f) c a); [done|by right|lia]|].
  simpl. intros g w' (Hg & a' & Hst' & _). pose proof (held_bound _ _ _ _ Hst') as Hb. unfold kMaxMemory, int64_max in Hb.
  replace (h + f + g) with (h + (f + g)) in Hst' by lia. rewrite swrap_small by (simpl; lia). apply wp_bind. destruct (Z.leb_spec t (f + g)).
  - apply wp_ret, wp_ret. split; [lia | by exists a'].
  - eapply wp_safe; [by apply (poolAborted_wp (h + (f + g)) c a')|]. simpl. intros b w'' [-> Hst'']. destruct a'.
    + apply wp_ret. split; [lia | by exists true].
    + apply (IH _ _ false); (done || lia).
Qed.

Lemma reclaimUsed_wp h c a cs t w E : Forall wfCandidate cs → state h c a w → 0 < t < 2 ^ 63 →
  wp (reclaimUsedMemoryFromCandidates interfere reclaimPool abortPool sort requestor cs t)
    (λ r w', 0 ≤ r.1 ∧ (∃ a', state (h + r.1) c a' w') ∧ r.2 ≡ₚ cs) E w.
Proof.
  intros Hcs Hst Ht. pose proof (held_bound _ _ _ _ Hst). unfold reclaimUsedMemoryFromCandidates, sortCandidatesByReclaimableMemory.
  apply wp_bind. eapply wp_safe; [apply (reclaimUsedLoop_wp h c) with (a := a); rewrite ?sort_perm, ?Z.add_0_r; (done || lia)|]. simpl. intros f w' [Hf Hst'].
  apply wp_ret. unfold uwrap. rewrite Z.mod_small by lia. simpl. split; [lia|]. split; [done | apply sort_perm].
Qed.

(** ** The victim *)

(** What the candidates are compared by. *)
Definition weight (t : Z) (w : World) (id : nat) : Z :=
  match roots_ w !! id with Some p => capacity_ p | None => 0 end + (if bool_decide (id = requestor) then t else 0).

Lemma weight_kept t w w' id : kept w w' → id ∈ parties → is_Some (roots_ w !! id) → weight t w' id = weight t w id.
Proof. intros Hk Hid [p Hp]. destruct (Hk id p Hid Hp) as (p' & Hp' & Hc & _). unfold weight. rewrite Hp, Hp'. lia. Qed.

(** [b] is the largest of [cs]; among the largest, the requestor. *)
Definition largest (wt : nat → Z) (cs : list Candidate) (b : Candidate) : Prop :=
  b ∈ cs ∧ (∀ x, x ∈ cs → wt (pool x) ≤ wt (pool b)) ∧
  (pool b ≠ requestor → ∀ x, x ∈ cs → pool x = requestor → wt (pool x) < wt (pool b)).

Lemma largest_snoc wt seen b x : largest wt seen b →
  largest wt (seen ++ [x])
    (if wt (pool x) <? wt (pool b) then b else if wt (pool b) <? wt (pool x) then x else if bool_decide (pool x = requestor) then x else b).
Proof.
  intros (Hb & Hle & Hlt). destruct (Z.ltb_spec (wt (pool x)) (wt (pool b))), (Z.ltb_spec (wt (pool b)) (wt (pool x))); try lia; [| |case_bool_decide].
  all: split; [apply elem_of_app; (by left) || (right; by left)|]; split; [intros y [Hy| ->%list_elem_of_singleton]%elem_of_app; [specialize (Hle y Hy)|]; lia|].
  all: intros Hne y [Hy| ->%list_elem_of_singleton]%elem_of_app Ey; try done; try specialize (Hle y Hy); try specialize (Hlt Hne y Hy Ey); lia || congruence.
Qed.

Lemma readRoot_kept {A} h c a w id (g : MemoryPoolImpl → A) : state h c a w → id ∈ parties →
  wp (readRoot interfere id g) (λ x w', state h c a w' ∧ kept w w' ∧ ∃ p, roots_ w' !! id = Some p ∧ x = g p) never w.
Proof.
  intros Hst Hid. unfold readRoot, withRoot. eapply wp_bind, wp_safe; [by apply (tick_wp h c a)|]. simpl. intros now w' [Hst' Hk].
  destruct (party_pool _ _ _ _ id Hst' Hid) as (p & Hp & _). unfold changeRoot, wp. rewrite Hp. eexists _, _. split; [done|]. simpl.
  rewrite (insert_id _ _ _ Hp). split; [by apply (state_same _ _ _ w')|]. split; [exact Hk|]. by exists p.
Qed.

Lemma largestLoop_wp h c a t wt cs : (∀ x, x ∈ cs → pool x ∈ parties ∧ 0 ≤ wt (pool x) < 2 ^ 63) →
  ∀ w seen best, state h c a w → (∀ id, id ∈ parties → weight t w id = wt id) →
  match best with None => seen = [] | Some (b, m) => m = wt (pool b) ∧ largest wt seen b end → seen ++ cs ≠ [] →
  wp (largestLoop interfere requestor t best cs) (λ r w', state h c a w' ∧ ∃ b, r = Some b ∧ largest wt (seen ++ cs) b) never w.
Proof.
  induction cs as [|x cs IH]; intros Hcs w seen best Hst Hwt Hbest Hne; simpl.
  { apply wp_ret. split; [done|]. rewrite app_nil_r in Hne |- *. destruct best as [[b m]|]; [|done]. destruct Hbest as [_ Hl]. by exists b. }
  destruct (Hcs x ltac:(by left)) as [Hx Hrange]. unfold poolCapacity.
  eapply wp_bind, wp_safe; [by apply (readRoot_kept h c a w (pool x))|]. simpl. intros k w' (Hst' & Hk & q & Hq & ->).
  assert (∀ id, id ∈ parties → weight t w' id = wt id) as Hwt'.
  { intros id Hid. rewrite <- (Hwt id Hid). apply weight_kept; try done. destruct (party_pool _ _ _ _ id Hst Hid) as (r & ? & _). by exists r. }
  assert (swrap 64 (capacity_ q + (if bool_decide (pool x = requestor) then t else 0)) = wt (pool x)) as ->.
  { pose proof (Hwt' _ Hx) as E. unfold weight in E. rewrite Hq in E. rewrite swrap_small by (simpl; lia). done. }
  replace (seen ++ x :: cs) with ((seen ++ [x]) ++ cs) in Hne |- * by (by rewrite <- (assoc_L (++))).
  apply IH; try done; [intros y Hy; apply Hcs; by right|]. destruct best as [[b m]|].
  - destruct Hbest as [-> Hl]. pose proof (largest_snoc wt seen b x Hl) as Hs.
    destruct (Z.ltb_spec (wt (pool x)) (wt (pool b))); [done|]. destruct (Z.ltb_spec (wt (pool b)) (wt (pool x))); [done|].
    case_bool_decide; [|done]. split; [lia|done].
  - subst seen. split; [done|]. split; [by left|]. split; [by intros y ->%list_elem_of_singleton | by intros ? y ->%list_elem_of_singleton].
Qed.

Lemma findCandidate_wp h c a t cs w : cs ≠ [] → state h c a w → (∀ x, x ∈ cs → pool x ∈ parties ∧ 0 ≤ weight t w (pool x) < 2 ^ 63) →
  wp (findCandidateWithLargestCapacity interfere requestor t cs) (λ b w', state h c a w' ∧ largest (weight t w) cs b) never w.
Proof.
  intros Hne Hst Hcs. unfold findCandidateWithLargestCapacity. apply wp_bind, wp_check; [destruct cs; done|].
  eapply wp_bind, wp_safe; [by apply (largestLoop_wp h c a t (weight t w) cs Hcs w [] None)|]. simpl. intros r w' (Hst' & b & -> & Hb). by apply wp_ret.
Qed.

Lemma weight_range h c a t w id : state h c a w → id ∈ parties → 0 ≤ t → c + t ≤ limit → 0 ≤ weight t w id < 2 ^ 63.
Proof.
  intros Hst Hid Ht Hlim. destruct (party_pool _ _ _ _ id Hst Hid) as (p & Hp & (Hr & Hm & _) & Hb & Hreq). pose proof (held_bound _ _ _ _ Hst).
  unfold weight, kMaxMemory, int64_max in Hm, Hb |- *. rewrite Hp. case_bool_decide as E; [destruct (Hreq E) as (? & ? & _)|]; lia.
Qed.

Lemma handleOOM_wp c t cs w : cs ≠ [] → Forall wfCandidate cs → state 0 c false w → 0 ≤ t → c + t ≤ limit →
  wp (handleOOM interfere abortPool requestor t cs) (λ _ w', state 0 c false w') never w.
Proof.
  intros Hne Hcs Hst Ht Hlim. unfold handleOOM.
  eapply wp_bind, wp_safe; [apply (findCandidate_wp 0 c false t cs w); [done|done|]|].
  { intros x Hx. rewrite Forall_forall in Hcs. destruct (Hcs x Hx) as [Hid _]. split; [by right|]. apply (weight_range 0 c false); try done. by right. }
  simpl. intros b w1 (Hst1 & Hb & _). case_bool_decide as Ereq; [by apply wp_ret|].
  assert (pool b ∈ parties) as Hid by (right; rewrite Forall_forall in Hcs; by destruct (Hcs b Hb)).
  destruct (party_pool _ _ _ _ _ Hst1 Hid) as (p & Hp & _).
  eapply wp_bind, wp_safe; [by apply (abort_wp 0 c false w1 (pool b) p)|]. simpl. intros _ w2 (q & a' & Hq & _ & Hst2 & Ha).
  rewrite Ha in Hst2 by done. eapply wp_bind, wp_safe; [apply (poolShrink_wp 0 c false w2 (pool b) q 0); (done || lia)|]. simpl.
  intros f w3 (Hf & _ & Hst3 & _). eapply wp_bind, wp_safe; [apply (incrementFreeCapacity_wp 0 c false w3 f); (done || lia)|]. simpl.
  intros _ w4 [Hst4 _]. by apply wp_ret.
Qed.

(** ** The arbitration *)
Lemma state_exact h c a w p : state h c a w → roots_ w !! requestor = Some p → state h (capacity_ p) a w ∧ capacity_ p ≤ c.
Proof.
  intros (? & ? & ? & q & Hq & Hc & Hm & Ha) Hp. assert (q = p) as -> by congruence. split; [|done]. split_and!; try done. by exists p.
Qed.

(** The room that the requestor has, and its capacity at that time. *)
Lemma maxGrowBytes_wp h c a w E : state h c a w →
  wp (maxGrowBytes interfere requestor) (λ x w', ∃ c', c' ≤ c ∧ x = limit - c' ∧ 0 ≤ x < 2 ^ 63 ∧ state h c' a w') E w.
Proof.
  intros Hst. eapply wp_safe; [apply (readRoot_kept h c a w requestor); [done|by left]|]. simpl. intros x w' (Hst' & _ & p & Hp & ->).
  destruct (state_exact _ _ _ _ _ Hst' Hp) as [Hst'' Hle]. destruct (party_pool _ _ _ _ requestor Hst' ltac:(by left)) as (q & Hq & (Hr & Hm & _) & _ & Hreq).
  assert (q = p) as -> by congruence. destruct (Hreq eq_refl) as (_ & <- & _). exists (capacity_ p). unfold uwrap, kMaxMemory, int64_max in Hm |- *.
  rewrite Z.mod_small by lia. split_and!; (done || lia).
Qed.

Lemma checkCapacityGrowth_wp h c a w t E : state h c a w →
  wp (checkCapacityGrowth interfere requestor t) (λ b w', state h c a w' ∧ (b = true → ∃ c', state h c' a w' ∧ c' + t ≤ limit)) E w.
Proof.
  intros Hst. unfold checkCapacityGrowth. apply wp_bind. eapply wp_safe; [by apply (maxGrowBytes_wp h c a)|]. simpl. intros x w' (c' & Hc' & -> & _ & Hst').
  destruct (Z.leb_spec t (limit - c')); [|apply wp_ret; split; [by eapply state_weaken | done]].
  unfold capacityAfterGrowth. apply wp_bind. eapply wp_safe; [apply (readRoot_kept h c' a w' requestor); [done|by left]|]. simpl. intros y w'' (Hst'' & _).
  apply wp_gets. split; [by eapply state_weaken|]. intros _. exists c'. split; [done | lia].
Qed.

(** The only exception: the requestor has been aborted. *)
Definition abortedWith (c : Z) (e : exn) (w : World) : Prop := e = poolAbortedError ∧ state 0 c true w.

Lemma failIfAborted_wp h c a w : state h c a w →
  wp (failIfAborted interfere requestor) (λ _ w', a = false ∧ state h c a w') (λ e w', e = poolAbortedError ∧ a = true ∧ state h c a w') w.
Proof.
  intros Hst. unfold failIfAborted. apply wp_bind. eapply wp_safe; [by apply (poolAborted_wp h c a)|]. simpl. intros b w' [-> Hst']. destruct a.
  - apply wp_bind, wp_modify, wp_raise. split; [done|]. split; [done|]. by apply (state_same _ _ _ w').
  - by apply wp_ret.
Qed.

Lemma ensureCapacity_wp c w t : state 0 c false w → 0 ≤ t →
  wp (ensureCapacity interfere reclaimPool abortPool requestor t)
    (λ b w', state 0 c false w' ∧ (b = true → ∃ c', state 0 c' false w' ∧ c' + t ≤ limit)) (abortedWith c) w.
Proof.
  intros Hst Ht. unfold ensureCapacity. apply wp_bind, wp_gets, wp_bind.
  eapply wp_safe; [apply (readRoot_kept 0 c false w requestor); [done|by left]|]. simpl. intros m w1 (Hst1 & _). destruct (_ || _); [by apply wp_ret|].
  apply wp_bind. eapply wp_safe; [by apply (checkCapacityGrowth_wp 0 c false w1 t)|]. simpl. intros b w2 [Hst2 Hb]. destruct b; [apply wp_ret; auto|].
  apply wp_bind. eapply wp_safe; [apply (reclaim_wp requestor 0 c false w2 t); [done|by left|done]|]. simpl. intros f w3 (Hf & a & Hst3 & _).
  apply wp_bind. eapply wp_safe; [apply (incrementFreeCapacity_wp 0 c a w3 f); (done || lia)|]. simpl. intros _ w4 [Hst4 _].
  apply wp_bind. eapply wp_mono; [by apply (failIfAborted_wp 0 c a)| |]; simpl.
  - intros _ w5 [-> Hst5]. by apply checkCapacityGrowth_wp.
  - intros e w5 (-> & -> & Hst5). done.
Qed.

(** The requestor has been given at least [t] bytes. *)
Definition granted (t : Z) (w : World) : Prop := ∃ c p, state 0 c false w ∧ roots_ w !! requestor = Some p ∧ t ≤ capacity_ p.

Lemma growBy_wp c g f t w E : state f c false w → 0 ≤ g → c + g ≤ limit → t ≤ g → t ≤ f →
  wp (growBy interfere requestor g f) (λ _ w', granted t w') E w.
Proof.
  intros Hst Hg Hlim Htg Htf. pose proof (held_bound _ _ _ _ Hst). unfold growBy. set (b := Z.min g f). apply wp_bind.
  eapply wp_safe; [apply (poolGrow_wp (f - b) c false w b); [by replace (f - b + b) with f by lia | unfold b; lia..]|]. simpl.
  intros _ w1 (Hst1 & p & Hp & Hb). eapply wp_safe; [apply (giveBack_wp 0 (c + b) false w1 (f - b) never); [done | lia | unfold b; lia]|]. simpl.
  intros _ w2 (Hst2 & Hk). destruct (Hk requestor p ltac:(by left) Hp) as (p' & Hp' & Hc & _). exists (c + b), p'. split; [done|]. split; [done|]. unfold b in *. lia.
Qed.

Definition arbitrated (c t : Z) (cs : list Candidate) (r : bool * list Candidate) (w : World) : Prop :=
  r.2 ≡ₚ cs ∧ if r.1 then granted t w else state 0 c false w.

(** The end of the function, when [f] bytes are held. *)
Lemma arbitrateEnd_wp c g f t cs cs' w a : state f c a w → 0 ≤ g → c + g ≤ limit → t ≤ g → cs' ≡ₚ cs →
  wp (guarded interfere f (failIfAborted interfere requestor) ;;
      guarded interfere f (isAborted ← poolAborted interfere requestor; check (negb isAborted)) ;;
      if f <? t then giveBack interfere f ;; mret (false, cs') else growBy interfere requestor g f ;; mret (true, cs'))
    (arbitrated c t cs) (abortedWith c) w.
Proof.
  intros Hst Hg Hlim Htg Hperm. pose proof (held_bound _ _ _ _ Hst). apply wp_bind, wp_guarded. eapply wp_mono; [by apply (failIfAborted_wp f c a)| |]; simpl.
  2: { intros e w1 (-> & -> & Hst1). eapply wp_safe; [apply (giveBack_wp 0 c true w1 f never); (done || lia)|]. simpl. by intros _ w2 [? _]. }
  intros _ w1 [-> Hst1]. apply wp_bind, wp_guarded, wp_bind. eapply wp_safe; [by apply (poolAborted_wp f c false)|]. simpl. intros b w2 [-> Hst2].
  apply wp_check; [done|]. destruct (Z.ltb_spec f t); apply wp_bind.
  - eapply wp_safe; [apply (giveBack_wp 0 c false w2 f never); (done || lia)|]. simpl. intros _ w3 [Hst3 _]. by apply wp_ret.
  - eapply wp_safe; [by apply (growBy_wp c g f t w2 never)|]. simpl. intros _ w3 Hgr. by apply wp_ret.
Qed.

Lemma arbitrateMemory_wp c t cs w : state 0 c false w → Forall wfCandidate cs → 0 ≤ t → c + t ≤ limit →
  wp (arbitrateMemory interfere reclaimPool abortPool sort requestor cs t) (arbitrated c t cs) (abortedWith c) w.
Proof.
  intros Hst Hcs Ht Hlim. unfold arbitrateMemory. apply wp_bind. eapply wp_safe; [by apply (poolAborted_wp 0 c false)|]. simpl. intros b w1 [-> Hst1].
  apply wp_bind, wp_check; [done|]. apply wp_bind. eapply wp_safe; [by apply (maxGrowBytes_wp 0 c false w1 never)|]. simpl.
  intros room w2 (c' & Hc' & -> & Hroom & Hst2). apply wp_bind, wp_gets. set (g := Z.min _ _). assert (0 ≤ g ∧ c' + g ≤ limit ∧ t ≤ g ∧ g < 2 ^ 63) as (Hg & Hcg & Htg & Hg63) by (unfold g; lia).
  clearbody g. apply wp_bind. eapply wp_safe; [by apply (decrementFreeCapacity_wp 0 c' false w2 g)|]. simpl. intros f w3 [Hf Hst3].
  destruct (Z.leb_spec t f).
  { apply wp_bind. eapply wp_safe; [apply (poolGrow_wp 0 c' false w3 f); (done || lia)|]. simpl. intros _ w4 (Hst4 & p & Hp & Hfp). apply wp_ret.
    split; [done|]. exists (c' + f), p. split; [done|]. split; [done|]. lia. }
  apply wp_bind, wp_check; [apply Z.ltb_lt; lia|]. apply wp_bind, wp_guarded. eapply wp_safe; [apply (reclaimFree_wp f c' false); (done || lia)|]. simpl.
  intros [m cs1] w4 (Hm & Hst4 & Hperm). simpl in Hm, Hst4, Hperm. assert (uwrap 64 (f + m) = f + m) as -> by (apply Z.mod_small; lia). destruct (Z.leb_spec t (f + m)).
  { apply wp_bind. eapply wp_safe; [apply (growBy_wp c' g (f + m) t w4 never); (done || lia)|]. simpl. intros _ w5 Hgr. by apply wp_ret. }
  apply wp_bind, wp_guarded, wp_bind, wp_check; [apply Z.ltb_lt; lia|].
  eapply wp_safe; [apply (reclaimUsed_wp (f + m) c' false cs1 (g - (f + m)) w4 never); [by rewrite Hperm | done | lia]|]. simpl.
  intros [m2 cs2] w5 (Hm2 & (a & Hst5) & Hperm2). simpl in Hm2, Hst5, Hperm2. pose proof (held_bound _ _ _ _ Hst5) as Hb. unfold kMaxMemory, int64_max in Hb.
  assert (uwrap 64 (f + m + m2) = f + m + m2) as -> by (apply Z.mod_small; lia). eapply wp_mono; [apply (arbitrateEnd_wp c' g (f + m + m2) t cs cs2 w5 a); try done; by rewrite Hperm2| |].
  - intros [[] cs3] w6 [Hp6 H6]; split; try done. by apply (state_weaken 0 c').
  - intros e w6 [-> H6]. split; [done|]. by apply (state_weaken 0 c').
Qed.

Lemma arbitrateLoop_wp t retries : 0 ≤ t → ids ≠ [] → ∀ c w, state 0 c false w → c + t ≤ limit →
  wp (arbitrateLoop interfere reclaimableOf reclaimPool abortPool sort retries requestor ids t)
    (λ b w', if b then granted t w' else state 0 c false w') (abortedWith c) w.
Proof.
  intros Ht Hids. induction retries as [|retries IH]; intros c w Hst Hlim; simpl.
  all: apply wp_bind; eapply wp_safe; [by apply (getCandidateStats_wp 0 c false w ids)|]; simpl; intros cs w1 (Hst1 & Hcs & Epool).
  all: assert (cs ≠ []) as Hne by (intros ->; by apply Hids).
  all: apply wp_bind; eapply wp_mono; [by apply (arbitrateMemory_wp c t cs w1) | simpl | done].
  all: intros [[] cs'] w2 [Hperm H2]; simpl in Hperm, H2; apply wp_bind.
  - apply wp_modify, wp_ret. destruct H2 as (c' & p & Hst2 & Hp). exists c', p. split; [by apply (state_same _ _ _ w2) | done].
  - apply wp_modify, wp_ret. by apply (state_same _ _ _ w2).
  - apply wp_modify, wp_ret. destruct H2 as (c' & p & Hst2 & Hp). exists c', p. split; [by apply (state_same _ _ _ w2) | done].
  - eapply wp_safe; [by apply (poolAborted_wp 0 c false)|]. simpl. intros b w3 [-> Hst3]. apply wp_bind, wp_check; [done|]. apply wp_bind.
    eapply wp_safe; [apply (handleOOM_wp c t cs' w3); try done; [|by rewrite Hperm]|].
    { intros ->. by apply Hne, Permutation_nil. }
    simpl. intros [] w4 Hst4; [by apply IH|]. apply wp_bind, wp_modify, wp_ret. by apply (state_same _ _ _ w4).
Qed.

Lemma growWithArbitration_wp c a w t : state 0 c a w → 0 ≤ t → ids ≠ [] →
  wp (growWithArbitration interfere reclaimableOf reclaimPool abortPool sort requestor ids t)
    (λ b w', if b then granted t w' else state 0 c false w') (abortedWith c) w.
Proof.
  intros Hst Ht Hids. unfold growWithArbitration. apply wp_bind. eapply wp_mono; [by apply (failIfAborted_wp 0 c a)| |]; simpl.
  2: { intros e w1 (-> & -> & Hst1). done. }
  intros _ w1 [-> Hst1]. apply wp_bind. eapply wp_mono; [by apply (ensureCapacity_wp c w1 t) | simpl | done]. intros b w2 [Hst2 Hb]. destruct b; simpl.
  - destruct (Hb eq_refl) as (c' & Hst2' & Hlim). 
    assert (∃ c'', c'' ≤ c ∧ c'' + t ≤ limit ∧ state 0 c'' false w2) as (c2 & Hc2 & Hlim2 & H2).
    { destruct Hst2' as (? & ? & ? & p & Hp & Hc & Hr). destruct Hst2 as (? & ? & ? & q & Hq & Hcq & _). assert (q = p) as -> by congruence.
      exists (capacity_ p). split; [done|]. split; [lia|]. split_and!; try done. by exists p. }
    eapply wp_mono; [by apply (arbitrateLoop_wp t 1 Ht Hids c2 w2) | |].
    + intros [] w3 H3; [done|]. by eapply state_weaken.
    + intros e w3 [-> H3]. split; [done|]. by eapply state_weaken.
  - apply wp_bind, wp_modify, wp_ret. by apply (state_same _ _ _ w2).
Qed.
End Correct.
