(* ===== verification/ArbitratorTheorems.v ===== *)
(** * Memory arbitration: theorems

    What a request to the arbitrator leaves behind, however the threads of the
    other queries interfere; which query is aborted; what idle capacity is
    found; and in which order the requests run. *)
From S2P Require Import Prelude MemoryPool Arbitrator ArbitratorState ArbitratorCorrect.
Local Open Scope Z_scope.

(** ** A request *)
Section Requests.
Context (interfere : nat → World → World) (reclaimableOf : nat → nat → MemoryPoolImpl → option Z).
Context (reclaimPool : nat → nat → Z → MemoryPoolImpl → MemoryPoolImpl * Z * option exn).
Context (abortPool : nat → nat → MemoryPoolImpl → MemoryPoolImpl).
Context (sort : (Candidate → Candidate → bool) → list Candidate → list Candidate).

(** The end of a request gives the turn to the next one. *)
Lemma finishArbitration_wp requestor ids limit h c a w E :
  (∀ n w, rely (requestor :: ids) w (interfere n w)) → state requestor ids limit h c a w →
  wp (finishArbitration interfere) (λ _ w', conserved h w' ∧
    ∃ p', roots_ w' !! requestor = Some p' ∧ capacity_ p' ≤ c ∧ maxCapacity_ p' = limit ∧ aborted_ p' = a ∧
      ∀ p, roots_ w !! requestor = Some p → capacity_ p' = capacity_ p) E w.
Proof.
  intros Hrel Hst. unfold finishArbitration. apply wp_bind. eapply wp_safe; [by eapply tick_wp|]. simpl. intros _ w' [(Hcon & Hrun & Hids & q & Hq & Hq') Hk].
  apply wp_bind, wp_gets, wp_bind, wp_check; [done|]. apply wp_bind, wp_gets.
  assert (∀ p, roots_ w !! requestor = Some p → capacity_ q = capacity_ p) as Hsame.
  { intros p Hp. destruct (Hk requestor p ltac:(by left) Hp) as (p' & Hp' & Hc & _). congruence. }
  destruct (last (waitPromises_ w')); apply wp_bind, wp_modify, wp_ret; (split; [by destruct Hcon|]); exists q; split_and!; naive_solver.
Qed.

(** What a request of [t] bytes leaves: [p] was the pool of the requestor. *)
Definition requestEnds (requestor : nat) (t : Z) (p : MemoryPoolImpl) (r : bool + exn) (w : World) : Prop :=
  conserved 0 w ∧ ∃ p', roots_ w !! requestor = Some p' ∧ maxCapacity_ p' = maxCapacity_ p ∧
  match r with
  | inl true => t ≤ capacity_ p' ∧ aborted_ p' = false
  | inl false => capacity_ p' ≤ capacity_ p ∧ aborted_ p' = false
  | inr e => e = poolAbortedError ∧ aborted_ p' = true
  end.


(** C14: The query that is aborted when no capacity can be found is one with the
    largest capacity, that of the requestor counting with what it asks for;
    when the requestor is among the largest it is chosen itself.  The capacities
    are those when the search starts. *)
Theorem largest_is_victim requestor ids limit h c a t cs w :
  (∀ n w, rely (requestor :: ids) w (interfere n w)) → state requestor ids limit h c a w → 0 ≤ t → c + t ≤ limit →
  cs ≠ [] → (∀ x, x ∈ cs → pool x ∈ ids) →
  ∃ w' victim, findCandidateWithLargestCapacity interfere requestor t cs w = Ok (w', inl victim) ∧ victim ∈ cs ∧
    (∀ x, x ∈ cs → weight requestor t w (pool x) ≤ weight requestor t w (pool victim)) ∧
    (pool victim ≠ requestor → ∀ x, x ∈ cs → pool x = requestor → weight requestor t w (pool x) < weight requestor t w (pool victim)).
Proof.
  intros Hrel Hst Ht Hlim Hne Hcs.
  assert (∀ x, x ∈ cs → pool x ∈ requestor :: ids ∧ 0 ≤ weight requestor t w (pool x) < 2 ^ 63) as Hw.
  { intros x Hx. assert (pool x ∈ requestor :: ids) by (right; by apply Hcs). split; [done|]. by eapply weight_range. }
  assert (wp (findCandidateWithLargestCapacity interfere requestor t cs)
    (λ b w', state requestor ids limit h c a w' ∧ largest requestor (weight requestor t w) cs b) never w) as (w' & [b|e] & E & H) by (by eapply findCandidate_wp); [|done].
  destruct H as (_ & Hb & Hle & Hlt). exists w', b. split; [done|]. split; [done|]. done.
Qed.
End Requests.

(** ** The other requests keep the contract of the other threads *)

(** Nobody else runs. *)
Definition alone (n : nat) (w : World) : World := w.

(** A pool that takes no part changes its capacity with the free capacity. *)
Lemma moved_rely parties h w w' id p p' : conserved h w → id ∉ parties → roots_ w !! id = Some p →
  roots_ w' = <[id := p']> (roots_ w) → freeCapacity_ w' = freeCapacity_ w + (capacity_ p - capacity_ p') → 0 ≤ freeCapacity_ w' → wfPool p' →
  nodeCapacity_ w' = nodeCapacity_ w → memoryPoolTransferCapacity_ w' = memoryPoolTransferCapacity_ w → running_ w' = running_ w → rely parties w w'.
Proof.
  intros Hcon Hid Hp Er Ef Hf Hwf En Et Erun. split; try done.
  - by rewrite Erun.
  - rewrite Er, (total_update _ _ _ _ _ Hp). lia.
  - rewrite Er. intros Hall. by apply map_Forall_insert_2.
  - intros j q Hj Hq. exists q. rewrite Er, lookup_insert_ne by (by intros ->). done.
Qed.

Lemma withRoot_alone {A} w id p p' (f : nat → MemoryPoolImpl → MemoryPoolImpl * outcome A) a Q E :
  roots_ w !! id = Some p → f (clock_ w) p = (p', Ok a) →
  Q a (w <| clock_ := S (clock_ w) |> <| roots_ := <[id := p']> (roots_ w) |>) → wp (withRoot alone id f) Q E w.
Proof. intros Hp Ef HQ. eexists _, (inl a). split; [|exact HQ]. unfold withRoot, changeRoot, mbind, M_bind. simpl. unfold alone. by rewrite Hp, Ef. Qed.

Lemma readRoot_alone {A} w id p (g : MemoryPoolImpl → A) Q E :
  roots_ w !! id = Some p → Q (g p) (w <| clock_ := S (clock_ w) |>) → wp (readRoot alone id g) Q E w.
Proof. intros Hp HQ. apply (withRoot_alone w id p p _ (g p)); [done|done|]. by rewrite (insert_id _ _ _ Hp); destruct w. Qed.

Lemma shrinkCapacity_alone parties h w id p t : conserved h w → id ∉ parties → roots_ w !! id = Some p → 0 ≤ t →
  let idle := capacity_ p - reservationBytes_ p in
  wp (shrinkCapacity alone id t) (λ f w', rely parties w w' ∧ f = (if t =? 0 then idle else Z.min t idle) ∧
    roots_ w' !! id = Some (p <| capacity_ := capacity_ p - f |>)) never w.
Proof.
  intros Hcon Hid Hp Ht idle. destruct (conserved_capacity _ _ _ _ Hcon Hp) as [Hwf Hb]. pose proof Hwf as (Hr & Hm & _).
  pose proof (conserved_held _ _ Hcon). destruct (shrinkRoot_spec t p Hwf ltac:(lia) Ht) as (f & E & Hf & _ & Ef).
  assert (wfPool (p <| capacity_ := capacity_ p - f |>)) as Hwf' by (apply wfPool_capacity; [done|lia]).
  pose proof (conserved_update h w id p _ Hcon Hp Hwf' ltac:(simpl; lia)) as Hcon'.
  pose proof (conserved_bounds _ _ Hcon') as Hb'. pose proof (conserved_sum _ _ Hcon') as Hs'. pose proof (conserved_free _ _ Hcon).
  simpl in Hb', Hs'. unfold kMaxMemory, int64_max in Hb. assert (uwrap 64 (freeCapacity_ w + f) = freeCapacity_ w + f) as Eu by (apply Z.mod_small; lia).
  unfold shrinkCapacity, incrementFreeCapacityLocked. apply wp_bind, wp_modify, wp_bind.
  eapply withRoot_alone; [done | unfold update; by rewrite E|]. apply wp_bind, wp_bind, wp_modify, wp_bind, wp_gets. simpl.
  rewrite Eu, (proj2 (Z.ltb_ge _ _)) by lia. apply wp_ret, wp_ret. split; [|split; [done | apply lookup_insert_eq]].
  eapply (moved_rely parties h w _ id p (p <| capacity_ := capacity_ p - f |>)); try done; simpl; lia.
Qed.

Lemma growNewPool_alone parties h w id p t : conserved h w → id ∉ parties → roots_ w !! id = Some p → 0 ≤ t < 2 ^ 63 →
  wp (growNewPool alone id t) (λ f w', rely parties w w' ∧
    f = (if running_ w then 0 else Z.min (freeCapacity_ w) (Z.min (maxCapacity_ p - capacity_ p) t)) ∧
    roots_ w' !! id = Some (p <| capacity_ := capacity_ p + f |>)) never w.
Proof.
  intros Hcon Hid Hp Ht. destruct (conserved_capacity _ _ _ _ Hcon Hp) as [Hwf Hb]. pose proof Hwf as (Hr & Hm & _).
  pose proof (conserved_bounds _ _ Hcon). pose proof (conserved_held _ _ Hcon). pose proof (conserved_free _ _ Hcon).
  assert (roots_ w = <[id := p <| capacity_ := capacity_ p + 0 |>]> (roots_ w)) as E0.
  { symmetry. apply insert_id. rewrite Hp. f_equal. destruct p. cbn. by rewrite Z.add_0_r. }
  unfold growNewPool, decrementFreeCapacityLocked. apply wp_bind. eapply readRoot_alone; [done|]. unfold kMaxMemory, int64_max in Hm, Hb.
  assert (uwrap 64 (maxCapacity_ p - capacity_ p) = maxCapacity_ p - capacity_ p) as -> by (apply Z.mod_small; lia).
  rewrite !swrap_small by (simpl; lia). set (b := Z.min (maxCapacity_ p - capacity_ p) t).
  assert (uwrap 64 b = b) as -> by (apply Z.mod_small; unfold b; lia). apply wp_bind, wp_modify, wp_bind, wp_gets. simpl. destruct (running_ w) eqn:Erun.
  - apply wp_ret. split; [|split; [done | simpl; rewrite E0; apply lookup_insert_eq]].
    eapply (moved_rely parties h w _ id p (p <| capacity_ := capacity_ p + 0 |>)); try done; simpl; try lia. apply wfPool_capacity; [done|lia].
  - apply wp_bind, wp_bind, wp_gets, wp_bind, wp_gets. simpl. set (f := Z.min (freeCapacity_ w) b).
    apply wp_bind, wp_check; [apply Z.leb_le; lia|]. apply wp_bind, wp_modify, wp_ret, wp_bind, wp_noexcept.
    assert (uwrap 64 (freeCapacity_ w - f) = freeCapacity_ w - f) as Eu by (apply Z.mod_small; unfold f, b; lia).
    eapply withRoot_alone; [done | unfold update; rewrite growRoot_spec by (done || unfold f, b, kMaxMemory, int64_max; lia); done|].
    apply wp_ret. simpl. rewrite Eu. split; [|split; [done | apply lookup_insert_eq]].
    eapply (moved_rely parties h w _ id p (p <| capacity_ := capacity_ p + f |>)); try done; simpl; try (unfold f, b; lia).
    apply wfPool_capacity; [done|unfold f, b; lia].
Qed.

(** While an arbitration runs, the other two requests to the arbitrator keep
    what the arbitration relies on, when they come from a pool that takes no
    part in it: to give capacity back gives the idle capacity of the pool, at
    most the bytes asked for, to the free capacity; to reserve capacity for a
    new pool gives it nothing while an arbitration runs, and otherwise what is
    free, at most the bytes asked for and what its limit allows. *)
Theorem other_requests parties h w id p t : conserved h w → id ∉ parties → roots_ w !! id = Some p → 0 ≤ t < 2 ^ 63 →
  let idle := capacity_ p - reservationBytes_ p in
  (∃ w' f, shrinkCapacity alone id t w = Ok (w', inl f) ∧ rely parties w w' ∧
    f = (if t =? 0 then idle else Z.min t idle) ∧ roots_ w' !! id = Some (p <| capacity_ := capacity_ p - f |>)) ∧
  (∃ w' f, growNewPool alone id t w = Ok (w', inl f) ∧ rely parties w w' ∧
    f = (if running_ w then 0 else Z.min (freeCapacity_ w) (Z.min (maxCapacity_ p - capacity_ p) t)) ∧ roots_ w' !! id = Some (p <| capacity_ := capacity_ p + f |>)).
Proof.
  intros Hcon Hid Hp Ht idle. split.
  - destruct (shrinkCapacity_alone parties h w id p t Hcon Hid Hp ltac:(lia)) as (w' & [f|e] & E & H); [|done]. by exists w', f.
  - destruct (growNewPool_alone parties h w id p t Hcon Hid Hp Ht) as (w' & [f|e] & E & H); [|done]. by exists w', f.
Qed.

(** ** The life of the arbitrator *)
Theorem new_conserved capacity transfer : 0 ≤ capacity < kMaxMemory → 0 ≤ transfer < 2 ^ 63 → conserved 0 (newSharedArbitrator capacity transfer).
Proof. intros Hc Ht. split; simpl; try done; try lia. rewrite total_empty. lia. Qed.

(** Capacity that is conserved is all back when no pool is left. *)
Theorem destroyed_without_leak w : conserved 0 w → roots_ w = ∅ → destroySharedArbitrator true w = Ok (w, inl tt).
Proof.
  intros Hcon He. pose proof (conserved_sum _ _ Hcon) as Hs. rewrite He, total_empty in Hs.
  unfold destroySharedArbitrator, noexcept, gets, mbind, M_bind. rewrite (proj2 (Z.eqb_eq _ _)) by lia. done.
Qed.

(** ** A candidate that uses more than its capacity *)

(** Threads that reserve under arbitration may pass the capacity of their pool.
    Its statistics then fail a check, and with them every request that has it
    as a candidate. *)
Theorem overused_candidate reclaimableOf w id p pools : roots_ w !! id = Some p → capacity_ p ≠ kMaxMemory → capacity_ p < reservationBytes_ p →
  ∃ w', getCandidateStats alone reclaimableOf (id :: pools) w = Ok (w', inr VeloxCheckFailed).
Proof.
  intros Hp Hmax Hover.
  enough (wp (getCandidateStats alone reclaimableOf (id :: pools)) (λ _ _, False) (λ e _, e = VeloxCheckFailed) w) as (w' & [|e] & E & H); [done| |].
  { subst e. by exists w'. }
  simpl. apply wp_bind. eapply withRoot_alone; [done|done|]. rewrite (insert_id _ _ _ Hp). apply wp_bind. eexists _, (inr _).
  unfold poolFreeBytes, withRoot, changeRoot, mbind, M_bind, rootFreeBytes. simpl. unfold alone. simpl.
  rewrite Hp, (proj2 (Z.eqb_neq _ _)) by done. rewrite Z.geb_leb, (proj2 (Z.leb_gt _ _)) by done. done.
Qed.

(** ** Two queries *)

(** [std::sort] for the candidates. *)
Definition notAfter (f : Candidate → Candidate → bool) (x y : Candidate) : Prop := f y x = false.

#[global] Instance notAfter_dec f x y : Decision (notAfter f x y) := decide (f y x = false).

Definition sortBy (f : Candidate → Candidate → bool) (l : list Candidate) : list Candidate := merge_sort (notAfter f) l.

Lemma sortBy_perm f l : sortBy f l ≡ₚ l.
Proof. apply merge_sort_Permutation. Qed.

#[global] Instance notAfter_trans : Transitive (notAfter byFreeCapacity).
Proof. intros x y z. unfold notAfter, byFreeCapacity. rewrite !Z.ltb_ge. lia. Qed.

#[global] Instance notAfter_total : Total (notAfter byFreeCapacity).
Proof. intros x y. unfold notAfter, byFreeCapacity. rewrite !Z.ltb_ge. lia. Qed.

Lemma sortBy_sorted l : StronglySorted (λ x y, byFreeCapacity y x = false) (sortBy byFreeCapacity l).
Proof. apply (StronglySorted_merge_sort (notAfter byFreeCapacity)); apply _. Qed.

Definition queryPool (capacity reservation : Z) : MemoryPoolImpl :=
  mkPool "query" kAggregate 64 None 100 true true true false None ∅ capacity reservation 0 0 0 0 0 0 0 0 0.

Definition twoQueries (running : bool) : World :=
  mkWorld 100 0 10 running [] 0 0 0 0 0 0 0 0 0 {[1%nat := queryPool 40 40; 2%nat := queryPool 50 10]} 0.

(** Reclaimers that give nothing. *)
Definition keepAll (now id : nat) (target : Z) (p : MemoryPoolImpl) : MemoryPoolImpl * Z * option exn := (p, 1, None).
Definition keepOne (now id : nat) (p : MemoryPoolImpl) : MemoryPoolImpl := p.

#[global] Instance keepAll_laws : ReclaimerLaws keepAll keepOne.
Proof. split; intros; split_and!; (done || apply Z.le_refl). Qed.

Lemma queryPool_wf capacity reservation : 0 ≤ reservation ≤ capacity → capacity ≤ 100 → wfPool (queryPool capacity reservation).
Proof. intros Hr Hc. unfold wfPool, kMaxMemory, int64_max. simpl. split_and!; (lia || done). Qed.

Lemma twoQueries_conserved running : conserved 0 (twoQueries running).
Proof.
  split.
  - unfold kMaxMemory, int64_max. simpl. lia.
  - simpl. lia.
  - simpl. lia.
  - lia.
  - apply map_Forall_insert_2; [apply queryPool_wf; lia|]. apply map_Forall_singleton, queryPool_wf; lia.
  - vm_compute. reflexivity.
Qed.

Lemma twoQueries_present running id : id ∈ [1%nat; 2%nat] → is_Some (roots_ (twoQueries running) !! id).
Proof. intros [->|[->|[]%elem_of_nil]%elem_of_cons]%elem_of_cons; by eexists. Qed.

Lemma twoQueries_state : state 1 [1%nat; 2%nat] 100 0 40 false (twoQueries true).
Proof.
  split; [apply twoQueries_conserved|]. split; [done|]. split; [apply twoQueries_present|]. by exists (queryPool 40 40).
Qed.

Definition succeeds (m : outcome (World * (bool + exn))) : bool := match m with Ok (_, inl true) => true | _ => false end.

Lemma succeeded m w r : m = Ok (w, r) → succeeds m = true → r = inl true.
Proof. intros -> H. by destruct r as [[]|]. Qed.


Lemma largest_is_victim_witness : ∃ w' victim,
  findCandidateWithLargestCapacity alone 1 20 [mkCandidate true 0 0 1; mkCandidate true 0 40 2] (twoQueries true) = Ok (w', inl victim) ∧
  victim ∈ [mkCandidate true 0 0 1; mkCandidate true 0 40 2] ∧ weight 1 20 (twoQueries true) 1 ≤ weight 1 20 (twoQueries true) (pool victim).
Proof.
  destruct (largest_is_victim alone 1 [1%nat; 2%nat] 100 0 40 false 20 [mkCandidate true 0 0 1; mkCandidate true 0 40 2] (twoQueries true)) as (w' & v & E & Hv & Hle & _).
  - intros n w. apply rely_refl.
  - apply twoQueries_state.
  - discriminate.
  - discriminate.
  - discriminate.
  - intros x [->|[->|[]%elem_of_nil]%elem_of_cons]%elem_of_cons; [left | right; left].
  - exists w', v. split; [exact E|]. split; [exact Hv|]. apply (Hle (mkCandidate true 0 0 1)). left.
Defined.

Lemma other_requests_witness : ∃ w' f, shrinkCapacity alone 2 0 (twoQueries true) = Ok (w', inl f) ∧ rely [1%nat] (twoQueries true) w' ∧ f = 40.
Proof.
  destruct (other_requests [1%nat] 0 (twoQueries true) 2 (queryPool 50 10) 0) as [(w' & f & E & Hr & Hf & _) _].
  - apply twoQueries_conserved.
  - intros [?|[]%elem_of_nil]%elem_of_cons. discriminate.
  - reflexivity.
  - split; [discriminate | reflexivity].
  - exists w', f. split; [exact E|]. split; [exact Hr|]. exact Hf.
Defined.
