(* ===== verification/ArbitratorIdle.v ===== *)
(** * Memory arbitration: idle capacity is used before queries are touched

    When the free capacity and the capacity that the candidates hold without
    using it are enough, no query has to give memory back and none is aborted. *)
From S2P Require Import Prelude MemoryPool Arbitrator ArbitratorState ArbitratorCorrect ArbitratorTheorems.
Local Open Scope Z_scope.

(** ** Functions that touch no query *)

(** No query has been aborted or made to give memory back. *)
Definition untouched (w w' : World) : Prop :=
  numAborted_ w' = numAborted_ w ∧ numReclaimedBytes_ w' = numReclaimedBytes_ w ∧ numNonReclaimableAttempts_ w' = numNonReclaimableAttempts_ w.

Definition quiet {A} (m : M A) : Prop := ∀ w w' r, m w = Ok (w', r) → untouched w w'.

#[global] Instance untouched_preorder : PreOrder untouched.
Proof. split; [done|]. intros w1 w2 w3 (? & ? & ?) (? & ? & ?). unfold untouched. split_and!; congruence. Qed.

Create HintDb quiet.

Lemma quiet_bind {A B} (m : M A) (f : A → M B) : quiet m → (∀ a, quiet (f a)) → quiet (m ≫= f).
Proof.
  intros Hm Hf w w' r. unfold mbind, M_bind. destruct (m w) as [[w1 [a|e]]| |] eqn:E; intros H; try done.
  - transitivity w1; [by eapply Hm | by eapply Hf].
  - simplify_eq. by eapply Hm.
Qed.

Lemma quiet_ret {A} (a : A) : quiet (mret a).
Proof. intros w w' r [=]. by subst. Qed.

Lemma quiet_raise {A} e : quiet (@raise A e).
Proof. intros w w' r [=]. by subst. Qed.

Lemma quiet_check b : quiet (check b).
Proof. destruct b; [apply quiet_ret | apply quiet_raise]. Qed.

Lemma quiet_gets {A} (f : World → A) : quiet (gets f).
Proof. intros w w' r [=]. by subst. Qed.

Lemma quiet_modify f : (∀ w, untouched w (f w)) → quiet (modify f).
Proof. intros H w w' r [=]. subst. apply H. Qed.

Lemma quiet_noexcept {A} (m : M A) : quiet m → quiet (noexcept m).
Proof. intros H w w' r. unfold noexcept. destruct (m w) as [[w1 [a|e]]| |] eqn:E; intros [=]; subst; by eapply H. Qed.

Lemma quiet_withRoot {A} id (f : nat → MemoryPoolImpl → MemoryPoolImpl * outcome A) : quiet (withRoot alone id f).
Proof.
  apply quiet_bind; [by intros w w' r [=]; subst|]. intros now w w' r. unfold changeRoot. destruct (roots_ w !! id) as [p|]; [|done].
  destruct (f now p) as [p' [x|e|]]; intros [=]; by subst.
Qed.

#[export] Hint Resolve quiet_bind quiet_ret quiet_raise quiet_check quiet_gets quiet_noexcept quiet_withRoot : quiet.

Lemma quiet_tick : quiet (tick alone).
Proof. intros w w' r [=]. by subst. Qed.

Lemma quiet_giveBack f : quiet (giveBack alone f).
Proof.
  unfold giveBack. destruct (0 <? f); [|apply quiet_ret]. apply quiet_noexcept, quiet_bind; [apply quiet_tick|]. intros _.
  apply quiet_bind; [by apply quiet_modify|]. intros _. apply quiet_bind; [apply quiet_gets|]. intros []; auto with quiet.
Qed.

Lemma quiet_growBy requestor g f : quiet (growBy alone requestor g f).
Proof. unfold growBy, poolGrow. apply quiet_bind; [auto with quiet|]. intros _. apply quiet_giveBack. Qed.

Lemma quiet_reclaimFreeLoop cs t : ∀ f, quiet (reclaimFreeLoop alone cs t f).
Proof.
  induction cs as [|x cs IH]; intros f; simpl; [apply quiet_ret|]. apply quiet_bind; [apply quiet_check|]. intros _.
  destruct (freeBytes x =? 0); [apply quiet_ret|]. destruct (_ <=? 0); [apply quiet_ret|]. apply quiet_bind; [apply quiet_withRoot|]. intros g.
  destruct (t <=? _); [apply quiet_ret | apply IH].
Qed.

Lemma wp_quiet {A} (m : M A) Q E w : quiet m → wp m Q E w → wp m (λ a w', Q a w' ∧ untouched w w') (λ e w', E e w' ∧ untouched w w') w.
Proof. intros Hq (w' & r & Em & H). exists w', r. split; [done|]. specialize (Hq _ _ _ Em). destruct r; done. Qed.

Lemma wp_and {A} (m : M A) Q Q' E E' w : wp m Q E w → wp m Q' E' w → wp m (λ a w', Q a w' ∧ Q' a w') (λ e w', E e w' ∧ E' e w') w.
Proof. intros (w' & r & Em & H) (w2 & r2 & Em2 & H2). exists w', r. split; [done|]. rewrite Em in Em2. injection Em2 as <- <-. destruct r; done. Qed.

(** ** What the candidates hold without using it *)
Definition idleOf (cs : list Candidate) : Z := foldr (λ x s, freeBytes x + s) 0 cs.

(** The statistics of the candidate are those of its pool. *)
Definition fresh (w : World) (x : Candidate) : Prop :=
  ∃ p, roots_ w !! pool x = Some p ∧ wfPool p ∧ capacity_ p < kMaxMemory ∧ freeBytes x = capacity_ p - reservationBytes_ p.

Lemma fresh_other w id p x : fresh w x → pool x ≠ id → fresh (w <| clock_ := S (clock_ w) |> <| roots_ := <[id := p]> (roots_ w) |>) x.
Proof. intros (q & Hq & H) Hne. exists q. split; [|done]. simpl. by rewrite lookup_insert_ne. Qed.

Lemma idleOf_nonneg w cs : Forall (fresh w) cs → 0 ≤ idleOf cs.
Proof. induction 1 as [|x cs (p & _ & (Hr & _) & _ & E) _ IH]; simpl; lia. Qed.

Lemma idleOf_zero w x cs : Forall (λ y, freeBytes y ≤ freeBytes x) cs → Forall (fresh w) cs → freeBytes x ≤ 0 → idleOf cs = 0.
Proof.
  intros Hs Hf Hx. induction Hf as [|y cs (p & _ & (Hr & _) & _ & E) _ IH]; simpl; [done|]. apply Forall_cons in Hs as [Hy Hs]. rewrite IH by done. lia.
Qed.

#[global] Instance idleOf_perm : Proper ((≡ₚ) ==> (=)) idleOf.
Proof. intros l k Hp. apply (foldr_permutation_proper _ _ _); [|done]. intros; lia. Qed.

(** The loop takes all of it, up to the target. *)
Lemma reclaimFreeLoop_alone t cs : t < 2 ^ 63 → StronglySorted (λ x y, freeBytes y ≤ freeBytes x) cs → NoDup (pool <$> cs) →
  ∀ w f, Forall (fresh w) cs → 0 ≤ f < t → wp (reclaimFreeLoop alone cs t f) (λ r _, r = Z.min t (f + idleOf cs)) never w.
Proof.
  intros Ht. induction 1 as [|x cs _ IH Hx]; intros Hnd w f Hfresh Hf; simpl; [apply wp_ret; lia|].
  apply NoDup_cons in Hnd as [Hnin Hnd]. apply Forall_cons in Hfresh as [Hfx Hfresh]. pose proof Hfx as (p & Hp & Hwf & Hcap & Efree).
  pose proof Hwf as (Hr & _). unfold kMaxMemory, int64_max in Hcap. pose proof (idleOf_nonneg _ _ Hfresh) as Hnn.
  apply wp_bind, wp_check; [apply Z.ltb_lt; lia|]. destruct (Z.eqb_spec (freeBytes x) 0) as [E0|Hpos].
  { apply wp_ret. rewrite (idleOf_zero w x cs) by (done || lia). lia. }
  rewrite !swrap_small by (simpl; lia). rewrite (proj2 (Z.leb_gt _ _)) by lia. apply wp_bind.
  destruct (shrinkRoot_spec (Z.min (t - f) (freeBytes x)) p Hwf Hcap ltac:(lia)) as (g & E & _ & _ & Eg).
  rewrite (proj2 (Z.eqb_neq _ 0)) in Eg by lia. eapply withRoot_alone; [done | unfold update; by rewrite E|].
  assert (g = Z.min (t - f) (freeBytes x)) as -> by lia. unfold uwrap. rewrite Z.mod_small by lia. destruct (Z.leb_spec t (f + Z.min (t - f) (freeBytes x))).
  - apply wp_ret. lia.
  - eapply wp_mono; [apply IH; [done| |lia] | simpl; intros ? ? ->; lia | done]. rewrite Forall_forall in Hfresh |- *. intros y Hy. apply fresh_other; [auto|].
    intros Ey. apply Hnin. rewrite <- Ey. by apply list_elem_of_fmap_2.
Qed.

(** ** The arbitration *)
Lemma rely_alone parties : ∀ n w, rely parties w (alone n w).
Proof. intros n w. apply rely_refl. Qed.

Lemma decrementFreeCapacity_alone b w : wp (decrementFreeCapacity alone b)
  (λ f w', f = Z.min (freeCapacity_ w) b ∧ roots_ w' = roots_ w ∧ untouched w w') never w.
Proof.
  unfold decrementFreeCapacity, decrementFreeCapacityLocked. apply wp_bind. eexists _, (inl _). split; [done|]. cbn beta iota.
  apply wp_bind, wp_gets, wp_bind, wp_gets, wp_bind, wp_check; [apply Z.leb_le, Z.le_min_l|]. apply wp_bind, wp_modify, wp_ret. done.
Qed.

Section Idle.
Context (reclaimPool : nat → nat → Z → MemoryPoolImpl → MemoryPoolImpl * Z * option exn).
Context (abortPool : nat → nat → MemoryPoolImpl → MemoryPoolImpl).
Context (sort : (Candidate → Candidate → bool) → list Candidate → list Candidate).

(** What [std::sort] does with the candidates. *)
Context (sort_perm : ∀ f l, sort f l ≡ₚ l).
Context (sort_sorted : ∀ l, StronglySorted (λ x y, byFreeCapacity y x = false) (sort byFreeCapacity l)).

Lemma sorted_by_free l : StronglySorted (λ x y, freeBytes y ≤ freeBytes x) (sort byFreeCapacity l).
Proof.
  pose proof (sort_sorted l) as Hs. induction Hs as [|x k _ IH Hx]; constructor; [done|]. eapply Forall_impl; [exact Hx|].
  simpl. intros y. unfold byFreeCapacity. intros ?%Z.ltb_ge. lia.
Qed.

Lemma reclaimFree_alone requestor ids limit h c a cs t w :
  state requestor ids limit h c a w → Forall (wfCandidate ids) cs → NoDup (pool <$> cs) → Forall (fresh w) cs → 0 < t < 2 ^ 63 →
  wp (reclaimFreeMemoryFromCandidates alone sort cs t)
    (λ r w', r.1 = Z.min t (idleOf cs) ∧ state requestor ids limit (h + r.1) c a w' ∧ untouched w w') never w.
Proof.
  intros Hst Hcs Hnd Hfresh Ht. unfold reclaimFreeMemoryFromCandidates, sortCandidatesByFreeCapacity. apply wp_bind.
  pose proof (held_bound _ _ _ _ _ _ _ Hst). eapply wp_mono.
  - apply wp_quiet; [apply quiet_reclaimFreeLoop|]. eapply wp_and.
    + apply reclaimFreeLoop_alone; [lia | apply sorted_by_free | by rewrite sort_perm | by rewrite sort_perm | lia].
    + eapply (reclaimFreeLoop_wp alone requestor ids limit (rely_alone _) h c a); rewrite ?sort_perm, ?Z.add_0_r; (done || lia).
  - simpl. intros f w' [(-> & _ & Hst') Hu]. apply wp_bind, wp_modify, wp_ret. simpl. rewrite sort_perm in Hst' |- *. split; [done|].
    split; [by apply (state_same _ _ _ _ _ _ w') | done].
  - by intros e w' [[] _].
Qed.

(** From the free capacity on: [g] bytes are wanted. *)
Lemma arbitrateIdle_wp requestor ids limit c t g cs w (rest : Z → Z → list Candidate → M (bool * list Candidate)) :
  state requestor ids limit 0 c false w → 0 ≤ t ≤ g → g < 2 ^ 63 → c + g ≤ limit →
  Forall (wfCandidate ids) cs → NoDup (pool <$> cs) → Forall (fresh w) cs → t ≤ freeCapacity_ w + idleOf cs →
  wp (f ← decrementFreeCapacity alone g;
      if t <=? f then poolGrow alone requestor f ;; mret (true, cs) else
      check (f <? g) ;;
      freed ← guarded alone f (reclaimFreeMemoryFromCandidates alone sort cs (g - f));
      let '(more, candidates) := freed in
      let freedBytes := uwrap 64 (f + more) in
      if t <=? freedBytes then growBy alone requestor g freedBytes ;; mret (true, candidates) else rest f more candidates)
    (λ r w', r.1 = true ∧ granted requestor ids limit t w' ∧ untouched w w') never w.
Proof.
  intros Hst Ht Hg Hlim Hcs Hnd Hfresh Henough. pose proof (conserved_free _ _ (proj1 Hst)). apply wp_bind. eapply wp_mono.
  { eapply wp_and; [apply decrementFreeCapacity_alone|]. apply (decrementFreeCapacity_wp alone requestor ids limit (rely_alone _) 0 c false w g); (done || lia). }
  2: { by intros ? ? [[] _]. }
  simpl. intros f w3 [(Ef & Er3 & Hu3) (Hf & Hst3)]. destruct (Z.leb_spec t f).
  - apply wp_bind. eapply wp_mono.
    { apply wp_quiet; [apply quiet_noexcept, quiet_withRoot|]. apply (poolGrow_wp alone requestor ids limit (rely_alone _) 0 c false w3 f); (done || lia). }
    2: { by intros ? ? [[] _]. }
    simpl. intros _ w4 [(Hst4 & p' & Hp' & Hle) Hu4]. apply wp_ret. split; [done|]. split; [|by transitivity w3]. exists (c + f), p'. split; [done|]. split; [done | lia].
  - apply wp_bind, wp_check; [apply Z.ltb_lt; lia|]. apply wp_bind, wp_guarded. eapply wp_mono.
    { apply (reclaimFree_alone requestor ids limit f c false); [done..| |lia]. rewrite Forall_forall in Hfresh |- *. intros x Hx.
      destruct (Hfresh x Hx) as (q & Hq & ?). exists q. by rewrite Er3. }
    2: { by intros ? ? []. }
    intros [m cs1] w4 (Em & Hst4 & Hu4). simpl in Em, Hst4. pose proof (idleOf_nonneg _ _ Hfresh).
    assert (uwrap 64 (f + m) = f + m) as -> by (apply Z.mod_small; lia). rewrite (proj2 (Z.leb_le _ _)) by lia. apply wp_bind. eapply wp_mono.
    { apply wp_quiet; [apply quiet_growBy|]. apply (growBy_wp alone requestor ids limit (rely_alone _) c g (f + m) t w4 never); (done || lia). }
    2: { by intros ? ? [[] _]. }
    simpl. intros _ w5 [Hgr Hu5]. apply wp_ret. split; [done|]. split; [done|]. transitivity w3; [done|]. by transitivity w4.
Qed.

(** C13: When what is free and what the candidates hold without using it are
    enough for the request, the arbitration succeeds with them: no query is
    aborted and none is made to give up memory that it uses.  Nobody else runs
    in between, so the statistics of the candidates are true. *)
Theorem idle_capacity_suffices requestor ids limit c t cs w :
  state requestor ids limit 0 c false w → 0 ≤ t → c + t ≤ limit →
  Forall (wfCandidate ids) cs → NoDup (pool <$> cs) → Forall (fresh w) cs → t ≤ freeCapacity_ w + idleOf cs →
  ∃ w' cs', arbitrateMemory alone reclaimPool abortPool sort requestor cs t w = Ok (w', inl (true, cs')) ∧
    untouched w w' ∧ conserved 0 w' ∧ ∃ p', roots_ w' !! requestor = Some p' ∧ t ≤ capacity_ p'.
Proof.
  intros Hst Ht Hlim Hcs Hnd Hfresh Henough.
  assert (wp (arbitrateMemory alone reclaimPool abortPool sort requestor cs t) (λ r w', r.1 = true ∧ granted requestor ids limit t w' ∧ untouched w w') never w)
    as (w' & [[b cs']|e] & E & H); [| |done].
  - pose proof Hst as (_ & _ & _ & p & Hp & Hc & Hm & Ha). destruct (party_pool _ _ _ _ _ _ _ requestor Hst ltac:(by left)) as (p2 & Hp2 & (Hr & Hmax & _) & Hb & _).
    assert (p2 = p) as -> by congruence. unfold arbitrateMemory. apply wp_bind. eapply readRoot_alone; [done|]. rewrite Ha.
    apply wp_bind, wp_check; [done|]. apply wp_bind. eapply readRoot_alone; [done|]. unfold kMaxMemory, int64_max in Hmax, Hb.
    assert (uwrap 64 (maxCapacity_ p - capacity_ p) = limit - capacity_ p) as -> by (rewrite Hm; apply Z.mod_small; lia).
    apply wp_bind, wp_gets. set (w2 := w <| clock_ := _ |> <| clock_ := _ |>).
    assert (state requestor ids limit 0 (capacity_ p) false w2) as Hst2 by (apply (state_same _ _ _ _ _ _ w); try done; by eapply state_exact).
    eapply wp_mono; [eapply (arbitrateIdle_wp requestor ids limit (capacity_ p) t _ cs w2); try done; lia | done | done].
  - destruct H as (Hb & (c' & p' & (Hcon & _) & Hp' & Htp) & Hu). simpl in Hb. subst b. exists w', cs'. eauto 10.
Qed.
End Idle.

Lemma idle_capacity_suffices_witness : ∃ w' cs',
  arbitrateMemory alone keepAll keepOne sortBy 1 [mkCandidate false 0 0 1; mkCandidate false 0 40 2] 30 (twoQueries true) = Ok (w', inl (true, cs')) ∧ untouched (twoQueries true) w'.
Proof.
  destruct (idle_capacity_suffices keepAll keepOne sortBy sortBy_perm sortBy_sorted 1 [1%nat; 2%nat] 100 40 30
    [mkCandidate false 0 0 1; mkCandidate false 0 40 2] (twoQueries true)) as (w' & cs' & E & Hu & _).
  - apply twoQueries_state.
  - discriminate.
  - discriminate.
  - repeat constructor; try discriminate; left || (right; left).
  - apply (bool_decide_unpack _). vm_compute. exact I.
  - apply Forall_cons. split; [exists (queryPool 40 40) | apply Forall_cons; split; [exists (queryPool 50 10) | apply Forall_nil; exact I]].
    all: split; [reflexivity|]; split; [apply queryPool_wf; lia|]; split; reflexivity.
  - vm_compute. discriminate.
  - exists w', cs'. split; [exact E | exact Hu].
Defined.
