(* ===== verification/ArbitratorQueue.v ===== *)
(** * Memory arbitration: one request at a time

    The requests take turns: [startArbitration] lets a request run or queues it,
    [finishArbitration] resumes one that waits. *)
From S2P Require Import Prelude MemoryPool Arbitrator ArbitratorState ArbitratorCorrect ArbitratorTheorems.
Local Open Scope Z_scope.

(** ** Sequences of starts and ends *)
Inductive event := Start (request : nat) | Finish.

(** The requests that begin to run with the event. *)
Definition serve (e : event) : M (list nat) :=
  match e with
  | Start request => waits ← startArbitration alone request; mret (if waits : bool then [] else [request])
  | Finish => next ← finishArbitration alone; mret (option_list next)
  end.

Fixpoint serveAll (es : list event) : M (list nat) :=
  match es with
  | [] => mret []
  | e :: es => now ← serve e; later ← serveAll es; mret (now ++ later)
  end.

Fixpoint started (es : list event) : list nat :=
  match es with
  | [] => []
  | Start request :: es => request :: started es
  | Finish :: es => started es
  end.

(** How many requests have started and not ended, when [n] had before; only a
    request that has started can end. *)
Fixpoint unfinished (n : nat) (es : list event) : option nat :=
  match es with
  | [] => Some n
  | Start _ :: es => unfinished (S n) es
  | Finish :: es => match n with O => None | S n => unfinished n es end
  end.

(** [n] requests have started and not ended: one of them runs, the others wait. *)
Definition queued (n : nat) (w : World) : Prop := running_ w = bool_decide (n ≠ 0%nat) ∧ length (waitPromises_ w) = pred n.

Lemma start_wp r n w : queued n w →
  wp (startArbitration alone r) (λ waits w', queued (S n) w' ∧ (if waits then [] else [r]) ++ waitPromises_ w' ≡ₚ r :: waitPromises_ w) never w.
Proof.
  intros [Hrun Hlen]. unfold startArbitration. apply wp_bind. eexists _, (inl _). split; [done|]. cbn beta iota. change (alone (clock_ w) w) with w.
  apply wp_bind, wp_modify, wp_bind, wp_gets. simpl. rewrite Hrun. destruct n as [|n]; simpl.
  - apply nil_length_inv in Hlen. apply wp_bind, wp_gets. simpl. rewrite Hlen. apply wp_bind, wp_check; [done|]. apply wp_bind, wp_modify, wp_ret.
    unfold queued. simpl. done.
  - apply wp_bind, wp_modify, wp_ret. unfold queued. simpl. rewrite length_app, Hlen. simpl. split; [split; [done|lia]|]. by rewrite Permutation_app_comm.
Qed.

Lemma finish_wp n w : queued (S n) w →
  wp (finishArbitration alone) (λ next w', queued n w' ∧ option_list next ++ waitPromises_ w' ≡ₚ waitPromises_ w) never w.
Proof.
  intros [Hrun Hlen]. unfold finishArbitration. apply wp_bind. eexists _, (inl _). split; [done|]. cbn beta iota. change (alone (clock_ w) w) with w.
  apply wp_bind, wp_gets. simpl. rewrite Hrun. apply wp_bind, wp_check; [done|]. apply wp_bind, wp_gets. simpl in *.
  destruct n as [|n].
  - apply nil_length_inv in Hlen. simpl. rewrite Hlen. simpl. apply wp_bind, wp_modify, wp_ret. unfold queued. simpl. done.
  - destruct (waitPromises_ w) as [|x k _] eqn:E using rev_ind; [done|]. simpl. rewrite last_snoc. rewrite length_app in Hlen. simpl in Hlen.
    apply wp_bind, wp_modify, wp_ret. unfold queued. simpl. rewrite removelast_last, ?Hrun. split; [split; [done|lia]|]. by rewrite Permutation_app_comm.
Qed.

Lemma serveAll_wp es : ∀ n n' w, queued n w → unfinished n es = Some n' →
  wp (serveAll es) (λ ran w', queued n' w' ∧ ran ++ waitPromises_ w' ≡ₚ started es ++ waitPromises_ w) never w.
Proof.
  induction es as [|[r|] es IH]; intros n n' w Hq Hn; simpl in *.
  - apply wp_ret. by simplify_eq.
  - do 2 apply wp_bind. eapply wp_safe; [by apply (start_wp r n)|]. simpl. intros waits w1 [Hq1 Hp1]. apply wp_ret, wp_bind.
    eapply wp_safe; [by apply (IH (S n) n' w1)|]. simpl. intros ran w2 [Hq2 Hp2]. apply wp_ret. split; [done|].
    rewrite <- (assoc_L (++)), Hp2, !(assoc_L (++)), (Permutation_app_comm _ (started es)), <- (assoc_L (++)), Hp1. by rewrite Permutation_middle.
  - destruct n as [|n]; [done|]. do 2 apply wp_bind. eapply wp_safe; [by apply (finish_wp n)|]. simpl. intros next w1 [Hq1 Hp1]. apply wp_ret, wp_bind.
    eapply wp_safe; [by apply (IH n n' w1)|]. simpl. intros ran w2 [Hq2 Hp2]. apply wp_ret. split; [done|].
    by rewrite <- (assoc_L (++)), Hp2, !(assoc_L (++)), (Permutation_app_comm _ (started es)), <- (assoc_L (++)), Hp1.
Qed.

(** C15: Requests to an idle arbitrator, in any order of starts and ends: no start
    and no end fails, one request runs whenever some have not ended, each
    request runs at most once, the others wait, and when all have ended each has
    run exactly once. *)
Theorem requests_take_turns es n w : running_ w = false → waitPromises_ w = [] → unfinished 0 es = Some n →
  ∃ w' ran, serveAll es w = Ok (w', inl ran) ∧ ran ++ waitPromises_ w' ≡ₚ started es ∧
    length (waitPromises_ w') = pred n ∧ running_ w' = bool_decide (n ≠ 0%nat) ∧ (n = 0%nat → ran ≡ₚ started es).
Proof.
  intros Hrun Hwait Hn. destruct (serveAll_wp es 0 n w) as (w' & [ran|e] & E & H); [by split; rewrite ?Hwait | done | |done].
  destruct H as [[Hr Hl] Hp]. rewrite Hwait, app_nil_r in Hp. exists w', ran. split; [done|]. split; [done|]. split; [done|]. split; [done|].
  intros ->. apply nil_length_inv in Hl. by rewrite Hl, app_nil_r in Hp.
Qed.

Lemma requests_take_turns_witness : ∃ w' ran, serveAll [Start 1; Start 2; Finish; Start 3; Finish; Finish] (twoQueries false) = Ok (w', inl ran) ∧ ran ≡ₚ [1; 2; 3]%nat.
Proof.
  destruct (requests_take_turns [Start 1; Start 2; Finish; Start 3; Finish; Finish] 0 (twoQueries false) eq_refl eq_refl eq_refl) as (w' & ran & E & _ & _ & _ & H).
  exists w', ran. split; [exact E | exact (H eq_refl)].
Defined.

(** The requests that wait are resumed last come, first served. *)
Example overtaking w : running_ w = false → waitPromises_ w = [] →
  ∃ w', serveAll [Start 1; Start 2; Start 3; Finish; Finish; Finish] w = Ok (w', inl [1; 3; 2]%nat).
Proof. intros Hrun Hwait. destruct w. simpl in *. subst. eexists. cbv -[uwrap Z.add]. reflexivity. Qed.

(** ** The check of the caller's state *)

(** A request whose check throws leaves the arbitrator running: every request
    after it waits, and nobody is left to resume it. *)
Theorem failed_check_blocks interfere reclaimableOf reclaimPool abortPool sort e requestor ids t w es :
  running_ w = true → Forall (λ e, e ≠ Finish) es →
  ∃ w', growCapacity interfere reclaimableOf reclaimPool abortPool sort (Some e) requestor ids t w = Ok (w', inr e) ∧
  ∃ w'', serveAll es w' = Ok (w'', inl []) ∧ running_ w'' = true.
Proof.
  intros Hrun Hes. exists w. split; [done|]. revert w Hrun. induction Hes as [|x es Hx _ IH]; intros w Hrun; [by exists w|].
  destruct x as [r|]; [|done]. simpl. unfold startArbitration, mbind, M_bind. simpl. unfold alone. rewrite Hrun. simpl.
  match goal with |- context [serveAll es ?w1] => destruct (IH w1) as (w'' & E & Hr); [done|] end.
  exists w''. unfold mbind, M_bind in E. by rewrite E.
Qed.
