(* ===== verification/BitUtil.v ===== *)
(** * Bitmaps

    Models [common/base/BitUtil.h]: bits in words of 64, the loops over the
    words of a range of bits, and what is done with them.  A bitmap is the list
    of its words; access outside it is undefined, as are shifts by the width of
    the type and overflow of [int32_t]. *)
From S2P Require Import Prelude Bits.
Local Open Scope Z_scope.

(** ** Words *)
Definition allSet : Z := 2 ^ 64 - 1.
Definition not64 (w : Z) : Z := Z.lxor w allSet.

(** The positions of the bits that are set. *)
Definition bitsOf (w : Z) : list Z := filter (λ i, Z.testbit w i = true) (seqZ 0 64).

(** [__builtin_popcountll], [__builtin_ctzll] and [__builtin_clzll]. *)
Definition popcountll (w : Z) : Z := Z.of_nat (length (bitsOf w)).
Definition ctzll (w : Z) : outcome Z := match bitsOf w with i :: _ => Ok i | [] => Undefined end.
Definition clzll (w : Z) : outcome Z := match last (bitsOf w) with Some i => Ok (63 - i) | None => Undefined end.

Definition setWord (bits : list Z) (idx w : Z) : outcome (list Z) :=
  if (0 <=? idx) && (idx <? Z.of_nat (length bits)) then Ok (<[Z.to_nat idx := w]> bits) else Undefined.

Definition roundUp32 (value factor : Z) : outcome Z :=
  s ← add32 value (factor - 1); Ok (Z.quot s factor * factor).

Definition lowMask (bits : Z) : outcome Z :=
  if (0 <=? bits) && (bits <? 64) then Ok (uwrap 64 (Z.shiftl 1 bits - 1)) else Undefined.
Definition highMask (bits : Z) : outcome Z :=
  low ← lowMask bits;
  if (0 <=? 64 - bits) && (64 - bits <? 64) then Ok (uwrap 64 (Z.shiftl low (64 - bits))) else Undefined.

Definition nbytes (bits : Z) : outcome Z := r ← roundUp32 bits 8; Ok (uwrap 64 (Z.quot r 8)).
Definition nwords (bits : Z) : outcome Z := r ← roundUp32 bits 64; Ok (uwrap 64 (Z.quot r 64)).

(** ** Loops over the words of a range *)
Section Words.
Context {S : Type}.

Section ForEach.
Variable (partialWordFunc : Z → Z → S → outcome S) (fullWordFunc : Z → S → outcome S).

Fixpoint eachFullWord (fuel : nat) (i lastWord : Z) (s : S) : outcome S :=
  next ← add32 i 64;
  if next <=? lastWord then
    match fuel with
    | O => Undefined
    | Datatypes.S fuel => s ← fullWordFunc (Z.quot i 64) s; eachFullWord fuel next lastWord s
    end
  else Ok s.

Definition forEachWord (begin end_ : Z) (s : S) : outcome S :=
  if end_ <=? begin then Ok s else
  firstWord ← roundUp32 begin 64;
  let lastWord := Z.land end_ (-64) in
  if lastWord <? firstWord then
    low ← lowMask (end_ - lastWord); high ← highMask (firstWord - begin);
    partialWordFunc (Z.quot lastWord 64) (Z.land low high) s
  else
    s ← (if begin =? firstWord then Ok s
         else mask ← highMask (firstWord - begin); partialWordFunc (Z.quot begin 64) mask s);
    s ← eachFullWord (Z.to_nat (end_ - begin)) firstWord lastWord s;
    if end_ =? lastWord then Ok s
    else mask ← lowMask (end_ - lastWord); partialWordFunc (Z.quot lastWord 64) mask s.
End ForEach.

Section Masked.
Variable wordFunc : Z → Z → S → outcome S.

(** The variant with a single function. *)
Definition wordMask (begin end_ firstIndex lastIndex index : Z) : outcome Z :=
  mask ← (if (index =? firstIndex) && negb (begin =? firstIndex * 64)
          then highMask ((firstIndex + 1) * 64 - begin) else Ok allSet);
  if (index =? lastIndex) && negb (lastIndex * 64 + 64 =? end_)
  then low ← lowMask (end_ - lastIndex * 64); Ok (Z.land mask low) else Ok mask.

Definition forEachWordMasked (begin end_ : Z) (s : S) : outcome S :=
  if end_ <=? begin then Ok s else
  let firstIndex := Z.quot begin 64 in
  up ← roundUp32 end_ 64;
  let lastIndex := Z.quot (up - 64) 64 in
  foldM_o (λ s index, mask ← wordMask begin end_ firstIndex lastIndex index; wordFunc index mask s)
    (seqZ firstIndex (lastIndex - firstIndex + 1)) s.
End Masked.

Section Test.
Variable (partialWordFunc : Z → Z → S → outcome (bool * S)) (fullWordFunc : Z → S → outcome (bool * S)).

(** [andThen r k]: stops when the function has returned false. *)
Definition andThen (r : outcome (bool * S)) (k : S → outcome (bool * S)) : outcome (bool * S) :=
  r ← r; if r.1 : bool then k r.2 else Ok (false, r.2).

Fixpoint testFullWords (fuel : nat) (i lastWord : Z) (s : S) : outcome (bool * S) :=
  next ← add32 i 64;
  if next <=? lastWord then
    match fuel with
    | O => Undefined
    | Datatypes.S fuel => andThen (fullWordFunc (Z.quot i 64) s) (testFullWords fuel next lastWord)
    end
  else Ok (true, s).

Definition testWords (begin end_ : Z) (s : S) : outcome (bool * S) :=
  if end_ <=? begin then Ok (true, s) else
  firstWord ← roundUp32 begin 64;
  let lastWord := Z.land end_ (-64) in
  if lastWord <? firstWord then
    low ← lowMask (end_ - lastWord); high ← highMask (firstWord - begin);
    partialWordFunc (Z.quot lastWord 64) (Z.land low high) s
  else
    andThen (if begin =? firstWord then Ok (true, s)
             else mask ← highMask (firstWord - begin); partialWordFunc (Z.quot begin 64) mask s) (λ s,
    andThen (testFullWords (Z.to_nat (end_ - begin)) firstWord lastWord s) (λ s,
    if end_ =? lastWord then Ok (true, s)
    else mask ← lowMask (end_ - lastWord); partialWordFunc (Z.quot lastWord 64) mask s)).

Fixpoint testFullWordsReverse (fuel : nat) (i firstWord : Z) (s : S) : outcome (bool * S) :=
  if firstWord <=? i then
    match fuel with
    | O => Undefined
    | Datatypes.S fuel => andThen (fullWordFunc (Z.quot i 64) s) (testFullWordsReverse fuel (i - 64) firstWord)
    end
  else Ok (true, s).

Definition testWordsReverse (begin end_ : Z) (s : S) : outcome (bool * S) :=
  if end_ <=? begin then Ok (true, s) else
  firstWord ← roundUp32 begin 64;
  let lastWord := Z.land end_ (-64) in
  if lastWord <? firstWord then
    low ← lowMask (end_ - lastWord); high ← highMask (firstWord - begin);
    partialWordFunc (Z.quot lastWord 64) (Z.land low high) s
  else
    andThen (if end_ =? lastWord then Ok (true, s)
             else mask ← lowMask (end_ - lastWord); partialWordFunc (Z.quot lastWord 64) mask s) (λ s,
    andThen (testFullWordsReverse (Z.to_nat (end_ - begin)) (lastWord - 64) firstWord s) (λ s,
    if begin =? firstWord then Ok (true, s)
    else mask ← highMask (firstWord - begin); partialWordFunc (Z.quot begin 64) mask s)).
End Test.
End Words.

(** ** Single bits *)
Definition isBitSet (bits : list Z) (idx : Z) : outcome bool :=
  w ← index bits (uwrap 64 idx / 64); Ok (negb (Z.land w (Z.shiftl 1 (Z.land idx 63)) =? 0)).

(** The bytes of a word, the lowest first. *)
Definition byteOf (w k : Z) : Z := Z.land (Z.shiftr w (8 * k)) 255.
Definition withByte (w k b : Z) : Z := Z.lor (Z.ldiff w (Z.shiftl 255 (8 * k))) (Z.shiftl b (8 * k)).

(** [bitsAs8Bit[at] = f(bitsAs8Bit[at])]. *)
Definition updateByte (bits : list Z) (at_ : Z) (f : Z → Z) : outcome (list Z) :=
  w ← index bits (at_ / 8); setWord bits (at_ / 8) (withByte w (at_ mod 8) (f (byteOf w (at_ mod 8)))).

Definition kZeroBitmask (i : Z) : Z := uwrap 8 (Z.lnot (Z.shiftl 1 i)).

Definition setBit (bits : list Z) (idx : Z) : outcome (list Z) :=
  updateByte bits (idx / 8) (λ b, uwrap 8 (Z.lor b (Z.shiftl 1 (idx mod 8)))).
Definition clearBit (bits : list Z) (idx : Z) : outcome (list Z) :=
  updateByte bits (idx / 8) (λ b, Z.land b (kZeroBitmask (idx mod 8))).
Definition setBitTo (bits : list Z) (idx : Z) (value : bool) : outcome (list Z) :=
  if value then setBit bits idx else clearBit bits idx.

(** ** Ranges of bits *)
Definition fillBits (bits : list Z) (begin end_ : Z) (value : bool) : outcome (list Z) :=
  forEachWord
    (λ idx mask bits,
       w ← index bits idx;
       setWord bits idx (if value then Z.lor w (Z.land allSet mask) else Z.land w (not64 mask)))
    (λ idx bits, setWord bits idx (if value then allSet else 0))
    begin end_ bits.

Definition countBits (bits : list Z) (begin end_ : Z) : outcome Z :=
  forEachWord
    (λ idx mask count, w ← index bits idx; add32 count (popcountll (Z.land w mask)))
    (λ idx count, w ← index bits idx; add32 count (popcountll w))
    begin end_ 0.

Definition isAllSet (bits : list Z) (begin end_ : Z) (value : bool) : outcome bool :=
  if end_ <=? begin then Ok true else
  let word := if value then allSet else 0 in
  r ← testWords
    (λ idx mask s, w ← index bits idx; Ok (Z.land word mask =? Z.land w mask, s))
    (λ idx s, w ← index bits idx; Ok (word =? w, s))
    begin end_ tt;
  Ok r.1.

(** What a search does with the word it has come to. *)
Definition foundIn (at_ : Z → outcome Z) (idx word found : Z) : outcome (bool * Z) :=
  if word =? 0 then Ok (true, found)
  else i ← at_ word; base ← mul32 idx 64; found ← add32 base i; Ok (false, found).

Definition findFirstBit (bits : list Z) (begin end_ : Z) : outcome Z :=
  r ← testWords
    (λ idx mask found, w ← index bits idx; foundIn ctzll idx (Z.land w mask) found)
    (λ idx found, w ← index bits idx; foundIn ctzll idx w found)
    begin end_ (-1);
  Ok r.2.

Definition lastOf (word : Z) : outcome Z := zeros ← clzll word; Ok (63 - zeros).

Definition findLastBit (bits : list Z) (begin end_ : Z) (value : bool) : outcome Z :=
  r ← testWordsReverse
    (λ idx mask found, w ← index bits idx; foundIn lastOf idx (Z.land (if value then w else not64 w) mask) found)
    (λ idx found, w ← index bits idx; foundIn lastOf idx (if value then w else not64 w) found)
    begin end_ (-1);
  Ok r.2.

Definition findLastUnsetBit (bits : list Z) (begin end_ : Z) : outcome Z := findLastBit bits begin end_ false.

(** ** A function for each bit *)
Section Callable.
Context {S : Type} (func : Z → S → outcome S) (test : Z → S → outcome (bool * S)).

(** The loop that takes the lowest bit of the word until none is left. *)
Fixpoint eachBitOf (fuel : nat) (idx word : Z) (s : S) : outcome S :=
  if word =? 0 then Ok s else
  match fuel with
  | O => Undefined
  | Datatypes.S fuel =>
      i ← ctzll word; base ← mul32 idx 64; row ← add32 base i;
      s ← func row s;
      eachBitOf fuel idx (Z.land word (word - 1)) s
  end.

Definition forEachBit (bits : list Z) (begin end_ : Z) (isSet : bool) (s : S) : outcome S :=
  forEachWord
    (λ idx mask s, w ← index bits idx; eachBitOf 64 idx (Z.land (if isSet then w else not64 w) mask) s)
    (λ idx s, w ← index bits idx;
       let word := if isSet then w else not64 w in
       if word =? allSet then
         start ← mul32 idx 64;
         foldM_o (λ s row, func row s) (seqZ start 64) s
       else eachBitOf 64 idx word s)
    begin end_ s.

Definition forEachSetBit (bits : list Z) (begin end_ : Z) : S → outcome S := forEachBit bits begin end_ true.
Definition forEachUnsetBit (bits : list Z) (begin end_ : Z) : S → outcome S := forEachBit bits begin end_ false.

Fixpoint testBitsOf (fuel : nat) (idx word : Z) (s : S) : outcome (bool * S) :=
  if word =? 0 then Ok (true, s) else
  match fuel with
  | O => Undefined
  | Datatypes.S fuel =>
      i ← ctzll word; base ← mul32 idx 64; row ← add32 base i;
      andThen (test row s) (testBitsOf fuel idx (Z.land word (word - 1)))
  end.

Definition testBits (bits : list Z) (begin end_ : Z) (isSet : bool) (s : S) : outcome (bool * S) :=
  testWords
    (λ idx mask s, w ← index bits idx; testBitsOf 64 idx (Z.land (if isSet then w else not64 w) mask) s)
    (λ idx s, w ← index bits idx; testBitsOf 64 idx (if isSet then w else not64 w) s)
    begin end_ s.

Definition testSetBits (bits : list Z) (begin end_ : Z) : S → outcome (bool * S) := testBits bits begin end_ true.
Definition testUnsetBits (bits : list Z) (begin end_ : Z) : S → outcome (bool * S) := testBits bits begin end_ false.
End Callable.

(** ** A function for each group of [kWidth] bits *)
Section Batches.
Context {S : Type} (kWidth : Z) (func : Z → Z → S → outcome S).

Definition unitMask : outcome Z := if kWidth =? 64 then Ok allSet else lowMask kWidth.

Fixpoint eachBatchOf (fuel : nat) (index active first : Z) (s : S) : outcome S :=
  if active =? 0 then Ok s else
  match fuel with
  | O => Undefined
  | Datatypes.S fuel =>
      zeros ← ctzll active;
      let skip := Z.quot zeros kWidth * kWidth in
      let active := Z.shiftr active skip in
      let first := first + skip in
      unit ← unitMask;
      let selected := Z.land active unit in
      if selected =? 0 then eachBatchOf fuel index active first s else
      base ← mul32 index 64; at_ ← add32 base first;
      s ← func at_ selected s;
      eachBatchOf fuel index (if kWidth =? 64 then 0 else Z.shiftr active kWidth) (first + kWidth) s
  end.

Definition forBatches (bits : list Z) (begin end_ : Z) (s : S) : outcome S :=
  forEachWordMasked (λ idx mask s, w ← index bits idx; eachBatchOf 64 idx (Z.land w mask) 0 s) begin end_ s.
End Batches.

(** ** Two bitmaps *)

(** [left] is read from the target itself when they are the same array. *)
Definition andRange (negate : bool) (left : list Z → list Z) (right : list Z) (begin end_ : Z) (target : list Z) : outcome (list Z) :=
  forEachWord
    (λ idx mask target,
       t ← index target idx; l ← index (left target) idx; r ← index right idx;
       setWord target idx (Z.lor (Z.land t (not64 mask)) (Z.land (Z.land mask l) (if negate then not64 r else r))))
    (λ idx target,
       l ← index (left target) idx; r ← index right idx;
       setWord target idx (Z.land l (if negate then not64 r else r)))
    begin end_ target.

Definition orRange (negate : bool) (left : list Z → list Z) (right : list Z) (begin end_ : Z) (target : list Z) : outcome (list Z) :=
  forEachWord
    (λ idx mask target,
       t ← index target idx; l ← index (left target) idx; r ← index right idx;
       setWord target idx (Z.lor (Z.land t (not64 mask)) (Z.land mask (Z.lor l (if negate then not64 r else r)))))
    (λ idx target,
       l ← index (left target) idx; r ← index right idx;
       setWord target idx (Z.lor l (if negate then not64 r else r)))
    begin end_ target.

Definition andBitsInto (target left right : list Z) (begin end_ : Z) : outcome (list Z) := andRange false (λ _, left) right begin end_ target.
Definition andBits (target right : list Z) (begin end_ : Z) : outcome (list Z) := andRange false id right begin end_ target.
Definition andWithNegatedBitsInto (target left right : list Z) (begin end_ : Z) : outcome (list Z) := andRange true (λ _, left) right begin end_ target.
Definition andWithNegatedBits (target right : list Z) (begin end_ : Z) : outcome (list Z) := andRange true id right begin end_ target.
Definition orBitsInto (target left right : list Z) (begin end_ : Z) : outcome (list Z) := orRange false (λ _, left) right begin end_ target.
Definition orBits (target right : list Z) (begin end_ : Z) : outcome (list Z) := orRange false id right begin end_ target.
Definition orWithNegatedBitsInto (target left right : list Z) (begin end_ : Z) : outcome (list Z) := orRange true (λ _, left) right begin end_ target.
Definition orWithNegatedBits (target right : list Z) (begin end_ : Z) : outcome (list Z) := orRange true id right begin end_ target.

Definition isSubset (sub super : list Z) (begin end_ : Z) : outcome bool :=
  r ← testWords
    (λ idx mask s, w ← index sub idx; p ← index super idx; let subWord := Z.land w mask in Ok (Z.land p subWord =? subWord, s))
    (λ idx s, w ← index sub idx; p ← index super idx; Ok (Z.land p w =? w, s))
    begin end_ tt;
  Ok r.1.

Definition hasIntersection (left right : list Z) (begin end_ : Z) : outcome bool :=
  if end_ <=? begin then Ok false else
  r ← testWords
    (λ idx mask s, l ← index left idx; r ← index right idx; Ok (Z.land r (Z.land l mask) =? 0, s))
    (λ idx s, l ← index left idx; r ← index right idx; Ok (Z.land r l =? 0, s))
    begin end_ tt;
  Ok (negb r.1).

Definition isPowerOfTwo (size : Z) : outcome bool := count ← countBits [size] 0 64; Ok (count <=? 1).

(** ** Bytes and hashes *)
Definition reverseByte (byte : Z) : Z :=
  Z.lor (Z.lor (Z.lor (Z.lor (Z.lor (Z.lor (Z.lor
    (Z.shiftl (Z.land byte 1) 7) (Z.shiftl (Z.land byte 2) 5)) (Z.shiftl (Z.land byte 4) 3)) (Z.shiftl (Z.land byte 8) 1))
    (Z.shiftr (Z.land byte 16) 1)) (Z.shiftr (Z.land byte 32) 3)) (Z.shiftr (Z.land byte 64) 5)) (Z.shiftr (Z.land byte 128) 7).

Definition reverseBits (bytes : list Z) (numBytes : Z) : outcome (list Z) :=
  foldM_o (λ bytes i, byte ← index bytes i; Ok (<[Z.to_nat i := uwrap 8 (reverseByte byte)]> bytes)) (seqZ 0 numBytes) bytes.

Definition hashMix (upper lower : Z) : Z :=
  let kMul := 0x9ddfea08eb382d69 in
  let a := uwrap 64 (Z.lxor lower upper * kMul) in
  let a := Z.lxor a (Z.shiftr a 47) in
  let b := uwrap 64 (Z.lxor upper a * kMul) in
  let b := Z.lxor b (Z.shiftr b 47) in
  uwrap 64 (b * kMul).

Definition commutativeHashMix (upper lower : Z) : Z :=
  uwrap 64 (3860031 + uwrap 64 (uwrap 64 (upper + lower) * 2779) + uwrap 64 (uwrap 64 (upper * lower) * 2)).
