(* ===== verification/BitUtilWords.v ===== *)
(** * Bitmaps: words, masks and the loops over them

    Every loop over a range of bits visits the words of the range in order,
    each with the mask of the bits that lie in the range. *)
From S2P Require Import Prelude Bits BitUtil.
Local Open Scope Z_scope.

Ltac dlia := Z.to_euclidean_division_equations; lia.

(** ** Words *)
Definition isWord (w : Z) : Prop := 0 ≤ w < 2 ^ 64.

Lemma allSet_ones : allSet = Z.ones 64.
Proof. reflexivity. Qed.

Lemma isWord_intro w : (∀ i, 64 ≤ i → Z.testbit w i = false) → isWord w.
Proof.
  intros H. assert (w = w mod 2 ^ 64) as ->; [|apply Z.mod_pos_bound; lia]. apply Z.bits_inj'. intros i Hi. destruct (Z.lt_ge_cases i 64).
  - by rewrite Z.mod_pow2_bits_low.
  - by rewrite Z.mod_pow2_bits_high, H by lia.
Qed.

Lemma isWord_high w i : isWord w → 64 ≤ i → Z.testbit w i = false.
Proof. intros Hw Hi. by apply (testbit_small w 64). Qed.

Lemma word_ext a b : isWord a → isWord b → (∀ i, 0 ≤ i < 64 → Z.testbit a i = Z.testbit b i) → a = b.
Proof.
  intros Ha Hb H. apply Z.bits_inj'. intros i Hi. destruct (Z.lt_ge_cases i 64); [auto with lia|]. by rewrite !isWord_high by done.
Qed.

Lemma testbit_allSet i : 0 ≤ i → Z.testbit allSet i = (i <? 64).
Proof. intros Hi. rewrite allSet_ones, Z.testbit_ones by lia. by rewrite (proj2 (Z.leb_le 0 i)) by done. Qed.

Lemma testbit_not64 w i : 0 ≤ i < 64 → Z.testbit (not64 w) i = negb (Z.testbit w i).
Proof. intros Hi. unfold not64. rewrite Z.lxor_spec, testbit_allSet, (proj2 (Z.ltb_lt _ _)) by lia. by destruct (Z.testbit w i). Qed.

Lemma isWord_allSet : isWord allSet.
Proof. unfold isWord, allSet. lia. Qed.

Lemma isWord_not64 w : isWord w → isWord (not64 w).
Proof.
  intros Hw. apply isWord_intro. intros i Hi. unfold not64. rewrite Z.lxor_spec, testbit_allSet, (isWord_high w) by (done || lia).
  by rewrite (proj2 (Z.ltb_ge _ _)) by lia.
Qed.

Lemma isWord_land a b : isWord b → isWord (Z.land a b).
Proof. intros Hb. apply isWord_intro. intros i Hi. by rewrite Z.land_spec, (isWord_high b), andb_false_r by done. Qed.

Lemma isWord_lor a b : isWord a → isWord b → isWord (Z.lor a b).
Proof. intros Ha Hb. apply isWord_intro. intros i Hi. by rewrite Z.lor_spec, !isWord_high by done. Qed.

Create HintDb words.
#[export] Hint Resolve isWord_allSet isWord_not64 isWord_land isWord_lor : words.

Lemma elem_of_bitsOf w i : i ∈ bitsOf w ↔ 0 ≤ i < 64 ∧ Z.testbit w i = true.
Proof. unfold bitsOf. rewrite list_elem_of_filter, elem_of_seqZ. intuition lia. Qed.

Lemma bitsOf_land a b : bitsOf (Z.land a b) = filter (λ i, Z.testbit a i = true) (bitsOf b).
Proof.
  unfold bitsOf. rewrite list_filter_filter. apply list_filter_iff. intros i. rewrite Z.land_spec, andb_true_iff. done.
Qed.

Lemma bitsOf_allSet : bitsOf allSet = seqZ 0 64.
Proof. reflexivity. Qed.

Lemma bitsOf_zero w : isWord w → bitsOf w = [] ↔ w = 0.
Proof.
  intros Hw. split; [|by intros ->]. intros E. apply word_ext; [done | unfold isWord; lia|]. intros i Hi. rewrite Z.bits_0.
  destruct (Z.testbit w i) eqn:Et; [|done]. assert (i ∈ bitsOf w) as H by (by apply elem_of_bitsOf). rewrite E in H. by apply elem_of_nil in H.
Qed.

(** ** Masks *)
Definition maskOf (begin end_ k : Z) : Z := Z.ldiff (Z.ones (Z.max 0 (Z.min 64 (end_ - 64 * k)))) (Z.ones (Z.max 0 (begin - 64 * k))).

Lemma maskOf_spec begin end_ k j : 0 ≤ j < 64 → Z.testbit (maskOf begin end_ k) j = (begin <=? 64 * k + j) && (64 * k + j <? end_).
Proof.
  intros Hj. unfold maskOf. rewrite Z.ldiff_spec, !Z.testbit_ones by lia. rewrite (proj2 (Z.leb_le 0 j)) by lia. simpl.
  destruct (Z.ltb_spec j (Z.max 0 (Z.min 64 (end_ - 64 * k)))), (Z.ltb_spec j (Z.max 0 (begin - 64 * k))), (Z.leb_spec begin (64 * k + j)), (Z.ltb_spec (64 * k + j) end_); simpl; (done || lia).
Qed.

Lemma isWord_maskOf begin end_ k : isWord (maskOf begin end_ k).
Proof.
  apply isWord_intro. intros i Hi. unfold maskOf. rewrite Z.ldiff_spec, !Z.testbit_ones by lia.
  by rewrite (proj2 (Z.ltb_ge i (Z.max 0 (Z.min 64 (end_ - 64 * k))))), andb_false_r by lia.
Qed.
#[export] Hint Resolve isWord_maskOf : words.

Lemma maskOf_full begin end_ k : maskOf begin end_ k = allSet ↔ begin ≤ 64 * k ∧ 64 * k + 64 ≤ end_.
Proof.
  split.
  - intros E. pose proof (maskOf_spec begin end_ k 0 ltac:(lia)) as H0. pose proof (maskOf_spec begin end_ k 63 ltac:(lia)) as H1.
    rewrite E, testbit_allSet in H0, H1 by lia. simpl in H0, H1. symmetry in H0, H1. apply andb_true_iff in H0, H1. lia.
  - intros H. apply word_ext; auto with words. intros i Hi. rewrite maskOf_spec, testbit_allSet by lia.
    rewrite (proj2 (Z.leb_le _ _)), !(proj2 (Z.ltb_lt _ _)) by lia. done.
Qed.

Lemma lowMask_ones b : 0 ≤ b < 64 → lowMask b = Ok (Z.ones b).
Proof.
  intros Hb. unfold lowMask. rewrite (proj2 (Z.leb_le _ _)), (proj2 (Z.ltb_lt _ _)) by lia. simpl. f_equal. rewrite Z.ones_equiv.
  rewrite Z.shiftl_1_l. assert (2 ^ b ≤ 2 ^ 64) by (apply Z.pow_le_mono_r; lia). assert (0 < 2 ^ b) by (apply Z.pow_pos_nonneg; lia). unfold uwrap. rewrite Z.mod_small; lia.
Qed.

Lemma highMask_spec b : 1 ≤ b < 64 → ∃ m, highMask b = Ok m ∧ isWord m ∧ ∀ j, 0 ≤ j < 64 → Z.testbit m j = (64 - b <=? j).
Proof.
  intros Hb. unfold highMask. rewrite lowMask_ones by lia. simpl. rewrite (proj2 (Z.leb_le _ _)), (proj2 (Z.ltb_lt _ _)) by lia. simpl.
  eexists. split; [done|]. split; [apply Z.mod_pos_bound; lia|]. intros j Hj. unfold uwrap. rewrite Z.mod_pow2_bits_low, Z.shiftl_spec, Z.testbit_ones by lia.
  destruct (Z.leb_spec (64 - b) j), (Z.leb_spec 0 (j - (64 - b))), (Z.ltb_spec (j - (64 - b)) b); simpl; (done || lia).
Qed.

Lemma land_m64 x : Z.land x (-64) = 64 * (x / 64).
Proof. change (-64) with (Z.lnot (Z.ones 6)). rewrite <- Z.ldiff_land, Z.ldiff_ones_r, Z.shiftl_mul_pow2, Z.shiftr_div_pow2 by lia. change (2 ^ 6) with 64. lia. Qed.

Lemma roundUp32_spec x f : 0 ≤ x → 0 < f → x + f - 1 ≤ int32_max → roundUp32 x f = Ok (f * ((x + (f - 1)) / f)).
Proof.
  intros Hx Hf Hmax. unfold roundUp32, add32. rewrite checked32_Ok by (unfold_ints; lia). simpl. rewrite Z.quot_div_nonneg by lia. f_equal. lia.
Qed.

(** ** The words of a range *)
Definition wordsOf (begin end_ : Z) : list Z := seqZ (begin / 64) ((end_ - 1) / 64 + 1 - begin / 64).

(** A range a bitmap of [n] words has room for. *)
Definition inRange (n begin end_ : Z) : Prop := 0 ≤ begin < end_ ∧ end_ ≤ 64 * n ∧ end_ < int32_max - 63.

Lemma inRange_words n begin end_ k : inRange n begin end_ → k ∈ wordsOf begin end_ → 0 ≤ k < n ∧ begin < 64 * k + 64 ∧ 64 * k < end_.
Proof. intros (Hb & Hn & He). unfold wordsOf. rewrite elem_of_seqZ. intros Hk. dlia. Qed.

(** The rows of the word [k] that lie in the range. *)
Definition rowsIn (begin end_ k : Z) : list Z := Z.add (64 * k) <$> bitsOf (maskOf begin end_ k).

Lemma seqZ_split m a n : m ≤ a ≤ n → seqZ m (n - m) = seqZ m (a - m) ++ seqZ a (n - a).
Proof. intros H. replace (n - m) with ((a - m) + (n - a)) by lia. rewrite seqZ_app by lia. do 2 f_equal. lia. Qed.

Lemma filter_seqZ (P : Z → Prop) `{!∀ x, Decision (P x)} m a b n :
  m ≤ a → a ≤ b → b ≤ n → (∀ i, m ≤ i < n → P i ↔ a ≤ i < b) → filter P (seqZ m (n - m)) = seqZ a (b - a).
Proof.
  intros Hma Hab Hbn HP. rewrite (seqZ_split m a n), (seqZ_split a b n), !filter_app by lia.
  rewrite (filter_none P (seqZ m (a - m))), (filter_none P (seqZ b (n - b))), (filter_all P (seqZ a (b - a))), app_nil_r; [done|..].
  all: apply Forall_seqZ; intros i Hi; rewrite HP by lia; lia.
Qed.

Lemma rowsIn_seqZ begin end_ k : begin < 64 * k + 64 → 64 * k < end_ → begin < end_ →
  rowsIn begin end_ k = seqZ (Z.max begin (64 * k)) (Z.min end_ (64 * k + 64) - Z.max begin (64 * k)).
Proof.
  intros H1 H2 H3. unfold rowsIn, bitsOf. change (seqZ 0 64) with (seqZ 0 (64 - 0)).
  rewrite (filter_seqZ _ 0 (Z.max begin (64 * k) - 64 * k) (Z.min end_ (64 * k + 64) - 64 * k) 64); [| lia.. |].
  - rewrite fmap_add_seqZ. f_equal; lia.
  - intros i Hi. rewrite maskOf_spec, andb_true_iff, Z.leb_le, Z.ltb_lt by lia. lia.
Qed.

Lemma rows_of_words begin end_ n : 0 ≤ begin < end_ → begin / 64 + Z.of_nat n ≤ (end_ - 1) / 64 →
  seqZ (begin / 64) (Z.of_nat (S n)) ≫= rowsIn begin end_ = seqZ begin (Z.min end_ (64 * (begin / 64 + Z.of_nat (S n))) - begin).
Proof.
  intros Hb. induction n as [|n IH]; intros Hn.
  - simpl. rewrite app_nil_r, rowsIn_seqZ by dlia. f_equal; dlia.
  - rewrite seqZ_S, bind_app, IH by lia. simpl. rewrite app_nil_r, rowsIn_seqZ by dlia.
    replace (Z.max begin (64 * (begin / 64 + Z.of_nat (S n)))) with (64 * (begin / 64 + Z.of_nat (S n))) by dlia.
    rewrite Z.min_r by dlia. set (a := 64 * (begin / 64 + Z.of_nat (S n))).
    replace (64 * (begin / 64 + Z.of_nat (S (S n)))) with (a + 64) by lia. by rewrite (seqZ_split begin a (Z.min end_ (a + 64))) by dlia.
Qed.

(** The range is the rows of its words, in order. *)
Lemma range_words begin end_ : 0 ≤ begin < end_ → seqZ begin (end_ - begin) = wordsOf begin end_ ≫= rowsIn begin end_.
Proof.
  intros Hb. unfold wordsOf. replace ((end_ - 1) / 64 + 1 - begin / 64) with (Z.of_nat (S (Z.to_nat ((end_ - 1) / 64 - begin / 64)))) by dlia.
  rewrite rows_of_words by dlia. f_equal. dlia.
Qed.

(** ** Loops that can stop *)
Section TestFold.
Context {A S : Type}.

Fixpoint testFold (f : A → S → outcome (bool * S)) (l : list A) (s : S) : outcome (bool * S) :=
  match l with
  | [] => Ok (true, s)
  | x :: l => andThen (f x s) (testFold f l)
  end.

Lemma andThen_ext (r : outcome (bool * S)) k k' : (∀ s, k s = k' s) → andThen r k = andThen r k'.
Proof. intros H. unfold andThen. destruct r as [[[] s]| |]; simpl; auto. Qed.

Lemma andThen_assoc (r : outcome (bool * S)) k k' : andThen (andThen r k) k' = andThen r (λ s, andThen (k s) k').
Proof. by destruct r as [[[] s]| |]. Qed.

Lemma andThen_true (r : outcome (bool * S)) : andThen r (λ s, Ok (true, s)) = r.
Proof. by destruct r as [[[] s]| |]. Qed.

Lemma testFold_ext f g l s : (∀ x s, x ∈ l → f x s = g x s) → testFold f l s = testFold g l s.
Proof.
  revert s. induction l as [|x l IH]; intros s H; [done|]. simpl. rewrite (H x) by left. apply andThen_ext. intros s'. apply IH. intros y s2 Hy. apply H. by right.
Qed.

Lemma testFold_app f l k s : testFold f (l ++ k) s = andThen (testFold f l s) (testFold f k).
Proof. revert s. induction l as [|x l IH]; intros s; [done|]. simpl. rewrite andThen_assoc. by apply andThen_ext. Qed.

Lemma testFold_single f x s : testFold f [x] s = f x s.
Proof. apply andThen_true. Qed.

End TestFold.

Lemma testFold_bind {A B S} (f : B → S → outcome (bool * S)) (g : A → list B) l s : testFold f (l ≫= g) s = testFold (λ x, testFold f (g x)) l s.
Proof. revert s. induction l as [|x l IH]; intros s; [done|]. simpl. rewrite testFold_app. by apply andThen_ext. Qed.

Lemma testFold_fmap {A B S} (f : B → S → outcome (bool * S)) (g : A → B) l s : testFold f (g <$> l) s = testFold (λ x, f (g x)) l s.
Proof. revert s. induction l as [|x l IH]; intros s; [done|]. simpl. by apply andThen_ext. Qed.

(** ** The loops visit the words *)
Section Visit.
Context {S : Type} (p : Z → Z → S → outcome (bool * S)) (f : Z → S → outcome (bool * S)) (begin end_ : Z).
Context (Hrange : 0 ≤ begin < end_) (Hend : end_ < int32_max - 63).

Definition visit (k : Z) (s : S) : outcome (bool * S) :=
  if maskOf begin end_ k =? allSet then f k s else p k (maskOf begin end_ k) s.

Lemma visit_full k s : begin ≤ 64 * k → 64 * k + 64 ≤ end_ → visit k s = f k s.
Proof. intros H1 H2. unfold visit. by rewrite (proj2 (maskOf_full begin end_ k)), Z.eqb_refl. Qed.

Lemma visit_partial k m s : isWord m → (∀ j, 0 ≤ j < 64 → Z.testbit m j = (begin <=? 64 * k + j) && (64 * k + j <? end_)) →
  ¬ (begin ≤ 64 * k ∧ 64 * k + 64 ≤ end_) → visit k s = p k m s.
Proof.
  intros Hw Hm Hn. assert (maskOf begin end_ k = m) as E by (apply word_ext; auto with words; intros j Hj; by rewrite maskOf_spec, Hm).
  unfold visit. rewrite (proj2 (Z.eqb_neq _ _)); [by rewrite E|]. by rewrite maskOf_full.
Qed.

Lemma testFullWords_visit fuel a e s : 0 ≤ a ≤ e → e - a ≤ Z.of_nat fuel → begin ≤ 64 * a → 64 * e ≤ end_ →
  testFullWords f fuel (64 * a) (64 * e) s = testFold visit (seqZ a (e - a)) s.
Proof.
  unfold int32_max in Hend. revert a s. induction fuel as [|fuel IH]; intros a s Ha Hf H1 H2; simpl; unfold add32; rewrite checked32_Ok by (unfold_ints; lia); simpl.
  - rewrite (proj2 (Z.leb_gt _ _)) by lia. by rewrite seqZ_nil by lia.
  - destruct (Z.leb_spec (64 * a + 64) (64 * e)); [|by rewrite seqZ_nil by lia]. rewrite seqZ_cons by lia. simpl.
    rewrite Z.mul_comm, Z.quot_mul, visit_full by lia. apply andThen_ext. intros s'. replace (a * 64 + 64) with (64 * Z.succ a) by lia.
    rewrite IH by lia. do 2 f_equal. lia.
Qed.

Lemma testFullWordsReverse_visit fuel a e s : 0 ≤ a ≤ e → e - a ≤ Z.of_nat fuel → begin ≤ 64 * a → 64 * e ≤ end_ →
  testFullWordsReverse f fuel (64 * e - 64) (64 * a) s = testFold visit (reverse (seqZ a (e - a))) s.
Proof.
  revert e s. induction fuel as [|fuel IH]; intros e s Ha Hf H1 H2; simpl.
  - rewrite (proj2 (Z.leb_gt _ _)) by lia. by rewrite seqZ_nil by lia.
  - destruct (Z.leb_spec (64 * a) (64 * e - 64)); [|by rewrite seqZ_nil by lia]. replace (e - a) with (Z.of_nat (Datatypes.S (Z.to_nat (e - 1 - a)))) by lia.
    rewrite seqZ_S, reverse_app. replace (a + Z.of_nat (Z.to_nat (e - 1 - a))) with (e - 1) by lia. simpl.
    replace (64 * e - 64) with ((e - 1) * 64) by lia. rewrite Z.quot_mul, visit_full by lia. apply andThen_ext. intros s'.
    replace ((e - 1) * 64 - 64) with (64 * (e - 1) - 64) by lia. rewrite IH by lia. do 3 f_equal. lia.
Qed.

(** The parts of a range that meets a word boundary. *)
Lemma wordsOf_parts : let a := (begin + 63) / 64 in let e := end_ / 64 in 64 * a ≤ 64 * e →
  wordsOf begin end_ = (if begin =? 64 * a then [] else [begin / 64]) ++ seqZ a (e - a) ++ (if end_ =? 64 * e then [] else [e]).
Proof.
  intros a e Hae. assert (begin / 64 = a ∨ begin / 64 = a - 1) as Ha by (unfold a; dlia).
  assert (wordsOf begin end_ = seqZ (begin / 64) (a - begin / 64) ++ seqZ a (e - a) ++ seqZ e ((end_ - 1) / 64 + 1 - e)) as ->.
  { unfold wordsOf. rewrite (seqZ_split _ a) by (unfold a, e in *; dlia). by rewrite (seqZ_split a e) by (unfold a, e in *; dlia). }
  f_equal; [|f_equal].
  - destruct (Z.eqb_spec begin (64 * a)); [by rewrite seqZ_nil by (unfold a in *; dlia)|]. replace (a - begin / 64) with 1 by (unfold a in *; dlia). done.
  - destruct (Z.eqb_spec end_ (64 * e)); [by rewrite seqZ_nil by (unfold e in *; dlia)|]. replace ((end_ - 1) / 64 + 1 - e) with 1 by (unfold e in *; dlia). done.
Qed.

(** A range within one word. *)
Lemma wordsOf_inside : 64 * (end_ / 64) < 64 * ((begin + 63) / 64) → wordsOf begin end_ = [end_ / 64].
Proof.
  intros H. unfold wordsOf. replace ((end_ - 1) / 64 + 1 - begin / 64) with 1 by dlia. replace (begin / 64) with (end_ / 64) by dlia. done.
Qed.

Lemma first_visit s : begin ≠ 64 * ((begin + 63) / 64) → 64 * ((begin + 63) / 64) ≤ end_ →
  (mask ← highMask (64 * ((begin + 63) / 64) - begin); p (Z.quot begin 64) mask s) = visit (begin / 64) s.
Proof.
  intros Hne Hle. destruct (highMask_spec (64 * ((begin + 63) / 64) - begin)) as (m & -> & Hw & Hm); [dlia|]. simpl.
  rewrite Z.quot_div_nonneg by lia. symmetry. apply visit_partial; [done| |dlia]. intros j Hj. rewrite Hm by done.
  rewrite (proj2 (Z.ltb_lt (64 * (begin / 64) + j) end_)), andb_true_r by dlia.
  destruct (Z.leb_spec (64 - (64 * ((begin + 63) / 64) - begin)) j), (Z.leb_spec begin (64 * (begin / 64) + j)); (done || dlia).
Qed.

Lemma last_visit s : end_ ≠ 64 * (end_ / 64) → begin ≤ 64 * (end_ / 64) →
  (mask ← lowMask (end_ - 64 * (end_ / 64)); p (Z.quot (64 * (end_ / 64)) 64) mask s) = visit (end_ / 64) s.
Proof.
  intros Hne Hle. rewrite lowMask_ones by dlia. simpl. rewrite Z.mul_comm, Z.quot_mul by lia. symmetry. apply visit_partial; [| |dlia].
  - apply isWord_intro. intros i Hi. rewrite Z.testbit_ones, (proj2 (Z.ltb_ge i _)), andb_false_r by dlia. done.
  - intros j Hj. rewrite Z.testbit_ones by dlia. rewrite (proj2 (Z.leb_le begin _)), (proj2 (Z.leb_le 0 j)) by lia. simpl.
    destruct (Z.ltb_spec j (end_ - end_ / 64 * 64)), (Z.ltb_spec (64 * (end_ / 64) + j) end_); (done || dlia).
Qed.

Lemma inside_visit s : 64 * (end_ / 64) < 64 * ((begin + 63) / 64) →
  (low ← lowMask (end_ - 64 * (end_ / 64)); high ← highMask (64 * ((begin + 63) / 64) - begin);
   p (Z.quot (64 * (end_ / 64)) 64) (Z.land low high) s) = visit (end_ / 64) s.
Proof.
  intros H. rewrite lowMask_ones by dlia. simpl. destruct (highMask_spec (64 * ((begin + 63) / 64) - begin)) as (m & -> & Hw & Hm); [dlia|]. simpl.
  rewrite (Z.mul_comm 64 (end_ / 64)), Z.quot_mul by lia. symmetry. apply visit_partial; [by apply isWord_land| |dlia].
  intros j Hj. rewrite Z.land_spec, Hm, Z.testbit_ones, (proj2 (Z.leb_le 0 j)) by dlia. simpl. rewrite andb_comm.
  f_equal; [destruct (Z.leb_spec (64 - (64 * ((begin + 63) / 64) - begin)) j), (Z.leb_spec begin (64 * (end_ / 64) + j)) |
    destruct (Z.ltb_spec j (end_ - end_ / 64 * 64)), (Z.ltb_spec (64 * (end_ / 64) + j) end_)]; (done || dlia).
Qed.

Lemma testWords_visit s : testWords p f begin end_ s = testFold visit (wordsOf begin end_) s.
Proof.
  unfold testWords. rewrite (proj2 (Z.leb_gt _ _)) by lia. rewrite roundUp32_spec by (unfold int32_max in *; lia). simpl. change (64 - 1) with 63. rewrite land_m64.
  destruct (Z.ltb_spec (64 * (end_ / 64)) (64 * ((begin + 63) / 64))) as [Hin|Hout].
  - rewrite wordsOf_inside, testFold_single by done. by apply inside_visit.
  - rewrite wordsOf_parts, !testFold_app by done.
    assert (∀ s, (if begin =? 64 * ((begin + 63) / 64) then Ok (true, s) else mask ← highMask (64 * ((begin + 63) / 64) - begin); p (Z.quot begin 64) mask s) =
      testFold visit (if begin =? 64 * ((begin + 63) / 64) then [] else [begin / 64]) s) as ->.
    { intros s'. destruct (Z.eqb_spec begin (64 * ((begin + 63) / 64))); [done|]. rewrite testFold_single. apply first_visit; [done | dlia]. }
    apply andThen_ext. intros s1. rewrite testFold_app, testFullWords_visit by dlia. apply andThen_ext. intros s2.
    destruct (Z.eqb_spec end_ (64 * (end_ / 64))); [done|]. rewrite testFold_single. apply last_visit; [done | dlia].
Qed.

Lemma testWordsReverse_visit s : testWordsReverse p f begin end_ s = testFold visit (reverse (wordsOf begin end_)) s.
Proof.
  unfold testWordsReverse. rewrite (proj2 (Z.leb_gt _ _)) by lia. rewrite roundUp32_spec by (unfold int32_max in *; lia). simpl. change (64 - 1) with 63. rewrite land_m64.
  destruct (Z.ltb_spec (64 * (end_ / 64)) (64 * ((begin + 63) / 64))) as [Hin|Hout].
  - rewrite wordsOf_inside by done. change (reverse [end_ / 64]) with [end_ / 64]. rewrite testFold_single. by apply inside_visit.
  - rewrite wordsOf_parts, !reverse_app, <- (assoc_L (++)), !testFold_app by done.
    assert (∀ s, (if end_ =? 64 * (end_ / 64) then Ok (true, s) else mask ← lowMask (end_ - 64 * (end_ / 64)); p (Z.quot (64 * (end_ / 64)) 64) mask s) =
      testFold visit (reverse (if end_ =? 64 * (end_ / 64) then [] else [end_ / 64])) s) as ->.
    { intros s'. destruct (Z.eqb_spec end_ (64 * (end_ / 64))); [done|]. change (reverse [end_ / 64]) with [end_ / 64]. rewrite testFold_single. apply last_visit; [done | dlia]. }
    apply andThen_ext. intros s1. rewrite testFold_app, testFullWordsReverse_visit by dlia. apply andThen_ext. intros s2.
    destruct (Z.eqb_spec begin (64 * ((begin + 63) / 64))); [done|]. change (reverse [begin / 64]) with [begin / 64]. rewrite testFold_single. apply first_visit; [done | dlia].
Qed.
End Visit.

(** ** The loops that do not stop *)
Definition going {S} (r : outcome S) : outcome (bool * S) := s ← r; Ok (true, s).

Lemma going_inj {S} (x y : outcome S) : going x = going y → x = y.
Proof. destruct x, y; naive_solver. Qed.

Lemma andThen_going {S} (r : outcome S) (k : S → outcome S) k' : (∀ s, k' s = going (k s)) → andThen (going r) k' = going (s ← r; k s).
Proof. intros H. destruct r; simpl; [by rewrite H | done..]. Qed.

Section ForEachVisit.
Context {S : Type} (p : Z → Z → S → outcome S) (f : Z → S → outcome S).

Definition visitEach (begin end_ k : Z) (s : S) : outcome S :=
  if maskOf begin end_ k =? allSet then f k s else p k (maskOf begin end_ k) s.

Lemma eachFullWord_going fuel i e s : testFullWords (λ k s, going (f k s)) fuel i e s = going (eachFullWord f fuel i e s).
Proof.
  revert i s. induction fuel as [|fuel IH]; intros i s; simpl; destruct (add32 i 64); simpl; try done; destruct (_ <=? e); try done.
  apply andThen_going. auto.
Qed.

Lemma forEachWord_going begin end_ s : testWords (λ k m s, going (p k m s)) (λ k s, going (f k s)) begin end_ s = going (forEachWord p f begin end_ s).
Proof.
  unfold testWords, forEachWord. destruct (end_ <=? begin); [done|]. destruct (roundUp32 begin 64) as [first| |]; simpl; [|done..].
  destruct (_ <? first); [destruct (lowMask _); simpl; [|done..]; by destruct (highMask _)|].
  assert (∀ s, (if begin =? first then Ok (true, s) else mask ← highMask (first - begin); going (p (Z.quot begin 64) mask s)) =
    going (if begin =? first then Ok s else mask ← highMask (first - begin); p (Z.quot begin 64) mask s)) as ->.
  { intros s'. destruct (begin =? first); [done|]. by destruct (highMask _). }
  apply andThen_going. intros s1. rewrite eachFullWord_going. apply andThen_going. intros s2. destruct (end_ =? _); [done|]. by destruct (lowMask _).
Qed.

Lemma testFold_going {A} (g : A → S → outcome S) l s : testFold (λ x s, going (g x s)) l s = going (foldM_o (λ s x, g x s) l s).
Proof. revert s. induction l as [|x l IH]; intros s; [done|]. simpl. by apply andThen_going. Qed.

Lemma forEachWord_visit begin end_ s : 0 ≤ begin < end_ → end_ < int32_max - 63 →
  forEachWord p f begin end_ s = foldM_o (λ s k, visitEach begin end_ k s) (wordsOf begin end_) s.
Proof.
  intros Hr He. apply going_inj. rewrite <- forEachWord_going, testWords_visit, <- testFold_going by done. apply testFold_ext. intros k s' _.
  unfold visit, visitEach. by destruct (_ =? allSet).
Qed.
End ForEachVisit.

Lemma wordMask_spec begin end_ k : 0 ≤ begin < end_ → k ∈ wordsOf begin end_ →
  wordMask begin end_ (begin / 64) ((end_ - 1) / 64) k = Ok (maskOf begin end_ k).
Proof.
  intros Hr. unfold wordsOf. rewrite elem_of_seqZ. intros Hk. unfold wordMask.
  assert (∃ m, (if (k =? begin / 64) && negb (begin =? begin / 64 * 64) then highMask ((begin / 64 + 1) * 64 - begin) else Ok allSet) = Ok m ∧
    isWord m ∧ ∀ j, 0 ≤ j < 64 → Z.testbit m j = (begin <=? 64 * k + j)) as (m & -> & Hw & Hm).
  { destruct (Z.eqb_spec k (begin / 64)) as [E|E], (Z.eqb_spec begin (begin / 64 * 64)) as [E2|E2]; simpl.
    2: { destruct (highMask_spec ((begin / 64 + 1) * 64 - begin)) as (m & -> & Hw & Hm); [dlia|]. exists m. split; [done|]. split; [done|]. intros j Hj. rewrite Hm by done.
      destruct (Z.leb_spec (64 - ((begin / 64 + 1) * 64 - begin)) j), (Z.leb_spec begin (64 * k + j)); (done || dlia). }
    all: exists allSet; split; [done|]; split; [apply isWord_allSet|]; intros j Hj; rewrite testbit_allSet, (proj2 (Z.ltb_lt _ _)) by lia; symmetry; apply Z.leb_le; dlia. }
  simpl. destruct (Z.eqb_spec k ((end_ - 1) / 64)) as [E|E], (Z.eqb_spec ((end_ - 1) / 64 * 64 + 64) end_) as [E2|E2]; simpl.
  2: { rewrite lowMask_ones by dlia. simpl. f_equal. apply word_ext; [rewrite Z.land_comm; by apply isWord_land | apply isWord_maskOf|].
    intros j Hj. rewrite Z.land_spec, Hm, maskOf_spec, Z.testbit_ones, (proj2 (Z.leb_le 0 j)) by dlia. simpl. f_equal.
    destruct (Z.ltb_spec j (end_ - (end_ - 1) / 64 * 64)), (Z.ltb_spec (64 * k + j) end_); (done || dlia). }
  all: f_equal; apply word_ext; [done | apply isWord_maskOf|]; intros j Hj; rewrite Hm, maskOf_spec, (proj2 (Z.ltb_lt (64 * k + j) end_)), andb_true_r by dlia; done.
Qed.

Lemma forEachWordMasked_visit {S} (g : Z → Z → S → outcome S) begin end_ s : 0 ≤ begin < end_ → end_ < int32_max - 63 →
  forEachWordMasked g begin end_ s = foldM_o (λ s k, g k (maskOf begin end_ k) s) (wordsOf begin end_) s.
Proof.
  intros Hr He. unfold forEachWordMasked. rewrite (proj2 (Z.leb_gt _ _)) by lia. rewrite roundUp32_spec by (unfold int32_max in *; lia). simpl.
  rewrite Z.quot_div_nonneg by lia. replace (64 * ((end_ + (64 - 1)) / 64) - 64) with ((end_ - 1) / 64 * 64) by dlia. rewrite Z.quot_mul by lia.
  replace ((end_ - 1) / 64 - begin / 64 + 1) with ((end_ - 1) / 64 + 1 - begin / 64) by lia. fold (wordsOf begin end_).
  assert (∀ k, k ∈ wordsOf begin end_ → wordMask begin end_ (begin / 64) ((end_ - 1) / 64) k = Ok (maskOf begin end_ k)) as Hk by (intros; by apply wordMask_spec).
  revert s Hk. induction (wordsOf begin end_) as [|k l IH]; intros s Hk; [done|]. simpl. rewrite (Hk k) by left. simpl.
  destruct (g k _ s); simpl; [|done..]. apply IH. intros k' Hk'. apply Hk. by right.
Qed.
