(* ===== verification/BitUtilTheorems.v ===== *)
(** * Bitmaps: theorems

    What the functions on bitmaps do, bit by bit. *)
From S2P Require Import Prelude Bits BitUtil BitUtilWords.
Local Open Scope Z_scope.

(** ** Bits *)
Definition bit (bits : list Z) (i : Z) : bool :=
  match bits !! Z.to_nat (i / 64) with Some w => Z.testbit w (i mod 64) | None => false end.

Definition wfBits (bits : list Z) : Prop := Forall isWord bits.

(** A range of rows of the bitmap; it may be empty.  It ends below row
    2^31 - 64: in the last 64 rows that an [int32_t] can number the functions
    may overflow ([last_rows_overflow] in [BitUtilUpdates]). *)
Definition rangeOf (bits : list Z) (begin end_ : Z) : Prop := 0 ≤ begin ∧ end_ ≤ 64 * Z.of_nat (length bits) ∧ end_ < int32_max - 63.

(** The rows of the range whose bit is [v], in order. *)
Definition rowsWith (bits : list Z) (begin end_ : Z) (v : bool) : list Z := filter (λ i, bit bits i = v) (seqZ begin (end_ - begin)).

Lemma filter_ext_in {A} (P Q : A → Prop) `{!∀ x, Decision (P x), !∀ x, Decision (Q x)} (l : list A) : (∀ x, x ∈ l → P x ↔ Q x) → filter P l = filter Q l.
Proof.
  induction l as [|x l IH]; intros Hl; [done|]. rewrite !filter_cons, IH by (intros y Hy; apply Hl; by right). specialize (Hl x ltac:(left)).
  destruct (decide (P x)), (decide (Q x)); tauto.
Qed.

Lemma filter_add (P : Z → Prop) `{!∀ x, Decision (P x)} d (l : list Z) : filter P (Z.add d <$> l) = Z.add d <$> filter (λ j, P (d + j)) l.
Proof. induction l as [|x l IH]; [done|]. rewrite fmap_cons, !filter_cons, IH. by destruct (decide (P (d + x))). Qed.

Lemma filter_mbind {A B} (P : B → Prop) `{!∀ x, Decision (P x)} (h : A → list B) (l : list A) : filter P (l ≫= h) = l ≫= (λ x, filter P (h x)).
Proof. induction l as [|x l IH]; [done|]. csimpl. by rewrite filter_app, IH. Qed.

Lemma mbind_ext_in {A B} (h h' : A → list B) (l : list A) : (∀ x, x ∈ l → h x = h' x) → l ≫= h = l ≫= h'.
Proof. induction l as [|x l IH]; intros H; [done|]. csimpl. rewrite (H x) by left. f_equal. apply IH. intros y Hy. apply H. by right. Qed.

Lemma reverse_mbind {A B} (h : A → list B) (l : list A) : reverse (l ≫= h) = reverse l ≫= (λ x, reverse (h x)).
Proof. induction l as [|x l IH]; [done|]. csimpl. rewrite reverse_app, reverse_cons, bind_app, IH. simpl. by rewrite app_nil_r. Qed.

Lemma foldM_mbind {A B S} (g : S → B → outcome S) (h : A → list B) l s : foldM_o g (l ≫= h) s = foldM_o (λ s x, foldM_o g (h x) s) l s.
Proof. revert s. induction l as [|x l IH]; intros s; [done|]. csimpl. rewrite foldM_o_app. destruct (foldM_o g (h x) s); simpl; auto. Qed.

Lemma foldM_ext {A S} (g g' : S → A → outcome S) l s : (∀ s x, x ∈ l → g s x = g' s x) → foldM_o g l s = foldM_o g' l s.
Proof.
  revert s. induction l as [|x l IH]; intros s H; [done|]. simpl. rewrite (H s x) by left. destruct (g' s x); simpl; [|done..].
  apply IH. intros s' y Hy. apply H. by right.
Qed.

Lemma word_at bits k : wfBits bits → 0 ≤ k < Z.of_nat (length bits) → ∃ w, index bits k = Ok w ∧ bits !! Z.to_nat k = Some w ∧ isWord w.
Proof.
  intros Hwf Hk. destruct (lookup_lt_is_Some_2 bits (Z.to_nat k)) as [w Hw]; [lia|]. exists w. unfold index. rewrite (proj2 (Z.ltb_ge _ _)), Hw by lia.
  split; [done|]. split; [done|]. by apply (Forall_lookup_1 _ _ _ _ Hwf Hw).
Qed.

Lemma bit_at bits k w j : bits !! Z.to_nat k = Some w → 0 ≤ j < 64 → bit bits (64 * k + j) = Z.testbit w j.
Proof. intros Hw Hj. unfold bit. replace ((64 * k + j) / 64) with k by dlia. rewrite Hw. f_equal. dlia. Qed.

(** The word as it is, or with its bits turned over. *)
Definition viewed (v : bool) (w : Z) : Z := if v then w else not64 w.

Lemma testbit_viewed v w j : 0 ≤ j < 64 → Z.testbit (viewed v w) j = true ↔ Z.testbit w j = v.
Proof. intros Hj. destruct v; simpl; [done|]. rewrite testbit_not64 by done. by destruct (Z.testbit w j). Qed.

Lemma isWord_viewed v w : isWord w → isWord (viewed v w).
Proof. destruct v; simpl; auto with words. Qed.
#[export] Hint Resolve isWord_viewed : words.

Lemma rows_of_word bits begin end_ k w v : bits !! Z.to_nat k = Some w →
  filter (λ i, bit bits i = v) (rowsIn begin end_ k) = Z.add (64 * k) <$> bitsOf (Z.land (viewed v w) (maskOf begin end_ k)).
Proof.
  intros Hw. unfold rowsIn. rewrite filter_add, bitsOf_land. f_equal. apply filter_ext_in. intros j [Hj _]%elem_of_bitsOf.
  by rewrite (bit_at bits k w j Hw Hj), testbit_viewed.
Qed.

(** The rows of a range, word by word. *)
Lemma rowsWith_words bits begin end_ v : 0 ≤ begin < end_ →
  rowsWith bits begin end_ v = wordsOf begin end_ ≫= λ k, filter (λ i, bit bits i = v) (rowsIn begin end_ k).
Proof. intros Hr. unfold rowsWith. by rewrite range_words, filter_mbind. Qed.

Lemma rowsWith_empty bits begin end_ v : end_ ≤ begin → rowsWith bits begin end_ v = [].
Proof. intros H. unfold rowsWith. by rewrite seqZ_nil by lia. Qed.

Lemma words_in_range bits begin end_ k : rangeOf bits begin end_ → begin < end_ → k ∈ wordsOf begin end_ →
  0 ≤ k < Z.of_nat (length bits) ∧ begin < 64 * k + 64 ∧ 64 * k < end_.
Proof. intros (Hb & Hn & He) Hlt Hk. by apply inRange_words. Qed.

(** ** The bits of a word, one after the other *)
Lemma filter_seqZ_least (P : Z → Prop) `{!∀ x, Decision (P x)} n m i l : filter P (seqZ m (Z.of_nat n)) = i :: l → ∀ j, m ≤ j < i → ¬ P j.
Proof.
  revert m. induction n as [|n IH]; intros m E j Hj; [done|]. rewrite seqZ_cons in E by lia. rewrite filter_cons in E. destruct (decide (P m)).
  - simplify_eq. lia.
  - destruct (decide (j = m)) as [->|]; [done|]. apply (IH (Z.succ m)); [by replace (Z.of_nat n) with (Z.pred (Z.of_nat (S n))) by lia | lia].
Qed.

Lemma pred_bits w i j : 0 ≤ i → (∀ j, 0 ≤ j < i → Z.testbit w j = false) → Z.testbit w i = true → i ≤ j →
  Z.testbit (w - 1) j = Z.testbit w j && negb (j =? i).
Proof.
  intros Hi Hlow Hbit Hj. assert (w mod 2 ^ i = 0) as Hmod.
  { apply Z.bits_inj'. intros k Hk. rewrite Z.bits_0. destruct (Z.lt_ge_cases k i); [rewrite Z.mod_pow2_bits_low by lia; apply Hlow; lia | apply Z.mod_pow2_bits_high; lia]. }
  apply Z.testbit_true in Hbit; [|done]. assert (0 < 2 ^ i) by (apply Z.pow_pos_nonneg; lia). set (q := w / 2 ^ i) in *.
  assert (w = 2 ^ i * q) as Ew by (unfold q; rewrite (Z.div_mod w (2 ^ i)) at 1 by lia; lia).
  assert ((w - 1) / 2 ^ i = q - 1) as Eq by (symmetry; apply (Z.div_unique_pos _ _ _ (2 ^ i - 1)); lia).
  assert (∀ x, Z.testbit x j = Z.testbit (x / 2 ^ i) (j - i)) as Hsh by (intros x; rewrite Z.div_pow2_bits by lia; f_equal; lia).
  rewrite (Hsh (w - 1)), (Hsh w), Eq. fold q. clearbody q. assert (∃ r, q = 2 * r + 1) as [r ->] by (exists (q / 2); dlia). replace (2 * r + 1 - 1) with (2 * r) by lia.
  destruct (Z.eqb_spec j i) as [->|]; rewrite ?andb_false_r, ?andb_true_r; simpl.
  - rewrite Z.sub_diag. apply Z.testbit_even_0.
  - replace (j - i) with (Z.succ (j - i - 1)) by lia. by rewrite Z.testbit_even_succ, Z.testbit_odd_succ by lia.
Qed.

Lemma lowest_cleared w i l : bitsOf w = i :: l → bitsOf (Z.land w (w - 1)) = l.
Proof.
  intros E. assert (i ∈ bitsOf w) as [Hi Hbit]%elem_of_bitsOf by (rewrite E; left).
  assert (∀ j, 0 ≤ j < i → Z.testbit w j = false) as Hlow by (intros j Hj; apply not_true_iff_false; by apply (filter_seqZ_least _ 64 0 i l E)).
  assert (bitsOf (Z.land w (w - 1)) = filter (λ j, j ≠ i) (bitsOf w)) as ->.
  { unfold bitsOf. rewrite list_filter_filter. apply filter_ext_in. intros j Hj%elem_of_seqZ. rewrite Z.land_spec. destruct (Z.lt_ge_cases j i).
    - rewrite Hlow by lia. naive_solver.
    - rewrite (pred_bits w i j) by (done || lia). destruct (Z.testbit w j), (Z.eqb_spec j i); naive_solver. }
  pose proof (NoDup_seqZ 0 64) as Hnd. assert (NoDup (bitsOf w)) as Hn by by apply NoDup_filter. rewrite E in *. apply NoDup_cons in Hn as [Hni _].
  rewrite filter_cons_False by tauto. apply filter_all. apply Forall_forall. intros j Hj ->. done.
Qed.

Lemma ctzll_cons w i l : bitsOf w = i :: l → ctzll w = Ok i.
Proof. unfold ctzll. by intros ->. Qed.

Lemma isWord_cleared w : isWord w → isWord (Z.land w (w - 1)).
Proof. intros H. rewrite Z.land_comm. by apply isWord_land. Qed.

(** A word that lies below the rows an [int32_t] can number. *)
Definition lowWord (k : Z) : Prop := 0 ≤ k ∧ 64 * k + 63 ≤ int32_max.

Lemma row_number {A} k i (g : Z → outcome A) : lowWord k → 0 ≤ i < 64 → (base ← mul32 k 64; row ← add32 base i; g row) = g (64 * k + i).
Proof.
  intros [Hk Hk'] Hi. unfold mul32, add32. rewrite checked32_Ok by (unfold_ints; unfold int32_max in *; lia). simpl.
  rewrite checked32_Ok by (unfold_ints; unfold int32_max in *; lia). simpl. f_equal. lia.
Qed.

Lemma word_start k : lowWord k → mul32 k 64 = Ok (64 * k).
Proof. intros [Hk Hk']. unfold mul32. rewrite checked32_Ok by (unfold_ints; unfold int32_max in *; lia). f_equal. lia. Qed.

Lemma eachBitOf_spec {S} (func : Z → S → outcome S) k fuel : lowWord k → ∀ w s, isWord w → (length (bitsOf w) ≤ fuel)%nat →
  eachBitOf func fuel k w s = foldM_o (λ s i, func i s) (Z.add (64 * k) <$> bitsOf w) s.
Proof.
  intros Hk. induction fuel as [|fuel IH]; intros w s Hw Hf; simpl.
  - destruct (bitsOf w) eqn:E; [|simpl in Hf; lia]. apply bitsOf_zero in E; [|done]. by subst w.
  - destruct (bitsOf w) as [|i l] eqn:E; [apply bitsOf_zero in E; [|done]; by subst w|].
    assert (i ∈ bitsOf w) as [Hi _]%elem_of_bitsOf by (rewrite E; left).
    rewrite (proj2 (Z.eqb_neq w 0)) by (intros ->; discriminate E). rewrite (ctzll_cons w i l E). csimpl. rewrite (row_number k i) by done.
    destruct (func _ s) as [s'| |]; simpl; [|done..]. rewrite IH, (lowest_cleared w i l E); [done | by apply isWord_cleared | rewrite (lowest_cleared w i l E); simpl in Hf; lia].
Qed.

Lemma testBitsOf_spec {S} (test : Z → S → outcome (bool * S)) k fuel : lowWord k → ∀ w s, isWord w → (length (bitsOf w) ≤ fuel)%nat →
  testBitsOf test fuel k w s = testFold test (Z.add (64 * k) <$> bitsOf w) s.
Proof.
  intros Hk. induction fuel as [|fuel IH]; intros w s Hw Hf; simpl.
  - destruct (bitsOf w) eqn:E; [|simpl in Hf; lia]. apply bitsOf_zero in E; [|done]. by subst w.
  - destruct (bitsOf w) as [|i l] eqn:E; [apply bitsOf_zero in E; [|done]; by subst w|].
    assert (i ∈ bitsOf w) as [Hi _]%elem_of_bitsOf by (rewrite E; left).
    rewrite (proj2 (Z.eqb_neq w 0)) by (intros ->; discriminate E). rewrite (ctzll_cons w i l E). csimpl. rewrite (row_number k i) by done.
    apply andThen_ext. intros s'. rewrite IH, (lowest_cleared w i l E); [done | by apply isWord_cleared | rewrite (lowest_cleared w i l E); simpl in Hf; lia].
Qed.

Lemma length_bitsOf w : (length (bitsOf w) ≤ 64)%nat.
Proof. unfold bitsOf. rewrite length_filter, length_seqZ. lia. Qed.

(** The word a full visit and a partial visit see. *)
Lemma full_view begin end_ k v w : isWord w → maskOf begin end_ k = allSet → Z.land (viewed v w) (maskOf begin end_ k) = viewed v w.
Proof.
  intros Hw ->. apply word_ext; auto with words. intros i Hi. by rewrite Z.land_spec, testbit_allSet, (proj2 (Z.ltb_lt _ _)), andb_true_r by lia.
Qed.

Lemma lowWord_in bits begin end_ k : rangeOf bits begin end_ → begin < end_ → k ∈ wordsOf begin end_ → lowWord k.
Proof. intros Hr Hlt Hk. destruct (words_in_range _ _ _ _ Hr Hlt Hk) as (H1 & _ & H2). destruct Hr as (_ & _ & He). unfold lowWord. lia. Qed.

(** C16: For a range of rows within the bitmap that ends below row 2^31 - 64,
    [forEachBit] calls its function with every row of the range whose bit is
    set (or not set), each once and in increasing order, whatever the function
    does with its state, also when it throws: the masks, the two kinds of words,
    the shortcut for full words and the loop that clears the lowest bit together
    are a walk over the rows.  (For ranges that reach the last 64 rows an
    [int32_t] can number, the index of the loop over the words overflows.) *)
Theorem forEachBit_rows {S} (func : Z → S → outcome S) bits begin end_ isSet s : wfBits bits → rangeOf bits begin end_ →
  forEachBit func bits begin end_ isSet s = foldM_o (λ s i, func i s) (rowsWith bits begin end_ isSet) s.
Proof.
  intros Hwf Hr. destruct (Z.le_gt_cases end_ begin) as [Hle|Hlt].
  { rewrite rowsWith_empty by done. unfold forEachBit, forEachWord. by rewrite (proj2 (Z.leb_le _ _)). }
  pose proof Hr as (Hb & Hn & He). unfold forEachBit. rewrite forEachWord_visit by lia. rewrite rowsWith_words, foldM_mbind by lia. apply foldM_ext. intros s' k Hk.
  pose proof (lowWord_in _ _ _ _ Hr Hlt Hk) as Hlow. destruct (words_in_range _ _ _ _ Hr Hlt Hk) as (Hkn & _).
  destruct (word_at bits k Hwf Hkn) as (w & Ei & Hw & Hword). rewrite (rows_of_word _ _ _ _ _ _ Hw). unfold visitEach. destruct (Z.eqb_spec (maskOf begin end_ k) allSet) as [E|E]; rewrite Ei; cbn [mbind outcome_bind].
  - rewrite full_view by done. fold (viewed isSet w). destruct (Z.eqb_spec (viewed isSet w) allSet) as [Ea|_].
    + rewrite Ea, bitsOf_allSet, fmap_add_seqZ, word_start, Z.add_0_r by done. done.
    + apply eachBitOf_spec; auto using length_bitsOf with words.
  - fold (viewed isSet w). apply eachBitOf_spec; auto using length_bitsOf with words.
Qed.

Lemma forEachBit_rows_witness : forEachBit (λ i s, Ok (s ++ [i])) [5; 2 ^ 63 + 1] 1 128 true [] = Ok [2; 64; 127].
Proof.
  rewrite (forEachBit_rows (λ i s, Ok (s ++ [i])) [5; 2 ^ 63 + 1] 1 128 true []).
  - vm_compute. reflexivity.
  - repeat constructor; discriminate.
  - split; [discriminate|]. split; [discriminate | reflexivity].
Defined.

(** Every test of a range of words is a test of its rows, when it is one on the
    rows of each word. *)
Lemma testWords_rows {S} p f bits begin end_ (test : Z → S → outcome (bool * S)) (rows : Z → list Z) s :
  rangeOf bits begin end_ → begin < end_ →
  (∀ k s, k ∈ wordsOf begin end_ → visit p f begin end_ k s = testFold test (rows k) s) →
  testWords p f begin end_ s = testFold test (wordsOf begin end_ ≫= rows) s.
Proof.
  intros (Hb & Hn & He) Hlt H. rewrite testWords_visit, testFold_bind by lia. apply testFold_ext. intros k s' Hk. by apply H.
Qed.

(** What a function sees of the word [k]. *)
Lemma visit_viewed {S} (g : Z → Z → S → outcome (bool * S)) bits begin end_ v k s : wfBits bits → rangeOf bits begin end_ → begin < end_ → k ∈ wordsOf begin end_ →
  visit (λ k m s, w ← index bits k; g k (Z.land (viewed v w) m) s) (λ k s, w ← index bits k; g k (viewed v w) s) begin end_ k s =
  (w ← index bits k; g k (Z.land (viewed v w) (maskOf begin end_ k)) s).
Proof.
  intros Hwf Hr Hlt Hk. destruct (words_in_range _ _ _ _ Hr Hlt Hk) as (Hkn & _). destruct (word_at bits k Hwf Hkn) as (w & Ei & _ & Hword).
  unfold visit. rewrite Ei. destruct (Z.eqb_spec (maskOf begin end_ k) allSet) as [E|E]; cbn [mbind outcome_bind]; [by rewrite full_view | done].
Qed.

(** [testBits] does the same until its function returns false. *)
Theorem testBits_rows {S} (test : Z → S → outcome (bool * S)) bits begin end_ isSet s : wfBits bits → rangeOf bits begin end_ →
  testBits test bits begin end_ isSet s = testFold test (rowsWith bits begin end_ isSet) s.
Proof.
  intros Hwf Hr. destruct (Z.le_gt_cases end_ begin) as [Hle|Hlt].
  { rewrite rowsWith_empty by done. unfold testBits, testWords. by rewrite (proj2 (Z.leb_le _ _)). }
  pose proof Hr as (Hb & Hn & He). rewrite rowsWith_words by lia. apply (testWords_rows _ _ bits); [done|done|]. intros k s' Hk.
  etrans; [apply (visit_viewed (testBitsOf test 64) bits begin end_ isSet k s'); done|].
  destruct (words_in_range _ _ _ _ Hr Hlt Hk) as (Hkn & _). destruct (word_at bits k Hwf Hkn) as (w & Ei & Hw & Hword).
  rewrite (rows_of_word _ _ _ _ _ _ Hw), Ei. cbn [mbind outcome_bind]. apply testBitsOf_spec; auto using length_bitsOf with words. by eapply lowWord_in.
Qed.

(** ** Searches *)
Definition takeRow (i : Z) (_ : Z) : outcome (bool * Z) := Ok (false, i).

Lemma testFold_takeRow l found : testFold takeRow l found = match l with [] => Ok (true, found) | i :: _ => Ok (false, i) end.
Proof. by destruct l. Qed.

Lemma foundIn_first k w found : isWord w → lowWord k → foundIn ctzll k w found = testFold takeRow (Z.add (64 * k) <$> bitsOf w) found.
Proof.
  intros Hw Hk. unfold foundIn. rewrite testFold_takeRow. destruct (bitsOf w) as [|i l] eqn:E.
  - apply bitsOf_zero in E; [|done]. by subst w.
  - assert (i ∈ bitsOf w) as [Hi _]%elem_of_bitsOf by (rewrite E; left).
    rewrite (proj2 (Z.eqb_neq w 0)) by (intros ->; discriminate E). rewrite (ctzll_cons w i l E). csimpl. by rewrite (row_number k i) by done.
Qed.

Lemma foundIn_last k w found : isWord w → lowWord k → foundIn lastOf k w found = testFold takeRow (reverse (Z.add (64 * k) <$> bitsOf w)) found.
Proof.
  intros Hw Hk. unfold foundIn, lastOf, clzll. rewrite testFold_takeRow. destruct (bitsOf w) as [|i l _] eqn:E using rev_ind.
  - apply bitsOf_zero in E; [|done]. by subst w.
  - assert (i ∈ bitsOf w) as [Hi _]%elem_of_bitsOf by (rewrite E; apply elem_of_app; right; left).
    rewrite (proj2 (Z.eqb_neq w 0)) by (intros ->; by destruct l). rewrite last_snoc, fmap_app, reverse_app. csimpl. replace (63 - (63 - i)) with i by lia. by rewrite (row_number k i) by done.
Qed.

(** [findFirstBit] is the first row of the range whose bit is set, and -1
    when there is none; [findLastBit] is the last one whose bit has the given
    value. *)
Theorem find_bits bits begin end_ v : wfBits bits → rangeOf bits begin end_ →
  findFirstBit bits begin end_ = Ok (default (-1) (head (rowsWith bits begin end_ true))) ∧
  findLastBit bits begin end_ v = Ok (default (-1) (last (rowsWith bits begin end_ v))).
Proof.
  intros Hwf Hr. pose proof Hr as (Hb & Hn & He). destruct (Z.le_gt_cases end_ begin) as [Hle|Hlt].
  { rewrite !rowsWith_empty by done. unfold findFirstBit, findLastBit, testWords, testWordsReverse. by rewrite (proj2 (Z.leb_le _ _)). }
  assert (∀ k v at_ found, k ∈ wordsOf begin end_ → visit (λ k m found, w ← index bits k; foundIn at_ k (Z.land (viewed v w) m) found)
    (λ k found, w ← index bits k; foundIn at_ k (viewed v w) found) begin end_ k found =
    (w ← index bits k; foundIn at_ k (Z.land (viewed v w) (maskOf begin end_ k)) found)) as Hv by (intros; by apply (visit_viewed (foundIn at_))).
  split.
  - unfold findFirstBit. rewrite (testWords_rows _ _ bits begin end_ takeRow (λ k, filter (λ i, bit bits i = true) (rowsIn begin end_ k))); [|done|done|].
    + rewrite <- rowsWith_words, testFold_takeRow by lia. by destruct (rowsWith bits begin end_ true).
    + intros k found Hk. etrans; [by apply (Hv k true ctzll found)|]. destruct (words_in_range _ _ _ _ Hr Hlt Hk) as (Hkn & _).
      destruct (word_at bits k Hwf Hkn) as (w & Ei & Hw & Hword). rewrite (rows_of_word _ _ _ _ _ _ Hw), Ei. cbn [mbind outcome_bind].
      apply foundIn_first; auto with words. by eapply lowWord_in.
  - unfold findLastBit. rewrite testWordsReverse_visit by lia.
    rewrite (testFold_ext _ (λ k, testFold takeRow (reverse (filter (λ i, bit bits i = v) (rowsIn begin end_ k))))).
    + rewrite <- testFold_bind, <- reverse_mbind, <- rowsWith_words, testFold_takeRow by lia. rewrite <- head_reverse. by destruct (reverse _).
    + intros k found Hk. rewrite elem_of_reverse in Hk. etrans; [exact (Hv k v lastOf found Hk)|]. destruct (words_in_range _ _ _ _ Hr Hlt Hk) as (Hkn & _).
      destruct (word_at bits k Hwf Hkn) as (w & Ei & Hw & Hword). rewrite (rows_of_word _ _ _ _ _ _ Hw), Ei. cbn [mbind outcome_bind].
      apply foundIn_last; auto with words. by eapply lowWord_in.
Qed.

(** ** Counting *)
Lemma count_words (h : Z → list Z) (g : Z → Z → outcome Z) l : (∀ c k, k ∈ l → g c k = add32 c (Z.of_nat (length (h k)))) →
  ∀ c, 0 ≤ c → c + Z.of_nat (length (l ≫= h)) ≤ int32_max → foldM_o g l c = Ok (c + Z.of_nat (length (l ≫= h))).
Proof.
  induction l as [|k l IH]; intros Hg c Hc Hmax; csimpl; [f_equal; simpl; lia|]. csimpl in Hmax. rewrite length_app in Hmax |- *. rewrite Hg by left.
  unfold add32. rewrite checked32_Ok by (unfold_ints; unfold int32_max in *; lia). csimpl. rewrite IH by (lia || (intros; apply Hg; by right)). f_equal. lia.
Qed.

(** [countBits] is the number of rows of the range whose bit is set. *)
Theorem countBits_rows bits begin end_ : wfBits bits → rangeOf bits begin end_ →
  countBits bits begin end_ = Ok (Z.of_nat (length (rowsWith bits begin end_ true))).
Proof.
  intros Hwf Hr. pose proof Hr as (Hb & Hn & He). destruct (Z.le_gt_cases end_ begin) as [Hle|Hlt].
  { rewrite rowsWith_empty by done. unfold countBits, forEachWord. by rewrite (proj2 (Z.leb_le _ _)). }
  assert (Z.of_nat (length (rowsWith bits begin end_ true)) ≤ int32_max) as Hmax.
  { unfold rowsWith. assert (Z.of_nat (length (seqZ begin (end_ - begin))) ≤ int32_max) by (rewrite length_seqZ; lia). pose proof (length_filter (λ i, bit bits i = true) (seqZ begin (end_ - begin))). lia. }
  unfold countBits. rewrite forEachWord_visit by lia. rewrite rowsWith_words in Hmax |- * by lia.
  rewrite (count_words (λ k, filter (λ i, bit bits i = true) (rowsIn begin end_ k))); [done| |lia|done]. intros c k Hk.
  destruct (words_in_range _ _ _ _ Hr Hlt Hk) as (Hkn & _). destruct (word_at bits k Hwf Hkn) as (w & Ei & Hw & Hword).
  rewrite (rows_of_word _ _ _ _ _ _ Hw), length_fmap. unfold visitEach, popcountll. rewrite Ei. cbn [mbind outcome_bind].
  destruct (Z.eqb_spec (maskOf begin end_ k) allSet) as [E|E]; [|done]. by rewrite (full_view begin end_ k true w).
Qed.

(** ** Tests of whole ranges *)
Lemma in_range_word begin end_ i : 0 ≤ begin → begin ≤ i < end_ → i / 64 ∈ wordsOf begin end_.
Proof. intros Hb Hi. unfold wordsOf. rewrite elem_of_seqZ. dlia. Qed.

Lemma testFold_pure {A S} (b : A → bool) (g : A → S → outcome (bool * S)) l s : (∀ k s, k ∈ l → g k s = Ok (b k, s)) → testFold g l s = Ok (forallb b l, s).
Proof.
  revert s. induction l as [|k l IH]; intros s H; [done|]. simpl. rewrite H by left. unfold andThen. simpl. destruct (b k); [|done]. apply IH. intros k' s' Hk. apply H. by right.
Qed.

Lemma forallb_elem {A} (b : A → bool) l : forallb b l = true ↔ ∀ x, x ∈ l → b x = true.
Proof.
  induction l as [|x l IH]; simpl; [split; [intros _ y []%elem_of_nil | done]|]. rewrite andb_true_iff, IH. split.
  - intros [Hx Hl] y [->|Hy]%elem_of_cons; auto.
  - intros H. split; [apply H; left | intros y Hy; apply H; by right].
Qed.

(** A test of each word that tells whether all rows of it pass tells whether all
    rows of the range pass. *)
Lemma testWords_all p f bits begin end_ (Q : Z → Prop) (b : Z → bool) s : rangeOf bits begin end_ → begin < end_ →
  (∀ k (s : unit), k ∈ wordsOf begin end_ → visit p f begin end_ k s = Ok (b k, s)) →
  (∀ k, k ∈ wordsOf begin end_ → b k = true ↔ ∀ j, 0 ≤ j < 64 → Z.testbit (maskOf begin end_ k) j = true → Q (64 * k + j)) →
  ∃ r, testWords p f begin end_ s = Ok (r, s) ∧ (r = true ↔ ∀ i, begin ≤ i < end_ → Q i).
Proof.
  intros (Hb & Hn & He) Hlt Hvisit HQ. exists (forallb b (wordsOf begin end_)). rewrite testWords_visit, (testFold_pure b) by (done || lia). split; [done|].
  rewrite forallb_elem. split.
  - intros H i Hi. pose proof (in_range_word begin end_ i Hb Hi) as Hk. specialize (H _ Hk). rewrite HQ in H by done.
    specialize (H (i mod 64) ltac:(dlia)). replace (64 * (i / 64) + i mod 64) with i in H by dlia. apply H. rewrite maskOf_spec by dlia.
    replace (64 * (i / 64) + i mod 64) with i by dlia. by rewrite (proj2 (Z.leb_le _ _)), (proj2 (Z.ltb_lt _ _)) by lia.
  - intros H k Hk. apply HQ; [done|]. intros j Hj Hm. apply H. rewrite maskOf_spec, andb_true_iff, Z.leb_le, Z.ltb_lt in Hm by done. lia.
Qed.

(** Two words agree where the mask is set. *)
Lemma masked_eq a b m : isWord m → (Z.land a m =? Z.land b m) = true ↔ ∀ j, 0 ≤ j < 64 → Z.testbit m j = true → Z.testbit a j = Z.testbit b j.
Proof.
  intros Hm. rewrite Z.eqb_eq. split.
  - intros E j Hj Hj'. assert (Z.testbit (Z.land a m) j = Z.testbit (Z.land b m) j) as H by by rewrite E. by rewrite !Z.land_spec, Hj', !andb_true_r in H.
  - intros H. apply word_ext; auto with words. intros j Hj. rewrite !Z.land_spec. destruct (Z.testbit m j) eqn:E; [by rewrite H | by rewrite !andb_false_r].
Qed.

Lemma land_allSet w : isWord w → Z.land w allSet = w.
Proof. intros Hw. apply word_ext; auto with words. intros i Hi. by rewrite Z.land_spec, testbit_allSet, (proj2 (Z.ltb_lt _ _)), andb_true_r by lia. Qed.

Definition wordOf (bits : list Z) (k : Z) : Z := default 0 (bits !! Z.to_nat k).

Lemma wordOf_spec bits begin end_ k : wfBits bits → rangeOf bits begin end_ → begin < end_ → k ∈ wordsOf begin end_ →
  index bits k = Ok (wordOf bits k) ∧ isWord (wordOf bits k) ∧ ∀ j, 0 ≤ j < 64 → bit bits (64 * k + j) = Z.testbit (wordOf bits k) j.
Proof.
  intros Hwf Hr Hlt Hk. destruct (words_in_range _ _ _ _ Hr Hlt Hk) as (Hkn & _). destruct (word_at bits k Hwf Hkn) as (w & Ei & Hw & Hword).
  unfold wordOf. rewrite Hw. split; [done|]. split; [done|]. intros j Hj. by apply bit_at.
Qed.

(** The result of the test of a range, as one of its rows. *)
Tactic Notation "all_rows" constr(bits) uconstr(Q) uconstr(b) constr(Hr) constr(Hlt) "as" ident(r) ident(H) :=
  match goal with |- context [testWords ?p ?f ?begin ?end_ tt] =>
    destruct (testWords_all p f bits begin end_ Q b tt Hr Hlt) as (r & -> & H)
  end.

Lemma isAllSet_spec bits begin end_ v : wfBits bits → rangeOf bits begin end_ →
  ∃ r, isAllSet bits begin end_ v = Ok r ∧ (r = true ↔ ∀ i, begin ≤ i < end_ → bit bits i = v).
Proof.
  intros Hwf Hr. unfold isAllSet. destruct (Z.leb_spec end_ begin) as [Hle|Hlt]; [exists true; split; [done|]; split; [intros; lia | done]|].
  set (word := if v then allSet else 0). assert (isWord word ∧ ∀ j, 0 ≤ j < 64 → Z.testbit word j = v) as [Hword Hv].
  { unfold word. destruct v; (split; [unfold isWord, allSet; lia|]); intros j Hj; [rewrite testbit_allSet by lia; apply Z.ltb_lt; lia | apply Z.bits_0]. }
  clearbody word. all_rows bits (λ i, bit bits i = v) (λ k, Z.land word (maskOf begin end_ k) =? Z.land (wordOf bits k) (maskOf begin end_ k)) Hr Hlt as r Hr'.
  - intros k s Hk. destruct (wordOf_spec _ _ _ _ Hwf Hr Hlt Hk) as (Ei & Hw & _). unfold visit. rewrite Ei. simpl.
    destruct (Z.eqb_spec (maskOf begin end_ k) allSet) as [->|]; [by rewrite !land_allSet | done].
  - intros k Hk. destruct (wordOf_spec _ _ _ _ Hwf Hr Hlt Hk) as (_ & _ & Hbit). rewrite masked_eq by auto with words.
    split; intros H j Hj Hm; specialize (H j Hj Hm); rewrite Hbit, Hv in * by done; congruence.
  - by exists r.
Qed.

Lemma isSubset_spec sub super begin end_ : wfBits sub → wfBits super → rangeOf sub begin end_ → rangeOf super begin end_ →
  ∃ r, isSubset sub super begin end_ = Ok r ∧ (r = true ↔ ∀ i, begin ≤ i < end_ → bit sub i = true → bit super i = true).
Proof.
  intros Hwf Hwf' Hr Hr'. unfold isSubset. destruct (Z.le_gt_cases end_ begin) as [Hle|Hlt].
  { unfold testWords. rewrite (proj2 (Z.leb_le _ _)) by done. exists true. split; [done|]. split; [intros; lia | done]. }
  all_rows sub (λ i, bit sub i = true → bit super i = true)
    (λ k, let m := Z.land (wordOf sub k) (maskOf begin end_ k) in Z.land (wordOf super k) m =? m) Hr Hlt as r H.
  - intros k s Hk. destruct (wordOf_spec _ _ _ _ Hwf Hr Hlt Hk) as (Ei & Hw & _). destruct (wordOf_spec _ _ _ _ Hwf' Hr' Hlt Hk) as (Ei' & _). unfold visit. rewrite Ei, Ei'. simpl.
    destruct (Z.eqb_spec (maskOf begin end_ k) allSet) as [->|]; [by rewrite !land_allSet | done].
  - intros k Hk. destruct (wordOf_spec _ _ _ _ Hwf Hr Hlt Hk) as (_ & Hw & Hbit). destruct (wordOf_spec _ _ _ _ Hwf' Hr' Hlt Hk) as (_ & Hw' & Hbit').
    cbv zeta. rewrite <- (Z.land_diag (Z.land (wordOf sub k) _)) at 2. rewrite masked_eq by auto with words. split; intros H j Hj.
    + intros Hm. rewrite Hbit, Hbit' by done. intros Hs. specialize (H j Hj). rewrite Z.land_spec, Hs, Hm in H. auto.
    + rewrite Z.land_spec, andb_true_iff. intros [Hs Hm]. specialize (H j Hj Hm). rewrite Hbit, Hbit' in H by done. by rewrite Hs, Hm, H.
  - by exists r.
Qed.

Lemma hasIntersection_spec left right begin end_ : wfBits left → wfBits right → rangeOf left begin end_ → rangeOf right begin end_ →
  ∃ r, hasIntersection left right begin end_ = Ok r ∧ (r = true ↔ ∃ i, begin ≤ i < end_ ∧ bit left i = true ∧ bit right i = true).
Proof.
  intros Hwf Hwf' Hr Hr'. unfold hasIntersection. destruct (Z.leb_spec end_ begin) as [Hle|Hlt].
  { exists false. split; [done|]. split; [done | intros (i & ? & _); lia]. }
  all_rows left (λ i, ¬ (bit left i = true ∧ bit right i = true))
    (λ k, Z.land (wordOf right k) (Z.land (wordOf left k) (maskOf begin end_ k)) =? 0) Hr Hlt as r H.
  - intros k s Hk. destruct (wordOf_spec _ _ _ _ Hwf Hr Hlt Hk) as (Ei & Hw & _). destruct (wordOf_spec _ _ _ _ Hwf' Hr' Hlt Hk) as (Ei' & _). unfold visit. rewrite Ei, Ei'. simpl.
    destruct (Z.eqb_spec (maskOf begin end_ k) allSet) as [->|]; [by rewrite !land_allSet | done].
  - intros k Hk. destruct (wordOf_spec _ _ _ _ Hwf Hr Hlt Hk) as (_ & Hw & Hbit). destruct (wordOf_spec _ _ _ _ Hwf' Hr' Hlt Hk) as (_ & Hw' & Hbit').
    rewrite Z.land_assoc. change 0 with (Z.land 0 (maskOf begin end_ k)). rewrite masked_eq by auto with words. split; intros H j Hj Hm; specialize (H j Hj Hm).
    + rewrite Hbit, Hbit' by done. rewrite Z.land_spec, Z.bits_0 in H. intros [E1 E2]. by rewrite E1, E2 in H.
    + rewrite Hbit, Hbit' in H by done. rewrite Z.land_spec, Z.bits_0. destruct (Z.testbit (wordOf right k) j), (Z.testbit (wordOf left k) j); naive_solver.
  - exists (negb r). split; [done|]. destruct r; simpl.
    + split; [done|]. intros (i & Hi & Hb). by destruct (proj1 H eq_refl i Hi).
    + split; [intros _|done]. destruct (decide (Exists (λ i, bit left i = true ∧ bit right i = true) (seqZ begin (end_ - begin)))) as [He|Hne].
      * apply Exists_exists in He as (i & Hi%elem_of_seqZ & Hb). exists i. split; [lia | done].
      * assert (false = true); [|done]. apply H. intros i Hi Hb. apply Hne, Exists_exists. exists i. rewrite elem_of_seqZ. split; [lia | done].
Qed.

(** [isAllSet] tells whether all bits of the range have the value, [isSubset]
    whether every row that is set in the first bitmap is set in the second, and
    [hasIntersection] whether some row is set in both. *)
Theorem range_tests bits other begin end_ v : wfBits bits → wfBits other → rangeOf bits begin end_ → rangeOf other begin end_ →
  (∃ r, isAllSet bits begin end_ v = Ok r ∧ (r = true ↔ ∀ i, begin ≤ i < end_ → bit bits i = v)) ∧
  (∃ r, isSubset bits other begin end_ = Ok r ∧ (r = true ↔ ∀ i, begin ≤ i < end_ → bit bits i = true → bit other i = true)) ∧
  (∃ r, hasIntersection bits other begin end_ = Ok r ∧ (r = true ↔ ∃ i, begin ≤ i < end_ ∧ bit bits i = true ∧ bit other i = true)).
Proof. intros. split; [by apply isAllSet_spec|]. split; [by apply isSubset_spec | by apply hasIntersection_spec]. Qed.

(** ** Groups of bits *)
Lemma filter_seqZ_none (P : Z → Prop) `{!∀ x, Decision (P x)} m n : (∀ i, m ≤ i < m + n → ¬ P i) → filter P (seqZ m n) = [].
Proof. intros Hn. apply filter_none, Forall_seqZ. auto. Qed.

(** The bits below a position and those from there on. *)
Lemma bitsOf_split a d : isWord a → 0 ≤ d ≤ 64 → bitsOf a = bitsOf (Z.land a (Z.ones d)) ++ (Z.add d <$> bitsOf (Z.shiftr a d)).
Proof.
  intros Ha Hd. unfold bitsOf at 1. change (seqZ 0 64) with (seqZ 0 (64 - 0)). rewrite (seqZ_split 0 d 64), filter_app by lia. f_equal.
  - unfold bitsOf. change (seqZ 0 64) with (seqZ 0 (64 - 0)). rewrite (seqZ_split 0 d 64), filter_app by lia.
    rewrite (filter_seqZ_none _ d (64 - d)), app_nil_r.
    + apply filter_ext_in. intros i Hi%elem_of_seqZ. rewrite Z.land_spec, Z.testbit_ones, (proj2 (Z.leb_le 0 i)), (proj2 (Z.ltb_lt i d)), andb_true_r by lia. done.
    + intros i Hi. rewrite Z.land_spec, Z.testbit_ones, (proj2 (Z.ltb_ge i d)), !andb_false_r by lia. done.
  - replace (seqZ d (64 - d)) with (Z.add d <$> seqZ 0 (64 - d)) by (rewrite fmap_add_seqZ; f_equal; lia). rewrite filter_add. f_equal.
    unfold bitsOf. change (seqZ 0 64) with (seqZ 0 (64 - 0)). rewrite (seqZ_split 0 (64 - d) 64), filter_app by lia.
    rewrite (filter_seqZ_none _ (64 - d)), app_nil_r.
    + replace (64 - d - 0) with (64 - d) by lia. apply filter_ext_in. intros i Hi%elem_of_seqZ. rewrite Z.shiftr_spec by lia. by rewrite Z.add_comm.
    + intros i Hi. rewrite Z.shiftr_spec, isWord_high by (done || lia). done.
Qed.

Lemma isWord_shiftr a d : isWord a → 0 ≤ d → isWord (Z.shiftr a d).
Proof. intros Ha Hd. apply isWord_intro. intros i Hi. rewrite Z.shiftr_spec by lia. apply isWord_high; [done | lia]. Qed.

Section BatchRows.
Context {S : Type} (g : Z → S → outcome S) (W : Z) (HW : 1 ≤ W ≤ 64) (Hdiv : 64 mod W = 0).

(** A function that treats the rows of a group one by one. *)
Abbreviation rowByRow := (λ at_ selected s, foldM_o (λ s i, g i s) (Z.add at_ <$> bitsOf selected) s).

Lemma unitMask_ones : unitMask W = Ok (Z.ones W).
Proof. unfold unitMask. destruct (Z.eqb_spec W 64) as [->|]; [done|]. apply lowMask_ones. lia. Qed.

Lemma eachBatchOf_rows k fuel : lowWord k → ∀ active first s, isWord active → (length (bitsOf active) ≤ fuel)%nat → 0 ≤ first → first mod W = 0 →
  (∀ i, 0 ≤ i < 64 → Z.testbit active i = true → first + i < 64) →
  eachBatchOf W rowByRow fuel k active first s = foldM_o (λ s i, g i s) (Z.add (64 * k + first) <$> bitsOf active) s.
Proof.
  intros Hk. induction fuel as [|fuel IH]; intros active first s Hw Hf Hfirst Hal Hrange; cbn [eachBatchOf].
  - destruct (bitsOf active) eqn:E; [|simpl in Hf; lia]. apply bitsOf_zero in E; [|done]. by subst active.
  - destruct (bitsOf active) as [|c l] eqn:E; [apply bitsOf_zero in E; [|done]; by subst active|].
    assert (c ∈ bitsOf active) as [Hc Hbit]%elem_of_bitsOf by (rewrite E; left).
    rewrite (proj2 (Z.eqb_neq active 0)) by (intros ->; discriminate E). rewrite (ctzll_cons active c l E). cbn [mbind outcome_bind].
    rewrite unitMask_ones. cbn [mbind outcome_bind]. rewrite Z.quot_div_nonneg by lia. set (skip := c / W * W).
    assert (0 ≤ skip ≤ c ∧ c < skip + W) as Hskip by (unfold skip; pose proof (Z.div_mod c W ltac:(lia)) as Hdm; pose proof (Z.mod_pos_bound c W ltac:(lia)); rewrite (Z.mul_comm W) in Hdm; pose proof (Z.mul_nonneg_nonneg (c / W) W (Z.div_pos c W ltac:(lia) ltac:(lia)) ltac:(lia)); lia).
    set (a := Z.shiftr active skip). assert (isWord a) as Ha by (apply isWord_shiftr; [done | lia]).
    assert (bitsOf active = Z.add skip <$> bitsOf a) as Ea.
    { rewrite (bitsOf_split active skip) by (done || lia). assert (Z.land active (Z.ones skip) = 0) as ->; [|done]. apply Z.bits_inj'. intros i Hi. rewrite Z.bits_0, Z.land_spec, Z.testbit_ones by lia.
      destruct (Z.ltb_spec i skip); [|by rewrite !andb_false_r]. assert (Z.testbit active i = false) as ->; [|done].
      apply not_true_iff_false. apply (filter_seqZ_least _ 64 0 c l E). lia. }
    assert (c - skip ∈ bitsOf (Z.land a (Z.ones W))) as Hsel.
    { apply elem_of_bitsOf. split; [lia|]. unfold a. rewrite Z.land_spec, Z.shiftr_spec, Z.testbit_ones by lia. replace (c - skip + skip) with c by lia.
      rewrite Hbit, (proj2 (Z.leb_le _ _)), (proj2 (Z.ltb_lt _ _)) by lia. done. }
    rewrite (proj2 (Z.eqb_neq (Z.land a (Z.ones W)) 0)) by (intros E0; rewrite E0 in Hsel; by apply elem_of_nil in Hsel).
    pose proof (Hrange c Hc Hbit) as Hfc. rewrite (row_number k (first + skip)) by (done || lia).
    rewrite <- E, Ea, <- list_fmap_compose.
    assert (Z.add (64 * k + first) ∘ Z.add skip <$> bitsOf a = Z.add (64 * k + (first + skip)) <$> bitsOf a) as -> by (apply list_fmap_ext; intros; simpl; lia).
    rewrite (bitsOf_split a W) by (done || lia). rewrite fmap_app, foldM_o_app. destruct (foldM_o _ (Z.add (64 * k + (first + skip)) <$> bitsOf (Z.land a (Z.ones W))) s) as [s'| |]; cbn [mbind outcome_bind]; [|done..].
    assert ((if W =? 64 then 0 else Z.shiftr a W) = Z.shiftr a W) as ->.
    { destruct (Z.eqb_spec W 64) as [->|]; [|done]. symmetry. apply Z.bits_inj'. intros i Hi. rewrite Z.bits_0, Z.shiftr_spec by lia. apply isWord_high; [done | lia]. }
    rewrite IH.
    + rewrite <- list_fmap_compose. f_equal. apply list_fmap_ext. intros i x _. simpl. lia.
    + apply isWord_shiftr; [done | lia].
    + assert (length (bitsOf a) = length (c :: l)) as Hl by (rewrite <- E, Ea, length_fmap; done). rewrite (bitsOf_split a W), length_app, length_fmap in Hl by (done || lia).
      destruct (bitsOf (Z.land a (Z.ones W))); [by apply elem_of_nil in Hsel|]. cbn [length] in Hl, Hf. lia.
    + lia.
    + unfold skip. rewrite Z.add_mod, Z_mod_same_full, Z.add_0_r, Z.mod_mod, Z.mod_add by lia. done.
    + intros i Hi Hb. unfold a in Hb. rewrite !Z.shiftr_spec in Hb by lia. pose proof (Hrange (i + W + skip)) as Hr. destruct (Z.lt_ge_cases (i + W + skip) 64) as [Hlt|Hge].
      * specialize (Hr ltac:(lia) Hb). lia.
      * by rewrite isWord_high in Hb.
Qed.

(** [forBatches] offers the set rows of the range in groups of its width:
    together the groups, each with its mask, are exactly these rows, each once
    and in increasing order. *)
Theorem forBatches_rows bits begin end_ s : wfBits bits → rangeOf bits begin end_ →
  forBatches W rowByRow bits begin end_ s = foldM_o (λ s i, g i s) (rowsWith bits begin end_ true) s.
Proof.
  intros Hwf Hr. pose proof Hr as (Hb & Hn & He). destruct (Z.le_gt_cases end_ begin) as [Hle|Hlt].
  { rewrite rowsWith_empty by done. unfold forBatches, forEachWordMasked. by rewrite (proj2 (Z.leb_le _ _)). }
  unfold forBatches. rewrite forEachWordMasked_visit by lia. rewrite rowsWith_words, foldM_mbind by lia. apply foldM_ext. intros s' k Hk.
  destruct (words_in_range _ _ _ _ Hr Hlt Hk) as (Hkn & _). destruct (word_at bits k Hwf Hkn) as (w & Ei & Hw & Hword).
  rewrite (rows_of_word _ _ _ _ _ _ Hw), Ei. cbn [mbind outcome_bind]. rewrite eachBatchOf_rows; [by rewrite Z.add_0_r | by eapply lowWord_in | auto with words | apply length_bitsOf | lia | apply Z.mod_0_l; lia | lia].
Qed.
End BatchRows.
