(* ===== verification/BitUtilUpdates.v ===== *)
(** * Bitmaps: functions that change them *)
From S2P Require Import Prelude Bits BitUtil BitUtilWords BitUtilTheorems.
Local Open Scope Z_scope.

(** ** Loops that change each word once *)
Lemma setWord_in bits k w : 0 ≤ k < Z.of_nat (length bits) → setWord bits k w = Ok (<[Z.to_nat k := w]> bits).
Proof. intros Hk. unfold setWord. by rewrite (proj2 (Z.leb_le _ _)), (proj2 (Z.ltb_lt _ _)) by lia. Qed.

(** [u] replaces the word [k] by [G k]. *)
Lemma update_words (u : list Z → Z → outcome (list Z)) (G : Z → Z) l : NoDup l → ∀ t,
  (∀ k, k ∈ l → 0 ≤ k < Z.of_nat (length t)) →
  (∀ t' k, k ∈ l → length t' = length t → t' !! Z.to_nat k = t !! Z.to_nat k → u t' k = Ok (<[Z.to_nat k := G k]> t')) →
  ∃ t', foldM_o u l t = Ok t' ∧ length t' = length t ∧
    ∀ k, 0 ≤ k < Z.of_nat (length t) → t' !! Z.to_nat k = if decide (k ∈ l) then Some (G k) else t !! Z.to_nat k.
Proof.
  induction 1 as [|k l Hk Hnd IH]; intros t Hin Hu.
  { exists t. split; [done|]. split; [done|]. intros k Hk. by destruct (decide (k ∈ [])) as [[]%elem_of_nil|]. }
  simpl. rewrite Hu by (done || left). simpl. set (t1 := <[Z.to_nat k := G k]> t). assert (length t1 = length t) as Hlen by apply length_insert.
  destruct (IH t1) as (t' & E & Hl & Ht').
  - intros k' Hk'. rewrite Hlen. apply Hin. by right.
  - intros t' k' Hk' Hl Hsame. apply Hu; [by right | lia|]. rewrite Hsame. unfold t1. pose proof (Hin k ltac:(left)). pose proof (Hin k' ltac:(by right)).
    rewrite list_lookup_insert_ne; [done|]. intros E. assert (k = k') as -> by lia. done.
  - exists t'. split; [done|]. split; [lia|]. intros k' Hk'. rewrite Ht' by lia. pose proof (Hin k ltac:(left)). destruct (decide (k' = k)) as [->|Hne].
    + rewrite (decide_True (P := k ∈ k :: l)) by left. rewrite decide_False by done. apply list_lookup_insert_eq. lia.
    + unfold t1. rewrite list_lookup_insert_ne by lia. destruct (decide (k' ∈ l)), (decide (k' ∈ k :: l)) as [Hd|Hd]; try done; [destruct Hd; by right|].
      apply elem_of_cons in Hd. naive_solver.
Qed.

Lemma NoDup_wordsOf begin end_ : NoDup (wordsOf begin end_).
Proof. apply NoDup_seqZ. Qed.

(** What becomes of the bits when every word [k] of the range becomes [G k],
    which has the bits [B] in the range and the old ones outside. *)
Lemma forEachWord_updates p f bits begin end_ (G : Z → Z) (B : Z → bool) : wfBits bits → rangeOf bits begin end_ →
  (∀ t k, k ∈ wordsOf begin end_ → begin < end_ → length t = length bits → t !! Z.to_nat k = bits !! Z.to_nat k →
     visitEach p f begin end_ k t = Ok (<[Z.to_nat k := G k]> t)) →
  (∀ k, k ∈ wordsOf begin end_ → begin < end_ → isWord (G k) ∧
     ∀ j, 0 ≤ j < 64 → Z.testbit (G k) j = if Z.testbit (maskOf begin end_ k) j then B (64 * k + j) else Z.testbit (wordOf bits k) j) →
  ∃ t, forEachWord p f begin end_ bits = Ok t ∧ length t = length bits ∧ wfBits t ∧
    ∀ i, 0 ≤ i → bit t i = if bool_decide (begin ≤ i < end_) then B i else bit bits i.
Proof.
  intros Hwf Hr Hu HG. pose proof Hr as (Hb & Hn & He). destruct (Z.le_gt_cases end_ begin) as [Hle|Hlt].
  { exists bits. unfold forEachWord. rewrite (proj2 (Z.leb_le _ _)) by done. split_and!; try done. intros i Hi. by rewrite bool_decide_false by lia. }
  rewrite forEachWord_visit by lia. destruct (update_words (λ s k, visitEach p f begin end_ k s) G (wordsOf begin end_) (NoDup_wordsOf _ _) bits) as (t & E & Hl & Ht).
  - intros k Hk. by destruct (words_in_range _ _ _ _ Hr Hlt Hk).
  - intros t' k Hk Hl Hs. by apply Hu.
  - exists t. split; [done|]. split; [done|]. split.
    + apply Forall_lookup_2. intros i w Hi. pose proof (lookup_lt_Some _ _ _ Hi). specialize (Ht (Z.of_nat i) ltac:(lia)). rewrite Nat2Z.id in Ht. rewrite Hi in Ht.
      destruct (decide _) as [Hk|]; [|by apply (Forall_lookup_1 _ _ _ _ Hwf (eq_sym Ht))]. injection Ht as ->. by apply HG.
    + intros i Hi. destruct (Z.lt_ge_cases (i / 64) (Z.of_nat (length bits))) as [Hin|Hout].
      2: { unfold bit. rewrite !lookup_ge_None_2 by lia. case_bool_decide; [|done]. dlia. }
      assert (0 ≤ i / 64) by dlia. unfold bit at 1. rewrite Ht by lia. destruct (decide _) as [Hk|Hk].
      * destruct (HG _ Hk Hlt) as [_ ->]; [|dlia]. rewrite maskOf_spec by dlia. replace (64 * (i / 64) + i mod 64) with i by dlia.
        destruct (wordOf_spec _ _ _ _ Hwf Hr Hlt Hk) as (_ & _ & Hbit). rewrite <- Hbit by dlia. replace (64 * (i / 64) + i mod 64) with i by dlia.
        destruct (Z.leb_spec begin i), (Z.ltb_spec i end_), (bool_decide_reflect (begin ≤ i < end_)); simpl; (done || lia).
      * rewrite bool_decide_false; [done|]. intros Hr'. apply Hk. by apply in_range_word.
Qed.

Lemma index_same (t bits : list Z) k : t !! Z.to_nat k = bits !! Z.to_nat k → index t k = index bits k.
Proof. intros E. unfold index. by rewrite E. Qed.

(** [fillBits] sets the bits of the range to the value, leaves all others as
    they are and the length of the bitmap too. *)
Theorem fillBits_range bits begin end_ value : wfBits bits → rangeOf bits begin end_ →
  ∃ t, fillBits bits begin end_ value = Ok t ∧ length t = length bits ∧ wfBits t ∧
    ∀ i, 0 ≤ i → bit t i = if bool_decide (begin ≤ i < end_) then value else bit bits i.
Proof.
  intros Hwf Hr. set (G k := let m := maskOf begin end_ k in if value then Z.lor (wordOf bits k) (Z.land allSet m) else Z.land (wordOf bits k) (not64 m)).
  apply (forEachWord_updates _ _ bits begin end_ G (λ _, value) Hwf Hr).
  - intros t k Hk Hlt Hl Hs. destruct (wordOf_spec _ _ _ _ Hwf Hr Hlt Hk) as (Ei & Hw & _). destruct (words_in_range _ _ _ _ Hr Hlt Hk) as (Hkn & _).
    unfold visitEach. rewrite (index_same t bits), Ei by done. simpl. rewrite !setWord_in by lia. unfold G. destruct (Z.eqb_spec (maskOf begin end_ k) allSet) as [->|]; [|done].
    do 2 f_equal. destruct value; apply word_ext; auto with words; try (unfold isWord; lia); intros j Hj.
    + rewrite Z.lor_spec, Z.land_spec, testbit_allSet, (proj2 (Z.ltb_lt _ _)), orb_true_r by lia. done.
    + rewrite Z.land_spec, testbit_not64, testbit_allSet, (proj2 (Z.ltb_lt _ _)), andb_false_r, Z.bits_0 by lia. done.
  - intros k Hk Hlt. destruct (wordOf_spec _ _ _ _ Hwf Hr Hlt Hk) as (_ & Hw & _). unfold G. cbv zeta. split; [destruct value; auto with words|]. intros j Hj. destruct value.
    + rewrite Z.lor_spec, Z.land_spec, testbit_allSet, (proj2 (Z.ltb_lt _ _)) by lia. simpl. destruct (Z.testbit (maskOf begin end_ k) j); by rewrite ?orb_true_r, ?orb_false_r.
    + rewrite Z.land_spec, testbit_not64 by done. destruct (Z.testbit (maskOf begin end_ k) j); simpl; by rewrite ?andb_true_r, ?andb_false_r.
Qed.

(** [left] is an array of its own, or the target. *)
Definition leftOf (inPlace : bool) (left target : list Z) : list Z := if inPlace then target else left.

Lemma wordOf_same (t bits : list Z) k : t !! Z.to_nat k = bits !! Z.to_nat k → wordOf t k = wordOf bits k.
Proof. intros E. unfold wordOf. by rewrite E. Qed.

Lemma leftOf_same inPlace left t target k : t !! Z.to_nat k = target !! Z.to_nat k → index (leftOf inPlace left t) k = index (leftOf inPlace left target) k.
Proof. intros E. destruct inPlace; [by apply index_same | done]. Qed.

(** The same steps for both: [op] combines two words, [opb] two bits. *)
Lemma combine_range (op : Z → Z → Z) (opb : bool → bool → bool) (step : Z → Z → Z → Z → Z) negate inPlace left right target begin end_ :
  (∀ l r, isWord l → isWord r → isWord (op l r)) → (∀ l r j, 0 ≤ j < 64 → Z.testbit (op l r) j = opb (Z.testbit l j) (Z.testbit r j)) →
  (∀ t m l r, isWord t → isWord m → isWord l → isWord r → isWord (step t m l r)) →
  (∀ t m l r j, 0 ≤ j < 64 → Z.testbit (step t m l r) j = if Z.testbit m j then opb (Z.testbit l j) (Z.testbit r j) else Z.testbit t j) →
  wfBits target → wfBits (leftOf inPlace left target) → wfBits right →
  rangeOf target begin end_ → rangeOf (leftOf inPlace left target) begin end_ → rangeOf right begin end_ →
  ∃ t, forEachWord
      (λ idx mask target, t ← index target idx; l ← index (leftOf inPlace left target) idx; r ← index right idx; setWord target idx (step t mask l (viewed (negb negate) r)))
      (λ idx target, l ← index (leftOf inPlace left target) idx; r ← index right idx; setWord target idx (op l (viewed (negb negate) r)))
      begin end_ target = Ok t ∧
    length t = length target ∧ wfBits t ∧
    ∀ i, 0 ≤ i → bit t i = if bool_decide (begin ≤ i < end_) then opb (bit (leftOf inPlace left target) i) (xorb negate (bit right i)) else bit target i.
Proof.
  intros Hop Hopb Hstep Hstepb Hwt Hwl Hwr Hrt Hrl Hrr. set (L := leftOf inPlace left target) in *.
  set (G k := step (wordOf target k) (maskOf begin end_ k) (wordOf L k) (viewed (negb negate) (wordOf right k))).
  apply (forEachWord_updates _ _ target begin end_ G (λ i, opb (bit L i) (xorb negate (bit right i))) Hwt Hrt).
  - intros t k Hk Hlt Hl Hs. destruct (wordOf_spec _ _ _ _ Hwt Hrt Hlt Hk) as (Ei & Hw & _). destruct (wordOf_spec _ _ _ _ Hwl Hrl Hlt Hk) as (El & Hwl' & _).
    destruct (wordOf_spec _ _ _ _ Hwr Hrr Hlt Hk) as (Er & Hwr' & _). destruct (words_in_range _ _ _ _ Hrt Hlt Hk) as (Hkn & _).
    unfold visitEach. rewrite (index_same t target), (leftOf_same inPlace left t target) by done. fold L. rewrite Ei, El, Er. csimpl. rewrite !setWord_in by lia. unfold G.
    destruct (Z.eqb_spec (maskOf begin end_ k) allSet) as [->|]; [|done]. do 2 f_equal. apply word_ext; [auto with words.. |]. intros j Hj.
    by rewrite Hopb, Hstepb, testbit_allSet, (proj2 (Z.ltb_lt _ _)) by lia.
  - intros k Hk Hlt. destruct (wordOf_spec _ _ _ _ Hwt Hrt Hlt Hk) as (_ & Hw & _). destruct (wordOf_spec _ _ _ _ Hwl Hrl Hlt Hk) as (_ & Hwl' & Hbl).
    destruct (wordOf_spec _ _ _ _ Hwr Hrr Hlt Hk) as (_ & Hwr' & Hbr). split; [unfold G; auto with words|]. intros j Hj. unfold G. rewrite Hstepb by done.
    destruct (Z.testbit (maskOf begin end_ k) j); [|done]. rewrite Hbl, Hbr by done. f_equal. destruct negate; simpl; [by rewrite testbit_not64 | done].
Qed.

Lemma combined_ranges negate inPlace left right target begin end_ :
  wfBits target → wfBits (leftOf inPlace left target) → wfBits right →
  rangeOf target begin end_ → rangeOf (leftOf inPlace left target) begin end_ → rangeOf right begin end_ →
  (∃ t, andRange negate (leftOf inPlace left) right begin end_ target = Ok t ∧ length t = length target ∧ wfBits t ∧
    ∀ i, 0 ≤ i → bit t i = if bool_decide (begin ≤ i < end_) then bit (leftOf inPlace left target) i && xorb negate (bit right i) else bit target i) ∧
  (∃ t, orRange negate (leftOf inPlace left) right begin end_ target = Ok t ∧ length t = length target ∧ wfBits t ∧
    ∀ i, 0 ≤ i → bit t i = if bool_decide (begin ≤ i < end_) then bit (leftOf inPlace left target) i || xorb negate (bit right i) else bit target i).
Proof.
  intros Hwt Hwl Hwr Hrt Hrl Hrr. split.
  - assert (∀ t m l r j, 0 ≤ j < 64 → Z.testbit (Z.lor (Z.land t (not64 m)) (Z.land (Z.land m l) r)) j = if Z.testbit m j then Z.testbit l j && Z.testbit r j else Z.testbit t j) as Hs.
    { intros t m l r j Hj. rewrite Z.lor_spec, !Z.land_spec, testbit_not64 by done. by destruct (Z.testbit m j), (Z.testbit t j), (Z.testbit l j), (Z.testbit r j). }
    assert (∀ t m l r, isWord t → isWord m → isWord l → isWord r → isWord (Z.lor (Z.land t (not64 m)) (Z.land (Z.land m l) r))) as Hw by auto with words.
    destruct (combine_range Z.land andb _ negate inPlace left right target begin end_ ltac:(auto with words) ltac:(intros; apply Z.land_spec) Hw Hs Hwt Hwl Hwr Hrt Hrl Hrr) as (t & E & H).
    exists t. split; [|done]. by destruct negate.
  - assert (∀ t m l r j, 0 ≤ j < 64 → Z.testbit (Z.lor (Z.land t (not64 m)) (Z.land m (Z.lor l r))) j = if Z.testbit m j then Z.testbit l j || Z.testbit r j else Z.testbit t j) as Hs.
    { intros t m l r j Hj. rewrite Z.lor_spec, !Z.land_spec, Z.lor_spec, testbit_not64 by done. by destruct (Z.testbit m j), (Z.testbit t j), (Z.testbit l j), (Z.testbit r j). }
    assert (∀ t m l r, isWord t → isWord m → isWord l → isWord r → isWord (Z.lor (Z.land t (not64 m)) (Z.land m (Z.lor l r)))) as Hw by auto with words.
    destruct (combine_range Z.lor orb _ negate inPlace left right target begin end_ ltac:(auto with words) ltac:(intros; apply Z.lor_spec) Hw Hs Hwt Hwl Hwr Hrt Hrl Hrr) as (t & E & H).
    exists t. split; [|done]. by destruct negate.
Qed.

(** C25: The functions that combine two bitmaps, for a range of rows within all of
    them that ends below row 2^31 - 64 (beyond it the index of the loop over the
    words overflows): in the range every bit is the AND, or the OR, of the bits of
    the two, the second one negated when asked for, and outside it the target is
    as before; also when the target is itself the first of the two. *)
Theorem combined_bits negate inPlace left right target begin end_ :
  wfBits target → wfBits (leftOf inPlace left target) → wfBits right →
  rangeOf target begin end_ → rangeOf (leftOf inPlace left target) begin end_ → rangeOf right begin end_ →
  (∃ t, andRange negate (leftOf inPlace left) right begin end_ target = Ok t ∧ length t = length target ∧ wfBits t ∧
    ∀ i, 0 ≤ i → bit t i = if bool_decide (begin ≤ i < end_) then bit (leftOf inPlace left target) i && xorb negate (bit right i) else bit target i) ∧
  (∃ t, orRange negate (leftOf inPlace left) right begin end_ target = Ok t ∧ length t = length target ∧ wfBits t ∧
    ∀ i, 0 ≤ i → bit t i = if bool_decide (begin ≤ i < end_) then bit (leftOf inPlace left target) i || xorb negate (bit right i) else bit target i).
Proof. apply combined_ranges. Qed.

Lemma combined_bits_witness : ∃ t, orBits [1] [6] 1 2 = Ok t ∧ bit t 0 = true ∧ bit t 1 = true ∧ bit t 2 = false.
Proof.
  destruct (combined_bits false true [] [6] [1] 1 2) as [_ (t & E & _ & _ & H)].
  1-3: repeat constructor; discriminate.
  1-3: split; [discriminate|]; split; [discriminate | reflexivity].
  exists t. split; [exact E|]. split; [apply (H 0); discriminate|]. split; [apply (H 1) | apply (H 2)]; discriminate.
Defined.

(** ** Single bits *)
Lemma testbit_withByte w k b j : 0 ≤ k → 0 ≤ b < 256 → 0 ≤ j → Z.testbit (withByte w k b) j = if bool_decide (8 * k ≤ j < 8 * k + 8) then Z.testbit b (j - 8 * k) else Z.testbit w j.
Proof.
  intros Hk Hb Hj. unfold withByte. rewrite Z.lor_spec, Z.ldiff_spec, !Z.shiftl_spec by lia. change 255 with (Z.ones 8). rewrite Z.testbit_ones by lia.
  case_bool_decide as Hin.
  - rewrite (proj2 (Z.leb_le _ _)), (proj2 (Z.ltb_lt _ _)) by lia. simpl. by rewrite andb_false_r.
  - destruct (Z.lt_ge_cases j (8 * k)).
    + rewrite (proj2 (Z.leb_gt _ _)), (Z.testbit_neg_r b) by lia. simpl. by rewrite orb_false_r, andb_true_r.
    + rewrite (proj2 (Z.ltb_ge _ _)), andb_false_r, (testbit_small b 8) by (simpl; lia). simpl. by rewrite orb_false_r, andb_true_r.
Qed.

Lemma testbit_byteOf w k j : 0 ≤ k → 0 ≤ j < 8 → Z.testbit (byteOf w k) j = Z.testbit w (8 * k + j).
Proof.
  intros Hk Hj. unfold byteOf. change 255 with (Z.ones 8). rewrite Z.land_spec, Z.shiftr_spec, Z.testbit_ones by lia.
  rewrite (proj2 (Z.leb_le _ _)), (proj2 (Z.ltb_lt _ _)), andb_true_r by lia. f_equal. lia.
Qed.

Lemma bit_insert bits k w i : 0 ≤ i → 0 ≤ k < Z.of_nat (length bits) → bit (<[Z.to_nat k := w]> bits) i = if bool_decide (i / 64 = k) then Z.testbit w (i mod 64) else bit bits i.
Proof.
  intros Hi Hk. unfold bit. case_bool_decide as E.
  - rewrite E, list_lookup_insert_eq by lia. done.
  - rewrite list_lookup_insert_ne; [done|]. intros E'. apply E. assert (0 ≤ i / 64) by dlia. lia.
Qed.

(** A byte changes in one bit. *)
Lemma updateByte_bit bits idx (f : Z → Z) v : wfBits bits → 0 ≤ idx < 64 * Z.of_nat (length bits) →
  (∀ b, 0 ≤ f b < 256 ∧ ∀ j, 0 ≤ j < 8 → Z.testbit (f b) j = if bool_decide (j = idx mod 8) then v else Z.testbit b j) →
  ∃ t, updateByte bits (idx / 8) f = Ok t ∧ length t = length bits ∧ wfBits t ∧ ∀ i, 0 ≤ i → bit t i = if bool_decide (i = idx) then v else bit bits i.
Proof.
  intros Hwf Hidx Hf. unfold updateByte. replace (idx / 8 / 8) with (idx / 64) by (rewrite Z.div_div by lia; done).
  assert (0 ≤ idx / 64 < Z.of_nat (length bits)) as Hk by dlia. destruct (word_at bits (idx / 64) Hwf Hk) as (w & -> & Hw & Hword). simpl. rewrite setWord_in by done.
  set (c := idx / 8 mod 8). assert (0 ≤ c < 8) as Hc by (unfold c; dlia). destruct (Hf (byteOf w c)) as [Hrange Hbits].
  eexists. split; [done|]. split; [apply length_insert|]. split.
  - apply Forall_insert; [done|]. apply isWord_intro. intros i Hi. rewrite testbit_withByte by lia. rewrite bool_decide_false by lia. by apply isWord_high.
  - intros i Hi. rewrite bit_insert by done. case_bool_decide as Ei.
    + assert (bit bits i = Z.testbit w (i mod 64)) as Eb by (unfold bit; by rewrite Ei, Hw). rewrite testbit_withByte by dlia. case_bool_decide as Hin.
      * rewrite Hbits, testbit_byteOf by lia. replace (8 * c + (i mod 64 - 8 * c)) with (i mod 64) by lia. rewrite Eb.
        destruct (bool_decide_reflect (i mod 64 - 8 * c = idx mod 8)), (bool_decide_reflect (i = idx)); try done; exfalso; unfold c in *; dlia.
      * rewrite bool_decide_false; [done|]. intros ->. unfold c in *. dlia.
    + rewrite bool_decide_false; [done|]. by intros ->.
Qed.

Lemma testbit_one_shifted m j : 0 ≤ m → 0 ≤ j → Z.testbit (Z.shiftl 1 m) j = bool_decide (j = m).
Proof. intros Hm Hj. rewrite Z.shiftl_1_l, Z.pow2_bits_eqb by done. destruct (Z.eqb_spec m j), (bool_decide_reflect (j = m)); congruence. Qed.

Lemma byte_range x : (∀ i, 8 ≤ i → Z.testbit x i = false) → 0 ≤ x < 256.
Proof.
  intros H. assert (x = x mod 2 ^ 8) as ->; [|apply Z.mod_pos_bound; lia]. apply Z.bits_inj'. intros i Hi. destruct (Z.lt_ge_cases i 8).
  - by rewrite Z.mod_pow2_bits_low.
  - by rewrite Z.mod_pow2_bits_high, H by lia.
Qed.

Lemma isBitSet_bit bits idx : wfBits bits → 0 ≤ idx < 64 * Z.of_nat (length bits) → idx ≤ int32_max → isBitSet bits idx = Ok (bit bits idx).
Proof.
  intros Hwf Hidx Hmax. unfold isBitSet. assert (uwrap 64 idx = idx) as -> by (apply Z.mod_small; unfold int32_max in *; lia).
  destruct (word_at bits (idx / 64) Hwf ltac:(dlia)) as (w & -> & Hw & _). simpl. f_equal. unfold bit. rewrite Hw, land_63.
  assert (0 ≤ idx mod 64 < 64) as Hm by dlia. set (m := idx mod 64) in *. destruct (Z.eqb_spec (Z.land w (Z.shiftl 1 m)) 0) as [E|E]; simpl.
  - assert (Z.testbit (Z.land w (Z.shiftl 1 m)) m = false) as H by by rewrite E, Z.bits_0. rewrite Z.land_spec, testbit_one_shifted, bool_decide_true, andb_true_r in H by lia. done.
  - destruct (Z.testbit w m) eqn:Et; [done|]. destruct E. apply Z.bits_inj'. intros j Hj. rewrite Z.land_spec, testbit_one_shifted, Z.bits_0 by lia.
    case_bool_decide; [subst j; by rewrite Et | apply andb_false_r].
Qed.

(** [setBit] and [clearBit], which work on a byte, change exactly the one bit
    of the words, and [isBitSet], which works on a word, reads it. *)
Theorem single_bits bits idx value : wfBits bits → 0 ≤ idx < 64 * Z.of_nat (length bits) → idx ≤ int32_max →
  isBitSet bits idx = Ok (bit bits idx) ∧
  ∃ t, setBitTo bits idx value = Ok t ∧ length t = length bits ∧ wfBits t ∧ ∀ i, 0 ≤ i → bit t i = if bool_decide (i = idx) then value else bit bits i.
Proof.
  intros Hwf Hidx Hmax. split; [by apply isBitSet_bit|]. assert (0 ≤ idx mod 8 < 8) as Hm by dlia. destruct value; simpl; apply updateByte_bit; try done; intros b.
  - split; [apply Z.mod_pos_bound; lia|]. intros j Hj. unfold uwrap. rewrite Z.mod_pow2_bits_low, Z.lor_spec, testbit_one_shifted by lia.
    case_bool_decide; [by rewrite orb_true_r | by rewrite orb_false_r].
  - assert (∀ j, 0 ≤ j < 8 → Z.testbit (kZeroBitmask (idx mod 8)) j = negb (bool_decide (j = idx mod 8))) as Hk.
    { intros j Hj. unfold kZeroBitmask, uwrap. by rewrite Z.mod_pow2_bits_low, Z.lnot_spec, testbit_one_shifted by lia. }
    split.
    + apply byte_range. intros i Hi. unfold kZeroBitmask, uwrap. by rewrite Z.land_spec, Z.mod_pow2_bits_high, andb_false_r by lia.
    + intros j Hj. rewrite Z.land_spec, Hk by done. case_bool_decide; simpl; [by rewrite andb_false_r | by rewrite andb_true_r].
Qed.

(** ** [isPowerOfTwo] *)
Theorem isPowerOfTwo_spec size : isWord size → ∃ r, isPowerOfTwo size = Ok r ∧ (r = true ↔ size = 0 ∨ ∃ k, 0 ≤ k < 64 ∧ size = 2 ^ k).
Proof.
  intros Hs. unfold isPowerOfTwo. rewrite countBits_rows by (by constructor || (unfold rangeOf, int32_max; simpl; lia)). csimpl.
  eexists. split; [done|]. assert (rowsWith [size] 0 64 true = bitsOf size) as ->.
  { unfold rowsWith, bitsOf. change (64 - 0) with 64. apply filter_ext_in. intros i Hi%elem_of_seqZ. unfold bit. replace (i / 64) with 0 by dlia. simpl. by replace (i mod 64) with i by dlia. }
  rewrite Z.leb_le. destruct (bitsOf size) as [|i l] eqn:E.
  - apply bitsOf_zero in E; [|done]. simpl. split; [auto | lia].
  - assert (i ∈ bitsOf size) as [Hi Hbit]%elem_of_bitsOf by (rewrite E; left). split.
    + intros Hl. destruct l; [|simpl in Hl; lia]. right. exists i. split; [done|]. rewrite <- Z.shiftl_1_l. apply word_ext; [done| |].
      * rewrite Z.shiftl_1_l. assert (2 ^ i < 2 ^ 64) by (apply Z.pow_lt_mono_r; lia). unfold isWord. pose proof (Z.pow_pos_nonneg 2 i). lia.
      * intros j Hj. rewrite testbit_one_shifted by lia. destruct (bool_decide_reflect (j = i)) as [->|Hne]; [done|]. apply not_true_iff_false. intros Hj'.
        assert (j ∈ bitsOf size) as H by by apply elem_of_bitsOf. rewrite E in H. apply list_elem_of_singleton in H. done.
    + intros [->|(k & Hk & ->)]; [done|]. assert (bitsOf (2 ^ k) = [k]) as E'.
      { unfold bitsOf. change (seqZ 0 64) with (seqZ 0 (64 - 0)). rewrite (filter_seqZ _ 0 k (k + 1) 64); [by replace (k + 1 - k) with 1 by lia | lia..|].
        intros j Hj. rewrite <- Z.shiftl_1_l, testbit_one_shifted by lia. rewrite bool_decide_eq_true. lia. }
      rewrite E' in E. injection E as _ <-. simpl. lia.
Qed.

(** ** Bytes and hashes *)
Lemma reverseByte_all : forallb (λ b, forallb (λ j, eqb (Z.testbit (uwrap 8 (reverseByte b)) j) (Z.testbit b (7 - j))) (seqZ 0 8)) (seqZ 0 256) = true.
Proof. vm_compute. reflexivity. Qed.

(** The bits of a byte in reverse order. *)
Theorem reverseByte_bits b j : 0 ≤ b < 256 → 0 ≤ j < 8 → Z.testbit (uwrap 8 (reverseByte b)) j = Z.testbit b (7 - j).
Proof.
  intros Hb Hj. pose proof reverseByte_all as H. rewrite forallb_elem in H. specialize (H b ltac:(apply elem_of_seqZ; lia)). rewrite forallb_elem in H.
  apply eqb_prop, H. apply elem_of_seqZ. lia.
Qed.

Theorem commutativeHashMix_comm a b : commutativeHashMix a b = commutativeHashMix b a.
Proof. unfold commutativeHashMix. by rewrite (Z.add_comm a b), (Z.mul_comm a b). Qed.

(** ** The last rows *)

(** The test [i + 64 <= lastWord] overflows when the range reaches the last word
    whose rows an [int32_t] can number. *)
Theorem last_rows_overflow {S} (p : Z → Z → S → outcome S) f s : forEachWord p f 2147483584 2147483600 s = Undefined.
Proof. reflexivity. Qed.
