(* ===== verification/BloomFilter.v ===== *)
(** * Bloom filters

    Models [common/base/BloomFilter.h] over the bitmaps of [BitUtil], with the
    byte streams of [common/base/IOUtils.h] it is serialized with.  Bytes are
    numbers below 256. *)
From S2P Require Import Prelude Bits BitUtil BitUtilWords BitUtilTheorems BitUtilUpdates.
Local Open Scope Z_scope.

(** ** Streams of bytes *)

(** The bytes of a number of [n] bytes in memory, the lowest first, and the
    number of such bytes. *)
Fixpoint bytesOf (n : nat) (x : Z) : list Z :=
  match n with O => [] | S n => x mod 256 :: bytesOf n (x / 256) end.
Fixpoint numberOf (bytes : list Z) : Z :=
  match bytes with [] => 0 | b :: bytes => b + 256 * numberOf bytes end.

(** [stream.read<T>()] for a type of [n] bytes: its value without sign, and the
    rest. *)
Definition readBytes (n : nat) (data : list Z) : outcome (Z * list Z) :=
  if (n <=? length data)%nat then Ok (numberOf (take n data), drop n data) else Undefined.

(** The words that an array of [uint64_t] at this place has. *)
Fixpoint wordsAt (n : nat) (data : list Z) : list Z :=
  match n with
  | O => []
  | S n => if (8 <=? length data)%nat then numberOf (take 8 data) :: wordsAt n (drop 8 data) else []
  end.

(** ** The filter *)
Definition reset (capacity : Z) : list Z :=
  let size := Z.max 4 (swrap 32 (nextPowerOfTwo (uwrap 64 capacity) / 4)) in
  replicate (Z.to_nat (uwrap 64 size)) 0.

Definition isSet (bits_ : list Z) : bool := (0 <? length bits_)%nat.

Definition bloomMask (hashCode : Z) : Z :=
  Z.lor (Z.lor (Z.lor (Z.shiftl 1 (Z.land hashCode 63)) (Z.shiftl 1 (Z.land (Z.shiftr hashCode 6) 63)))
    (Z.shiftl 1 (Z.land (Z.shiftr hashCode 12) 63))) (Z.shiftl 1 (Z.land (Z.shiftr hashCode 18) 63)).

(** [bits_.size()] goes through an [int32_t] to the [uint32_t] argument. *)
Definition bloomIndex (bloomSize hashCode : Z) : Z :=
  let bloomSize := uwrap 32 (swrap 32 bloomSize) in
  uwrap 32 (Z.land (Z.shiftr hashCode 24) (uwrap 32 (bloomSize - 1))).

Definition insert (bits_ : list Z) (value : Z) : outcome (list Z) :=
  let idx := bloomIndex (Z.of_nat (length bits_)) value in
  w ← index bits_ idx; setWord bits_ idx (Z.lor w (bloomMask value)).

Definition mayContain (bits_ : list Z) (value : Z) : outcome bool :=
  let mask := bloomMask value in
  w ← index bits_ (bloomIndex (Z.of_nat (length bits_)) value); Ok (mask =? Z.land w mask).

Definition kBloomFilterV1 : Z := 1.

Definition serializedSize (bits_ : list Z) : Z := uwrap 32 (1 + 4 + Z.of_nat (length bits_) * 8).

(** The offset of the stream is an [int32_t]. *)
Definition serialize (bits_ : list Z) (output : list Z) : outcome (list Z) :=
  if int32_max <? 5 + 8 * Z.of_nat (length bits_) then Undefined
  else writeTo (bytesOf 1 kBloomFilterV1 ++ bytesOf 4 (Z.of_nat (length bits_)) ++ mjoin (bytesOf 8 <$> bits_)) output.

(** [std::vector::resize]. *)
Definition resizeWords (bits_ : list Z) (size : Z) : outcome (list Z) :=
  if size <? 0 then Throw LengthError
  else Ok (take (Z.to_nat size) bits_ ++ replicate (Z.to_nat size - length bits_) 0).

Definition merge (bits_ : list Z) (serialized : list Z) : outcome (list Z) :=
  v ← readBytes 1 serialized;
  let '(version, rest) := v in
  if negb (kBloomFilterV1 =? swrap 8 version) then Throw VeloxUserError else
  s ← readBytes 4 rest;
  let '(size, rest) := s in
  let size := swrap 32 size in
  bits_ ← resizeWords bits_ size;
  let bitsdata := wordsAt (Z.to_nat size) rest in
  if (length bits_ =? 0)%nat then Ok bits_ else
  velox_check (Z.of_nat (length bits_) =? size) ;;
  n ← mul32 64 size;
  orBits bits_ bitsdata 0 n.

(** ** The rows of a value *)
Definition rowsOf (size value : Z) : list Z :=
  (λ s, 64 * bloomIndex size value + Z.land (Z.shiftr value s) 63) <$> [0; 6; 12; 18].

Lemma land_63_range x : 0 ≤ Z.land x 63 < 64.
Proof. rewrite land_63. dlia. Qed.

Lemma testbit_bloomMask h j : 0 ≤ j → Z.testbit (bloomMask h) j = existsb (λ s, j =? Z.land (Z.shiftr h s) 63) [0; 6; 12; 18].
Proof.
  intros Hj. unfold bloomMask. rewrite !Z.lor_spec, !testbit_one_shifted by (done || apply land_63_range).
  assert (∀ x, bool_decide (j = x) = (j =? x)) as Hd by (intros x; destruct (bool_decide_reflect (j = x)), (Z.eqb_spec j x); done).
  rewrite !Hd. cbn [existsb]. rewrite Z.shiftr_0_r, orb_false_r, !orb_assoc. done.
Qed.

Lemma isWord_bloomMask h : isWord (bloomMask h).
Proof.
  apply isWord_intro. intros i Hi. rewrite testbit_bloomMask by lia. apply not_true_iff_false. rewrite existsb_exists. intros (s & _ & E%Z.eqb_eq).
  pose proof (land_63_range (Z.shiftr h s)). lia.
Qed.

(** A filter with words, as many as an [int32_t] counts. *)
Definition wfFilter (bits_ : list Z) : Prop := wfBits bits_ ∧ 1 ≤ Z.of_nat (length bits_) < 2 ^ 31.

Lemma bloomIndex_range size h : 1 ≤ size < 2 ^ 31 → 0 ≤ h → 0 ≤ bloomIndex size h < size.
Proof.
  intros Hs Hh. unfold bloomIndex. assert (swrap 32 size = size) as -> by (apply swrap_small; simpl; lia). assert (uwrap 32 size = size) as -> by (apply Z.mod_small; lia).
  assert (uwrap 32 (size - 1) = size - 1) as -> by (apply Z.mod_small; lia). set (x := Z.shiftr h 24). assert (0 ≤ x) by (by apply Z.shiftr_nonneg).
  assert (0 ≤ Z.land x (size - 1) ≤ size - 1) as Hl.
  { split; [apply Z.land_nonneg; lia|]. rewrite Z.land_comm. assert (Z.ldiff (size - 1) x = size - 1 - Z.land (size - 1) x) as E.
    { pose proof (Z.sub_nocarry_ldiff (size - 1) (Z.land (size - 1) x)) as Hd. rewrite Hd.
      - apply Z.bits_inj'. intros i Hi. rewrite !Z.ldiff_spec, Z.land_spec. by destruct (Z.testbit (size - 1) i), (Z.testbit x i).
      - apply Z.bits_inj'. intros i Hi. rewrite Z.ldiff_spec, Z.land_spec, Z.bits_0. by destruct (Z.testbit (size - 1) i), (Z.testbit x i). }
    assert (0 ≤ Z.ldiff (size - 1) x) by (apply Z.ldiff_nonneg; lia). lia. }
  unfold uwrap. rewrite Z.mod_small by lia. lia.
Qed.

Lemma rowsOf_range size h i : 1 ≤ size < 2 ^ 31 → 0 ≤ h → i ∈ rowsOf size h → 0 ≤ i < 64 * size ∧ i / 64 = bloomIndex size h.
Proof.
  intros Hs Hh. unfold rowsOf. rewrite list_elem_of_fmap. intros (s & -> & _). pose proof (bloomIndex_range size h Hs Hh). pose proof (land_63_range (Z.shiftr h s)). dlia.
Qed.

(** Values are found by their rows. *)
Lemma elem_of_rowsOf size h i : 0 ≤ i → i ∈ rowsOf size h ↔ i / 64 = bloomIndex size h ∧ Z.testbit (bloomMask h) (i mod 64) = true.
Proof.
  intros Hi. rewrite testbit_bloomMask by dlia. rewrite existsb_exists. unfold rowsOf. rewrite list_elem_of_fmap. split.
  - intros (s & -> & Hs). pose proof (land_63_range (Z.shiftr h s)). split; [dlia|]. exists s. split; [by apply list_elem_of_In | apply Z.eqb_eq; dlia].
  - intros (E & s & Hs & E2%Z.eqb_eq). exists s. split; [dlia | by apply list_elem_of_In].
Qed.

Lemma insert_rows bits_ h : wfFilter bits_ → 0 ≤ h → ∃ t, insert bits_ h = Ok t ∧ length t = length bits_ ∧ wfFilter t ∧
  ∀ i, 0 ≤ i → bit t i = bit bits_ i || bool_decide (i ∈ rowsOf (Z.of_nat (length bits_)) h).
Proof.
  intros [Hwf Hs] Hh. unfold insert. set (k := bloomIndex _ h). assert (0 ≤ k < Z.of_nat (length bits_)) as Hk by (by apply bloomIndex_range).
  destruct (word_at bits_ k Hwf Hk) as (w & -> & Hw & Hword). csimpl. rewrite setWord_in by done. eexists. split; [done|]. split; [apply length_insert|]. split.
  - split; [|by rewrite length_insert]. apply Forall_insert; [done|]. apply isWord_lor; [done | apply isWord_bloomMask].
  - intros i Hi. rewrite bit_insert by done. assert (bool_decide (i ∈ rowsOf (Z.of_nat (length bits_)) h) = bool_decide (i / 64 = k ∧ Z.testbit (bloomMask h) (i mod 64) = true)) as ->
      by (by apply bool_decide_ext, elem_of_rowsOf).
    case_bool_decide as E.
    + rewrite Z.lor_spec. assert (bit bits_ i = Z.testbit w (i mod 64)) as -> by (unfold bit; by rewrite E, Hw). f_equal. case_bool_decide as E2; [by destruct E2|].
      destruct (Z.testbit (bloomMask h) (i mod 64)); [|done]. destruct E2. done.
    + rewrite (bool_decide_false (i / 64 = k ∧ _)) by tauto. by rewrite orb_false_r.
Qed.

Lemma mayContain_rows bits_ h : wfFilter bits_ → 0 ≤ h → ∃ r, mayContain bits_ h = Ok r ∧ (r = true ↔ ∀ i, i ∈ rowsOf (Z.of_nat (length bits_)) h → bit bits_ i = true).
Proof.
  intros [Hwf Hs] Hh. unfold mayContain. set (k := bloomIndex _ h). assert (0 ≤ k < Z.of_nat (length bits_)) as Hk by (by apply bloomIndex_range).
  destruct (word_at bits_ k Hwf Hk) as (w & -> & Hw & Hword). csimpl. eexists. split; [done|].
  rewrite <- (Z.land_diag (bloomMask h)) at 1. rewrite masked_eq by apply isWord_bloomMask. split.
  - intros H i Hi. destruct (rowsOf_range _ _ _ Hs Hh Hi) as [Hr _]. apply elem_of_rowsOf in Hi as [E Hm]; [|lia].
    specialize (H (i mod 64) ltac:(dlia) Hm). unfold bit. fold k in E. rewrite E, Hw. congruence.
  - intros H j Hj Hm. rewrite Hm. symmetry. rewrite <- (bit_at bits_ k w j Hw Hj). apply H. apply elem_of_rowsOf; [lia|].
    replace ((64 * k + j) / 64) with k by dlia. by replace ((64 * k + j) mod 64) with j by dlia.
Qed.

(** ** Building a filter *)
Lemma reset_wf capacity : wfFilter (reset capacity) ∧ ∀ i, bit (reset capacity) i = false.
Proof.
  unfold reset. set (n := Z.max 4 _). assert (4 ≤ n < 2 ^ 31) as Hn.
  { unfold n, swrap. pose proof (Z.mod_pos_bound (nextPowerOfTwo (uwrap 64 capacity) / 4 + 2 ^ (32 - 1)) (2 ^ 32) ltac:(lia)). simpl in *. lia. }
  clearbody n. assert (uwrap 64 n = n) as -> by (apply Z.mod_small; lia). split; [split|].
  - apply Forall_replicate. unfold isWord. lia.
  - rewrite length_replicate. lia.
  - intros i. unfold bit. destruct (_ !! _) as [w|] eqn:E; [|done]. apply lookup_replicate in E as [-> _]. apply Z.bits_0.
Qed.

Lemma insertAll_rows hs : Forall (λ h, 0 ≤ h) hs → ∀ bits_, wfFilter bits_ → ∃ t, foldM_o insert hs bits_ = Ok t ∧ wfFilter t ∧ length t = length bits_ ∧
  ∀ i, 0 ≤ i → bit t i = true ↔ bit bits_ i = true ∨ ∃ h, h ∈ hs ∧ i ∈ rowsOf (Z.of_nat (length bits_)) h.
Proof.
  induction 1 as [|h hs Hh _ IH]; intros bits_ Hwf; cbn [foldM_o].
  { exists bits_. split; [done|]. split; [done|]. split; [done|]. intros i _. split; [auto|]. intros [?|(h & []%elem_of_nil & _)]; done. }
  destruct (insert_rows bits_ h Hwf Hh) as (t1 & -> & Hl1 & Hwf1 & Hb1). cbn [mbind outcome_bind]. destruct (IH t1 Hwf1) as (t & E & Hwf' & Hl & Hb). exists t.
  split; [done|]. split; [done|]. split; [lia|]. intros i Hi. rewrite Hb, Hb1, Hl1, orb_true_iff, bool_decide_eq_true by done. split.
  - intros [[?|?]|(h' & ? & ?)]; [by left | right; exists h; split; [left | done] | right; exists h'; split; [by right | done]].
  - intros [?|(h' & [->|?]%elem_of_cons & ?)]; [by left; left | by left; right | right; by exists h'].
Qed.

(** C17: No false negatives: whatever hash codes are inserted into a filter that
    has been reset for any capacity, every insertion succeeds within the array
    and every inserted value is reported; a filter that has just been reset
    reports nothing. *)
Theorem bloom_no_false_negatives capacity hs : Forall (λ h, 0 ≤ h < 2 ^ 64) hs →
  (∃ t, foldM_o insert hs (reset capacity) = Ok t ∧ isSet t = true ∧ ∀ h, h ∈ hs → mayContain t h = Ok true) ∧
  (∀ h, h ∈ hs → mayContain (reset capacity) h = Ok false).
Proof.
  intros Hhs. destruct (reset_wf capacity) as [Hwf Hzero]. split.
  - destruct (insertAll_rows hs (Forall_impl _ _ _ Hhs ltac:(naive_solver)) (reset capacity) Hwf) as (t & E & Hwf' & Hl & Hb). exists t. split; [done|].
    split; [destruct Hwf' as [_ Hn]; apply Nat.ltb_lt; lia|]. intros h Hh. rewrite Forall_forall in Hhs. destruct (Hhs h Hh) as [Hh0 _].
    destruct (mayContain_rows t h Hwf' Hh0) as (r & -> & Hr). f_equal. apply Hr. intros i Hi. rewrite Hl in Hi. destruct Hwf as [_ Hn].
    destruct (rowsOf_range _ _ _ Hn Hh0 Hi) as [? _]. apply Hb; [lia|]. right. by exists h.
  - intros h Hh. rewrite Forall_forall in Hhs. destruct (Hhs h Hh) as [Hh0 _]. destruct (mayContain_rows (reset capacity) h Hwf Hh0) as (r & -> & Hr). f_equal.
    apply not_true_iff_false. intros E. specialize (proj1 Hr E (64 * bloomIndex (Z.of_nat (length (reset capacity))) h + Z.land (Z.shiftr h 0) 63) ltac:(left)). by rewrite Hzero.
Qed.

Lemma bloom_no_false_negatives_witness : ∃ t, foldM_o insert [5; 2 ^ 64 - 1] (reset 100) = Ok t ∧ mayContain t 5 = Ok true ∧ mayContain t (2 ^ 64 - 1) = Ok true.
Proof.
  destruct (bloom_no_false_negatives 100 [5; 2 ^ 64 - 1]) as [(t & E & _ & H) _].
  - repeat constructor; discriminate.
  - exists t. split; [exact E|]. split; apply H; [left | right; left].
Defined.

(** ** Bytes *)
Lemma length_bytesOf n x : length (bytesOf n x) = n.
Proof. revert x. induction n as [|n IH]; intros x; simpl; auto. Qed.

Lemma numberOf_bytesOf n x : 0 ≤ x < 256 ^ Z.of_nat n → numberOf (bytesOf n x) = x.
Proof.
  revert x. induction n as [|n IH]; intros x Hx; simpl; [simpl in Hx; lia|]. rewrite Nat2Z.inj_succ, Z.pow_succ_r in Hx by lia.
  rewrite IH by (split; [dlia | apply Z.div_lt_upper_bound; lia]). dlia.
Qed.

Lemma readBytes_bytesOf n x rest : 0 ≤ x < 256 ^ Z.of_nat n → readBytes n (bytesOf n x ++ rest) = Ok (x, rest).
Proof.
  intros Hx. unfold readBytes. rewrite length_app, length_bytesOf, (proj2 (Nat.leb_le _ _)) by lia.
  by rewrite take_app_length', drop_app_length', numberOf_bytesOf by (done || by rewrite length_bytesOf).
Qed.

Lemma wordsAt_bytes l : wfBits l → wordsAt (length l) (mjoin (bytesOf 8 <$> l)) = l.
Proof.
  induction 1 as [|w l Hw _ IH]; [done|]. rewrite fmap_cons. change (mjoin (bytesOf 8 w :: (bytesOf 8 <$> l))) with (bytesOf 8 w ++ mjoin (bytesOf 8 <$> l)). cbn [length wordsAt].
  rewrite length_app, length_bytesOf, (proj2 (Nat.leb_le _ _)) by lia. rewrite take_app_length', drop_app_length' by (by rewrite length_bytesOf). rewrite IH, numberOf_bytesOf; [done|]. exact Hw.
Qed.

Lemma length_words_bytes (l : list Z) : length (mjoin (bytesOf 8 <$> l)) = (8 * length l)%nat.
Proof.
  induction l as [|w l IH]; [done|]. rewrite fmap_cons. change (mjoin (bytesOf 8 w :: (bytesOf 8 <$> l))) with (bytesOf 8 w ++ mjoin (bytesOf 8 <$> l)).
  rewrite length_app, length_bytesOf, IH. cbn [length]. lia.
Qed.

(** ** Merging *)
Lemma bits_ext a b : wfBits a → wfBits b → length a = length b → (∀ i, 0 ≤ i → bit a i = bit b i) → a = b.
Proof.
  intros Ha Hb Hl H. apply (list_eq_same_length _ _ (length b)); [done | done|]. intros k x y Hk Hx Hy.
  apply word_ext; [by apply (Forall_lookup_1 _ _ _ _ Ha Hx) | by apply (Forall_lookup_1 _ _ _ _ Hb Hy)|]. intros j Hj.
  specialize (H (64 * Z.of_nat k + j) ltac:(lia)). by rewrite (bit_at a (Z.of_nat k) x j), (bit_at b (Z.of_nat k) y j) in H by (done || by rewrite Nat2Z.id).
Qed.

Lemma serialize_bytes b out : 5 + 8 * Z.of_nat (length b) ≤ int32_max → length out = Z.to_nat (serializedSize b) →
  serialize b out = Ok (bytesOf 1 kBloomFilterV1 ++ bytesOf 4 (Z.of_nat (length b)) ++ mjoin (bytesOf 8 <$> b)).
Proof.
  intros Hmax Hout. unfold serialize. rewrite (proj2 (Z.ltb_ge _ _)) by lia. apply writeTo_exact. rewrite !length_app, !length_bytesOf, length_words_bytes, Hout.
  unfold serializedSize, uwrap. unfold int32_max in Hmax. rewrite Z.mod_small by lia. lia.
Qed.

(** The words of [a] after it has been resized. *)
Lemma resized (a b : list Z) : (a = [] ∨ wfBits a ∧ length a = length b) →
  ∃ a', resizeWords a (Z.of_nat (length b)) = Ok a' ∧ wfBits a' ∧ length a' = length b ∧ ∀ i, bit a' i = bit a i.
Proof.
  intros Ha. unfold resizeWords. rewrite (proj2 (Z.ltb_ge _ _)), Nat2Z.id by lia. destruct Ha as [->|[Hwf Hl]].
  - rewrite take_nil. simpl. rewrite Nat.sub_0_r. eexists. split; [done|]. split; [apply Forall_replicate; unfold isWord; lia|]. split; [apply length_replicate|].
    intros i. unfold bit. destruct (replicate _ _ !! _) as [w|] eqn:E; [|done]. apply lookup_replicate in E as [-> _]. apply Z.bits_0.
  - rewrite <- Hl, take_ge, Nat.sub_diag by lia. simpl. rewrite app_nil_r. by exists a.
Qed.

(** The most words a filter can have for [merge] to number its bits. *)
Definition maxWords : Z := 33554430.

(** C24: Merging the serialized form of a filter of at most 2^25 - 2 words, so of
    every filter that was reset for up to 2^26 entries, into one that is empty or
    has the same size gives the union: the serialized form has the documented
    size, every bit is set that is set in one of them, so that every value
    reported by one of them is reported, and merging into an empty filter
    restores the filter that was serialized.  (With 2^25 words, which a reset for
    2^27 entries makes, merging overflows: [merge_large_overflows].) *)
Theorem bloom_merge_union a b out : (a = [] ∨ wfBits a ∧ length a = length b) → wfFilter b → Z.of_nat (length b) ≤ maxWords → length out = Z.to_nat (serializedSize b) →
  ∃ bytes t, serialize b out = Ok bytes ∧ length bytes = length out ∧ merge a bytes = Ok t ∧ wfFilter t ∧ length t = length b ∧
    (∀ i, 0 ≤ i → bit t i = bit a i || bit b i) ∧
    (∀ h, 0 ≤ h → mayContain a h = Ok true ∨ mayContain b h = Ok true → mayContain t h = Ok true) ∧
    (a = [] → t = b).
Proof.
  intros Ha [Hwf Hn] Hmax Hout. unfold maxWords in Hmax. rewrite serialize_bytes by (unfold int32_max; lia). eexists.
  destruct (resized a b Ha) as (a' & Ea & Hwa & Hla & Hba).
  assert (rangeOf a' 0 (64 * Z.of_nat (length b)) ∧ rangeOf b 0 (64 * Z.of_nat (length b))) as [Hra Hrb] by (unfold rangeOf, int32_max; lia).
  destruct (combined_ranges false true [] b a' 0 (64 * Z.of_nat (length b)) Hwa Hwa Hwf Hra Hra Hrb) as (_ & t & Et & Hlt & Hwt & Hbt).
  assert (∀ i, 0 ≤ i → bit t i = bit a i || bit b i) as Hbits.
  { intros i Hi. rewrite Hbt by done. simpl. rewrite Hba. case_bool_decide as Hin; [by destruct (bit b i)|]. assert (bit b i = false) as ->; [|by rewrite orb_false_r].
    unfold bit. rewrite lookup_ge_None_2; [done|]. dlia. }
  assert (wfFilter t) as Hwt' by (split; [done | by rewrite Hlt, Hla]).
  exists t. split; [done|]. split; [rewrite Hout, !length_app, !length_bytesOf, length_words_bytes; unfold serializedSize, uwrap; rewrite Z.mod_small by lia; lia|].
  split; [|split; [done|]; split; [lia|]; split; [done|]; split].
  - unfold merge. rewrite readBytes_bytesOf by (unfold kBloomFilterV1; simpl; lia). cbn [mbind outcome_bind]. change (negb (kBloomFilterV1 =? swrap 8 kBloomFilterV1)) with false. cbv iota.
    rewrite readBytes_bytesOf by (simpl; lia). cbn [mbind outcome_bind]. rewrite swrap_small by (simpl; lia). rewrite Ea. cbn [mbind outcome_bind].
    rewrite Nat2Z.id, wordsAt_bytes by done. rewrite (proj2 (Nat.eqb_neq _ _)) by lia. rewrite Hla, Z.eqb_refl. cbn [velox_check mbind outcome_bind].
    unfold mul32. rewrite checked32_Ok by (unfold_ints; lia). cbn [mbind outcome_bind]. exact Et.
  - intros h Hh Hor. destruct (mayContain_rows t h Hwt' Hh) as (r & -> & Hr). f_equal. apply Hr. intros i Hi. rewrite Hlt, Hla in Hi.
    destruct (rowsOf_range _ _ _ Hn Hh Hi) as [Hi0 _]. rewrite Hbits by lia. apply orb_true_iff. destruct Hor as [Hc|Hc].
    + left. destruct Ha as [->|[Hwa' Hl]]; [unfold mayContain, index in Hc; rewrite lookup_nil in Hc; by destruct (_ <? 0)|]. destruct (mayContain_rows a h ltac:(split; [done | by rewrite Hl]) Hh) as (r' & E & Hr'). rewrite E in Hc. injection Hc as ->.
      apply (proj1 Hr' eq_refl). by rewrite Hl.
    + right. destruct (mayContain_rows b h ltac:(by split) Hh) as (r' & E & Hr'). rewrite E in Hc. injection Hc as ->. by apply (proj1 Hr' eq_refl).
  - intros ->. apply bits_ext; [done | done | lia|]. intros i Hi. by rewrite Hbits.
Qed.

Lemma bloom_merge_union_witness : ∃ bytes t,
  serialize (reset 16) (replicate 37 0) = Ok bytes ∧ merge [] bytes = Ok t ∧ t = reset 16.
Proof.
  destruct (bloom_merge_union [] (reset 16) (replicate 37 0)) as (bytes & t & E & _ & Em & _ & _ & _ & _ & Ht).
  - left. reflexivity.
  - apply reset_wf.
  - vm_compute. discriminate.
  - reflexivity.
  - exists bytes, t. split; [exact E|]. split; [exact Em | exact (Ht eq_refl)].
Defined.

(** ** Where merging goes wrong *)

(** Filters of different sizes: the resized one forgets its values, because the
    check of the sizes comes after the resizing. *)
Theorem merge_other_size_forgets :
  (a ← insert (reset 16) (2 ^ 26);
   bytes ← serialize (reset 64) (replicate 133 0);
   merged ← merge a bytes;
   before ← mayContain a (2 ^ 26);
   after ← mayContain merged (2 ^ 26);
   Ok (before, after)) = Ok (true, false).
Proof. vm_compute. reflexivity. Qed.

(** Filters of 2^25 words, which [reset] makes for 2^27 entries: the number of
    their bits is not an [int32_t]. *)
Theorem merge_large_overflows a rest size : 2 ^ 25 ≤ size < 2 ^ 31 → merge a (bytesOf 1 1 ++ bytesOf 4 size ++ rest) = Undefined.
Proof.
  intros Hs. unfold merge. rewrite readBytes_bytesOf by (simpl; lia). cbn [mbind outcome_bind]. change (negb (kBloomFilterV1 =? swrap 8 1)) with false. cbv iota.
  rewrite readBytes_bytesOf by (simpl; lia). cbn [mbind outcome_bind]. rewrite swrap_small by (simpl; lia). unfold resizeWords. rewrite (proj2 (Z.ltb_ge _ _)) by lia. cbn [mbind outcome_bind].
  set (r := take _ a ++ _). assert (length r = Z.to_nat size) as Hl by (unfold r; rewrite length_app, length_take, length_replicate; lia).
  rewrite Hl, (proj2 (Nat.eqb_neq _ _)), (proj2 (Z.eqb_eq _ _)) by lia. cbn [velox_check mbind outcome_bind]. unfold mul32, checked32, int32b, int32_max, int32_min.
  rewrite (proj2 (Z.leb_gt (64 * size) _)), andb_false_r by lia. done.
Qed.

Theorem reset_large : Z.of_nat (length (reset (2 ^ 27))) = 2 ^ 25.
Proof. unfold reset. rewrite length_replicate, Z2Nat.id by (apply uwrap_range; lia). vm_compute. reflexivity. Qed.
